(* ===== verification/_CoqProject ===== *)
-Q . S2P
Prelude.v
JsString.v
Json.v
Sql.v
Regex.v
Wire.v
Records.v
Effects.v
Dispatcher.v
DispatcherFacts.v
StoragePort.v
HostPorts.v
Discovery.v
JsMap.v
Projection.v
PendingEntries.v
PendingTurns.v
RefreshTheorems.v
Idb.v
WebOutbox.v
WebFacts.v
WebInvariant.v
WebReach.v
WebSettlement.v
WebPort.v
WebTheorems.v
IdbConnection.v
IdbTransaction.v
NativeOutbox.v
NativeOutboxFacts.v
NativeInvariant.v
NativePort.v
NativeHistory.v
NativeQueue.v
NativeSurvivors.v
NativeTheorems.v
NativeActions.v
SendQueue.v
HistoryPaging.v
ReadyFence.v
BootGeneration.v
TranscriptItems.v
TranscriptHistory.v
TranscriptOverlay.v
MergeFacts.v
ThreadModel.v
ThreadReads.v
MergeTheorems.v
StableDelegate.v
WarningFold.v
Reducer.v
DisplayFacts.v
ThreadReach.v
ThreadTheorems.v
ReducerTheorems.v
ThreadSubscription.v
SubscriptionWorld.v
SubscriptionSteps.v
SubscriptionTheorems.v
AppwireClient.v
AppwireFacts.v
AppwireInvariant.v
AppwireSteps.v
AppwireTheorems.v
NavigationKeys.v
NavigationCodec.v
NavigationFacts.v
NavigationTyping.v
NavigationGraph.v
NavigationMerge.v
NavigationRows.v
NavigationGraphTheorems.v
NavigationRevalidator.v
NavigationSteps.v
NavigationWaiters.v
NavigationPursuit.v
NavigationTheorems.v
