(* ===== verification/Prelude.v ===== *)
(** * The shared state of the evener clients: durable mutations and live threads

    A person's message must survive a dead connection, a killed app and a second
    tab, reach the daemon at most once in the order it was written, and yield to a
    Stop. The TypeScript clients get this from one shared library,
    appwire-client/typescript, and a storage adapter per host. This development
    models that library's mutation half, the phone's adapter
    (mobile-native/src/mutationOutboxStorage.ts) and the browser's
    (cmd/evener-hub/frontend/src/stores/mutationOutboxIndexedDB.ts over
    idbConnection.ts), statement by statement, and proves what they promise each
    other and the person. What a person reads must in turn be what the daemon
    recorded, however frames, reads and pages race: the library's other half models a
    thread as versioned history under a live overlay, folds notifications into it, and
    shares one wire subscription per thread among everything on screen. Both halves speak
    to the hub over one connection, which dials, greets, beats, backs off and dials again.
    Paths below are under src/; "state/mutation" abbreviates
    appwire-client/typescript/state/mutation.

    ** How the parts meet

    The composer asks the gate (SendQueue) what a click may do, then enqueues an
    intent: the adapter (NativeOutbox or WebOutbox) commits a row, the discovery
    state machine (Discovery) announces its target, and the dispatcher (Dispatcher)
    drains the target's queue through the storage port (StoragePort), marking each
    record attempted before it is sent and settling it on the hub's receipt. What is
    stored is shown by the projection: reads race each other and live commits behind
    a fence (Projection), and the thread's pending entries are reconciled with the
    daemon's own list (PendingEntries, PendingTurns). Under the browser's adapter
    every method is a few transactions (Idb), each one run against its deadline
    (IdbTransaction) over a shared connection (IdbConnection).

    A thread is opened by a read (ThreadReads) that hydrates its model (ThreadModel)
    from wire items (TranscriptItems). Later reads, backfill pages and notifications
    (Reducer) go through one merge (TranscriptHistory), fenced by the boot generation
    (BootGeneration) and epoch of the read they continue; what the person sees is
    derived from the recorded turns and the overlay (TranscriptOverlay). Every reader
    of a thread holds a lease of its membership (ThreadSubscription), and the hub
    serves the thread while someone does (SubscriptionWorld).

    Every request, read and subscription above is a request of the connection
    (AppwireClient), whose ready transitions start the drains and discoveries and whose
    losses end the subscriptions. What the session rail shows is re-read when the hub names
    it in an invalidation (NavigationRevalidator), and a mutation waits until what it
    changed has been. Each such read names its resource by a key (NavigationKeys), what it
    brings is validated (NavigationCodec) and merged into the graph that is held of the
    resource, from which the rail's rows are made (NavigationGraph).

    ** Files

    - Prelude: libraries, the stable sort by an integer key, sets in insertion order,
      automation (this file).
    - JsString, Json, JsMap: what the sources use of JavaScript strings, JSON-shaped
      values and insertion-ordered maps. Regex: anchored patterns by derivatives.
    - Sql: programs over the synchronous SQLite connection (mobile-native/src/
      sqliteSync.ts): statements, exceptions, savepoints; [run] executes one under a
      schedule of injected faults, [exec] on a healthy database.
    - Effects: async methods as trees of the calls they await, interpreters for them,
      and monitors a program obeys whatever the calls answer.
    - Wire (appwire-client/typescript/errors.ts): rejections, their classification and
      the messages shown to a person.
    - Records (state/mutation/records.ts, composerMethods.ts, queuedMessages.ts):
      intents and records, wire identity, accepted copies, the client's identity.
    - Dispatcher, DispatcherFacts (state/mutation/dispatcher.ts): one attempt, one
      drain, reconciliation, and the counters that serialise the runs of a target.
    - StoragePort (the port interface of state/mutation/outbox.ts): the class
      [MutationOutboxStorage] of the calls the dispatcher makes, the class
      [FifoStorage] of the laws it relies on, and what a drain achieves over any
      storage that keeps them. Both adapters are instances.
    - Discovery (class MutationOutbox of state/mutation/outbox.ts): listeners, latched
      scans and the chain of discoveries as a state machine over host events.
    - Projection (state/mutation/projection.ts), PendingEntries (pendingEntries.ts),
      PendingTurns (pendingTurns.ts, submission.ts, commitFeed.ts), RefreshTheorems.
    - HostPorts (secureUUID.ts, settledIdentities.ts, projectionWork.ts and
      frameworkFreeStore.ts), a Module for each.
    - Idb: the four object stores, requests in a transaction ([tx]) and the adapter
      around its transactions ([web]: committed stores, injected faults, notices).
      WebOutbox: MutationOutboxIndexedDB, each public method under its own name over
      a transaction body named with [_tx]. WebFacts: equations, a weakest-precondition
      calculus, and well-formed stores. WebInvariant: every body keeps them. WebReach:
      the transactions as data ([action], [runs], [reachable]) and the methods as runs
      of them ([perform]). WebSettlement: what a settlement leaves of its wire.
      WebPort: the instances of the storage classes. WebTheorems: the properties.
    - IdbConnection (idbConnection.ts): opens, watchdogs, upgrades and closes as an
      event machine. IdbTransaction (#runTransaction): the race of body, engine and
      deadline over it.
    - NativeOutbox: MutationOutboxSQLite's tables, statements and methods, each method
      under its own name. NativeOutboxFacts: a weakest-precondition calculus and the
      well-formedness invariant. NativeInvariant: every operation as data ([op],
      [perform], [step], [reachable]) and the invariant under any faults. NativePort:
      the instances of the two storage classes. NativeHistory: what no operation can
      do. NativeQueue: the queue of a target row by row. NativeSurvivors: unattempted
      rows carry the current epoch. NativeTheorems: the adapter's properties.
      NativeActions: releases, reconciliation, resends and retargets row by row.
    - SendQueue (sendQueueAvailability.ts, submitRouting.ts, sendQueueGate.ts).
    - HistoryPaging (historyPaging.ts) and ReadyFence (readyGenerationFence.ts), both
      of appwire-client/typescript: demand for older pages, and the fence of the
      settings stores.
    - BootGeneration (bootGeneration.ts). TranscriptItems (transcriptItems.ts, model.ts):
      wire items and turns into model ones, with the marks that say which text was
      omitted. TranscriptHistory (transcriptHistory.ts): the merge by version, signals
      and dispositions of reads. TranscriptOverlay (the same file): the live overlay and
      the display turns. ThreadModel (model.ts, olderFrontier.ts): the model and its
      setters. ThreadReads: hydration, latest-window reads, their failures, pages.
    - StableDelegate (stableDelegate.ts), WarningFold (warningFold.ts, warningText.ts) and
      Reducer (reducer.ts): notifications folded into the model.
    - MergeFacts, MergeTheorems: the merge row by row and its algebra. DisplayFacts: the
      display against its reference. ThreadReach: what can happen to an open thread
      ([Event], [take], [run]), and the invariant of every run. ThreadTheorems and
      ReducerTheorems: the properties.
    - ThreadSubscription (threadSubscription.ts): the registry, its memberships as a heap
      and a request's callbacks one by one. SubscriptionWorld: the registry beside the
      hub ([World], [world_step], [runs]) and the invariant that ties what the hub serves
      to what memberships know. SubscriptionSteps: every step keeps it.
      SubscriptionTheorems: the properties.
    - AppwireClient (client.ts): the connection's fields as one record ([Client]), its
      methods up to their awaits and the continuations as events ([Event], [take]);
      [setState] runs subscribers that call the methods back. AppwireFacts: what a
      publication can come to, and the account of requests. AppwireInvariant: what the
      client keeps, with what a method under way still owes ([Late]); AppwireSteps: every
      event of an orderly run restores it ([event_keeps_ok]). AppwireTheorems: the properties.
    - NavigationKeys (state/navigation/types.ts and paramsFor of store.ts, of
      appwire-client/typescript as all of navigation): resource keys, the reads they stand
      for, scopes, container keys and [keyID], with what tells them apart. NavigationCodec
      (codec.ts): validators in a monad of checks ([checked]), the tables of known keys,
      the checks of a graph and the decoding of responses. NavigationGraph (merge.ts,
      immutable.ts and the materializing half of codec.ts): held objects with identities,
      deltas, snapshots and rows. NavigationFacts: what a check that passed established.
      NavigationTyping: dropping unknown keys keeps a record valid. NavigationMerge: each
      entry after a merge. NavigationRows: the places of a valid graph's entities.
      NavigationGraphTheorems: the properties, with a section of two sessions as example.
    - NavigationRevalidator (state/navigation/revalidator.ts and invalidation.ts of
      appwire-client/typescript): entries and runs as heap objects, every method, and a run
      as four events: its request, the answer, the continuation that lands it and the one
      that finishes it. NavigationSteps: every method as a sequence of atomic steps
      ([step], [reach]), the invariant of a step and what only grows. NavigationWaiters:
      waits, method by method. NavigationPursuit: which run each entry has.
      NavigationTheorems: the properties.

    ** What the theorems show

    - Delivery: a drain over either adapter terminates, is first-in first-out and at
      most once, whatever the hub answers ([native_drain], [web_drain], instances of
      [drain_in_world]); the custody of every send ([drain_keeps_custody]); drains of
      a target never overlap and lose no wake.
    - Durability: every database reachable by any operations under any storage faults
      is well formed, on the phone ([reachable_well_formed]) and in the browser
      ([reachable_stores_well_formed], [methods_commit_runs]); a transaction fails by
      itself only on an id already active; operations commit whole or not at all, and
      a browser write's answer is its outcome ([write_answers_truly]); no connection
      leaks, every open is answered, and no call waits in silence.
    - Stop: exactly the unattempted rows are canceled, survivors provably postdate the
      last Stop, a Stop during an attempt holds the row the hub then refuses. In the
      browser the mark is the gate: it answers yes only for a row no Stop of either of
      its refs has crossed ([mark_means_no_stop]), and the fence it skips for rows
      without evidence would have found nothing ([mark_skips_nothing]).
    - Identity: over any run a browser row keeps its method and wire identity
      ([row_history]), a retry that mints carries it on ([mint_retry_exact]), and a
      settlement retires all of a wire ([settlement_retires_wire]).
    - Settlement, releases, resends, retargets: what they do, on every branch.
    - Showing: a read applies exactly what nothing newer has spoken for, a live commit
      outlives older reads, an own send stays pending until the thread reflects it.
    - Discovery, identities, error texts, the send gate, history demand and the
      settings fence.
    - Display: at every moment a thread's display is the derivation from its history, its
      overlay and a running turn, reuse and one-turn rebuilds included
      ([display_is_derived]), and the overlay hides no recorded item
      ([display_shows_recorded]).
    - Recorded items survive whatever arrives ([recorded_items_survive]); frames of whole
      items merge in any order and any number of times to the same turns
      ([merge_converges]), each item by its own frames ([merge_is_keyed]).
    - Reads: a superseded one never lands ([superseded_reads_never_land]), one that
      replaces is a fresh hydration ([replacing_read_hydrates]), and a thread that lost
      its place recovers with its newest read ([lost_place_recovers]).
    - The fold: delegate snapshots join in any order, a retry notice is cleared by model
      output alone, scalar notifications leave the transcript, warnings are bounded and
      visible.
    - Subscriptions: none outlives its holders ([released_subscriptions_end]), a read that
      does not subscribe finds its thread served ([plain_reads_are_served]), and
      concurrent first reads share one subscribe ([concurrent_reads_join]).
    - The connection: it never falls silent ([connection_is_watched]), listens to one
      socket ([one_socket_listens]), closes for good ([closed_is_final]), answers every
      request exactly once ([requests_settle_once]), nests its subscribers four deep at
      most ([subscribers_terminate]) and backs off within bounds ([backoff_bounded]).
    - Navigation: nothing shows itself fresh behind an invalidation that named it
      ([fresh_covers_invalidations]), a superseded answer writes nothing
      ([superseded_runs_never_land]), a wait is over as soon as its targets are reached or
      failed ([waits_settle_at_once]) and one that is pending is for something that is
      still coming ([pending_waits_are_pursued]).
    - What navigation holds: a key is known by its [keyID] ([keyID_identifies]), survives
      the read it is sent as ([params_roundtrip]) and has a scope of its own
      ([scopes_identify_pages]); what is decoded is valid and holds nothing unknown
      ([decoded_snapshot_is_typed]); a delta or snapshot changes what it says and keeps
      every other object ([delta_changes_what_it_names],
      [snapshot_keeps_unchanged_objects]); a valid graph shows each of its entities once
      ([valid_graph_shows_each_once]).
    - Theorems that state divergences from what the sources intend:
      [late_receipt_jams_queue], [second_mark_forgets_stop],
      [callback_error_rejects_applied_record], [stale_fence_opens_queue],
      [reconcile_reorders], [prepared_close_installed],
      [carried_field_drops_text_mark], [abandoned_subscribe_stays],
      [connect_twice_dials_twice], [close_is_undone] and
      [second_read_strands_resource].

    ** Choices

    - A call to the hub is a parameter: a drain's theorem holds for every function from
      what was sent so far to an answer, and custody for every answer to every call.
      Nothing is assumed of it.
    - [web_drain] asks of the stores that no row in play carries the stamp of a Stop
      fence that no longer applies to it ([clean]); [stale_fence_opens_queue] shows how
      a retarget comes to break this, and what the queue then does.
    - [drainTarget] takes fuel; more turns than the queue has rows suffice, because
      a turn that goes round again has sent its head and removed it.
    - Numbers (sequences, epochs, revisions, milliseconds) are integers in Z; SQLite
      and JavaScript hold them exactly far beyond any count reached here.
    - Characters are code units below 256; the one ellipsis the sources print is a
      parameter. A property that is undefined is absent.
    - A savepoint whose ROLLBACK itself fails restores the same state, because SQLite
      has then already ended the transaction. A single statement is atomic.
    - IndexedDB serialises the overlapping writes of all tabs, so a run is a sequence of
      transactions; [getAll] lists a store in the order of its keys. Two cleanups a
      settlement starts without waiting are transactions of their own, which may fail.
    - What the IndexedDB engine may deliver, and when, is the guard of each event of
      IdbConnection and IdbTransaction ([can_happen], [call_can]).
    - Promise.all runs its members in the order given; other interleavings of the
      members' awaits are not explored. Callbacks of the dispatcher may reject with
      any error; a submission's callbacks and the listeners of history paging are
      assumed not to throw.
    - The sources compare display turns and overlay objects with [===]; the model takes any
      such relation of which equal objects have equal values ([SameObject]), so nothing
      proved depends on which objects are shared. The graph of navigation is where identity is
      itself what is promised, so its objects carry one ([Held]), new ones a new number.
    - Positions, versions and epochs are integers; dates are those JavaScript's Date
      holds. The keys of a pruned warning are renamed apart by a search with fuel, which
      [free_key_free] shows is enough; the binary search of a place halves its range.
    - A run of an open thread asks of its events what the daemon's protocol says
      ([event_ok]): a versioned read names a boot generation, a page carries a snapshot.
      Pruning of background bodies is left out of the runs.
    - The hub takes the requests of a connection in the order they were sent; it may
      refuse any. The client may hear of a performed acquisition late, or give up on it
      at any time; what it was misled about by that is part of the state ([misled]) and
      named in the theorem. A registry that retires and is made again keeps counting
      generations; the owner's own retirement is not a step of the runs.
    - The connection's environment ([Environment]) answers whether a socket can be made or
      takes a frame, what the subscribers of a publication call and the random number of
      a backoff, each by how often it was asked; nothing is assumed of it, except that
      where the invariant is needed no subscriber calls [connect] ([subscribers_wait]).
      Sockets and timers speak when no continuation is due, as tasks run after microtasks
      ([can_happen]); the page may call at any moment, but an [orderly] one does not close
      the client between a handshake's response and its continuation. The two theorems
      named last above show what happens without these. A frame's error has a number for
      its code, a delay is in whole milliseconds, and the fuel of [setState] is the depth
      of nesting, of which four levels are all there are.
    - The listeners of navigation call any of its methods back, as a function of the state
      they are shown and of how often one was ([NavigationRevalidator.Environment]); [fuel]
      bounds how deep that nests and [rounds] how many entries added during a loop it
      visits, and every theorem holds for any of both. Pursuit alone asks that a read begins
      only on news of an answer ([discreet]), as in state/navigation/store.ts;
      [second_read_strands_resource] shows what happens otherwise. Keys are equal where
      their [keyID] is ([keyID_identifies]), a request settles but does not throw where it is called, and whether
      to ask from a base is all that is read of a normalized resource.
    - Walks over a navigation graph take as fuel one level more than validation allows
      ([walk_levels]); rows nest one level deep where a graph is valid
      ([entityValue_row] holds at every number of levels), and the caches of materialized
      rows are left out because they hand out a value only where it would be made again.
      Wire numbers are integers.
    - ORDER BY intent_sequence is a stable sort; the unique index makes the order of
      the queue strict.

    ** Not modelled

    The phone's DDL and migrations, the browser's schema upgrade (its stores start
    empty), the sink of the open diagnostics, the unversioned turn merges of
    turnHistoryMerge.ts with the pre-v6 arms that call them, the transcript cache of the
    browser, the connection's forceStop (a second client of the same class for one request),
    the navigation store (its demands and background pages), session activity, keybindings, display formatting, generated types beyond those the fold
    reads, the Go hub and daemon, and the user interfaces. *)

From Stdlib Require Export Ascii String.
From stdpp Require Export base numbers list gmap sets strings option sorting.
From Stdlib Require Export ZArith Lia Sorting.Sorted.

Set Default Goal Selector "!".

(** * Notations *)

Declare Scope evener_scope.
Delimit Scope evener_scope with evener.

(** A JavaScript [===] on strings, as a boolean. *)
Notation "s =? t" := (String.eqb s t) (at level 70, no associativity) : evener_scope.

(** JavaScript's [a ?? b] where [b] may itself be undefined, written [a ?: b]. *)
Definition nullish {A} (a b : option A) : option A := match a with Some _ => a | None => b end.
Notation "a ?: b" := (nullish a b) (at level 60, right associativity) : evener_scope.

(** * Automation *)

Create HintDb evener discriminated.

(** Split every conjunction in the context, substitute equalities between
    variables and constructors, and close contradictions. *)
Ltac inv_all := repeat (destruct_and?; simplify_eq/=).

(** Case analysis on the scrutinee of the first [match] or [if] of the goal,
    remembering the equation, until nothing is left to split. *)
Ltac split_matches :=
  repeat (case_match; simplify_eq/=; try done).

(** * Booleans and strings *)

Lemma string_eqb_refl s : String.eqb s s = true.
Proof. apply String.eqb_refl. Qed.

Lemma string_eqb_decide s t : String.eqb s t = bool_decide (s = t).
Proof.
  destruct (String.eqb_spec s t); case_bool_decide; congruence.
Qed.

Create Rewrite HintDb evener_rw.
Create Rewrite HintDb db.
Create Rewrite HintDb wp.
#[export] Hint Rewrite string_eqb_refl : evener_rw.

(** [x ∈ l] for strings, as JavaScript's [Array.prototype.includes] and
    [Set.prototype.has] compute it. *)
Definition str_in (s : string) (l : list string) : bool := existsb (String.eqb s) l.

Lemma str_in_spec s l : str_in s l = true <-> s ∈ l.
Proof.
  unfold str_in. rewrite existsb_exists. split.
  - intros (t & Ht & E). apply String.eqb_eq in E. subst.
    by apply list_elem_of_In.
  - intros H. exists s. split; [by apply list_elem_of_In | apply String.eqb_refl].
Qed.

Lemma str_in_false s l : str_in s l = false <-> s ∉ l.
Proof. rewrite <- str_in_spec. destruct (str_in s l); split; congruence. Qed.

(** * A stable sort by an integer key *)

(** [Array.prototype.sort] is stable, and SQL's [ORDER BY] is one of the orders
    a stable sort can give; both are modelled by this insertion sort. *)
Section sort_by.
Context {A : Type} (key : A -> Z).

Fixpoint insert_by (x : A) (l : list A) : list A :=
  match l with
  | [] => [x]
  | y :: l' => if (key x <=? key y)%Z then x :: y :: l' else y :: insert_by x l'
  end.

Definition sort_by (l : list A) : list A := foldr insert_by [] l.

Definition key_le (x y : A) : Prop := (key x <= key y)%Z.

Lemma insert_by_perm x l : insert_by x l ≡ₚ x :: l.
Proof.
  induction l as [|y l IH]; simpl; [done|].
  destruct (key x <=? key y)%Z; [done|]. by rewrite IH, Permutation_swap.
Qed.

Lemma sort_by_perm l : sort_by l ≡ₚ l.
Proof. induction l as [|x l IH]; simpl; [done|]. by rewrite insert_by_perm, IH. Qed.

Lemma elem_of_sort_by x l : x ∈ sort_by l <-> x ∈ l.
Proof. by rewrite sort_by_perm. Qed.

Lemma length_sort_by l : length (sort_by l) = length l.
Proof. by rewrite sort_by_perm. Qed.

Lemma insert_by_hdrel y x l :
  key_le y x -> HdRel key_le y l -> HdRel key_le y (insert_by x l).
Proof. intros ? Hl. destruct Hl; simpl; [by constructor|]. case_match; by constructor. Qed.

Lemma insert_by_sorted x l : Sorted key_le l -> Sorted key_le (insert_by x l).
Proof.
  induction 1 as [|y l Hs IH Hd]; simpl; [repeat constructor|].
  destruct (Z.leb_spec (key x) (key y)).
  - constructor; [by constructor|]. by constructor.
  - constructor; [done|]. apply insert_by_hdrel; [unfold key_le; lia|done].
Qed.

Lemma sort_by_sorted l : Sorted key_le (sort_by l).
Proof. induction l; simpl; [constructor|]. by apply insert_by_sorted. Qed.

Lemma sort_by_strongly_sorted l : StronglySorted key_le (sort_by l).
Proof.
  apply Sorted_StronglySorted, sort_by_sorted.
  intros x y z; unfold key_le; lia.
Qed.

(** The head of a sorted list carries a least key. *)
Lemma sort_by_head_min x l r :
  sort_by l = x :: r -> forall y, y ∈ l -> (key x <= key y)%Z.
Proof.
  intros E y Hy. pose proof (sort_by_strongly_sorted l) as Hs.
  rewrite E in Hs. apply StronglySorted_inv in Hs as [_ Hall].
  apply elem_of_sort_by in Hy. rewrite E in Hy.
  apply elem_of_cons in Hy as [->|Hy]; [lia|].
  rewrite Forall_forall in Hall. by apply Hall.
Qed.

Lemma sort_by_nil l : sort_by l = [] <-> l = [].
Proof.
  split; [|by intros ->]. intros E.
  apply Permutation_nil_r. by rewrite <- E, sort_by_perm.
Qed.

(** Stability: the elements of one key keep their relative order. *)
Lemma insert_by_filter k x l :
  filter (fun y => key y = k) (insert_by x l) =
  filter (fun y => key y = k) (x :: l).
Proof.
  induction l as [|y l IH]; simpl; [done|].
  destruct (Z.leb_spec (key x) (key y)); [done|].
  rewrite !filter_cons in *. rewrite IH.
  destruct (decide (key x = k)), (decide (key y = k)); try done. lia.
Qed.

Lemma sort_by_stable k l :
  filter (fun y => key y = k) (sort_by l) = filter (fun y => key y = k) l.
Proof.
  induction l as [|x l IH]; simpl; [done|].
  rewrite insert_by_filter, !filter_cons. by rewrite IH.
Qed.

Lemma insert_by_cons_le x l :
  Forall (key_le x) l -> insert_by x l = x :: l.
Proof.
  destruct 1 as [|y l Hy _]; simpl; [done|].
  unfold key_le in Hy. by apply Z.leb_le in Hy as ->.
Qed.

(** Filtering commutes with the sort. *)
Lemma insert_by_filter_sorted (P : A -> Prop) `{!forall x, Decision (P x)} x l :
  StronglySorted key_le l ->
  filter P (insert_by x l) = if decide (P x) then insert_by x (filter P l) else filter P l.
Proof.
  induction 1 as [|y l Hs IH Hall]; simpl; [by rewrite filter_cons|].
  destruct (Z.leb_spec (key x) (key y)) as [Hle|Hlt].
  - rewrite !filter_cons. destruct (decide (P x)); [|done].
    rewrite insert_by_cons_le; [done|]. rewrite <- filter_cons. apply Forall_forall.
    intros z [_ [->|Hz]%elem_of_cons]%list_elem_of_filter; [done|].
    rewrite Forall_forall in Hall. specialize (Hall z Hz). unfold key_le in *. lia.
  - rewrite !filter_cons, IH. destruct (decide (P x)), (decide (P y)); try done.
    simpl. by rewrite (proj2 (Z.leb_gt _ _) Hlt).
Qed.

Lemma sort_by_filter (P : A -> Prop) `{!forall x, Decision (P x)} l :
  filter P (sort_by l) = sort_by (filter P l).
Proof.
  induction l as [|x l IH]; simpl; [done|].
  rewrite insert_by_filter_sorted, filter_cons by apply sort_by_strongly_sorted.
  rewrite IH. by destruct (decide (P x)).
Qed.

(** Sorting by unequal keys orders strictly, so a part of a list sorts to a
    sublist of the whole. *)
Definition key_lt (x y : A) : Prop := (key x < key y)%Z.

Lemma sort_by_strict l : NoDup (key <$> l) -> StronglySorted key_lt (sort_by l).
Proof.
  intros Hnd. assert (Hnd' : NoDup (key <$> sort_by l)) by (by rewrite sort_by_perm).
  pose proof (sort_by_strongly_sorted l) as Hs. induction Hs as [|x s Hs IH Hall]; [constructor|].
  apply NoDup_cons in Hnd' as [Hx Hnd']. constructor; [by apply IH|].
  rewrite Forall_forall in Hall |- *. intros y Hy. specialize (Hall y Hy).
  unfold key_le, key_lt in *. assert (key x <> key y); [|lia].
  intros E. apply Hx. rewrite E. by apply list_elem_of_fmap_2.
Qed.

Lemma strict_sublist l l' :
  StronglySorted key_lt l -> StronglySorted key_lt l' -> (forall x, x ∈ l' -> x ∈ l) ->
  l' `sublist_of` l.
Proof.
  intros Hl. revert l'. induction Hl as [|x l Hs IH Hall]; intros l' Hl' Hin.
  - destruct l' as [|y l']; [constructor|]. exfalso. apply (not_elem_of_nil y), Hin. by left.
  - rewrite Forall_forall in Hall. destruct Hl' as [|y l' Hs' Hall']; [apply sublist_nil_l|].
    rewrite Forall_forall in Hall'.
    assert (Hrest : forall z, z ∈ l' -> key_lt y z) by done.
    pose proof (Hin y ltac:(left)) as Hy. apply elem_of_cons in Hy as [->|Hy].
    + apply sublist_skip, IH; [done|]. intros z Hz. pose proof (Hin z ltac:(by right)) as Hz'.
      apply elem_of_cons in Hz' as [->|]; [|done]. specialize (Hrest _ Hz). unfold key_lt in *. lia.
    + apply sublist_cons, IH; [by constructor; [|apply Forall_forall]|]. intros z Hz.
      pose proof (Hin z Hz) as Hz'. apply elem_of_cons in Hz' as [->|]; [|done].
      apply Hall in Hy. apply elem_of_cons in Hz as [->|Hz]; unfold key_lt in *; [lia|].
      specialize (Hrest _ Hz). lia.
Qed.

(** A list already in order is left alone. *)
Lemma sort_by_id l : StronglySorted key_le l -> sort_by l = l.
Proof.
  induction 1 as [|x l Hs IH Hall]; simpl; [done|].
  by rewrite IH, insert_by_cons_le.
Qed.
End sort_by.

#[export] Hint Resolve sort_by_perm sort_by_sorted : evener.

(** * A stable sort by a comparator *)

(** [l.sort(compare)] for a comparator that is a total preorder. *)
Section sort_with.
Context {A : Type} (compare : A -> A -> Z).

Fixpoint insert_with (x : A) (l : list A) : list A :=
  match l with
  | [] => [x]
  | y :: l' => if (compare x y <=? 0)%Z then x :: y :: l' else y :: insert_with x l'
  end.

Definition sort_with (l : list A) : list A := foldr insert_with [] l.

Lemma insert_with_perm x l : insert_with x l ≡ₚ x :: l.
Proof.
  induction l as [|y l IH]; simpl; [done|].
  destruct (compare x y <=? 0)%Z; [done|]. by rewrite IH, Permutation_swap.
Qed.

Lemma sort_with_perm l : sort_with l ≡ₚ l.
Proof. induction l as [|x l IH]; simpl; [done|]. by rewrite insert_with_perm, IH. Qed.

Definition cmp_le (x y : A) : Prop := (compare x y <= 0)%Z.

Context (cmp_trans : forall x y z, cmp_le x y -> cmp_le y z -> cmp_le x z).
Context (cmp_total : forall x y, cmp_le x y \/ cmp_le y x).

Lemma insert_with_sorted x l : StronglySorted cmp_le l -> StronglySorted cmp_le (insert_with x l).
Proof.
  induction 1 as [|y l Hs IH Hall]; simpl; [repeat constructor|].
  destruct (Z.leb_spec (compare x y) 0) as [Hle|Hgt].
  - constructor; [by constructor|]. constructor; [done|]. eapply Forall_impl; [done|]. eauto.
  - constructor; [done|]. rewrite Forall_forall in Hall |- *. intros z Hz.
    rewrite insert_with_perm in Hz. apply elem_of_cons in Hz as [->|Hz]; [|auto].
    destruct (cmp_total x y) as [H|H]; [unfold cmp_le in H; lia|done].
Qed.

Lemma sort_with_sorted l : StronglySorted cmp_le (sort_with l).
Proof. induction l; simpl; [constructor|]. by apply insert_with_sorted. Qed.

(** A list already in order is left alone. *)
Lemma sort_with_id l : StronglySorted cmp_le l -> sort_with l = l.
Proof.
  induction 1 as [|x l Hs IH Hall]; simpl; [done|]. rewrite IH.
  destruct Hall as [|y l Hxy _]; simpl; [done|]. unfold cmp_le in Hxy. by apply Z.leb_le in Hxy as ->.
Qed.
End sort_with.

(** * Sets in insertion order *)

(** [[...new Set(l)]]: the distinct elements, each at its first occurrence. *)
Fixpoint js_set {A} `{EqDecision A} (l : list A) : list A :=
  match l with
  | [] => []
  | x :: l' => x :: filter (fun y => y <> x) (js_set l')
  end.

Lemma elem_of_js_set {A} `{EqDecision A} (x : A) l : x ∈ js_set l <-> x ∈ l.
Proof.
  induction l as [|y l IH]; simpl; [done|].
  rewrite !elem_of_cons, list_elem_of_filter, IH. destruct (decide (x = y)); naive_solver.
Qed.

Lemma NoDup_js_set {A} `{EqDecision A} (l : list A) : NoDup (js_set l).
Proof.
  induction l as [|y l IH]; simpl; constructor.
  - rewrite list_elem_of_filter. naive_solver.
  - by apply NoDup_filter.
Qed.

Lemma filter_none {A} (P : A -> Prop) `{!forall x, Decision (P x)} l :
  (forall x, x ∈ l -> ~ P x) -> filter P l = [].
Proof.
  induction l as [|x l IH]; intros Hl; [done|]. rewrite filter_cons_False by (apply Hl; left).
  apply IH. intros y Hy. apply Hl. by right.
Qed.

Lemma filter_all {A} (P : A -> Prop) `{!forall x, Decision (P x)} l :
  Forall P l -> filter P l = l.
Proof.
  induction 1 as [|x l Hx _ IH]; [done|]. by rewrite filter_cons_True, IH.
Qed.

Lemma js_set_id {A} `{EqDecision A} (l : list A) : NoDup l -> js_set l = l.
Proof.
  induction 1 as [|x l Hx Hnd IH]; simpl; [done|]. f_equal. rewrite IH.
  apply filter_all. apply Forall_forall. by intros y Hy ->.
Qed.
