(* ===== verification/JsString.v ===== *)
(** JavaScript string operations the sources use, over [String.string].

    A character stands for one UTF-16 code unit; the model covers the code units
    below 256, so the white space is the white space of that range (tab, line
    feed, vertical tab, form feed, carriage return, space, no-break space). *)

From S2P Require Import Prelude.


Definition is_js_space (c : ascii) : bool :=
  let n := N_of_ascii c in
  ((9 <=? n) && (n <=? 13) || (n =? 32) || (n =? 160))%N.

(** [s.trimStart()] and [s.trim()]. *)
Fixpoint trim_start (s : string) : string :=
  match s with
  | EmptyString => EmptyString
  | String c s' => if is_js_space c then trim_start s' else s
  end.

Fixpoint trim_end (s : string) : string :=
  match s with
  | EmptyString => EmptyString
  | String c s' =>
      match trim_end s' with
      | EmptyString => if is_js_space c then EmptyString else String c EmptyString
      | t => String c t
      end
  end.

Definition js_trim (s : string) : string := trim_end (trim_start s).

(** A string is truthy in JavaScript when it is not empty. *)
Definition str_truthy (s : string) : bool := negb (String.eqb s EmptyString).

Fixpoint all_space (s : string) : bool :=
  match s with
  | EmptyString => true
  | String c s' => is_js_space c && all_space s'
  end.

Lemma trim_end_all_space s : all_space s = true -> trim_end s = EmptyString.
Proof.
  induction s as [|c s IH]; simpl; [done|].
  intros [Hc Hs]%andb_prop. by rewrite IH, Hc.
Qed.

Lemma trim_start_all_space s : all_space s = true -> trim_start s = EmptyString.
Proof.
  induction s as [|c s IH]; simpl; [done|].
  intros [Hc Hs]%andb_prop. by rewrite Hc, IH.
Qed.

Lemma trim_end_nil s : trim_end s = EmptyString <-> all_space s = true.
Proof.
  split; [|apply trim_end_all_space].
  induction s as [|c s IH]; simpl; [done|].
  destruct (trim_end s) eqn:E; [|done].
  destruct (is_js_space c) eqn:Hc; [|done]. intros _. by apply IH.
Qed.

Lemma trim_start_head s c s' : trim_start s = String c s' -> is_js_space c = false.
Proof.
  induction s as [|d s IH]; simpl; [done|].
  destruct (is_js_space d) eqn:Hd; [done|]. by intros [= -> ->].
Qed.

(** A string trims to nothing exactly when it is all white space. *)
Lemma js_trim_nil s : js_trim s = EmptyString <-> all_space s = true.
Proof.
  unfold js_trim. rewrite trim_end_nil. split.
  - induction s as [|c s IH]; simpl; [done|].
    destruct (is_js_space c) eqn:Hc; simpl; [done|]. by rewrite Hc.
  - intros H. by rewrite trim_start_all_space.
Qed.

Definition blank (s : string) : bool := negb (str_truthy (js_trim s)).

Lemma blank_spec s : blank s = all_space s.
Proof.
  unfold blank, str_truthy. rewrite negb_involutive.
  destruct (all_space s) eqn:E.
  - apply js_trim_nil in E. by rewrite E.
  - apply String.eqb_neq. intros H. apply js_trim_nil in H. congruence.
Qed.

(** [s.toLowerCase()] over the modelled code units: A-Z and the Latin-1 capitals
    (all of U+00C0 to U+00DE but the multiplication sign). *)
Definition lower_ascii (c : ascii) : ascii :=
  let n := N_of_ascii c in
  if (((65 <=? n) && (n <=? 90)) || ((192 <=? n) && (n <=? 222) && negb (n =? 215)))%N
  then ascii_of_N (n + 32) else c.

Fixpoint to_lower (s : string) : string :=
  match s with
  | EmptyString => EmptyString
  | String c s' => String (lower_ascii c) (to_lower s')
  end.

(** [text.includes(s)]. *)
Fixpoint includes (s text : string) : bool :=
  String.prefix s text ||
  match text with
  | EmptyString => false
  | String _ text' => includes s text'
  end.

(** [Array.prototype.sort] on strings: by UTF-16 code units. *)
Definition string_le (a b : string) : Prop := String.leb a b = true.
#[export] Instance string_le_dec : RelDecision string_le.
Proof. intros a b. unfold string_le. apply _. Defined.

Definition sort_strings (l : list string) : list string := merge_sort string_le l.
