(* ===== verification/Json.v ===== *)
(** JSON-shaped values (the [unknown] of wire payloads and stored columns) and the
    object operations the sources apply to them (plainObject.ts).

    Numbers are integers: the numbers these sources compare are counters,
    millisecond times and revisions. A property whose value is [undefined] is
    modelled as absent, which is what JSON text and [typeof] make of it. *)

From S2P Require Import Prelude JsString.

Local Open Scope string_scope.

Inductive json :=
  | JNull
  | JBool (b : bool)
  | JNum (n : Z)
  | JStr (s : string)
  | JArr (items : list json)
  | JObj (fields : list (string * json)).

(** A [Record<string, unknown>]: own properties in insertion order. *)
Notation json_object := (list (string * json)).

(** [o[k]], [undefined] when absent. *)
Fixpoint obj_get (k : string) (o : json_object) : option json :=
  match o with
  | [] => None
  | (k', v) :: o' => if String.eqb k k' then Some v else obj_get k o'
  end.

(** [{...o, [k]: v}]: an existing property keeps its place. *)
Fixpoint obj_set (k : string) (v : json) (o : json_object) : json_object :=
  match o with
  | [] => [(k, v)]
  | (k', v') :: o' => if String.eqb k k' then (k', v) :: o' else (k', v') :: obj_set k v o'
  end.

Definition obj_keys (o : json_object) : list string := o.*1.

(** [typeof v === "string"] and [typeof v === "number"] narrowing, [undefined] included. *)
Definition as_string (v : option json) : option string :=
  match v with Some (JStr s) => Some s | _ => None end.
Definition as_number (v : option json) : option Z :=
  match v with Some (JNum n) => Some n | _ => None end.
Definition as_array (v : option json) : option (list json) :=
  match v with Some (JArr l) => Some l | _ => None end.
Definition as_object (v : option json) : option json_object :=
  match v with Some (JObj o) => Some o | _ => None end.

(** A JSON value is falsy in JavaScript when it is null, false, zero or [""]. *)
Definition truthy_json (x : option json) : option json :=
  match x with
  | Some JNull | Some (JBool false) | Some (JNum 0%Z) | Some (JStr EmptyString) => None
  | _ => x
  end.

(** [Object.hasOwn(o, k)]. *)
Definition obj_has (k : string) (o : json_object) : bool :=
  match obj_get k o with Some _ => true | None => false end.

Lemma obj_get_set k v o : obj_get k (obj_set k v o) = Some v.
Proof.
  induction o as [|[k' v'] o IH]; simpl; [by rewrite String.eqb_refl|].
  destruct (String.eqb_spec k k') as [->|]; simpl.
  - by rewrite String.eqb_refl.
  - by destruct (String.eqb_spec k k').
Qed.

Lemma obj_get_set_ne k k' v o : k <> k' -> obj_get k (obj_set k' v o) = obj_get k o.
Proof.
  intros Hne. induction o as [|[j w] o IH]; simpl.
  - by destruct (String.eqb_spec k k').
  - destruct (String.eqb_spec k' j) as [->|]; simpl;
      destruct (String.eqb_spec k j); congruence.
Qed.

Lemma obj_set_id k v o : obj_get k o = Some v -> obj_set k v o = o.
Proof.
  induction o as [|[j w] o IH]; simpl; [done|].
  destruct (String.eqb_spec k j) as [->|]; [by intros [= ->]|].
  intros H. by rewrite IH.
Qed.

Lemma obj_keys_set_has k v o : obj_has k o = true -> obj_keys (obj_set k v o) = obj_keys o.
Proof.
  unfold obj_has. induction o as [|[j w] o IH]; simpl; [done|].
  destruct (String.eqb_spec k j) as [->|]; [done|]. simpl. intros H. by rewrite IH.
Qed.

#[export] Hint Rewrite obj_get_set : evener_rw.

(** ** Induction through arrays and objects *)

Section json_rect.
Context (P : json -> Prop).
Context (Hnull : P JNull) (Hbool : forall b, P (JBool b)) (Hnum : forall n, P (JNum n))
  (Hstr : forall s, P (JStr s))
  (Harr : forall l, Forall P l -> P (JArr l))
  (Hobj : forall o, Forall (fun kv => P kv.2) o -> P (JObj o)).

Fixpoint json_nested_ind (v : json) : P v :=
  match v with
  | JNull => Hnull
  | JBool b => Hbool b
  | JNum n => Hnum n
  | JStr s => Hstr s
  | JArr l => Harr l ((fix go l : Forall P l :=
      match l with [] => Forall_nil_2 _ | x :: l => Forall_cons_2 _ _ _ (json_nested_ind x) (go l) end) l)
  | JObj o => Hobj o ((fix go o : Forall (fun kv => P kv.2) o :=
      match o with
      | [] => Forall_nil_2 _
      | x :: o => Forall_cons_2 _ _ _ (json_nested_ind x.2) (go o)
      end) o)
  end.
End json_rect.

(** ** Structural equality (sameJsonValue) *)

(** [Object.is] on the scalars of the model is equality; arrays compare index by
    index and objects key by key, whatever their key order. *)
Fixpoint sameJsonValue (left right : json) : bool :=
  match left, right with
  | JNull, JNull => true
  | JBool a, JBool b => Bool.eqb a b
  | JNum a, JNum b => (a =? b)%Z
  | JStr a, JStr b => String.eqb a b
  | JArr ls, JArr rs =>
      (fix all2 (ls rs : list json) : bool :=
         match ls, rs with
         | [], [] => true
         | l :: ls', r :: rs' => sameJsonValue l r && all2 ls' rs'
         | _, _ => false
         end) ls rs
  | JObj lo, JObj ro =>
      (List.length lo =? List.length ro)%nat &&
      (fix every (kvs : json_object) : bool :=
         match kvs with
         | [] => true
         | (k, v) :: kvs' =>
             match obj_get k ro with
             | Some w => sameJsonValue v w
             | None => false
             end && every kvs'
         end) lo
  | _, _ => false
  end.

(** Objects hold each key once, at every depth: what [JSON.parse] and object
    literals build. *)
Fixpoint json_wf (v : json) : bool :=
  match v with
  | JArr l => forallb json_wf l
  | JObj o => bool_decide (NoDup (obj_keys o)) && forallb (fun kv => json_wf kv.2) o
  | _ => true
  end.

Lemma obj_get_elem k v o : NoDup (obj_keys o) -> (k, v) ∈ o -> obj_get k o = Some v.
Proof.
  induction o as [|[j w] o IH]; simpl; [by intros _ ?%not_elem_of_nil|].
  intros [Hj Hnd]%NoDup_cons [[= <- <-]|Hin]%elem_of_cons; [by rewrite String.eqb_refl|].
  destruct (String.eqb_spec k j) as [->|]; [|by apply IH].
  destruct Hj. apply list_elem_of_fmap. by exists (j, v).
Qed.

(** A value is the same as itself: what lets an unchanged read publish nothing. *)
Lemma sameJsonValue_refl v : json_wf v = true -> sameJsonValue v v = true.
Proof.
  induction v as [| | | |l IH|o IH] using json_nested_ind; simpl; intros Hwf;
    rewrite ?Z.eqb_refl, ?String.eqb_refl; try done.
  - by destruct b.
  - apply Is_true_true, forallb_True in Hwf. induction IH as [|x l Hx _ IHl]; [done|].
    apply Forall_cons in Hwf as [Hwx Hwl]. rewrite Hx by (by apply Is_true_true). by apply IHl.
  - apply andb_prop in Hwf as [Hnd%bool_decide_eq_true Hall].
    rewrite Nat.eqb_refl. simpl. apply Is_true_true, forallb_True in Hall.
    assert (Hsub : forall kv, kv ∈ o -> obj_get kv.1 o = Some kv.2)
      by (intros [k v] ?; by apply obj_get_elem).
    clear Hnd. revert Hsub. generalize o at 2 3 as full. intros full.
    induction IH as [|[k v] o' Hx _ IHo]; intros Hsub; [done|].
    apply Forall_cons in Hall as [Hwx Hwl].
    simpl in *. rewrite (Hsub (k, v) ltac:(left; done) : obj_get k full = Some v).
    rewrite Hx by (by apply Is_true_true). apply IHo; [done|].
    intros kv ?. apply Hsub. by right.
Qed.
