(* ===== verification/Sql.v ===== *)
(** The synchronous SQLite surface of the native client (sqliteSync.ts).

    A program over the connection is a value of [sql]: statements in sequence,
    exceptions, and savepoints. A statement either applies or throws having
    changed nothing, which is SQLite's statement atomicity; [run] executes a
    program under a schedule of injected faults, one entry per call to the
    database, and the empty schedule is a healthy database. *)

From S2P Require Import Prelude JsString.

Local Open Scope string_scope.

(** A JavaScript [Error], by its message. *)
Record js_error := Error { message : string }.

#[export] Instance js_error_eq_dec : EqDecision js_error.
Proof. solve_decision. Defined.

Section programs.
Context {db : Type}.

Inductive sql : Type -> Type :=
  | Ret {A} (a : A) : sql A
  | Throw {A} (e : js_error) : sql A
  | Stmt {A} (f : db -> (db * A) + js_error) : sql A
  | Bind {A B} (p : sql A) (k : A -> sql B) : sql B
  | Savepoint {A} (body : sql A) : sql A.

(** The next entry of a fault schedule. *)
Definition tick (faults : list (option js_error)) : option js_error * list (option js_error) :=
  match faults with
  | [] => (None, [])
  | f :: fs => (f, fs)
  end.

(** [withSavepoint]: SAVEPOINT, the body, RELEASE; any throw rolls back to the
    savepoint and rethrows. A failing ROLLBACK is swallowed: SQLite has then
    already ended the transaction itself, which restores the same state. *)
Fixpoint run {A} (p : sql A) (faults : list (option js_error)) (d : db) :
    list (option js_error) * db * (A + js_error) :=
  match p with
  | Ret a => (faults, d, inl a)
  | Throw e => (faults, d, inr e)
  | Stmt f =>
      match tick faults with
      | (Some e, fs) => (fs, d, inr e)
      | (None, fs) =>
          match f d with
          | inl (d', a) => (fs, d', inl a)
          | inr e => (fs, d, inr e)
          end
      end
  | Bind p k =>
      match run p faults d with
      | (fs, d', inl a) => run (k a) fs d'
      | (fs, d', inr e) => (fs, d', inr e)
      end
  | Savepoint body =>
      match tick faults with
      | (Some e, fs) => (fs, d, inr e)
      | (None, fs) =>
          match run body fs d with
          | (fs1, d', inl a) =>
              match tick fs1 with
              | (Some e, fs2) => ((tick fs2).2, d, inr e)
              | (None, fs2) => (fs2, d', inl a)
              end
          | (fs1, _, inr e) => ((tick fs1).2, d, inr e)
          end
      end
  end.

(** A program on a healthy database. *)
Definition exec {A} (p : sql A) (d : db) : db * (A + js_error) :=
  let '(_, d', r) := run p [] d in (d', r).

Lemma run_healthy {A} (p : sql A) d : (run p [] d).1.1 = [].
Proof.
  revert d. induction p as [| |? f|? ? p IHp k IHk|? p IHp]; intros d; simpl; try done.
  - by destruct (f d) as [[]|].
  - specialize (IHp d). destruct (run p [] d) as [[fs d'] [a|e]]; simpl in *; subst; [apply IHk|done].
  - specialize (IHp d). by destruct (run p [] d) as [[fs d'] [a|e]]; simpl in *; subst.
Qed.

Lemma run_exec {A} (p : sql A) d : run p [] d = ([], (exec p d).1, (exec p d).2).
Proof.
  pose proof (run_healthy p d) as H. unfold exec.
  destruct (run p [] d) as [[fs d'] r]. simpl in *. by subst.
Qed.

(** *** Equations of [exec] *)

Lemma exec_ret {A} (a : A) d : exec (Ret a) d = (d, inl a).
Proof. done. Qed.

Lemma exec_throw {A} e d : exec (@Throw A e) d = (d, inr e).
Proof. done. Qed.

Lemma exec_stmt {A} (f : db -> (db * A) + js_error) d :
  exec (Stmt f) d = match f d with inl (d', a) => (d', inl a) | inr e => (d, inr e) end.
Proof. unfold exec; simpl. by destruct (f d) as [[]|]. Qed.

Lemma exec_bind {A B} (p : sql A) (k : A -> sql B) d :
  exec (Bind p k) d =
    match exec p d with
    | (d', inl a) => exec (k a) d'
    | (d', inr e) => (d', inr e)
    end.
Proof.
  unfold exec. simpl. pose proof (run_healthy p d) as H.
  destruct (run p [] d) as [[fs d'] [a|e]]; simpl in *; by subst.
Qed.

Lemma exec_savepoint {A} (body : sql A) d :
  exec (Savepoint body) d =
    match exec body d with
    | (d', inl a) => (d', inl a)
    | (_, inr e) => (d, inr e)
    end.
Proof.
  unfold exec. simpl. pose proof (run_healthy body d) as H.
  destruct (run body [] d) as [[fs d'] [a|e]]; simpl in *; by subst.
Qed.

(** *** Atomicity *)

(** Whatever faults strike, a savepoint that throws has changed nothing. *)
Lemma savepoint_atomic {A} (body : sql A) faults d fs d' e :
  run (Savepoint body) faults d = (fs, d', inr e) -> d' = d.
Proof.
  simpl. destruct (tick faults) as [[e'|] fs']; [by intros [= <- <- <-]|].
  destruct (run body fs' d) as [[fs1 d1] [a|e1]]; [|by intros [= <- <- <-]].
  by destruct (tick fs1) as [[e2|] fs2]; intros [= <- <- <-].
Qed.

(** Under faults a program either throws or does what it does on a healthy
    database, provided nothing in it recovers from a throw. *)
Lemma run_ok {A} (p : sql A) faults d fs d' a :
  run p faults d = (fs, d', inl a) -> exec p d = (d', inl a).
Proof.
  revert faults d fs d' a.
  induction p as [| |? f|? ? p IHp k IHk|? p IHp]; intros faults d fs d' b; simpl.
  - by intros [= <- <- <-].
  - done.
  - rewrite exec_stmt. destruct (tick faults) as [[e|] fs']; [done|].
    destruct (f d) as [[]|]; [|done]. by intros [= <- <- <-].
  - rewrite exec_bind. destruct (run p faults d) as [[fs1 d1] [a|e]] eqn:E; [|done].
    apply IHp in E as ->. apply IHk.
  - rewrite exec_savepoint. destruct (tick faults) as [[e|] fs']; [done|].
    destruct (run p fs' d) as [[fs1 d1] [a|e]] eqn:E; [|done].
    apply IHp in E as ->. destruct (tick fs1) as [[e2|] fs2]; [done|].
    by intros [= <- <- <-].
Qed.

(** Commit or nothing: a savepoint's outcome under faults is its healthy
    commit, or an error with the database as it was. *)
Lemma savepoint_all_or_nothing {A} (body : sql A) faults d :
  let '(_, d', r) := run (Savepoint body) faults d in
  (exists a, r = inl a /\ exec body d = (d', inl a)) \/ (exists e, r = inr e /\ d' = d).
Proof.
  destruct (run (Savepoint body) faults d) as [[fs d'] [a|e]] eqn:E.
  - left. exists a. split; [done|]. apply run_ok in E. rewrite exec_savepoint in E.
    by destruct (exec body d) as [d1 [a1|e1]].
  - right. exists e. split; [done|]. by eapply savepoint_atomic.
Qed.
End programs.

Arguments sql : clear implicits.

Declare Scope sql_scope.
Delimit Scope sql_scope with sql.
Bind Scope sql_scope with sql.
Notation "x ← y ; z" := (Bind y (fun x => z))
  (at level 20, y at level 100, z at level 200) : sql_scope.
Notation "y ;; z" := (Bind y (fun _ => z))
  (at level 100, z at level 200, right associativity) : sql_scope.

(** [withSavepoint(db, name, body)]. The name only labels the savepoint; the
    outbox never nests two. *)
Definition withSavepoint {db A} (name : string) (body : sql db A) : sql db A := Savepoint body.

(** Rewriting with the equations of [exec]. *)
Create Rewrite HintDb exec.
#[export] Hint Rewrite @exec_ret @exec_throw @exec_stmt @exec_bind @exec_savepoint : exec.

Ltac exec_simpl := autorewrite with exec; simpl.
Tactic Notation "exec_simpl" "in" hyp(H) := autorewrite with exec in H; simpl in H.

(** ** Storage failures *)

Definition STORAGE_FAILURE_MESSAGES : list string :=
  ["database or disk is full"; "disk i/o error"; "unable to open database file";
   "attempt to write a readonly database"; "database is locked";
   "database disk image is malformed"; "file is not a database"; "out of memory"].

Definition isSqliteStorageFailure (error : js_error) : bool :=
  let message := to_lower (message error) in
  existsb (fun known => includes known message) STORAGE_FAILURE_MESSAGES.
