(* ===== verification/Regex.v ===== *)
(** Regular expressions over strings, matched by Brzozowski derivatives: what the
    sources' anchored literal patterns compute with [RegExp.prototype.test]. *)

From S2P Require Import Prelude.

Local Open Scope string_scope.

Inductive regex :=
  | Never
  | Eps
  | Chr (p : ascii -> bool)
  | Seq (a b : regex)
  | Alt (a b : regex)
  | Many (a : regex).

Fixpoint nullable (r : regex) : bool :=
  match r with
  | Never | Chr _ => false
  | Eps | Many _ => true
  | Seq a b => nullable a && nullable b
  | Alt a b => nullable a || nullable b
  end.

Fixpoint derive (c : ascii) (r : regex) : regex :=
  match r with
  | Never | Eps => Never
  | Chr p => if p c then Eps else Never
  | Seq a b => if nullable a then Alt (Seq (derive c a) b) (derive c b) else Seq (derive c a) b
  | Alt a b => Alt (derive c a) (derive c b)
  | Many a => Seq (derive c a) (Many a)
  end.

(** [/^r$/.test(s)]. *)
Fixpoint full_match (r : regex) (s : string) : bool :=
  match s with
  | EmptyString => nullable r
  | String c s' => full_match (derive c r) s'
  end.

(** The strings a pattern denotes. *)
Inductive denotes : regex -> string -> Prop :=
  | denotes_eps : denotes Eps ""
  | denotes_chr p c : p c = true -> denotes (Chr p) (String c "")
  | denotes_seq a b s t : denotes a s -> denotes b t -> denotes (Seq a b) (s ++ t)
  | denotes_left a b s : denotes a s -> denotes (Alt a b) s
  | denotes_right a b s : denotes b s -> denotes (Alt a b) s
  | denotes_done a : denotes (Many a) ""
  | denotes_more a s t : denotes a s -> denotes (Many a) t -> denotes (Many a) (s ++ t).

#[export] Hint Constructors denotes : evener.

(** *** Building blocks *)

Fixpoint literal (s : string) : regex :=
  match s with
  | EmptyString => Eps
  | String c s' => Seq (Chr (Ascii.eqb c)) (literal s')
  end.

(** [\w]. *)
Definition is_word (c : ascii) : bool :=
  let n := N_of_ascii c in
  ((48 <=? n) && (n <=? 57) || (65 <=? n) && (n <=? 90) || (97 <=? n) && (n <=? 122) || (n =? 95))%N.

(** [.] without the [s] flag, below code unit 256: not a line feed or carriage
    return. *)
Definition is_dot (c : ascii) : bool :=
  let n := N_of_ascii c in negb ((n =? 10) || (n =? 13))%N.

Definition anything : regex := Many (Chr (fun _ => true)).

(** *** Correctness *)

#[local] Arguments String.append : simpl nomatch.

Lemma nullable_spec r : nullable r = true <-> denotes r "".
Proof.
  split.
  - induction r; simpl; try done; eauto with evener.
    + intros [H1 H2]%andb_prop. apply (denotes_seq _ _ "" ""); auto.
    + intros [H|H]%orb_prop; eauto with evener.
  - remember "" as e. induction 1; simpl; simplify_eq; try done.
    + destruct s; [|done]. simpl in Heqe. subst. rewrite andb_true_iff. auto.
    + rewrite orb_true_iff. auto.
    + rewrite orb_true_iff. auto.
Qed.

Lemma denotes_many_cons a c s :
  denotes (Many a) (String c s) ->
  exists s1 s2, s = s1 ++ s2 /\ denotes a (String c s1) /\ denotes (Many a) s2.
Proof.
  remember (Many a) as m. remember (String c s) as t. intros H. revert s Heqt.
  induction H as [| | | | | |a' s1 t1 H1 _ H2 IH]; intros u Heqt; simplify_eq.
  destruct s1 as [|c1 s1]; simpl in Heqt; [naive_solver|].
  change (String c1 (s1 ++ t1) = String c u) in Heqt. simplify_eq. by exists s1, t1.
Qed.

Lemma derive_spec c r s : denotes (derive c r) s <-> denotes r (String c s).
Proof.
  revert s. induction r as [| |p|a IHa b IHb|a IHa b IHb|a IHa]; intros s; simpl.
  - split; inversion 1.
  - split; inversion 1.
  - destruct (p c) eqn:E.
    + split; inversion 1; subst; eauto with evener.
    + split; inversion 1; congruence.
  - assert (Hsplit : denotes (Seq a b) (String c s) <->
      (exists s1 s2, s = s1 ++ s2 /\ denotes a (String c s1) /\ denotes b s2) \/
      (denotes a "" /\ denotes b (String c s))).
    { split.
      - inversion 1 as [| |? ? s1 s2 H1 H2 | | | |]; subst. destruct s1; simpl in *; simplify_eq; naive_solver.
      - intros [(s1 & s2 & -> & H1 & H2)|[H1 H2]].
        + by apply (denotes_seq a b (String c s1) s2).
        + by apply (denotes_seq a b "" (String c s)). }
    assert (Hleft : denotes (Seq (derive c a) b) s <->
      exists s1 s2, s = s1 ++ s2 /\ denotes a (String c s1) /\ denotes b s2).
    { split.
      - inversion 1; subst. setoid_rewrite <- IHa. eauto.
      - intros (s1 & s2 & -> & H1%IHa & H2). by constructor. }
    rewrite Hsplit. destruct (nullable a) eqn:E.
    + apply nullable_spec in E. rewrite <- Hleft, <- IHb. split.
      * inversion 1; subst; auto.
      * intros [H|[_ H]]; eauto with evener.
    + rewrite Hleft. split; [auto|]. intros [H|[H _]]; [done|].
      apply nullable_spec in H. congruence.
  - split; inversion 1; subst.
    + by apply denotes_left, IHa.
    + by apply denotes_right, IHb.
    + by apply denotes_left, IHa.
    + by apply denotes_right, IHb.
  - split.
    + inversion 1 as [| |? ? s1 s2 H1 H2 | | | |]; subst. apply IHa in H1.
      by apply (denotes_more a (String c s1) s2).
    + intros (s1 & s2 & -> & H1%IHa & H2)%denotes_many_cons. by constructor.
Qed.

(** The matcher decides the denotation. *)
Lemma full_match_spec r s : full_match r s = true <-> denotes r s.
Proof.
  revert r. induction s as [|c s IH]; intros r; simpl; [apply nullable_spec|].
  by rewrite IH, derive_spec.
Qed.

Lemma denotes_literal s t : denotes (literal s) t <-> t = s.
Proof.
  revert t. induction s as [|c s IH]; intros t; simpl.
  - split; [by inversion 1|intros ->; constructor].
  - split.
    + inversion 1 as [| |? ? s1 s2 H1 H2 | | | |]; subst. inversion H1 as [|? ? Hc| | | | |]; subst.
      apply Ascii.eqb_eq in Hc as ->. apply IH in H2 as ->. done.
    + intros ->. apply (denotes_seq _ _ (String c "") s).
      * constructor. apply Ascii.eqb_refl.
      * by apply IH.
Qed.

Lemma denotes_seq_iff a b u : denotes (Seq a b) u <-> exists s t, u = s ++ t /\ denotes a s /\ denotes b t.
Proof.
  split; [inversion 1; subst; eauto|]. intros (s & t & -> & ? & ?). by constructor.
Qed.

Lemma denotes_alt_iff a b u : denotes (Alt a b) u <-> denotes a u \/ denotes b u.
Proof. split; [inversion 1; subst; auto|]. intros [?|?]; auto with evener. Qed.

(** Every character of a string satisfies a class. *)
Fixpoint all_chars (p : ascii -> bool) (s : string) : bool :=
  match s with EmptyString => true | String c s' => p c && all_chars p s' end.

Lemma denotes_class p s : denotes (Many (Chr p)) s <-> all_chars p s = true.
Proof.
  induction s as [|c s IH]; simpl; [split; auto with evener|].
  rewrite andb_true_iff, <- IH. split.
  - intros (s1 & s2 & -> & H1 & H2)%denotes_many_cons. inversion H1; subst. done.
  - intros [Hc Hs]. apply (denotes_more _ (String c "") s); [by constructor|done].
Qed.

(** A literal in front of a pattern. *)
Lemma denotes_after s b u : denotes (Seq (literal s) b) u <-> exists t, u = s ++ t /\ denotes b t.
Proof.
  rewrite denotes_seq_iff. split.
  - intros (s' & t & -> & ->%denotes_literal & H). by exists t.
  - intros (t & -> & H). exists s, t. split; [done|]. by split; [apply denotes_literal|].
Qed.
