(* ===== verification/Wire.v ===== *)
(** Rejections and the wire's error envelope (errors.ts).

    A rejected promise carries an arbitrary JavaScript value; [rejection] has one
    constructor per class errors.ts tells apart, plus plain errors, thrown
    strings and everything else. *)

From S2P Require Import Prelude JsString Json Regex.

Local Open Scope string_scope.

Inductive HostMutationOutcome :=
  | ambiguous | collision_dropped | committed_with_teardown_failure | outcome_unknown.

Inductive rejection :=
  | WireError (message : string) (code : Z) (data : option json)
  | PlainError (message : string)
  | RequestTimeoutError (message : string)
  | ConnectionClosedError (message : string)
  | ClientNotReadyError (message : string)
  | HostMutationOutcomeError (message : string) (outcome : HostMutationOutcome)
  | StoreMessageError (message : string)
  | ThrownString (s : string)
  | ThrownValue (text : string).

Definition is_wire (e : rejection) : bool := match e with WireError _ _ _ => true | _ => false end.

(** [extractEvenerErrorInfo]: data must be an object whose evenerErrorInfo is a
    string. *)
Definition extractEvenerErrorInfo (data : option json) : option string :=
  match as_object data with
  | Some o => as_string (obj_get "evenerErrorInfo" o)
  | None => None
  end.

Definition evenerErrorInfo (e : rejection) : option string :=
  match e with WireError _ _ d => extractEvenerErrorInfo d | _ => None end.

Definition has_info (e : rejection) (info : string) : bool :=
  match evenerErrorInfo e with Some i => String.eqb i info | None => false end.

Definition CODE_INVALID_REQUEST : Z := -32600.
Definition CODE_UNAVAILABLE : Z := -32014.
Definition CODE_METHOD_NOT_FOUND : Z := -32601.
Definition CODE_INVALID_PARAMS : Z := -32602.

Definition isMethodNotFound (e : rejection) : bool :=
  match e with
  | WireError _ code _ => (code =? CODE_METHOD_NOT_FOUND)%Z || has_info e "methodNotFound"
  | _ => false
  end.

Definition refusedBeforeRunning (e : rejection) : bool :=
  match e with
  | WireError _ code _ => (code =? CODE_INVALID_PARAMS)%Z || (code =? CODE_INVALID_REQUEST)%Z
  | _ => false
  end.

(** [err.message] of an Error, [String(err)] of anything else. *)
Definition errorText (e : rejection) : string :=
  match e with
  | WireError m _ _ | PlainError m | RequestTimeoutError m | ConnectionClosedError m
  | ClientNotReadyError m | HostMutationOutcomeError m _ | StoreMessageError m
  | ThrownString m | ThrownValue m => m
  end.

Definition isHubLaunchError (e : rejection) : bool := has_info e "hubLaunch".
Definition isStaleCursorError (e : rejection) : bool := has_info e "transcriptItemCursorStale".

Definition wireRejectionPayload {T} (e : rejection) (info key : string)
    (decode : option json -> option T) : option T :=
  match e with
  | WireError _ _ d =>
      if negb (has_info e info) then None
      else match d with
           | Some (JObj o) => decode (obj_get key o)
           | Some (JArr _) => decode None
           | _ => None
           end
  | _ => None
  end.

Definition ErrorInvalidHostField := "invalidHostField".
Definition hostFieldError (e : rejection) : option string :=
  wireRejectionPayload e ErrorInvalidHostField "field" (fun v =>
    match as_string v with Some s => if str_truthy s then Some s else None | None => None end).

Definition ErrorTranscriptHistoryFailed := "transcriptHistoryFailed".
Definition isTranscriptHistoryFailedError (e : rejection) : bool := has_info e ErrorTranscriptHistoryFailed.
Definition ErrorTranscriptIndexRebuilding := "transcriptIndexRebuilding".
Definition isTranscriptIndexRebuildingError (e : rejection) : bool := has_info e ErrorTranscriptIndexRebuilding.
Definition ErrorTranscriptIndexLocked := "transcriptIndexLocked".
Definition isTranscriptIndexLockedError (e : rejection) : bool := has_info e ErrorTranscriptIndexLocked.
Definition ErrorUpgradeRequired := "upgradeRequired".
Definition isUpgradeRequiredError (e : rejection) : bool := has_info e ErrorUpgradeRequired.
Definition ErrorInstanceRenamePersisted := "instanceRenamePersisted".
Definition isInstanceRenamePersisted (e : rejection) : bool := has_info e ErrorInstanceRenamePersisted.
Definition ErrorInstanceRemoveApplied := "instanceRemoveApplied".
Definition isInstanceRemoveApplied (e : rejection) : bool := has_info e ErrorInstanceRemoveApplied.

Definition sessionActionHeadline (failure : string) (e : rejection) : string :=
  if isHubLaunchError e then "Couldn't start this session" else failure.

Definition sessionActionError (failure : string) (e : rejection) : string :=
  let headline := sessionActionHeadline failure e in
  let detail := js_trim (errorText e) in
  if str_truthy detail then headline ++ ": " ++ detail else headline.

(** ** Messages for a person *)

Definition GENERIC_ERROR_MESSAGE := "Something went wrong.".
Definition HUB_UNREACHABLE_MESSAGE := "Can't reach the hub right now.".

Definition quote_char : string := String (Ascii.ascii_of_nat 34) "".

(** [/^\w*Client: (cannot call Q.*Q(?: while state is Q.*Q|; not connected)|closed)$/],
    Q a double quote. *)
Definition CLIENT_UNREACHABLE_PATTERN : regex :=
  let q := literal quote_char in
  let dots := Many (Chr is_dot) in
  Seq (Many (Chr is_word)) (Seq (literal "Client: ")
    (Alt
      (Seq (literal "cannot call ") (Seq q (Seq dots (Seq q
        (Alt (Seq (literal " while state is ") (Seq q (Seq dots q)))
             (literal "; not connected"))))))
      (literal "closed"))).

Definition isClientUnreachableError (e : rejection) : bool :=
  match e with
  | ConnectionClosedError _ | ClientNotReadyError _ => true
  | WireError _ _ _ => false
  | ThrownValue _ => false
  | _ => full_match CLIENT_UNREACHABLE_PATTERN (errorText e)
  end.

Definition friendlyErrorMessage (e : rejection) : string :=
  match e with
  | WireError m _ _ | HostMutationOutcomeError m _ =>
      let detail := js_trim m in
      if String.eqb detail "" then GENERIC_ERROR_MESSAGE else detail
  | _ => if isClientUnreachableError e then HUB_UNREACHABLE_MESSAGE else GENERIC_ERROR_MESSAGE
  end.

Definition storeErrorText (e : rejection) : string :=
  match e with StoreMessageError m => m | _ => friendlyErrorMessage e end.

Definition DAEMON_MISSING_MESSAGE :=
  "No agent daemon responded for this project. Start one by running evener in the repo, then retry.".

Inductive ErrorKind := hub_unreachable | daemon_missing | server | unknown_kind.

Definition errorKind (e : rejection) : ErrorKind :=
  if isClientUnreachableError e then hub_unreachable
  else if isHubLaunchError e then daemon_missing
  else if is_wire e then server
  else unknown_kind.

(** [/^evener launch-check (?:canceled|timed out)$|^fork\/exec /]: the second
    alternative is not anchored at its end. *)
Definition LAUNCH_NO_DIAGNOSIS_PATTERN : regex :=
  Alt (Seq (literal "evener launch-check ") (Alt (literal "canceled") (literal "timed out")))
      (Seq (literal "fork/exec ") anything).

Definition friendlyLaunchErrorMessage (e : rejection) : string :=
  match errorKind e with
  | daemon_missing =>
      let message := match e with WireError m _ _ => js_trim m | _ => "" end in
      if String.eqb message "" || full_match LAUNCH_NO_DIAGNOSIS_PATTERN message
      then DAEMON_MISSING_MESSAGE else message
  | _ => friendlyErrorMessage e
  end.

(** ** The mutation envelope *)

Inductive MutationOutcome := notAccepted | unknown | targetDeleted.
Inductive MutationRetryDisposition := automatic | blocked | none.

Record MutationErrorData := mkErrorData {
  err_clientMutationId : option string;
  mutationOutcome : option MutationOutcome;
  retryDisposition : option MutationRetryDisposition;
  cause : option string
}.

Definition parse_outcome (v : option json) : option MutationOutcome :=
  match as_string v with
  | Some "notAccepted" => Some notAccepted
  | Some "unknown" => Some unknown
  | Some "targetDeleted" => Some targetDeleted
  | _ => None
  end.

Definition parse_disposition (v : option json) : option MutationRetryDisposition :=
  match as_string v with
  | Some "automatic" => Some automatic
  | Some "blocked" => Some blocked
  | Some "none" => Some none
  | _ => None
  end.

(** An array is an object too, one with none of the fields. *)
Definition mutationErrorData (e : rejection) : option MutationErrorData :=
  match e with
  | WireError _ _ (Some (JObj o)) =>
      Some (mkErrorData (as_string (obj_get "clientMutationId" o))
              (parse_outcome (obj_get "mutationOutcome" o))
              (parse_disposition (obj_get "retryDisposition" o))
              (as_string (obj_get "cause" o)))
  | WireError _ _ (Some (JArr _)) => Some (mkErrorData None None None None)
  | _ => None
  end.

(** ** Properties *)

(** The messages the bundled clients raise when they cannot reach the hub: a class
    name, then one of three texts. *)
Definition unreachable_text (m : string) : Prop :=
  exists cls, all_chars is_word cls = true /\
    (m = cls ++ "Client: closed" \/
     exists name, all_chars is_dot name = true /\
       (m = cls ++ "Client: cannot call " ++ quote_char ++ name ++ quote_char ++ "; not connected" \/
        exists st, all_chars is_dot st = true /\
          m = cls ++ "Client: cannot call " ++ quote_char ++ name ++ quote_char ++
              " while state is " ++ quote_char ++ st ++ quote_char)).

Lemma unreachable_pattern m : denotes CLIENT_UNREACHABLE_PATTERN m <-> unreachable_text m.
Proof.
  unfold CLIENT_UNREACHABLE_PATTERN, unreachable_text. cbv zeta. split.
  - intros (cls & t & -> & Hc & H)%denotes_seq_iff. exists cls. split; [by apply denotes_class|].
    apply denotes_after in H as (u & -> & H).
    apply denotes_alt_iff in H as [H| ->%denotes_literal]; [right|by left].
    apply denotes_after in H as (u1 & -> & H). apply denotes_after in H as (u2 & -> & H).
    apply denotes_seq_iff in H as (name & u3 & -> & Hn & H). apply denotes_after in H as (u4 & -> & H).
    exists name. split; [by apply denotes_class|].
    apply denotes_alt_iff in H as [H| ->%denotes_literal]; [right|by left].
    apply denotes_after in H as (u5 & -> & H). apply denotes_after in H as (u6 & -> & H).
    apply denotes_seq_iff in H as (st & u7 & -> & Hs & ->%denotes_literal).
    exists st. by split; [apply denotes_class|].
  - intros (cls & Hc%denotes_class & Hm).
    assert (Ht : exists t, m = cls ++ t /\ denotes (Seq (literal "Client: ") (Alt
      (Seq (literal "cannot call ") (Seq (literal quote_char) (Seq (Many (Chr is_dot)) (Seq (literal quote_char)
        (Alt (Seq (literal " while state is ") (Seq (literal quote_char) (Seq (Many (Chr is_dot)) (literal quote_char))))
             (literal "; not connected"))))))
      (literal "closed"))) t).
    { destruct Hm as [->|(name & Hn%denotes_class & [->|(st & Hs%denotes_class & ->)])];
        (eexists; split; [done|]; apply denotes_after; eexists; split; [reflexivity|]).
      - by apply denotes_right, denotes_literal.
      - apply denotes_left. do 2 (apply denotes_after; eexists; split; [reflexivity|]).
        constructor; [done|]. apply denotes_after. eexists. split; [reflexivity|].
        by apply denotes_right, denotes_literal.
      - apply denotes_left. do 2 (apply denotes_after; eexists; split; [reflexivity|]).
        constructor; [done|]. apply denotes_after. eexists. split; [reflexivity|].
        apply denotes_left. do 2 (apply denotes_after; eexists; split; [reflexivity|]).
        constructor; [done|]. by apply denotes_literal. }
    destruct Ht as (t & -> & Ht). by constructor.
Qed.

(** The errors that carry the hub's own words. *)
Definition hub_said (e : rejection) : bool :=
  match e with WireError _ _ _ | HostMutationOutcomeError _ _ => true | _ => false end.

(** No raw client text reaches a person: an error that does not carry the hub's own
    words reads as the hub being unreachable exactly when it is a closed connection, a
    client not ready, or an error whose whole text is one of the three the bundled
    clients raise; every other one reads as the generic message. *)
Theorem friendly_message_exact e :
  hub_said e = false ->
  (friendlyErrorMessage e = HUB_UNREACHABLE_MESSAGE <->
   match e with
   | ConnectionClosedError _ | ClientNotReadyError _ => True
   | ThrownValue _ => False
   | _ => unreachable_text (errorText e)
   end) /\
  (friendlyErrorMessage e = HUB_UNREACHABLE_MESSAGE \/ friendlyErrorMessage e = GENERIC_ERROR_MESSAGE).
Proof.
  intros Hs.
  assert (Hm : forall m, full_match CLIENT_UNREACHABLE_PATTERN m = true <-> unreachable_text m).
  { intros m. by rewrite full_match_spec, unreachable_pattern. }
  assert (Hg : GENERIC_ERROR_MESSAGE <> HUB_UNREACHABLE_MESSAGE) by done.
  unfold friendlyErrorMessage, isClientUnreachableError.
  destruct e; try done; simpl errorText; rewrite <- ?Hm;
    try (destruct (full_match _ _)); split; auto; split; done.
Qed.

Lemma friendly_message_exact_witness :
  friendlyErrorMessage (PlainError "AppwireClient: closed") = HUB_UNREACHABLE_MESSAGE /\
  (friendlyErrorMessage (PlainError "AppwireClient: closed") = HUB_UNREACHABLE_MESSAGE <->
   unreachable_text "AppwireClient: closed") /\
  (friendlyErrorMessage (PlainError "AppwireClient: closed") = HUB_UNREACHABLE_MESSAGE \/
   friendlyErrorMessage (PlainError "AppwireClient: closed") = GENERIC_ERROR_MESSAGE).
Proof.
  split; [vm_compute; reflexivity|].
  exact (friendly_message_exact (PlainError "AppwireClient: closed") eq_refl).
Defined.
