(* ===== verification/Records.v ===== *)
(** The durable shape of a mutation this client submitted, and the rules every
    reader of it shares: state/mutation/records.ts, composerMethods.ts and
    queuedMessages.ts of the shared client. *)

From S2P Require Import Prelude JsString Json.

Local Open Scope string_scope.

(** ** The composer's verbs (composerMethods.ts) *)

Inductive ComposerVerb := verb_send | verb_steer | verb_queue | verb_drain | verb_promote.

#[export] Instance ComposerVerb_eq_dec : EqDecision ComposerVerb.
Proof. solve_decision. Defined.

Definition COMPOSER_METHODS (verb : ComposerVerb) : string :=
  match verb with
  | verb_send => "turn/start"
  | verb_steer => "turn/steer"
  | verb_queue => "turn/queue"
  | verb_drain => "turn/drainAsSteer"
  | verb_promote => "turn/promoteQueuedAsSteer"
  end.

(** [Object.keys(COMPOSER_METHODS)], in declaration order. *)
Definition composer_verbs : list ComposerVerb :=
  [verb_send; verb_steer; verb_queue; verb_drain; verb_promote].

Definition PENDING_TURN_METHODS : list string := COMPOSER_METHODS <$> composer_verbs.

Definition DIRECT_FALLBACK_METHODS : list string :=
  COMPOSER_METHODS <$> [verb_send; verb_queue; verb_steer; verb_drain].

Definition composerVerb (method : string) : option ComposerVerb :=
  list_find (fun verb => COMPOSER_METHODS verb = method) composer_verbs ≫= fun iv => Some iv.2.

Lemma composerVerb_spec method verb :
  composerVerb method = Some verb <-> COMPOSER_METHODS verb = method.
Proof.
  split.
  - unfold composerVerb. intros ([i v] & Hf & [= ->])%bind_Some.
    apply list_find_Some in Hf. naive_solver.
  - intros <-. by destruct verb.
Qed.

Lemma composerVerb_pending method :
  is_Some (composerVerb method) <-> str_in method PENDING_TURN_METHODS = true.
Proof.
  rewrite str_in_spec. unfold PENDING_TURN_METHODS. rewrite list_elem_of_fmap. split.
  - intros [v Hv%composerVerb_spec]. exists v. split; [done|].
    destruct v; unfold composer_verbs; set_solver.
  - intros (v & -> & _). exists v. by apply composerVerb_spec.
Qed.

(** ** The record (records.ts) *)

Record MutationAttachmentRef := mkAttachmentRef {
  presentationId : string;
  marker : Z;
  attachment_name : string;
  mediaType : string
}.

Inductive MentionKind := mention_skill | mention_command.

Record ComposerMention := mkMention {
  mention_kind : MentionKind;
  mention_name : string;
  mention_offset : Z
}.

(** [MutationOutboxState], and the "accepted" of an optimistic record. *)
Inductive RecordState := submitting | blockedUnknown | canceled | superseded | accepted.

Inductive MutationRecoveryKind := rejected | orphaned | editing.

#[export] Instance MutationAttachmentRef_eq_dec : EqDecision MutationAttachmentRef.
Proof. solve_decision. Defined.
#[export] Instance MentionKind_eq_dec : EqDecision MentionKind.
Proof. solve_decision. Defined.
#[export] Instance ComposerMention_eq_dec : EqDecision ComposerMention.
Proof. solve_decision. Defined.
#[export] Instance RecordState_eq_dec : EqDecision RecordState.
Proof. solve_decision. Defined.
#[export] Instance MutationRecoveryKind_eq_dec : EqDecision MutationRecoveryKind.
Proof. solve_decision. Defined.

Definition state_eqb (a b : RecordState) : bool := bool_decide (a = b).

Record MutationIntent := mkIntent {
  targetRef : string;
  threadId : option string;
  instanceId : option string;
  method : string;
  payload : json_object;
  attachments : list MutationAttachmentRef;
  optimisticDisplay : option json;
  composerText : option string;
  composerMentions : option (list ComposerMention);
  compositionOwnerId : option string;
  draftCaptureToken : option string;
  preserveComposer : option bool
}.

(** The interfaces MutationOutboxRecord, MutationOptimisticRecord and
    MutationRecoveryRecord extend MutationRecord with optional fields; one
    record type carries the fields of all of them, and the predicates below say
    which interface an object inhabits. *)
Record MutationRecord := mkRecord {
  intent :> MutationIntent;
  version : Z;
  clientMutationId : string;
  originClientId : option string;
  intentSequence : Z;
  createdAt : Z;
  state : RecordState;
  attempted : option bool;
  unresolvedAttempts : option Z;
  displayedRef : option string;
  displayedStopEpochAtEnqueue : option Z;
  stopEpochAtEnqueue : option Z;
  stopFenced : option bool;
  recoveryKind : option MutationRecoveryKind;
  compositionRevision : option Z;
  localDraftRevisionId : option string;
  recoveryReason : option string
}.

Definition is_outbox_record (r : MutationRecord) : bool :=
  negb (state_eqb (state r) accepted) &&
  match recoveryKind r, recoveryReason r with None, None => true | _, _ => false end.

Definition is_optimistic_record (r : MutationRecord) : bool :=
  state_eqb (state r) accepted &&
  match attempted r, unresolvedAttempts r, stopEpochAtEnqueue r, recoveryKind r, recoveryReason r with
  | None, None, None, None, None => true
  | _, _, _, _, _ => false
  end.

Definition is_recovery_record (r : MutationRecord) : bool :=
  negb (state_eqb (state r) accepted) &&
  match recoveryKind r with Some _ => true | None => false end.

(** The id the payload carries, when it carries one. *)
Definition payload_id (o : json_object) : option string :=
  match as_string (obj_get "clientMutationId" o) with
  | Some s => if str_truthy s then Some s else None
  | None => None
  end.

Definition effectiveWireId (record : MutationRecord) : string :=
  match payload_id (payload record) with
  | Some s => s
  | None => clientMutationId record
  end.

(** *** Receipt settlement *)

Definition acceptedRecord (source : MutationRecord) : MutationRecord :=
  {| intent :=
       {| targetRef := targetRef source;
          threadId := threadId source;
          instanceId := instanceId source;
          method := method source;
          payload := payload source;
          attachments := attachments source;
          optimisticDisplay := optimisticDisplay source;
          composerText := None;
          composerMentions := None;
          compositionOwnerId := None;
          draftCaptureToken := draftCaptureToken source;
          preserveComposer := None |};
     version := version source;
     clientMutationId := clientMutationId source;
     originClientId := originClientId source;
     intentSequence := intentSequence source;
     createdAt := createdAt source;
     state := accepted;
     attempted := None;
     unresolvedAttempts := None;
     displayedRef := None;
     displayedStopEpochAtEnqueue := None;
     stopEpochAtEnqueue := None;
     stopFenced := None;
     recoveryKind := None;
     compositionRevision := None;
     localDraftRevisionId := None;
     recoveryReason := None |}.

(** [display.input] of a display that is an object holding an input array. *)
Definition display_input (display : option json) : option (list json) :=
  match as_object display with
  | Some o => as_array (obj_get "input" o)
  | None => None
  end.

Definition carriesOptimisticInput (record : MutationIntent) : bool :=
  match display_input (optimisticDisplay record) with Some _ => true | None => false end.

Definition NOTES_HUMAN_SET := "notes/human/set".

Definition retainsAcceptedCopy (source : MutationIntent) (projectionState : string) : bool :=
  String.eqb projectionState "pending" &&
  (carriesOptimisticInput source || String.eqb (method source) NOTES_HUMAN_SET).

Definition settlementRetiresRecovery (recovery : MutationRecord) : bool :=
  (default 0 (compositionRevision recovery) =? 0)%Z.

Lemma acceptedRecord_optimistic source : is_optimistic_record (acceptedRecord source) = true.
Proof. done. Qed.

Lemma acceptedRecord_wire source : effectiveWireId (acceptedRecord source) = effectiveWireId source.
Proof. done. Qed.

(** *** Client provenance *)

(** The closure [createClientIdentity] returns: its [identity] variable, and
    what the injected storage holds under the identity's key ([None] when the
    host passed no storage). *)
Record ClientIdentity := mkIdentity {
  identity : option string;
  stored : option (option string)
}.

(** One call of [ownClientId]. [readable] and [writable] say whether this call's
    [getItem] and [setItem] succeed (a storage can throw on any access), and
    [generated] is the id [newClientIdentity] would mint. *)
Definition ownClientId (c : ClientIdentity) (readable writable : bool) (generated : string) :
    ClientIdentity * string :=
  match identity c with
  | Some id => (c, id)
  | None =>
      let read := if readable then mjoin (stored c) else None in
      match read with
      | Some s =>
          if str_truthy s then (mkIdentity (Some s) (stored c), s)
          else
            (mkIdentity (Some generated)
               (if writable then (fun _ => Some generated) <$> stored c else stored c), generated)
      | None =>
          (mkIdentity (Some generated)
             (if writable then (fun _ => Some generated) <$> stored c else stored c), generated)
      end
  end.

Definition isOwnMutationRecord (c : ClientIdentity) (readable writable : bool) (generated : string)
    (record : MutationRecord) : ClientIdentity * bool :=
  match originClientId record with
  | None => (c, true)
  | Some origin =>
      let '(c', own) := ownClientId c readable writable generated in
      (c', String.eqb origin own)
  end.

(** ** Queued message gates (queuedMessages.ts) *)

Definition opt_str_eqb (a b : option string) : bool := bool_decide (a = b).

Definition matchesQueuedMessageSnapshot (record expected : MutationRecord) : bool :=
  String.eqb (clientMutationId record) (clientMutationId expected) &&
  String.eqb (targetRef record) (targetRef expected) &&
  opt_str_eqb (instanceId record) (instanceId expected) &&
  opt_str_eqb (threadId record) (threadId expected) &&
  String.eqb (method record) (method expected) &&
  state_eqb (state record) (state expected) &&
  (intentSequence record =? intentSequence expected)%Z.

Definition isLocalQueuedMessage (record : MutationRecord) : bool :=
  match state record with
  | blockedUnknown | canceled => true
  | submitting => match attempted record with Some false => true | _ => false end
  | _ => false
  end.

Definition recordInput (record : MutationRecord) : list json :=
  default [] (as_array (obj_get "input" (payload record))).

(** One InputItem as composer content: [item.type] decides which field must be
    a non-blank string. *)
Definition item_is_content (item : json) : bool :=
  match item with
  | JObj o =>
      let filled key := match as_string (obj_get key o) with
                        | Some s => negb (blank s)
                        | None => false
                        end in
      match as_string (obj_get "type" o) with
      | Some "image" => true
      | Some "text" => filled "text"
      | Some "skill" | Some "command" => filled "name"
      | _ => false
      end
  | _ => false
  end.

Definition hasComposerInput (record : MutationRecord) : bool :=
  existsb item_is_content (recordInput record).

Definition canEditQueuedMessage (record : MutationRecord) : bool :=
  isLocalQueuedMessage record &&
  match composerVerb (method record) with
  | Some (verb_send | verb_queue | verb_steer) => true
  | Some verb_drain => hasComposerInput record
  | _ => false
  end.

Definition canRemoveQueuedMessage (record : MutationRecord) : bool :=
  isLocalQueuedMessage record && str_in (method record) PENDING_TURN_METHODS.

(** A message that can be edited can be removed. *)
Lemma canEdit_canRemove record :
  canEditQueuedMessage record = true -> canRemoveQueuedMessage record = true.
Proof.
  unfold canEditQueuedMessage, canRemoveQueuedMessage.
  intros [-> Hm]%andb_prop. simpl. apply composerVerb_pending.
  destruct (composerVerb (method record)); [by eexists|done].
Qed.

(** The row a click must not take: one a dispatch pass may be sending. *)
Lemma local_not_in_flight record :
  isLocalQueuedMessage record = true -> state record = submitting -> attempted record = Some false.
Proof. unfold isLocalQueuedMessage. intros H E. rewrite E in H. by destruct (attempted record) as [[]|]. Qed.

(** ** One client, one identity *)

Lemma ownClientId_known c readable writable generated id :
  identity c = Some id -> ownClientId c readable writable generated = (c, id).
Proof. unfold ownClientId. by intros ->. Qed.

Lemma ownClientId_sets c readable writable generated c' id :
  ownClientId c readable writable generated = (c', id) -> identity c' = Some id.
Proof.
  unfold ownClientId. intros H.
  destruct (identity c) as [i|] eqn:Ei; [by inversion H; subst|].
  destruct (if readable then _ else _) as [s|]; [destruct (str_truthy s)|]; by inversion H; subst.
Qed.

(** A session of calls, each under its own storage behaviour and random id: the
    answers, in order. *)
Fixpoint ownClientIds (c : ClientIdentity) (calls : list (bool * bool * string)) : list string :=
  match calls with
  | [] => []
  | (readable, writable, generated) :: calls' =>
      let '(c', id) := ownClientId c readable writable generated in
      id :: ownClientIds c' calls'
  end.

Lemma ownClientIds_known c id calls :
  identity c = Some id -> Forall (eq id) (ownClientIds c calls).
Proof.
  intros Hid. induction calls as [|[[r w] g] calls IH]; simpl; [constructor|].
  rewrite (ownClientId_known _ _ _ _ id) by done. by constructor.
Qed.

(** A fresh client over a storage that keeps what it is given settles on an
    identity its restarted self adopts, whatever that restart would mint. *)
Lemma ownClientId_restart held readable generated generated' w' :
  str_truthy generated = true ->
  let '(c, id) := ownClientId (mkIdentity None (Some held)) readable true generated in
  (ownClientId (mkIdentity None (stored c)) true w' generated').2 = id.
Proof.
  intros Hg. unfold ownClientId. simpl.
  destruct held as [s|], readable; simpl; rewrite ?Hg; try done;
    destruct (str_truthy s) eqn:Hs; simpl; by rewrite ?Hs, ?Hg.
Qed.

(** One client, one identity: whatever the storage does between calls -
    appears, vanishes, throws - every call of a client answers the id its first
    call settled on, and when its storage takes writes, a restarted client adopts that same id. *)
Theorem ownClientId_one_identity held readable writable generated calls :
  str_truthy generated = true ->
  let c := mkIdentity None (Some held) in
  let '(c', id) := ownClientId c readable writable generated in
  Forall (eq id) (ownClientIds c' calls) /\
  (writable = true -> forall w g, (ownClientId (mkIdentity None (stored c')) true w g).2 = id).
Proof.
  intros Hg c. destruct (ownClientId c readable writable generated) as [c' id] eqn:E. split.
  - apply ownClientIds_known. by eapply ownClientId_sets.
  - intros -> w g. pose proof (ownClientId_restart held readable generated g w Hg) as H.
    fold c in H. by rewrite E in H.
Qed.

Lemma ownClientId_one_identity_witness :
  (ownClientId (mkIdentity None (Some None)) true true "mutation-client-1").2 = "mutation-client-1" /\
  (let '(c', id) := ownClientId (mkIdentity None (Some None)) true true "mutation-client-1" in
   Forall (eq id) (ownClientIds c' [(false, false, "mutation-client-2"); (true, true, "mutation-client-3")]) /\
   (true = true -> forall w g, (ownClientId (mkIdentity None (stored c')) true w g).2 = id)).
Proof.
  split; [reflexivity|].
  exact (ownClientId_one_identity None true true "mutation-client-1"
    [(false, false, "mutation-client-2"); (true, true, "mutation-client-3")] eq_refl).
Defined.
