(* ===== verification/Effects.v ===== *)
(** Asynchronous programs as trees of calls.

    An async method of the shared client is the tree of the calls it awaits (or
    makes synchronously) on the host: every call answers with a value or with a
    rejection, and the answers are whatever the world gives, so that other tabs,
    other methods and the network may act between any two calls. *)

From S2P Require Import Prelude JsString Json Wire.

Section programs.
Context {event : Type -> Type}.

Inductive prog (A : Type) : Type :=
  | Return (a : A)
  | Raise (e : rejection)
  | Call {X : Type} (c : event X) (k : X + rejection -> prog A).
#[global] Arguments Return {A} a.
#[global] Arguments Raise {A} e.
#[global] Arguments Call {A X} c k.

(** [await p] followed by the rest of the method. *)
Fixpoint andThen {A B} (p : prog A) (k : A -> prog B) : prog B :=
  match p with
  | Return a => k a
  | Raise e => Raise e
  | Call c h => Call c (fun x => andThen (h x) k)
  end.

Definition call {X} (c : event X) : prog X :=
  Call c (fun x => match x with inl a => Return a | inr e => Raise e end).

(** The outcome of a program as a value. *)
Fixpoint settled {A} (p : prog A) : prog (A + rejection) :=
  match p with
  | Return a => Return (inl a)
  | Raise e => Return (inr e)
  | Call c h => Call c (fun x => settled (h x))
  end.

(** [try p catch (e) h(e)]. *)
Definition try_catch {A} (p : prog A) (h : rejection -> prog A) : prog A :=
  andThen (settled p) (fun r => match r with inl a => Return a | inr e => h e end).

(** [try p finally q]. *)
Definition try_finally {A B} (p : prog A) (q : prog B) : prog A :=
  andThen (settled p) (fun r =>
    andThen q (fun _ => match r with inl a => Return a | inr e => Raise e end)).

(** *** A world that answers *)

Section interp.
Context {W : Type} (handle : forall X, event X -> W -> W * (X + rejection)).

Fixpoint interp {A} (p : prog A) (w : W) : W * (A + rejection) :=
  match p with
  | Return a => (w, inl a)
  | Raise e => (w, inr e)
  | Call c h => let '(w', x) := handle _ c w in interp (h x) w'
  end.

Lemma interp_andThen {A B} (p : prog A) (k : A -> prog B) w :
  interp (andThen p k) w =
    match interp p w with
    | (w', inl a) => interp (k a) w'
    | (w', inr e) => (w', inr e)
    end.
Proof.
  revert w. induction p as [a|e|X c h IH]; intros w; simpl; [done|done|].
  destruct (handle _ c w) as [w' x]. apply IH.
Qed.

Lemma interp_call {X} (c : event X) w : interp (call c) w = handle _ c w.
Proof. simpl. destruct (handle _ c w) as [w' [a|e]]; done. Qed.

Lemma interp_settled {A} (p : prog A) w :
  interp (settled p) w = let '(w', r) := interp p w in (w', inl r).
Proof.
  revert w. induction p as [a|e|X c h IH]; intros w; simpl; [done|done|].
  destruct (handle _ c w) as [w' x]. apply IH.
Qed.

Lemma interp_try_catch {A} (p : prog A) h w :
  interp (try_catch p h) w =
    match interp p w with
    | (w', inl a) => (w', inl a)
    | (w', inr e) => interp (h e) w'
    end.
Proof.
  unfold try_catch. rewrite interp_andThen, interp_settled.
  by destruct (interp p w) as [w' [a|e]].
Qed.

Lemma interp_try_finally {A B} (p : prog A) (q : prog B) w :
  interp (try_finally p q) w =
    let '(w', r) := interp p w in
    match interp q w' with
    | (w'', inl _) => (w'', r)
    | (w'', inr e) => (w'', inr e)
    end.
Proof.
  unfold try_finally. rewrite interp_andThen, interp_settled.
  destruct (interp p w) as [w' r]. rewrite interp_andThen.
  destruct (interp q w') as [w'' [b|e]]; [|done]. by destruct r.
Qed.
End interp.

(** *** Monitors *)

(** A monitor watches every call and its answer: [ok] says when a call is
    allowed, [next] how the monitor's state moves. A program obeys it when no
    answers whatever lead it to a call that is not allowed. *)
Section monitor.
Context {G : Type} (ok : G -> forall X, event X -> Prop)
  (next : G -> forall X, event X -> X + rejection -> G).

Fixpoint obeys {A} (g : G) (p : prog A) (Q : G -> A + rejection -> Prop) : Prop :=
  match p with
  | Return a => Q g (inl a)
  | Raise e => Q g (inr e)
  | Call c h => ok g _ c /\ forall x, obeys (next g _ c x) (h x) Q
  end.

Lemma obeys_mono {A} g (p : prog A) (Q Q' : G -> A + rejection -> Prop) :
  obeys g p Q -> (forall g' r, Q g' r -> Q' g' r) -> obeys g p Q'.
Proof. revert g. induction p; simpl; naive_solver. Qed.

Lemma obeys_and {A} g (p : prog A) Q Q' :
  obeys g p Q -> obeys g p Q' -> obeys g p (fun g' r => Q g' r /\ Q' g' r).
Proof. revert g. induction p; simpl; naive_solver. Qed.

Lemma obeys_andThen {A B} g (p : prog A) (k : A -> prog B) Q :
  obeys g p (fun g' r => match r with inl a => obeys g' (k a) Q | inr e => Q g' (inr e) end) ->
  obeys g (andThen p k) Q.
Proof. revert g. induction p; simpl; naive_solver. Qed.

Lemma obeys_settled {A} g (p : prog A) Q :
  obeys g p (fun g' r => Q g' (inl r)) -> obeys g (settled p) Q.
Proof. revert g. induction p; simpl; naive_solver. Qed.

Lemma obeys_call {X} g (c : event X) Q :
  ok g _ c -> (forall x, Q (next g _ c x) x) -> obeys g (call c) Q.
Proof. intros Hok HQ. split; [done|]. intros [a|e]; apply HQ. Qed.

Lemma obeys_try_catch {A} g (p : prog A) h Q :
  obeys g p (fun g' r => match r with inl a => Q g' (inl a) | inr e => obeys g' (h e) Q end) ->
  obeys g (try_catch p h) Q.
Proof.
  intros H. apply obeys_andThen, obeys_settled. eapply obeys_mono; [done|]. by intros g' [a|e].
Qed.

Lemma obeys_try_finally {A B} g (p : prog A) (q : prog B) Q :
  obeys g p (fun g' r => obeys g' q (fun g'' r' =>
    match r' with inl _ => Q g'' r | inr e => Q g'' (inr e) end)) ->
  obeys g (try_finally p q) Q.
Proof.
  intros H. apply obeys_andThen, obeys_settled. eapply obeys_mono; [done|]. simpl.
  intros g' r Hq. apply obeys_andThen. eapply obeys_mono; [done|].
  intros g'' [b|e]; [|done]. by destruct r.
Qed.
End monitor.

Lemma obeys_ok_mono {G} (ok ok' : G -> forall X, event X -> Prop) next {A} g (p : prog A) Q :
  (forall g X c, ok g X c -> ok' g X c) -> obeys ok next g p Q -> obeys ok' next g p Q.
Proof. intros Hok. revert g. induction p; simpl; naive_solver. Qed.

(** A monitor a program obeys runs beside any world that answers: a relation
    between the two that allowed calls keep, holds at the end. *)
Lemma obeys_interp {G W} (ok : G -> forall X, event X -> Prop) next
    (handle : forall X, event X -> W -> W * (X + rejection)) (R : G -> W -> Prop) {A} g w (p : prog A) Q :
  (forall g w X (c : event X), ok g X c -> R g w -> R (next g X c (handle X c w).2) (handle X c w).1) ->
  obeys ok next g p Q -> R g w ->
  exists g', R g' (interp handle p w).1 /\ Q g' (interp handle p w).2.
Proof.
  intros Hstep. revert g w. induction p as [a|e|X c h IH]; intros g w; simpl; [eauto|eauto|].
  intros [Hok Hk] HR. specialize (Hstep g w X c Hok HR). destruct (handle X c w) as [w' x].
  simpl in *. eapply IH; [apply Hk|done].
Qed.
End programs.

Arguments prog : clear implicits.

Declare Scope prog_scope.
Delimit Scope prog_scope with prog.
Bind Scope prog_scope with prog.
Notation "x ⇐ y ; z" := (andThen y (fun x => z))
  (at level 20, y at level 100, z at level 200) : prog_scope.
Notation "y ⨾ z" := (andThen y (fun _ => z))
  (at level 100, z at level 200, right associativity) : prog_scope.
