(* ===== verification/Dispatcher.v ===== *)
(** Dispatching a durable mutation (dispatcher.ts): one at a time per target, and
    never a blind replay. *)

From S2P Require Import Prelude JsString Json Wire Records Effects.

Local Open Scope string_scope.
Local Open Scope prog_scope.

(** ** The host *)

(** An AppwireClientLike: which object it is and the state it shows now. *)
Record Client := mkClient {
  client_handle : nat;
  client_state : string
}.

Definition isClientReady (c : option Client) : bool :=
  match c with Some c => String.eqb (client_state c) "ready" | None => false end.

(** [a !== b] on client lookups: object identity. *)
Definition same_client (a : option Client) (b : Client) : bool :=
  match a with Some a => (client_handle a =? client_handle b)%nat | None => false end.

(** The callbacks of MutationDispatcherOptions. [StorageChange] carries the
    cause's projectedShapeUnchanged when there is a cause. *)
Inductive notice :=
  | StorageChange (targetRefs : list string) (projectedShapeUnchanged : option bool)
  | BlockedMutation (ref : string) (client : Client)
  | TransientRefusal (record : MutationRecord) (e : rejection)
  | ClearResponse (ref : string) (response : json)
  | PrepareHumanNoteResponse (record : MutationRecord)
  | HumanNoteResponse (note : string) (receipt : json_object)
  | HumanNoteReconciled (record : MutationRecord).

(** The calls the dispatcher makes: the storage port, the client and the
    callbacks. *)
Inductive event : Type -> Type :=
  | GetClient (ref : string) (m : option string) : event (option Client)
  | NextDispatchable (ref : string) : event (option MutationRecord)
  | GetOutbox (id : string) : event (option MutationRecord)
  | MarkAttempted (id : string) : event bool
  | UnmarkAttempted (id : string) : event bool
  | MarkUnknown (id : string) : event bool
  | SettleReceipt (id projectionState : string) : event bool
  | SettleApplied (id : string) : event (option MutationRecord)
  | TransferToRecovery (id : string) (kind : MutationRecoveryKind) (reason : option string)
      (wireDeliveryUncertain : option bool) : event (option MutationRecord)
  | RestoreProvenAbsent (ref : string) (authoritativeIds : list string) : event (list MutationRecord)
  | Request (client : Client) (m : string) (payload : json_object) : event (option json)
  | Notify (n : notice) : event unit.

Notation async A := (prog event A).
Notation await := (@call event _).

(** ** Pure parts *)

Definition wireMutationId (record : MutationRecord) : string := effectiveWireId record.

(** types.gen.ts's list, less urls/remove. *)
Definition GENERATED_RETRY_SAFE_MUTATION_METHODS : list string :=
  ["turn/start"; "turn/steer"; "turn/interrupt"; "turn/queue"; "turn/drainAsSteer";
   "turn/promoteQueuedAsSteer"; "turn/cancelQueued"; "thread/clear"; "notes/human/set"; "urls/remove"].

Definition RETRY_SAFE_MUTATION_METHODS : list string :=
  filter (fun m => m <> "urls/remove") GENERATED_RETRY_SAFE_MUTATION_METHODS.

Definition mutationMethod (m : string) : async string :=
  if str_in m RETRY_SAFE_MUTATION_METHODS then Return m
  else Raise (PlainError ("Unknown mutation method: " ++ m)).

Definition outcome_text (o : MutationOutcome) : string :=
  match o with notAccepted => "notAccepted" | unknown => "unknown" | targetDeleted => "targetDeleted" end.

Definition rejectionReason (e : rejection) (data : option MutationErrorData) : option string :=
  let fallback := match data with Some d => outcome_text <$> mutationOutcome d | None => None end in
  match e with
  | WireError m _ _ =>
      if str_truthy (js_trim m) then Some (js_trim m)
      else match js_trim <$> evenerErrorInfo e with
           | Some c => if str_truthy c then Some c else fallback
           | None => fallback
           end
  | _ => fallback
  end.

Definition non_blank_string (v : json) : option string :=
  match v with JStr s => if blank s then None else Some s | _ => None end.

(** All of the ids or none of them. *)
Definition validConsumedClientMutationIds (v : option json) : list string :=
  match v with
  | Some (JArr l) => default [] (mapM non_blank_string l)
  | _ => []
  end.

Definition mutationReceipt (result : option json) : option json_object :=
  match as_object result with
  | Some r =>
      match as_object (obj_get "receipt" r) with
      | Some candidate =>
          match as_string (obj_get "clientMutationId" candidate), as_string (obj_get "disposition" candidate),
                as_string (obj_get "threadId" candidate), as_string (obj_get "projectionState" candidate) with
          | Some _, Some _, Some _, Some _ => Some candidate
          | _, _, _, _ => None
          end
      | None => None
      end
  | None => None
  end.

(** A string property a receipt is known to have. *)
Definition field (k : string) (o : json_object) : string := default "" (as_string (obj_get k o)).

Definition is_string (s : string) (v : option json) : bool :=
  match as_string v with Some t => String.eqb t s | None => false end.

Definition clearResponse (result : option json) (targetRef : string) : option json :=
  match result with
  | Some (JObj candidate) =>
      if negb (is_string targetRef (obj_get "ref" candidate)) then None
      else
        match as_object (obj_get "thread" candidate) with
        | Some thread =>
            match as_string (obj_get "id" thread) with
            | Some id =>
                if String.eqb id "" then None
                else
                  match as_object (obj_get "evener" thread) with
                  | Some evener =>
                      if is_string targetRef (obj_get "ref" evener) then Some (JObj candidate) else None
                  | None => None
                  end
            | None => None
            end
        | None => None
        end
  | _ => None
  end.

(** ** Reconciliation *)

Definition restoreProvenAbsent (ref : string) (authoritativeIds : list string) :
    async (list MutationRecord) :=
  restored ⇐ await (RestoreProvenAbsent ref authoritativeIds);
  match restored with
  | [] => Return restored
  | _ => await (Notify (StorageChange [ref] None)) ⨾ Return restored
  end.

(** One member of [Promise.all]: settle an id, acknowledge a note, answer the
    target it settled. *)
Definition reconcileIdentity (id : string) : async (option string) :=
  record ⇐ await (SettleApplied id);
  match record with
  | Some r =>
      (if String.eqb (method r) "notes/human/set"
       then await (Notify (HumanNoteReconciled r)) else Return tt) ⨾
      Return (Some (targetRef r))
  | None => Return None
  end.

(** [Promise.all]: every member runs, in the order given; the first rejection is
    the outcome. *)
Fixpoint promise_all {A} (ps : list (async A)) : async (list A) :=
  match ps with
  | [] => Return []
  | p :: ps' =>
      r ⇐ settled p;
      match r with
      | inl a => rest ⇐ promise_all ps'; Return (a :: rest)
      | inr e => settled (promise_all ps') ⨾ Raise e
      end
  end.

Definition reconcileIdentities (clientMutationIds : list string) : async unit :=
  refs ⇐ promise_all (map reconcileIdentity (js_set clientMutationIds));
  match js_set (omap id refs) with
  | [] => Return tt
  | targetRefs => await (Notify (StorageChange targetRefs None))
  end.

(** ** One attempt *)

Inductive attempt_result := advance | stop.

(** The [try] block of [#attempt]. *)
Definition attempt_send (client : Client) (record : MutationRecord) : async attempt_result :=
  m ⇐ mutationMethod (method record);
  (if String.eqb m "notes/human/set"
   then await (Notify (PrepareHumanNoteResponse record)) else Return tt) ⨾
  result ⇐ await (Request client m (payload record));
  match mutationReceipt result with
  | None => Return stop
  | Some receipt =>
      if negb (String.eqb (field "clientMutationId" receipt) (wireMutationId record)) ||
         negb (String.eqb (field "disposition" receipt) "applied") &&
         negb (String.eqb (field "disposition" receipt) "replayed")
      then Return stop
      else
        cleared ⇐ (if String.eqb m "thread/clear" then
                     match clearResponse result (targetRef record) with
                     | None => Return false
                     | Some response => await (Notify (ClearResponse (targetRef record) response)) ⨾ Return true
                     end
                   else Return true);
        if negb cleared then Return stop
        else
          noted ⇐ (if String.eqb m "notes/human/set" then
                     match as_object result with
                     | Some o =>
                         match as_string (obj_get "note" o) with
                         | Some note => await (Notify (HumanNoteResponse note receipt)) ⨾ Return true
                         | None => Return false
                         end
                     | None => Return false
                     end
                   else Return true);
          if negb noted then Return stop
          else
            (if String.eqb m "turn/drainAsSteer" then
               match validConsumedClientMutationIds (obj_get "consumedClientMutationIds" receipt) with
               | [] => Return tt
               | consumed => reconcileIdentities consumed
               end
             else Return tt) ⨾
            await (SettleReceipt (clientMutationId record) (field "projectionState" receipt)) ⨾
            await (Notify (StorageChange [targetRef record] None)) ⨾
            Return advance
  end.

Definition data_names (data : option MutationErrorData) (wire : string) : bool :=
  match data with
  | Some d => match err_clientMutationId d with Some i => String.eqb i wire | None => false end
  | None => false
  end.

Definition data_names_none (data : option MutationErrorData) : bool :=
  match data with
  | Some d => match err_clientMutationId d with Some _ => false | None => true end
  | None => true
  end.

Definition has_outcome (o : MutationOutcome) (data : option MutationErrorData) : bool :=
  match data with
  | Some d =>
      match mutationOutcome d, o with
      | Some notAccepted, notAccepted | Some unknown, unknown | Some targetDeleted, targetDeleted => true
      | _, _ => false
      end
  | None => false
  end.

Definition has_disposition (p : MutationRetryDisposition) (data : option MutationErrorData) : bool :=
  match data with
  | Some d =>
      match retryDisposition d, p with
      | Some automatic, automatic | Some blocked, blocked | Some none, none => true
      | _, _ => false
      end
  | None => false
  end.

Definition has_cause (c : string) (data : option MutationErrorData) : bool :=
  match data with
  | Some d => match cause d with Some c' => String.eqb c' c | None => false end
  | None => false
  end.

Definition is_submitting (r : option MutationRecord) : bool :=
  match r with Some r => state_eqb (state r) submitting | None => false end.

(** The [catch] block of [#attempt]. *)
Definition attempt_refused (client : Client) (record : MutationRecord) (e : rejection) :
    async attempt_result :=
  let data := mutationErrorData e in
  let id := clientMutationId record in
  let ref := targetRef record in
  if negb (data_names data (wireMutationId record)) then
    if data_names_none data && refusedBeforeRunning e then
      await (TransferToRecovery id rejected (rejectionReason e data) (Some true)) ⨾
      await (Notify (StorageChange [ref] None)) ⨾
      Return advance
    else Return stop
  else if has_outcome notAccepted data && has_disposition automatic data then
    beforeRollback ⇐ await (GetOutbox id);
    rolledBackClean ⇐ await (UnmarkAttempted id);
    (if (rolledBackClean : bool) then await (Notify (TransientRefusal record e)) else Return tt) ⨾
    unchanged ⇐ (if (rolledBackClean : bool) then Return (is_submitting beforeRollback)
                 else row ⇐ await (GetOutbox id);
                      Return (match row with Some r => negb (state_eqb (state r) canceled) | None => false end));
    await (Notify (StorageChange [ref] (Some unchanged))) ⨾
    Return stop
  else if has_outcome notAccepted data then
    await (TransferToRecovery id rejected (rejectionReason e data)
            (Some (negb (has_cause "journaledRejection" data)))) ⨾
    await (Notify (StorageChange [ref] None)) ⨾
    Return advance
  else if has_outcome targetDeleted data then
    await (TransferToRecovery id orphaned None None) ⨾
    await (Notify (StorageChange [ref] None)) ⨾
    Return advance
  else if has_outcome unknown data && (has_cause "persistenceUnavailable" data || has_disposition blocked data) then
    try_finally
      (await (MarkUnknown id) ⨾ await (Notify (StorageChange [ref] None)))
      (await (Notify (BlockedMutation ref client))) ⨾
    Return stop
  else Return stop.

Definition attempt (client : Client) (record : MutationRecord) : async attempt_result :=
  try_catch (attempt_send client record) (attempt_refused client record).

(** ** Draining one target *)

(** One turn of [#drainTarget]'s loop: [None] goes round again. *)
Definition drain_once (ref : string) : async (option bool) :=
  client ⇐ await (GetClient ref None);
  match client with
  | Some c =>
      if negb (isClientReady client) then Return (Some true)
      else
        loaded ⇐ await (NextDispatchable ref);
        match loaded with
        | None => Return (Some true)
        | Some l =>
            current ⇐ await (GetOutbox (clientMutationId l));
            match current with
            | None => Return None
            | Some r =>
                if negb (state_eqb (state r) submitting) then Return None
                else
                  again ⇐ await (GetClient ref (Some (method r)));
                  if negb (same_client again c) then Return (Some true)
                  else
                    marked ⇐ await (MarkAttempted (clientMutationId r));
                    if negb (marked : bool) then Return None
                    else
                      still ⇐ await (GetClient ref (Some (method r)));
                      if negb (same_client still c) then Return (Some true)
                      else
                        outcome ⇐ attempt c r;
                        match outcome with stop => Return (Some false) | advance => Return None end
            end
        end
  | None => Return (Some true)
  end.

(** [#drainTarget], [fuel] turns of it; [None] means it is still going. *)
Fixpoint drainTarget (fuel : nat) (ref : string) : async (option bool) :=
  match fuel with
  | O => Return None
  | S n =>
      r ⇐ drain_once ref;
      match r with Some b => Return (Some b) | None => drainTarget n ref end
  end.

(** ** Runs: serialising the drains of a target *)

(** [#requestedRuns] and [#dispatching] for one target: how many dispatches have
    been asked for since the run began, and, while a run is on, the count its
    current pass observed when it started. *)
Record Runs := mkRuns {
  requestedRuns : nat;
  observedRun : option nat
}.

Definition idle_runs : Runs := mkRuns 0 None.

(** [#dispatchTarget]: the answer says whether a new pass starts now. *)
Definition dispatchTarget (s : Runs) : Runs * bool :=
  let requested := S (requestedRuns s) in
  match observedRun s with
  | Some o => (mkRuns requested (Some o), false)
  | None => (mkRuns requested (Some requested), true)
  end.

(** The outcome of one pass: [#drainTarget] returned canRerun, or threw. *)
Inductive pass_end := PassReturned (canRerun : bool) | PassThrew.

(** [#runTarget] at the end of a pass: another pass, or both entries retired. *)
Definition endPass (s : Runs) (e : pass_end) : Runs * bool :=
  match observedRun s with
  | None => (s, false)
  | Some o =>
      match e with
      | PassReturned true =>
          if (o =? requestedRuns s)%nat then (idle_runs, false)
          else (mkRuns (requestedRuns s) (Some (requestedRuns s)), true)
      | PassReturned false | PassThrew => (idle_runs, false)
      end
  end.

Inductive run_event := Dispatch | Ended (e : pass_end).

Definition run_step (s : Runs) (e : run_event) : Runs * bool :=
  match e with Dispatch => dispatchTarget s | Ended e => endPass s e end.

(** A history of one target from rest, the newest event first: the runs and the
    passes started so far. *)
Fixpoint run_history (h : list run_event) : Runs * nat :=
  match h with
  | [] => (idle_runs, 0%nat)
  | e :: h' =>
      let '(s, n) := run_history h' in
      let '(s', started) := run_step s e in
      (s', if started then S n else n)
  end.

(** A pass can end only while one is on. *)
Fixpoint legal (h : list run_event) : Prop :=
  match h with
  | [] => True
  | Dispatch :: h' => legal h'
  | Ended _ :: h' => is_Some (observedRun (run_history h').1) /\ legal h'
  end.

(** A dispatch nothing has answered: asked for after the current pass started. *)
Definition unanswered (s : Runs) : bool :=
  match observedRun s with Some o => negb (o =? requestedRuns s)%nat | None => false end.

Lemma runs_observed h : forall o, observedRun (run_history h).1 = Some o ->
  (1 <= o <= requestedRuns (run_history h).1)%nat.
Proof.
  induction h as [|e h IH]; intros o; simpl; [done|].
  destruct (run_history h) as [s n]. simpl in IH. destruct e as [|e]; simpl.
  - unfold dispatchTarget. destruct (observedRun s) as [o'|] eqn:E; simpl.
    + intros [= <-]. specialize (IH _ eq_refl). lia.
    + intros [= <-]. lia.
  - unfold endPass. destruct (observedRun s) as [o'|] eqn:E; simpl; [|congruence].
    specialize (IH _ eq_refl).
    destruct e as [[]|]; simpl; try done. destruct (_ =? _)%nat; simpl; [done|].
    intros [= <-]. lia.
Qed.

Lemma runs_idle h : observedRun (run_history h).1 = None -> (run_history h).1 = idle_runs.
Proof.
  induction h as [|e h IH]; simpl; [done|].
  destruct (run_history h) as [s n]. simpl in IH. destruct e as [|e]; simpl.
  - unfold dispatchTarget. by destruct (observedRun s).
  - unfold endPass. destruct (observedRun s) as [o'|] eqn:E; simpl; [|auto].
    destruct e as [[]|]; simpl; try done. by destruct (_ =? _)%nat.
Qed.

(** The passes a history has ended. *)
Definition is_end (e : run_event) : bool := match e with Ended _ => true | Dispatch => false end.
Definition ended (h : list run_event) : nat := length (filter (fun e => is_end e = true) h).

(** An event that starts a pass after a history. *)
Definition starts (e : run_event) (h : list run_event) : bool := (run_step (run_history h).1 e).2.

(** A pass that ended with a stop or a throw owns the next retry. *)
Definition is_stop (e : run_event) : bool :=
  match e with Ended (PassReturned false) | Ended PassThrew => true | _ => false end.
