(* ===== verification/DispatcherFacts.v ===== *)
(** What the dispatcher guarantees: the custody of a send, the serialisation of
    drains, and the wakes it never loses. *)

From S2P Require Import Prelude JsString Json Wire Records Effects Dispatcher.

(** ** Runs *)

Lemma run_history_cons e h :
  run_history (e :: h) =
    ((run_step (run_history h).1 e).1,
     if starts e h then S (run_history h).2 else (run_history h).2).
Proof.
  unfold starts. simpl. destruct (run_history h) as [s n]. simpl. by destruct (run_step s e).
Qed.

Lemma ended_cons e h : ended (e :: h) = if is_end e then S (ended h) else ended h.
Proof.
  unfold ended. destruct (is_end e) eqn:E; [by rewrite filter_cons_True|].
  rewrite filter_cons_False; [done|congruence].
Qed.

Lemma runs_balance h :
  legal h ->
  (run_history h).2 =
    (ended h + match observedRun (run_history h).1 with Some _ => 1 | None => 0 end)%nat.
Proof.
  induction h as [|e h IH]; [done|]. intros Hl. rewrite run_history_cons, ended_cons.
  unfold starts. destruct e as [|e]; simpl in Hl |- *.
  - rewrite (IH Hl). unfold dispatchTarget. destruct (observedRun _); simpl; lia.
  - destruct Hl as [[o Ho] Hl]. rewrite (IH Hl). unfold endPass. rewrite Ho.
    destruct e as [[]|]; simpl; try lia. destruct (_ =? _)%nat; simpl; lia.
Qed.

(** A dispatch no pass has started after is still pending. *)
Lemma dispatch_pending newer older :
  legal (newer ++ Dispatch :: older) ->
  starts Dispatch older = false ->
  Forall (fun e => is_stop e = false) newer ->
  (forall a e b, newer = a ++ e :: b -> starts e (b ++ Dispatch :: older) = false) ->
  exists o, observedRun (run_history (newer ++ Dispatch :: older)).1 = Some o /\
    (o < requestedRuns (run_history (newer ++ Dispatch :: older)).1)%nat.
Proof.
  intros Hl Hd Hs Hn. induction newer as [|e newer IH]; simpl app in *.
  - rewrite run_history_cons. unfold starts in Hd. simpl in *. unfold dispatchTarget in *.
    destruct (observedRun _) as [o|] eqn:E; [|done]. simpl. exists o. split; [done|].
    pose proof (runs_observed older o E). lia.
  - apply Forall_cons in Hs as [He Hs].
    assert (Hl' : legal (newer ++ Dispatch :: older)) by (destruct e; simpl in Hl; naive_solver).
    destruct IH as (o & Ho & Hlt); [done|done| |].
    { intros a e' b ->. by apply (Hn (e :: a)). }
    rewrite run_history_cons. specialize (Hn [] e newer eq_refl). unfold starts in Hn.
    destruct e as [|[[]|]]; simpl in *; try done.
    + unfold dispatchTarget. rewrite Ho. simpl. exists o. split; [done|lia].
    + unfold endPass in *. rewrite Ho in *. destruct (Nat.eqb_spec o (requestedRuns
        (run_history (newer ++ Dispatch :: older)).1)); simpl in *; [lia|done].
Qed.

Local Open Scope string_scope.
Local Open Scope prog_scope.

(** ** Custody of a send *)

(** Where a drain is with the record it handles. [Settled] is the record's own
    settlement or transfer having committed; [Tainted] is a call other than
    the request itself having thrown a hub error. *)
Inductive custody :=
  | Idle
  | Held (r : MutationRecord)
  | Marked (r : MutationRecord)
  | Ready (r : MutationRecord) (c : Client)
  | Sent (r : MutationRecord) (answer : option json + rejection)
  | Settled (r : MutationRecord)
  | Tainted.

Definition taint {X} (g : custody) (answer : X + rejection) : custody :=
  match answer with
  | inr e => if is_wire e then Tainted else g
  | inl _ => g
  end.

Definition custody_next (g : custody) (X : Type) (c : event X) : X + rejection -> custody :=
  match c in event Y return Y + rejection -> custody with
  | NextDispatchable _ => fun a => taint Idle a
  | GetOutbox _ => fun a =>
      match g with
      | Sent _ _ | Settled _ | Tainted => taint g a
      | _ =>
          match a with
          | inl (Some r) => if state_eqb (state r) submitting then Held r else Idle
          | _ => taint Idle a
          end
      end
  | MarkAttempted id => fun a =>
      match g, a with
      | Held r, inl true => if String.eqb id (clientMutationId r) then Marked r else Idle
      | _, _ => taint Idle a
      end
  | GetClient _ m => fun a =>
      match g, a with
      | Marked r, inl (Some c) =>
          if bool_decide (m = Some (method r)) then Ready r c else Marked r
      | _, _ => taint g a
      end
  | Request _ _ _ => fun a => match g with Ready r _ => Sent r a | _ => Tainted end
  | SettleReceipt _ _ => fun a =>
      match g, a with Sent r _, inl _ => Settled r | _, _ => taint g a end
  | TransferToRecovery _ _ _ _ => fun a =>
      match g, a with Sent r _, inl _ => Settled r | _, _ => taint g a end
  | _ => fun a => taint g a
  end.

(** The refusal is the hub's own, about this record: it names the record's wire
    id, or names none and was refused before anything ran. *)
Definition own_refusal (r : MutationRecord) (e : rejection) : Prop :=
  data_names (mutationErrorData e) (wireMutationId r) = true \/
  (data_names_none (mutationErrorData e) = true /\ refusedBeforeRunning e = true).

Definition custody_ok (g : custody) (X : Type) (c : event X) : Prop :=
  match c with
  | Request c m p =>
      exists r c', g = Ready r c' /\ client_handle c = client_handle c' /\
        state r = submitting /\ m = method r /\ m ∈ RETRY_SAFE_MUTATION_METHODS /\ p = payload r
  | SettleReceipt id ps =>
      exists r result receipt, g = Sent r (inl result) /\ id = clientMutationId r /\
        mutationReceipt result = Some receipt /\
        field "clientMutationId" receipt = wireMutationId r /\
        (field "disposition" receipt = "applied" \/ field "disposition" receipt = "replayed") /\
        ps = field "projectionState" receipt
  | TransferToRecovery id _ _ _ =>
      g = Tainted \/
      exists r e, g = Sent r (inr e) /\ id = clientMutationId r /\ own_refusal r e
  | UnmarkAttempted id =>
      g = Tainted \/
      exists r e, g = Sent r (inr e) /\ id = clientMutationId r /\
        data_names (mutationErrorData e) (wireMutationId r) = true /\
        has_outcome notAccepted (mutationErrorData e) = true /\
        has_disposition automatic (mutationErrorData e) = true
  | MarkUnknown id =>
      g = Tainted \/
      exists r e, g = Sent r (inr e) /\ id = clientMutationId r /\
        data_names (mutationErrorData e) (wireMutationId r) = true /\
        has_outcome unknown (mutationErrorData e) = true
  | SettleApplied _ =>
      g = Tainted \/
      exists r result, g = Sent r (inl result) /\ method r = "turn/drainAsSteer"
  | NextDispatchable _ => match g with Ready _ _ | Sent _ _ => False | _ => True end
  | _ => True
  end.

(** The calls of one attempt: nothing is loaded or marked in the middle of it. *)
Definition attempt_ok (g : custody) (X : Type) (c : event X) : Prop :=
  custody_ok g X c /\
  match c with
  | GetClient _ _ | NextDispatchable _ | MarkAttempted _ | RestoreProvenAbsent _ _ => False
  | GetOutbox _ => match g with Sent _ _ | Settled _ | Tainted => True | _ => False end
  | _ => True
  end.

Notation custodial := (obeys attempt_ok custody_next).

(** A stretch of calls that, when it returns, leaves custody where it was; when
    it throws, custody is where it was or tainted, and tainted if what it throws
    is a hub error. *)
Definition still (g0 g : custody) : Prop := g = g0 \/ g = Tainted.

Definition quiet {A} (g g' : custody) (x : A + rejection) : Prop :=
  match x with
  | inl _ => g' = g
  | inr e => still g g' /\ (is_wire e = true -> g' = Tainted)
  end.

Lemma quiet_taint {A} g (x : A + rejection) : quiet g (taint g x) x.
Proof.
  destruct x as [a|e]; simpl; [done|]. unfold still. destruct (is_wire e); naive_solver.
Qed.

Lemma quiet_still {A} g g' (x : A + rejection) : quiet g g' x -> still g g'.
Proof. destruct x; simpl; [by left|by intros [? _]]. Qed.

(** A quiet stretch, then the rest from the same custody. *)
Lemma quiet_then {A B} g (p : async A) (k : A -> async B) Q :
  custodial g p (quiet g) ->
  (forall a, custodial g (k a) Q) ->
  (forall g' e, quiet (A:=A) g g' (inr e) -> Q g' (inr e)) ->
  custodial g (andThen p k) Q.
Proof.
  intros Hp Hk HQ. apply obeys_andThen. eapply obeys_mono; [done|].
  intros g' [a|e] Hq; [simpl in Hq; subst; apply Hk|by apply HQ].
Qed.

Lemma quiet_seq {A B} g (p : async A) (k : A -> async B) :
  custodial g p (quiet g) -> (forall a, custodial g (k a) (quiet g)) ->
  custodial g (andThen p k) (quiet g).
Proof. intros. by apply quiet_then. Qed.

Lemma custodial_return {A} g (a : A) : custodial g (Return a) (quiet g).
Proof. done. Qed.

Lemma custodial_notify g n : custodial g (await (Notify n)) (quiet g).
Proof. apply obeys_call; [done|]. intros x. apply quiet_taint. Qed.

#[local] Hint Resolve quiet_seq custodial_return custodial_notify : custody.

Definition may_settle_applied (g : custody) : Prop :=
  g = Tainted \/ exists r result, g = Sent r (inl result) /\ method r = "turn/drainAsSteer".

Lemma may_settle_still g g' : may_settle_applied g -> still g g' -> may_settle_applied g'.
Proof. intros H [->| ->]; [done|by left]. Qed.

Lemma custodial_reconcileIdentity g id :
  may_settle_applied g -> custodial g (reconcileIdentity id) (quiet g).
Proof.
  intros Hg. apply quiet_seq.
  - apply obeys_call; [by split; [apply Hg|]|]. intros x. apply quiet_taint.
  - intros [r|]; [|done]. apply quiet_seq; [case_match; auto with custody|done].
Qed.

Lemma custodial_promise_all g ids :
  may_settle_applied g -> custodial g (promise_all (map reconcileIdentity ids)) (quiet g).
Proof.
  revert g. induction ids as [|id ids IH]; intros g Hg; cbn [map promise_all]; [done|].
  apply obeys_andThen, obeys_settled. eapply obeys_mono; [by apply custodial_reconcileIdentity|].
  intros g' [a|e] Hx.
  - simpl in Hx. subst. apply quiet_seq; [by apply IH|done].
  - destruct Hx as [Hs Hw]. apply obeys_andThen, obeys_settled.
    eapply obeys_mono; [apply IH; by eapply may_settle_still|]. intros g'' y Hy%quiet_still; cbn.
    unfold still in *. destruct (is_wire e); naive_solver.
Qed.

Lemma custodial_reconcileIdentities g ids :
  may_settle_applied g -> custodial g (reconcileIdentities ids) (quiet g).
Proof.
  intros Hg. apply quiet_seq; [by apply custodial_promise_all|].
  intros refs. case_match; auto with custody.
Qed.

(** How [#attempt]'s try block can leave: by advancing with the record settled;
    by stopping; by a throw, when the request itself failed, or no hub error
    escaped, or custody is tainted. *)
Definition send_outcome (r : MutationRecord) (g : custody) (x : attempt_result + rejection) : Prop :=
  match x with
  | inl advance => g = Settled r
  | inl stop => True
  | inr e => g = Sent r (inr e) \/ is_wire e = false \/ g = Tainted
  end.

(** A quiet stretch inside the try block, then the rest of it. *)
Lemma custodial_quiet_then {A} r g (p : async A) (k : A -> async attempt_result) :
  custodial g p (quiet g) -> (forall a, custodial g (k a) (send_outcome r)) ->
  custodial g (andThen p k) (send_outcome r).
Proof.
  intros Hp Hk. apply quiet_then; [done|done|]. intros g' e [_ Hw]. simpl.
  destruct (is_wire e); naive_solver.
Qed.

Lemma mutationMethod_cases m (B : Type) (k : string -> async B) :
  andThen (mutationMethod m) k =
    if str_in m RETRY_SAFE_MUTATION_METHODS then k m
    else Raise (PlainError ("Unknown mutation method: " ++ m)).
Proof. unfold mutationMethod. by case_match. Qed.

(** The settling call of an attempt: on success the record is settled. *)
Lemma custodial_settling {X} r answer (c : event X) (k : X -> async attempt_result) Q :
  attempt_ok (Sent r answer) X c ->
  (forall x, custody_next (Sent r answer) X c x =
     match x with inl _ => Settled r | inr _ => taint (Sent r answer) x end) ->
  (forall a, custodial (Settled r) (k a) Q) ->
  (forall g e, quiet (A:=X) (Sent r answer) g (inr e) -> Q g (inr e)) ->
  custodial (Sent r answer) (andThen (await c) k) Q.
Proof.
  intros Hok Hn Hk HQ. apply obeys_andThen, obeys_call; [done|]. intros [a|e]; rewrite Hn; [done|].
  apply HQ. apply (quiet_taint _ (inr e)).
Qed.

Lemma custodial_attempt_send c c' r :
  state r = submitting -> client_handle c = client_handle c' ->
  custodial (Ready r c') (attempt_send c r) (send_outcome r).
Proof.
  intros Hst Hc. unfold attempt_send. rewrite mutationMethod_cases.
  destruct (str_in _ _) eqn:Hm; [apply str_in_spec in Hm|by right; left].
  apply custodial_quiet_then; [case_match; auto with custody|intros _].
  split; [by split; [exists r, c'|]|]. intros [result|e]; [|by left]. cbn [andThen custody_next].
  destruct (mutationReceipt result) as [receipt|] eqn:Hr; [|done].
  destruct (negb _ || _) eqn:Hid; [done|].
  apply orb_false_iff in Hid as [Hid%negb_false_iff%String.eqb_eq Hdisp].
  apply custodial_quiet_then.
  { case_match; [case_match; eauto with custody|done]. }
  intros [|]; [|done]. apply custodial_quiet_then.
  { repeat case_match; eauto with custody; done. }
  intros [|]; [|done]. apply custodial_quiet_then.
  { destruct (String.eqb_spec (method r) "turn/drainAsSteer"); [|done].
    case_match; [done|]. apply custodial_reconcileIdentities. right. eauto. }
  intros _. apply custodial_settling; [|done| |].
  - split; [|done]. exists r, result, receipt. split_and!; try done.
    apply andb_false_iff in Hdisp as [H%negb_false_iff%String.eqb_eq|H%negb_false_iff%String.eqb_eq]; auto.
  - intros _. apply custodial_quiet_then; [auto with custody|done].
  - intros g e' [_ Hw]. simpl. destruct (is_wire e'); naive_solver.
Qed.

(** ** The catch block *)

Definition refusable (r : MutationRecord) (g : custody) (e : rejection) : Prop :=
  g = Tainted \/ g = Sent r (inr e).

Lemma data_none e : is_wire e = false -> mutationErrorData e = None.
Proof. by destruct e. Qed.

Lemma not_before_running e : is_wire e = false -> refusedBeforeRunning e = false.
Proof. by destruct e. Qed.

(** How the catch block can leave. *)
Definition refused_outcome (r : MutationRecord) (g : custody) (x : attempt_result + rejection) : Prop :=
  x = inl advance -> g = Settled r \/ g = Tainted.

Lemma custodial_call_then {X B} g (c : event X) (k : X -> async B) Q :
  attempt_ok g X c -> (forall x, custody_next g X c x = taint g x) ->
  (forall a, custodial g (k a) Q) -> (forall g' e, Q g' (inr e)) ->
  custodial g (andThen (await c) k) Q.
Proof.
  intros Hok Hn Hk HQ. apply quiet_then; [|done|auto].
  apply obeys_call; [done|]. intros x. rewrite Hn. apply quiet_taint.
Qed.

Section refused.
Context (c : Client) (r : MutationRecord) (g : custody) (e : rejection).
Context (Href : refusable r g e).

Lemma custodial_notify_return n (a : attempt_result) g' :
  (a = advance -> g' = Settled r \/ g' = Tainted) ->
  custodial g' (await (Notify n) ⨾ Return a) (refused_outcome r).
Proof.
  intros Ha. apply custodial_call_then; [done|done| |done]. intros _ Hx. injection Hx as Hx. auto.
Qed.

Lemma custodial_transfer kind reason u n :
  own_refusal r e ->
  custodial g (await (TransferToRecovery (clientMutationId r) kind reason u) ⨾
               await (Notify n) ⨾ Return advance) (refused_outcome r).
Proof.
  intros Hown. destruct Href as [->| ->].
  - apply custodial_call_then; [by split; [left|]|done| |done].
    intros _. apply custodial_notify_return. auto.
  - apply custodial_settling; [split; [right; eauto|done]|by intros []| |done].
    intros _. apply custodial_notify_return. auto.
Qed.

Lemma custodial_attempt_refused_wire :
  is_wire e = true -> custodial g (attempt_refused c r e) (refused_outcome r).
Proof.
  intros Hw. unfold attempt_refused.
  assert (Hget : forall x : option MutationRecord + rejection,
    custody_next g _ (GetOutbox (clientMutationId r)) x = taint g x) by (by destruct Href as [->| ->]).
  destruct (data_names _ _) eqn:Hn; cbn [negb]; cycle 1.
  { destruct (data_names_none _) eqn:Hnn; [|done]. destruct (refusedBeforeRunning e) eqn:Hb; [|done].
    apply custodial_transfer. by right. }
  destruct (has_outcome notAccepted _) eqn:Hna; [destruct (has_disposition automatic _) eqn:Hau|]; cbn [andb].
  - assert (Hok : attempt_ok g _ (GetOutbox (clientMutationId r))) by (by destruct Href as [->| ->]).
    apply (custodial_call_then g (GetOutbox (clientMutationId r))); [done|done| |done]. intros before.
    apply custodial_call_then; [|done| |done].
    { split; [|done]. destruct Href as [->| ->]; [by left|right; eauto 10]. }
    intros b. apply quiet_then; [destruct b; auto with custody|intros _|done].
    apply quiet_then; [|intros u; by apply custodial_notify_return|done].
    destruct b; [done|]. apply quiet_seq; [|done].
    apply obeys_call; [exact Hok|]. intros x. rewrite Hget. apply quiet_taint.
  - apply custodial_transfer. by left.
  - destruct (has_outcome targetDeleted _) eqn:Htd; [apply custodial_transfer; by left|].
    destruct (has_outcome unknown _) eqn:Hun; [|done]. destruct (_ || _); [|done]. cbn [andb].
    apply quiet_then; [|done|done]. apply obeys_try_finally.
    eapply obeys_mono; [apply quiet_seq; [|intros _; apply custodial_notify]|].
    { apply obeys_call; [|intros x; apply quiet_taint]. split; [|done].
      destruct Href as [->| ->]; [by left|right; eauto 10]. }
    intros g' x Hx. apply obeys_call; [done|]. intros [[]|e'].
    + destruct x; simpl in *; [|done]. done.
    + simpl. apply quiet_still in Hx. unfold still in *. destruct (is_wire e'); naive_solver.
Qed.
End refused.

Lemma custodial_attempt_refused c r g e :
  send_outcome r g (inr e) -> custodial g (attempt_refused c r e) (refused_outcome r).
Proof.
  intros Hg. destruct (is_wire e) eqn:Hw.
  - apply custodial_attempt_refused_wire; [|done]. unfold refusable.
    destruct Hg as [->|[H| ->]]; [by right|congruence|by left].
  - unfold attempt_refused. by rewrite (data_none e Hw), (not_before_running e Hw).
Qed.

Lemma custodial_attempt c c' r :
  state r = submitting -> client_handle c = client_handle c' ->
  custodial (Ready r c') (attempt c r) (refused_outcome r).
Proof.
  intros. apply obeys_try_catch. eapply obeys_mono; [by apply custodial_attempt_send|].
  intros g [[]|e] Hx; [|done|by apply custodial_attempt_refused]. intros _. by left.
Qed.

Lemma custodial_drain_once g ref :
  (forall r c, g <> Ready r c) -> (forall r a, g <> Sent r a) ->
  obeys custody_ok custody_next g (drain_once ref)
    (fun g' x => x = inl None -> (forall r c, g' <> Ready r c) /\ (forall r a, g' <> Sent r a)).
Proof.
  intros Hg1 Hg2. unfold drain_once. cbn [andThen obeys call]. split; [done|].
  intros [[c|]|e]; cbn [andThen obeys call]; [|done|done].
  destruct (isClientReady (Some c)); cbn [negb andThen obeys call]; [|done].
  assert (Hg : forall (x : option Client), custody_next g _ (GetClient ref None) (inl x) = g).
  { intros [x|]; by destruct g. }
  rewrite Hg. split; [destruct g; naive_solver|]. intros [[l|]|e]; simpl; [|done|done].
  split; [done|]. intros [[r|]|e]; simpl; [|done|done].
  destruct (state_eqb (state r) submitting) eqn:Hst; simpl; [|done].
  split; [done|]. intros [again|e]; simpl; [|done]. destruct (same_client again c); simpl; [|done].
  split; [done|]. intros [[|]|e]; simpl; [|done|done].
  rewrite String.eqb_refl. split; [done|]. intros [[c'|]|e]; simpl; [|done|done].
  destruct (Nat.eqb_spec (client_handle c') (client_handle c)) as [Hc|]; simpl; [|done].
  rewrite bool_decide_true by done. apply obeys_andThen.
  eapply obeys_mono; [eapply obeys_ok_mono; [|apply custodial_attempt; [by apply bool_decide_eq_true in Hst|done]]|].
  { by intros ??? [? _]. }
  intros g' [[]|e] Hx; try done. intros _. destruct (Hx eq_refl) as [->| ->]; done.
Qed.

Lemma custodial_drain fuel g ref :
  (forall r c, g <> Ready r c) -> (forall r a, g <> Sent r a) ->
  obeys custody_ok custody_next g (drainTarget fuel ref) (fun _ _ => True).
Proof.
  revert g. induction fuel as [|n IH]; intros g Hg1 Hg2; cbn [drainTarget]; [done|].
  apply obeys_andThen. eapply obeys_mono; [by apply custodial_drain_once|].
  intros g' [[b|]|e] Hx; [done| |done]. destruct (Hx eq_refl). by apply IH.
Qed.

Local Open Scope list_scope.

(** ** Properties *)


(** One drain of a target at a time: over any history, the passes started are those
    ended and at most one more, the one in flight. *)
Theorem one_pass_at_a_time h :
  legal h -> (ended h <= (run_history h).2 <= S (ended h))%nat.
Proof. intros Hl. rewrite (runs_balance h Hl). destruct (observedRun _); lia. Qed.

Lemma one_pass_at_a_time_witness :
  legal [Dispatch; Ended (PassReturned true); Dispatch; Dispatch] /\
  (ended [Dispatch; Ended (PassReturned true); Dispatch; Dispatch] <=
    (run_history [Dispatch; Ended (PassReturned true); Dispatch; Dispatch]).2 <=
    S (ended [Dispatch; Ended (PassReturned true); Dispatch; Dispatch]))%nat.
Proof.
  assert (H : legal [Dispatch; Ended (PassReturned true); Dispatch; Dispatch]).
  { simpl. split; [by exists 1%nat|done]. }
  split; [exact H|exact (one_pass_at_a_time _ H)].
Defined.

(** Either an event of a stretch starts a pass, or none does. *)
Lemma starts_search newer base :
  (exists a e b, newer = a ++ e :: b /\ starts e (b ++ base) = true) \/
  (forall a e b, newer = a ++ e :: b -> starts e (b ++ base) = false).
Proof.
  induction newer as [|e newer IH]; [right; by intros [] ? ?|].
  destruct (starts e (newer ++ base)) eqn:He; [left; by exists [], e, newer|].
  destruct IH as [(a & e' & b & -> & H)|H]; [left; by exists (e :: a), e', b|right].
  intros [|e0 a] e' b; simpl; intros E; simplify_eq; [done|by apply (H a)].
Qed.

(** C39: No wake is lost: once a target is at rest again, every dispatch asked of it was
    answered by a pass that started at or after it - unless a pass since then stopped
    or threw, and so owns the retry. *)
Theorem no_lost_wake newer older :
  legal (newer ++ Dispatch :: older) ->
  Forall (fun e => is_stop e = false) newer ->
  observedRun (run_history (newer ++ Dispatch :: older)).1 = None ->
  starts Dispatch older = true \/
  exists a e b, newer = a ++ e :: b /\ starts e (b ++ Dispatch :: older) = true.
Proof.
  intros Hl Hs Hrest. destruct (starts Dispatch older) eqn:Hd; [by left|right].
  destruct (starts_search newer (Dispatch :: older)) as [H|H]; [done|].
  destruct (dispatch_pending newer older Hl Hd Hs H) as (o & Ho & _). congruence.
Qed.

Lemma no_lost_wake_witness :
  let newer := [Ended (PassReturned true); Ended (PassReturned true)] in
  starts Dispatch [Dispatch] = true \/
  exists a e b, newer = a ++ e :: b /\ starts e (b ++ Dispatch :: [Dispatch]) = true.
Proof.
  apply (no_lost_wake [Ended (PassReturned true); Ended (PassReturned true)] [Dispatch]).
  - simpl. split; [by eexists|]. split; [by eexists|done].
  - by repeat constructor.
  - reflexivity.
Defined.

(** *** An error that is not the request's *)

(** A world in which the hub applies a thread/clear and the client's own
    ClearResponse callback then rejects with an error of the wire - a read it made
    itself, refused for its params. It keeps the ids it is told to settle and those
    it is told to move to the drafts. *)
Record CallbackWorld := mkCallbackWorld { settled_ids : list string; moved_ids : list string }.

Definition cleared_result : json :=
  JObj [("ref", JStr "A");
        ("thread", JObj [("id", JStr "t"); ("evener", JObj [("ref", JStr "A")])]);
        ("receipt", JObj [("clientMutationId", JStr "m-1"); ("disposition", JStr "applied");
           ("threadId", JStr "t"); ("projectionState", JStr "settled")])].

Definition callback_handle (X : Type) (c : event X) (w : CallbackWorld) : CallbackWorld * (X + rejection) :=
  match c in event Y return CallbackWorld * (Y + rejection) with
  | GetClient _ _ => (w, inl None)
  | NextDispatchable _ => (w, inl None)
  | GetOutbox _ => (w, inl None)
  | MarkAttempted _ => (w, inl true)
  | UnmarkAttempted _ => (w, inl true)
  | MarkUnknown _ => (w, inl true)
  | SettleReceipt id _ => (mkCallbackWorld (id :: settled_ids w) (moved_ids w), inl true)
  | SettleApplied _ => (w, inl None)
  | TransferToRecovery id _ _ _ => (mkCallbackWorld (settled_ids w) (id :: moved_ids w), inl None)
  | RestoreProvenAbsent _ _ => (w, inl [])
  | Request _ _ _ => (w, inl (Some cleared_result))
  | Notify (ClearResponse _ _) => (w, inr (WireError "bad params" CODE_INVALID_PARAMS None))
  | Notify _ => (w, inl tt)
  end.

Definition clear_record : MutationRecord :=
  mkRecord (mkIntent "A" (Some "t") None "thread/clear"
      [("ref", JStr "A"); ("clientMutationId", JStr "m-1")] [] None None None None None None)
    1 "m-1" None 1 1700 submitting (Some true) None None None (Some 0%Z) None None None None None.

(** An error the request did not raise can undo its outcome: the attempt's catch
    judges whatever the try block throws, the client's own callbacks included, so a
    record the hub has applied is moved to the drafts as rejected, never settled, when
    the callback told of it rejects with an invalid-params error. *)
Theorem callback_error_rejects_applied_record :
  let '(w, x) := interp callback_handle (attempt (mkClient 1 "ready") clear_record) (mkCallbackWorld [] []) in
  x = inl advance /\ settled_ids w = [] /\ moved_ids w = ["m-1"].
Proof. vm_compute. auto. Qed.
