(* ===== verification/StoragePort.v ===== *)
(** The storage port (outbox.ts, MutationOutboxStorage) as an interface, and what
    the dispatcher achieves over any storage that keeps it.

    [MutationOutboxStorage] is the port's dispatcher half; [FifoStorage] is what
    the dispatcher relies on: a queue per target, whose head is what
    [nextDispatchable] offers; a mark leaves it alone or takes the marked row out of
    it, and every other call of an attempt only shrinks it. *)

From S2P Require Import Prelude JsString Json Sql Wire Records Effects Dispatcher DispatcherFacts.

Class MutationOutboxStorage (S : Type) := {
  port_nextDispatchable : string -> S -> S * (option MutationRecord + rejection);
  port_getOutbox : string -> S -> S * (option MutationRecord + rejection);
  port_markAttempted : string -> S -> S * (bool + rejection);
  port_unmarkAttempted : string -> S -> S * (bool + rejection);
  port_markUnknown : string -> S -> S * (bool + rejection);
  port_settleReceipt : string -> string -> S -> S * (bool + rejection);
  port_settleApplied : string -> S -> S * (option MutationRecord + rejection);
  port_transferToRecovery : string -> MutationRecoveryKind -> option string -> option bool ->
    S -> S * (option MutationRecord + rejection);
  port_restoreProvenAbsent : string -> list string -> S -> S * (list MutationRecord + rejection)
}.

(** A storage failure surfaces as an Error with the storage's message. *)
Definition as_rejection (e : js_error) : rejection := PlainError (message e).

(** A row in play, by its id and the payload it will send. *)
Notation queued := (string * json_object)%type.

(** The state after a call, its target's queue being no longer than before. *)
Definition shrinks {S} (inv : S -> Prop) (queue : string -> S -> list queued) (s s' : S) : Prop :=
  inv s' /\ forall ref, queue ref s' `sublist_of` queue ref s.

Class FifoStorage (S : Type) `{MutationOutboxStorage S} := {
  st_inv : S -> Prop;
  st_queue : string -> S -> list queued;
  st_nodup ref s : st_inv s -> NoDup (st_queue ref s).*1;
  st_next ref s : st_inv s -> exists o, port_nextDispatchable ref s = (s, inl o) /\
    forall r, o = Some r -> state r = submitting /\
      (exists q, st_queue ref s = (clientMutationId r, payload r) :: q) /\
      port_getOutbox (clientMutationId r) s = (s, inl (Some r));
  st_mark id s r : st_inv s -> port_getOutbox id s = (s, inl (Some r)) -> state r = submitting ->
    exists s' b, port_markAttempted id s = (s', inl b) /\ st_inv s' /\
      if b : bool then forall ref, st_queue ref s' = st_queue ref s
      else forall ref, st_queue ref s' `sublist_of` st_queue ref s /\ id ∉ (st_queue ref s').*1;
  st_get id s : st_inv s -> (port_getOutbox id s).1 = s;
  st_unmark id s : st_inv s -> shrinks st_inv st_queue s (port_unmarkAttempted id s).1;
  st_unknown id s : st_inv s -> shrinks st_inv st_queue s (port_markUnknown id s).1;
  st_receipt id p s : st_inv s -> shrinks st_inv st_queue s (port_settleReceipt id p s).1;
  st_receipt_gone id p s ref b : st_inv s -> (port_settleReceipt id p s).2 = inl b ->
    id ∉ (st_queue ref (port_settleReceipt id p s).1).*1;
  st_applied id s : st_inv s -> shrinks st_inv st_queue s (port_settleApplied id s).1;
  st_transfer id k m u s : st_inv s -> shrinks st_inv st_queue s (port_transferToRecovery id k m u s).1;
  st_transfer_gone id k m u s ref b : st_inv s -> (port_transferToRecovery id k m u s).2 = inl b ->
    id ∉ (st_queue ref (port_transferToRecovery id k m u s).1).*1;
  (** A storage failure is never the hub's error. *)
  st_no_wire : forall s e, is_wire e = true ->
    (forall id, (port_getOutbox id s).2 <> inr e) /\
    (forall id, (port_unmarkAttempted id s).2 <> inr e) /\
    (forall id, (port_markUnknown id s).2 <> inr e) /\
    (forall id p, (port_settleReceipt id p s).2 <> inr e) /\
    (forall id, (port_settleApplied id s).2 <> inr e) /\
    (forall id k m u, (port_transferToRecovery id k m u s).2 <> inr e)
}.

(** ** A world: one storage, one ready client, one hub *)

Section world.
Context {S : Type} `{FifoStorage S}.
(** The hub's answer to a request, given every payload sent before it. *)
Context (hub : list json_object -> string -> json_object -> option json + rejection).
Context (client : Client) (Hready : isClientReady (Some client) = true).

Record world := mkWorld { store : S; sent : list json_object }.

Definition stored {X} (w : world) (r : S * (X + rejection)) : world * (X + rejection) :=
  (mkWorld r.1 (sent w), r.2).

Definition handle (X : Type) (c : event X) (w : world) : world * (X + rejection) :=
  match c in event Y return world * (Y + rejection) with
  | GetClient _ _ => (w, inl (Some client))
  | NextDispatchable ref => stored w (port_nextDispatchable ref (store w))
  | GetOutbox id => stored w (port_getOutbox id (store w))
  | MarkAttempted id => stored w (port_markAttempted id (store w))
  | UnmarkAttempted id => stored w (port_unmarkAttempted id (store w))
  | MarkUnknown id => stored w (port_markUnknown id (store w))
  | SettleReceipt id p => stored w (port_settleReceipt id p (store w))
  | SettleApplied id => stored w (port_settleApplied id (store w))
  | TransferToRecovery id k m u => stored w (port_transferToRecovery id k m u (store w))
  | RestoreProvenAbsent ref ids => stored w (port_restoreProvenAbsent ref ids (store w))
  | Request _ m p => (mkWorld (store w) (sent w ++ [p]), hub (sent w) m p)
  | Notify _ => (w, inl tt)
  end.

(** *** One attempt *)

Section attempt.
Context (ref : string) (r : MutationRecord) (w0 : world).

(** The custody monitor beside the world. *)
Definition coupled (g : custody) (w : world) : Prop :=
  st_inv (store w) /\ st_queue ref (store w) `sublist_of` st_queue ref (store w0) /\
  match g with
  | Ready r' _ => r' = r /\ sent w = sent w0
  | Sent r' _ => r' = r /\ sent w = sent w0 ++ [payload r]
  | Settled r' => r' = r /\ sent w = sent w0 ++ [payload r] /\
      clientMutationId r ∉ (st_queue ref (store w)).*1
  | _ => False
  end.

Lemma coupled_shrinks g w s' :
  coupled g w -> shrinks st_inv st_queue (store w) s' -> coupled g (mkWorld s' (sent w)).
Proof.
  intros (Hi & Hq & Hg) [Hi' Hs]. split; [done|]. split; [etrans; [apply Hs|done]|].
  destruct g; try exact Hg. destruct Hg as (? & ? & Hn). split; [done|]. split; [done|].
  intros Hin. apply Hn. eapply elem_of_submseteq; [done|].
  apply sublist_submseteq. by apply (fmap_sublist fst).
Qed.

Lemma coupled_taint {X} g w (x : X + rejection) :
  (forall e, x = inr e -> is_wire e = false) -> coupled g w -> coupled (taint g x) w.
Proof. intros Hx Hc. destruct x as [|e]; [done|]. simpl. by rewrite (Hx e eq_refl). Qed.

Lemma coupled_call {X} g w (x : X + rejection) s' :
  coupled g w -> shrinks st_inv st_queue (store w) s' ->
  (forall e, is_wire e = true -> x <> inr e) ->
  coupled (taint g x) (mkWorld s' (sent w)).
Proof.
  intros Hc Hs Hx. apply coupled_taint; [|by apply coupled_shrinks].
  intros e ->. destruct (is_wire e) eqn:He; [|done]. by destruct (Hx e He).
Qed.

(** The record's own settlement. *)
Lemma coupled_settling {X} answer w (x : X + rejection) s' :
  coupled (Sent r answer) w -> shrinks st_inv st_queue (store w) s' ->
  (forall e, is_wire e = true -> x <> inr e) ->
  (forall a, x = inl a -> clientMutationId r ∉ (st_queue ref s').*1) ->
  coupled (match x with inl _ => Settled r | inr _ => taint (Sent r answer) x end)
    (mkWorld s' (sent w)).
Proof.
  intros Hc Hs Hx Hgone. destruct x as [a|e]; [|by apply coupled_call].
  destruct (coupled_shrinks _ _ _ Hc Hs) as (? & ? & ? & ?). split_and!; eauto.
Qed.

Lemma st_get_shrinks id s : st_inv s -> shrinks st_inv st_queue s (port_getOutbox id s).1.
Proof. intros Hi. by rewrite st_get. Qed.

Lemma coupled_step g w X (c : event X) :
  attempt_ok g X c -> coupled g w -> coupled (custody_next g X c (handle X c w).2) (handle X c w).1.
Proof.
  intros [Hok Hin] Hc. pose proof (proj1 Hc) as Hi.
  pose proof (fun e He => st_no_wire (store w) e He) as Hw.
  destruct c; simpl in Hin; try done; simpl handle; cbn [fst snd stored].
  - destruct g; try (by destruct Hin); try (by destruct Hc as (_ & _ & [])); apply coupled_call; try done;
      first [by apply st_get_shrinks | intros e He; by apply Hw].
  - simpl. apply coupled_call; [done|by apply st_unmark|intros e He; by apply Hw].
  - simpl. apply coupled_call; [done|by apply st_unknown|intros e He; by apply Hw].
  - destruct Hok as (r' & result & receipt & -> & -> & _).
    pose proof (proj1 (proj2 (proj2 Hc))) as ->. simpl custody_next.
    apply coupled_settling; [done|by apply st_receipt|intros e He; by apply Hw|].
    intros b Hb. by eapply st_receipt_gone.
  - simpl. apply coupled_call; [done|by apply st_applied|intros e He; by apply Hw].
  - destruct Hok as [->|(r' & e & -> & -> & _)]; [by destruct Hc as (_ & _ & [])|].
    pose proof (proj1 (proj2 (proj2 Hc))) as ->. simpl custody_next.
    apply coupled_settling; [done|by apply st_transfer|intros e' He; by apply Hw|].
    intros b Hb. by eapply st_transfer_gone.
  - destruct Hok as (r' & c' & -> & _ & _ & _ & _ & ->).
    destruct Hc as (? & ? & -> & Hs). simpl. split_and!; try done. simpl. by rewrite Hs.
Qed.

Lemma attempt_in_world :
  st_inv (store w0) -> state r = submitting ->
  let '(w, x) := interp handle (attempt client r) w0 in
  st_inv (store w) /\ st_queue ref (store w) `sublist_of` st_queue ref (store w0) /\
  (sent w = sent w0 \/ sent w = sent w0 ++ [payload r]) /\
  (x = inl advance -> sent w = sent w0 ++ [payload r] /\
     clientMutationId r ∉ (st_queue ref (store w)).*1).
Proof.
  intros Hi Hst.
  destruct (obeys_interp attempt_ok custody_next handle coupled (Ready r client) w0
    (attempt client r) (refused_outcome r)) as (g & Hc & Hx).
  - intros. by apply coupled_step.
  - by apply custodial_attempt.
  - by split_and!.
  - destruct (interp handle (attempt client r) w0) as [w x]. simpl in *.
    destruct Hc as (? & ? & Hg). split_and!; [done|done| |].
    + destruct g; naive_solver.
    + intros Ha. destruct (Hx Ha) as [->| ->]; naive_solver.
Qed.
End attempt.

(** *** The drain *)

(** What a drain leaves: everything it sent was in the queue, in the queue's
    order and at most once, and when it may rerun the storage offers nothing. *)
Definition drained (ref : string) (w w' : world) (x : option bool + rejection) : Prop :=
  st_inv (store w') /\ x <> inl None /\
  (exists l, sent w' = sent w ++ l /\ l `sublist_of` (st_queue ref (store w)).*2) /\
  (x = inl (Some true) -> (port_nextDispatchable ref (store w')).2 = inl None).

Lemma drain_once_in_world ref w :
  st_inv (store w) ->
  let '(w', x) := interp handle (drain_once ref) w in
  st_inv (store w') /\
  ((x <> inl None /\ sent w' = sent w /\
      (x = inl (Some true) -> (port_nextDispatchable ref (store w')).2 = inl None)) \/
   exists i p q, st_queue ref (store w) = (i, p) :: q /\
     st_queue ref (store w') `sublist_of` (i, p) :: q /\
     (x <> inl None /\ x <> inl (Some true) /\ (sent w' = sent w \/ sent w' = sent w ++ [p]) \/
      x = inl None /\ (sent w' = sent w \/ sent w' = sent w ++ [p]) /\ i ∉ (st_queue ref (store w')).*1)).
Proof.
  intros Hi. unfold drain_once. rewrite interp_andThen, interp_call. cbn [handle].
  rewrite Hready. cbn [negb]. rewrite interp_andThen, interp_call. cbn [handle].
  destruct (st_next ref (store w) Hi) as (o & Hn & Ho). rewrite Hn. cbn [stored fst snd].
  destruct o as [r|]; [|simpl; rewrite Hn; auto].
  destruct (Ho r eq_refl) as (Hst & (q & Hq) & Hget). clear Ho.
  rewrite interp_andThen, interp_call. cbn [handle store]. rewrite Hget. cbn [stored fst snd].
  rewrite Hst. change (state_eqb submitting submitting) with true. cbn [negb].
  rewrite interp_andThen, interp_call. cbn [handle same_client].
  rewrite Nat.eqb_refl. cbn [negb]. rewrite interp_andThen, interp_call. cbn [handle store].
  destruct (st_mark _ _ r Hi Hget Hst) as (s1 & b & Hmark & Hi1 & Hq1). rewrite Hmark.
  cbn [stored fst snd]. destruct b.
  2:{ simpl. split; [done|]. right. destruct (Hq1 ref) as [Hsub Hgone].
      exists (clientMutationId r), (payload r), q. rewrite <- Hq. split_and!; [done|done|]. right.
      by split_and!; [|left|]. }
  cbn [negb]. rewrite interp_andThen, interp_call. cbn [handle same_client].
  rewrite Nat.eqb_refl. cbn [negb sent]. rewrite interp_andThen.
  pose proof (attempt_in_world ref r (mkWorld s1 (sent w)) Hi1 Hst) as Ha.
  destruct (interp handle (attempt client r) _) as [w2 x2].
  destruct Ha as (Hi2 & Hq2 & Hs2 & Hadv). cbn [store sent] in *. rewrite Hq1, Hq in Hq2.
  destruct x2 as [[]|e]; simpl; split; try done; right;
    exists (clientMutationId r), (payload r), q; split_and!; try done; naive_solver.
Qed.

Lemma sublist_tail {i : string} {p : json_object} {l q} :
  l `sublist_of` (i, p) :: q -> i ∉ l.*1 -> l `sublist_of` q.
Proof.
  intros Hs Hi. inversion Hs as [|? l' k Hs'|? l' k Hs']; subst; [|done].
  exfalso. apply Hi. simpl. by left.
Qed.

Lemma drain_in_world fuel ref w :
  st_inv (store w) -> (length (st_queue ref (store w)) < fuel)%nat ->
  let '(w', x) := interp handle (drainTarget fuel ref) w in drained ref w w' x.
Proof.
  revert w. induction fuel as [|n IH]; intros w Hi Hlen; [lia|].
  cbn [drainTarget]. rewrite interp_andThen. pose proof (drain_once_in_world ref w Hi) as Hd.
  destruct (interp handle (drain_once ref) w) as [w1 x1].
  destruct Hd as (Hi1 & [(Hx & Hs & Hnext)|(i & p & q & Hq & Hq1 & Hx)]).
  { destruct x1 as [[b|]|e]; [|done|]; simpl; split_and!; try done; exists [];
      rewrite app_nil_r; (split; [done|apply sublist_nil_l]). }
  destruct Hx as [(Hx & Hx' & Hs)|(-> & Hs & Hgone)].
  - assert (Hl : exists l, sent w1 = sent w ++ l /\ l `sublist_of` (st_queue ref (store w)).*2).
    { rewrite Hq. simpl. destruct Hs as [-> | ->]; [exists []|exists [p]]; rewrite ?app_nil_r; split; try done.
      - apply sublist_nil_l.
      - apply sublist_skip, sublist_nil_l. }
    destruct x1 as [[b|]|e]; [|done|]; simpl; split_and!; done.
  - pose proof (sublist_tail Hq1 Hgone) as Hq1'.
    specialize (IH w1 Hi1). destruct (interp handle (drainTarget n ref) w1) as [w' x].
    destruct IH as (Hi' & Hx & (l & Hl & Hsub) & Hn).
    { rewrite Hq in Hlen. simpl in Hlen. apply sublist_length in Hq1'. lia. }
    assert (Hrest : l `sublist_of` q.*2) by (etrans; [done|by apply (fmap_sublist snd)]).
    split_and!; [done|done| |done]. rewrite Hq. simpl. destruct Hs as [Hs|Hs]; rewrite Hs in Hl.
    + exists l. split; [done|by apply sublist_cons].
    + exists (p :: l). split; [by rewrite Hl, <- app_assoc|by apply sublist_skip].
Qed.
End world.

(** A hub that applies whatever it is asked. *)
Definition demo_hub (before : list json_object) (m : string) (p : json_object) : option json + rejection :=
  inl (Some (JObj [("receipt", JObj [("clientMutationId", default JNull (obj_get "clientMutationId" p));
    ("disposition", JStr "applied"); ("threadId", JStr "thread-1"); ("projectionState", JStr "settled")])])).
