(* ===== verification/HostPorts.v ===== *)
(** Small host-facing pieces of the shared client: id generation
    (secureUUID.ts), the framework-free store (frameworkFreeStore.ts), the
    identities a frame settles (settledIdentities.ts) and the projection work
    tracker (projectionWork.ts). *)

From S2P Require Import Prelude JsString Json Wire Effects Dispatcher.
From stdpp Require Import pretty.

Local Open Scope string_scope.
Local Open Scope list_scope.

(** ** secureUUID.ts *)

Module SecureUUID.

(** What a host's random source answers: each method absent, or called and
    throwing (or answering undefined), or called and answering. *)
Record SecureRandomSource := mkSource {
  randomUUID : option (option string);
  getRandomValues : option (option (list Z))
}.

Definition hex_digit (n : Z) : ascii :=
  Ascii.ascii_of_N (Z.to_N (if (n <? 10)%Z then 48 + n else 87 + n)).

(** [byte.toString(16).padStart(2, "0")] of a byte. *)
Definition hex (byte : Z) : string :=
  String (hex_digit (byte / 16)) (String (hex_digit (byte mod 16)) EmptyString).

(** [bytes[i] = f(bytes[i] ?? 0)], which extends nothing: a typed array drops a
    write past its end. *)
Definition set_byte (i : nat) (f : Z -> Z) (bytes : list Z) : list Z :=
  match bytes !! i with Some b => <[i := f b]> bytes | None => bytes end.

Definition stamp (bytes : list Z) : list Z :=
  set_byte 8 (fun b => Z.lor (Z.land b 0x3f) 0x80) (set_byte 6 (fun b => Z.lor (Z.land b 0x0f) 0x40) bytes).

(** [hex.slice(from, to).join("")]. *)
Definition hex_slice (from to : nat) (bytes : list Z) : string :=
  String.concat "" (map hex (take (to - from) (drop from bytes))).

Definition uuid_of_bytes (bytes : list Z) : string :=
  let b := stamp bytes in
  String.concat "-"
    [hex_slice 0 4 b; hex_slice 4 6 b; hex_slice 6 8 b; hex_slice 8 10 b; hex_slice 10 (length b) b].

(** [Math.random().toString(36).slice(2)] and [Date.now().toString(36)]. *)
Definition createSecureUUID (source : SecureRandomSource) (random now36 : string) : string :=
  match mjoin (randomUUID source) with
  | Some id => id
  | None =>
      match mjoin (getRandomValues source) with
      | Some bytes => uuid_of_bytes bytes
      | None => ("insecure-" ++ random ++ "-" ++ now36)%string
      end
  end.

Definition is_byte (b : Z) : Prop := (0 <= b < 256)%Z.

Definition is_hex (c : ascii) : bool :=
  let n := N_of_ascii c in ((48 <=? n) && (n <=? 57) || (97 <=? n) && (n <=? 102))%N.

(** RFC 4122 version 4: the five groups' hyphens, the version nibble 4 and the
    variant 8, 9, a or b, and hexadecimal digits everywhere else. *)
Definition uuid_v4_char (i : nat) (c : ascii) : bool :=
  if bool_decide (i ∈ [8; 13; 18; 23]) then Ascii.eqb c "-"
  else if (i =? 14)%nat then Ascii.eqb c "4"
  else if (i =? 19)%nat then existsb (Ascii.eqb c) ["8"; "9"; "a"; "b"]%char
  else is_hex c.

Fixpoint all_at (f : nat -> ascii -> bool) (i : nat) (s : string) : bool :=
  match s with
  | EmptyString => true
  | String c s' => f i c && all_at f (S i) s'
  end.

Definition is_uuid_v4 (s : string) : bool := (String.length s =? 36)%nat && all_at uuid_v4_char 0 s.

Lemma hex_digit_hex n : (0 <= n < 16)%Z -> is_hex (hex_digit n) = true.
Proof.
  intros Hn. assert (Hall : forallb (fun n => is_hex (hex_digit (Z.of_nat n))) (seq 0 16) = true)
    by reflexivity.
  rewrite forallb_forall in Hall. specialize (Hall (Z.to_nat n)).
  rewrite Z2Nat.id in Hall by lia. apply Hall, in_seq. lia.
Qed.

Lemma byte_nibbles b : is_byte b -> (0 <= b / 16 < 16)%Z /\ (0 <= b mod 16 < 16)%Z.
Proof.
  unfold is_byte. intros Hb. split; [|apply Z.mod_pos_bound; lia].
  split; [apply Z.div_pos; lia|apply Z.div_lt_upper_bound; lia].
Qed.

(** The stamped bytes: their high nibbles, for every byte they can start from. *)
Lemma stamp_version b :
  is_byte b -> let v := Z.lor (Z.land b 0x0f) 0x40 in is_byte v /\ (v / 16 = 4)%Z.
Proof.
  intros Hb. assert (Hall : forallb (fun n => let v := Z.lor (Z.land (Z.of_nat n) 0x0f) 0x40 in
    (0 <=? v)%Z && (v <? 256)%Z && (v / 16 =? 4)%Z) (seq 0 256) = true) by (vm_compute; reflexivity).
  rewrite forallb_forall in Hall. specialize (Hall (Z.to_nat b)). unfold is_byte in *.
  rewrite Z2Nat.id in Hall by lia. specialize (Hall ltac:(apply in_seq; lia)).
  cbv zeta in *. lia.
Qed.

Lemma stamp_variant b :
  is_byte b -> let v := Z.lor (Z.land b 0x3f) 0x80 in is_byte v /\ (8 <= v / 16 < 12)%Z.
Proof.
  intros Hb. assert (Hall : forallb (fun n => let v := Z.lor (Z.land (Z.of_nat n) 0x3f) 0x80 in
    (0 <=? v)%Z && (v <? 256)%Z && (8 <=? v / 16)%Z && (v / 16 <? 12)%Z) (seq 0 256) = true)
    by (vm_compute; reflexivity).
  rewrite forallb_forall in Hall. specialize (Hall (Z.to_nat b)). unfold is_byte in *.
  rewrite Z2Nat.id in Hall by lia. specialize (Hall ltac:(apply in_seq; lia)).
  cbv zeta in *. lia.
Qed.

Lemma variant_digit n : (8 <= n < 12)%Z -> existsb (Ascii.eqb (hex_digit n)) ["8"; "9"; "a"; "b"]%char = true.
Proof.
  intros Hn. assert (Hc : (n = 8 \/ n = 9 \/ n = 10 \/ n = 11)%Z) by lia.
  by destruct Hc as [->|[->|[->| ->]]].
Qed.

(** *** Sixteen bytes *)

Lemma hex_of_byte b : is_byte b -> is_hex (hex_digit (b / 16)) = true /\ is_hex (hex_digit (b mod 16)) = true.
Proof. intros [? ?]%byte_nibbles. by split; apply hex_digit_hex. Qed.

Lemma is_v4_of_bytes b0 b1 b2 b3 b4 b5 b6 b7 b8 b9 b10 b11 b12 b13 b14 b15 :
  Forall is_byte [b0; b1; b2; b3; b4; b5; b6; b7; b8; b9; b10; b11; b12; b13; b14; b15] ->
  (b6 / 16 = 4)%Z -> (8 <= b8 / 16 < 12)%Z ->
  is_uuid_v4 (String.concat "-"
    [String.concat "" (map hex [b0; b1; b2; b3]); String.concat "" (map hex [b4; b5]);
     String.concat "" (map hex [b6; b7]); String.concat "" (map hex [b8; b9]);
     String.concat "" (map hex [b10; b11; b12; b13; b14; b15])]) = true.
Proof.
  intros Hb H6 H8. rewrite !Forall_cons in Hb.
  repeat match goal with H : _ /\ _ |- _ => destruct H end.
  repeat match goal with H : is_byte ?b |- _ => apply hex_of_byte in H as [? ?] end.
  cbv -[hex_digit Z.div Z.modulo is_hex existsb Ascii.eqb]. rewrite H6.
  rewrite variant_digit by done.
  repeat match goal with H : is_hex _ = true |- _ => rewrite H; clear H end. reflexivity.
Qed.

(** A host with a random source but no UUID of its own still mints RFC 4122 version 4
    identities: whatever sixteen bytes the source answers, the id is 36 characters, its
    hyphens in place, its version nibble 4, its variant 8 to b, hexadecimal elsewhere. *)
Theorem createSecureUUID_v4 source random now36 bytes :
  mjoin (randomUUID source) = None -> mjoin (getRandomValues source) = Some bytes ->
  length bytes = 16%nat -> Forall is_byte bytes ->
  is_uuid_v4 (createSecureUUID source random now36) = true.
Proof.
  intros Hu Hr Hl Hb. unfold createSecureUUID. rewrite Hu, Hr.
  do 16 (destruct bytes as [|? bytes]; [done|]). destruct bytes; [|done].
  unfold uuid_of_bytes, stamp, set_byte. cbn -[hex hex_slice length Z.lor Z.land String.concat].
  unfold hex_slice. cbn [length drop take Nat.sub]. rewrite !Forall_cons in Hb. destruct_and?.
  match goal with |- context [Z.lor (Z.land ?x 15) 64] => destruct (stamp_version x ltac:(done)) as [? ?] end.
  match goal with |- context [Z.lor (Z.land ?x 63) 128] => destruct (stamp_variant x ltac:(done)) as [? ?] end.
  apply is_v4_of_bytes; [repeat (apply Forall_cons_2; [done|]); done|done|done].
Qed.

Lemma createSecureUUID_v4_witness :
  let bytes := [0; 17; 34; 51; 68; 85; 102; 119; 136; 153; 170; 187; 204; 221; 238; 255]%Z in
  createSecureUUID (mkSource None (Some (Some bytes))) "r" "n" = "00112233-4455-4677-8899-aabbccddeeff" /\
  is_uuid_v4 (createSecureUUID (mkSource None (Some (Some bytes))) "r" "n") = true.
Proof.
  split; [vm_compute; reflexivity|].
  apply (createSecureUUID_v4 (mkSource None (Some (Some [0; 17; 34; 51; 68; 85; 102; 119; 136; 153; 170; 187; 204; 221; 238; 255]%Z)))
    "r" "n" [0; 17; 34; 51; 68; 85; 102; 119; 136; 153; 170; 187; 204; 221; 238; 255]%Z
    eq_refl eq_refl eq_refl). repeat constructor; unfold is_byte; lia.
Defined.

End SecureUUID.

(** ** frameworkFreeStore.ts *)

Module FrameworkFreeStore.

Section store.
Context {S : Type} {P : Type} (merge : S -> P -> S).

(** A listener is told the new state and the one it replaced. [subscribe]
    hands out a token the unsubscribe function removes. *)
Record FrameworkFreeStore := mkFrameworkFreeStore {
  current_state : S;
  initial_state : S;
  listeners : list nat;
  next_listener : nat
}.

Definition createFrameworkFreeStore (init : S) : FrameworkFreeStore :=
  mkFrameworkFreeStore init init [] 0.

Definition getState (s : FrameworkFreeStore) : S := current_state s.
Definition getInitialState (s : FrameworkFreeStore) : S := initial_state s.

(** The notifications: one per listener, in subscription order. *)
Definition setState (partial : S -> P) (s : FrameworkFreeStore) :
    FrameworkFreeStore * list (nat * S * S) :=
  let previous := current_state s in
  let state := merge previous (partial previous) in
  (mkFrameworkFreeStore state (initial_state s) (listeners s) (next_listener s),
   map (fun l => (l, state, previous)) (listeners s)).

Definition subscribe (s : FrameworkFreeStore) : FrameworkFreeStore * nat :=
  (mkFrameworkFreeStore (current_state s) (initial_state s) (listeners s ++ [next_listener s])
     (Datatypes.S (next_listener s)), next_listener s).

Definition unsubscribe (l : nat) (s : FrameworkFreeStore) : FrameworkFreeStore :=
  mkFrameworkFreeStore (current_state s) (initial_state s) (filter (fun x => x <> l) (listeners s))
    (next_listener s).
End store.

End FrameworkFreeStore.

(** ** settledIdentities.ts *)

Module SettledIdentities.

(** The frames these functions read: a queue change with the ids still queued
    and the ids its drain consumed, a history update with its items' ids, and
    every other notification. *)
Inductive AnyNotification :=
  | QueueChanged (clientMutationIds : option (list string)) (consumedClientMutationIds : option json)
  | HistoryUpdated (items : option (list (option string)))
  | OtherNotification.

Definition notificationMutationIdentities (n : AnyNotification) : list string :=
  match n with
  | QueueChanged ids consumed => default [] ids ++ validConsumedClientMutationIds consumed
  | HistoryUpdated items => filter (fun i => i <> "") (omap id (default [] items))
  | OtherNotification => []
  end.

Definition appliedMutationIdentities (n : AnyNotification) : list string :=
  match n with
  | QueueChanged _ consumed => validConsumedClientMutationIds consumed
  | _ => notificationMutationIdentities n
  end.

Lemma applied_subset n i : i ∈ appliedMutationIdentities n -> i ∈ notificationMutationIdentities n.
Proof. destruct n; simpl; [|done..]. rewrite elem_of_app. auto. Qed.

End SettledIdentities.

(** ** projectionWork.ts *)

Module ProjectionWork.

(** The tracker's closure: the current generation, each generation's outstanding
    count, and every registration so far. *)
Record Tracker := mkTracker {
  generation : nat;
  outstanding : gmap nat nat;
  registrations : nat
}.

Definition createMutationProjectionWorkTracker : Tracker := mkTracker 0 ∅ 0.

Definition outstanding_of (g : nat) (t : Tracker) : nat := default 0 (outstanding t !! g).

Definition track (t : Tracker) : Tracker :=
  mkTracker (generation t)
    (<[generation t := S (outstanding_of (generation t) t)]> (outstanding t)) (S (registrations t)).

(** A tracked promise of generation [g] settling. *)
Definition end_work (g : nat) (t : Tracker) : Tracker :=
  mkTracker (generation t) (<[g := pred (outstanding_of g t)]> (outstanding t)) (registrations t).

Definition clear (t : Tracker) : Tracker :=
  mkTracker (S (generation t)) (outstanding t) (registrations t).

(** A settle under way: the generation it watches, what it saw when it began,
    and where its loop awaits. *)
Inductive settle_phase :=
  | Draining
  | Drained
  | Hopping (registrationsBeforeHop : nat)
  | Settled (count : nat)
  | Stalled.

Record Settle := mkSettle {
  watched : nat;
  outstandingAtStart : nat;
  registrationsAtStart : nat;
  phase : settle_phase
}.

Definition begin_settle (t : Tracker) : Settle :=
  mkSettle (generation t) (outstanding_of (generation t) t) (registrations t) Draining.

Definition set_phase (p : settle_phase) (s : Settle) : Settle :=
  mkSettle (watched s) (outstandingAtStart s) (registrationsAtStart s) p.

(** The loop's moves: the drain promise resolving, the loop resuming after it,
    the macrotask hop ending, and the tripwire. *)
Inductive work_event :=
  | Track
  | EndWork (g : nat)
  | Clear
  | DrainResolves
  | Resume
  | HopEnds
  | Tripwire.

Definition work_step (ts : Tracker * Settle) (e : work_event) : Tracker * Settle :=
  let '(t, s) := ts in
  match e with
  | Track => (track t, s)
  | EndWork g => (end_work g t, s)
  | Clear => (clear t, s)
  | DrainResolves =>
      match phase s with
      | Draining => if (outstanding_of (watched s) t =? 0)%nat then (t, set_phase Drained s) else ts
      | _ => ts
      end
  | Resume =>
      match phase s with Drained => (t, set_phase (Hopping (registrations t)) s) | _ => ts end
  | HopEnds =>
      match phase s with
      | Hopping before =>
          if (registrations t =? before)%nat && (outstanding_of (watched s) t =? 0)%nat
          then (t, set_phase (Settled (outstandingAtStart s + (registrations t - registrationsAtStart s))) s)
          else (t, set_phase Draining s)
      | _ => ts
      end
  | Tripwire =>
      match phase s with Settled _ | Stalled => ts | _ => (t, set_phase Stalled s) end
  end.

Definition work_run (ts : Tracker * Settle) (es : list work_event) : Tracker * Settle :=
  fold_left work_step es ts.

Definition is_track (e : work_event) : bool := match e with Track => true | _ => false end.

(** Registrations a history makes. *)
Definition tracked (es : list work_event) : nat := length (filter (fun e => is_track e = true) es).

Lemma tracked_cons e es : tracked (e :: es) = ((if is_track e then 1 else 0) + tracked es)%nat.
Proof.
  unfold tracked. destruct (is_track e) eqn:E; [by rewrite filter_cons_True|].
  rewrite filter_cons_False; [done|congruence].
Qed.

Lemma work_registrations ts es :
  registrations (work_run ts es).1 = (registrations ts.1 + tracked es)%nat.
Proof.
  revert ts. induction es as [|e es IH]; intros [t s]; [unfold tracked; simpl; lia|].
  rewrite tracked_cons. simpl. rewrite IH. destruct e; simpl; try lia; destruct (phase s); simpl; try lia;
    by case_match; simpl; lia.
Qed.

Lemma work_settle_fixed ts es :
  watched (work_run ts es).2 = watched ts.2 /\
  outstandingAtStart (work_run ts es).2 = outstandingAtStart ts.2 /\
  registrationsAtStart (work_run ts es).2 = registrationsAtStart ts.2.
Proof.
  revert ts. induction es as [|e es IH]; intros [t s]; [done|].
  change (work_run (t, s) (e :: es)) with (work_run (work_step (t, s) e) es).
  destruct (IH (work_step (t, s) e)) as (-> & -> & ->).
  destruct e; simpl; try done; destruct (phase s); simpl; try done; by case_match.
Qed.

(** A settle that reports is quiet: when the macrotask hop ends a settle begun earlier
    in a history, the generation it watched has no work outstanding, and the count it
    reports is the work outstanding when it began plus every registration since. *)
Theorem settle_reports_quiet t es n :
  let '(t', s') := work_run (t, begin_settle t) es in
  (forall m, phase s' <> Settled m) ->
  phase (work_step (t', s') HopEnds).2 = Settled n ->
  outstanding_of (generation t) t' = 0%nat /\
  n = (outstanding_of (generation t) t + tracked es)%nat.
Proof.
  pose proof (work_registrations (t, begin_settle t) es) as Hreg.
  pose proof (work_settle_fixed (t, begin_settle t) es) as (Hw & Ho & Hr).
  destruct (work_run _ _) as [t' s']. simpl in *. intros Hs.
  destruct (phase s') eqn:Hp; simpl; rewrite ?Hp; try done; [|intros E; by destruct (Hs _ eq_refl)].
  rewrite Hw. destruct (_ && _) eqn:Hq; simpl; [|done]. apply andb_prop in Hq as [_ Hz%Nat.eqb_eq].
  intros [= <-]. split; [done|]. rewrite Ho, Hr, Hreg. lia.
Qed.

Lemma settle_reports_quiet_witness :
  let t := track createMutationProjectionWorkTracker in
  let '(t', s') := work_run (t, begin_settle t) [Track; EndWork 0; EndWork 0; DrainResolves; Resume] in
  phase (work_step (t', s') HopEnds).2 = Settled 2 /\
  (outstanding_of (generation t) t' = 0%nat /\
   2%nat = (outstanding_of (generation t) t + tracked [Track; EndWork 0; EndWork 0; DrainResolves; Resume])%nat).
Proof.
  pose proof (settle_reports_quiet (track createMutationProjectionWorkTracker)
    [Track; EndWork 0; EndWork 0; DrainResolves; Resume] 2) as H.
  cbv zeta. set (run := work_run _ _) in *.
  assert (Hf : (forall m, phase run.2 <> Settled m) /\ phase (work_step (run.1, run.2) HopEnds).2 = Settled 2).
  { split; [intros m; vm_compute; discriminate|vm_compute; reflexivity]. }
  destruct run as [t' s']. destruct Hf as [H1 H2]. split; [exact H2|exact (H H1 H2)].
Defined.

End ProjectionWork.
