(* ===== verification/Discovery.v ===== *)
(** Durable-intent discovery (outbox.ts, MutationOutbox): when stored records are
    announced to the consumer, and what acquiring and releasing the host's
    listeners leaves behind.

    Discovery is a queue of asynchronous tasks run one at a time. The state
    carries the promise chain as the tasks waiting and the task running, stopped
    at its current await; an event is an entry point of the class, a host
    callback, or the answer to an await. *)

From S2P Require Import Prelude JsString Json Records.

Local Open Scope string_scope.
Local Open Scope list_scope.

Inductive MutationDiscoveryReason :=
  | startup | reason_enqueue | broadcast | ready | online | focus | visibility | interval.

#[export] Instance reason_eq_dec : EqDecision MutationDiscoveryReason.
Proof. solve_decision. Defined.

(** ** Host *)

(** The optional capabilities: the channel, the two event targets and a timer,
    which needs both of its halves. *)
Record Options := mkOptions {
  createBroadcastChannel : bool;
  lifecycleWindow : bool;
  lifecycleDocument : bool;
  setInterval : bool;
  clearInterval : bool
}.

Definition cancellableTimer (o : Options) : bool := setInterval o && clearInterval o.

(** What [start] holds of the host. *)
Record Resources := mkResources {
  channel : bool;
  message_listener : bool;
  online_listener : bool;
  focus_listener : bool;
  visibility_listener : bool;
  intervalId : bool
}.

Definition no_resources : Resources := mkResources false false false false false false.

(** The six setup steps of [start], in order; [fails n] says whether the n-th
    throws, which leaves the earlier ones acquired. *)
Definition acquire (o : Options) (fails : nat -> bool) : Resources * bool :=
  let held := no_resources in
  if createBroadcastChannel o && fails 0%nat then (held, false) else
  let held := mkResources (createBroadcastChannel o) false false false false false in
  if createBroadcastChannel o && fails 1%nat then (held, false) else
  let held := mkResources (channel held) (createBroadcastChannel o) false false false false in
  if lifecycleWindow o && fails 2%nat then (held, false) else
  let held := mkResources (channel held) (message_listener held) (lifecycleWindow o) false false false in
  if lifecycleWindow o && fails 3%nat then (held, false) else
  let held := mkResources (channel held) (message_listener held) (online_listener held)
                (lifecycleWindow o) false false in
  if lifecycleDocument o && fails 4%nat then (held, false) else
  let held := mkResources (channel held) (message_listener held) (online_listener held)
                (focus_listener held) (lifecycleDocument o) false in
  if cancellableTimer o && fails 5%nat then (held, false) else
  (mkResources (channel held) (message_listener held) (online_listener held)
     (focus_listener held) (visibility_listener held) (cancellableTimer o), true).

(** [#releaseAcquired]: every listener removed where its target exists, the
    channel closed, the timer cleared. *)
Definition releaseAcquired (o : Options) (r : Resources) : Resources :=
  {| channel := false;
     message_listener := if channel r then false else message_listener r;
     online_listener := if lifecycleWindow o then false else online_listener r;
     focus_listener := if lifecycleWindow o then false else focus_listener r;
     visibility_listener := if lifecycleDocument o then false else visibility_listener r;
     intervalId := false |}.

(** ** State *)

(** A queued discovery: of given targets, or of every target with a record;
    [latched] for the ready scans whose reason sits in [scheduledReadyScans]. *)
Inductive task :=
  | Discover (targetRefs : list string) (reason : MutationDiscoveryReason)
  | DiscoverAll (reason : MutationDiscoveryReason) (latched : bool).

(** Where the running task awaits: the storage's list, or the consumer. *)
Inductive running :=
  | Listing (reason : MutationDiscoveryReason) (latched : bool)
  | Announcing (latch : option MutationDiscoveryReason).

Record state := mkState {
  started : bool;
  client_ready : bool;
  resources : Resources;
  waiting : list task;
  current : option running;
  scheduledReadyScans : list MutationDiscoveryReason
}.

Definition initial (isReady : bool) : state := mkState false isReady no_resources [] None [].

Definition set_current (r : option running) (s : state) : state :=
  mkState (started s) (client_ready s) (resources s) (waiting s) r (scheduledReadyScans s).

Definition mayDiscover (reason : MutationDiscoveryReason) (s : state) : bool :=
  match reason with
  | reason_enqueue => true
  | startup => started s
  | _ => started s && client_ready s
  end.

(** [#queueDiscovery]: behind everything already queued. *)
Definition queueDiscovery (t : task) (s : state) : state :=
  mkState (started s) (client_ready s) (resources s) (waiting s ++ [t]) (current s)
    (scheduledReadyScans s).

Definition scheduleReadyScan (reason : MutationDiscoveryReason) (s : state) : state :=
  if negb (mayDiscover reason s) || bool_decide (reason ∈ scheduledReadyScans s) then s
  else queueDiscovery (DiscoverAll reason true)
         (mkState (started s) (client_ready s) (resources s) (waiting s) (current s)
            (reason :: scheduledReadyScans s)).

Definition scheduleDiscovery (targetRefs : list string) (reason : MutationDiscoveryReason)
    (s : state) : state :=
  if negb (mayDiscover reason s) then s else queueDiscovery (Discover targetRefs reason) s.

(** The finally of a latched scan. *)
Definition unlatch (latch : option MutationDiscoveryReason) (s : state) : state :=
  match latch with
  | Some reason =>
      mkState (started s) (client_ready s) (resources s) (waiting s) (current s)
        (filter (fun r => r <> reason) (scheduledReadyScans s))
  | None => s
  end.

(** ** Messages *)

(** [isMutationOutboxWakeup], answering the target it names. *)
Definition wakeup_target (data : option json) : option string :=
  match as_object data with
  | Some o =>
      match as_number (obj_get "version" o), as_string (obj_get "targetRef" o) with
      | Some 1%Z, Some ref => if str_truthy ref then Some ref else None
      | _, _ => None
      end
  | None => None
  end.

Definition wakeup_message (ref : string) : json :=
  JObj [("version", JNum 1); ("targetRef", JStr ref)].

(** ** Entry points *)

(** An announcement: one call of [onDiscover]. *)
Definition announcement : Type := list string * MutationDiscoveryReason.

Definition start (o : Options) (fails : nat -> bool) (s : state) : state :=
  if started s then s
  else
    match acquire o fails with
    | (held, false) =>
        mkState false (client_ready s) (releaseAcquired o held) (waiting s) (current s)
          (scheduledReadyScans s)
    | (held, true) =>
        queueDiscovery (DiscoverAll startup false)
          (mkState true (client_ready s) held (waiting s) (current s) (scheduledReadyScans s))
    end.

Definition stop (o : Options) (s : state) : state :=
  if negb (started s) then s
  else mkState false (client_ready s) (releaseAcquired o (resources s)) (waiting s) (current s)
         (scheduledReadyScans s).

(** [#announceCommit] on a record the storage has committed; posting to the
    channel is best effort. *)
Definition announceCommit (ref : string) (s : state) : state :=
  if client_ready s then scheduleDiscovery [ref] reason_enqueue s else s.

Definition connectionReady (s : state) : state :=
  if negb (mayDiscover ready s) then s else queueDiscovery (DiscoverAll ready false) s.

Definition handleBroadcast (data : option json) (s : state) : state :=
  match wakeup_target data with
  | Some ref => scheduleDiscovery [ref] broadcast s
  | None => s
  end.

Inductive event :=
  | Start (o : Options) (fails : nat -> bool)
  | Stop (o : Options)
  | ClientState (isReady : bool)
  | Committed (ref : string)
  | ConnectionReady
  | MessageEvent (data : option json)
  | OnlineEvent
  | FocusEvent
  | VisibilityEvent (visible : bool)
  | IntervalTick
  | RunNext
  | Listed (refs : option (list string))
  | Consumed.

(** The task at the head of the chain, up to its first await. A discovery that
    may no longer run ends at once. *)
Definition begin_task (t : task) (s : state) : state * list announcement :=
  match t with
  | Discover refs reason =>
      if mayDiscover reason s
      then (set_current (Some (Announcing None)) s, [(refs, reason)]) else (s, [])
  | DiscoverAll reason latched =>
      if mayDiscover reason s
      then (set_current (Some (Listing reason latched)) s, [])
      else (unlatch (if latched then Some reason else None) s, [])
  end.

Definition step (s : state) (e : event) : state * list announcement :=
  match e with
  | Start o fails => (start o fails s, [])
  | Stop o => (stop o s, [])
  | ClientState b =>
      (mkState (started s) b (resources s) (waiting s) (current s) (scheduledReadyScans s), [])
  | Committed ref => (announceCommit ref s, [])
  | ConnectionReady => (connectionReady s, [])
  | MessageEvent data => (if message_listener (resources s) then handleBroadcast data s else s, [])
  | OnlineEvent => (if online_listener (resources s) then scheduleReadyScan online s else s, [])
  | FocusEvent => (if focus_listener (resources s) then scheduleReadyScan focus s else s, [])
  | VisibilityEvent v =>
      (if visibility_listener (resources s) && v then scheduleReadyScan visibility s else s, [])
  | IntervalTick => (if intervalId (resources s) then scheduleReadyScan interval s else s, [])
  | RunNext =>
      match current s, waiting s with
      | None, t :: ts =>
          begin_task t (mkState (started s) (client_ready s) (resources s) ts None (scheduledReadyScans s))
      | _, _ => (s, [])
      end
  | Listed refs =>
      match current s with
      | Some (Listing reason latched) =>
          let latch := if latched then Some reason else None in
          match refs with
          | Some refs =>
              if mayDiscover reason s
              then (set_current (Some (Announcing latch)) s, [(refs, reason)])
              else (unlatch latch (set_current None s), [])
          | None => (unlatch latch (set_current None s), [])
          end
      | _ => (s, [])
      end
  | Consumed =>
      match current s with
      | Some (Announcing latch) => (unlatch latch (set_current None s), [])
      | _ => (s, [])
      end
  end.

(** A run from a state: the announcements, oldest first. *)
Fixpoint run (s : state) (es : list event) : state * list announcement :=
  match es with
  | [] => (s, [])
  | e :: es' =>
      let '(s1, out) := step s e in
      let '(s2, outs) := run s1 es' in
      (s2, out ++ outs)
  end.

(** ** Invariant *)

(** The latched scans somewhere in the chain. *)
Definition task_latch (t : task) : list MutationDiscoveryReason :=
  match t with DiscoverAll r true => [r] | _ => [] end.

Definition running_latch (r : option running) : list MutationDiscoveryReason :=
  match r with
  | Some (Listing r true) => [r]
  | Some (Announcing (Some r)) => [r]
  | _ => []
  end.

Definition latched (s : state) : list MutationDiscoveryReason :=
  running_latch (current s) ++ concat (map task_latch (waiting s)).

(** The latch set is exactly the ready scans queued or running, each once; and
    what is held is held only while started, for the same options. *)
Record discovery_inv (o : Options) (s : state) : Prop := {
  inv_latched : latched s ≡ₚ scheduledReadyScans s;
  inv_nodup : NoDup (scheduledReadyScans s);
  inv_resources : resources s = if started s then (acquire o (fun _ => false)).1 else no_resources
}.

(** Events of one outbox: every start and stop with its own options. *)
Definition of_outbox (o : Options) (e : event) : Prop :=
  match e with Start o' _ | Stop o' => o' = o | _ => True end.

Lemma release_acquired o fails : releaseAcquired o (acquire o fails).1 = no_resources.
Proof.
  unfold acquire, releaseAcquired, no_resources. destruct o as [b w l c t]; simpl.
  unfold cancellableTimer; simpl. destruct b, w, l, (c && t); simpl;
    repeat match goal with |- context [fails ?n] => destruct (fails n); simpl; [reflexivity|] end; reflexivity.
Qed.

Lemma acquire_succeeds o fails : (acquire o fails).2 = true -> (acquire o fails).1 = (acquire o (fun _ => false)).1.
Proof.
  unfold acquire. destruct o as [b w l c t]; simpl. unfold cancellableTimer; simpl.
  destruct b, w, l, (c && t); simpl;
    repeat match goal with
           | |- context [fails ?n] => destruct (fails n); simpl; [discriminate|]
           end; reflexivity.
Qed.

Lemma acquire_all_listeners o : (acquire o (fun _ => false)).2 = true.
Proof. unfold acquire. by destruct o as [[] [] [] [] []]. Qed.

Lemma concat_snoc {A B} (f : A -> list B) l x : concat (map f (l ++ [x])) = concat (map f l) ++ f x.
Proof. rewrite map_app, concat_app. simpl. by rewrite app_nil_r. Qed.

Lemma latched_queue t s : latched (queueDiscovery t s) = latched s ++ task_latch t.
Proof. unfold latched. simpl. by rewrite concat_snoc, app_assoc. Qed.

Lemma inv_queue o t s : task_latch t = [] -> discovery_inv o s -> discovery_inv o (queueDiscovery t s).
Proof.
  intros Ht [H1 H2 H3]. split; [|done|done]. by rewrite latched_queue, Ht, app_nil_r.
Qed.

Lemma inv_scan o reason s : discovery_inv o s -> discovery_inv o (scheduleReadyScan reason s).
Proof.
  intros Hi. unfold scheduleReadyScan. destruct (_ || _) eqn:E; [done|].
  apply orb_false_iff in E as [_ Hn%bool_decide_eq_false]. destruct Hi as [H1 H2 H3]. split; [| |done].
  - rewrite latched_queue. simpl. rewrite <- Permutation_cons_append. by constructor.
  - simpl. by constructor.
Qed.

Lemma inv_schedule o refs reason s : discovery_inv o s -> discovery_inv o (scheduleDiscovery refs reason s).
Proof. intros Hi. unfold scheduleDiscovery. case_match; [done|]. by apply inv_queue. Qed.

(** Ending the task that holds a latch. *)
Lemma inv_unlatch o s r latch :
  discovery_inv o (set_current (Some r) s) ->
  running_latch (Some r) = match latch with Some x => [x] | None => [] end ->
  discovery_inv o (unlatch latch (set_current None s)).
Proof.
  intros [H1 H2 H3] Hr. unfold latched in H1. cbn [current set_current waiting scheduledReadyScans resources started] in *.
  rewrite Hr in H1.
  destruct latch as [x|]; [|by split]. simpl in H1.
  assert (Hx : x ∉ concat (map task_latch (waiting s)) /\ NoDup (concat (map task_latch (waiting s)))).
  { rewrite <- H1 in H2. by apply NoDup_cons in H2. }
  split; simpl; [| |done].
  - unfold latched. simpl. rewrite <- H1. simpl. rewrite filter_cons_False by naive_solver.
    rewrite filter_all; [done|]. apply Forall_forall. intros y Hy ->. naive_solver.
  - by apply NoDup_filter.
Qed.

Lemma inv_step o s e : of_outbox o e -> discovery_inv o s -> discovery_inv o (step s e).1.
Proof.
  intros Ho Hi. destruct e as [o' fails|o'|b|ref| |data| | |v| | |refs|]; simpl in *; subst.
  - unfold start. destruct (started s) eqn:Hs; [done|]. destruct Hi as [H1 H2 H3].
    destruct (acquire o fails) as [held ok] eqn:Ha. destruct ok.
    + apply inv_queue; [done|]. split; [done|done|]. simpl.
      pose proof (acquire_succeeds o fails) as Hh. rewrite Ha in Hh. by apply Hh.
    + split; [done|done|]. simpl. pose proof (release_acquired o fails) as Hh. by rewrite Ha in Hh.
  - unfold stop. destruct (started s) eqn:Hs; [|done]. simpl. destruct Hi as [H1 H2 H3].
    split; [done|done|]. simpl. rewrite H3, Hs. apply release_acquired.
  - by destruct Hi.
  - unfold announceCommit. case_match; [by apply inv_schedule|done].
  - unfold connectionReady. case_match; [done|by apply inv_queue].
  - case_match; [|done]. unfold handleBroadcast. case_match; [by apply inv_schedule|done].
  - case_match; [by apply inv_scan|done].
  - case_match; [by apply inv_scan|done].
  - case_match; [by apply inv_scan|done].
  - case_match; [by apply inv_scan|done].
  - destruct (current s) eqn:Hc; [done|]. destruct (waiting s) as [|t ts] eqn:Hw; [done|].
    destruct Hi as [H1 H2 H3]. unfold latched in H1. rewrite Hc, Hw in H1. simpl in H1.
    unfold begin_task. destruct t as [refs reason|reason l]; simpl in H1.
    + destruct (mayDiscover reason _); simpl; split; done.
    + destruct (mayDiscover reason _); simpl.
      * split; [|done|done]. unfold latched. simpl. by destruct l.
      * set (s1 := mkState _ _ _ _ _ _).
        apply (inv_unlatch o s1 (Listing reason l) (if l then Some reason else None)); [|by destruct l].
        split; [|done|done]. unfold latched. simpl. by destruct l.
  - destruct (current s) as [[reason l|latch]|] eqn:Hc; try done.
    assert (Hi' : discovery_inv o (set_current (Some (Listing reason l)) s)).
    { destruct Hi as [H1 H2 H3]. split; [|done|done]. by unfold latched in *; rewrite Hc in H1. }
    assert (Hu : discovery_inv o (unlatch (if l then Some reason else None) (set_current None s))).
    { eapply inv_unlatch; [done|by destruct l]. }
    destruct refs as [refs|]; [|done]. destruct (mayDiscover reason s); [|done]. simpl.
    destruct Hi' as [H1 H2 H3]. split; [|done|done]. unfold latched in *. simpl in *. by destruct l.
  - destruct (current s) as [[reason l|latch]|] eqn:Hc; try done. simpl.
    eapply (inv_unlatch o s (Announcing latch)); [|by destruct latch].
    destruct Hi as [H1 H2 H3]. split; [|done|done]. by unfold latched in *; rewrite Hc in H1.
Qed.

Lemma inv_initial o b : discovery_inv o (initial b).
Proof. split; [done|constructor|done]. Qed.

Lemma inv_run o s es : Forall (of_outbox o) es -> discovery_inv o s -> discovery_inv o (run s es).1.
Proof.
  revert s. induction es as [|e es IH]; intros s Hes Hi; [done|]. simpl.
  apply Forall_cons in Hes as [He Hes]. pose proof (inv_step o s e He Hi) as Hi'.
  destruct (step s e) as [s1 out]. specialize (IH s1 Hes Hi'). by destruct (run s1 es).
Qed.

Lemma run_app s es es' :
  run s (es ++ es') =
    ((run (run s es).1 es').1, (run s es).2 ++ (run (run s es).1 es').2).
Proof.
  revert s. induction es as [|e es IH]; intros s; simpl; [by destruct (run s es')|].
  destruct (step s e) as [s1 out]. rewrite IH. destruct (run s1 es) as [s2 outs]. simpl.
  by rewrite app_assoc.
Qed.

(** An announcement is allowed at the moment it is made. *)
Ltac none := let H := fresh in intros H; by apply not_elem_of_nil in H.

Lemma step_announces s e refs reason :
  (refs, reason) ∈ (step s e).2 -> mayDiscover reason s = true.
Proof.
  assert (Hsame : forall w c l, mayDiscover reason (mkState (started s) (client_ready s) (resources s) w c l)
    = mayDiscover reason s) by (by destruct reason).
  destruct e as [o' fails|o'|b|ref| |data| | |v| | |l|]; simpl; try solve [none].
  - destruct (current s); [solve [none]|]. destruct (waiting s) as [|t ts]; [solve [none]|].
    unfold begin_task. destruct t as [refs' reason'|reason' l].
    + destruct (mayDiscover reason' _) eqn:E; [|solve [none]].
      intros [= -> ->]%list_elem_of_singleton. by rewrite Hsame in E.
    + destruct (mayDiscover reason' _); solve [none].
  - destruct (current s) as [[reason' l'|latch]|]; [|solve [none]..].
    destruct l as [l|]; [|solve [none]]. destruct (mayDiscover reason' s) eqn:E; [|solve [none]].
    by intros [= -> ->]%list_elem_of_singleton.
  - destruct (current s) as [[reason' l'|latch]|]; solve [none].
Qed.

(** ** Properties *)

(** Whatever happens to an outbox, each kind of ready scan is queued at most once and
    its latch is held exactly while it is, and the host's listeners, channel and timer
    are all held while it is started and none is once it is not - a start that failed
    half-way included. *)
Theorem discovery_well_kept o isReady es :
  Forall (of_outbox o) es ->
  let s := (run (initial isReady) es).1 in
  NoDup (latched s) /\ (forall r, r ∈ latched s <-> r ∈ scheduledReadyScans s) /\
  resources s = if started s then (acquire o (fun _ => false)).1 else no_resources.
Proof.
  intros He s. destruct (inv_run o (initial isReady) es He (inv_initial o isReady)) as [H1 H2 H3].
  fold s in H1, H2, H3. split_and!; [by rewrite H1|intros r; by rewrite H1|done].
Qed.

Definition demo_options : Options := mkOptions true true true true true.

Lemma discovery_well_kept_witness :
  let es := [Start demo_options (fun n => (n =? 4)%nat); Start demo_options (fun _ => false);
             OnlineEvent; OnlineEvent; FocusEvent; Stop demo_options] in
  let s := (run (initial true) es).1 in
  latched s = [online; focus] /\
  (NoDup (latched s) /\ (forall r, r ∈ latched s <-> r ∈ scheduledReadyScans s) /\
   resources s = if started s then (acquire demo_options (fun _ => false)).1 else no_resources).
Proof.
  split; [reflexivity|].
  exact (discovery_well_kept demo_options true
    [Start demo_options (fun n => (n =? 4)%nat); Start demo_options (fun _ => false);
     OnlineEvent; OnlineEvent; FocusEvent; Stop demo_options] ltac:(by repeat constructor)).
Defined.

(** Nothing is announced out of turn: at the moment of every announcement the outbox
    is started for a startup scan, started with a ready client for every scan after it;
    only a committed enqueue is announced in any state. *)
Theorem announcements_allowed isReady before e refs reason :
  let s := (run (initial isReady) before).1 in
  (refs, reason) ∈ (step s e).2 ->
  reason = reason_enqueue \/ started s = true /\ (reason = startup \/ client_ready s = true).
Proof.
  intros s Hin. apply step_announces in Hin. destruct reason; simpl in Hin; auto;
    apply andb_prop in Hin as [? ?]; auto.
Qed.

Lemma announcements_allowed_witness :
  let s := (run (initial true) [Start demo_options (fun _ => false); RunNext]).1 in
  (["ref"], startup) ∈ (step s (Listed (Some ["ref"]))).2 /\
  (startup = reason_enqueue \/ started s = true /\ (startup = startup \/ client_ready s = true)).
Proof.
  assert (H : (["ref"], startup) ∈
    (step (run (initial true) [Start demo_options (fun _ => false); RunNext]).1 (Listed (Some ["ref"]))).2)
    by (vm_compute; left).
  split; [exact H|]. exact (announcements_allowed true _ _ _ _ H).
Defined.

(** A queued announcement of a committed record waits or is made. *)
Lemma enqueue_waits s es ref :
  Discover [ref] reason_enqueue ∈ waiting s ->
  Discover [ref] reason_enqueue ∈ waiting (run s es).1 \/ ([ref], reason_enqueue) ∈ (run s es).2.
Proof.
  revert s. induction es as [|e es IH]; intros s Hw; [by left|]. simpl.
  assert (Hs : Discover [ref] reason_enqueue ∈ waiting (step s e).1 \/
               ([ref], reason_enqueue) ∈ (step s e).2).
  { assert (Hq : forall t s', waiting s' = waiting s -> Discover [ref] reason_enqueue ∈ waiting (queueDiscovery t s')).
    { intros t s' E. simpl. rewrite E. apply elem_of_app. by left. }
    assert (Hu : forall l s', waiting s' = waiting s -> Discover [ref] reason_enqueue ∈ waiting (unlatch l s')).
    { intros [l|] s' E; simpl; by rewrite E. }
    destruct e; simpl; unfold start, stop, announceCommit, connectionReady, handleBroadcast,
      scheduleReadyScan, scheduleDiscovery;
      try solve [repeat case_match; simpl; rewrite ?elem_of_app; auto].
    destruct (current s) eqn:Hc; [by left|]. destruct (waiting s) as [|t ts] eqn:Ht; [by apply not_elem_of_nil in Hw|].
    apply elem_of_cons in Hw as [<-|Hw]; [right; simpl; by left|left].
    unfold begin_task. destruct t as [refs' r'|r' l']; simpl; case_match; simpl; try done; by destruct l'. }
  destruct (step s e) as [s1 out]. simpl in Hs. specialize (IH s1). destruct (run s1 es) as [s2 outs]. simpl in *.
  rewrite elem_of_app. naive_solver.
Qed.

(** The events that only move the chain on. *)
Definition moves_on (e : event) : bool :=
  match e with RunNext | Listed _ | Consumed => true | _ => false end.

(** The chain can always be run dry. *)
Lemma chain_runs_dry n s :
  (length (waiting s) <= n)%nat ->
  exists es, Forall (fun e => moves_on e = true) es /\ waiting (run s es).1 = [] /\ current (run s es).1 = None.
Proof.
  assert (Hidle : forall s, exists es, Forall (fun e => moves_on e = true) es /\
    waiting (run s es).1 = waiting s /\ current (run s es).1 = None).
  { intros s0. destruct (current s0) as [[reason l|latch]|] eqn:Hc.
    - exists [Listed None]. split_and!; [by repeat constructor|..]; simpl; rewrite Hc; by destruct l.
    - exists [Consumed]. split_and!; [by repeat constructor|..]; simpl; rewrite Hc; by destruct latch.
    - exists []. by split_and!. }
  revert s. induction n as [|n IH]; intros s Hn.
  - destruct (Hidle s) as (es & He & Hw & Hc). exists es. split_and!; [done| |done]. rewrite Hw.
    destruct (waiting s); [done|simpl in Hn; lia].
  - destruct (Hidle s) as (es & He & Hw & Hc). set (s1 := (run s es).1) in *.
    destruct (waiting s) as [|t ts] eqn:Ht; [exists es; by split_and!|].
    assert (H2 : waiting (run s1 [RunNext]).1 = ts).
    { simpl. rewrite Hc, Hw. unfold begin_task. destruct t as [refs r|r []]; simpl; by destruct (mayDiscover r _). }
    destruct (IH (run s1 [RunNext]).1) as (es' & He' & Hw' & Hc'); [rewrite H2; simpl in Hn; lia|].
    exists (es ++ RunNext :: es'). change (RunNext :: es') with ([RunNext] ++ es').
    rewrite !run_app. fold s1. split_and!; [|done|done].
    apply Forall_app. split; [done|]. by constructor.
Qed.

(** A committed record is announced: when the storage commits a record while the
    client is ready, then in every continuation that runs the discovery chain dry -
    and there is always one - the consumer is told of its target. *)
Theorem commit_is_announced s ref :
  client_ready s = true ->
  (forall es, waiting (run s (Committed ref :: es)).1 = [] ->
     ([ref], reason_enqueue) ∈ (run s (Committed ref :: es)).2) /\
  exists es, Forall (fun e => moves_on e = true) es /\ waiting (run s (Committed ref :: es)).1 = [].
Proof.
  intros Hr. set (s1 := queueDiscovery (Discover [ref] reason_enqueue) s).
  assert (Hs1 : step s (Committed ref) = (s1, [])) by (simpl; unfold announceCommit; by rewrite Hr).
  assert (Hrun : forall es, run s (Committed ref :: es) = run s1 es).
  { intros es. cbn [run]. rewrite Hs1. by destruct (run s1 es). }
  split.
  - intros es. rewrite Hrun. intros Hw.
    destruct (enqueue_waits s1 es ref) as [H|H]; [simpl; apply elem_of_app; right; by left| |done].
    rewrite Hw in H. by apply not_elem_of_nil in H.
  - destruct (chain_runs_dry (length (waiting s1)) s1) as (es & He & Hw & _); [done|].
    exists es. by rewrite Hrun.
Qed.

Lemma commit_is_announced_witness :
  client_ready (initial true) = true /\
  (forall es, waiting (run (initial true) (Committed "ref" :: es)).1 = [] ->
     (["ref"], reason_enqueue) ∈ (run (initial true) (Committed "ref" :: es)).2) /\
  exists es, Forall (fun e => moves_on e = true) es /\ waiting (run (initial true) (Committed "ref" :: es)).1 = [].
Proof. split; [reflexivity|exact (commit_is_announced (initial true) "ref" eq_refl)]. Defined.
