(* ===== verification/JsMap.v ===== *)
(** JavaScript's [Map] with string keys: associations in insertion order, a set
    of a present key keeping its place. *)

From S2P Require Import Prelude.

Notation js_map A := (list (string * A)).

Section js_map.
Context {A : Type}.
Implicit Types (m : js_map A) (k : string) (v : A).

Fixpoint map_get k m : option A :=
  match m with
  | [] => None
  | (k', v) :: m' => if String.eqb k k' then Some v else map_get k m'
  end.

Fixpoint map_put k v m : js_map A :=
  match m with
  | [] => [(k, v)]
  | (k', v') :: m' => if String.eqb k k' then (k', v) :: m' else (k', v') :: map_put k v m'
  end.

Definition map_del k m : js_map A := filter (fun kv => kv.1 <> k) m.

Definition map_has k m : bool := match map_get k m with Some _ => true | None => false end.

(** A [Map]'s keys are distinct. *)
Definition map_wf m : Prop := NoDup m.*1.

Lemma map_get_put k v m : map_get k (map_put k v m) = Some v.
Proof.
  induction m as [|[k' v'] m IH]; simpl; [by rewrite String.eqb_refl|].
  destruct (String.eqb_spec k k') as [->|]; simpl; [by rewrite String.eqb_refl|].
  by destruct (String.eqb_spec k k').
Qed.

Lemma map_get_put_ne k k' v m : k <> k' -> map_get k (map_put k' v m) = map_get k m.
Proof.
  intros Hne. induction m as [|[k1 v1] m IH]; simpl.
  - by destruct (String.eqb_spec k k').
  - destruct (String.eqb_spec k' k1) as [->|]; simpl.
    + by destruct (String.eqb_spec k k1).
    + by rewrite IH.
Qed.

Lemma map_get_del k m : map_get k (map_del k m) = None.
Proof.
  induction m as [|[k' v'] m IH]; [done|]. unfold map_del in *. rewrite filter_cons.
  case_decide as Hk; simpl in *; [|done]. by destruct (String.eqb_spec k k') as [->|].
Qed.

Lemma map_get_del_ne k k' m : k <> k' -> map_get k (map_del k' m) = map_get k m.
Proof.
  intros Hne. induction m as [|[k1 v1] m IH]; [done|]. unfold map_del in *. rewrite filter_cons.
  case_decide as Hk; simpl in *; [by rewrite IH|].
  destruct (String.eqb_spec k k1) as [->|]; [|done]. by destruct (decide (k1 = k')).
Qed.

Lemma elem_of_map_get k v m : map_get k m = Some v -> (k, v) ∈ m.
Proof.
  induction m as [|[k' v'] m IH]; simpl; [done|].
  destruct (String.eqb_spec k k') as [->|]; [intros [= ->]; by left|]. right. auto.
Qed.

Lemma map_get_elem_of k v m : map_wf m -> (k, v) ∈ m -> map_get k m = Some v.
Proof.
  unfold map_wf. induction m as [|[k' v'] m IH]; simpl; [by intros _ H%not_elem_of_nil|].
  intros [Hk Hm]%NoDup_cons [[= -> ->]|Hin]%elem_of_cons; [by rewrite String.eqb_refl|].
  destruct (String.eqb_spec k k') as [->|]; [|auto].
  destruct Hk. apply list_elem_of_fmap. by exists (k', v).
Qed.

Lemma elem_of_map_put_keys k k' v m : k' ∈ (map_put k v m).*1 <-> k' = k \/ k' ∈ m.*1.
Proof.
  induction m as [|[k1 v1] m IH]; simpl.
  - rewrite list_elem_of_singleton, elem_of_nil. naive_solver.
  - destruct (String.eqb_spec k k1) as [->|]; simpl; rewrite !elem_of_cons; [naive_solver|].
    rewrite IH. naive_solver.
Qed.

Lemma map_put_wf k v m : map_wf m -> map_wf (map_put k v m).
Proof.
  unfold map_wf. induction m as [|[k1 v1] m IH]; simpl.
  - intros _. apply NoDup_singleton.
  - intros [Hk Hm]%NoDup_cons. destruct (String.eqb_spec k k1) as [->|]; simpl; constructor; auto.
    change (k1 ∉ (map_put k v m).*1). rewrite elem_of_map_put_keys. naive_solver.
Qed.

Lemma map_del_wf k m : map_wf m -> map_wf (map_del k m).
Proof.
  unfold map_wf, map_del. intros Hm. eapply sublist_NoDup; [done|].
  apply fmap_sublist, sublist_filter.
Qed.

Lemma map_filter_wf (P : string * A -> Prop) `{!forall x, Decision (P x)} m :
  map_wf m -> map_wf (filter P m).
Proof. intros Hm. eapply sublist_NoDup; [done|]. apply fmap_sublist, sublist_filter. Qed.

(** Setting a key the map lacks appends it. *)
Lemma map_put_new k v m : map_get k m = None -> map_put k v m = m ++ [(k, v)].
Proof.
  induction m as [|[k' v'] m IH]; simpl; [done|].
  destruct (String.eqb_spec k k'); [done|]. intros H. by rewrite IH.
Qed.
End js_map.
