(* ===== verification/Projection.v ===== *)
(** The pending projection's durable-read fence and record replacement
    (projection.ts). *)

From S2P Require Import Prelude JsString Json JsMap Records.

Local Open Scope string_scope.
Local Open Scope list_scope.

(** ** The fence *)

(** The closure of [createMutationProjectionFence]. *)
Record fence := mkFence {
  refreshGeneration : nat;
  allTargetsRefreshGeneration : nat;
  refreshGenerations : js_map nat;
  refreshEpoch : nat
}.

Definition createMutationProjectionFence : fence := mkFence 0 0 [] 0.

(** The floor below which a read no longer counts for a target. *)
Definition floor (target : string) (f : fence) : nat :=
  Nat.max (allTargetsRefreshGeneration f) (default 0 (map_get target (refreshGenerations f))).

Definition targetIsCurrent (generation : nat) (target : string) (f : fence) : bool :=
  (floor target f <=? generation)%nat.

(** A refresh in flight: the epoch and generation it started under and the target
    it names, every target when none. *)
Record ticket := mkTicket {
  ticket_epoch : nat;
  ticket_generation : nat;
  ticket_ref : option string
}.

(** [refresh] up to its read. *)
Definition begin_refresh (ref : option string) (f : fence) : fence * ticket :=
  let generation := S (refreshGeneration f) in
  let f' :=
    match ref with
    | None => mkFence generation generation (refreshGenerations f) (refreshEpoch f)
    | Some r => mkFence generation (allTargetsRefreshGeneration f)
                  (map_put r generation (refreshGenerations f)) (refreshEpoch f)
    end in
  (f', mkTicket (refreshEpoch f) generation ref).

(** [port.read]'s answer. *)
Record MutationPersistenceSnapshot := mkSnapshot {
  snap_outbox : list MutationRecord;
  snap_optimistic : list MutationRecord;
  snap_recovery : list MutationRecord
}.

Definition snapshot_refs (s : MutationPersistenceSnapshot) : list string :=
  (map (fun r : MutationRecord => targetRef r) (snap_outbox s)) ++ (map (fun r : MutationRecord => targetRef r) (snap_optimistic s)) ++
  (map (fun r : MutationRecord => targetRef r) (snap_recovery s)).

(** [refreshGenerations.set(target, generation)] for the candidates still
    current. *)
Definition set_generation (generation : nat) (targets : list string) (f : fence) : fence :=
  mkFence (refreshGeneration f) (allTargetsRefreshGeneration f)
    (fold_left (fun m t => map_put t generation m) targets (refreshGenerations f)) (refreshEpoch f).

(** [refresh] from its read on: [None] for a reset or a failed read, else the
    candidates it still looked to have won. *)
Definition resolve (t : ticket) (read : option MutationPersistenceSnapshot) (f : fence) :
    fence * option (list string) :=
  match read with
  | None => (f, None)
  | Some snapshot =>
      if negb (refreshEpoch f =? ticket_epoch t)%nat then (f, None)
      else
        let candidates := js_set (match ticket_ref t with
                                  | None => (refreshGenerations f).*1 ++ snapshot_refs snapshot
                                  | Some r => [r]
                                  end) in
        let current := filter (fun c => targetIsCurrent (ticket_generation t) c f = true) candidates in
        (set_generation (ticket_generation t) current f, Some current)
  end.

(** [apply], called at projection time. *)
Definition apply (t : ticket) (candidates : list string) (f : fence) : list string :=
  if negb (refreshEpoch f =? ticket_epoch t)%nat then []
  else filter (fun c => targetIsCurrent (ticket_generation t) c f = true) candidates.

Definition stillOwns (t : ticket) (target : string) (f : fence) : bool :=
  (refreshEpoch f =? ticket_epoch t)%nat && targetIsCurrent (ticket_generation t) target f.

Definition advance (ref : string) (f : fence) : fence :=
  mkFence (S (refreshGeneration f)) (allTargetsRefreshGeneration f)
    (map_put ref (S (refreshGeneration f)) (refreshGenerations f)) (refreshEpoch f).

Definition reset (f : fence) : fence := mkFence 0 0 [] (S (refreshEpoch f)).

(** *** Histories *)

(** What happens to a fence: reads starting, earlier reads coming back, live
    commits and resets. A ticket that comes back was handed out before. *)
Inductive fence_event :=
  | BeginRefresh (ref : option string)
  | Resolve (t : ticket) (read : option MutationPersistenceSnapshot)
  | Advance (ref : string)
  | Reset.

Definition fence_step (f : fence) (e : fence_event) : fence :=
  match e with
  | BeginRefresh ref => (begin_refresh ref f).1
  | Resolve t read => (resolve t read f).1
  | Advance ref => advance ref f
  | Reset => reset f
  end.

Definition fence_run (f : fence) (es : list fence_event) : fence := fold_left fence_step es f.

(** The tickets a history hands out. *)
Fixpoint issued (f : fence) (es : list fence_event) : list ticket :=
  match es with
  | [] => []
  | e :: es' =>
      match e with
      | BeginRefresh ref => (begin_refresh ref f).2 :: issued (fence_step f e) es'
      | _ => issued (fence_step f e) es'
      end
  end.

(** Tickets come back only after they were handed out: [known] are those handed
    out before the history. *)
Fixpoint honest (known : list ticket) (f : fence) (es : list fence_event) : Prop :=
  match es with
  | [] => True
  | e :: es' =>
      match e with
      | BeginRefresh ref => honest ((begin_refresh ref f).2 :: known) (fence_step f e) es'
      | Resolve t _ => t ∈ known /\ honest known (fence_step f e) es'
      | _ => honest known (fence_step f e) es'
      end
  end.

(** Events that outrank an earlier read of a target. *)
Definition outranks (target : string) (e : fence_event) : bool :=
  match e with
  | BeginRefresh None | Reset => true
  | BeginRefresh (Some r) => String.eqb r target
  | Advance r => String.eqb r target
  | Resolve _ _ => false
  end.

(** Every ticket of the current epoch is at most the current generation, and so
    is every floor. *)
Definition fence_ok (known : list ticket) (f : fence) : Prop :=
  (forall t, t ∈ known -> ticket_epoch t <= refreshEpoch f /\
     (ticket_epoch t = refreshEpoch f -> ticket_generation t <= refreshGeneration f))%nat /\
  (forall target, floor target f <= refreshGeneration f)%nat.

Lemma floor_put target r g f gen ep :
  floor target (mkFence gen (allTargetsRefreshGeneration f) (map_put r g (refreshGenerations f)) ep) =
    if decide (target = r) then Nat.max (allTargetsRefreshGeneration f) g else floor target f.
Proof.
  unfold floor. simpl. case_decide as H; [subst; by rewrite map_get_put|by rewrite map_get_put_ne].
Qed.

(** Recording a generation that is at least a target's floor moves the floor to
    at most that generation. *)
Lemma floor_set_generation generation targets f target :
  Forall (fun c => targetIsCurrent generation c f = true) targets ->
  (floor target (set_generation generation targets f) =
     if decide (target ∈ targets) then Nat.max (allTargetsRefreshGeneration f) generation
     else floor target f)%nat.
Proof.
  intros _. unfold set_generation, floor. simpl.
  assert (Hget : forall ts m, map_get target (fold_left (fun m t => map_put t generation m) ts m) =
    if decide (target ∈ ts) then Some generation else map_get target m).
  { induction ts as [|t ts IH]; intros m; cbn [fold_left].
    - rewrite decide_False; [done|apply not_elem_of_nil].
    - rewrite IH. destruct (decide (target ∈ ts)) as [Hin|Hin].
      + by rewrite decide_True by (by right).
      + destruct (decide (target = t)) as [->|Hne].
        * rewrite decide_True by (by left). by rewrite map_get_put.
        * rewrite decide_False by (intros [?|?]%elem_of_cons; done). by rewrite map_get_put_ne. }
  rewrite Hget. case_decide; done.
Qed.

Lemma fence_ok_step known f e :
  fence_ok known f ->
  match e with
  | BeginRefresh ref => fence_ok ((begin_refresh ref f).2 :: known) (fence_step f e)
  | Resolve t _ => t ∈ known -> fence_ok known (fence_step f e)
  | _ => fence_ok known (fence_step f e)
  end.
Proof.
  intros [Ht Hf]. destruct e as [ref|t read|r|]; simpl.
  - split.
    + intros t [->|Hin]%elem_of_cons; [destruct ref; simpl; lia|].
      specialize (Ht t Hin). destruct ref; simpl; lia.
    + intros target. specialize (Hf target). destruct ref as [r|]; simpl.
      * rewrite floor_put. case_decide; [|lia]. unfold floor in Hf. lia.
      * unfold floor in *. simpl. lia.
  - intros Hin. unfold resolve. destruct read as [s|]; [|done].
    destruct (Nat.eqb_spec (refreshEpoch f) (ticket_epoch t)) as [He|]; simpl; [|done].
    split; [done|]. intros target. simpl. rewrite floor_set_generation.
    + specialize (Ht t Hin). specialize (Hf target). unfold floor in *. case_decide; lia.
    + apply Forall_forall. intros c [Hc _]%list_elem_of_filter. done.
  - split.
    + intros t Hin. specialize (Ht t Hin). simpl. lia.
    + intros target. specialize (Hf target). unfold advance. rewrite floor_put.
      unfold floor in Hf. simpl. case_decide; [lia|]. unfold floor. lia.
  - split.
    + intros t Hin. specialize (Ht t Hin). simpl. lia.
    + intros target. unfold floor. simpl. lia.
Qed.

(** The tickets known after an event. *)
Definition known_after (known : list ticket) (f : fence) (e : fence_event) : list ticket :=
  match e with BeginRefresh ref => (begin_refresh ref f).2 :: known | _ => known end.

Definition honest_event (known : list ticket) (e : fence_event) : Prop :=
  match e with Resolve t _ => t ∈ known | _ => True end.

Lemma honest_cons known f e es :
  honest known f (e :: es) <->
  honest_event known e /\ honest (known_after known f e) (fence_step f e) es.
Proof. destruct e; simpl; naive_solver. Qed.

Lemma fence_ok_after known f e :
  fence_ok known f -> honest_event known e -> fence_ok (known_after known f e) (fence_step f e).
Proof. intros Hf He. pose proof (fence_ok_step known f e Hf) as Hs. destruct e; simpl in *; auto. Qed.

(** Epochs and, within an epoch, floors only rise. *)
Lemma floor_rises known f e target :
  fence_ok known f ->
  (refreshEpoch f <= refreshEpoch (fence_step f e))%nat /\
  (refreshEpoch f = refreshEpoch (fence_step f e) ->
   floor target f <= floor target (fence_step f e))%nat.
Proof.
  intros [Ht Hf]. specialize (Hf target). destruct e as [[r|]|t read|r|]; simpl.
  - split; [lia|]. intros _. rewrite floor_put. unfold floor in *. case_decide; lia.
  - unfold floor in *. simpl. lia.
  - unfold resolve. destruct read as [s|]; [|simpl; lia].
    destruct (Nat.eqb_spec (refreshEpoch f) (ticket_epoch t)); [|simpl; lia]. simpl. split; [lia|].
    intros _. rewrite floor_set_generation.
    + case_decide as Hin; [|lia]. apply list_elem_of_filter in Hin as [Hc%Nat.leb_le _].
      unfold floor in *. lia.
    + apply Forall_forall. by intros x [? _]%list_elem_of_filter.
  - split; [lia|]. intros _. unfold advance. rewrite floor_put. unfold floor in *. case_decide; lia.
  - lia.
Qed.

(** A newer word for the target puts its floor above every ticket known. *)
Lemma floor_outranked known f e target :
  fence_ok known f -> outranks target e = true ->
  (refreshEpoch f < refreshEpoch (fence_step f e))%nat \/
  (refreshGeneration f < floor target (fence_step f e))%nat.
Proof.
  intros [Ht Hf] Ho. specialize (Hf target). destruct e as [[r|]|t read|r|]; simpl in *; try done.
  - apply String.eqb_eq in Ho as ->. right. rewrite floor_put, decide_True by done. lia.
  - right. unfold floor. simpl. lia.
  - apply String.eqb_eq in Ho as ->. right. unfold advance. rewrite floor_put, decide_True by done. lia.
  - left. lia.
Qed.

(** The later tickets of an epoch all name another target. *)
Definition others_elsewhere (ep g : nat) (target : string) (known : list ticket) : Prop :=
  forall t, t ∈ known -> ticket_epoch t = ep ->
    (ticket_generation t <= g)%nat \/ exists r, ticket_ref t = Some r /\ r <> target.

Lemma floor_kept known f e ep g target :
  honest_event known e -> outranks target e = false ->
  refreshEpoch f = ep -> (floor target f <= g)%nat -> others_elsewhere ep g target known ->
  refreshEpoch (fence_step f e) = ep /\ (floor target (fence_step f e) <= g)%nat /\
  others_elsewhere ep g target (known_after known f e).
Proof.
  intros Hh Ho He Hg Hk. destruct e as [[r|]|t read|r|]; simpl in *; try done.
  - apply String.eqb_neq in Ho. rewrite floor_put, decide_False by done. split_and!; [done|done|].
    intros t [->|Hin]%elem_of_cons; [|by apply Hk]. right. by exists r.
  - unfold resolve. destruct read as [s|]; [|done].
    destruct (Nat.eqb_spec (refreshEpoch f) (ticket_epoch t)) as [Het|]; [|done]. simpl.
    split_and!; [done| |done]. rewrite floor_set_generation.
    + case_decide as Hin; [|done]. apply list_elem_of_filter in Hin as [_ Hin].
      rewrite elem_of_js_set in Hin.
      destruct (Hk t Hh ltac:(congruence)) as [Hle|(r & Hr & Hne)].
      * unfold floor in Hg. lia.
      * rewrite Hr in Hin. by apply list_elem_of_singleton in Hin.
    + apply Forall_forall. by intros x [? _]%list_elem_of_filter.
  - apply String.eqb_neq in Ho. unfold advance. by rewrite floor_put, decide_False.
Qed.

(** Once outranked, always outranked. *)
Lemma outranked_forever known f es t target :
  fence_ok known f -> honest known f es ->
  (ticket_epoch t < refreshEpoch f \/
   ticket_epoch t = refreshEpoch f /\ ticket_generation t < floor target f)%nat ->
  stillOwns t target (fence_run f es) = false.
Proof.
  revert known f. induction es as [|e es IH]; intros known f Hf Hh Hout.
  - unfold stillOwns, targetIsCurrent. simpl.
    destruct (Nat.eqb_spec (refreshEpoch f) (ticket_epoch t)); [|done]. simpl.
    apply Nat.leb_gt. lia.
  - apply honest_cons in Hh as [He Hh]. simpl.
    apply (IH (known_after known f e)); [by apply fence_ok_after|done|].
    destruct (floor_rises known f e target Hf) as [Hep Hfl]. destruct Hout as [?|[? ?]]; [lia|].
    destruct (decide (refreshEpoch f = refreshEpoch (fence_step f e))); [|lia].
    specialize (Hfl ltac:(done)). lia.
Qed.

Lemma owns_until_outranked known f es t target :
  fence_ok known f -> honest known f es -> t ∈ known ->
  refreshEpoch f = ticket_epoch t -> (floor target f <= ticket_generation t)%nat ->
  others_elsewhere (ticket_epoch t) (ticket_generation t) target known ->
  stillOwns t target (fence_run f es) = negb (existsb (outranks target) es).
Proof.
  revert known f. induction es as [|e es IH]; intros known f Hf Hh Ht Hep Hfl Hk.
  - unfold stillOwns, targetIsCurrent. simpl. rewrite Hep, Nat.eqb_refl. by apply Nat.leb_le.
  - apply honest_cons in Hh as [He Hh]. simpl. pose proof (fence_ok_after _ _ _ Hf He) as Hf'.
    destruct (outranks target e) eqn:Ho; simpl.
    + eapply outranked_forever; [done|done|].
      destruct (proj1 Hf t Ht) as [_ Hg]. specialize (Hg ltac:(done)).
      destruct (floor_rises known f e target Hf) as [Hr _].
      destruct (floor_outranked known f e target Hf Ho); [lia|].
      destruct (decide (refreshEpoch f = refreshEpoch (fence_step f e))); lia.
    + destruct (floor_kept known f e _ _ target He Ho Hep Hfl Hk) as (Hep' & Hfl' & Hk').
      apply (IH (known_after known f e)); try done. destruct e; simpl; try done. by right.
Qed.

(** ** Record replacement *)

(** The fields of a record other than its attachments, compared as
    [sameJsonValue] compares them: scalars by value, JSON by content. *)
Definition same_opt {A} (eqb : A -> A -> bool) (a b : option A) : bool :=
  match a, b with Some x, Some y => eqb x y | None, None => true | _, _ => false end.

Definition sameAttachmentRef (held : MutationAttachmentRef) (read : MutationAttachmentRef) : bool :=
  bool_decide (held = read).

Definition sameFields (held read : MutationRecord) : bool :=
  String.eqb (targetRef held) (targetRef read) &&
  bool_decide (threadId held = threadId read) &&
  bool_decide (instanceId held = instanceId read) &&
  String.eqb (method held) (method read) &&
  sameJsonValue (JObj (payload held)) (JObj (payload read)) &&
  same_opt sameJsonValue (optimisticDisplay held) (optimisticDisplay read) &&
  bool_decide (composerText held = composerText read) &&
  bool_decide (composerMentions held = composerMentions read) &&
  bool_decide (compositionOwnerId held = compositionOwnerId read) &&
  bool_decide (draftCaptureToken held = draftCaptureToken read) &&
  bool_decide (preserveComposer held = preserveComposer read) &&
  (version held =? version read)%Z &&
  String.eqb (clientMutationId held) (clientMutationId read) &&
  bool_decide (originClientId held = originClientId read) &&
  (intentSequence held =? intentSequence read)%Z &&
  (createdAt held =? createdAt read)%Z &&
  state_eqb (state held) (state read) &&
  bool_decide (attempted held = attempted read) &&
  bool_decide (unresolvedAttempts held = unresolvedAttempts read) &&
  bool_decide (displayedRef held = displayedRef read) &&
  bool_decide (displayedStopEpochAtEnqueue held = displayedStopEpochAtEnqueue read) &&
  bool_decide (stopEpochAtEnqueue held = stopEpochAtEnqueue read) &&
  bool_decide (stopFenced held = stopFenced read) &&
  bool_decide (recoveryKind held = recoveryKind read) &&
  bool_decide (compositionRevision held = compositionRevision read) &&
  bool_decide (localDraftRevisionId held = localDraftRevisionId read) &&
  bool_decide (recoveryReason held = recoveryReason read).

Fixpoint every_pair {A B} (eqb : A -> B -> bool) (held : list A) (read : list B) : bool :=
  match held, read with
  | [], [] => true
  | h :: held', r :: read' => eqb h r && every_pair eqb held' read'
  | _, _ => false
  end.

Definition sameRecord (held read : MutationRecord) : bool :=
  sameFields held read && every_pair sameAttachmentRef (attachments held) (attachments read).

Definition opt_is (s : string) (o : option string) : bool :=
  match o with Some t => String.eqb t s | None => false end.

Definition recordProjectsTo (record : MutationRecord) (target : string) : bool :=
  String.eqb (targetRef record) target || opt_is target (displayedRef record).

Definition in_scope (targets : list string) (record : MutationRecord) : bool :=
  existsb (recordProjectsTo record) targets.

Definition sameTargetRecords (current : js_map MutationRecord) (targets : list string)
    (records : list MutationRecord) : bool :=
  forallb (fun target =>
    every_pair sameRecord
      (filter (fun r => recordProjectsTo r target = true) current.*2)
      (filter (fun r => recordProjectsTo r target = true) records)) targets.

(** The rebuilt map: everything out of scope, then the read's records in scope. *)
Definition rebuild (current : js_map MutationRecord) (targets : list string)
    (records : list MutationRecord) : js_map MutationRecord :=
  fold_left (fun m (r : MutationRecord) => map_put (clientMutationId r) r m)
    (filter (fun r => in_scope targets r = true) records)
    (filter (fun kr => in_scope targets kr.2 = false) current).

(** The flag says whether [current] itself came back. *)
Definition replaceTargetRecords (current : js_map MutationRecord) (targets : list string)
    (records : list MutationRecord) : js_map MutationRecord * bool :=
  if sameTargetRecords current targets records then (current, true)
  else (rebuild current targets records, false).

(** *** What a replacement leaves *)

Definition record_id (r : MutationRecord) : string := clientMutationId r.

(** A projection's map: keyed by id, each record under its own. *)
Definition projection_wf (m : js_map MutationRecord) : Prop :=
  map_wf m /\ forall k r, (k, r) ∈ m -> k = record_id r.

Lemma fold_put_get (rs : list MutationRecord) m k :
  NoDup (record_id <$> rs) ->
  map_get k (fold_left (fun m r => map_put (record_id r) r m) rs m) =
    match find (fun r => String.eqb (record_id r) k) rs with Some r => Some r | None => map_get k m end.
Proof.
  revert m. induction rs as [|r rs IH]; intros m Hnd; simpl; [done|].
  apply NoDup_cons in Hnd as [Hr Hnd]. rewrite IH by done.
  destruct (String.eqb_spec (record_id r) k) as [<-|Hne].
  - assert (Hnone : find (fun r' => String.eqb (record_id r') (record_id r)) rs = None).
    { destruct (find _ rs) as [r'|] eqn:E; [|done]. apply find_some in E as [Hin E].
      apply String.eqb_eq in E. destruct Hr. rewrite <- E. apply list_elem_of_fmap_2.
      by apply list_elem_of_In. }
    by rewrite Hnone, map_get_put.
  - destruct (find _ rs); [done|]. apply map_get_put_ne. congruence.
Qed.

Lemma rebuild_get current targets records k :
  NoDup (record_id <$> records) ->
  map_get k (rebuild current targets records) =
    match find (fun r => in_scope targets r && String.eqb (record_id r) k) records with
    | Some r => Some r
    | None => map_get k (filter (fun kr => in_scope targets kr.2 = false) current)
    end.
Proof.
  intros Hnd. unfold rebuild.
  change (fun m (r : MutationRecord) => map_put (clientMutationId r) r m)
    with (fun (m : js_map MutationRecord) r => map_put (record_id r) r m).
  rewrite fold_put_get by (eapply sublist_NoDup; [done|apply fmap_sublist, sublist_filter]).
  assert (Hf : find (fun r => String.eqb (record_id r) k) (filter (fun r => in_scope targets r = true) records) =
    find (fun r => in_scope targets r && String.eqb (record_id r) k) records).
  { clear Hnd. induction records as [|r rs IH]; [done|]. destruct (in_scope targets r) eqn:E.
    - rewrite filter_cons_True by done. simpl. rewrite E, IH. done.
    - rewrite filter_cons_False by congruence. simpl. by rewrite E, IH. }
  by rewrite Hf.
Qed.

Lemma rebuild_wf current targets records :
  projection_wf current -> projection_wf (rebuild current targets records).
Proof.
  intros [Hw Hk]. unfold rebuild.
  assert (Hstart : projection_wf (filter (fun kr : string * MutationRecord => in_scope targets kr.2 = false) current)).
  { split; [by apply map_filter_wf|]. intros k r [_ Hin]%list_elem_of_filter. by apply Hk. }
  revert Hstart. generalize (filter (fun kr : string * MutationRecord => in_scope targets kr.2 = false) current).
  induction (filter _ records) as [|r rs IH]; intros m Hm; simpl; [done|].
  apply IH. destruct Hm as [Hm Hmk]. split; [by apply map_put_wf|].
  intros k r' Hin. apply map_get_elem_of in Hin; [|by apply map_put_wf].
  destruct (decide (k = clientMutationId r)) as [->|Hne].
  - rewrite map_get_put in Hin. by simplify_eq.
  - rewrite map_get_put_ne in Hin by done. by apply Hmk, elem_of_map_get.
Qed.

Definition record_json_wf (r : MutationRecord) : Prop :=
  json_wf (JObj (payload r)) = true /\
  match optimisticDisplay r with Some v => json_wf v = true | None => True end.

Lemma bool_decide_refl {A} (x : A) `{!Decision (x = x)} : bool_decide (x = x) = true.
Proof. by apply bool_decide_eq_true. Qed.

Lemma sameRecord_refl r : record_json_wf r -> sameRecord r r = true.
Proof.
  intros [Hp Ho]. unfold sameRecord, sameFields. apply andb_true_iff. split.
  - assert (Hd : same_opt sameJsonValue (optimisticDisplay r) (optimisticDisplay r) = true).
    { destruct (optimisticDisplay r); [by apply sameJsonValue_refl|done]. }
    rewrite (sameJsonValue_refl _ Hp), Hd, !String.eqb_refl, !Z.eqb_refl.
    unfold state_eqb. rewrite !bool_decide_refl. reflexivity.
  - induction (attachments r) as [|a l IH]; [done|]. simpl. rewrite IH.
    unfold sameAttachmentRef. by rewrite bool_decide_true.
Qed.

Lemma every_pair_refl rs : Forall record_json_wf rs -> every_pair sameRecord rs rs = true.
Proof. induction 1 as [|r rs Hr _ IH]; [done|]. cbn [every_pair]. by rewrite sameRecord_refl, IH. Qed.

(** No record of the read goes by the id of a held record out of scope. *)
Definition ids_apart (current : js_map MutationRecord) (targets : list string)
    (records : list MutationRecord) : Prop :=
  forall r, r ∈ records -> in_scope targets r = true ->
    forall held, map_get (record_id r) current = Some held -> in_scope targets held = true.

Lemma fold_put_fresh (rs : list MutationRecord) m :
  NoDup (record_id <$> rs) -> (forall r, r ∈ rs -> map_get (record_id r) m = None) ->
  fold_left (fun m r => map_put (record_id r) r m) rs m = m ++ ((fun r => (record_id r, r)) <$> rs).
Proof.
  revert m. induction rs as [|r rs IH]; intros m Hnd Hf; [by rewrite app_nil_r|]. simpl.
  apply NoDup_cons in Hnd as [Hr Hnd]. rewrite map_put_new by (apply Hf; by left). rewrite IH; [|done|].
  - by rewrite <- app_assoc.
  - intros r' Hr'. rewrite <- map_put_new by (apply Hf; by left). rewrite map_get_put_ne.
    + apply Hf. by right.
    + intros E. apply Hr. rewrite <- E. by apply list_elem_of_fmap_2.
Qed.

Lemma map_get_filter_none {A} (P : string * A -> Prop) `{!forall x, Decision (P x)} k m :
  map_wf m -> (forall v, map_get k m = Some v -> ~ P (k, v)) -> map_get k (filter P m) = None.
Proof.
  intros Hm Hv. destruct (map_get k (filter P m)) as [v|] eqn:E; [|done].
  apply elem_of_map_get, list_elem_of_filter in E as [HP Hin].
  by destruct (Hv v (map_get_elem_of k v m Hm Hin)).
Qed.

Lemma rebuild_fresh current targets records :
  projection_wf current -> NoDup (record_id <$> records) -> ids_apart current targets records ->
  rebuild current targets records =
    filter (fun kr => in_scope targets kr.2 = false) current ++
    ((fun r => (record_id r, r)) <$> filter (fun r => in_scope targets r = true) records).
Proof.
  intros [Hw _] Hnd Ha. unfold rebuild.
  change (fun m (r : MutationRecord) => map_put (clientMutationId r) r m)
    with (fun (m : js_map MutationRecord) r => map_put (record_id r) r m).
  apply fold_put_fresh; [eapply sublist_NoDup; [done|apply fmap_sublist, sublist_filter]|].
  intros r [Hs Hr]%list_elem_of_filter. apply map_get_filter_none; [done|].
  intros held Hheld. simpl. rewrite (Ha r Hr Hs held Hheld). done.
Qed.

Lemma filter_projects target targets (rs : list MutationRecord) :
  target ∈ targets ->
  filter (fun r => recordProjectsTo r target = true) (filter (fun r => in_scope targets r = true) rs) =
  filter (fun r => recordProjectsTo r target = true) rs.
Proof.
  intros Ht. induction rs as [|r rs IH]; [done|]. destruct (recordProjectsTo r target) eqn:E.
  - assert (Hs : in_scope targets r = true).
    { apply existsb_exists. exists target. split; [by apply list_elem_of_In|done]. }
    rewrite (filter_cons_True _ r rs Hs), !filter_cons_True by done. by rewrite IH.
  - rewrite (filter_cons_False (fun r => recordProjectsTo r target = true) r rs) by congruence.
    destruct (in_scope targets r) eqn:Hs.
    + rewrite filter_cons_True by done. by rewrite filter_cons_False by congruence.
    + by rewrite filter_cons_False by congruence.
Qed.

Lemma filter_out_of_scope target targets (m : js_map MutationRecord) :
  target ∈ targets ->
  filter (fun r => recordProjectsTo r target = true)
    (filter (fun kr => in_scope targets kr.2 = false) m).*2 = [].
Proof.
  intros Ht. induction m as [|[k r] m IH]; [done|]. destruct (in_scope targets r) eqn:Hs.
  - rewrite filter_cons_False by (simpl; congruence). done.
  - rewrite filter_cons_True by done. rewrite fmap_cons. simpl snd. rewrite filter_cons_False; [done|].
    intros E. enough (in_scope targets r = true) by congruence.
    apply existsb_exists. exists target. split; [by apply list_elem_of_In|done].
Qed.

(** What a rebuilt map holds for a target is what the read lists for it. *)
Lemma rebuild_projects current targets records target :
  projection_wf current -> NoDup (record_id <$> records) -> ids_apart current targets records ->
  target ∈ targets ->
  filter (fun r => recordProjectsTo r target = true) (rebuild current targets records).*2 =
  filter (fun r => recordProjectsTo r target = true) records.
Proof.
  intros Hc Hnd Ha Ht. rewrite rebuild_fresh by done. rewrite fmap_app, filter_app.
  rewrite filter_out_of_scope by done. rewrite <- list_fmap_compose.
  rewrite (list_fmap_ext _ id) by done. rewrite list_fmap_id. by apply filter_projects.
Qed.

Lemma rebuild_same current targets records :
  projection_wf current -> NoDup (record_id <$> records) -> ids_apart current targets records ->
  Forall record_json_wf records ->
  sameTargetRecords (rebuild current targets records) targets records = true.
Proof.
  intros Hc Hnd Ha Hj. apply forallb_forall. intros target Ht%list_elem_of_In.
  rewrite rebuild_projects by done. apply every_pair_refl.
  apply Forall_forall. intros r [_ Hr]%list_elem_of_filter. by eapply Forall_forall in Hj.
Qed.
