(* ===== verification/PendingEntries.v ===== *)
(** The pending rows a thread shows (pendingEntries.ts): durable records and the
    daemon's pending projection, reconciled by wire identity. *)

From S2P Require Import Prelude JsString Json JsMap Records Projection.
From stdpp Require Import pretty.

Local Open Scope string_scope.
Local Open Scope list_scope.

(** ** The live model, as far as this module reads it *)

Record ModelItem := mkItem {
  item_type : string;
  item_clientMutationId : option string
}.

Record ModelTurn := mkTurn {
  turn_id : string;
  turn_items : list ModelItem
}.

Record PendingMutation := mkPending {
  pm_clientMutationId : string;
  pm_method : string;
  pm_input : option (list json);
  pm_executionState : string
}.

Record ThreadModel := mkModel {
  runningTurnId : option string;
  turns : list ModelTurn;
  queue_clientMutationIds : option (list string);
  pendingMutations : option (list PendingMutation)
}.

(** ** Entries *)

Inductive PendingTurnState := p_submitting | p_blockedUnknown | p_canceled | p_accepted | p_claimed.
Inductive PendingSource := src_outbox | src_optimistic | src_authoritative.

#[export] Instance ComposerVerb_eq_dec : EqDecision ComposerVerb.
Proof. solve_decision. Defined.

Record PendingTurnEntry := mkEntry {
  entry_id : string;
  entry_ref : string;
  entry_method : ComposerVerb;
  text : string;
  imageCount : nat;
  skillNames : list string;
  commandNames : list string;
  entry_createdAt : option Z;
  entry_state : PendingTurnState;
  source : PendingSource;
  fromThisClient : bool;
  queueEntryId : option string;
  queueRevision : option Z
}.

(** ** Labels *)

(** [s.replace(/\s+/g, " ")]: each run of white space becomes one space. *)
Fixpoint collapse (s : string) : string :=
  match s with
  | EmptyString => EmptyString
  | String c s' =>
      if is_js_space c then
        match s' with
        | String c' _ => if is_js_space c' then collapse s' else String " " (collapse s')
        | EmptyString => String " " EmptyString
        end
      else String c (collapse s')
  end.

Definition normalizeText (s : string) : string := js_trim (collapse s).

Definition imagePlaceholder (count : nat) : string :=
  match count with
  | 0 => ""
  | 1 => "[image]"
  | _ => ("[" ++ pretty (N.of_nat count) ++ " images]")%string
  end.

Definition queueEntryPreviewText (s : string) (images : nat) : string :=
  let normalized := normalizeText s in
  if str_truthy normalized then normalized else imagePlaceholder images.

(** [parts.join(sep)]. *)
Definition join (sep : string) (parts : list string) : string := String.concat sep parts.

Definition skillMarkers (names : list string) : string :=
  join " " (map (fun name => "[skill: " ++ name ++ "]")%string names).

Definition commandMarkers (names : list string) : string :=
  join " " (map (fun name => "[command: " ++ name ++ "]")%string names).

Definition pendingEntryPreview (entry : PendingTurnEntry) : string :=
  join " " (filter (fun part => part <> "")
    [queueEntryPreviewText (text entry) (imageCount entry);
     skillMarkers (skillNames entry); commandMarkers (commandNames entry)]).

Definition DEFAULT_MAX_DISPLAY_LENGTH : nat := 140.

(** The ellipsis is one UTF-16 unit above the model's range; [ellipsis] stands
    for it. *)
Definition truncateForDisplay (ellipsis : string) (s : string) (max : nat) : string :=
  if (String.length s <=? max)%nat then s else (String.substring 0 max s ++ ellipsis)%string.

(** ** Whose input is unsettled *)

Definition is_canceled (s : PendingTurnState) : bool :=
  match s with p_canceled => true | _ => false end.

Definition isOwnUnsettledEntry (entry : PendingTurnEntry) : bool :=
  fromThisClient entry && negb (is_canceled (entry_state entry)).

Definition ownUnsettledInput (entries : option (list PendingTurnEntry)) (methods : list ComposerVerb) : bool :=
  existsb (fun entry => bool_decide (entry_method entry ∈ methods) && isOwnUnsettledEntry entry)
    (default [] entries).

Definition ownPendingSend (entries : option (list PendingTurnEntry)) : bool :=
  ownUnsettledInput entries [verb_send].

Definition ownPendingTurnInput (entries : option (list PendingTurnEntry)) : bool :=
  ownUnsettledInput entries [verb_send; verb_queue].

(** ** Input previews *)

Definition item_field (key : string) (item : json) : option string :=
  match item with JObj o => as_string (obj_get key o) | _ => None end.

Definition item_is (kind : string) (item : json) : bool :=
  match item_field "type" item with Some t => String.eqb t kind | None => false end.

(** [canonicalSkillNames] (composerInput.ts): trimmed, non-blank, first
    occurrences. *)
Definition canonicalSkillNames (names : list string) : list string :=
  js_set (filter (fun name => name <> "") (map js_trim names)).

(** The [key] fields of the items of a type, where they are strings. *)
Definition item_values (kind key : string) (input : list json) : list string :=
  omap (fun item => if item_is kind item then item_field key item else None) input.

Record InputPreview := mkPreview {
  preview_text : string;
  preview_images : nat;
  preview_skills : list string;
  preview_commands : list string
}.

Definition newline : string := String (Ascii.ascii_of_nat 10) "".

Definition inputPreview (input : option (list json)) : InputPreview :=
  let items := default [] input in
  {| preview_text := join newline (item_values "text" "text" items);
     preview_images := length (filter (fun item => item_is "image" item = true) items);
     preview_skills := canonicalSkillNames (item_values "skill" "name" items);
     preview_commands := canonicalSkillNames (item_values "command" "name" items) |}.

Definition outboxInput (record : MutationRecord) : option (list json) :=
  match display_input (optimisticDisplay record) with
  | Some input => Some input
  | None => as_array (obj_get "input" (payload record))
  end.

(** ** Reflected identities *)

Definition item_ids (turn : ModelTurn) : list string :=
  filter (fun i => i <> "") (omap item_clientMutationId (turn_items turn)).

Definition reflectedMutationIds (model : option ThreadModel) : list string :=
  match model with
  | Some m => default [] (queue_clientMutationIds m) ++ concat (map item_ids (turns m))
  | None => []
  end.

(** ** Entries of either source *)

Definition durable_state (s : RecordState) : PendingTurnState :=
  match s with
  | submitting => p_submitting
  | blockedUnknown => p_blockedUnknown
  | canceled => p_canceled
  | superseded | accepted => p_accepted
  end.

Definition outboxEntry (record : MutationRecord) (isOwn : MutationRecord -> bool) :
    option PendingTurnEntry :=
  match composerVerb (method record) with
  | None => None
  | Some verb =>
      if state_eqb (state record) superseded then None
      else
        let preview := inputPreview (outboxInput record) in
        Some {| entry_id := clientMutationId record;
                entry_ref := targetRef record;
                entry_method := verb;
                text := preview_text preview;
                imageCount := preview_images preview;
                skillNames := preview_skills preview;
                commandNames := preview_commands preview;
                entry_createdAt := Some (createdAt record);
                entry_state := durable_state (state record);
                source := if state_eqb (state record) accepted then src_optimistic else src_outbox;
                fromThisClient := isOwn record;
                queueEntryId :=
                  match verb with
                  | verb_promote => as_string (obj_get "expectedEntryId" (payload record))
                  | _ => None
                  end;
                queueRevision :=
                  match verb with
                  | verb_drain => as_number (obj_get "expectedQueueRevision" (payload record))
                  | _ => None
                  end |}
  end.

Definition authoritativeEntry (ref : string) (mutation : PendingMutation) (own : bool)
    (submittedHere : js_map Z) (durableCreatedAt : option Z) : option PendingTurnEntry :=
  match composerVerb (pm_method mutation) with
  | None => None
  | Some verb =>
      let preview := inputPreview (pm_input mutation) in
      Some {| entry_id := pm_clientMutationId mutation;
              entry_ref := ref;
              entry_method := verb;
              text := preview_text preview;
              imageCount := preview_images preview;
              skillNames := preview_skills preview;
              commandNames := preview_commands preview;
              entry_createdAt :=
                match map_get (pm_clientMutationId mutation) submittedHere with
                | Some c => Some c
                | None => durableCreatedAt
                end;
              entry_state := if String.eqb (pm_executionState mutation) "claimed" then p_claimed else p_accepted;
              source := src_authoritative;
              fromThisClient := own;
              queueEntryId := None;
              queueRevision := None |}
  end.

(** ** Reconciliation *)

Definition compare_entries (left right : PendingTurnEntry) : Z :=
  match entry_createdAt left, entry_createdAt right with
  | None, None => 0
  | None, Some _ => 1
  | Some _, None => -1
  | Some l, Some r => l - r
  end.

(** One durable record's turn of the first loop. *)
Definition place_durable (ref : string) (reflected : list string) (isOwn : MutationRecord -> bool)
    (entries : js_map PendingTurnEntry) (record : MutationRecord) : js_map PendingTurnEntry :=
  let wireId := effectiveWireId record in
  if negb (String.eqb (targetRef record) ref) || str_in wireId reflected then entries
  else match outboxEntry record isOwn with
       | Some entry => map_put wireId entry entries
       | None => entries
       end.

(** One pending mutation's turn of the second. *)
Definition place_authoritative (ref : string) (reflected : list string) (submittedHere : js_map Z)
    (entries : js_map PendingTurnEntry) (mutation : PendingMutation) : js_map PendingTurnEntry :=
  let id := pm_clientMutationId mutation in
  if str_in id reflected then entries
  else
    let existing := map_get id entries in
    let own := match existing with Some e => fromThisClient e | None => map_has id submittedHere end in
    match authoritativeEntry ref mutation own submittedHere
            (match existing with Some e => entry_createdAt e | None => None end) with
    | Some entry => map_put (entry_id entry) entry entries
    | None => entries
    end.

Definition reconciled (ref : string) (outbox : list MutationRecord) (model : option ThreadModel)
    (submittedHere : js_map Z) (isOwn : MutationRecord -> bool) : js_map PendingTurnEntry :=
  let reflected := reflectedMutationIds model in
  let durable := fold_left (place_durable ref reflected isOwn) outbox [] in
  let pending := match model with Some m => default [] (pendingMutations m) | None => [] end in
  fold_left (place_authoritative ref reflected submittedHere) pending durable.

Definition reconcilePendingEntries (ref : string) (outbox : list MutationRecord)
    (model : option ThreadModel) (submittedHere : js_map Z) (isOwn : MutationRecord -> bool) :
    list PendingTurnEntry :=
  sort_with compare_entries (reconciled ref outbox model submittedHere isOwn).*2.

(** *** What the reconciliation keeps *)

Section reconcile_facts.
Context (ref : string) (reflected : list string) (isOwn : MutationRecord -> bool)
  (submittedHere : js_map Z).

Lemma outboxEntry_own (record : MutationRecord) entry :
  outboxEntry record isOwn = Some entry ->
  fromThisClient entry = isOwn record /\ composerVerb (method record) = Some (entry_method entry) /\
  entry_state entry = durable_state (state record) /\ state record <> superseded /\
  entry_createdAt entry = Some (createdAt record).
Proof.
  unfold outboxEntry. destruct (composerVerb _) as [v|] eqn:Hv; [|done].
  destruct (state_eqb (state record) superseded) eqn:Hs; [done|]. intros [= <-]. simpl.
  split_and!; try done. intros E. by rewrite E in Hs.
Qed.

Lemma outboxEntry_some (record : MutationRecord) v :
  composerVerb (method record) = Some v -> state record <> superseded ->
  exists entry, outboxEntry record isOwn = Some entry.
Proof.
  intros Hv Hs. unfold outboxEntry. rewrite Hv.
  destruct (state_eqb _ superseded) eqn:E; [|eauto]. by apply bool_decide_eq_true in E.
Qed.

(** Every placed entry is keyed by an unreflected identity, and is this client's
    only on evidence: a durable record of its own, or a submission it made. *)
Definition placed_ok (outbox : list MutationRecord) (m : js_map PendingTurnEntry) : Prop :=
  map_wf m /\
  forall k e, map_get k m = Some e ->
    k ∉ reflected /\
    (fromThisClient e = true ->
      (exists r, r ∈ outbox /\ isOwn r = true /\ effectiveWireId r = k) \/
      map_has k submittedHere = true).

Lemma placed_put outbox m k e :
  placed_ok outbox m -> k ∉ reflected ->
  (fromThisClient e = true ->
    (exists r, r ∈ outbox /\ isOwn r = true /\ effectiveWireId r = k) \/ map_has k submittedHere = true) ->
  placed_ok outbox (map_put k e m).
Proof.
  intros [Hw Hm] Hk He. split; [by apply map_put_wf|]. intros k' e'.
  destruct (decide (k' = k)) as [->|Hne]; [rewrite map_get_put|rewrite map_get_put_ne by done; apply Hm].
  by intros [= <-].
Qed.

Lemma placed_durable outbox m record :
  record ∈ outbox -> placed_ok outbox m -> placed_ok outbox (place_durable ref reflected isOwn m record).
Proof.
  intros Hin Hm. unfold place_durable. destruct (_ || _) eqn:Hc; [done|].
  apply orb_false_iff in Hc as [_ Hc%str_in_false].
  destruct (outboxEntry record isOwn) as [e|] eqn:He; [|done].
  apply placed_put; [done..|]. intros Ho. left. exists record. split_and!; [done| |done].
  apply outboxEntry_own in He as [<- _]. done.
Qed.

Lemma placed_durables outbox records m :
  (forall r, r ∈ records -> r ∈ outbox) -> placed_ok outbox m ->
  placed_ok outbox (fold_left (place_durable ref reflected isOwn) records m).
Proof.
  revert m. induction records as [|r rs IH]; intros m Hr Hm; [done|]. simpl. apply IH.
  - intros r' Hr'. apply Hr. by right.
  - apply placed_durable; [apply Hr; by left|done].
Qed.

Lemma authoritativeEntry_own mutation own c entry :
  authoritativeEntry ref mutation own submittedHere c = Some entry ->
  entry_id entry = pm_clientMutationId mutation /\ fromThisClient entry = own /\
  composerVerb (pm_method mutation) = Some (entry_method entry) /\ is_canceled (entry_state entry) = false.
Proof.
  unfold authoritativeEntry. destruct (composerVerb _) as [v|]; [|done]. intros [= <-]. simpl.
  split_and!; try done. by case_match.
Qed.

Lemma placed_authoritative outbox m mutation :
  placed_ok outbox m -> placed_ok outbox (place_authoritative ref reflected submittedHere m mutation).
Proof.
  intros Hm. unfold place_authoritative. destruct (str_in _ reflected) eqn:Hr; [done|].
  apply str_in_false in Hr. destruct (authoritativeEntry _ _ _ _ _) as [e|] eqn:He; [|done].
  apply authoritativeEntry_own in He as (-> & Ho & _). apply placed_put; [done..|]. rewrite Ho.
  destruct (map_get (pm_clientMutationId mutation) m) as [e'|] eqn:Hg; [|by right].
  by apply (proj2 Hm) in Hg as [_ Hg].
Qed.

Lemma placed_authoritatives outbox pending m :
  placed_ok outbox m ->
  placed_ok outbox (fold_left (place_authoritative ref reflected submittedHere) pending m).
Proof. revert m. induction pending as [|p ps IH]; intros m Hm; [done|]. by apply IH, placed_authoritative. Qed.

(** An unsettled send of this client's, under its wire identity. *)
Definition send_at (k : string) (m : js_map PendingTurnEntry) : Prop :=
  exists e, map_get k m = Some e /\ fromThisClient e = true /\ entry_method e = verb_send /\
    is_canceled (entry_state e) = false.

Lemma send_at_durable k m record :
  effectiveWireId record <> k -> send_at k m -> send_at k (place_durable ref reflected isOwn m record).
Proof.
  intros Hne (e & Hg & He). unfold place_durable. destruct (_ || _); [by exists e|].
  destruct (outboxEntry record isOwn); [|by exists e]. exists e.
  by rewrite map_get_put_ne by congruence.
Qed.

Lemma send_at_durables records m (record : MutationRecord) :
  NoDup (effectiveWireId <$> records) -> record ∈ records ->
  targetRef record = ref -> effectiveWireId record ∉ reflected -> isOwn record = true ->
  composerVerb (method record) = Some verb_send -> state record <> canceled ->
  state record <> superseded ->
  send_at (effectiveWireId record) (fold_left (place_durable ref reflected isOwn) records m).
Proof.
  intros Hnd Hin Href Hr Ho Hv Hc Hs. revert m. induction records as [|r rs IH]; intros m.
  - by apply not_elem_of_nil in Hin.
  - apply NoDup_cons in Hnd as [Hw Hnd]. apply elem_of_cons in Hin as [<-|Hin]; [|by apply IH].
    simpl. clear IH.
    assert (Hstart : send_at (effectiveWireId record) (place_durable ref reflected isOwn m record)).
    { unfold place_durable. rewrite Href, String.eqb_refl. apply str_in_false in Hr. rewrite Hr. simpl.
      destruct (outboxEntry_some record verb_send Hv Hs) as [e He]. rewrite He.
      apply outboxEntry_own in He as (Ho' & Hv' & Hst & _). exists e. rewrite map_get_put.
      split_and!; [done|congruence|congruence|]. rewrite Hst. by destruct (state record). }
    revert Hstart. generalize (place_durable ref reflected isOwn m record).
    induction rs as [|r rs IH]; intros m' Hm'; [done|]. simpl.
    apply not_elem_of_cons in Hw as [Hw1 Hw2]. apply NoDup_cons in Hnd as [_ Hnd].
    apply IH; [done|done|]. apply send_at_durable; [congruence|done].
Qed.

Lemma send_at_authoritatives k pending m :
  (forall p, p ∈ pending -> pm_clientMutationId p = k -> composerVerb (pm_method p) = Some verb_send) ->
  send_at k m -> send_at k (fold_left (place_authoritative ref reflected submittedHere) pending m).
Proof.
  revert m. induction pending as [|p ps IH]; intros m Hp Hm; [done|]. simpl. apply IH.
  { intros p' Hp'. apply Hp. by right. }
  unfold place_authoritative. destruct (str_in _ reflected); [done|].
  destruct Hm as (e & Hg & Ho & Hv & Hc).
  destruct (decide (pm_clientMutationId p = k)) as [E|Hne].
  - subst k. rewrite Hg, Ho. destruct (authoritativeEntry _ _ _ _ _) as [e'|] eqn:He; [|by exists e].
    apply authoritativeEntry_own in He as (-> & Ho' & Hv' & Hc'). exists e'. rewrite map_get_put.
    specialize (Hp p ltac:(by left) eq_refl). split_and!; congruence.
  - destruct (authoritativeEntry _ _ _ _ _) as [e'|] eqn:He; [|by exists e].
    apply authoritativeEntry_own in He as (-> & _). exists e. by rewrite map_get_put_ne by congruence.
Qed.
End reconcile_facts.

Lemma reconciled_ok ref outbox model submittedHere isOwn :
  placed_ok (reflectedMutationIds model) isOwn submittedHere outbox
    (reconciled ref outbox model submittedHere isOwn).
Proof.
  apply placed_authoritatives, placed_durables; [done|]. split; [constructor|done].
Qed.

(** Who is in the reconciled list. *)
Lemma elem_of_reconciled ref outbox model submittedHere isOwn e :
  e ∈ reconcilePendingEntries ref outbox model submittedHere isOwn <->
  exists k, map_get k (reconciled ref outbox model submittedHere isOwn) = Some e.
Proof.
  unfold reconcilePendingEntries. rewrite sort_with_perm, list_elem_of_fmap. split.
  - intros ([k e'] & -> & Hin). exists k. apply map_get_elem_of; [|done]. apply reconciled_ok.
  - intros [k Hk%elem_of_map_get]. by exists (k, e).
Qed.

Lemma ownPendingSend_spec entries :
  ownPendingSend (Some entries) = true <->
  exists e, e ∈ entries /\ entry_method e = verb_send /\ fromThisClient e = true /\
    is_canceled (entry_state e) = false.
Proof.
  unfold ownPendingSend, ownUnsettledInput, isOwnUnsettledEntry. simpl. rewrite existsb_exists.
  setoid_rewrite <- list_elem_of_In. setoid_rewrite andb_true_iff. setoid_rewrite bool_decide_eq_true.
  setoid_rewrite list_elem_of_singleton. setoid_rewrite andb_true_iff. setoid_rewrite negb_true_iff. done.
Qed.
