(* ===== verification/PendingTurns.v ===== *)
(** The pending-turns store (pendingTurns.ts), one submission's lifecycle over it
    (submission.ts) and the live commit feed (commitFeed.ts). *)

From S2P Require Import Prelude JsString Json JsMap Records Projection PendingEntries.

Local Open Scope string_scope.
Local Open Scope list_scope.

(** ** Reads over the live model and the store's maps *)

(** The scan of the running turn: [None] when it already answered false. *)
Fixpoint scan_first_frame (items : list ModelItem) (saw : bool) : bool :=
  match items with
  | [] => saw
  | item :: items' =>
      if String.eqb (item_type item) "userMessage" &&
         match item_clientMutationId item with Some i => str_truthy i | None => false end
      then scan_first_frame items' true
      else if saw && negb (String.eqb (item_type item) "systemMessage") then false
      else scan_first_frame items' saw
  end.

Definition awaitingFirstFrameSend (model : option ThreadModel) : bool :=
  match model with
  | None => false
  | Some m =>
      match find (fun turn => opt_is (turn_id turn) (runningTurnId m)) (turns m) with
      | None => false
      | Some turn => scan_first_frame (turn_items turn) false
      end
  end.

Definition by_sequence (records : list MutationRecord) : list MutationRecord :=
  sort_by (fun r => intentSequence r) records.

Definition recoveryEntries (recovery : js_map MutationRecord) (ref : string) : list MutationRecord :=
  by_sequence (filter (fun r => recordProjectsTo r ref = true) recovery.*2).

Definition outboxEntriesByState (outbox : js_map MutationRecord) (ref : string) (s : RecordState) :
    list MutationRecord :=
  by_sequence (filter (fun r : MutationRecord => String.eqb (targetRef r) ref && state_eqb (state r) s = true)
    outbox.*2).

Definition blockedEntries (outbox : js_map MutationRecord) (ref : string) : list MutationRecord :=
  outboxEntriesByState outbox ref blockedUnknown.

Definition canceledEntries (outbox : js_map MutationRecord) (ref : string) : list MutationRecord :=
  by_sequence (filter (fun r => state_eqb (state r) canceled && recordProjectsTo r ref = true) outbox.*2).

(** ** The store *)

Record PendingTurnsState := mkStore {
  outbox_map : js_map MutationRecord;
  optimistic_map : js_map MutationRecord;
  recovery_map : js_map MutationRecord;
  submittingRefs : list string;
  submittedHere : js_map Z
}.

Definition initial_store : PendingTurnsState := mkStore [] [] [] [] [].

(** A store with the number of times [setState] notified its subscribers. *)
Notation published := (PendingTurnsState * nat)%type.

Definition set_submittedHere (m : js_map Z) (s : PendingTurnsState) : PendingTurnsState :=
  mkStore (outbox_map s) (optimistic_map s) (recovery_map s) (submittingRefs s) m.

Definition set_submittingRefs (refs : list string) (s : PendingTurnsState) : PendingTurnsState :=
  mkStore (outbox_map s) (optimistic_map s) (recovery_map s) refs (submittedHere s).

(** [recordSubmitted]: the entries whose id is unknown, merged in order. *)
Definition recordSubmitted (entries : list (string * Z)) (s : PendingTurnsState) : published :=
  let discovered := filter (fun e => map_has e.1 (submittedHere s) = false) entries in
  match discovered with
  | [] => (s, 0)
  | _ => (set_submittedHere (fold_left (fun m e => map_put e.1 e.2 m) discovered (submittedHere s)) s, 1)
  end.

Definition recordSubmittedHere (isOwn : MutationRecord -> bool) (outbox optimistic : list MutationRecord)
    (s : PendingTurnsState) : published :=
  recordSubmitted
    (map (fun r : MutationRecord => (effectiveWireId r, createdAt r))
       (filter (fun r => isOwn r = true) (outbox ++ optimistic))) s.

Definition recordDirectSend (clientMutationId : string) (createdAt : Z) (s : PendingTurnsState) : published :=
  recordSubmitted [(clientMutationId, createdAt)] s.

Definition projectSnapshot (targets : list string) (snapshot : MutationPersistenceSnapshot)
    (s : PendingTurnsState) : published :=
  let '(outbox, same1) := replaceTargetRecords (outbox_map s) targets (snap_outbox snapshot) in
  let '(optimistic, same2) := replaceTargetRecords (optimistic_map s) targets (snap_optimistic snapshot) in
  let '(recovery, same3) := replaceTargetRecords (recovery_map s) targets (snap_recovery snapshot) in
  if same1 && same2 && same3 then (s, 0)
  else (mkStore outbox optimistic recovery (submittingRefs s) (submittedHere s), 1).

Definition beginSubmission (ref : string) (s : PendingTurnsState) : published * bool :=
  if str_in ref (submittingRefs s) then ((s, 0), false)
  else ((set_submittingRefs (submittingRefs s ++ [ref]) s, 1), true).

Definition endSubmission (ref : string) (s : PendingTurnsState) : published :=
  if negb (str_in ref (submittingRefs s)) then (s, 0)
  else (set_submittingRefs (filter (fun r => r <> ref) (submittingRefs s)) s, 1).

(** *** Drafts *)

(** What the draft port answers for one ref. *)
Record Draft := mkDraft {
  draft_revision : Z;
  draft_text : string;
  draft_skillNames : list string;
  draft_commandNames : option (list string)
}.

Record SubmittedDraft := mkSubmitted {
  draftRevisionAtStart : Z;
  sub_text : string;
  sub_skillNames : list string;
  sub_commandNames : option (list string)
}.

Record DraftSettlement := mkSettlement { cleared : bool; draftUnchanged : bool }.

(** [cleared] is also the draft port's cue: it is cleared exactly then. *)
Definition settleSubmittedDraft (draft : Draft) (submitted : SubmittedDraft) : DraftSettlement :=
  let unchanged := (draft_revision draft =? draftRevisionAtStart submitted)%Z in
  if negb unchanged then mkSettlement false unchanged
  else
    let selectionsUnchanged :=
      every_pair String.eqb (draft_skillNames draft) (sub_skillNames submitted) &&
      every_pair String.eqb (default [] (draft_commandNames draft)) (default [] (sub_commandNames submitted)) in
    if negb (String.eqb (draft_text draft) (sub_text submitted)) || negb selectionsUnchanged
    then mkSettlement false unchanged
    else mkSettlement true unchanged.

Definition pendingTurnEntries (isOwn : MutationRecord -> bool) (model : option ThreadModel)
    (ref : string) (m : option ComposerVerb) (s : PendingTurnsState) : list PendingTurnEntry :=
  filter (fun e => match m with None => true | Some v => bool_decide (entry_method e = v) end = true)
    (reconcilePendingEntries ref ((outbox_map s).*2 ++ (optimistic_map s).*2) model (submittedHere s) isOwn).

(** ** One submission (submission.ts) *)

(** [submitWithPendingTracking] up to [perform]: refused, or under way with the
    epoch it remembers. *)
Definition begin_tracking (ref : string) (f : fence) (s : PendingTurnsState) :
    PendingTurnsState * option nat :=
  let '((s', _), ok) := beginSubmission ref s in
  (s', if ok then Some (refreshEpoch f) else None).

(** The rest, once [perform] has settled: the store, what [onCommitted] is told,
    and whether the caller's promise fulfils. [refresh] runs in every case. *)
Record TrackedOutcome := mkTracked {
  tracked_store : PendingTurnsState;
  committed : option DraftSettlement;
  failed : bool;
  refreshed : string
}.

Definition finish_tracking (ref : string) (epoch : nat) (performed : bool) (f : fence) (draft : Draft)
    (opts : SubmittedDraft) (s : PendingTurnsState) : TrackedOutcome :=
  let current := (epoch =? refreshEpoch f)%nat in
  {| tracked_store := if current then (endSubmission ref s).1 else s;
     committed := if performed && current then Some (settleSubmittedDraft draft opts) else None;
     failed := negb performed;
     refreshed := ref |}.

(** ** The commit feed (commitFeed.ts) *)

Record MutationCommit := mkCommit {
  commit_record : MutationRecord;
  recoveryId : option string
}.

(** The listener [wireMutationCommitFeed] subscribes: the store, the fence and
    the refreshes it asks for. *)
Definition on_commit (isOwn : MutationRecord -> bool) (targetRefs : list string)
    (commit : option MutationCommit) (s : PendingTurnsState) (f : fence) :
    PendingTurnsState * fence * list (option string) :=
  let '(s', f') :=
    match commit with
    | None => (s, f)
    | Some c =>
        let record := commit_record c in
        let f' := advance (targetRef record) f in
        let s1 := (recordSubmittedHere isOwn [record] [] s).1 in
        let recovery := match recoveryId c with
                        | Some id => if str_truthy id then map_del id (recovery_map s1) else recovery_map s1
                        | None => recovery_map s1
                        end in
        (mkStore (map_put (clientMutationId record) record (outbox_map s1)) (optimistic_map s1) recovery
           (submittingRefs s1) (submittedHere s1), f')
    end in
  (s', f', match targetRefs with [] => [None] | _ => map Some targetRefs end).

(** ** Facts *)

Lemma recordSubmitted_known entries s id c :
  map_get id (submittedHere s) = Some c -> map_get id (submittedHere (recordSubmitted entries s).1) = Some c.
Proof.
  intros Hid. unfold recordSubmitted.
  assert (Hd : forall e, e ∈ filter (fun e => map_has e.1 (submittedHere s) = false) entries -> e.1 <> id).
  { intros e [He _]%list_elem_of_filter E. unfold map_has in He. by rewrite E, Hid in He. }
  destruct (filter _ entries) as [|e0 es]; [done|]. simpl.
  assert (Hfold : forall l m, (forall e : string * Z, e ∈ l -> e.1 <> id) ->
    map_get id (fold_left (fun (m : js_map Z) (e : string * Z) => map_put e.1 e.2 m) l m) = map_get id m).
  { induction l as [|e l IH]; intros m Hl; [done|]. simpl. rewrite IH.
    - apply map_get_put_ne. intros E. by apply (Hl e); [left|].
    - intros e' He'. apply Hl. by right. }
  rewrite Hfold by (intros e He; apply Hd; by right). rewrite map_get_put_ne; [done|].
  intros E. by apply (Hd e0); [left|].
Qed.

Lemma recordSubmitted_maps entries s :
  outbox_map (recordSubmitted entries s).1 = outbox_map s /\
  optimistic_map (recordSubmitted entries s).1 = optimistic_map s /\
  recovery_map (recordSubmitted entries s).1 = recovery_map s /\
  submittingRefs (recordSubmitted entries s).1 = submittingRefs s.
Proof. unfold recordSubmitted. by destruct (filter _ _). Qed.

Lemma recordSubmitted_records entries s id c :
  (id, c) ∈ entries -> map_has id (submittedHere (recordSubmitted entries s).1) = true.
Proof.
  intros Hin. destruct (map_get id (submittedHere s)) as [c0|] eqn:Hk.
  { unfold map_has. by rewrite (recordSubmitted_known entries s id c0 Hk). }
  unfold recordSubmitted.
  assert (Hd : (id, c) ∈ filter (fun e => map_has e.1 (submittedHere s) = false) entries).
  { apply list_elem_of_filter. split; [|done]. unfold map_has. simpl. by rewrite Hk. }
  destruct (filter _ entries) as [|e0 es]; [by apply not_elem_of_nil in Hd|].
  change (map_has id (fold_left (fun (m : js_map Z) (e : string * Z) => map_put e.1 e.2 m) (e0 :: es) (submittedHere s)) = true).
  revert Hd. generalize (submittedHere s). generalize (e0 :: es). intros l.
  assert (Hkeep : forall l m, map_has id m = true ->
    map_has id (fold_left (fun (m : js_map Z) (e : string * Z) => map_put e.1 e.2 m) l m) = true).
  { induction l0 as [|e l0 IH]; intros m Hm; [done|]. simpl. apply IH. unfold map_has in *.
    destruct (decide (id = e.1)) as [->|Hne]; [by rewrite map_get_put|by rewrite map_get_put_ne]. }
  induction l as [|e l IH]; intros m Hin'; [by apply not_elem_of_nil in Hin'|]. simpl.
  apply elem_of_cons in Hin' as [<-|Hin']; [|by apply IH].
  apply Hkeep. unfold map_has. by rewrite map_get_put.
Qed.

(** A projection of targets none of which the record belongs to keeps it. *)
Lemma replace_keeps current targets records k r :
  projection_wf current -> NoDup (record_id <$> records) ->
  map_get k current = Some r -> in_scope targets r = false ->
  (forall r', r' ∈ records -> in_scope targets r' = true -> record_id r' <> k) ->
  map_get k (replaceTargetRecords current targets records).1 = Some r.
Proof.
  intros Hc Hnd Hk Hs Hr. unfold replaceTargetRecords. destruct (sameTargetRecords _ _ _); [done|].
  simpl. rewrite rebuild_get by done.
  destruct (find _ records) as [r'|] eqn:E.
  - apply find_some in E as [Hin [Hs' Hid%String.eqb_eq]%andb_prop].
    destruct (Hr r'); [by apply list_elem_of_In|done|done].
  - apply map_get_elem_of; [apply map_filter_wf, Hc|]. apply list_elem_of_filter.
    split; [done|by apply elem_of_map_get].
Qed.
