(* ===== verification/RefreshTheorems.v ===== *)
(** What the projection shows: reads that lost their race, live commits, the
    reconciliation of a thread's pending entries, and a submission's guard. *)

From S2P Require Import Prelude JsString Json JsMap Records Projection PendingEntries.
From S2P Require Import PendingTurns.

Local Open Scope string_scope.
Local Open Scope list_scope.

(** ** Tickets *)

(** The tickets handed out by a history. *)
Fixpoint known_run (known : list ticket) (f : fence) (es : list fence_event) : list ticket :=
  match es with
  | [] => known
  | e :: es' => known_run (known_after known f e) (fence_step f e) es'
  end.

Lemma honest_app known f es es' :
  honest known f (es ++ es') <-> honest known f es /\ honest (known_run known f es) (fence_run f es) es'.
Proof.
  revert known f. induction es as [|e es IH]; intros known f; [simpl; naive_solver|].
  cbn [app]. rewrite !honest_cons, IH. cbn [known_run]. change (fence_run f (e :: es)) with (fence_run (fence_step f e) es).
  naive_solver.
Qed.

Lemma fence_ok_run known f es :
  fence_ok known f -> honest known f es -> fence_ok (known_run known f es) (fence_run f es).
Proof.
  revert known f. induction es as [|e es IH]; intros known f Hf Hh; [done|].
  apply honest_cons in Hh as [He Hh]. cbn [known_run].
  change (fence_run f (e :: es)) with (fence_run (fence_step f e) es).
  apply IH; [by apply fence_ok_after|done].
Qed.

Lemma fence_ok_start : fence_ok [] createMutationProjectionFence.
Proof.
  split; [intros t Ht; by apply not_elem_of_nil in Ht|]. intros target. unfold floor. simpl. lia.
Qed.

Lemma elem_of_apply t candidates f target :
  target ∈ apply t candidates f <-> target ∈ candidates /\ stillOwns t target f = true.
Proof.
  unfold apply, stillOwns. destruct (Nat.eqb_spec (refreshEpoch f) (ticket_epoch t)); simpl.
  - rewrite list_elem_of_filter. naive_solver.
  - split; [intros H; by apply not_elem_of_nil in H|naive_solver].
Qed.

(** A refresh names every target, or one. *)
Definition covers (ref : option string) (target : string) : Prop :=
  match ref with None => True | Some r => r = target end.

Lemma begin_owns known f ref target :
  fence_ok known f -> covers ref target ->
  let '(f', t) := begin_refresh ref f in
  refreshEpoch f' = ticket_epoch t /\ (floor target f' <= ticket_generation t)%nat /\
  others_elsewhere (ticket_epoch t) (ticket_generation t) target (t :: known).
Proof.
  intros [Ht Hf] Hc. specialize (Hf target).
  assert (Ho : others_elsewhere (refreshEpoch f) (S (refreshGeneration f)) target
    ((begin_refresh ref f).2 :: known)).
  { intros t Hin Hep. left. apply elem_of_cons in Hin as [->|Hin]; [destruct ref; simpl; lia|].
    destruct (Ht t Hin) as [_ H]. specialize (H Hep). lia. }
  destruct ref as [r|]; simpl in *; split_and!; try done.
  - subst. rewrite floor_put, decide_True by done. unfold floor in Hf. lia.
  - unfold floor in *. simpl. lia.
Qed.

(** A read projects exactly the targets nothing newer has spoken for: through any
    history of reads, live commits and resets, in which a read comes back only after it
    started, a refresh still applies a target it covers if and only if no read covering
    that target started, no commit to it landed and no reset ran since the refresh
    began. *)
Theorem refresh_applies_until_outranked ref before after candidates target :
  honest [] createMutationProjectionFence (before ++ BeginRefresh ref :: after) ->
  covers ref target -> target ∈ candidates ->
  let f := fence_run createMutationProjectionFence before in
  let t := (begin_refresh ref f).2 in
  target ∈ apply t candidates (fence_run f (BeginRefresh ref :: after)) <->
  existsb (outranks target) after = false.
Proof.
  intros [Hb Ha]%honest_app Hc Hin f t. apply honest_cons in Ha as [_ Ha].
  pose proof (fence_ok_run _ _ _ fence_ok_start Hb) as Hok. fold f in Hok, Ha.
  set (known := known_run _ _ _) in *.
  pose proof (begin_owns known f ref target Hok Hc) as Hown.
  pose proof (fence_ok_after known f (BeginRefresh ref) Hok I) as Hok'.
  rewrite elem_of_apply. change (fence_run f (BeginRefresh ref :: after)) with (fence_run (begin_refresh ref f).1 after).
  cbn [known_after fence_step] in Ha, Hok'. unfold t.
  destruct (begin_refresh ref f) as [f' t']. cbn [fst snd] in *.
  destruct Hown as (He & Hfl & Ho).
  rewrite (owns_until_outranked (t' :: known) f' after t' target Hok' Ha ltac:(by left) He Hfl Ho).
  rewrite negb_true_iff. naive_solver.
Qed.

Lemma refresh_applies_until_outranked_witness :
  let before := [Advance "a"; BeginRefresh (Some "b")] in
  let after := [BeginRefresh (Some "b"); Advance "c"] in
  let f := fence_run createMutationProjectionFence before in
  let t := (begin_refresh None f).2 in
  ("a" ∈ apply t ["a"; "b"] (fence_run f (BeginRefresh None :: after)) <->
   existsb (outranks "a") after = false) /\
  existsb (outranks "a") after = false.
Proof.
  split; [|reflexivity].
  apply (refresh_applies_until_outranked None [Advance "a"; BeginRefresh (Some "b")]
    [BeginRefresh (Some "b"); Advance "c"] ["a"; "b"] "a"); [exact I|exact I|by left].
Defined.

(** A live commit outlives every older read: once the commit feed has shown a
    committed record, no read that started before it - whenever it comes back, whatever
    stale rows it lists - can take the record away or replace it. *)
Theorem commit_outlives_older_reads isOwn refs commit known s f t later candidates snapshot :
  fence_ok known f -> t ∈ known ->
  let r := commit_record commit in
  let '(s1, f1, _) := on_commit isOwn refs (Some commit) s f in
  honest known f1 later ->
  projection_wf (outbox_map s) -> displayedRef r = None ->
  NoDup (record_id <$> snap_outbox snapshot) ->
  (forall r', r' ∈ snap_outbox snapshot -> record_id r' = record_id r ->
     targetRef r' = targetRef r /\ displayedRef r' = None) ->
  let targets := apply t candidates (fence_run f1 later) in
  map_get (record_id r) (outbox_map (projectSnapshot targets snapshot s1).1) = Some r.
Proof.
  intros Hok Ht r. unfold on_commit. fold r. cbv zeta.
  set (s1 := (recordSubmittedHere isOwn [r] [] s).1).
  intros Hh Hw Hd Hnd Hst. set (targets := apply _ _ _).
  assert (Hout : targetRef r ∉ targets).
  { intros [_ Hown]%elem_of_apply.
    pose proof (fence_ok_step known f (Advance (targetRef r)) Hok) as Hok1.
    rewrite (outranked_forever known _ later t (targetRef r)) in Hown; [done|exact Hok1|exact Hh|].
    destruct (proj1 Hok t Ht) as [Hle Hg]. unfold advance. simpl.
    destruct (decide (ticket_epoch t = refreshEpoch f)) as [E|]; [right|left; lia].
    split; [done|]. rewrite floor_put, decide_True by done. specialize (Hg E). lia. }
  assert (Hscope : forall r' : MutationRecord, targetRef r' = targetRef r -> displayedRef r' = None -> in_scope targets r' = false).
  { intros r' E1 E2. unfold in_scope. apply not_true_iff_false. rewrite existsb_exists. intros (x & Hx & Hp).
    unfold recordProjectsTo in Hp. rewrite E2 in Hp. simpl in Hp. rewrite orb_false_r in Hp.
    apply String.eqb_eq in Hp as <-. apply Hout. rewrite <- E1. by apply list_elem_of_In. }
  pose proof (recordSubmitted_maps (map (fun r : MutationRecord => (effectiveWireId r, createdAt r))
    (filter (fun r => isOwn r = true) ([r] ++ []))) s) as (Hm & _).
  assert (Hkeep : map_get (record_id r)
    (replaceTargetRecords (map_put (clientMutationId r) r (outbox_map s1)) targets (snap_outbox snapshot)).1 = Some r).
  { apply replace_keeps; [|done|apply map_get_put|by apply Hscope|].
    - unfold s1, recordSubmittedHere. rewrite Hm. destruct Hw as [Hw Hk]. split; [by apply map_put_wf|].
      intros k r' Hin. apply map_get_elem_of in Hin; [|by apply map_put_wf].
      destruct (decide (k = clientMutationId r)) as [->|Hne].
      + rewrite map_get_put in Hin. by simplify_eq.
      + rewrite map_get_put_ne in Hin by done. by apply Hk, elem_of_map_get.
    - intros r' Hr' Hs Hid. destruct (Hst r' Hr' Hid) as [E1 E2]. rewrite Hscope in Hs by done. done. }
  unfold projectSnapshot. cbn [outbox_map optimistic_map recovery_map].
  destruct (replaceTargetRecords (map_put _ _ _) _ _) as [m same1] eqn:E1.
  destruct (replaceTargetRecords (optimistic_map s1) _ _) as [m2 same2].
  destruct (replaceTargetRecords _ _ (snap_recovery snapshot)) as [m3 same3].
  destruct (same1 && same2 && same3) eqn:Hsame; [|exact Hkeep]. cbn. apply map_get_put.
Qed.

(** ** A concrete record, for the instances *)

Definition sample_intent : MutationIntent :=
  mkIntent "inst/thread-1" (Some "thread-1") None "turn/start"
    [("ref", JStr "inst/thread-1"); ("clientMutationId", JStr "m-1")] [] None (Some "one") None None None None.

Definition sample (st : RecordState) : MutationRecord :=
  mkRecord sample_intent 1 "m-1" (Some "mutation-client-1") 1 1700 st (Some false) None None None
    (Some 0%Z) None None None None None.

Definition empty_snapshot : MutationPersistenceSnapshot := mkSnapshot [] [] [].

(** A read under way when the commit lands lists nothing; the record stays. *)
Lemma commit_outlives_older_reads_witness :
  let t := (begin_refresh None createMutationProjectionFence).2 in
  let f := (begin_refresh None createMutationProjectionFence).1 in
  let '(s1, f1, _) := on_commit (fun _ => true) ["inst/thread-1"]
    (Some (mkCommit (sample submitting) None)) initial_store f in
  map_get "m-1" (outbox_map (projectSnapshot
    (apply t ["inst/thread-1"] (fence_run f1 [Resolve t (Some empty_snapshot)])) empty_snapshot s1).1)
  = Some (sample submitting).
Proof.
  pose proof (commit_outlives_older_reads (fun _ => true) ["inst/thread-1"] (mkCommit (sample submitting) None)
    [(begin_refresh None createMutationProjectionFence).2] initial_store
    (begin_refresh None createMutationProjectionFence).1
    (begin_refresh None createMutationProjectionFence).2
    [Resolve (begin_refresh None createMutationProjectionFence).2 (Some empty_snapshot)]
    ["inst/thread-1"] empty_snapshot) as H.
  apply H; clear H.
  - apply (fence_ok_step [] _ (BeginRefresh None) fence_ok_start).
  - by left.
  - simpl. split; [by left|done].
  - split; [apply NoDup_nil_2|]. intros k r Hin. by apply not_elem_of_nil in Hin.
  - reflexivity.
  - constructor.
  - intros r' Hin. by apply not_elem_of_nil in Hin.
Defined.

(** Showing the same read twice publishes once: after a read's records replaced those
    of its targets, replacing them by the same read again gives back the very map, and
    says so - provided ids are unique in the read and none belongs to a record held for
    a target outside it. *)
Theorem same_read_publishes_nothing current targets records :
  projection_wf current -> NoDup (record_id <$> records) -> ids_apart current targets records ->
  Forall record_json_wf records ->
  let once := (replaceTargetRecords current targets records).1 in
  replaceTargetRecords once targets records = (once, true).
Proof.
  intros Hc Hnd Ha Hj once. unfold once, replaceTargetRecords. clear once.
  destruct (sameTargetRecords current targets records) eqn:E; cbn [fst]; [by rewrite E|].
  by rewrite rebuild_same.
Qed.

Lemma same_read_publishes_nothing_witness :
  let once := (replaceTargetRecords [("m-1", sample submitting)] ["inst/thread-1"] [sample blockedUnknown]).1 in
  once = [("m-1", sample blockedUnknown)] /\
  replaceTargetRecords once ["inst/thread-1"] [sample blockedUnknown] = (once, true).
Proof.
  split; [vm_compute; reflexivity|].
  apply (same_read_publishes_nothing [("m-1", sample submitting)] ["inst/thread-1"] [sample blockedUnknown]).
  - split; [apply NoDup_singleton|]. by intros k r [= -> ->]%list_elem_of_singleton.
  - apply NoDup_singleton.
  - intros r ->%list_elem_of_singleton _ held [= <-]. reflexivity.
  - repeat constructor.
Defined.

(** ** Pending entries *)

(** A send of this client's stays pending until the thread itself shows it: while its
    durable record is neither canceled nor superseded and the live model reflects its
    wire identity nowhere, the thread has an own pending send - before the daemon lists
    it, while the daemon lists it, and whatever else is pending. *)
Theorem own_send_stays_pending ref (outbox : list MutationRecord) model submittedHere
    (isOwn : MutationRecord -> bool) (record : MutationRecord) :
  NoDup (effectiveWireId <$> outbox) -> record ∈ outbox ->
  targetRef record = ref -> isOwn record = true ->
  composerVerb (method record) = Some verb_send ->
  state record <> canceled -> state record <> superseded ->
  effectiveWireId record ∉ reflectedMutationIds model ->
  (forall m p, model = Some m -> p ∈ default [] (pendingMutations m) ->
     pm_clientMutationId p = effectiveWireId record -> composerVerb (pm_method p) = Some verb_send) ->
  ownPendingSend (Some (reconcilePendingEntries ref outbox model submittedHere isOwn)) = true.
Proof.
  intros Hnd Hin Hr Ho Hv Hc Hs Hre Hp. apply ownPendingSend_spec.
  assert (H : send_at (effectiveWireId record) (reconciled ref outbox model submittedHere isOwn)).
  { unfold reconciled. apply send_at_authoritatives.
    - intros p Hpin. destruct model as [m|]; [by apply (Hp m p)|by apply not_elem_of_nil in Hpin].
    - by apply send_at_durables. }
  destruct H as (e & Hg & He1 & He2 & He3). exists e. split_and!; try done.
  apply elem_of_reconciled. by eexists.
Qed.

Lemma own_send_stays_pending_witness :
  let model := mkModel None [] None (Some [mkPending "m-1" "turn/start" None "claimed"]) in
  ownPendingSend (Some (reconcilePendingEntries "inst/thread-1" [sample submitting] (Some model) [] (fun _ => true))) = true.
Proof.
  apply (own_send_stays_pending "inst/thread-1" [sample submitting]
    (Some (mkModel None [] None (Some [mkPending "m-1" "turn/start" None "claimed"]))) [] (fun _ => true) (sample submitting)).
  - apply NoDup_singleton.
  - by left.
  - reflexivity.
  - reflexivity.
  - reflexivity.
  - discriminate.
  - discriminate.
  - apply not_elem_of_nil.
  - intros m p [= <-] Hin _. apply list_elem_of_singleton in Hin as ->. reflexivity.
Defined.

(** Ownership is never guessed: an entry counts as this client's only when one of its
    own durable records carries the identity or the client remembers submitting it, and
    no entry is shown for an identity the thread already reflects. *)
Theorem own_send_has_evidence ref (outbox : list MutationRecord) model submittedHere
    (isOwn : MutationRecord -> bool) :
  ownPendingSend (Some (reconcilePendingEntries ref outbox model submittedHere isOwn)) = true ->
  exists k, k ∉ reflectedMutationIds model /\
    ((exists r : MutationRecord, r ∈ outbox /\ isOwn r = true /\ effectiveWireId r = k) \/
     map_has k submittedHere = true).
Proof.
  intros (e & (k & Hk)%elem_of_reconciled & _ & Ho & _)%ownPendingSend_spec.
  destruct (proj2 (reconciled_ok ref outbox model submittedHere isOwn) k e Hk) as [Hr He].
  exists k. split; [done|by apply He].
Qed.

Lemma own_send_has_evidence_witness :
  ownPendingSend (Some (reconcilePendingEntries "inst/thread-1" [sample submitting] None [] (fun _ => true))) = true /\
  exists k, k ∉ reflectedMutationIds None /\
    ((exists r : MutationRecord, r ∈ [sample submitting] /\ true = true /\ effectiveWireId r = k) \/ map_has k ([] : js_map Z) = true).
Proof.
  assert (H : ownPendingSend (Some (reconcilePendingEntries "inst/thread-1" [sample submitting] None [] (fun _ => true))) = true)
    by (vm_compute; reflexivity).
  split; [exact H|]. exact (own_send_has_evidence "inst/thread-1" [sample submitting] None [] (fun _ => true) H).
Defined.

(** ** One submission *)

(** A submission holds its target exactly while it runs: a second one for the target
    is refused, its end releases that target and no other, and a submission that ends
    after a reset touches neither the store nor the draft of the session that replaced
    its own. *)
Theorem submission_holds_its_target ref s f f' performed draft opts :
  ref ∉ submittingRefs s ->
  let '(s1, epoch) := begin_tracking ref f s in
  epoch = Some (refreshEpoch f) /\
  (begin_tracking ref f s1).2 = None /\
  forall s2 e, epoch = Some e ->
    let out := finish_tracking ref e performed f' draft opts s2 in
    if (refreshEpoch f =? refreshEpoch f')%nat then
      (forall r, r ∈ submittingRefs (tracked_store out) <-> r ∈ submittingRefs s2 /\ r <> ref) /\
      (performed = true -> committed out = Some (settleSubmittedDraft draft opts))
    else tracked_store out = s2 /\ committed out = None.
Proof.
  intros Hn. unfold begin_tracking, beginSubmission. apply str_in_false in Hn. rewrite Hn.
  cbn [submittingRefs set_submittingRefs].
  assert (Hin : str_in ref (submittingRefs s ++ [ref]) = true).
  { apply str_in_spec, elem_of_app. right. by left. }
  rewrite Hin. split_and!; [done|done|]. intros s2 e [= <-].
  destruct (refreshEpoch f =? refreshEpoch f')%nat eqn:E; unfold finish_tracking; rewrite E; cbn [tracked_store committed andb].
  - split; [|by intros ->; rewrite andb_true_r]. intros r. unfold endSubmission.
    destruct (str_in ref (submittingRefs s2)) eqn:Hs; cbn [negb fst submittingRefs set_submittingRefs].
    + rewrite list_elem_of_filter. naive_solver.
    + apply str_in_false in Hs. split; [|naive_solver]. intros Hr. split; [done|]. by intros ->.
  - split; [done|]. by rewrite andb_false_r.
Qed.

Lemma submission_holds_its_target_witness :
  let draft := mkDraft 3 "hello" [] None in
  let opts := mkSubmitted 3 "hello" [] None in
  let '(s1, epoch) := begin_tracking "a" createMutationProjectionFence initial_store in
  epoch = Some (refreshEpoch createMutationProjectionFence) /\
  (begin_tracking "a" createMutationProjectionFence s1).2 = None /\
  forall s2 e, epoch = Some e ->
    let out := finish_tracking "a" e true (reset createMutationProjectionFence) draft opts s2 in
    if (refreshEpoch createMutationProjectionFence =? refreshEpoch (reset createMutationProjectionFence))%nat then
      (forall r, r ∈ submittingRefs (tracked_store out) <-> r ∈ submittingRefs s2 /\ r <> "a") /\
      (true = true -> committed out = Some (settleSubmittedDraft draft opts))
    else tracked_store out = s2 /\ committed out = None.
Proof.
  exact (submission_holds_its_target "a" initial_store createMutationProjectionFence
    (reset createMutationProjectionFence) true (mkDraft 3 "hello" [] None) (mkSubmitted 3 "hello" [] None)
    (not_elem_of_nil "a")).
Defined.
