(* ===== verification/Idb.v ===== *)
(** The browser's IndexedDB as the web outbox uses it (mutationOutboxIndexedDB.ts over
    idbConnection.ts): four object stores, requests inside a transaction, and
    transactions that commit whole or abort.

    A transaction's body is a [tx]: requests in sequence over the state the
    transaction sees, or the error that aborts it. [web] is the adapter around its
    transactions: the committed stores, the faults the storage has in store, one
    entry per transaction, and what the adapter has told its listeners so far. *)

From S2P Require Import Prelude JsString Json Records.
From S2P Require Import Sql.

Local Open Scope string_scope.
Local Open Scope list_scope.

(** ** Records *)

(** A record as a store holds it: MutationRecord with the two fields
    VersionedMutationRecoveryRecord adds. *)
Record WebRecord := mkWebRecord {
  record :> MutationRecord;
  wireDeliveryUncertain : option bool;
  originalWirePayload : option json_object
}.

(** An object literal without the two fields. *)
Definition plain (r : MutationRecord) : WebRecord := mkWebRecord r None None.

(** [{...record, ...}]: a spread keeps every field the update does not name. *)
Definition update_record (f : MutationRecord -> MutationRecord) (r : WebRecord) : WebRecord :=
  mkWebRecord (f r) (wireDeliveryUncertain r) (originalWirePayload r).

(** [{...r, state}]. *)
Definition with_state (s : RecordState) (r : MutationRecord) : MutationRecord :=
  mkRecord (intent r) (version r) (clientMutationId r) (originClientId r) (intentSequence r)
    (createdAt r) s (attempted r) (unresolvedAttempts r) (displayedRef r)
    (displayedStopEpochAtEnqueue r) (stopEpochAtEnqueue r) (stopFenced r)
    (recoveryKind r) (compositionRevision r) (localDraftRevisionId r) (recoveryReason r).

(** [{...r, attempted, unresolvedAttempts}]. *)
Definition with_attempts (a : bool) (u : Z) (r : MutationRecord) : MutationRecord :=
  mkRecord (intent r) (version r) (clientMutationId r) (originClientId r) (intentSequence r)
    (createdAt r) (state r) (Some a) (Some u) (displayedRef r)
    (displayedStopEpochAtEnqueue r) (stopEpochAtEnqueue r) (stopFenced r)
    (recoveryKind r) (compositionRevision r) (localDraftRevisionId r) (recoveryReason r).

(** [{...r, stopEpochAtEnqueue}]. *)
Definition with_epoch (e : Z) (r : MutationRecord) : MutationRecord :=
  mkRecord (intent r) (version r) (clientMutationId r) (originClientId r) (intentSequence r)
    (createdAt r) (state r) (attempted r) (unresolvedAttempts r) (displayedRef r)
    (displayedStopEpochAtEnqueue r) (Some e) (stopFenced r)
    (recoveryKind r) (compositionRevision r) (localDraftRevisionId r) (recoveryReason r).

(** [{...r, stopFenced: true}]. *)
Definition with_fence (r : MutationRecord) : MutationRecord :=
  mkRecord (intent r) (version r) (clientMutationId r) (originClientId r) (intentSequence r)
    (createdAt r) (state r) (attempted r) (unresolvedAttempts r) (displayedRef r)
    (displayedStopEpochAtEnqueue r) (stopEpochAtEnqueue r) (Some true)
    (recoveryKind r) (compositionRevision r) (localDraftRevisionId r) (recoveryReason r).

(** ** Stores *)

Inductive store := outbox | optimistic | recovery.

#[export] Instance store_eq_dec : EqDecision store.
Proof. solve_decision. Defined.

(** A row of the sequence store. *)
Record TargetSequence := mkTargetSequence {
  lastSequence : Z;
  sequenceStopEpoch : option Z
}.

Record WebDb := mkWebDb {
  s_outbox : gmap string WebRecord;
  s_optimistic : gmap string WebRecord;
  s_recovery : gmap string WebRecord;
  s_sequences : gmap string TargetSequence
}.

Definition empty_web : WebDb := mkWebDb ∅ ∅ ∅ ∅.

Definition records (t : store) (d : WebDb) : gmap string WebRecord :=
  match t with outbox => s_outbox d | optimistic => s_optimistic d | recovery => s_recovery d end.

Definition set_records (t : store) (m : gmap string WebRecord) (d : WebDb) : WebDb :=
  match t with
  | outbox => mkWebDb m (s_optimistic d) (s_recovery d) (s_sequences d)
  | optimistic => mkWebDb (s_outbox d) m (s_recovery d) (s_sequences d)
  | recovery => mkWebDb (s_outbox d) (s_optimistic d) m (s_sequences d)
  end.

Definition set_sequence (ref : string) (s : TargetSequence) (d : WebDb) : WebDb :=
  mkWebDb (s_outbox d) (s_optimistic d) (s_recovery d) (<[ref := s]> (s_sequences d)).

(** The stores whose TARGET_SEQUENCE_INDEX is unique. *)
Definition unique_index (t : store) : bool := match t with recovery => false | _ => true end.

(** No other record of the store has the record's target and sequence. *)
Definition index_admits (m : gmap string WebRecord) (r : WebRecord) : bool :=
  bool_decide (map_Forall (fun k (s : WebRecord) =>
    k = clientMutationId r \/ targetRef s <> targetRef r \/ intentSequence s <> intentSequence r) m).

(** ** Transactions *)

Definition tx (A : Type) : Type := WebDb -> (WebDb * A) + js_error.

Definition tx_ret {A} (a : A) : tx A := fun d => inl (d, a).
Definition tx_throw {A} (e : js_error) : tx A := fun _ => inr e.
Definition tx_bind {A B} (p : tx A) (k : A -> tx B) : tx B :=
  fun d => match p d with inl (d', a) => k a d' | inr e => inr e end.

Declare Scope tx_scope.
Delimit Scope tx_scope with tx.
Notation "x ← y ; z" := (tx_bind y (fun x => z))
  (at level 20, y at level 100, z at level 200) : tx_scope.
Notation "y ;; z" := (tx_bind y (fun _ => z))
  (at level 100, z at level 200, right associativity) : tx_scope.
Local Open Scope tx_scope.

(** [objectStore(t).get(id)]. *)
Definition get (t : store) (id : string) : tx (option WebRecord) := fun d => inl (d, records t d !! id).

(** [objectStore(t).getAll()]: every record, in the order of the keys. *)
Definition by_key (a b : string * WebRecord) : Prop := string_le a.1 b.1.
#[export] Instance by_key_dec : RelDecision by_key.
Proof. intros a b. unfold by_key. apply _. Defined.

Definition all_records (m : gmap string WebRecord) : list WebRecord :=
  (merge_sort by_key (map_to_list m)).*2.

Definition getAll (t : store) : tx (list WebRecord) := fun d => inl (d, all_records (records t d)).

Definition CONSTRAINT_ERROR : js_error := Error "ConstraintError".

(** [objectStore(t).put(r)]: insert or replace, which a unique index can refuse. *)
Definition put (t : store) (r : WebRecord) : tx unit := fun d =>
  if negb (unique_index t) || index_admits (records t d) r
  then inl (set_records t (<[clientMutationId r := r]> (records t d)) d, tt)
  else inr CONSTRAINT_ERROR.

(** [objectStore(t).add(r)]: [put], refused when the key is present. *)
Definition add (t : store) (r : WebRecord) : tx unit := fun d =>
  match records t d !! clientMutationId r with
  | Some _ => inr CONSTRAINT_ERROR
  | None => put t r d
  end.

(** [objectStore(t).delete(id)]. *)
Definition erase (t : store) (id : string) : tx unit := fun d =>
  inl (set_records t (delete id (records t d)) d, tt).

(** The sequence store: [get], [getAll] reduced to a lookup, [put]. *)
Definition get_sequence (ref : string) : tx (option TargetSequence) := fun d => inl (d, s_sequences d !! ref).
Definition put_sequence (ref : string) (s : TargetSequence) : tx unit := fun d => inl (set_sequence ref s d, tt).

(** A loop over a list, collecting what each turn reports. *)
Fixpoint collect {A B} (l : list A) (f : A -> tx (list B)) : tx (list B) :=
  match l with
  | [] => tx_ret []
  | x :: l' => r ← f x; rest ← collect l' f; tx_ret (r ++ rest)
  end.

Fixpoint for_all {A} (l : list A) (f : A -> tx unit) : tx unit :=
  match l with
  | [] => tx_ret tt
  | x :: l' => f x ;; for_all l' f
  end.

(** ** The adapter around its transactions *)

(** What the adapter tells its listeners. *)
Inductive notice :=
  | RetiredIds (ids : list string)
  | Settled (ref : string)
  | SupersededDiscarded (ref : string).

(** How the storage fails a transaction: at one of its requests, which aborts the body,
    or at the commit, after the body has run. *)
Inductive fault := FaultRequest (e : js_error) | FaultCommit (e : js_error).

Record WebState := mkWebState {
  committed : WebDb;
  faults : list (option fault);
  notices : list notice
}.

Definition web (A : Type) : Type := WebState -> WebState * (A + js_error).

Definition web_ret {A} (a : A) : web A := fun s => (s, inl a).
Definition web_throw {A} (e : js_error) : web A := fun s => (s, inr e).
Definition web_bind {A B} (p : web A) (k : A -> web B) : web B := fun s =>
  match p s with
  | (s', inl a) => k a s'
  | (s', inr e) => (s', inr e)
  end.

Declare Scope web_scope.
Delimit Scope web_scope with web.
Notation "x ← y ; z" := (web_bind y (fun x => z))
  (at level 20, y at level 100, z at level 200) : web_scope.
Notation "y ;; z" := (web_bind y (fun _ => z))
  (at level 100, z at level 200, right associativity) : web_scope.

Definition tell (n : notice) : web unit := fun s =>
  (mkWebState (committed s) (faults s) (notices s ++ [n]), inl tt).

(** [retiredIdsListener?.(ids)] behind its length guard. *)
Definition tell_retired (ids : list string) : web unit :=
  match ids with [] => web_ret tt | _ => tell (RetiredIds ids) end.

(** [#runTransaction]: the body's writes commit together or not at all. [during] is
    what the body itself tells its listeners, before the commit. *)
Definition transact {A} (during : A -> list notice) (body : tx A) : web A := fun s =>
  let '(f, fs) := match faults s with [] => (None, []) | f :: fs => (f, fs) end in
  match f with
  | Some (FaultRequest e) => (mkWebState (committed s) fs (notices s), inr e)
  | _ =>
      match body (committed s) with
      | inr e => (mkWebState (committed s) fs (notices s), inr e)
      | inl (d, a) =>
          match f with
          | Some (FaultCommit e) => (mkWebState (committed s) fs (notices s ++ during a), inr e)
          | _ => (mkWebState d fs (notices s ++ during a), inl a)
          end
      end
  end.

(** [#write] and [#read]: a read's body changes nothing, so it commits nothing. *)
Definition write {A} (body : tx A) : web A := transact (fun _ => []) body.
Definition read {A} (body : tx A) : web A := write body.

(** [void promise.catch(() => {})]: a failure is left for a later pass. *)
Definition swallow (p : web unit) : web unit := fun s =>
  match p s with (s', inl a) => (s', inl a) | (s', inr _) => (s', inl tt) end.
