(* ===== verification/WebOutbox.v ===== *)
(** The browser's durable outbox: MutationOutboxIndexedDB
    (cmd/evener-hub/frontend/src/stores/mutationOutboxIndexedDB.ts), method by method,
    over the object stores and transactions of Idb.

    Each public method is a [web] program under its own name; the body of its
    transaction, where a name helps, carries the method's name and [_tx]. The private
    helpers keep their names without the hash. *)

From S2P Require Import Prelude JsString Json Sql Records Idb.
From stdpp Require Import pretty.

Local Open Scope string_scope.
Local Open Scope list_scope.
Local Open Scope tx_scope.

(** ** Values *)

(** [delete o[k]], and a property set to undefined. *)
Definition obj_unset (k : string) (o : json_object) : json_object := filter (fun kv => kv.1 <> k) o.

(** [canonicalJson]: keys sorted at every depth. *)
Definition key_before (a b : string * json) : Prop := string_le a.1 b.1.
#[export] Instance key_before_dec : RelDecision key_before.
Proof. intros a b. unfold key_before. apply _. Defined.

Fixpoint canonicalJson (value : json) : json :=
  match value with
  | JArr items => JArr (canonicalJson <$> items)
  | JObj fields => JObj (merge_sort key_before ((fun kv => (kv.1, canonicalJson kv.2)) <$> fields))
  | _ => value
  end.

(** [JSON.stringify(a) === JSON.stringify(b)]: the same text, keys in the same order. *)
Fixpoint same_text (a b : json) : bool :=
  match a, b with
  | JNull, JNull => true
  | JBool x, JBool y => Bool.eqb x y
  | JNum x, JNum y => (x =? y)%Z
  | JStr x, JStr y => String.eqb x y
  | JArr l, JArr r =>
      (fix all2 (l r : list json) : bool :=
         match l, r with
         | [], [] => true
         | x :: l', y :: r' => same_text x y && all2 l' r'
         | _, _ => false
         end) l r
  | JObj l, JObj r =>
      (fix all2 (l r : json_object) : bool :=
         match l, r with
         | [], [] => true
         | (j, x) :: l', (k, y) :: r' => String.eqb j k && same_text x y && all2 l' r'
         | _, _ => false
         end) l r
  | _, _ => false
  end.

Definition sameJsonShape (left right : json) : bool := same_text (canonicalJson left) (canonicalJson right).

(** An attachment as [sameRecoveryComposition] compares it. *)
Definition attachment_shape (a : MutationAttachmentRef) : Z * string * string :=
  (marker a, attachment_name a, mediaType a).

(** [a ?? b]. *)
Definition or_else {A} (a b : option A) : option A := match a with Some _ => a | None => b end.

Definition sameRecoveryComposition (r : MutationRecord) (input : list json) (text : string)
    (mentions : option (list ComposerMention)) (atts : list MutationAttachmentRef) : bool :=
  bool_decide (composerText r = Some text) &&
  same_text (match obj_get "input" (payload r) with None | Some JNull => JArr [] | Some v => v end)
    (JArr input) &&
  bool_decide (default [] (composerMentions r) = default [] mentions) &&
  bool_decide (attachment_shape <$> attachments r = attachment_shape <$> atts).

(** ** The host *)

(** What the injected functions answer during one call: the n-th id minted, the n-th
    presentation id, the clock at the n-th record, and the tab's own identity. *)
Record WebHost := mkWebHost {
  createMutationId : nat -> string;
  createPresentationId : nat -> string;
  now : nat -> Z;
  ownClientId : string
}.

(** ** Record predicates *)

Definition priorUnresolvedAttempts (r : MutationRecord) : Z :=
  match unresolvedAttempts r with
  | Some u => u
  | None => match attempted r with None | Some true => 1 | Some false => 0 end
  end.

Definition in_play (s : RecordState) : bool :=
  match s with submitting | blockedUnknown => true | _ => false end.

Definition isCancelableByStop (r : MutationRecord) : bool :=
  in_play (state r) && bool_decide (attempted r = Some false).

Definition wireIdentityUncertain (r : MutationRecord) (wireId : string) : bool :=
  state_eqb (state r) blockedUnknown || negb (String.eqb wireId (clientMutationId r)).

(** [record.instanceId ?? record.threadId]. *)
Definition fused_identity (r : MutationIntent) : option string := or_else (instanceId r) (threadId r).

(** ** Sequences and epochs *)

Definition epoch_of (ref : string) (d : WebDb) : Z :=
  default 0%Z (s_sequences d !! ref ≫= sequenceStopEpoch).

Definition allocateSequence (ref : string) : tx Z :=
  current ← get_sequence ref;
  let next := (default 0 (lastSequence <$> current) + 1)%Z in
  put_sequence ref (mkTargetSequence next (current ≫= sequenceStopEpoch)) ;;
  tx_ret next.

Definition stopEpochOf (ref : string) : tx Z :=
  row ← get_sequence ref; tx_ret (default 0%Z (row ≫= sequenceStopEpoch)).

Definition bumpStopEpoch (ref : string) : tx unit :=
  current ← get_sequence ref;
  put_sequence ref (mkTargetSequence (default 0%Z (lastSequence <$> current))
    (Some (default 0 (current ≫= sequenceStopEpoch) + 1)%Z)).

Definition ID_ACTIVE (id : string) : js_error :=
  Error ("clientMutationId is already active in the mutation outbox: " ++ id).

Definition assertMutationIdAvailable (id : string) : tx unit :=
  a ← get outbox id;
  b ← get optimistic id;
  c ← get recovery id;
  match a, b, c with
  | None, None, None => tx_ret tt
  | _, _, _ => tx_throw (ID_ACTIVE id)
  end.

(** [#fenceCrossedSinceEnqueue]: [epochs] are readings the caller already took. *)
Definition fenceCrossedSinceEnqueue (r : MutationRecord) (stopEpoch displayedStopEpoch : option Z) : tx bool :=
  stop ← (match stopEpoch with Some e => tx_ret e | None => stopEpochOf (targetRef r) end);
  if (default 0 (stopEpochAtEnqueue r) <? stop)%Z then tx_ret true
  else
    match displayedRef r with
    | None => tx_ret false
    | Some shown =>
        displayed ← (match displayedStopEpoch with Some e => tx_ret e | None => stopEpochOf shown end);
        tx_ret (default 0 (displayedStopEpochAtEnqueue r) <? displayed)%Z
    end.

(** ** Wire families *)

Record WireFamily := mkFamily {
  family_outbox : list WebRecord;
  family_optimistic : list WebRecord;
  family_recovery : list WebRecord
}.

Definition of_wire (wireId : string) (l : list WebRecord) : list WebRecord :=
  filter (fun r : WebRecord => effectiveWireId r = wireId) l.

(** [#resolveWireFamily]: [scope] is the stores the transaction spans. *)
Definition resolveWireFamily (scope : list store) (wireId : string) (readOptimistic readRecovery : bool) :
    tx WireFamily :=
  let read (t : store) (wanted : bool) : tx (list WebRecord) :=
    if wanted && bool_decide (t ∈ scope) then getAll t else tx_ret [] in
  o ← read outbox true;
  p ← read optimistic readOptimistic;
  v ← read recovery readRecovery;
  tx_ret (mkFamily (of_wire wireId o) (of_wire wireId p) (of_wire wireId v)).

(** Deletes every record of a list the guard lets go, and reports its key. *)
Definition retire_from (t : store) (keep : WebRecord -> bool) (l : list WebRecord) : tx (list string) :=
  collect l (fun r =>
    if keep r then tx_ret [] else erase t (clientMutationId r) ;; tx_ret [clientMutationId r]).

Record Sweep := mkSweep {
  excludeKeys : list string;
  sweepOptimistic : bool;
  sweepRecovery : bool;
  onlySuperseded : bool
}.

Definition retireWireFamily (family : WireFamily) (o : Sweep) : tx (list string) :=
  let excluded r := str_in (clientMutationId r) (excludeKeys o) in
  a ← retire_from outbox (fun r => excluded r || (onlySuperseded o && negb (state_eqb (state r) superseded)))
        (family_outbox family);
  b ← (if sweepOptimistic o then retire_from optimistic (fun r => excluded r) (family_optimistic family)
       else tx_ret []);
  c ← (if sweepRecovery o
       then retire_from recovery (fun r => excluded r || negb (settlementRetiresRecovery r)) (family_recovery family)
       else tx_ret []);
  tx_ret (a ++ b ++ c).

Definition retireWireSiblings (scope : list store) (wireId : string) (o : Sweep) : tx (list string) :=
  family ← resolveWireFamily scope wireId (sweepOptimistic o) (sweepRecovery o);
  retireWireFamily family o.

Definition ENQUEUE_STORES : list store := [outbox; optimistic; recovery].

(** ** Enqueue and Stop *)

Definition TARGET_REQUIRED : js_error := Error "targetRef is required".

Definition with_payload (p : json_object) (i : MutationIntent) : MutationIntent :=
  mkIntent (targetRef i) (threadId i) (instanceId i) (method i) p (attachments i)
    (optimisticDisplay i) (composerText i) (composerMentions i) (compositionOwnerId i)
    (draftCaptureToken i) (preserveComposer i).

(** The record literal both enqueues build. *)
Definition newRecord (host : WebHost) (i : MutationIntent) (sequence : Z) (st : RecordState) (stopEpoch : Z) :
    MutationRecord :=
  let id := createMutationId host 0 in
  {| intent := with_payload (obj_set "clientMutationId" (JStr id) (payload i)) i;
     version := 1;
     clientMutationId := id;
     originClientId := Some (ownClientId host);
     intentSequence := sequence;
     createdAt := now host 0;
     state := st;
     attempted := Some false;
     unresolvedAttempts := None;
     displayedRef := None;
     displayedStopEpochAtEnqueue := None;
     stopEpochAtEnqueue := Some stopEpoch;
     stopFenced := None;
     recoveryKind := None;
     compositionRevision := None;
     localDraftRevisionId := None;
     recoveryReason := None |}.

(** [barrier !== undefined && epoch > barrier.stopEpoch]. *)
Definition crossed (barrier : option Z) (epoch : Z) : bool :=
  match barrier with Some b => (b <? epoch)%Z | None => false end.

Definition enqueueIntent_tx (host : WebHost) (i : MutationIntent) (barrier : option Z) : tx MutationRecord :=
  stopEpoch ← stopEpochOf (targetRef i);
  let canceledByBarrier := crossed barrier stopEpoch in
  sequence ← allocateSequence (targetRef i);
  assertMutationIdAvailable (createMutationId host 0) ;;
  let r := newRecord host i sequence (if canceledByBarrier then canceled else submitting) stopEpoch in
  add outbox (plain r) ;;
  tx_ret r.

Definition enqueueIntent (host : WebHost) (i : MutationIntent) (barrier : option Z) : web MutationRecord :=
  if blank (targetRef i) then web_throw TARGET_REQUIRED else write (enqueueIntent_tx host i barrier).

(** [#cancelUnattempted]. *)
Definition stopped_by (ref : string) (r : MutationRecord) : bool :=
  (String.eqb (targetRef r) ref || bool_decide (displayedRef r = Some ref)) && isCancelableByStop r.

Definition cancelUnattempted_rows (ref : string) : tx (list string) :=
  rows ← getAll outbox;
  collect rows (fun r =>
    if stopped_by ref r
    then put outbox (update_record (with_state canceled) r) ;; tx_ret [clientMutationId r]
    else tx_ret []).

Definition enqueueInterruptAndCancel_tx (host : WebHost) (i : MutationIntent) :
    tx (MutationRecord * list string) :=
  retiredIds ← cancelUnattempted_rows (targetRef i);
  bumpStopEpoch (targetRef i) ;;
  sequence ← allocateSequence (targetRef i);
  assertMutationIdAvailable (createMutationId host 0) ;;
  stopEpoch ← stopEpochOf (targetRef i);
  let r := newRecord host i sequence submitting stopEpoch in
  add outbox (plain r) ;;
  tx_ret (r, retiredIds).

Definition enqueueInterruptAndCancel (host : WebHost) (i : MutationIntent) : web MutationRecord :=
  if blank (targetRef i) then web_throw TARGET_REQUIRED
  else (out ← write (enqueueInterruptAndCancel_tx host i);
        tell_retired out.2 ;;
        web_ret out.1)%web.

Definition cancelUnattempted_tx (ref : string) : tx (list string) :=
  canceled ← cancelUnattempted_rows ref;
  bumpStopEpoch ref ;;
  tx_ret canceled.

Definition cancelUnattempted (ref : string) : web (list string) := write (cancelUnattempted_tx ref).

Definition discardCanceled_tx (ref : string) : tx (list string) :=
  rows ← getAll outbox;
  retire_from outbox (fun r => negb (String.eqb (targetRef r) ref && state_eqb (state r) canceled)) rows.

Definition discardCanceled (ref : string) : web (list string) := write (discardCanceled_tx ref).

Definition discardCanceledOfInstance_tx (ref supersededInstanceId : string) : tx (list string) :=
  rows ← getAll outbox;
  retire_from outbox (fun r =>
    negb (String.eqb (targetRef r) ref && state_eqb (state r) canceled &&
          bool_decide (fused_identity r = Some supersededInstanceId))) rows.

Definition discardCanceledOfInstance (ref supersededInstanceId : string) : web (list string) :=
  write (discardCanceledOfInstance_tx ref supersededInstanceId).

(** ** Mints: the one way a parked row's work is queued again *)

(** What [#mintFreshRow]'s caller decided about the fresh row. *)
Record Fresh := mkFresh {
  fresh_stopEpoch : Z;
  fresh_displayedStopEpoch : option Z;
  bornCanceled : bool;
  preserveOriginClientId : bool
}.

(** The row a mint adds: [{...source, ...}] under the key [id], without
    unresolvedAttempts and stopFenced. *)
Definition mintedRecord (host : WebHost) (n : nat) (source : MutationRecord) (fresh : Fresh) (sequence : Z) :
    MutationRecord :=
  let id := createMutationId host n in
  let wire := effectiveWireId source in
  {| intent := with_payload
       (obj_set "clientMutationId" (JStr (if wireIdentityUncertain source wire then wire else id))
          (payload source)) source;
     version := version source;
     clientMutationId := id;
     originClientId := if preserveOriginClientId fresh
                       then or_else (originClientId source) (Some (ownClientId host))
                       else Some (ownClientId host);
     intentSequence := sequence;
     createdAt := now host n;
     state := if bornCanceled fresh then canceled else submitting;
     attempted := Some false;
     unresolvedAttempts := None;
     displayedRef := displayedRef source;
     displayedStopEpochAtEnqueue :=
       match displayedRef source with
       | None => displayedStopEpochAtEnqueue source
       | Some _ => fresh_displayedStopEpoch fresh
       end;
     stopEpochAtEnqueue := Some (fresh_stopEpoch fresh);
     stopFenced := None;
     recoveryKind := recoveryKind source;
     compositionRevision := compositionRevision source;
     localDraftRevisionId := localDraftRevisionId source;
     recoveryReason := recoveryReason source |}.

(** [#mintFreshRow], the call's [n]-th mint: the row and the redundant superseded
    generations of its wire it retired. *)
Definition mintFreshRow (host : WebHost) (n : nat) (source : WebRecord) (fresh : Fresh) :
    tx (WebRecord * list string) :=
  sequence ← allocateSequence (targetRef source);
  assertMutationIdAvailable (createMutationId host n) ;;
  let r := update_record (fun s => mintedRecord host n s fresh sequence) source in
  add outbox r ;;
  retired ← retireWireSiblings ENQUEUE_STORES (effectiveWireId source)
    (mkSweep [clientMutationId source; clientMutationId r] false false true);
  tx_ret (r, retired).

(** [MutationRetryCapture]: the row and the epochs the press read in one snapshot. *)
Record RetryCapture := mkCapture {
  captured : option WebRecord;
  capture_stopEpoch : Z;
  capture_displayedStopEpoch : Z
}.

Definition mintRetryFromRow_tx (host : WebHost) (id : string) (capture : RetryCapture) :
    tx (option WebRecord * list string) :=
  row ← get outbox id;
  match row, captured capture with
  | Some r, Some c =>
      if negb (state_eqb (state r) canceled || state_eqb (state r) blockedUnknown) ||
         negb (String.eqb (targetRef r) (targetRef c)) ||
         negb (bool_decide (fused_identity r = fused_identity c))
      then tx_ret (None, [])
      else
        (if state_eqb (state r) blockedUnknown
         then put outbox (update_record (with_state superseded) r)
         else erase outbox id) ;;
        stopEpoch ← stopEpochOf (targetRef r);
        displayedStopEpoch ← (match displayedRef r with
          | None => tx_ret None
          | Some shown => e ← stopEpochOf shown; tx_ret (Some e)
          end);
        let born := (capture_stopEpoch capture <? stopEpoch)%Z ||
          match displayedStopEpoch with
          | Some e => (capture_displayedStopEpoch capture <? e)%Z
          | None => false
          end in
        minted ← mintFreshRow host 0 r (mkFresh stopEpoch displayedStopEpoch born false);
        tx_ret (Some minted.1, id :: minted.2)
  | _, _ => tx_ret (None, [])
  end.

Definition mintRetryFromRow (host : WebHost) (id : string) (capture : RetryCapture) : web (option WebRecord) :=
  (out ← write (mintRetryFromRow_tx host id capture);
   tell_retired out.2 ;;
   web_ret out.1)%web.

(** ** Attempt evidence *)

Definition markAttempted_tx (id : string) : tx bool :=
  row ← get outbox id;
  match row with
  | None => tx_ret false
  | Some r =>
      if negb (state_eqb (state r) submitting) then tx_ret false
      else
        let unresolved := (priorUnresolvedAttempts r + 1)%Z in
        let evidenced := bool_decide (attempted r = Some true) || (0 <? priorUnresolvedAttempts r)%Z in
        let rolledBack := match unresolvedAttempts r with Some _ => true | None => false end in
        let legacyCapture := match stopEpochAtEnqueue r with None => true | Some _ => false end in
        let provablyUnattempted := bool_decide (attempted r = Some false) && negb rolledBack in
        let uncertainEvidence := evidenced || (legacyCapture && negb provablyUnattempted) in
        if evidenced || rolledBack || legacyCapture then
          stopEpoch ← stopEpochOf (targetRef r);
          displayed ← (match displayedRef r with
            | None => tx_ret None
            | Some shown => e ← stopEpochOf shown; tx_ret (Some e)
            end);
          let capture := if legacyCapture && provablyUnattempted then stopEpoch
                         else default 0%Z (stopEpochAtEnqueue r) in
          fenced ← fenceCrossedSinceEnqueue (with_epoch capture r) (Some stopEpoch) displayed;
          if (fenced : bool) then
            put outbox (update_record (fun s =>
              if uncertainEvidence
              then with_fence (with_epoch capture
                     (with_attempts true (priorUnresolvedAttempts s) (with_state blockedUnknown s)))
              else with_epoch capture (with_attempts false 0 (with_state canceled s))) r) ;;
            tx_ret false
          else
            put outbox (update_record (fun s => with_epoch capture (with_attempts true unresolved s)) r) ;;
            tx_ret true
        else
          put outbox (update_record (with_attempts true unresolved) r) ;;
          tx_ret true
  end.

Definition markAttempted (id : string) : web bool := write (markAttempted_tx id).

Definition unmarkAttempted_tx (id : string) : tx bool :=
  row ← get outbox id;
  match row with
  | None => tx_ret false
  | Some r =>
      let priorAttempts := priorUnresolvedAttempts r in
      match state r with
      | submitting =>
          let unresolved := Z.max 0 (priorAttempts - 1) in
          fenced ← fenceCrossedSinceEnqueue r None None;
          if (fenced : bool) then
            if (0 <? unresolved)%Z then
              put outbox (update_record (fun s =>
                with_fence (with_attempts true unresolved (with_state blockedUnknown s))) r) ;;
              tx_ret false
            else
              put outbox (update_record (fun s => with_attempts false 0 (with_state canceled s)) r) ;;
              tx_ret false
          else
            put outbox (update_record (with_attempts (0 <? unresolved)%Z unresolved) r) ;;
            tx_ret (unresolved =? 0)%Z
      | blockedUnknown =>
          fenced ← fenceCrossedSinceEnqueue r None None;
          if (1 <? priorAttempts)%Z then
            put outbox (update_record (fun s =>
              let counted := mkRecord (intent s) (version s) (clientMutationId s) (originClientId s)
                (intentSequence s) (createdAt s) (state s) (attempted s) (Some (priorAttempts - 1)%Z)
                (displayedRef s) (displayedStopEpochAtEnqueue s) (stopEpochAtEnqueue s) (stopFenced s)
                (recoveryKind s) (compositionRevision s) (localDraftRevisionId s) (recoveryReason s) in
              if (fenced : bool) then with_fence counted else counted) r) ;;
            tx_ret false
          else if (fenced : bool) then
            put outbox (update_record (fun s => with_attempts false 0 (with_state canceled s)) r) ;;
            tx_ret false
          else
            put outbox (update_record (fun s => with_attempts false 0 (with_state submitting s)) r) ;;
            tx_ret true
      | _ => tx_ret false
      end
  end.

Definition unmarkAttempted (id : string) : web bool := write (unmarkAttempted_tx id).

Definition double_quote : string := String (Ascii.ascii_of_nat 34) "".
Definition MARK_UNKNOWN_STATE : js_error :=
  Error ("markUnknown only names " ++ double_quote ++ "blockedUnknown" ++ double_quote).

Definition markUnknown_tx (id : string) (onlyAttempted : bool) : tx bool :=
  row ← get outbox id;
  match row with
  | None => tx_ret false
  | Some r =>
      if onlyAttempted && bool_decide (attempted r = Some false) then tx_ret false
      else
        match state r with
        | canceled | superseded => tx_ret false
        | s =>
            (if state_eqb s blockedUnknown then tx_ret tt
             else put outbox (update_record (with_state blockedUnknown) r)) ;;
            tx_ret true
        end
  end.

Definition markUnknown (id : string) (s : RecordState) (onlyAttempted : bool) : web bool :=
  if negb (state_eqb s blockedUnknown) then web_throw MARK_UNKNOWN_STATE
  else write (markUnknown_tx id onlyAttempted).

(** ** Reconciliation *)

(** [#newerNoteSaveWaiting]. *)
Definition newerNoteSaveWaiting (r : MutationRecord) : tx bool :=
  rows ← getAll outbox;
  tx_ret (existsb (fun c : WebRecord =>
    String.eqb (method c) NOTES_HUMAN_SET && String.eqb (targetRef c) (targetRef r) &&
    (intentSequence r <? intentSequence c)%Z && in_play (state c)) rows).

(** One parked row of the pass, the call's [n]-th mint: what it re-queued, what it
    retired, and whether it minted. The pass reads each displayed ref's epoch once;
    nothing in it moves an epoch. *)
Definition restore_one (host : WebHost) (n : nat) (targetStopEpoch : Z) (r : WebRecord) :
    tx (list WebRecord * list string * bool) :=
  displayedStopEpoch ← (match displayedRef r with
    | None => tx_ret None
    | Some shown => e ← stopEpochOf shown; tx_ret (Some e)
    end);
  fenced ← fenceCrossedSinceEnqueue r (Some targetStopEpoch) displayedStopEpoch;
  if (fenced : bool) then
    if bool_decide (attempted r = Some false) then
      let fenceCanceled := update_record (with_state canceled) r in
      put outbox fenceCanceled ;;
      tx_ret ([fenceCanceled], [clientMutationId r], false)
    else
      put outbox (update_record (fun s => with_fence (with_state blockedUnknown s)) r) ;;
      tx_ret ([], [], false)
  else
    newer ← (if String.eqb (method r) NOTES_HUMAN_SET then newerNoteSaveWaiting r else tx_ret false);
    put outbox (update_record (with_state superseded) r) ;;
    if (newer : bool) then tx_ret ([], [clientMutationId r], false)
    else
      minted ← mintFreshRow host n r (mkFresh targetStopEpoch displayedStopEpoch false true);
      tx_ret ([minted.1], clientMutationId r :: minted.2, true).

Fixpoint restore_loop (host : WebHost) (n : nat) (targetStopEpoch : Z) (rows : list WebRecord) :
    tx (list WebRecord * list string) :=
  match rows with
  | [] => tx_ret ([], [])
  | r :: rows' =>
      out ← restore_one host n targetStopEpoch r;
      rest ← restore_loop host (if out.2 then S n else n) targetStopEpoch rows';
      tx_ret (out.1.1 ++ rest.1, out.1.2 ++ rest.2)
  end.

(** A parked row of the target the read does not name. *)
Definition restorable (ref : string) (authoritativeIds : list string) (r : WebRecord) : bool :=
  String.eqb (targetRef r) ref && state_eqb (state r) blockedUnknown &&
  negb (str_in (clientMutationId r) authoritativeIds).

Definition restoreProvenAbsent_tx (host : WebHost) (ref : string) (authoritativeIds : list string) :
    tx (list WebRecord * list string) :=
  rows ← getAll outbox;
  targetStopEpoch ← stopEpochOf ref;
  restore_loop host 0 targetStopEpoch (filter (fun r => restorable ref authoritativeIds r = true) rows).

Definition restoreProvenAbsent (host : WebHost) (ref : string) (authoritativeIds : list string) :
    web (list WebRecord) :=
  (out ← write (restoreProvenAbsent_tx host ref authoritativeIds);
   tell_retired out.2 ;;
   web_ret out.1)%web.

(** ** Retargeting *)

(** The resumed identity. *)
Record Identity := mkIdentity { to_threadId : option string; to_instanceId : option string }.

(** [move]'s record literal. *)
Definition retargeted (toRef : string) (identity : Identity) (toStopEpoch sequence : Z)
    (r : MutationRecord) : MutationRecord :=
  let p := obj_set "ref" (JStr toRef) (payload r) in
  let p' := if obj_has "expectedInstanceId" (payload r) then
              match or_else (to_instanceId identity) (to_threadId identity) with
              | Some token => obj_set "expectedInstanceId" (JStr token) p
              | None => obj_unset "expectedInstanceId" p
              end
            else p in
  mkRecord
    (mkIntent toRef (to_threadId identity) (to_instanceId identity) (method r) p' (attachments r)
      (optimisticDisplay r) (composerText r) (composerMentions r) (compositionOwnerId r)
      (draftCaptureToken r) (preserveComposer r))
    (version r) (clientMutationId r) (originClientId r) sequence (createdAt r) (state r) (attempted r)
    (unresolvedAttempts r) (displayedRef r) (displayedStopEpochAtEnqueue r)
    (match stopEpochAtEnqueue r with Some _ => Some toStopEpoch | None => None end)
    (stopFenced r) (recoveryKind r) (compositionRevision r) (localDraftRevisionId r) (recoveryReason r).

(** Every record of a list put under consecutive sequences after [last]. *)
Fixpoint move_all (t : store) (toRef : string) (identity : Identity) (toStopEpoch last : Z)
    (l : list WebRecord) : tx (list WebRecord) :=
  match l with
  | [] => tx_ret []
  | r :: l' =>
      let r' := update_record (retargeted toRef identity toStopEpoch (last + 1)) r in
      put t r' ;;
      rest ← move_all t toRef identity toStopEpoch (last + 1) l';
      tx_ret (r' :: rest)
  end.

(** [bySequence(records.filter(...))]. *)
Definition in_order (P : WebRecord -> bool) (l : list WebRecord) : list WebRecord :=
  sort_by (fun r : WebRecord => intentSequence r) (filter (fun r => P r = true) l).

Definition at_ref (ref : string) (r : WebRecord) : bool := String.eqb (targetRef r) ref.

Record RetargetedMutations := mkRetargeted {
  moved_outbox : list WebRecord;
  moved_optimistic : list WebRecord;
  moved_recovery : list WebRecord
}.

Definition retargetOutbox_tx (fromRef toRef : string) (identity : Identity) : tx RetargetedMutations :=
  sequence ← get_sequence toRef;
  let last := default 0%Z (lastSequence <$> sequence) in
  toStopEpoch ← stopEpochOf toRef;
  o ← getAll outbox;
  p ← getAll optimistic;
  v ← getAll recovery;
  let eligibleOutbox := in_order (fun r => at_ref fromRef r && negb (state_eqb (state r) canceled)) o in
  let eligibleOptimistic := in_order (at_ref fromRef) p in
  let eligibleRecovery := in_order (at_ref fromRef) v in
  o' ← move_all outbox toRef identity toStopEpoch last eligibleOutbox;
  let last1 := (last + Z.of_nat (length eligibleOutbox))%Z in
  p' ← move_all optimistic toRef identity toStopEpoch last1 eligibleOptimistic;
  let last2 := (last1 + Z.of_nat (length eligibleOptimistic))%Z in
  v' ← move_all recovery toRef identity toStopEpoch last2 eligibleRecovery;
  let last3 := (last2 + Z.of_nat (length eligibleRecovery))%Z in
  (if (last3 =? last)%Z then tx_ret tt
   else put_sequence toRef (mkTargetSequence last3 (sequence ≫= sequenceStopEpoch))) ;;
  tx_ret (mkRetargeted o' p' v').

Definition retargetOutbox (fromRef toRef : string) (identity : Identity) : web RetargetedMutations :=
  if String.eqb fromRef toRef then web_ret (mkRetargeted [] [] [])
  else write (retargetOutbox_tx fromRef toRef identity).

(** ** Settlement *)

(** [#discardSupersededNoteRecovery]. *)
Definition discardSupersededNoteRecovery (source : MutationRecord) : tx unit :=
  if negb (String.eqb (method source) NOTES_HUMAN_SET) then tx_ret tt
  else
    rows ← getAll recovery;
    retire_from recovery (fun r =>
      negb (String.eqb (method r) NOTES_HUMAN_SET && String.eqb (targetRef r) (targetRef source) &&
            (intentSequence r <? intentSequence source)%Z && settlementRetiresRecovery r)) rows ;;
    tx_ret tt.

(** [#retireOlderBlockedNoteRows]. *)
Definition older_blocked_note (source r : MutationRecord) : bool :=
  String.eqb (method r) NOTES_HUMAN_SET && String.eqb (targetRef r) (targetRef source) &&
  (intentSequence r <? intentSequence source)%Z && state_eqb (state r) blockedUnknown.

Definition retireOlderBlockedNoteRows (source : MutationRecord) : tx (list string) :=
  if negb (String.eqb (method source) NOTES_HUMAN_SET) then tx_ret []
  else
    rows ← getAll outbox;
    collect rows (fun r =>
      if older_blocked_note source r
      then put outbox (update_record (with_state superseded) r) ;; tx_ret [clientMutationId r]
      else tx_ret []).

(** What a settlement found before it wrote: the records under the id, the wire it
    travels under, the wire's other records, and its subject. *)
Record Settling := mkSettling {
  named_outbox : option WebRecord;
  named_optimistic : option WebRecord;
  named_recovery : option WebRecord;
  named : option WebRecord;
  wire : string;
  family : WireFamily;
  wireCarriers : list WebRecord;
  subject : WebRecord
}.

(** The reads both settlements open with; [pick] is the order in which the records
    under the id name the settlement. [None]: nothing to settle. *)
Definition settling (id : string)
    (pick : option WebRecord -> option WebRecord -> option WebRecord -> option WebRecord) :
    tx (option Settling) :=
  outboxRecord ← get outbox id;
  optimisticRecord ← get optimistic id;
  recoveryRecord ← get recovery id;
  let named := pick outboxRecord optimisticRecord recoveryRecord in
  let wireId := match named with Some r => effectiveWireId r | None => id end in
  fam ← resolveWireFamily ENQUEUE_STORES wireId true false;
  let siblings := filter (fun r : WebRecord => clientMutationId r <> id) (family_outbox fam ++ family_optimistic fam) in
  carriers ← (match named, siblings with
    | None, [] =>
        recoveryFamily ← resolveWireFamily ENQUEUE_STORES wireId false true;
        tx_ret (filter (fun r : WebRecord => clientMutationId r <> id /\ settlementRetiresRecovery r = true)
                  (family_recovery recoveryFamily))
    | _, _ => tx_ret []
    end);
  tx_ret (match or_else named (or_else (head siblings) (head carriers)) with
          | Some s => Some (mkSettling outboxRecord optimisticRecord recoveryRecord named wireId fam carriers s)
          | None => None
          end).

Definition erase_when (b : bool) (t : store) (id : string) : tx unit := if b then erase t id else tx_ret tt.
Definition present (o : option WebRecord) : bool := match o with Some _ => true | None => false end.

(** The recovery row under the id retires unless it was edited. *)
Definition retires (o : option WebRecord) : bool :=
  match o with Some r => settlementRetiresRecovery r | None => false end.

(** What a settlement committed: its subject, the wire, and the retired keys. *)
Record SettledOutcome := mkSettled {
  settledSource : WebRecord;
  settledWireId : string;
  settledRetiredIds : list string
}.

Definition sweep_settled (id : string) (s : Settling) (supersededNoteIds : list string) : tx SettledOutcome :=
  retired ← retireWireFamily (family s) (mkSweep [id; clientMutationId (subject s)] true false false);
  tx_ret (mkSettled (subject s) (wire s)
    (retired ++ (if present (named s) then [] else [clientMutationId (subject s)]) ++ supersededNoteIds)).

Definition settleReceipt_tx (id projectionState : string) : tx (option SettledOutcome) :=
  found ← settling id (fun o p v => or_else o (or_else v p));
  match found with
  | None => tx_ret None
  | Some s =>
      discardSupersededNoteRecovery (subject s) ;;
      supersededNoteIds ← retireOlderBlockedNoteRows (subject s);
      let retained := retainsAcceptedCopy (subject s) projectionState in
      (if retained then put optimistic (plain (acceptedRecord (subject s)))
       else erase_when (present (named_optimistic s)) optimistic id) ;;
      (if present (named s) then
         erase_when (present (named_outbox s)) outbox id ;;
         erase_when (retires (named_recovery s)) recovery id
       else
         match wireCarriers s with
         | _ :: _ => erase recovery (clientMutationId (subject s))
         | [] =>
             erase outbox (clientMutationId (subject s)) ;;
             erase_when (negb retained) optimistic (clientMutationId (subject s))
         end) ;;
      out ← sweep_settled id s supersededNoteIds;
      tx_ret (Some out)
  end.

Definition settleApplied_tx (id : string) : tx (option SettledOutcome) :=
  found ← settling id (fun o p v => or_else o (or_else p v));
  match found with
  | None => tx_ret None
  | Some s =>
      discardSupersededNoteRecovery (subject s) ;;
      supersededNoteIds ← retireOlderBlockedNoteRows (subject s);
      (if present (named s) then
         erase_when (present (named_outbox s)) outbox id ;;
         erase_when (present (named_optimistic s)) optimistic id ;;
         erase_when (retires (named_recovery s)) recovery id
       else
         match wireCarriers s with
         | _ :: _ => erase recovery (clientMutationId (subject s))
         | [] =>
             erase outbox (clientMutationId (subject s)) ;;
             erase optimistic (clientMutationId (subject s))
         end) ;;
      out ← sweep_settled id s supersededNoteIds;
      tx_ret (Some out)
  end.

(** [#sweepSettledWireRecoverySiblings]: the transaction spans the recovery store
    alone, and tells the listener before it commits. *)
Definition sweepSettled_tx (wireId : string) (exclude : list string) : tx (list string) :=
  family ← resolveWireFamily [recovery] wireId false true;
  retireWireFamily family (mkSweep exclude false true false).

Definition sweepSettledWireRecoverySiblings (wireId : string) (exclude : list string) : web unit :=
  swallow (
    transact (fun ids => match ids with [] => [] | _ => [RetiredIds ids] end) (sweepSettled_tx wireId exclude) ;;
    web_ret tt)%web.

(** [#discardSupersededCanceledNotesAfterSettle]. *)
Definition superseded_canceled_note (source r : MutationRecord) : bool :=
  String.eqb (method r) NOTES_HUMAN_SET && String.eqb (targetRef r) (targetRef source) &&
  state_eqb (state r) canceled && (intentSequence r <? intentSequence source)%Z.

Definition discardCanceledNotes_tx (source : MutationRecord) : tx (list string) :=
  rows ← getAll outbox;
  retire_from outbox (fun r => negb (superseded_canceled_note source r)) rows.

Definition discardSupersededCanceledNotesAfterSettle (source : MutationRecord) : web unit :=
  if negb (String.eqb (method source) NOTES_HUMAN_SET) then web_ret tt
  else swallow (
    write (discardCanceledNotes_tx source) ;;
    tell (SupersededDiscarded (targetRef source)))%web.

(** After the commit: the listeners hear of the settlement, and the two cleanups it
    initiated run in their own transactions. *)
Definition after_settlement (id : string) (out : SettledOutcome) : web unit :=
  (tell (Settled (targetRef (settledSource out))) ;;
   tell_retired (settledRetiredIds out) ;;
   sweepSettledWireRecoverySiblings (settledWireId out) [id; clientMutationId (settledSource out)] ;;
   discardSupersededCanceledNotesAfterSettle (settledSource out))%web.

(** [settleReceiptResult]: what settled, and the keys it retired. *)
Definition settleReceiptResult (id projectionState : string) : web (bool * list string) :=
  (out ← write (settleReceipt_tx id projectionState);
   match out with
   | None => web_ret (false, [])
   | Some o => after_settlement id o ;; web_ret (true, settledRetiredIds o)
   end)%web.

Definition settleReceipt (id projectionState : string) : web bool :=
  (r ← settleReceiptResult id projectionState; web_ret r.1)%web.

Definition settleAppliedResult (id : string) : web (option SettledOutcome) :=
  (out ← write (settleApplied_tx id);
   match out with
   | None => web_ret None
   | Some o => after_settlement id o ;; web_ret (Some o)
   end)%web.

Definition settleApplied (id : string) : web (option WebRecord) :=
  (out ← settleAppliedResult id; web_ret (settledSource <$> out))%web.

(** ** Recovery *)

(** [record.compositionRevision ?? 0]. *)
Definition revision (r : MutationRecord) : Z := default 0%Z (compositionRevision r).

(** [{...record, recoveryKind, recoveryReason, compositionRevision: 0}], with the
    journaled composition frozen when the wire's delivery is uncertain. *)
Definition recovery_of (r : WebRecord) (kind : MutationRecoveryKind) (reason : option string) (uncertain : bool) :
    WebRecord :=
  mkWebRecord
    (mkRecord (intent r) (version r) (clientMutationId r) (originClientId r) (intentSequence r)
      (createdAt r) (state r) (attempted r) (unresolvedAttempts r) (displayedRef r)
      (displayedStopEpochAtEnqueue r) (stopEpochAtEnqueue r) (stopFenced r)
      (Some kind) (Some 0%Z) (localDraftRevisionId r) reason)
    (if uncertain then Some true else wireDeliveryUncertain r)
    (if uncertain then Some (payload r) else originalWirePayload r).

(** The wire's recovery copy under another key. *)
Definition wire_carrier (id : string) (l : list WebRecord) : option WebRecord :=
  head (filter (fun r : WebRecord => clientMutationId r <> id) l).

(** The transfer itself: the row becomes a recovery and leaves the outbox. *)
Definition transfer_row (r : WebRecord) (kind : MutationRecoveryKind) (reason : option string) (uncertain : bool) :
    tx (option WebRecord) :=
  let moved := recovery_of r kind reason uncertain in
  put recovery moved ;;
  erase outbox (clientMutationId r) ;;
  tx_ret (Some moved).

Definition transferToRecovery_tx (id : string) (kind : MutationRecoveryKind) (reason : option string)
    (uncertain : bool) : tx (option WebRecord) :=
  row ← get outbox id;
  match row with
  | None => tx_ret None
  | Some r =>
      if String.eqb (method r) NOTES_HUMAN_SET then transfer_row r kind reason uncertain
      else
        existing ← get recovery id;
        if match existing with Some e => (0 <? revision e)%Z | None => false end then tx_ret None
        else
          family ← resolveWireFamily [outbox; recovery] (effectiveWireId r) false true;
          match wire_carrier id (family_recovery family) with
          | Some copy => erase outbox id ;; tx_ret (Some copy)
          | None => transfer_row r kind reason uncertain
          end
  end.

Definition transferToRecovery (id : string) (kind : MutationRecoveryKind) (reason : option string)
    (uncertain : option bool) : web (option WebRecord) :=
  write (transferToRecovery_tx id kind reason (default false uncertain)).

(** A recovery whose composition a pane has edited; note saves are never edited. *)
Definition edited_composition (o : option WebRecord) : bool :=
  match o with
  | Some e => negb (String.eqb (method e) NOTES_HUMAN_SET) && (0 <? revision e)%Z
  | None => false
  end.

Definition editQueuedMessage_tx (expected : MutationRecord) (barrier : Z) : tx (option WebRecord) :=
  row ← get outbox (clientMutationId expected);
  match row with
  | None => tx_ret None
  | Some r =>
      if negb (matchesQueuedMessageSnapshot r expected) || negb (canEditQueuedMessage r) then tx_ret None
      else
        epoch ← stopEpochOf (targetRef r);
        if negb (epoch =? barrier)%Z then tx_ret None
        else
          existing ← get recovery (clientMutationId r);
          if edited_composition existing then tx_ret None
          else
            family ← resolveWireFamily [outbox; recovery] (effectiveWireId r) false true;
            let carrier := wire_carrier (clientMutationId r) (family_recovery family) in
            if edited_composition carrier then tx_ret None
            else
              let moved := recovery_of r editing (recoveryReason r)
                (wireIdentityUncertain r (effectiveWireId r)) in
              put recovery moved ;;
              erase outbox (clientMutationId r) ;;
              (match carrier with Some c => erase recovery (clientMutationId c) | None => tx_ret tt end) ;;
              tx_ret (Some moved)
  end.

Definition editQueuedMessage (expected : MutationRecord) (barrier : Z) : web (option WebRecord) :=
  write (editQueuedMessage_tx expected barrier).

Definition removeQueuedMessage_tx (expected : MutationRecord) (barrier : Z) : tx (option (list string)) :=
  row ← get outbox (clientMutationId expected);
  match row with
  | None => tx_ret None
  | Some r =>
      if negb (matchesQueuedMessageSnapshot r expected) || negb (canRemoveQueuedMessage r) then tx_ret None
      else
        epoch ← stopEpochOf (targetRef r);
        if negb (epoch =? barrier)%Z then tx_ret None
        else
          retired ← retireWireSiblings [outbox; recovery] (effectiveWireId r)
            (mkSweep [clientMutationId r] false true false);
          erase outbox (clientMutationId r) ;;
          tx_ret (Some (retired ++ [clientMutationId r]))
  end.

Definition removeQueuedMessage (expected : MutationRecord) (barrier : Z) : web bool :=
  (out ← write (removeQueuedMessage_tx expected barrier);
   match out with
   | None => web_ret false
   | Some ids => tell_retired ids ;; web_ret true
   end)%web.

(** *** Edits of a recovery row *)

(** What a pane hands [updateRecoveryInput]. *)
Record RecoveryUpdate := mkUpdate {
  update_input : list json;
  update_attachments : option (list MutationAttachmentRef);
  update_composerText : option string;
  update_composerMentions : option (list ComposerMention);
  consumeRecoveryIds : list string;
  update_localDraftRevisionId : option string;
  expectedCompositionRevision : option Z;
  expectedRecoveryRevisions : option (list (string * Z));
  update_compositionOwnerId : option string
}.

Definition lookup_revision (id : string) (l : list (string * Z)) : option Z :=
  snd <$> list_find (fun kv => kv.1 = id) l ≫= fun iv => Some iv.2.

(** [expected]: the supplied map, or the owner's scalar alone. *)
Definition expected_revision (id owner : string) (u : RecoveryUpdate) : option Z :=
  match expectedRecoveryRevisions u with
  | Some l => lookup_revision id l
  | None => if String.eqb id owner then expectedCompositionRevision u else None
  end.

(** [{...display, input}] of an object display (an array spreads its indexes);
    [{method, input}] of any other. *)
Definition display_with_input (m : string) (display : option json) (input : list json) : json :=
  match display with
  | Some (JObj o) => JObj (obj_set "input" (JArr input) o)
  | Some (JArr l) => JObj (imap (fun k v => (pretty (N.of_nat k), v)) l ++ [("input", JArr input)])
  | _ => JObj [("method", JStr m); ("input", JArr input)]
  end.

Definition updated_recovery (u : RecoveryUpdate) (r : MutationRecord) : MutationRecord :=
  mkRecord
    (mkIntent (targetRef r) (threadId r) (instanceId r) (method r)
      (obj_set "input" (JArr (update_input u)) (payload r))
      (default (attachments r) (update_attachments u))
      (Some (display_with_input (method r) (optimisticDisplay r) (update_input u)))
      (or_else (update_composerText u) (composerText r))
      (match update_composerText u with
       | None => or_else (update_composerMentions u) (composerMentions r)
       | Some _ => update_composerMentions u
       end)
      (or_else (update_compositionOwnerId u) (compositionOwnerId r))
      (draftCaptureToken r) (preserveComposer r))
    (version r) (clientMutationId r) (originClientId r) (intentSequence r) (createdAt r) (state r)
    (attempted r) (unresolvedAttempts r) (displayedRef r) (displayedStopEpochAtEnqueue r)
    (stopEpochAtEnqueue r) (stopFenced r) (recoveryKind r) (Some (revision r + 1)%Z)
    (or_else (update_localDraftRevisionId u) (localDraftRevisionId r)) (recoveryReason r).

(** The sources an update consumes, [None] when one is gone, foreign or stale. *)
Fixpoint consumed_sources (ref : string) (expected : string -> option Z) (ids : list string) :
    tx (option (list WebRecord)) :=
  match ids with
  | [] => tx_ret (Some [])
  | id :: ids' =>
      source ← get recovery id;
      match source with
      | None => tx_ret None
      | Some s =>
          if negb (String.eqb (targetRef s) ref) || negb (bool_decide (expected id = Some (revision s)))
          then tx_ret None
          else
            rest ← consumed_sources ref expected ids';
            tx_ret ((fun l => s :: l) <$> rest)
      end
  end.

(** The wires of consumed recoveries, swept once each, from the outbox. *)
Definition sweep_wires (scope : list store) (exclude : list string) (wires : list string) : tx (list string) :=
  collect (js_set wires) (fun w => retireWireSiblings scope w (mkSweep exclude false false false)).

Definition updateRecoveryInput_tx (id : string) (u : RecoveryUpdate) : tx (option (WebRecord * list string)) :=
  row ← get recovery id;
  match row with
  | None => tx_ret None
  | Some r =>
      let sources := filter (fun s => s <> id) (js_set (consumeRecoveryIds u)) in
      let expected s := expected_revision s id u in
      if negb (bool_decide (expected id = Some (revision r))) then tx_ret None
      else
        consumed ← consumed_sources (targetRef r) expected sources;
        match consumed with
        | None => tx_ret None
        | Some consumedSources =>
            let next := update_record (updated_recovery u) r in
            put recovery next ;;
            retired ← sweep_wires [recovery; outbox] (id :: sources)
              ((fun s : WebRecord => effectiveWireId s) <$> consumedSources);
            for_all sources (erase recovery) ;;
            tx_ret (Some (next, retired))
        end
  end.

Definition updateRecoveryInput (id : string) (u : RecoveryUpdate) : web (option WebRecord) :=
  (out ← write (updateRecoveryInput_tx id u);
   match out with
   | None => web_ret None
   | Some o => tell_retired o.2 ;; web_ret (Some o.1)
   end)%web.

(** The record [preserveRecoveryComposition] mints for a composition whose row a peer
    took over. *)
Definition preservedRecord (host : WebHost) (base : MutationRecord) (input : list json)
    (atts : list MutationAttachmentRef) (text : string) (mentions : option (list ComposerMention))
    (owner draft : option string) (sequence stopEpoch : Z) : MutationRecord :=
  let id := createMutationId host 0 in
  {| intent := mkIntent (targetRef base) (threadId base) (instanceId base) (method base)
       (obj_set "clientMutationId" (JStr id) (obj_set "input" (JArr input)
         (obj_set "ref" (JStr (targetRef base)) (payload base))))
       atts (Some (JObj [("method", JStr (method base)); ("input", JArr input)]))
       (Some text) mentions (or_else owner (compositionOwnerId base)) None None;
     version := 1;
     clientMutationId := id;
     originClientId := Some (ownClientId host);
     intentSequence := sequence;
     createdAt := now host 0;
     state := submitting;
     attempted := Some false;
     unresolvedAttempts := Some 0%Z;
     displayedRef := displayedRef base;
     displayedStopEpochAtEnqueue := None;
     stopEpochAtEnqueue := Some stopEpoch;
     stopFenced := None;
     recoveryKind := Some rejected;
     compositionRevision := Some 0%Z;
     localDraftRevisionId := draft;
     recoveryReason := recoveryReason base |}.

Definition preserveRecoveryComposition_tx (host : WebHost) (base : MutationRecord) (input : list json)
    (atts : list MutationAttachmentRef) (text : string) (mentions : option (list ComposerMention))
    (owner draft : option string) : tx WebRecord :=
  stale ← get recovery (clientMutationId base);
  let mint : tx WebRecord :=
    sequence ← allocateSequence (targetRef base);
    assertMutationIdAvailable (createMutationId host 0) ;;
    stopEpoch ← stopEpochOf (targetRef base);
    let r := plain (preservedRecord host base input atts text mentions owner draft sequence stopEpoch) in
    put recovery r ;;
    tx_ret r in
  match stale with
  | Some s => if sameRecoveryComposition s input text mentions atts then tx_ret s else mint
  | None => mint
  end.

Definition preserveRecoveryComposition (host : WebHost) (base : MutationRecord) (input : list json)
    (atts : list MutationAttachmentRef) (text : string) (mentions : option (list ComposerMention))
    (owner draft : option string) : web WebRecord :=
  write (preserveRecoveryComposition_tx host base input atts text mentions owner draft).

(** [shouldDiscard] is what the callback answers at the deletion boundary. *)
Definition discardRecovery_tx (id : string) (shouldDiscard : bool) (expected : option Z) :
    tx (option (list string)) :=
  row ← get recovery id;
  match row with
  | None => tx_ret None
  | Some r =>
      if match expected with Some e => negb (revision r =? e)%Z | None => false end || negb shouldDiscard
      then tx_ret None
      else
        retired ← retireWireSiblings [recovery; outbox] (effectiveWireId r) (mkSweep [id] false false false);
        erase recovery id ;;
        tx_ret (Some retired)
  end.

Definition discardRecovery (id : string) (shouldDiscard : bool) (expected : option Z) : web bool :=
  (out ← write (discardRecovery_tx id shouldDiscard expected);
   match out with
   | None => web_ret false
   | Some ids => tell_retired ids ;; web_ret true
   end)%web.

(** *** Resends *)

Inductive ResendResult :=
  | Sent (r : WebRecord) (retiredIds : list string)
  | Consumed
  | Refused.

(** What the loop over the sources gathers. *)
Record Gathered := mkGathered {
  g_consumed : bool;
  g_refused : bool;
  g_wires : list string;
  g_uncertain : list string;
  g_originals : list (string * option json_object)
}.

(** The caller's word on what it is resending. *)
Record Resend := mkResend {
  resend_intent : MutationIntent;
  resend_barrier : option Z;
  resend_revisions : option (list (string * Z));
  resend_owner : option string;
  (** the displayed session: its Stop epoch at the press, and its ref *)
  resend_displayed : option (Z * string)
}.

(** Whether one source refuses the resend. *)
Definition source_refuses (x : Resend) (id : string) (r : WebRecord) : bool :=
  let expected := match resend_revisions x with None => Some (revision r) | Some l => lookup_revision id l end in
  let sameOwner := match resend_owner x with
                   | Some o => bool_decide (compositionOwnerId r = Some o)
                   | None => false
                   end in
  negb (String.eqb (targetRef r) (targetRef (resend_intent x))) ||
  match expected with
  | None => true
  | Some e => negb (revision r =? e)%Z && negb sameOwner
  end.

Fixpoint gather (x : Resend) (ids : list string) (g : Gathered) : tx Gathered :=
  match ids with
  | [] => tx_ret g
  | id :: ids' =>
      source ← get recovery id;
      match source with
      | None => gather x ids' (mkGathered true (g_refused g) (g_wires g) (g_uncertain g) (g_originals g))
      | Some r =>
          let w := effectiveWireId r in
          gather x ids' (mkGathered (g_consumed g) (g_refused g || source_refuses x id r)
            (g_wires g ++ [w])
            (if bool_decide (wireDeliveryUncertain r = Some true) then g_uncertain g ++ [w] else g_uncertain g)
            (g_originals g ++ [(method r, originalWirePayload r)]))
      end
  end.

(** [uncertainReplay]: the original method and wire id, when the resend is the very
    composition one delivery-uncertain wire journaled. *)
Definition uncertain_replay (g : Gathered) (p : json_object) : option (string * string) :=
  let strip (o : json_object) : json := JObj (obj_unset "clientMutationId" o) in
  match js_set (g_wires g), g_originals g with
  | [w], (m, _) :: _ =>
      if forallb (fun o : string * option json_object =>
           match o.2 with Some frozen => sameJsonShape (strip p) (strip frozen) | None => false end) (g_originals g) &&
         str_in w (g_uncertain g) &&
         forallb (fun o : string * option json_object => String.eqb o.1 m) (g_originals g)
      then Some (m, w) else None
  | _, _ => None
  end.

Definition with_presentations (host : WebHost) (l : list MutationAttachmentRef) : list MutationAttachmentRef :=
  imap (fun k a => mkAttachmentRef (createPresentationId host k) (marker a) (attachment_name a) (mediaType a)) l.

(** The resend's record literal. *)
Definition resentRecord (host : WebHost) (x : Resend) (replay : option (string * string))
    (sequence stopEpoch displayedStopEpoch : Z) : MutationRecord :=
  let i := resend_intent x in
  let id := createMutationId host 0 in
  {| intent := mkIntent (targetRef i) (threadId i) (instanceId i)
       (match replay with Some (m, _) => m | None => method i end)
       (obj_set "clientMutationId" (JStr (match replay with Some (_, w) => w | None => id end)) (payload i))
       (with_presentations host (attachments i)) (optimisticDisplay i) (composerText i) (composerMentions i)
       (compositionOwnerId i) (draftCaptureToken i) (preserveComposer i);
     version := 1;
     clientMutationId := id;
     originClientId := Some (ownClientId host);
     intentSequence := sequence;
     createdAt := now host 0;
     state := if crossed (resend_barrier x) stopEpoch || crossed (fst <$> resend_displayed x) displayedStopEpoch
              then canceled else submitting;
     attempted := Some false;
     unresolvedAttempts := None;
     displayedRef := snd <$> resend_displayed x;
     displayedStopEpochAtEnqueue := match resend_displayed x with Some _ => Some displayedStopEpoch | None => None end;
     stopEpochAtEnqueue := Some stopEpoch;
     stopFenced := None;
     recoveryKind := None;
     compositionRevision := None;
     localDraftRevisionId := None;
     recoveryReason := None |}.

Definition resendRecovery_tx (host : WebHost) (sourceIds : list string) (x : Resend) : tx ResendResult :=
  let i := resend_intent x in
  let ids := js_set sourceIds in
  match ids with
  | [] => tx_ret Refused
  | _ =>
      g ← gather x ids (mkGathered false false [] [] []);
      if g_refused g then tx_ret Refused
      else if g_consumed g then tx_ret Consumed
      else
        sequence ← allocateSequence (targetRef i);
        assertMutationIdAvailable (createMutationId host 0) ;;
        stopEpoch ← stopEpochOf (targetRef i);
        displayedStopEpoch ← (match resend_displayed x with
          | None => tx_ret 0%Z
          | Some (_, shown) => if String.eqb shown (targetRef i) then tx_ret stopEpoch else stopEpochOf shown
          end);
        let r := plain (resentRecord host x (uncertain_replay g (payload i)) sequence stopEpoch displayedStopEpoch) in
        add outbox r ;;
        retired ← sweep_wires ENQUEUE_STORES (createMutationId host 0 :: ids) (g_wires g);
        for_all ids (erase recovery) ;;
        tx_ret (Sent r retired)
  end.

Definition resendRecoveryResult (host : WebHost) (sourceIds : list string) (x : Resend) : web ResendResult :=
  if blank (targetRef (resend_intent x)) then web_throw TARGET_REQUIRED
  else write (resendRecovery_tx host sourceIds x).

Definition resendRecovery (host : WebHost) (sourceIds : list string) (x : Resend) : web (option WebRecord) :=
  (r ← resendRecoveryResult host sourceIds x;
   web_ret (match r with Sent s _ => Some s | _ => None end))%web.

(** ** Reads *)

Definition list_store (t : store) (P : WebRecord -> bool) : tx (list WebRecord) :=
  rows ← getAll t; tx_ret (in_order P rows).

Definition at_target (ref : option string) (r : WebRecord) : bool :=
  match ref with None => true | Some x => at_ref x r end.
Definition shown_at (ref : string) (r : WebRecord) : bool := bool_decide (displayedRef r = Some ref).

Definition listOutbox_tx (ref : option string) : tx (list WebRecord) := list_store outbox (at_target ref).
Definition readStopEpoch (ref : string) : web Z := read (stopEpochOf ref).
Definition getOutbox (id : string) : web (option WebRecord) := read (get outbox id).
Definition getOptimistic (id : string) : web (option WebRecord) := read (get optimistic id).
Definition getRecovery (id : string) : web (option WebRecord) := read (get recovery id).
Definition listOutbox (ref : option string) : web (list WebRecord) := read (listOutbox_tx ref).
Definition listOutboxDisplayedAt (ref : string) : web (list WebRecord) := read (list_store outbox (shown_at ref)).
Definition listOptimistic (ref : option string) : web (list WebRecord) := read (list_store optimistic (at_target ref)).
Definition listRecovery (ref : option string) : web (list WebRecord) := read (list_store recovery (at_target ref)).
Definition listRecoveryDisplayedAt (ref : string) : web (list WebRecord) := read (list_store recovery (shown_at ref)).

Definition listTargetRefs : web (list string) :=
  (o ← listOutbox None;
   p ← listOptimistic None;
   web_ret (sort_strings (js_set ((fun r : WebRecord => targetRef r) <$> (o ++ p)))))%web.

(** [#rowWithStopEpoch]. *)
Definition rowWithStopEpoch (t : store) (id : string) (displayedRefOf : option WebRecord -> option string) :
    web RetryCapture :=
  read (
    row ← get t id;
    stopEpoch ← (match row with Some r => stopEpochOf (targetRef r) | None => tx_ret 0%Z end);
    displayedStopEpoch ← (match displayedRefOf row with
      | Some shown => if str_truthy shown then stopEpochOf shown else tx_ret 0%Z
      | None => tx_ret 0%Z
      end);
    tx_ret (mkCapture row stopEpoch displayedStopEpoch)).

Definition getOutboxWithStopEpoch (id : string) : web RetryCapture :=
  rowWithStopEpoch outbox id (fun row => row ≫= fun r : WebRecord => displayedRef r).
Definition getRecoveryWithStopEpoch (id : string) (displayed : option string) : web RetryCapture :=
  rowWithStopEpoch recovery id (fun _ => displayed).

(** The first submitting row of the target before one of unknown fate that no Stop
    fenced. *)
Fixpoint first_dispatchable (l : list WebRecord) : option WebRecord :=
  match l with
  | [] => None
  | r :: l' =>
      match state r with
      | submitting => Some r
      | blockedUnknown => if bool_decide (stopFenced r = Some true) then first_dispatchable l' else None
      | _ => first_dispatchable l'
      end
  end.

Definition nextDispatchable (ref : string) : web (option WebRecord) :=
  (rows ← listOutbox (Some ref); web_ret (first_dispatchable rows))%web.
