(* ===== verification/WebFacts.v ===== *)
(** Reasoning about the web outbox: what each request and loop of a transaction does to
    the stores, the well-formedness invariant, and the order between two states that
    keeps it. *)

From S2P Require Import Prelude JsString Json Sql Records Idb WebOutbox.

Local Open Scope string_scope.
Local Open Scope list_scope.
Local Open Scope tx_scope.

(** ** Stores *)

Lemma records_set t t' m d : records t (set_records t' m d) = if decide (t = t') then m else records t d.
Proof. by destruct t, t'. Qed.

Lemma records_set_eq t m d : records t (set_records t m d) = m.
Proof. by destruct t. Qed.

Lemma records_set_ne t t' m d : t <> t' -> records t (set_records t' m d) = records t d.
Proof. by destruct t, t'. Qed.

Lemma sequences_set t m d : s_sequences (set_records t m d) = s_sequences d.
Proof. by destruct t. Qed.

Lemma set_records_same t d : set_records t (records t d) d = d.
Proof. by destruct t, d. Qed.

Lemma set_records_twice t m m' d : set_records t m (set_records t m' d) = set_records t m d.
Proof. by destruct t. Qed.

Lemma records_sequence t ref s d : records t (set_sequence ref s d) = records t d.
Proof. by destruct t. Qed.

Lemma elem_of_all_records (m : gmap string WebRecord) r :
  r ∈ all_records m <-> exists id, m !! id = Some r.
Proof.
  unfold all_records. rewrite merge_sort_Permutation, list_elem_of_fmap. split.
  - intros ([id r'] & -> & Hr%elem_of_map_to_list). eauto.
  - intros [id Hr]. exists (id, r). split; [done|by apply elem_of_map_to_list].
Qed.

(** The key of every record of a store is its clientMutationId. *)
Definition keyed (m : gmap string WebRecord) : Prop :=
  forall id (r : WebRecord), m !! id = Some r -> clientMutationId r = id.

Notation rid := (fun r : WebRecord => clientMutationId r).

Lemma all_records_nodup m : keyed m -> NoDup (rid <$> all_records m).
Proof.
  intros Hk. unfold all_records. rewrite merge_sort_Permutation, <- list_fmap_compose.
  assert (Hall : forall i (r : WebRecord), (i, r) ∈ map_to_list m -> clientMutationId r = i)
    by (intros ?? H%elem_of_map_to_list; by apply Hk).
  pose proof (NoDup_fst_map_to_list m) as Hnd.
  replace ((rid ∘ snd) <$> map_to_list m) with ((map_to_list m).*1); [done|].
  apply list_fmap_ext. intros k [i r] Hkr. simpl. symmetry. apply Hall. by eapply list_elem_of_lookup_2.
Qed.

(** ** Equations of the requests *)

Lemma bind_ok {A B} (p : tx A) (k : A -> tx B) d d' a : p d = inl (d', a) -> tx_bind p k d = k a d'.
Proof. unfold tx_bind. by intros ->. Qed.

Lemma stopEpochOf_eq ref d : stopEpochOf ref d = inl (d, epoch_of ref d).
Proof. done. Qed.

Definition last_of (ref : string) (d : WebDb) : Z := default 0%Z (lastSequence <$> s_sequences d !! ref).

(** The sequence row one allocation leaves. *)
Definition allocated (ref : string) (d : WebDb) : WebDb :=
  set_sequence ref (mkTargetSequence (last_of ref d + 1) (s_sequences d !! ref ≫= sequenceStopEpoch)) d.

Lemma allocateSequence_eq ref d : allocateSequence ref d = inl (allocated ref d, (last_of ref d + 1)%Z).
Proof. done. Qed.

Definition bumped (ref : string) (d : WebDb) : WebDb :=
  set_sequence ref (mkTargetSequence (last_of ref d) (Some (epoch_of ref d + 1)%Z)) d.

Lemma bumpStopEpoch_eq ref d : bumpStopEpoch ref d = inl (bumped ref d, tt).
Proof. done. Qed.

Lemma epoch_allocated ref ref' d : epoch_of ref' (allocated ref d) = epoch_of ref' d.
Proof.
  unfold epoch_of, allocated. simpl. destruct (decide (ref = ref')) as [<-|Hne];
    [by rewrite lookup_insert_eq|by rewrite lookup_insert_ne].
Qed.

Lemma epoch_set t m ref d : epoch_of ref (set_records t m d) = epoch_of ref d.
Proof. unfold epoch_of. by rewrite sequences_set. Qed.

Lemma epoch_bumped ref ref' d :
  epoch_of ref' (bumped ref d) = (epoch_of ref' d + if decide (ref = ref') then 1 else 0)%Z.
Proof.
  unfold bumped, epoch_of at 1. simpl. case_decide as E; [subst; by rewrite lookup_insert_eq|].
  rewrite lookup_insert_ne by done. unfold epoch_of. lia.
Qed.

Lemma last_allocated ref ref' d :
  last_of ref' (allocated ref d) = (last_of ref' d + if decide (ref = ref') then 1 else 0)%Z.
Proof.
  unfold allocated, last_of at 1. simpl. case_decide as E; [subst; by rewrite lookup_insert_eq|].
  rewrite lookup_insert_ne by done. unfold last_of. lia.
Qed.

Lemma last_bumped ref ref' d : last_of ref' (bumped ref d) = last_of ref' d.
Proof.
  unfold bumped, last_of. simpl. destruct (decide (ref = ref')) as [<-|Hne];
    [by rewrite lookup_insert_eq|by rewrite lookup_insert_ne].
Qed.

Lemma last_set t m ref d : last_of ref (set_records t m d) = last_of ref d.
Proof. unfold last_of. by rewrite sequences_set. Qed.

Lemma assert_available d id :
  (forall t, records t d !! id = None) -> assertMutationIdAvailable id d = inl (d, tt).
Proof.
  intros Hn. unfold assertMutationIdAvailable, tx_bind, get.
  by rewrite (Hn outbox), (Hn optimistic), (Hn recovery).
Qed.

Lemma assert_active d id t : is_Some (records t d !! id) -> assertMutationIdAvailable id d = inr (ID_ACTIVE id).
Proof.
  intros [r Hr]. unfold assertMutationIdAvailable, tx_bind, get.
  destruct t; simpl in *; rewrite Hr; repeat case_match; done.
Qed.

(** ** Weakest preconditions

    [wp M p Q d]: run at [d], the transaction ends in [Q], or it is refused because
    an id of [M] it was to mint is already in use. *)

Section wp.
Context (M : string -> Prop).

Definition refused (e : js_error) : Prop := exists id, M id /\ e = ID_ACTIVE id.

Definition wp {A} (p : tx A) (Q : A -> WebDb -> Prop) (d : WebDb) : Prop :=
  match p d with inl (d', a) => Q a d' | inr e => refused e end.

Lemma wp_tx_ret {A} (a : A) (Q : A -> WebDb -> Prop) d : Q a d -> wp (tx_ret a) Q d.
Proof. done. Qed.

Lemma wp_tx_bind {A B} (p : tx A) (k : A -> tx B) Q d : wp p (fun a => wp (k a) Q) d -> wp (tx_bind p k) Q d.
Proof. unfold wp, tx_bind. destruct (p d) as [[d' a]|e]; done. Qed.

Lemma wp_assoc {A B C} (p : tx A) (q : A -> tx B) (k : B -> tx C) Q d :
  wp (tx_bind (tx_bind p q) k) Q d -> wp (tx_bind p (fun a => tx_bind (q a) k)) Q d.
Proof. unfold wp, tx_bind. by destruct (p d) as [[d' a]|e]. Qed.

Lemma wp_tx_mono {A} (p : tx A) (Q R : A -> WebDb -> Prop) d : (forall a d', Q a d' -> R a d') -> wp p Q d -> wp p R d.
Proof. unfold wp. intros HQR. destruct (p d) as [[d' a]|e]; auto. Qed.

Lemma wp_ok {A} (p : tx A) (Q : A -> WebDb -> Prop) d d' a : p d = inl (d', a) -> Q a d' -> wp p Q d.
Proof. unfold wp. by intros ->. Qed.

Lemma wp_assert id (Q : unit -> WebDb -> Prop) d :
  M id -> ((forall t, records t d !! id = None) -> Q tt d) -> wp (assertMutationIdAvailable id) Q d.
Proof.
  intros Hid HQ. unfold wp.
  assert (Hr : refused (ID_ACTIVE id)) by (by exists id).
  destruct (assertMutationIdAvailable id d) as [[d' []]|e] eqn:E;
    unfold assertMutationIdAvailable, tx_bind, get, tx_ret, tx_throw in E; simpl in E; repeat case_match; simplify_eq;
    try done; apply HQ; by intros [].
Qed.

(** A loop keeps an invariant that may mention the turns still to come. *)
Lemma wp_collect {A B} (f : A -> tx (list B)) (I : list A -> WebDb -> Prop) l d :
  (forall x l' d', I (x :: l') d' -> wp (f x) (fun _ => I l') d') ->
  I l d -> wp (collect l f) (fun _ => I []) d.
Proof.
  intros Hf. revert d. induction l as [|x l IH]; intros d Hi; [done|].
  simpl. apply wp_tx_bind. eapply wp_tx_mono, Hf, Hi. intros out d' Hd'.
  apply wp_tx_bind. eapply wp_tx_mono, IH, Hd'. done.
Qed.

Lemma wp_for_all {A} (f : A -> tx unit) (I : WebDb -> Prop) l d :
  (forall x d', I d' -> wp (f x) (fun _ => I) d') -> I d -> wp (for_all l f) (fun _ => I) d.
Proof.
  intros Hf. revert d. induction l as [|x l IH]; intros d Hi; [done|].
  simpl. apply wp_tx_bind. eapply wp_tx_mono, Hf, Hi. intros a d' Hd'. by apply IH.
Qed.
End wp.

(** Requests that only read, and the writes that cannot fail, step by computation. *)
Ltac tx_step :=
  cbv beta zeta;
  lazymatch goal with
  | |- wp _ (tx_ret _) _ _ => apply wp_tx_ret
  | |- wp _ (tx_bind (tx_ret _) _) _ _ => apply wp_tx_bind, wp_tx_ret
  | |- wp _ (tx_bind (get _ _) _) _ _ => apply wp_tx_bind; eapply wp_ok; [reflexivity|]
  | |- wp _ (tx_bind (getAll _) _) _ _ => apply wp_tx_bind; eapply wp_ok; [reflexivity|]
  | |- wp _ (tx_bind (get_sequence _) _) _ _ => apply wp_tx_bind; eapply wp_ok; [reflexivity|]
  | |- wp _ (tx_bind (stopEpochOf _) _) _ _ => apply wp_tx_bind; eapply wp_ok; [apply stopEpochOf_eq|]
  | |- wp _ (tx_bind (bumpStopEpoch _) _) _ _ => apply wp_tx_bind; eapply wp_ok; [apply bumpStopEpoch_eq|]
  end;
  cbv beta zeta.

(** The next branch of the body. *)
Ltac tx_if :=
  cbv beta zeta;
  lazymatch goal with
  | |- wp _ (if ?b then _ else _) _ _ => destruct b eqn:?
  end.

(** ** Well-formed stores

    [b] bounds the sequences given out at each target. *)

Record wf_at (b : string -> Z) (d : WebDb) : Prop := {
  wf_keyed : forall t, keyed (records t d);
  wf_bounded : forall t id (r : WebRecord), records t d !! id = Some r -> (intentSequence r <= b (targetRef r))%Z;
  (** Across the stores, one target and sequence is one record's. *)
  wf_placed : forall t t' id id' (r s : WebRecord),
    records t d !! id = Some r -> records t' d !! id' = Some s ->
    targetRef r = targetRef s -> intentSequence r = intentSequence s -> id = id';
  wf_outbox : forall id (r : WebRecord), records outbox d !! id = Some r -> state r <> accepted;
  (** A record waits in the outbox or is back with the person, never both. *)
  wf_apart : forall id (r s : WebRecord), records outbox d !! id = Some r -> records recovery d !! id = Some s -> False
}.

(** The store's counterpart, outbox against recovery, does not hold the key. *)
Definition free_of (t : store) (id : string) (d : WebDb) : Prop :=
  (t = outbox -> records recovery d !! id = None) /\ (t = recovery -> records outbox d !! id = None).

Definition wf (d : WebDb) : Prop := wf_at (fun ref => last_of ref d) d.

Lemma wf_empty_web : wf empty_web.
Proof. by split; intros []. Qed.

Lemma wf_at_mono b b' d : (forall ref, b ref <= b' ref)%Z -> wf_at b d -> wf_at b' d.
Proof. intros Hb [Hk Hs Hp Ho Ha]. split; [done| |done|done|done]. intros. etrans; eauto. Qed.

(** The stores of [d'] hold nothing [d]'s do not. *)
Lemma wf_at_sub b d d' : (forall t, records t d' ⊆ records t d) -> wf_at b d -> wf_at b d'.
Proof.
  intros Hsub [Hk Hs Hp Ho Ha].
  assert (Hl : forall t id (r : WebRecord), records t d' !! id = Some r -> records t d !! id = Some r)
    by (intros ??? H; by eapply lookup_weaken).
  split; [intros t id r Hr; eapply Hk; eauto|intros; eauto| |intros; eauto|intros; eauto].
  intros t t' id id' r s Hr Hs'. apply (Hp t t' id id'); auto.
Qed.

Lemma wf_put_row b b' t (r : WebRecord) d :
  wf_at b d -> (forall ref, b ref <= b' ref)%Z -> (intentSequence r <= b' (targetRef r))%Z ->
  (forall t' id (s : WebRecord), records t' d !! id = Some s ->
     targetRef s = targetRef r -> intentSequence s = intentSequence r -> id = clientMutationId r) ->
  (t = outbox -> state r <> accepted) -> free_of t (clientMutationId r) d ->
  put t r d = inl (set_records t (<[clientMutationId r := r]> (records t d)) d, tt) /\
  wf_at b' (set_records t (<[clientMutationId r := r]> (records t d)) d).
Proof.
  intros [Hk Hs Hp Ho Ha] Hb Hr Hfree Hst [Hv Hu]. split.
  { unfold put. replace (negb _ || _) with true; [done|]. symmetry. apply orb_true_iff. right.
    apply bool_decide_eq_true. intros k s Hks.
    destruct (decide (targetRef s = targetRef r)) as [E1|]; [|by right; left].
    destruct (decide (intentSequence s = intentSequence r)) as [E2|]; [|by right; right].
    left. by apply (Hfree t k s). }
  assert (Hl : forall t' id (s : WebRecord),
    records t' (set_records t (<[clientMutationId r := r]> (records t d)) d) !! id = Some s ->
    (t' = t /\ id = clientMutationId r /\ s = r) \/ records t' d !! id = Some s).
  { intros t' id s. rewrite records_set. case_decide as E; [subst|auto].
    intros [[<- <-]|[_ ?]]%lookup_insert_Some; auto. }
  split.
  - intros t' id s [(-> & -> & ->)|Hs']%Hl; [done|by apply (Hk t')].
  - intros t' id s [(-> & -> & ->)|Hs']%Hl; [done|]. etrans; [by eapply Hs|done].
  - intros t1 t2 i j s1 s2 [(-> & -> & ->)|H1]%Hl [(-> & -> & ->)|H2]%Hl E1 E2; [done| | |eauto].
    + symmetry. by eapply Hfree.
    + by eapply Hfree.
  - intros id s [(<- & -> & ->)|Hs']%Hl; [by apply Hst|eauto].
  - intros id s1 s2 [(E1 & F1 & _)|H1]%Hl [(E2 & F2 & _)|H2]%Hl; [congruence| | |eauto].
    + rewrite F1, (Hv (eq_sym E1)) in H2. done.
    + rewrite F2, (Hu (eq_sym E2)) in H1. done.
Qed.

(** ** Rows that no Stop has crossed *)

(** The epochs a row carries are its refs' epochs. *)
Definition uncrossed (d : WebDb) (r : MutationRecord) : Prop :=
  stopEpochAtEnqueue r = Some (epoch_of (targetRef r) d) /\
  forall shown, displayedRef r = Some shown -> displayedStopEpochAtEnqueue r = Some (epoch_of shown d).

(** A row in play that never went out, with modern evidence, is uncrossed. *)
Definition fresh_row (d : WebDb) (r : MutationRecord) : Prop :=
  in_play (state r) = true -> attempted r = Some false -> unresolvedAttempts r = None ->
  is_Some (stopEpochAtEnqueue r) -> uncrossed d r.

Definition current (d : WebDb) : Prop :=
  forall id (r : WebRecord), records outbox d !! id = Some r -> fresh_row d r.

Lemma fresh_row_epochs d d' r :
  (forall ref, epoch_of ref d' = epoch_of ref d) -> fresh_row d r -> fresh_row d' r.
Proof.
  intros He Hf H1 H2 H3 H4. destruct (Hf H1 H2 H3 H4) as [Ht Hs]. split; [by rewrite He|].
  intros shown Hd. rewrite He. by apply Hs.
Qed.

Lemma current_sub d d' :
  records outbox d' ⊆ records outbox d -> (forall ref, epoch_of ref d' = epoch_of ref d) ->
  current d -> current d'.
Proof. intros Hsub He Hc id r Hr. eapply fresh_row_epochs, (Hc id); [done|]. by eapply lookup_weaken. Qed.

(** ** What a transaction does to a row *)

(** A row keeps its key, its method and its wire identity, and never leaves the
    states a Stop or a resend parked it in. *)
Definition row_ok (r r' : MutationRecord) : Prop :=
  clientMutationId r' = clientMutationId r /\ method r' = method r /\
  effectiveWireId r' = effectiveWireId r /\
  (state r = canceled -> state r' = canceled) /\ (state r = superseded -> state r' = superseded).

Lemma row_ok_refl r : row_ok r r.
Proof. done. Qed.

Lemma row_ok_trans r1 r2 r3 : row_ok r1 r2 -> row_ok r2 r3 -> row_ok r1 r3.
Proof.
  intros (? & ? & ? & Hc & Hs) (? & ? & ? & Hc' & Hs'). split_and!; [congruence..|auto|auto].
Qed.

(** From [d] to [d'], minting only ids of [M]: counters grow, and an outbox row that
    was not minted is an old one, as [row_ok] leaves it. *)
Record evolves (M : string -> Prop) (d d' : WebDb) : Prop := {
  ev_last : forall ref, (last_of ref d <= last_of ref d')%Z;
  ev_epoch : forall ref, (epoch_of ref d <= epoch_of ref d')%Z;
  ev_rows : forall id (r' : WebRecord), records outbox d' !! id = Some r' ->
    M id \/ exists r : WebRecord, records outbox d !! id = Some r /\ row_ok r r'
}.

Lemma evolves_refl M d : evolves M d d.
Proof. split; [done|done|]. intros id r Hr. right. by exists r. Qed.

Lemma evolves_trans M d1 d2 d3 : evolves M d1 d2 -> evolves M d2 d3 -> evolves M d1 d3.
Proof.
  intros [L1 E1 R1] [L2 E2 R2].
  split; [intros ref; etrans; [apply L1|apply L2]|intros ref; etrans; [apply E1|apply E2]|].
  intros id r3 [Hm|(r2 & Hr2 & H23)]%R2; [by left|].
  destruct (R1 _ _ Hr2) as [Hm|(r1 & Hr1 & H12)]; [by left|].
  right. exists r1. split; [done|by eapply row_ok_trans].
Qed.

(** ** The running assertion of a transaction *)

(** A record whose place is given out, and that only its own key may take. *)
Definition reserved_at (b : string -> Z) (s : MutationRecord) (d : WebDb) : Prop :=
  (intentSequence s <= b (targetRef s))%Z /\
  forall t id (r : WebRecord), records t d !! id = Some r ->
    targetRef r = targetRef s -> intentSequence r = intentSequence s -> id = clientMutationId s.

(** The assertion between two requests of a transaction that opened at [d0]: the
    invariants hold, the state evolved from [d0], and the places of the records of [S],
    which the body read and may write again, are reserved. *)
Section good.
Context (M : string -> Prop) (S : MutationRecord -> Prop) (d0 : WebDb).

Record good_at (b : string -> Z) (d : WebDb) : Prop := {
  good_wf : wf_at b d;
  good_current : current d;
  good_evolves : evolves M d0 d;
  good_reserved : forall s, S s -> reserved_at b s d
}.

Definition good (d : WebDb) : Prop := good_at (fun ref => last_of ref d) d.

Lemma good_sub b d d' :
  (forall t, records t d' ⊆ records t d) ->
  (forall ref, last_of ref d' = last_of ref d) -> (forall ref, epoch_of ref d' = epoch_of ref d) ->
  good_at b d -> good_at b d'.
Proof.
  intros Hsub Hl He [Hw Hc Hv Hs]. split.
  - by eapply wf_at_sub.
  - eapply current_sub, Hc; [apply (Hsub outbox)|done].
  - eapply evolves_trans; [done|]. split; [intros; by rewrite Hl|intros; by rewrite He|].
    intros id r Hr. right. exists r. split; [by eapply lookup_weaken, (Hsub outbox)|done].
  - intros s HS. destruct (Hs s HS) as [Hb Hf]. split; [done|].
    intros t id r Hr. apply (Hf t). by eapply lookup_weaken.
Qed.

Lemma erased_sub t t' id d : records t' (set_records t (delete id (records t d)) d) ⊆ records t' d.
Proof. rewrite records_set. case_decide; [subst; apply delete_subseteq|done]. Qed.

Lemma good_at_mono b b' d : (forall ref, b ref <= b' ref)%Z -> good_at b d -> good_at b' d.
Proof.
  intros Hb [Hw Hc Hv Hs]. split; [by eapply wf_at_mono|done|done|].
  intros s HS. destruct (Hs s HS) as [Hl Hf]. split; [by etrans|done].
Qed.

Lemma good_erase t id d : good d -> good (set_records t (delete id (records t d)) d).
Proof.
  intros Hg. apply (good_at_mono (fun ref => last_of ref d)); [intros; by rewrite last_set|].
  eapply good_sub, Hg; [intros; apply erased_sub|intros; apply last_set|intros; apply epoch_set].
Qed.

Lemma wp_erase t id (Q : unit -> WebDb -> Prop) d :
  good d -> (forall d', good d' -> d' = set_records t (delete id (records t d)) d -> Q tt d') ->
  wp M (erase t id) Q d.
Proof. intros Hg HQ. eapply wp_ok; [reflexivity|]. apply HQ; [by apply good_erase|done]. Qed.

(** Putting a record: its place is free or its own, and in the outbox it is a minted
    row or an old one. *)
Lemma good_put b b' t (r : WebRecord) d :
  good_at b d -> (forall ref, b ref <= b' ref)%Z -> (intentSequence r <= b' (targetRef r))%Z ->
  (forall t' id (s : WebRecord), records t' d !! id = Some s ->
     targetRef s = targetRef r -> intentSequence s = intentSequence r -> id = clientMutationId r) ->
  (forall s, S s -> targetRef s = targetRef r -> intentSequence s = intentSequence r ->
     clientMutationId r = clientMutationId s) ->
  (t = outbox -> state r <> accepted /\ fresh_row d r /\
     (M (clientMutationId r) \/
      exists r0 : WebRecord, records outbox d !! clientMutationId r = Some r0 /\ row_ok r0 r)) ->
  free_of t (clientMutationId r) d ->
  put t r d = inl (set_records t (<[clientMutationId r := r]> (records t d)) d, tt) /\
  good_at b' (set_records t (<[clientMutationId r := r]> (records t d)) d).
Proof.
  intros [Hw Hc Hv Hres] Hb Hr Hfree HS Ho Hap.
  destruct (wf_put_row b b' t r d) as [Hput Hw']; [done..|intros E; by apply Ho|done|].
  split; [done|]. set (d' := set_records t _ d) in *.
  assert (Hl : forall id (s : WebRecord), records outbox d' !! id = Some s ->
    (t = outbox /\ id = clientMutationId r /\ s = r) \/ records outbox d !! id = Some s).
  { intros id s. unfold d'. rewrite records_set. case_decide as E; [subst|auto].
    intros [[<- <-]|[_ ?]]%lookup_insert_Some; auto. }
  split; [done| | |].
  - intros id s [(-> & -> & ->)|Hs]%Hl; eapply fresh_row_epochs; try (intros; apply epoch_set).
    + by apply Ho.
    + by eapply Hc.
  - eapply evolves_trans; [done|]. split; [intros; unfold d'; by rewrite last_set|intros; unfold d'; by rewrite epoch_set|].
    intros id s [(-> & -> & ->)|Hs]%Hl; [by apply Ho|]. right. by exists s.
  - intros s Hs. destruct (Hres s Hs) as [Hsb Hsf]. split; [by etrans|].
    intros t' id s'. unfold d'. rewrite records_set. case_decide as E; [subst|by apply Hsf].
    intros [[<- <-]|[_ ?]]%lookup_insert_Some E1 E2; [by apply HS|by eapply Hsf].
Qed.

Lemma put_at t (r : WebRecord) d :
  good d -> reserved_at (fun ref => last_of ref d) r d ->
  (forall s, S s -> targetRef s = targetRef r -> intentSequence s = intentSequence r ->
     clientMutationId r = clientMutationId s) ->
  (t = outbox -> state r <> accepted /\ fresh_row d r /\
     (M (clientMutationId r) \/
      exists r0 : WebRecord, records outbox d !! clientMutationId r = Some r0 /\ row_ok r0 r)) ->
  free_of t (clientMutationId r) d ->
  put t r d = inl (set_records t (<[clientMutationId r := r]> (records t d)) d, tt) /\
  good (set_records t (<[clientMutationId r := r]> (records t d)) d).
Proof.
  intros Hg [Hb Hf] HS Ho Hap.
  destruct (good_put (fun ref => last_of ref d) (fun ref => last_of ref d) t r d) as [Hput Hg']; [done..|].
  split; [done|]. eapply good_at_mono, Hg'. intros ref. by rewrite last_set.
Qed.

Lemma reserved_place b r0 r d :
  clientMutationId r = clientMutationId r0 -> targetRef r = targetRef r0 -> intentSequence r = intentSequence r0 ->
  reserved_at b r0 d -> reserved_at b r d.
Proof. unfold reserved_at. by intros -> -> ->. Qed.

Lemma good_holds t (r : WebRecord) d :
  good d -> records t d !! clientMutationId r = Some r -> reserved_at (fun ref => last_of ref d) r d.
Proof.
  intros Hg Hr. split; [exact (wf_bounded _ _ (good_wf _ _ Hg) _ _ _ Hr)|].
  intros t' id s Hs E1 E2. by apply (wf_placed _ _ (good_wf _ _ Hg) t' t id _ s r).
Qed.

(** A key a store holds is free of the other. *)
Lemma free_own t (r : WebRecord) d :
  good d -> records t d !! clientMutationId r = Some r -> free_of t (clientMutationId r) d.
Proof.
  intros Hg Hr. split; intros ->; apply eq_None_not_Some; intros [s Hs].
  - exact (wf_apart _ _ (good_wf _ _ Hg) _ r s Hr Hs).
  - exact (wf_apart _ _ (good_wf _ _ Hg) _ s r Hs Hr).
Qed.

(** What a rewrite of an outbox row must keep. *)
Definition rewrites (d : WebDb) (r r' : MutationRecord) : Prop :=
  targetRef r' = targetRef r /\ intentSequence r' = intentSequence r /\
  state r' <> accepted /\ fresh_row d r' /\ row_ok r r'.

(** Rewriting an outbox row in its place. *)
Lemma put_row (r r' : WebRecord) d :
  good d -> records outbox d !! clientMutationId r = Some r -> rewrites d r r' ->
  put outbox r' d = inl (set_records outbox (<[clientMutationId r := r']> (records outbox d)) d, tt) /\
  good (set_records outbox (<[clientMutationId r := r']> (records outbox d)) d).
Proof.
  intros Hg Hr (Ht & Hs & Ha & Hf & Hok). pose proof (proj1 Hok) as Hid. rewrite <- Hid.
  apply put_at; [done| | | |].
  - eapply reserved_place, good_holds, Hr; done.
  - intros s HS E1 E2. rewrite Hid. apply (proj2 (good_reserved _ _ Hg s HS) outbox _ r); congruence.
  - intros _. split_and!; [done|done|]. right. exists r. by rewrite Hid.
  - rewrite Hid. by apply (free_own outbox r).
Qed.

Lemma wp_put_row (r r' : WebRecord) (Q : unit -> WebDb -> Prop) d :
  good d -> records outbox d !! clientMutationId r = Some r -> rewrites d r r' ->
  (forall d', good d' -> d' = set_records outbox (<[clientMutationId r := r']> (records outbox d)) d -> Q tt d') ->
  wp M (put outbox r') Q d.
Proof. intros Hg Hr Hw HQ. destruct (put_row r r' d) as [Hp Hg']; [done..|]. eapply wp_ok; [done|]. auto. Qed.

(** Writing over a record of another store than the outbox, in its place. *)
Lemma wp_put_same t (r0 r : WebRecord) (Q : unit -> WebDb -> Prop) d :
  good d -> t <> outbox -> records t d !! clientMutationId r0 = Some r0 ->
  clientMutationId r = clientMutationId r0 -> targetRef r = targetRef r0 -> intentSequence r = intentSequence r0 ->
  (forall d', good d' -> d' = set_records t (<[clientMutationId r := r]> (records t d)) d -> Q tt d') ->
  wp M (put t r) Q d.
Proof.
  intros Hg Ht Hr0 Hid E1 E2 HQ. destruct (put_at t r d) as [Hp Hg']; [done| | |done| |].
  - eapply reserved_place, good_holds, Hr0; done.
  - intros s HS E1' E2'. rewrite Hid. apply (proj2 (good_reserved _ _ Hg s HS) t _ r0); congruence.
  - rewrite Hid. by apply free_own.
  - eapply wp_ok; [done|]. auto.
Qed.

(** Writing a reserved record to a store other than the outbox. *)
Lemma wp_put_reserved t (r : WebRecord) s (Q : unit -> WebDb -> Prop) d :
  good d -> S s -> t <> outbox -> free_of t (clientMutationId r) d ->
  clientMutationId r = clientMutationId s -> targetRef r = targetRef s -> intentSequence r = intentSequence s ->
  (forall s', S s' -> s' = s) ->
  (forall d', good d' -> Q tt d') ->
  wp M (put t r) Q d.
Proof.
  intros Hg HS Ht Hap Hid E1 E2 Honly HQ.
  destruct (put_at t r d) as [Hp Hg']; [done| | |done|done|eapply wp_ok; [done|]; auto].
  - eapply reserved_place, (good_reserved _ _ Hg s HS); done.
  - intros s' HS' _ _. by rewrite (Honly s' HS').
Qed.

(** *** New records *)

(** What an allocation at [ref] leaves: no record has the place it gave. *)
Definition vacant (ref : string) (n : Z) (d : WebDb) : Prop :=
  last_of ref d = n /\
  (forall s, S s -> targetRef s = ref -> (intentSequence s < n)%Z) /\
  forall t id (s : WebRecord), records t d !! id = Some s -> targetRef s = ref -> (intentSequence s < n)%Z.

Lemma allocated_good ref d :
  good d -> good (allocated ref d) /\ vacant ref (last_of ref d + 1) (allocated ref d).
Proof.
  intros Hg. split.
  - assert (Hsub : good_at (fun ref => last_of ref d) (allocated ref d)).
    { destruct Hg as [Hw Hc Hv Hs]. split.
      - eapply wf_at_sub, Hw. by intros [].
      - eapply current_sub, Hc; [done|]. intros. apply epoch_allocated.
      - eapply evolves_trans; [done|]. split; [intros; rewrite last_allocated; case_decide; lia| |].
        + intros. by rewrite epoch_allocated.
        + intros id r Hr. right. by exists r.
      - intros s HS. destruct (Hs s HS) as [? Hf]. split; [done|].
        intros t id r. unfold allocated. rewrite records_sequence. apply Hf. }
    eapply good_at_mono, Hsub. intros ref'. rewrite last_allocated. case_decide; lia.
  - split; [rewrite last_allocated, decide_True by done; done|].
    split; [intros s HS <-; destruct (good_reserved _ _ Hg s HS) as [? _]; simpl in *; lia|].
    intros t id s Hs <-. assert (records t d !! id = Some s) by (by destruct t).
    pose proof (wf_bounded _ _ (good_wf _ _ Hg) t id s ltac:(done)). simpl in *. lia.
Qed.

Lemma wp_allocate {B} ref (k : Z -> tx B) Q d :
  good d ->
  (forall d', good d' -> vacant ref (last_of ref d + 1) d' -> d' = allocated ref d ->
     wp M (k (last_of ref d + 1)%Z) Q d') ->
  wp M (tx_bind (allocateSequence ref) k) Q d.
Proof.
  intros Hg HQ. apply wp_tx_bind. eapply wp_ok; [apply allocateSequence_eq|].
  by apply HQ; [apply allocated_good..|].
Qed.

Lemma put_new t (r : WebRecord) d :
  good d -> vacant (targetRef r) (intentSequence r) d ->
  (t = outbox -> state r <> accepted /\ fresh_row d r /\ M (clientMutationId r)) ->
  (forall t', records t' d !! clientMutationId r = None) ->
  put t r d = inl (set_records t (<[clientMutationId r := r]> (records t d)) d, tt) /\
  good (set_records t (<[clientMutationId r := r]> (records t d)) d).
Proof.
  intros Hg (Hl & Hold & Hv) Ho Hnone. apply put_at; [done| | | |by split].
  - split; [lia|]. intros t' id s Hs E1 E2. pose proof (Hv t' id s Hs E1). lia.
  - intros s HS E1 E2. specialize (Hold s HS E1). lia.
  - intros ->. destruct (Ho eq_refl) as (? & ? & ?). auto.
Qed.

Lemma wp_put_new t (r : WebRecord) (Q : unit -> WebDb -> Prop) d :
  good d -> vacant (targetRef r) (intentSequence r) d ->
  (t = outbox -> state r <> accepted /\ fresh_row d r /\ M (clientMutationId r)) ->
  (forall t', records t' d !! clientMutationId r = None) ->
  (forall d', good d' -> d' = set_records t (<[clientMutationId r := r]> (records t d)) d -> Q tt d') ->
  wp M (put t r) Q d.
Proof. intros Hg Hv Ho Hn HQ. destruct (put_new t r d) as [Hp Hg']; [done..|]. eapply wp_ok; [done|]. auto. Qed.

Lemma add_eq t (r : WebRecord) d : records t d !! clientMutationId r = None -> add t r d = put t r d.
Proof. unfold add. by intros ->. Qed.

Lemma wp_add_new (r : WebRecord) (Q : unit -> WebDb -> Prop) d :
  records outbox d !! clientMutationId r = None ->
  wp M (put outbox r) Q d -> wp M (add outbox r) Q d.
Proof. unfold wp, add. by intros ->. Qed.

(** *** Loops over the outbox *)

(** Every row the guard picks, rewritten. *)
Definition updated_where (P : WebRecord -> bool) (f : WebRecord -> WebRecord) (m : gmap string WebRecord) :
    gmap string WebRecord :=
  (fun r => if P r then f r else r) <$> m.

Definition own_rows (t : store) (d : WebDb) (l : list WebRecord) : Prop :=
  NoDup (rid <$> l) /\ Forall (fun r : WebRecord => records t d !! clientMutationId r = Some r) l.

Lemma own_all b t d : wf_at b d -> own_rows t d (all_records (records t d)).
Proof.
  intros Hw. split; [by apply all_records_nodup, (wf_keyed _ _ Hw t)|].
  apply Forall_forall. intros r [id Hr]%elem_of_all_records.
  by rewrite (wf_keyed _ _ Hw t id r Hr).
Qed.

Lemma own_rows_cons t d (r : WebRecord) l :
  own_rows t d (r :: l) ->
  records t d !! clientMutationId r = Some r /\ clientMutationId r ∉ rid <$> l /\ own_rows t d l.
Proof. intros [[Hn Hnd]%NoDup_cons [Hr Hl]%Forall_cons]. done. Qed.

Lemma own_rows_filter t d (P : WebRecord -> Prop) `{!forall r, Decision (P r)} l :
  own_rows t d l -> own_rows t d (filter P l).
Proof.
  intros [Hnd Hall]. split.
  - eapply sublist_NoDup; [exact Hnd|]. apply (fmap_sublist rid), sublist_filter.
  - rewrite Forall_forall in *. intros r [_ Hr]%list_elem_of_filter. by apply Hall.
Qed.

Lemma own_rows_perm t d l l' : l ≡ₚ l' -> own_rows t d l -> own_rows t d l'.
Proof. intros Hp [Hnd Hall]. split; by rewrite <- Hp. Qed.

Lemma own_rows_same t d d' l : records t d' = records t d -> own_rows t d l -> own_rows t d' l.
Proof. unfold own_rows. by intros ->. Qed.

(** The rows still to come are untouched by a write to this one. *)
Lemma own_rows_insert t d (r r' : WebRecord) l :
  clientMutationId r ∉ rid <$> l -> own_rows t d l ->
  own_rows t (set_records t (<[clientMutationId r := r']> (records t d)) d) l.
Proof.
  intros Hn [Hnd Hl]. split; [done|]. rewrite Forall_forall in *. intros s Hs.
  rewrite records_set_eq, lookup_insert_ne; [by apply Hl|].
  intros E. apply Hn. rewrite E. by apply (list_elem_of_fmap_2 rid).
Qed.

(** A target's rows hold each sequence once. *)
Lemma in_order_sequences d (P : WebRecord -> bool) ref :
  wf d -> (forall r : WebRecord, P r = true -> targetRef r = ref) ->
  NoDup ((fun r : WebRecord => intentSequence r) <$> filter (fun r => P r = true) (all_records (records outbox d))).
Proof.
  intros Hw HP.
  assert (Hown : own_rows outbox d (filter (fun r => P r = true) (all_records (records outbox d))))
    by (by eapply own_rows_filter, own_all).
  assert (Ht : Forall (fun r : WebRecord => targetRef r = ref) (filter (fun r => P r = true) (all_records (records outbox d)))).
  { apply Forall_forall. intros r [Hr _]%list_elem_of_filter. auto. }
  induction (filter _ _) as [|r l IH]; [apply NoDup_nil_2|].
  destruct (own_rows_cons _ _ _ _ Hown) as (Hr & Hn & Hl). apply Forall_cons in Ht as [Hrt Ht].
  simpl. apply NoDup_cons. split; [|by apply IH]. intros (s & Hseq & Hs)%list_elem_of_fmap.
  apply Hn. destruct Hl as [_ Hall]. rewrite Forall_forall in Hall, Ht.
  rewrite (wf_placed _ _ Hw outbox outbox _ _ r s Hr (Hall s Hs)); [by apply (list_elem_of_fmap_2 rid)| |done].
  rewrite Hrt. symmetry. by apply Ht.
Qed.

Section update_rows.
Context (P : WebRecord -> bool) (f : WebRecord -> WebRecord).
Context (Hf : forall d (r : WebRecord), good d -> records outbox d !! clientMutationId r = Some r -> P r = true -> rewrites d r (f r)).

Definition update_row (r : WebRecord) : tx (list string) :=
  if P r then put outbox (f r) ;; tx_ret [clientMutationId r] else tx_ret [].

Lemma collect_rows l d :
  good d -> own_rows outbox d l ->
  exists m, collect l update_row d = inl (set_records outbox m d, rid <$> filter (fun r => P r = true) l) /\
    good (set_records outbox m d) /\
    forall id, m !! id = match records outbox d !! id with
                         | Some r => Some (if P r && bool_decide (id ∈ rid <$> l) then f r else r)
                         | None => None
                         end.
Proof.
  revert d. induction l as [|r l IH]; intros d Hg Hown.
  { exists (records outbox d). rewrite set_records_same. split_and!; [done|done|]. intros id.
    rewrite bool_decide_false by apply not_elem_of_nil.
    destruct (records outbox d !! id); [by rewrite andb_false_r|done]. }
  destruct (own_rows_cons _ _ _ _ Hown) as (Hr & Hin & Hl). clear Hown.
  simpl collect. rewrite filter_cons. unfold update_row at 1. destruct (P r) eqn:HP.
  - rewrite decide_True by done. destruct (put_row r (f r) d) as [Hput Hg1]; [auto..|].
    destruct (IH _ Hg1) as (m & Hm & Hgm & Hlk); [by apply own_rows_insert|].
    exists m. rewrite set_records_twice in Hm, Hgm. split_and!; [|done|].
    + erewrite bind_ok by (erewrite bind_ok by done; done). cbv beta. by erewrite bind_ok by done.
    + intros id. rewrite Hlk, records_set_eq, fmap_cons.
      destruct (decide (id = clientMutationId r)) as [->|Hne].
      * rewrite lookup_insert_eq, Hr, HP, bool_decide_false, bool_decide_true; [by rewrite andb_false_r|by left|done].
      * rewrite lookup_insert_ne by done. destruct (records outbox d !! id) as [s|]; [|done].
        by rewrite (bool_decide_ext (id ∈ clientMutationId r :: (rid <$> l)) (id ∈ rid <$> l))
          by (rewrite elem_of_cons; naive_solver).
  - rewrite decide_False by congruence. destruct (IH d Hg Hl) as (m & Hm & Hgm & Hlk).
    exists m. split_and!; [by erewrite bind_ok by done; cbv beta; erewrite bind_ok by done|done|].
    intros id. rewrite Hlk. destruct (records outbox d !! id) as [s|] eqn:Es; [|done].
    destruct (decide (id = clientMutationId r)) as [->|Hne].
    + assert (s = r) as -> by congruence. by rewrite HP.
    + by rewrite (bool_decide_ext (id ∈ rid <$> r :: l) (id ∈ rid <$> l))
        by (rewrite fmap_cons, elem_of_cons; naive_solver).
Qed.

Lemma update_rows d :
  good d ->
  let d' := set_records outbox (updated_where P f (records outbox d)) d in
  collect (all_records (records outbox d)) update_row d =
    inl (d', rid <$> filter (fun r => P r = true) (all_records (records outbox d))) /\ good d'.
Proof.
  intros Hg. pose proof (own_all _ outbox _ (good_wf _ _ Hg)) as Hown.
  destruct (collect_rows _ _ Hg Hown) as (m & Hm & Hgm & Hl).
  assert (m = updated_where P f (records outbox d)) as ->; [|done].
  apply map_eq. intros id. rewrite Hl. unfold updated_where. rewrite lookup_fmap.
  destruct (records outbox d !! id) as [r|] eqn:Hr; [|done]. simpl.
  rewrite bool_decide_true, andb_true_r; [done|].
  rewrite <- (wf_keyed _ _ (good_wf _ _ Hg) outbox id r Hr).
  apply (list_elem_of_fmap_2 rid), elem_of_all_records. eauto.
Qed.
End update_rows.

(** *** A Stop's bump *)

(** No row the bump crosses is still waiting to go out. *)
Definition swept (ref : string) (d : WebDb) : Prop :=
  forall id (r : WebRecord), records outbox d !! id = Some r -> stopped_by ref r = false.

Lemma good_bump ref d : good d -> swept ref d -> good (bumped ref d).
Proof.
  intros [Hw Hc Hv Hres] Hs. unfold good.
  apply (good_at_mono (fun ref => last_of ref d)); [intros; by rewrite last_bumped|]. split.
  - eapply wf_at_sub, Hw. by intros [].
  - intros id r Hr Hp Ha Hu He. destruct (Hc id r Hr Hp Ha Hu He) as [Ht Hd].
    specialize (Hs id r Hr). unfold stopped_by, isCancelableByStop in Hs.
    rewrite Hp, (bool_decide_true (attempted r = Some false)), andb_true_r in Hs by done.
    apply orb_false_iff in Hs as [Hn1%String.eqb_neq Hn2%bool_decide_eq_false].
    split; [rewrite epoch_bumped, decide_False by congruence; by rewrite Z.add_0_r|].
    intros shown Hsh. rewrite epoch_bumped, decide_False by congruence. rewrite Z.add_0_r. by apply Hd.
  - eapply evolves_trans; [done|]. split; [intros; by rewrite last_bumped| |].
    + intros. rewrite epoch_bumped. case_decide; lia.
    + intros id r Hr. right. by exists r.
  - intros s HS. destruct (Hres s HS) as [? Hf]. split; [done|].
    intros t id r. unfold bumped. rewrite records_sequence. apply Hf.
Qed.
End good.
