(* ===== verification/WebInvariant.v ===== *)
(** Every transaction of the web outbox keeps the invariants: the body of each method,
    and of the two cleanups that follow a settlement, takes a good state to a good one
    and fails only because an id it was to mint is in use. *)

From S2P Require Import Prelude JsString Json Sql Records Idb WebOutbox WebFacts.

Local Open Scope string_scope.
Local Open Scope list_scope.
Local Open Scope tx_scope.

Create HintDb web_keeps.

(** ** Bodies that keep every assertion *)

Definition keeps (M : string -> Prop) {A} (p : tx A) : Prop :=
  forall S d0 d, good M S d0 d -> wp M p (fun _ => good M S d0) d.

Section keeps.
Context (M : string -> Prop).

Lemma keeps_tx_ret {A} (a : A) : keeps M (tx_ret a).
Proof. by intros ?. Qed.

Lemma keeps_tx_bind {A B} (p : tx A) (k : A -> tx B) :
  keeps M p -> (forall a, keeps M (k a)) -> keeps M (tx_bind p k).
Proof. intros Hp Hk S d0 d Hg. apply wp_tx_bind. eapply wp_tx_mono, Hp, Hg. intros a d' Hg'. by apply Hk. Qed.

Lemma keeps_tx_read {A B} (p : tx A) (k : A -> tx B) :
  (forall d, exists a, p d = inl (d, a)) -> (forall a, keeps M (k a)) -> keeps M (tx_bind p k).
Proof. intros Hp Hk S d0 d Hg. apply wp_tx_bind. destruct (Hp d) as [a Ha]. eapply wp_ok; [done|]. by apply Hk. Qed.

Lemma keeps_erase t id : keeps M (erase t id).
Proof. intros S d0 d Hg. by apply (wp_erase M S d0). Qed.

Lemma keeps_erase_when b t id : keeps M (erase_when b t id).
Proof. destruct b; [apply keeps_erase|apply keeps_tx_ret]. Qed.

Lemma keeps_collect {A B} (f : A -> tx (list B)) l : (forall x, keeps M (f x)) -> keeps M (collect l f).
Proof. intros Hf S d0 d Hg. apply (wp_collect M f (fun _ => good M S d0)); [|done]. intros. by apply Hf. Qed.

Lemma keeps_for_all {A} (f : A -> tx unit) l : (forall x, keeps M (f x)) -> keeps M (for_all l f).
Proof. intros Hf S d0 d Hg. apply wp_for_all; [|done]. intros. by apply Hf. Qed.

Lemma keeps_retire_from t keep l : keeps M (retire_from t keep l).
Proof.
  apply keeps_collect. intros r. destruct (keep r); [apply keeps_tx_ret|].
  apply keeps_tx_bind; [apply keeps_erase|intros; apply keeps_tx_ret].
Qed.

Lemma keeps_retireWireFamily fam o : keeps M (retireWireFamily fam o).
Proof.
  apply keeps_tx_bind; [apply keeps_retire_from|]. intros a.
  apply keeps_tx_bind; [destruct (sweepOptimistic o); [apply keeps_retire_from|apply keeps_tx_ret]|]. intros b.
  apply keeps_tx_bind; [destruct (sweepRecovery o); [apply keeps_retire_from|apply keeps_tx_ret]|]. intros c.
  apply keeps_tx_ret.
Qed.

Lemma keeps_retireWireSiblings scope w o : keeps M (retireWireSiblings scope w o).
Proof.
  apply keeps_tx_read; [|intros; apply keeps_retireWireFamily].
  intros d. unfold resolveWireFamily. repeat case_match; by eexists.
Qed.
End keeps.

#[export] Hint Resolve keeps_tx_ret keeps_erase keeps_erase_when keeps_collect keeps_for_all
  keeps_retire_from keeps_retireWireFamily keeps_retireWireSiblings : web_keeps.

Ltac keeps_auto :=
  lazymatch goal with
  | |- keeps _ (tx_bind _ _) => apply keeps_tx_bind; [keeps_auto|intros; keeps_auto]
  | |- _ => auto with web_keeps
  end.

(** The wire family a transaction spanning [scope] reads. *)
Lemma resolve_eq scope w p v d :
  resolveWireFamily scope w p v d = inl (d, mkFamily
    (of_wire w (if bool_decide (outbox ∈ scope) then all_records (records outbox d) else []))
    (of_wire w (if p && bool_decide (optimistic ∈ scope) then all_records (records optimistic d) else []))
    (of_wire w (if v && bool_decide (recovery ∈ scope) then all_records (records recovery d) else []))).
Proof. unfold resolveWireFamily. simpl. by repeat case_match. Qed.

Lemma elem_of_wire w (l : list WebRecord) (r : WebRecord) : r ∈ of_wire w l <-> effectiveWireId r = w /\ r ∈ l.
Proof. unfold of_wire. by rewrite list_elem_of_filter. Qed.

(** The two readings every fence takes. *)
Lemma displayed_eq o d :
  (match o with None => tx_ret None | Some shown => e ← stopEpochOf shown; tx_ret (Some e) end) d =
  inl (d, (fun shown => epoch_of shown d) <$> o).
Proof. by destruct o. Qed.

(** Whether a Stop passed one of the row's baselines. *)
Definition fence_crossed (r : MutationRecord) (stop displayed : option Z) (d : WebDb) : bool :=
  (default 0 (stopEpochAtEnqueue r) <? default (epoch_of (targetRef r) d) stop)%Z ||
  match displayedRef r with
  | Some shown => (default 0 (displayedStopEpochAtEnqueue r) <? default (epoch_of shown d) displayed)%Z
  | None => false
  end.

Lemma fence_eq r stop displayed d :
  fenceCrossedSinceEnqueue r stop displayed d = inl (d, fence_crossed r stop displayed d).
Proof.
  unfold fenceCrossedSinceEnqueue, fence_crossed. destruct stop as [e|]; unfold tx_bind at 1; simpl;
    destruct (_ <? _)%Z; try done; by destruct (displayedRef r), displayed.
Qed.

(** ** Rewrites of a row *)

Lemma fresh_evidenced d (r : MutationRecord) :
  in_play (state r) = false \/ attempted r <> Some false \/ is_Some (unresolvedAttempts r) -> fresh_row d r.
Proof. intros Hr Hp Ha Hu _. rewrite Hp, Hu in Hr. destruct Hr as [?|[?|[? ?]]]; congruence. Qed.

(** A change of state, with or without the fence stamp, that keeps a row in play only
    if it was. *)
Lemma fresh_same d (r r' : MutationRecord) :
  (in_play (state r') = true -> in_play (state r) = true) ->
  attempted r' = attempted r -> unresolvedAttempts r' = unresolvedAttempts r ->
  stopEpochAtEnqueue r' = stopEpochAtEnqueue r -> targetRef r' = targetRef r ->
  displayedRef r' = displayedRef r -> displayedStopEpochAtEnqueue r' = displayedStopEpochAtEnqueue r ->
  fresh_row d r -> fresh_row d r'.
Proof. unfold fresh_row, uncrossed. intros Hp -> -> -> -> -> -> Hf ?. apply Hf. auto. Qed.

Ltac solve_fresh :=
  first
  [ apply fresh_evidenced; simpl; first [by left | right; left; congruence | right; right; eexists; reflexivity]
  | match goal with
    | H : fresh_row ?d ?r |- fresh_row ?d _ =>
        apply (fresh_same d r); simpl; try done;
        match goal with Hs : state r = _ |- _ => by rewrite Hs end
    end ].

(** [rewrites] of a spread that touches state, evidence, epochs or the stamp. *)
Ltac solve_rewrites :=
  cbn [update_record record];
  try lazymatch goal with |- rewrites _ _ (if ?b then _ else _) => destruct b end;
  unfold rewrites, row_ok; split_and!; simpl; try done; try congruence; try solve_fresh.

(** ** Each body keeps the assertion *)

Section bodies.
Context (M : string -> Prop).

Definition mints (host : WebHost) : Prop := forall n, M (createMutationId host n).

Lemma keeps_enqueueIntent host i barrier : mints host -> keeps M (enqueueIntent_tx host i barrier).
Proof.
  intros HM S d0 d Hg. unfold enqueueIntent_tx. tx_step.
  eapply wp_allocate; [done|]. intros d1 Hg1 Hv Hd1.
  apply wp_tx_bind, wp_assert; [apply HM|]. intros Hn.
  apply wp_tx_bind, wp_add_new; [by apply (Hn outbox)|].
  eapply wp_put_new; [done|done| |exact Hn|by intros].
  intros _. split_and!; [by destruct crossed| |apply HM].
  intros _ _ _ _. split; [|done]. simpl. by rewrite Hd1, epoch_allocated.
Qed.

(** *** Stop *)

Lemma rewrites_cancel d (r : WebRecord) :
  in_play (state r) = true -> rewrites d r (update_record (with_state canceled) r).
Proof. intros Hp. solve_rewrites. intros E. by rewrite E in Hp. Qed.

Lemma rewrites_supersede d (r : WebRecord) :
  state r <> canceled -> rewrites d r (update_record (with_state superseded) r).
Proof. intros Hp. solve_rewrites. Qed.

Lemma stopped_in_play ref (r : WebRecord) : stopped_by ref r = true -> in_play (state r) = true.
Proof. unfold stopped_by, isCancelableByStop. intros [_ [? _]%andb_prop]%andb_prop. done. Qed.

(** The Stop's sweep: exactly the rows it picks turn canceled. *)
Definition stop_rows (ref : string) (d : WebDb) : WebDb :=
  set_records outbox (updated_where (stopped_by ref) (update_record (with_state canceled)) (records outbox d)) d.

Lemma cancelUnattempted_rows_eq S d0 ref d :
  good M S d0 d ->
  cancelUnattempted_rows ref d =
    inl (stop_rows ref d, rid <$> filter (fun r : WebRecord => stopped_by ref r = true) (all_records (records outbox d))) /\
  good M S d0 (stop_rows ref d) /\ swept ref (stop_rows ref d).
Proof.
  intros Hg.
  destruct (update_rows M S d0 (stopped_by ref) (update_record (with_state canceled))) with (d := d)
    as [Hm Hg']; [|done|].
  { intros d' r Hg' Hr Hp. by eapply rewrites_cancel, stopped_in_play. }
  split_and!; [exact Hm|exact Hg'|].
  intros id r. unfold stop_rows. rewrite records_set_eq. unfold updated_where. rewrite lookup_fmap.
  intros (r0 & Hr0 & ->)%fmap_Some_1. destruct (stopped_by ref r0) eqn:E; [|done].
  unfold stopped_by. simpl. apply andb_false_r.
Qed.

Lemma keeps_cancelUnattempted ref : keeps M (cancelUnattempted_tx ref).
Proof.
  intros S d0 d Hg. unfold cancelUnattempted_tx.
  destruct (cancelUnattempted_rows_eq S d0 ref d Hg) as (Hm & Hg' & Hs).
  apply wp_tx_bind. eapply wp_ok; [exact Hm|]. do 2 tx_step. by apply good_bump.
Qed.

Lemma keeps_enqueueInterrupt host i : mints host -> keeps M (enqueueInterruptAndCancel_tx host i).
Proof.
  intros HM S d0 d Hg. unfold enqueueInterruptAndCancel_tx.
  destruct (cancelUnattempted_rows_eq S d0 (targetRef i) d Hg) as (Hm & Hg' & Hs).
  apply wp_tx_bind. eapply wp_ok; [exact Hm|]. tx_step.
  eapply wp_allocate; [by apply good_bump|]. intros d1 Hg1 Hv Hd1.
  apply wp_tx_bind, wp_assert; [apply HM|]. intros Hn. tx_step.
  apply wp_tx_bind, wp_add_new; [by apply (Hn outbox)|].
  eapply wp_put_new; [done|done| |exact Hn|by intros].
  intros _. split_and!; [done| |apply HM]. intros _ _ _ _. by split.
Qed.

Lemma keeps_discardCanceled ref : keeps M (discardCanceled_tx ref).
Proof. apply keeps_tx_read; [by eexists|auto with web_keeps]. Qed.

Lemma keeps_discardCanceledOfInstance ref inst : keeps M (discardCanceledOfInstance_tx ref inst).
Proof. apply keeps_tx_read; [by eexists|auto with web_keeps]. Qed.

(** *** Mints *)

(** Rows other than superseded ones, and epochs, are untouched. *)
Definition spares (d d' : WebDb) : Prop :=
  (forall s : WebRecord, records outbox d !! clientMutationId s = Some s -> state s <> superseded ->
     records outbox d' !! clientMutationId s = Some s) /\
  forall ref, epoch_of ref d' = epoch_of ref d.

Lemma wp_retire_superseded S d0 d w keys (Q : list string -> WebDb -> Prop) :
  good M S d0 d -> (forall ids d', good M S d0 d' -> spares d d' -> Q ids d') ->
  wp M (retireWireSiblings ENQUEUE_STORES w (mkSweep keys false false true)) Q d.
Proof.
  intros Hg HQ. unfold retireWireSiblings. apply wp_tx_bind. eapply wp_ok; [apply resolve_eq|].
  unfold retireWireFamily. simpl sweepOptimistic. simpl sweepRecovery. simpl family_outbox. cbv iota beta zeta.
  apply wp_tx_bind. eapply wp_tx_mono;
    [|apply (wp_collect M _ (fun l d' => good M S d0 d' /\ spares d d' /\ own_rows outbox d l))].
  - intros ids d' (Hg' & Hs & _). do 3 tx_step. by apply HQ.
  - intros r l d' (Hg' & [Hs He] & Hown). destruct (own_rows_cons _ _ _ _ Hown) as (Hr & Hn & Hl).
    destruct (str_in _ _ || _) eqn:E; [tx_step; by split_and!|].
    apply orb_false_iff in E as [_ E%negb_false_iff%bool_decide_eq_true].
    apply wp_tx_bind. eapply wp_erase; [done|]. intros d1 Hg1 ->. tx_step. split_and!; [done| |done].
    split; [|intros ref; by rewrite epoch_set]. intros s Hsd Hss.
    rewrite records_set_eq, lookup_delete_ne; [by apply Hs|]. intros Heq. rewrite <- Heq in Hsd. congruence.
  - split_and!; [done|done|].
    unfold of_wire. eapply own_rows_filter, (own_all _ outbox), Hg.
Qed.

Lemma wp_mint S d0 d host n (source : WebRecord) fresh (Q : WebRecord * list string -> WebDb -> Prop) :
  mints host -> good M S d0 d ->
  fresh_stopEpoch fresh = epoch_of (targetRef source) d ->
  fresh_displayedStopEpoch fresh = (fun shown => epoch_of shown d) <$> displayedRef source ->
  (forall out d', good M S d0 d' -> spares d d' -> Q out d') ->
  wp M (mintFreshRow host n source fresh) Q d.
Proof.
  intros HM Hg Ht Hsh HQ. unfold mintFreshRow.
  eapply wp_allocate; [done|]. intros d1 Hg1 Hv Hd1.
  apply wp_tx_bind, wp_assert; [apply HM|]. intros Hn.
  apply wp_tx_bind, wp_add_new; [by apply (Hn outbox)|].
  assert (He : forall ref, epoch_of ref d1 = epoch_of ref d) by (intros; by rewrite Hd1, epoch_allocated).
  eapply wp_put_new; [done|done| |exact Hn|].
  - intros _. split_and!; [simpl; by destruct bornCanceled| |apply HM].
    intros _ _ _ _. split; simpl; rewrite ?Ht, ?Hsh; [by rewrite He|].
    intros shown ->. simpl. by rewrite He.
  - intros d2 Hg2 Hd2. apply wp_tx_bind. eapply wp_retire_superseded; [done|].
    intros ids d3 Hg3 [Hs3 He3]. tx_step. apply HQ; [done|]. split.
    + intros s Hs Hss. apply Hs3; [|done]. rewrite Hd2, records_set_eq, lookup_insert_ne.
      * rewrite Hd1. by destruct d.
      * intros E. specialize (Hn outbox). simpl in E. rewrite E in Hn.
        rewrite Hd1 in Hn. simpl in *. congruence.
    + intros ref. rewrite He3, Hd2, epoch_set. apply He.
Qed.

Lemma keeps_mintRetry host id capture : mints host -> keeps M (mintRetryFromRow_tx host id capture).
Proof.
  intros HM S d0 d Hg. unfold mintRetryFromRow_tx. tx_step.
  destruct (records outbox d !! id) as [r|] eqn:Hr; [|by tx_step].
  destruct (captured capture) as [c|]; [|by tx_step]. tx_if; [by tx_step|].
  assert (Hid : clientMutationId r = id) by (by apply (wf_keyed _ _ (good_wf _ _ _ _ _ Hg) outbox)). subst id.
  apply wp_tx_bind. apply (wp_tx_mono M _ (fun _ d' => good M S d0 d')).
  - intros _ d1 Hg1. tx_step. apply wp_tx_bind. eapply wp_ok; [apply displayed_eq|]. cbv beta zeta.
    apply wp_tx_bind. eapply wp_mint; [done|done|done|done|]. intros out d2 Hg2 _. by tx_step.
  - destruct (state_eqb (state r) blockedUnknown) eqn:Hst.
    + apply bool_decide_eq_true in Hst. eapply wp_put_row; [done|done| |done].
      apply rewrites_supersede. congruence.
    + by apply keeps_erase.
Qed.

(** *** Attempt evidence *)

Ltac the_row Hg Hr :=
  lazymatch type of Hr with
  | records ?t ?d !! ?id = Some ?r =>
      assert (clientMutationId r = id) by (exact (wf_keyed _ _ (good_wf _ _ _ _ _ Hg) t id r Hr)); subst id
  end.

(** A put of a rewritten row, and whatever the body answers after it. *)
Lemma keeps_answer {A} S d0 d (r r' : WebRecord) (a : A) :
  good M S d0 d -> records outbox d !! clientMutationId r = Some r -> rewrites d r r' ->
  wp M (put outbox r' ;; tx_ret a) (fun _ => good M S d0) d.
Proof. intros Hg Hr Hw. apply wp_tx_bind. eapply wp_put_row; [done..|]. intros d' Hg' _. by tx_step. Qed.

Lemma keeps_markAttempted id : keeps M (markAttempted_tx id).
Proof.
  intros S d0 d Hg. unfold markAttempted_tx. tx_step.
  destruct (records outbox d !! id) as [r|] eqn:Hr; [|by tx_step]. the_row Hg Hr.
  destruct (state_eqb (state r) submitting) eqn:Hst; simpl negb; cbv iota; [|by tx_step].
  apply bool_decide_eq_true in Hst. tx_if.
  - tx_step. apply wp_tx_bind. eapply wp_ok; [apply displayed_eq|].
    apply wp_tx_bind. eapply wp_ok; [apply fence_eq|]. tx_if; (eapply keeps_answer; [done..|]).
    + solve_rewrites.
    + solve_rewrites.
  - eapply keeps_answer; [done..|]. solve_rewrites.
Qed.

Lemma keeps_unmarkAttempted id : keeps M (unmarkAttempted_tx id).
Proof.
  intros S d0 d Hg. unfold unmarkAttempted_tx. tx_step.
  destruct (records outbox d !! id) as [r|] eqn:Hr; [|by tx_step]. the_row Hg Hr.
  destruct (state r) eqn:Hst; try by tx_step.
  - apply wp_tx_bind. eapply wp_ok; [apply fence_eq|].
    repeat tx_if; (eapply keeps_answer; [done..|]); solve_rewrites.
  - apply wp_tx_bind. eapply wp_ok; [apply fence_eq|].
    repeat tx_if; (eapply keeps_answer; [done..|]); solve_rewrites.
Qed.

Lemma keeps_markUnknown id b : keeps M (markUnknown_tx id b).
Proof.
  intros S d0 d Hg. unfold markUnknown_tx. tx_step.
  destruct (records outbox d !! id) as [r|] eqn:Hr; [|by tx_step]. the_row Hg Hr.
  pose proof (good_current _ _ _ _ _ Hg _ _ Hr) as Hf.
  pose proof (wf_outbox _ _ (good_wf _ _ _ _ _ Hg) _ _ Hr) as Ha.
  tx_if; [by tx_step|]. destruct (state r) eqn:Hst; try by tx_step.
  - eapply keeps_answer; [done..|]. solve_rewrites.
  - exact Hg.
  - by destruct Ha.
Qed.

(** *** Reconciliation *)

Definition parked (ref : string) (d : WebDb) (l : list WebRecord) : Prop :=
  own_rows outbox d l /\ Forall (fun r : WebRecord => state r = blockedUnknown /\ targetRef r = ref) l.

Lemma parked_insert ref d (r r' : WebRecord) l :
  clientMutationId r ∉ rid <$> l -> parked ref d l ->
  parked ref (set_records outbox (<[clientMutationId r := r']> (records outbox d)) d) l.
Proof. intros Hn [Hown Hp]. split; [by apply own_rows_insert|done]. Qed.

Lemma parked_spares ref d d' l : spares d d' -> parked ref d l -> parked ref d' l.
Proof.
  intros [Hs _] [[Hnd Hown] Hp]. split; [split; [done|]|done]. rewrite Forall_forall in *.
  intros r Hr. destruct (Hp r Hr) as [Hst _]. apply Hs; [by apply Hown|congruence].
Qed.

Lemma wp_restore_one S d0 d host n ref (r : WebRecord) l (Q : _ -> WebDb -> Prop) :
  mints host -> good M S d0 d -> parked ref d (r :: l) ->
  (forall out d', good M S d0 d' -> parked ref d' l -> epoch_of ref d' = epoch_of ref d -> Q out d') ->
  wp M (restore_one host n (epoch_of ref d) r) Q d.
Proof.
  intros HM Hg [Hown [[Hst Href] Hp]%Forall_cons] HQ.
  destruct (own_rows_cons _ _ _ _ Hown) as (Hr & Hn & Hl). clear Hown.
  pose proof (good_current _ _ _ _ _ Hg _ _ Hr) as Hf.
  assert (Hput : forall (r' : WebRecord) (Q' : unit -> WebDb -> Prop), rewrites d r r' ->
    (forall d', good M S d0 d' -> parked ref d' l -> (forall ref, epoch_of ref d' = epoch_of ref d) -> Q' tt d') ->
    wp M (put outbox r') Q' d).
  { intros r' Q' Hw HQ'. eapply wp_put_row; [done..|]. intros d' Hg' ->. apply HQ'; [done| |].
    - by apply parked_insert.
    - intros. apply epoch_set. }
  unfold restore_one. apply wp_tx_bind. eapply wp_ok; [apply displayed_eq|].
  apply wp_tx_bind. eapply wp_ok; [apply fence_eq|]. tx_if.
  - tx_if; apply wp_tx_bind, Hput; try solve_rewrites; intros d' Hg' Hp' He; tx_step; by apply HQ.
  - apply wp_tx_bind. eapply (wp_ok _ _ _ _ d).
    { instantiate (1 := if String.eqb (method r) NOTES_HUMAN_SET then _ else _).
      unfold newerNoteSaveWaiting. destruct (String.eqb _ _); reflexivity. }
    apply wp_tx_bind, Hput; [apply rewrites_supersede; congruence|]. intros d' Hg' Hp' He.
    tx_if; [tx_step; by apply HQ|].
    apply wp_tx_bind. eapply wp_mint; [done|done| | |].
    + simpl. by rewrite Href, He.
    + simpl. destruct (displayedRef r); [|done]. simpl. by rewrite He.
    + intros out d2 Hg2 Hs2. tx_step. apply HQ; [done|by eapply parked_spares|].
      destruct Hs2 as [_ ->]. by rewrite He.
Qed.

Lemma wp_restore_loop S d0 host ref l : mints host -> forall n d,
  good M S d0 d -> parked ref d l -> wp M (restore_loop host n (epoch_of ref d) l) (fun _ => good M S d0) d.
Proof.
  intros HM. induction l as [|r l IH]; intros n d Hg Hp; [done|]. cbn [restore_loop].
  apply wp_tx_bind. eapply wp_restore_one; [done..|]. intros out d1 Hg1 Hp1 He.
  apply wp_tx_bind. rewrite <- He. eapply wp_tx_mono, IH; [|done..]. intros rest d2 Hg2. by tx_step.
Qed.

Lemma keeps_restoreProvenAbsent host ref ids : mints host -> keeps M (restoreProvenAbsent_tx host ref ids).
Proof.
  intros HM S d0 d Hg. unfold restoreProvenAbsent_tx. do 2 tx_step. apply wp_restore_loop; [done..|].
  split; [eapply own_rows_filter, (own_all _ outbox), Hg|].
  apply Forall_forall. intros r [Hr _]%list_elem_of_filter. unfold restorable in Hr.
  apply andb_prop in Hr as [[Ht%String.eqb_eq Hs%bool_decide_eq_true]%andb_prop _]. done.
Qed.

(** *** Retargeting *)

Lemma obj_get_unset_ne k k' o : k <> k' -> obj_get k (obj_unset k' o) = obj_get k o.
Proof.
  intros Hne. unfold obj_unset. induction o as [|[j v] o IH]; [done|].
  rewrite filter_cons. simpl. destruct (String.eqb_spec k j) as [<-|].
  - rewrite decide_True by done. simpl. by rewrite String.eqb_refl.
  - case_decide; [|done]. simpl. by rewrite (proj2 (String.eqb_neq k j)).
Qed.

Lemma retargeted_wire toRef identity e n r : effectiveWireId (retargeted toRef identity e n r) = effectiveWireId r.
Proof.
  unfold effectiveWireId, payload_id. simpl payload. simpl clientMutationId.
  destruct (obj_has _ _); [|by rewrite obj_get_set_ne].
  destruct (or_else _ _); [by rewrite !obj_get_set_ne|].
  by rewrite obj_get_unset_ne, obj_get_set_ne.
Qed.

(** Everything at [toRef] has a sequence of at most [last]. *)
Definition upto (b : string -> Z) (toRef : string) (last : Z) (ref : string) : Z :=
  if decide (ref = toRef) then last else b ref.

Lemma good_retargeted S d0 b t toRef identity last d (r : WebRecord) :
  good_at M S d0 (upto b toRef last) d -> records t d !! clientMutationId r = Some r ->
  let r' := update_record (retargeted toRef identity (epoch_of toRef d) (last + 1)) r in
  put t r' d = inl (set_records t (<[clientMutationId r := r']> (records t d)) d, tt) /\
  good_at M S d0 (upto b toRef (last + 1)) (set_records t (<[clientMutationId r := r']> (records t d)) d).
Proof.
  intros Hg Hr r'.
  apply (good_put M S d0 (upto b toRef last) (upto b toRef (last + 1)) t r' d); [done| | | | | |].
  - intros ref. unfold upto. case_decide; lia.
  - unfold upto. simpl. rewrite decide_True by done. lia.
  - intros t' id s Hs E1 E2. pose proof (wf_bounded _ _ (good_wf _ _ _ _ _ Hg) _ _ _ Hs) as Hb.
    simpl in E1, E2. unfold upto in Hb. rewrite decide_True in Hb by done. lia.
  - intros s HS E1 E2. destruct (good_reserved _ _ _ _ _ Hg s HS) as [Hb _].
    simpl in E1, E2. unfold upto in Hb. rewrite decide_True in Hb by done. lia.
  - intros ->. split_and!.
    + exact (wf_outbox _ _ (good_wf _ _ _ _ _ Hg) _ _ Hr).
    + pose proof (good_current _ _ _ _ _ Hg _ _ Hr) as Hf. intros Hp Ha Hu He. simpl in *.
      destruct (stopEpochAtEnqueue r) eqn:E; [|by destruct He].
      destruct (Hf Hp Ha Hu) as [_ Hd]; [by rewrite E|]. split; simpl; [by rewrite E|done].
    + right. exists r. split; [done|]. split_and!; try done. apply retargeted_wire.
  - split; intros ->; apply eq_None_not_Some; intros [s Hs].
    + exact (wf_apart _ _ (good_wf _ _ _ _ _ Hg) _ r s Hr Hs).
    + exact (wf_apart _ _ (good_wf _ _ _ _ _ Hg) _ s r Hs Hr).
Qed.

Lemma wp_move_all S d0 b t toRef identity l : forall last d,
  good_at M S d0 (upto b toRef last) d -> own_rows t d l ->
  wp M (move_all t toRef identity (epoch_of toRef d) last l) (fun _ d' =>
    good_at M S d0 (upto b toRef (last + Z.of_nat (length l))) d' /\
    (forall t', t' <> t -> records t' d' = records t' d) /\ s_sequences d' = s_sequences d) d.
Proof.
  induction l as [|r l IH]; intros last d Hg Hown.
  { split_and!; [|done|done]. simpl. by rewrite Z.add_0_r. }
  destruct (own_rows_cons _ _ _ _ Hown) as (Hr & Hn & Hl). cbn [move_all].
  destruct (good_retargeted S d0 b t toRef identity last d r) as [Hput Hg1]; [done..|].
  apply wp_tx_bind. eapply wp_ok; [exact Hput|]. apply wp_tx_bind.
  set (d1 := set_records t _ d) in *.
  assert (He : epoch_of toRef d = epoch_of toRef d1) by (unfold d1; by rewrite epoch_set).
  rewrite He. eapply wp_tx_mono, IH; [|exact Hg1|by apply own_rows_insert].
  intros rest d2 (Hg2 & Hrec & Hseq). tx_step. split_and!.
  - replace (last + Z.of_nat (length (r :: l)))%Z with (last + 1 + Z.of_nat (length l))%Z by (simpl; lia). done.
  - intros t' Ht'. rewrite Hrec by done. unfold d1. by rewrite records_set_ne.
  - rewrite Hseq. apply sequences_set.
Qed.

Lemma own_in_order b t (P : WebRecord -> bool) d :
  wf_at b d -> own_rows t d (in_order P (all_records (records t d))).
Proof.
  intros Hw. unfold in_order. eapply own_rows_perm; [symmetry; apply sort_by_perm|].
  by eapply own_rows_filter, own_all.
Qed.

(** The move ends by recording how far it counted. *)
Lemma good_counted S d0 b toRef last e d :
  good_at M S d0 (upto b toRef last) d -> (forall ref, b ref <= last_of ref d)%Z ->
  (last_of toRef d <= last)%Z -> e = s_sequences d !! toRef ≫= sequenceStopEpoch ->
  good M S d0 (set_sequence toRef (mkTargetSequence last e) d).
Proof.
  intros [Hw Hc Hv Hs] Hb Hl ->. set (d' := set_sequence _ _ d).
  assert (He : forall ref, epoch_of ref d' = epoch_of ref d).
  { intros ref. unfold d', epoch_of. simpl. destruct (decide (toRef = ref)) as [<-|];
      [by rewrite lookup_insert_eq|by rewrite lookup_insert_ne]. }
  assert (Hl' : forall ref, last_of ref d' = upto (fun ref => last_of ref d) toRef last ref).
  { intros ref. unfold d', last_of, upto. simpl. case_decide as E; [subst; by rewrite lookup_insert_eq|].
    by rewrite lookup_insert_ne. }
  apply (good_at_mono _ _ _ (upto b toRef last)).
  { intros ref. rewrite Hl'. unfold upto. case_decide; [done|apply Hb]. }
  split.
  - eapply wf_at_sub, Hw. by intros [].
  - by eapply current_sub, Hc.
  - eapply evolves_trans; [done|]. split; [|intros; by rewrite He|].
    + intros ref. rewrite Hl'. unfold upto. case_decide; [by subst|done].
    + intros id r Hr. right. by exists r.
  - intros s HS. destruct (Hs s HS) as [? Hf]. split; [done|].
    intros t id r. unfold d'. rewrite records_sequence. apply Hf.
Qed.

Lemma keeps_retargetOutbox fromRef toRef identity : keeps M (retargetOutbox_tx fromRef toRef identity).
Proof.
  intros S d0 d Hg. unfold retargetOutbox_tx. do 5 tx_step.
  change (default 0%Z (lastSequence <$> s_sequences d !! toRef)) with (last_of toRef d).
  set (lo := in_order _ (all_records (records outbox d))).
  set (lp := in_order _ (all_records (records optimistic d))).
  set (lv := in_order _ (all_records (records recovery d))).
  pose proof (good_wf _ _ _ _ _ Hg) as Hw.
  assert (Hg0 : good_at M S d0 (upto (fun ref => last_of ref d) toRef (last_of toRef d)) d).
  { eapply good_at_mono, Hg. intros ref. unfold upto. case_decide; subst; lia. }
  apply wp_tx_bind. eapply wp_tx_mono, wp_move_all; [|exact Hg0|by eapply own_in_order].
  intros o' d1 (Hg1 & Hr1 & Hs1). apply wp_tx_bind.
  assert (He1 : epoch_of toRef d = epoch_of toRef d1) by (unfold epoch_of; by rewrite Hs1). rewrite He1.
  eapply wp_tx_mono, wp_move_all; [|exact Hg1|].
  2:{ eapply own_rows_same, own_in_order, Hw. by apply Hr1. }
  intros p' d2 (Hg2 & Hr2 & Hs2). apply wp_tx_bind.
  assert (He2 : epoch_of toRef d1 = epoch_of toRef d2) by (unfold epoch_of; by rewrite Hs2). rewrite He2.
  eapply wp_tx_mono, wp_move_all; [|exact Hg2|].
  2:{ eapply own_rows_same, own_in_order, Hw. rewrite Hr2 by done. by apply Hr1. }
  intros v' d3 (Hg3 & _ & Hs3). cbv beta zeta.
  set (last3 := (_ + _ + _ + _)%Z) in *.
  assert (Hseq : s_sequences d3 = s_sequences d) by congruence.
  assert (Hl : forall ref, last_of ref d3 = last_of ref d) by (intros; unfold last_of; by rewrite Hseq).
  apply wp_tx_bind. apply (wp_tx_mono M _ (fun _ => good M S d0)); [by intros ? ? ?|]. tx_if.
  - apply wp_tx_ret. eapply good_at_mono, Hg3. intros ref. rewrite Hl. unfold upto. case_decide; subst; lia.
  - eapply wp_ok; [reflexivity|]. eapply good_counted; [exact Hg3| | |by rewrite Hseq].
    + intros ref. by rewrite Hl.
    + rewrite Hl. unfold last3. lia.
Qed.

(** *** Settlement *)

Definition nothing : MutationRecord -> Prop := fun _ => False.

(** [keeps] from the start of a transaction, where no place is reserved yet. *)
Definition keeps_opening {A} (p : tx A) : Prop :=
  forall d0 d, good M nothing d0 d -> wp M p (fun _ => good M nothing d0) d.

Lemma keeps_opens {A} (p : tx A) : keeps M p -> keeps_opening p.
Proof. intros Hp d0 d. apply Hp. Qed.

Lemma good_reserve d0 t (r : WebRecord) d :
  good M nothing d0 d -> records t d !! clientMutationId r = Some r ->
  good M (fun s => s = record r) d0 d.
Proof.
  intros Hg Hr. pose proof (good_holds _ _ _ _ _ _ Hg Hr) as Hres. destruct Hg as [Hw Hc Hv _].
  split; [done|done|done|]. by intros s ->.
Qed.

Lemma good_forget S d0 d : good M S d0 d -> good M nothing d0 d.
Proof. intros [Hw Hc Hv _]. by split. Qed.

Lemma keeps_discardSupersededNoteRecovery source : keeps M (discardSupersededNoteRecovery source).
Proof.
  unfold discardSupersededNoteRecovery. case_match; [apply keeps_tx_ret|].
  apply keeps_tx_read; [by eexists|]. intros rows. apply keeps_tx_bind; [|intros; apply keeps_tx_ret].
  auto with web_keeps.
Qed.

Lemma retireOlder_eq S d0 source d :
  good M S d0 d -> exists ids d', retireOlderBlockedNoteRows source d = inl (d', ids) /\ good M S d0 d' /\
    d' = (if String.eqb (method source) NOTES_HUMAN_SET
          then set_records outbox (updated_where (older_blocked_note source)
                 (update_record (with_state superseded)) (records outbox d)) d
          else d).
Proof.
  intros Hg. unfold retireOlderBlockedNoteRows. destruct (String.eqb _ _); simpl negb; cbv iota.
  - destruct (update_rows M S d0 (older_blocked_note source) (update_record (with_state superseded)))
      with (d := d) as [Hm Hg']; [|done|].
    + intros d' r _ _ Hp. apply rewrites_supersede. unfold older_blocked_note in Hp.
      apply andb_prop in Hp as [_ Hp%bool_decide_eq_true]. congruence.
    + eexists _, _. split_and!; [exact Hm|exact Hg'|done].
  - exists [], d. by split_and!.
Qed.

Lemma keeps_retireOlderBlockedNoteRows source : keeps M (retireOlderBlockedNoteRows source).
Proof. intros S d0 d Hg. destruct (retireOlder_eq S d0 source d Hg) as (ids & d' & Hm & Hg' & _). by eapply wp_ok. Qed.

Lemma keeps_sweep_settled id s ids : keeps M (sweep_settled id s ids).
Proof. apply keeps_tx_bind; [apply keeps_retireWireFamily|intros; apply keeps_tx_ret]. Qed.

(** What [settling] finds: the records under the id, the wire and its family, and a
    subject of that wire that some store holds. *)
Record settles (id : string) (d : WebDb) (s : Settling) : Prop := {
  st_outbox : named_outbox s = records outbox d !! id;
  st_optimistic : named_optimistic s = records optimistic d !! id;
  st_recovery : named_recovery s = records recovery d !! id;
  st_family_outbox : family_outbox (family s) = of_wire (wire s) (all_records (records outbox d));
  st_family_optimistic : family_optimistic (family s) = of_wire (wire s) (all_records (records optimistic d));
  st_named : forall r, named s = Some r -> subject s = r /\ clientMutationId r = id;
  st_unnamed : named s = None -> wire s = id /\ forall t, records t d !! id = None;
  st_named_outbox : forall r, records outbox d !! id = Some r -> named s = Some r;
  st_carriers : wireCarriers s <> [] -> named s = None /\
    forall r : WebRecord, r ∈ family_outbox (family s) ++ family_optimistic (family s) -> clientMutationId r = id;
  st_wire : effectiveWireId (subject s) = wire s;
  st_subject : exists t, records t d !! clientMutationId (subject s) = Some (subject s)
}.

(** A choice among the records under an id, the outbox's first. *)
Definition chooses (pick : option WebRecord -> option WebRecord -> option WebRecord -> option WebRecord) : Prop :=
  forall o p v, (forall r, pick o p v = Some r -> o = Some r \/ p = Some r \/ v = Some r) /\
    (pick o p v = None -> o = None /\ p = None /\ v = None) /\ (forall r, o = Some r -> pick o p v = Some r).

Lemma chooses_receipt : chooses (fun o p v => or_else o (or_else v p)).
Proof. intros o p v. destruct o, p, v; simpl; split_and!; try done; intros r [= ->]; auto. Qed.

Lemma chooses_applied : chooses (fun o p v => or_else o (or_else p v)).
Proof. intros o p v. destruct o, p, v; simpl; split_and!; try done; intros r [= ->]; auto. Qed.

Lemma own_wire S d0 d t w (r : WebRecord) :
  good M S d0 d -> r ∈ of_wire w (all_records (records t d)) ->
  effectiveWireId r = w /\ records t d !! clientMutationId r = Some r.
Proof.
  intros Hg [Hw Hr]%elem_of_wire. split; [done|].
  destruct (own_all _ t _ (good_wf _ _ _ _ _ Hg)) as [_ Hall]. rewrite Forall_forall in Hall. by apply Hall.
Qed.

Lemma head_elem {A} (P : A -> Prop) `{!forall x, Decision (P x)} l x : head (filter P l) = Some x -> P x /\ x ∈ l.
Proof.
  intros Hh. apply (list_elem_of_filter P). destruct (filter P l) as [|y l']; simplify_eq/=. by left.
Qed.

Lemma wp_settling S d0 d id pick (Q : option Settling -> WebDb -> Prop) :
  good M S d0 d -> chooses pick -> ((forall t, records t d !! id = None) -> Q None d) ->
  (forall s, settles id d s -> Q (Some s) d) ->
  wp M (settling id pick) Q d.
Proof.
  intros Hg Hpick HN HS. unfold settling. do 3 tx_step.
  destruct (Hpick (records outbox d !! id) (records optimistic d !! id) (records recovery d !! id))
    as (Hsome & Hnone & Hfirst).
  set (n := pick _ _ _) in *.
  apply wp_tx_bind. eapply wp_ok; [apply resolve_eq|]. cbv beta zeta.
  set (w := match n with Some r => _ | None => id end).
  set (fam := mkFamily _ _ _). apply wp_tx_bind.
  destruct n as [r|] eqn:Hn; [|destruct (Hnone eq_refl) as (Ho & Hp & Hv)].
  - apply wp_tx_ret. tx_step. apply HS.
    assert (Hr : clientMutationId r = id /\ exists t, records t d !! id = Some r).
    { destruct (Hsome r eq_refl) as [E|[E|E]]; pose proof (wf_keyed _ _ (good_wf _ _ _ _ _ Hg) _ _ _ E); eauto. }
    destruct Hr as [Hid Ht]. split; try done; [by intros ? [= <-]|]. simpl. by rewrite Hid.
  - assert (Hall : forall t, records t d !! id = None) by (by intros []).
    destruct (filter _ _) as [|s0 l] eqn:Hsib.
    + apply wp_tx_bind. eapply wp_ok; [apply resolve_eq|]. do 2 tx_step. simpl or_else.
      destruct (head _) as [c|] eqn:Hc; [|by apply HN]. apply HS.
      apply head_elem in Hc as [_ Hc]. destruct (own_wire _ _ _ recovery _ _ Hg Hc). split; try done; [|eauto].
      intros _. split; [done|]. intros r Hr. destruct (decide (clientMutationId r = id)); [done|].
      assert (Hin : r ∈ @nil WebRecord); [|by apply not_elem_of_nil in Hin].
      rewrite <- Hsib. by apply list_elem_of_filter.
    + apply wp_tx_ret. tx_step. apply HS.
      assert (s0 ∈ family_outbox fam ++ family_optimistic fam) as [Hs|Hs]%elem_of_app.
      { assert (Hin : s0 ∈ s0 :: l) by (by left). rewrite <- Hsib in Hin. by apply list_elem_of_filter in Hin as [_ ?]. }
      * destruct (own_wire _ _ _ outbox _ _ Hg Hs). split; try done; eauto.
      * destruct (own_wire _ _ _ optimistic _ _ Hg Hs). split; try done; eauto.
Qed.

Lemma keeps_opening_bind {A B} (p : tx A) (k : A -> tx B) :
  keeps_opening p -> (forall a, keeps_opening (k a)) -> keeps_opening (tx_bind p k).
Proof. intros Hp Hk d0 d Hg. apply wp_tx_bind. eapply wp_tx_mono, Hp, Hg. intros a d' Hg'. by apply Hk. Qed.

(** Both settlements: once the subject is found, the rest only erases, supersedes and
    files the subject's own copy. *)
Lemma keeps_settle {A} id pick (k : Settling -> tx A) none :
  chooses pick ->
  (forall s d0 d, good M (fun x => x = record (subject s)) d0 d -> wp M (k s) (fun _ => good M nothing d0) d) ->
  keeps_opening (found ← settling id pick; match found with None => tx_ret none | Some s => k s end).
Proof.
  intros Hpick Hk d0 d Hg. apply wp_tx_bind. eapply wp_settling; [done|done|intros _; by apply wp_tx_ret|].
  intros s Hs. apply Hk. destruct (st_subject _ _ _ Hs) as [t Ht]. by eapply good_reserve.
Qed.

Lemma keeps_settle_tail S id s (b1 b2 b3 : tx unit) ids :
  keeps M b1 -> keeps M b2 -> keeps M b3 -> forall d0 d, good M S d0 d ->
  wp M ((if present (named s) then b1 else match wireCarriers s with _ :: _ => b2 | [] => b3 end) ;;
        out ← sweep_settled id s ids; tx_ret (Some out)) (fun _ => good M nothing d0) d.
Proof.
  intros H1 H2 H3 d0 d Hg.
  eapply (wp_tx_mono M _ (fun _ => good M S d0)); [intros ? ?; apply good_forget|].
  apply (keeps_tx_bind M); [by repeat case_match| |done]. intros [].
  apply keeps_tx_bind; [apply keeps_sweep_settled|intros; apply keeps_tx_ret].
Qed.

Lemma keeps_settleReceipt id p : keeps_opening (settleReceipt_tx id p).
Proof.
  unfold settleReceipt_tx. apply (keeps_settle id _ _ None).
  { apply chooses_receipt. }
  intros s d0 d Hg. set (S := fun x => _) in Hg.
  apply wp_tx_bind. eapply wp_tx_mono, keeps_discardSupersededNoteRecovery, Hg. intros [] d1 Hg1.
  apply wp_tx_bind. eapply wp_tx_mono, keeps_retireOlderBlockedNoteRows, Hg1. intros ids d2 Hg2. cbv beta zeta.
  apply wp_tx_bind. apply (wp_tx_mono M _ (fun _ => good M S d0)).
  - intros [] d3 Hg3. apply (keeps_settle_tail S); [..|done]; keeps_auto.
  - destruct (retainsAcceptedCopy _ _).
    + eapply (wp_put_reserved M S d0); [done|reflexivity|done|done|done|done|done| |auto]. by intros ? ->.
    + by apply keeps_erase_when.
Qed.

Lemma keeps_settleApplied id : keeps_opening (settleApplied_tx id).
Proof.
  unfold settleApplied_tx. apply (keeps_settle id _ _ None).
  { apply chooses_applied. }
  intros s d0 d Hg.
  apply wp_tx_bind. eapply wp_tx_mono, keeps_discardSupersededNoteRecovery, Hg. intros [] d1 Hg1.
  apply wp_tx_bind. eapply wp_tx_mono, keeps_retireOlderBlockedNoteRows, Hg1. intros ids d2 Hg2.
  eapply keeps_settle_tail, Hg2; keeps_auto.
Qed.

Lemma keeps_sweepSettled w ids : keeps M (sweepSettled_tx w ids).
Proof. exact (keeps_retireWireSiblings M [recovery] w (mkSweep ids false true false)). Qed.

Lemma keeps_discardCanceledNotes source : keeps M (discardCanceledNotes_tx source).
Proof. apply keeps_tx_read; [by eexists|auto with web_keeps]. Qed.

(** *** Recovery *)

(** A row filed as a recovery and taken off the outbox: the two writes commute, and in
    the other order no key is ever in both stores. *)
Lemma wp_file_row S d0 d (r moved : WebRecord) (Q : unit -> WebDb -> Prop) :
  good M S d0 d -> records outbox d !! clientMutationId r = Some r ->
  clientMutationId moved = clientMutationId r -> targetRef moved = targetRef r ->
  intentSequence moved = intentSequence r -> (forall d', good M S d0 d' -> Q tt d') ->
  wp M (put recovery moved ;; erase outbox (clientMutationId r)) Q d.
Proof.
  intros Hg Hr Hid Ht Hs HQ. set (d1 := set_records outbox (delete (clientMutationId r) (records outbox d)) d).
  assert (Hg1 : good M S d0 d1) by (by apply good_erase).
  destruct (put_at M S d0 recovery moved d1) as [_ Hg2]; [done| | |done| |].
  - destruct (reserved_place (fun ref => last_of ref d) r moved d) as [Hb Hf]; [done..|by eapply good_holds|].
    split; [unfold d1; by rewrite last_set|]. intros t id s. unfold d1. rewrite records_set.
    case_decide as E; [subst|by apply Hf]. intros [_ Hl]%lookup_delete_Some. by apply (Hf outbox).
  - intros s HS E1 E2. rewrite Hid.
    apply (proj2 (good_reserved _ _ _ _ _ Hg s HS) outbox _ r); [done|congruence|congruence].
  - split; [done|]. intros _. rewrite Hid. unfold d1. rewrite records_set_eq. apply lookup_delete_eq.
  - apply wp_tx_bind. eapply wp_ok; [reflexivity|]. eapply wp_ok; [reflexivity|]. by apply HQ.
Qed.

Lemma keeps_transfer_row S d0 d (r : WebRecord) kind reason u :
  good M S d0 d -> records outbox d !! clientMutationId r = Some r ->
  wp M (transfer_row r kind reason u) (fun _ => good M S d0) d.
Proof.
  intros Hg Hr. apply (wp_assoc M (put recovery _)), wp_tx_bind. eapply wp_file_row; [done..|].
  intros d1 Hg1. by tx_step.
Qed.

Lemma keeps_transferToRecovery id kind reason u : keeps M (transferToRecovery_tx id kind reason u).
Proof.
  intros S d0 d Hg. unfold transferToRecovery_tx. tx_step.
  destruct (records outbox d !! id) as [r|] eqn:Hr; [|by tx_step]. the_row Hg Hr.
  tx_if; [by apply keeps_transfer_row|]. tx_step. tx_if; [by tx_step|].
  apply wp_tx_bind. eapply wp_ok; [apply resolve_eq|]. cbv beta zeta.
  destruct (wire_carrier _ _) as [c|]; [|by apply keeps_transfer_row].
  apply wp_tx_bind. eapply wp_erase; [done|]. intros d1 Hg1 _. by tx_step.
Qed.

Lemma keeps_editQueuedMessage e barrier : keeps M (editQueuedMessage_tx e barrier).
Proof.
  intros S d0 d Hg. unfold editQueuedMessage_tx. tx_step.
  destruct (records outbox d !! clientMutationId e) as [r|] eqn:Hr; [|by tx_step].
  assert (Hid : clientMutationId r = clientMutationId e) by exact (wf_keyed _ _ (good_wf _ _ _ _ _ Hg) outbox _ r Hr).
  rewrite <- Hid in Hr. tx_if; [by tx_step|]. tx_step. tx_if; [by tx_step|]. tx_step. tx_if; [by tx_step|].
  apply wp_tx_bind. eapply wp_ok; [apply resolve_eq|]. cbv beta zeta. tx_if; [by tx_step|].
  apply (wp_assoc M (put recovery _)), wp_tx_bind. eapply wp_file_row; [done..|]. intros d2 Hg2. apply (keeps_tx_bind M); [|intros; apply keeps_tx_ret|done].
  destruct (wire_carrier _ _); auto with web_keeps.
Qed.

Lemma keeps_removeQueuedMessage e barrier : keeps M (removeQueuedMessage_tx e barrier).
Proof.
  unfold removeQueuedMessage_tx. apply keeps_tx_read; [by eexists|]. intros [r|]; [|apply keeps_tx_ret]. case_match; [apply keeps_tx_ret|].
  apply keeps_tx_read; [by eexists|]. intros ep. case_match; [apply keeps_tx_ret|].
  keeps_auto.
Qed.

Lemma consumed_sources_reads ref expected ids d : exists o, consumed_sources ref expected ids d = inl (d, o).
Proof.
  induction ids as [|id ids [o IH]]; [by eexists|]. simpl. unfold tx_bind at 1, get. simpl.
  destruct (s_recovery d !! id) as [s|]; [|by eexists].
  destruct (_ || _); [by eexists|]. unfold tx_bind. rewrite IH. by eexists.
Qed.

Lemma keeps_sweep_wires scope ex ws : keeps M (sweep_wires scope ex ws).
Proof. apply keeps_collect. intros. apply keeps_retireWireSiblings. Qed.

Lemma keeps_updateRecoveryInput id u : keeps M (updateRecoveryInput_tx id u).
Proof.
  intros S d0 d Hg. unfold updateRecoveryInput_tx. tx_step.
  destruct (records recovery d !! id) as [r|] eqn:Hr; [|by tx_step]. the_row Hg Hr.
  tx_if; [by tx_step|]. set (sources := filter _ _).
  destruct (consumed_sources_reads (targetRef r)
    (fun s => expected_revision s (clientMutationId r) u) sources d) as [o Ho].
  apply wp_tx_bind. eapply wp_ok; [exact Ho|]. destruct o as [consumed|]; [|by tx_step].
  apply wp_tx_bind. eapply (wp_put_same M S d0 recovery r); [done..|]. intros d1 Hg1 _.
  apply (keeps_tx_bind M); [apply keeps_sweep_wires| |done]. intros ids.
  apply keeps_tx_bind; [auto with web_keeps|intros; apply keeps_tx_ret].
Qed.

Lemma keeps_preserveRecoveryComposition host base input atts text mentions owner draft :
  mints host -> keeps M (preserveRecoveryComposition_tx host base input atts text mentions owner draft).
Proof.
  intros HM S d0 d Hg. unfold preserveRecoveryComposition_tx. tx_step.
  assert (Hmint : wp M (
    sequence ← allocateSequence (targetRef base);
    assertMutationIdAvailable (createMutationId host 0) ;;
    stopEpoch ← stopEpochOf (targetRef base);
    let r := plain (preservedRecord host base input atts text mentions owner draft sequence stopEpoch) in
    put recovery r ;; tx_ret r) (fun _ => good M S d0) d).
  { eapply wp_allocate; [done|]. intros d1 Hg1 Hv Hd1.
    apply wp_tx_bind, wp_assert; [apply HM|]. intros Hn. tx_step.
    apply wp_tx_bind. eapply wp_put_new; [done|done|done|exact Hn|]. intros d2 Hg2 _. by tx_step. }
  destruct (records recovery d !! _) as [s|]; [|exact Hmint]. tx_if; [by tx_step|exact Hmint].
Qed.

Lemma keeps_discardRecovery id b e : keeps M (discardRecovery_tx id b e).
Proof.
  unfold discardRecovery_tx. apply keeps_tx_read; [by eexists|]. intros [r|]; [|apply keeps_tx_ret]. case_match; [apply keeps_tx_ret|].
  keeps_auto.
Qed.

Lemma gather_reads x ids : forall g d, exists g', gather x ids g d = inl (d, g').
Proof.
  induction ids as [|id ids IH]; intros g d; [by eexists|]. simpl. unfold tx_bind, get. simpl.
  destruct (s_recovery d !! id); apply IH.
Qed.

Lemma keeps_resendRecovery host sources x : mints host -> keeps M (resendRecovery_tx host sources x).
Proof.
  intros HM S d0 d Hg. unfold resendRecovery_tx. cbv zeta.
  destruct (js_set sources) as [|id0 ids0]; [by tx_step|]. set (ids := id0 :: ids0).
  destruct (gather_reads x ids (mkGathered false false [] [] []) d) as [g Hgather].
  apply wp_tx_bind. eapply wp_ok; [exact Hgather|]. tx_if; [by tx_step|]. tx_if; [by tx_step|].
  eapply wp_allocate; [done|]. intros d1 Hg1 Hv Hd1.
  apply wp_tx_bind, wp_assert; [apply HM|]. intros Hn. tx_step.
  apply wp_tx_bind. eapply (wp_ok _ _ _ _ d1).
  { instantiate (1 := match resend_displayed x with None => 0%Z | Some (_, shown) => epoch_of shown d1 end).
    destruct (resend_displayed x) as [[e shown]|]; [|done]. by destruct (String.eqb_spec shown (targetRef (resend_intent x))) as [->|]. }
  cbv zeta. apply wp_tx_bind, wp_add_new; [by apply (Hn outbox)|].
  eapply wp_put_new; [done|done| |exact Hn|].
  - intros _. split_and!; [simpl; by destruct (_ || _)| |apply HM].
    intros _ _ _ _. split; [done|]. simpl. intros shown. by destruct (resend_displayed x) as [[e s]|]; [intros [= <-]|].
  - intros d2 Hg2 _. apply (keeps_tx_bind M); [apply keeps_sweep_wires| |done]. intros retired.
    apply keeps_tx_bind; [auto with web_keeps|intros; apply keeps_tx_ret].
Qed.
End bodies.
