(* ===== verification/WebReach.v ===== *)
(** The reachable states of the web outbox, and what a row can become.

    An [action] is one transaction: the body of a method, or of one of the two
    cleanups a settlement initiates. Tabs and methods interleave at transactions, so a
    sequence of actions covers every interleaving, and every argument an action takes
    is arbitrary. [call] is a public method; what it commits, under any storage
    faults, is a sequence of actions. *)

From S2P Require Import Prelude JsString Json Sql Records Idb WebOutbox WebFacts WebInvariant.

Local Open Scope string_scope.
Local Open Scope list_scope.
Local Open Scope tx_scope.

(** ** Transactions as data *)

Inductive action :=
  | AEnqueue (host : WebHost) (i : MutationIntent) (barrier : option Z)
  | AInterrupt (host : WebHost) (i : MutationIntent)
  | ACancel (ref : string)
  | ADiscardCanceled (ref : string)
  | ADiscardCanceledOfInstance (ref inst : string)
  | AMintRetry (host : WebHost) (id : string) (capture : RetryCapture)
  | AMark (id : string)
  | AUnmark (id : string)
  | AMarkUnknown (id : string) (onlyAttempted : bool)
  | ARestore (host : WebHost) (ref : string) (ids : list string)
  | ARetarget (fromRef toRef : string) (identity : Identity)
  | ASettleReceipt (id projectionState : string)
  | ASettleApplied (id : string)
  | ASweepSettled (wireId : string) (exclude : list string)
  | ADiscardCanceledNotes (source : MutationRecord)
  | ATransfer (id : string) (kind : MutationRecoveryKind) (reason : option string) (uncertain : bool)
  | AEditQueued (expected : MutationRecord) (barrier : Z)
  | ARemoveQueued (expected : MutationRecord) (barrier : Z)
  | AUpdateRecovery (id : string) (u : RecoveryUpdate)
  | APreserve (host : WebHost) (base : MutationRecord) (input : list json) (atts : list MutationAttachmentRef)
      (text : string) (mentions : option (list ComposerMention)) (owner draft : option string)
  | ADiscardRecovery (id : string) (shouldDiscard : bool) (expected : option Z)
  | AResend (host : WebHost) (sources : list string) (x : Resend).

Definition forget {A} (p : tx A) : tx unit := p ;; tx_ret tt.

Definition run_action (a : action) : tx unit :=
  match a with
  | AEnqueue host i barrier => forget (enqueueIntent_tx host i barrier)
  | AInterrupt host i => forget (enqueueInterruptAndCancel_tx host i)
  | ACancel ref => forget (cancelUnattempted_tx ref)
  | ADiscardCanceled ref => forget (discardCanceled_tx ref)
  | ADiscardCanceledOfInstance ref inst => forget (discardCanceledOfInstance_tx ref inst)
  | AMintRetry host id capture => forget (mintRetryFromRow_tx host id capture)
  | AMark id => forget (markAttempted_tx id)
  | AUnmark id => forget (unmarkAttempted_tx id)
  | AMarkUnknown id b => forget (markUnknown_tx id b)
  | ARestore host ref ids => forget (restoreProvenAbsent_tx host ref ids)
  | ARetarget fromRef toRef identity => forget (retargetOutbox_tx fromRef toRef identity)
  | ASettleReceipt id p => forget (settleReceipt_tx id p)
  | ASettleApplied id => forget (settleApplied_tx id)
  | ASweepSettled w exclude => forget (sweepSettled_tx w exclude)
  | ADiscardCanceledNotes source => forget (discardCanceledNotes_tx source)
  | ATransfer id kind reason u => forget (transferToRecovery_tx id kind reason u)
  | AEditQueued e barrier => forget (editQueuedMessage_tx e barrier)
  | ARemoveQueued e barrier => forget (removeQueuedMessage_tx e barrier)
  | AUpdateRecovery id u => forget (updateRecoveryInput_tx id u)
  | APreserve host base input atts text mentions owner draft =>
      forget (preserveRecoveryComposition_tx host base input atts text mentions owner draft)
  | ADiscardRecovery id b e => forget (discardRecovery_tx id b e)
  | AResend host sources x => forget (resendRecovery_tx host sources x)
  end.

(** The ids an action may mint. *)
Definition minted (a : action) (id : string) : Prop :=
  match a with
  | AEnqueue host _ _ | AInterrupt host _ | AMintRetry host _ _ | ARestore host _ _
  | APreserve host _ _ _ _ _ _ _ | AResend host _ _ => exists n, id = createMutationId host n
  | _ => False
  end.

(** ** Every action keeps the invariants *)

Definition inv (d : WebDb) : Prop := wf d /\ current d.

Lemma inv_empty : inv empty_web.
Proof. split; [apply wf_empty_web|]. by intros id r. Qed.

Lemma good_start M d : inv d -> good M nothing d d.
Proof. intros [Hw Hc]. split; [done|done|apply evolves_refl|by intros ? []]. Qed.

Lemma opening_forget M {A} (p : tx A) : keeps_opening M p -> keeps_opening M (forget p).
Proof. intros Hp. apply keeps_opening_bind; [done|]. intros. apply keeps_opens, keeps_tx_ret. Qed.

Lemma keeps_action a : keeps_opening (minted a) (run_action a).
Proof.
  assert (Hhost : forall host : WebHost, mints (fun id => exists n, id = createMutationId host n) host)
    by (intros host n; by exists n).
  destruct a; apply opening_forget;
    [ apply keeps_opens, keeps_enqueueIntent, Hhost
    | apply keeps_opens, keeps_enqueueInterrupt, Hhost
    | apply keeps_opens, keeps_cancelUnattempted
    | apply keeps_opens, keeps_discardCanceled
    | apply keeps_opens, keeps_discardCanceledOfInstance
    | apply keeps_opens, keeps_mintRetry, Hhost
    | apply keeps_opens, keeps_markAttempted
    | apply keeps_opens, keeps_unmarkAttempted
    | apply keeps_opens, keeps_markUnknown
    | apply keeps_opens, keeps_restoreProvenAbsent, Hhost
    | apply keeps_opens, keeps_retargetOutbox
    | apply keeps_settleReceipt
    | apply keeps_settleApplied
    | apply keeps_opens, keeps_sweepSettled
    | apply keeps_opens, keeps_discardCanceledNotes
    | apply keeps_opens, keeps_transferToRecovery
    | apply keeps_opens, keeps_editQueuedMessage
    | apply keeps_opens, keeps_removeQueuedMessage
    | apply keeps_opens, keeps_updateRecoveryInput
    | apply keeps_opens, keeps_preserveRecoveryComposition, Hhost
    | apply keeps_opens, keeps_discardRecovery
    | apply keeps_opens, keeps_resendRecovery, Hhost ].
Qed.

Lemma action_good a d : inv d -> wp (minted a) (run_action a) (fun _ d' => inv d' /\ evolves (minted a) d d') d.
Proof.
  intros Hd. eapply wp_tx_mono, keeps_action, good_start, Hd. intros [] d' [Hw Hc Hv _]. by split.
Qed.

(** ** Reachable states *)

(** [d'] is what the actions of the list, each committing, make of [d]. *)
Inductive runs : list action -> WebDb -> WebDb -> Prop :=
  | runs_nil d : runs [] d d
  | runs_cons a l d d1 d2 : run_action a d = inl (d1, tt) -> runs l d1 d2 -> runs (a :: l) d d2.

Definition reachable (d : WebDb) : Prop := exists l, runs l empty_web d.

Lemma runs_app l1 l2 d d1 d2 : runs l1 d d1 -> runs l2 d1 d2 -> runs (l1 ++ l2) d d2.
Proof. induction 1; [done|]. intros. simpl. econstructor; eauto. Qed.

Lemma runs_good l d d' :
  inv d -> runs l d d' -> inv d' /\ evolves (fun id => Exists (fun a => minted a id) l) d d'.
Proof.
  intros Hd Hr. revert Hd. induction Hr as [d|a l d d1 d2 Ha Hr IH]; intros Hd.
  { split; [done|apply evolves_refl]. }
  pose proof (action_good a d Hd) as Hw. unfold wp in Hw. rewrite Ha in Hw. destruct Hw as [Hd1 Hv1].
  destruct (IH Hd1) as [Hd2 Hv2]. split; [done|]. eapply evolves_trans.
  - destruct Hv1 as [? ? Hrows]. split; [done|done|]. intros id r' Hr'.
    destruct (Hrows id r' Hr'); [left; by left|by right].
  - destruct Hv2 as [? ? Hrows]. split; [done|done|]. intros id r' Hr'.
    destruct (Hrows id r' Hr'); [left; by right|by right].
Qed.

Lemma reachable_inv d : reachable d -> inv d.
Proof. intros [l Hl]. by eapply runs_good, Hl; apply inv_empty. Qed.

(** ** Public methods as calls *)

Inductive call :=
  | CallEnqueue (host : WebHost) (i : MutationIntent) (barrier : option Z)
  | CallInterrupt (host : WebHost) (i : MutationIntent)
  | CallCancel (ref : string)
  | CallDiscardCanceled (ref : string)
  | CallDiscardCanceledOfInstance (ref inst : string)
  | CallMintRetry (host : WebHost) (id : string) (capture : RetryCapture)
  | CallMark (id : string)
  | CallUnmark (id : string)
  | CallMarkUnknown (id : string) (s : RecordState) (onlyAttempted : bool)
  | CallRestore (host : WebHost) (ref : string) (ids : list string)
  | CallRetarget (fromRef toRef : string) (identity : Identity)
  | CallSettleReceipt (id projectionState : string)
  | CallSettleApplied (id : string)
  | CallTransfer (id : string) (kind : MutationRecoveryKind) (reason : option string) (uncertain : option bool)
  | CallEditQueued (expected : MutationRecord) (barrier : Z)
  | CallRemoveQueued (expected : MutationRecord) (barrier : Z)
  | CallUpdateRecovery (id : string) (u : RecoveryUpdate)
  | CallPreserve (host : WebHost) (base : MutationRecord) (input : list json) (atts : list MutationAttachmentRef)
      (text : string) (mentions : option (list ComposerMention)) (owner draft : option string)
  | CallDiscardRecovery (id : string) (shouldDiscard : bool) (expected : option Z)
  | CallResend (host : WebHost) (sources : list string) (x : Resend)
  | CallNextDispatchable (ref : string)
  | CallListTargetRefs.

Definition unit_of {A} (p : web A) : web unit := (p ;; web_ret tt)%web.

Definition perform (c : call) : web unit :=
  match c with
  | CallEnqueue host i barrier => unit_of (enqueueIntent host i barrier)
  | CallInterrupt host i => unit_of (enqueueInterruptAndCancel host i)
  | CallCancel ref => unit_of (cancelUnattempted ref)
  | CallDiscardCanceled ref => unit_of (discardCanceled ref)
  | CallDiscardCanceledOfInstance ref inst => unit_of (discardCanceledOfInstance ref inst)
  | CallMintRetry host id capture => unit_of (mintRetryFromRow host id capture)
  | CallMark id => unit_of (markAttempted id)
  | CallUnmark id => unit_of (unmarkAttempted id)
  | CallMarkUnknown id s b => unit_of (markUnknown id s b)
  | CallRestore host ref ids => unit_of (restoreProvenAbsent host ref ids)
  | CallRetarget fromRef toRef identity => unit_of (retargetOutbox fromRef toRef identity)
  | CallSettleReceipt id p => unit_of (settleReceipt id p)
  | CallSettleApplied id => unit_of (settleApplied id)
  | CallTransfer id kind reason u => unit_of (transferToRecovery id kind reason u)
  | CallEditQueued e barrier => unit_of (editQueuedMessage e barrier)
  | CallRemoveQueued e barrier => unit_of (removeQueuedMessage e barrier)
  | CallUpdateRecovery id u => unit_of (updateRecoveryInput id u)
  | CallPreserve host base input atts text mentions owner draft =>
      unit_of (preserveRecoveryComposition host base input atts text mentions owner draft)
  | CallDiscardRecovery id b e => unit_of (discardRecovery id b e)
  | CallResend host sources x => unit_of (resendRecovery host sources x)
  | CallNextDispatchable ref => unit_of (nextDispatchable ref)
  | CallListTargetRefs => unit_of listTargetRefs
  end.

(** [p] commits a run of actions, whatever faults it meets. *)
Definition commits {A} (p : web A) : Prop := forall s, exists l, runs l (committed s) (committed (p s).1).

Lemma commits_ret {A} (a : A) : commits (web_ret a).
Proof. intros s. exists []. constructor. Qed.

Lemma commits_throw {A} e : commits (web_throw (A := A) e).
Proof. intros s. exists []. constructor. Qed.

Lemma commits_bind {A B} (p : web A) (k : A -> web B) : commits p -> (forall a, commits (k a)) -> commits (web_bind p k).
Proof.
  intros Hp Hk s. unfold web_bind. destruct (Hp s) as [l1 H1]. destruct (p s) as [s1 [a|e]]; [|by exists l1].
  destruct (Hk a s1) as [l2 H2]. exists (l1 ++ l2). by eapply runs_app.
Qed.

Lemma commits_swallow p : commits p -> commits (swallow p).
Proof.
  intros Hp s. destruct (Hp s) as [l Hl]. exists l. unfold swallow. by destruct (p s) as [s1 [a|e]].
Qed.

Lemma commits_tell n : commits (tell n).
Proof. intros s. exists []. constructor. Qed.

Lemma commits_tell_retired ids : commits (tell_retired ids).
Proof. destruct ids; [apply commits_ret|apply commits_tell]. Qed.

(** A transaction commits its action or nothing. *)
Lemma commits_transact {A} (during : A -> list notice) (body : tx A) a :
  run_action a = forget body -> commits (transact during body).
Proof.
  intros Ha s. unfold transact.
  destruct (match faults s with [] => _ | f :: fs => _ end) as [f fs].
  assert (Hbody : forall d x, body (committed s) = inl (d, x) -> exists l, runs l (committed s) d).
  { intros d x Hx. exists [a]. econstructor; [|constructor]. rewrite Ha. unfold forget, tx_bind. by rewrite Hx. }
  destruct f as [[e|e]|]; try (by exists []; constructor);
    destruct (body (committed s)) as [[d x]|e'] eqn:Hb; simpl;
    first [by eapply Hbody | by exists []; constructor].
Qed.

(** A read changes nothing. *)
Lemma commits_read {A} (body : tx A) : (forall d, exists a, body d = inl (d, a)) -> commits (read body).
Proof.
  intros Hr s. exists []. unfold read, write, transact. destruct (Hr (committed s)) as [a Ha]. rewrite Ha.
  destruct (faults s) as [|[[]|] fs]; constructor.
Qed.

#[export] Hint Resolve commits_ret commits_throw commits_tell commits_tell_retired : web_commits.

Ltac commits_auto :=
  lazymatch goal with
  | |- commits (web_bind _ _) => apply commits_bind; [commits_auto|intros; commits_auto]
  | |- commits (unit_of _) => unfold unit_of; commits_auto
  | |- commits (if _ then _ else _) => case_match; commits_auto
  | |- commits (match ?x with _ => _ end) => destruct x; commits_auto
  | |- commits (swallow _) => apply commits_swallow; commits_auto
  | |- _ => auto with web_commits
  end.

Lemma commits_after id out : commits (after_settlement id out).
Proof.
  unfold after_settlement, sweepSettledWireRecoverySiblings, discardSupersededCanceledNotesAfterSettle.
  commits_auto.
  - by apply (commits_transact _ _ (ASweepSettled (settledWireId out) [id; clientMutationId (settledSource out)])).
  - by apply (commits_transact _ _ (ADiscardCanceledNotes (settledSource out))).
Qed.
#[export] Hint Resolve commits_after : web_commits.

Lemma commits_list t P : commits (read (list_store t P)).
Proof. apply commits_read. by eexists. Qed.
#[export] Hint Resolve commits_list : web_commits.

Lemma commits_action c : commits (perform c).
Proof.
  destruct c; cbn [perform];
    unfold enqueueIntent, enqueueInterruptAndCancel, cancelUnattempted, discardCanceled, discardCanceledOfInstance,
      mintRetryFromRow, markAttempted, unmarkAttempted, markUnknown, restoreProvenAbsent, retargetOutbox,
      settleReceipt, settleReceiptResult, settleApplied, settleAppliedResult, transferToRecovery, editQueuedMessage,
      removeQueuedMessage, updateRecoveryInput, preserveRecoveryComposition, discardRecovery, resendRecovery,
      resendRecoveryResult, nextDispatchable, listTargetRefs, listOutbox, listOutbox_tx, listOptimistic; commits_auto.
  - by apply (commits_transact _ _ (AEnqueue host i barrier)).
  - by apply (commits_transact _ _ (AInterrupt host i)).
  - by apply (commits_transact _ _ (ACancel ref)).
  - by apply (commits_transact _ _ (ADiscardCanceled ref)).
  - by apply (commits_transact _ _ (ADiscardCanceledOfInstance ref inst)).
  - by apply (commits_transact _ _ (AMintRetry host id capture)).
  - by apply (commits_transact _ _ (AMark id)).
  - by apply (commits_transact _ _ (AUnmark id)).
  - by apply (commits_transact _ _ (AMarkUnknown id onlyAttempted)).
  - by apply (commits_transact _ _ (ARestore host ref ids)).
  - by apply (commits_transact _ _ (ARetarget fromRef toRef identity)).
  - by apply (commits_transact _ _ (ASettleReceipt id projectionState)).
  - by apply (commits_transact _ _ (ASettleApplied id)).
  - by apply (commits_transact _ _ (ATransfer id kind reason (default false uncertain))).
  - by apply (commits_transact _ _ (AEditQueued expected barrier)).
  - by apply (commits_transact _ _ (ARemoveQueued expected barrier)).
  - by apply (commits_transact _ _ (AUpdateRecovery id u)).
  - by apply (commits_transact _ _ (APreserve host base input atts text mentions owner draft)).
  - by apply (commits_transact _ _ (ADiscardRecovery id shouldDiscard expected)).
  - by apply (commits_transact _ _ (AResend host sources x)).
Qed.

(** ** Concrete runs, for the witnesses *)

Fixpoint replay (l : list action) (d : WebDb) : option WebDb :=
  match l with
  | [] => Some d
  | a :: l' => match run_action a d with inl (d', _) => replay l' d' | inr _ => None end
  end.

Definition final (l : list action) : WebDb := default empty_web (replay l empty_web).

Lemma replay_runs l d d' : replay l d = Some d' -> runs l d d'.
Proof.
  revert d. induction l as [|a l IH]; intros d; simpl; [intros [= ->]; constructor|].
  destruct (run_action a d) as [[d1 []]|e] eqn:Ha; [|done]. intros Hr. econstructor; eauto.
Qed.

Lemma runs_final l : match replay l empty_web with Some _ => true | None => false end = true -> runs l empty_web (final l).
Proof. intros H. apply replay_runs. unfold final. by destruct (replay l empty_web). Qed.

Definition demo_host (prefix : string) : WebHost :=
  mkWebHost (fun n => prefix ++ pretty.pretty (N.of_nat n))%string (fun n => "p" ++ pretty.pretty (N.of_nat n))%string
    (fun n => Z.of_nat n) "tab".

Definition demo_intent (ref m : string) : MutationIntent :=
  mkIntent ref (Some "t1") None m [("input", JArr [])] [] None None None None None None.

(** A send, a second one of unknown fate, and a Stop. *)
Definition demo_sent : list action :=
  [AEnqueue (demo_host "a") (demo_intent "thread-1" "turn/start") None; AMark "a0"].
Definition demo_parked : list action := demo_sent ++ [AMarkUnknown "a0" true].
Definition demo_stopped : list action :=
  demo_parked ++ [AEnqueue (demo_host "b") (demo_intent "thread-1" "turn/queue") None;
                  AInterrupt (demo_host "c") (demo_intent "thread-1" "turn/interrupt")].
