(* ===== verification/WebSettlement.v ===== *)
(** What a settlement does to the outbox and the accepted copies of the wire it
    settles, store by store. *)

From S2P Require Import Prelude JsString Json Sql Records Idb WebOutbox WebFacts WebInvariant WebReach.

Local Open Scope string_scope.
Local Open Scope list_scope.
Local Open Scope tx_scope.

(** ** Erasing by key, exactly *)

Definition erase_keys (ids : list string) (m : gmap string WebRecord) : gmap string WebRecord :=
  foldl (fun m id => delete id m) m ids.

Lemma erase_keys_lookup ids m k : erase_keys ids m !! k = if decide (k ∈ ids) then None else m !! k.
Proof.
  unfold erase_keys. revert m. induction ids as [|id ids IH]; intros m; [by rewrite decide_False by apply not_elem_of_nil|].
  simpl. rewrite IH. case_decide as H1.
  - by rewrite decide_True by (by right).
  - destruct (decide (k = id)) as [->|Hne].
    + rewrite lookup_delete_eq, decide_True; [done|by left].
    + rewrite lookup_delete_ne, decide_False; [done| |done]. by intros [?|?]%elem_of_cons.
Qed.

Lemma retire_from_eq t keep l d :
  let ids := rid <$> filter (fun r => keep r = false) l in
  retire_from t keep l d = inl (set_records t (erase_keys ids (records t d)) d, ids).
Proof.
  simpl. unfold retire_from. revert d. induction l as [|r l IH]; intros d; simpl; [by rewrite set_records_same|].
  rewrite filter_cons. destruct (keep r) eqn:E.
  - rewrite decide_False by done. unfold tx_bind, tx_ret. by rewrite IH.
  - rewrite decide_True by done. unfold tx_bind, tx_ret, erase. rewrite IH, records_set_eq, set_records_twice. done.
Qed.

Lemma bind_inv {A B} (p : tx A) (k : A -> tx B) d d' b :
  tx_bind p k d = inl (d', b) -> exists d1 a, p d = inl (d1, a) /\ k a d1 = inl (d', b).
Proof. unfold tx_bind. destruct (p d) as [[d1 a]|e]; [eauto|done]. Qed.

Lemma assert_inv id d d' u : assertMutationIdAvailable id d = inl (d', u) -> d' = d /\ forall t, records t d !! id = None.
Proof.
  intros H.
  unfold assertMutationIdAvailable, tx_bind, get, tx_ret, tx_throw in H.
  simpl in H. repeat case_match; simplify_eq. split; [done|]. by intros [].
Qed.

Lemma put_inv t r d d' u : put t r d = inl (d', u) -> d' = set_records t (<[clientMutationId r := r]> (records t d)) d.
Proof. unfold put. destruct (_ || _); [|done]. set (d1 := set_records _ _ _). by intros [= <- _]. Qed.

Lemma add_inv t r d d' u : add t r d = inl (d', u) -> d' = set_records t (<[clientMutationId r := r]> (records t d)) d.
Proof. unfold add. destruct (records t d !! _); [done|]. apply put_inv. Qed.

(** A sweep of superseded generations leaves the keys it excludes. *)
Lemma retire_generations_inv w ids d d' gone k :
  retireWireSiblings ENQUEUE_STORES w (mkSweep ids false false true) d = inl (d', gone) -> k ∈ ids ->
  records outbox d' !! k = records outbox d !! k.
Proof.
  intros H Hk. unfold retireWireSiblings in H. rewrite (bind_ok _ _ _ _ _ (resolve_eq _ _ _ _ _)) in H.
  unfold retireWireFamily in H. simpl sweepOptimistic in H. simpl sweepRecovery in H. cbv zeta iota in H.
  rewrite (bind_ok _ _ _ _ _ (retire_from_eq outbox _ _ d)) in H. cbn [tx_bind tx_ret] in H.
  unfold tx_bind, tx_ret in H. set (d1 := set_records _ _ _) in H. injection H as <- _. unfold d1.
  rewrite records_set_eq, erase_keys_lookup, decide_False; [done|].
  intros (r & -> & [[Hs _]%orb_false_iff _]%list_elem_of_filter)%list_elem_of_fmap.
  apply str_in_false in Hs. by apply Hs.
Qed.

Lemma wp_inv {A} M (p : tx A) Q d d' a : wp M p Q d -> p d = inl (d', a) -> Q a d'.
Proof. unfold wp. intros Hw E. by rewrite E in Hw. Qed.

(** ** The sweep a settlement ends with *)

(** The keys it erases from one store's family. *)
Definition swept_keys (id : string) (s : Settling) (l : list WebRecord) : list string :=
  rid <$> filter (fun r : WebRecord => str_in (clientMutationId r) [id; clientMutationId (subject s)] = false) l.

Lemma sweep_settled_eq id s ids d :
  exists out d', settledSource out = subject s /\ settledWireId out = wire s /\
    records outbox d' = erase_keys (swept_keys id s (family_outbox (family s))) (records outbox d) /\
    records optimistic d' = erase_keys (swept_keys id s (family_optimistic (family s))) (records optimistic d) /\
    sweep_settled id s ids d = inl (d', out).
Proof.
  assert (Ho : forall l (P : WebRecord -> bool), (rid <$> filter (fun r : WebRecord =>
    str_in (clientMutationId r) [id; clientMutationId (subject s)] || (false && P r) = false) l) = swept_keys id s l).
  { intros l P. unfold swept_keys. f_equal. apply list_filter_iff. intros r. simpl. by rewrite orb_false_r. }
  set (keys := [id; clientMutationId (subject s)]) in *.
  assert (Hret : exists gone, retireWireFamily (family s) (mkSweep keys true false false) d = inl (
      set_records optimistic (erase_keys (swept_keys id s (family_optimistic (family s))) (records optimistic d))
        (set_records outbox (erase_keys (swept_keys id s (family_outbox (family s))) (records outbox d)) d), gone)).
  { unfold retireWireFamily. cbv zeta. simpl sweepOptimistic. simpl sweepRecovery. simpl excludeKeys.
    simpl onlySuperseded. cbv iota. eexists.
    rewrite (bind_ok _ _ _ _ _ (retire_from_eq outbox _ _ d)).
    rewrite (bind_ok _ _ _ _ _ (retire_from_eq optimistic _ _ _)), Ho.
    rewrite (bind_ok (tx_ret []) _ _ _ _ eq_refl). rewrite records_set_ne by done. reflexivity. }
  destruct Hret as [gone Hret]. unfold sweep_settled. rewrite (bind_ok _ _ _ _ _ Hret).
  eexists _, _. split_and!; [| | | |reflexivity]; try done.
Qed.

(** What is left of the wire in a store, when every record it holds before the sweep is
    an exception or an old record that the settlement itself did not erase. *)
Lemma sweep_clears id d s t (m : gmap string WebRecord) (X : string -> WebRecord -> Prop) l :
  settles id d s -> keyed (records t d) ->
  l = of_wire (wire s) (all_records (records t d)) ->
  (wireCarriers s <> [] -> forall r : WebRecord, r ∈ l -> clientMutationId r = id) ->
  (forall k (r' : WebRecord), m !! k = Some r' -> X k r' \/
     exists r : WebRecord, records t d !! k = Some r /\ effectiveWireId r' = effectiveWireId r /\
       (named s <> None -> k <> id) /\
       (named s = None -> wireCarriers s = [] -> k <> clientMutationId (subject s))) ->
  forall k (r' : WebRecord), erase_keys (swept_keys id s l) m !! k = Some r' -> effectiveWireId r' = wire s -> X k r'.
Proof.
  intros Hs Hk -> Hcar Hold k r' Hr' Hw. rewrite erase_keys_lookup in Hr'. case_decide as Hgone; [done|].
  destruct (Hold k r' Hr') as [?|(r & Hr & Hwr & Hnamed & Hun)]; [done|]. exfalso.
  pose proof (Hk k r Hr) as Hkey.
  assert (Hin : r ∈ of_wire (wire s) (all_records (records t d))).
  { apply elem_of_wire. split; [congruence|]. apply elem_of_all_records. by exists k. }
  assert (Hids : k ∈ [id; clientMutationId (subject s)]).
  { apply str_in_spec, not_false_iff_true. intros E. apply Hgone. unfold swept_keys.
    rewrite <- Hkey. apply (list_elem_of_fmap_2 rid), list_elem_of_filter. by rewrite Hkey. }
  destruct (named s) as [n|] eqn:Hn.
  - destruct (st_named _ _ _ Hs n Hn) as [Hsub Hid].
    rewrite elem_of_cons, list_elem_of_singleton in Hids; destruct Hids as [->| ->]; apply Hnamed; congruence.
  - destruct (st_unnamed _ _ _ Hs Hn) as [_ Hnone].
    rewrite elem_of_cons, list_elem_of_singleton in Hids; destruct Hids as [->| ->]; [by rewrite (Hnone t) in Hr|].
    destruct (wireCarriers s) eqn:Hc; [by apply Hun|].
    rewrite <- Hkey, (Hcar ltac:(done) r Hin), (Hnone t) in Hr. done.
Qed.

(** ** The two settlements *)

Section settlement.
Context (d : WebDb) (Hd : inv d).

Let M : string -> Prop := fun _ => False.

(** The reads and the note cleanups both open with: the outbox keeps its rows, some
    superseded; the accepted copies are untouched. *)
Lemma settlement_opens id pick s d1 d2 d3 u ids :
  chooses pick -> settling id pick d = inl (d1, Some s) ->
  discardSupersededNoteRecovery (subject s) d1 = inl (d2, u) ->
  retireOlderBlockedNoteRows (subject s) d2 = inl (d3, ids) ->
  settles id d s /\ records optimistic d3 = records optimistic d /\
  forall k, records outbox d3 !! k =
    (fun r : WebRecord =>
       if String.eqb (method (subject s)) NOTES_HUMAN_SET && older_blocked_note (subject s) r
       then update_record (with_state superseded) r else r) <$> records outbox d !! k.
Proof.
  intros Hpick H1 H2 H3. pose proof (good_start M d Hd) as Hg.
  assert (d1 = d /\ settles id d s) as [-> Hs].
  { apply (wp_inv M _ (fun o d' => d' = d /\ forall s, o = Some s -> settles id d s) d d1 (Some s)) in H1 as [-> Hs]; [auto|].
    eapply wp_settling; [done|done|done|]. intros s' Hs'. split; [done|]. by intros ? [= <-]. }
  split; [done|].
  assert (Hg2 : good M nothing d d2).
  { apply (wp_inv M _ (fun _ => good M nothing d) d d2 u) in H2; [done|]. by apply keeps_discardSupersededNoteRecovery. }
  assert (Hrec : forall t, t <> recovery -> records t d2 = records t d).
  { revert H2. unfold discardSupersededNoteRecovery. destruct (negb _); [by intros [= <- _]|].
    rewrite (bind_ok (getAll recovery) _ d d _ eq_refl), (bind_ok _ _ _ _ _ (retire_from_eq recovery _ _ d)).
    intros [= <- _] t Ht. by destruct t. }
  destruct (retireOlder_eq M nothing d (subject s) d2 Hg2) as (ids' & d3' & Heq & _ & Hd3).
  rewrite Heq in H3. injection H3 as [= <- <-]. rewrite Hd3.
  destruct (String.eqb (method (subject s)) NOTES_HUMAN_SET) eqn:Hm.
  - rewrite records_set_ne, records_set_eq by done. split; [by apply Hrec|]. intros k.
    unfold updated_where. rewrite lookup_fmap. by rewrite (Hrec outbox).
  - split; [by apply Hrec|]. intros k. rewrite (Hrec outbox) by done. by destruct (records outbox d !! k).
Qed.

(** What is asked of the outbox and of the accepted copies before the sweep. *)
Lemma sweep_leaves id s d4 d5 ids out (X : string -> WebRecord -> Prop) :
  settles id d s -> sweep_settled id s ids d4 = inl (d5, out) ->
  let untouched (k : string) := (named s <> None -> k <> id) /\
    (named s = None -> wireCarriers s = [] -> k <> clientMutationId (subject s)) in
  (forall k (r' : WebRecord), records outbox d4 !! k = Some r' ->
     exists r : WebRecord, records outbox d !! k = Some r /\ effectiveWireId r' = effectiveWireId r /\ untouched k) ->
  (forall k (r' : WebRecord), records optimistic d4 !! k = Some r' -> X k r' \/
     exists r : WebRecord, records optimistic d !! k = Some r /\ effectiveWireId r' = effectiveWireId r /\ untouched k) ->
  settledSource out = subject s /\ settledWireId out = wire s /\
  (forall k (r : WebRecord), records outbox d5 !! k = Some r -> effectiveWireId r <> settledWireId out) /\
  (forall k (r : WebRecord), records optimistic d5 !! k = Some r -> effectiveWireId r = settledWireId out -> X k r).
Proof.
  intros Hs Hsweep untouched Ho Hp.
  destruct (sweep_settled_eq id s ids d4) as (out' & d5' & Hsrc & Hw & Eo & Ep & Heq). rewrite Heq in Hsweep.
  injection Hsweep as [= <- <-]. split_and!; [done|done| |]; rewrite Hw.
  - intros k r. rewrite Eo. intros Hr Hwr.
    eapply (sweep_clears id d s outbox _ (fun _ _ => False)); [done|apply (wf_keyed _ _ (proj1 Hd) outbox)| | | |done|done].
    + apply st_family_outbox with (1 := Hs).
    + intros Hc r' Hr'. apply (st_carriers _ _ _ Hs Hc), elem_of_app. by left.
    + intros k' r' Hr'. right. destruct (Ho k' r' Hr') as (r0 & ? & ? & ? & ?). by exists r0.
  - intros k r. rewrite Ep. intros Hr Hwr.
    eapply (sweep_clears id d s optimistic _ X); [done|apply (wf_keyed _ _ (proj1 Hd) optimistic)| | | |done|done].
    + apply st_family_optimistic with (1 := Hs).
    + intros Hc r' Hr'. apply (st_carriers _ _ _ Hs Hc), elem_of_app. by right.
    + intros k' r' Hr'. destruct (Hp k' r' Hr') as [?|(r0 & ? & ? & ? & ?)]; [by left|right]. by exists r0.
Qed.

Lemma erase_when_eq b t id d0 :
  erase_when b t id d0 = inl (if b then set_records t (delete id (records t d0)) d0 else d0, tt).
Proof. by destruct b. Qed.

(** What is left after an erasure by key, and after one behind a guard. *)
Lemma erase_lookup t t' id d0 d1 u k (r : WebRecord) :
  erase t id d0 = inl (d1, u) -> records t' d1 !! k = Some r ->
  records t' d0 !! k = Some r /\ (t' = t -> k <> id).
Proof.
  unfold erase. set (d1' := set_records _ _ _). intros [= <- _]. unfold d1'. rewrite records_set.
  case_decide as E; [subst|done]. intros [? ?]%lookup_delete_Some. split; [done|]. by intros _ ->.
Qed.

Lemma erase_when_lookup b t t' id d0 d1 u k (r : WebRecord) :
  erase_when b t id d0 = inl (d1, u) -> records t' d1 !! k = Some r ->
  records t' d0 !! k = Some r /\ (b = true -> t' = t -> k <> id).
Proof.
  destruct b; [|by intros [= <- _]]. intros He Hr.
  destruct (erase_lookup _ _ _ _ _ _ _ _ He Hr) as [? Hne]. auto.
Qed.

Lemma superseded_wire (c : bool) (r : WebRecord) :
  effectiveWireId (record (if c then update_record (with_state superseded) r else r)) = effectiveWireId r.
Proof. by destruct c. Qed.

(** A record of [t] is untouched when neither erasure of the settlement hits its key. *)
Definition untouched (id : string) (s : Settling) (t : store) (k : string) : Prop :=
  (named s <> None -> present (records t d !! id) = true -> k <> id) /\
  (named s = None -> wireCarriers s = [] -> k <> clientMutationId (subject s)).

Lemma untouched_old id s t k (r : WebRecord) :
  untouched id s t k -> records t d !! k = Some r ->
  (named s <> None -> k <> id) /\ (named s = None -> wireCarriers s = [] -> k <> clientMutationId (subject s)).
Proof.
  intros [H1 H2] Hr. split; [|done]. intros Hn ->. apply H1; [done| |done]. by rewrite Hr.
Qed.

Lemma applied_tail id s d3 d4 u :
  settles id d s ->
  (if present (named s) then
     erase_when (present (named_outbox s)) outbox id ;;
     erase_when (present (named_optimistic s)) optimistic id ;;
     erase_when (retires (named_recovery s)) recovery id
   else
     match wireCarriers s with
     | _ :: _ => erase recovery (clientMutationId (subject s))
     | [] => erase outbox (clientMutationId (subject s)) ;; erase optimistic (clientMutationId (subject s))
     end) d3 = inl (d4, u) ->
  forall t k r, t <> recovery -> records t d4 !! k = Some r -> records t d3 !! k = Some r /\ untouched id s t k.
Proof.
  intros Hs H t k r Ht Hr. unfold untouched. destruct (named s) as [n|] eqn:Hn; simpl in H.
  - rewrite (st_outbox _ _ _ Hs), (st_optimistic _ _ _ Hs) in H.
    apply bind_inv in H as (d5 & u5 & H5 & H). apply bind_inv in H as (d6 & u6 & H6 & H7).
    apply (erase_when_lookup _ _ _ _ _ _ _ _ _ H7) in Hr as [Hr _].
    apply (erase_when_lookup _ _ _ _ _ _ _ _ _ H6) in Hr as [Hr Hp].
    apply (erase_when_lookup _ _ _ _ _ _ _ _ _ H5) in Hr as [Hr Ho].
    split; [done|]. split; [|done]. intros _ Hpr. destruct t; [by apply Ho|by apply Hp|done].
  - destruct (wireCarriers s) as [|c l] eqn:Hc.
    + apply bind_inv in H as (d5 & u5 & H5 & H6).
      apply (erase_lookup _ _ _ _ _ _ _ _ H6) in Hr as [Hr Hp].
      apply (erase_lookup _ _ _ _ _ _ _ _ H5) in Hr as [Hr Ho].
      split; [done|]. split; [done|]. intros _ _. destruct t; [by apply Ho|by apply Hp|done].
    + apply (erase_lookup _ _ _ _ _ _ _ _ H) in Hr as [Hr _]. by split_and!.
Qed.

Lemma settleApplied_clears id d' out :
  settleApplied_tx id d = inl (d', Some out) ->
  (forall k (r : WebRecord), records outbox d' !! k = Some r -> effectiveWireId r <> settledWireId out) /\
  (forall k (r : WebRecord), records optimistic d' !! k = Some r -> effectiveWireId r = settledWireId out -> False).
Proof.
  unfold settleApplied_tx. intros (d1 & o & H1 & H)%bind_inv. destruct o as [s|]; [|done].
  apply bind_inv in H as (d2 & u & H2 & H). apply bind_inv in H as (d3 & ids & H3 & H).
  destruct (settlement_opens _ _ _ _ _ _ _ _ chooses_applied H1 H2 H3) as (Hs & Hopt & Hout).
  apply bind_inv in H as (d4 & u' & H4 & H). apply bind_inv in H as (d5 & out' & H5 & H).
  injection H as [= <- <-].
  destruct (sweep_leaves id s d4 d5 ids out' (fun _ _ => False) Hs H5) as (_ & _ & ? & ?); [| |done].
  - intros k r' Hr'. destruct (applied_tail _ _ _ _ _ Hs H4 outbox k r') as [Hr Hun]; [done..|].
    rewrite Hout in Hr. apply fmap_Some in Hr as (r & Hr & ->).
    exists r. cbv beta. rewrite superseded_wire. destruct (untouched_old id s outbox k r); auto 10.
  - intros k r' Hr'. right. destruct (applied_tail _ _ _ _ _ Hs H4 optimistic k r') as [Hr Hun]; [done..|].
    rewrite Hopt in Hr. exists r'. destruct (untouched_old id s optimistic k r'); auto 10.
Qed.

Lemma receipt_tail id s (retained : bool) d3 d4 u :
  settles id d s ->
  (if present (named s) then
     erase_when (present (named_outbox s)) outbox id ;;
     erase_when (retires (named_recovery s)) recovery id
   else
     match wireCarriers s with
     | _ :: _ => erase recovery (clientMutationId (subject s))
     | [] =>
         erase outbox (clientMutationId (subject s)) ;;
         erase_when (negb retained) optimistic (clientMutationId (subject s))
     end) d3 = inl (d4, u) ->
  forall t k r, t <> recovery -> records t d4 !! k = Some r -> records t d3 !! k = Some r /\
    (t = outbox -> untouched id s outbox k) /\
    (t = optimistic -> retained = false -> named s = None -> wireCarriers s = [] -> k <> clientMutationId (subject s)).
Proof.
  intros Hs H t k r Ht Hr. unfold untouched. destruct (named s) as [n|] eqn:Hn; simpl in H.
  - rewrite (st_outbox _ _ _ Hs) in H. apply bind_inv in H as (d5 & u5 & H5 & H6).
    apply (erase_when_lookup _ _ _ _ _ _ _ _ _ H6) in Hr as [Hr _].
    apply (erase_when_lookup _ _ _ _ _ _ _ _ _ H5) in Hr as [Hr Ho]. split_and!; [done|intros ->..|]; auto.
  - destruct (wireCarriers s) as [|c l] eqn:Hc.
    + apply bind_inv in H as (d5 & u5 & H5 & H6).
      apply (erase_when_lookup _ _ _ _ _ _ _ _ _ H6) in Hr as [Hr Hp].
      apply (erase_lookup _ _ _ _ _ _ _ _ H5) in Hr as [Hr Ho].
      split_and!; [done|intros ->..]; [auto|]. intros -> _ _. by apply Hp.
    + apply (erase_lookup _ _ _ _ _ _ _ _ H) in Hr as [Hr _]. by split_and!.
Qed.

Lemma filed_outbox id s (retained : bool) d3 d4 u :
  (if retained then put optimistic (plain (acceptedRecord (subject s)))
   else erase_when (present (named_optimistic s)) optimistic id) d3 = inl (d4, u) ->
  records outbox d4 = records outbox d3.
Proof.
  destruct retained; [intros ->%put_inv; by rewrite records_set_ne|].
  rewrite erase_when_eq. intros [= <- _]. by destruct (present _).
Qed.

(** The accepted copies before the tail: the settlement's own copy, or an old record
    away from the id it settles. *)
Lemma receipt_copy id s (retained : bool) d3 d4 u k r :
  settles id d s ->
  (if retained then put optimistic (plain (acceptedRecord (subject s)))
   else erase_when (present (named_optimistic s)) optimistic id) d3 = inl (d4, u) ->
  records optimistic d4 !! k = Some r ->
  (retained = true /\ k = clientMutationId (subject s) /\ r = plain (acceptedRecord (subject s))) \/
  records optimistic d3 !! k = Some r /\
    (retained = true -> k <> clientMutationId (subject s)) /\
    (retained = false -> present (records optimistic d !! id) = true -> k <> id).
Proof.
  intros Hs H Hr. destruct retained.
  - apply put_inv in H as ->. rewrite records_set_eq in Hr.
    apply lookup_insert_Some in Hr as [[<- <-]|[Hne Hr]]; [by left|]. right. split_and!; [done| |done].
    intros _ ->. by apply Hne.
  - rewrite (st_optimistic _ _ _ Hs) in H.
    apply (erase_when_lookup _ _ _ _ _ _ _ _ _ H) in Hr as [Hr Hp]. right. split_and!; auto; done.
Qed.

Lemma settleReceipt_clears id p d' out :
  settleReceipt_tx id p d = inl (d', Some out) ->
  (forall k (r : WebRecord), records outbox d' !! k = Some r -> effectiveWireId r <> settledWireId out) /\
  (forall k (r : WebRecord), records optimistic d' !! k = Some r -> effectiveWireId r = settledWireId out ->
     retainsAcceptedCopy (settledSource out) p = true /\ k = clientMutationId (settledSource out) /\
     r = plain (acceptedRecord (settledSource out))).
Proof.
  unfold settleReceipt_tx. intros (d1 & o & H1 & H)%bind_inv. destruct o as [s|]; [|done].
  apply bind_inv in H as (d2 & u & H2 & H). apply bind_inv in H as (d3 & ids & H3 & H).
  destruct (settlement_opens _ _ _ _ _ _ _ _ chooses_receipt H1 H2 H3) as (Hs & Hopt & Hout). cbv zeta in H.
  set (retained := retainsAcceptedCopy (subject s) p) in *.
  apply bind_inv in H as (d4 & u4 & H4 & H). apply bind_inv in H as (d5 & u5 & H5 & H).
  apply bind_inv in H as (d6 & out' & H6 & H). injection H as [= <- <-].
  destruct (sweep_leaves id s d5 d6 ids out' (fun k r =>
    retained = true /\ k = clientMutationId (subject s) /\ r = plain (acceptedRecord (subject s))) Hs H6)
    as (Hsrc & _ & ? & ?); [| |by rewrite Hsrc].
  - intros k r' Hr'. destruct (receipt_tail _ _ _ _ _ _ Hs H5 outbox k r') as (Hr & Hun & _); [done..|].
    pose proof (filed_outbox _ _ _ _ _ _ H4) as Ho.
    rewrite Ho, Hout in Hr. apply fmap_Some in Hr as (r & Hr & ->).
    exists r. cbv beta. rewrite superseded_wire.
    destruct (untouched_old id s outbox k r); [by apply Hun|done|auto 10].
  - intros k r' Hr'. destruct (receipt_tail _ _ _ _ _ _ Hs H5 optimistic k r') as (Hr & _ & Htail); [done..|].
    destruct (receipt_copy _ _ _ _ _ _ _ _ Hs H4 Hr) as [?|(Hr3 & Hret & Hnr)]; [by left|right].
    rewrite Hopt in Hr3. exists r'. split_and!; [done|done| |].
    + intros Hn ->. destruct retained.
      * destruct (named s) as [n|] eqn:En; [|done]. destruct (st_named _ _ _ Hs n En) as [Hsub Hid]. apply Hret; [done|by rewrite Hsub].
      * apply Hnr; [done| |done]. by rewrite Hr3.
    + intros Hn Hc. destruct retained; [by apply Hret|by apply Htail].
Qed.
End settlement.
