(* ===== verification/WebPort.v ===== *)
(** The web outbox as the dispatcher's storage: an instance of the storage port and of
    the FIFO laws the drain relies on, over a storage without faults. *)

From S2P Require Import Prelude JsString Json Sql Wire Records Effects Dispatcher StoragePort.
From S2P Require Import Idb WebOutbox WebFacts WebInvariant WebReach WebSettlement.

Local Open Scope string_scope.
Local Open Scope list_scope.

(** ** The queue *)

(** In play, and not parked behind a Stop's fence. *)
Definition waiting (r : WebRecord) : bool :=
  in_play (state r) && negb (state_eqb (state r) blockedUnknown && bool_decide (stopFenced r = Some true)).

Definition waiting_rows (ref : string) (d : WebDb) : list WebRecord :=
  in_order (fun r => at_ref ref r && waiting r) (all_records (records outbox d)).

Definition entry (r : WebRecord) : string * json_object := (clientMutationId r, payload r).
Definition waiting_queue (ref : string) (d : WebDb) : list (string * json_object) := entry <$> waiting_rows ref d.

Lemma elem_of_waiting ref d (r : WebRecord) :
  wf d -> r ∈ waiting_rows ref d <->
    records outbox d !! clientMutationId r = Some r /\ targetRef r = ref /\ waiting r = true.
Proof.
  intros Hw. unfold waiting_rows, in_order. rewrite elem_of_sort_by, list_elem_of_filter, elem_of_all_records.
  unfold at_ref. rewrite andb_true_iff, String.eqb_eq. split.
  - intros ([Ht Hwt] & k & Hk). by rewrite (wf_keyed _ _ Hw outbox k r Hk).
  - intros (Hr & ? & ?). eauto.
Qed.

Lemma own_waiting ref d : wf d -> own_rows outbox d (waiting_rows ref d).
Proof. intros Hw. by eapply own_in_order. Qed.

(** ** Steps that only narrow the queue *)

(** A stamp is a row of unknown fate that a Stop crossed. *)
Definition clean_row (d : WebDb) (r : MutationRecord) : Prop :=
  stopFenced r = Some true -> in_play (state r) = true ->
  state r = blockedUnknown /\ fence_crossed r None None d = true.

Definition clean (d : WebDb) : Prop := forall k (r : WebRecord), records outbox d !! k = Some r -> clean_row d r.

(** One row's step: nothing the queue shows changes, and it does not come to wait. *)
Definition tame (d : WebDb) (r r' : WebRecord) : Prop :=
  targetRef r' = targetRef r /\ intentSequence r' = intentSequence r /\ payload r' = payload r /\
  (waiting r' = true -> waiting r = true) /\ (clean_row d r -> clean_row d r').

Definition tamed (d d' : WebDb) : Prop :=
  (forall ref, (epoch_of ref d <= epoch_of ref d')%Z) /\
  forall k (r' : WebRecord), records outbox d' !! k = Some r' ->
    exists r : WebRecord, records outbox d !! k = Some r /\ tame d r r'.

Lemma tame_refl d r : tame d r r.
Proof. done. Qed.

Lemma fence_crossed_mono (r : MutationRecord) d d' :
  (forall ref, (epoch_of ref d <= epoch_of ref d')%Z) ->
  fence_crossed r None None d = true -> fence_crossed r None None d' = true.
Proof.
  intros He. unfold fence_crossed. simpl. rewrite !orb_true_iff, !Z.ltb_lt. pose proof (He (targetRef r)).
  destruct (displayedRef r) as [shown|]; [pose proof (He shown)|]; rewrite ?Z.ltb_lt; intros [?|?]; (left; lia) || (right; lia) || done.
Qed.

Lemma clean_row_mono d d' r : (forall ref, (epoch_of ref d <= epoch_of ref d')%Z) -> clean_row d r -> clean_row d' r.
Proof. intros He Hc Hf Hp. destruct (Hc Hf Hp). split; [done|by eapply fence_crossed_mono]. Qed.

Lemma tamed_refl d : tamed d d.
Proof. split; [done|]. intros k r Hr. exists r. split; [done|apply tame_refl]. Qed.

Lemma clean_tamed d d' : clean d -> tamed d d' -> clean d'.
Proof.
  intros Hc [He Ht] k r' Hr'. destruct (Ht k r' Hr') as (r & Hr & _ & _ & _ & _ & Hcr).
  eapply clean_row_mono; [done|]. by apply Hcr, (Hc k).
Qed.

(** What the queue shows of a row. *)
Definition view (r : WebRecord) : Z * (string * json_object) := (intentSequence r, entry r).

Lemma waiting_sorted ref d : wf d -> StronglySorted (key_lt fst) (view <$> waiting_rows ref d).
Proof.
  intros Hw. assert (Hs : StronglySorted (key_lt (fun r : WebRecord => intentSequence r)) (waiting_rows ref d)).
  { apply sort_by_strict. apply (in_order_sequences d _ ref Hw). intros r [Ht%String.eqb_eq _]%andb_prop. done. }
  induction Hs as [|r l Hs IH Hall]; simpl; constructor; [done|].
  apply Forall_fmap. by rewrite Forall_forall in *.
Qed.

Lemma elem_of_web_views ref d v :
  wf d -> v ∈ view <$> waiting_rows ref d <->
    exists r : WebRecord, records outbox d !! clientMutationId r = Some r /\ targetRef r = ref /\ waiting r = true /\ v = view r.
Proof.
  intros Hw. rewrite list_elem_of_fmap. split.
  - intros (r & -> & (? & ? & ?)%elem_of_waiting); [by exists r|done].
  - intros (r & ? & ? & ? & ->). exists r. split; [done|]. by apply elem_of_waiting.
Qed.

Lemma waiting_queue_views ref d : waiting_queue ref d = (view <$> waiting_rows ref d).*2.
Proof. unfold waiting_queue. by rewrite <- list_fmap_compose. Qed.

Lemma tamed_queue d d' ref :
  wf d -> wf d' -> tamed d d' -> waiting_queue ref d' `sublist_of` waiting_queue ref d.
Proof.
  intros Hw Hw' [_ Ht]. rewrite !waiting_queue_views. apply (fmap_sublist snd).
  apply (strict_sublist fst); [by apply waiting_sorted..|].
  intros v (r' & Hr' & Hrt & Hwt & ->)%elem_of_web_views; [|done].
  destruct (Ht _ r' Hr') as (r & Hr & Hta & Hs & Hp & Hwr & _). apply elem_of_web_views; [done|].
  pose proof (wf_keyed _ _ Hw outbox _ _ Hr) as Hk.
  exists r. rewrite Hk. split_and!; [done|congruence|auto|].
  unfold view, entry. by rewrite Hs, Hp, Hk.
Qed.

Lemma waiting_keys ref d k : wf d -> k ∈ (waiting_queue ref d).*1 -> exists r : WebRecord, records outbox d !! k = Some r /\ waiting r = true.
Proof.
  intros Hw. unfold waiting_queue. rewrite <- list_fmap_compose.
  intros (r & -> & (Hr & _ & Hwt)%elem_of_waiting)%list_elem_of_fmap; [|done]. by exists r.
Qed.

(** ** The calls of an attempt, one transaction each *)

Lemma tamed_sub d d' :
  s_sequences d' = s_sequences d -> (forall k (r : WebRecord), records outbox d' !! k = Some r -> records outbox d !! k = Some r) ->
  tamed d d'.
Proof.
  intros Hs Hsub. split; [intros ref; unfold epoch_of; by rewrite Hs|].
  intros k r Hr. exists r. split; [auto|apply tame_refl].
Qed.

(** One row rewritten in place. *)
Lemma tamed_row d (r r' : WebRecord) :
  records outbox d !! clientMutationId r = Some r -> tame d r r' ->
  tamed d (set_records outbox (<[clientMutationId r := r']> (records outbox d)) d).
Proof.
  intros Hr Ht. split; [intros ref; by rewrite epoch_set|]. intros k s. rewrite records_set_eq.
  intros [[<- <-]|[_ Hs]]%lookup_insert_Some; [by exists r|]. exists s. split; [done|apply tame_refl].
Qed.

(** [p] only narrows the queue, from a clean state. *)
Definition tames {A} (p : tx A) : Prop := forall d d' a, inv d -> clean d -> p d = inl (d', a) -> tamed d d'.

(** The row a put leaves. *)
Lemma put_tames d d' (r r' : WebRecord) u :
  clientMutationId r' = clientMutationId r -> records outbox d !! clientMutationId r = Some r -> tame d r r' ->
  put outbox r' d = inl (d', u) -> tamed d d'.
Proof. intros Hk Hr Ht ->%put_inv. rewrite Hk. by apply tamed_row. Qed.

Lemma get_inv d t id (r : WebRecord) : inv d -> records t d !! id = Some r -> clientMutationId r = id.
Proof. intros [Hw _]. by apply (wf_keyed _ _ Hw t). Qed.

(** The last put of a body, by the tame row it leaves. *)
Lemma answer_tames {A} d d' (r r' : WebRecord) (x a : A) :
  clientMutationId r' = clientMutationId r -> records outbox d !! clientMutationId r = Some r ->
  (put outbox r' ;; tx_ret x)%tx d = inl (d', a) -> tame d r r' -> tamed d d'.
Proof.
  intros Hk Hr (d1 & u & H1 & H2)%bind_inv Ht. injection H2 as <- _. by eapply put_tames.
Qed.

Lemma tame_parked d (r r' : WebRecord) :
  targetRef r' = targetRef r -> intentSequence r' = intentSequence r -> payload r' = payload r ->
  waiting r' = false -> clean_row d r' -> tame d r r'.
Proof. intros ? ? ? Hwt ?. split_and!; try done. by rewrite Hwt. Qed.

Lemma tame_waiting d (r r' : WebRecord) :
  targetRef r' = targetRef r -> intentSequence r' = intentSequence r -> payload r' = payload r ->
  waiting r = true -> stopFenced r' <> Some true -> tame d r r'.
Proof. intros ? ? ? Hwt Hs. by split_and!. Qed.

Lemma waiting_unstamped (r : WebRecord) : in_play (state r) = true -> stopFenced r <> Some true -> waiting r = true.
Proof. intros Hp Hs. unfold waiting. by rewrite Hp, (bool_decide_false _ Hs), andb_false_r. Qed.

Lemma submitting_unstamped d (r : WebRecord) : clean_row d r -> state r = submitting -> stopFenced r <> Some true.
Proof. intros Hc Hst Hs. destruct (Hc Hs); [by rewrite Hst|congruence]. Qed.

Lemma uncrossed_unstamped d (r : WebRecord) :
  clean_row d r -> in_play (state r) = true -> fence_crossed r None None d = false -> stopFenced r <> Some true.
Proof. intros Hc Hp Hf Hs. destruct (Hc Hs Hp). congruence. Qed.

(** Leaving play, and parking a crossed row under the stamp. *)
Lemma tame_out d (r r' : WebRecord) :
  targetRef r' = targetRef r -> intentSequence r' = intentSequence r -> payload r' = payload r ->
  in_play (state r') = false -> tame d r r'.
Proof.
  intros ? ? ? Hp. apply tame_parked; try done; [unfold waiting; by rewrite Hp|]. intros _ Hp'. congruence.
Qed.

Lemma tame_stamp d (r r' : WebRecord) :
  targetRef r' = targetRef r -> intentSequence r' = intentSequence r -> payload r' = payload r ->
  state r' = blockedUnknown -> stopFenced r' = Some true -> fence_crossed r' None None d = true -> tame d r r'.
Proof.
  intros ? ? ? Hst Hs Hf. apply tame_parked; try done. unfold waiting. by rewrite Hst, Hs.
Qed.

Lemma unmark_tames id : tames (unmarkAttempted_tx id).
Proof.
  intros d d' a Hd Hc H. unfold unmarkAttempted_tx in H.
  rewrite (bind_ok (get outbox id) _ d d _ eq_refl) in H.
  destruct (records outbox d !! id) as [r|] eqn:Hr; [|by injection H as <- _; apply tamed_refl].
  pose proof (get_inv _ _ _ _ Hd Hr) as <-. pose proof (Hc _ r Hr) as Hcr. cbv zeta in H.
  destruct (state r) eqn:Hst; try (by injection H as <- _; apply tamed_refl).
  - rewrite (bind_ok _ _ _ _ _ (fence_eq _ _ _ d)) in H.
    pose proof (submitting_unstamped _ _ Hcr Hst) as Hns.
    destruct (fence_crossed r None None d) eqn:Hf; [destruct (0 <? _)%Z|];
      (eapply (answer_tames d d' r); [| |exact H|]; [done|done|]).
    + by apply tame_stamp.
    + by apply tame_out.
    + apply tame_waiting; try done. by apply waiting_unstamped; rewrite ?Hst.
  - rewrite (bind_ok _ _ _ _ _ (fence_eq _ _ _ d)) in H.
    destruct (1 <? _)%Z; [|destruct (fence_crossed r None None d) eqn:Hf];
      (eapply (answer_tames d d' r); [| |exact H|]; [by try case_match|done|]).
    + destruct (fence_crossed r None None d) eqn:Hf; [by apply tame_stamp|].
      pose proof (uncrossed_unstamped _ _ Hcr ltac:(by rewrite Hst) Hf) as Hns.
      apply tame_waiting; try done. by apply waiting_unstamped; rewrite ?Hst.
    + by apply tame_out.
    + pose proof (uncrossed_unstamped _ _ Hcr ltac:(by rewrite Hst) Hf) as Hns.
      apply tame_waiting; try done. by apply waiting_unstamped; rewrite ?Hst.
Qed.

Lemma unknown_tames id b : tames (markUnknown_tx id b).
Proof.
  intros d d' a Hd Hc H. unfold markUnknown_tx in H.
  rewrite (bind_ok (get outbox id) _ d d _ eq_refl) in H.
  destruct (records outbox d !! id) as [r|] eqn:Hr; [|by injection H as <- _; apply tamed_refl].
  pose proof (get_inv _ _ _ _ Hd Hr) as <-. pose proof (Hc _ r Hr) as Hcr.
  pose proof (wf_outbox _ _ (proj1 Hd) _ _ Hr) as Ha.
  destruct (b && _); [by injection H as <- _; apply tamed_refl|].
  destruct (state r) eqn:Hst; try (by injection H as <- _; apply tamed_refl); [|by destruct Ha].
  pose proof (submitting_unstamped _ _ Hcr Hst) as Hns.
  eapply (answer_tames d d' r); [| |exact H|]; [done|done|].
  apply tame_waiting; try done. by apply waiting_unstamped; rewrite ?Hst.
Qed.

(** The row a mark leaves waits exactly when the mark answers yes. *)
Lemma answer_effect {A} d d' (r r' : WebRecord) (x a : A) :
  clientMutationId r' = clientMutationId r ->
  (put outbox r' ;; tx_ret x)%tx d = inl (d', a) ->
  d' = set_records outbox (<[clientMutationId r := r']> (records outbox d)) d /\ a = x.
Proof. intros Hk (d1 & u & ->%put_inv & H2)%bind_inv. injection H2 as <- <-. by rewrite Hk. Qed.

Lemma mark_effect d d' (r : WebRecord) b :
  inv d -> clean d -> records outbox d !! clientMutationId r = Some r -> state r = submitting ->
  markAttempted_tx (clientMutationId r) d = inl (d', b) ->
  exists r' : WebRecord, d' = set_records outbox (<[clientMutationId r := r']> (records outbox d)) d /\
    tame d r r' /\ waiting r' = b /\ clientMutationId r' = clientMutationId r.
Proof.
  intros Hd Hc Hr Hst H. pose proof (submitting_unstamped _ _ (Hc _ r Hr) Hst) as Hns.
  unfold markAttempted_tx in H. rewrite (bind_ok (get outbox _) _ d d _ eq_refl), Hr, Hst in H.
  change (negb (state_eqb submitting submitting)) with false in H. cbv zeta iota in H.
  assert (Hsubm : forall r' : WebRecord, clientMutationId r' = clientMutationId r ->
    targetRef r' = targetRef r -> intentSequence r' = intentSequence r -> payload r' = payload r ->
    state r' = submitting -> stopFenced r' = stopFenced r ->
    (put outbox r' ;; tx_ret true)%tx d = inl (d', b) ->
    exists r' : WebRecord, d' = set_records outbox (<[clientMutationId r := r']> (records outbox d)) d /\
      tame d r r' /\ waiting r' = b /\ clientMutationId r' = clientMutationId r).
  { intros r' Hk ? ? ? Hs' Hf' Hput. apply (answer_effect d d' r) in Hput as [-> ->]; [|done]. exists r'.
    rewrite <- Hf' in Hns. split_and!; [done| |by apply waiting_unstamped; rewrite ?Hs'|done].
    apply tame_waiting; try done. apply waiting_unstamped; [by rewrite Hst|]. by rewrite <- Hf'. }
  destruct (bool_decide (attempted r = Some true) || (0 <? priorUnresolvedAttempts r)%Z ||
    (match unresolvedAttempts r with Some _ => true | None => false end) ||
    match stopEpochAtEnqueue r with Some _ => false | None => true end); [|by eapply Hsubm in H].
  rewrite (bind_ok _ _ _ _ _ (stopEpochOf_eq _ d)), (bind_ok _ _ _ _ _ (displayed_eq (displayedRef r) d)) in H.
  rewrite (bind_ok _ _ _ _ _ (fence_eq _ _ _ d)) in H.
  set (c := if _ && _ then epoch_of (targetRef r) d else _) in H.
  destruct (fence_crossed (with_epoch c r) (Some _) _ d) eqn:Hf; [|by eapply Hsubm in H].
  apply (answer_effect d d' r) in H as [-> ->]; [|by case_match].
  eexists. split; [reflexivity|].
  assert (Hf' : fence_crossed (with_epoch c r) None None d = true).
  { rewrite <- Hf. unfold fence_crossed. simpl. f_equal. by destruct (displayedRef r). }
  case_match.
  - split_and!; [by apply tame_stamp|done|done].
  - split_and!; [by apply tame_out|done|done].
Qed.

Lemma transfer_row_inv (r : WebRecord) kind m u d d' o :
  transfer_row r kind m u d = inl (d', o) ->
  s_sequences d' = s_sequences d /\ records outbox d' = delete (clientMutationId r) (records outbox d).
Proof.
  intros (d1 & x & ->%put_inv & H)%bind_inv. apply bind_inv in H as (d2 & y & H2 & H3). injection H3 as <- _.
  unfold erase in H2. set (de := set_records outbox _ _) in H2. injection H2 as <- _.
  unfold de. by rewrite !sequences_set, records_set_eq, records_set_ne.
Qed.

Lemma transfer_takes d d' id kind m u o :
  inv d -> transferToRecovery_tx id kind m u d = inl (d', o) -> tamed d d' /\ records outbox d' !! id = None.
Proof.
  intros Hd H. unfold transferToRecovery_tx in H. rewrite (bind_ok (get outbox id) _ d d _ eq_refl) in H.
  destruct (records outbox d !! id) as [r|] eqn:Hr; [|injection H as <- _; split; [apply tamed_refl|done]].
  pose proof (get_inv _ _ _ _ Hd Hr) as <-.
  assert (Hgone : forall d', s_sequences d' = s_sequences d /\ records outbox d' = delete (clientMutationId r) (records outbox d) ->
    tamed d d' /\ records outbox d' !! clientMutationId r = None).
  { intros d'' [Hs Ho]. rewrite Ho. split; [|apply lookup_delete_eq]. apply tamed_sub; [done|].
    rewrite Ho. by intros k s [_ ?]%lookup_delete_Some. }
  destruct (String.eqb _ _); [by eapply Hgone, transfer_row_inv|].
  rewrite (bind_ok (get recovery _) _ d d _ eq_refl) in H.
  assert (Hrec : records recovery d !! clientMutationId r = None).
  { apply eq_None_not_Some. intros [s Hs]. exact (wf_apart _ _ (proj1 Hd) _ r s Hr Hs). }
  rewrite Hrec in H.
  rewrite (bind_ok _ _ _ _ _ (resolve_eq _ _ _ _ d)) in H. cbv zeta iota in H.
  destruct (wire_carrier _ _) as [c|]; [|by eapply Hgone, transfer_row_inv].
  apply Hgone. apply bind_inv in H as (d1 & x & H1 & H2). injection H2 as <- _.
  unfold erase in H1. set (de := set_records outbox _ _) in H1. injection H1 as <- _.
  unfold de. by rewrite sequences_set, records_set_eq.
Qed.

(** *** Settlements *)

(** Every outbox row a settlement leaves is an old one or an old note it superseded. *)
Definition settled_rows (d d' : WebDb) : Prop :=
  forall k (r' : WebRecord), records outbox d' !! k = Some r' ->
    exists (r : WebRecord) (c : bool), records outbox d !! k = Some r /\
      r' = if c then update_record (with_state superseded) r else r.

Lemma settled_tamed d d' :
  (forall ref, (epoch_of ref d <= epoch_of ref d')%Z) -> settled_rows d d' -> tamed d d'.
Proof.
  intros He Hrows. split; [done|]. intros k r' Hr'. destruct (Hrows k r' Hr') as (r & c & Hr & ->).
  exists r. split; [done|]. destruct c; [by apply tame_out|apply tame_refl].
Qed.

Lemma settling_none d d1 id pick :
  inv d -> chooses pick -> settling id pick d = inl (d1, None) -> d1 = d /\ forall t, records t d !! id = None.
Proof.
  intros Hd Hpick H. pose proof (good_start (fun _ => False) d Hd) as Hg.
  apply (wp_inv (fun _ => False) _ (fun o d' => d' = d /\ (o = None -> forall t, records t d !! id = None)) d d1 None) in H
    as [-> Hn]; [auto|].
  eapply wp_settling; [done|done|by intros|]. intros s _. by split.
Qed.

Lemma settlement_rows d d' id pick s d1 d2 d3 u ids :
  inv d -> chooses pick -> settling id pick d = inl (d1, Some s) ->
  discardSupersededNoteRecovery (subject s) d1 = inl (d2, u) ->
  retireOlderBlockedNoteRows (subject s) d2 = inl (d3, ids) ->
  (forall k (r : WebRecord), records outbox d' !! k = Some r -> records outbox d3 !! k = Some r /\ untouched d id s outbox k) ->
  settled_rows d d' /\ records outbox d' !! id = None.
Proof.
  intros Hd Hpick H1 H2 H3 Hsub.
  destruct (settlement_opens d Hd _ _ _ _ _ _ _ _ Hpick H1 H2 H3) as (Hs & _ & Hout).
  assert (Hrows : settled_rows d d').
  { intros k r' Hr'. destruct (Hsub k r' Hr') as [Hr _]. rewrite Hout in Hr. apply fmap_Some in Hr as (r & Hr & ->).
    exists r. eexists. split; [done|]. reflexivity. }
  split; [done|]. apply eq_None_not_Some. intros [r' Hr'].
  destruct (Hrows id r' Hr') as (r & c & Hr & _). destruct (Hsub id r' Hr') as [_ [Hun _]].
  apply Hun; [|by rewrite Hr|done]. rewrite (st_named_outbox _ _ _ Hs r Hr). done.
Qed.

Lemma swept_outbox id s ids d d' out k (r : WebRecord) :
  sweep_settled id s ids d = inl (d', out) -> records outbox d' !! k = Some r -> records outbox d !! k = Some r.
Proof.
  destruct (sweep_settled_eq id s ids d) as (out' & d0 & _ & _ & Ho & _ & Heq). rewrite Heq. intros [= <- _].
  rewrite Ho, erase_keys_lookup. by case_decide.
Qed.

Lemma settleApplied_rows d d' id o :
  inv d -> settleApplied_tx id d = inl (d', o) -> settled_rows d d' /\ records outbox d' !! id = None.
Proof.
  intros Hd. unfold settleApplied_tx. intros (d1 & f & H1 & H)%bind_inv. destruct f as [s|].
  2:{ injection H as <- _. destruct (settling_none _ _ _ _ Hd chooses_applied H1) as [-> Hn].
      split; [|apply (Hn outbox)]. intros k r Hr. by exists r, false. }
  apply bind_inv in H as (d2 & u & H2 & H). apply bind_inv in H as (d3 & ids & H3 & H).
  destruct (settlement_opens d Hd _ _ _ _ _ _ _ _ chooses_applied H1 H2 H3) as (Hs & _).
  apply bind_inv in H as (d4 & u' & H4 & H). apply bind_inv in H as (d5 & out' & H5 & H). injection H as <- _.
  eapply settlement_rows; [done|apply chooses_applied|done..|]. intros k r Hr%(swept_outbox _ _ _ _ _ _ _ _ H5).
  by apply (applied_tail _ _ _ _ _ _ Hs H4 outbox).
Qed.

Lemma settleReceipt_rows d d' id p o :
  inv d -> settleReceipt_tx id p d = inl (d', o) -> settled_rows d d' /\ records outbox d' !! id = None.
Proof.
  intros Hd. unfold settleReceipt_tx. intros (d1 & f & H1 & H)%bind_inv. destruct f as [s|].
  2:{ injection H as <- _. destruct (settling_none _ _ _ _ Hd chooses_receipt H1) as [-> Hn].
      split; [|apply (Hn outbox)]. intros k r Hr. by exists r, false. }
  apply bind_inv in H as (d2 & u & H2 & H). apply bind_inv in H as (d3 & ids & H3 & H).
  destruct (settlement_opens d Hd _ _ _ _ _ _ _ _ chooses_receipt H1 H2 H3) as (Hs & _).
  cbv zeta in H. set (retained := retainsAcceptedCopy (subject s) p) in *.
  apply bind_inv in H as (d4 & u4 & H4 & H). apply bind_inv in H as (d5 & u5 & H5 & H).
  apply bind_inv in H as (d6 & out' & H6 & H). injection H as <- _.
  eapply settlement_rows; [done|apply chooses_receipt|done..|]. intros k r Hr%(swept_outbox _ _ _ _ _ _ _ _ H6).
  destruct (receipt_tail _ _ _ _ _ _ _ Hs H5 outbox k r) as (Hr4 & Hun & _); [done..|].
  split; [|by apply Hun]. by rewrite (filed_outbox _ _ _ _ _ _ H4) in Hr4.
Qed.

(** ** The methods, over a storage without faults *)

(** What holds between the dispatcher's calls. *)
Definition quiet (s : WebState) : Prop := faults s = [] /\ inv (committed s) /\ clean (committed s).

(** A method keeps it, and only narrows the queue. *)
Definition narrows {A} (p : web A) : Prop :=
  forall s, quiet s -> quiet (p s).1 /\ forall ref, waiting_queue ref (committed (p s).1) `sublist_of` waiting_queue ref (committed s).

Lemma narrows_stay {A} (p : web A) :
  (forall s, committed (p s).1 = committed s /\ faults (p s).1 = faults s) -> narrows p.
Proof. intros Hp s (Hf & Hi & Hc). destruct (Hp s) as [E1 E2]. unfold quiet. rewrite E1, E2. by split_and!. Qed.

Lemma narrows_bind {A B} (p : web A) (k : A -> web B) : narrows p -> (forall a, narrows (k a)) -> narrows (web_bind p k).
Proof.
  intros Hp Hk s Hs. unfold web_bind. destruct (Hp s Hs) as [H1 Hq1]. destruct (p s) as [s1 [a|e]]; [|done].
  destruct (Hk a s1 H1) as [H2 Hq2]. split; [done|]. intros ref. etrans; [apply Hq2|apply Hq1].
Qed.

Lemma narrows_swallow p : narrows p -> narrows (swallow p).
Proof. intros Hp s Hs. unfold swallow. destruct (Hp s Hs). by destruct (p s) as [s1 [a|e]]. Qed.

(** One transaction without faults. *)
Lemma transact_quiet {A} (during : A -> list notice) (body : tx A) s :
  faults s = [] ->
  transact during body s =
    match body (committed s) with
    | inl (d, a) => (mkWebState d [] (notices s ++ during a), inl a)
    | inr e => (mkWebState (committed s) [] (notices s), inr e)
    end.
Proof. intros Hf. unfold transact. rewrite Hf. by destruct (body (committed s)) as [[d a]|e]. Qed.

Lemma run_action_inv {A} a (body : tx A) d d' x :
  inv d -> run_action a = forget body -> body d = inl (d', x) -> inv d' /\ forall ref, (epoch_of ref d <= epoch_of ref d')%Z.
Proof.
  intros Hd Ha Hx. pose proof (action_good a d Hd) as Hw. unfold wp in Hw.
  rewrite Ha in Hw. unfold forget in Hw. rewrite (bind_ok _ _ _ _ _ Hx) in Hw. simpl in Hw.
  destruct Hw as [? Hv]. split; [done|apply Hv].
Qed.

Lemma narrows_transact {A} (during : A -> list notice) (body : tx A) a :
  run_action a = forget body -> tames body -> narrows (transact during body).
Proof.
  intros Ha Ht s (Hf & Hi & Hc). rewrite transact_quiet by done.
  destruct (body (committed s)) as [[d x]|e] eqn:Hx; [|by split_and!].
  destruct (run_action_inv a body _ _ _ Hi Ha Hx) as [Hi' _]. pose proof (Ht _ _ _ Hi Hc Hx) as Htd.
  split; [split_and!; [done|done|by eapply clean_tamed]|]. intros ref. apply tamed_queue; [apply Hi|apply Hi'|done].
Qed.

(** An erasure in the outbox, and anything in the other stores, narrows. *)
Lemma sweep_recovery_tames w ids : tames (sweepSettled_tx w ids).
Proof.
  intros d d' a Hd Hc H. unfold sweepSettled_tx in H. rewrite (bind_ok _ _ _ _ _ (resolve_eq _ _ _ _ d)) in H.
  unfold retireWireFamily in H. simpl sweepOptimistic in H. simpl sweepRecovery in H.
  simpl family_outbox in H. cbv zeta iota in H.
  rewrite (bind_ok _ _ _ _ _ (eq_refl : retire_from outbox _ [] d = inl (d, []))) in H.
  rewrite (bind_ok (tx_ret []) _ d d [] eq_refl), (bind_ok _ _ _ _ _ (retire_from_eq recovery _ _ d)) in H.
  unfold tx_ret in H. set (de := set_records recovery _ _) in H. injection H as <- _.
  apply tamed_sub; [apply sequences_set|]. intros k r. unfold de. by rewrite records_set_ne.
Qed.

Lemma discard_notes_tames source : tames (discardCanceledNotes_tx source).
Proof.
  intros d d' a Hd Hc H. unfold discardCanceledNotes_tx in H.
  rewrite (bind_ok (getAll outbox) _ d d _ eq_refl), retire_from_eq in H.
  set (de := set_records outbox _ _) in H. injection H as <- _.
  apply tamed_sub; [apply sequences_set|]. intros k r. unfold de. rewrite records_set_eq, erase_keys_lookup. by case_decide.
Qed.

Lemma narrows_after id out : narrows (after_settlement id out).
Proof.
  unfold after_settlement, sweepSettledWireRecoverySiblings, discardSupersededCanceledNotesAfterSettle.
  apply narrows_bind; [by apply narrows_stay|intros _].
  apply narrows_bind; [apply narrows_stay; intros s; by destruct (settledRetiredIds out)|intros _].
  apply narrows_bind; [|intros _].
  - apply narrows_swallow, narrows_bind; [|intros; by apply narrows_stay].
    apply (narrows_transact _ _ (ASweepSettled (settledWireId out) [id; clientMutationId (settledSource out)]));
      [done|apply sweep_recovery_tames].
  - destruct (negb _); [by apply narrows_stay|].
    apply narrows_swallow, narrows_bind; [|intros; by apply narrows_stay].
    apply (narrows_transact _ _ (ADiscardCanceledNotes (settledSource out))); [done|apply discard_notes_tames].
Qed.

Lemma receipt_tames id p : tames (settleReceipt_tx id p).
Proof.
  intros d d' o Hd Hc H. apply settled_tamed; [|by eapply settleReceipt_rows].
  by eapply (run_action_inv (ASettleReceipt id p)).
Qed.

Lemma applied_tames id : tames (settleApplied_tx id).
Proof.
  intros d d' o Hd Hc H. apply settled_tamed; [|by eapply settleApplied_rows].
  by eapply (run_action_inv (ASettleApplied id)).
Qed.

(** ** The instance *)

Definition web_call {A B} (f : A -> B) (p : web A) (s : WebState) : WebState * (B + rejection) :=
  match p s with
  | (s', inl a) => (s', inl (f a))
  | (s', inr e) => (s', inr (as_rejection e))
  end.

Lemma web_call_1 {A B} (f : A -> B) p s : (web_call f p s).1 = (p s).1.
Proof. unfold web_call. by destruct (p s) as [s' [a|e]]. Qed.

Lemma web_call_no_wire {A B} (f : A -> B) p s e : is_wire e = true -> (web_call f p s).2 <> inr e.
Proof. intros He. unfold web_call. destruct (p s) as [s' [a|e']]; [done|]. intros [= <-]. done. Qed.

Notation row := (fun r : WebRecord => record r).

#[export] Instance web_storage (host : WebHost) : MutationOutboxStorage WebState := {
  port_nextDispatchable ref := web_call (fmap row) (nextDispatchable ref);
  port_getOutbox id := web_call (fmap row) (getOutbox id);
  port_markAttempted id := web_call (fun b => b) (markAttempted id);
  port_unmarkAttempted id := web_call (fun b => b) (unmarkAttempted id);
  port_markUnknown id := web_call (fun b => b) (markUnknown id blockedUnknown false);
  port_settleReceipt id p := web_call (fun b => b) (settleReceipt id p);
  port_settleApplied id := web_call (fmap row) (settleApplied id);
  port_transferToRecovery id k m u := web_call (fmap row) (transferToRecovery id k m u);
  port_restoreProvenAbsent ref ids := web_call (fmap row) (restoreProvenAbsent host ref ids)
}.

Lemma quiet_read {A} (body : tx A) s d a :
  quiet s -> body (committed s) = inl (committed s, a) -> d = committed s -> read body s = (s, inl a).
Proof.
  intros (Hf & _) Hb ->. unfold read, write. rewrite transact_quiet, Hb, app_nil_r by done.
  destruct s as [c f n]. simpl in *. by subst.
Qed.

Lemma quiet_next ref s :
  quiet s -> nextDispatchable ref s =
    (s, inl (first_dispatchable (in_order (at_target (Some ref)) (all_records (records outbox (committed s)))))).
Proof.
  intros Hs. unfold nextDispatchable, web_bind, listOutbox.
  by erewrite (quiet_read _ _ (committed s)) by done.
Qed.

Lemma quiet_get id s : quiet s -> getOutbox id s = (s, inl (records outbox (committed s) !! id)).
Proof. intros Hs. unfold getOutbox. by erewrite (quiet_read _ _ (committed s)) by done. Qed.

(** The rows that wait are the target's rows, less the ones [nextDispatchable] passes. *)
Lemma waiting_rows_filter ref d :
  waiting_rows ref d = filter (fun r => waiting r = true) (in_order (at_target (Some ref)) (all_records (records outbox d))).
Proof.
  unfold waiting_rows, in_order. rewrite sort_by_filter, list_filter_filter. f_equal. apply list_filter_iff.
  intros r. simpl. rewrite andb_true_iff. tauto.
Qed.

Lemma passed_first l (r : WebRecord) :
  first_dispatchable l = Some r ->
  state r = submitting /\ exists q, filter (fun r => waiting r = true) l = r :: q.
Proof.
  induction l as [|x l IH]; simpl; [done|]. rewrite filter_cons.
  destruct (waiting x) eqn:Hx; [rewrite decide_True by done|rewrite decide_False by done];
    unfold waiting in Hx; destruct (state x) eqn:Hst; simpl in Hx; try done.
  - intros [= <-]. eauto.
  - by apply negb_true_iff in Hx as ->.
  - by apply negb_false_iff in Hx as ->.
Qed.

Lemma quiet_mark id s (r : WebRecord) :
  quiet s -> records outbox (committed s) !! id = Some r -> state r = submitting ->
  exists s' b, markAttempted id s = (s', inl b) /\ quiet s' /\
    if b : bool then forall ref, waiting_queue ref (committed s') = waiting_queue ref (committed s)
    else forall ref, waiting_queue ref (committed s') `sublist_of` waiting_queue ref (committed s) /\
           id ∉ (waiting_queue ref (committed s')).*1.
Proof.
  intros (Hf & Hi & Hc) Hr Hst. pose proof (get_inv _ _ _ _ Hi Hr) as <-.
  set (id := clientMutationId r) in *. unfold markAttempted, write. rewrite transact_quiet by done.
  pose proof (action_good (AMark id) (committed s) Hi) as Hw. unfold wp in Hw. simpl run_action in Hw.
  unfold forget, tx_bind in Hw. destruct (markAttempted_tx id (committed s)) as [[d' b]|e] eqn:Hm; [|by destruct Hw as (? & [] & _)].
  simpl in Hw. destruct Hw as [Hi' _].
  destruct (mark_effect _ _ _ _ Hi Hc Hr Hst Hm) as (r' & Hd' & Ht & Hwt & Hk).
  pose proof (tamed_row _ _ _ Hr Ht) as Htd. fold id in Htd, Hd'. rewrite <- Hd' in Htd.
  assert (Hsub : forall ref, waiting_queue ref d' `sublist_of` waiting_queue ref (committed s))
    by (intros; apply tamed_queue; [apply Hi|apply Hi'|done]).
  eexists _, b. split; [reflexivity|]. split; [split_and!; [done|done|by eapply clean_tamed]|]. simpl. destruct b.
  - intros ref. apply (anti_symm sublist); [apply Hsub|].
    rewrite !waiting_queue_views. apply (fmap_sublist snd), (strict_sublist fst); [by apply waiting_sorted, Hi'|by apply waiting_sorted, Hi|].
    intros v (x & Hx & Hxt & Hxw & ->)%elem_of_web_views; [|apply Hi]. apply elem_of_web_views; [apply Hi'|].
    destruct (decide (clientMutationId x = id)) as [E|Hne].
    + assert (x = r) as -> by (rewrite E in Hx; congruence). exists r'. destruct Ht as (Ht & Hs & Hp & _).
      rewrite Hk, Hd', records_set_eq. split_and!; [apply lookup_insert_eq|congruence|done|].
      unfold view, entry. by rewrite Hs, Hp, Hk.
    + exists x. rewrite Hd', records_set_eq, lookup_insert_ne by done. by split_and!.
  - intros ref. split; [apply Hsub|]. intros (x & Hx & Hxw)%waiting_keys; [|apply Hi'].
    rewrite Hd', records_set_eq, lookup_insert_eq in Hx. congruence.
Qed.

Lemma narrows_transaction {A} (body : tx A) a : run_action a = forget body -> tames body -> narrows (write body).
Proof. apply narrows_transact. Qed.

Lemma narrows_receipt id p : narrows (settleReceipt id p).
Proof.
  apply narrows_bind; [|intros; by apply narrows_stay]. apply narrows_bind.
  - apply (narrows_transaction _ (ASettleReceipt id p)); [done|apply receipt_tames].
  - intros [o|]; [|by apply narrows_stay]. apply narrows_bind; [apply narrows_after|intros; by apply narrows_stay].
Qed.

Lemma narrows_applied id : narrows (settleApplied id).
Proof.
  apply narrows_bind; [|intros; by apply narrows_stay]. apply narrows_bind.
  - apply (narrows_transaction _ (ASettleApplied id)); [done|apply applied_tames].
  - intros [o|]; [|by apply narrows_stay]. apply narrows_bind; [apply narrows_after|intros; by apply narrows_stay].
Qed.

Lemma narrows_transfer id k m u : narrows (transferToRecovery id k m u).
Proof.
  apply (narrows_transaction _ (ATransfer id k m (default false u))); [done|].
  intros d d' o Hd _ H. by eapply transfer_takes.
Qed.

(** A first transaction that takes a key out of the outbox keeps it out. *)
Lemma gone_after {A B} (body : tx A) (k : A -> web B) a id s ref b :
  quiet s -> run_action a = forget body -> tames body ->
  (forall d' x, body (committed s) = inl (d', x) -> records outbox d' !! id = None) -> (forall x, narrows (k x)) ->
  (web_bind (write body) k s).2 = inl b ->
  id ∉ (waiting_queue ref (committed (web_bind (write body) k s).1)).*1.
Proof.
  intros Hs Ha Ht Hgone Hk. pose proof (narrows_transaction body a Ha Ht s Hs) as [Hq1 _].
  unfold web_bind. unfold write in *. rewrite transact_quiet in * by apply Hs.
  destruct (body (committed s)) as [[d' x]|e] eqn:Hx; [|done]. intros _ Hin.
  destruct (Hk x _ Hq1) as [_ Hsub].
  assert (Hin' : id ∈ (waiting_queue ref d').*1).
  { eapply elem_of_submseteq; [exact Hin|]. apply sublist_submseteq, (fmap_sublist fst), Hsub. }
  apply waiting_keys in Hin' as (r & Hr & _); [|apply Hq1]. by rewrite (Hgone _ _ eq_refl) in Hr.
Qed.

Lemma narrows_shrinks {A B} (f : A -> B) (p : web A) s :
  narrows p -> quiet s -> shrinks quiet (fun ref s => waiting_queue ref (committed s)) s (web_call f p s).1.
Proof. intros Hp Hs. rewrite web_call_1. by apply Hp. Qed.

#[export] Program Instance web_fifo (host : WebHost) : FifoStorage WebState (H := web_storage host) := {
  st_inv := quiet;
  st_queue ref s := waiting_queue ref (committed s)
}.
Next Obligation.
  intros host ref s (_ & [Hw _] & _). simpl. unfold waiting_queue. rewrite <- list_fmap_compose.
  apply (own_waiting ref _ Hw).
Qed.
Next Obligation.
  intros host ref s Hs. simpl. unfold web_call. rewrite quiet_next by done.
  eexists. split; [reflexivity|]. intros rec Hrec. apply fmap_Some in Hrec as (r & Hf & ->).
  destruct (passed_first _ _ Hf) as [Hst [q Hq]]. split; [done|]. rewrite <- waiting_rows_filter in Hq.
  split; [exists (entry <$> q); unfold waiting_queue; by rewrite Hq|].
  assert (Hin : r ∈ waiting_rows ref (committed s)) by (rewrite Hq; by left).
  apply elem_of_waiting in Hin as (Hr & _); [|apply Hs]. by rewrite quiet_get, Hr.
Qed.
Next Obligation.
  intros host id s rec Hs Hg Hst. simpl in *. unfold web_call in *. rewrite quiet_get in Hg by done.
  destruct (records outbox (committed s) !! id) as [r|] eqn:Hr; [|done]. injection Hg as <-.
  destruct (quiet_mark id s r Hs Hr Hst) as (s' & b & Hm & Hs' & Hq). rewrite Hm. by exists s', b.
Qed.
Next Obligation. intros host id s Hs. simpl. by rewrite web_call_1, quiet_get. Qed.
Next Obligation.
  intros host id s Hs. simpl. apply narrows_shrinks; [|done].
  apply (narrows_transaction _ (AUnmark id)); [done|apply unmark_tames].
Qed.
Next Obligation.
  intros host id s Hs. simpl. apply narrows_shrinks; [|done].
  apply (narrows_transaction _ (AMarkUnknown id false)); [done|apply unknown_tames].
Qed.
Next Obligation. intros host id p s Hs. simpl. by apply narrows_shrinks; [apply narrows_receipt|]. Qed.
Next Obligation.
  intros host id p s ref b Hs. simpl. rewrite web_call_1. intros Hb.
  assert (Hr : exists r, (settleReceiptResult id p s).2 = inl r).
  { revert Hb. unfold web_call, settleReceipt, web_bind at 1.
    destruct (settleReceiptResult id p s) as [s' [r|e]]; [by exists r|done]. }
  destruct Hr as [r Hr].
  assert (Hsame : (settleReceipt id p s).1 = (settleReceiptResult id p s).1).
  { unfold settleReceipt, web_bind at 1. by destruct (settleReceiptResult id p s) as [s' [?|?]]. }
  rewrite Hsame. unfold settleReceiptResult in *.
  eapply (gone_after _ _ (ASettleReceipt id p)); [done|done|apply receipt_tames| | |exact Hr].
  - intros d' x Hx. by eapply settleReceipt_rows; [apply Hs|].
  - intros [o|]; [|by apply narrows_stay]. apply narrows_bind; [apply narrows_after|intros; by apply narrows_stay].
Qed.
Next Obligation. intros host id s Hs. simpl. by apply narrows_shrinks; [apply narrows_applied|]. Qed.
Next Obligation. intros host id k m u s Hs. simpl. by apply narrows_shrinks; [apply narrows_transfer|]. Qed.
Next Obligation.
  intros host id k m u s ref b Hs. simpl. rewrite web_call_1. intros Hb.
  unfold web_call, transferToRecovery, write in *. rewrite transact_quiet in * by apply Hs.
  destruct (transferToRecovery_tx id k m (default false u) (committed s)) as [[d' o]|e] eqn:Hx; [|done].
  destruct Hs as (_ & Hi & _). destruct (transfer_takes _ _ _ _ _ _ _ Hi Hx) as [_ Hn].
  destruct (run_action_inv (ATransfer id k m (default false u)) _ _ _ _ Hi eq_refl Hx) as [Hi' _]. simpl.
  intros (r & Hr & _)%waiting_keys; [|apply Hi']. by rewrite Hn in Hr.
Qed.
Next Obligation.
  intros host s e He. simpl. split_and!; intros; by apply web_call_no_wire.
Qed.

(** ** The drain *)


Lemma unstamped_clean d : map_Forall (fun _ (r : WebRecord) => stopFenced r <> Some true) (records outbox d) -> clean d.
Proof. intros Hf k r Hr Hs. by destruct (Hf k r Hr). Qed.

Definition demo_queued : list action :=
  [AEnqueue (demo_host "a") (demo_intent "thread-1" "turn/start") None;
   AEnqueue (demo_host "b") (demo_intent "thread-1" "turn/queue") None].

