(* ===== verification/WebTheorems.v ===== *)
(** What the web outbox guarantees over its reachable states: well-formed stores, the
    life of a row, Stop and the evidence of attempts, settlements, mints and the choice
    of the next row to dispatch. *)

From S2P Require Import Prelude JsString Json Sql Records Idb WebOutbox WebFacts WebInvariant WebReach WebSettlement.

Local Open Scope string_scope.
Local Open Scope list_scope.
Local Open Scope tx_scope.

(** ** Reachable states *)

(** C8: from the empty database, every run of transactions of any tabs keeps the stores
    well formed: each record under its own key, each sequence at most its target's last,
    no two records at one place, no accepted record in the outbox, and every row in play
    that never went out carrying the current Stop epochs of its refs. *)
Theorem reachable_stores_well_formed l d : runs l empty_web d -> wf d /\ current d.
Proof. intros Hl. apply reachable_inv. by exists l. Qed.

Lemma reachable_stores_well_formed_witness :
  match replay demo_stopped empty_web with Some _ => true | None => false end = true /\
  wf (final demo_stopped) /\ current (final demo_stopped).
Proof. split; [by vm_compute|]. apply (reachable_stores_well_formed demo_stopped), runs_final. by vm_compute. Defined.


(** a transaction on a reachable database fails by itself only because an id it was
    to mint is already in use: no index ever refuses a write. *)
Theorem only_active_ids_refuse l d a e :
  runs l empty_web d -> run_action a d = inr e -> exists id, minted a id /\ e = ID_ACTIVE id.
Proof.
  intros Hl Ha. assert (Hd : inv d) by (apply reachable_inv; by exists l).
  pose proof (action_good a d Hd) as Hw. unfold wp in Hw. by rewrite Ha in Hw.
Qed.

Lemma only_active_ids_refuse_witness :
  let a := AEnqueue (demo_host "a") (demo_intent "thread-2" "turn/start") None in
  run_action a (final demo_stopped) = inr (ID_ACTIVE "a0") /\
  exists id, minted a id /\ ID_ACTIVE "a0" = ID_ACTIVE id.
Proof.
  split; [by vm_compute|].
  apply (only_active_ids_refuse demo_stopped (final demo_stopped)); [apply runs_final|]; by vm_compute.
Defined.

(** over any run that does not mint its id again, an outbox row is an old row: it
    keeps its method and its wire identity, a canceled row is still canceled and a
    superseded one still superseded; and no target's counters go back. *)
Theorem row_history l0 l d d' id (r' : WebRecord) :
  runs l0 empty_web d -> runs l d d' -> Forall (fun a => ~ minted a id) l ->
  records outbox d' !! id = Some r' ->
  (exists r : WebRecord, records outbox d !! id = Some r /\
     method r' = method r /\ effectiveWireId r' = effectiveWireId r /\
     (state r = canceled -> state r' = canceled) /\ (state r = superseded -> state r' = superseded)) /\
  forall ref, (last_of ref d <= last_of ref d')%Z /\ (epoch_of ref d <= epoch_of ref d')%Z.
Proof.
  intros Hl0 Hl Hm Hr'. assert (Hd : inv d) by (apply reachable_inv; by exists l0).
  destruct (runs_good _ _ _ Hd Hl) as [_ [Hlast Hepoch Hrows]]. split; [|done].
  destruct (Hrows id r' Hr') as [He|(r & Hr & _ & ? & ? & ? & ?)]; [|by exists r].
  exfalso. apply Exists_exists in He as (a & Ha & Hma). rewrite Forall_forall in Hm. by apply (Hm a).
Qed.

Lemma row_history_witness :
  let d := final demo_stopped in
  exists d' (r' : WebRecord), runs [ARetarget "thread-1" "thread-2" (mkIdentity None None)] d d' /\
    records outbox d' !! "b0" = Some r' /\ state r' = canceled /\
    forall ref, (last_of ref d <= last_of ref d')%Z /\ (epoch_of ref d <= epoch_of ref d')%Z.
Proof.
  pose (l := [ARetarget "thread-1" "thread-2" (mkIdentity None None)]).
  pose (d' := final (demo_stopped ++ l)).
  destruct (records outbox d' !! "b0") as [r'|] eqn:Hr'; [|by vm_compute in Hr'].
  exists d', r'.
  assert (Hl : runs l (final demo_stopped) d').
  { apply replay_runs. unfold d', final, l. by vm_compute. }
  destruct (row_history demo_stopped l (final demo_stopped) d' "b0" r') as [(r & Hr & _ & _ & Hc & _) Hm];
    [apply runs_final; by vm_compute|done|repeat constructor; by intros []|done|].
  split_and!; [done|done| |done]. apply Hc.
  assert (Hb : state <$> (record <$> records outbox (final demo_stopped) !! "b0") = Some canceled) by (by vm_compute).
  rewrite Hr in Hb. by injection Hb.
Defined.

(** ** Attempts and Stop *)

(** The specification of a mark: every mark reads the epochs and fences the row. *)
Definition mark_always_checked (id : string) : tx bool :=
  row ← get outbox id;
  match row with
  | None => tx_ret false
  | Some r =>
      if negb (state_eqb (state r) submitting) then tx_ret false
      else
        let prior := priorUnresolvedAttempts r in
        let unevidenced := bool_decide (attempted r = Some false) && bool_decide (unresolvedAttempts r = None) in
        let uncertain := bool_decide (attempted r = Some true) || (0 <? prior)%Z ||
          bool_decide (stopEpochAtEnqueue r = None) && negb unevidenced in
        stopEpoch ← stopEpochOf (targetRef r);
        let capture := match stopEpochAtEnqueue r with
                       | Some e => e
                       | None => if unevidenced then stopEpoch else 0%Z
                       end in
        fenced ← fenceCrossedSinceEnqueue (with_epoch capture r) None None;
        if (fenced : bool) then
          put outbox (update_record (fun s =>
            if uncertain
            then with_fence (with_epoch capture (with_attempts true prior (with_state blockedUnknown s)))
            else with_epoch capture (with_attempts false 0 (with_state canceled s))) r) ;;
          tx_ret false
        else
          put outbox (update_record (fun s => with_epoch capture (with_attempts true (prior + 1) s)) r) ;;
          tx_ret true
  end.

Lemma uncrossed_fence d (r : MutationRecord) : uncrossed d r -> fence_crossed r None None d = false.
Proof.
  intros [Ht Hs]. unfold fence_crossed. rewrite Ht. simpl. rewrite Z.ltb_irrefl. simpl.
  destruct (displayedRef r) as [shown|]; [|done]. rewrite (Hs shown eq_refl). simpl. apply Z.ltb_irrefl.
Qed.

(** The readings a mark takes are the readings the fence takes itself. *)
Lemma fence_readings c (r : MutationRecord) d :
  fence_crossed (with_epoch c r) (Some (epoch_of (targetRef r) d)) ((fun s => epoch_of s d) <$> displayedRef r) d =
  fence_crossed (with_epoch c r) None None d.
Proof. unfold fence_crossed. simpl. f_equal. by destruct (displayedRef r). Qed.

Lemma with_epoch_same (r : MutationRecord) e : stopEpochAtEnqueue r = Some e -> with_epoch e r = r.
Proof. destruct r. simpl. by intros ->. Qed.

(** The two marks agree where the stores are well formed and the live rows current. *)
Lemma mark_is_checked l d id :
  runs l empty_web d -> markAttempted_tx id d = mark_always_checked id d.
Proof.
  intros Hl. destruct (reachable_inv d) as [Hw Hc]; [by exists l|].
  unfold markAttempted_tx, mark_always_checked.
  rewrite !(bind_ok (get outbox id) _ d d _ eq_refl).
  destruct (records outbox d !! id) as [r|] eqn:Hr; [|done].
  destruct (negb (state_eqb (state r) submitting)) eqn:Hst; [done|].
  apply negb_false_iff, bool_decide_eq_true in Hst. cbv zeta.
  assert (Hdisp : forall A (k : option Z -> tx A),
    tx_bind (match displayedRef r with None => tx_ret None | Some shown => e ← stopEpochOf shown; tx_ret (Some e) end) k d =
    k ((fun s => epoch_of s d) <$> displayedRef r) d) by (intros; by apply bind_ok, displayed_eq).
  rewrite (bind_ok _ _ d d _ (stopEpochOf_eq (targetRef r) d)).
  rewrite (bind_ok _ _ d d _ (fence_eq _ _ _ d)).
  destruct (_ || _ || _) eqn:Hslow in |- * at 1.
  - rewrite (bind_ok _ _ d d _ (stopEpochOf_eq (targetRef r) d)), Hdisp.
    rewrite (bind_ok _ _ d d _ (fence_eq _ _ _ d)), fence_readings.
    destruct (stopEpochAtEnqueue r), (unresolvedAttempts r), (attempted r) as [[]|]; reflexivity.
  - apply orb_false_iff in Hslow as [[[Ha%bool_decide_eq_false Hp%Z.ltb_ge]%orb_false_iff Hu]%orb_false_iff He].
    unfold priorUnresolvedAttempts in *. destruct (unresolvedAttempts r) eqn:Hur; [done|].
    destruct (attempted r) as [[]|] eqn:Hat; [done| |done].
    destruct (stopEpochAtEnqueue r) as [e|] eqn:Hse; [|done].
    assert (Hf : uncrossed d r).
    { apply (Hc id r Hr); rewrite ?Hst; done. }
    rewrite (with_epoch_same r e Hse), (uncrossed_fence d r Hf). unfold update_record.
    by rewrite (with_epoch_same (with_attempts true _ r) e Hse).
Qed.

(** on reachable databases the mark that skips the fence for a row without evidence
    does exactly what the mark that always reads it does. *)
Theorem mark_skips_nothing l d id :
  runs l empty_web d -> markAttempted_tx id d = mark_always_checked id d.
Proof. apply mark_is_checked. Qed.

Lemma mark_skips_nothing_witness :
  let d := final demo_stopped in
  markAttempted_tx "c0" d = mark_always_checked "c0" d /\
  match markAttempted_tx "c0" d with inl (_, b) => b = true | inr _ => False end.
Proof.
  split; [|by vm_compute]. apply (mark_skips_nothing demo_stopped), runs_final. by vm_compute.
Defined.

(** C10: a mark of a reachable row answers yes only for a submitting row that no Stop
    has crossed: a Stop of its target or of the session it is displayed at, since the
    row's own readings of them, keeps it from the wire. *)
Theorem mark_means_no_stop l d d' id :
  runs l empty_web d -> markAttempted_tx id d = inl (d', true) ->
  exists r : WebRecord, records outbox d !! id = Some r /\ state r = submitting /\
    (forall e, stopEpochAtEnqueue r = Some e -> (epoch_of (targetRef r) d <= e)%Z) /\
    forall shown, displayedRef r = Some shown -> (epoch_of shown d <= default 0 (displayedStopEpochAtEnqueue r))%Z.
Proof.
  intros Hl Hm. rewrite (mark_is_checked l) in Hm by done. unfold mark_always_checked in Hm.
  rewrite (bind_ok (get outbox id) _ d d _ eq_refl) in Hm.
  destruct (records outbox d !! id) as [r|]; [|done].
  destruct (negb (state_eqb (state r) submitting)) eqn:Hst; [done|].
  apply negb_false_iff, bool_decide_eq_true in Hst. cbv zeta in Hm.
  rewrite (bind_ok _ _ d d _ (stopEpochOf_eq (targetRef r) d)), (bind_ok _ _ d d _ (fence_eq _ _ _ d)) in Hm.
  destruct (fence_crossed _ None None d) eqn:Hf.
  { exfalso. revert Hm. unfold tx_bind. by destruct (put _ _ _) as [[? []]|]. }
  exists r. split_and!; [done|done| |].
  - intros e He. unfold fence_crossed in Hf. rewrite He in Hf. simpl in Hf.
    apply orb_false_iff in Hf as [Hf%Z.ltb_ge _]. done.
  - intros shown Hs. unfold fence_crossed in Hf. simpl in Hf. rewrite Hs in Hf.
    apply orb_false_iff in Hf as [_ Hf%Z.ltb_ge]. done.
Qed.

Lemma mark_means_no_stop_witness :
  exists d', markAttempted_tx "c0" (final demo_stopped) = inl (d', true) /\
  exists r : WebRecord, records outbox (final demo_stopped) !! "c0" = Some r /\ state r = submitting /\
    forall e, stopEpochAtEnqueue r = Some e -> (epoch_of (targetRef r) (final demo_stopped) <= e)%Z.
Proof.
  assert (Hb : match markAttempted_tx "c0" (final demo_stopped) with inl (_, b) => b | inr _ => false end = true)
    by (by vm_compute).
  destruct (markAttempted_tx "c0" (final demo_stopped)) as [[d' b]|e] eqn:Hm; [subst b|done].
  exists d'. split; [done|].
  destruct (mark_means_no_stop demo_stopped (final demo_stopped) d' "c0") as (r & Hr & Hs & He & _);
    [apply runs_final; by vm_compute|done|]. exists r. exact (conj Hr (conj Hs He)).
Defined.

Lemma epoch_stop_rows ref' ref d : epoch_of ref' (stop_rows ref d) = epoch_of ref' d.
Proof. apply epoch_set. Qed.

Lemma stop_rows_lookup t k ref d :
  records t (stop_rows ref d) !! k =
  (if decide (t = outbox)
   then (fun s : WebRecord => if stopped_by ref s then update_record (with_state canceled) s else s) <$> records outbox d !! k
   else records t d !! k).
Proof. unfold stop_rows. rewrite records_set. case_decide; [|done]. unfold updated_where. by rewrite lookup_fmap. Qed.

(** C11: a Stop under a fresh id commits: it cancels exactly the rows in play that never
    went out at its target or displayed there, names exactly those, raises the target's
    epoch by one and no other, files the interrupt behind everything with the epoch it
    raised, and touches neither the accepted copies nor the drafts. *)
Theorem stop_cancels_exactly l d host i :
  runs l empty_web d -> (forall t, records t d !! createMutationId host 0 = None) ->
  let ref := targetRef i in
  exists d' r,
    enqueueInterruptAndCancel_tx host i d =
      inl (d', (r, rid <$> filter (fun s : WebRecord => stopped_by ref s = true) (all_records (records outbox d)))) /\
    (forall k, records outbox d' !! k =
       if decide (k = createMutationId host 0) then Some (plain r)
       else (fun s : WebRecord => if stopped_by ref s then update_record (with_state canceled) s else s) <$> records outbox d !! k) /\
    records optimistic d' = records optimistic d /\ records recovery d' = records recovery d /\
    (forall ref', epoch_of ref' d' = epoch_of ref' d + if decide (ref = ref') then 1 else 0)%Z /\
    clientMutationId r = createMutationId host 0 /\ state r = submitting /\
    intentSequence r = (last_of ref d + 1)%Z /\ stopEpochAtEnqueue r = Some (epoch_of ref d + 1)%Z.
Proof.
  intros Hl Hn ref. set (M := fun id => exists n, id = createMutationId host n).
  assert (Hg : good M nothing d d) by (by apply good_start, reachable_inv; exists l).
  destruct (cancelUnattempted_rows_eq M nothing d ref d Hg) as (Hrows & Hg1 & Hswept).
  destruct (allocated_good M nothing d ref (bumped ref (stop_rows ref d))) as [Hg2 Hv]; [by apply good_bump|].
  set (d2 := allocated ref (bumped ref (stop_rows ref d))) in *.
  assert (Hrec : forall t, records t d2 = records t (stop_rows ref d)) by (by intros []).
  assert (Hn2 : forall t, records t d2 !! createMutationId host 0 = None).
  { intros t. rewrite Hrec, stop_rows_lookup. case_decide; [|apply Hn]. by rewrite (Hn outbox). }
  assert (He : epoch_of ref d2 = (epoch_of ref d + 1)%Z).
  { unfold d2. by rewrite epoch_allocated, epoch_bumped, decide_True, epoch_stop_rows. }
  assert (Hlast : last_of ref (bumped ref (stop_rows ref d)) = last_of ref d)
    by (rewrite last_bumped; apply last_set).
  set (r := newRecord host i (last_of ref d + 1) submitting (epoch_of ref d + 1)).
  destruct (put_new M nothing d outbox (plain r) d2) as [Hput _]; [done| | |exact Hn2|].
  { by rewrite Hlast in Hv. }
  { intros _. split_and!; [done| |by exists 0%nat]. intros _ _ _ _. split; [|done].
    change (Some (epoch_of ref d + 1)%Z = Some (epoch_of ref d2)). by rewrite He. }
  exists (set_records outbox (<[clientMutationId (plain r):=plain r]> (records outbox d2)) d2), r.
  split_and!; try done.
  - unfold enqueueInterruptAndCancel_tx. rewrite (bind_ok _ _ _ _ _ Hrows).
    rewrite (bind_ok _ _ _ _ _ (bumpStopEpoch_eq _ _)), (bind_ok _ _ _ _ _ (allocateSequence_eq _ _)).
    change (targetRef i) with ref. fold d2. rewrite Hlast.
    rewrite (bind_ok _ _ _ _ _ (assert_available _ _ Hn2)), (bind_ok _ _ _ _ _ (stopEpochOf_eq _ _)).
    cbv zeta. rewrite He. fold r.
    by rewrite (bind_ok _ _ _ _ _ (eq_trans (add_eq outbox (plain r) d2 (Hn2 outbox)) Hput)).
  - intros k. rewrite records_set_eq. change (clientMutationId (plain r)) with (createMutationId host 0).
    case_decide as E; [by rewrite E, lookup_insert_eq|].
    rewrite lookup_insert_ne by congruence. by rewrite (Hrec outbox), stop_rows_lookup.
  - intros ref'. rewrite epoch_set. unfold d2. by rewrite epoch_allocated, epoch_bumped, epoch_stop_rows.
Qed.

Lemma stop_cancels_exactly_witness :
  let d := final (demo_parked ++ [AEnqueue (demo_host "b") (demo_intent "thread-1" "turn/queue") None]) in
  exists d' r, enqueueInterruptAndCancel_tx (demo_host "c") (demo_intent "thread-1" "turn/interrupt") d = inl (d', (r, ["b0"])) /\
    records optimistic d' = records optimistic d /\ state r = submitting.
Proof.
  intros d.
  destruct (stop_cancels_exactly (demo_parked ++ [AEnqueue (demo_host "b") (demo_intent "thread-1" "turn/queue") None]) d
    (demo_host "c") (demo_intent "thread-1" "turn/interrupt")) as (d' & r & Hr & _ & Ho & _ & _ & _ & Hs & _);
    [apply runs_final; by vm_compute|intros []; by vm_compute|].
  exists d', r.
  replace (rid <$> _) with ["b0"] in Hr by (by vm_compute). exact (conj Hr (conj Ho Hs)).
Defined.

(** ** Settlements *)

(** C32: a receipt or an applied entry that settles anything takes the whole wire out of
    the outbox, superseded generations and replacements alike, and leaves at most one
    accepted copy of it, the settled record's own. *)
Theorem settlement_retires_wire l d d' id p out :
  runs l empty_web d ->
  settleReceipt_tx id p d = inl (d', Some out) \/ settleApplied_tx id d = inl (d', Some out) ->
  (forall k (r : WebRecord), records outbox d' !! k = Some r -> effectiveWireId r <> settledWireId out) /\
  forall k (r : WebRecord), records optimistic d' !! k = Some r -> effectiveWireId r = settledWireId out ->
    k = clientMutationId (settledSource out) /\ r = plain (acceptedRecord (settledSource out)).
Proof.
  intros Hl Hs. assert (Hd : inv d) by (apply reachable_inv; by exists l). destruct Hs as [Hs|Hs].
  - destruct (settleReceipt_clears d Hd _ _ _ _ Hs) as [Ho Hp]. split; [done|].
    intros k r Hr Hw. by destruct (Hp k r Hr Hw) as (_ & ? & ?).
  - destruct (settleApplied_clears d Hd _ _ _ Hs) as [Ho Hp]. split; [done|].
    intros k r Hr Hw. by destruct (Hp k r Hr Hw).
Qed.

(** A parked send retried: the original superseded, its replacement on the same wire. *)
Definition demo_pair : list action :=
  demo_parked ++ [AMintRetry (demo_host "d") "a0" (mkCapture (records outbox (final demo_parked) !! "a0") 0 0)].

Lemma settlement_retires_wire_witness :
  exists d' out, settleReceipt_tx "d0" "pending" (final demo_pair) = inl (d', Some out) /\ settledWireId out = "a0" /\
    forall k (r : WebRecord), records outbox d' !! k = Some r -> effectiveWireId r <> settledWireId out.
Proof.
  assert (Hb : match settleReceipt_tx "d0" "pending" (final demo_pair) with
               | inl (_, Some o) => bool_decide (settledWireId o = "a0") | _ => false end = true) by (by vm_compute).
  destruct (settleReceipt_tx "d0" "pending" (final demo_pair)) as [[d' [out|]]|e] eqn:Hs; [|done|done].
  apply bool_decide_eq_true in Hb. exists d', out.
  destruct (settlement_retires_wire demo_pair (final demo_pair) d' "d0" "pending" out) as [Ho _];
    [apply runs_final; by vm_compute|by left|]. exact (conj eq_refl (conj Hb Ho)).
Defined.

(** ** The next row to dispatch *)

(** A row the dispatcher passes over: neither next itself nor closing the queue. *)
Definition passable (r : WebRecord) : Prop :=
  state r <> submitting /\ (state r = blockedUnknown -> stopFenced r = Some true).

Lemma first_dispatchable_spec l r :
  first_dispatchable l = Some r <->
  exists l1 l2, l = l1 ++ r :: l2 /\ state r = submitting /\ Forall passable l1.
Proof.
  induction l as [|x l IH]; simpl.
  { split; [done|]. by intros ([|] & l2 & ? & _). }
  assert (Hskip : passable x -> first_dispatchable l = Some r <->
    exists l1 l2, x :: l = l1 ++ r :: l2 /\ state r = submitting /\ Forall passable l1).
  { intros Hx. rewrite IH. split.
    - intros (l1 & l2 & -> & Hr & Hall). exists (x :: l1), l2. by split_and!; [| |constructor].
    - intros (l1 & l2 & He & Hr & Hall). destruct l1 as [|y l1]; simplify_eq/=; [by destruct Hx|].
      apply Forall_cons in Hall as [_ ?]. by exists l1, l2. }
  destruct (state x) eqn:Hst.
  - split.
    + intros [= <-]. exists [], l. by split_and!.
    + intros (l1 & l2 & He & Hr & Hall). destruct l1 as [|y l1]; simplify_eq/=; [done|].
      apply Forall_cons in Hall as [[Hn _] _]. congruence.
  - case_bool_decide as Hf; [apply Hskip; split; [congruence|done]|].
    split; [done|]. intros (l1 & l2 & He & Hr & Hall). destruct l1 as [|y l1]; simplify_eq/=; [congruence|].
    apply Forall_cons in Hall as [[_ Hn] _]. by destruct Hf; apply Hn.
  - apply Hskip. split; congruence.
  - apply Hskip. split; congruence.
  - apply Hskip. split; congruence.
Qed.

Lemma sorted_split {A} (key : A -> Z) (l1 l2 : list A) x :
  StronglySorted (fun a b => key a < key b)%Z (l1 ++ x :: l2) ->
  forall y, y ∈ l1 ++ x :: l2 -> (y ∈ l1 <-> (key y < key x)%Z).
Proof.
  intros Hs y Hy. split.
  - intros H1. clear Hy. induction l1 as [|a l1 IH]; [by apply not_elem_of_nil in H1|].
    apply StronglySorted_inv in Hs as [Hs Ha]. apply elem_of_cons in H1 as [->|H1]; [|by apply IH].
    rewrite Forall_forall in Ha. apply Ha, elem_of_app. right. by left.
  - intros Hlt. apply elem_of_app in Hy as [Hy|[->|Hy]%elem_of_cons]; [done|lia|].
    exfalso. clear -Hs Hy Hlt. induction l1 as [|a l1 IH].
    + apply StronglySorted_inv in Hs as [_ Ha]. rewrite Forall_forall in Ha. specialize (Ha y Hy). simpl in Ha. lia.
    + apply StronglySorted_inv in Hs as [Hs _]. by apply IH.
Qed.

(** the row offered for dispatch is the target's submitting row with nothing before
    it but rows settled in place (canceled, superseded, or of unknown fate behind a
    Stop), and there is an offer whenever there is such a row; offering changes
    nothing. *)
Theorem next_dispatchable_exact l d ref :
  runs l empty_web d ->
  exists o, nextDispatchable ref (mkWebState d [] []) = (mkWebState d [] [], inl o) /\
  forall r : WebRecord, o = Some r <->
    records outbox d !! clientMutationId r = Some r /\ targetRef r = ref /\ state r = submitting /\
    forall k (s : WebRecord), records outbox d !! k = Some s -> targetRef s = ref ->
      (intentSequence s < intentSequence r)%Z -> passable s.
Proof.
  intros Hl. destruct (reachable_inv d) as [Hw _]; [by exists l|]. eexists. split; [reflexivity|].
  intros r. rewrite first_dispatchable_spec.
  assert (Hin : forall s : WebRecord, s ∈ in_order (at_target (Some ref)) (all_records (records outbox d)) <->
    targetRef s = ref /\ records outbox d !! clientMutationId s = Some s).
  { intros s. unfold in_order. rewrite elem_of_sort_by, list_elem_of_filter, elem_of_all_records.
    simpl. unfold at_ref. rewrite String.eqb_eq. split; intros [Ht Hs]; (split; [done|]); [|eauto].
    destruct Hs as [k Hk]. by rewrite (wf_keyed _ _ Hw outbox k s Hk). }
  pose proof (fun HP => sort_by_strict _ _ (in_order_sequences d (at_target (Some ref)) ref Hw HP)) as Hsorted. simpl in Hsorted. unfold at_ref in Hsorted.
  specialize (Hsorted ltac:(intros ? ?%String.eqb_eq; done)).
  change (StronglySorted (fun a b : WebRecord => intentSequence a < intentSequence b)%Z
    (in_order (at_target (Some ref)) (all_records (records outbox d)))) in Hsorted.
  set (rows := in_order _ _) in *. split.
  - intros (l1 & l2 & Hrows & Hst & Hall). rewrite Hrows in Hsorted, Hin.
    destruct (proj1 (Hin r)) as [Ht Hr]; [apply elem_of_app; right; by left|]. split_and!; [done..|].
    intros k s Hs Hts Hlt. pose proof (wf_keyed _ _ Hw outbox k s Hs) as Hk.
    assert (Hs' : s ∈ l1 ++ r :: l2) by (apply Hin; by rewrite Hk).
    apply (sorted_split (fun a : WebRecord => intentSequence a) l1 l2 r Hsorted s Hs') in Hlt.
    rewrite Forall_forall in Hall. by apply Hall.
  - intros (Hr & Ht & Hst & Hbefore).
    destruct (list_elem_of_split rows r) as (l1 & l2 & Hrows); [by apply Hin|].
    exists l1, l2. split_and!; [done|done|]. apply Forall_forall. intros s Hs.
    assert (Hs' : s ∈ rows) by (rewrite Hrows; apply elem_of_app; by left).
    pose proof (proj1 (Hin s) Hs') as [Hts Hsl]. apply (Hbefore _ s Hsl Hts).
    rewrite Hrows in Hsorted, Hs'. by apply (sorted_split (fun a : WebRecord => intentSequence a) l1 l2 r Hsorted s Hs').
Qed.

Lemma next_dispatchable_exact_witness :
  exists o : WebRecord, nextDispatchable "thread-1" (mkWebState (final (demo_stopped ++ [ASettleReceipt "a0" "applied"])) [] []) =
      (mkWebState (final (demo_stopped ++ [ASettleReceipt "a0" "applied"])) [] [], inl (Some o)) /\
    clientMutationId o = "c0" /\ state o = submitting.
Proof.
  set (d := final (demo_stopped ++ [ASettleReceipt "a0" "applied"])).
  destruct (next_dispatchable_exact (demo_stopped ++ [ASettleReceipt "a0" "applied"]) d "thread-1") as (o & Hn & Ho);
    [apply runs_final; by vm_compute|].
  assert (Hb : match (nextDispatchable "thread-1" (mkWebState d [] [])).2 with
               | inl (Some o) => bool_decide (clientMutationId o = "c0") | _ => false end = true) by (by vm_compute).
  rewrite Hn in Hb. simpl in Hb. destruct o as [o|]; [|done]. apply bool_decide_eq_true in Hb.
  exists o. destruct (proj1 (Ho o) eq_refl) as (_ & _ & Hs & _). exact (conj Hn (conj Hb Hs)).
Defined.

(** ** Retries *)

Lemma minted_wire host n (r : MutationRecord) fresh sequence :
  let m := mintedRecord host n r fresh sequence in
  let wire := if wireIdentityUncertain r (effectiveWireId r) then effectiveWireId r else createMutationId host n in
  effectiveWireId m = if str_truthy wire then wire else createMutationId host n.
Proof.
  intros m wire. unfold effectiveWireId at 1, payload_id. simpl payload. rewrite obj_get_set.
  change (match (if str_truthy wire then Some wire else None) with Some s => s | None => createMutationId host n end =
    if str_truthy wire then wire else createMutationId host n).
  by destruct (str_truthy wire).
Qed.

(** A wire other than the key is a string the payload holds. *)
Lemma foreign_wire_truthy (r : MutationRecord) :
  effectiveWireId r <> clientMutationId r -> str_truthy (effectiveWireId r) = true.
Proof.
  unfold effectiveWireId, payload_id. destruct (as_string _) as [s|]; [|done].
  destruct (str_truthy s) eqn:E; congruence.
Qed.

(** a retry that mints files one row behind everything at the target, in play only
    if no Stop passed the press. A row of unknown fate is superseded and its replacement
    travels under the same wire identity; a canceled one is erased and its replacement
    keeps a wire identity that was not its own key and takes its own key otherwise. *)
Theorem mint_retry_exact l d d' host id capture m ids :
  runs l empty_web d -> mintRetryFromRow_tx host id capture d = inl (d', (Some m, ids)) ->
  exists r : WebRecord, records outbox d !! id = Some r /\
    records outbox d' !! clientMutationId m = Some m /\ clientMutationId m = createMutationId host 0 /\
    intentSequence m = (last_of (targetRef r) d + 1)%Z /\ targetRef m = targetRef r /\ method m = method r /\
    (state m = submitting <-> (epoch_of (targetRef r) d <= capture_stopEpoch capture)%Z /\
       forall shown, displayedRef r = Some shown -> (epoch_of shown d <= capture_displayedStopEpoch capture)%Z) /\
    (state r = blockedUnknown /\ records outbox d' !! id = Some (update_record (with_state superseded) r) /\
       (str_truthy (effectiveWireId r) = true -> effectiveWireId m = effectiveWireId r) \/
     state r = canceled /\ (id <> clientMutationId m -> records outbox d' !! id = None) /\
       effectiveWireId m = (if decide (effectiveWireId r = id) then clientMutationId m else effectiveWireId r)).
Proof.
  intros Hl H. destruct (reachable_inv d) as [Hw _]; [by exists l|]. unfold mintRetryFromRow_tx in H.
  rewrite (bind_ok (get outbox id) _ d d _ eq_refl) in H.
  destruct (records outbox d !! id) as [r|] eqn:Hr; [|done]. destruct (captured capture) as [c|]; [|done].
  pose proof (wf_keyed _ _ Hw outbox id r Hr) as Hid.
  destruct (negb _ || negb _ || negb _) eqn:Hguard; [done|].
  apply orb_false_iff in Hguard as [[Hst%negb_false_iff _]%orb_false_iff _].
  apply bind_inv in H as (d1 & u & H1 & H). rewrite (bind_ok _ _ _ _ _ (stopEpochOf_eq _ d1)) in H.
  rewrite (bind_ok _ _ _ _ _ (displayed_eq (displayedRef r) d1)) in H. cbv zeta in H.
  apply bind_inv in H as (d2 & minted & H2 & H). injection H as <- Hm _. unfold mintFreshRow in H2.
  rewrite (bind_ok _ _ _ _ _ (allocateSequence_eq _ d1)) in H2.
  apply bind_inv in H2 as (d3 & u3 & H3 & H2). apply assert_inv in H3 as [-> Hnone].
  cbv zeta in H2. apply bind_inv in H2 as (d4 & u4 & H4 & H2). apply add_inv in H4.
  apply bind_inv in H2 as (d5 & gone & H5 & H2). injection H2 as <- <-. simpl in Hm.
  assert (Hseq : s_sequences d1 = s_sequences d).
  { revert H1. destruct (state_eqb (state r) blockedUnknown); cbv iota; [intros ->%put_inv; apply sequences_set|]. unfold erase.
    set (d' := set_records _ _ _). intros [= <- _]. apply sequences_set. }
  assert (He : forall ref, epoch_of ref d1 = epoch_of ref d) by (intros; unfold epoch_of; by rewrite Hseq).
  assert (Hla : last_of (targetRef r) d1 = last_of (targetRef r) d) by (unfold last_of; by rewrite Hseq).
  set (new := createMutationId host 0) in *.
  assert (Hkey : clientMutationId m = new) by (by rewrite <- Hm).
  assert (Hkeep : forall k, k ∈ [clientMutationId r; new] -> records outbox d5 !! k = records outbox d4 !! k)
    by (intros k Hk; by eapply retire_generations_inv).
  assert (Hd1 : forall t, records t (allocated (targetRef r) d1) = records t d1) by (by intros []).
  exists r. split_and!.
  - done.
  - rewrite Hkey, Hkeep by (right; by left). rewrite H4, records_set_eq, <- Hm. apply lookup_insert_eq.
  - done.
  - rewrite <- Hm, <- Hla. done.
  - by rewrite <- Hm.
  - by rewrite <- Hm.
  - rewrite <- Hm. simpl. rewrite !He. destruct (displayedRef r) as [shown|]; simpl; rewrite ?He;
      repeat case_match; split; try done; rewrite ?orb_true_iff, ?orb_false_iff, ?Z.ltb_lt, ?Z.ltb_ge in *;
      try (intros [? Hsh]); try (specialize (Hsh _ eq_refl)); try lia; (split; [lia|]);
      by intros ? [= <-]; lia.
  - assert (Hold : id <> new -> records outbox d5 !! id = records outbox d1 !! id).
    { intros Hne. rewrite Hkeep by (rewrite Hid; by left). rewrite H4, records_set_eq.
      rewrite lookup_insert_ne by done. by rewrite (Hd1 outbox). }
    assert (Hwm : effectiveWireId m = if str_truthy (if wireIdentityUncertain r (effectiveWireId r) then effectiveWireId r else new)
      then (if wireIdentityUncertain r (effectiveWireId r) then effectiveWireId r else new) else new)
      by (rewrite <- Hm; apply minted_wire).
    rewrite Hkey. unfold wireIdentityUncertain in Hwm. destruct (state_eqb (state r) blockedUnknown) eqn:Hb.
    + left. apply bool_decide_eq_true in Hb. apply put_inv in H1. simpl in Hwm.
      assert (Hs1 : records outbox d1 !! id = Some (update_record (with_state superseded) r)).
      { rewrite H1, records_set_eq, <- Hid. apply lookup_insert_eq. }
      split_and!; [done| |by intros Ht; rewrite Hwm, Ht].
      rewrite Hold; [done|]. intros E. specialize (Hnone outbox). rewrite (Hd1 outbox), <- E in Hnone. congruence.
    + right. rewrite orb_false_r in Hst. apply bool_decide_eq_true in Hst.
      split_and!; [done| |].
      * intros Hne. rewrite Hold by done. revert H1. cbv iota. unfold erase. set (de := set_records _ _ _).
        intros [= <- _]. unfold de. rewrite records_set_eq. apply lookup_delete_eq.
      * rewrite Hid in Hwm. destruct (String.eqb_spec (effectiveWireId r) id) as [Ew|Ew]; simpl in Hwm.
        -- rewrite decide_True by done. rewrite Hwm. by destruct (str_truthy new).
        -- rewrite decide_False by done. rewrite Hwm, foreign_wire_truthy; [done|congruence].
Qed.

Lemma mint_retry_exact_witness :
  exists d' m ids,
    mintRetryFromRow_tx (demo_host "d") "a0" (mkCapture (records outbox (final demo_parked) !! "a0") 0 0) (final demo_parked) =
      inl (d', (Some m, ids)) /\
    clientMutationId m = "d0" /\ effectiveWireId m = "a0" /\ intentSequence m = 2%Z.
Proof.
  set (p := mintRetryFromRow_tx _ _ _).
  assert (Hb : match p (final demo_parked) with
               | inl (_, (Some m, _)) => bool_decide (effectiveWireId m = "a0" /\ intentSequence m = 2%Z)
               | _ => false end = true) by (by vm_compute).
  destruct (p (final demo_parked)) as [[d' [[m|] ids]]|e] eqn:Hp; [|done|done].
  apply bool_decide_eq_true in Hb as [Hw Hs].
  destruct (mint_retry_exact demo_parked (final demo_parked) d' (demo_host "d") "a0"
    (mkCapture (records outbox (final demo_parked) !! "a0") 0 0) m ids) as (r & _ & _ & Hk & _);
    [apply runs_final; by vm_compute|exact Hp|].
  exists d', m, ids. exact (conj eq_refl (conj Hk (conj Hw Hs))).
Defined.

(** ** Rolling a mark back *)

Lemma fence_crossed_epochs (r r' : MutationRecord) d d' :
  stopEpochAtEnqueue r' = stopEpochAtEnqueue r -> targetRef r' = targetRef r -> displayedRef r' = displayedRef r ->
  displayedStopEpochAtEnqueue r' = displayedStopEpochAtEnqueue r -> (forall ref, epoch_of ref d' = epoch_of ref d) ->
  fence_crossed r' None None d' = fence_crossed r None None d.
Proof. unfold fence_crossed. intros -> -> -> -> He. simpl. rewrite He. destruct (displayedRef r); [by rewrite He|done]. Qed.

(** The row [r] once its first mark is out. *)
Definition marked_once (r : WebRecord) : WebRecord := update_record (with_attempts true 1) r.

Lemma unmark_marked_once M S d0 d (r : WebRecord) :
  good M S d0 d -> state r = submitting -> records outbox d !! clientMutationId r = Some (marked_once r) ->
  let crossed := fence_crossed (marked_once r) None None d in
  let r' := update_record (fun s => if crossed then with_attempts false 0 (with_state canceled s)
                                    else with_attempts false 0 s) r in
  unmarkAttempted_tx (clientMutationId r) d =
    inl (set_records outbox (<[clientMutationId r := r']> (records outbox d)) d, negb crossed).
Proof.
  intros Hg Hst Hr crossed r'. unfold unmarkAttempted_tx.
  rewrite (bind_ok (get outbox _) _ d d _ eq_refl), Hr. cbv zeta. change (state (marked_once r)) with (state r).
  rewrite Hst. rewrite (bind_ok _ _ _ _ _ (fence_eq _ _ _ d)). fold crossed.
  change (Z.max 0 (priorUnresolvedAttempts (marked_once r) - 1)) with 0%Z.
  destruct (put_row M S d0 (marked_once r) r' d) as [Hput _]; [done|done| |].
  - unfold r'. destruct crossed; solve_rewrites.
  - unfold r' in *. destruct crossed; simpl; by rewrite (bind_ok _ _ _ _ _ Hput).
Qed.

(** a first mark rolled back leaves the row submitting and unattempted, as if it had
    not been made; but when a Stop of its target or of the session it is displayed at
    came between, which could not cancel a row already out, the rollback does. *)
Theorem mark_rolls_back l d (r : WebRecord) :
  runs l empty_web d -> records outbox d !! clientMutationId r = Some r ->
  state r = submitting -> attempted r = Some false -> unresolvedAttempts r = None -> is_Some (stopEpochAtEnqueue r) ->
  exists d1, markAttempted_tx (clientMutationId r) d = inl (d1, true) /\
    unmarkAttempted_tx (clientMutationId r) d1 =
      inl (set_records outbox (<[clientMutationId r := update_record (with_attempts false 0) r]> (records outbox d)) d, true) /\
    forall ref, targetRef r = ref \/ displayedRef r = Some ref ->
      exists d2 ids d3, cancelUnattempted_tx ref d1 = inl (d2, ids) /\ clientMutationId r ∉ ids /\
        unmarkAttempted_tx (clientMutationId r) d2 = inl (d3, false) /\
        records outbox d3 !! clientMutationId r =
          Some (update_record (fun s => with_attempts false 0 (with_state canceled s)) r).
Proof.
  intros Hl Hr Hst Ha Hu [e He]. assert (Hd : inv d) by (apply reachable_inv; by exists l).
  pose proof (good_start (fun _ => False) d Hd) as Hg.
  assert (Hun : uncrossed d r) by (apply (proj2 Hd _ r Hr); by rewrite ?Hst, ?He).
  destruct (put_row _ _ _ r (marked_once r) d Hg Hr) as [Hput Hg1]; [solve_rewrites|].
  set (d1 := set_records outbox _ d) in *. exists d1.
  assert (Hr1 : records outbox d1 !! clientMutationId r = Some (marked_once r))
    by (unfold d1; rewrite records_set_eq; apply lookup_insert_eq).
  assert (Hnc : fence_crossed (marked_once r) None None d1 = false).
  { rewrite (fence_crossed_epochs r _ d); try done. by apply uncrossed_fence. }
  split_and!.
  - unfold markAttempted_tx. rewrite (bind_ok (get outbox _) _ d d _ eq_refl), Hr, Hst. cbv zeta. simpl negb. cbv iota.
    unfold priorUnresolvedAttempts. rewrite Hu, Ha, He. simpl. by rewrite (bind_ok _ _ _ _ _ Hput).
  - rewrite (unmark_marked_once _ _ _ d1 r Hg1 Hst Hr1), Hnc. unfold d1. by rewrite records_set_eq, insert_insert_eq, set_records_twice.
  - intros ref Href. destruct (cancelUnattempted_rows_eq _ _ _ ref d1 Hg1) as (Hrows & Hg2 & Hsw).
    pose proof (good_bump _ _ _ ref _ Hg2 Hsw) as Hg3. set (d2 := bumped ref (stop_rows ref d1)) in *.
    assert (Hr2 : records outbox d2 !! clientMutationId r = Some (marked_once r)).
    { change (records outbox d2) with (records outbox (stop_rows ref d1)).
      rewrite stop_rows_lookup, decide_True, Hr1 by done. simpl. unfold stopped_by, isCancelableByStop. simpl.
      by rewrite !andb_false_r. }
    assert (Hc : fence_crossed (marked_once r) None None d2 = true).
    { assert (Hep : forall ref', epoch_of ref' d2 = (epoch_of ref' d + if decide (ref = ref') then 1 else 0)%Z)
        by (intros; unfold d2; rewrite epoch_bumped, epoch_stop_rows; unfold d1; by rewrite epoch_set).
      destruct Hun as [Ht Hs]. unfold fence_crossed. simpl. rewrite Ht, Hep. simpl.
      destruct Href as [->|Hsh].
      - rewrite decide_True by done. apply orb_true_iff. left. apply Z.ltb_lt. lia.
      - rewrite Hsh, (Hs _ Hsh), Hep, (decide_True (P := ref = ref)) by done. simpl.
        apply orb_true_iff. right. apply Z.ltb_lt. lia. }
    eexists d2, _, _. split_and!.
    + unfold cancelUnattempted_tx. by rewrite (bind_ok _ _ _ _ _ Hrows), (bind_ok _ _ _ _ _ (bumpStopEpoch_eq _ _)).
    + intros (s & Hs & [Hp [k Hk]%elem_of_all_records]%list_elem_of_filter)%list_elem_of_fmap.
      pose proof (wf_keyed _ _ (good_wf _ _ _ _ _ Hg1) outbox k s Hk) as Hks.
      rewrite <- Hks, <- Hs, Hr1 in Hk. injection Hk as <-.
      unfold stopped_by, isCancelableByStop in Hp. simpl in Hp. by rewrite !andb_false_r in Hp.
    + by rewrite (unmark_marked_once _ _ _ d2 r Hg3 Hst Hr2), Hc.
    + rewrite records_set_eq. apply lookup_insert_eq.
Qed.

Lemma mark_rolls_back_witness :
  exists (r : WebRecord) d1, clientMutationId r = "c0" /\
    markAttempted_tx "c0" (final demo_stopped) = inl (d1, true) /\
    exists d2, unmarkAttempted_tx "c0" d1 = inl (d2, true).
Proof.
  assert (Hf : (fun r : WebRecord => (clientMutationId r, state r, attempted r, unresolvedAttempts r, stopEpochAtEnqueue r)) <$>
    records outbox (final demo_stopped) !! "c0" = Some ("c0", submitting, Some false, None, Some 1%Z)) by (by vm_compute).
  apply fmap_Some in Hf as (r & Hr & Hf). injection Hf as Hid Hst Ha Hu He. symmetry in Hid, Hst, Ha, Hu, He.
  destruct (mark_rolls_back demo_stopped (final demo_stopped) r) as (d1 & Hm & Hu1 & _);
    [apply runs_final; by vm_compute|rewrite Hid; exact Hr|exact Hst|exact Ha|exact Hu|by rewrite He|].
  rewrite Hid in Hm, Hu1. exists r, d1. refine (conj Hid (conj Hm _)). eexists. exact Hu1.
Defined.

(** ** Two corners of retargeting *)

(** A send parked by a Stop's fence, moved to another target, refused there and sent
    again, with a later send behind it. *)
Definition stale_run : list action :=
  [AEnqueue (demo_host "a") (demo_intent "thread-1" "turn/start") None; AMark "a0"; AMarkUnknown "a0" true;
   ACancel "thread-1"; ARestore (demo_host "u") "thread-1" []; ARetarget "thread-1" "thread-2" (mkIdentity None None);
   AUnmark "a0"; AMark "a0"; AMarkUnknown "a0" true;
   AEnqueue (demo_host "b") (demo_intent "thread-2" "turn/queue") None].

(** The stamp outlives the park it names: a later attempt of unknown fate, at a target
    no Stop ever touched, no longer closes the queue behind it. *)
Theorem stale_fence_opens_queue :
  exists d, runs stale_run empty_web d /\ epoch_of "thread-2" d = 0%Z /\
    (fun r : WebRecord => (targetRef r, state r, priorUnresolvedAttempts r, displayedRef r)) <$> records outbox d !! "a0" =
      Some ("thread-2", blockedUnknown, 1%Z, None) /\
    match nextDispatchable "thread-2" (mkWebState d [] []) with
    | (_, inl (Some o)) => clientMutationId o = "b0"
    | _ => False
    end.
Proof. exists (final stale_run). split; [apply runs_final; by vm_compute|]. by vm_compute. Qed.

(** Two parked sends at one target, queued in the order z, a. *)
Definition parked_pair : list action :=
  [AEnqueue (demo_host "z") (demo_intent "thread-2" "turn/start") None; AMark "z0"; AMarkUnknown "z0" true;
   AEnqueue (demo_host "a") (demo_intent "thread-1" "turn/start") None; AMark "a0"; AMarkUnknown "a0" true;
   ARetarget "thread-1" "thread-2" (mkIdentity None None)].

(** The reconcile queues them again in the order of their keys, not of the queue. *)
Theorem reconcile_reorders :
  exists d, runs parked_pair empty_web d /\
    (fun r : WebRecord => intentSequence r) <$> records outbox d !! "z0" = Some 1%Z /\
    (fun r : WebRecord => intentSequence r) <$> records outbox d !! "a0" = Some 2%Z /\
    match restoreProvenAbsent_tx (demo_host "u") "thread-2" [] d with
    | inl (_, (queued, _)) => (fun r : WebRecord => (effectiveWireId r, intentSequence r)) <$> queued = [("a0", 3%Z); ("z0", 4%Z)]
    | inr _ => False
    end.
Proof. exists (final parked_pair). split; [apply runs_final; by vm_compute|]. by vm_compute. Qed.
