(* ===== verification/IdbConnection.v ===== *)
(** One connection to an IndexedDB database (cmd/evener-hub/frontend/src/stores/
    idbConnection.ts, class IDBConnection): concurrent callers share one open attempt,
    an attempt settles once, and a connection a later attempt superseded is closed.

    The state carries the two fields of the class and, for each attempt, what its
    closure captures: the request, the watchdog, the promise and the handle the
    request delivered. An event is a method of the class, an event of a request or of
    a handle, the watchdog, the end of the adapter's own preparation, or the
    opener's catch clause. *)

From S2P Require Import Prelude Sql.

Local Open Scope string_scope.
Local Open Scope list_scope.

(** ** State *)

(** The options the class branches on: whether a blocked open rejects, and whether
    the adapter prepares a connection before it is installed. *)
Record ConnectionOptions := mkConnectionOptions { blocked : bool; prepare : bool }.

(** The errors an open rejects with: the adapter's four, the upgrade's own, or the
    engine's. *)
Inductive open_error := OpenFailed | SupersededOpen | OpenTimedOut | OpenBlocked | UpgradeFailed (e : js_error) | Engine (e : js_error).

Inductive OpenDiagnosticPath := open_timeout | open_blocked | upgrade_abandoned | versionchange_retire.

(** The request: its versionchange transaction is live between upgradeneeded and the
    end of the request. *)
Inductive request := Requested | Upgrading | Opened | RequestFailed.

(** The database the request delivers. *)
Inductive connection_handle := NoDatabase | OpenDatabase | ClosedDatabase.

#[export] Instance request_eq_dec : EqDecision request.
Proof. solve_decision. Defined.
#[export] Instance handle_eq_dec : EqDecision connection_handle.
Proof. solve_decision. Defined.
#[export] Instance open_error_eq_dec : EqDecision open_error.
Proof. solve_decision. Defined.

(** One call of [indexedDB.open] and the closure around it. [settled] is the promise:
    [Some None] when it resolved with the handle, [Some (Some e)] when it rejected.
    [caught]: the opener's catch clause has run. *)
Record Attempt := mkAttempt {
  phase : request;
  handle : connection_handle;
  abandoned : bool;
  upgradeFailure : option js_error;
  timer : bool;
  preparing : bool;
  settled : option (option open_error);
  caught : bool
}.

(** [database] and [databasePromise] name the attempt they come from. *)
Record Connection := mkConnection {
  database : option nat;
  databasePromise : option nat;
  attempts : gmap nat Attempt;
  next : nat;
  diagnostics : list (OpenDiagnosticPath * bool)
}.

Definition fresh_connection : Connection := mkConnection None None ∅ 0 [].

(** *** Updates *)

Definition with_fields (d p : option nat) (s : Connection) : Connection :=
  mkConnection d p (attempts s) (next s) (diagnostics s).
Definition at_attempt (n : nat) (f : Attempt -> Attempt) (s : Connection) : Connection :=
  mkConnection (database s) (databasePromise s) (alter f n (attempts s)) (next s) (diagnostics s).
Definition report (p : OpenDiagnosticPath) (live : bool) (s : Connection) : Connection :=
  mkConnection (database s) (databasePromise s) (attempts s) (next s) (diagnostics s ++ [(p, live)]).

Definition set_phase (x : request) (a : Attempt) : Attempt :=
  mkAttempt x (handle a) (abandoned a) (upgradeFailure a) (timer a) (preparing a) (settled a) (caught a).
Definition set_handle (x : connection_handle) (a : Attempt) : Attempt :=
  mkAttempt (phase a) x (abandoned a) (upgradeFailure a) (timer a) (preparing a) (settled a) (caught a).
Definition set_upgradeFailure (x : option js_error) (a : Attempt) : Attempt :=
  mkAttempt (phase a) (handle a) (abandoned a) x (timer a) (preparing a) (settled a) (caught a).
Definition set_preparing (x : bool) (a : Attempt) : Attempt :=
  mkAttempt (phase a) (handle a) (abandoned a) (upgradeFailure a) (timer a) x (settled a) (caught a).
Definition set_caught (a : Attempt) : Attempt :=
  mkAttempt (phase a) (handle a) (abandoned a) (upgradeFailure a) (timer a) (preparing a) (settled a) true.
Definition set_abandoned (a : Attempt) : Attempt :=
  mkAttempt (phase a) (handle a) true (upgradeFailure a) (timer a) (preparing a) (settled a) (caught a).

(** [database.close()]. *)
Definition shut (a : Attempt) : Attempt :=
  match handle a with NoDatabase => a | _ => set_handle ClosedDatabase a end.

(** [clearTimeout(timer)], and [resolve] or [reject], of which the first counts. *)
Definition conclude (x : option open_error) (a : Attempt) : Attempt :=
  mkAttempt (phase a) (handle a) (abandoned a) (upgradeFailure a) false (preparing a)
    (match settled a with Some y => Some y | None => Some x end) (caught a).

(** [fail]. *)
Definition fail (e : open_error) (a : Attempt) : Attempt := conclude (Some e) (set_abandoned a).

(** ** Operations *)

Definition isOpen (s : Connection) : bool := match database s with Some _ => true | None => false end.

Definition close (s : Connection) : Connection :=
  with_fields None None (match database s with Some n => at_attempt n shut s | None => s end).

Definition retire (n : nat) (s : Connection) : Connection :=
  let s' := at_attempt n shut s in
  if decide (database s = Some n) then with_fields None None s' else s'.

(** What a call of [open] returns: a database, or the promise of an attempt. *)
Inductive open_answer := Ready (n : nat) | Pending (n : nat).

(** The attempt a new [open] makes; [indexedDB.open] may throw at once. *)
Definition first_attempt (throws : option js_error) : Attempt :=
  match throws with
  | None => mkAttempt Requested NoDatabase false None true false None false
  | Some e => mkAttempt RequestFailed NoDatabase false None false false (Some (Some (Engine e))) false
  end.

Definition open (throws : option js_error) (s : Connection) : Connection * open_answer :=
  match database s, databasePromise s with
  | Some n, _ => (s, Ready n)
  | None, Some n => (s, Pending n)
  | None, None =>
      (mkConnection None (Some (next s)) (<[next s := first_attempt throws]> (attempts s)) (S (next s)) (diagnostics s),
       Pending (next s))
  end.

Definition superseded (n : nat) (a : Attempt) (s : Connection) : bool :=
  abandoned a || negb (bool_decide (databasePromise s = Some n)).

(** [superseded()]'s effects: the late database is closed and the attempt rejects. *)
Definition supersede (n : nat) (s : Connection) : Connection :=
  at_attempt n (fun a => conclude (Some SupersededOpen) (shut a)) s.

Definition on_watchdog (n : nat) (a : Attempt) (s : Connection) : Connection :=
  at_attempt n (fail OpenTimedOut) (report open_timeout (bool_decide (phase a = Upgrading)) s).

Definition on_upgradeneeded (n : nat) (throws : option js_error) (a : Attempt) (s : Connection) : Connection :=
  let s' := if superseded n a s then report upgrade_abandoned true s else s in
  at_attempt n (fun a => set_upgradeFailure throws (set_phase Upgrading a)) s'.

Definition on_success (o : ConnectionOptions) (n : nat) (a : Attempt) (s : Connection) : Connection :=
  let s' := at_attempt n (fun a => set_handle OpenDatabase (set_phase Opened a)) s in
  if superseded n a s then supersede n s'
  else if prepare o then at_attempt n (set_preparing true) s'
  else with_fields (Some n) (databasePromise s) (at_attempt n (conclude None) s').

Definition on_prepared (n : nat) (failure : option js_error) (a : Attempt) (s : Connection) : Connection :=
  let s' := at_attempt n (set_preparing false) s in
  match failure with
  | Some e => at_attempt n (fun a => conclude (Some (Engine e)) (shut a)) s'
  | None =>
      if superseded n a s then supersede n s'
      else with_fields (Some n) None (at_attempt n (conclude None) s')
  end.

Definition on_error (n : nat) (e : option js_error) (a : Attempt) (s : Connection) : Connection :=
  at_attempt n (fun a =>
    let a' := set_phase RequestFailed a in
    if abandoned a then a'
    else fail (match upgradeFailure a, e with
               | Some u, _ => UpgradeFailed u
               | None, Some x => Engine x
               | None, None => OpenFailed
               end) a') s.

Definition on_blocked (o : ConnectionOptions) (n : nat) (a : Attempt) (s : Connection) : Connection :=
  let s' := report open_blocked (bool_decide (phase a = Upgrading)) s in
  if blocked o then at_attempt n (fail OpenBlocked) s' else s'.

Definition on_versionchange (n : nat) (s : Connection) : Connection :=
  retire n (report versionchange_retire false s).

(** The opener's catch clause. *)
Definition on_caught (n : nat) (s : Connection) : Connection :=
  let s' := at_attempt n set_caught s in
  if decide (databasePromise s = Some n) then with_fields (database s) None s' else s'.

(** ** The machine *)

Inductive connection_event :=
  | EOpen (throws : option js_error)
  | EClose
  | ERetire (n : nat)
  | EUpgradeNeeded (n : nat) (throws : option js_error)
  | ESuccess (n : nat)
  | EError (n : nat) (e : option js_error)
  | EBlocked (n : nat)
  | EWatchdog (n : nat)
  | EPrepared (n : nat) (failure : option js_error)
  | EVersionChange (n : nat)
  | EForcedClose (n : nat)
  | ECaught (n : nat).

(** The attempt an event belongs to. *)
Definition event_attempt (e : connection_event) : option nat :=
  match e with
  | EOpen _ | EClose => None
  | ERetire n | EUpgradeNeeded n _ | ESuccess n | EError n _ | EBlocked n | EWatchdog n
  | EPrepared n _ | EVersionChange n | EForcedClose n | ECaught n => Some n
  end.

(** When the engine, the timers and the microtasks can deliver an event: a request
    upgrades at most once before it ends, ends once, and not in success when its
    upgrade threw; a handle hears of versionchange and of a forced close while it is
    open; an adapter retires only a database it was handed. *)
Definition can_happen (e : connection_event) (a : Attempt) : bool :=
  match e with
  | EOpen _ | EClose => true
  | ERetire _ => bool_decide (settled a = Some None)
  | EUpgradeNeeded _ _ => bool_decide (phase a = Requested)
  | ESuccess _ => bool_decide (phase a = Requested \/ phase a = Upgrading) && bool_decide (upgradeFailure a = None)
  | EError _ _ => bool_decide (phase a = Requested \/ phase a = Upgrading)
  | EBlocked _ => bool_decide (phase a = Requested)
  | EWatchdog _ => timer a
  | EPrepared _ _ => preparing a
  | EVersionChange _ | EForcedClose _ => bool_decide (handle a = OpenDatabase)
  | ECaught _ => match settled a with Some (Some _) => negb (caught a) | _ => false end
  end.

Definition deliver (o : ConnectionOptions) (e : connection_event) (a : Attempt) (s : Connection) : Connection :=
  match e with
  | EOpen throws => (open throws s).1
  | EClose => close s
  | ERetire n | EForcedClose n => retire n s
  | EUpgradeNeeded n throws => on_upgradeneeded n throws a s
  | ESuccess n => on_success o n a s
  | EError n x => on_error n x a s
  | EBlocked n => on_blocked o n a s
  | EWatchdog n => on_watchdog n a s
  | EPrepared n failure => on_prepared n failure a s
  | EVersionChange n => on_versionchange n s
  | ECaught n => on_caught n s
  end.

Definition connection_step (o : ConnectionOptions) (e : connection_event) (s : Connection) : option Connection :=
  match event_attempt e with
  | None => Some (deliver o e (first_attempt None) s)
  | Some n =>
      a ← attempts s !! n;
      if can_happen e a then Some (deliver o e a s) else None
  end.

Fixpoint connection_run (o : ConnectionOptions) (l : list connection_event) (s : Connection) : option Connection :=
  match l with
  | [] => Some s
  | e :: l' => connection_step o e s ≫= connection_run o l'
  end.

Inductive connected (o : ConnectionOptions) : Connection -> Prop :=
  | connected_fresh : connected o fresh_connection
  | connected_step s s' e : connected o s -> connection_step o e s = Some s' -> connected o s'.

Lemma connected_run o l s s' : connected o s -> connection_run o l s = Some s' -> connected o s'.
Proof.
  revert s. induction l as [|e l IH]; simpl; intros s Hs H; [by simplify_eq|].
  apply bind_Some in H as (s1 & H1 & H2). by eapply IH, H2; eapply connected_step.
Qed.

(** ** The invariant *)

(** What holds of attempt [n], given the two fields of the connection. *)
Record attempt_ok (o : ConnectionOptions) (d p : option nat) (n : nat) (a : Attempt) : Prop := {
  ok_owned : handle a = OpenDatabase -> d = Some n \/ preparing a = true;
  ok_installed : d = Some n -> settled a = Some None /\ (prepare o = false -> handle a = OpenDatabase);
  ok_watched : timer a = true <-> settled a = None;
  ok_abandoned : abandoned a = true -> settled a <> None /\ settled a <> Some None;
  ok_preparing : preparing a = true -> prepare o = true /\ (settled a = None \/ abandoned a = true);
  ok_resolved : settled a = Some None -> phase a = Opened /\ preparing a = false /\ handle a <> NoDatabase;
  ok_unfinished : phase a = Requested \/ phase a = Upgrading -> handle a = NoDatabase /\ preparing a = false /\
    (settled a = None \/ abandoned a = true);
  ok_pending : settled a = None -> phase a = Requested \/ phase a = Upgrading \/ preparing a = true;
  ok_forgotten : p = Some n -> caught a = false;
  ok_caught : caught a = true -> settled a <> None /\ settled a <> Some None;
  ok_promised : p = Some n -> settled a = Some None -> d = Some n;
  ok_shut : preparing a = true -> handle a <> NoDatabase /\ phase a = Opened
}.

Record connection_ok (o : ConnectionOptions) (s : Connection) : Prop := {
  ok_attempts : map_Forall (attempt_ok o (database s) (databasePromise s)) (attempts s);
  ok_next : forall n, is_Some (attempts s !! n) -> n < next s;
  ok_database : forall n, database s = Some n -> is_Some (attempts s !! n) /\
    (databasePromise s = None \/ databasePromise s = Some n);
  ok_promise : forall n, databasePromise s = Some n -> is_Some (attempts s !! n)
}.

(** What a closed handle, a settled promise and a moved phase leave of an attempt. *)
Ltac chain :=
  repeat match goal with
  | H : ?P -> _, H' : ?P |- _ => match type of P with Prop => specialize (H H') end
  | H : ?x = ?x -> _ |- _ => specialize (H eq_refl)
  | H : ?P \/ _ -> _, H' : ?P |- _ => specialize (H (or_introl H'))
  | H : _ \/ ?P -> _, H' : ?P |- _ => specialize (H (or_intror H'))
  | H : _ /\ _ |- _ => destruct H
  | H : _ <-> _ |- _ => destruct H
  | H : _ \/ _ |- _ => destruct H
  | |- _ -> _ => intro
  | |- _ /\ _ => split
  | |- _ <-> _ => split
  end; try congruence.

Ltac attempt_auto :=
  unfold fail, conclude, shut, set_abandoned, set_handle, set_phase, set_upgradeFailure, set_preparing, set_caught in *;
  constructor; simpl in *; repeat case_match; simpl in *; simplify_eq/=; try done; chain; intuition congruence.

Section preserved.
Context (o : ConnectionOptions).

(** An attempt the fields do not name differently stays as it was. *)
Lemma ok_other d p d' p' n a :
  attempt_ok o d p n a -> (d = Some n <-> d' = Some n) -> (p' = Some n -> p = Some n) -> attempt_ok o d' p' n a.
Proof. intros [] Hd Hp. constructor; naive_solver. Qed.

(** One attempt moves, the fields with it. *)
Lemma ok_move d p d' p' n f (m : gmap nat Attempt) (a : Attempt) :
  map_Forall (attempt_ok o d p) m -> m !! n = Some a -> attempt_ok o d' p' n (f a) ->
  (forall k, k <> n -> (d = Some k <-> d' = Some k) /\ (p' = Some k -> p = Some k)) ->
  map_Forall (attempt_ok o d' p') (alter f n m).
Proof.
  intros Hm Hn Hf Hk k b Hb. destruct (decide (k = n)) as [->|Hkn].
  - rewrite lookup_alter_eq, Hn in Hb. by simplify_eq/=.
  - rewrite lookup_alter_ne in Hb by done. destruct (Hk k Hkn). by eapply ok_other; [apply Hm|..].
Qed.

Lemma ok_move_same d p n f (m : gmap nat Attempt) (a : Attempt) :
  map_Forall (attempt_ok o d p) m -> m !! n = Some a -> attempt_ok o d p n (f a) ->
  map_Forall (attempt_ok o d p) (alter f n m).
Proof. intros Hm Hn Hf. by eapply ok_move; [..|done]. Qed.

Lemma alter_next f n (m : gmap nat Attempt) k b :
  (forall j, is_Some (m !! j) -> j < b) -> is_Some (alter f n m !! k) -> k < b.
Proof. intros Hm Hk. apply Hm. by rewrite lookup_alter_is_Some in Hk. Qed.

(** The last step of a preservation proof: what moved is one attempt's record. *)
Lemma ok_build d p n f s a :
  connection_ok o s -> attempts s !! n = Some a -> attempt_ok o d p n (f a) ->
  (forall k, k <> n -> (database s = Some k <-> d = Some k) /\ (p = Some k -> databasePromise s = Some k)) ->
  (d = None \/ d = Some n /\ (p = None \/ p = Some n) \/ d = database s /\ (p = databasePromise s \/ p = None)) ->
  forall l, connection_ok o (mkConnection d p (alter f n (attempts s)) (next s) l).
Proof.
  intros [Ha Hx Hd Hpr] Hn Hf Hk Hdp l. constructor; simpl.
  - by eapply ok_move.
  - intros k. by apply alter_next.
  - intros k ->. rewrite lookup_alter_is_Some. destruct Hdp as [|[[E Hp]|[E Hp]]]; [done|simplify_eq..].
    + split; [by eexists|done].
    + destruct (Hd k (eq_sym E)) as [Hs Hp']. split; [done|]. destruct Hp as [->| ->]; tauto.
  - intros k ->. rewrite lookup_alter_is_Some. destruct (decide (k = n)) as [->|Hkn]; [by eexists|].
    apply Hpr. by apply (Hk k Hkn).
Qed.

Lemma ok_at d p n f s a :
  connection_ok o s -> attempts s !! n = Some a -> d = database s -> p = databasePromise s ->
  attempt_ok o (database s) (databasePromise s) n (f a) ->
  forall l, connection_ok o (mkConnection d p (alter f n (attempts s)) (next s) l).
Proof. intros Hs Hn -> -> Hf. eapply ok_build; [done..|]. right. right. by split; [|left]. Qed.

Lemma retire_ok n s a :
  connection_ok o s -> attempts s !! n = Some a -> handle a <> NoDatabase -> forall l,
  connection_ok o (retire n (mkConnection (database s) (databasePromise s) (attempts s) (next s) l)).
Proof.
  intros Hs Hn Hh l. pose proof (ok_attempts _ _ Hs n a Hn) as Ha. unfold retire, with_fields, at_attempt. simpl. case_decide as Hd; simpl.
  - eapply (ok_build None None n shut); [done..| |naive_solver|by left].
    destruct Ha. attempt_auto.
  - eapply ok_at; [done..|]. destruct Ha. attempt_auto.
Qed.

Lemma close_ok s : connection_ok o s -> connection_ok o (close s).
Proof.
  intros Hs. unfold close, with_fields, at_attempt. destruct (database s) as [n|] eqn:Hd; simpl.
  - destruct (ok_database _ _ Hs n Hd) as [[a Hn] _]. pose proof (ok_attempts _ _ Hs n a Hn) as Ha.
    eapply (ok_build None None n shut); [done..| |naive_solver|by left]. destruct Ha. attempt_auto.
  - destruct Hs as [Ha Hx _ _]. constructor; simpl; [|done..]. intros k b Hb.
    eapply ok_other; [by apply Ha|naive_solver..].
Qed.

Lemma open_ok throws s : connection_ok o s -> connection_ok o (open throws s).1.
Proof.
  intros Hs. unfold open. destruct (database s) as [n|] eqn:Hd; [done|].
  destruct (databasePromise s) as [n|] eqn:Hp; [done|]. simpl. destruct Hs as [Ha Hx _ _].
  constructor; simpl; [| |done|].
  - apply map_Forall_insert_2.
    + destruct throws; constructor; naive_solver.
    + intros k b Hb. assert (k < next s) by (apply Hx; by eexists).
      eapply ok_other; [by apply Ha|by rewrite Hd|]. intros [= Hk]. lia.
  - intros k [->|Hk]%lookup_insert_is_Some'; [lia|]. apply Hx in Hk. lia.
  - intros k [= <-]. rewrite lookup_insert_eq. by eexists.
Qed.

(** ** Every event keeps it *)

Lemma not_superseded n a s :
  superseded n a s = false -> abandoned a = false /\ databasePromise s = Some n.
Proof. unfold superseded. intros [? ?%negb_false_iff%bool_decide_eq_true]%orb_false_iff. done. Qed.

(** Where the promise names an attempt, the database does or there is none. *)
Lemma promise_owns n s : connection_ok o s -> databasePromise s = Some n -> database s = None \/ database s = Some n.
Proof.
  intros Hs Hp. destruct (database s) as [m|] eqn:Hd; [|by left]. right.
  destruct (ok_database _ _ Hs m Hd) as [_ [?|?]]; congruence.
Qed.

Lemma supersede_ok n s a l f :
  connection_ok o s -> attempts s !! n = Some a -> attempt_ok o (database s) (databasePromise s) n (conclude (Some SupersededOpen) (shut (f a))) ->
  connection_ok o (supersede n (at_attempt n f (mkConnection (database s) (databasePromise s) (attempts s) (next s) l))).
Proof.
  intros Hs Hn Hf. unfold supersede, at_attempt. simpl. rewrite alter_alter_eq. by eapply ok_at.
Qed.

Lemma on_success_ok n s a :
  connection_ok o s -> attempts s !! n = Some a -> can_happen (ESuccess n) a = true -> connection_ok o (on_success o n a s).
Proof.
  intros Hs Hn [Hph%bool_decide_eq_true _]%andb_true_iff. pose proof (ok_attempts _ _ Hs n a Hn) as Ha.
  unfold on_success. destruct (superseded n a s) eqn:Hsup.
  - destruct s as [d p m k l]. eapply (supersede_ok n (mkConnection d p m k l)); [done..|].
    destruct Ha. attempt_auto.
  - apply not_superseded in Hsup as [Hab Hp]. pose proof (promise_owns n s Hs Hp) as Hd.
    unfold at_attempt, with_fields. destruct (prepare o) eqn:Hpr; simpl; rewrite alter_alter_eq.
    + eapply ok_at; [done..|]. destruct Ha. attempt_auto.
    + eapply ok_build; [done..| | |right; left; naive_solver]; [destruct Ha; attempt_auto|naive_solver].
Qed.

Lemma on_prepared_ok n failure s a :
  connection_ok o s -> attempts s !! n = Some a -> preparing a = true -> connection_ok o (on_prepared n failure a s).
Proof.
  intros Hs Hn Hpr. pose proof (ok_attempts _ _ Hs n a Hn) as Ha.
  unfold on_prepared. destruct failure as [e|]; [|destruct (superseded n a s) eqn:Hsup].
  - unfold at_attempt. simpl. rewrite alter_alter_eq. eapply ok_at; [done..|]. destruct Ha. attempt_auto.
  - destruct s as [d p m k l]. eapply (supersede_ok n (mkConnection d p m k l)); [done..|].
    destruct Ha. attempt_auto.
  - apply not_superseded in Hsup as [Hab Hp]. pose proof (promise_owns n s Hs Hp) as Hd.
    unfold at_attempt, with_fields. simpl. rewrite alter_alter_eq.
    eapply ok_build; [done..| | |right; left; naive_solver]; [destruct Ha; attempt_auto|naive_solver].
Qed.

(** A request that has not ended can still fail. *)
Lemma fail_ok e d p n a :
  attempt_ok o d p n a -> handle a = NoDatabase -> preparing a = false -> settled a = None \/ abandoned a = true ->
  attempt_ok o d p n (fail e a).
Proof. intros Ha Hh Hp Hs. destruct Ha. attempt_auto. Qed.

Lemma on_error_ok n e s a :
  connection_ok o s -> attempts s !! n = Some a -> phase a = Requested \/ phase a = Upgrading ->
  connection_ok o (on_error n e a s).
Proof.
  intros Hs Hn Hph. pose proof (ok_attempts _ _ Hs n a Hn) as Ha. unfold on_error, at_attempt.
  eapply ok_at; [done..|]. simpl. destruct (ok_unfinished _ _ _ _ _ Ha Hph) as (? & ? & ?).
  destruct (abandoned a) eqn:Hab.
  - destruct Ha. attempt_auto.
  - generalize (match upgradeFailure a with Some u => UpgradeFailed u | None => match e with Some x => Engine x | None => OpenFailed end end).
    intros x. destruct Ha. attempt_auto.
Qed.

Lemma watchdog_ok n e s a l :
  connection_ok o s -> attempts s !! n = Some a -> settled a = None ->
  connection_ok o (at_attempt n (fail e) (mkConnection (database s) (databasePromise s) (attempts s) (next s) l)).
Proof.
  intros Hs Hn Hset. pose proof (ok_attempts _ _ Hs n a Hn) as Ha. unfold at_attempt. simpl.
  eapply ok_at; [done..|]. destruct Ha. attempt_auto.
Qed.

Lemma on_caught_ok n e s a :
  connection_ok o s -> attempts s !! n = Some a -> settled a = Some (Some e) -> connection_ok o (on_caught n s).
Proof.
  intros Hs Hn Hset. pose proof (ok_attempts _ _ Hs n a Hn) as Ha. unfold on_caught, at_attempt, with_fields.
  case_decide as Hp; simpl.
  - eapply ok_build; [done..| |naive_solver|]; [destruct Ha; attempt_auto|]. right. right. by split; [|right].
  - eapply ok_at; [done..|]. destruct Ha. attempt_auto.
Qed.
End preserved.

Lemma step_ok o e s s' : connection_ok o s -> connection_step o e s = Some s' -> connection_ok o s'.
Proof.
  intros Hs. unfold connection_step. destruct (event_attempt e) as [n|] eqn:He; simpl.
  - intros (a & Hn & H)%bind_Some. destruct (can_happen e a) eqn:Hc; [|done]. simplify_eq.
    pose proof (ok_attempts _ _ Hs n a Hn) as Ha.
    destruct e; simplify_eq/=.
    + apply bool_decide_eq_true in Hc. destruct s as [d p m k l].
      eapply (retire_ok o n (mkConnection d p m k l)); [done..|]. by destruct (ok_resolved _ _ _ _ _ Ha Hc) as (_ & _ & ?).
    + apply bool_decide_eq_true in Hc. unfold on_upgradeneeded, at_attempt, report.
      destruct (superseded n a s); simpl; (eapply ok_at; [done..|]); destruct Ha; attempt_auto.
    + by apply on_success_ok.
    + apply bool_decide_eq_true in Hc. by eapply on_error_ok.
    + apply bool_decide_eq_true in Hc. destruct (ok_unfinished _ _ _ _ _ Ha (or_introl Hc)) as (? & ? & ?).
      unfold on_blocked, at_attempt, report. destruct (blocked o); simpl.
      * eapply ok_at; [done..|]. by apply fail_ok.
      * destruct Hs. by constructor.
    + apply (ok_watched _ _ _ _ _ Ha) in Hc. by eapply watchdog_ok.
    + by apply on_prepared_ok.
    + apply bool_decide_eq_true in Hc. eapply retire_ok; [done..|]. by rewrite Hc.
    + apply bool_decide_eq_true in Hc. destruct s as [d p m k l].
      eapply (retire_ok o n (mkConnection d p m k l)); [done..|]. by rewrite Hc.
    + destruct (settled a) as [[x|]|] eqn:Hset; [|done..]. by eapply on_caught_ok.
  - intros [= <-]. destruct e; try done; simpl; [by apply open_ok|by apply close_ok].
Qed.

Lemma connected_ok o s : connected o s -> connection_ok o s.
Proof.
  induction 1 as [|s s' e _ IH Hstep]; [|by eapply step_ok].
  constructor; simpl; [apply map_Forall_empty| |done..]. intros n. rewrite lookup_empty. by intros [].
Qed.

(** ** A promise keeps the answer it settled in *)

Definition keeps_answer (f : Attempt -> Attempt) : Prop := forall a x, settled a = Some x -> settled (f a) = Some x.

Lemma alter_answer f n (m : gmap nat Attempt) k x :
  keeps_answer f -> settled <$> m !! k = Some (Some x) -> settled <$> alter f n m !! k = Some (Some x).
Proof.
  intros Hf Hk. destruct (decide (k = n)) as [->|]; [|by rewrite lookup_alter_ne].
  rewrite lookup_alter_eq. destruct (m !! n) as [a|]; [|done]. simpl in *. f_equal. apply Hf. by simplify_eq.
Qed.

Lemma keeps_answer_updates :
  keeps_answer shut /\ (forall e, keeps_answer (fail e)) /\ (forall x, keeps_answer (conclude x)) /\
  keeps_answer set_caught /\ (forall x, keeps_answer (set_preparing x)) /\
  (forall x y, keeps_answer (fun a => set_handle x (set_phase y a))) /\
  (forall x y, keeps_answer (fun a => set_upgradeFailure x (set_phase y a))) /\
  (forall x, keeps_answer (fun a => conclude x (shut a))) /\
  (forall g, keeps_answer (fun a => if abandoned a then set_phase RequestFailed a else fail (g a) (set_phase RequestFailed a))).
Proof.
  unfold keeps_answer, shut, fail, conclude. repeat split; intros; simpl; repeat case_match; simpl in *; congruence.
Qed.

Lemma retire_answer n s k x :
  settled <$> attempts s !! k = Some (Some x) -> settled <$> attempts (retire n s) !! k = Some (Some x).
Proof.
  intros Hk. destruct keeps_answer_updates as [Hsh _]. unfold retire, with_fields, at_attempt.
  case_decide; simpl; by apply alter_answer.
Qed.

Lemma answer_stays o e s s' k x :
  connection_ok o s -> connection_step o e s = Some s' -> settled <$> attempts s !! k = Some (Some x) ->
  settled <$> attempts s' !! k = Some (Some x).
Proof.
  intros Hs Hstep Hk. destruct keeps_answer_updates as (Hsh & Hfa & Hco & Hca & Hpr & Hph & Hup & Hcs & Her).
  unfold connection_step in Hstep. destruct (event_attempt e) as [n|] eqn:He; simpl in Hstep.
  - apply bind_Some in Hstep as (a & Hn & H). destruct (can_happen e a); [|done]. injection H as <-.
    destruct e; simplify_eq/=; try by apply retire_answer.
    all: unfold on_upgradeneeded, on_success, supersede, on_prepared, on_blocked, on_watchdog, on_caught, with_fields, at_attempt.
    3: by apply alter_answer; [apply Her|].
    all: repeat case_match; simpl; repeat (apply alter_answer; [by auto|]); done.
  - injection Hstep as <-. destruct e; try done; simpl.
    + unfold open. repeat case_match; simpl; try done. rewrite lookup_insert_ne; [done|]. intros <-.
      destruct (attempts s !! next s) as [a|] eqn:Ha; [|done].
      pose proof (ok_next _ _ Hs (next s) (ex_intro _ a Ha)). lia.
    + unfold close. destruct (database s); [|done]. by apply alter_answer.
Qed.

(** ** What a caller gets *)

(** C34: no connection leaks and no closed one is handed out. However opens, closes,
    deadlines and the engine interleave, a database the engine delivered and nobody
    closed is the one installed, or one whose adapter is still preparing it; and where
    the adapter prepares nothing, the installed database is open. *)
Theorem connection_owned o s n a :
  connected o s -> attempts s !! n = Some a ->
  (handle a = OpenDatabase -> database s = Some n \/ preparing a = true /\ prepare o = true) /\
  (prepare o = false -> database s = Some n -> handle a = OpenDatabase).
Proof.
  intros Hs%connected_ok Hn. pose proof (ok_attempts _ _ Hs n a Hn) as Ha. split.
  - intros H. destruct (ok_owned _ _ _ _ _ Ha H) as [|Hp]; [by left|].
    right. split; [done|]. by apply (ok_preparing _ _ _ _ _ Ha).
  - intros Hp Hd. by apply (ok_installed _ _ _ _ _ Ha Hd).
Qed.

(** A first open that a close overtakes, a second that is installed. *)
Definition overtaken : list connection_event :=
  [EOpen None; EClose; EOpen None; EUpgradeNeeded 0 None; ESuccess 0; ECaught 0; ESuccess 1].

Definition plain_outbox : ConnectionOptions := mkConnectionOptions true false.

Lemma connection_owned_witness :
  match connection_run plain_outbox overtaken fresh_connection with
  | Some s =>
      (handle <$> attempts s !! 0 = Some ClosedDatabase) /\ database s = Some 1 /\
      exists a, attempts s !! 1 = Some a /\ handle a = OpenDatabase /\
        ((handle a = OpenDatabase -> database s = Some 1 \/ preparing a = true /\ prepare plain_outbox = true) /\
         (prepare plain_outbox = false -> database s = Some 1 -> handle a = OpenDatabase))
  | None => False
  end.
Proof.
  destruct (connection_run _ _ _) as [s|] eqn:Hr; [|by vm_compute in Hr].
  pose proof (connected_run _ _ _ _ (connected_fresh _) Hr) as Hc.
  vm_compute in Hr. injection Hr as <-. split; [by vm_compute|]. split; [by vm_compute|].
  eexists. split; [by vm_compute|]. split; [by vm_compute|].
  apply (connection_owned plain_outbox _ 1 _ Hc). by vm_compute.
Defined.

(** The watchdog of a pending attempt ends it, and its opener forgets it. *)
Lemma watchdog_forgets o s n a :
  connection_ok o s -> attempts s !! n = Some a -> settled a = None ->
  exists s1 s2 a1, connection_step o (EWatchdog n) s = Some s1 /\ attempts s1 !! n = Some a1 /\
    settled a1 = Some (Some OpenTimedOut) /\ connection_step o (ECaught n) s1 = Some s2 /\
    (open None s2).2 <> Pending n /\ (open None s2).2 <> Ready n.
Proof.
  intros Hs Hn Hset. pose proof (ok_attempts _ _ Hs n a Hn) as Ha.
  pose proof (proj2 (ok_watched _ _ _ _ _ Ha) Hset) as Ht.
  assert (Hd : database s <> Some n) by (intros Hd; destruct (ok_installed _ _ _ _ _ Ha Hd); congruence).
  assert (Hlt : n < next s) by (apply (ok_next _ _ Hs); by eexists).
  assert (Hc : caught a = false).
  { destruct (caught a) eqn:Hc; [|done]. by destruct (ok_caught _ _ _ _ _ Ha Hc). }
  do 3 eexists. split; [|split; [|split; [|split]]].
  - unfold connection_step. simpl. rewrite Hn. simpl. by rewrite Ht.
  - simpl. by rewrite lookup_alter_eq, Hn.
  - simpl. by rewrite Hset.
  - unfold connection_step. simpl. rewrite lookup_alter_eq, Hn. simpl. rewrite Hset. simpl. by rewrite Hc.
  - unfold on_caught, open. simpl. case_decide as Hp; simpl; destruct (database s) as [m|] eqn:Hm; simpl.
    1,3: split; congruence.
    + split; [|done]. intros [= E]. lia.
    + destruct (databasePromise s) as [m|] eqn:Hpm; simpl; [split; congruence|]. split; [|done]. intros [= E]. lia.
Qed.

(** every call of [open] is answered. It hands out an installed database or the
    promise of an attempt; that attempt has settled in a failure its opener is about
    to see, or its watchdog is armed, and the watchdog settles it. Once its opener
    has seen a failure, no later call is handed that attempt again. *)
Theorem open_answers o s :
  connected o s ->
  let '(s', answer) := open None s in
  match answer with
  | Ready n => database s = Some n /\ settled <$> attempts s !! n = Some (Some None)
  | Pending n =>
      exists a, attempts s' !! n = Some a /\
        ((exists e, settled a = Some (Some e) /\ caught a = false) \/
         settled a = None /\ exists s1 s2 a1,
           connection_step o (EWatchdog n) s' = Some s1 /\ attempts s1 !! n = Some a1 /\
           settled a1 = Some (Some OpenTimedOut) /\ connection_step o (ECaught n) s1 = Some s2 /\
           (open None s2).2 <> Pending n /\ (open None s2).2 <> Ready n)
  end.
Proof.
  intros Hs%connected_ok. pose proof (open_ok o None s Hs) as Hs'. unfold open in *.
  destruct (database s) as [n|] eqn:Hd.
  - split; [done|]. destruct (ok_database _ _ Hs n Hd) as [[a Hn] _]. rewrite Hn. simpl. f_equal.
    by apply (ok_installed _ _ _ _ _ (ok_attempts _ _ Hs n a Hn)).
  - destruct (databasePromise s) as [n|] eqn:Hp; simpl in Hs'.
    + destruct (ok_promise _ _ Hs n Hp) as [a Hn]. exists a. split; [done|].
      pose proof (ok_attempts _ _ Hs n a Hn) as Ha. destruct (settled a) as [[e|]|] eqn:Hset.
      * left. exists e. split; [done|]. by apply (ok_forgotten _ _ _ _ _ Ha).
      * pose proof (ok_promised _ _ _ _ _ Ha Hp Hset). congruence.
      * right. split; [done|]. by eapply watchdog_forgets.
    + eexists. split; [apply lookup_insert_eq|]. right. split; [done|].
      eapply watchdog_forgets; [done|apply lookup_insert_eq|done].
Qed.

Lemma open_answers_witness :
  match connection_run plain_outbox [EOpen None; EBlocked 0] fresh_connection with
  | Some s =>
      connected plain_outbox s /\
      let '(s', answer) := open None s in
      match answer with
      | Ready n => database s = Some n /\ settled <$> attempts s !! n = Some (Some None)
      | Pending n =>
          exists a, attempts s' !! n = Some a /\
            ((exists e, settled a = Some (Some e) /\ caught a = false) \/
             settled a = None /\ exists s1 s2 a1,
               connection_step plain_outbox (EWatchdog n) s' = Some s1 /\ attempts s1 !! n = Some a1 /\
               settled a1 = Some (Some OpenTimedOut) /\ connection_step plain_outbox (ECaught n) s1 = Some s2 /\
               (open None s2).2 <> Pending n /\ (open None s2).2 <> Ready n)
      end
  | None => False
  end.
Proof.
  destruct (connection_run _ _ _) as [s|] eqn:Hr; [|by vm_compute in Hr].
  pose proof (connected_run _ _ _ _ (connected_fresh _) Hr) as Hc. split; [done|].
  apply (open_answers plain_outbox s Hc).
Defined.

(** An adapter that prepares: another tab's upgrade closes the database while it is
    being prepared, and the preparation installs it closed. *)
Theorem prepared_close_installed :
  match connection_run (mkConnectionOptions false true)
    [EOpen None; ESuccess 0; EVersionChange 0; EPrepared 0 None] fresh_connection with
  | Some s => (open None s).2 = Ready 0 /\ handle <$> attempts s !! 0 = Some ClosedDatabase
  | None => False
  end.
Proof. by vm_compute. Qed.
