(* ===== verification/IdbTransaction.v ===== *)
(** One transaction of the browser's outbox (MutationOutboxIndexedDB's
    #runTransaction and #notifyWriteStalled, with transactionCompletion and
    tryAbortTransaction of idbConnection.ts): the race between the body, the
    engine's verdict and a deadline, over the connection of IdbConnection.

    The bodies themselves are Idb and WebOutbox; here a body is only its result. *)

From S2P Require Import Prelude Sql IdbConnection.

Local Open Scope string_scope.
Local Open Scope list_scope.

(** ** State *)

(** The engine's transaction; [NoTransaction] where the database was closed and
    [database.transaction] threw. [abort] succeeds on an active one alone. *)
Inductive tx_status := NoTransaction | Active | Committing | Committed | Aborted.

#[export] Instance tx_status_eq_dec : EqDecision tx_status.
Proof. solve_decision. Defined.

Inductive call_error := MutationStorageTimeout | InvalidState | Failure (e : js_error).

Section runner.
Context {A : Type}.

(** One call: the body's promise, the completion's ([Some None]: complete), whether
    the deadline's timer runs, [stalledWrite], and the call's own promise. *)
Record Call := mkCall {
  call_database : nat;
  readwrite : bool;
  status : tx_status;
  work : option (A + js_error);
  completed : option (option js_error);
  deadline : bool;
  stalledWrite : bool;
  outcome : option (A + call_error)
}.

Record Runner := mkRunner {
  connection : Connection;
  calls : gmap nat Call;
  next_call : nat;
  stalledWrites : nat;
  (** what onWriteStalled was told *)
  told : list bool
}.

Definition idle_runner : Runner := mkRunner fresh_connection ∅ 0 0 [].

(** ** One call *)

Definition set_status (x : tx_status) (c : Call) : Call :=
  mkCall (call_database c) (readwrite c) x (work c) (completed c) (deadline c) (stalledWrite c) (outcome c).
Definition set_work (x : A + js_error) (c : Call) : Call :=
  mkCall (call_database c) (readwrite c) (status c) (Some x) (completed c) (deadline c) (stalledWrite c) (outcome c).
Definition stall (c : Call) : Call :=
  mkCall (call_database c) (readwrite c) (status c) (work c) (completed c) false true (outcome c).

(** [transactionCompletion]: the first event settles it. *)
Definition complete (x : option js_error) (c : Call) : Call :=
  mkCall (call_database c) (readwrite c) (status c) (work c)
    (match completed c with Some y => Some y | None => Some x end) (deadline c) (stalledWrite c) (outcome c).

(** [tryAbortTransaction]. *)
Definition tryAbortTransaction (c : Call) : Call * bool :=
  match status c with Active => (set_status Aborted c, true) | _ => (c, false) end.

(** The catch and finally clauses around the race: an error aborts what it can, and
    the timer is cleared. *)
Definition conclude_call (x : A + call_error) (c : Call) : Call :=
  let c' := match x with inl _ => c | inr _ => (tryAbortTransaction c).1 end in
  mkCall (call_database c') (readwrite c') (status c') (work c') (completed c') false (stalledWrite c') (Some x).

(** What [Promise.all([work, completed])] has settled in. *)
Definition verdict (c : Call) : option (A + call_error) :=
  match work c, completed c with
  | Some (inr e), _ => Some (inr (Failure e))
  | _, Some (Some e) => Some (inr (Failure e))
  | Some (inl a), Some None => Some (inl a)
  | _, _ => None
  end.

(** The microtasks after an event: an unanswered call whose race is decided answers. *)
Definition settle_call (c : Call) : Call :=
  match outcome c, verdict c with None, Some x => conclude_call x c | _, _ => c end.

(** A write its deadline left pending. *)
Definition is_stalled (c : Call) : bool :=
  stalledWrite c && match outcome c with None => true | Some _ => false end.

(** ** The adapter *)

(** A call moves; one that was stalled and answered is counted off, and the last of
    them is told. *)
Definition update_call (k : nat) (c c' : Call) (r : Runner) : Runner :=
  let d := settle_call c' in
  if is_stalled c && negb (is_stalled d) then
    let left := pred (stalledWrites r) in
    mkRunner (connection r) (<[k := d]> (calls r)) (next_call r) left
      (if (left =? 0)%nat then told r ++ [false] else told r)
  else mkRunner (connection r) (<[k := d]> (calls r)) (next_call r) (stalledWrites r) (told r).

Definition with_connection (s : Connection) (r : Runner) : Runner :=
  mkRunner s (calls r) (next_call r) (stalledWrites r) (told r).

(** A call whose [open] resolved with the database of attempt [n]. *)
Definition started (n : nat) (rw : bool) (usable : bool) : Call :=
  if usable then mkCall n rw Active None None true false None
  else mkCall n rw NoTransaction None None false false (Some (inr InvalidState)).

Definition start_call (n : nat) (rw : bool) (r : Runner) : Runner :=
  let usable := bool_decide (handle <$> attempts (connection r) !! n = Some OpenDatabase) in
  mkRunner (connection r) (<[next_call r := started n rw usable]> (calls r)) (S (next_call r)) (stalledWrites r) (told r).

(** The deadline: the connection is retired; a transaction that aborts, and any read,
    fails with the timeout; a write past aborting stays pending, and is counted. *)
Definition on_deadline (k : nat) (c : Call) (r : Runner) : Runner :=
  let r' := with_connection (retire (call_database c) (connection r)) r in
  let '(c', aborted) := tryAbortTransaction c in
  if negb aborted && readwrite c then
    let more := S (stalledWrites r) in
    mkRunner (connection r') (<[k := stall c']> (calls r)) (next_call r) more
      (if (more =? 1)%nat then told r ++ [true] else told r)
  else
    mkRunner (connection r') (<[k := conclude_call (inr MutationStorageTimeout) c']> (calls r)) (next_call r)
      (stalledWrites r) (told r).

(** ** The machine *)

Inductive runner_event :=
  | TConnection (e : connection_event)
  | TStart (n : nat) (rw : bool)
  | TWork (k : nat) (x : A + js_error)
  | TRequestError (k : nat) (e : js_error)
  | TCommit (k : nat)
  | TComplete (k : nat)
  | TAbort (k : nat) (e : js_error)
  | TDeadline (k : nat).

(** What the engine can do. A body awaits only requests of its own transaction, so its
    result comes before the commit, and the engine commits by itself only when the
    body has nothing left to ask. A transaction error is an active transaction's; an
    abort event follows an abort, or ends a transaction the engine gave up. *)
Definition call_can (e : runner_event) (c : Call) : bool :=
  match e with
  | TConnection _ | TStart _ _ => false
  | TWork _ _ => bool_decide (status c = Active \/ status c = Aborted) && match work c with None => true | Some _ => false end
  | TRequestError _ _ => bool_decide (status c = Active)
  | TCommit _ => bool_decide (status c = Active) && match work c with Some (inl _) => true | _ => false end
  | TComplete _ => bool_decide (status c = Committing)
  | TAbort _ _ => bool_decide (status c = Active \/ status c = Committing \/ status c = Aborted)
  | TDeadline _ => deadline c
  end.

Definition on_call (e : runner_event) (k : nat) (c : Call) (r : Runner) : Runner :=
  match e with
  | TConnection _ | TStart _ _ => r
  | TWork _ x => update_call k c (set_work x c) r
  | TRequestError _ x => update_call k c (complete (Some x) c) r
  | TCommit _ => update_call k c (set_status Committing c) r
  | TComplete _ => update_call k c (complete None (set_status Committed c)) r
  | TAbort _ x => update_call k c (complete (Some x) (set_status Aborted c)) r
  | TDeadline _ => on_deadline k c r
  end.

Definition runner_step (o : ConnectionOptions) (e : runner_event) (r : Runner) : option Runner :=
  match e with
  | TConnection e => (fun s => with_connection s r) <$> connection_step o e (connection r)
  | TStart n rw =>
      if bool_decide (settled <$> attempts (connection r) !! n = Some (Some None)) then Some (start_call n rw r) else None
  | TWork k _ | TRequestError k _ | TCommit k | TComplete k | TAbort k _ | TDeadline k =>
      c ← calls r !! k;
      if call_can e c then Some (on_call e k c r) else None
  end.

Fixpoint runner_run (o : ConnectionOptions) (l : list runner_event) (r : Runner) : option Runner :=
  match l with
  | [] => Some r
  | e :: l' => runner_step o e r ≫= runner_run o l'
  end.

Inductive running (o : ConnectionOptions) : Runner -> Prop :=
  | running_idle : running o idle_runner
  | running_step r r' e : running o r -> runner_step o e r = Some r' -> running o r'.

Lemma running_run o l r r' : running o r -> runner_run o l r = Some r' -> running o r'.
Proof.
  revert r. induction l as [|e l IH]; simpl; intros r Hr H; [by simplify_eq|].
  apply bind_Some in H as (r1 & H1 & H2). by eapply IH, H2; eapply running_step.
Qed.

(** ** The invariant *)

(** Whether the engine's transaction, the body and the answer agree. *)
Record call_ok (c : Call) : Prop := {
  call_open : status c = Active -> outcome c = None /\ completed c = None /\ stalledWrite c = false /\
    forall e, work c <> Some (inr e);
  call_committing : status c = Committing -> completed c = None /\ (exists a, work c = Some (inl a)) /\
    (readwrite c = true -> outcome c = None) /\ forall a, outcome c <> Some (inl a);
  call_committed : status c = Committed -> exists a, work c = Some (inl a) /\
    (outcome c = Some (inl a) \/ readwrite c = false /\ exists e, outcome c = Some (inr e));
  call_aborted : status c = Aborted \/ status c = NoTransaction -> exists e, outcome c = Some (inr e);
  call_watched : outcome c = None -> deadline c = negb (stalledWrite c);
  call_unwatched : outcome c <> None -> deadline c = false;
  call_stalled : stalledWrite c = true -> readwrite c = true
}.

Definition stalled_count (m : gmap nat Call) : nat := size (filter (fun kc => is_stalled kc.2 = true) m).

Record runner_ok (o : ConnectionOptions) (r : Runner) : Prop := {
  ok_connection : connected o (connection r);
  ok_calls : map_Forall (fun _ => call_ok) (calls r);
  ok_next_call : forall k, is_Some (calls r !! k) -> k < next_call r;
  ok_resolved_db : forall k c, calls r !! k = Some c ->
    exists a, attempts (connection r) !! call_database c = Some a /\ settled a = Some None;
  ok_stalled : stalledWrites r = stalled_count (calls r);
  ok_told : last (told r) = Some true /\ 0 < stalledWrites r \/ last (told r) <> Some true /\ stalledWrites r = 0
}.

(** What an event leaves of its call. *)
Definition moved (e : runner_event) (c : Call) : Call :=
  match e with
  | TWork _ x => settle_call (set_work x c)
  | TRequestError _ x => settle_call (complete (Some x) c)
  | TCommit _ => settle_call (set_status Committing c)
  | TComplete _ => settle_call (complete None (set_status Committed c))
  | TAbort _ x => settle_call (complete (Some x) (set_status Aborted c))
  | TDeadline _ =>
      let '(c', aborted) := tryAbortTransaction c in
      if negb aborted && readwrite c then stall c' else conclude_call (inr MutationStorageTimeout) c'
  | TConnection _ | TStart _ _ => c
  end.

Ltac call_auto :=
  chain; simplify_eq/=; try done; chain; simplify_eq/=; try done; eauto;
  repeat match goal with H : exists _, _ |- _ => destruct H; chain; simplify_eq/= end; try done; eauto 6; try congruence.

Lemma moved_ok e c : call_ok c -> call_can e c = true -> call_ok (moved e c).
Proof.
  destruct c as [n rw st wk cp dl sw oc]. intros [Ho Hcm Hcd Hab Hw Hu Hs] Hc. simpl in *.
  destruct e as [| |k x|k x|k|k|k x|k]; try done; simpl in Hc.
  - apply andb_true_iff in Hc as [Hc%bool_decide_eq_true Hwk]. destruct wk; [done|]. simpl.
    destruct Hc as [->| ->].
    + destruct (Ho eq_refl) as (-> & -> & -> & _). destruct x; constructor; simpl; call_auto.
    + destruct (Hab (or_introl eq_refl)) as [e ->]. constructor; simpl; call_auto.
  - apply bool_decide_eq_true in Hc as ->. destruct (Ho eq_refl) as (-> & -> & -> & Hwk).
    destruct wk as [[a|e]|]; [|by destruct (Hwk e)|]; constructor; simpl; call_auto.
  - apply andb_true_iff in Hc as [->%bool_decide_eq_true Hwk]. destruct (Ho eq_refl) as (-> & -> & -> & _).
    destruct wk as [[a|e]|]; [|done..]. constructor; simpl; call_auto.
  - apply bool_decide_eq_true in Hc as ->. destruct (Hcm eq_refl) as (-> & [a ->] & Hrw & Hno). clear Hcm.
    destruct oc as [[b|e]|]; [by destruct (Hno b)| |]; constructor; simpl; call_auto.
    exists a. split; [done|]. right. split; [|by eexists]. by destruct rw; [specialize (Hrw eq_refl)|].
  - apply bool_decide_eq_true in Hc. destruct oc as [[b|e]|]; simpl.
    + destruct Hc as [->|[->| ->]]; [by destruct (Ho eq_refl)|by destruct (Hcm eq_refl) as (_ & _ & _ & Hno); destruct (Hno b)|].
      by destruct (Hab (or_introl eq_refl)).
    + constructor; simpl; call_auto.
    + destruct Hc as [->|[->| ->]]; [| |by destruct (Hab (or_introl eq_refl))].
      * destruct (Ho eq_refl) as (_ & -> & -> & Hwk).
        destruct wk as [[a|e]|]; [|by destruct (Hwk e)|]; constructor; simpl; call_auto.
      * destruct (Hcm eq_refl) as (-> & [a ->] & _). constructor; simpl; call_auto.
  - destruct dl; [|done]. destruct oc as [x|]; [by specialize (Hu ltac:(done))|]. destruct sw; [by specialize (Hw eq_refl)|].
    destruct st; simpl; try (by destruct (Hab ltac:(auto))).
    + constructor; simpl; call_auto.
    + destruct (Hcm eq_refl) as (-> & [a ->] & _). destruct rw; constructor; simpl; call_auto.
    + destruct (Hcd eq_refl) as (a & _ & [?|[_ [? ?]]]); done.
Qed.

(** ** Counting the stalled writes *)

Definition one_if (b : bool) : nat := if b then 1 else 0.

Lemma stalled_count_split m k c :
  m !! k = Some c -> stalled_count m = stalled_count (delete k m) + one_if (is_stalled c).
Proof.
  intros Hk. unfold stalled_count. rewrite map_filter_delete.
  destruct (is_stalled c) eqn:Hc; simpl.
  - rewrite map_size_delete_Some by (eexists; by apply map_lookup_filter_Some).
    assert (0 < size (filter (fun kc : nat * Call => is_stalled kc.2 = true) m)); [|lia].
    apply Nat.neq_0_lt_0. intros E%map_size_empty_inv.
    assert (Hf : filter (fun kc : nat * Call => is_stalled kc.2 = true) m !! k = Some c) by (by apply map_lookup_filter_Some).
    by rewrite E in Hf.
  - rewrite Nat.add_0_r, map_size_delete_None; [done|]. apply map_lookup_filter_None. right. intros c' Hk'. simplify_eq/=. by rewrite Hc.
Qed.

Lemma stalled_count_move m k c d :
  m !! k = Some c -> stalled_count (<[k := d]> m) + one_if (is_stalled c) = stalled_count m + one_if (is_stalled d).
Proof.
  intros Hk. rewrite (stalled_count_split m k c Hk), (stalled_count_split (<[k := d]> m) k d) by apply lookup_insert_eq.
  rewrite delete_insert_eq. lia.
Qed.

Lemma stalled_count_new m k d : m !! k = None -> is_stalled d = false -> stalled_count (<[k := d]> m) = stalled_count m.
Proof.
  intros Hk Hd. rewrite (stalled_count_split (<[k := d]> m) k d) by apply lookup_insert_eq.
  rewrite delete_insert_id by done. rewrite Hd. simpl. lia.
Qed.

(** ** Every event keeps the invariant *)

Lemma settle_fixed c : call_database (settle_call c) = call_database c /\ readwrite (settle_call c) = readwrite c.
Proof.
  unfold settle_call, conclude_call, tryAbortTransaction. repeat case_match; simplify_eq/=; done.
Qed.

Lemma moved_fixed e c : call_database (moved e c) = call_database c.
Proof.
  destruct e; simpl; try done; try by rewrite (proj1 (settle_fixed _)).
  unfold conclude_call, tryAbortTransaction. repeat case_match; simplify_eq/=; done.
Qed.

Lemma settle_stalled c : stalledWrite (settle_call c) = stalledWrite c.
Proof.
  unfold settle_call, conclude_call, tryAbortTransaction. repeat case_match; simplify_eq/=; done.
Qed.

Lemma settle_answered c : outcome c <> None -> outcome (settle_call c) <> None.
Proof. unfold settle_call. intros H. destruct (outcome c) eqn:Ho; [by rewrite Ho|done]. Qed.

(** Only the deadline stalls a call. *)
Lemma moved_stalled e c :
  match e with TDeadline _ => False | _ => True end -> is_stalled c = false -> is_stalled (moved e c) = false.
Proof.
  unfold is_stalled. intros He Hc. destruct (stalledWrite c) eqn:Hs; simpl in Hc.
  - destruct (outcome c) as [x|] eqn:Hx; [|done].
    destruct e; try done; simpl; rewrite ?settle_stalled; simpl; rewrite ?Hs; simpl; rewrite ?Hx; try done.
    all: destruct (outcome (settle_call _)) eqn:Ho; [done|]; exfalso; eapply settle_answered, Ho; simpl; by rewrite Hx.
  - destruct e; try done; simpl; rewrite ?settle_stalled; simpl; by rewrite Hs.
Qed.

(** What an event of a call leaves of the adapter. *)
Record effect (e : runner_event) (k : nat) (c : Call) (r r' : Runner) : Prop := {
  effect_connection : connection r' = match e with TDeadline _ => retire (call_database c) (connection r) | _ => connection r end;
  effect_calls : calls r' = <[k := moved e c]> (calls r);
  effect_next : next_call r' = next_call r;
  effect_told :
    is_stalled c = is_stalled (moved e c) /\ stalledWrites r' = stalledWrites r /\ told r' = told r \/
    is_stalled c = true /\ is_stalled (moved e c) = false /\ stalledWrites r' = pred (stalledWrites r) /\
      told r' = (if (pred (stalledWrites r) =? 0)%nat then told r ++ [false] else told r) \/
    is_stalled c = false /\ is_stalled (moved e c) = true /\ stalledWrites r' = S (stalledWrites r) /\
      told r' = (if (S (stalledWrites r) =? 1)%nat then told r ++ [true] else told r)
}.

Lemma update_effect e k c c' r :
  match e with TDeadline _ => False | _ => True end -> moved e c = settle_call c' ->
  effect e k c r (update_call k c c' r).
Proof.
  intros He Hm. pose proof (moved_stalled e c He) as Hs. rewrite Hm in Hs. unfold update_call.
  destruct (is_stalled c) eqn:Hc, (is_stalled (settle_call c')) eqn:Hd; simpl; try by specialize (Hs eq_refl).
  all: constructor; [simpl; by destruct e|simpl; by rewrite Hm|done|rewrite Hm, Hc, Hd; simpl; naive_solver].
Qed.

Lemma on_call_effect e k c r : call_ok c -> call_can e c = true -> effect e k c r (on_call e k c r).
Proof.
  intros Hok Hc. destruct e; try done; try by apply update_effect.
  simpl in *. unfold on_deadline. destruct Hok as [_ _ _ _ Hw Hu _].
  assert (Hout : outcome c = None) by (destruct (outcome c); [|done]; rewrite Hu in Hc; done).
  assert (Hst : stalledWrite c = false) by (specialize (Hw Hout); rewrite Hc in Hw; by destruct (stalledWrite c)).
  assert (Hnot : is_stalled c = false) by (unfold is_stalled; by rewrite Hst).
  destruct (tryAbortTransaction c) as [c' aborted] eqn:Ht.
  assert (Hsame : stalledWrite c' = stalledWrite c /\ outcome c' = outcome c)
    by (unfold tryAbortTransaction in Ht; by destruct (status c); simplify_eq/=).
  destruct Hsame as [Hs' Ho'].
  destruct (negb aborted && readwrite c) eqn:Hb; constructor; simpl; rewrite ?Ht, ?Hb; simpl; try done.
  - right. right. split; [done|]. unfold is_stalled. simpl. rewrite Ho', Hout. by auto.
  - left. split; [|done]. rewrite Hnot. unfold is_stalled. simpl. by rewrite andb_false_r.
Qed.

Lemma effect_ok o e k c r r' :
  runner_ok o r -> calls r !! k = Some c -> call_can e c = true -> effect e k c r r' -> runner_ok o r'.
Proof.
  intros [Hcon Hcal Hnext Hdb Hst Htold] Hk Hcan [Hc1 Hc2 Hn Ht].
  pose proof (Hcal k c Hk) as Hok.
  assert (Hstep : connection r' = connection r \/
    connection_step o (ERetire (call_database c)) (connection r) = Some (connection r')).
  { rewrite Hc1. destruct e; auto. right. destruct (Hdb k c Hk) as (a & Ha & Hset).
    unfold connection_step. simpl. rewrite Ha. simpl. by rewrite bool_decide_eq_true_2. }
  assert (Hcon' : connected o (connection r')).
  { destruct Hstep as [->|Hstep]; [done|]. by eapply connected_step. }
  pose proof (stalled_count_move (calls r) k c (moved e c) Hk) as Hcount.
  constructor; [done| | | | |].
  - rewrite Hc2. apply map_Forall_insert_2; [by apply moved_ok|done].
  - rewrite Hc2, Hn. intros j [->|Hj]%lookup_insert_is_Some'; [apply Hnext; by eexists|by apply Hnext].
  - pose proof (moved_fixed e c) as Hdb'.
    intros j d Hj. rewrite Hc2 in Hj. assert (Hold : exists a, attempts (connection r) !! call_database d = Some a /\ settled a = Some None).
    { apply lookup_insert_Some in Hj as [[<- <-]|[_ Hj]]; [rewrite Hdb'|]; by eapply Hdb. }
    destruct Hold as (a & Ha & Hset). destruct Hstep as [->|Hstep]; [by exists a|].
    pose proof (answer_stays o _ _ _ (call_database d) None (connected_ok _ _ Hcon) Hstep) as Hst'.
    rewrite Ha in Hst'. simpl in Hst'. rewrite Hset in Hst'. specialize (Hst' eq_refl).
    destruct (attempts (connection r') !! call_database d) as [a'|]; [|done]. exists a'. by simplify_eq/=.
  - rewrite Hc2. destruct Ht as [(H1 & -> & _)|[(H1 & H2 & -> & _)|(H1 & H2 & -> & _)]];
      rewrite ?H1, ?H2 in Hcount; simpl in Hcount; lia.
  - destruct Ht as [(_ & -> & ->)|[(H1 & H2 & -> & ->)|(_ & _ & -> & ->)]]; [done| |].
    + destruct (stalledWrites r) as [|[|n]] eqn:Hs; simpl.
      * rewrite H1, H2 in Hcount. simpl in Hcount. lia.
      * right. by rewrite last_snoc.
      * left. destruct Htold as [[? _]|[_ ?]]; [split; [done|lia]|lia].
    + left. split; [|lia]. destruct (stalledWrites r) as [|n]; simpl; [by rewrite last_snoc|].
      by destruct Htold as [[? _]|[_ ?]].
Qed.

Lemma runner_step_ok o e r r' : runner_ok o r -> runner_step o e r = Some r' -> runner_ok o r'.
Proof.
  intros Hr. destruct e as [e|n rw|k x|k x|k|k|k x|k]; cbn [runner_step].
  3-8: intros (c & Hk & H)%bind_Some; case_match eqn:Hc; [|done]; injection H as <-.
  3-8: eapply effect_ok; [done..|]; apply on_call_effect; [by apply (ok_calls _ _ Hr k)|done].
  - intros (s & Hs & ->)%fmap_Some. destruct Hr as [Hcon Hcal Hnext Hdb Hst Htold].
    constructor; simpl; [by eapply connected_step|done..| |done|done].
    intros k c Hk. destruct (Hdb k c Hk) as (a & Ha & Hset).
    pose proof (answer_stays o _ _ _ (call_database c) None (connected_ok _ _ Hcon) Hs) as Hst'.
    rewrite Ha in Hst'. simpl in Hst'. rewrite Hset in Hst'. specialize (Hst' eq_refl).
    destruct (attempts s !! call_database c) as [a'|]; [|done]. exists a'. by simplify_eq/=.
  - case_bool_decide as Hset; [|done]. intros [= <-]. destruct Hr as [Hcon Hcal Hnext Hdb Hst Htold].
    assert (Hnone : calls r !! next_call r = None).
    { destruct (calls r !! next_call r) as [c|] eqn:Hc; [|done]. specialize (Hnext (next_call r) ltac:(by eexists)). lia. }
    unfold start_call. set (u := bool_decide _). constructor; simpl; [done| | | | |].
    + apply map_Forall_insert_2; [|done]. destruct u; constructor; simpl; naive_solver.
    + intros k [->|Hk]%lookup_insert_is_Some'; [lia|]. specialize (Hnext k Hk). lia.
    + intros k c [[<- <-]|[_ Hk]]%lookup_insert_Some; [|by eapply Hdb].
      destruct (attempts (connection r) !! n) as [a|] eqn:Ha; [|done]. exists a. simplify_eq/=. by destruct u.
    + rewrite stalled_count_new; [done..|]. by destruct u.
    + done.
Qed.

Lemma running_ok o r : running o r -> runner_ok o r.
Proof.
  induction 1 as [|r r' e _ IH Hstep]; [|by eapply runner_step_ok].
  constructor; simpl.
  - apply connected_fresh.
  - apply map_Forall_empty.
  - intros k. rewrite lookup_empty. by intros [].
  - intros k c. by rewrite lookup_empty.
  - done.
  - by right.
Qed.

(** ** What a call's answer means *)

(** C33: a write's answer is its outcome. However the body, the engine, the deadline and
    the connection interleave, a write answers a result exactly when its transaction has
    committed with that result, and an error - the timeout included - only when the
    transaction was rolled back or never began: an error never hides a commit, and a
    committed write is never left unanswered. *)
Theorem write_answers_truly o r k c :
  running o r -> calls r !! k = Some c -> readwrite c = true ->
  (forall a, outcome c = Some (inl a) <-> status c = Committed /\ work c = Some (inl a)) /\
  (forall e, outcome c = Some (inr e) -> status c = Aborted \/ status c = NoTransaction) /\
  (status c = Committed -> exists a, outcome c = Some (inl a)).
Proof.
  intros Hr%running_ok Hk Hrw. pose proof (ok_calls _ _ Hr k c Hk) as Hc. simpl in Hc.
  assert (Hcd : status c = Committed -> exists a, work c = Some (inl a) /\ outcome c = Some (inl a)).
  { intros H. destruct (call_committed _ Hc H) as (a & ? & [?|[? _]]); [by exists a|congruence]. }
  split; [|split].
  - intros a. split.
    + intros Ho. destruct (status c) eqn:Hs.
      * destruct (call_aborted _ Hc (or_intror Hs)). congruence.
      * destruct (call_open _ Hc Hs). congruence.
      * destruct (call_committing _ Hc Hs) as (_ & _ & _ & Hno). by destruct (Hno a).
      * destruct (Hcd eq_refl) as (b & ? & ?). split; [done|]. congruence.
      * destruct (call_aborted _ Hc (or_introl Hs)). congruence.
    + intros [Hs Hw]. destruct (Hcd Hs) as (b & ? & ?). congruence.
  - intros e Ho. destruct (status c) eqn:Hs; auto.
    + destruct (call_open _ Hc Hs). congruence.
    + destruct (call_committing _ Hc Hs) as (_ & _ & Hno & _). specialize (Hno Hrw). congruence.
    + destruct (Hcd eq_refl) as (b & ? & ?). congruence.
  - intros Hs. destruct (Hcd Hs) as (b & ? & ?). by exists b.
Qed.

(** no call waits in silence. An unanswered call's deadline is armed, or the call is
    a write past aborting whose deadline has passed, and then the person has been told
    that a write is waiting; that warning stands exactly while there are such writes,
    and the last of them to be answered takes it down. *)
Theorem pending_is_watched o r :
  running o r ->
  (forall k c, calls r !! k = Some c -> outcome c = None ->
     deadline c = true \/ is_stalled c = true /\ readwrite c = true /\ status c = Committing) /\
  stalledWrites r = stalled_count (calls r) /\
  (last (told r) = Some true <-> exists k c, calls r !! k = Some c /\ is_stalled c = true).
Proof.
  intros Hr%running_ok. split; [|split; [by apply Hr|]].
  - intros k c Hk Ho. pose proof (ok_calls _ _ Hr k c Hk) as Hc. simpl in Hc.
    rewrite (call_watched _ Hc Ho). destruct (stalledWrite c) eqn:Hs; [right|by left].
    split; [unfold is_stalled; by rewrite Hs, Ho|]. split; [by apply (call_stalled _ Hc)|].
    destruct (status c) eqn:Hst; try done.
    + destruct (call_aborted _ Hc (or_intror Hst)). congruence.
    + destruct (call_open _ Hc Hst) as (_ & _ & ? & _). congruence.
    + destruct (call_committed _ Hc Hst) as (a & _ & [?|[_ [? ?]]]); congruence.
    + destruct (call_aborted _ Hc (or_introl Hst)). congruence.
  - pose proof (ok_told _ _ Hr) as Ht. rewrite (ok_stalled _ _ Hr) in Ht. split.
    + intros Hl. destruct Ht as [[_ Ht]|[? _]]; [|done]. unfold stalled_count in Ht.
      destruct (map_choose (filter (fun kc : nat * Call => is_stalled kc.2 = true) (calls r))) as (k & c & Hkc).
      { intros E. rewrite E, map_size_empty in Ht. lia. }
      apply map_lookup_filter_Some in Hkc as [Hk Hc]. by exists k, c.
    + intros (k & c & Hk & Hc). destruct Ht as [[? _]|[_ Ht]]; [done|].
      rewrite (stalled_count_split _ k c Hk), Hc in Ht. simpl in Ht. lia.
Qed.
End runner.

(** A write whose commit outlasts its deadline: the person is told, then it commits. *)
Definition slow_commit : list (runner_event (A := nat)) :=
  [TConnection (EOpen None); TConnection (ESuccess 0); TStart 0 true; TWork 0 (inl 7); TCommit 0; TDeadline 0].

Lemma write_answers_truly_witness :
  match runner_run plain_outbox (slow_commit ++ [TComplete 0]) idle_runner with
  | Some r =>
      told r = [true; false] /\ isOpen (connection r) = false /\
      exists c, calls r !! 0 = Some c /\ outcome c = Some (inl 7) /\
        (forall a, outcome c = Some (inl a) <-> status c = Committed /\ work c = Some (inl a)) /\
        (forall e, outcome c = Some (inr e) -> status c = Aborted \/ status c = NoTransaction) /\
        (status c = Committed -> exists a, outcome c = Some (inl a))
  | None => False
  end.
Proof.
  destruct (runner_run _ _ _) as [r|] eqn:Hr; [|by vm_compute in Hr].
  pose proof (running_run _ _ _ _ (running_idle _) Hr) as Hc.
  vm_compute in Hr. injection Hr as <-. split; [by vm_compute|]. split; [by vm_compute|].
  eexists. split; [by vm_compute|]. split; [by vm_compute|].
  by apply (write_answers_truly plain_outbox _ 0 _ Hc).
Defined.

Lemma pending_is_watched_witness :
  match runner_run plain_outbox slow_commit idle_runner with
  | Some r =>
      last (told r) = Some true /\
      (forall k c, calls r !! k = Some c -> outcome c = None ->
         deadline c = true \/ is_stalled c = true /\ readwrite c = true /\ status c = Committing) /\
      stalledWrites r = stalled_count (calls r) /\
      (last (told r) = Some true <-> exists k c, calls r !! k = Some c /\ is_stalled c = true)
  | None => False
  end.
Proof.
  destruct (runner_run _ _ _) as [r|] eqn:Hr; [|by vm_compute in Hr].
  pose proof (running_run _ _ _ _ (running_idle _) Hr) as Hc. split.
  - vm_compute in Hr. injection Hr as <-. by vm_compute.
  - apply (pending_is_watched plain_outbox r Hc).
Defined.
