(* ===== verification/NativeOutbox.v ===== *)
(** The native client's durable outbox: MutationOutboxSQLite
    (mobile-native/src/mutationOutboxStorage.ts) over the connection of Sql.

    Three tables hold rows keyed by client_mutation_id; a record's current table
    is its state. A fourth holds one row per target: its last allocated
    sequence, its stop epoch and its recovery-resend receipts. Every method is
    the program of SQL statements the source runs, in its order, inside a
    savepoint where the source opens one. JSON columns hold the values
    [JSON.stringify] and [JSON.parse] carry back and forth. *)

From S2P Require Import Prelude JsString Json Sql Records.

Local Open Scope string_scope.
Local Open Scope sql_scope.

(** ** Schema *)

Inductive table := outbox | optimistic | recovery.

#[export] Instance table_eq_dec : EqDecision table.
Proof. solve_decision. Defined.

(** [Object.values(TABLES)]. *)
Definition TABLES : list table := [outbox; optimistic; recovery].

Record Row := mkRow {
  client_mutation_id : string;
  row_version : Z;
  origin_client_id : option string;
  target_ref : string;
  thread_id : option string;
  instance_id : option string;
  row_method : string;
  row_payload : json_object;
  row_attachments : list MutationAttachmentRef;
  optimistic_display : json;
  composer_text : option string;
  composer_mentions : option (list ComposerMention);
  draft_capture_token : option string;
  intent_sequence : Z;
  created_at : Z;
  row_state : RecordState;
  row_attempted : bool;
  stop_epoch_at_enqueue : Z;
  unresolved_attempts : Z;
  accepted_at : Z;
  recovery_kind : option MutationRecoveryKind;
  recovery_reason : option string
}.

Record RecoveryResendCommit := mkResend {
  resend_targetRef : string;
  sourceIds : list string;
  resend_clientMutationId : string
}.

(** A row of mutation_sequence. *)
Record SequenceRow := mkSequence {
  last_sequence : Z;
  stop_epoch : Z;
  recovery_resends : list RecoveryResendCommit
}.

Record db := mkDb {
  t_outbox : gmap string Row;
  t_optimistic : gmap string Row;
  t_recovery : gmap string Row;
  sequences : gmap string SequenceRow
}.

Definition empty_db : db := mkDb ∅ ∅ ∅ ∅.

Definition tbl (t : table) (d : db) : gmap string Row :=
  match t with outbox => t_outbox d | optimistic => t_optimistic d | recovery => t_recovery d end.

Definition set_tbl (t : table) (m : gmap string Row) (d : db) : db :=
  match t with
  | outbox => mkDb m (t_optimistic d) (t_recovery d) (sequences d)
  | optimistic => mkDb (t_outbox d) m (t_recovery d) (sequences d)
  | recovery => mkDb (t_outbox d) (t_optimistic d) m (sequences d)
  end.

Definition set_sequences (m : gmap string SequenceRow) (d : db) : db :=
  mkDb (t_outbox d) (t_optimistic d) (t_recovery d) m.

(** The UNIQUE INDEX on (target_ref, intent_sequence) of a table that has one. *)
Definition sequence_key (r : Row) : string * Z := (target_ref r, intent_sequence r).

Definition unique_index (m : gmap string Row) : Prop :=
  map_Forall (fun i r => map_Forall (fun j s => sequence_key r = sequence_key s -> i = j) m) m.

Definition indexed (t : table) : bool := match t with recovery => false | _ => true end.

Definition index_ok (t : table) (m : gmap string Row) : bool :=
  negb (indexed t) || bool_decide (unique_index m).

(** ** Rows and records *)

Definition row_update_state (s : RecordState) (r : Row) : Row :=
  mkRow (client_mutation_id r) (row_version r) (origin_client_id r) (target_ref r) (thread_id r)
    (instance_id r) (row_method r) (row_payload r) (row_attachments r) (optimistic_display r)
    (composer_text r) (composer_mentions r) (draft_capture_token r) (intent_sequence r)
    (created_at r) s (row_attempted r) (stop_epoch_at_enqueue r) (unresolved_attempts r)
    (accepted_at r) (recovery_kind r) (recovery_reason r).

(** SET attempted = ?, unresolved_attempts = ?. *)
Definition row_update_attempts (a : bool) (u : Z) (r : Row) : Row :=
  mkRow (client_mutation_id r) (row_version r) (origin_client_id r) (target_ref r) (thread_id r)
    (instance_id r) (row_method r) (row_payload r) (row_attachments r) (optimistic_display r)
    (composer_text r) (composer_mentions r) (draft_capture_token r) (intent_sequence r)
    (created_at r) (row_state r) a (stop_epoch_at_enqueue r) u
    (accepted_at r) (recovery_kind r) (recovery_reason r).

Definition row_update_epoch (e : Z) (r : Row) : Row :=
  mkRow (client_mutation_id r) (row_version r) (origin_client_id r) (target_ref r) (thread_id r)
    (instance_id r) (row_method r) (row_payload r) (row_attachments r) (optimistic_display r)
    (composer_text r) (composer_mentions r) (draft_capture_token r) (intent_sequence r)
    (created_at r) (row_state r) (row_attempted r) e (unresolved_attempts r)
    (accepted_at r) (recovery_kind r) (recovery_reason r).

Definition row_update_sequence (n : Z) (r : Row) : Row :=
  mkRow (client_mutation_id r) (row_version r) (origin_client_id r) (target_ref r) (thread_id r)
    (instance_id r) (row_method r) (row_payload r) (row_attachments r) (optimistic_display r)
    (composer_text r) (composer_mentions r) (draft_capture_token r) n
    (created_at r) (row_state r) (row_attempted r) (stop_epoch_at_enqueue r) (unresolved_attempts r)
    (accepted_at r) (recovery_kind r) (recovery_reason r).

Definition row_update_accepted_at (n : Z) (r : Row) : Row :=
  mkRow (client_mutation_id r) (row_version r) (origin_client_id r) (target_ref r) (thread_id r)
    (instance_id r) (row_method r) (row_payload r) (row_attachments r) (optimistic_display r)
    (composer_text r) (composer_mentions r) (draft_capture_token r) (intent_sequence r)
    (created_at r) (row_state r) (row_attempted r) (stop_epoch_at_enqueue r) (unresolved_attempts r)
    n (recovery_kind r) (recovery_reason r).

(** SET target_ref = ?, payload = ?, thread_id = COALESCE(?, thread_id),
    instance_id = COALESCE(?, instance_id). *)
Definition row_update_route (ref : string) (p : json_object) (thread instance : option string)
    (r : Row) : Row :=
  mkRow (client_mutation_id r) (row_version r) (origin_client_id r) ref
    (match thread with Some x => Some x | None => thread_id r end)
    (match instance with Some x => Some x | None => instance_id r end)
    (row_method r) p (row_attachments r) (optimistic_display r)
    (composer_text r) (composer_mentions r) (draft_capture_token r) (intent_sequence r)
    (created_at r) (row_state r) (row_attempted r) (stop_epoch_at_enqueue r) (unresolved_attempts r)
    (accepted_at r) (recovery_kind r) (recovery_reason r).

Definition fromRow (row : Row) : MutationRecord :=
  let outbox_only {A} (v : A) : option A :=
    if state_eqb (row_state row) accepted then None else Some v in
  {| intent :=
       {| targetRef := target_ref row;
          threadId := thread_id row;
          instanceId := instance_id row;
          method := row_method row;
          payload := row_payload row;
          attachments := row_attachments row;
          optimisticDisplay :=
            match optimistic_display row with JNull => None | v => Some v end;
          composerText := composer_text row;
          composerMentions := composer_mentions row;
          compositionOwnerId := None;
          draftCaptureToken := draft_capture_token row;
          preserveComposer := None |};
     version := row_version row;
     clientMutationId := client_mutation_id row;
     originClientId := origin_client_id row;
     intentSequence := intent_sequence row;
     createdAt := created_at row;
     state := row_state row;
     attempted := outbox_only (row_attempted row);
     unresolvedAttempts := outbox_only (unresolved_attempts row);
     displayedRef := None;
     displayedStopEpochAtEnqueue := None;
     stopEpochAtEnqueue := outbox_only (stop_epoch_at_enqueue row);
     stopFenced := None;
     recoveryKind := recovery_kind row;
     compositionRevision := None;
     localDraftRevisionId := None;
     recoveryReason := match recovery_kind row with Some _ => recovery_reason row | None => None end |}.

(** The COLUMNS an INSERT writes; unresolved_attempts and accepted_at are not
    among them, so they come from the column default or the replaced row. *)
Definition insertValues (record : MutationRecord) (unresolved acceptedAt : Z) : Row :=
  {| client_mutation_id := clientMutationId record;
     row_version := version record;
     origin_client_id := originClientId record;
     target_ref := targetRef record;
     thread_id := threadId record;
     instance_id := instanceId record;
     row_method := method record;
     row_payload := payload record;
     row_attachments := attachments record;
     optimistic_display := default JNull (optimisticDisplay record);
     composer_text := composerText record;
     composer_mentions := composerMentions record;
     draft_capture_token := draftCaptureToken record;
     intent_sequence := intentSequence record;
     created_at := createdAt record;
     row_state := state record;
     row_attempted := default false (attempted record);
     stop_epoch_at_enqueue := default 0%Z (stopEpochAtEnqueue record);
     unresolved_attempts := unresolved;
     accepted_at := acceptedAt;
     recovery_kind := recoveryKind record;
     recovery_reason := recoveryReason record |}.

(** ** Statements *)

Notation stmt A := (sql db A).

Definition UNIQUE_FAILED : js_error := Error "UNIQUE constraint failed".

(** Commit a table's new contents when its unique index allows them. *)
Definition write_table {A} (t : table) (m : gmap string Row) (a : A) (d : db) : (db * A) + js_error :=
  if index_ok t m then inl (set_tbl t m d, a) else inr UNIQUE_FAILED.

(** SELECT * FROM t WHERE client_mutation_id = ?. *)
Definition select_row (t : table) (id : string) : stmt (option Row) :=
  Stmt (fun d => inl (d, tbl t d !! id)).

Definition rows_where (P : Row -> bool) (m : gmap string Row) : list Row :=
  filter (fun r => P r = true) ((map_to_list m).*2).

(** SELECT * FROM t WHERE ... ORDER BY intent_sequence. *)
Definition select_ordered (t : table) (P : Row -> bool) : stmt (list Row) :=
  Stmt (fun d => inl (d, sort_by intent_sequence (rows_where P (tbl t d)))).

(** UPDATE t SET ... WHERE client_mutation_id = ? AND ...; the count of changed
    rows. The new row may read the rest of the database (a scalar subquery). *)
Definition update_row (t : table) (id : string) (P : Row -> bool) (f : db -> Row -> Row) : stmt Z :=
  Stmt (fun d =>
    match tbl t d !! id with
    | Some r => if P r then write_table t (<[id := f d r]> (tbl t d)) 1%Z d else inl (d, 0%Z)
    | None => inl (d, 0%Z)
    end).

(** UPDATE t SET ... WHERE ... over the whole table, RETURNING the new rows. *)
Definition update_where (t : table) (P : Row -> bool) (f : Row -> Row) : stmt (list Row) :=
  Stmt (fun d =>
    write_table t ((fun r => if P r then f r else r) <$> tbl t d)
      (f <$> rows_where P (tbl t d)) d).

(** DELETE FROM t WHERE client_mutation_id = ? AND ... *)
Definition delete_row (t : table) (id : string) (P : Row -> bool) : stmt Z :=
  Stmt (fun d =>
    match tbl t d !! id with
    | Some r => if P r then inl (set_tbl t (delete id (tbl t d)) d, 1%Z) else inl (d, 0%Z)
    | None => inl (d, 0%Z)
    end).

(** DELETE FROM t WHERE ..., RETURNING the deleted rows. *)
Definition delete_where (t : table) (P : Row -> bool) : stmt (list Row) :=
  Stmt (fun d =>
    inl (set_tbl t (filter (fun ir => P ir.2 = false) (tbl t d)) d, rows_where P (tbl t d))).

(** ** Row plumbing *)

(** [get]. *)
Definition get (t : table) (id : string) : stmt (option MutationRecord) :=
  r ← select_row t id; Ret (fromRow <$> r).

(** [delete]. *)
Definition delete_from (t : table) (id : string) : stmt bool :=
  n ← delete_row t id (fun _ => true); Ret (0 <? n)%Z.

(** [insertNew]: INSERT, which a present primary key refuses. *)
Definition insertNew (t : table) (record : MutationRecord) : stmt unit :=
  Stmt (fun d =>
    match tbl t d !! clientMutationId record with
    | Some _ => inr UNIQUE_FAILED
    | None => write_table t (<[clientMutationId record := insertValues record 0 0]> (tbl t d)) tt d
    end).

(** [replace]: INSERT ... ON CONFLICT (client_mutation_id) DO UPDATE of every
    listed column. *)
Definition replace (t : table) (record : MutationRecord) : stmt unit :=
  Stmt (fun d =>
    let row := match tbl t d !! clientMutationId record with
               | Some old => insertValues record (unresolved_attempts old) (accepted_at old)
               | None => insertValues record 0 0
               end in
    write_table t (<[clientMutationId record := row]> (tbl t d)) tt d).

(** [list]. *)
Definition list_rows (t : table) (ref : option string) : stmt (list MutationRecord) :=
  rows ← select_ordered t (fun r => match ref with Some x => String.eqb (target_ref r) x | None => true end);
  Ret (fromRow <$> rows).

Definition sequence_of (ref : string) (d : db) : SequenceRow :=
  default (mkSequence 0 0 []) (sequences d !! ref).

(** [allocateSequence]: INSERT (ref, 1) ON CONFLICT last_sequence + 1 RETURNING
    last_sequence. *)
Definition allocateSequence (ref : string) : stmt Z :=
  Stmt (fun d =>
    let s := sequence_of ref d in
    let n := (last_sequence s + 1)%Z in
    inl (set_sequences (<[ref := mkSequence n (stop_epoch s) (recovery_resends s)]> (sequences d)) d, n)).

(** [stopEpochOf]. *)
Definition stop_epoch_of (ref : string) (d : db) : Z := stop_epoch (sequence_of ref d).
Definition stopEpochOf (ref : string) : stmt Z := Stmt (fun d => inl (d, stop_epoch_of ref d)).

(** INSERT (ref, 0, 1) ON CONFLICT stop_epoch + 1. *)
Definition bumpStopEpoch (ref : string) : stmt unit :=
  Stmt (fun d =>
    let s := sequence_of ref d in
    inl (set_sequences
           (<[ref := mkSequence (last_sequence s) (stop_epoch s + 1) (recovery_resends s)]> (sequences d)) d, tt)).

Definition recoveryResendsOf (ref : string) : stmt (list RecoveryResendCommit) :=
  Stmt (fun d => inl (d, recovery_resends (sequence_of ref d))).

(** UPDATE, and INSERT (ref, 0, receipts) when no row was there to update. *)
Definition writeRecoveryResends (ref : string) (receipts : list RecoveryResendCommit) : stmt unit :=
  updated ← Stmt (fun d =>
    match sequences d !! ref with
    | Some s => inl (set_sequences
                       (<[ref := mkSequence (last_sequence s) (stop_epoch s) receipts]> (sequences d)) d, 1%Z)
    | None => inl (d, 0%Z)
    end);
  if (updated =? 0)%Z
  then Stmt (fun d => inl (set_sequences (<[ref := mkSequence 0 0 receipts]> (sequences d)) d, tt))
  else Ret tt.

Definition ID_ACTIVE (id : string) : js_error :=
  Error ("clientMutationId is already active in the mutation outbox: " ++ id).

(** [assertMutationIdAvailable]. *)
Fixpoint assert_available (ts : list table) (id : string) : stmt unit :=
  match ts with
  | [] => Ret tt
  | t :: ts' =>
      r ← get t id;
      match r with
      | Some _ => Throw (ID_ACTIVE id)
      | None => assert_available ts' id
      end
  end.
Definition assertMutationIdAvailable (id : string) : stmt unit := assert_available TABLES id.

(** [discardSupersededNoteRecovery]. *)
Definition discardSupersededNoteRecovery (source : MutationRecord) : stmt unit :=
  if negb (String.eqb (method source) NOTES_HUMAN_SET) then Ret tt
  else
    delete_where recovery (fun r =>
      String.eqb (row_method r) NOTES_HUMAN_SET && String.eqb (target_ref r) (targetRef source) &&
      (intent_sequence r <? intentSequence source)%Z) ;;
    Ret tt.

(** ** Enqueue and Stop *)

(** What the injected host functions answer during one call: the fresh id, the
    clock and the submitting client's id. *)
Record Host := mkHost {
  createMutationId : string;
  now : Z;
  getOwnClientId : option string
}.

Definition with_payload (p : json_object) (i : MutationIntent) : MutationIntent :=
  mkIntent (targetRef i) (threadId i) (instanceId i) (method i) p (attachments i)
    (optimisticDisplay i) (composerText i) (composerMentions i) (compositionOwnerId i)
    (draftCaptureToken i) (preserveComposer i).

(** The record literal both enqueues build. *)
Definition newRecord (host : Host) (i : MutationIntent) (sequence : Z) (st : RecordState)
    (stopEpoch : Z) : MutationRecord :=
  let id := createMutationId host in
  {| intent := with_payload (obj_set "clientMutationId" (JStr id) (payload i)) i;
     version := 1;
     clientMutationId := id;
     originClientId := getOwnClientId host;
     intentSequence := sequence;
     createdAt := now host;
     state := st;
     attempted := Some false;
     unresolvedAttempts := None;
     displayedRef := None;
     displayedStopEpochAtEnqueue := None;
     stopEpochAtEnqueue := Some stopEpoch;
     stopFenced := None;
     recoveryKind := None;
     compositionRevision := None;
     localDraftRevisionId := None;
     recoveryReason := None |}.

(** [MutationStopBarrier]: the stop epoch the click observed. *)
Definition crossed (barrier : option Z) (stopEpoch : Z) : bool :=
  match barrier with Some b => (b <? stopEpoch)%Z | None => false end.

Definition enqueueRecord (host : Host) (i : MutationIntent) (barrier : option Z) : stmt MutationRecord :=
  stopEpoch ← stopEpochOf (targetRef i);
  let canceledByBarrier := crossed barrier stopEpoch in
  sequence ← allocateSequence (targetRef i);
  assertMutationIdAvailable (createMutationId host) ;;
  let record := newRecord host i sequence (if canceledByBarrier then canceled else submitting) stopEpoch in
  insertNew outbox record ;;
  Ret record.

Definition TARGET_REQUIRED : js_error := Error "targetRef is required".

Definition enqueueIntent (host : Host) (i : MutationIntent) (barrier : option Z) : stmt MutationRecord :=
  if blank (targetRef i) then Throw TARGET_REQUIRED
  else withSavepoint "mutation_outbox_enqueue" (enqueueRecord host i barrier).

Definition is_in_play (s : RecordState) : bool :=
  match s with submitting | blockedUnknown => true | _ => false end.

(** The rows a Stop may honestly cancel. *)
Definition cancelable (ref : string) (r : Row) : bool :=
  String.eqb (target_ref r) ref && is_in_play (row_state r) && negb (row_attempted r).

Definition enqueueInterruptAndCancel (host : Host) (i : MutationIntent) : stmt MutationRecord :=
  if blank (targetRef i) then Throw TARGET_REQUIRED
  else withSavepoint "mutation_outbox_enqueue_interrupt" (
    update_where outbox (cancelable (targetRef i)) (row_update_state canceled) ;;
    bumpStopEpoch (targetRef i) ;;
    sequence ← allocateSequence (targetRef i);
    assertMutationIdAvailable (createMutationId host) ;;
    stopEpoch ← stopEpochOf (targetRef i);
    let record := newRecord host i sequence submitting stopEpoch in
    insertNew outbox record ;;
    Ret record).

Definition readStopEpoch (ref : string) : stmt Z := stopEpochOf ref.

(** ** Attempt evidence *)

(** [#seedLegacyAttemptCount]. *)
Definition seedLegacyAttemptCount (id : string) : stmt unit :=
  update_row outbox id (fun r => row_attempted r && (unresolved_attempts r =? 0)%Z)
    (fun _ r => row_update_attempts (row_attempted r) 1 r) ;;
  Ret tt.

Definition is_state (s : RecordState) (r : Row) : bool := state_eqb (row_state r) s.

Definition markAttempted (id : string) : stmt bool :=
  seedLegacyAttemptCount id ;;
  update_row outbox id (fun r => is_state submitting r && (stop_epoch_at_enqueue r =? 0)%Z)
    (fun d r => row_update_epoch (stop_epoch_of (target_ref r) d) r) ;;
  n ← update_row outbox id (is_state submitting)
    (fun _ r => row_update_attempts true (unresolved_attempts r + 1) r);
  Ret (0 <? n)%Z.

Definition unmarkAttempted (id : string) : stmt bool :=
  seedLegacyAttemptCount id ;;
  row ← select_row outbox id;
  match row with
  | Some r =>
      match row_state r with
      | blockedUnknown =>
          if (1 <? unresolved_attempts r)%Z then
            update_row outbox id (is_state blockedUnknown)
              (fun _ r => row_update_attempts (row_attempted r) (unresolved_attempts r - 1) r) ;;
            Ret false
          else
            epoch ← stopEpochOf (target_ref r);
            let stopInterrupted := (stop_epoch_at_enqueue r <? epoch)%Z in
            update_row outbox id (is_state blockedUnknown)
              (fun _ r => row_update_attempts false 0
                 (row_update_state (if stopInterrupted then canceled else submitting) r)) ;;
            Ret (negb stopInterrupted)
      | submitting =>
          let unresolvedAttempts := Z.max 0 (unresolved_attempts r - 1) in
          (* && short-circuits: the epoch is read only at a zero count *)
          stopped ← (if (unresolvedAttempts =? 0)%Z
                     then epoch ← stopEpochOf (target_ref r); Ret (stop_epoch_at_enqueue r <? epoch)%Z
                     else Ret false);
          if (stopped : bool) then
            update_row outbox id (is_state submitting)
              (fun _ r => row_update_attempts false 0 (row_update_state canceled r)) ;;
            Ret false
          else
            update_row outbox id (is_state submitting)
              (fun _ r => row_update_attempts (0 <? unresolvedAttempts)%Z unresolvedAttempts r) ;;
            Ret (unresolvedAttempts =? 0)%Z
      | _ => Ret false
      end
  | None => Ret false
  end.

Definition double_quote : string := String (Ascii.ascii_of_nat 34) "".
Definition MARK_UNKNOWN_STATE : js_error :=
  Error ("markUnknown only names " ++ double_quote ++ "blockedUnknown" ++ double_quote).

Definition markUnknown (id : string) (s : RecordState) (onlyAttempted : bool) : stmt bool :=
  if negb (state_eqb s blockedUnknown)
  then Throw MARK_UNKNOWN_STATE
  else
    n ← update_row outbox id
      (fun r => negb (is_state canceled r) && (negb onlyAttempted || row_attempted r))
      (fun _ r => row_update_state s r);
    Ret (0 <? n)%Z.

(** ** Settlement *)

Definition first_some {A} (a b : option A) : option A := match a with Some _ => a | None => b end.

Definition settleReceipt (host : Host) (id : string) (projectionState : string) : stmt bool :=
  withSavepoint "mutation_outbox_settle_receipt" (
    outboxRecord ← get outbox id;
    recoveryRecord ← get recovery id;
    optimisticRecord ← get optimistic id;
    match first_some outboxRecord (first_some recoveryRecord optimisticRecord) with
    | None => Ret false
    | Some source =>
        discardSupersededNoteRecovery source ;;
        (if retainsAcceptedCopy source projectionState then
           replace optimistic (acceptedRecord source) ;;
           update_row optimistic id (fun _ => true) (fun _ r => row_update_accepted_at (now host) r) ;;
           Ret tt
         else if optimisticRecord then delete_from optimistic id ;; Ret tt
         else Ret tt) ;;
        (if outboxRecord then delete_from outbox id ;; Ret tt else Ret tt) ;;
        (match recoveryRecord with
         | Some r => if settlementRetiresRecovery r then delete_from recovery id ;; Ret tt else Ret tt
         | None => Ret tt
         end) ;;
        Ret true
    end).

Definition settleApplied (id : string) : stmt (option MutationRecord) :=
  withSavepoint "mutation_outbox_settle_applied" (
    outboxRecord ← get outbox id;
    optimisticRecord ← get optimistic id;
    recoveryRecord ← get recovery id;
    match first_some outboxRecord (first_some optimisticRecord recoveryRecord) with
    | None => Ret None
    | Some source =>
        discardSupersededNoteRecovery source ;;
        r1 ← delete_from outbox id;
        r2 ← delete_from optimistic id;
        r3 ← delete_from recovery id;
        Ret (if (r1 : bool) || (r2 : bool) || (r3 : bool) then Some source else None)
    end).

(** [{...record, recoveryKind, recoveryReason}]. *)
Definition with_recovery (kind : MutationRecoveryKind) (reason : option string)
    (r : MutationRecord) : MutationRecord :=
  mkRecord (intent r) (version r) (clientMutationId r) (originClientId r) (intentSequence r)
    (createdAt r) (state r) (attempted r) (unresolvedAttempts r) (displayedRef r)
    (displayedStopEpochAtEnqueue r) (stopEpochAtEnqueue r) (stopFenced r)
    (Some kind) (compositionRevision r) (localDraftRevisionId r) reason.

Definition transferToRecovery (id : string) (kind : MutationRecoveryKind) (reason : option string) :
    stmt (option MutationRecord) :=
  withSavepoint "mutation_outbox_transfer_recovery" (
    record ← get outbox id;
    match record with
    | None => Ret None
    | Some r =>
        let moved := with_recovery kind reason r in
        replace recovery moved ;;
        delete_from outbox id ;;
        Ret (Some moved)
    end).

(** ** Retargeting *)

(** The [to] argument: the ref a resume returned and its wire identity. *)
Record Retarget := mkRetarget {
  to_ref : string;
  to_wireRef : string;
  to_threadId : option string;
  to_instanceId : option string
}.

Definition RETARGET_REQUIRED : js_error := Error "retarget ref is required".

(** [to.instanceId ?? to.threadId]. *)
Definition fence_of (to : Retarget) : option string := first_some (to_instanceId to) (to_threadId to).

(** The payload rewrite both loops apply. *)
Definition rewrite_payload (to : Retarget) (p : json_object) : json_object :=
  let p1 := match as_string (obj_get "ref" p) with
            | Some _ => obj_set "ref" (JStr (to_wireRef to)) p
            | None => p
            end in
  match fence_of to with
  | Some fence => obj_set "expectedInstanceId" (JStr fence) p1
  | None => p1
  end.

Fixpoint for_each {A} (l : list A) (f : A -> stmt unit) : stmt unit :=
  match l with
  | [] => Ret tt
  | x :: l' => f x ;; for_each l' f
  end.

(** [Map.set] on a Map keyed by clientMutationId, kept as its values in
    insertion order. *)
Fixpoint receipt_set (r : RecoveryResendCommit) (m : list RecoveryResendCommit) : list RecoveryResendCommit :=
  match m with
  | [] => [r]
  | r' :: m' =>
      if String.eqb (resend_clientMutationId r) (resend_clientMutationId r')
      then r :: m' else r' :: receipt_set r m'
  end.

Definition receipt_has (id : string) (m : list RecoveryResendCommit) : bool :=
  existsb (fun r => String.eqb id (resend_clientMutationId r)) m.

Definition merge_receipts (to : string) (source destination : list RecoveryResendCommit) :
    list RecoveryResendCommit :=
  fold_left
    (fun merged r =>
       if receipt_has (resend_clientMutationId r) merged then merged
       else receipt_set (mkResend to (sourceIds r) (resend_clientMutationId r)) merged)
    source
    (fold_left (fun merged r => receipt_set r merged) destination []).

(** SET target_ref = ?, intent_sequence = ? of an optimistic row. *)
Definition move_optimistic (to : Retarget) (row : Row) : stmt unit :=
  n ← allocateSequence (to_ref to);
  update_row optimistic (client_mutation_id row) (fun _ => true)
    (fun _ r => row_update_sequence n
       (row_update_route (to_ref to) (row_payload r) None None r)) ;;
  Ret tt.

Definition move_recovery (to : Retarget) (row : Row) : stmt unit :=
  update_row recovery (client_mutation_id row) (fun _ => true)
    (fun _ r => row_update_route (to_ref to) (rewrite_payload to (row_payload row))
       (to_threadId to) (fence_of to) r) ;;
  Ret tt.

Definition move_outbox (to : Retarget) (destinationEpoch : Z) (row : Row) : stmt unit :=
  n ← allocateSequence (to_ref to);
  update_row outbox (client_mutation_id row) (fun _ => true)
    (fun _ r => row_update_epoch destinationEpoch (row_update_sequence n
       (row_update_route (to_ref to) (rewrite_payload to (row_payload row))
          (to_threadId to) (fence_of to) r))) ;;
  Ret tt.

Definition at_ref (ref : string) (r : Row) : bool := String.eqb (target_ref r) ref.

Definition retarget (ref : string) (to : Retarget) : stmt (list string) :=
  if blank (to_ref to) then Throw RETARGET_REQUIRED
  else if String.eqb ref (to_ref to) then Ret []
  else withSavepoint "mutation_outbox_retarget" (
    rows ← select_ordered outbox (fun r => at_ref ref r && is_in_play (row_state r));
    match rows with
    | [] => Ret []
    | _ =>
        let ids := client_mutation_id <$> rows in
        sourceReceipts ← recoveryResendsOf ref;
        (match sourceReceipts with
         | [] => Ret tt
         | _ =>
             destinationReceipts ← recoveryResendsOf (to_ref to);
             writeRecoveryResends (to_ref to)
               (merge_receipts (to_ref to) sourceReceipts destinationReceipts) ;;
             writeRecoveryResends ref []
         end) ;;
        destinationEpoch ← stopEpochOf (to_ref to);
        optimisticRows ← select_ordered optimistic (at_ref ref);
        for_each optimisticRows (move_optimistic to) ;;
        recoveryRows ← select_ordered recovery (at_ref ref);
        for_each recoveryRows (move_recovery to) ;;
        for_each rows (move_outbox to destinationEpoch) ;;
        Ret ids
    end).

(** ** Reads *)

Definition listTargetRefs : stmt (list string) :=
  Stmt (fun d =>
    inl (d, sort_strings (remove_dups
      (target_ref <$> ((map_to_list (t_outbox d)).*2 ++ (map_to_list (t_optimistic d)).*2)%list)))).

Definition listOutbox (ref : option string) : stmt (list MutationRecord) := list_rows outbox ref.
Definition getOutbox (id : string) : stmt (option MutationRecord) := get outbox id.
Definition getOptimistic (id : string) : stmt (option MutationRecord) := get optimistic id.
Definition listOptimistic (ref : option string) : stmt (list MutationRecord) := list_rows optimistic ref.
Definition getRecovery (id : string) : stmt (option MutationRecord) := get recovery id.
Definition listRecovery (ref : string) : stmt (list MutationRecord) := list_rows recovery (Some ref).

Definition getOutboxWithStopEpoch (id : string) : stmt (option MutationRecord * Z) :=
  withSavepoint "mutation_outbox_snapshot" (
    record ← get outbox id;
    match record with
    | Some r => epoch ← stopEpochOf (targetRef r); Ret (Some r, epoch)
    | None => Ret (None, 0%Z)
    end).

(** The FIFO head of a target: its lowest-sequence row still in play. *)
Definition nextDispatchable (ref : string) : stmt (option MutationRecord) :=
  rows ← select_ordered outbox (fun r => at_ref ref r && is_in_play (row_state r));
  match rows with
  | [] => Ret None
  | r :: _ => if is_state blockedUnknown r then Ret None else Ret (Some (fromRow r))
  end.

(** ** Queued message actions *)

Definition editQueuedMessage (expected : MutationRecord) (barrier : Z) : stmt (option MutationRecord) :=
  withSavepoint "mutation_outbox_edit" (
    record ← get outbox (clientMutationId expected);
    match record with
    | None => Ret None
    | Some r =>
        if negb (matchesQueuedMessageSnapshot r expected) || negb (canEditQueuedMessage r) then Ret None
        else
          epoch ← stopEpochOf (targetRef r);
          if negb (epoch =? barrier)%Z then Ret None
          else
            let moved := with_recovery editing (recoveryReason r) r in
            replace recovery moved ;;
            delete_from outbox (clientMutationId r) ;;
            Ret (Some moved)
    end).

Definition removeQueuedMessage (expected : MutationRecord) (barrier : Z) : stmt bool :=
  withSavepoint "mutation_outbox_remove" (
    record ← get outbox (clientMutationId expected);
    match record with
    | None => Ret false
    | Some r =>
        if negb (matchesQueuedMessageSnapshot r expected) || negb (canRemoveQueuedMessage r) then Ret false
        else
          epoch ← stopEpochOf (targetRef r);
          if negb (epoch =? barrier)%Z then Ret false
          else delete_from outbox (clientMutationId r)
    end).

(** Every source is a recovery row of the target. *)
Fixpoint sources_present (ids : list string) (ref : string) : stmt bool :=
  match ids with
  | [] => Ret true
  | id :: ids' =>
      source ← get recovery id;
      match source with
      | None => Ret false
      | Some s => if negb (String.eqb (targetRef s) ref) then Ret false else sources_present ids' ref
      end
  end.

Definition resendRecovery (host : Host) (sources : list string) (i : MutationIntent)
    (barrier : option Z) : stmt (option MutationRecord) :=
  if blank (targetRef i) then Throw TARGET_REQUIRED
  else withSavepoint "mutation_recovery_resend" (
    let ids := js_set sources in
    match ids with
    | [] => Ret None
    | _ =>
        present ← sources_present ids (targetRef i);
        if negb (present : bool) then Ret None
        else
          record ← enqueueRecord host i barrier;
          for_each ids (fun id => delete_from recovery id ;; Ret tt) ;;
          receipts ← recoveryResendsOf (targetRef i);
          writeRecoveryResends (targetRef i)
            (receipts ++ [mkResend (targetRef i) ids (clientMutationId record)])%list ;;
          Ret (Some record)
    end).

Definition readRecoveryResend (ref : string) (sources : list string) : stmt (option RecoveryResendCommit) :=
  receipts ← recoveryResendsOf ref;
  let ids := js_set sources in
  Ret (snd <$> list_find (fun r =>
    (List.length (sourceIds r) =? List.length ids)%nat && forallb (fun id => str_in id ids) (sourceIds r) = true) receipts).

Definition acknowledgeRecoveryResend (ref : string) (id : string) : stmt unit :=
  withSavepoint "mutation_recovery_acknowledge" (
    receipts ← recoveryResendsOf ref;
    writeRecoveryResends ref (filter (fun r => resend_clientMutationId r <> id) receipts)).

Definition discardRecovery (id ref : string) : stmt bool :=
  n ← delete_row recovery id (at_ref ref); Ret (0 <? n)%Z.

Definition discardUndelivered (id ref : string) : stmt bool :=
  n ← delete_row outbox id (fun r => at_ref ref r && (is_state blockedUnknown r || is_state canceled r));
  Ret (0 <? n)%Z.

Definition releaseCanceled (id ref : string) (barrier : Z) : stmt bool :=
  withSavepoint "mutation_outbox_release_canceled" (
    record ← get outbox id;
    match record with
    | None => Ret false
    | Some r =>
        if negb (state_eqb (state r) canceled) || negb (String.eqb (targetRef r) ref) then Ret false
        else
          epoch ← stopEpochOf ref;
          if (barrier <? epoch)%Z then Ret false
          else
            n ← allocateSequence ref;
            e ← stopEpochOf ref;
            update_row outbox id (fun _ => true)
              (fun _ r => row_update_epoch e (row_update_sequence n (row_update_state submitting r))) ;;
            Ret true
    end).

(** ** Reconciliation *)

Definition restoreProvenAbsent (ref : string) (authoritativeIds : list string) : stmt (list MutationRecord) :=
  withSavepoint "mutation_outbox_restore_absent" (
    restored ← update_where outbox
      (fun r => at_ref ref r && is_state blockedUnknown r &&
                negb (str_in (client_mutation_id r) authoritativeIds))
      (row_update_state submitting);
    Ret (fromRow <$> sort_by intent_sequence restored)).

Definition pruneUnlistedAccepted (ref : string) (acceptedBefore : Z) (authoritativeIds : list string) :
    stmt (list string) :=
  withSavepoint "mutation_optimistic_prune_unlisted" (
    prunable ← select_ordered optimistic (fun r =>
      at_ref ref r && is_state accepted r && (0 <? accepted_at r)%Z &&
      (accepted_at r <=? acceptedBefore)%Z && str_in (row_method r) PENDING_TURN_METHODS);
    let unlisted := filter (fun r => str_in (client_mutation_id r) authoritativeIds = false) prunable in
    match unlisted with
    | [] => Ret []
    | _ =>
        removed ← delete_where optimistic
          (fun r => str_in (client_mutation_id r) (client_mutation_id <$> unlisted));
        Ret (client_mutation_id <$> sort_by intent_sequence removed)
    end).
