(* ===== verification/NativeOutboxFacts.v ===== *)
(** Reasoning about the native outbox: what each statement does, the
    well-formedness invariant of the database and the rules that carry it
    through a program. *)

From S2P Require Import Prelude JsString Json Sql Records NativeOutbox.

Local Open Scope string_scope.

(** ** Tables *)

Lemma tbl_set_eq t m d : tbl t (set_tbl t m d) = m.
Proof. by destruct t. Qed.

Lemma tbl_set_ne t t' m d : t <> t' -> tbl t (set_tbl t' m d) = tbl t d.
Proof. by destruct t, t'. Qed.

Lemma tbl_set t t' m d : tbl t (set_tbl t' m d) = if decide (t = t') then m else tbl t d.
Proof. case_decide; [subst; apply tbl_set_eq|by apply tbl_set_ne]. Qed.

Lemma sequences_set_tbl t m d : sequences (set_tbl t m d) = sequences d.
Proof. by destruct t. Qed.

Lemma tbl_set_sequences t m d : tbl t (set_sequences m d) = tbl t d.
Proof. by destruct t. Qed.

Lemma set_tbl_same t d : set_tbl t (tbl t d) d = d.
Proof. by destruct t, d. Qed.

Lemma set_tbl_twice t m m' d : set_tbl t m (set_tbl t m' d) = set_tbl t m d.
Proof. by destruct t. Qed.

#[export] Hint Rewrite tbl_set_eq sequences_set_tbl tbl_set_sequences set_tbl_twice : db.

(** ** A weakest precondition for programs on a healthy database *)

(** [Q] holds of the outcome whenever the program returns; a throw claims
    nothing, since every caller's savepoint rolls it back. *)
Definition wp {A} (p : stmt A) (d : db) (Q : db -> A -> Prop) : Prop :=
  match exec p d with
  | (d', inl a) => Q d' a
  | (_, inr _) => True
  end.

Section wp_rules.
Context {A : Type} (d : db).

Lemma wp_mono (p : stmt A) (Q Q' : db -> A -> Prop) :
  wp p d Q -> (forall d' a, Q d' a -> Q' d' a) -> wp p d Q'.
Proof. unfold wp. destruct (exec p d) as [? [|]]; auto. Qed.

Lemma wp_ret (a : A) Q : wp (Ret a) d Q <-> Q d a.
Proof. done. Qed.

Lemma wp_throw e (Q : db -> A -> Prop) : wp (Throw e) d Q <-> True.
Proof. done. Qed.

Lemma wp_stmt (f : db -> (db * A) + js_error) Q :
  wp (Stmt f) d Q <-> match f d with inl (d', a) => Q d' a | inr _ => True end.
Proof. unfold wp. rewrite exec_stmt. by destruct (f d) as [[]|]. Qed.

Lemma wp_bind {B} (p : stmt A) (k : A -> stmt B) Q :
  wp (Bind p k) d Q <-> wp p d (fun d' a => wp (k a) d' Q).
Proof. unfold wp. rewrite exec_bind. by destruct (exec p d) as [? [|]]. Qed.

Lemma wp_savepoint (p : stmt A) Q : wp (Savepoint p) d Q <-> wp p d Q.
Proof. unfold wp. rewrite exec_savepoint. by destruct (exec p d) as [? [|]]. Qed.
End wp_rules.

Lemma elem_of_rows_where P r m :
  r ∈ rows_where P m <-> exists id, m !! id = Some r /\ P r = true.
Proof.
  unfold rows_where. rewrite list_elem_of_filter, list_elem_of_fmap. split.
  - intros [HP ([id r'] & -> & H%elem_of_map_to_list)]. by exists id.
  - intros (id & H & HP). split; [done|]. exists (id, r). by rewrite elem_of_map_to_list.
Qed.

Lemma wp_for_each {A} (I : db -> Prop) (f : A -> stmt unit) l d :
  (forall x d', x ∈ l -> I d' -> wp (f x) d' (fun d'' _ => I d'')) ->
  I d -> wp (for_each l f) d (fun d' _ => I d').
Proof.
  revert d. induction l as [|x l IH]; intros d Hf Hd; simpl; [by rewrite wp_ret|].
  rewrite wp_bind. eapply wp_mono; [apply Hf; [set_solver|done]|]. simpl.
  intros d' _ Hd'. apply IH; [|done]. intros y d'' Hy. apply Hf. set_solver.
Qed.

Lemma wp_for_each_seq {A} (I : db -> Prop) (f : A -> stmt unit) l d (Q : db -> unit -> Prop) :
  I d ->
  (forall x d', x ∈ l -> I d' -> wp (f x) d' (fun d'' _ => I d'')) ->
  (forall d', I d' -> Q d' tt) ->
  wp (for_each l f) d Q.
Proof.
  intros Hd Hf Hk. eapply wp_mono; [by apply (wp_for_each I)|]. intros d' []. apply Hk.
Qed.

Lemma wp_discardSuperseded source d Q :
  wp (discardSupersededNoteRecovery source) d Q <->
  Q (if String.eqb (method source) NOTES_HUMAN_SET then
       set_tbl recovery (filter (fun ir =>
         String.eqb (row_method ir.2) NOTES_HUMAN_SET &&
         String.eqb (target_ref ir.2) (targetRef source) &&
         (intent_sequence ir.2 <? intentSequence source)%Z = false) (t_recovery d)) d
     else d) tt.
Proof. unfold discardSupersededNoteRecovery. by destruct (String.eqb _ NOTES_HUMAN_SET). Qed.

Section wp_statements.
Context (d : db).

Lemma wp_select_row t id Q : wp (select_row t id) d Q <-> Q d (tbl t d !! id).
Proof. done. Qed.

Lemma wp_get t id Q : wp (get t id) d Q <-> Q d (fromRow <$> tbl t d !! id).
Proof. done. Qed.

Lemma wp_select_ordered t P Q :
  wp (select_ordered t P) d Q <-> Q d (sort_by intent_sequence (rows_where P (tbl t d))).
Proof. done. Qed.

Lemma wp_stopEpochOf ref Q : wp (stopEpochOf ref) d Q <-> Q d (stop_epoch_of ref d).
Proof. done. Qed.

Lemma wp_recoveryResendsOf ref Q :
  wp (recoveryResendsOf ref) d Q <-> Q d (recovery_resends (sequence_of ref d)).
Proof. done. Qed.

(** A keyed update: nothing without a matching row, else the replaced row. *)
Lemma wp_update_row t id P f Q :
  wp (update_row t id P f) d Q <->
  match tbl t d !! id with
  | Some r =>
      if P r then
        index_ok t (<[id := f d r]> (tbl t d)) = true ->
        Q (set_tbl t (<[id := f d r]> (tbl t d)) d) 1%Z
      else Q d 0%Z
  | None => Q d 0%Z
  end.
Proof.
  unfold update_row. rewrite wp_stmt. destruct (tbl t d !! id) as [r|]; [|done].
  destruct (P r); [|done]. unfold write_table.
  destruct (index_ok t _); naive_solver.
Qed.

Lemma wp_update_where t P (f : Row -> Row) Q :
  wp (update_where t P f) d Q <->
  (index_ok t ((fun r : Row => if P r then f r else r) <$> tbl t d) = true ->
   Q (set_tbl t ((fun r : Row => if P r then f r else r) <$> tbl t d) d)
     (f <$> rows_where P (tbl t d))).
Proof.
  unfold update_where. rewrite wp_stmt. unfold write_table.
  destruct (index_ok t _); naive_solver.
Qed.

Lemma wp_delete_row t id P Q :
  wp (delete_row t id P) d Q <->
  match tbl t d !! id with
  | Some r => if P r then Q (set_tbl t (delete id (tbl t d)) d) 1%Z else Q d 0%Z
  | None => Q d 0%Z
  end.
Proof.
  unfold delete_row. rewrite wp_stmt. destruct (tbl t d !! id) as [r|]; [by destruct (P r)|done].
Qed.

Lemma wp_delete_where t P Q :
  wp (delete_where t P) d Q <->
  Q (set_tbl t (filter (fun ir => P ir.2 = false) (tbl t d)) d) (rows_where P (tbl t d)).
Proof. done. Qed.

(** A keyed delete of the whole row, present or not. *)
Lemma wp_delete_from t id Q :
  wp (delete_from t id) d Q <->
  Q (set_tbl t (delete id (tbl t d)) d) (bool_decide (is_Some (tbl t d !! id))).
Proof.
  unfold delete_from. rewrite wp_bind, wp_delete_row.
  destruct (tbl t d !! id) as [r|] eqn:E; rewrite wp_ret; simpl.
  - done.
  - by rewrite delete_id, set_tbl_same.
Qed.

Lemma wp_insertNew t record Q :
  wp (insertNew t record) d Q <->
  (tbl t d !! clientMutationId record = None ->
   index_ok t (<[clientMutationId record := insertValues record 0 0]> (tbl t d)) = true ->
   Q (set_tbl t (<[clientMutationId record := insertValues record 0 0]> (tbl t d)) d) tt).
Proof.
  unfold insertNew. rewrite wp_stmt. destruct (tbl t d !! _); [naive_solver|].
  unfold write_table. destruct (index_ok t _); naive_solver.
Qed.

(** The row [replace] leaves: every listed column from the record, the two
    unlisted ones from the row it replaced. *)
Definition replaced (t : table) (record : MutationRecord) : Row :=
  match tbl t d !! clientMutationId record with
  | Some old => insertValues record (unresolved_attempts old) (accepted_at old)
  | None => insertValues record 0 0
  end.

Lemma wp_replace t record Q :
  wp (replace t record) d Q <->
  (index_ok t (<[clientMutationId record := replaced t record]> (tbl t d)) = true ->
   Q (set_tbl t (<[clientMutationId record := replaced t record]> (tbl t d)) d) tt).
Proof.
  unfold replace. rewrite wp_stmt. unfold write_table, replaced.
  destruct (index_ok t _); naive_solver.
Qed.

Lemma wp_allocateSequence ref Q :
  let s := sequence_of ref d in
  wp (allocateSequence ref) d Q <->
  Q (set_sequences (<[ref := mkSequence (last_sequence s + 1) (stop_epoch s) (recovery_resends s)]>
       (sequences d)) d) (last_sequence s + 1)%Z.
Proof. done. Qed.

Lemma wp_bumpStopEpoch ref Q :
  let s := sequence_of ref d in
  wp (bumpStopEpoch ref) d Q <->
  Q (set_sequences (<[ref := mkSequence (last_sequence s) (stop_epoch s + 1) (recovery_resends s)]>
       (sequences d)) d) tt.
Proof. done. Qed.

Lemma wp_writeRecoveryResends ref receipts Q :
  let s := sequence_of ref d in
  wp (writeRecoveryResends ref receipts) d Q <->
  Q (set_sequences (<[ref := mkSequence (last_sequence s) (stop_epoch s) receipts]> (sequences d)) d) tt.
Proof.
  unfold writeRecoveryResends, sequence_of. rewrite wp_bind, wp_stmt.
  by destruct (sequences d !! ref).
Qed.

Lemma wp_assertMutationIdAvailable id Q :
  wp (assertMutationIdAvailable id) d Q <->
  ((forall t, tbl t d !! id = None) -> Q d tt).
Proof.
  unfold assertMutationIdAvailable.
  assert (H : wp (assert_available TABLES id) d Q <->
    (Forall (fun t => tbl t d !! id = None) TABLES -> Q d tt)).
  { induction TABLES as [|t ts IH]; simpl.
    - rewrite wp_ret. split; [done|]. intros H; apply H; constructor.
    - rewrite wp_bind, wp_get, Forall_cons.
      destruct (tbl t d !! id); simpl; [rewrite wp_throw|rewrite IH]; naive_solver. }
  rewrite H. split; intros HQ Hn; apply HQ; [by repeat constructor|].
  unfold TABLES in Hn. rewrite !Forall_cons in Hn.
  by destruct Hn as (? & ? & ? & _); intros [].
Qed.
End wp_statements.

#[export] Hint Rewrite @wp_ret @wp_throw @wp_bind @wp_savepoint @wp_select_row @wp_get
  @wp_select_ordered @wp_stopEpochOf @wp_recoveryResendsOf @wp_update_row @wp_update_where
  @wp_delete_row @wp_delete_where @wp_delete_from @wp_insertNew @wp_replace
  @wp_allocateSequence @wp_bumpStopEpoch @wp_writeRecoveryResends
  @wp_assertMutationIdAvailable : wp.

(** Symbolic execution of the head statement of a [wp] goal. *)
Ltac wp_step :=
  cbv beta;
  lazymatch goal with
  | |- wp (Bind _ _) _ _ => rewrite wp_bind
  | |- wp (Ret _) _ _ => rewrite wp_ret
  | |- wp (Throw _) _ _ => rewrite wp_throw; exact I
  | |- wp (Savepoint _) _ _ => rewrite wp_savepoint
  | |- wp (withSavepoint _ _) _ _ => unfold withSavepoint; rewrite wp_savepoint
  | |- wp (get _ _) _ _ => rewrite wp_get
  | |- wp (select_row _ _) _ _ => rewrite wp_select_row
  | |- wp (select_ordered _ _) _ _ => rewrite wp_select_ordered
  | |- wp (stopEpochOf _) _ _ => rewrite wp_stopEpochOf
  | |- wp (recoveryResendsOf _) _ _ => rewrite wp_recoveryResendsOf
  | |- wp (update_row _ _ _ _) _ _ => rewrite wp_update_row
  | |- wp (update_where _ _ _) _ _ => rewrite wp_update_where
  | |- wp (delete_row _ _ _) _ _ => rewrite wp_delete_row
  | |- wp (delete_where _ _) _ _ => rewrite wp_delete_where
  | |- wp (delete_from _ _) _ _ => rewrite wp_delete_from
  | |- wp (insertNew _ _) _ _ => rewrite wp_insertNew
  | |- wp (replace _ _) _ _ => rewrite wp_replace
  | |- wp (allocateSequence _) _ _ => rewrite wp_allocateSequence
  | |- wp (bumpStopEpoch _) _ _ => rewrite wp_bumpStopEpoch
  | |- wp (writeRecoveryResends _ _) _ _ => rewrite wp_writeRecoveryResends
  | |- wp (assertMutationIdAvailable _) _ _ => rewrite wp_assertMutationIdAvailable
  | |- wp (if ?b then _ else _) _ _ => destruct b eqn:?
  end.
Ltac wp_run := repeat wp_step; cbv beta.

(** ** The invariant *)

Definition seq_in (S : gmap string SequenceRow) (ref : string) : SequenceRow :=
  default (mkSequence 0 0 []) (S !! ref).

Lemma sequence_of_seq_in ref d : sequence_of ref d = seq_in (sequences d) ref.
Proof. done. Qed.

(** The states an outbox (and so a recovery) row can be in on this host. *)
Definition outbox_state (s : RecordState) : bool :=
  match s with submitting | blockedUnknown | canceled => true | _ => false end.

(** Attempt evidence: the flag is what the count says, or a legacy row's bare
    flag; a canceled row was never attempted. *)
Definition attempts_ok (r : Row) : Prop :=
  (0 <= unresolved_attempts r)%Z /\
  (row_attempted r = false -> unresolved_attempts r = 0%Z) /\
  (row_state r = canceled -> row_attempted r = false).

(** What the table a row is in says about it. *)
Definition table_ok (S : gmap string SequenceRow) (t : table) (r : Row) : Prop :=
  match t with
  | outbox =>
      outbox_state (row_state r) = true /\ recovery_kind r = None /\ recovery_reason r = None /\
      attempts_ok r /\
      (1 <= intent_sequence r <= last_sequence (seq_in S (target_ref r)))%Z /\
      (0 <= stop_epoch_at_enqueue r <= stop_epoch (seq_in S (target_ref r)))%Z
  | optimistic =>
      row_state r = accepted /\ recovery_kind r = None /\ recovery_reason r = None
  | recovery =>
      outbox_state (row_state r) = true /\ is_Some (recovery_kind r)
  end.

Definition row_ok (S : gmap string SequenceRow) (t : table) (id : string) (r : Row) : Prop :=
  client_mutation_id r = id /\
  obj_get "clientMutationId" (row_payload r) = Some (JStr id) /\
  table_ok S t r.

Definition sequences_ok (S : gmap string SequenceRow) : Prop :=
  forall ref, (0 <= last_sequence (seq_in S ref))%Z /\ (0 <= stop_epoch (seq_in S ref))%Z.

(** Every row fits its table, and every index holds. *)
Record rows_wf (d : db) : Prop := {
  rows_wf_row : forall t id r, tbl t d !! id = Some r -> row_ok (sequences d) t id r;
  rows_wf_index : forall t, index_ok t (tbl t d) = true;
  rows_wf_sequences : sequences_ok (sequences d)
}.

(** An id is active in one table only. *)
Definition disjoint_tables (d : db) : Prop :=
  forall t t' id, is_Some (tbl t d !! id) -> is_Some (tbl t' d !! id) -> t = t'.

Definition wf (d : db) : Prop := rows_wf d /\ disjoint_tables d.

(** *** Sequence rows only grow *)

Definition grows (S S' : gmap string SequenceRow) : Prop :=
  forall ref, (last_sequence (seq_in S ref) <= last_sequence (seq_in S' ref))%Z /\
              (stop_epoch (seq_in S ref) <= stop_epoch (seq_in S' ref))%Z.

Lemma seq_in_insert S ref s ref' :
  seq_in (<[ref := s]> S) ref' = if decide (ref = ref') then s else seq_in S ref'.
Proof. unfold seq_in. rewrite lookup_insert. by case_decide. Qed.

Lemma grows_refl S : grows S S.
Proof. split; lia. Qed.

Lemma grows_insert S ref s :
  (last_sequence (seq_in S ref) <= last_sequence s)%Z ->
  (stop_epoch (seq_in S ref) <= stop_epoch s)%Z ->
  grows S (<[ref := s]> S).
Proof. intros ?? ref'. rewrite seq_in_insert. case_decide; subst; lia. Qed.

Lemma row_ok_grows S S' t id r : grows S S' -> row_ok S t id r -> row_ok S' t id r.
Proof.
  intros Hg (? & ? & Ht). split; [done|]. split; [done|]. specialize (Hg (target_ref r)).
  destruct t; simpl in *; naive_solver lia.
Qed.

Lemma sequences_ok_grows S S' : grows S S' -> sequences_ok S -> sequences_ok S'.
Proof. intros Hg Hs ref. specialize (Hg ref). specialize (Hs ref). lia. Qed.

(** *** Indexes *)

Lemma index_ok_spec t m : index_ok t m = true <-> (indexed t = true -> unique_index m).
Proof.
  unfold index_ok. rewrite orb_true_iff, negb_true_iff, bool_decide_eq_true.
  destruct (indexed t); naive_solver.
Qed.

Lemma unique_index_subseteq m m' : m' ⊆ m -> unique_index m -> unique_index m'.
Proof.
  intros Hsub Hu i r Hi j s Hj. eapply (Hu i r _ j s).
  Unshelve. all: by eapply lookup_weaken.
Qed.

Lemma index_ok_subseteq t m m' : m' ⊆ m -> index_ok t m = true -> index_ok t m' = true.
Proof. rewrite !index_ok_spec. eauto using unique_index_subseteq. Qed.

(** Replacing a row by one with the same key keeps the index. *)
Lemma unique_index_update m id r r' :
  m !! id = Some r -> sequence_key r' = sequence_key r ->
  unique_index m -> unique_index (<[id := r']> m).
Proof.
  intros Hid Hk Hu i a Hi j b Hj E.
  apply lookup_insert_Some in Hi as [[<- <-]|[Hne Hi]], Hj as [[<- <-]|[Hne' Hj]]; try done.
  - rewrite Hk in E. by apply (Hu _ _ Hid _ _ Hj).
  - rewrite Hk in E. by apply (Hu _ _ Hi _ _ Hid).
  - by apply (Hu _ _ Hi _ _ Hj).
Qed.

Lemma index_ok_update t m id r r' :
  m !! id = Some r -> sequence_key r' = sequence_key r ->
  index_ok t m = true -> index_ok t (<[id := r']> m) = true.
Proof. rewrite !index_ok_spec. eauto using unique_index_update. Qed.

Lemma unique_index_fmap (f : Row -> Row) m :
  (forall r, sequence_key (f r) = sequence_key r) -> unique_index m -> unique_index (f <$> m).
Proof.
  intros Hk Hu i a Hi j b Hj E.
  apply lookup_fmap_Some in Hi as (a' & <- & Hi), Hj as (b' & <- & Hj).
  rewrite !Hk in E. by apply (Hu _ _ Hi _ _ Hj).
Qed.

Lemma index_ok_fmap t (f : Row -> Row) m :
  (forall r, sequence_key (f r) = sequence_key r) ->
  index_ok t m = true -> index_ok t (f <$> m) = true.
Proof. rewrite !index_ok_spec. eauto using unique_index_fmap. Qed.

(** A row whose key no other row has can join. *)
Lemma unique_index_insert m id r :
  (forall j s, m !! j = Some s -> sequence_key s = sequence_key r -> j = id) ->
  unique_index m -> unique_index (<[id := r]> m).
Proof.
  intros Hf Hu i a Hi j b Hj E.
  apply lookup_insert_Some in Hi as [[<- <-]|[Hne Hi]], Hj as [[<- <-]|[Hne' Hj]]; try done.
  - by rewrite (Hf _ _ Hj).
  - by apply (Hf _ _ Hi).
  - by apply (Hu _ _ Hi _ _ Hj).
Qed.

(** *** Rules that carry [rows_wf] through a statement *)

Section rows_wf_rules.
Context (d : db) (Hd : rows_wf d).

Lemma rows_wf_set_tbl t m :
  (forall id r, m !! id = Some r -> row_ok (sequences d) t id r) ->
  index_ok t m = true -> rows_wf (set_tbl t m d).
Proof.
  intros Hm Hi. split.
  - intros t' id r. rewrite tbl_set, sequences_set_tbl. case_decide; [subst; apply Hm|apply Hd].
  - intros t'. rewrite tbl_set. case_decide; [by subst|apply Hd].
  - rewrite sequences_set_tbl. apply Hd.
Qed.

Lemma rows_wf_insert t id r :
  row_ok (sequences d) t id r ->
  index_ok t (<[id := r]> (tbl t d)) = true ->
  rows_wf (set_tbl t (<[id := r]> (tbl t d)) d).
Proof.
  intros Hr. apply rows_wf_set_tbl. intros id' r' [[<- <-]|[_ H]]%lookup_insert_Some; [done|].
  by apply Hd.
Qed.

Lemma rows_wf_delete t id : rows_wf (set_tbl t (delete id (tbl t d)) d).
Proof.
  apply rows_wf_set_tbl.
  - intros id' r' [_ H]%lookup_delete_Some. by apply Hd.
  - eapply index_ok_subseteq; [apply delete_subseteq|apply Hd].
Qed.

Lemma rows_wf_filter t (P : string * Row -> Prop) `{!forall x, Decision (P x)} :
  rows_wf (set_tbl t (filter P (tbl t d)) d).
Proof.
  apply rows_wf_set_tbl.
  - intros id' r' [Hl _]%map_lookup_filter_Some. by apply Hd.
  - eapply index_ok_subseteq; [apply map_filter_subseteq|apply Hd].
Qed.

Lemma rows_wf_fmap t (f : Row -> Row) :
  (forall id r, row_ok (sequences d) t id r -> row_ok (sequences d) t id (f r)) ->
  index_ok t (f <$> tbl t d) = true -> rows_wf (set_tbl t (f <$> tbl t d) d).
Proof.
  intros Hf. apply rows_wf_set_tbl. intros id r (r' & <- & H)%lookup_fmap_Some.
  by apply Hf, Hd.
Qed.

Lemma rows_wf_set_sequences S : grows (sequences d) S -> rows_wf (set_sequences S d).
Proof.
  intros Hg. split.
  - intros t id r. rewrite tbl_set_sequences. intros H. eapply row_ok_grows; [done|]. by apply Hd.
  - intros t. rewrite tbl_set_sequences. apply Hd.
  - eapply sequences_ok_grows; [done|apply Hd].
Qed.

Lemma rows_wf_allocate ref :
  rows_wf (set_sequences (<[ref := mkSequence (last_sequence (sequence_of ref d) + 1)
    (stop_epoch (sequence_of ref d)) (recovery_resends (sequence_of ref d))]> (sequences d)) d).
Proof. apply rows_wf_set_sequences, grows_insert; rewrite sequence_of_seq_in; simpl; lia. Qed.
End rows_wf_rules.

(** ** Total execution of the statements *)

Section exec_statements.
Context (d : db).

Lemma exec_get t id : exec (get t id) d = (d, inl (fromRow <$> tbl t d !! id)).
Proof. done. Qed.

Lemma exec_select_row t id : exec (select_row t id) d = (d, inl (tbl t d !! id)).
Proof. done. Qed.

Lemma exec_select_ordered t P :
  exec (select_ordered t P) d = (d, inl (sort_by intent_sequence (rows_where P (tbl t d)))).
Proof. done. Qed.

Lemma exec_stopEpochOf ref : exec (stopEpochOf ref) d = (d, inl (stop_epoch_of ref d)).
Proof. done. Qed.

Lemma exec_recoveryResendsOf ref :
  exec (recoveryResendsOf ref) d = (d, inl (recovery_resends (sequence_of ref d))).
Proof. done. Qed.

Lemma exec_update_row t id P f r :
  tbl t d !! id = Some r -> P r = true ->
  index_ok t (<[id := f d r]> (tbl t d)) = true ->
  exec (update_row t id P f) d = (set_tbl t (<[id := f d r]> (tbl t d)) d, inl 1%Z).
Proof.
  intros Hr HP Hi. unfold update_row. rewrite exec_stmt, Hr, HP. unfold write_table. by rewrite Hi.
Qed.

Lemma exec_update_row_skip t id P f :
  (forall r, tbl t d !! id = Some r -> P r = false) ->
  exec (update_row t id P f) d = (d, inl 0%Z).
Proof.
  intros HP. unfold update_row. rewrite exec_stmt.
  destruct (tbl t d !! id) as [r|] eqn:E; [|done]. by rewrite HP.
Qed.

Lemma exec_update_where t (P : Row -> bool) (f : Row -> Row) :
  index_ok t ((fun r : Row => if P r then f r else r) <$> tbl t d) = true ->
  exec (update_where t P f) d =
    (set_tbl t ((fun r : Row => if P r then f r else r) <$> tbl t d) d,
     inl (f <$> rows_where P (tbl t d))).
Proof. intros Hi. unfold update_where. rewrite exec_stmt. unfold write_table. by rewrite Hi. Qed.

Lemma exec_delete_where t P :
  exec (delete_where t P) d =
    (set_tbl t (filter (fun ir => P ir.2 = false) (tbl t d)) d, inl (rows_where P (tbl t d))).
Proof. done. Qed.

Lemma exec_delete_from t id :
  exec (delete_from t id) d =
    (set_tbl t (delete id (tbl t d)) d, inl (bool_decide (is_Some (tbl t d !! id)))).
Proof.
  unfold delete_from, delete_row. rewrite exec_bind, exec_stmt.
  destruct (tbl t d !! id) eqn:E; simpl; [done|].
  by rewrite exec_ret, delete_id, set_tbl_same.
Qed.

Lemma exec_insertNew t record :
  tbl t d !! clientMutationId record = None ->
  index_ok t (<[clientMutationId record := insertValues record 0 0]> (tbl t d)) = true ->
  exec (insertNew t record) d =
    (set_tbl t (<[clientMutationId record := insertValues record 0 0]> (tbl t d)) d, inl tt).
Proof.
  intros Hn Hi. unfold insertNew. rewrite exec_stmt, Hn. unfold write_table. by rewrite Hi.
Qed.

Lemma exec_replace t record :
  index_ok t (<[clientMutationId record := replaced d t record]> (tbl t d)) = true ->
  exec (replace t record) d =
    (set_tbl t (<[clientMutationId record := replaced d t record]> (tbl t d)) d, inl tt).
Proof. unfold replaced. intros Hi. unfold replace. rewrite exec_stmt. unfold write_table. by rewrite Hi. Qed.

Lemma exec_allocateSequence ref :
  let s := sequence_of ref d in
  exec (allocateSequence ref) d =
    (set_sequences (<[ref := mkSequence (last_sequence s + 1) (stop_epoch s) (recovery_resends s)]>
       (sequences d)) d, inl (last_sequence s + 1)%Z).
Proof. done. Qed.

Lemma exec_bumpStopEpoch ref :
  let s := sequence_of ref d in
  exec (bumpStopEpoch ref) d =
    (set_sequences (<[ref := mkSequence (last_sequence s) (stop_epoch s + 1) (recovery_resends s)]>
       (sequences d)) d, inl tt).
Proof. done. Qed.

Lemma exec_writeRecoveryResends ref receipts :
  let s := sequence_of ref d in
  exec (writeRecoveryResends ref receipts) d =
    (set_sequences (<[ref := mkSequence (last_sequence s) (stop_epoch s) receipts]> (sequences d)) d,
     inl tt).
Proof.
  unfold writeRecoveryResends, sequence_of. rewrite exec_bind, exec_stmt.
  by destruct (sequences d !! ref).
Qed.

Lemma exec_assert_available id :
  (forall t, tbl t d !! id = None) -> exec (assertMutationIdAvailable id) d = (d, inl tt).
Proof.
  intros Hn. unfold assertMutationIdAvailable.
  induction TABLES as [|t ts IH]; [done|]. simpl. by rewrite exec_bind, exec_get, Hn.
Qed.

Lemma exec_assert_active id t :
  is_Some (tbl t d !! id) -> exec (assertMutationIdAvailable id) d = (d, inr (ID_ACTIVE id)).
Proof.
  intros Hs. unfold assertMutationIdAvailable.
  assert (Ht : t ∈ TABLES) by (destruct t; set_solver).
  induction TABLES as [|t' ts IH]; [set_solver|]. simpl. rewrite exec_bind, exec_get.
  destruct (tbl t' d !! id) eqn:E; [done|]. simpl.
  apply elem_of_cons in Ht as [->|Ht]; [by destruct Hs; simplify_eq|by apply IH].
Qed.
End exec_statements.

(** Run the head statement of an [exec] equation; side conditions are left to
    the caller. *)
Ltac exec_step :=
  first
    [ rewrite exec_get | rewrite exec_select_row | rewrite exec_select_ordered
    | rewrite exec_stopEpochOf | rewrite exec_recoveryResendsOf | rewrite exec_delete_where
    | rewrite exec_delete_from | rewrite exec_allocateSequence | rewrite exec_bumpStopEpoch
    | rewrite exec_writeRecoveryResends | rewrite exec_ret | rewrite exec_throw
    | rewrite exec_bind | rewrite exec_savepoint ]; cbv beta iota.
Ltac exec_run := unfold withSavepoint; repeat exec_step.
