(* ===== verification/NativeInvariant.v ===== *)
(** The native outbox's invariant: every operation of MutationOutboxSQLite, under
    any schedule of storage faults, leaves a well-formed database. *)

From S2P Require Import Prelude JsString Json Sql Records NativeOutbox NativeOutboxFacts.

Local Open Scope string_scope.

(** ** A rule set for programs under faults *)

(** Whatever faults strike, [I] holds of the database the program leaves; when it
    returns, [Q] holds too. *)
Definition robust {A} (I : db -> Prop) (p : stmt A) (d : db) (Q : db -> A -> Prop) : Prop :=
  forall faults,
    match run p faults d with
    | (_, d', inl a) => I d' /\ Q d' a
    | (_, d', inr _) => I d'
    end.

Section robust_rules.
Context {A : Type} (I : db -> Prop) (d : db).

Lemma robust_ret (a : A) (Q : db -> A -> Prop) : I d -> Q d a -> robust I (Ret a) d Q.
Proof. by intros ?? faults. Qed.

Lemma robust_throw e (Q : db -> A -> Prop) : I d -> robust I (Throw e) d Q.
Proof. by intros ? faults. Qed.

Lemma robust_bind {B} (p : stmt A) (k : A -> stmt B) Q :
  robust I p d (fun d' a => robust I (k a) d' Q) -> robust I (Bind p k) d Q.
Proof.
  intros H faults. simpl. specialize (H faults).
  destruct (run p faults d) as [[fs d'] [a|e]]; [|done]. destruct H as [_ H]. apply H.
Qed.

Lemma robust_stmt (f : db -> (db * A) + js_error) Q :
  I d -> wp (Stmt f) d (fun d' a => I d' /\ Q d' a) -> robust I (Stmt f) d Q.
Proof.
  rewrite wp_stmt. intros Hd H faults. simpl. destruct (tick faults) as [[e|] fs]; [done|].
  by destruct (f d) as [[d' a]|e].
Qed.

(** A savepoint commits what its body does on a healthy database, or nothing. *)
Lemma robust_savepoint (p : stmt A) Q :
  I d -> wp p d (fun d' a => I d' /\ Q d' a) -> robust I (Savepoint p) d Q.
Proof.
  intros Hd H faults. pose proof (savepoint_all_or_nothing p faults d) as Hall.
  destruct (run (Savepoint p) faults d) as [[fs d'] [a|e]].
  - destruct Hall as [(a' & [= <-] & E)|(e & [=] & _)]. unfold wp in H. by rewrite E in H.
  - destruct Hall as [(a' & [=] & _)|(e' & _ & ->)]. done.
Qed.

Lemma robust_mono (p : stmt A) (Q Q' : db -> A -> Prop) :
  robust I p d Q -> (forall d' a, I d' -> Q d' a -> Q' d' a) -> robust I p d Q'.
Proof.
  intros H HQ faults. specialize (H faults).
  destruct (run p faults d) as [[fs d'] [a|e]]; [|done]. naive_solver.
Qed.
End robust_rules.

(** ** Operations *)

(** The writes of the storage port and of this adapter, as data. *)
Inductive op :=
  | OpEnqueue (host : Host) (i : MutationIntent) (barrier : option Z)
  | OpInterrupt (host : Host) (i : MutationIntent)
  | OpMark (id : string)
  | OpUnmark (id : string)
  | OpMarkUnknown (id : string) (s : RecordState) (onlyAttempted : bool)
  | OpSettleReceipt (host : Host) (id projectionState : string)
  | OpSettleApplied (id : string)
  | OpTransfer (id : string) (kind : MutationRecoveryKind) (reason : option string)
  | OpRetarget (ref : string) (to : Retarget)
  | OpEdit (expected : MutationRecord) (barrier : Z)
  | OpRemove (expected : MutationRecord) (barrier : Z)
  | OpResend (host : Host) (sources : list string) (i : MutationIntent) (barrier : option Z)
  | OpAcknowledge (ref id : string)
  | OpDiscardRecovery (id ref : string)
  | OpDiscardUndelivered (id ref : string)
  | OpRelease (id ref : string) (barrier : Z)
  | OpRestore (ref : string) (authoritativeIds : list string)
  | OpPrune (ref : string) (acceptedBefore : Z) (authoritativeIds : list string).

Definition discard_result {A} (p : stmt A) : stmt unit := Bind p (fun _ => Ret tt).

Definition perform (o : op) : stmt unit :=
  match o with
  | OpEnqueue h i b => discard_result (enqueueIntent h i b)
  | OpInterrupt h i => discard_result (enqueueInterruptAndCancel h i)
  | OpMark id => discard_result (markAttempted id)
  | OpUnmark id => discard_result (unmarkAttempted id)
  | OpMarkUnknown id s o => discard_result (markUnknown id s o)
  | OpSettleReceipt h id p => discard_result (settleReceipt h id p)
  | OpSettleApplied id => discard_result (settleApplied id)
  | OpTransfer id k r => discard_result (transferToRecovery id k r)
  | OpRetarget ref to => discard_result (retarget ref to)
  | OpEdit e b => discard_result (editQueuedMessage e b)
  | OpRemove e b => discard_result (removeQueuedMessage e b)
  | OpResend h s i b => discard_result (resendRecovery h s i b)
  | OpAcknowledge ref id => acknowledgeRecoveryResend ref id
  | OpDiscardRecovery id ref => discard_result (discardRecovery id ref)
  | OpDiscardUndelivered id ref => discard_result (discardUndelivered id ref)
  | OpRelease id ref b => discard_result (releaseCanceled id ref b)
  | OpRestore ref ids => discard_result (restoreProvenAbsent ref ids)
  | OpPrune ref b ids => discard_result (pruneUnlistedAccepted ref b ids)
  end.

(** One operation under some fault schedule. *)
Inductive step : db -> op -> db -> Prop :=
  | step_op d o faults : step d o (run (perform o) faults d).1.2.

Inductive reachable : db -> Prop :=
  | reachable_empty : reachable empty_db
  | reachable_step d o d' : reachable d -> step d o d' -> reachable d'.

(** ** Disjointness *)

Definition present (t : table) (id : string) (d : db) : Prop := is_Some (tbl t d !! id).

(** Nothing new at any id but [id]. *)
Definition only_at (id : string) (d d' : db) : Prop :=
  forall t id', id' <> id -> present t id' d' -> present t id' d.

Lemma disjoint_only_at id d d' :
  disjoint_tables d -> only_at id d d' ->
  (forall t t', present t id d' -> present t' id d' -> t = t') ->
  disjoint_tables d'.
Proof.
  intros Hd Ho Hid t t' id' H H'. destruct (decide (id' = id)) as [->|Hne]; [by apply Hid|].
  apply (Hd t t' id'); by apply Ho.
Qed.

Lemma disjoint_subset d d' :
  disjoint_tables d -> (forall t id, present t id d' -> present t id d) -> disjoint_tables d'.
Proof. intros Hd Hs t t' id H H'. apply (Hd t t' id); by apply Hs. Qed.

Lemma present_set_tbl t t' id m d :
  present t id (set_tbl t' m d) <-> if decide (t = t') then is_Some (m !! id) else present t id d.
Proof. unfold present. rewrite tbl_set. by case_decide. Qed.

Lemma present_set_sequences t id S d : present t id (set_sequences S d) <-> present t id d.
Proof. unfold present. by rewrite tbl_set_sequences. Qed.

Lemma present_delete t t' id id' d :
  present t id (set_tbl t' (delete id' (tbl t' d)) d) <-> present t id d /\ ~ (t = t' /\ id = id').
Proof.
  rewrite present_set_tbl. unfold present. case_decide as E; [subst|naive_solver].
  destruct (decide (id = id')) as [->|].
  - rewrite lookup_delete_eq, is_Some_alt. naive_solver.
  - rewrite lookup_delete_ne by done. naive_solver.
Qed.

Lemma present_insert t t' id id' r d :
  present t id (set_tbl t' (<[id' := r]> (tbl t' d)) d) <-> present t id d \/ (t = t' /\ id = id').
Proof.
  rewrite present_set_tbl. unfold present. case_decide as E; [subst|naive_solver].
  rewrite lookup_insert. case_decide; naive_solver.
Qed.

Lemma present_update t t' id id' r d :
  present t' id' d ->
  present t id (set_tbl t' (<[id' := r]> (tbl t' d)) d) <-> present t id d.
Proof. rewrite present_insert. naive_solver. Qed.

Lemma present_filter t t' id (P : string * Row -> Prop) `{!forall x, Decision (P x)} d :
  present t id (set_tbl t' (filter P (tbl t' d)) d) -> present t id d.
Proof.
  rewrite present_set_tbl. case_decide; [subst|done].
  intros [r [Hr _]%map_lookup_filter_Some]. by eexists.
Qed.

Lemma present_fmap t t' id (f : Row -> Row) d :
  present t id (set_tbl t' (f <$> tbl t' d) d) <-> present t id d.
Proof.
  rewrite present_set_tbl. case_decide; [subst|done]. by rewrite lookup_fmap, fmap_is_Some.
Qed.

Lemma table_eq_or (t : table) : t = outbox \/ t = optimistic \/ t = recovery.
Proof. destruct t; auto. Qed.

(** ** Enqueue *)

Section enqueue.
Context (host : Host) (i : MutationIntent).

Local Notation id := (createMutationId host).
Local Notation ref := (targetRef i).

Lemma new_row_ok S n st e :
  outbox_state st = true ->
  (1 <= n <= last_sequence (seq_in S ref))%Z ->
  (0 <= e <= stop_epoch (seq_in S ref))%Z ->
  row_ok S outbox id (insertValues (newRecord host i n st e) 0 0).
Proof.
  intros Hst Hn He. split; [done|]. split; [apply obj_get_set|].
  simpl. split_and!; try done; lia.
Qed.

(** A sequence number above every one allocated is free in the outbox. *)
Lemma fresh_sequence_index d r n :
  rows_wf d -> target_ref r = ref -> intent_sequence r = n ->
  (last_sequence (sequence_of ref d) < n)%Z ->
  index_ok outbox (<[id := r]> (t_outbox d)) = true.
Proof.
  intros Hd Hr Hn Hlast. apply index_ok_spec. intros _. apply unique_index_insert.
  - intros j s Hj [= Ht Hs]. apply (rows_wf_row d Hd outbox) in Hj as (_ & _ & Hok).
    destruct Hok as (_ & _ & _ & _ & Hbound & _). rewrite sequence_of_seq_in in Hlast.
    rewrite Ht, Hr in Hbound. lia.
  - pose proof (rows_wf_index d Hd outbox) as Hidx. apply index_ok_spec in Hidx; [done|done].
Qed.

(** The database one enqueue leaves. *)
Definition enqueued (st : RecordState) (d : db) : db :=
  let s := sequence_of ref d in
  set_tbl outbox
    (<[id := insertValues (newRecord host i (last_sequence s + 1) st (stop_epoch s)) 0 0]> (t_outbox d))
    (set_sequences (<[ref := mkSequence (last_sequence s + 1) (stop_epoch s) (recovery_resends s)]>
      (sequences d)) d).

Definition enqueued_record (st : RecordState) (d : db) : MutationRecord :=
  let s := sequence_of ref d in newRecord host i (last_sequence s + 1) st (stop_epoch s).

Definition id_fresh (d : db) : Prop := forall t, tbl t d !! id = None.

Lemma present_enqueued st d t id' :
  present t id' (enqueued st d) <-> present t id' d \/ (t = outbox /\ id' = id).
Proof.
  unfold enqueued. set (S := <[ref := _]> (sequences d)).
  rewrite <- (present_set_sequences t id' S d). apply (present_insert t outbox id' id _ (set_sequences S d)).
Qed.

Lemma enqueued_wf st d :
  outbox_state st = true -> wf d -> id_fresh d -> wf (enqueued st d).
Proof.
  intros Hst [Hd Hdis] Hf. pose proof (rows_wf_sequences d Hd ref) as Hseq.
  rewrite <- sequence_of_seq_in in Hseq. split.
  - unfold enqueued. apply (rows_wf_insert (set_sequences _ d)).
    + by apply rows_wf_allocate.
    + rewrite sequence_of_seq_in in *. apply new_row_ok; [done| |];
        simpl; rewrite seq_in_insert, decide_True by done; simpl; lia.
    + rewrite tbl_set_sequences. eapply (fresh_sequence_index d); [done..|simpl; lia].
  - apply (disjoint_only_at id d); [done| |].
    + intros t id' Hne. rewrite present_enqueued. naive_solver.
    + intros t t'. rewrite !present_enqueued. unfold present. rewrite !Hf.
      intros [[? [=]]|[-> _]] [[? [=]]|[-> _]]. done.
Qed.
End enqueue.

Section enqueue_exec.
Context (host : Host) (i : MutationIntent) (barrier : option Z).

Definition barrier_state (d : db) : RecordState :=
  if crossed barrier (stop_epoch (sequence_of (targetRef i) d)) then canceled else submitting.

Lemma wp_enqueueRecord d Q :
  wf d ->
  (id_fresh host d ->
   Q (enqueued host i (barrier_state d) d) (enqueued_record host i (barrier_state d) d)) ->
  wp (enqueueRecord host i barrier) d Q.
Proof.
  intros [Hd _] HQ. unfold enqueueRecord. wp_run. intros Hf. wp_run. intros _ _. wp_run.
  apply HQ. intros t. specialize (Hf t). by rewrite tbl_set_sequences in Hf.
Qed.

(** On a healthy database a fresh id is always taken, whatever the state. *)
Lemma exec_enqueueRecord d :
  wf d -> id_fresh host d ->
  exec (enqueueRecord host i barrier) d =
    (enqueued host i (barrier_state d) d, inl (enqueued_record host i (barrier_state d) d)).
Proof.
  intros [Hd _] Hf. unfold enqueueRecord. exec_run.
  rewrite exec_assert_available by (intros t; by rewrite tbl_set_sequences). exec_run.
  rewrite exec_insertNew; [done| |].
  - apply (Hf outbox).
  - rewrite tbl_set_sequences.
    eapply (fresh_sequence_index host i d); [done..|simpl; lia].
Qed.
End enqueue_exec.

(** ** Row updates that keep a row in order *)

Ltac solve_row_ok :=
  unfold row_ok, table_ok, attempts_ok in *; simpl in *; destruct_and?; split_and!; naive_solver lia.

Lemma row_ok_state S id r s :
  row_ok S outbox id r -> outbox_state s = true -> (s = canceled -> row_attempted r = false) ->
  row_ok S outbox id (row_update_state s r).
Proof. intros. solve_row_ok. Qed.

Lemma row_ok_attempts S id r a u :
  row_ok S outbox id r -> (0 <= u)%Z -> (a = false -> u = 0%Z) ->
  (row_state r = canceled -> a = false) ->
  row_ok S outbox id (row_update_attempts a u r).
Proof. intros. solve_row_ok. Qed.

Lemma row_ok_unattempted S id r s :
  row_ok S outbox id r -> outbox_state s = true ->
  row_ok S outbox id (row_update_attempts false 0 (row_update_state s r)).
Proof. intros. solve_row_ok. Qed.

Lemma row_ok_epoch S id r e :
  row_ok S outbox id r -> (0 <= e <= stop_epoch (seq_in S (target_ref r)))%Z ->
  row_ok S outbox id (row_update_epoch e r).
Proof. intros. solve_row_ok. Qed.

Lemma row_ok_sequence S id r n :
  row_ok S outbox id r -> (1 <= n <= last_sequence (seq_in S (target_ref r)))%Z ->
  row_ok S outbox id (row_update_sequence n r).
Proof. intros. solve_row_ok. Qed.

(** The outbox's row at an id, with what the invariant says of it. *)
Lemma wf_outbox_row d id r : wf d -> t_outbox d !! id = Some r -> row_ok (sequences d) outbox id r.
Proof. intros [Hd _] H. by apply (rows_wf_row d Hd outbox). Qed.

(** Replacing a present row keeps disjointness. *)
Lemma wf_update d t id r r' :
  wf d -> tbl t d !! id = Some r -> row_ok (sequences d) t id r' ->
  index_ok t (<[id := r']> (tbl t d)) = true -> wf (set_tbl t (<[id := r']> (tbl t d)) d).
Proof.
  intros [Hd Hdis] Hr Hok Hi. split; [by apply rows_wf_insert|].
  eapply disjoint_subset; [done|]. intros t' id'. rewrite present_update; [done|by eexists].
Qed.

Lemma wf_delete d t id : wf d -> wf (set_tbl t (delete id (tbl t d)) d).
Proof.
  intros [Hd Hdis]. split; [by apply rows_wf_delete|].
  eapply disjoint_subset; [done|]. intros t' id'. rewrite present_delete. naive_solver.
Qed.

Lemma wf_filter d t (P : string * Row -> Prop) `{!forall x, Decision (P x)} :
  wf d -> wf (set_tbl t (filter P (tbl t d)) d).
Proof.
  intros [Hd Hdis]. split; [by apply rows_wf_filter|].
  eapply disjoint_subset; [done|]. intros t' id'. apply present_filter.
Qed.

Lemma wf_fmap d t (f : Row -> Row) :
  wf d -> (forall id r, row_ok (sequences d) t id r -> row_ok (sequences d) t id (f r)) ->
  index_ok t (f <$> tbl t d) = true -> wf (set_tbl t (f <$> tbl t d) d).
Proof.
  intros [Hd Hdis] Hf Hi. split; [by apply rows_wf_fmap|].
  eapply disjoint_subset; [done|]. intros t' id'. by rewrite present_fmap.
Qed.

Lemma wf_set_sequences d S : wf d -> grows (sequences d) S -> wf (set_sequences S d).
Proof.
  intros [Hd Hdis] Hg. split; [by apply rows_wf_set_sequences|].
  eapply disjoint_subset; [done|]. intros t' id'. by rewrite present_set_sequences.
Qed.

(** Every write of a sequence row keeps or raises both of its counters. *)
Lemma wf_sequence d ref n e rs :
  wf d -> (last_sequence (sequence_of ref d) <= n)%Z -> (stop_epoch (sequence_of ref d) <= e)%Z ->
  wf (set_sequences (<[ref := mkSequence n e rs]> (sequences d)) d).
Proof. intros Hd ??. apply wf_set_sequences; [done|]. by apply grows_insert. Qed.

#[export] Hint Resolve wf_delete wf_filter : evener.

(** ** Attempt evidence *)

Lemma robust_update_row d id P f Q :
  wf d ->
  (forall r, t_outbox d !! id = Some r -> P r = true -> row_ok (sequences d) outbox id (f d r)) ->
  (forall d' n, wf d' -> Q d' n) ->
  robust wf (update_row outbox id P f) d Q.
Proof.
  intros Hd Hf HQ. apply robust_stmt; [done|].
  change (wp (update_row outbox id P f) d (fun d' a => wf d' /\ Q d' a)).
  rewrite wp_update_row. simpl. destruct (t_outbox d !! id) as [r|] eqn:Hr; [|naive_solver].
  destruct (P r) eqn:HP; [|naive_solver]. intros Hi.
  assert (wf (set_tbl outbox (<[id := f d r]> (t_outbox d)) d)) by (eapply (wf_update d outbox); eauto).
  naive_solver.
Qed.

Lemma robust_update_row_seq {A} d id P f (k : Z -> stmt A) Q :
  wf d ->
  (forall r, t_outbox d !! id = Some r -> P r = true -> row_ok (sequences d) outbox id (f d r)) ->
  (forall d' n, wf d' -> robust wf (k n) d' Q) ->
  robust wf (Bind (update_row outbox id P f) k) d Q.
Proof. intros ???. apply robust_bind. by apply robust_update_row. Qed.

Lemma robust_final {A} d (a : A) : wf d -> robust wf (Ret a) d (fun _ _ => True).
Proof. intros. by apply robust_ret. Qed.

#[export] Hint Resolve robust_final : evener.

Lemma robust_select_row I d t id Q :
  I d -> Q d (tbl t d !! id) -> robust I (select_row t id) d Q.
Proof. intros. by apply robust_stmt. Qed.

Lemma robust_stopEpochOf I d ref Q :
  I d -> Q d (stop_epoch_of ref d) -> robust I (stopEpochOf ref) d Q.
Proof. intros. by apply robust_stmt. Qed.

Lemma robust_seed d id (Q : db -> unit -> Prop) :
  wf d -> (forall d', wf d' -> Q d' tt) -> robust wf (seedLegacyAttemptCount id) d Q.
Proof.
  intros Hd HQ. unfold seedLegacyAttemptCount. apply robust_update_row_seq; [done| |].
  - intros r Hr [Ha _]%andb_prop. eapply row_ok_attempts; [by apply wf_outbox_row|lia| |].
    + by rewrite Ha.
    + intros Hc. apply wf_outbox_row in Hr as (_ & _ & _ & _ & _ & (_ & _ & H) & _); [|done]. auto.
  - intros d' _ Hd'. apply robust_ret; auto.
Qed.

Lemma is_state_true s r : is_state s r = true -> row_state r = s.
Proof. apply bool_decide_eq_true. Qed.

Lemma robust_markAttempted d id : wf d -> robust wf (markAttempted id) d (fun _ _ => True).
Proof.
  intros Hd. unfold markAttempted. apply robust_bind, robust_seed; [done|]. clear d Hd. intros d Hd.
  apply robust_update_row_seq; [done| |].
  { intros r Hr _. apply row_ok_epoch; [by apply wf_outbox_row|].
    unfold stop_epoch_of. rewrite sequence_of_seq_in.
    split; [apply Hd|lia]. }
  intros d' _ Hd'. apply robust_update_row_seq; [done| |auto with evener].
  intros r Hr Hs%is_state_true.
  pose proof (wf_outbox_row _ _ _ Hd' Hr) as Hok. apply row_ok_attempts; [done| |done|congruence].
  destruct Hok as (_ & _ & _ & _ & _ & (? & _) & _). lia.
Qed.

Lemma robust_unmarkAttempted d id : wf d -> robust wf (unmarkAttempted id) d (fun _ _ => True).
Proof.
  intros Hd. unfold unmarkAttempted. apply robust_bind, robust_seed; [done|]. clear d Hd. intros d Hd.
  apply robust_bind, robust_select_row; [done|]. simpl.
  destruct (t_outbox d !! id) as [r|] eqn:Hr; [|auto with evener].
  pose proof (wf_outbox_row _ _ _ Hd Hr) as Hok.
  assert (H0 : (0 <= unresolved_attempts r)%Z) by (destruct Hok as (_ & _ & _ & _ & _ & (Hu & _) & _); done).
  assert (Hep : forall (k : Z -> stmt bool),
    (forall e, robust wf (k e) d (fun _ _ => True)) ->
    robust wf (Bind (stopEpochOf (target_ref r)) k) d (fun _ _ => True)).
  { intros k Hk. apply robust_bind, robust_stmt; [done|]. by split. }
  assert (Hup : forall P f (b : bool), (forall r', r' = r -> row_ok (sequences d) outbox id (f d r')) ->
    robust wf (Bind (update_row outbox id P f) (fun _ => Ret b)) d (fun _ _ => True)).
  { intros P f b Hf. apply robust_update_row_seq; [done| |auto with evener].
    intros r' Hr' _. apply Hf. congruence. }
  destruct (row_state r) eqn:Hs; auto with evener.
  - apply robust_bind. case_match.
    + apply robust_bind, robust_stopEpochOf; [done|]. apply robust_ret; [done|].
      case_match; apply Hup; intros r' ->; [by apply row_ok_unattempted|].
      apply row_ok_attempts; [done|lia| |congruence]. intros ?%Z.ltb_ge. lia.
    + apply robust_ret; [done|]. apply Hup. intros r' ->.
      apply row_ok_attempts; [done|lia| |congruence]. intros ?%Z.ltb_ge. lia.
  - case_match eqn:Hlt.
    + apply Hup. intros r' ->. apply Z.ltb_lt in Hlt. apply row_ok_attempts; [done|lia| |congruence].
      intros Ha. destruct Hok as (_ & _ & _ & _ & _ & (_ & Hz & _) & _). specialize (Hz Ha). lia.
    + apply Hep. intros e. apply Hup. intros r' ->. apply row_ok_unattempted; [done|by case_match].
Qed.

(** ** Savepoints *)

Lemma robust_discard {A} (p : stmt A) d :
  robust wf p d (fun _ _ => True) -> robust wf (discard_result p) d (fun _ _ => True).
Proof.
  intros H. apply robust_bind. eapply robust_mono; [done|]. intros d' a Hd' _. by apply robust_ret.
Qed.

Lemma robust_atomic {A} name (p : stmt A) d :
  wf d -> wp p d (fun d' _ => wf d') -> robust wf (withSavepoint name p) d (fun _ _ => True).
Proof.
  intros Hd Hp. apply robust_savepoint; [done|]. eapply wp_mono; [done|]. auto.
Qed.

Lemma robust_throw_any {A} e d : wf d -> robust wf (Throw (A:=A) e) d (fun _ _ => True).
Proof. intros. by apply robust_throw. Qed.

#[export] Hint Resolve robust_throw_any : evener.

(** ** Enqueue and Stop *)

Lemma crossed_state_outbox i b d : outbox_state (barrier_state i b d) = true.
Proof. unfold barrier_state. by destruct (crossed _ _). Qed.

Lemma robust_enqueueIntent h i b d : wf d -> robust wf (enqueueIntent h i b) d (fun _ _ => True).
Proof.
  intros Hd. unfold enqueueIntent. case_match; [auto with evener|]. apply robust_atomic; [done|].
  apply wp_enqueueRecord; [done|]. intros Hf. apply enqueued_wf; auto using crossed_state_outbox.
Qed.

(** The outbox a Stop leaves before its own row is added. *)
Definition cancel_rows (ref : string) (d : db) : db :=
  set_tbl outbox
    ((fun r => if cancelable ref r then row_update_state canceled r else r) <$> t_outbox d) d.

Definition bump_epoch (ref : string) (d : db) : db :=
  let s := sequence_of ref d in
  set_sequences (<[ref := mkSequence (last_sequence s) (stop_epoch s + 1) (recovery_resends s)]>
    (sequences d)) d.

Lemma cancel_rows_index ref d :
  rows_wf d ->
  index_ok outbox ((fun r => if cancelable ref r then row_update_state canceled r else r) <$> t_outbox d) = true.
Proof.
  intros Hd. apply index_ok_fmap; [by intros r; case_match|]. apply (rows_wf_index d Hd outbox).
Qed.

Lemma cancelable_unattempted ref r : cancelable ref r = true -> row_attempted r = false.
Proof. unfold cancelable. by intros [_ H%negb_true_iff]%andb_prop. Qed.

Lemma cancel_rows_wf ref d : wf d -> wf (cancel_rows ref d).
Proof.
  intros Hd. apply (wf_fmap d outbox); [done| |apply cancel_rows_index, Hd].
  intros id r Hr. case_match eqn:Hc; [|done]. apply row_ok_state; [done|done|].
  intros _. by eapply cancelable_unattempted.
Qed.

Lemma bump_epoch_wf ref d : wf d -> wf (bump_epoch ref d).
Proof. intros Hd. apply wf_sequence; [done|lia|lia]. Qed.

Lemma stop_epoch_after_allocate ref n e rs d :
  stop_epoch_of ref (set_sequences (<[ref := mkSequence n e rs]> (sequences d)) d) = e.
Proof. unfold stop_epoch_of, sequence_of. simpl. by rewrite lookup_insert_eq. Qed.

(** What [enqueueInterruptAndCancel] leaves. *)
Definition interrupted (h : Host) (i : MutationIntent) (d : db) : db :=
  enqueued h i submitting (bump_epoch (targetRef i) (cancel_rows (targetRef i) d)).

Lemma robust_interrupt h i d : wf d -> robust wf (enqueueInterruptAndCancel h i) d (fun _ _ => True).
Proof.
  intros Hd. unfold enqueueInterruptAndCancel. case_match; [auto with evener|].
  apply robust_atomic; [done|]. wp_run. intros _. wp_run. intros Hf. wp_run. intros _ _. wp_run.
  rewrite stop_epoch_after_allocate.
  change (wf (interrupted h i d)). apply enqueued_wf; [done| |].
  - by apply bump_epoch_wf, cancel_rows_wf.
  - intros t. specialize (Hf t). by rewrite tbl_set_sequences in Hf.
Qed.

(** ** Settlement and recovery *)

Lemma row_ok_identity S t id r :
  row_ok S t id r ->
  client_mutation_id r = id /\ obj_get "clientMutationId" (row_payload r) = Some (JStr id).
Proof. by intros (? & ? & _). Qed.

(** A row [replace] writes for a record with a row's identity. *)
Lemma row_ok_insertValues_accepted S record id u a :
  clientMutationId record = id ->
  obj_get "clientMutationId" (payload record) = Some (JStr id) ->
  row_ok S optimistic id (insertValues (acceptedRecord record) u a).
Proof. by intros. Qed.

Lemma row_ok_insertValues_recovery S record id u a kind reason :
  clientMutationId record = id ->
  obj_get "clientMutationId" (payload record) = Some (JStr id) ->
  outbox_state (state record) = true ->
  row_ok S recovery id (insertValues (with_recovery kind reason record) u a).
Proof. intros. by repeat split. Qed.

Lemma rows_wf_optimistic_accepted_at d id r n :
  rows_wf d -> t_optimistic d !! id = Some r ->
  rows_wf (set_tbl optimistic (<[id := row_update_accepted_at n r]> (t_optimistic d)) d).
Proof.
  intros Hd Hr. apply (rows_wf_insert d Hd optimistic).
  - by apply (rows_wf_row d Hd optimistic) in Hr.
  - eapply index_ok_update; [done|done|]. apply (rows_wf_index d Hd optimistic).
Qed.

(** Progress of a settlement of [id]: the rows stay in order, nothing but [id]
    is new, and [id] is gone from the tables in [gone]. *)
Definition settling (id : string) (d0 : db) (gone : list table) (d : db) : Prop :=
  rows_wf d /\ only_at id d0 d /\ forall t, t ∈ gone -> ~ present t id d.

Section settling.
Context (id : string) (d0 : db).

Lemma settling_delete gone d t :
  settling id d0 gone d -> settling id d0 (t :: gone) (set_tbl t (delete id (tbl t d)) d).
Proof.
  intros (Hr & Ho & Hg). split_and!.
  - by apply rows_wf_delete.
  - intros t' id' Hne. rewrite present_delete. naive_solver.
  - intros t' Ht'. rewrite present_delete. apply elem_of_cons in Ht' as [->|]; naive_solver.
Qed.

Lemma settling_filter gone d t (P : string * Row -> Prop) `{!forall x, Decision (P x)} :
  settling id d0 gone d -> settling id d0 gone (set_tbl t (filter P (tbl t d)) d).
Proof.
  intros (Hr & Ho & Hg). split_and!.
  - by apply rows_wf_filter.
  - intros t' id' Hne Hp%present_filter. by apply Ho.
  - intros t' Ht' Hp%present_filter. by eapply Hg.
Qed.

Lemma settling_write gone d t r :
  settling id d0 gone d -> t ∉ gone ->
  rows_wf (set_tbl t (<[id := r]> (tbl t d)) d) ->
  settling id d0 gone (set_tbl t (<[id := r]> (tbl t d)) d).
Proof.
  intros (Hr & Ho & Hg) Ht Hw. split_and!; [done| |].
  - intros t' id' Hne. rewrite present_insert. naive_solver.
  - intros t' Ht'. rewrite present_insert. naive_solver.
Qed.

(** With [id] gone from all tables but one, the database is well formed. *)
Lemma settling_wf d gone t0 :
  disjoint_tables d0 -> settling id d0 gone d ->
  (forall t, present t id d -> t ∉ gone -> t = t0) -> wf d.
Proof.
  intros Hdis (Hr & Ho & Hg) Ht0. split; [done|]. eapply disjoint_only_at; [done..|].
  intros t t' H H'. transitivity t0; [|symmetry]; apply Ht0; try done; intros Hin; by eapply Hg.
Qed.
End settling.

Lemma settling_start id d gone :
  rows_wf d -> (forall t, t ∈ gone -> tbl t d !! id = None) -> settling id d gone d.
Proof.
  intros ? Hg. split_and!; [done|by intros t id' _|]. intros t Ht [r Hr]. rewrite Hg in Hr; done.
Qed.

(** A settlement's source: the record of a row of [id] in some table. *)
Lemma source_identity d t id r source :
  rows_wf d -> tbl t d !! id = Some r -> source = fromRow r ->
  clientMutationId source = id /\ obj_get "clientMutationId" (payload source) = Some (JStr id).
Proof. intros Hd Hr ->. apply (rows_wf_row d Hd) in Hr. by apply row_ok_identity in Hr. Qed.

Lemma first_some_source d id source :
  rows_wf d ->
  first_some (fromRow <$> t_outbox d !! id)
    (first_some (fromRow <$> t_recovery d !! id) (fromRow <$> t_optimistic d !! id)) = Some source ->
  clientMutationId source = id /\ obj_get "clientMutationId" (payload source) = Some (JStr id).
Proof.
  intros Hd. destruct (t_outbox d !! id) eqn:E1; simpl.
  { intros [= <-]. by eapply (source_identity d outbox). }
  destruct (t_recovery d !! id) eqn:E2; simpl.
  { intros [= <-]. by eapply (source_identity d recovery). }
  destruct (t_optimistic d !! id) eqn:E3; simpl; [|done].
  intros [= <-]. by eapply (source_identity d optimistic).
Qed.

Lemma settling_discardSuperseded source id d0 gone d Q :
  settling id d0 gone d -> (forall d', settling id d0 gone d' -> Q d' tt) ->
  wp (discardSupersededNoteRecovery source) d Q.
Proof.
  intros Hd HQ. rewrite wp_discardSuperseded. apply HQ. case_match; [|done].
  by apply (settling_filter id d0 gone d recovery).
Qed.

Lemma settling_delete_from id d0 gone d t (Q : db -> bool -> Prop) :
  settling id d0 gone d -> (forall d' b, settling id d0 (t :: gone) d' -> Q d' b) ->
  wp (delete_from t id) d Q.
Proof. intros Hd HQ. rewrite wp_delete_from. apply HQ. by apply settling_delete. Qed.

(** The accepted copy of a settlement, and the drop of a stale one. *)
Lemma settling_accept host id d0 gone d source p (o : option MutationRecord) Q :
  settling id d0 gone d -> optimistic ∉ gone ->
  clientMutationId source = id -> obj_get "clientMutationId" (payload source) = Some (JStr id) ->
  (forall d' gone', settling id d0 gone' d' -> gone ⊆ gone' -> Q d' tt) ->
  wp (if retainsAcceptedCopy source p then
        Bind (replace optimistic (acceptedRecord source)) (fun _ =>
        Bind (update_row optimistic id (fun _ => true) (fun _ r => row_update_accepted_at (now host) r))
          (fun _ => Ret tt))
      else if o then Bind (delete_from optimistic id) (fun _ => Ret tt) else Ret tt) d Q.
Proof.
  intros Hd Hopt Hid Hp HQ. destruct (retainsAcceptedCopy _ _).
  - wp_step. rewrite wp_replace. simpl. rewrite Hid. intros Hi. wp_run. simpl. rewrite lookup_insert_eq.
    intros Hi'. wp_run. apply (HQ _ gone); [|done].
    set (r := replaced _ _ _) in *.
    set (d1 := set_tbl optimistic (<[id := r]> (tbl optimistic d)) d).
    assert (Hd1 : settling id d0 gone d1).
    { apply settling_write; [done..|]. apply (rows_wf_insert d (proj1 Hd) optimistic); [|done].
      unfold r, replaced. case_match; by apply row_ok_insertValues_accepted. }
    change (settling id d0 gone
      (set_tbl optimistic (<[id := row_update_accepted_at (now host) r]> (tbl optimistic d1)) d1)).
    apply settling_write; [done..|]. apply rows_wf_optimistic_accepted_at; [apply Hd1|].
    apply lookup_insert_eq.
  - destruct o; [|by apply (HQ _ gone)]. wp_step. eapply settling_delete_from; [done|].
    intros d' _ Hd'. wp_run. eapply HQ; [done|set_solver].
Qed.

Ltac final_table t0 :=
  eapply (settling_wf _ _ _ _ t0); [done|done|];
  intros [] _ Hin; first [done | exfalso; apply Hin; set_solver].

Lemma robust_settleReceipt host id p d :
  wf d -> robust wf (settleReceipt host id p) d (fun _ _ => True).
Proof.
  intros [Hr Hdis]. apply robust_atomic; [done|]. wp_run. simpl.
  destruct (first_some _ _) as [source|] eqn:Hs; [|by wp_run].
  destruct (first_some_source _ _ _ Hr Hs) as [Hid Hp].
  assert (Hone : forall t t' r, tbl t d !! id = Some r -> t <> t' -> tbl t' d !! id = None).
  { intros t t' r Ht Hne. destruct (tbl t' d !! id) eqn:E; [|done]. destruct Hne.
    apply (Hdis t t' id); by eexists. }
  destruct (t_outbox d !! id) as [r|] eqn:E1; [|destruct (t_recovery d !! id) as [r|] eqn:E2].
  - assert (t_recovery d !! id = None /\ t_optimistic d !! id = None) as [-> ->]
      by (split; [apply (Hone outbox recovery r)|apply (Hone outbox optimistic r)]; done). simpl.
    wp_step. eapply (settling_discardSuperseded _ id d [recovery]).
    { apply settling_start; [done|]. intros t ->%list_elem_of_singleton. by apply (Hone outbox _ r). }
    intros d1 Hd1. wp_step. eapply (settling_accept host id d _ d1 source p None); [done|set_solver|done..|].
    intros d2 gone Hd2 Hg. wp_run. rewrite <- wp_delete_from with (Q := fun d' _ => wf d').
    eapply settling_delete_from; [done|]. intros d3 _ Hd3. final_table optimistic.
  - assert (t_optimistic d !! id = None) as -> by (by apply (Hone recovery optimistic r)). simpl.
    wp_step. eapply (settling_discardSuperseded _ id d [outbox]).
    { apply settling_start; [done|]. by intros t ->%list_elem_of_singleton. }
    intros d1 Hd1. wp_step. eapply (settling_accept host id d _ d1 source p None); [done|set_solver|done..|].
    intros d2 gone Hd2 Hg. wp_run. rewrite <- wp_delete_from with (Q := fun d' _ => wf d').
    eapply settling_delete_from; [done|]. intros d3 _ Hd3. final_table optimistic.
  - simpl in Hs |- *. wp_step. eapply (settling_discardSuperseded _ id d [outbox; recovery]).
    { apply settling_start; [done|]. intros t Ht. set_unfold. naive_solver. }
    intros d1 Hd1. wp_step. eapply (settling_accept host id d _ d1 source p (fromRow <$> t_optimistic d !! id)); [done|set_solver|done..|].
    intros d2 gone Hd2 Hg. wp_run. final_table optimistic.
Qed.

Lemma robust_settleApplied id d : wf d -> robust wf (settleApplied id) d (fun _ _ => True).
Proof.
  intros [Hr Hdis]. apply robust_atomic; [done|]. wp_run. simpl.
  destruct (first_some _ _) as [source|] eqn:Hs; [|by wp_run].
  wp_step. eapply (settling_discardSuperseded _ id d []); [by apply settling_start; [|set_solver]|].
  intros d1 Hd1. do 3 (wp_step; eapply settling_delete_from; [done|]; intros ? ? ?). wp_run.
  final_table outbox.
Qed.

(** An outbox row moved to the drafts. *)
Lemma wp_move_to_recovery {A} d id r kind reason (a : A) (Q : db -> A -> Prop) :
  wf d -> t_outbox d !! id = Some r ->
  (forall d', wf d' -> Q d' a) ->
  wp (Bind (replace recovery (with_recovery kind reason (fromRow r)))
        (fun _ => Bind (delete_from outbox id) (fun _ => Ret a))) d Q.
Proof.
  intros [Hr Hdis] Hrow HQ. pose proof (rows_wf_row d Hr outbox _ _ Hrow) as Hok.
  destruct (row_ok_identity _ _ _ _ Hok) as [Hid Hp]. destruct Hok as (_ & _ & Hst & _).
  wp_step. rewrite wp_replace. simpl. rewrite Hid. intros Hi.
  wp_step. eapply (settling_delete_from id d [optimistic]).
  - apply (settling_write id d [optimistic] d recovery).
    + apply settling_start; [done|]. intros t ->%list_elem_of_singleton.
      destruct (tbl optimistic d !! id) eqn:E; [|done].
      discriminate (Hdis outbox optimistic id); by eexists.
    + set_solver.
    + apply rows_wf_insert; [done| |done].
      unfold replaced. simpl. rewrite Hid. case_match; by apply row_ok_insertValues_recovery.
  - intros d' b Hd'. wp_run. apply HQ. final_table recovery.
Qed.

Lemma robust_transfer id kind reason d :
  wf d -> robust wf (transferToRecovery id kind reason) d (fun _ _ => True).
Proof.
  intros Hd. apply robust_atomic; [done|]. wp_step. wp_step. simpl.
  destruct (t_outbox d !! id) as [r|] eqn:Hr; simpl; [|by wp_run].
  by eapply wp_move_to_recovery.
Qed.

Lemma robust_edit expected b d : wf d -> robust wf (editQueuedMessage expected b) d (fun _ _ => True).
Proof.
  intros Hd. apply robust_atomic; [done|]. wp_step. wp_step. simpl.
  destruct (t_outbox d !! clientMutationId expected) as [r|] eqn:Hr; simpl; [|by wp_run].
  wp_step; [by wp_run|]. wp_step. wp_step. wp_step; [by wp_run|].
  pose proof (wf_outbox_row _ _ _ Hd Hr) as [Hid _]. rewrite Hid.
  by eapply wp_move_to_recovery.
Qed.

Lemma robust_remove expected b d : wf d -> robust wf (removeQueuedMessage expected b) d (fun _ _ => True).
Proof.
  intros Hd. apply robust_atomic; [done|]. wp_step. wp_step. simpl.
  destruct (t_outbox d !! clientMutationId expected) as [r|] eqn:Hr; simpl; [|by wp_run].
  wp_step; [by wp_run|]. wp_step. wp_step. wp_step; [by wp_run|].
  rewrite wp_delete_from. by apply wf_delete.
Qed.

(** ** Resends *)

Lemma wp_sources_present ids ref d Q :
  (forall b, Q d b) -> wp (sources_present ids ref) d Q.
Proof.
  intros HQ. induction ids as [|id ids IH]; simpl; [by apply HQ|].
  wp_step. wp_step. simpl. destruct (t_recovery d !! id); simpl; [|by apply HQ].
  wp_step; [by wp_run|done].
Qed.

Lemma robust_resend h sources i b d : wf d -> robust wf (resendRecovery h sources i b) d (fun _ _ => True).
Proof.
  intros Hd. unfold resendRecovery. case_match; [auto with evener|]. apply robust_atomic; [done|].
  destruct (js_set sources) as [|id0 ids0]; [by wp_run|]. wp_step. apply wp_sources_present.
  intros present. wp_step; [by wp_run|]. wp_step. apply wp_enqueueRecord; [done|]. intros Hf.
  wp_step. apply (wp_for_each_seq wf).
  - by apply enqueued_wf; [apply crossed_state_outbox|..].
  - intros x d' _ Hd'. wp_run. by apply wf_delete.
  - intros d' Hd'. wp_run. apply wf_sequence; [done|lia|lia].
Qed.

Lemma robust_acknowledge ref id d : wf d -> robust wf (acknowledgeRecoveryResend ref id) d (fun _ _ => True).
Proof.
  intros Hd. apply robust_atomic; [done|]. wp_run. apply wf_sequence; [done|lia|lia].
Qed.

(** ** Deletes, release and reconciliation *)

Lemma robust_delete_row t id P (k : Z -> bool) d :
  wf d -> robust wf (Bind (delete_row t id P) (fun n => Ret (k n))) d (fun _ _ => True).
Proof.
  intros Hd. apply robust_bind, robust_stmt; [done|].
  change (wp (delete_row t id P) d
    (fun d' n => wf d' /\ robust wf (Ret (k n)) d' (fun _ _ => True))).
  rewrite wp_delete_row. destruct (tbl t d !! id) as [r|]; [destruct (P r)|];
    split; auto with evener.
Qed.

Lemma robust_release id ref b d : wf d -> robust wf (releaseCanceled id ref b) d (fun _ _ => True).
Proof.
  intros Hd. apply robust_atomic; [done|]. wp_step. wp_step. simpl.
  destruct (t_outbox d !! id) as [r|] eqn:Hr; simpl; [|by wp_run].
  wp_step; [by wp_run|]. apply orb_false_iff in Heqb0 as [_ Href%negb_false_iff%String.eqb_eq].
  simpl in Href. wp_run; [done|]. simpl. rewrite Hr. intros Hi. wp_run.
  set (d1 := set_sequences _ d) in *.
  assert (Hd1 : wf d1) by (apply wf_sequence; [done|lia|lia]).
  pose proof (wf_outbox_row d1 id r Hd1 Hr) as Hok.
  apply (wf_update d1 outbox id r); [done|done| |done].
  assert (Hseq : seq_in (sequences d1) ref = mkSequence (last_sequence (sequence_of ref d) + 1)
    (stop_epoch (sequence_of ref d)) (recovery_resends (sequence_of ref d))).
  { simpl. by rewrite seq_in_insert, decide_True. }
  assert (Hpos := rows_wf_sequences d (proj1 Hd) ref). rewrite <- sequence_of_seq_in in Hpos.
  apply row_ok_epoch; [apply row_ok_sequence; [apply row_ok_state|]|]; try done; simpl target_ref.
  - by rewrite Href, Hseq; simpl; lia.
  - unfold stop_epoch_of. rewrite Href, sequence_of_seq_in, Hseq. simpl. lia.
Qed.

Lemma robust_restore ref ids d : wf d -> robust wf (restoreProvenAbsent ref ids) d (fun _ _ => True).
Proof.
  intros Hd. apply robust_atomic; [done|]. wp_run. intros Hi. wp_run.
  apply (wf_fmap d outbox); [done| |done]. intros id r Hr. cbv beta.
  destruct (_ && _); [|done]. by apply row_ok_state.
Qed.

Lemma robust_prune ref b ids d : wf d -> robust wf (pruneUnlistedAccepted ref b ids) d (fun _ _ => True).
Proof.
  intros Hd. apply robust_atomic; [done|]. wp_run.
  destruct (filter _ _); wp_run; [done|]. by apply (wf_filter d optimistic).
Qed.

(** ** Retargeting *)

Lemma rewrite_payload_id to p :
  obj_get "clientMutationId" (rewrite_payload to p) = obj_get "clientMutationId" p.
Proof.
  unfold rewrite_payload. destruct (fence_of to), (as_string _);
    by rewrite ?obj_get_set_ne.
Qed.

(** What a retarget's loops keep: a well-formed database whose destination
    epoch has not moved. *)
Definition retargeting (to : Retarget) (e : Z) (d : db) : Prop :=
  wf d /\ e = stop_epoch_of (to_ref to) d.

Section retargeting.
Context (to : Retarget) (e : Z).

Lemma retargeting_allocate d :
  retargeting to e d ->
  let s := sequence_of (to_ref to) d in
  retargeting to e (set_sequences
    (<[to_ref to := mkSequence (last_sequence s + 1) (stop_epoch s) (recovery_resends s)]> (sequences d)) d).
Proof.
  intros [Hd He]. split; [apply wf_sequence; [done|lia|lia]|].
  by rewrite stop_epoch_after_allocate.
Qed.

Lemma retargeting_write d t id r r' :
  retargeting to e d -> tbl t d !! id = Some r -> row_ok (sequences d) t id r' ->
  index_ok t (<[id := r']> (tbl t d)) = true ->
  retargeting to e (set_tbl t (<[id := r']> (tbl t d)) d).
Proof.
  intros [Hd He] Hr Hok Hi. split; [by eapply wf_update|].
  unfold stop_epoch_of, sequence_of. rewrite sequences_set_tbl. apply He.
Qed.

(** One keyed UPDATE of a loop, on whatever the table holds by then. *)
Lemma wp_move d t id f :
  retargeting to e d ->
  (forall r, tbl t d !! id = Some r -> row_ok (sequences d) t id r ->
             row_ok (sequences d) t id (f r)) ->
  wp (Bind (update_row t id (fun _ => true) (fun _ r => f r)) (fun _ => Ret tt)) d
    (fun d' _ => retargeting to e d').
Proof.
  intros Hd Hf. wp_run. destruct (tbl t d !! id) as [r|] eqn:Hr; [|by wp_run].
  intros Hi. wp_run. apply (retargeting_write d t id r); try done. apply Hf; [done|]. by apply (rows_wf_row d (proj1 (proj1 Hd)) t).
Qed.

Lemma wp_move_optimistic row d :
  retargeting to e d -> wp (move_optimistic to row) d (fun d' _ => retargeting to e d').
Proof.
  intros Hd. unfold move_optimistic. wp_step. wp_step. apply wp_move.
  - by apply retargeting_allocate.
  - intros r _ (? & ? & ? & ? & ?). by repeat split.
Qed.

Lemma wp_move_recovery row d :
  obj_get "clientMutationId" (row_payload row) = Some (JStr (client_mutation_id row)) ->
  retargeting to e d -> wp (move_recovery to row) d (fun d' _ => retargeting to e d').
Proof.
  intros Hp Hd. apply (wp_move d recovery); [done|].
  intros r _ (? & ? & ? & ?). repeat split; try done. simpl. by rewrite rewrite_payload_id.
Qed.

Lemma wp_move_outbox row d :
  obj_get "clientMutationId" (row_payload row) = Some (JStr (client_mutation_id row)) ->
  retargeting to e d -> wp (move_outbox to e row) d (fun d' _ => retargeting to e d').
Proof.
  intros Hp Hd. unfold move_outbox. wp_step. wp_step.
  pose proof (rows_wf_sequences d (proj1 (proj1 Hd)) (to_ref to)) as [Hn He].
  rewrite <- sequence_of_seq_in in Hn, He. destruct Hd as [Hwf Heq].
  apply (wp_move _ outbox); [by apply retargeting_allocate|].
  intros r _ (? & ? & ? & ? & ? & ? & ? & ?). split; [done|]. split; [simpl; by rewrite rewrite_payload_id|].
  simpl. rewrite seq_in_insert, decide_True by done. simpl.
  unfold stop_epoch_of in Heq. split_and!; try done; lia.
Qed.
End retargeting.

Lemma row_payload_id d t r P :
  wf d -> r ∈ sort_by intent_sequence (rows_where P (tbl t d)) ->
  obj_get "clientMutationId" (row_payload r) = Some (JStr (client_mutation_id r)).
Proof.
  intros [Hd _] (id & Hr & _)%elem_of_sort_by%elem_of_rows_where.
  by apply (rows_wf_row d Hd) in Hr as (-> & ? & _).
Qed.

Lemma robust_retarget ref to d : wf d -> robust wf (retarget ref to) d (fun _ _ => True).
Proof.
  intros Hd. unfold retarget. case_match; [auto with evener|]. case_match; [auto with evener|].
  apply robust_atomic; [done|]. wp_step. wp_step.
  destruct (sort_by _ _) as [|r0 rows0] eqn:E; [by wp_run|].
  assert (Hrows : Forall (fun r => obj_get "clientMutationId" (row_payload r)
                                     = Some (JStr (client_mutation_id r))) (r0 :: rows0)).
  { apply Forall_forall. intros r Hr. rewrite <- E in Hr. by eapply row_payload_id. }
  set (rows := r0 :: rows0) in *. clearbody rows. clear E.
  wp_step. wp_step. wp_step.
  match goal with |- wp _ _ ?Q => set (K := Q); assert (Hk : forall d', wf d' -> K d' tt) end.
  { unfold K. clear d Hd. intros d Hd. do 5 wp_step.
    apply (wp_for_each_seq (retargeting to (stop_epoch_of (to_ref to) d))); [done| |].
    { intros row d' _. apply wp_move_optimistic. }
    intros d1 Hd1. do 3 wp_step. apply (wp_for_each_seq (retargeting to (stop_epoch_of (to_ref to) d))); [done| |].
    { intros row d' Hin. apply wp_move_recovery. eapply row_payload_id; [apply Hd1|done]. }
    intros d2 Hd2. wp_step. apply (wp_for_each_seq (retargeting to (stop_epoch_of (to_ref to) d))); [done| |].
    { intros row d' Hin. apply wp_move_outbox. by eapply Forall_forall in Hrows. }
    intros d3 Hd3. wp_run. apply Hd3. }
  clearbody K.
  destruct (recovery_resends _); [by wp_run; apply Hk|].
  wp_run. apply Hk. apply wf_sequence; [apply wf_sequence; [done|lia|lia]|lia|lia].
Qed.

Lemma robust_markUnknown d id s o : wf d -> robust wf (markUnknown id s o) d (fun _ _ => True).
Proof.
  intros Hd. unfold markUnknown. case_match eqn:Hs; [auto with evener|].
  apply negb_false_iff, bool_decide_eq_true in Hs as ->.
  apply robust_update_row_seq; [done| |auto with evener].
  intros r Hr Hc. apply row_ok_state; [by apply wf_outbox_row|done|done].
Qed.

(** ** Every operation, every fault *)

Lemma robust_perform o d : wf d -> robust wf (perform o) d (fun _ _ => True).
Proof.
  intros Hd. destruct o; simpl; try apply robust_discard; 
    eauto using robust_enqueueIntent, robust_interrupt, robust_markAttempted,
      robust_unmarkAttempted, robust_settleReceipt, robust_settleApplied, robust_transfer,
      robust_retarget, robust_edit, robust_remove, robust_resend, robust_acknowledge,
      robust_release, robust_restore, robust_prune, robust_markUnknown.
  - by apply (robust_delete_row recovery).
  - by apply (robust_delete_row outbox).
Qed.

Lemma step_wf d o d' : step d o d' -> wf d -> wf d'.
Proof.
  intros [d0 o0 faults] Hd. pose proof (robust_perform o0 d0 Hd faults) as H.
  destruct (run (perform o0) faults d0) as [[fs d1] [a|e]]; simpl; naive_solver.
Qed.

Lemma wf_empty : wf empty_db.
Proof.
  split; [split|].
  - by intros [] id r.
  - by intros [].
  - by intros ref.
  - by intros [] t' id [r Hr].
Qed.
