(* ===== verification/NativePort.v ===== *)
(** The native outbox as the dispatcher's storage: MutationOutboxSQLite implements
    MutationOutboxStorage and keeps the queue the dispatcher relies on. *)

From S2P Require Import Prelude JsString Json Wire Sql Records Effects Dispatcher.
From S2P Require Import DispatcherFacts StoragePort NativeOutbox NativeOutboxFacts.
From S2P Require Import NativeInvariant.

Local Open Scope string_scope.

(** ** The queue of a target *)

Definition in_play (ref : string) (r : Row) : bool := at_ref ref r && is_in_play (row_state r).

(** The rows [nextDispatchable] ranges over, in its order. *)
Definition queue_rows (ref : string) (d : db) : list Row :=
  sort_by intent_sequence (rows_where (in_play ref) (t_outbox d)).

Definition queue_entry (r : Row) : queued := (client_mutation_id r, row_payload r).

Definition queue (ref : string) (d : db) : list queued := queue_entry <$> queue_rows ref d.

(** What ordering and sending see of a row. *)
Definition view (r : Row) : Z * queued := (intent_sequence r, queue_entry r).

Lemma in_play_spec ref r : in_play ref r = true <-> target_ref r = ref /\ is_in_play (row_state r) = true.
Proof. unfold in_play, at_ref. rewrite andb_true_iff, String.eqb_eq. done. Qed.

Lemma insert_by_map {A B} (f : A -> B) (k : B -> Z) x l :
  f <$> insert_by (fun a => k (f a)) x l = insert_by k (f x) (f <$> l).
Proof.
  induction l as [|y l IH]; [done|]. rewrite fmap_cons. cbn [insert_by].
  destruct (k (f x) <=? k (f y))%Z; rewrite fmap_cons; [done|]. by rewrite IH.
Qed.

Lemma sort_by_map {A B} (f : A -> B) (k : B -> Z) l :
  f <$> sort_by (fun a => k (f a)) l = sort_by k (f <$> l).
Proof.
  induction l as [|x l IH]; [done|]. unfold sort_by in *. cbn [foldr].
  rewrite insert_by_map, IH. done.
Qed.

Lemma queue_views ref d :
  queue ref d = (sort_by fst (view <$> rows_where (in_play ref) (t_outbox d))).*2.
Proof.
  unfold queue, queue_rows. rewrite <- (sort_by_map view fst).
  by rewrite <- list_fmap_compose.
Qed.

Lemma elem_of_views ref d v :
  v ∈ view <$> rows_where (in_play ref) (t_outbox d) <->
  exists id r, t_outbox d !! id = Some r /\ in_play ref r = true /\ v = view r.
Proof.
  rewrite list_elem_of_fmap. split.
  - intros (r & -> & (id & Hr & HP)%elem_of_rows_where). eauto.
  - intros (id & r & Hr & HP & ->). exists r. split; [done|]. apply elem_of_rows_where. eauto.
Qed.

(** Rows kept by a predicate, listed once per id. *)
Lemma rows_where_nodup {B} (f : Row -> B) P m :
  (forall i j r s, m !! i = Some r -> m !! j = Some s -> P r = true -> P s = true ->
     f r = f s -> i = j) ->
  NoDup (f <$> rows_where P m).
Proof.
  intros Hf. unfold rows_where.
  assert (Hall : forall i r, (i, r) ∈ map_to_list m -> m !! i = Some r) by (intros; by apply elem_of_map_to_list).
  pose proof (NoDup_fst_map_to_list m) as Hnd. induction (map_to_list m) as [|[i r] l IH]; [constructor|].
  simpl in Hnd. apply NoDup_cons in Hnd as [Hi Hnd]. simpl.
  assert (IH' : NoDup (f <$> filter (fun r => P r = true) l.*2)).
  { apply IH; [|done]. intros. apply Hall. by right. }
  rewrite filter_cons. case_decide as HP; [|done]. simpl. apply NoDup_cons. split; [|done].
  intros (s & Es & [HPs Hs]%list_elem_of_filter)%list_elem_of_fmap.
  apply list_elem_of_fmap in Hs as ([j s'] & -> & Hj). simpl in *.
  assert (i = j) as <-.
  { apply (Hf i j r s'); try done; apply Hall; [by left|by right]. }
  apply Hi. exact (list_elem_of_fmap_2 fst l (i, s') Hj).
Qed.

Lemma views_nodup ref d :
  wf d -> NoDup (fst <$> (view <$> rows_where (in_play ref) (t_outbox d))).
Proof.
  intros [Hd _]. rewrite <- list_fmap_compose. apply rows_where_nodup.
  intros i j r s Hi Hj [Hr _]%in_play_spec [Hs _]%in_play_spec E.
  pose proof (rows_wf_index d Hd outbox) as Hidx. apply index_ok_spec in Hidx; [|done].
  apply (Hidx _ _ Hi _ _ Hj). unfold sequence_key. simpl in E. congruence.
Qed.

(** The queue's ids are distinct. *)
Lemma queue_nodup ref d : wf d -> NoDup (queue ref d).*1.
Proof.
  intros Hd. unfold queue, queue_rows. rewrite <- list_fmap_compose, (sort_by_perm intent_sequence).
  apply rows_where_nodup. intros i j r s Hi Hj _ _ E.
  apply (wf_outbox_row _ _ _ Hd) in Hi as [<- _], Hj as [<- _]. done.
Qed.

(** *** Narrowing *)

(** Every row in play afterwards was in play before, in its place. *)
Definition narrower (d d' : db) : Prop :=
  forall id r', t_outbox d' !! id = Some r' -> is_in_play (row_state r') = true ->
    exists r, t_outbox d !! id = Some r /\ is_in_play (row_state r) = true /\
      target_ref r = target_ref r' /\ view r = view r'.

Lemma narrower_refl d : narrower d d.
Proof. intros id r Hr Hs. by exists r. Qed.

Lemma narrower_trans d1 d2 d3 : narrower d1 d2 -> narrower d2 d3 -> narrower d1 d3.
Proof.
  intros H1 H2 id r Hr Hs. destruct (H2 id r Hr Hs) as (r2 & Hr2 & Hs2 & Ht & Hv).
  destruct (H1 id r2 Hr2 Hs2) as (r1 & ? & ? & ? & ?). exists r1. split_and!; congruence.
Qed.

Lemma narrower_queue ref d d' :
  wf d -> wf d' -> narrower d d' -> queue ref d' `sublist_of` queue ref d.
Proof.
  intros Hd Hd' Hn. rewrite !queue_views. apply fmap_sublist.
  apply (strict_sublist fst); [by apply sort_by_strict, views_nodup..|].
  intros v. rewrite !elem_of_sort_by, !elem_of_views.
  intros (id & r' & Hr' & [Ht Hs]%in_play_spec & ->).
  destruct (Hn id r' Hr' Hs) as (r & Hr & Hs' & Ht' & Hv). exists id, r.
  split_and!; [done| |done]. apply in_play_spec. split; congruence.
Qed.

Lemma narrower_queue_eq ref d d' :
  wf d -> wf d' -> narrower d d' -> narrower d' d -> queue ref d' = queue ref d.
Proof.
  intros ????. apply (anti_symm sublist); by apply narrower_queue.
Qed.

(** An update that keeps a row's place, and puts none in play. *)
Definition keeps_place (f : Row -> Row) (r : Row) : Prop :=
  target_ref (f r) = target_ref r /\ view (f r) = view r /\
  (is_in_play (row_state (f r)) = true -> is_in_play (row_state r) = true).

Lemma narrower_same d d' : t_outbox d' = t_outbox d -> narrower d d'.
Proof. intros E id r. rewrite E. apply narrower_refl. Qed.

Lemma narrower_insert d id r f :
  t_outbox d !! id = Some r -> keeps_place f r ->
  narrower d (set_tbl outbox (<[id := f r]> (t_outbox d)) d).
Proof.
  intros Hr (Ht & Hv & Hs) id' r'. simpl. intros [[<- <-]|[Hne Hr']]%lookup_insert_Some Hs'.
  - exists r. split_and!; auto; congruence.
  - by apply narrower_refl.
Qed.

Lemma narrower_delete d id : narrower d (set_tbl outbox (delete id (t_outbox d)) d).
Proof. intros id' r'. simpl. intros [_ H]%lookup_delete_Some. by apply narrower_refl. Qed.

#[export] Hint Resolve narrower_refl narrower_same narrower_delete : evener.

(** ** The port's calls over the database *)

Definition native_call {A} (p : stmt A) (d : db) : db * (A + rejection) :=
  match exec p d with
  | (d', inl a) => (d', inl a)
  | (d', inr e) => (d', inr (as_rejection e))
  end.

#[export] Instance native_storage (host : Host) : MutationOutboxStorage db := {
  port_nextDispatchable ref := native_call (nextDispatchable ref);
  port_getOutbox id := native_call (getOutbox id);
  port_markAttempted id := native_call (markAttempted id);
  port_unmarkAttempted id := native_call (unmarkAttempted id);
  port_markUnknown id := native_call (markUnknown id blockedUnknown false);
  port_settleReceipt id p := native_call (settleReceipt host id p);
  port_settleApplied id := native_call (settleApplied id);
  (** The native adapter takes no delivery-uncertainty option. *)
  port_transferToRecovery id k m _ := native_call (transferToRecovery id k m);
  port_restoreProvenAbsent ref ids := native_call (restoreProvenAbsent ref ids)
}.

Lemma native_call_1 {A} (p : stmt A) d : (native_call p d).1 = (exec p d).1.
Proof. unfold native_call. by destruct (exec p d) as [d' [a|e]]. Qed.

Lemma native_call_no_wire {A} (p : stmt A) d e : is_wire e = true -> (native_call p d).2 <> inr e.
Proof.
  intros He. unfold native_call. destruct (exec p d) as [d' [a|e']]; [done|].
  intros [= <-]. done.
Qed.

(** A robust invariant holds of what a healthy call leaves. *)
Lemma robust_exec {A} I (p : stmt A) d Q : robust I p d Q -> I (exec p d).1.
Proof.
  intros H. specialize (H []). rewrite run_exec in H. destruct (exec p d) as [d' [a|e]]; naive_solver.
Qed.

(** ** Every dispatcher call narrows *)

Section narrowing.
Context (d0 : db).
Notation narrowing p d := (robust (narrower d0) p d (fun _ _ => True)).

Lemma narrowing_update {A} id P f (k : Z -> stmt A) d :
  narrower d0 d ->
  (forall r, P r = true -> keeps_place (f d) r) ->
  (forall d' n, narrower d0 d' -> narrowing (k n) d') ->
  narrowing (Bind (update_row outbox id P f) k) d.
Proof.
  intros Hd Hf Hk. apply robust_bind, robust_stmt; [done|].
  change (wp (update_row outbox id P f) d (fun d' n => narrower d0 d' /\ narrowing (k n) d')).
  rewrite wp_update_row. simpl. destruct (t_outbox d !! id) as [r|] eqn:Hr; [|auto].
  destruct (P r) eqn:HP; [|auto]. intros _.
  assert (narrower d0 (set_tbl outbox (<[id := f d r]> (t_outbox d)) d)); [|auto].
  eapply narrower_trans; [done|]. apply narrower_insert; [done|by apply Hf].
Qed.

Lemma narrowing_ret {A} (a : A) d : narrower d0 d -> narrowing (Ret a) d.
Proof. intros. by apply robust_ret. Qed.
#[local] Hint Resolve narrowing_ret : evener.

Lemma narrowing_seed {A} id (k : unit -> stmt A) d :
  narrower d0 d -> (forall d', narrower d0 d' -> narrowing (k tt) d') ->
  narrowing (Bind (seedLegacyAttemptCount id) k) d.
Proof.
  intros Hd Hk. apply robust_bind. eapply (robust_mono _ _ _ (fun _ _ => True)).
  - apply narrowing_update; [done|by intros|auto with evener].
  - intros d' [] Hd' _. auto.
Qed.

Lemma narrowing_unmark id d : narrower d0 d -> narrowing (unmarkAttempted id) d.
Proof.
  intros Hd. apply narrowing_seed; [done|]. clear d Hd. intros d Hd.
  apply robust_bind, robust_select_row; [done|]. simpl.
  destruct (t_outbox d !! id) as [r|]; [|auto with evener].
  assert (Hup : forall s f (b : bool), (forall r, row_state r = s -> keeps_place f r) ->
    narrowing (Bind (update_row outbox id (is_state s) (fun _ => f)) (fun _ => Ret b)) d).
  { intros s f b Hf. apply narrowing_update; [done| |auto with evener].
    intros r' Hr'%is_state_true. by apply Hf. }
  destruct (row_state r); auto with evener.
  - apply robust_bind. case_match.
    + apply robust_bind, robust_stopEpochOf; [done|]. apply robust_ret; [done|].
      case_match; apply Hup; by intros r' Hr'.
    + apply robust_ret; [done|]. by apply Hup.
  - case_match; [by apply Hup|]. apply robust_bind, robust_stopEpochOf; [done|].
    apply Hup. intros r' Hr'. split_and!; [done|done|]. by rewrite Hr'.
Qed.

End narrowing.

Lemma narrower_markUnknown id o d :
  wf d -> robust (narrower d) (markUnknown id blockedUnknown o) d (fun _ _ => True).
Proof.
  intros Hd. apply robust_bind, robust_stmt; [auto with evener|].
  change (wp (update_row outbox id (fun r => negb (is_state canceled r) && (negb o || row_attempted r))
    (fun _ r => row_update_state blockedUnknown r)) d (fun d' n => narrower d d' /\
      robust (narrower d) (Ret (0 <? n)%Z) d' (fun _ _ => True))).
  rewrite wp_update_row. simpl. destruct (t_outbox d !! id) as [r|] eqn:Hr;
    [|split; [|apply robust_ret]; auto with evener].
  destruct (_ && _) eqn:Hc; [|split; [|apply robust_ret]; auto with evener]. intros _.
  assert (narrower d (set_tbl outbox (<[id := row_update_state blockedUnknown r]> (t_outbox d)) d)).
  { apply narrower_insert; [done|]. split_and!; [done|done|]. intros _.
    apply andb_prop in Hc as [Hc%negb_true_iff _]. unfold is_state in Hc.
    apply (wf_outbox_row _ _ _ Hd) in Hr as (_ & _ & Hs & _). by destruct (row_state r). }
  split; [done|]. by apply robust_ret.
Qed.

(** The savepoints that settle or move a record touch the outbox only to delete
    the record's own row, and have deleted it when they return. *)
Definition outbox_without (id : string) (d d' : db) : Prop :=
  t_outbox d' = delete id (t_outbox d).

Lemma wp_settleReceipt_outbox host id p d :
  wf d -> wp (settleReceipt host id p) d (fun d' _ => outbox_without id d d').
Proof.
  intros Hd. unfold settleReceipt. wp_run. simpl.
  destruct (first_some _ _) as [source|] eqn:Hs; wp_run.
  2: { destruct (t_outbox d !! id) eqn:E; [done|]. unfold outbox_without. by rewrite delete_id. }
  rewrite wp_discardSuperseded.
  set (d1 := if String.eqb _ _ then _ else d).
  assert (H1 : t_outbox d1 = t_outbox d) by (unfold d1; by case_match). clearbody d1.
  destruct (t_outbox d !! id) as [r|] eqn:E; simpl in *;
    repeat first [ progress wp_run | progress simpl | intros _
                 | match goal with
                   | |- wp (match ?x with _ => _ end) _ _ => destruct x
                   | |- match ?x with _ => _ end -> _ => destruct x
                   | |- match ?x with _ => _ end => destruct x
                   end ];
    unfold outbox_without; simpl; rewrite H1; try done; by rewrite delete_id.
Qed.

Lemma wp_settleApplied_outbox id d :
  wf d -> wp (settleApplied id) d (fun d' _ => outbox_without id d d').
Proof.
  intros Hd. unfold settleApplied. wp_run. simpl.
  destruct (first_some _ _) as [source|] eqn:Hs; wp_run.
  2: { destruct (t_outbox d !! id) eqn:E; [done|]. unfold outbox_without. by rewrite delete_id. }
  rewrite wp_discardSuperseded. set (d1 := if String.eqb _ _ then _ else d).
  assert (H1 : t_outbox d1 = t_outbox d) by (unfold d1; by case_match). clearbody d1.
  wp_run. unfold outbox_without. simpl. by rewrite H1.
Qed.

Lemma wp_transfer_outbox id k m d :
  wf d -> wp (transferToRecovery id k m) d (fun d' _ => outbox_without id d d').
Proof.
  intros Hd. unfold transferToRecovery. wp_run. simpl.
  destruct (t_outbox d !! id) as [r|] eqn:E; simpl; wp_run.
  - intros _. by wp_run.
  - unfold outbox_without. by rewrite delete_id.
Qed.

Lemma narrower_without id d d' : outbox_without id d d' -> narrower d d'.
Proof. intros E id' r'. rewrite E. intros [_ H]%lookup_delete_Some. by apply narrower_refl. Qed.

Lemma gone_without id d d' ref : wf d -> wf d' -> outbox_without id d d' -> id ∉ (queue ref d').*1.
Proof.
  intros Hd Hd' E Hin. unfold queue, queue_rows in Hin. rewrite <- list_fmap_compose in Hin.
  apply list_elem_of_fmap in Hin as (r & Ei & (i & Hi & _)%elem_of_sort_by%elem_of_rows_where).
  rewrite E in Hi. apply lookup_delete_Some in Hi as [Hne Hi].
  apply (wf_outbox_row _ _ _ Hd) in Hi as [Hi _]. simpl in Ei. congruence.
Qed.

(** ** The instance *)

Section call_facts.
Context (d : db) (Hd : wf d).

Lemma native_wf {A} (p : stmt A) Q : robust wf p d Q -> wf (native_call p d).1.
Proof. intros H. rewrite native_call_1. by eapply robust_exec. Qed.

Lemma native_shrinks {A} (p : stmt A) Q Q' :
  robust wf p d Q -> robust (narrower d) p d Q' -> shrinks wf queue d (native_call p d).1.
Proof.
  intros Hw Hn. pose proof (native_wf p Q Hw) as Hwf. split; [done|]. intros ref.
  apply narrower_queue; [done..|]. rewrite native_call_1. by eapply robust_exec.
Qed.

(** A savepoint that throws leaves the database it started from. *)
Lemma native_savepoint {A} name (p : stmt A) (R : db -> Prop) :
  R d -> wp (withSavepoint name p) d (fun d' _ => R d') -> R (native_call (withSavepoint name p) d).1.
Proof.
  intros Hr. unfold withSavepoint, wp. rewrite native_call_1. unfold native_call.
  rewrite exec_savepoint. by destruct (exec p d) as [d' [a|e]].
Qed.

Lemma native_ok {A} (p : stmt A) (R : db -> Prop) a :
  wp p d (fun d' _ => R d') -> (native_call p d).2 = inl a -> R (native_call p d).1.
Proof. unfold wp, native_call. by destruct (exec p d) as [d' [a'|e]]. Qed.

Lemma native_savepoint_shrinks {A} name (p : stmt A) id Q :
  robust wf (withSavepoint name p) d Q ->
  wp (withSavepoint name p) d (fun d' _ => outbox_without id d d') ->
  shrinks wf queue d (native_call (withSavepoint name p) d).1.
Proof.
  intros Hw Hp. pose proof (native_wf _ Q Hw) as Hwf. split; [done|]. intros ref.
  apply narrower_queue; [done..|]. apply (native_savepoint name p (narrower d)); [apply narrower_refl|].
  eapply wp_mono; [done|]. intros d' a. apply narrower_without.
Qed.
End call_facts.

(** The head of the queue, when the storage offers one. *)
Lemma next_offers ref d :
  wf d -> exists o, exec (nextDispatchable ref) d = (d, inl o) /\
    forall r, o = Some r -> state r = submitting /\
      (exists q, queue ref d = (clientMutationId r, payload r) :: q) /\
      exec (getOutbox (clientMutationId r)) d = (d, inl (Some r)).
Proof.
  intros Hd. unfold nextDispatchable. rewrite exec_bind, exec_select_ordered.
  change (fun r => at_ref ref r && is_in_play (row_state r)) with (in_play ref).
  change (sort_by intent_sequence (rows_where (in_play ref) (tbl outbox d))) with (queue_rows ref d).
  unfold queue. destruct (queue_rows ref d) as [|r q] eqn:E; [by exists None|].
  assert (Hr : r ∈ queue_rows ref d) by (rewrite E; by left).
  apply elem_of_sort_by, elem_of_rows_where in Hr as (id & Hr & [_ Hs]%in_play_spec).
  destruct (is_state blockedUnknown r) eqn:Hb; rewrite exec_ret; [by exists None|].
  exists (Some (fromRow r)). split; [done|]. intros r' [= <-]. split; [|split; [by exists (queue_entry <$> q)|]].
  - simpl. unfold is_state in Hb. destruct (row_state r); try done.
  - unfold getOutbox. rewrite exec_get. simpl.
    pose proof (wf_outbox_row _ _ _ Hd Hr) as [-> _]. by rewrite Hr.
Qed.

(** *** Marking *)

(** A row with its legacy attempt counted. *)
Definition seeded_row (r : Row) : Row :=
  if row_attempted r && (unresolved_attempts r =? 0)%Z
  then row_update_attempts (row_attempted r) 1 r else r.

(** The row [markAttempted] leaves of a submitting row. *)
Definition marked_row (d : db) (r : Row) : Row :=
  let r1 := seeded_row r in
  let r2 := if (stop_epoch_at_enqueue r1 =? 0)%Z
            then row_update_epoch (stop_epoch_of (target_ref r1) d) r1 else r1 in
  row_update_attempts true (unresolved_attempts r2 + 1) r2.

Definition put_outbox (id : string) (r : Row) (d : db) : db :=
  set_tbl outbox (<[id := r]> (t_outbox d)) d.

Lemma put_outbox_twice id r r' d : put_outbox id r (put_outbox id r' d) = put_outbox id r d.
Proof. unfold put_outbox. simpl. by rewrite insert_insert_eq. Qed.

Lemma put_outbox_same id r d : t_outbox d !! id = Some r -> put_outbox id r d = d.
Proof. intros Hr. unfold put_outbox. rewrite insert_id by done. apply (set_tbl_same outbox). Qed.

Lemma put_outbox_lookup id r d : t_outbox (put_outbox id r d) !! id = Some r.
Proof. apply lookup_insert_eq. Qed.

Lemma stop_epoch_put ref id r d : stop_epoch_of ref (put_outbox id r d) = stop_epoch_of ref d.
Proof. done. Qed.

(** A keyed update that keeps the row's key succeeds. *)
Lemma exec_put d id r P f :
  wf d -> t_outbox d !! id = Some r -> P r = true -> sequence_key (f d r) = sequence_key r ->
  exec (update_row outbox id P f) d = (put_outbox id (f d r) d, inl 1%Z).
Proof.
  intros [Hd _] Hr HP Hk. apply exec_update_row; [done..|].
  eapply index_ok_update; [done|done|]. apply (rows_wf_index d Hd outbox).
Qed.

Lemma exec_put_skip d id r P f :
  t_outbox d !! id = Some r -> P r = false -> exec (update_row outbox id P f) d = (d, inl 0%Z).
Proof. intros Hr HP. apply exec_update_row_skip. intros r' Hr'. simpl in Hr'. congruence. Qed.

Lemma wf_put d id r r' :
  wf d -> t_outbox d !! id = Some r -> row_ok (sequences d) outbox id r' ->
  sequence_key r' = sequence_key r -> wf (put_outbox id r' d).
Proof.
  intros Hd Hr Hok Hk. apply (wf_update d outbox id r); [done..|].
  eapply index_ok_update; [done|done|]. apply (rows_wf_index d (proj1 Hd) outbox).
Qed.

Lemma seeded_row_ok S id r : row_ok S outbox id r -> row_ok S outbox id (seeded_row r).
Proof.
  intros Hok. unfold seeded_row. destruct (row_attempted r) eqn:Ha; [|done]. simpl.
  case_match; [|done]. apply row_ok_attempts; [done|lia|done|].
  intros Hc. destruct Hok as (_ & _ & _ & _ & _ & (_ & _ & H') & _). specialize (H' Hc). congruence.
Qed.

Lemma exec_seed d id r :
  wf d -> t_outbox d !! id = Some r ->
  exec (seedLegacyAttemptCount id) d = (put_outbox id (seeded_row r) d, inl tt).
Proof.
  intros Hd Hr. unfold seedLegacyAttemptCount, seeded_row. rewrite exec_bind.
  destruct (row_attempted r && _) eqn:Hc.
  - by rewrite (exec_put d id r).
  - rewrite (exec_put_skip d id r) by done. by rewrite put_outbox_same.
Qed.

Lemma exec_markAttempted d id r :
  wf d -> t_outbox d !! id = Some r -> row_state r = submitting ->
  exec (markAttempted id) d = (put_outbox id (marked_row d r) d, inl true).
Proof.
  intros Hd Hr Hs. unfold markAttempted, marked_row. rewrite exec_bind, (exec_seed d id r) by done.
  assert (Hs1 : is_state submitting (seeded_row r) = true).
  { unfold is_state, seeded_row. case_match; by apply bool_decide_eq_true. }
  pose proof (seeded_row_ok _ _ _ (wf_outbox_row _ _ _ Hd Hr)) as Hok1.
  set (r1 := seeded_row r) in *. set (d1 := put_outbox id r1 d).
  assert (Hk : sequence_key r1 = sequence_key r) by (unfold r1, seeded_row; by case_match).
  assert (Hd1 : wf d1) by (by apply (wf_put d id r)).
  assert (Hr1 : t_outbox d1 !! id = Some r1) by apply put_outbox_lookup.
  rewrite exec_bind. destruct (stop_epoch_at_enqueue r1 =? 0)%Z eqn:He.
  - rewrite (exec_put d1 id r1) by (try done; by rewrite Hs1, He).
    set (r2 := row_update_epoch _ r1). set (d2 := put_outbox id r2 d1).
    assert (Hd2 : wf d2).
    { apply (wf_put d1 id r1); [done..| |done]. apply row_ok_epoch; [done|]. simpl.
      unfold stop_epoch_of. rewrite sequence_of_seq_in. split; [apply Hd|apply Z.le_refl]. }
    rewrite exec_bind, (exec_put d2 id r2) by (done || apply put_outbox_lookup).
    rewrite exec_ret. unfold d2, d1, r2. by rewrite !put_outbox_twice.
  - rewrite (exec_put_skip d1 id r1) by (try done; by rewrite Hs1, He).
    rewrite exec_bind, (exec_put d1 id r1) by done.
    rewrite exec_ret. unfold d1. by rewrite !put_outbox_twice.
Qed.

Lemma marked_row_place d r :
  keeps_place (marked_row d) r /\ row_state (marked_row d r) = row_state r.
Proof. unfold marked_row, seeded_row, keeps_place. by repeat case_match. Qed.

#[export] Program Instance native_fifo (host : Host) :
    FifoStorage db (H := native_storage host) := {
  st_inv := wf;
  st_queue := queue
}.
Next Obligation. intros. by apply queue_nodup. Qed.
Next Obligation.
  intros host ref d Hd. destruct (next_offers ref d Hd) as (o & Hn & Ho). exists o.
  simpl. unfold native_call. rewrite Hn. split; [done|]. intros r Hr.
  destruct (Ho r Hr) as (? & ? & Hg). by rewrite Hg.
Qed.
Next Obligation.
  intros host id d rec Hd Hg Hs. simpl in *. unfold native_call, getOutbox in *.
  rewrite exec_get in Hg. simpl in Hg. destruct (t_outbox d !! id) as [r|] eqn:Hr; [|done].
  simpl in Hg. simplify_eq. simpl in Hs. rewrite (exec_markAttempted d id r) by done.
  exists (put_outbox id (marked_row d r) d), true. split; [done|].
  destruct (marked_row_place d r) as [Hp Hst].
  pose proof (robust_exec _ _ _ _ (robust_markAttempted d id Hd)) as Hwf.
  rewrite (exec_markAttempted d id r) in Hwf by done. split; [done|].
  intros ref. apply narrower_queue_eq; [done..| |].
  - by apply narrower_insert.
  - intros id' r' Hr' Hp'. destruct (decide (id = id')) as [<-|Hne].
    + assert (r' = r) as -> by congruence. exists (marked_row d r). rewrite put_outbox_lookup.
      destruct Hp as (Ht & Hv & _). split_and!; try done. congruence.
    + exists r'. simpl. by rewrite lookup_insert_ne.
Qed.
Next Obligation. done. Qed.
Next Obligation.
  intros host id d Hd. eapply native_shrinks; [done|by apply robust_unmarkAttempted|].
  apply narrowing_unmark, narrower_refl.
Qed.
Next Obligation.
  intros host id d Hd. eapply native_shrinks; [done| |by apply narrower_markUnknown].
  by apply robust_markUnknown.
Qed.
Next Obligation.
  intros host id p d Hd. eapply native_savepoint_shrinks; [done|by apply robust_settleReceipt|].
  by apply wp_settleReceipt_outbox.
Qed.
Next Obligation.
  intros host id p d ref b Hd Hb. apply (gone_without id d); [done| |].
  - eapply native_wf; by apply robust_settleReceipt.
  - apply (native_ok d (settleReceipt host id p) (outbox_without id d) b); [|done].
    by apply wp_settleReceipt_outbox.
Qed.
Next Obligation.
  intros host id d Hd. eapply native_savepoint_shrinks; [done|by apply robust_settleApplied|].
  by apply wp_settleApplied_outbox.
Qed.
Next Obligation.
  intros host id k m u d Hd. eapply native_savepoint_shrinks; [done|by apply robust_transfer|].
  by apply wp_transfer_outbox.
Qed.
Next Obligation.
  intros host id k m u d ref b Hd Hb. apply (gone_without id d); [done| |].
  - eapply native_wf; by apply robust_transfer.
  - apply (native_ok d (transferToRecovery id k m) (outbox_without id d) b); [|done].
    by apply wp_transfer_outbox.
Qed.
Next Obligation.
  intros host d e He. split_and!; intros; by apply native_call_no_wire.
Qed.
