(* ===== verification/NativeHistory.v ===== *)
(** What a history of operations can never do to the native outbox, whatever
    faults strike: lose atomicity, move a counter back, put a canceled send back
    in play without a release, or erase the evidence of an attempt. *)

From S2P Require Import Prelude JsString Json Wire Sql Records Effects Dispatcher.
From S2P Require Import DispatcherFacts StoragePort NativeOutbox NativeOutboxFacts.
From S2P Require Import NativeInvariant NativePort.

Local Open Scope string_scope.
Local Open Scope sql_scope.

(** ** Predicates a program keeps *)

(** Whatever faults strike and wherever the program stops, [P] still holds. *)
Definition keeps {A} (P : db -> Prop) (p : stmt A) : Prop :=
  forall faults d, P d -> P (run p faults d).1.2.

Section keeps.
Context (P : db -> Prop).

Lemma keeps_ret {A} (a : A) : keeps P (Ret a).
Proof. by intros faults d. Qed.

Lemma keeps_throw {A} e : keeps P (@Throw db A e).
Proof. by intros faults d. Qed.

Lemma keeps_stmt {A} (f : db -> (db * A) + js_error) :
  (forall d d' a, f d = inl (d', a) -> P d -> P d') -> keeps P (Stmt f).
Proof.
  intros Hf faults d Hd. simpl. destruct (tick faults) as [[e|] fs]; [done|].
  destruct (f d) as [[d' a]|e] eqn:E; [|done]. by eapply Hf.
Qed.

Lemma keeps_bind {A B} (p : stmt A) (k : A -> stmt B) :
  keeps P p -> (forall a, keeps P (k a)) -> keeps P (Bind p k).
Proof.
  intros Hp Hk faults d Hd. simpl. specialize (Hp faults d Hd).
  destruct (run p faults d) as [[fs d'] [a|e]]; [by apply Hk|done].
Qed.

Lemma keeps_savepoint {A} name (p : stmt A) : keeps P p -> keeps P (withSavepoint name p).
Proof.
  intros Hp faults d Hd. unfold withSavepoint. simpl. destruct (tick faults) as [[e|] fs]; [done|].
  specialize (Hp fs d Hd). destruct (run p fs d) as [[fs1 d'] [a|e]]; [|done].
  by destruct (tick fs1) as [[e|] fs2].
Qed.

Lemma keeps_for_each {A} (f : A -> stmt unit) l :
  (forall x, keeps P (f x)) -> keeps P (for_each l f).
Proof.
  intros Hf. induction l as [|x l IH]; simpl; [apply keeps_ret|]. by apply keeps_bind.
Qed.

Lemma keeps_read {A} (f : db -> A) : keeps P (Stmt (fun d => inl (d, f d))).
Proof. apply keeps_stmt. by intros d d' a [= <- _]. Qed.

Lemma keeps_write_table {A} t m (a : A) d d' b :
  write_table t m a d = inl (d', b) -> P (set_tbl t m d) -> P d'.
Proof. unfold write_table. case_match; [|done]. by intros [= <- _]. Qed.

Lemma keeps_update_row t id Q (f : db -> Row -> Row) :
  (forall d r, tbl t d !! id = Some r -> Q r = true -> P d ->
     P (set_tbl t (<[id := f d r]> (tbl t d)) d)) ->
  keeps P (update_row t id Q f).
Proof.
  intros Hf. apply keeps_stmt. intros d d' a. destruct (tbl t d !! id) as [r|] eqn:Hr; [|by intros [= <- _]].
  destruct (Q r) eqn:HQ; [|by intros [= <- _]]. intros E Hd. eapply keeps_write_table; [done|]. by apply Hf.
Qed.

Lemma keeps_update_where t (Q : Row -> bool) (f : Row -> Row) :
  (forall d, P d -> P (set_tbl t ((fun r : Row => if Q r then f r else r) <$> tbl t d) d)) ->
  keeps P (update_where t Q f).
Proof.
  intros Hf. apply keeps_stmt. intros d d' a E Hd. eapply keeps_write_table; [done|]. by apply Hf.
Qed.

Lemma keeps_delete_row t id Q :
  (forall d r, tbl t d !! id = Some r -> Q r = true -> P d -> P (set_tbl t (delete id (tbl t d)) d)) ->
  keeps P (delete_row t id Q).
Proof.
  intros Hf. apply keeps_stmt. intros d d' a. destruct (tbl t d !! id) as [r|] eqn:Hr; [|by intros [= <- _]].
  destruct (Q r) eqn:HQ; [|by intros [= <- _]]. intros [= <- _] Hd. by eapply Hf.
Qed.

Lemma keeps_delete_where t (Q : Row -> bool) :
  (forall d, P d -> P (set_tbl t (filter (fun ir => Q ir.2 = false) (tbl t d)) d)) ->
  keeps P (delete_where t Q).
Proof. intros Hf. apply keeps_stmt. intros d d' a [= <- _]. apply Hf. Qed.

Lemma keeps_insertNew t record :
  (forall d, tbl t d !! clientMutationId record = None -> P d ->
     P (set_tbl t (<[clientMutationId record := insertValues record 0 0]> (tbl t d)) d)) ->
  keeps P (insertNew t record).
Proof.
  intros Hf. apply keeps_stmt. intros d d' a. destruct (tbl t d !! _) eqn:Hr; [done|].
  intros E Hd. eapply keeps_write_table; [done|]. by apply Hf.
Qed.

Lemma keeps_replace t record :
  (forall d, P d -> P (set_tbl t (<[clientMutationId record := replaced d t record]> (tbl t d)) d)) ->
  keeps P (replace t record).
Proof.
  intros Hf. apply keeps_stmt. intros d d' a E Hd. eapply keeps_write_table; [done|]. by apply Hf.
Qed.

Lemma keeps_allocateSequence ref :
  (forall d, P d -> P (set_sequences (<[ref := mkSequence (last_sequence (sequence_of ref d) + 1)
     (stop_epoch (sequence_of ref d)) (recovery_resends (sequence_of ref d))]> (sequences d)) d)) ->
  keeps P (allocateSequence ref).
Proof. intros Hf. apply keeps_stmt. intros d d' a [= <- _]. apply Hf. Qed.

Lemma keeps_bumpStopEpoch ref :
  (forall d, P d -> P (set_sequences (<[ref := mkSequence (last_sequence (sequence_of ref d))
     (stop_epoch (sequence_of ref d) + 1) (recovery_resends (sequence_of ref d))]> (sequences d)) d)) ->
  keeps P (bumpStopEpoch ref).
Proof. intros Hf. apply keeps_stmt. intros d d' a [= <- _]. apply Hf. Qed.

Lemma keeps_writeRecoveryResends ref receipts :
  (forall d s, s = sequence_of ref d -> P d ->
     P (set_sequences (<[ref := mkSequence (last_sequence s) (stop_epoch s) receipts]> (sequences d)) d)) ->
  (forall d, P d -> sequences d !! ref <> None \/
     P (set_sequences (<[ref := mkSequence 0 0 receipts]> (sequences d)) d)) ->
  keeps P (writeRecoveryResends ref receipts).
Proof.
  intros Hf Hn faults d Hd. unfold writeRecoveryResends. cbn [run].
  destruct (tick faults) as [[e|] fs]; [done|].
  destruct (sequences d !! ref) as [s|] eqn:E; cbn.
  - apply Hf; [|done]. unfold sequence_of. by rewrite E.
  - destruct (tick fs) as [[e|] fs']; [done|]. simpl. by destruct (Hn d Hd).
Qed.
End keeps.

(** Reduce [keeps] of a program to its statements. *)
Ltac keeps_step :=
  lazymatch goal with
  | |- keeps _ (Bind _ _) => apply keeps_bind; [|intros ?]
  | |- keeps _ (Ret _) => apply keeps_ret
  | |- keeps _ (Throw _) => apply keeps_throw
  | |- keeps _ (withSavepoint _ _) => apply keeps_savepoint
  | |- keeps _ (for_each _ _) => apply keeps_for_each; intros ?
  | |- keeps _ (select_row _ _) => apply keeps_read
  | |- keeps _ (select_ordered _ _) => apply keeps_read
  | |- keeps _ (stopEpochOf _) => apply keeps_read
  | |- keeps _ (recoveryResendsOf _) => apply keeps_read
  | |- keeps _ (update_row _ _ _ _) => apply keeps_update_row; intros ? ? ? ? ?
  | |- keeps _ (update_where _ _ _) => apply keeps_update_where; intros ? ?
  | |- keeps _ (delete_row _ _ _) => apply keeps_delete_row; intros ? ? ? ? ?
  | |- keeps _ (delete_where _ _) => apply keeps_delete_where; intros ? ?
  | |- keeps _ (insertNew _ _) => apply keeps_insertNew; intros ? ? ?
  | |- keeps _ (replace _ _) => apply keeps_replace; intros ? ?
  | |- keeps _ (allocateSequence _) => apply keeps_allocateSequence; intros ? ?
  | |- keeps _ (bumpStopEpoch _) => apply keeps_bumpStopEpoch; intros ? ?
  | |- keeps _ (writeRecoveryResends _ _) => apply keeps_writeRecoveryResends; [intros ? ? -> ?|intros ? ?]
  | |- keeps _ (match ?x with _ => _ end) => destruct x eqn:?
  | |- keeps _ (let _ := _ in _) => intros ?
  | |- keeps _ (assertMutationIdAvailable _) => unfold assertMutationIdAvailable, TABLES; cbn [assert_available]
  | |- keeps _ _ => progress unfold discard_result, get, delete_from, enqueueIntent,
      enqueueRecord, enqueueInterruptAndCancel, seedLegacyAttemptCount, markAttempted, unmarkAttempted,
      markUnknown, settleReceipt, settleApplied, transferToRecovery, retarget, move_optimistic,
      move_recovery, move_outbox, editQueuedMessage, removeQueuedMessage, resendRecovery,
      acknowledgeRecoveryResend, discardRecovery, discardUndelivered, releaseCanceled,
      restoreProvenAbsent, pruneUnlistedAccepted, discardSupersededNoteRecovery
  end.
Ltac keeps_run := cbv zeta; repeat (keeps_step; cbv beta zeta).

Lemma keeps_sources_present P ids ref : keeps P (sources_present ids ref).
Proof.
  induction ids as [|id ids IH]; cbn [sources_present]; [apply keeps_ret|].
  keeps_run. apply IH.
Qed.

(** ** Counters *)

Lemma grows_trans S1 S2 S3 : grows S1 S2 -> grows S2 S3 -> grows S1 S3.
Proof. intros H1 H2 ref. specialize (H1 ref). specialize (H2 ref). lia. Qed.

Definition above (S : gmap string SequenceRow) (d : db) : Prop := grows S (sequences d).

Lemma above_tbl S t m d : above S d -> above S (set_tbl t m d).
Proof. unfold above. by rewrite sequences_set_tbl. Qed.

Lemma above_sequences S ref s d :
  (last_sequence (sequence_of ref d) <= last_sequence s)%Z ->
  (stop_epoch (sequence_of ref d) <= stop_epoch s)%Z ->
  above S d -> above S (set_sequences (<[ref := s]> (sequences d)) d).
Proof. intros ?? Hd. eapply grows_trans; [exact Hd|]. by apply grows_insert. Qed.

Lemma above_receipts S ref receipts d :
  above S d -> sequences d !! ref <> None \/
  above S (set_sequences (<[ref := mkSequence 0 0 receipts]> (sequences d)) d).
Proof.
  intros Hd. destruct (sequences d !! ref) eqn:E; [by left|right].
  apply above_sequences; [..|done]; unfold sequence_of; by rewrite E.
Qed.

Lemma keeps_above S o : keeps (above S) (perform o).
Proof.
  destruct o; cbn [perform]; keeps_run;
    try apply keeps_sources_present; try by apply above_tbl.
  all: try (apply above_sequences; simpl; [lia..|done]).
  all: by apply above_receipts.
Qed.

(** ** One row of the outbox through a history *)

Section row_facts.
Context (id : string) (F : Row -> Prop).

(** The outbox holds [id], as a row of which [F] holds. *)
Definition held (d : db) : Prop := exists r, t_outbox d !! id = Some r /\ F r.

(** Whatever row of [id] the outbox holds, [F] holds of it. *)
Definition only (d : db) : Prop := forall r, t_outbox d !! id = Some r -> F r.

Lemma held_other t m d : t <> outbox -> held d -> held (set_tbl t m d).
Proof. by destruct t. Qed.

Lemma only_other t m d : t <> outbox -> only d -> only (set_tbl t m d).
Proof. by destruct t. Qed.

Lemma held_fresh id' r d : t_outbox d !! id' = None -> held d -> held (set_tbl outbox (<[id' := r]> (t_outbox d)) d).
Proof.
  intros Hn (r' & Hr & HF). exists r'. split; [|done]. simpl. rewrite lookup_insert_ne; [done|].
  intros ->. congruence.
Qed.

Lemma held_fmap (f : Row -> Row) d :
  (forall r, F r -> F (f r)) -> held d -> held (set_tbl outbox (f <$> t_outbox d) d).
Proof.
  intros Hf (r & Hr & HF). exists (f r). split; [|by apply Hf]. simpl. by rewrite lookup_fmap, Hr.
Qed.

Lemma only_fmap (f : Row -> Row) d :
  (forall r, F r -> F (f r)) -> only d -> only (set_tbl outbox (f <$> t_outbox d) d).
Proof. intros Hf Hd r; simpl; intros (r' & <- & Hr)%lookup_fmap_Some. by apply Hf, Hd. Qed.

Lemma only_delete id' d : only d -> only (set_tbl outbox (delete id' (t_outbox d)) d).
Proof. intros Hd r; simpl; intros [_ Hr]%lookup_delete_Some. by apply Hd. Qed.

Lemma only_insert id' r r' d :
  t_outbox d !! id' = Some r -> (id' = id -> F r -> F r') -> only d ->
  only (set_tbl outbox (<[id' := r']> (t_outbox d)) d).
Proof.
  intros Hr Hf Hd r''; simpl; intros [[E <-]|[_ H]]%lookup_insert_Some; [|by apply Hd].
  apply Hf; [done|]. apply Hd. congruence.
Qed.

(** The operations that add rows to the outbox take none away, and the others
    add none. *)
Definition adds_rows (o : op) : bool :=
  match o with OpEnqueue _ _ _ | OpInterrupt _ _ | OpResend _ _ _ _ => true | _ => false end.

Lemma step_row o d d' :
  (adds_rows o = true -> keeps held (perform o)) ->
  (adds_rows o = false -> keeps only (perform o)) ->
  step d o d' -> held d -> only d'.
Proof.
  intros Ha Hk Hs (r & Hr & HF). destruct Hs as [d o faults]. destruct (adds_rows o).
  - destruct (Ha eq_refl faults d) as (r' & Hr' & HF'); [by exists r|].
    intros r''. rewrite Hr'. by intros [= <-].
  - apply Hk; [done|]. intros r'. rewrite Hr. by intros [= <-].
Qed.
End row_facts.

Definition is_canceled_row (r : Row) : Prop := row_state r = canceled.
Definition is_attempted_row (r : Row) : Prop := row_attempted r = true.

Definition releases (id : string) (o : op) : bool :=
  match o with OpRelease id' _ _ => String.eqb id id' | _ => false end.

Definition unmarks (id : string) (o : op) : bool :=
  match o with OpUnmark id' => String.eqb id id' | _ => false end.

(** What a statement's guard says of its row. *)
Ltac guard_facts :=
  unfold is_state, cancelable, is_canceled_row, is_attempted_row, releases, unmarks in *;
  repeat match goal with
    | H : _ && _ = true |- _ => apply andb_prop in H as [? ?]
    | H : negb _ = true |- _ => apply negb_true_iff in H
    | H : state_eqb _ _ = true |- _ => apply bool_decide_eq_true in H
    | H : state_eqb _ _ = false |- _ => apply bool_decide_eq_false in H
    | H : String.eqb _ _ = false |- _ => apply String.eqb_neq in H
    end.

Ltac row_leaf := simpl; intros; guard_facts; try case_match; guard_facts; simpl in *; congruence.

Ltac row_run :=
  keeps_run;
  first [ apply keeps_sources_present
        | by apply held_other | by apply only_other | by apply held_fresh
        | by apply only_delete | by right
        | eapply only_insert; [eassumption|row_leaf|done]
        | apply only_fmap; [row_leaf|done]
        | apply held_fmap; [row_leaf|done]
        | done ].

Lemma canceled_keeps_held id o : adds_rows o = true -> keeps (held id is_canceled_row) (perform o).
Proof. intros Ho. destruct o; try done; cbn [perform]; row_run. Qed.

Lemma canceled_keeps_only id o :
  adds_rows o = false -> releases id o = false -> keeps (only id is_canceled_row) (perform o).
Proof. intros Ho Hr. destruct o; try done; cbn [perform]; row_run. Qed.

Lemma attempted_keeps_held id o : adds_rows o = true -> keeps (held id is_attempted_row) (perform o).
Proof. intros Ho. destruct o; try done; cbn [perform]; row_run. Qed.

Lemma attempted_keeps_only id o :
  adds_rows o = false -> unmarks id o = false -> keeps (only id is_attempted_row) (perform o).
Proof. intros Ho Hr. destruct o; try done; cbn [perform]; row_run. Qed.

(** ** Atomicity *)

(** The operations whose writes are one savepoint or one statement. The two
    attempt marks are neither: their statements commit one by one. *)
Definition transactional (o : op) : bool :=
  match o with OpMark _ | OpUnmark _ => false | _ => true end.

(** A program that throws has changed nothing. *)
Definition undone {A} (p : stmt A) : Prop :=
  forall faults d fs d' e, run p faults d = (fs, d', inr e) -> d' = d.

Lemma undone_throw {A} e : undone (@Throw db A e).
Proof. by intros faults d fs d' e' [= _ <-]. Qed.

Lemma undone_savepoint {A} name (p : stmt A) : undone (withSavepoint name p).
Proof. intros faults d fs d' e. apply savepoint_atomic. Qed.

Lemma undone_stmt {A} (f : db -> (db * A) + js_error) : undone (Stmt f).
Proof.
  intros faults d fs d' e. simpl. destruct (tick faults) as [[e1|] fs1]; [by intros [= _ <- _]|].
  destruct (f d) as [[d1 a]|e1]; [done|]. by intros [= _ <- _].
Qed.

Lemma undone_then_return {A B} (p : stmt A) (k : A -> B) :
  undone p -> undone (Bind p (fun a => Ret (k a))).
Proof.
  intros Hp faults d fs d' e. simpl. destruct (run p faults d) as [[fs1 d1] [a|e1]] eqn:E; [done|].
  intros [= _ <- _]. by eapply Hp.
Qed.

Lemma undone_discard {A} (p : stmt A) : undone p -> undone (discard_result p).
Proof. apply undone_then_return. Qed.

Lemma undone_delete_row t id P (k : Z -> bool) : undone (Bind (delete_row t id P) (fun n => Ret (k n))).
Proof. apply undone_then_return, undone_stmt. Qed.

Lemma undone_perform o : transactional o = true -> undone (perform o).
Proof.
  intros Ho. destruct o; try done; cbn [perform]; try apply undone_discard;
    try apply undone_savepoint; try apply undone_delete_row.
  all: unfold enqueueIntent, enqueueInterruptAndCancel, markUnknown, retarget, resendRecovery;
    repeat case_match; auto using undone_throw, undone_savepoint.
  - apply undone_then_return, undone_stmt.
  - apply (undone_then_return (Ret tt) (fun _ => [])). by intros faults d fs d' e [=].
Qed.
