(* ===== verification/NativeQueue.v ===== *)
(** The queue of a target, row by row: what an enqueue, a Stop, a mark and a
    refusal make of it. *)

From S2P Require Import Prelude JsString Json Wire Sql Records Effects Dispatcher.
From S2P Require Import DispatcherFacts StoragePort NativeOutbox NativeOutboxFacts.
From S2P Require Import NativeInvariant NativePort.

Local Open Scope string_scope.
Local Open Scope list_scope.

(** ** Sorted queues *)

Lemma strict_unique {A} (key : A -> Z) l l' :
  StronglySorted (key_lt key) l -> StronglySorted (key_lt key) l' ->
  (forall x, x ∈ l <-> x ∈ l') -> l = l'.
Proof.
  intros Hl Hl' Hin. apply (anti_symm sublist); apply (strict_sublist key); naive_solver.
Qed.

Lemma strongly_sorted_filter {A} (R : A -> A -> Prop) (P : A -> Prop) `{!forall x, Decision (P x)} l :
  StronglySorted R l -> StronglySorted R (filter P l).
Proof.
  induction 1 as [|x l Hs IH Hall]; [constructor|]. rewrite filter_cons. case_decide; [|done].
  constructor; [done|]. rewrite Forall_forall in *. intros y [_ Hy]%list_elem_of_filter. by apply Hall.
Qed.

Lemma strongly_sorted_snoc {A} (R : A -> A -> Prop) l x :
  StronglySorted R l -> Forall (fun y => R y x) l -> StronglySorted R (l ++ [x]).
Proof.
  induction 1 as [|y l Hs IH Hall]; simpl; [by repeat constructor|].
  intros [Hy Hx]%Forall_cons. constructor; [by apply IH|].
  apply Forall_app. by split; [|constructor].
Qed.

Section queues.
Context (d : db) (Hd : wf d).

Lemma elem_of_queue_rows ref r :
  r ∈ queue_rows ref d <-> exists id, t_outbox d !! id = Some r /\ in_play ref r = true.
Proof. unfold queue_rows. by rewrite elem_of_sort_by, elem_of_rows_where. Qed.

Lemma queue_rows_strict ref : StronglySorted (key_lt intent_sequence) (queue_rows ref d).
Proof.
  apply sort_by_strict. pose proof (views_nodup ref d Hd) as H.
  by rewrite <- list_fmap_compose in H.
Qed.

(** Every row of a queue was allocated its sequence by the target's counter. *)
Lemma queue_rows_below ref :
  Forall (fun r => (intent_sequence r <= last_sequence (sequence_of ref d))%Z) (queue_rows ref d).
Proof.
  apply Forall_forall. intros r (id & Hr & [Ht _]%in_play_spec)%elem_of_queue_rows.
  apply (wf_outbox_row _ _ _ Hd) in Hr as (_ & _ & _ & _ & _ & _ & Hb & _).
  rewrite sequence_of_seq_in, <- Ht. lia.
Qed.
End queues.

(** A queue that lost the rows [keep] refuses, and gained one above the counter. *)
Lemma queue_rows_snoc ref d d' (keep : Row -> bool) r :
  wf d -> wf d' -> (last_sequence (sequence_of ref d) < intent_sequence r)%Z ->
  (forall x, x ∈ queue_rows ref d' <-> (x ∈ queue_rows ref d /\ keep x = true) \/ x = r) ->
  queue_rows ref d' = filter (fun x => keep x = true) (queue_rows ref d) ++ [r].
Proof.
  intros Hd Hd' Hr Hin. apply (strict_unique intent_sequence).
  - by apply queue_rows_strict.
  - apply strongly_sorted_snoc.
    + by apply strongly_sorted_filter, queue_rows_strict.
    + apply Forall_forall. intros x [_ Hx]%list_elem_of_filter.
      pose proof (queue_rows_below d Hd ref) as Hb. rewrite Forall_forall in Hb.
      specialize (Hb x Hx). unfold key_lt. lia.
  - intros x. rewrite Hin, elem_of_app, list_elem_of_filter, list_elem_of_singleton. naive_solver.
Qed.

(** A queue with the same rows is the same queue. *)
Lemma queue_rows_same ref d d' :
  wf d -> wf d' -> (forall x, x ∈ queue_rows ref d' <-> x ∈ queue_rows ref d) ->
  queue_rows ref d' = queue_rows ref d.
Proof. intros ???. apply (strict_unique intent_sequence); [by apply queue_rows_strict..|done]. Qed.

(** ** Enqueues *)

Section enqueue.
Context (host : Host) (i : MutationIntent) (d : db) (Hd : wf d) (Hf : id_fresh host d).

Local Notation id := (createMutationId host).

Definition enqueued_row (st : RecordState) (d0 : db) : Row :=
  insertValues (enqueued_record host i st d0) 0 0.

Lemma enqueued_lookup st id' :
  t_outbox (enqueued host i st d) !! id' =
    if decide (id' = id) then Some (enqueued_row st d) else t_outbox d !! id'.
Proof.
  unfold enqueued. simpl. case_decide; [subst; apply lookup_insert_eq|by apply lookup_insert_ne].
Qed.

Lemma enqueued_queue st ref r :
  r ∈ queue_rows ref (enqueued host i st d) <->
  r ∈ queue_rows ref d \/ (r = enqueued_row st d /\ ref = targetRef i /\ is_in_play st = true).
Proof.
  rewrite !elem_of_queue_rows. split.
  - intros (id' & Hr & Hp). rewrite enqueued_lookup in Hr. case_decide; [|by left; exists id'].
    right. simplify_eq. apply in_play_spec in Hp as [Ht Hs]. by split_and!.
  - intros [(id' & Hr & Hp)|(-> & -> & Hs)].
    + exists id'. rewrite enqueued_lookup. case_decide; [subst|done].
      pose proof (Hf outbox) as Hn. simpl in Hn. congruence.
    + exists id. rewrite enqueued_lookup, decide_True by done. split; [done|].
      by apply in_play_spec.
Qed.

(** A row born in play joins its target's queue at the tail; one born canceled
    joins none. *)
Lemma enqueued_tail st :
  outbox_state st = true ->
  queue_rows (targetRef i) (enqueued host i st d) =
    queue_rows (targetRef i) d ++ (if is_in_play st then [enqueued_row st d] else []).
Proof.
  intros Hst. assert (Hw : wf (enqueued host i st d)) by (by apply enqueued_wf).
  destruct (is_in_play st) eqn:Hp.
  - rewrite (queue_rows_snoc _ d _ (fun _ => true) (enqueued_row st d)); [|done|done|simpl; lia|].
    + by rewrite filter_all by (by apply Forall_forall).
    + intros x. rewrite enqueued_queue. naive_solver.
  - rewrite app_nil_r. apply queue_rows_same; [done|done|].
    intros x. rewrite enqueued_queue. naive_solver congruence.
Qed.

Lemma enqueued_other st ref :
  outbox_state st = true -> ref <> targetRef i ->
  queue_rows ref (enqueued host i st d) = queue_rows ref d.
Proof.
  intros Hst Hne. apply queue_rows_same; [done|by apply enqueued_wf|].
  intros x. rewrite enqueued_queue. naive_solver.
Qed.
End enqueue.

(** ** Stop *)

Section stop.
Context (host : Host) (i : MutationIntent) (d : db) (Hd : wf d) (Hf : id_fresh host d).

Local Notation ref := (targetRef i).

Definition stopping : db := bump_epoch ref (cancel_rows ref d).

Lemma stopping_wf : wf stopping.
Proof. by apply bump_epoch_wf, cancel_rows_wf. Qed.

Lemma stopping_fresh : id_fresh host stopping.
Proof.
  intros []; [|by apply (Hf optimistic)|by apply (Hf recovery)].
  simpl. rewrite lookup_fmap. change (t_outbox d) with (tbl outbox d). by rewrite (Hf outbox).
Qed.

Lemma stopping_counters :
  last_sequence (sequence_of ref stopping) = last_sequence (sequence_of ref d) /\
  stop_epoch_of ref stopping = (stop_epoch_of ref d + 1)%Z.
Proof. unfold stop_epoch_of, stopping, bump_epoch, sequence_of. simpl. by rewrite lookup_insert_eq. Qed.

Lemma stopping_lookup id :
  t_outbox stopping !! id =
    (fun r => if cancelable ref r then row_update_state canceled r else r) <$> t_outbox d !! id.
Proof. simpl. by rewrite lookup_fmap. Qed.

Lemma stopping_queue ref' r :
  r ∈ queue_rows ref' stopping <->
  r ∈ queue_rows ref' d /\ (ref' = ref -> row_attempted r = true).
Proof.
  rewrite !elem_of_queue_rows. split.
  - intros (id & Hr & [Ht Hs]%in_play_spec). rewrite stopping_lookup in Hr.
    apply fmap_Some in Hr as (r0 & Hr0 & ->). destruct (cancelable ref r0) eqn:Hc; [done|].
    split; [exists id; split; [done|by apply in_play_spec]|]. intros ->.
    unfold cancelable in Hc. rewrite Ht, String.eqb_refl, Hs in Hc. simpl in Hc.
    by apply negb_false_iff in Hc.
  - intros [(id & Hr & Hp) Ha]. exists id. split; [|done]. rewrite stopping_lookup, Hr. simpl.
    destruct (cancelable ref r) eqn:Hc; [|done]. exfalso.
    pose proof (cancelable_unattempted _ _ Hc) as Hu.
    unfold cancelable in Hc. apply andb_prop in Hc as [[Ht _]%andb_prop _].
    apply String.eqb_eq in Ht. apply in_play_spec in Hp as [<- _]. by rewrite Ha in Hu.
Qed.

Lemma exec_interrupt :
  blank ref = false ->
  exec (enqueueInterruptAndCancel host i) d =
    (interrupted host i d, inl (enqueued_record host i submitting stopping)).
Proof.
  intros Hb. unfold enqueueInterruptAndCancel. rewrite Hb. unfold withSavepoint.
  rewrite exec_savepoint, exec_bind, exec_update_where by (by apply cancel_rows_index, Hd).
  change (set_tbl outbox _ d) with (cancel_rows ref d). cbv beta iota.
  rewrite exec_bind, exec_bumpStopEpoch. cbv zeta.
  change (set_sequences _ (cancel_rows ref d)) with stopping. cbv beta iota.
  pose proof stopping_wf as Hw. pose proof stopping_fresh as Hfs.
  unfold interrupted. fold stopping. revert Hw Hfs. generalize stopping as d1. intros d1 [Hd1 _] Hfs.
  exec_run. rewrite exec_assert_available by (intros t; by rewrite tbl_set_sequences). exec_run.
  rewrite stop_epoch_after_allocate. rewrite exec_insertNew; [done| |].
  - apply (Hfs outbox).
  - rewrite tbl_set_sequences. eapply (fresh_sequence_index host i d1); [done..|simpl; lia].
Qed.
End stop.

(** ** Attempts refused *)

Section attempt.
Context (d : db) (id : string) (r : Row) (Hd : wf d).
Context (Hr : t_outbox d !! id = Some r) (Hst : row_state r = submitting).

(** The only attempt of a submitting row, rolled back: back to clean, or held
    canceled when a Stop has raised the epoch past its capture. *)
Lemma exec_unmark_only :
  row_attempted r = true -> unresolved_attempts r = 1%Z ->
  let stopped := (stop_epoch_at_enqueue r <? stop_epoch_of (target_ref r) d)%Z in
  exec (unmarkAttempted id) d =
    (put_outbox id (row_update_attempts false 0 (if stopped then row_update_state canceled r else r)) d,
     inl (negb stopped)).
Proof.
  intros Ha Hu stopped. unfold unmarkAttempted, seedLegacyAttemptCount. rewrite !exec_bind.
  rewrite (exec_put_skip d id r) by (done || by rewrite Ha, Hu). rewrite exec_ret.
  rewrite exec_bind, exec_select_row. simpl. rewrite Hr, Hst, exec_bind, Hu. cbn [Z.sub Z.max Z.eqb].
  change (Z.max 0 (1 - 1) =? 0)%Z with true. cbv iota. rewrite exec_bind, exec_stopEpochOf, exec_ret.
  fold stopped. destruct stopped; cbn [negb]; rewrite exec_bind;
    by rewrite (exec_put d id r) by (done || by apply bool_decide_eq_true).
Qed.

(** The first mark of an unattempted row that carries its target's epoch. *)
Lemma first_mark_row :
  row_attempted r = false -> stop_epoch_at_enqueue r = stop_epoch_of (target_ref r) d ->
  marked_row d r = row_update_attempts true 1 r.
Proof.
  intros Ha He. pose proof (wf_outbox_row _ _ _ Hd Hr) as (_ & _ & _ & _ & _ & (_ & Hu & _) & _).
  unfold marked_row, seeded_row. rewrite Ha. simpl. case_match; simpl.
  - rewrite (Hu Ha), <- He. by destruct r.
  - by rewrite (Hu Ha).
Qed.

Lemma clean_row : row_attempted r = false -> row_update_attempts false 0 r = r.
Proof.
  intros Ha. pose proof (wf_outbox_row _ _ _ Hd Hr) as (_ & _ & _ & _ & _ & (_ & Hu & _) & _).
  specialize (Hu Ha). destruct r. simpl in *. by subst.
Qed.
End attempt.
