(* ===== verification/NativeSurvivors.v ===== *)
(** Survival is proof: a row still in play and never attempted was born, moved or
    released at the stop epoch its target has now, because every Stop cancels
    such rows as it raises the epoch. *)

From S2P Require Import Prelude JsString Json Wire Sql Records Effects Dispatcher.
From S2P Require Import DispatcherFacts StoragePort NativeOutbox NativeOutboxFacts.
From S2P Require Import NativeInvariant NativePort NativeHistory NativeQueue.

Local Open Scope string_scope.
Local Open Scope sql_scope.

Definition survivor (d : db) (r : Row) : Prop :=
  is_in_play (row_state r) = true -> row_attempted r = false ->
  stop_epoch_at_enqueue r = stop_epoch_of (target_ref r) d.

Definition survivors (d : db) : Prop := map_Forall (fun _ r => survivor d r) (t_outbox d).

(** ** Statements *)

Definition same_epochs (d d' : db) : Prop := forall ref, stop_epoch_of ref d' = stop_epoch_of ref d.

Lemma survivors_epochs d d' :
  t_outbox d' = t_outbox d -> same_epochs d d' -> survivors d -> survivors d'.
Proof. unfold survivors, survivor. intros -> He Hd id r Hr. rewrite He. by apply (Hd id). Qed.

Lemma survivors_other t m d : t <> outbox -> survivors d -> survivors (set_tbl t m d).
Proof. by destruct t. Qed.

Lemma survivors_sequence ref n e receipts d :
  stop_epoch_of ref d = e -> survivors d ->
  survivors (set_sequences (<[ref := mkSequence n e receipts]> (sequences d)) d).
Proof.
  intros He. apply survivors_epochs; [done|]. intros ref'. unfold stop_epoch_of, sequence_of. simpl.
  destruct (decide (ref = ref')) as [<-|Hne]; [by rewrite lookup_insert_eq|by rewrite lookup_insert_ne].
Qed.

Lemma survivors_insert id r d :
  survivor d r -> survivors d -> survivors (set_tbl outbox (<[id := r]> (t_outbox d)) d).
Proof. intros Hr Hd id' r'. simpl. intros [[_ <-]|[_ H]]%lookup_insert_Some; [done|]. by apply (Hd id'). Qed.

Lemma survivors_delete id d : survivors d -> survivors (set_tbl outbox (delete id (t_outbox d)) d).
Proof. intros Hd id' r'. simpl. intros [_ H]%lookup_delete_Some. by apply (Hd id'). Qed.

Lemma survivors_fmap (f : Row -> Row) d :
  (forall r, survivor d r -> survivor d (f r)) -> survivors d ->
  survivors (set_tbl outbox (f <$> t_outbox d) d).
Proof. intros Hf Hd id r. simpl. intros (r' & <- & Hr)%lookup_fmap_Some. by apply Hf, (Hd id). Qed.

Lemma survivors_new_receipts ref receipts d :
  survivors d -> sequences d !! ref <> None \/
  survivors (set_sequences (<[ref := mkSequence 0 0 receipts]> (sequences d)) d).
Proof.
  intros Hd. destruct (sequences d !! ref) eqn:E; [by left|right].
  apply survivors_sequence; [|done]. unfold stop_epoch_of, sequence_of. by rewrite E.
Qed.

(** ** The operations that update rows one by one *)

Ltac survivor_leaf :=
  lazymatch goal with
  | |- survivors (set_tbl outbox (<[_ := _]> _) ?d) =>
      apply survivors_insert; [|done];
      match goal with H : tbl outbox d !! ?id = Some ?r, Hd : survivors d |- _ => generalize (Hd id r H) end
  | |- survivors (set_tbl outbox (_ <$> _) _) => apply survivors_fmap; [intros ?|done]
  end;
  unfold survivor; simpl; intros ?; guard_facts; try case_match; guard_facts; simpl in *;
  repeat match goal with H : row_state ?r = _, H' : context [row_state ?r] |- _ =>
    lazymatch H' with H => fail | _ => rewrite H in H' end end;
  first [ done | intros; congruence | naive_solver congruence ].

Ltac survivors_run :=
  keeps_run;
  first [ apply keeps_sources_present
        | by apply survivors_other | by apply survivors_delete
        | by apply survivors_sequence | by apply survivors_new_receipts
        | survivor_leaf | idtac ].

(** The operations whose every statement, taken alone, keeps survivors. *)
Definition row_by_row (o : op) : bool :=
  match o with
  | OpEnqueue _ _ _ | OpInterrupt _ _ | OpResend _ _ _ _ | OpUnmark _ | OpMarkUnknown _ _ _
  | OpRetarget _ _
  | OpRelease _ _ _ => false
  | _ => true
  end.

Lemma survivors_row_by_row o : row_by_row o = true -> keeps survivors (perform o).
Proof. intros Ho. destruct o; try done; cbn [perform]; survivors_run. Qed.

(** ** The operations that read the epoch they write *)

Lemma survivors_lookup d id r : survivors d -> t_outbox d !! id = Some r -> survivor d r.
Proof. intros Hd. apply (Hd id r). Qed.

Lemma survivor_born d d' r :
  stop_epoch_at_enqueue r = stop_epoch_of (target_ref r) d -> same_epochs d d' -> survivor d' r.
Proof. intros Hr He _ _. by rewrite He. Qed.

Lemma survivors_enqueued host i st d : survivors d -> survivors (enqueued host i st d).
Proof.
  intros Hd. unfold enqueued.
  apply (survivors_insert _ _ (set_sequences _ d)); [|by apply survivors_sequence].
  intros _ _. simpl. unfold stop_epoch_of, sequence_of. simpl. by rewrite lookup_insert_eq.
Qed.

Lemma survivors_stopping i d : survivors d -> survivors (stopping i d).
Proof.
  intros Hd id r Hr Hs Ha. rewrite stopping_lookup in Hr. apply fmap_Some in Hr as (r0 & Hr0 & ->).
  destruct (cancelable (targetRef i) r0) eqn:Hc; [done|].
  rewrite (Hd id r0 Hr0 Hs Ha). unfold stop_epoch_of, sequence_of. simpl.
  rewrite lookup_insert_ne; [done|]. intros E. unfold cancelable in Hc.
  by rewrite E, String.eqb_refl, Hs, Ha in Hc.
Qed.

(** A savepoint keeps what its body keeps on a healthy database. *)
Lemma robust_survivors {A} name (p : stmt A) d :
  survivors d -> wp p d (fun d' _ => survivors d') ->
  robust survivors (discard_result (withSavepoint name p)) d (fun _ _ => True).
Proof.
  intros Hd Hp. apply robust_bind, robust_savepoint; [done|]. eapply wp_mono; [done|].
  intros d' a Hd'. split; [done|]. by apply robust_ret.
Qed.

Lemma robust_survivors_throw {A} e d :
  survivors d -> robust survivors (discard_result (@Throw db A e)) d (fun _ _ => True).
Proof. intros Hd. by apply robust_bind, robust_throw. Qed.

Section reads_epoch.
Context (d : db) (Hd : wf d) (Hs : survivors d).

Lemma survivors_enqueue h i b : robust survivors (perform (OpEnqueue h i b)) d (fun _ _ => True).
Proof.
  cbn [perform]. unfold enqueueIntent. case_match; [by apply robust_survivors_throw|].
  apply robust_survivors; [done|]. apply wp_enqueueRecord; [done|].
  intros _. by apply survivors_enqueued.
Qed.

Lemma survivors_interrupt h i : robust survivors (perform (OpInterrupt h i)) d (fun _ _ => True).
Proof.
  cbn [perform]. unfold enqueueInterruptAndCancel. case_match; [by apply robust_survivors_throw|].
  apply robust_survivors; [done|]. wp_run. intros _. wp_run. intros Hf. wp_run. intros _ _. wp_run.
  rewrite stop_epoch_after_allocate.
  change (survivors (enqueued h i submitting (stopping i d))).
  by apply survivors_enqueued, survivors_stopping.
Qed.

Lemma survivors_resend h sources i b : robust survivors (perform (OpResend h sources i b)) d (fun _ _ => True).
Proof.
  cbn [perform]. unfold resendRecovery. case_match; [by apply robust_survivors_throw|].
  apply robust_survivors; [done|]. destruct (js_set sources) as [|id0 ids0]; [by wp_run|].
  wp_step. apply wp_sources_present. intros present. wp_step; [by wp_run|]. wp_step.
  apply wp_enqueueRecord; [done|]. intros Hf. wp_step. apply (wp_for_each_seq survivors).
  - by apply survivors_enqueued.
  - intros x d' _ Hd'. wp_run. by apply (survivors_other recovery).
  - intros d' Hd'. wp_run. by apply survivors_sequence.
Qed.

Lemma survivors_release id ref b : robust survivors (perform (OpRelease id ref b)) d (fun _ _ => True).
Proof.
  cbn [perform]. apply robust_survivors; [done|]. wp_step. wp_step. simpl.
  destruct (t_outbox d !! id) as [r|] eqn:Hr; simpl; [|by wp_run].
  wp_step; [by wp_run|]. apply orb_false_iff in Heqb0 as [_ Href%negb_false_iff%String.eqb_eq].
  simpl in Href. wp_run; [done|]. simpl. rewrite Hr. intros _. wp_run.
  set (d1 := set_sequences _ d) in *.
  assert (Hd1 : survivors d1) by (by apply survivors_sequence).
  apply (survivors_insert id _ d1); [|done]. intros _ _. simpl. by rewrite Href.
Qed.

Lemma survivors_markUnknown id s o : robust survivors (perform (OpMarkUnknown id s o)) d (fun _ _ => True).
Proof.
  cbn [perform]. unfold markUnknown. case_match; [by apply robust_survivors_throw|].
  apply robust_bind, robust_bind, robust_stmt; [done|].
  change (wp (update_row outbox id (fun r => negb (is_state canceled r) && (negb o || row_attempted r))
    (fun _ r => row_update_state s r)) d (fun d' n => survivors d' /\
      robust survivors (Ret (0 <? n)%Z) d' (fun d'' _ => robust survivors (Ret tt) d'' (fun _ _ => True)))).
  eapply wp_mono with (Q := fun d' _ => survivors d').
  - rewrite wp_update_row. simpl. destruct (t_outbox d !! id) as [r|] eqn:Hr; [|done].
    destruct (_ && _) eqn:Hc; [|done]. intros _. apply survivors_insert; [|done].
    apply andb_prop in Hc as [Hc _]. intros _ Ha. apply (survivors_lookup d id r Hs Hr); [|done].
    apply (wf_outbox_row _ _ _ Hd) in Hr as (_ & _ & Hst & _). unfold is_state in Hc.
    by destruct (row_state r).
  - intros d' n Hd'. split; [done|]. apply robust_ret; [done|]. by apply robust_ret.
Qed.
End reads_epoch.

(** *** Marks rolled back *)

Definition surviving {A} (p : stmt A) (d : db) : Prop := robust survivors p d (fun _ _ => True).

Lemma surviving_ret {A} (a : A) d : survivors d -> surviving (Ret a) d.
Proof. intros Hd. by apply robust_ret. Qed.

(** One guarded UPDATE of a row just read, and what follows it. *)
Lemma surviving_update {A} id s f (k : Z -> stmt A) d :
  survivors d ->
  (forall r, t_outbox d !! id = Some r -> row_state r = s -> survivor d (f r)) ->
  (forall d' n, survivors d' -> surviving (k n) d') ->
  surviving (Bind (update_row outbox id (is_state s) (fun _ => f)) k) d.
Proof.
  intros Hd Hf Hk. apply robust_bind, robust_stmt; [done|].
  change (wp (update_row outbox id (is_state s) (fun _ => f)) d
    (fun d' n => survivors d' /\ surviving (k n) d')).
  rewrite wp_update_row. simpl. destruct (t_outbox d !! id) as [r|] eqn:Hr; [|auto].
  destruct (is_state s r) eqn:Hst; [|auto]. apply is_state_true in Hst. intros _.
  assert (survivors (set_tbl outbox (<[id := f r]> (t_outbox d)) d)).
  { apply survivors_insert; [by apply Hf|done]. }
  auto.
Qed.

Lemma survivors_unmark id d : wf d -> survivors d -> surviving (unmarkAttempted id) d.
Proof.
  intros Hd Hs. unfold unmarkAttempted. apply robust_bind.
  assert (Hseed : robust wf (seedLegacyAttemptCount id) d (fun _ _ => True) /\
                  keeps survivors (seedLegacyAttemptCount id)).
  { split; [by apply robust_seed|]. survivors_run. }
  intros faults. destruct Hseed as [Hw Hk]. specialize (Hw faults). specialize (Hk faults d Hs).
  destruct (run (seedLegacyAttemptCount id) faults d) as [[fs d1] [[]|e]]; [|done]. simpl in Hk.
  split; [done|]. destruct Hw as [Hd1 _]. clear fs faults d Hd Hs. rename d1 into d.
  apply robust_bind, robust_select_row; [done|]. simpl.
  destruct (t_outbox d !! id) as [r|] eqn:Hr; [|by apply surviving_ret].
  pose proof (survivors_lookup d id r Hk Hr) as Hrs.
  pose proof (wf_outbox_row _ _ _ Hd1 Hr) as (_ & _ & _ & _ & _ & _ & _ & He).
  rewrite <- sequence_of_seq_in in He. fold (stop_epoch_of (target_ref r) d) in He.
  destruct (row_state r) eqn:Hst; try by apply surviving_ret.
  - apply robust_bind. destruct (_ =? 0)%Z eqn:Hz.
    + apply robust_bind, robust_stopEpochOf; [done|]. apply robust_ret; [done|].
      destruct (_ <? _)%Z eqn:Hlt; apply surviving_update; try done; try (intros; by apply surviving_ret).
      intros r' Hr' _ _ _. simplify_eq. simpl. lia.
    + apply robust_ret; [done|]. apply surviving_update; try done; try (intros; by apply surviving_ret).
      intros r' Hr' _ _. simplify_eq. simpl. lia.
  - destruct (1 <? _)%Z.
    + apply surviving_update; try done; try (intros; by apply surviving_ret).
      intros r' Hr' _. by simplify_eq.
    + apply robust_bind, robust_stopEpochOf; [done|].
      apply surviving_update; try done; try (intros; by apply surviving_ret).
      intros r' Hr' _ Hp _. simplify_eq. simpl in *. destruct (_ <? _)%Z eqn:Hlt; [done|]. lia.
Qed.

(** *** Retargets *)

Definition moving (to : Retarget) (e : Z) (d : db) : Prop :=
  survivors d /\ e = stop_epoch_of (to_ref to) d.

Section moving.
Context (to : Retarget) (e : Z).

Lemma moving_other t m d : t <> outbox -> moving to e d -> moving to e (set_tbl t m d).
Proof. by destruct t. Qed.

Lemma moving_sequence ref n x receipts d :
  stop_epoch_of ref d = x -> moving to e d ->
  moving to e (set_sequences (<[ref := mkSequence n x receipts]> (sequences d)) d).
Proof.
  intros Hx [Hd He]. split; [by apply survivors_sequence|]. rewrite He.
  unfold stop_epoch_of, sequence_of in *. simpl.
  destruct (decide (ref = to_ref to)) as [<-|Hne]; [by rewrite lookup_insert_eq|by rewrite lookup_insert_ne].
Qed.

Lemma moving_update t id f d :
  moving to e d -> (t = outbox -> forall r, survivor d (f r)) ->
  wp (Bind (update_row t id (fun _ => true) (fun _ => f)) (fun _ => Ret tt)) d (fun d' _ => moving to e d').
Proof.
  intros Hd Hf. wp_step. rewrite wp_update_row. destruct (tbl t d !! id) as [r|]; [|done].
  intros _. change (moving to e (set_tbl t (<[id := f r]> (tbl t d)) d)).
  destruct (decide (t = outbox)) as [->|Hne]; [|by apply moving_other]. destruct Hd as [Hd He].
  split; [|done]. apply (survivors_insert id (f r) d); [by apply Hf|done].
Qed.

Lemma moving_optimistic row d :
  moving to e d -> wp (move_optimistic to row) d (fun d' _ => moving to e d').
Proof.
  intros Hd. unfold move_optimistic. wp_step. wp_step. apply moving_update; [|done].
  by apply moving_sequence.
Qed.

Lemma moving_recovery row d :
  moving to e d -> wp (move_recovery to row) d (fun d' _ => moving to e d').
Proof. intros Hd. by apply moving_update. Qed.

Lemma moving_outbox row d :
  moving to e d -> wp (move_outbox to e row) d (fun d' _ => moving to e d').
Proof.
  intros Hd. unfold move_outbox. wp_step. wp_step.
  set (d1 := set_sequences _ d). assert (Hd1 : moving to e d1) by (by apply moving_sequence).
  apply moving_update; [done|]. intros _ r _ _. apply Hd1.
Qed.
End moving.

Lemma survivors_retarget ref to d : survivors d -> robust survivors (perform (OpRetarget ref to)) d (fun _ _ => True).
Proof.
  intros Hd. cbn [perform]. unfold retarget. case_match; [by apply robust_survivors_throw|].
  case_match; [by apply robust_bind, robust_ret; [|apply robust_ret]|].
  apply robust_survivors; [done|]. wp_step. wp_step.
  destruct (sort_by _ _) as [|r0 rows0]; [by wp_run|]. wp_step. wp_step. wp_step.
  match goal with |- wp _ _ ?Q => set (K := Q); assert (Hk : forall d', survivors d' -> K d' tt) end.
  { unfold K. clear d Hd. intros d Hd. do 5 wp_step.
    apply (wp_for_each_seq (moving to (stop_epoch_of (to_ref to) d))); [done|intros; by apply moving_optimistic|].
    intros d1 Hd1. do 3 wp_step.
    apply (wp_for_each_seq (moving to (stop_epoch_of (to_ref to) d))); [done|intros; by apply moving_recovery|].
    intros d2 Hd2. wp_step.
    apply (wp_for_each_seq (moving to (stop_epoch_of (to_ref to) d))); [done|intros; by apply moving_outbox|].
    intros d3 Hd3. wp_run. apply Hd3. }
  clearbody K. destruct (recovery_resends _); [by wp_run; apply Hk|].
  wp_run. apply Hk. apply survivors_sequence; [done|]. by apply survivors_sequence.
Qed.

(** ** Every operation *)

Lemma robust_survivors_perform o d :
  wf d -> survivors d -> robust survivors (perform o) d (fun _ _ => True).
Proof.
  intros Hd Hs. destruct (row_by_row o) eqn:Ho.
  - intros faults. pose proof (survivors_row_by_row o Ho faults d Hs) as H.
    by destruct (run (perform o) faults d) as [[fs d'] [a|e]].
  - destruct o; try done.
    + by apply survivors_enqueue.
    + by apply survivors_interrupt.
    + apply robust_bind. eapply robust_mono; [by apply survivors_unmark|]. intros. by apply robust_ret.
    + by apply survivors_markUnknown.
    + by apply survivors_retarget.
    + by apply survivors_resend.
    + by apply survivors_release.
Qed.

Lemma step_survivors d o d' : step d o d' -> wf d -> survivors d -> survivors d'.
Proof.
  intros [d0 o0 faults] Hd Hs. pose proof (robust_survivors_perform o0 d0 Hd Hs faults) as H.
  destruct (run (perform o0) faults d0) as [[fs d1] [a|e]]; simpl; naive_solver.
Qed.

Lemma reachable_sound d : reachable d -> wf d /\ survivors d.
Proof.
  induction 1 as [|d o d' _ [Hw Hs] Hstep]; [split; [apply wf_empty|done]|].
  split; [by eapply step_wf|by eapply step_survivors].
Qed.
