(* ===== verification/NativeTheorems.v ===== *)
(** The native outbox's contract: what every reachable database satisfies, what
    each user action does to a target's queue, and what the dispatcher's drain
    achieves over it. *)

From S2P Require Import Prelude JsString Json Wire Sql Records Effects Dispatcher.
From S2P Require Import DispatcherFacts StoragePort NativeOutbox NativeOutboxFacts.
From S2P Require Import NativeInvariant NativePort NativeHistory NativeQueue NativeSurvivors.

Local Open Scope string_scope.
Local Open Scope list_scope.

(** ** A concrete client, for the instances *)

Definition demo_host (id : string) : Host := mkHost id 1700 (Some "mutation-client-1").

Definition demo_intent (text : string) : MutationIntent :=
  mkIntent "inst/thread-1" (Some "thread-1") None "turn/start"
    [("ref", JStr "inst/thread-1"); ("text", JStr text)] [] None (Some text) None None None None.

(** A database with one operation performed. *)
Definition after (o : op) (d : db) : db := (run (perform o) [] d).1.2.

Definition demo_db : db :=
  after (OpEnqueue (demo_host "m-2") (demo_intent "two") None)
    (after (OpMark "m-1") (after (OpEnqueue (demo_host "m-1") (demo_intent "one") None) empty_db)).

Lemma demo_reachable : reachable demo_db.
Proof. do 3 (eapply reachable_step; [|apply step_op]). apply reachable_empty. Qed.

(** ** Every reachable database *)

(** C31: Whatever operations run, in whatever order, and whatever storage faults strike
    between their statements, the outbox stays well formed: every row fits the table
    it is in and carries its own id in its payload, no two rows of the outbox (or of
    the optimistic table) share a target's sequence, no id is active in two tables, and every sequence and epoch a
    row carries was allocated by its target's counters. *)
Theorem reachable_well_formed d : reachable d -> wf d.
Proof. apply reachable_sound. Qed.

Lemma reachable_well_formed_witness : reachable demo_db /\ wf demo_db.
Proof. split; [apply demo_reachable|exact (reachable_well_formed demo_db demo_reachable)]. Defined.

(** Survival is proof: in every reachable database a row still in play and never
    attempted carries the stop epoch its target has now - no Stop has run since it
    was born, moved or released. *)
Theorem survival_is_proof d id r :
  reachable d -> t_outbox d !! id = Some r ->
  is_in_play (row_state r) = true -> row_attempted r = false ->
  stop_epoch_at_enqueue r = stop_epoch_of (target_ref r) d.
Proof. intros [_ Hs]%reachable_sound Hr. by apply (survivors_lookup d id r). Qed.

Definition demo_row : Row :=
  insertValues (newRecord (demo_host "m-2") (demo_intent "two") 2 submitting 0) 0 0.

Lemma survival_is_proof_witness :
  t_outbox demo_db !! "m-2" = Some demo_row /\
  stop_epoch_at_enqueue demo_row = stop_epoch_of (target_ref demo_row) demo_db.
Proof.
  split; [vm_compute; reflexivity|].
  apply (survival_is_proof demo_db "m-2" demo_row demo_reachable); vm_compute; reflexivity.
Defined.

(** C35: Commit or nothing: under any storage faults, an operation that returns has
    done exactly what it does on a healthy database, and an operation that throws -
    the two attempt marks aside - has changed nothing. *)
Theorem operation_all_or_nothing o faults d :
  match run (perform o) faults d with
  | (_, d', inl _) => exec (perform o) d = (d', inl tt)
  | (_, d', inr _) => transactional o = true -> d' = d
  end.
Proof.
  destruct (run (perform o) faults d) as [[fs d'] [[]|e]] eqn:E; [by eapply run_ok|].
  intros Ho. by eapply undone_perform.
Qed.

Lemma operation_all_or_nothing_witness :
  let '(_, d', r) := run (perform (OpTransfer "m-1" rejected None)) [None; None; None; Some (Error "disk i/o error")] demo_db in
  r = inr (Error "disk i/o error") /\ d' = demo_db.
Proof.
  pose proof (operation_all_or_nothing (OpTransfer "m-1" rejected None)
    [None; None; None; Some (Error "disk i/o error")] demo_db) as H.
  set (out := run _ _ _) in *.
  assert (Hr : out.2 = inr (Error "disk i/o error")) by (vm_compute; reflexivity).
  destruct out as [[fs d'] r]. simpl in Hr. subst r. split; [reflexivity|exact (H eq_refl)].
Defined.

(** Counters never go back: whatever operation runs and wherever a fault stops
    it, no target's last sequence or stop epoch decreases. *)
Theorem counters_monotone d o d' ref :
  step d o d' ->
  (last_sequence (sequence_of ref d) <= last_sequence (sequence_of ref d'))%Z /\
  (stop_epoch (sequence_of ref d) <= stop_epoch (sequence_of ref d'))%Z.
Proof.
  intros [d0 o0 faults]. apply (keeps_above (sequences d0) o0 faults d0 (grows_refl _) ref).
Qed.

Lemma counters_monotone_witness :
  let d' := after (OpInterrupt (demo_host "m-3") (demo_intent "stop")) demo_db in
  last_sequence (sequence_of "inst/thread-1" d') = 3%Z /\
  (last_sequence (sequence_of "inst/thread-1" demo_db) <= last_sequence (sequence_of "inst/thread-1" d'))%Z /\
  (stop_epoch (sequence_of "inst/thread-1" demo_db) <= stop_epoch (sequence_of "inst/thread-1" d'))%Z.
Proof.
  split; [vm_compute; reflexivity|].
  apply (counters_monotone _ _ _ "inst/thread-1" (step_op demo_db _ [])).
Defined.

(** A canceled send never goes back in play by itself: after any operation but
    its own release, under any faults, its row is gone from the outbox or still
    canceled. *)
Theorem canceled_needs_release d o d' id r r' :
  step d o d' -> t_outbox d !! id = Some r -> row_state r = canceled ->
  releases id o = false ->
  t_outbox d' !! id = Some r' -> row_state r' = canceled.
Proof.
  intros Hs Hr Hc Ho. apply (step_row id is_canceled_row o d d'); [..|done|by exists r].
  - apply canceled_keeps_held.
  - intros Ha. by apply canceled_keeps_only.
Qed.

Definition canceled_row : Row := row_update_state canceled demo_row.
Definition stopped_db : db := after (OpInterrupt (demo_host "m-3") (demo_intent "stop")) demo_db.

Lemma canceled_needs_release_witness :
  (forall r', t_outbox (after (OpRestore "inst/thread-1" []) stopped_db) !! "m-2" = Some r' -> row_state r' = canceled) /\
  t_outbox (after (OpRestore "inst/thread-1" []) stopped_db) !! "m-2" = Some canceled_row.
Proof.
  split; [|vm_compute; reflexivity]. intros r'.
  apply (canceled_needs_release stopped_db _ _ "m-2" canceled_row r' (step_op stopped_db (OpRestore "inst/thread-1" []) []));
    vm_compute; reflexivity.
Defined.

(** Evidence of an attempt is never erased behind the hub's back: after any
    operation but its own rollback, under any faults, an attempted row is gone from
    the outbox or still marked attempted - so no Stop ever cancels it. *)
Theorem evidence_needs_refusal d o d' id r r' :
  step d o d' -> t_outbox d !! id = Some r -> row_attempted r = true ->
  unmarks id o = false ->
  t_outbox d' !! id = Some r' -> row_attempted r' = true.
Proof.
  intros Hs Hr Hc Ho. apply (step_row id is_attempted_row o d d'); [..|done|by exists r].
  - apply attempted_keeps_held.
  - intros Ha. by apply attempted_keeps_only.
Qed.

Definition attempted_row : Row :=
  row_update_attempts true 1 (insertValues (newRecord (demo_host "m-1") (demo_intent "one") 1 submitting 0) 0 0).

Lemma evidence_needs_refusal_witness :
  (forall r', t_outbox stopped_db !! "m-1" = Some r' -> row_attempted r' = true) /\
  t_outbox stopped_db !! "m-1" = Some attempted_row.
Proof.
  split; [|vm_compute; reflexivity]. intros r'.
  apply (evidence_needs_refusal demo_db _ _ "m-1" attempted_row r'
    (step_op demo_db (OpInterrupt (demo_host "m-3") (demo_intent "stop")) [])); vm_compute; reflexivity.
Defined.

(** ** What the user's actions do to a queue *)

(** An enqueue with a fresh id always succeeds and takes the next sequence of its
    target: its row joins the target's queue at the tail - or, when a Stop was
    committed after the click it answers, is born canceled and joins no queue - and
    nothing else in the database moves. *)
Theorem enqueue_exact host i barrier d :
  reachable d -> blank (targetRef i) = false -> id_fresh host d ->
  let born := if crossed barrier (stop_epoch_of (targetRef i) d) then canceled else submitting in
  exists d' r, exec (enqueueIntent host i barrier) d = (d', inl r) /\
    intentSequence r = (last_sequence (sequence_of (targetRef i) d) + 1)%Z /\
    state r = born /\
    t_outbox d' = <[createMutationId host := insertValues r 0 0]> (t_outbox d) /\
    t_optimistic d' = t_optimistic d /\ t_recovery d' = t_recovery d /\
    queue_rows (targetRef i) d' =
      queue_rows (targetRef i) d ++ (if is_in_play born then [insertValues r 0 0] else []) /\
    forall ref, ref <> targetRef i -> queue_rows ref d' = queue_rows ref d.
Proof.
  intros [Hd _]%reachable_sound Hb Hf born.
  exists (enqueued host i (barrier_state i barrier d) d), (enqueued_record host i (barrier_state i barrier d) d).
  assert (Hout : outbox_state (barrier_state i barrier d) = true) by apply crossed_state_outbox.
  assert (Hw : wf (enqueued host i (barrier_state i barrier d) d)) by (by apply enqueued_wf).
  change (barrier_state i barrier d) with born in *.
  split_and!; try done.
  - unfold enqueueIntent, withSavepoint. by rewrite Hb, exec_savepoint, exec_enqueueRecord.
  - by apply enqueued_tail.
  - intros ref Hne. by apply enqueued_other.
Qed.

Lemma enqueue_exact_witness :
  let host := demo_host "m-3" in
  let i := demo_intent "three" in
  exists d' r, exec (enqueueIntent host i (Some 0%Z)) demo_db = (d', inl r) /\
    intentSequence r = (last_sequence (sequence_of (targetRef i) demo_db) + 1)%Z /\
    state r = submitting /\
    t_outbox d' = <["m-3" := insertValues r 0 0]> (t_outbox demo_db) /\
    t_optimistic d' = t_optimistic demo_db /\ t_recovery d' = t_recovery demo_db /\
    queue_rows (targetRef i) d' = queue_rows (targetRef i) demo_db ++ [insertValues r 0 0] /\
    forall ref, ref <> targetRef i -> queue_rows ref d' = queue_rows ref demo_db.
Proof.
  apply (enqueue_exact (demo_host "m-3") (demo_intent "three") (Some 0%Z) demo_db demo_reachable);
    [vm_compute; reflexivity|].
  intros []; vm_compute; reflexivity.
Defined.

(** An enqueue without a target, or with an id some row already carries, throws
    and leaves the database exactly as it was - no sequence consumed. *)
Theorem enqueue_refuses host i barrier d :
  (blank (targetRef i) = true \/ exists t, is_Some (tbl t d !! createMutationId host)) ->
  exists e, exec (enqueueIntent host i barrier) d = (d, inr e) /\
    (blank (targetRef i) = true -> e = TARGET_REQUIRED) /\
    (blank (targetRef i) = false -> e = ID_ACTIVE (createMutationId host)).
Proof.
  intros Hx. unfold enqueueIntent. destruct (blank (targetRef i)); [by exists TARGET_REQUIRED|].
  destruct Hx as [[=]|(t & Ht)]. exists (ID_ACTIVE (createMutationId host)).
  split; [|done]. unfold withSavepoint, enqueueRecord. rewrite exec_savepoint. exec_run.
  match goal with |- context [exec _ ?d1] => rewrite (exec_assert_active d1 _ t) end;
    [done|by rewrite tbl_set_sequences].
Qed.

Lemma enqueue_refuses_witness :
  is_Some (tbl outbox demo_db !! "m-1") /\
  exists e, exec (enqueueIntent (demo_host "m-1") (demo_intent "again") None) demo_db = (demo_db, inr e) /\
    (blank (targetRef (demo_intent "again")) = true -> e = TARGET_REQUIRED) /\
    (blank (targetRef (demo_intent "again")) = false -> e = ID_ACTIVE "m-1").
Proof.
  assert (H : is_Some (tbl outbox demo_db !! "m-1")) by (vm_compute; eexists; reflexivity).
  split; [exact H|]. apply (enqueue_refuses (demo_host "m-1") (demo_intent "again") None demo_db).
  right. exists outbox. exact H.
Defined.

(** C30: Stop cancels exactly what was never attempted: it always succeeds, raises the
    target's epoch by one, and leaves in its queue the attempted rows, in their order,
    with the interrupt behind them; the rows it took out are canceled in place, other
    targets' queues and the other tables are untouched. *)
Theorem stop_exact host i d :
  reachable d -> blank (targetRef i) = false -> id_fresh host d ->
  exists d' r, exec (enqueueInterruptAndCancel host i) d = (d', inl r) /\
    state r = submitting /\
    stop_epoch_of (targetRef i) d' = (stop_epoch_of (targetRef i) d + 1)%Z /\
    t_outbox d' = <[createMutationId host := insertValues r 0 0]>
      ((fun r => if cancelable (targetRef i) r then row_update_state canceled r else r) <$> t_outbox d) /\
    t_optimistic d' = t_optimistic d /\ t_recovery d' = t_recovery d /\
    queue_rows (targetRef i) d' =
      filter (fun r => row_attempted r = true) (queue_rows (targetRef i) d) ++ [insertValues r 0 0] /\
    forall ref, ref <> targetRef i -> queue_rows ref d' = queue_rows ref d.
Proof.
  intros [Hd _]%reachable_sound Hb Hf.
  pose proof (stopping_wf i d Hd) as Hw. pose proof (stopping_fresh host i d Hf) as Hfs.
  assert (Hw' : wf (interrupted host i d)) by (by apply enqueued_wf).
  exists (interrupted host i d), (enqueued_record host i submitting (stopping i d)).
  split_and!; try done.
  - by apply exec_interrupt.
  - rewrite <- (proj2 (stopping_counters i d)). unfold interrupted, enqueued, stop_epoch_of.
    rewrite sequence_of_seq_in. simpl. by rewrite seq_in_insert, decide_True.
  - apply (queue_rows_snoc _ d _ row_attempted); [done|done| |].
    + pose proof (proj1 (stopping_counters i d)). simpl. lia.
    + intros x. unfold interrupted. rewrite (enqueued_queue host i (stopping i d) Hfs).
      rewrite stopping_queue. naive_solver.
  - intros ref Hne. unfold interrupted. rewrite (enqueued_other host i (stopping i d) Hw Hfs) by done.
    apply queue_rows_same; [done|done|]. intros x. rewrite stopping_queue. naive_solver.
Qed.

Lemma stop_exact_witness :
  let host := demo_host "m-3" in
  let i := demo_intent "stop" in
  exists d' r, exec (enqueueInterruptAndCancel host i) demo_db = (d', inl r) /\
    state r = submitting /\
    stop_epoch_of (targetRef i) d' = (stop_epoch_of (targetRef i) demo_db + 1)%Z /\
    t_outbox d' = <["m-3" := insertValues r 0 0]>
      ((fun r => if cancelable (targetRef i) r then row_update_state canceled r else r) <$> t_outbox demo_db) /\
    t_optimistic d' = t_optimistic demo_db /\ t_recovery d' = t_recovery demo_db /\
    queue_rows (targetRef i) d' =
      filter (fun r => row_attempted r = true) (queue_rows (targetRef i) demo_db) ++ [insertValues r 0 0] /\
    forall ref, ref <> targetRef i -> queue_rows ref d' = queue_rows ref demo_db.
Proof.
  apply (stop_exact (demo_host "m-3") (demo_intent "stop") demo_db demo_reachable);
    [vm_compute; reflexivity|].
  intros []; vm_compute; reflexivity.
Defined.

(** ** Attempts *)

(** An attempt the hub refuses in band leaves no trace: marking a never-attempted
    row of any reachable database and rolling the mark back restores that very
    database, and the rollback reports the row dispatchable. *)
Theorem refused_attempt_leaves_no_trace d id r :
  reachable d -> t_outbox d !! id = Some r -> row_state r = submitting -> row_attempted r = false ->
  exists d1, exec (markAttempted id) d = (d1, inl true) /\
    t_outbox d1 !! id = Some (row_update_attempts true 1 r) /\
    exec (unmarkAttempted id) d1 = (d, inl true).
Proof.
  intros [Hd Hs]%reachable_sound Hr Hst Ha.
  assert (He : stop_epoch_at_enqueue r = stop_epoch_of (target_ref r) d).
  { apply (survivors_lookup d id r Hs Hr); [by rewrite Hst|done]. }
  pose proof (exec_markAttempted d id r Hd Hr Hst) as Hm.
  pose proof (robust_exec _ _ _ _ (robust_markAttempted d id Hd)) as Hd1. rewrite Hm in Hd1. simpl in Hd1.
  rewrite (first_mark_row d id r) in Hm, Hd1 by done.
  exists (put_outbox id (row_update_attempts true 1 r) d). split_and!; [done|apply put_outbox_lookup|].
  rewrite (exec_unmark_only _ id _ Hd1 (put_outbox_lookup _ _ _)) by done. simpl.
  rewrite stop_epoch_put, He, Z.ltb_irrefl. simpl. rewrite put_outbox_twice.
  change (row_update_attempts false 0 (row_update_attempts true 1 r)) with (row_update_attempts false 0 r).
  by rewrite (clean_row d id r), put_outbox_same.
Qed.

Lemma refused_attempt_leaves_no_trace_witness :
  exists d1, exec (markAttempted "m-2") demo_db = (d1, inl true) /\
    t_outbox d1 !! "m-2" = Some (row_update_attempts true 1 demo_row) /\
    exec (unmarkAttempted "m-2") d1 = (demo_db, inl true).
Proof.
  apply (refused_attempt_leaves_no_trace demo_db "m-2" demo_row demo_reachable);
    vm_compute; reflexivity.
Defined.

(** A Stop that lands during an attempt is honoured when the attempt is refused:
    mark, Stop, rollback leaves the row canceled and unattempted, reports it not
    dispatchable, and changes nothing else the Stop left. *)
Theorem stop_fences_refused_attempt d id r host i :
  reachable d -> t_outbox d !! id = Some r -> row_state r = submitting -> row_attempted r = false ->
  targetRef i = target_ref r -> blank (targetRef i) = false -> id_fresh host d ->
  exists d1 d2 s, exec (markAttempted id) d = (d1, inl true) /\
    exec (enqueueInterruptAndCancel host i) d1 = (d2, inl s) /\
    exec (unmarkAttempted id) d2 = (put_outbox id (row_update_state canceled r) d2, inl false).
Proof.
  intros [Hd Hs]%reachable_sound Hr Hst Ha Ht Hb Hf.
  assert (He : stop_epoch_at_enqueue r = stop_epoch_of (target_ref r) d).
  { apply (survivors_lookup d id r Hs Hr); [by rewrite Hst|done]. }
  pose proof (exec_markAttempted d id r Hd Hr Hst) as Hm.
  pose proof (robust_exec _ _ _ _ (robust_markAttempted d id Hd)) as Hd1. rewrite Hm in Hd1. simpl in Hd1.
  rewrite (first_mark_row d id r) in Hm, Hd1 by done.
  set (d1 := put_outbox id (row_update_attempts true 1 r) d) in *.
  assert (Hf1 : id_fresh host d1).
  { intros []; [|apply (Hf optimistic)|apply (Hf recovery)]. simpl. rewrite lookup_insert_ne; [apply (Hf outbox)|].
    intros ->. pose proof (Hf outbox) as Hn. simpl in Hn. congruence. }
  exists d1, (interrupted host i d1). eexists. split_and!; [done|by apply exec_interrupt|].
  assert (Hr2 : t_outbox (interrupted host i d1) !! id = Some (row_update_attempts true 1 r)).
  { unfold interrupted. rewrite (enqueued_lookup host i (stopping i d1)). case_decide as Hid.
    - exfalso. pose proof (Hf outbox) as Hn. simpl in Hn. congruence.
    - rewrite stopping_lookup. unfold d1. rewrite put_outbox_lookup. simpl.
      unfold cancelable. simpl. by rewrite andb_false_r. }
  assert (Hw2 : wf (interrupted host i d1)).
  { apply enqueued_wf; [done|by apply (stopping_wf i d1)|by apply (stopping_fresh host i d1)]. }
  rewrite (exec_unmark_only _ id _ Hw2 Hr2) by done.
  assert (Hep : stop_epoch_of (target_ref r) (interrupted host i d1) = (stop_epoch_of (target_ref r) d + 1)%Z).
  { rewrite <- Ht. change (stop_epoch_of (targetRef i) d) with (stop_epoch_of (targetRef i) d1).
    rewrite <- (proj2 (stopping_counters i d1)). unfold interrupted, enqueued, stop_epoch_of.
    rewrite sequence_of_seq_in. simpl. by rewrite seq_in_insert, decide_True. }
  cbv zeta. change (target_ref (row_update_attempts true 1 r)) with (target_ref r).
  change (stop_epoch_at_enqueue (row_update_attempts true 1 r)) with (stop_epoch_at_enqueue r).
  rewrite Hep, He. rewrite (proj2 (Z.ltb_lt _ _)) by lia. simpl. f_equal. f_equal.
  rewrite <- (clean_row d id r) at 2 by done. by destruct r.
Qed.

Lemma stop_fences_refused_attempt_witness :
  exists d1 d2 s, exec (markAttempted "m-2") demo_db = (d1, inl true) /\
    exec (enqueueInterruptAndCancel (demo_host "m-3") (demo_intent "stop")) d1 = (d2, inl s) /\
    exec (unmarkAttempted "m-2") d2 = (put_outbox "m-2" (row_update_state canceled demo_row) d2, inl false).
Proof.
  apply (stop_fences_refused_attempt demo_db "m-2" demo_row (demo_host "m-3") (demo_intent "stop") demo_reachable);
    try (vm_compute; reflexivity).
  intros []; vm_compute; reflexivity.
Defined.

(** ** Dispatch *)

(** The dispatcher is offered a target's oldest row in play, and only when it may
    be sent: [nextDispatchable] answers a record exactly when some row of the target is
    submitting and every other row in play has a later sequence, so a row whose fate
    is unknown blocks everything behind it. *)
Theorem nextDispatchable_is_oldest ref d rec :
  reachable d ->
  (exec (nextDispatchable ref) d = (d, inl (Some rec)) <->
   exists id r, rec = fromRow r /\ t_outbox d !! id = Some r /\ target_ref r = ref /\
     row_state r = submitting /\
     forall id' r', t_outbox d !! id' = Some r' -> in_play ref r' = true -> id' <> id ->
       (intent_sequence r < intent_sequence r')%Z).
Proof.
  intros [Hd _]%reachable_sound. unfold nextDispatchable. rewrite exec_bind, exec_select_ordered.
  change (sort_by intent_sequence _) with (queue_rows ref d).
  pose proof (queue_rows_strict d Hd ref) as Hsort.
  pose proof (fun r => elem_of_queue_rows d ref r) as Hin.
  split.
  - destruct (queue_rows ref d) as [|r q]; [done|]. destruct (is_state blockedUnknown r) eqn:Hb; [done|].
    rewrite exec_ret. intros [= <-]. destruct (proj1 (Hin r) ltac:(by left)) as (id & Hr & [Ht Hs]%in_play_spec).
    exists id, r. split_and!; try done.
    + unfold is_state in Hb. by destruct (row_state r).
    + intros id' r' Hr' Hp Hne. apply StronglySorted_inv in Hsort as [_ Hall]. rewrite Forall_forall in Hall.
      pose proof (proj2 (Hin r') (ex_intro _ id' (conj Hr' Hp))) as Hq.
      apply elem_of_cons in Hq as [E|Hq]; [|by apply Hall].
      subst r'. apply (wf_outbox_row _ _ _ Hd) in Hr as [<- _], Hr' as [<- _]. done.
  - intros (id & r & -> & Hr & Ht & Hs & Hold).
    assert (Hp : in_play ref r = true) by (apply in_play_spec; by rewrite Hs).
    pose proof (proj2 (Hin r) (ex_intro _ id (conj Hr Hp))) as Hq.
    destruct (queue_rows ref d) as [|r0 q]; [by apply elem_of_nil in Hq|].
    apply elem_of_cons in Hq as [->|Hq].
    + unfold is_state. by rewrite Hs.
    + exfalso. apply StronglySorted_inv in Hsort as [_ Hall]. rewrite Forall_forall in Hall.
      specialize (Hall r Hq). destruct (proj1 (Hin r0) ltac:(by left)) as (id0 & Hr0 & Hp0).
      assert (id0 <> id) as Hne. { intros ->. simplify_eq. unfold key_lt in Hall. lia. }
      specialize (Hold id0 r0 Hr0 Hp0 Hne). unfold key_lt in Hall. lia.
Qed.

Lemma nextDispatchable_is_oldest_witness :
  exec (nextDispatchable "inst/thread-1") demo_db = (demo_db, inl (Some (fromRow attempted_row))) /\
  exists id r, fromRow attempted_row = fromRow r /\
    t_outbox demo_db !! id = Some r /\ target_ref r = "inst/thread-1" /\ row_state r = submitting /\
    forall id' r', t_outbox demo_db !! id' = Some r' -> in_play "inst/thread-1" r' = true -> id' <> id ->
      (intent_sequence r < intent_sequence r')%Z.
Proof.
  assert (H : exec (nextDispatchable "inst/thread-1") demo_db =
    (demo_db, inl (Some (fromRow attempted_row)))) by (vm_compute; reflexivity).
  split; [exact H|]. exact (proj1 (nextDispatchable_is_oldest _ _ _ demo_reachable) H).
Defined.

(** C2: A drain of a target terminates and is first-in first-out, at most once, over
    the SQLite outbox: whatever the hub answers, a drain with more turns than the queue
    has rows ends; what it sent is a sublist, in queue order, of the payloads queued
    when it began, none twice; the database it leaves is well formed; and when it says
    it may rerun, the storage has nothing to offer. *)
Theorem native_drain host hub client ref d before fuel :
  isClientReady (Some client) = true -> reachable d ->
  (length (queue_rows ref d) < fuel)%nat ->
  let H := native_storage host in
  let '(w, x) := interp (handle hub client) (drainTarget fuel ref) (mkWorld d before) in
  wf (store w) /\ x <> inl None /\
  (exists l, sent w = before ++ l /\ l `sublist_of` (row_payload <$> queue_rows ref d)) /\
  (x = inl (Some true) -> exec (nextDispatchable ref) (store w) = (store w, inl None)).
Proof.
  intros Hready [Hd _]%reachable_sound Hlen H.
  pose proof (drain_in_world (H0 := native_fifo host) hub client Hready fuel ref (mkWorld d before) Hd) as Hdr.
  simpl store in Hdr. change (st_queue ref d) with (queue ref d) in Hdr.
  assert (Hl : length (queue ref d) = length (queue_rows ref d)) by apply length_fmap.
  specialize (Hdr ltac:(lia)).
  destruct (interp _ _ _) as [w x]. destruct Hdr as (Hi & Hx & Hs & Hn).
  simpl in Hi, Hs, Hn. split_and!; [done|done| |].
  - destruct Hs as (l & -> & Hsub). exists l. split; [done|].
    change (queue ref d) with (queue_entry <$> queue_rows ref d) in Hsub.
    by rewrite <- list_fmap_compose in Hsub.
  - intros Ht. specialize (Hn Ht). destruct (next_offers ref (store w) Hi) as (o & Ho & _).
    unfold native_call in Hn. rewrite Ho in Hn. simpl in Hn. by simplify_eq.
Qed.

Lemma native_drain_witness :
  let client := mkClient 1 "ready" in
  let host := demo_host "unused" in
  let H := native_storage host in
  let '(w, x) := interp (handle demo_hub client) (drainTarget 3 "inst/thread-1") (mkWorld demo_db []) in
  (x = inl (Some true) /\ length (sent w) = 2%nat) /\
  wf (store w) /\ x <> inl None /\
  (exists l, sent w = [] ++ l /\ l `sublist_of` (row_payload <$> queue_rows "inst/thread-1" demo_db)) /\
  (x = inl (Some true) -> exec (nextDispatchable "inst/thread-1") (store w) = (store w, inl None)).
Proof.
  assert (Hlen : (length (queue_rows "inst/thread-1" demo_db) < 3)%nat) by (vm_compute; lia).
  pose proof (native_drain (demo_host "unused") demo_hub (mkClient 1 "ready") "inst/thread-1" demo_db [] 3
    eq_refl demo_reachable Hlen) as Hd.
  cbv zeta in *.
  set (run := interp _ _ _) in *.
  assert (Hc : run.2 = inl (Some true) /\ length (sent run.1) = 2%nat) by (vm_compute; split; reflexivity).
  destruct run as [w x]. split; [exact Hc|exact Hd].
Defined.

(** ** Settlement *)

(** The drafts a settled note supersedes, dropped. *)
Definition notes_superseded (source : MutationRecord) (m : gmap string Row) : gmap string Row :=
  if String.eqb (method source) NOTES_HUMAN_SET
  then filter (fun ir => String.eqb (row_method ir.2) NOTES_HUMAN_SET &&
         String.eqb (target_ref ir.2) (targetRef source) &&
         (intent_sequence ir.2 <? intentSequence source)%Z = false) m
  else m.

Lemma exec_discardSuperseded source d :
  exec (discardSupersededNoteRecovery source) d =
    (set_tbl recovery (notes_superseded source (t_recovery d)) d, inl tt).
Proof.
  unfold discardSupersededNoteRecovery, notes_superseded. destruct (String.eqb _ NOTES_HUMAN_SET); [done|].
  simpl. rewrite exec_ret. by destruct d.
Qed.

(** The accepted copy a receipt leaves of an outbox row. *)
Definition accepted_row (host : Host) (r : Row) : Row :=
  row_update_accepted_at (now host) (insertValues (acceptedRecord (fromRow r)) 0 0).

(** Stamping a row does not move it in the index. *)
Lemma accepted_index host r id m :
  index_ok optimistic (<[id := insertValues (acceptedRecord (fromRow r)) 0 0]> m) =
  index_ok optimistic (<[id := accepted_row host r]> m).
Proof.
  apply eq_true_iff_eq. split; intros Hi.
  - rewrite <- (insert_insert_eq m id (accepted_row host r) (insertValues (acceptedRecord (fromRow r)) 0 0)).
    eapply index_ok_update; [apply lookup_insert_eq|done|done].
  - rewrite <- (insert_insert_eq m id (insertValues (acceptedRecord (fromRow r)) 0 0) (accepted_row host r)).
    eapply index_ok_update; [apply lookup_insert_eq|done|done].
Qed.

(** The accepted copy written and stamped, when the index takes it. *)
Lemma exec_accept {A} host id r d (k : stmt A) :
  client_mutation_id r = id -> t_optimistic d !! id = None ->
  exec (Bind (Bind (replace optimistic (acceptedRecord (fromRow r))) (fun _ =>
          Bind (update_row optimistic id (fun _ => true) (fun _ r => row_update_accepted_at (now host) r))
            (fun _ => Ret tt))) (fun _ => k)) d =
    if index_ok optimistic (<[id := accepted_row host r]> (t_optimistic d))
    then exec k (set_tbl optimistic (<[id := accepted_row host r]> (t_optimistic d)) d)
    else (d, inr UNIQUE_FAILED).
Proof.
  intros Hid Ho. rewrite !exec_bind.
  assert (Hrow : replaced d optimistic (acceptedRecord (fromRow r)) = insertValues (acceptedRecord (fromRow r)) 0 0).
  { unfold replaced. simpl. by rewrite Hid, Ho. }
  destruct (index_ok optimistic (<[id := accepted_row host r]> _)) eqn:Hi.
  - rewrite exec_replace; rewrite Hrow; simpl; rewrite Hid; [|by rewrite accepted_index with (host := host)].
    rewrite exec_bind, (exec_update_row _ optimistic id _ _ (insertValues (acceptedRecord (fromRow r)) 0 0));
      [|apply lookup_insert_eq|done|simpl; rewrite insert_insert_eq; exact Hi].
    rewrite exec_ret. simpl. by rewrite insert_insert_eq.
  - unfold replace at 1. rewrite exec_stmt. unfold write_table. simpl.
    by rewrite Hid, Ho, accepted_index with (host := host), Hi.
Qed.

(** A receipt settles its record in one step: the row leaves the outbox; when the
    receipt's projection is pending and the record has something to show, an accepted
    copy stamped with the clock takes its place among the optimistic rows, otherwise
    none does; a settled note drops the note drafts it supersedes; counters stay. When
    the optimistic table already holds another row at the record's target and sequence,
    the call throws and changes nothing. *)
Theorem settleReceipt_exact host id p d r :
  reachable d -> t_outbox d !! id = Some r ->
  exec (settleReceipt host id p) d =
    if retainsAcceptedCopy (fromRow r) p then
      if index_ok optimistic (<[id := accepted_row host r]> (t_optimistic d)) then
        (mkDb (delete id (t_outbox d)) (<[id := accepted_row host r]> (t_optimistic d))
           (notes_superseded (fromRow r) (t_recovery d)) (sequences d), inl true)
      else (d, inr UNIQUE_FAILED)
    else (mkDb (delete id (t_outbox d)) (t_optimistic d)
            (notes_superseded (fromRow r) (t_recovery d)) (sequences d), inl true).
Proof.
  intros [[Hd Hdis] _]%reachable_sound Hr.
  assert (Hother : forall t, t <> outbox -> tbl t d !! id = None).
  { intros t Ht. destruct (tbl t d !! id) eqn:E; [|done]. destruct Ht. apply (Hdis t outbox id); by eexists. }
  pose proof (Hother optimistic ltac:(done)) as Ho. pose proof (Hother recovery ltac:(done)) as Hrec.
  simpl in Ho, Hrec. pose proof (rows_wf_row d Hd outbox id r Hr) as [Hid _].
  unfold settleReceipt, withSavepoint. rewrite exec_savepoint, exec_bind, exec_get.
  change (tbl outbox d !! id) with (t_outbox d !! id). rewrite Hr, exec_bind, exec_get.
  change (tbl recovery d !! id) with (t_recovery d !! id). rewrite Hrec, exec_bind, exec_get.
  change (tbl optimistic d !! id) with (t_optimistic d !! id). rewrite Ho.
  cbn [fmap option_fmap option_map first_some]. rewrite exec_bind, exec_discardSuperseded.
  cbv iota beta. destruct (retainsAcceptedCopy (fromRow r) p).
  - rewrite exec_accept by done. change (t_optimistic (set_tbl recovery _ d)) with (t_optimistic d).
    destruct (index_ok optimistic _); [by exec_run|done].
  - by exec_run.
Qed.

Definition demo_display (text : string) : json :=
  JObj [("input", JArr [JObj [("type", JStr "text"); ("text", JStr text)]])].

(** An intent for a target, with something to show. *)
Definition shown_intent (ref text : string) : MutationIntent :=
  mkIntent ref (Some "thread-1") None "turn/start" [("ref", JStr ref)] []
    (Some (demo_display text)) (Some text) None None None None.

Definition settling_db : db := after (OpEnqueue (demo_host "m-1") (shown_intent "A" "one") None) empty_db.

Lemma settling_reachable : reachable settling_db.
Proof. eapply reachable_step; [apply reachable_empty|apply step_op]. Qed.

Definition settling_row : Row := enqueued_row (demo_host "m-1") (shown_intent "A" "one") submitting empty_db.

Lemma settleReceipt_exact_witness :
  retainsAcceptedCopy (fromRow settling_row) "pending" = true /\
  exec (settleReceipt (demo_host "-") "m-1" "pending") settling_db =
    if retainsAcceptedCopy (fromRow settling_row) "pending" then
      if index_ok optimistic (<["m-1" := accepted_row (demo_host "-") settling_row]> (t_optimistic settling_db)) then
        (mkDb (delete "m-1" (t_outbox settling_db))
           (<["m-1" := accepted_row (demo_host "-") settling_row]> (t_optimistic settling_db))
           (notes_superseded (fromRow settling_row) (t_recovery settling_db)) (sequences settling_db), inl true)
      else (settling_db, inr UNIQUE_FAILED)
    else (mkDb (delete "m-1" (t_outbox settling_db)) (t_optimistic settling_db)
            (notes_superseded (fromRow settling_row) (t_recovery settling_db)) (sequences settling_db), inl true).
Proof.
  split; [vm_compute; reflexivity|].
  apply (settleReceipt_exact (demo_host "-") "m-1" "pending" settling_db settling_row settling_reachable).
  vm_compute; reflexivity.
Defined.

(** A late receipt can jam another record. A draft moved to a new target by a
    retarget keeps the sequence it had at its old one; when its own receipt then settles
    it there, the accepted copy takes a sequence that belongs to a record of the new
    target, and that record's receipt is refused by the unique index: it stays in the
    outbox, submitting and attempted, at the head of its queue. *)
Theorem late_receipt_jams_queue :
  exists d host, reachable d /\
    (exists r, t_outbox d !! "O" = Some r /\ row_state r = submitting /\ row_attempted r = true) /\
    exec (settleReceipt host "O" "pending") d = (d, inr UNIQUE_FAILED).
Proof.
  exists (after (OpSettleReceipt (demo_host "-") "R" "pending")
    (after (OpRetarget "A" (mkRetarget "B" "B" None None))
    (after (OpMark "O") (after (OpEnqueue (demo_host "O") (shown_intent "B" "o") None)
    (after (OpEnqueue (demo_host "X") (shown_intent "A" "x") None)
    (after (OpTransfer "R" rejected None)
    (after (OpMark "R") (after (OpEnqueue (demo_host "R") (shown_intent "A" "r") None) empty_db)))))))), (demo_host "-").
  split_and!.
  - do 8 (eapply reachable_step; [|apply step_op]). apply reachable_empty.
  - eexists. split_and!; vm_compute; reflexivity.
  - vm_compute. reflexivity.
Qed.

(** A second mark forgets a Stop. A row born at epoch zero and marked is fenced by
    a Stop: its rollback would hold it canceled. A second mark rewrites its capture to
    the epoch the Stop left, so once both attempts are rolled back the row is
    submitting and unattempted again, and is offered ahead of the Stop's interrupt. *)
Theorem second_mark_forgets_stop :
  exists d, reachable d /\
    (exec (unmarkAttempted "m-1") d).2 = inl false /\
    (exists r, t_outbox (exec (unmarkAttempted "m-1") d).1 !! "m-1" = Some r /\ row_state r = canceled) /\
    let d' := after (OpUnmark "m-1") (after (OpUnmark "m-1") (after (OpMark "m-1") d)) in
    (exists r, t_outbox d' !! "m-1" = Some r /\ row_state r = submitting /\ row_attempted r = false) /\
    exists rec, (exec (nextDispatchable "inst/thread-1") d').2 = inl (Some rec) /\ clientMutationId rec = "m-1".
Proof.
  exists (after (OpInterrupt (demo_host "m-2") (demo_intent "stop"))
    (after (OpMark "m-1") (after (OpEnqueue (demo_host "m-1") (demo_intent "one") None) empty_db))).
  split; [do 3 (eapply reachable_step; [|apply step_op]); apply reachable_empty|].
  split; [vm_compute; reflexivity|]. split; [eexists; split; vm_compute; reflexivity|].
  split; [eexists; split_and!; vm_compute; reflexivity|]. eexists. split; vm_compute; reflexivity.
Qed.

(** ** Drafts *)

(** An outbox row as a draft: the same columns, the attempt flag among them, with a
    kind and a reason, and the two unlisted columns at their defaults. *)
Definition drafted (kind : MutationRecoveryKind) (reason : option string) (r : Row) : Row :=
  mkRow (client_mutation_id r) (row_version r) (origin_client_id r) (target_ref r) (thread_id r)
    (instance_id r) (row_method r) (row_payload r) (row_attachments r) (optimistic_display r)
    (composer_text r) (composer_mentions r) (draft_capture_token r) (intent_sequence r)
    (created_at r) (row_state r) (row_attempted r) (stop_epoch_at_enqueue r) 0 0 (Some kind) reason.

(** Reading a row that is not an accepted copy and writing it back keeps it. *)
Lemma insertValues_fromRow r kind reason :
  row_state r <> accepted ->
  insertValues (with_recovery kind reason (fromRow r)) 0 0 = drafted kind reason r.
Proof.
  intros Hs. unfold insertValues, with_recovery, fromRow, drafted. simpl.
  unfold state_eqb. rewrite bool_decide_false by done. simpl. f_equal. by destruct (optimistic_display r).
Qed.

(** A record moved to the drafts keeps its content and its attempt evidence: the
    transfer takes the row out of the outbox and puts every column of it, with the kind
    and the reason, among the recovery rows in the same step, and touches nothing else;
    for an id the outbox does not hold it does nothing. *)
Theorem transfer_exact id kind reason d :
  reachable d ->
  exec (transferToRecovery id kind reason) d =
    match t_outbox d !! id with
    | Some r => (mkDb (delete id (t_outbox d)) (t_optimistic d)
                   (<[id := drafted kind reason r]> (t_recovery d)) (sequences d),
                 inl (Some (with_recovery kind reason (fromRow r))))
    | None => (d, inl None)
    end.
Proof.
  intros [[Hd Hdis] _]%reachable_sound. unfold transferToRecovery, withSavepoint.
  rewrite exec_savepoint, exec_bind, exec_get. change (tbl outbox d !! id) with (t_outbox d !! id).
  destruct (t_outbox d !! id) as [r|] eqn:Hr; [|done]. cbn [fmap option_fmap option_map].
  pose proof (rows_wf_row d Hd outbox id r Hr) as (Hid & _ & Hst & _).
  assert (Hrec : t_recovery d !! id = None).
  { destruct (t_recovery d !! id) eqn:E; [|done]. discriminate (Hdis recovery outbox id); by eexists. }
  assert (Hrow : replaced d recovery (with_recovery kind reason (fromRow r)) = drafted kind reason r).
  { unfold replaced. simpl. rewrite Hid, Hrec. apply insertValues_fromRow. by intros E; rewrite E in Hst. }
  assert (Hcid : clientMutationId (with_recovery kind reason (fromRow r)) = id) by exact Hid.
  rewrite exec_bind, exec_replace; rewrite Hrow, Hcid; [|done]. by exec_run.
Qed.

Lemma transfer_exact_witness :
  exec (transferToRecovery "m-1" rejected (Some "no")) settling_db =
    match t_outbox settling_db !! "m-1" with
    | Some r => (mkDb (delete "m-1" (t_outbox settling_db)) (t_optimistic settling_db)
                   (<["m-1" := drafted rejected (Some "no") r]> (t_recovery settling_db)) (sequences settling_db),
                 inl (Some (with_recovery rejected (Some "no") (fromRow r))))
    | None => (settling_db, inl None)
    end.
Proof. exact (transfer_exact "m-1" rejected (Some "no") settling_db settling_reachable). Defined.
