(* ===== verification/NativeActions.v ===== *)
(** The user's actions on queued and recovered sends, and the moves of a whole
    queue: what a release, a reconciliation, a resend and a retarget make of the
    native outbox. *)

From S2P Require Import Prelude JsString Json Wire Sql Records Effects Dispatcher.
From S2P Require Import DispatcherFacts StoragePort NativeOutbox NativeOutboxFacts.
From S2P Require Import NativeInvariant NativePort NativeHistory NativeQueue NativeSurvivors.
From S2P Require Import NativeTheorems.

Local Open Scope string_scope.
Local Open Scope list_scope.

(** ** Rows appended to a queue *)

(** A row written above the counter of its target, over nothing or over a row that
    was in no queue. *)
Definition put_new (id : string) (r : Row) (d : db) : db :=
  let s := sequence_of (target_ref r) d in
  put_outbox id r
    (set_sequences (<[target_ref r := mkSequence (intent_sequence r) (stop_epoch s) (recovery_resends s)]>
      (sequences d)) d).

Section put_new.
Context (d : db) (id : string) (r : Row) (Hd : wf d).
Context (Hn : intent_sequence r = (last_sequence (sequence_of (target_ref r) d) + 1)%Z).

Lemma put_new_lookup id' :
  t_outbox (put_new id r d) !! id' = if decide (id' = id) then Some r else t_outbox d !! id'.
Proof.
  unfold put_new. simpl. case_decide; [subst; apply lookup_insert_eq|by apply lookup_insert_ne].
Qed.

Lemma put_new_index : index_ok outbox (<[id := r]> (t_outbox d)) = true.
Proof.
  destruct Hd as [Hw _]. apply index_ok_spec. intros _. apply unique_index_insert.
  - intros j s Hj [= Ht Hs]. apply (wf_outbox_row _ _ _ Hd) in Hj as (_ & _ & _ & _ & _ & _ & Hb & _).
    rewrite Ht, <- sequence_of_seq_in in Hb. lia.
  - pose proof (rows_wf_index d Hw outbox) as Hi. by apply index_ok_spec in Hi.
Qed.

(** The row a release or a move rewrites stays in order. *)
Lemma put_new_wf r0 :
  t_outbox d !! id = Some r0 ->
  client_mutation_id r = id -> obj_get "clientMutationId" (row_payload r) = Some (JStr id) ->
  outbox_state (row_state r) = true -> recovery_kind r = None -> recovery_reason r = None ->
  attempts_ok r -> (0 <= stop_epoch_at_enqueue r <= stop_epoch_of (target_ref r) d)%Z ->
  wf (put_new id r d).
Proof.
  intros Hr0 Hid Hp Hst Hk Hm Ha He. unfold stop_epoch_of in He.
  pose proof (rows_wf_sequences d (proj1 Hd) (target_ref r)) as [Hpos _].
  rewrite <- sequence_of_seq_in in Hpos.
  set (d1 := set_sequences (<[target_ref r := mkSequence (intent_sequence r)
    (stop_epoch (sequence_of (target_ref r) d)) (recovery_resends (sequence_of (target_ref r) d))]>
      (sequences d)) d).
  assert (Hd1 : wf d1) by (apply wf_sequence; [done|lia|lia]).
  apply (wf_update d1 outbox id r0 r); [done|done| |apply put_new_index].
  split; [done|]. split; [done|]. simpl. rewrite seq_in_insert, decide_True by done. simpl.
  split_and!; try done; lia.
Qed.

Lemma put_new_in ref x :
  (forall r0, t_outbox d !! id = Some r0 -> in_play ref r0 = false) ->
  x ∈ queue_rows ref (put_new id r d) <-> x ∈ queue_rows ref d \/ (x = r /\ in_play ref r = true).
Proof.
  intros Hold. rewrite !elem_of_queue_rows. split.
  - intros (id' & Hx & Hp). rewrite put_new_lookup in Hx. case_decide; simplify_eq; naive_solver.
  - intros [(id' & Hx & Hp)|[-> Hp]].
    + exists id'. rewrite put_new_lookup. case_decide; [|done]. subst. specialize (Hold x Hx). congruence.
    + exists id. by rewrite put_new_lookup, decide_True.
Qed.

Lemma put_new_tail :
  wf (put_new id r d) -> is_in_play (row_state r) = true ->
  (forall r0, t_outbox d !! id = Some r0 -> in_play (target_ref r) r0 = false) ->
  queue_rows (target_ref r) (put_new id r d) = queue_rows (target_ref r) d ++ [r].
Proof.
  intros Hw Hs Hold.
  rewrite (queue_rows_snoc (target_ref r) d (put_new id r d) (fun _ => true) r); try done.
  - by rewrite filter_all by (by apply Forall_forall).
  - lia.
  - intros x. rewrite put_new_in by done.
    assert (in_play (target_ref r) r = true) by (by apply in_play_spec). naive_solver.
Qed.

Lemma put_new_elsewhere ref :
  wf (put_new id r d) -> ref <> target_ref r ->
  (forall r0, t_outbox d !! id = Some r0 -> in_play ref r0 = false) ->
  queue_rows ref (put_new id r d) = queue_rows ref d.
Proof.
  intros Hw Hne Hold. apply queue_rows_same; [done|done|]. intros x. rewrite put_new_in by done.
  split; [|by left]. intros [|[_ [Ht _]%in_play_spec]]; [done|congruence].
Qed.

(** The pair of statements both run: allocate, then update the row. *)
Lemma exec_put_new {A} r0 (f : Z -> Row -> Row) (a : A) :
  t_outbox d !! id = Some r0 -> f (intent_sequence r) r0 = r ->
  exec (Bind (allocateSequence (target_ref r)) (fun n =>
        Bind (update_row outbox id (fun _ => true) (fun _ r => f n r)) (fun _ => Ret a))) d =
    (put_new id r d, inl a).
Proof.
  intros Hr0 Hf. rewrite exec_bind, exec_allocateSequence. cbv beta zeta iota.
  rewrite <- Hn, exec_bind. set (d1 := set_sequences _ d).
  rewrite (exec_update_row d1 outbox id _ _ r0); [|done|done|].
  - rewrite exec_ret. cbv beta. by rewrite Hf.
  - cbv beta. rewrite Hf. apply put_new_index.
Qed.
End put_new.

(** ** Send now *)

(** A canceled send of the target, pressed after its last Stop. *)
Definition releasable (ref : string) (barrier : Z) (d : db) (r : Row) : bool :=
  is_state canceled r && at_ref ref r && negb (crossed (Some barrier) (stop_epoch_of ref d)).

(** The row a release leaves: the same send, at the end of the line. *)
Definition released (d : db) (r : Row) : Row :=
  row_update_epoch (stop_epoch_of (target_ref r) d)
    (row_update_sequence (last_sequence (sequence_of (target_ref r) d) + 1)
      (row_update_state submitting r)).

Lemma releasable_spec ref b d r :
  releasable ref b d r = true <->
  row_state r = canceled /\ target_ref r = ref /\ (stop_epoch_of ref d <= b)%Z.
Proof.
  unfold releasable, at_ref. rewrite !andb_true_iff, negb_true_iff, String.eqb_eq. simpl.
  rewrite Z.ltb_ge. split.
  - intros [[H%is_state_true ?] ?]. done.
  - intros (H & ? & ?). unfold is_state. by rewrite H.
Qed.

Lemma exec_release id ref b d r :
  wf d -> t_outbox d !! id = Some r ->
  exec (releaseCanceled id ref b) d =
    if releasable ref b d r then (put_new id (released d r) d, inl true) else (d, inl false).
Proof.
  intros Hd Hr. unfold releaseCanceled, withSavepoint. rewrite exec_savepoint, exec_bind, exec_get.
  change (tbl outbox d !! id) with (t_outbox d !! id). rewrite Hr. cbn [fmap option_fmap option_map].
  change (state (fromRow r)) with (row_state r). change (targetRef (fromRow r)) with (target_ref r).
  unfold releasable. change (state_eqb (row_state r) canceled) with (is_state canceled r).
  change (String.eqb (target_ref r) ref) with (at_ref ref r). simpl crossed.
  destruct (is_state canceled r); [|done]. destruct (at_ref ref r) eqn:Ht; [|done]. simpl.
  apply String.eqb_eq in Ht as <-. rewrite exec_bind, exec_stopEpochOf.
  destruct (b <? _)%Z; [done|]. simpl. rewrite exec_bind, exec_allocateSequence. cbv beta zeta iota.
  rewrite exec_bind, exec_stopEpochOf, stop_epoch_after_allocate, exec_bind.
  set (d1 := set_sequences _ d).
  rewrite (exec_update_row d1 outbox id _ _ r); [done|done|done|].
  by apply (put_new_index d id (released d r)).
Qed.

(** Send now puts the send at the end of the line: pressed on a canceled send of its
    target, with no Stop committed since the press, the release succeeds, the send joins
    its target's queue behind everything in it - the interrupt of the Stop that canceled
    it included - under a fresh sequence and the current epoch, and nothing else moves;
    pressed on anything else, or overtaken by a Stop, it changes nothing. *)
Theorem release_exact id ref barrier d :
  reachable d ->
  match t_outbox d !! id with
  | Some r =>
      if releasable ref barrier d r then
        exists d', exec (releaseCanceled id ref barrier) d = (d', inl true) /\
          t_outbox d' = <[id := released d r]> (t_outbox d) /\
          t_optimistic d' = t_optimistic d /\ t_recovery d' = t_recovery d /\
          queue_rows ref d' = queue_rows ref d ++ [released d r] /\
          forall ref', ref' <> ref -> queue_rows ref' d' = queue_rows ref' d
      else exec (releaseCanceled id ref barrier) d = (d, inl false)
  | None => exec (releaseCanceled id ref barrier) d = (d, inl false)
  end.
Proof.
  intros [Hd _]%reachable_sound. destruct (t_outbox d !! id) as [r|] eqn:Hr.
  2:{ unfold releaseCanceled, withSavepoint. rewrite exec_savepoint, exec_bind, exec_get. simpl. by rewrite Hr. }
  pose proof (exec_release id ref barrier d r Hd Hr) as He.
  destruct (releasable ref barrier d r) eqn:Hl; [|done].
  apply releasable_spec in Hl as (Hc & <- & Hb).
  pose proof (wf_outbox_row _ _ _ Hd Hr) as (Hid & Hp & Hst & Hk & Hm & Ha & Hs & Hep).
  pose proof (rows_wf_sequences d (proj1 Hd) (target_ref r)) as [_ Hpos].
  rewrite <- sequence_of_seq_in in Hpos.
  assert (Hw : wf (put_new id (released d r) d)).
  { apply (put_new_wf d id (released d r) Hd eq_refl r); try done.
    destruct Ha as (? & ? & ?). by split_and!. }
  assert (Hold : forall ref' r0, t_outbox d !! id = Some r0 -> in_play ref' r0 = false).
  { intros ref' r0 Hr0. simplify_eq. unfold in_play. by rewrite Hc, andb_false_r. }
  exists (put_new id (released d r) d). split_and!; try done.
  - apply (put_new_tail d id (released d r) Hd eq_refl Hw eq_refl (Hold _)).
  - intros ref' Hne. apply (put_new_elsewhere d id (released d r) Hd eq_refl ref' Hw Hne (Hold ref')).
Qed.

Lemma release_exact_witness :
  exists d', exec (releaseCanceled "m-2" "inst/thread-1" 1) stopped_db = (d', inl true) /\
    t_outbox d' = <["m-2" := released stopped_db canceled_row]> (t_outbox stopped_db) /\
    t_optimistic d' = t_optimistic stopped_db /\ t_recovery d' = t_recovery stopped_db /\
    queue_rows "inst/thread-1" d' = queue_rows "inst/thread-1" stopped_db ++ [released stopped_db canceled_row] /\
    forall ref', ref' <> "inst/thread-1" -> queue_rows ref' d' = queue_rows ref' stopped_db.
Proof.
  assert (Hd : reachable stopped_db) by (eapply reachable_step; [apply demo_reachable|apply step_op]).
  pose proof (release_exact "m-2" "inst/thread-1" 1 stopped_db Hd) as H.
  assert (E : t_outbox stopped_db !! "m-2" = Some canceled_row) by (vm_compute; reflexivity).
  rewrite E in H. assert (Hl : releasable "inst/thread-1" 1 stopped_db canceled_row = true) by (vm_compute; reflexivity).
  rewrite Hl in H. exact H.
Defined.

(** ** Reconciliation *)

(** A send of unknown fate a full read does not name. *)
Definition proven_absent (ids : list string) (r : Row) : bool :=
  is_state blockedUnknown r && negb (str_in (client_mutation_id r) ids).

Definition reopened (ids : list string) (r : Row) : Row :=
  if proven_absent ids r then row_update_state submitting r else r.

Lemma reopened_in_play ref ids r : in_play ref (reopened ids r) = in_play ref r.
Proof.
  unfold reopened, proven_absent, in_play, at_ref. destruct (is_state blockedUnknown r) eqn:Hb; [|done].
  apply is_state_true in Hb. destruct (negb _); [|done]. simpl. by rewrite Hb.
Qed.

Lemma strongly_sorted_fmap {A} (key : A -> Z) (f : A -> A) l :
  (forall x, key (f x) = key x) -> StronglySorted (key_lt key) l -> StronglySorted (key_lt key) (f <$> l).
Proof.
  intros Hf. induction 1 as [|x l Hs IH Hall]; [constructor|]. rewrite fmap_cons. constructor; [done|].
  rewrite Forall_fmap. eapply Forall_impl; [done|]. intros y. unfold key_lt. simpl. by rewrite !Hf.
Qed.

Section restoring.
Context (ref : string) (ids : list string) (d : db) (Hd : wf d).

Definition absent_at (r : Row) : bool := at_ref ref r && is_state blockedUnknown r && negb (str_in (client_mutation_id r) ids).

Definition restored_db : db :=
  set_tbl outbox ((fun r => if absent_at r then row_update_state submitting r else r) <$> t_outbox d) d.

Lemma absent_at_ref r : absent_at r = at_ref ref r && proven_absent ids r.
Proof. unfold absent_at, proven_absent. by rewrite andb_assoc. Qed.

Lemma exec_restore :
  exec (restoreProvenAbsent ref ids) d =
    (restored_db, inl (fromRow <$> sort_by intent_sequence
       (row_update_state submitting <$> rows_where absent_at (t_outbox d)))).
Proof.
  unfold restoreProvenAbsent, withSavepoint. rewrite exec_savepoint, exec_bind, exec_update_where; [done|].
  apply index_ok_fmap; [|apply Hd]. intros r. by destruct (_ && _).
Qed.

Lemma restored_wf : wf restored_db.
Proof.
  pose proof (robust_exec _ _ _ _ (robust_restore ref ids d Hd)) as H. by rewrite exec_restore in H.
Qed.

Lemma restored_queue ref' :
  queue_rows ref' restored_db = (if String.eqb ref' ref then reopened ids else id) <$> queue_rows ref' d.
Proof.
  apply (strict_unique intent_sequence); [by apply queue_rows_strict, restored_wf| |].
  - apply strongly_sorted_fmap; [|by apply queue_rows_strict].
    intros r. destruct (String.eqb _ _); [|done]. unfold reopened. by destruct (proven_absent _ _).
  - intros x. rewrite elem_of_queue_rows, list_elem_of_fmap. simpl. split.
    + intros (id & (r & <- & Hr)%lookup_fmap_Some & Hp). exists r. rewrite elem_of_queue_rows.
      rewrite absent_at_ref in *. destruct (at_ref ref r) eqn:Ht; simpl in *.
      * fold (reopened ids r) in *. rewrite reopened_in_play in Hp.
        apply String.eqb_eq in Ht as <-. pose proof (proj1 (in_play_spec _ _) Hp) as [-> _].
        rewrite String.eqb_refl. eauto.
      * pose proof (proj1 (in_play_spec _ _) Hp) as [<- _]. unfold at_ref in Ht. rewrite Ht. eauto.
    + intros (r & -> & (id & Hr & Hp)%elem_of_queue_rows). exists id. rewrite lookup_fmap, Hr. simpl.
      pose proof (proj1 (in_play_spec _ _) Hp) as [<- _]. rewrite absent_at_ref. unfold at_ref.
      destruct (String.eqb _ _); simpl; [|done]. fold (reopened ids r). by rewrite reopened_in_play.
Qed.

(** What the pass reports: the reopened sends, oldest first. *)
Lemma restored_rows :
  sort_by intent_sequence (row_update_state submitting <$> rows_where absent_at (t_outbox d)) =
    row_update_state submitting <$> filter (fun r => proven_absent ids r = true) (queue_rows ref d).
Proof.
  apply (strict_unique intent_sequence).
  - apply sort_by_strict. rewrite <- list_fmap_compose. apply rows_where_nodup.
    intros i j r s Hi Hj Hr Hs E. rewrite absent_at_ref in Hr, Hs.
    apply andb_prop in Hr as [Hr%String.eqb_eq _], Hs as [Hs%String.eqb_eq _].
    pose proof (rows_wf_index d (proj1 Hd) outbox) as Hidx. apply index_ok_spec in Hidx; [|done].
    apply (Hidx _ _ Hi _ _ Hj). unfold sequence_key. simpl in E. congruence.
  - apply strongly_sorted_fmap; [done|]. by apply strongly_sorted_filter, queue_rows_strict.
  - intros x. rewrite elem_of_sort_by, !list_elem_of_fmap.
    setoid_rewrite elem_of_rows_where. setoid_rewrite list_elem_of_filter.
    setoid_rewrite elem_of_queue_rows. setoid_rewrite absent_at_ref. split.
    + intros (r & -> & id & Hr & [Ht Hp]%andb_prop). exists r. split_and!; [done|done|].
      exists id. split; [done|]. unfold in_play. rewrite Ht. simpl.
      unfold proven_absent in Hp. apply andb_prop in Hp as [Hp%is_state_true _]. by rewrite Hp.
    + intros (r & -> & Hp & id & Hr & [Ht _]%in_play_spec). exists r. split; [done|]. exists id.
      split; [done|]. unfold at_ref. by rewrite Ht, String.eqb_refl, Hp.
Qed.
End restoring.

(** Reconciliation reopens a queue: with the ids a full read names, every send of
    unknown fate the read does not name goes back to submitting, in its place and with
    its attempt evidence, and is reported, oldest first; nothing else moves; and from then
    on the target's queue is closed only when its head is of unknown fate and the read
    names it. *)
Theorem restore_reopens ref ids d :
  reachable d ->
  exists d', exec (restoreProvenAbsent ref ids) d =
      (d', inl (fromRow <$> (row_update_state submitting <$>
        filter (fun r => proven_absent ids r = true) (queue_rows ref d)))) /\
    t_optimistic d' = t_optimistic d /\ t_recovery d' = t_recovery d /\ sequences d' = sequences d /\
    queue_rows ref d' = reopened ids <$> queue_rows ref d /\
    (forall ref', ref' <> ref -> queue_rows ref' d' = queue_rows ref' d) /\
    exec (nextDispatchable ref) d' = (d', inl
      match queue_rows ref d with
      | r :: _ => if is_state blockedUnknown r && str_in (client_mutation_id r) ids then None
                  else Some (fromRow (reopened ids r))
      | [] => None
      end).
Proof.
  intros [Hd _]%reachable_sound. pose proof (restored_queue ref ids d Hd ref) as Hq.
  rewrite String.eqb_refl in Hq. exists (restored_db ref ids d).
  rewrite exec_restore, restored_rows by done. split_and!; try done.
  - intros ref' Hne. rewrite restored_queue by done.
    apply String.eqb_neq in Hne. rewrite Hne. apply list_fmap_id.
  - unfold nextDispatchable. rewrite exec_bind, exec_select_ordered.
    change (sort_by intent_sequence _) with (queue_rows ref (restored_db ref ids d)). rewrite Hq.
    pose proof (elem_of_queue_rows d ref) as Hin.
    destruct (queue_rows ref d) as [|r q]; [done|]. rewrite fmap_cons. cbv beta iota.
    unfold reopened, proven_absent. destruct (is_state blockedUnknown r) eqn:Hb; cbn [andb]; [|by rewrite Hb].
    destruct (str_in _ ids); cbn [negb]; [by rewrite Hb|done].
Qed.

Definition uncertain_db : db := after (OpMarkUnknown "m-1" blockedUnknown false) demo_db.

Lemma restore_reopens_witness :
  exec (nextDispatchable "inst/thread-1") uncertain_db = (uncertain_db, inl None) /\
  exists d', exec (restoreProvenAbsent "inst/thread-1" ["m-2"]) uncertain_db =
      (d', inl (fromRow <$> (row_update_state submitting <$>
        filter (fun r => proven_absent ["m-2"] r = true) (queue_rows "inst/thread-1" uncertain_db)))) /\
    t_optimistic d' = t_optimistic uncertain_db /\ t_recovery d' = t_recovery uncertain_db /\
    sequences d' = sequences uncertain_db /\
    queue_rows "inst/thread-1" d' = reopened ["m-2"] <$> queue_rows "inst/thread-1" uncertain_db /\
    (forall ref', ref' <> "inst/thread-1" -> queue_rows ref' d' = queue_rows ref' uncertain_db) /\
    exec (nextDispatchable "inst/thread-1") d' = (d', inl
      match queue_rows "inst/thread-1" uncertain_db with
      | r :: _ => if is_state blockedUnknown r && str_in (client_mutation_id r) ["m-2"] then None
                  else Some (fromRow (reopened ["m-2"] r))
      | [] => None
      end).
Proof.
  split; [vm_compute; reflexivity|]. apply restore_reopens.
  eapply reachable_step; [apply demo_reachable|apply step_op].
Defined.

(** ** Resends *)

(** A source the resend may consume: a draft of the target. *)
Definition source_ready (ref : string) (d : db) (id : string) : bool :=
  match t_recovery d !! id with Some s => String.eqb (target_ref s) ref | None => false end.

Lemma exec_sources_present ids ref d :
  exec (sources_present ids ref) d = (d, inl (forallb (source_ready ref d) ids)).
Proof.
  induction ids as [|id ids IH]; [done|]. simpl. rewrite exec_bind, exec_get. simpl.
  unfold source_ready at 1. destruct (t_recovery d !! id) as [s|]; [|done]. simpl.
  by destruct (String.eqb _ _).
Qed.

Definition consume (ids : list string) (d : db) : db :=
  set_tbl recovery (filter (fun ir => ir.1 ∉ ids) (t_recovery d)) d.

Lemma exec_consume ids d :
  exec (for_each ids (fun id => Bind (delete_from recovery id) (fun _ => Ret tt))) d = (consume ids d, inl tt).
Proof.
  revert d. induction ids as [|id ids IH]; intros d; simpl.
  - rewrite exec_ret. f_equal. unfold consume. rewrite map_filter_id; [by destruct d|]. intros. apply not_elem_of_nil.
  - rewrite !exec_bind, exec_delete_from, exec_ret, IH. f_equal. unfold consume. simpl. f_equal.
    apply map_eq. intros k. apply option_eq. intros r.
    rewrite !map_lookup_filter_Some, lookup_delete_Some, elem_of_cons. naive_solver.
Qed.

Definition resent (host : Host) (i : MutationIntent) (st : RecordState) (ids : list string) (d : db) : db :=
  let d1 := consume ids (enqueued host i st d) in
  let s := sequence_of (targetRef i) d1 in
  set_sequences
    (<[targetRef i := mkSequence (last_sequence s) (stop_epoch s)
        (recovery_resends s ++ [mkResend (targetRef i) ids (createMutationId host)])]> (sequences d1)) d1.

Lemma exec_resend host sources i barrier d :
  wf d -> blank (targetRef i) = false -> id_fresh host d ->
  let ids := js_set sources in
  let st := barrier_state i barrier d in
  exec (resendRecovery host sources i barrier) d =
    if negb (bool_decide (ids = [])) && forallb (source_ready (targetRef i) d) ids
    then (resent host i st ids d, inl (Some (enqueued_record host i st d)))
    else (d, inl None).
Proof.
  intros Hd Hb Hf ids st. unfold resendRecovery, withSavepoint. rewrite Hb, exec_savepoint. fold ids.
  destruct ids as [|id0 ids0] eqn:Hi; [done|]. rewrite <- Hi. rewrite bool_decide_false by (by rewrite Hi).
  rewrite exec_bind, exec_sources_present. destruct (forallb _ _); cbn [negb andb]; [|done].
  rewrite exec_bind, exec_enqueueRecord by done. fold st.
  rewrite exec_bind, exec_consume, exec_bind, exec_recoveryResendsOf, exec_bind, exec_writeRecoveryResends.
  cbv zeta. by rewrite exec_ret.
Qed.

Lemma read_resent host i st sources d :
  exists c, exec (readRecoveryResend (targetRef i) sources) (resent host i st (js_set sources) d) =
      (resent host i st (js_set sources) d, inl (Some c)) /\
    forall id, id ∈ sourceIds c -> id ∈ sources.
Proof.
  unfold readRecoveryResend. rewrite exec_bind, exec_recoveryResendsOf, exec_ret. cbv zeta.
  match goal with |- context [list_find ?P ?l] => destruct (list_find P l) as [[k c]|] eqn:Hl end.
  - exists c. split; [done|]. apply list_find_Some in Hl as (_ & Hc & _).
    apply andb_prop in Hc as [_ Hall]. rewrite forallb_forall in Hall. intros id Hid%list_elem_of_In.
    apply elem_of_js_set, str_in_spec. by apply Hall.
  - exfalso. apply list_find_None in Hl. unfold resent in Hl. cbv zeta in Hl.
    unfold sequence_of in Hl. simpl in Hl. rewrite lookup_insert_eq in Hl. simpl in Hl.
    apply Forall_app in Hl as [_ [Hl _]%Forall_cons]. apply Hl. simpl.
    rewrite Nat.eqb_refl. simpl. apply forallb_forall. intros id Hid%list_elem_of_In. by apply str_in_spec.
Qed.

(** A resend consumes its drafts exactly once: with a target, a fresh id and sources
    that are all drafts of that target, it queues one new send at the tail - born
    canceled when a Stop has overtaken the press - drops exactly those drafts, and leaves
    a receipt by which the draft's owner finds that its sources were consumed; when a
    source is gone or belongs to another target, or none is named, it changes nothing. *)
Theorem resend_exact host sources i barrier d :
  reachable d -> blank (targetRef i) = false -> id_fresh host d ->
  let ids := js_set sources in
  let born := if crossed barrier (stop_epoch_of (targetRef i) d) then canceled else submitting in
  if negb (bool_decide (ids = [])) && forallb (source_ready (targetRef i) d) ids then
    exists d' r, exec (resendRecovery host sources i barrier) d = (d', inl (Some r)) /\
      state r = born /\
      t_outbox d' = <[createMutationId host := insertValues r 0 0]> (t_outbox d) /\
      t_optimistic d' = t_optimistic d /\
      t_recovery d' = filter (fun ir => ir.1 ∉ ids) (t_recovery d) /\
      queue_rows (targetRef i) d' =
        queue_rows (targetRef i) d ++ (if is_in_play born then [insertValues r 0 0] else []) /\
      (forall ref, ref <> targetRef i -> queue_rows ref d' = queue_rows ref d) /\
      exists c, exec (readRecoveryResend (targetRef i) sources) d' = (d', inl (Some c)) /\
        forall id, id ∈ sourceIds c -> id ∈ sources
  else exec (resendRecovery host sources i barrier) d = (d, inl None).
Proof.
  intros [Hd _]%reachable_sound Hb Hf ids born. pose proof (exec_resend host sources i barrier d Hd Hb Hf) as He.
  cbv zeta in He. fold ids in He. destruct (_ && _); [|done].
  change (barrier_state i barrier d) with born in He.
  assert (Hout : outbox_state born = true) by apply (crossed_state_outbox i barrier d).
  exists (resent host i born ids d), (enqueued_record host i born d). split_and!; try done.
  - change (queue_rows (targetRef i) (resent host i born ids d))
      with (queue_rows (targetRef i) (enqueued host i born d)). by apply enqueued_tail.
  - intros ref Hne. change (queue_rows ref (resent host i born ids d)) with (queue_rows ref (enqueued host i born d)).
    by apply enqueued_other.
  - apply read_resent.
Qed.

Definition drafted_db : db := after (OpTransfer "m-1" rejected (Some "no")) demo_db.

Lemma resend_exact_witness :
  let host := demo_host "m-3" in
  let i := demo_intent "again" in
  exists d' r, exec (resendRecovery host ["m-1"; "m-1"] i None) drafted_db = (d', inl (Some r)) /\
    state r = submitting /\
    t_outbox d' = <["m-3" := insertValues r 0 0]> (t_outbox drafted_db) /\
    t_optimistic d' = t_optimistic drafted_db /\
    t_recovery d' = filter (fun ir => ir.1 ∉ ["m-1"]) (t_recovery drafted_db) /\
    queue_rows (targetRef i) d' = queue_rows (targetRef i) drafted_db ++ [insertValues r 0 0] /\
    (forall ref, ref <> targetRef i -> queue_rows ref d' = queue_rows ref drafted_db) /\
    exists c, exec (readRecoveryResend (targetRef i) ["m-1"; "m-1"]) d' = (d', inl (Some c)) /\
      forall id, id ∈ sourceIds c -> id ∈ ["m-1"; "m-1"].
Proof.
  assert (Hd : reachable drafted_db) by (eapply reachable_step; [apply demo_reachable|apply step_op]).
  assert (Hf : id_fresh (demo_host "m-3") drafted_db) by (intros []; vm_compute; reflexivity).
  exact (resend_exact (demo_host "m-3") ["m-1"; "m-1"] (demo_intent "again") None drafted_db Hd eq_refl Hf).
Defined.

(** ** Retargets *)

(** The row a retarget makes of an outbox row, at sequence [n] of the new target. *)
Definition moved_row (to : Retarget) (e n : Z) (r : Row) : Row :=
  row_update_epoch e (row_update_sequence n
    (row_update_route (to_ref to) (rewrite_payload to (row_payload r)) (to_threadId to) (fence_of to) r)).

Fixpoint moved_rows (to : Retarget) (e n : Z) (rows : list Row) : list Row :=
  match rows with
  | [] => []
  | r :: rows' => moved_row to e (n + 1) r :: moved_rows to e (n + 1) rows'
  end.

(** A row taken out of a queue by the row written over it. *)
Lemma put_new_removed d id r ref :
  wf d -> wf (put_new id r d) -> ref <> target_ref r ->
  queue_rows ref (put_new id r d) = filter (fun x => client_mutation_id x <> id) (queue_rows ref d).
Proof.
  intros Hd Hw Hne. apply (strict_unique intent_sequence); [by apply queue_rows_strict| |].
  - by apply strongly_sorted_filter, queue_rows_strict.
  - intros x. rewrite list_elem_of_filter, !elem_of_queue_rows.
    setoid_rewrite put_new_lookup. split.
    + intros (id' & Hx & Hp). case_decide; [simplify_eq; by apply in_play_spec in Hp as [? _]|].
      pose proof (wf_outbox_row _ _ _ Hd Hx) as [-> _]. eauto.
    + intros (Hx & id' & Hr & Hp). exists id'. split; [|done].
      pose proof (wf_outbox_row _ _ _ Hd Hr) as [Hid _]. rewrite decide_False; [done|congruence].
Qed.

Section retargets.
Context (ref : string) (to : Retarget) (e : Z) (Hne : ref <> to_ref to).

(** An exec equation gives what the weakest precondition promises. *)
Lemma wp_exec {A} (p : stmt A) d d' a Q : wp p d Q -> exec p d = (d', inl a) -> Q d' a.
Proof. unfold wp. intros H E. by rewrite E in H. Qed.

Lemma exec_move_outbox d r :
  retargeting to e d -> t_outbox d !! client_mutation_id r = Some r -> in_play ref r = true ->
  let n := (last_sequence (sequence_of (to_ref to) d) + 1)%Z in
  let d' := put_new (client_mutation_id r) (moved_row to e n r) d in
  exec (move_outbox to e r) d = (d', inl tt) /\ retargeting to e d' /\
  last_sequence (sequence_of (to_ref to) d') = n /\
  queue_rows (to_ref to) d' = queue_rows (to_ref to) d ++ [moved_row to e n r] /\
  forall ref', ref' <> to_ref to ->
    queue_rows ref' d' = filter (fun x => client_mutation_id x <> client_mutation_id r) (queue_rows ref' d).
Proof.
  intros Hd Hr Hp n d'.
  assert (He : exec (move_outbox to e r) d = (d', inl tt)).
  { exact (exec_put_new d _ (moved_row to e n r) (proj1 Hd) eq_refl r
      (fun n r0 => row_update_epoch e (row_update_sequence n (row_update_route (to_ref to)
         (rewrite_payload to (row_payload r)) (to_threadId to) (fence_of to) r0))) tt Hr eq_refl). }
  assert (Hd' : retargeting to e d').
  { refine (wp_exec _ _ _ _ (fun d' _ => retargeting to e d') _ He). apply wp_move_outbox; [|done].
    by apply (wf_outbox_row _ _ _ (proj1 Hd)) in Hr as (_ & ? & _). }
  pose proof (proj1 (in_play_spec _ _) Hp) as [Ht Hs].
  split_and!; [done|done| | |].
  - unfold d', put_new, sequence_of. simpl. by rewrite lookup_insert_eq.
  - apply (put_new_tail d _ (moved_row to e n r) (proj1 Hd) eq_refl (proj1 Hd')); [done|].
    intros r0 Hr0. assert (r0 = r) as -> by congruence. unfold in_play, at_ref. simpl.
    destruct (String.eqb_spec (target_ref r) (to_ref to)); [by destruct Hne; rewrite <- Ht|done].
  - intros ref' Hne'. by apply put_new_removed; [apply Hd|apply Hd'|].
Qed.

Lemma exec_move_all rows d :
  retargeting to e d -> NoDup (client_mutation_id <$> rows) ->
  Forall (fun r => t_outbox d !! client_mutation_id r = Some r /\ in_play ref r = true) rows ->
  exists d', exec (for_each rows (move_outbox to e)) d = (d', inl tt) /\ wf d' /\
    queue_rows (to_ref to) d' =
      queue_rows (to_ref to) d ++ moved_rows to e (last_sequence (sequence_of (to_ref to) d)) rows /\
    (forall ref', ref' <> to_ref to ->
      queue_rows ref' d' = filter (fun x => client_mutation_id x ∉ client_mutation_id <$> rows) (queue_rows ref' d)) /\
    t_optimistic d' = t_optimistic d /\ t_recovery d' = t_recovery d /\
    forall ref', ref' <> to_ref to -> sequence_of ref' d' = sequence_of ref' d.
Proof.
  revert d. induction rows as [|r rows IH]; intros d Hd Hnd Hall; simpl.
  { exists d. rewrite app_nil_r. split_and!; try done; [apply Hd|].
    intros ref' _. symmetry. apply filter_all, Forall_forall. intros x _. apply not_elem_of_nil. }
  apply NoDup_cons in Hnd as [Hin Hnd]. apply Forall_cons in Hall as [[Hr Hp] Hall].
  destruct (exec_move_outbox d r Hd Hr Hp) as (He & Hd1 & Hlast & Htail & Hrest).
  set (d1 := put_new _ _ d) in *.
  destruct (IH d1 Hd1 Hnd) as (d' & He' & Hd' & Htail' & Hrest' & Ho & Hv & Hs).
  { rewrite Forall_forall in *. intros x Hx. destruct (Hall x Hx) as [Hlx ?]. split; [|done].
    unfold d1. rewrite put_new_lookup, decide_False; [done|]. intros E. apply Hin. rewrite <- E.
    by apply list_elem_of_fmap_2. }
  exists d'. split_and!; [by rewrite exec_bind, He|done| | |done|done|].
  - by rewrite Htail', Htail, Hlast, <- app_assoc.
  - intros ref' Hne'. rewrite (Hrest' _ Hne'), (Hrest _ Hne'), list_filter_filter.
    apply list_filter_iff. intros x. rewrite not_elem_of_cons. naive_solver.
  - intros ref' Hne'. rewrite (Hs _ Hne'). unfold d1, put_new, sequence_of. simpl.
    by rewrite lookup_insert_ne.
Qed.

(** What moving the accepted copies, or the drafts, leaves aside. *)
Definition aside (t : table) (d d' : db) : Prop :=
  (forall t', t' <> t -> tbl t' d' = tbl t' d) /\
  (last_sequence (sequence_of (to_ref to) d) <= last_sequence (sequence_of (to_ref to) d'))%Z /\
  forall ref', ref' <> to_ref to -> sequence_of ref' d' = sequence_of ref' d.

Lemma aside_refl t d : aside t d d.
Proof. split_and!; [done|lia|done]. Qed.

Lemma aside_trans t d1 d2 d3 : aside t d1 d2 -> aside t d2 d3 -> aside t d1 d3.
Proof.
  intros (H1 & L1 & S1) (H2 & L2 & S2). split_and!; [|lia|].
  - intros t' Ht. by rewrite H2, H1.
  - intros ref' Hr. by rewrite S2, S1.
Qed.

(** A loop that moves rows of one table, one at a time, to the new target. *)
Lemma exec_move_each (t : table) (f : Row -> stmt unit) (I : db -> Prop) rows d :
  (forall d r, I d -> tbl t d !! client_mutation_id r = Some r ->
     exists d' r', exec (f r) d = (d', inl tt) /\ I d' /\ aside t d d' /\
       target_ref r' = to_ref to /\ tbl t d' = <[client_mutation_id r := r']> (tbl t d)) ->
  I d -> NoDup (client_mutation_id <$> rows) ->
  Forall (fun r => tbl t d !! client_mutation_id r = Some r) rows ->
  exists d', exec (for_each rows f) d = (d', inl tt) /\ I d' /\ aside t d d' /\
    forall id r', tbl t d' !! id = Some r' ->
      target_ref r' = to_ref to \/ (tbl t d !! id = Some r' /\ id ∉ client_mutation_id <$> rows).
Proof.
  intros Hf. revert d. induction rows as [|r rows IH]; intros d Hd Hnd Hall; simpl.
  { exists d. split_and!; [done|done|apply aside_refl|]. intros id r' Hr. right. split; [done|apply not_elem_of_nil]. }
  apply NoDup_cons in Hnd as [Hin Hnd]. apply Forall_cons in Hall as [Hr Hall].
  destruct (Hf d r Hd Hr) as (d1 & r1 & He & Hd1 & Ha & Ht & Htbl).
  destruct (IH d1 Hd1 Hnd) as (d' & He' & Hd' & Ha' & Hrows).
  { rewrite Forall_forall in *. intros x Hx. rewrite Htbl, lookup_insert_ne; [by apply Hall|].
    intros E. apply Hin. rewrite E. by apply list_elem_of_fmap_2. }
  exists d'. split_and!; [by rewrite exec_bind, He|done|by eapply aside_trans|].
  intros id r' [|[Hid Hni]]%Hrows; [by left|]. rewrite Htbl in Hid.
  apply lookup_insert_Some in Hid as [[<- <-]|[Hne' Hid]]; [by left|]. right. split; [done|].
  rewrite not_elem_of_cons. naive_solver.
Qed.

(** No accepted copy of the new target has a sequence its counter has not reached. *)
Definition no_stray (d : db) : Prop :=
  forall id r, t_optimistic d !! id = Some r -> target_ref r = to_ref to ->
    (intent_sequence r <= last_sequence (sequence_of (to_ref to) d))%Z.

Lemma exec_move_optimistic d r :
  retargeting to e d /\ no_stray d -> tbl optimistic d !! client_mutation_id r = Some r ->
  exists d' r', exec (move_optimistic to r) d = (d', inl tt) /\ (retargeting to e d' /\ no_stray d') /\
    aside optimistic d d' /\ target_ref r' = to_ref to /\
    tbl optimistic d' = <[client_mutation_id r := r']> (tbl optimistic d).
Proof.
  intros [Hd Hn] Hr. set (s := sequence_of (to_ref to) d).
  set (d1 := set_sequences (<[to_ref to := mkSequence (last_sequence s + 1) (stop_epoch s) (recovery_resends s)]>
    (sequences d)) d).
  set (r' := row_update_sequence (last_sequence s + 1)
    (row_update_route (to_ref to) (row_payload r) None None r)).
  assert (Hs1 : sequence_of (to_ref to) d1 = mkSequence (last_sequence s + 1) (stop_epoch s) (recovery_resends s)).
  { unfold sequence_of. simpl. by rewrite lookup_insert_eq. }
  assert (He : exec (move_optimistic to r) d =
    (set_tbl optimistic (<[client_mutation_id r := r']> (tbl optimistic d)) d1, inl tt)).
  { unfold move_optimistic. rewrite exec_bind, exec_allocateSequence. cbv beta zeta iota. fold s d1.
    rewrite exec_bind. rewrite (exec_update_row d1 optimistic _ _ _ r); [done|done|done|].
    apply index_ok_spec. intros _. apply unique_index_insert.
    - intros j x Hj [= Ht Hs]. specialize (Hn j x Hj Ht). fold s in Hn. lia.
    - pose proof (rows_wf_index d (proj1 (proj1 Hd)) optimistic) as Hi. by apply index_ok_spec in Hi. }
  eexists _, r'. split_and!; [exact He|..].
  - refine (wp_exec _ _ _ _ (fun d' _ => retargeting to e d') _ He). by apply wp_move_optimistic.
  - intros id x Hx Ht. change (intent_sequence x <= last_sequence (sequence_of (to_ref to) d1))%Z.
    rewrite Hs1. simpl in Hx. apply lookup_insert_Some in Hx as [[_ <-]|[_ Hx]]; simpl; [lia|].
    specialize (Hn id x Hx Ht). fold s in Hn. lia.
  - split_and!; [by intros []| |].
    + change (last_sequence s <= last_sequence (sequence_of (to_ref to) d1))%Z. rewrite Hs1. simpl. lia.
    + intros ref' Hr'. unfold sequence_of. simpl. by rewrite lookup_insert_ne.
  - done.
  - done.
Qed.

Lemma exec_move_recovery d r :
  retargeting to e d -> tbl recovery d !! client_mutation_id r = Some r ->
  exists d' r', exec (move_recovery to r) d = (d', inl tt) /\ retargeting to e d' /\
    aside recovery d d' /\ target_ref r' = to_ref to /\
    tbl recovery d' = <[client_mutation_id r := r']> (tbl recovery d).
Proof.
  intros Hd Hr.
  set (r' := row_update_route (to_ref to) (rewrite_payload to (row_payload r)) (to_threadId to) (fence_of to) r).
  assert (He : exec (move_recovery to r) d =
    (set_tbl recovery (<[client_mutation_id r := r']> (tbl recovery d)) d, inl tt)).
  { unfold move_recovery. rewrite exec_bind. by rewrite (exec_update_row d recovery _ _ _ r). }
  eexists _, r'. split_and!; [exact He|..].
  - refine (wp_exec _ _ _ _ (fun d' _ => retargeting to e d') _ He). apply wp_move_recovery; [|done].
    by apply (rows_wf_row d (proj1 (proj1 Hd)) recovery) in Hr as (_ & ? & _).
  - split_and!; [by intros []| |done].
    change (last_sequence (sequence_of (to_ref to) d) <= last_sequence (sequence_of (to_ref to) d))%Z. lia.
  - done.
  - done.
Qed.
End retargets.

(** The resend receipts, carried to the new target. *)
Definition carry_receipts (ref : string) (to : Retarget) (source : list RecoveryResendCommit) : stmt unit :=
  match source with
  | [] => Ret tt
  | _ =>
      Bind (recoveryResendsOf (to_ref to)) (fun destination =>
      Bind (writeRecoveryResends (to_ref to) (merge_receipts (to_ref to) source destination)) (fun _ =>
      writeRecoveryResends ref []))
  end.

Lemma exec_carry_receipts ref to d :
  wf d -> ref <> to_ref to ->
  exists d0, exec (carry_receipts ref to (recovery_resends (sequence_of ref d))) d = (d0, inl tt) /\ wf d0 /\ (forall t, tbl t d0 = tbl t d) /\
    (forall ref', last_sequence (sequence_of ref' d0) = last_sequence (sequence_of ref' d) /\
                  stop_epoch_of ref' d0 = stop_epoch_of ref' d) /\
    recovery_resends (sequence_of ref d0) = [].
Proof.
  intros Hd Hne. unfold carry_receipts. destruct (recovery_resends (sequence_of ref d)) as [|c l] eqn:Hs.
  { exists d. by split_and!. }
  rewrite exec_bind, exec_recoveryResendsOf, exec_bind, exec_writeRecoveryResends. cbv zeta beta iota.
  rewrite exec_writeRecoveryResends. cbv zeta. eexists. split_and!; [done| | | |].
  - apply wf_sequence; [apply wf_sequence; [done|lia|lia]|lia|lia].
  - by intros [].
  - intros ref'. unfold stop_epoch_of, sequence_of. simpl.
    rewrite !lookup_insert. repeat case_decide; subst; done.
  - unfold sequence_of. simpl. by rewrite lookup_insert_eq.
Qed.

(** Every row of a target is in the list a retarget moves. *)
Lemma all_at_ref t ref d id r :
  wf d -> tbl t d !! id = Some r -> target_ref r = ref ->
  id ∈ client_mutation_id <$> sort_by intent_sequence (rows_where (at_ref ref) (tbl t d)).
Proof.
  intros [Hd _] Hr Ht. pose proof (rows_wf_row d Hd t id r Hr) as [<- _]. apply list_elem_of_fmap_2.
  apply elem_of_sort_by, elem_of_rows_where. exists (client_mutation_id r). split; [done|].
  unfold at_ref. by rewrite Ht, String.eqb_refl.
Qed.

Lemma rows_keyed t P d :
  wf d -> let rows := sort_by intent_sequence (rows_where P (tbl t d)) in
  NoDup (client_mutation_id <$> rows) /\
  Forall (fun r => tbl t d !! client_mutation_id r = Some r /\ P r = true) rows.
Proof.
  intros [Hd _] rows. split.
  - unfold rows. rewrite (sort_by_perm intent_sequence). apply rows_where_nodup.
    intros i j r s Hi Hj _ _ E. apply (rows_wf_row d Hd) in Hi as [<- _], Hj as [<- _]. done.
  - apply Forall_forall. intros r (id & Hr & HP)%elem_of_sort_by%elem_of_rows_where. split; [|done].
    by pose proof (rows_wf_row d Hd t id r Hr) as [-> _].
Qed.

(** A retarget moves a whole queue in order: when the accepted copies already at the
    new target stay within its counter, it succeeds and reports the ids it moved; every
    send in play at the old target is at the new one, behind what was queued there, in
    the order it had, under consecutive fresh sequences, the new target's epoch and the
    rewritten route; no send in play, accepted copy or draft is left at the old target,
    whose resend receipts are carried along, and no third target's queue moves. *)
Theorem retarget_exact ref to d :
  reachable d -> blank (to_ref to) = false -> ref <> to_ref to -> queue_rows ref d <> [] -> no_stray to d ->
  exists d', exec (retarget ref to) d = (d', inl (client_mutation_id <$> queue_rows ref d)) /\
    queue_rows ref d' = [] /\
    (exists n, (last_sequence (sequence_of (to_ref to) d) <= n)%Z /\
      queue_rows (to_ref to) d' =
        queue_rows (to_ref to) d ++ moved_rows to (stop_epoch_of (to_ref to) d) n (queue_rows ref d)) /\
    (forall ref', ref' <> ref -> ref' <> to_ref to -> queue_rows ref' d' = queue_rows ref' d) /\
    (forall t id r, t <> outbox -> tbl t d' !! id = Some r -> target_ref r <> ref) /\
    recovery_resends (sequence_of ref d') = [].
Proof.
  intros [Hd _]%reachable_sound Hb Hne Hq Hst. set (e := stop_epoch_of (to_ref to) d).
  destruct (exec_carry_receipts ref to d Hd Hne) as (d0 & He0 & Hd0 & Ht0 & Hs0 & Hrc).
  destruct (rows_keyed outbox (in_play ref) d Hd) as [Hnd Hall].
  change (sort_by _ _) with (queue_rows ref d) in Hnd, Hall.
  assert (Hr0 : retargeting to e d0) by (split; [done|]; symmetry; apply Hs0).
  assert (Hst0 : no_stray to d0).
  { intros id r Hr Ht. destruct (Hs0 (to_ref to)) as [-> _]. apply (Hst id r); [|done].
    pose proof (Ht0 optimistic) as E. simpl in E. by rewrite <- E. }
  destruct (rows_keyed optimistic (at_ref ref) d0 Hd0) as [Hnd1 Hall1].
  destruct (exec_move_each to optimistic _ _ _ d0 (exec_move_optimistic to e) (conj Hr0 Hst0) Hnd1)
    as (d1 & He1 & [Hr1 _] & (Ha1 & Hl1 & Hs1) & Hg1).
  { eapply Forall_impl; [exact Hall1|]. by intros r [? _]. }
  destruct (rows_keyed recovery (at_ref ref) d1 (proj1 Hr1)) as [Hnd2 Hall2].
  destruct (exec_move_each to recovery _ _ _ d1 (exec_move_recovery to e) Hr1 Hnd2)
    as (d2 & He2 & Hr2 & (Ha2 & Hl2 & Hs2) & Hg2).
  { eapply Forall_impl; [exact Hall2|]. by intros r [? _]. }
  assert (Hout : t_outbox d2 = t_outbox d).
  { change (tbl outbox d2 = tbl outbox d). by rewrite Ha2, Ha1, Ht0. }
  assert (Hqs : forall ref', queue_rows ref' d2 = queue_rows ref' d) by (intros; unfold queue_rows; by rewrite Hout).
  destruct (exec_move_all ref to e Hne (queue_rows ref d) d2 Hr2 Hnd) as (d3 & He3 & Hd3 & Htail & Hrest & Ho3 & Hv3 & Hs3).
  { rewrite Hout. exact Hall. }
  exists d3. split_and!.
  - unfold retarget, withSavepoint. rewrite Hb. apply String.eqb_neq in Hne. rewrite Hne.
    rewrite exec_savepoint, exec_bind, exec_select_ordered.
    change (sort_by intent_sequence _) with (queue_rows ref d).
    destruct (queue_rows ref d) as [|r q] eqn:E; [done|]. rewrite <- E in *. clear E.
    rewrite exec_bind, exec_recoveryResendsOf, exec_bind.
    fold (carry_receipts ref to (recovery_resends (sequence_of ref d))).
    rewrite He0, exec_bind, exec_stopEpochOf. replace (stop_epoch_of (to_ref to) d0) with e by apply Hr0.
    rewrite exec_bind, exec_select_ordered, exec_bind, He1, exec_bind, exec_select_ordered, exec_bind, He2.
    by rewrite exec_bind, He3.
  - rewrite (Hrest ref Hne), Hqs. apply filter_none. intros x Hx Hni. by apply Hni, list_elem_of_fmap_2.
  - eexists. split; [|by rewrite Htail, Hqs]. destruct (Hs0 (to_ref to)) as [<- _]. lia.
  - intros ref' Hne1 Hne2. rewrite (Hrest ref' Hne2), Hqs. apply filter_all, Forall_forall.
    intros x (id & Hx & Hp)%elem_of_queue_rows (y & E & Hy)%list_elem_of_fmap.
    rewrite Forall_forall in Hall. destruct (Hall y Hy) as [Hy' Hp'].
    pose proof (wf_outbox_row _ _ _ Hd Hx) as [Hid _]. assert (x = y) as -> by (simpl in Hy'; congruence).
    apply in_play_spec in Hp as [? _], Hp' as [? _]. congruence.
  - intros [] id r Ht Hr E; [done| |].
    + simpl in Hr. rewrite Ho3 in Hr. pose proof (Ha2 optimistic ltac:(done)) as E2. simpl in E2. rewrite E2 in Hr.
      destruct (Hg1 id r Hr) as [?|[Hr' Hni]]; [congruence|]. apply Hni. by eapply (all_at_ref optimistic).
    + simpl in Hr. rewrite Hv3 in Hr. destruct (Hg2 id r Hr) as [?|[Hr' Hni]]; [congruence|].
      apply Hni. eapply (all_at_ref recovery); [apply Hr1|done|done].
  - rewrite (Hs3 ref Hne), (Hs2 ref Hne), (Hs1 ref Hne). done.
Qed.

Definition elsewhere : Retarget := mkRetarget "inst/thread-2" "thread-2" (Some "thread-2") None.

Lemma retarget_exact_witness :
  client_mutation_id <$> queue_rows "inst/thread-1" demo_db = ["m-1"; "m-2"] /\
  exists d', exec (retarget "inst/thread-1" elsewhere) demo_db =
      (d', inl (client_mutation_id <$> queue_rows "inst/thread-1" demo_db)) /\
    queue_rows "inst/thread-1" d' = [] /\
    (exists n, (last_sequence (sequence_of "inst/thread-2" demo_db) <= n)%Z /\
      queue_rows "inst/thread-2" d' =
        queue_rows "inst/thread-2" demo_db ++
        moved_rows elsewhere (stop_epoch_of "inst/thread-2" demo_db) n (queue_rows "inst/thread-1" demo_db)) /\
    (forall ref', ref' <> "inst/thread-1" -> ref' <> "inst/thread-2" -> queue_rows ref' d' = queue_rows ref' demo_db) /\
    (forall t id r, t <> outbox -> tbl t d' !! id = Some r -> target_ref r <> "inst/thread-1") /\
    recovery_resends (sequence_of "inst/thread-1" d') = [].
Proof.
  assert (Hq : client_mutation_id <$> queue_rows "inst/thread-1" demo_db = ["m-1"; "m-2"]) by (vm_compute; reflexivity).
  assert (Ho : t_optimistic demo_db = ∅) by (vm_compute; reflexivity).
  split; [exact Hq|].
  apply (retarget_exact "inst/thread-1" elsewhere demo_db demo_reachable).
  - reflexivity.
  - discriminate.
  - intros E. pose proof (eq_trans (eq_sym Hq) (f_equal (fmap client_mutation_id) E)) as F. discriminate F.
  - intros id r Hr. rewrite Ho in Hr. discriminate Hr.
Defined.
