(* ===== verification/SendQueue.v ===== *)
(** The composer's send and queue routing.

    [deriveSendQueueAvailability] (sendQueueAvailability.ts) is the table that
    answers whether Send and Queue are available; [sendQueueGate]
    (sendQueueGate.ts) composes it with the client's recovery face, connection
    and policy into one action; [sessionControls] and the route deciders
    (submitRouting.ts) answer what a session may be asked to do right now. *)

From S2P Require Import Prelude JsString.

Local Open Scope string_scope.
Local Open Scope evener_scope.

(** ** Capabilities *)

(** The bits of [ThreadCapabilities] the table and the gate read. *)
Record SendQueueCapabilities := mkSendQueueCapabilities {
  cap_send : bool;
  cap_queue : bool
}.

(** [ControlCapabilities]: a partial snapshot, an absent flag is [None]. *)
Record ControlCapabilities := mkControlCapabilities {
  ctl_steer : option bool;
  ctl_interrupt : option bool;
  ctl_queue : option bool;
  ctl_send : option bool
}.

(** [flag === true] on an optional flag. *)
Definition flag_is_true (f : option bool) : bool := match f with Some true => true | _ => false end.

(** ** The availability table *)

Record SendQueueAvailability := mkAvailability { canSend : bool; canQueue : bool }.

Definition BOTH_UNAVAILABLE : SendQueueAvailability := mkAvailability false false.
Definition QUEUE_MODE : SendQueueAvailability := mkAvailability false true.
Definition PLAIN_SEND_MODE : SendQueueAvailability := mkAvailability true false.

Definition LIVE_SNAPSHOT_STATUSES : list string := ["idle"; "awaiting"; "warning"; "systemError"].

Definition deriveSendQueueAvailability (statusType : string) (capabilities : SendQueueCapabilities)
    (hasPendingSend : bool) : SendQueueAvailability :=
  if statusType =? "restartRequired" then BOTH_UNAVAILABLE
  else if (statusType =? "ended") || (statusType =? "closed") then
    if hasPendingSend then QUEUE_MODE else BOTH_UNAVAILABLE
  else if statusType =? "active" then
    if negb (cap_queue capabilities) then BOTH_UNAVAILABLE else QUEUE_MODE
  else if hasPendingSend then
    let liveSnapshot := str_in statusType LIVE_SNAPSHOT_STATUSES in
    if liveSnapshot && negb (cap_queue capabilities) then BOTH_UNAVAILABLE else QUEUE_MODE
  else PLAIN_SEND_MODE.

(** ** Session controls and routes (submitRouting.ts) *)

Inductive SubmitRoute := RouteSend | RouteQueue | RouteNone.

Definition decideSubmitRoute (hasContent : bool) (availability : SendQueueAvailability) : SubmitRoute :=
  if negb hasContent then RouteNone
  else if canQueue availability then RouteQueue
  else if canSend availability then RouteSend
  else RouteNone.

Inductive SteerRoute := SteerRouteSteer | SteerRouteDrain | SteerRouteNone.

Definition decideSteerRoute (hasText hasAttachments : bool) (hasSkills : option bool)
    (queueDepth : Z) : SteerRoute :=
  let queueEmpty := (queueDepth <=? 0)%Z in
  if negb queueEmpty || hasAttachments then SteerRouteDrain
  else if hasText || flag_is_true hasSkills then SteerRouteSteer
  else SteerRouteNone.

Definition NO_ACTIVE_TURN := "no active turn".
Definition TURN_RUNNING := "a turn is running".
Definition STEER_UNAVAILABLE := "Steer is not available for this session".
Definition STOP_UNAVAILABLE := "Stop is not available for this session".
Definition QUEUE_UNAVAILABLE := "Queue is not available for this session".
Definition SEND_UNAVAILABLE := "Send is not available for this session".
Definition QUEUE_EMPTY := "queue is empty".

Definition isSessionResting (statusType : string) : bool :=
  (statusType =? "idle") || (statusType =? "systemError").

Definition SHUT_DOWN_STATUSES : list string := ["ended"; "closed"; "notLoaded"].

Definition isTurnActive (statusType : string) : bool := statusType =? "active".

Definition isQueueParked (statusType : string) (queueDepth : Z) : bool :=
  isSessionResting statusType && (0 <? queueDepth)%Z.

Definition canSteer (statusType : string) (capabilities : ControlCapabilities) : bool :=
  isTurnActive statusType && flag_is_true (ctl_steer capabilities).

Definition canDrainQueue (statusType : string) (capabilities : ControlCapabilities)
    (queueDepth : Z) : bool :=
  if negb (flag_is_true (ctl_steer capabilities)) then false
  else isTurnActive statusType || isQueueParked statusType queueDepth.

(** [SessionControls.reason]: a field is absent ([None]) while its action is
    available. *)
Record ControlReasons := mkReasons {
  reason_stop : option string;
  reason_steer : option string;
  reason_drain : option string;
  reason_drainQueue : option string;
  reason_queue : option string;
  reason_send : option string
}.

Record SessionControls := mkControls {
  ctrl_stop : bool;
  ctrl_steer : bool;
  ctrl_drain : bool;
  ctrl_drainQueue : bool;
  ctrl_queue : bool;
  ctrl_send : bool;
  ctrl_reason : ControlReasons
}.

Definition sessionControls (statusType : string) (capabilities : ControlCapabilities)
    (queueDepth : Z) : SessionControls :=
  let active := isTurnActive statusType in
  let parked := isQueueParked statusType queueDepth in
  let has f := flag_is_true (f capabilities) in
  let stop := active && has ctl_interrupt in
  let steer := canSteer statusType capabilities in
  let drain := canDrainQueue statusType capabilities queueDepth in
  let drainQueue := canDrainQueue statusType capabilities queueDepth && (0 <? queueDepth)%Z in
  let queue := active && has ctl_queue in
  let send := negb active && has ctl_send in
  let why (ok : bool) (text : string) := if ok then None else Some text in
  let r_drain := why drain (if has ctl_steer && negb active && negb parked
                            then NO_ACTIVE_TURN else STEER_UNAVAILABLE) in
  mkControls stop steer drain drainQueue queue send
    (mkReasons
      (why stop (if has ctl_interrupt then NO_ACTIVE_TURN else STOP_UNAVAILABLE))
      (why steer (if has ctl_steer then NO_ACTIVE_TURN else STEER_UNAVAILABLE))
      r_drain
      (why drainQueue (default QUEUE_EMPTY r_drain))
      (why queue (if has ctl_queue then NO_ACTIVE_TURN else QUEUE_UNAVAILABLE))
      (why send (if has ctl_send then TURN_RUNNING else SEND_UNAVAILABLE))).

(** ** The gate (sendQueueGate.ts) *)

Inductive SendReason := plain_send | shut_down_send | resume_folded | recovery_send.

Inductive RefusalReason :=
  | restart_required | recovery_fenced | pending_send_in_flight | send_unavailable
  | queue_unavailable | offline_no_queue | no_action.

(** [SendQueueDecision]: the union the action discriminates. *)
Inductive SendQueueDecision :=
  | DecideSend (reason : SendReason)
  | DecideQueue
  | DecideResume
  | DecideNone (reason : RefusalReason).

Inductive SendQueueRecovery :=
  | recovery_none | folded_resume | send_resumes | explicit_resume | blocked.

Inductive ShutDownAction := shutdown_send | shutdown_resume.

Record SendQueuePolicy := mkPolicy {
  sendRequiresCapability : bool;
  shutDownAction : ShutDownAction
}.

Definition BROWSER_SEND_QUEUE_POLICY := mkPolicy false shutdown_send.
Definition NATIVE_SEND_QUEUE_POLICY := mkPolicy true shutdown_resume.

Record SendQueueGateInput := mkGateInput {
  gate_status : string;
  gate_capabilities : SendQueueCapabilities;
  gate_pending : bool;
  gate_connected : bool;
  gate_recovery : SendQueueRecovery;
  gate_policy : SendQueuePolicy
}.

Definition queue_or (availability : SendQueueAvailability) (reason : RefusalReason) : SendQueueDecision :=
  if canQueue availability then DecideQueue else DecideNone reason.

Definition sendQueueGate (input : SendQueueGateInput) : SendQueueDecision :=
  let '(mkGateInput statusType capabilities hasPendingSend connected recovery policy) := input in
  let table := deriveSendQueueAvailability statusType capabilities in
  let shutDown := str_in statusType SHUT_DOWN_STATUSES in
  if statusType =? "restartRequired" then DecideNone restart_required else
  match recovery with
  | blocked => DecideNone recovery_fenced
  | send_resumes => DecideSend recovery_send
  | folded_resume =>
      if hasPendingSend then DecideNone pending_send_in_flight else DecideSend resume_folded
  | explicit_resume =>
      if negb hasPendingSend then DecideResume else queue_or (table true) queue_unavailable
  | recovery_none =>
      if negb connected then
        if shutDown && negb hasPendingSend then
          if cap_send capabilities then DecideResume else DecideNone send_unavailable
        else queue_or (table true) offline_no_queue
      else
        let availability := table hasPendingSend in
        if canQueue availability then DecideQueue
        else if shutDown && cap_send capabilities then
          match shutDownAction policy with
          | shutdown_resume => DecideResume
          | shutdown_send => DecideSend shut_down_send
          end
        else if canSend availability then
          if negb (sendRequiresCapability policy) || cap_send capabilities
          then DecideSend plain_send
          else DecideNone send_unavailable
        else DecideNone no_action
  end.

(** ** Facts about the table *)

(** Statuses are compared with literals; this decides them all and leaves the
    finitely many boolean inputs to compute. *)
Ltac decide_statuses :=
  repeat match goal with
  | |- context [String.eqb ?s ?t] => is_var s; destruct (String.eqb_spec s t); [subst s|]
  | H : context [String.eqb ?s ?t] |- _ => is_var s; destruct (String.eqb_spec s t); [subst s|]
  end.

(** Decide every status comparison, then split only the variables the goal's
    [match]es still wait on. *)
Ltac split_vars :=
  repeat (simpl; match goal with
  | |- context [match ?v with _ => _ end] => is_var v; destruct v
  | |- context [negb ?v] => is_var v; destruct v
  | |- context [andb ?v _] => is_var v; destruct v
  | |- context [orb ?v _] => is_var v; destruct v
  end); simpl.

(** The statuses under which a daemon's queue bit is its own answer: the active
    one and the live snapshots. *)
Definition queue_bit_is_harness (s : string) : bool :=
  (s =? "active") || str_in s LIVE_SNAPSHOT_STATUSES.

Lemma availability_exclusive s c p :
  let a := deriveSendQueueAvailability s c p in canSend a && canQueue a = false.
Proof. unfold deriveSendQueueAvailability. split_matches. Qed.

Lemma availability_canSend s c p :
  canSend (deriveSendQueueAvailability s c p) = true <->
  p = false /\ s ∉ ["restartRequired"; "ended"; "closed"; "active"].
Proof.
  rewrite <- str_in_false. unfold deriveSendQueueAvailability, str_in; simpl.
  decide_statuses; destruct p, (cap_queue c); simpl; intuition congruence.
Qed.

Lemma availability_canQueue s c p :
  canQueue (deriveSendQueueAvailability s c p) = true <->
  s <> "restartRequired" /\ (p = true \/ s = "active") /\
  (queue_bit_is_harness s = true -> cap_queue c = true).
Proof.
  unfold deriveSendQueueAvailability, queue_bit_is_harness, str_in; simpl.
  decide_statuses; destruct p, (cap_queue c); simpl; intuition congruence.
Qed.

(** The send/queue table is exact: Send is available when, and only when,
    this client has nothing of its own in flight and the session is neither
    running, finished nor waiting for a restart; Queue is available when, and only when, a turn
    is running or a send of this client's is in flight, no restart is pending,
    and a live harness has not said it has no queue; the two are never both
    available. *)
Theorem availability_exact s c p :
  let a := deriveSendQueueAvailability s c p in
  (canSend a = true <-> p = false /\ s ∉ ["restartRequired"; "ended"; "closed"; "active"]) /\
  (canQueue a = true <->
     s <> "restartRequired" /\ (p = true \/ s = "active") /\
     (queue_bit_is_harness s = true -> cap_queue c = true)) /\
  canSend a && canQueue a = false.
Proof.
  split; [apply availability_canSend|].
  split; [apply availability_canQueue|apply availability_exclusive].
Qed.

(** ** Facts about the gate *)

(** The decision starts a turn: a send, or the resume a first message folds. *)
Definition starts_turn (d : SendQueueDecision) : bool :=
  match d with DecideSend _ | DecideResume => true | _ => false end.

(** Conditions under which the gate may start a turn, stated once for every
    row of the gate. *)
Definition may_start_turn (i : SendQueueGateInput) : Prop :=
  gate_status i <> "restartRequired" /\
  match gate_recovery i with
  | blocked => False
  | send_resumes => True
  | folded_resume | explicit_resume => gate_pending i = false
  | recovery_none =>
      gate_pending i = false /\
      if str_in (gate_status i) SHUT_DOWN_STATUSES
      then cap_send (gate_capabilities i) = true \/
           (* a cold session the table does not call finished *)
           (gate_connected i = true /\ gate_status i = "notLoaded" /\
            sendRequiresCapability (gate_policy i) = false)
      else gate_connected i = true /\ gate_status i <> "active" /\
           (sendRequiresCapability (gate_policy i) = true -> cap_send (gate_capabilities i) = true)
  end.

Ltac crush_gate :=
  unfold sendQueueGate, deriveSendQueueAvailability, queue_or, may_start_turn,
    queue_bit_is_harness, str_in; simpl;
  decide_statuses; split_vars; intuition congruence.

(** The gate starts a turn exactly when it may: never while a restart is
    required or the client is fenced, never over a send of this client's still
    in flight (other than the send that itself drives the resume), and for an open
    session only online, with no turn running, and with the hub's send
    capability where the client's policy asks for it. *)
Theorem gate_starts_turn_iff i :
  starts_turn (sendQueueGate i) = true <-> may_start_turn i.
Proof.
  destruct i as [s [cs cq] p conn r [req sd]].
  crush_gate.
Qed.
