(* ===== verification/HistoryPaging.v ===== *)
(** Demand for older history pages (appwire-client/typescript/historyPaging.ts, class
    HistoryPaging): consumers ask for older turns, at most one page is read at a time,
    and a failed or fruitless read is retried under a backoff while a reader that wants
    it is active.

    [publish] calls the listeners, which may call any method of the class before it
    returns. The machine therefore is a state and a stack: what each interrupted
    method still has to do. *)

From S2P Require Import Prelude JsString Json Wire.

Local Open Scope string_scope.
Local Open Scope list_scope.

(** ** State *)

(** [string | null | undefined]. *)
Inductive page_key := UndefinedPage | NullPage | Page (key : string).

#[export] Instance page_key_eq_dec : EqDecision page_key.
Proof. solve_decision. Defined.

(** The read behind [inFlight]: not begun, or waiting for [loadPage]. *)
Inductive read_phase := Deferred | LoadingPage (page : page_key).

(** The fields of the class; [retry] is the delay its timer was armed with, and [idled]
    counts the calls of [onIdle]. *)
Record Paging := mkPaging {
  loading : bool;
  pending : bool;
  error : option rejection;
  permanent : bool;
  listeners : nat;
  activeConsumers : gmap string nat;
  consumers : list string;
  failures : nat;
  retry : option Z;
  inFlight : option read_phase;
  idled : nat
}.

Definition initial_paging : Paging := mkPaging false false None false 0 ∅ [] 0 None None 0.

(** *** Updates *)

(** [publish({...})]'s assignment of the four public fields. *)
Definition set_public (l p : bool) (e : option rejection) (x : bool) (s : Paging) : Paging :=
  mkPaging l p e x (listeners s) (activeConsumers s) (consumers s) (failures s) (retry s) (inFlight s) (idled s).
Definition set_pending (p : bool) (s : Paging) : Paging := set_public (loading s) p (error s) (permanent s) s.
Definition set_listeners (n : nat) (s : Paging) : Paging :=
  mkPaging (loading s) (pending s) (error s) (permanent s) n (activeConsumers s) (consumers s) (failures s) (retry s) (inFlight s) (idled s).
Definition set_active (m : gmap string nat) (s : Paging) : Paging :=
  mkPaging (loading s) (pending s) (error s) (permanent s) (listeners s) m (consumers s) (failures s) (retry s) (inFlight s) (idled s).
Definition set_consumers (l : list string) (s : Paging) : Paging :=
  mkPaging (loading s) (pending s) (error s) (permanent s) (listeners s) (activeConsumers s) l (failures s) (retry s) (inFlight s) (idled s).
Definition set_failures (n : nat) (s : Paging) : Paging :=
  mkPaging (loading s) (pending s) (error s) (permanent s) (listeners s) (activeConsumers s) (consumers s) n (retry s) (inFlight s) (idled s).
Definition set_retry (d : option Z) (s : Paging) : Paging :=
  mkPaging (loading s) (pending s) (error s) (permanent s) (listeners s) (activeConsumers s) (consumers s) (failures s) d (inFlight s) (idled s).
Definition set_inFlight (f : option read_phase) (s : Paging) : Paging :=
  mkPaging (loading s) (pending s) (error s) (permanent s) (listeners s) (activeConsumers s) (consumers s) (failures s) (retry s) f (idled s).
Definition call_onIdle (s : Paging) : Paging :=
  mkPaging (loading s) (pending s) (error s) (permanent s) (listeners s) (activeConsumers s) (consumers s) (failures s) (retry s) (inFlight s) (S (idled s)).

(** ** Methods *)

(** The first consumer with demand and an active reader. *)
Definition is_active (m : gmap string nat) (c : string) : bool := (0 <? default 0 (m !! c))%nat.
Definition eligibleConsumer (s : Paging) : option string :=
  head (filter (fun c => is_active (activeConsumers s) c = true) (consumers s)).

Definition releaseIdle (s : Paging) : Paging :=
  if bool_decide (activeConsumers s = ∅) && (listeners s =? 0)%nat && negb (pending s) && negb (loading s)
  then call_onIdle s else s.

Definition cancelRetry (s : Paging) : Paging := set_retry None s.

(** The delay before the next attempt, in milliseconds. *)
Definition retry_delay (failures : nat) : Z :=
  match failures with
  | 0 => 0
  | S n => Z.min (1000 * 2 ^ Z.min (Z.of_nat n) 5) 30000
  end.

Definition schedule (s : Paging) : Paging :=
  match eligibleConsumer s, inFlight s, retry s with
  | Some _, None, None => if pending s then set_retry (Some (retry_delay (failures s))) s else s
  | _, _, _ => s
  end.

(** [consumers.add(consumer)]. *)
Definition add_consumer (c : string) (s : Paging) : Paging :=
  if str_in c (consumers s) then s else set_consumers (consumers s ++ [c]) s.

(** What an interrupted method does when the listeners have returned. *)
Inductive frame := Return | ThenReleaseIdle | ThenRequest (consumer : string).

Definition request (c : string) (s : Paging) : Paging * list frame :=
  let s := add_consumer c s in
  match inFlight s with
  | Some _ => if pending s then (s, []) else (set_pending true s, [Return])
  | None =>
      if permanent s || match retry s with Some _ => true | None => false end then (s, [])
      else
        match eligibleConsumer s with
        | None => if pending s then (s, []) else (set_pending true s, [Return])
        | Some _ => (set_public true true None false (set_inFlight (Some Deferred) s), [Return])
        end
  end.

Definition cancel (c : string) (s : Paging) : Paging * list frame :=
  let s := set_consumers (filter (fun x => x <> c) (consumers s)) s in
  let s := match eligibleConsumer s with None => cancelRetry s | Some _ => s end in
  match consumers s with
  | _ :: _ => (s, [])
  | [] =>
      let s := set_failures 0 (cancelRetry s) in
      if pending s then (set_pending false s, [ThenReleaseIdle]) else (releaseIdle s, [])
  end.

Definition retryNow (c : string) (s : Paging) : Paging * list frame :=
  let s := add_consumer c s in
  match inFlight s with
  | Some _ => request c s
  | None =>
      let s := set_failures 0 (cancelRetry s) in
      (set_public (loading s) (pending s) (error s) false s, [ThenRequest c])
  end.

Definition activate (c : string) (s : Paging) : Paging :=
  schedule (set_active (<[c := S (default 0 (activeConsumers s !! c))]> (activeConsumers s)) s).

(** The function [activate] returns, at its first call. *)
Definition release (c : string) (s : Paging) : Paging :=
  let remaining := pred (default 1 (activeConsumers s !! c)) in
  let s := set_active (if (0 <? remaining)%nat then <[c := remaining]> (activeConsumers s)
                       else delete c (activeConsumers s)) s in
  releaseIdle (match eligibleConsumer s with None => cancelRetry s | Some _ => s end).

Definition subscribe (s : Paging) : Paging := set_listeners (S (listeners s)) s.
Definition unsubscribe (s : Paging) : Paging := releaseIdle (set_listeners (pred (listeners s)) s).

(** *** The read *)

Definition is_permanent (e : rejection) : bool :=
  isUpgradeRequiredError e ||
  match mutationErrorData e ≫= mutationOutcome with Some targetDeleted => true | _ => false end.

Definition has_consumers (s : Paging) : bool := match consumers s with [] => false | _ => true end.

(** A page that is unavailable, or a load after which the cursor stands where it was. *)
Definition not_advanced (page nextPage : page_key) : bool :=
  match page, nextPage with
  | UndefinedPage, _ | _, UndefinedPage => true
  | Page k, Page j => String.eqb j k
  | _, _ => false
  end.

(** The read's end: the request is released and the pacing armed before the listeners
    hear of it. *)
Definition settle_read (result : page_key * page_key + rejection) (s : Paging) : Paging * list frame :=
  let s :=
    match result with
    | inl (page, nextPage) =>
        if not_advanced page nextPage
        then set_public false (has_consumers s) None false (set_failures (S (failures s)) s)
        else set_public false false None false (set_consumers [] (set_failures 0 s))
    | inr e =>
        set_public false (has_consumers s && negb (is_permanent e)) (Some e) (is_permanent e)
          (set_failures (S (failures s)) s)
    end in
  (schedule (set_inFlight None s), [ThenReleaseIdle]).

(** ** The machine *)

Inductive paging_call := Request (c : string) | Cancel (c : string) | RetryNow (c : string)
  | Activate (c : string) | Release (c : string) | Subscribe | Unsubscribe.

Definition run_paging_call (x : paging_call) (s : Paging) : Paging * list frame :=
  match x with
  | Request c => request c s
  | Cancel c => cancel c s
  | RetryNow c => retryNow c s
  | Activate c => (activate c s, [])
  | Release c => (release c s, [])
  | Subscribe => (subscribe s, [])
  | Unsubscribe => (unsubscribe s, [])
  end.

Definition run_frame (f : frame) (s : Paging) : Paging * list frame :=
  match f with
  | Return => (s, [])
  | ThenReleaseIdle => (releaseIdle s, [])
  | ThenRequest c => request c s
  end.

(** A call, from outside or from a listener; the listeners' return; and, when no method
    is running, the timer, the deferred read's start, and the end of its load.
    [EStart]: what [pageKey] answers, the second time where no page is loaded. *)
Inductive paging_event :=
  | PCall (x : paging_call)
  | PResume
  | PTimer
  | PStart (page nextPage : page_key)
  | PLoaded (nextPage : page_key)
  | PThrows (e : rejection).

Definition paging_step (e : paging_event) (m : Paging * list frame) : option (Paging * list frame) :=
  let '(s, stack) := m in
  let push (out : Paging * list frame) (rest : list frame) := Some (out.1, out.2 ++ rest) in
  match e, stack with
  | PCall x, _ => push (run_paging_call x s) stack
  | PResume, f :: rest => push (run_frame f s) rest
  | PTimer, [] =>
      match retry s with
      | None => None
      | Some _ =>
          let s := set_retry None s in
          match eligibleConsumer s with None => Some (s, []) | Some c => push (request c s) [] end
      end
  | PStart page nextPage, [] =>
      match inFlight s with
      | Some Deferred =>
          match page with
          | Page _ => Some (set_inFlight (Some (LoadingPage page)) s, [])
          | _ => push (settle_read (inl (page, nextPage)) s) []
          end
      | _ => None
      end
  | PLoaded nextPage, [] =>
      match inFlight s with
      | Some (LoadingPage page) => push (settle_read (inl (page, nextPage)) s) []
      | _ => None
      end
  | PThrows e, [] =>
      match inFlight s with
      | Some _ => push (settle_read (inr e) s) []
      | None => None
      end
  | _, _ => None
  end.

Inductive paging_reachable : Paging * list frame -> Prop :=
  | paging_start : paging_reachable (initial_paging, [])
  | paging_next m m' e : paging_reachable m -> paging_step e m = Some m' -> paging_reachable m'.

Fixpoint paging_run (l : list paging_event) (m : Paging * list frame) : option (Paging * list frame) :=
  match l with
  | [] => Some m
  | e :: l' => paging_step e m ≫= paging_run l'
  end.

Lemma paging_reachable_run l m m' : paging_reachable m -> paging_run l m = Some m' -> paging_reachable m'.
Proof.
  revert m. induction l as [|e l IH]; simpl; intros m Hm H; [by simplify_eq|].
  apply bind_Some in H as (m1 & H1 & H2). by eapply IH, H2; eapply paging_next.
Qed.

(** ** The invariant *)

Record paging_ok (s : Paging) : Prop := {
  ok_loading : loading s = true <-> inFlight s <> None;
  ok_retry : forall d, retry s = Some d ->
    inFlight s = None /\ pending s = true /\ is_Some (eligibleConsumer s) /\ d = retry_delay (failures s);
  ok_permanent : permanent s = true -> pending s = false /\ inFlight s = None
}.

(** Demand somebody is waiting for is being read or will be retried. *)
Definition armed (s : Paging) : Prop :=
  pending s = true -> is_Some (eligibleConsumer s) -> inFlight s <> None \/ retry s <> None.

Lemma eligible_spec s :
  is_Some (eligibleConsumer s) <-> exists c, c ∈ consumers s /\ is_active (activeConsumers s) c = true.
Proof.
  unfold eligibleConsumer. split.
  - intros [c Hc]. exists c. assert (Hin : c ∈ filter (fun c => is_active (activeConsumers s) c = true) (consumers s)).
    { destruct (filter _ _) as [|x l]; [done|]. simplify_eq/=. by left. }
    by apply list_elem_of_filter in Hin as [? ?].
  - intros (c & Hc & Ha). assert (Hin : c ∈ filter (fun c => is_active (activeConsumers s) c = true) (consumers s))
      by (by apply list_elem_of_filter).
    destruct (filter _ _) as [|x l]; [by apply not_elem_of_nil in Hin|]. by eexists.
Qed.

Lemma eligible_mono s s' :
  (forall c, c ∈ consumers s -> c ∈ consumers s') ->
  (forall c, is_active (activeConsumers s) c = true -> is_active (activeConsumers s') c = true) ->
  is_Some (eligibleConsumer s) -> is_Some (eligibleConsumer s').
Proof. rewrite !eligible_spec. naive_solver. Qed.

(** A call leaves the invariant, and demand armed if it was. *)
Definition leaves (s s' : Paging) : Prop := paging_ok s' /\ (armed s -> armed s').

Lemma leaves_trans s1 s2 s3 : leaves s1 s2 -> leaves s2 s3 -> leaves s1 s3.
Proof. unfold leaves. naive_solver. Qed.

Lemma leaves_refl s : paging_ok s -> leaves s s.
Proof. by split. Qed.

Lemma releaseIdle_leaves s : paging_ok s -> leaves s (releaseIdle s).
Proof.
  intros Hs. unfold releaseIdle. case_match; [|by apply leaves_refl]. split; [|done]. destruct Hs. by constructor.
Qed.

Lemma cancelRetry_ok s : paging_ok s -> paging_ok (cancelRetry s).
Proof. intros []. by split. Qed.

Lemma schedule_armed s : paging_ok s -> paging_ok (schedule s) /\ armed (schedule s).
Proof.
  intros Hs. unfold schedule, armed.
  destruct (eligibleConsumer s) as [c|] eqn:He; [|split; [done|rewrite He; by intros _ []]].
  destruct (inFlight s) as [f|] eqn:Hf; [split; [done|rewrite Hf; by left]|].
  destruct (retry s) as [d|] eqn:Hr; [split; [done|rewrite Hr; by right]|].
  destruct (pending s) eqn:Hp; [|by split; [|rewrite Hp]].
  split; [|by right]. destruct Hs as [Hl Hr' Hpm]. split; simpl; [done| |done].
  intros d [= <-]. split; [done|]. split; [done|]. split; [|done]. by exists c.
Qed.

(** The end of a cancellation or of an activation: the timer stays only for a reader. *)
Definition keep_timer (s : Paging) : Paging := match eligibleConsumer s with None => cancelRetry s | Some _ => s end.

Lemma keep_timer_leaves s s0 :
  paging_ok s0 -> loading s = loading s0 -> pending s = pending s0 -> permanent s = permanent s0 ->
  failures s = failures s0 -> retry s = retry s0 -> inFlight s = inFlight s0 ->
  (is_Some (eligibleConsumer s) -> is_Some (eligibleConsumer s0)) -> leaves s0 (keep_timer s).
Proof.
  intros [Hl Hr Hp] E1 E2 E3 E4 E5 E6 He. unfold keep_timer, leaves, armed.
  destruct (eligibleConsumer s) as [c|] eqn:Hc; simpl.
  - split; [split|]; rewrite ?E1, ?E2, ?E3, ?E4, ?E5, ?E6; [done| |done|].
    + intros d Hd. destruct (Hr d Hd) as (? & ? & _ & ?). by rewrite Hc.
    + intros Ha Hpe _. by apply Ha, He.
  - split; [split; simpl; rewrite ?E1, ?E2, ?E3, ?E4, ?E5, ?E6; done|]. intros _ _.
    change (eligibleConsumer (cancelRetry s)) with (eligibleConsumer s). rewrite Hc. by intros [].
Qed.

Lemma add_consumer_ok c s : paging_ok s -> paging_ok (add_consumer c s).
Proof.
  intros [Hl Hr Hp]. unfold add_consumer. case_match; [done|]. split; simpl; [done| |done].
  intros d Hd. destruct (Hr d Hd) as (? & ? & He & ?). repeat split; try done.
  eapply eligible_mono, He; simpl; [set_solver|done].
Qed.

(** After a request, whatever was armed before it, demand is. *)
Lemma request_arms c s : paging_ok s -> paging_ok (request c s).1 /\ armed (request c s).1.
Proof.
  intros Hs%(add_consumer_ok c). unfold request. set (t := add_consumer c s) in *. clearbody t.
  pose proof Hs as [Hl Hr Hp]. unfold armed. destruct (inFlight t) as [f|] eqn:Hf.
  - assert (Hnr : retry t = None) by (destruct (retry t) as [d|]; [by destruct (Hr d eq_refl) as [? _]|done]).
    destruct (pending t) eqn:Hpe; simpl; rewrite Hf; (split; [|by left]); [done|].
    split; simpl; rewrite ?Hf; [done|by rewrite Hnr|]. intros H. by destruct (Hp H).
  - destruct (permanent t) eqn:Hpm; simpl.
    { split; [done|]. destruct (Hp eq_refl) as [-> _]. done. }
    destruct (retry t) as [d|] eqn:Hrt; simpl.
    { split; [done|]. rewrite Hrt. by right. }
    destruct (eligibleConsumer t) as [x|] eqn:He.
    { simpl. split; [|by left]. split; simpl; try done. by rewrite Hrt. }
    destruct (pending t) eqn:Hpe; simpl.
    + split; [done|]. rewrite He. by intros _ [].
    + split; [split; simpl; rewrite ?Hf, ?Hrt, ?Hpm; done|].
      change (eligibleConsumer (set_pending true t)) with (eligibleConsumer t). rewrite He. by intros _ [].
Qed.

Lemma cancel_leaves c s : paging_ok s -> leaves s (cancel c s).1.
Proof.
  intros Hs. unfold cancel. set (s1 := set_consumers _ s).
  assert (H1 : leaves s (keep_timer s1)).
  { apply keep_timer_leaves; try done. apply eligible_mono; [|done]. simpl. by intros x [_ ?]%list_elem_of_filter. }
  fold (keep_timer s1). destruct (consumers (keep_timer s1)) as [|x l] eqn:Hc; [|done].
  set (s2 := set_failures 0 (cancelRetry (keep_timer s1))).
  assert (Hok : paging_ok s2) by (destruct H1 as [[] _]; by split).
  assert (Harm : armed s2).
  { unfold armed. rewrite eligible_spec. intros _ (y & Hy & _). unfold s2 in Hy. simpl in Hy.
    rewrite Hc in Hy. by apply not_elem_of_nil in Hy. }
  destruct (pending s2) eqn:Hp; simpl.
  - split; [|intros _ Hpe; by simpl in Hpe]. destruct Hok as [Hl _ Hpm]. split; simpl; [done|done|].
    intros Hx. by destruct (Hpm Hx).
  - destruct (releaseIdle_leaves s2 Hok) as [? Ha]. split; [done|]. intros _. by apply Ha.
Qed.

Lemma activate_leaves c s : paging_ok s -> leaves s (activate c s).
Proof.
  intros [Hl Hr Hp]. unfold activate. set (s1 := set_active _ s).
  assert (H1 : paging_ok s1).
  { split; simpl; [done| |done]. intros d Hd. destruct (Hr d Hd) as (? & ? & He & ?). repeat split; try done.
    eapply eligible_mono, He; [done|]. unfold is_active. simpl. intros x Hx. destruct (decide (c = x)) as [->|].
    - by rewrite lookup_insert_eq.
    - by rewrite lookup_insert_ne. }
  destruct (schedule_armed s1 H1) as [? ?]. by split.
Qed.

Lemma release_leaves c s : paging_ok s -> leaves s (release c s).
Proof.
  intros Hs. unfold release. set (s1 := set_active _ s). fold (keep_timer s1).
  assert (H1 : leaves s (keep_timer s1)).
  { apply keep_timer_leaves; try done. apply eligible_mono; [done|]. simpl. intros x. unfold is_active.
    destruct (decide (c = x)) as [->|Hne]; case_match eqn:Hm.
    - rewrite lookup_insert_eq. simpl. destruct (activeConsumers s !! x) as [n|]; simpl in *; [|done].
      intros _. destruct n; done.
    - by rewrite lookup_delete_eq.
    - by rewrite lookup_insert_ne.
    - by rewrite lookup_delete_ne. }
  eapply leaves_trans; [done|]. apply releaseIdle_leaves, H1.
Qed.

Lemma settle_read_arms result s :
  paging_ok s -> inFlight s <> None -> paging_ok (settle_read result s).1 /\ armed (settle_read result s).1.
Proof.
  intros [Hl Hr Hp] Hf. apply schedule_armed.
  assert (Hnr : retry s = None) by (destruct (retry s) as [d|]; [by destruct (Hr d eq_refl) as [? _]|done]).
  destruct result as [[page nextPage]|e]; [destruct (not_advanced page nextPage)|]; split; simpl; rewrite ?Hnr; try done.
  intros ->. by rewrite andb_false_r.
Qed.

(** A retry leaves its request on the stack, or demand armed. *)
Lemma retryNow_arms c s :
  paging_ok s -> paging_ok (retryNow c s).1 /\ (armed (retryNow c s).1 \/ ThenRequest c ∈ (retryNow c s).2).
Proof.
  intros Hs. unfold retryNow. pose proof (add_consumer_ok c s Hs) as Ht. set (t := add_consumer c s) in *.
  destruct (inFlight t) as [f|] eqn:Hf.
  - destruct (request_arms c t Ht). by split; [|left].
  - split; [|right; by left]. destruct Ht as [Hl Hr Hp]. by split; simpl.
Qed.

Definition machine_ok (m : Paging * list frame) : Prop :=
  paging_ok m.1 /\ (armed m.1 \/ exists c, ThenRequest c ∈ m.2).

Lemma paging_step_ok e m m' : machine_ok m -> paging_step e m = Some m' -> machine_ok m'.
Proof.
  destruct m as [s stack]. unfold machine_ok. simpl. intros [Hs Ha] Hstep.
  assert (Hleaves : forall s' out, leaves s s' -> Some (s', out ++ stack) = Some m' ->
    paging_ok m'.1 /\ (armed m'.1 \/ exists c, ThenRequest c ∈ m'.2)).
  { intros s' out [? Harm] [= <-]. simpl. split; [done|]. destruct Ha as [?|[c Hc]]; [left; by apply Harm|].
    right. exists c. apply elem_of_app. by right. }
  destruct e as [x| | |page nextPage|nextPage|e].
  - destruct x as [c|c|c|c|c| |]; simpl in Hstep.
    + destruct (request_arms c s Hs). injection Hstep as <-. by split; [|left].
    + eapply Hleaves, Hstep. by apply cancel_leaves.
    + destruct (retryNow_arms c s Hs) as [? [?|?]]; injection Hstep as <-; (split; [done|]); [by left|].
      right. exists c. apply elem_of_app. by left.
    + eapply (Hleaves _ []), Hstep. by apply activate_leaves.
    + eapply (Hleaves _ []), Hstep. by apply release_leaves.
    + eapply (Hleaves _ []), Hstep. split; [|done]. destruct Hs. by split.
    + eapply (Hleaves _ []), Hstep. apply (releaseIdle_leaves (set_listeners (pred (listeners s)) s)). destruct Hs. by split.
  - destruct stack as [|f rest]; [done|]. simpl in Hstep. injection Hstep as <-. destruct f as [| |c]; simpl.
    + split; [done|]. destruct Ha as [?|[c [?|?]%elem_of_cons]]; [by left|done|by right; exists c].
    + destruct (releaseIdle_leaves s Hs) as [? Harm]. split; [done|].
      destruct Ha as [?|[c [?|?]%elem_of_cons]]; [left; by apply Harm|done|by right; exists c].
    + destruct (request_arms c s Hs). by split; [|left].
  - destruct stack; [|done]. simpl in Hstep. destruct (retry s) as [d|] eqn:Hr; [|done].
    destruct (ok_retry _ Hs d Hr) as (Hf & Hp & [c Hc] & _).
    assert (Ht : paging_ok (set_retry None s)) by (destruct Hs; by split).
    change (eligibleConsumer (set_retry None s)) with (eligibleConsumer s) in Hstep. rewrite Hc in Hstep.
    destruct (request_arms c _ Ht). injection Hstep as <-. by split; [|left].
  - destruct stack; [|done]. simpl in Hstep. destruct (inFlight s) as [[|p]|] eqn:Hf; try done.
    assert (Hne : inFlight s <> None) by congruence.
    destruct (settle_read_arms (inl (page, nextPage)) s Hs Hne) as [? ?].
    destruct page as [| |k]; try (injection Hstep as <-; by split; [|left]).
    injection Hstep as <-. simpl. split; [|by left; left]. destruct Hs as [Hl Hr Hp].
    rewrite Hf in Hl, Hp. split; simpl; [split; [done|intros _; by apply Hl]| |intros Hx; by destruct (Hp Hx)].
    intros d Hd. destruct (Hr d Hd). congruence.
  - destruct stack; [|done]. simpl in Hstep. destruct (inFlight s) as [[|p]|] eqn:Hf; try done.
    assert (Hne : inFlight s <> None) by congruence.
    destruct (settle_read_arms (inl (p, nextPage)) s Hs Hne) as [? ?]. injection Hstep as <-. by split; [|left].
  - destruct stack; [|done]. simpl in Hstep. destruct (inFlight s) as [p|] eqn:Hf; try done.
    assert (Hne : inFlight s <> None) by congruence.
    destruct (settle_read_arms (inr e) s Hs Hne) as [? ?]. injection Hstep as <-. by split; [|left].
Qed.

Lemma paging_machine_ok m : paging_reachable m -> machine_ok m.
Proof.
  induction 1 as [|m m' e _ IH Hstep]; [|by eapply paging_step_ok].
  split; [split; simpl; [split; [done|by intros []]|done|done]|by left].
Qed.

(** ** What demand gets *)

Lemma retry_delay_bounds n : (0 <= retry_delay n <= 30000)%Z /\ ((0 < n)%nat -> (1000 <= retry_delay n)%Z).
Proof.
  destruct n as [|n]; simpl; [lia|].
  assert (H : (1 <= 2 ^ Z.min (Z.of_nat n) 5)%Z) by (apply (Z.pow_le_mono_r 2 0); lia). lia.
Qed.


(** A reader asks, its read fails, and the listener that hears of it asks again. *)
Definition failed_read : list paging_event :=
  [PCall (Activate "reader"); PCall (Request "reader"); PResume; PStart (Page "p1") (Page "p1");
   PThrows (PlainError "offline"); PCall (Request "reader"); PResume].

