(* ===== verification/ReadyFence.v ===== *)
(** The ready-generation fence of the hub-settings stores (appwire-client/typescript/
    readyGenerationFence.ts): which replies may still land after an await.

    [isSupported] is read live, so it is an argument of the predicates. *)

From S2P Require Import Prelude.

Local Open Scope Z_scope.

(** The variables of createReadyGenerationFence. *)
Record ReadyGenerationFence := mkFence {
  epoch : Z;
  activeEpoch : Z;
  disposed : bool;
  readSerial : Z;
  writeSerial : Z;
  awaitingFirstPayload : bool
}.

Definition createReadyGenerationFence : ReadyGenerationFence := mkFence 0 (-1) false 0 0 true.

Definition generation (f : ReadyGenerationFence) : Z := activeEpoch f.
Definition writeToken (f : ReadyGenerationFence) : Z := writeSerial f.

Definition isCurrent (g : Z) (f : ReadyGenerationFence) : bool :=
  negb (disposed f) && (0 <=? g) && (activeEpoch f =? g).
Definition liveHub (isSupported : bool) (g : Z) (f : ReadyGenerationFence) : bool := isCurrent g f && isSupported.
Definition readStillMine (isSupported : bool) (g serial : Z) (f : ReadyGenerationFence) : bool :=
  liveHub isSupported g f && (serial =? readSerial f).
Definition writeStillMine (isSupported : bool) (g token : Z) (f : ReadyGenerationFence) : bool :=
  liveHub isSupported g f && (token =? writeSerial f).
Definition lostHub (g : Z) (stillClaimed : bool) (f : ReadyGenerationFence) : bool := stillClaimed && isCurrent g f.

Definition claimRead (f : ReadyGenerationFence) : ReadyGenerationFence :=
  mkFence (epoch f) (activeEpoch f) (disposed f) (readSerial f + 1) (writeSerial f) (awaitingFirstPayload f).
Definition claimWrite (f : ReadyGenerationFence) : ReadyGenerationFence :=
  mkFence (epoch f) (activeEpoch f) (disposed f) (readSerial f) (writeSerial f + 1) (awaitingFirstPayload f).
Definition firstPayloadApplied (f : ReadyGenerationFence) : ReadyGenerationFence :=
  mkFence (epoch f) (activeEpoch f) (disposed f) (readSerial f) (writeSerial f) false.
Definition supersede (f : ReadyGenerationFence) : ReadyGenerationFence :=
  mkFence (epoch f) (activeEpoch f) (disposed f) (readSerial f + 1) (writeSerial f + 1) (awaitingFirstPayload f).
Definition fence_end (f : ReadyGenerationFence) : ReadyGenerationFence :=
  mkFence (epoch f + 1) (-1) (disposed f) (readSerial f) (writeSerial f) (awaitingFirstPayload f).

(** [begin] and [dispose], with what they answer. *)
Definition begin (f : ReadyGenerationFence) : ReadyGenerationFence * Z :=
  if disposed f then (f, -1)
  else (mkFence (epoch f + 1) (epoch f + 1) (disposed f) (readSerial f) (writeSerial f) true, epoch f + 1).
Definition dispose (f : ReadyGenerationFence) : ReadyGenerationFence * bool :=
  if disposed f then (f, false)
  else (fence_end (mkFence (epoch f) (activeEpoch f) true (readSerial f) (writeSerial f) (awaitingFirstPayload f)), true).

Inductive fence_event := ClaimRead | ClaimWrite | FirstPayload | Supersede | Begin | End | Dispose.

Definition fence_step (e : fence_event) (f : ReadyGenerationFence) : ReadyGenerationFence :=
  match e with
  | ClaimRead => claimRead f
  | ClaimWrite => claimWrite f
  | FirstPayload => firstPayloadApplied f
  | Supersede => supersede f
  | Begin => (begin f).1
  | End => fence_end f
  | Dispose => (dispose f).1
  end.

Definition fence_run (l : list fence_event) (f : ReadyGenerationFence) : ReadyGenerationFence :=
  foldl (fun f e => fence_step e f) f l.

(** What takes a read's, or a write's, reply away from it. *)
Definition outranks_read (e : fence_event) : bool :=
  match e with ClaimRead | Supersede | Begin | End | Dispose => true | _ => false end.
Definition outranks_write (e : fence_event) : bool :=
  match e with ClaimWrite | Supersede | Begin | End | Dispose => true | _ => false end.

(** The active generation is the newest epoch, or none; a disposed fence has none. *)
Definition fence_ok (f : ReadyGenerationFence) : Prop :=
  0 <= epoch f /\ (activeEpoch f = -1 \/ activeEpoch f = epoch f) /\ (disposed f = true -> activeEpoch f = -1).

(** [f'] follows [f]: everything that counts has only grown, and a generation that is
    not the newest epoch is over. *)
Definition follows (f f' : ReadyGenerationFence) : Prop :=
  epoch f <= epoch f' /\ readSerial f <= readSerial f' /\ writeSerial f <= writeSerial f' /\
  (epoch f' = epoch f -> activeEpoch f' = activeEpoch f /\ disposed f' = disposed f).

Lemma fence_step_ok e f : fence_ok f -> fence_ok (fence_step e f) /\ follows f (fence_step e f).
Proof.
  unfold fence_ok, follows. intros (? & ? & Hd).
  destruct e; simpl; unfold begin, dispose, fence_end; simpl; repeat case_match; simpl; repeat split; try done; try lia; naive_solver lia.
Qed.

Lemma fence_run_ok l f : fence_ok f -> fence_ok (fence_run l f) /\ follows f (fence_run l f).
Proof.
  unfold fence_run. revert f. induction l as [|e l IH]; simpl; intros f Hf.
  - split; [done|]. unfold follows. repeat split; lia.
  - destruct (fence_step_ok e f Hf) as [Hf1 H1]. destruct (IH _ Hf1) as [Hf2 H2]. split; [done|].
    unfold follows in *. destruct H1 as (? & ? & ? & H1), H2 as (? & ? & ? & H2). repeat split; try lia.
    all: intros; destruct H1, H2; try lia; congruence.
Qed.

Lemma fence_reachable_ok l : fence_ok (fence_run l createReadyGenerationFence).
Proof. refine (proj1 (fence_run_ok l _ _)). unfold fence_ok. simpl. split; [lia|]. split; [by left|done]. Qed.

(** A generation that is not the newest is not current. *)
Lemma old_generation f f' :
  fence_ok f -> fence_ok f' -> 0 <= activeEpoch f -> epoch f < epoch f' -> isCurrent (activeEpoch f) f' = false.
Proof.
  unfold fence_ok, isCurrent. intros (? & Hf & _) (? & Hf' & _) ? ?.
  assert (activeEpoch f' <> activeEpoch f) by lia. apply andb_false_iff. right. by apply Z.eqb_neq.
Qed.

(** An event that outranks a reply does so for good. *)
Lemma outranked e l f isSupported :
  fence_ok f -> 0 <= activeEpoch f ->
  (outranks_read e = true -> readStillMine isSupported (activeEpoch f) (readSerial f) (fence_run (e :: l) f) = false) /\
  (outranks_write e = true -> writeStillMine isSupported (activeEpoch f) (writeSerial f) (fence_run (e :: l) f) = false).
Proof.
  intros Hf Hg. destruct (fence_step_ok e f Hf) as [Hf1 _]. destruct (fence_run_ok l _ Hf1) as [Hf2 H2].
  change (fence_run (e :: l) f) with (fence_run l (fence_step e f)) in *. set (f2 := fence_run l (fence_step e f)) in *.
  destruct H2 as (He & Hr & Hw & _). assert (Hnd : disposed f = false).
  { destruct Hf as (_ & _ & Hd). destruct (disposed f); [|done]. specialize (Hd eq_refl). lia. }
  assert (Hcases : epoch f < epoch f2 \/ (outranks_read e = true -> readSerial f < readSerial f2) /\
    (outranks_write e = true -> writeSerial f < writeSerial f2)).
  { destruct e; simpl in *; unfold begin, dispose in *; rewrite ?Hnd in *; simpl in *; try (left; lia); right; split; try done; lia. }
  unfold readStillMine, writeStillMine, liveHub. destruct Hcases as [Hlt|[H1 H2]].
  - rewrite (old_generation f f2 Hf Hf2 Hg Hlt). done.
  - split; intros Ho; apply andb_false_iff; right; apply Z.eqb_neq; [specialize (H1 Ho)|specialize (H2 Ho)]; lia.
Qed.

Lemma read_run l f isSupported :
  fence_ok f -> 0 <= activeEpoch f ->
  readStillMine isSupported (activeEpoch f) (readSerial f) (fence_run l f) = isSupported && negb (existsb outranks_read l).
Proof.
  intros Hf Hg. revert f Hf Hg. induction l as [|e l IH]; intros f Hf Hg.
  - simpl. unfold readStillMine, liveHub, isCurrent. destruct Hf as (_ & _ & Hd).
    destruct (disposed f); [specialize (Hd eq_refl); lia|]. rewrite !Z.eqb_refl, (proj2 (Z.leb_le _ _) Hg).
    by destruct isSupported.
  - simpl. destruct (outranks_read e) eqn:Ho.
    + rewrite andb_false_r. by apply (outranked e l f isSupported Hf Hg).
    + change (fence_run (e :: l) f) with (fence_run l (fence_step e f)).
      destruct (fence_step_ok e f Hf) as [Hf1 _]. destruct e; try done; exact (IH _ Hf1 Hg).
Qed.

Lemma write_run l f isSupported :
  fence_ok f -> 0 <= activeEpoch f ->
  writeStillMine isSupported (activeEpoch f) (writeSerial f) (fence_run l f) = isSupported && negb (existsb outranks_write l).
Proof.
  intros Hf Hg. revert f Hf Hg. induction l as [|e l IH]; intros f Hf Hg.
  - simpl. unfold writeStillMine, liveHub, isCurrent. destruct Hf as (_ & _ & Hd).
    destruct (disposed f); [specialize (Hd eq_refl); lia|]. rewrite !Z.eqb_refl, (proj2 (Z.leb_le _ _) Hg).
    by destruct isSupported.
  - simpl. destruct (outranks_write e) eqn:Ho.
    + rewrite andb_false_r. by apply (outranked e l f isSupported Hf Hg).
    + change (fence_run (e :: l) f) with (fence_run l (fence_step e f)).
      destruct (fence_step_ok e f Hf) as [Hf1 _]. destruct e; try done; exact (IH _ Hf1 Hg).
Qed.

(** a reply lands exactly when nothing has outranked it. In a ready generation, a
    read that claims its serial may land its reply, whatever happened before and in
    between, if and only if the section is still advertised and no later read, no
    retirement and no end of the generation - by a begin, an end or a disposal - came
    between; a write likewise, against later writes. *)
Theorem reply_lands_exactly before l isSupported :
  let f := fence_run before createReadyGenerationFence in
  0 <= generation f ->
  readStillMine isSupported (generation f) (readSerial (claimRead f)) (fence_run l (claimRead f)) =
    isSupported && negb (existsb outranks_read l) /\
  writeStillMine isSupported (generation f) (writeSerial (claimWrite f)) (fence_run l (claimWrite f)) =
    isSupported && negb (existsb outranks_write l).
Proof.
  intros f Hg. pose proof (fence_reachable_ok before) as Hf. split.
  - by apply (read_run l (claimRead f)).
  - by apply (write_run l (claimWrite f)).
Qed.

Lemma reply_lands_exactly_witness :
  let f := fence_run [Begin; ClaimRead; End; Begin] createReadyGenerationFence in
  0 <= generation f /\
  readStillMine true (generation f) (readSerial (claimRead f)) (fence_run [ClaimWrite; FirstPayload] (claimRead f)) =
    true && negb (existsb outranks_read [ClaimWrite; FirstPayload]) /\
  writeStillMine true (generation f) (writeSerial (claimWrite f)) (fence_run [ClaimWrite; FirstPayload] (claimWrite f)) =
    true && negb (existsb outranks_write [ClaimWrite; FirstPayload]).
Proof.
  split; [by vm_compute|]. apply (reply_lands_exactly [Begin; ClaimRead; End; Begin] [ClaimWrite; FirstPayload] true).
  by vm_compute.
Defined.
