(* ===== verification/BootGeneration.v ===== *)
(** Boot generation tokens (appwire-client/typescript/bootGeneration.ts): what a
    client does with a read or an update, given the daemon boot it holds. *)

From S2P Require Import Prelude JsString.

Local Open Scope string_scope.

Inductive BootGenerationAction := act_apply | act_ignore | act_replace.

#[export] Instance BootGenerationAction_eq_dec : EqDecision BootGenerationAction.
Proof. solve_decision. Defined.

(** [token.indexOf("@")] and the two slices around it. *)
Fixpoint split_at (token : string) : option (string * string) :=
  match token with
  | EmptyString => None
  | String c rest =>
      if Ascii.eqb c "@" then Some ("", rest)
      else match split_at rest with Some (a, b) => Some (String c a, b) | None => None end
  end.

Definition is_digit (c : ascii) : bool := let n := N_of_ascii c in ((48 <=? n) && (n <=? 57))%N.

(** [/^[0-9]+$/.test(s)]. *)
Definition all_digits (s : string) : bool := str_truthy s && forallb is_digit (list_ascii_of_string s).

(** [BigInt(s)] of decimal digits. *)
Definition bigint_of (s : string) : Z :=
  foldl (fun n c => (10 * n + (Z.of_N (N_of_ascii c) - 48))%Z) 0%Z (list_ascii_of_string s).

Definition MAX_UINT64 : Z := (Z.shiftl 1 64 - 1)%Z.

(** A counter token: its value and its owner, [""] for a daemon's own session. *)
Definition parseBootGeneration (token : string) : option (Z * string) :=
  let number := match split_at token with Some (a, _) => a | None => token end in
  let owner := match split_at token with Some (_, b) => b | None => "" end in
  if match split_at token with Some (_, b) => negb (str_truthy b) | None => false end then None
  else if negb (all_digits number) then None
  else if (MAX_UINT64 <? bigint_of number)%Z then None
  else Some (bigint_of number, owner).

Definition compareBootGeneration (held incoming : string) : BootGenerationAction :=
  if String.eqb held incoming then act_apply
  else match parseBootGeneration held, parseBootGeneration incoming with
       | Some (h, ho), Some (i, io) =>
           if negb (String.eqb ho io) then act_replace
           else if (i <? h)%Z then act_ignore
           else if (i =? h)%Z then act_apply
           else act_replace
       | _, _ => act_replace
       end.

Lemma compareBootGeneration_refl t : compareBootGeneration t t = act_apply.
Proof. unfold compareBootGeneration. by rewrite String.eqb_refl. Qed.

(** Tokens that apply to one another are the same one, or the same counter of one owner. *)
Lemma apply_same_counter a b :
  compareBootGeneration a b = act_apply <->
  a = b \/ is_Some (parseBootGeneration a) /\ parseBootGeneration a = parseBootGeneration b.
Proof.
  unfold compareBootGeneration. destruct (String.eqb_spec a b) as [|Hab]; [naive_solver|].
  destruct (parseBootGeneration a) as [[h ho]|], (parseBootGeneration b) as [[i io]|]; simpl.
  all: try (split; [done|intros [?|[[? ?] ?]]; congruence]).
  destruct (String.eqb_spec ho io) as [->|]; simpl; [|naive_solver].
  destruct (Z.ltb_spec i h), (Z.eqb_spec i h); subst; (split; [try done|]); intros; destruct_or?; destruct_and?; simplify_eq; try lia; eauto.
Qed.

(** [a] applies to [b]: an equivalence, under which comparisons are the same. *)
Lemma apply_sym a b : compareBootGeneration a b = act_apply -> compareBootGeneration b a = act_apply.
Proof. rewrite !apply_same_counter. intros [->|[[x Hx] E]]; [by left|right]. rewrite <- E, Hx. eauto. Qed.

Lemma apply_trans a b c :
  compareBootGeneration a b = act_apply -> compareBootGeneration b c = act_apply ->
  compareBootGeneration a c = act_apply.
Proof. rewrite !apply_same_counter. intros [->|[? E1]] [->|[? E2]]; [by left|..]; right; split; congruence. Qed.

(** An ignored token is a lower counter of the same owner. *)
Lemma ignore_lower a b :
  compareBootGeneration a b = act_ignore <->
  exists h i o, parseBootGeneration a = Some (h, o) /\ parseBootGeneration b = Some (i, o) /\ (i < h)%Z.
Proof.
  unfold compareBootGeneration. destruct (String.eqb_spec a b) as [->|Hab].
  - split; [done|]. intros (h & i & o & H1 & H2 & ?). rewrite H1 in H2. simplify_eq. lia.
  - destruct (parseBootGeneration a) as [[h ho]|], (parseBootGeneration b) as [[i io]|]; simpl; try naive_solver.
    destruct (String.eqb_spec ho io) as [->|]; simpl; [|naive_solver].
    destruct (Z.ltb_spec i h), (Z.eqb_spec i h); try lia; (split; [try done; intros; eauto 10|]); intros (? & ? & ? & ? & ? & ?); simplify_eq; (done || lia).
Qed.

Example boot_descendant : compareBootGeneration "7@ses" "12@ses" = act_replace /\
  compareBootGeneration "12@ses" "7@ses" = act_ignore /\ compareBootGeneration "7" "07" = act_apply /\
  compareBootGeneration "7" "daemonless" = act_replace /\ compareBootGeneration "7@" "8" = act_replace.
Proof. done. Qed.
