(* ===== verification/TranscriptItems.v ===== *)
(** Transcript items as the client holds them (appwire-client/typescript/model.ts)
    and their hydration from the wire (transcriptItems.ts).

    An optional property of a wire or model object is an [option]; a property that is
    undefined is absent. The two hidden marks of an item, its text presence and the
    identity-only mark, are fields of [ItemModel]. *)

From S2P Require Import Prelude JsString Json JsMap BootGeneration.
From stdpp Require Import pretty.

Local Open Scope string_scope.
Local Open Scope evener_scope.

(** ** Positions *)

Record ThreadItemPosition := mkPosition { entry : Z; item_at : Z; sub : option Z }.

#[export] Instance ThreadItemPosition_eq_dec : EqDecision ThreadItemPosition.
Proof. solve_decision. Defined.

(** [a || b] on numbers: [b] where [a] is zero. *)
Definition or_z (a b : Z) : Z := if (a =? 0)%Z then b else a.

(** By (entry, item, sub); an item with no position after every positioned one. *)
Definition comparePositions (left right : option ThreadItemPosition) : Z :=
  match left, right with
  | Some l, Some r =>
      or_z (entry l - entry r) (or_z (item_at l - item_at r) (default 0 (sub l) - default 0 (sub r)))
  | Some _, None => -1
  | None, Some _ => 1
  | None, None => 0
  end%Z.

(** ** Items and turns of the model *)

Record ItemImage := mkImage {
  image_src : string; image_name : option string; image_path : option string; image_source : option string }.

(** A delegate's display name: the runes kept, and whether the ellipsis U+2026 ends it. *)
Record BoundedName := mkName { name_runes : string; name_elided : bool }.

Record TranscriptAuthorship := mkAuthorship {
  author_kind : string;
  author_sessionRef : option string;
  author_ownerRef : option string;
  author_delegateId : option string;
  author_delegateName : option BoundedName;
  author_inherited : bool
}.

Inductive ItemTextPresence := text_omitted | text_provided.

#[export] Instance ItemImage_eq_dec : EqDecision ItemImage.
Proof. solve_decision. Defined.
#[export] Instance BoundedName_eq_dec : EqDecision BoundedName.
Proof. solve_decision. Defined.
#[export] Instance TranscriptAuthorship_eq_dec : EqDecision TranscriptAuthorship.
Proof. solve_decision. Defined.
#[export] Instance ItemTextPresence_eq_dec : EqDecision ItemTextPresence.
Proof. solve_decision. Defined.

(** The tail of an item that no merge in this development rewrites field by field. *)
Record ItemDetail := mkDetail {
  item_authorship : option TranscriptAuthorship;
  item_clientMutationId : option string;
  item_transcriptEntryIndex : option Z;
  item_startedAt : option string;
  item_completedAt : option string;
  item_reasoningSummaries : option (list (list string));
  item_warning : option json
}.

(** The payload an entry may leave unsaid: the omission-tolerant fields. *)
Record ItemPayload := mkPayload {
  item_images : option (list ItemImage);
  item_outputImages : option (list ItemImage);
  item_output : option string;
  item_error : option string;
  item_raw : option json;
  item_prevalOnly : option bool;
  item_exitCode : option Z;
  item_argumentsJSON : option string;
  item_description : option string;
  item_toolName : option string;
  item_callId : option string;
  item_eventKind : option string;
  item_steeringKind : option string;
  item_source : option string;
  item_actor : option json
}.

Record ItemModel := mkItemModel {
  item_id : string;
  item_turnId : string;
  item_type : string;
  item_text : string;
  item_pendingText : option (list string);
  item_status : option string;
  item_transcriptKey : option string;
  item_position : option ThreadItemPosition;
  item_version : option Z;
  item_roundId : option string;
  item_completedAtEntry : option Z;
  item_overlayKey : option string;
  item_payload : ItemPayload;
  item_detail : ItemDetail;
  item_textPresence : option ItemTextPresence;
  item_identityOnly : bool
}.

Record TurnModel := mkTurnModel {
  turn_id : string;
  turn_status : string;
  turn_items : list ItemModel;
  turn_startedAt : option string;
  turn_completedAt : option string;
  turn_durationMs : option Z;
  turn_usage : option json;
  turn_cost : option string;
  turn_error : option json;
  turn_version : option Z
}.

(** [{...turn, items}]. *)
Definition with_items (items : list ItemModel) (t : TurnModel) : TurnModel :=
  mkTurnModel (turn_id t) (turn_status t) items (turn_startedAt t) (turn_completedAt t) (turn_durationMs t)
    (turn_usage t) (turn_cost t) (turn_error t) (turn_version t).

(** ** The wire's items and turns *)

Record InputItem := mkInputItem {
  in_url : option string; in_mediaType : option string; in_data : option string;
  in_name : option string; in_path : option string; in_metadata : option (js_map string) }.

Record OutputImage := mkOutputImage {
  out_source : string; out_name : option string; out_url : option string; out_path : option string }.

Record ThreadItem := mkThreadItem {
  wire_id : string;
  wire_type : string;
  wire_turnId : option string;
  wire_transcriptKey : option string;
  wire_position : option ThreadItemPosition;
  wire_transcriptEntryIndex : option Z;
  wire_text : option string;
  wire_images : option (list InputItem);
  wire_toolName : option string;
  wire_callId : option string;
  wire_argumentsJson : option string;
  wire_description : option string;
  wire_output : option string;
  wire_error : option string;
  wire_outputImages : option (list OutputImage);
  wire_status : option string;
  wire_prevalOnly : option bool;
  wire_startedAt : option Z;
  wire_completedAt : option Z;
  wire_exitCode : option Z;
  wire_raw : option json;
  wire_eventKind : option string;
  wire_source : option string;
  wire_steeringKind : option string;
  wire_clientMutationId : option string;
  wire_authorship : option json;
  wire_actor : option json;
  wire_version : option Z;
  wire_roundId : option string;
  wire_completedAtEntry : option Z
}.

Record Turn := mkTurn {
  wturn_id : string;
  wturn_items : option (list ThreadItem);
  wturn_status : string;
  wturn_startedAt : option Z;
  wturn_completedAt : option Z;
  wturn_durationMs : option Z;
  wturn_usage : option json;
  wturn_cost : option string;
  wturn_error : option json;
  wturn_version : option Z
}.

(** [x || undefined] on optional numbers and strings: zero and [""] are falsy. *)
Definition truthy_z (x : option Z) : option Z := match x with Some n => if (n =? 0)%Z then None else x | None => None end.
Definition truthy_s (x : option string) : option string :=
  match x with Some s => if str_truthy s then x else None | None => None end.

(** ** Times *)

(** [k] decimal digits of [n]. *)
Fixpoint digits (k : nat) (n : Z) : string :=
  match k with
  | O => ""
  | S k' => digits k' (n / 10) ++ String (ascii_of_N (Z.to_N (48 + n mod 10))) ""
  end%Z.

(** The civil date of a day number counted from 1970-01-01: year, month, day. *)
Definition civil_of_days (days : Z) : Z * Z * Z :=
  (let z := days + 719468 in
   let era := z / 146097 in
   let doe := z - era * 146097 in
   let yoe := (doe - doe / 1460 + doe / 36524 - doe / 146096) / 365 in
   let doy := doe - (365 * yoe + yoe / 4 - yoe / 100) in
   let mp := (5 * doy + 2) / 153 in
   let month := if mp <? 10 then mp + 3 else mp - 9 in
   (yoe + era * 400 + (if month <=? 2 then 1 else 0), month, doy - (153 * mp + 2) / 5 + 1))%Z.

(** [new Date(ms).toISOString()] for a positive [ms] within Date's range. *)
Definition toISOString (ms : Z) : string :=
  let '(y, m, d) := civil_of_days (ms / 86400000) in
  let t := (ms mod 86400000)%Z in
  (if (9999 <? y)%Z then "+" ++ digits 6 y else digits 4 y) ++ "-" ++ digits 2 m ++ "-" ++ digits 2 d ++ "T" ++
  digits 2 (t / 3600000) ++ ":" ++ digits 2 (t / 60000 mod 60) ++ ":" ++ digits 2 (t / 1000 mod 60) ++ "." ++
  digits 3 (t mod 1000) ++ "Z".

(** A non-positive anchor is absent. *)
Definition epochMsToISO (ms : option Z) : option string :=
  match ms with Some t => if (t <=? 0)%Z then None else Some (toISOString t) | None => None end.
Definition epochSecondsToISO (seconds : option Z) : option string :=
  epochMsToISO (match seconds with Some s => Some (s * 1000)%Z | None => None end).

Example iso_2026 : epochMsToISO (Some 1774355696789%Z) = Some "2026-03-24T12:34:56.789Z" /\
  epochSecondsToISO (Some 951782400%Z) = Some "2000-02-29T00:00:00.000Z" /\ epochMsToISO (Some 0%Z) = None.
Proof. vm_compute. done. Qed.

(** ** Images *)

(** [encodeURIComponent]: bytes of the UTF-8 form, the unreserved ones as they are. *)
Definition is_unreserved (c : ascii) : bool :=
  let n := N_of_ascii c in
  ((48 <=? n) && (n <=? 57) || (65 <=? n) && (n <=? 90) || (97 <=? n) && (n <=? 122))%N
  || existsb (Ascii.eqb c) (list_ascii_of_string "-_.!~*'()").

Definition hex_upper (n : Z) : ascii := ascii_of_N (Z.to_N (if (n <? 10)%Z then 48 + n else 55 + n)).
Definition percent (byte : Z) : string :=
  String "%" (String (hex_upper (byte / 16)) (String (hex_upper (byte mod 16)) "")).

Definition encode_unit (c : ascii) : string :=
  let n := Z.of_N (N_of_ascii c) in
  if is_unreserved c then String c ""
  else if (n <? 128)%Z then percent n
  else percent (Z.lor 192 (Z.shiftr n 6)) ++ percent (Z.lor 128 (Z.land n 63)).

Definition encodeURIComponent (s : string) : string := String.concat "" (encode_unit <$> list_ascii_of_string s).

Definition imageSessionRouteForSession (sessionId : string) : option string :=
  if negb (str_truthy sessionId) || includes "/" sessionId then None else Some (encodeURIComponent sessionId).

Definition is_sha (s : string) : bool :=
  (String.length s =? 64)%nat &&
  forallb (fun c => let n := N_of_ascii c in ((48 <=? n) && (n <=? 57) || (97 <=? n) && (n <=? 102))%N)
    (list_ascii_of_string s).

Definition metadataShaImageSrc (img : InputItem) (imageSessionRoute : option string) : option string :=
  match in_metadata img ≫= map_get "sha", imageSessionRoute with
  | Some sha, Some route =>
      if str_truthy sha && str_truthy route && is_sha sha then Some ("/s/" ++ route ++ "/images/" ++ sha) else None
  | _, _ => None
  end.

Definition inlineImageSrc (img : InputItem) : option string :=
  match truthy_s (in_data img), truthy_s (in_mediaType img) with
  | Some data, Some media => Some ("data:" ++ media ++ ";base64," ++ data)
  | _, _ => None
  end.

Definition imagesToItemImagesForSession (images : option (list InputItem)) (imageSessionRoute : option string) :
    option (list ItemImage) :=
  match images with
  | None | Some [] => None
  | Some l => Some ((fun img => mkImage
      (default "" (in_url img ?: inlineImageSrc img ?: metadataShaImageSrc img imageSessionRoute ?: in_path img ?: in_name img))
      (in_name img) (in_path img) None) <$> l)
  end.

Definition outputImagesToItemImages (images : option (list OutputImage)) : option (list ItemImage) :=
  match images with
  | None => None
  | Some l => Some ((fun img => mkImage
      (default (out_source img) (out_url img ?: out_path img ?: out_name img))
      (out_name img) (out_path img) (Some (out_source img))) <$> l)
  end.

(** ** Authorship *)

Definition is_ref_char (c : ascii) : bool :=
  let n := N_of_ascii c in
  ((48 <=? n) && (n <=? 57) || (65 <=? n) && (n <=? 90) || (97 <=? n) && (n <=? 122))%N
  || existsb (Ascii.eqb c) (list_ascii_of_string "._~-").

(** [/^[A-Za-z0-9._~-]+$/.test(s)]. *)
Definition ref_part (s : string) : bool := str_truthy s && forallb is_ref_char (list_ascii_of_string s).

(** The first [":"] of a string, and the two slices around it. *)
Fixpoint split_colon (s : string) : option (string * string) :=
  match s with
  | EmptyString => None
  | String c rest =>
      if Ascii.eqb c ":" then Some ("", rest)
      else match split_colon rest with Some (a, b) => Some (String c a, b) | None => None end
  end.

Definition isValidTranscriptRef (value : string) : bool :=
  match split_colon value with
  | Some (source, thread) => ref_part source && ref_part thread && negb (includes ".." thread)
  | None => false
  end.

(** [/^dlg_[A-Za-z0-9._~-]+$/.test(id) && !id.includes("..")]. *)
Definition valid_delegate_id (id : string) : bool :=
  String.prefix "dlg_" id && ref_part (String.substring 4 (String.length id) id) && negb (includes ".." id).

(** [ref !== undefined && ref !== ""]. *)
Definition is_set (v : option json) : bool :=
  match v with None => false | Some (JStr s) => str_truthy s | Some _ => true end.

Definition valid_ref (v : option json) : bool :=
  match v with Some (JStr s) => isValidTranscriptRef s | _ => false end.

(** The first 200 runes; the last gives way to an ellipsis where there are more. *)
Definition boundedName (name : string) : BoundedName :=
  if (200 <? String.length name)%nat then mkName (String.substring 0 199 name) true else mkName name false.

Definition normalizeAuthorship (value : option json) : option TranscriptAuthorship :=
  match value with
  | Some (JObj v) =>
      match obj_get "inherited" v with
      | Some (JBool inherited) =>
          let neutral := mkAuthorship "unknown" None None None None inherited in
          match obj_get "author" v with
          | Some (JObj author) =>
              let get k := obj_get k author in
              let kind := as_string (get "kind") in
              if match kind with Some k => str_in k ["human"; "system"; "unknown"] | None => false end then
                if existsb (fun k => is_set (get k)) ["sessionRef"; "ownerRef"; "delegateId"; "delegateName"]
                then Some neutral
                else Some (mkAuthorship (default "" kind) None None None None inherited)
              else if negb (bool_decide (kind = Some "agent")) || negb (valid_ref (get "sessionRef")) then Some neutral
              else
                let hasOwner := is_set (get "ownerRef") in
                let hasDelegate := is_set (get "delegateId") in
                if negb (Bool.eqb hasOwner hasDelegate) then Some neutral
                else if hasOwner && (negb (valid_ref (get "ownerRef")) ||
                       negb (match get "delegateId" with Some (JStr d) => valid_delegate_id d | _ => false end))
                then Some neutral
                else if match get "delegateName" with
                        | None => false
                        | Some (JStr n) => str_truthy n && negb hasDelegate
                        | Some _ => true
                        end then Some neutral
                else Some (mkAuthorship "agent" (as_string (get "sessionRef")) (truthy_s (as_string (get "ownerRef")))
                  (truthy_s (as_string (get "delegateId")))
                  (option_map boundedName (truthy_s (as_string (get "delegateName")))) inherited)
          | _ => Some neutral
          end
      | _ => None
      end
  | _ => None
  end.

(** ** The marks *)

Definition setItemTextPresence (presence : ItemTextPresence) (i : ItemModel) : ItemModel :=
  mkItemModel (item_id i) (item_turnId i) (item_type i) (item_text i) (item_pendingText i) (item_status i)
    (item_transcriptKey i) (item_position i) (item_version i) (item_roundId i) (item_completedAtEntry i)
    (item_overlayKey i) (item_payload i) (item_detail i) (Some presence) (item_identityOnly i).

Definition copyItemTextPresence (source target : ItemModel) : ItemModel :=
  match item_textPresence source with None => target | Some p => setItemTextPresence p target end.

Definition itemTextPresence (i : ItemModel) : ItemTextPresence := default text_provided (item_textPresence i).

Definition markItemTextOmitted (i : ItemModel) : ItemModel := setItemTextPresence text_omitted i.

Definition markItemIdentityOnly (i : ItemModel) : ItemModel :=
  mkItemModel (item_id i) (item_turnId i) (item_type i) (item_text i) (item_pendingText i) (item_status i)
    (item_transcriptKey i) (item_position i) (item_version i) (item_roundId i) (item_completedAtEntry i)
    (item_overlayKey i) (item_payload i) (item_detail i) (item_textPresence i) true.

Definition absent {A} (o : option A) : bool := match o with None => true | Some _ => false end.

Definition nullish_json (o : option json) : bool := match o with None | Some JNull => true | _ => false end.

(** Every property beyond identity and ordering is one a merge would not keep from it:
    [callId] and [position] are identity; the rest must be absent. *)
Definition itemIsIdentityOnly (i : ItemModel) : bool :=
  let p := item_payload i in
  let d := item_detail i in
  item_identityOnly i ||
  (bool_decide (itemTextPresence i = text_omitted)
   && absent (item_pendingText i) && absent (item_status i) && absent (item_version i) && absent (item_roundId i)
   && absent (item_completedAtEntry i) && absent (item_overlayKey i)
   && absent (item_images p) && absent (item_outputImages p) && absent (item_output p) && absent (item_error p)
   && nullish_json (item_raw p) && absent (item_prevalOnly p) && absent (item_exitCode p) && absent (item_argumentsJSON p)
   && absent (item_description p) && absent (item_toolName p) && absent (item_eventKind p)
   && absent (item_steeringKind p) && absent (item_source p) && absent (item_actor p)
   && absent (item_authorship d) && absent (item_clientMutationId d) && absent (item_transcriptEntryIndex d)
   && absent (item_startedAt d) && absent (item_completedAt d) && absent (item_reasoningSummaries d)
   && absent (item_warning d)).

(** ** Hydration *)

Definition wireItemToModel (item : ThreadItem) (imageSessionRoute : option string) : ItemModel :=
  {| item_id := wire_id item;
     item_turnId := default "" (wire_turnId item);
     item_type := wire_type item;
     item_text := default "" (wire_text item);
     item_pendingText := None;
     item_status := wire_status item;
     item_transcriptKey := wire_transcriptKey item;
     item_position := wire_position item;
     item_version := truthy_z (wire_version item);
     item_roundId := truthy_s (wire_roundId item);
     item_completedAtEntry := truthy_z (wire_completedAtEntry item);
     item_overlayKey := None;
     item_payload :=
       {| item_images := imagesToItemImagesForSession (wire_images item) imageSessionRoute;
          item_outputImages := outputImagesToItemImages (wire_outputImages item);
          item_output := wire_output item;
          item_error := wire_error item;
          item_raw := wire_raw item;
          item_prevalOnly := wire_prevalOnly item;
          item_exitCode := wire_exitCode item;
          item_argumentsJSON := wire_argumentsJson item;
          item_description := wire_description item;
          item_toolName := wire_toolName item;
          item_callId := wire_callId item;
          item_eventKind := wire_eventKind item;
          item_steeringKind := wire_steeringKind item;
          item_source := wire_source item;
          item_actor := truthy_json (wire_actor item) |};
     item_detail :=
       {| item_authorship := normalizeAuthorship (wire_authorship item);
          item_clientMutationId := truthy_s (wire_clientMutationId item);
          item_transcriptEntryIndex := wire_transcriptEntryIndex item;
          item_startedAt := epochMsToISO (wire_startedAt item);
          item_completedAt := epochMsToISO (wire_completedAt item);
          item_reasoningSummaries :=
            match wire_text item with
            | Some text => if wire_type item =? "reasoning" then Some [[text]] else None
            | None => None
            end;
          item_warning := None |};
     item_textPresence := Some (match wire_text item with None => text_omitted | Some _ => text_provided end);
     item_identityOnly := false |}.

(** [{...wireToTurnScalars(turn), items: []}]. *)
Definition wireToTurnScalars (turn : Turn) : TurnModel :=
  {| turn_id := wturn_id turn;
     turn_status := wturn_status turn;
     turn_items := [];
     turn_startedAt := epochMsToISO (wturn_startedAt turn);
     turn_completedAt := epochMsToISO (wturn_completedAt turn);
     turn_durationMs := wturn_durationMs turn;
     turn_usage := wturn_usage turn;
     turn_cost := wturn_cost turn;
     turn_error := wturn_error turn;
     turn_version := truthy_z (wturn_version turn) |}.

Definition wireToTurnModel (turn : Turn) (imageSessionRoute : option string) : TurnModel :=
  with_items ((fun i => wireItemToModel i imageSessionRoute) <$> default [] (wturn_items turn)) (wireToTurnScalars turn).

(** A plain wire item, for the examples and witnesses. *)
Definition plain_item (id turnId type text : string) (at_ : ThreadItemPosition) (version : Z) : ThreadItem :=
  mkThreadItem id type (Some turnId) (Some id) (Some at_) None (Some text) None None None None None None None None
    None None None None None None None None None None None None (Some version) None None.

Definition plain_turn (id status : string) (items : list ThreadItem) (version : Z) : Turn :=
  mkTurn id (Some items) status None None None None None None (Some version).

(** ** The order of positions *)

Section position_order.
Local Open Scope Z_scope.

Ltac pos_cases :=
  unfold comparePositions, or_z in *;
  repeat match goal with p : option ThreadItemPosition |- _ => destruct p as [[? ? ?]|] end; simpl in *;
  repeat match goal with H : context [default 0 ?s] |- _ => generalize dependent (default 0 s); intros
                       | |- context [default 0 ?s] => generalize (default 0 s); intros end;
  repeat match goal with
         | |- context [Z.eqb ?a 0] => destruct (Z.eqb_spec a 0)
         | H : context [Z.eqb ?a 0] |- _ => destruct (Z.eqb_spec a 0)
         end; try lia.

Lemma comparePositions_opp a b : comparePositions a b = - comparePositions b a.
Proof. pos_cases. Qed.

Lemma comparePositions_refl a : comparePositions a a = 0.
Proof. pose proof (comparePositions_opp a a). lia. Qed.

Lemma comparePositions_trans a b c :
  comparePositions a b <= 0 -> comparePositions b c <= 0 -> comparePositions a c <= 0.
Proof. pos_cases. Qed.

Lemma comparePositions_total a b : comparePositions a b <= 0 \/ comparePositions b a <= 0.
Proof. rewrite (comparePositions_opp b a). lia. Qed.

(** Positions that tie are ordered alike against every other. *)
Lemma comparePositions_lt_trans a b c :
  comparePositions a b <= 0 -> comparePositions b c < 0 -> comparePositions a c < 0.
Proof. pos_cases. Qed.
End position_order.
