(* ===== verification/TranscriptHistory.v ===== *)
(** Versioned history (appwire-client/typescript/transcriptHistory.ts): recorded
    turns merged by version, the identity of the read they were taken under, and
    what a signal, a read or a page does to them.

    [mergeHistory] answers the merged turns, or [None] where the source returns its
    argument itself: callers read "nothing changed" off that reference. *)

From S2P Require Import Prelude JsString Json JsMap BootGeneration TranscriptItems.

Local Open Scope string_scope.
Local Open Scope evener_scope.

Definition itemIdentity (i : ItemModel) : string := default (item_id i) (item_transcriptKey i).

(** ** Merging an item into its held form *)

Definition merge_payload (held incoming : ItemPayload) : ItemPayload :=
  {| item_images := item_images incoming ?: item_images held;
     item_outputImages := item_outputImages incoming ?: item_outputImages held;
     item_output := item_output incoming ?: item_output held;
     item_error := item_error incoming ?: item_error held;
     item_raw := item_raw incoming ?: item_raw held;
     item_prevalOnly := item_prevalOnly incoming ?: item_prevalOnly held;
     item_exitCode := item_exitCode incoming ?: item_exitCode held;
     item_argumentsJSON := item_argumentsJSON incoming ?: item_argumentsJSON held;
     item_description := item_description incoming ?: item_description held;
     item_toolName := item_toolName incoming ?: item_toolName held;
     item_callId := item_callId incoming ?: item_callId held;
     item_eventKind := item_eventKind incoming ?: item_eventKind held;
     item_steeringKind := item_steeringKind incoming ?: item_steeringKind held;
     item_source := item_source incoming ?: item_source held;
     item_actor := item_actor incoming ?: item_actor held |}.

(** Whether the loop found a field to carry over: held, and left unsaid by the incoming item. *)
Definition unsaid {A} (held incoming : option A) : bool := negb (absent held) && absent incoming.

Definition carries_over (held incoming : ItemPayload) : bool :=
  unsaid (item_images held) (item_images incoming) || unsaid (item_outputImages held) (item_outputImages incoming)
  || unsaid (item_output held) (item_output incoming) || unsaid (item_error held) (item_error incoming)
  || unsaid (item_raw held) (item_raw incoming) || unsaid (item_prevalOnly held) (item_prevalOnly incoming)
  || unsaid (item_exitCode held) (item_exitCode incoming) || unsaid (item_argumentsJSON held) (item_argumentsJSON incoming)
  || unsaid (item_description held) (item_description incoming) || unsaid (item_toolName held) (item_toolName incoming)
  || unsaid (item_callId held) (item_callId incoming) || unsaid (item_eventKind held) (item_eventKind incoming)
  || unsaid (item_steeringKind held) (item_steeringKind incoming) || unsaid (item_source held) (item_source incoming)
  || unsaid (item_actor held) (item_actor incoming).

(** [{...item, ...payload}] with a text: a spread, which copies no hidden mark. *)
Definition spread_item (payload : ItemPayload) (text : string) (i : ItemModel) : ItemModel :=
  mkItemModel (item_id i) (item_turnId i) (item_type i) text (item_pendingText i) (item_status i)
    (item_transcriptKey i) (item_position i) (item_version i) (item_roundId i) (item_completedAtEntry i)
    (item_overlayKey i) payload (item_detail i) None false.

Definition mergeReplacedItem (held : option ItemModel) (incoming : ItemModel) : ItemModel :=
  match held with
  | None => incoming
  | Some h =>
      let payload := merge_payload (item_payload h) (item_payload incoming) in
      let merged :=
        if carries_over (item_payload h) (item_payload incoming) then spread_item payload (item_text incoming) incoming
        else incoming in
      if bool_decide (itemTextPresence incoming = text_omitted) && bool_decide (itemTextPresence h = text_provided)
      then copyItemTextPresence incoming (spread_item payload (item_text h) incoming)
      else merged
  end.

(** ** Versions *)

(** The higher version wins; a held item or turn without one always yields. *)
Definition supersedes (held incoming : option Z) : bool :=
  match held, incoming with
  | None, _ => true
  | Some h, Some i => (h <? i)%Z
  | Some _, None => false
  end.

Definition mergeTranscriptItemVersioned (held : option ItemModel) (heldVersion : option Z) (incoming : ItemModel)
    (incomingVersion : Z) : ItemModel :=
  match held with
  | Some h =>
      if negb (supersedes heldVersion (Some incomingVersion)) &&
         negb (bool_decide (heldVersion = Some incomingVersion) && itemIsIdentityOnly h && negb (itemIsIdentityOnly incoming))
      then h
      else mergeReplacedItem held incoming
  | None => mergeReplacedItem held incoming
  end.

Definition mergeTranscriptTurnVersioned (held : option TurnModel) (incoming : TurnModel) : TurnModel :=
  match held with
  | Some h => if negb (supersedes (turn_version h) (turn_version incoming)) then h
              else with_items (turn_items h) incoming
  | None => with_items [] incoming
  end.

(** ** Places *)

(** The head of an array, [items[0]]. *)
Definition first_position (items : list ItemModel) : option ThreadItemPosition := head items ≫= item_position.

Definition turnPosition (t : TurnModel) : option ThreadItemPosition :=
  first_position (turn_items t) ?: option_map (fun v => mkPosition v 0 None) (turn_version t).

(** The loop of [itemsBefore]: [fuel] bounds the halvings of [low, high). *)
Fixpoint search (fuel : nat) (items : list ItemModel) (position : option ThreadItemPosition) (low high : nat) : nat :=
  match fuel with
  | O => low
  | S fuel' =>
      if (low <? high)%nat then
        let mid := Nat.div2 (low + high) in
        if (comparePositions (items !! mid ≫= item_position) position <=? 0)%Z
        then search fuel' items position (S mid) high
        else search fuel' items position low mid
      else low
  end.

Definition itemsBefore (items : list ItemModel) (position : option ThreadItemPosition) : nat :=
  search (S (length items)) items position 0 (length items).

(** [items.splice(at, 0, item)]. *)
Definition splice {A} (at_ : nat) (x : A) (l : list A) : list A := take at_ l ++ x :: drop at_ l.

(** [items.findIndex((item) => itemIdentity(item) === identity)]. *)
Definition find_identity (identity : string) (items : list ItemModel) : option (nat * ItemModel) :=
  list_find (fun i => itemIdentity i = identity) items.

(** ** Merging a fragment *)

(** Turn scalars (their items empty) and items. *)
Record HistoryFragment := mkFragment { fragment_turns : list TurnModel; fragment_items : list ItemModel }.

Definition with_turnId (turnId : string) (i : ItemModel) : ItemModel :=
  mkItemModel (item_id i) turnId (item_type i) (item_text i) (item_pendingText i) (item_status i)
    (item_transcriptKey i) (item_position i) (item_version i) (item_roundId i) (item_completedAtEntry i)
    (item_overlayKey i) (item_payload i) (item_detail i) (item_textPresence i) (item_identityOnly i).

Definition splitWireTurns (turns : list Turn) (imageSessionRoute : option string) : HistoryFragment :=
  mkFragment (wireToTurnScalars <$> turns)
    (turns ≫= fun turn =>
       (fun wire =>
          let item := wireItemToModel wire imageSessionRoute in
          if item_turnId item =? "" then with_turnId (wturn_id turn) item else item)
       <$> default [] (wturn_items turn)).

Definition wireFragment (turns : option (list Turn)) (items : option (list ThreadItem))
    (imageSessionRoute : option string) : HistoryFragment :=
  mkFragment (wireToTurnScalars <$> default [] turns)
    ((fun i => wireItemToModel i imageSessionRoute) <$> default [] items).

(** [byId] with the flag [changed]. *)
Notation merge_state := (js_map TurnModel * bool)%type.

Definition merge_turn (heldOnly : bool) (s : merge_state) (incoming : TurnModel) : merge_state :=
  if turn_id incoming =? "" then s
  else match map_get (turn_id incoming) s.1 with
       | Some held =>
           if supersedes (turn_version held) (turn_version incoming)
           then (map_put (turn_id incoming) (with_items (turn_items held) incoming) s.1, true)
           else s
       | None => if heldOnly then s else (map_put (turn_id incoming) (with_items [] incoming) s.1, true)
       end.

(** A turn an item opens before its own scalars arrived. *)
Definition opened_turn (id : string) : TurnModel := mkTurnModel id "inProgress" [] None None None None None None None.

Definition identity_upgrade (held incoming : ItemModel) : bool :=
  bool_decide (item_version held = item_version incoming) && itemIsIdentityOnly held && negb (itemIsIdentityOnly incoming).

Definition merge_item (heldOnly : bool) (s : merge_state) (incoming : ItemModel) : merge_state :=
  if item_turnId incoming =? "" then s
  else
    let held := map_get (item_turnId incoming) s.1 in
    if absent held && heldOnly then s
    else
      let turn := default (opened_turn (item_turnId incoming)) held in
      match find_identity (itemIdentity incoming) (turn_items turn) with
      | None =>
          if heldOnly then s
          else (map_put (turn_id turn)
                 (with_items (splice (itemsBefore (turn_items turn) (item_position incoming)) incoming (turn_items turn)) turn)
                 s.1, true)
      | Some (index, heldItem) =>
          if negb (supersedes (item_version heldItem) (item_version incoming)) && negb (identity_upgrade heldItem incoming)
          then s
          else (map_put (turn_id turn)
                 (with_items (<[index := mergeReplacedItem (Some heldItem) incoming]> (turn_items turn)) turn) s.1, true)
      end.

Definition compare_turns (left right : TurnModel) : Z := comparePositions (turnPosition left) (turnPosition right).

(** [new Map(turns.map((turn) => [turn.id, turn]))]: of two turns of one id the last stands. *)
Definition by_id (turns : list TurnModel) : js_map TurnModel :=
  foldl (fun m t => map_put (turn_id t) t m) [] turns.

Definition merged (turns : list TurnModel) (fragment : HistoryFragment) (heldOnly : bool) : merge_state :=
  foldl (merge_item heldOnly)
    (foldl (merge_turn heldOnly) (by_id turns, false) (fragment_turns fragment)) (fragment_items fragment).

Definition mergeHistory (turns : list TurnModel) (fragment : HistoryFragment) (heldOnly : bool) :
    option (list TurnModel) :=
  let s := merged turns fragment heldOnly in
  if s.2 then Some (sort_with compare_turns s.1.*2) else None.

(** ** Ranges *)

Definition earliestPosition (turns : list TurnModel) : option ThreadItemPosition :=
  foldl (fun earliest turn =>
    match first_position (turn_items turn) with
    | Some p =>
        match earliest with
        | Some e => if (comparePositions (Some p) (Some e) <? 0)%Z then Some p else earliest
        | None => Some p
        end
    | None => earliest
    end) None turns.

Definition widen (range : option (ThreadItemPosition * ThreadItemPosition)) (i : ItemModel) :
    option (ThreadItemPosition * ThreadItemPosition) :=
  match item_position i with
  | None => range
  | Some p =>
      match range with
      | None => Some (p, p)
      | Some (first, last) =>
          Some (if (comparePositions (Some p) (Some first) <? 0)%Z then p else first,
                if (0 <? comparePositions (Some p) (Some last))%Z then p else last)
      end
  end.

Definition fragmentRange (items : list ItemModel) : option (ThreadItemPosition * ThreadItemPosition) :=
  foldl widen None items.

Definition in_range (from : ThreadItemPosition) (to : option ThreadItemPosition) (position : option ThreadItemPosition) :
    bool :=
  match position with
  | None => false
  | Some _ =>
      (0 <=? comparePositions position (Some from))%Z &&
      match to with None => true | Some _ => (comparePositions position to <=? 0)%Z end
  end.

(** A turn the range does not touch is kept as it is, an empty one included. *)
Definition dropItemsInRange (turns : list TurnModel) (from : ThreadItemPosition) (to : option ThreadItemPosition) :
    list TurnModel :=
  omap (fun turn =>
    let items := filter (fun i => in_range from to (item_position i) = false) (turn_items turn) in
    if (length items =? length (turn_items turn))%nat then Some turn
    else match items with [] => None | _ => Some (with_items items turn) end) turns.

(** ** The read identity and what a signal does to it *)

Record SnapshotIdentity := mkSnapshot { snapshot_incarnation : string; snapshot_length : Z }.

(** ThreadTurnsListResponse, a backfill page. *)
Record ThreadTurnsListResponse := mkPage {
  page_data : option (list Turn);
  page_nextCursor : option string;
  page_bootGeneration : option string;
  page_epoch : option Z;
  page_snapshot : option SnapshotIdentity;
  page_authoritative : bool
}.

Record Awaited := mkAwaited { awaited_boot : string; awaited_epoch : Z }.

Record ReadIdentity := mkIdentity {
  id_boot : string; id_epoch : Z; id_incarnation : option string; id_length : Z }.

Record HistoryState := mkHistory {
  hist_identity : ReadIdentity;
  appliedGeneration : Z;
  issuedGeneration : Z;
  invalidatedAtGeneration : option Z;
  awaited : option Awaited;
  pendingIncarnation : option string;
  deferredPages : list ThreadTurnsListResponse;
  failed : option string;
  hist_turns : list TurnModel
}.

Definition EMPTY_HISTORY : HistoryState := mkHistory (mkIdentity "" 0 None 0) 0 0 None None None [] None [].

Definition readIdentity (bootGeneration : option string) (epoch : option Z) (snapshot : option SnapshotIdentity) :
    ReadIdentity :=
  mkIdentity (default "" bootGeneration) (default 0%Z epoch) (option_map snapshot_incarnation snapshot)
    (default 0%Z (option_map snapshot_length snapshot)).

Definition page_identity (p : ThreadTurnsListResponse) : ReadIdentity :=
  readIdentity (page_bootGeneration p) (page_epoch p) (page_snapshot p).

(** [{...history, turns}]. *)
Definition with_turns (turns : list TurnModel) (h : HistoryState) : HistoryState :=
  mkHistory (hist_identity h) (appliedGeneration h) (issuedGeneration h) (invalidatedAtGeneration h) (awaited h)
    (pendingIncarnation h) (deferredPages h) (failed h) turns.

Definition with_deferred (pages : list ThreadTurnsListResponse) (h : HistoryState) : HistoryState :=
  mkHistory (hist_identity h) (appliedGeneration h) (issuedGeneration h) (invalidatedAtGeneration h) (awaited h)
    (pendingIncarnation h) pages (failed h) (hist_turns h).

Definition with_issued (generation : Z) (h : HistoryState) : HistoryState :=
  mkHistory (hist_identity h) (appliedGeneration h) generation (invalidatedAtGeneration h) (awaited h)
    (pendingIncarnation h) (deferredPages h) (failed h) (hist_turns h).

Record HistorySignal := mkSignal {
  signal_boot : option string; signal_epoch : option Z; signal_incarnation : option string }.

Inductive SignalAction := sig_ignore | sig_apply | sig_invalidate.

#[export] Instance SignalAction_eq_dec : EqDecision SignalAction.
Proof. solve_decision. Defined.

(** What a thread awaits: the newest generation and epoch that invalidated it, or else
    what it holds. *)
Definition awaits (h : HistoryState) : Awaited :=
  default (mkAwaited (id_boot (hist_identity h)) (id_epoch (hist_identity h))) (awaited h).

Definition classifySignal (held : HistoryState) (signal : HistorySignal) : SignalAction :=
  let a := awaits held in
  let action := match signal_boot signal with
                | None => act_apply
                | Some b => compareBootGeneration (awaited_boot a) b
                end in
  match action with
  | act_ignore => sig_ignore
  | act_replace => sig_invalidate
  | act_apply =>
      match signal_epoch signal with
      | None => sig_invalidate
      | Some e =>
          if (awaited_epoch a <? e)%Z then sig_invalidate
          else if (e <? awaited_epoch a)%Z then sig_ignore
          else if absent (invalidatedAtGeneration held) && negb (absent (signal_incarnation signal)) &&
                  negb (bool_decide (signal_incarnation signal = id_incarnation (hist_identity held)))
          then sig_invalidate
          else sig_apply
      end
  end.

Definition invalidated (h : HistoryState) (signal : HistorySignal) : HistoryState :=
  let a := awaits h in
  let bootGeneration := default (awaited_boot a) (signal_boot signal) in
  let sameBoot := bool_decide (compareBootGeneration (awaited_boot a) bootGeneration = act_apply) in
  let newIncarnation := negb (absent (signal_incarnation signal)) &&
    negb (bool_decide (signal_incarnation signal = id_incarnation (hist_identity h))) in
  mkHistory (hist_identity h) (appliedGeneration h) (issuedGeneration h) (Some (issuedGeneration h))
    (Some (mkAwaited bootGeneration (default (if sameBoot then awaited_epoch a else 0%Z) (signal_epoch signal))))
    (if newIncarnation then signal_incarnation signal else pendingIncarnation h)
    (deferredPages h) (failed h) (hist_turns h).

(** [invalidated]'s default signal. *)
Definition no_signal : HistorySignal := mkSignal None None None.

Definition identity_signal (i : ReadIdentity) : HistorySignal :=
  mkSignal (Some (id_boot i)) (Some (id_epoch i)) (id_incarnation i).

Definition historyIsLive (h : option HistoryState) : bool :=
  match h with Some h => absent (invalidatedAtGeneration h) | None => false end.

Inductive ReadDisposition := read_discard | read_replace | read_merge.
Inductive PageDisposition := page_discard | page_defer | page_invalidate | page_merge.

#[export] Instance ReadDisposition_eq_dec : EqDecision ReadDisposition.
Proof. solve_decision. Defined.
#[export] Instance PageDisposition_eq_dec : EqDecision PageDisposition.
Proof. solve_decision. Defined.

Definition identityDisposition (held : HistoryState) (identity : ReadIdentity) : ReadDisposition :=
  match invalidatedAtGeneration held with
  | Some _ =>
      if bool_decide (classifySignal held (mkSignal (Some (id_boot identity)) (Some (id_epoch identity)) None) = sig_ignore)
      then read_discard else read_replace
  | None =>
      let mine := hist_identity held in
      match compareBootGeneration (id_boot mine) (id_boot identity) with
      | act_ignore => read_discard
      | act_replace => read_replace
      | act_apply =>
          if (id_epoch identity <? id_epoch mine)%Z then read_discard
          else if (id_epoch mine <? id_epoch identity)%Z
                  || negb (bool_decide (id_incarnation identity = id_incarnation mine)) then read_replace
          else if (id_length identity <? id_length mine)%Z then read_discard
          else read_merge
      end
  end.

(** A response to a generation older than the newest issued, or issued before the
    thread was invalidated, is discarded whatever it says. *)
Definition readDisposition (held : HistoryState) (requestGeneration : option Z) (identity : ReadIdentity) :
    ReadDisposition :=
  let generation := default 0%Z requestGeneration in
  if (generation <? issuedGeneration held)%Z then read_discard
  else if match invalidatedAtGeneration held with Some g => (generation <=? g)%Z | None => false end then read_discard
  else identityDisposition held identity.

Definition pageDisposition (held : HistoryState) (page : ThreadTurnsListResponse) : PageDisposition :=
  match failed held with
  | Some _ => page_discard
  | None =>
      let identity := page_identity page in
      match classifySignal held (identity_signal identity) with
      | sig_ignore => page_discard
      | sig_invalidate => page_invalidate
      | sig_apply =>
          match invalidatedAtGeneration held with
          | Some _ => if bool_decide (id_incarnation identity = pendingIncarnation held) then page_defer else page_discard
          | None => if (id_length identity <? id_length (hist_identity held))%Z then page_discard else page_merge
          end
      end
  end.
