(* ===== verification/TranscriptOverlay.v ===== *)
(** The live overlay and the display turns derived from it and the recorded turns
    (appwire-client/typescript/transcriptHistory.ts).

    A display turn is remembered with what produced it, the entry the source keeps for
    it in the WeakMap [displayTurnSources]. The source compares objects with [===] to
    reuse a display turn; here that is an instance of [SameObject], of which only is
    assumed that an object is not two different values. *)

From S2P Require Import Prelude JsString Json JsMap BootGeneration TranscriptItems TranscriptHistory.

Local Open Scope string_scope.
Local Open Scope evener_scope.

Record OverlayItem := mkOverlay {
  ov_key : string;
  ov_kind : string;
  ov_turnId : option string;
  ov_roundId : option string;
  ov_streamId : option string;
  ov_callId : option string;
  ov_historyKey : option string;
  ov_anchor : option ThreadItemPosition;
  ov_item : ThreadItem
}.

(** [Record<string, OverlayItem>], its keys never array indices. *)
Notation Overlay := (js_map OverlayItem).

(** [===] on recorded turns and on overlay items. *)
Class SameObject := {
  same_turn : TurnModel -> TurnModel -> bool;
  same_overlay : OverlayItem -> OverlayItem -> bool;
  same_turn_eq : forall a b, same_turn a b = true -> a = b;
  same_overlay_eq : forall a b, same_overlay a b = true -> a = b
}.

Definition overlayRecord (items : option (list OverlayItem)) : Overlay :=
  foldl (fun m item => map_put (ov_key item) item m) [] (default [] items).

Definition filterOverlay (overlay : Overlay) (drop : OverlayItem -> bool) : Overlay :=
  filter (fun kv => drop kv.2 = false) overlay.

(** [itemIdentity] of the wire item an overlay item carries. *)
Definition wire_identity (w : ThreadItem) : string := default (wire_id w) (wire_transcriptKey w).

(** ** Coverage *)

Definition history_items (turns : list TurnModel) : list ItemModel := turns ≫= turn_items.

Definition covers_round (turns : list TurnModel) (round : string) : bool :=
  existsb (fun i => str_truthy round && bool_decide (item_roundId i = Some round)) (history_items turns).
Definition communicated (turns : list TurnModel) (call : string) : bool :=
  existsb (fun i => str_truthy call && (item_type i =? "agentMessage") && bool_decide (item_callId (item_payload i) = Some call))
    (history_items turns).
Definition completed (turns : list TurnModel) (key : string) : bool :=
  existsb (fun i => str_truthy key && negb (absent (truthy_z (item_completedAtEntry i))) && bool_decide (item_transcriptKey i = Some key))
    (history_items turns).
Definition noticed (turns : list TurnModel) (identity : string) : bool :=
  existsb (fun i => itemIdentity i =? identity) (history_items turns).

(** What recorded history covers: a stream once it holds an item of its round, a preview
    once it holds the message of its call, a tool once its item carries the entry that
    completed it, a notice once it is laid in. *)
Definition covered (turns : list TurnModel) (item : OverlayItem) : bool :=
  if ov_kind item =? "stream" then match ov_roundId item with Some r => covers_round turns r | None => false end
  else if ov_kind item =? "preview" then match ov_callId item with Some c => communicated turns c | None => false end
  else if ov_kind item =? "tool" then match ov_historyKey item with Some k => completed turns k | None => false end
  else if ov_kind item =? "notice" then noticed turns (wire_identity (ov_item item))
  else false.

Definition pruneCoveredOverlay (turns : list TurnModel) (overlay : Overlay) : Overlay :=
  filterOverlay overlay (covered turns).

(** ** Display turns *)

Definition with_display (pendingText : option (list string)) (turnId : string) (position : option ThreadItemPosition)
    (overlayKey : string) (i : ItemModel) : ItemModel :=
  mkItemModel (item_id i) turnId (item_type i) (item_text i) pendingText (item_status i)
    (item_transcriptKey i) position (item_version i) (item_roundId i) (item_completedAtEntry i)
    (Some overlayKey) (item_payload i) (item_detail i) (item_textPresence i) (item_identityOnly i).

Definition overlayDisplayItem (o : OverlayItem) (imageSessionRoute : option string) : ItemModel :=
  let item := wireItemToModel (ov_item o) imageSessionRoute in
  with_display
    (if bool_decide (item_status item = Some "inProgress") && str_truthy (item_text item) then Some [item_text item] else None)
    (if item_turnId item =? "" then default "" (ov_turnId o) else item_turnId item)
    (ov_anchor o ?: item_position item) (ov_key o) item.

(** The item's id and version stay; output, status and images are the overlay's. *)
Definition layOverHistoryItem (i : ItemModel) (o : OverlayItem) : ItemModel :=
  let p := item_payload i in
  copyItemTextPresence i
    (mkItemModel (item_id i) (item_turnId i) (item_type i) (item_text i) (item_pendingText i)
      (wire_status (ov_item o) ?: item_status i)
      (item_transcriptKey i) (item_position i) (item_version i) (item_roundId i) (item_completedAtEntry i)
      (Some (ov_key o))
      (mkPayload (item_images p) (outputImagesToItemImages (wire_outputImages (ov_item o)) ?: item_outputImages p)
        (wire_output (ov_item o) ?: item_output p) (item_error p) (item_raw p) (item_prevalOnly p) (item_exitCode p)
        (item_argumentsJSON p) (item_description p) (item_toolName p) (item_callId p) (item_eventKind p)
        (item_steeringKind p) (item_source p) (item_actor p))
      (item_detail i) None false).

(** What produced a display turn: its recorded turn, if any, and the overlay items laid
    into it. *)
Record DisplayTurnSource := mkSource { source_recorded : option TurnModel; source_overlay : list OverlayItem }.

(** A turn of [ThreadModel.turns] with its entry in [displayTurnSources]. *)
Record DisplayTurn := mkDisplay { shown : TurnModel; shown_source : option DisplayTurnSource }.

Definition holds_key (key : option string) (t : TurnModel) : bool :=
  existsb (fun i => bool_decide (item_transcriptKey i = key)) (turn_items t).

Definition find_turn (p : TurnModel -> bool) (turns : list TurnModel) : option TurnModel :=
  snd <$> list_find (fun t => p t = true) turns.

Definition toolHistoryTurn (o : OverlayItem) (turns : list TurnModel) : option TurnModel :=
  match find_turn (fun t => bool_decide (Some (turn_id t) = ov_turnId o)) turns with
  | Some hinted => if holds_key (ov_historyKey o) hinted then Some hinted else find_turn (holds_key (ov_historyKey o)) turns
  | None => find_turn (holds_key (ov_historyKey o)) turns
  end.

(** The position of the last item not after an anchor, where it has one. *)
Definition preceding_position (t : TurnModel) (anchor : ThreadItemPosition) : option ThreadItemPosition :=
  match itemsBefore (turn_items t) (Some anchor) with
  | O => None
  | S k => turn_items t !! k ≫= item_position
  end.

Definition noticeHistoryTurn (anchor : ThreadItemPosition) (turns : list TurnModel) : option TurnModel :=
  fst <$> foldl (fun (found : option (TurnModel * ThreadItemPosition)) turn =>
    match preceding_position turn anchor with
    | None => found
    | Some p =>
        match found with
        | Some (_, q) => if (0 <? comparePositions (Some p) (Some q))%Z then Some (turn, p) else found
        | None => Some (turn, p)
        end
    end) None turns.

Definition SYSTEM_PRELUDE_TURN_ID : string := "turn_system".

(** [a || b] on strings. *)
Definition or_s (a b : string) : string := if str_truthy a then a else b.

(** The display turn that shows an overlay item; [""] when it is not shown. *)
Definition overlayTurnId (o : OverlayItem) (turns : list TurnModel) (runningTurnId : option string) : string :=
  let fallback := or_s (default "" (ov_turnId o)) (or_s (default "" (wire_turnId (ov_item o)))
                    (default "" runningTurnId)) in
  if (ov_kind o =? "tool") && str_truthy (default "" (ov_historyKey o))
  then default fallback (turn_id <$> toolHistoryTurn o turns)
  else match ov_anchor o with
       | Some anchor =>
           if ov_kind o =? "notice"
           then default (or_s fallback SYSTEM_PRELUDE_TURN_ID) (turn_id <$> (noticeHistoryTurn anchor turns ?: head turns))
           else fallback
       | None => fallback
       end.

(** Whether a tool's execution state lies over an item of its recorded turn. *)
Definition lies_over (source : DisplayTurnSource) (o : OverlayItem) : bool :=
  (ov_kind o =? "tool") && str_truthy (default "" (ov_historyKey o)) &&
  match source_recorded source with Some t => holds_key (ov_historyKey o) t | None => false end.

Definition place_notice (imageSessionRoute : option string) (items : list ItemModel) (o : OverlayItem) : list ItemModel :=
  let notice := overlayDisplayItem o imageSessionRoute in
  splice (itemsBefore items (item_position notice)) notice items.

(** [laid.get(key)]: of two tools over one item the later stands. *)
Definition laid_over (laid : list OverlayItem) (i : ItemModel) : option OverlayItem :=
  match item_transcriptKey i with
  | None => None
  | Some _ => last (filter (fun o => ov_historyKey o = item_transcriptKey i) laid)
  end.

Definition buildDisplayTurn (id : string) (source : DisplayTurnSource) (imageSessionRoute : option string) : DisplayTurn :=
  let notices := filter (fun o => ov_kind o = "notice") (source_overlay source) in
  let others := filter (fun o => ov_kind o <> "notice") (source_overlay source) in
  let laid := filter (fun o => lies_over source o = true) others in
  let trailing := (fun o => overlayDisplayItem o imageSessionRoute) <$> filter (fun o => lies_over source o = false) others in
  let recorded := match source_recorded source with Some t => turn_items t | None => [] end in
  let items := foldl (place_notice imageSessionRoute) recorded notices in
  let over i := match laid_over laid i with
                | Some o => if absent (truthy_z (item_completedAtEntry i)) then layOverHistoryItem i o else i
                | None => i
                end in
  mkDisplay (with_items ((over <$> items) ++ trailing)%list (default (opened_turn id) (source_recorded source))) (Some source).

Definition sameOverlayItems `{SameObject} (left right : list OverlayItem) : bool :=
  (length left =? length right)%nat && forallb (fun p => same_overlay p.1 p.2) (zip left right).

(** Overlay items by the turn that shows them, both in order. *)
Definition by_turn (recorded : list TurnModel) (overlay : Overlay) (runningTurnId : option string) :
    js_map (list OverlayItem) :=
  foldl (fun m o =>
    let id := overlayTurnId o recorded runningTurnId in
    if id =? "" then m else map_put id (default [] (map_get id m) ++ [o])%list m) [] overlay.*2.

(** The last display turn of an id, as [new Map(previous.map(...))] finds it. *)
Definition previous_by_id (previous : list DisplayTurn) (id : string) : option DisplayTurn :=
  last (filter (fun d => turn_id (shown d) = id) previous).

Definition same_recorded `{SameObject} (a b : option TurnModel) : bool :=
  match a, b with Some x, Some y => same_turn x y | None, None => true | _, _ => false end.

Definition display `{SameObject} (shown_by : js_map (list OverlayItem)) (previous : list DisplayTurn)
    (imageSessionRoute : option string) (id : string) (recordedTurn : option TurnModel) : DisplayTurn :=
  match map_get id shown_by, recordedTurn with
  | None, Some t => mkDisplay t None
  | items, _ =>
      let source := mkSource recordedTurn (default [] items) in
      match previous_by_id previous id with
      | Some prior =>
          match shown_source prior with
          | Some s => if same_recorded (source_recorded s) recordedTurn && sameOverlayItems (source_overlay s) (source_overlay source)
                      then prior else buildDisplayTurn id source imageSessionRoute
          | None => buildDisplayTurn id source imageSessionRoute
          end
      | None => buildDisplayTurn id source imageSessionRoute
      end
  end.

Definition plain_turns (turns : list TurnModel) : list DisplayTurn := (fun t => mkDisplay t None) <$> turns.

Definition displayTurns `{SameObject} (recorded : list TurnModel) (overlay : Overlay) (previous : list DisplayTurn)
    (imageSessionRoute : option string) (runningTurnId : option string) : list DisplayTurn :=
  let shown_by := by_turn recorded overlay runningTurnId in
  match shown_by with
  | [] => plain_turns recorded
  | _ =>
      (((fun t => display shown_by previous imageSessionRoute (turn_id t) (Some t)) <$> recorded) ++
      ((fun id => display shown_by previous imageSessionRoute id None) <$>
        filter (fun id => id ∉ (turn_id <$> recorded)) shown_by.*1))%list
  end.
