(* ===== verification/MergeFacts.v ===== *)
(** Lemmas on recorded turns: the place search, the merge of a fragment item by item,
    well-formed turns, and reading order. *)

From S2P Require Import Prelude JsString Json JsMap TranscriptItems TranscriptHistory.

Local Open Scope string_scope.

(** ** The search for a place *)

Definition pos_le (i j : ItemModel) : Prop := (comparePositions (item_position i) (item_position j) <= 0)%Z.

Definition in_order (items : list ItemModel) : Prop := StronglySorted pos_le items.

(** Whether an item stays before a new one at [p]. *)
Definition stays_before (p : option ThreadItemPosition) (i : ItemModel) : Prop :=
  (comparePositions (item_position i) p <= 0)%Z.

#[export] Instance stays_before_dec p i : Decision (stays_before p i).
Proof. unfold stays_before. apply _. Defined.

Lemma pos_le_trans i j k : pos_le i j -> pos_le j k -> pos_le i k.
Proof. apply comparePositions_trans. Qed.

Lemma in_order_lookup items j k x y :
  in_order items -> items !! j = Some x -> items !! k = Some y -> (j < k)%nat -> pos_le x y.
Proof.
  intros Hs. revert j k. induction Hs as [|z items Hs IH Hall]; [done|].
  intros [|j] [|k] Hx Hy Hjk; simpl in *; try lia.
  - simplify_eq. rewrite Forall_forall in Hall. eapply Hall, list_elem_of_lookup_2, Hy.
  - apply (IH j k); [done..|lia].
Qed.

(** The search ends between the items that stay before and the others. *)
Lemma search_spec fuel items p low high :
  in_order items -> (low <= high <= length items)%nat -> (high - low < fuel)%nat ->
  (forall k i, items !! k = Some i -> (k < low)%nat -> stays_before p i) ->
  (forall k i, items !! k = Some i -> (high <= k)%nat -> ~ stays_before p i) ->
  let n := search fuel items p low high in
  (n <= length items)%nat /\
  (forall k i, items !! k = Some i -> (k < n)%nat -> stays_before p i) /\
  (forall k i, items !! k = Some i -> (n <= k)%nat -> ~ stays_before p i).
Proof.
  intros Hs. revert low high. induction fuel as [|fuel IH]; intros low high Hb Hf Hlo Hhi; [lia|]. simpl.
  destruct (Nat.ltb_spec low high) as [Hlt|Hge].
  2: { repeat split; [lia|done|]. intros k i Hk Hn. apply (Hhi k i); [done|lia]. }
  assert (Hmid : (low <= Nat.div2 (low + high) < high)%nat).
  { rewrite Nat.div2_div. split; [apply Nat.div_le_lower_bound; lia|apply Nat.Div0.div_lt_upper_bound; lia]. }
  set (mid := Nat.div2 (low + high)) in *.
  destruct (lookup_lt_is_Some_2 items mid) as [x Hx]; [lia|]. rewrite Hx. cbn [mbind option_bind].
  destruct (Z.leb_spec (comparePositions (item_position x) p) 0) as [Hle|Hgt].
  - apply IH; [lia..| |done]. intros k i Hk Hkm. unfold stays_before.
    destruct (Nat.eq_dec k mid) as [->|]; [congruence|].
    eapply comparePositions_trans; [|exact Hle]. eapply (in_order_lookup _ k mid); eauto. lia.
  - apply IH; [lia..|done|]. intros k i Hk Hkm Hst. unfold stays_before in Hst.
    destruct (Nat.eq_dec k mid) as [->|]; [simplify_eq; lia|].
    assert (pos_le x i) by (eapply (in_order_lookup _ mid k); eauto; lia).
    enough (comparePositions (item_position x) p <= 0)%Z by lia. eapply comparePositions_trans; eauto.
Qed.

Lemma itemsBefore_spec items p :
  in_order items ->
  (itemsBefore items p <= length items)%nat /\
  (forall k i, items !! k = Some i -> (k < itemsBefore items p)%nat <-> stays_before p i).
Proof.
  intros Hs. unfold itemsBefore.
  destruct (search_spec (S (length items)) items p 0 (length items)) as (H1 & H2 & H3); try done; try lia.
  { intros k i Hk%lookup_lt_Some ?. lia. }
  split; [done|]. intros k i Hk. split; [by apply H2|]. intros Hst.
  destruct (Nat.lt_ge_cases k (search (S (length items)) items p 0 (length items))) as [|Hge]; [done|].
  by destruct (H3 k i Hk Hge).
Qed.

(** The halving search finds the number of items that stay before. *)
Lemma itemsBefore_count items p :
  in_order items -> itemsBefore items p = length (filter (stays_before p) items).
Proof.
  intros Hs. destruct (itemsBefore_spec items p Hs) as [Hle Hiff].
  rewrite <- (take_drop (itemsBefore items p) items) at 2. rewrite filter_app, length_app.
  assert (filter (stays_before p) (take (itemsBefore items p) items) = take (itemsBefore items p) items) as ->.
  { apply filter_all, Forall_forall. intros i Hi. apply list_elem_of_lookup in Hi as [k Hk].
    apply lookup_take_Some in Hk as [Hk Hkn]. by apply (Hiff k i Hk). }
  assert (filter (stays_before p) (drop (itemsBefore items p) items) = []) as ->.
  { apply filter_none. intros i Hi Hst. apply list_elem_of_lookup in Hi as [k Hk].
    rewrite lookup_drop in Hk. apply (Hiff _ _ Hk) in Hst. lia. }
  rewrite length_take. simpl. lia.
Qed.

Lemma splice_perm {A} n (x : A) l : splice n x l ≡ₚ x :: l.
Proof. unfold splice. rewrite <- (take_drop n l) at 3. by rewrite Permutation_middle. Qed.

(** An item spliced in at its place keeps the order. *)
Lemma splice_in_order items x :
  in_order items -> in_order (splice (itemsBefore items (item_position x)) x items).
Proof.
  intros Hs. destruct (itemsBefore_spec items (item_position x) Hs) as [Hle Hiff].
  unfold splice, in_order in *. set (n := itemsBefore items (item_position x)) in *.
  rewrite <- (take_drop n items) in Hs. apply StronglySorted_app in Hs as (Hcross & Htake & Hdrop).
  apply StronglySorted_app. repeat split; [|done|].
  - intros i j Hi [->|Hj]%elem_of_cons; [|by apply Hcross]. apply list_elem_of_lookup in Hi as [k Hk].
    apply lookup_take_Some in Hk as [Hk Hkn]. by apply (Hiff k i Hk).
  - constructor; [done|]. apply Forall_forall. intros j Hj. apply list_elem_of_lookup in Hj as [k Hk].
    rewrite lookup_drop in Hk. unfold pos_le.
    destruct (comparePositions_total (item_position x) (item_position j)) as [|Hst]; [done|].
    apply (Hiff _ _ Hk) in Hst. lia.
Qed.

(** ** Well-formed turns *)

(** The items of a turn are distinct and name it. *)
Definition turn_ok (t : TurnModel) : Prop :=
  turn_id t <> "" /\ NoDup (itemIdentity <$> turn_items t) /\ Forall (fun i => item_turnId i = turn_id t) (turn_items t).

Definition turns_ok (turns : list TurnModel) : Prop := NoDup (turn_id <$> turns) /\ Forall turn_ok turns.

(** The merge's [byId]: keyed by the turns' own ids. *)
Definition map_ok (m : js_map TurnModel) : Prop :=
  map_wf m /\ Forall (fun kv => turn_id kv.2 = kv.1 /\ turn_ok kv.2) m.

Lemma map_ok_nil : map_ok [].
Proof. split; [apply NoDup_nil_2|constructor]. Qed.

Lemma map_ok_get m k t : map_ok m -> map_get k m = Some t -> turn_id t = k /\ turn_ok t.
Proof. intros [_ Hall] Hg%elem_of_map_get. rewrite Forall_forall in Hall. by apply (Hall (k, t)). Qed.

Lemma elem_of_map_put {A} (k : string) (v : A) m kv : kv ∈ map_put k v m -> kv = (k, v) \/ kv ∈ m.
Proof.
  induction m as [|[k' v'] m IH]; simpl; [rewrite list_elem_of_singleton; by left|].
  destruct (String.eqb_spec k k') as [->|]; rewrite !elem_of_cons; naive_solver.
Qed.

Lemma map_ok_put m t : map_ok m -> turn_ok t -> map_ok (map_put (turn_id t) t m).
Proof.
  intros [Hw Hall] Ht. split; [by apply map_put_wf|]. rewrite Forall_forall in Hall |- *.
  intros kv [->|Hkv]%elem_of_map_put; [done|auto].
Qed.


Lemma by_id_ok turns : Forall turn_ok turns -> map_ok (by_id turns).
Proof.
  unfold by_id. generalize map_ok_nil. generalize (@nil (string * TurnModel)).
  induction turns as [|t turns IH]; intros m Hm Hall; [done|]. apply Forall_cons in Hall as [Ht Hall].
  simpl. apply IH; [by apply map_ok_put|done].
Qed.

(** Distinct turns are found by their ids. *)
Lemma by_id_get turns k t :
  NoDup (turn_id <$> turns) -> map_get k (by_id turns) = Some t <-> t ∈ turns /\ turn_id t = k.
Proof.
  intros Hnd. unfold by_id.
  assert (Hgen : forall m, map_get k (foldl (fun m t => map_put (turn_id t) t m) m turns) = Some t <->
    t ∈ turns /\ turn_id t = k \/ k ∉ (turn_id <$> turns) /\ map_get k m = Some t).
  { induction turns as [|u turns IH]; intros m; simpl.
    - rewrite elem_of_nil. split; [right; split; [set_solver|done]|naive_solver].
    - apply NoDup_cons in Hnd as [Hu Hnd]. rewrite (IH Hnd), elem_of_cons, not_elem_of_cons.
      destruct (String.eqb_spec k (turn_id u)) as [->|Hne].
      + rewrite map_get_put. split.
        * intros [[Ht E]|[_ [= ->]]]; [|by left; split; [left|]].
          destruct Hu. rewrite <- E. by apply list_elem_of_fmap_2.
        * intros [[[->|Ht] E]|[[] ?]]; [by right|by left|done].
      + rewrite map_get_put_ne by done. split; [naive_solver|].
        intros [[[->|Ht] E]|[[? ?] ?]]; [congruence|by left|by right]. }
  rewrite Hgen. simpl. naive_solver.
Qed.

Lemma by_id_perm turns turns' k :
  NoDup (turn_id <$> turns) -> turns ≡ₚ turns' -> map_get k (by_id turns) = map_get k (by_id turns').
Proof.
  intros Hnd Hp. assert (Hnd' : NoDup (turn_id <$> turns')) by by rewrite <- Hp.
  apply option_eq. intros t. rewrite !by_id_get by done. by rewrite Hp.
Qed.

(** The turns of a [byId], in any order, are found as the map finds them. *)
Lemma map_turns_ok m : map_ok m -> turns_ok m.*2.
Proof.
  intros [Hw Hall]. split.
  - assert (E : turn_id <$> m.*2 = m.*1).
    { clear Hw. induction Hall as [|[k t] m [E _] _ IH]; [done|]. csimpl in *. by rewrite IH, E. }
    rewrite E. exact Hw.
  - apply Forall_forall. intros t ([k u] & -> & Hu)%list_elem_of_fmap.
    rewrite Forall_forall in Hall. by apply (Hall (k, u)).
Qed.

Lemma map_turns_get m k turns : map_ok m -> turns ≡ₚ m.*2 -> map_get k (by_id turns) = map_get k m.
Proof.
  intros Hm Hp. destruct (map_turns_ok m Hm) as [Hnd _].
  rewrite <- (by_id_perm m.*2 turns k Hnd ltac:(done)). apply option_eq. intros t. rewrite by_id_get by done. split.
  - intros [([k' u] & -> & Hu)%list_elem_of_fmap E]. destruct Hm as [Hw Hall].
    rewrite Forall_forall in Hall. destruct (Hall _ Hu) as [E' _]. simpl in *. subst. by apply map_get_elem_of.
  - intros Hg. destruct (map_ok_get m k t Hm Hg) as [E _]. split; [|done].
    apply elem_of_map_get in Hg. change t with (k, t).2. by apply list_elem_of_fmap_2.
Qed.

(** ** One item of one turn *)

Definition item_in (key : string) (t : TurnModel) : option ItemModel := snd <$> find_identity key (turn_items t).

(** What the turns hold of an item. *)
Definition held_item (m : js_map TurnModel) (turnId key : string) : option ItemModel := map_get turnId m ≫= item_in key.

Definition held (turns : list TurnModel) (turnId key : string) : option ItemModel := held_item (by_id turns) turnId key.

(** What one frame makes of it. *)
Definition take_frame (heldOnly : bool) (h : option ItemModel) (incoming : ItemModel) : option ItemModel :=
  match h with
  | None => if heldOnly then None else Some incoming
  | Some i =>
      if negb (supersedes (item_version i) (item_version incoming)) && negb (identity_upgrade i incoming) then Some i
      else Some (mergeReplacedItem (Some i) incoming)
  end.

Definition is_frame_of (turnId key : string) (i : ItemModel) : Prop := item_turnId i = turnId /\ itemIdentity i = key.
#[export] Instance is_frame_of_dec turnId key i : Decision (is_frame_of turnId key i).
Proof. unfold is_frame_of. apply _. Defined.

#[local] Arguments mergeReplacedItem : simpl never.

Lemma mergeReplaced_identity h i :
  itemIdentity (mergeReplacedItem (Some h) i) = itemIdentity i /\
  item_turnId (mergeReplacedItem (Some h) i) = item_turnId i /\
  item_version (mergeReplacedItem (Some h) i) = item_version i /\
  item_position (mergeReplacedItem (Some h) i) = item_position i.
Proof. unfold mergeReplacedItem, copyItemTextPresence. repeat case_match; done. Qed.

Lemma find_identity_spec key items n i :
  find_identity key items = Some (n, i) -> items !! n = Some i /\ itemIdentity i = key.
Proof. unfold find_identity. intros (? & ? & _)%list_find_Some. done. Qed.

Lemma find_identity_None key items : find_identity key items = None <-> key ∉ (itemIdentity <$> items).
Proof.
  unfold find_identity. rewrite list_find_None, Forall_forall, list_elem_of_fmap. naive_solver.
Qed.

(** The item of an identity is the one the turn holds. *)
Lemma item_in_Some t key i : NoDup (itemIdentity <$> turn_items t) ->
  item_in key t = Some i <-> i ∈ turn_items t /\ itemIdentity i = key.
Proof.
  intros Hnd. unfold item_in. split.
  - intros Hf. destruct (find_identity key (turn_items t)) as [[n j]|] eqn:E; simplify_eq/=.
    apply find_identity_spec in E as [Hn ?]. split; [by eapply list_elem_of_lookup_2|done].
  - intros [Hi Hk]. destruct (find_identity key (turn_items t)) as [[n j]|] eqn:E; simpl.
    + apply find_identity_spec in E as [Hn Hj]. apply list_elem_of_lookup in Hi as [k Hik]. f_equal.
      assert (n = k) as <-; [|congruence]. eapply NoDup_lookup; [exact Hnd|..]; rewrite list_lookup_fmap.
      * by rewrite Hn.
      * rewrite Hik. simpl. by rewrite Hj, Hk.
    + apply find_identity_None in E. destruct E. rewrite <- Hk. by apply list_elem_of_fmap_2.
Qed.

Lemma item_in_None t key : item_in key t = None <-> key ∉ (itemIdentity <$> turn_items t).
Proof. unfold item_in. rewrite <- find_identity_None. by destruct (find_identity key (turn_items t)). Qed.

(** Turns with the same items, up to order, hold the same. *)
Lemma item_in_perm t t' key :
  NoDup (itemIdentity <$> turn_items t) -> turn_items t ≡ₚ turn_items t' -> item_in key t = item_in key t'.
Proof.
  intros Hnd Hp. assert (Hnd' : NoDup (itemIdentity <$> turn_items t')) by by rewrite <- Hp.
  apply option_eq. intros i. rewrite !item_in_Some by done. by rewrite Hp.
Qed.

(** ** Frames, one at a time *)

Lemma turn_ok_items t items :
  turn_ok t -> NoDup (itemIdentity <$> items) -> Forall (fun i => item_turnId i = turn_id t) items ->
  turn_ok (with_items items t).
Proof. by intros (? & _ & _). Qed.

Lemma opened_ok id : id <> "" -> turn_ok (opened_turn id).
Proof. intros H. split; [done|]. split; [apply NoDup_nil_2|constructor]. Qed.

Lemma splice_ok t n inc :
  turn_ok t -> item_turnId inc = turn_id t -> itemIdentity inc ∉ (itemIdentity <$> turn_items t) ->
  turn_ok (with_items (splice n inc (turn_items t)) t).
Proof.
  intros Ht Htid Hni. destruct Ht as (Hne & Hnd & Hall). apply turn_ok_items; [done|..].
  - rewrite splice_perm. by constructor.
  - rewrite splice_perm. by constructor.
Qed.

Lemma insert_identities (items : list ItemModel) (n : nat) h x :
  items !! n = Some h -> itemIdentity x = itemIdentity h -> itemIdentity <$> <[n := x]> items = itemIdentity <$> items.
Proof.
  intros Hn E. rewrite list_fmap_insert. apply list_insert_id. by rewrite list_lookup_fmap, Hn, E.
Qed.

Lemma replace_ok t n h x :
  turn_ok t -> turn_items t !! n = Some h -> itemIdentity x = itemIdentity h -> item_turnId x = turn_id t ->
  turn_ok (with_items (<[n := x]> (turn_items t)) t).
Proof.
  intros (Hne & Hnd & Hall) Hn E Htid. apply turn_ok_items; [done|..].
  - by rewrite (insert_identities _ _ h).
  - by apply Forall_insert.
Qed.

Lemma item_in_splice t n inc key :
  turn_ok t -> itemIdentity inc ∉ (itemIdentity <$> turn_items t) -> item_turnId inc = turn_id t ->
  item_in key (with_items (splice n inc (turn_items t)) t) =
  if decide (itemIdentity inc = key) then Some inc else item_in key t.
Proof.
  intros Ht Hni Htid. pose proof (splice_ok t n inc Ht Htid Hni) as (_ & Hnd & _). destruct Ht as (_ & Hnd' & _).
  apply option_eq. intros i. rewrite item_in_Some by done. simpl. rewrite splice_perm, elem_of_cons.
  case_decide as Hk.
  - split; [|intros [= ->]; by split; [left|]]. intros [[->|Hi] E]; [done|]. destruct Hni. rewrite Hk, <- E. by apply list_elem_of_fmap_2.
  - rewrite item_in_Some by done. naive_solver.
Qed.

Lemma item_in_insert t n h x key :
  turn_ok t -> turn_items t !! n = Some h -> itemIdentity x = itemIdentity h -> item_turnId x = turn_id t ->
  item_in key (with_items (<[n := x]> (turn_items t)) t) = if decide (itemIdentity h = key) then Some x else item_in key t.
Proof.
  intros Ht Hn E Htid. pose proof (replace_ok t n h x Ht Hn E Htid) as (_ & Hnd & _). destruct Ht as (_ & Hnd' & _).
  assert (Hlen : (n < length (turn_items t))%nat) by (by eapply lookup_lt_Some).
  apply option_eq. intros i. rewrite item_in_Some by done. simpl. case_decide as Hk.
  - split.
    + intros [Hi Ei]. f_equal. apply list_elem_of_lookup in Hi as [k Hik].
      assert (n = k) as ->; [|rewrite list_lookup_insert_eq in Hik by done; congruence].
      eapply NoDup_lookup; [exact Hnd|..]; simpl; rewrite list_lookup_fmap.
      * by rewrite list_lookup_insert_eq.
      * rewrite Hik. simpl. congruence.
    + intros [= <-]. split; [|congruence]. apply list_elem_of_lookup. exists n. by rewrite list_lookup_insert_eq.
  - rewrite item_in_Some by done. split.
    + intros [Hi Ei]. split; [|done]. apply list_elem_of_lookup in Hi as [k Hik]. destruct (decide (n = k)) as [->|].
      * rewrite list_lookup_insert_eq in Hik by done. congruence.
      * rewrite list_lookup_insert_ne in Hik by done. by eapply list_elem_of_lookup_2.
    + intros [Hi Ei]. split; [|done]. apply list_elem_of_lookup in Hi as [k Hik]. apply list_elem_of_lookup. exists k.
      rewrite list_lookup_insert_ne; [done|]. intros <-. congruence.
Qed.

(** The turn an item's frame joins. *)
Lemma joined_turn m inc : map_ok m -> item_turnId inc <> "" ->
  let t := default (opened_turn (item_turnId inc)) (map_get (item_turnId inc) m) in
  turn_ok t /\ turn_id t = item_turnId inc /\ (forall key, item_in key t = held_item m (item_turnId inc) key).
Proof.
  intros Hm Hne. unfold held_item. destruct (map_get (item_turnId inc) m) as [t|] eqn:E; simpl.
  - apply (map_ok_get m _ _ Hm) in E as [E Ht]. by split.
  - split; [by apply opened_ok|]. done.
Qed.

Lemma merge_item_ok ho s inc : map_ok s.1 -> map_ok (merge_item ho s inc).1.
Proof.
  intros Hm. unfold merge_item. destruct (String.eqb_spec (item_turnId inc) "") as [|Hne]; [done|].
  destruct (joined_turn s.1 inc Hm Hne) as (Ht & Hid & _). cbv zeta in *.
  destruct (absent (map_get (item_turnId inc) s.1) && ho); [done|]. set (t := default _ _) in *.
  destruct (find_identity (itemIdentity inc) (turn_items t)) as [[n h]|] eqn:Ef.
  - destruct (_ && _); [done|]. apply find_identity_spec in Ef as [Hn Hi].
    destruct (mergeReplaced_identity h inc) as (E1 & E2 & _). cbn [fst]. apply (map_ok_put s.1 (with_items _ t)); [done|].
    apply (replace_ok t n h); congruence.
  - destruct ho; [done|]. cbn [fst]. apply (map_ok_put s.1 (with_items _ t)); [done|]. apply find_identity_None in Ef. by apply splice_ok.
Qed.

Lemma merge_item_held ho s inc tid key : map_ok s.1 ->
  held_item (merge_item ho s inc).1 tid key =
  if decide (is_frame_of tid key inc /\ tid <> "") then take_frame ho (held_item s.1 tid key) inc else held_item s.1 tid key.
Proof.
  intros Hm. unfold merge_item. destruct (String.eqb_spec (item_turnId inc) "") as [He|Hne].
  { rewrite decide_False; [done|]. intros [[E _] ?]. congruence. }
  destruct (joined_turn s.1 inc Hm Hne) as (Ht & Hid & Hin). cbv zeta in *.
  set (t := default _ _) in *. destruct (decide (item_turnId inc = tid)) as [Etid|Hntid].
  2: { rewrite decide_False by (intros [[? _] _]; done). repeat case_match; try done; unfold held_item; simpl;
       by rewrite map_get_put_ne by congruence. }
  destruct (absent (map_get (item_turnId inc) s.1) && ho) eqn:Eab.
  { apply andb_prop in Eab as [Eab ->]. unfold held_item. rewrite <- Etid.
    destruct (map_get (item_turnId inc) s.1); [done|]. simpl. by case_decide. }
  rewrite <- Etid in *. specialize (Hin key) as Hk. unfold is_frame_of.
  destruct (find_identity (itemIdentity inc) (turn_items t)) as [[n h]|] eqn:Ef.
  - pose proof (find_identity_spec _ _ _ _ Ef) as [Hn Hi].
    assert (Hheld : item_in (itemIdentity inc) t = Some h) by (unfold item_in; by rewrite Ef).
    destruct (negb (supersedes (item_version h) (item_version inc)) && negb (identity_upgrade h inc)) eqn:Esup.
    + case_decide as Hd; [|done]. destruct Hd as [[_ Ek] _]. rewrite <- Hk, <- Ek, Hheld. simpl. by rewrite Esup.
    + unfold held_item at 1. simpl. rewrite Hid, map_get_put. simpl.
      destruct (mergeReplaced_identity h inc) as (E1 & E2 & _).
      rewrite (item_in_insert t n h) by (done || congruence). rewrite Hk.
      destruct (decide (itemIdentity h = key)) as [E|E].
      * rewrite decide_True by naive_solver congruence. rewrite <- Hk, <- E, Hi, Hheld. simpl. by rewrite Esup.
      * rewrite decide_False; [done|]. intros [[_ ?] _]. congruence.
  - pose proof Ef as Hni. apply find_identity_None in Hni.
    assert (Hheld : item_in (itemIdentity inc) t = None) by by apply item_in_None.
    destruct ho.
    + case_decide as Hd; [|done]. destruct Hd as [[_ Ek] _]. by rewrite <- Hk, <- Ek, Hheld.
    + unfold held_item at 1. simpl. rewrite Hid, map_get_put. simpl. rewrite item_in_splice by done. rewrite Hk.
      destruct (decide (itemIdentity inc = key)) as [E|E].
      * rewrite decide_True by naive_solver congruence. by rewrite <- Hk, <- E, Hheld.
      * rewrite decide_False; [done|]. intros [[_ ?] _]. congruence.
Qed.

(** ** Turn scalars *)

(** What the turns hold of a turn beyond its items. *)
Definition held_scalars (m : js_map TurnModel) (turnId : string) : option TurnModel := with_items [] <$> map_get turnId m.

Definition take_scalars (heldOnly : bool) (h : option TurnModel) (incoming : TurnModel) : option TurnModel :=
  match h with
  | None => if heldOnly then None else Some (with_items [] incoming)
  | Some t => if supersedes (turn_version t) (turn_version incoming) then Some (with_items [] incoming) else Some t
  end.

(** An item opens the turn it names. *)
Definition open_scalars (heldOnly : bool) (h : option TurnModel) (incoming : ItemModel) : option TurnModel :=
  match h with None => if heldOnly then None else Some (opened_turn (item_turnId incoming)) | Some t => Some t end.

Lemma merge_turn_ok ho s inc : map_ok s.1 -> map_ok (merge_turn ho s inc).1.
Proof.
  intros Hm. unfold merge_turn. destruct (String.eqb_spec (turn_id inc) "") as [|Hne]; [done|].
  destruct (map_get (turn_id inc) s.1) as [t|] eqn:E.
  - destruct (map_ok_get _ _ _ Hm E) as [Eid (? & Hnd & Hall)]. case_match; [|done]. cbn [fst].
    apply (map_ok_put s.1 (with_items (turn_items t) inc)); [done|]. split; [done|]. split; [done|]. simpl. by rewrite <- Eid.
  - destruct ho; [done|]. apply (map_ok_put s.1 (with_items [] inc)); [done|]. split; [done|]. split; [apply NoDup_nil_2|constructor].
Qed.

Lemma merge_turn_held ho s inc tid key : map_ok s.1 ->
  held_item (merge_turn ho s inc).1 tid key = held_item s.1 tid key.
Proof.
  intros Hm. unfold merge_turn. case_match; [done|]. unfold held_item.
  destruct (String.eqb_spec (turn_id inc) tid) as [<-|Hne].
  - destruct (map_get (turn_id inc) s.1) as [t|] eqn:E; simpl.
    + case_match; simpl; [by rewrite map_get_put|by rewrite E].
    + destruct ho; simpl; [by rewrite E|by rewrite map_get_put].
  - repeat case_match; simpl; try done; by rewrite map_get_put_ne by congruence.
Qed.

Lemma merge_turn_scalars ho s inc tid :
  held_scalars (merge_turn ho s inc).1 tid =
  if decide (turn_id inc = tid /\ tid <> "") then take_scalars ho (held_scalars s.1 tid) inc else held_scalars s.1 tid.
Proof.
  unfold merge_turn. destruct (String.eqb_spec (turn_id inc) "") as [He|Hne].
  { rewrite decide_False; [done|]. intros [<- ?]. congruence. }
  unfold held_scalars. destruct (decide (turn_id inc = tid)) as [<-|Hn].
  - rewrite decide_True by done. destruct (map_get (turn_id inc) s.1) as [t|] eqn:E; simpl.
    + case_match; simpl; [by rewrite map_get_put|by rewrite E].
    + destruct ho; simpl; [by rewrite E|by rewrite map_get_put].
  - rewrite decide_False by (intros [? _]; done). repeat case_match; simpl; try done; by rewrite map_get_put_ne by congruence.
Qed.

Lemma merge_item_scalars ho s inc tid : map_ok s.1 ->
  held_scalars (merge_item ho s inc).1 tid =
  if decide (item_turnId inc = tid /\ tid <> "" /\ held_scalars s.1 tid = None)
  then open_scalars ho (held_scalars s.1 tid) inc else held_scalars s.1 tid.
Proof.
  intros Hm. unfold merge_item. destruct (String.eqb_spec (item_turnId inc) "") as [He|Hne].
  { rewrite decide_False; [done|]. intros (<- & ? & _). congruence. }
  destruct (joined_turn s.1 inc Hm Hne) as (_ & Hid & _). cbv zeta in *. unfold held_scalars.
  destruct (decide (item_turnId inc = tid)) as [<-|Hn].
  2: { rewrite decide_False by (intros [? _]; done). repeat case_match; simpl; try done; by rewrite map_get_put_ne by congruence. }
  destruct (map_get (item_turnId inc) s.1) as [t|] eqn:E; simpl in *.
  - rewrite decide_False by (intros (_ & _ & ?); done).
    repeat case_match; simpl; try (by rewrite E); rewrite Hid, map_get_put; by destruct t.
  - rewrite decide_True by done. destruct ho; simpl; [by rewrite E|]. by rewrite map_get_put.
Qed.

(** ** Whole fragments *)

Lemma merge_turns_ok ho l s : map_ok s.1 -> map_ok (foldl (merge_turn ho) s l).1.
Proof. revert s. induction l as [|t l IH]; intros s Hs; [done|]. simpl. by apply IH, merge_turn_ok. Qed.

Lemma merge_items_ok ho l s : map_ok s.1 -> map_ok (foldl (merge_item ho) s l).1.
Proof. revert s. induction l as [|t l IH]; intros s Hs; [done|]. simpl. by apply IH, merge_item_ok. Qed.

Lemma merged_ok turns f ho : Forall turn_ok turns -> map_ok (merged turns f ho).1.
Proof. intros Ht. unfold merged. apply merge_items_ok, merge_turns_ok. by apply by_id_ok. Qed.

Lemma merge_turns_held ho l s tid key : map_ok s.1 ->
  held_item (foldl (merge_turn ho) s l).1 tid key = held_item s.1 tid key.
Proof.
  revert s. induction l as [|t l IH]; intros s Hs; [done|]. simpl.
  rewrite IH by by apply merge_turn_ok. by apply merge_turn_held.
Qed.

Lemma merge_items_held ho l s tid key : map_ok s.1 -> tid <> "" ->
  held_item (foldl (merge_item ho) s l).1 tid key =
  foldl (take_frame ho) (held_item s.1 tid key) (filter (is_frame_of tid key) l).
Proof.
  intros Hs Hne. revert s Hs. induction l as [|i l IH]; intros s Hs; [done|]. simpl.
  rewrite IH by by apply merge_item_ok. rewrite merge_item_held, filter_cons by done.
  destruct (decide (is_frame_of tid key i)) as [Hf|Hf].
  - by rewrite decide_True.
  - rewrite decide_False; [done|]. by intros [? _].
Qed.

Lemma held_blank m key : map_ok m -> held_item m "" key = None.
Proof.
  intros Hm. unfold held_item. destruct (map_get "" m) as [t|] eqn:E; [|done].
  destruct (map_ok_get _ _ _ Hm E) as [Eid (Hne & _)]. congruence.
Qed.

(** Sorting the merged turns changes nothing of what they hold. *)
Lemma sorted_turns_get m : map_ok m ->
  let turns := sort_with compare_turns m.*2 in
  turns_ok turns /\ (forall tid, map_get tid (by_id turns) = map_get tid m).
Proof.
  intros Hm. pose proof (sort_with_perm compare_turns m.*2) as Hp. cbv zeta. split.
  - destruct (map_turns_ok m Hm) as [Hnd Hall]. split; [by rewrite Hp|]. by rewrite Hp.
  - intros tid. by apply map_turns_get.
Qed.

(** A merge that changes nothing leaves the map as it was. *)
Lemma merge_turn_unchanged ho s inc : (merge_turn ho s inc).2 = false -> merge_turn ho s inc = s.
Proof. unfold merge_turn. repeat case_match; done. Qed.

Lemma merge_item_unchanged ho s inc : (merge_item ho s inc).2 = false -> merge_item ho s inc = s.
Proof. unfold merge_item. cbv zeta. repeat case_match; done. Qed.

Lemma fold_unchanged {A B} (f : A * bool -> B -> A * bool) l s :
  (forall s x, (f s x).2 = false -> f s x = s) -> (foldl f s l).2 = false -> foldl f s l = s.
Proof.
  intros Hf. revert s. induction l as [|x l IH]; intros s; [done|]. simpl. intros H2.
  pose proof (IH _ H2) as E. rewrite E in H2 |- *. by apply Hf.
Qed.

Lemma merged_unchanged turns f ho : (merged turns f ho).2 = false -> (merged turns f ho).1 = by_id turns.
Proof.
  unfold merged. intros H. pose proof (fold_unchanged _ _ _ (merge_item_unchanged ho) H) as E. rewrite E in H |- *.
  by rewrite (fold_unchanged _ _ _ (merge_turn_unchanged ho) H).
Qed.

(** ** Reading order *)

(** Every item sits where its identity says, and the items of a turn follow one another. *)
Definition at_home (pos : string -> option ThreadItemPosition) (i : ItemModel) : Prop :=
  item_position i = pos (itemIdentity i).

Definition ordered (pos : string -> option ThreadItemPosition) (t : TurnModel) : Prop :=
  Forall (at_home pos) (turn_items t) /\ in_order (turn_items t).

Lemma in_order_positions items :
  in_order items <-> StronglySorted (fun p q => comparePositions p q <= 0)%Z (item_position <$> items).
Proof.
  unfold in_order. induction items as [|i items IH]; csimpl; [split; constructor|]. split.
  - intros [Hs Hall]%StronglySorted_inv. constructor; [by apply IH|]. apply Forall_fmap. exact Hall.
  - intros Hl. apply StronglySorted_inv in Hl as [Hs Hall]. constructor; [by apply IH|].
    apply Forall_forall. intros j Hj. apply (proj1 (Forall_forall _ _) Hall). by apply list_elem_of_fmap_2.
Qed.

Lemma insert_in_order (items : list ItemModel) (n : nat) h x :
  items !! n = Some h -> item_position x = item_position h -> in_order items -> in_order (<[n := x]> items).
Proof.
  rewrite !in_order_positions, list_fmap_insert. intros Hn ->. rewrite list_insert_id; [done|].
  by rewrite list_lookup_fmap, Hn.
Qed.

Definition all_turns (P : TurnModel -> Prop) (m : js_map TurnModel) : Prop := forall k t, map_get k m = Some t -> P t.

Lemma all_turns_put P m t : map_ok m -> turn_ok t -> all_turns P m -> P t -> all_turns P (map_put (turn_id t) t m).
Proof.
  intros Hm Ht Hall HP k u Hg. destruct (String.eqb_spec k (turn_id t)) as [->|Hne].
  - rewrite map_get_put in Hg. by simplify_eq.
  - rewrite map_get_put_ne in Hg by done. by apply (Hall k).
Qed.

Lemma ordered_nil pos id : ordered pos (opened_turn id).
Proof. split; constructor. Qed.

Lemma merge_turn_ordered pos ho s inc : all_turns (ordered pos) s.1 -> all_turns (ordered pos) (merge_turn ho s inc).1.
Proof.
  intros Hall. unfold merge_turn. case_match; [done|]. destruct (map_get (turn_id inc) s.1) as [t|] eqn:E.
  - case_match; [|done]. cbn [fst]. intros k u Hg. destruct (String.eqb_spec k (turn_id inc)) as [->|Hne].
    + rewrite map_get_put in Hg. simplify_eq. exact (Hall _ _ E).
    + rewrite map_get_put_ne in Hg by done. by apply (Hall k).
  - destruct ho; [done|]. cbn [fst]. intros k u Hg. destruct (String.eqb_spec k (turn_id inc)) as [->|Hne].
    + rewrite map_get_put in Hg. simplify_eq. split; constructor.
    + rewrite map_get_put_ne in Hg by done. by apply (Hall k).
Qed.

Lemma merge_item_ordered pos ho s inc :
  map_ok s.1 -> at_home pos inc -> all_turns (ordered pos) s.1 -> all_turns (ordered pos) (merge_item ho s inc).1.
Proof.
  intros Hm Hhome Hall. unfold merge_item. destruct (String.eqb_spec (item_turnId inc) "") as [|Hne]; [done|].
  destruct (joined_turn s.1 inc Hm Hne) as (Ht & Hid & _). cbv zeta in *.
  destruct (absent (map_get (item_turnId inc) s.1) && ho); [done|].
  assert (Ho : ordered pos (default (opened_turn (item_turnId inc)) (map_get (item_turnId inc) s.1))).
  { destruct (map_get (item_turnId inc) s.1) eqn:E; simpl; [by apply (Hall _ _ E)|apply ordered_nil]. }
  set (t := default _ _) in *. destruct Ho as [Hhomes Hord].
  assert (Hput : forall u, turn_id u = turn_id t -> ordered pos u -> all_turns (ordered pos) (map_put (turn_id t) u s.1)).
  { intros u Eu Hu k v Hg. destruct (String.eqb_spec k (turn_id t)) as [->|Hnk].
    - rewrite map_get_put in Hg. by simplify_eq.
    - rewrite map_get_put_ne in Hg by done. by apply (Hall k). }
  destruct (find_identity (itemIdentity inc) (turn_items t)) as [[n h]|] eqn:Ef.
  - destruct (_ && _); [done|]. apply find_identity_spec in Ef as [Hn Hi].
    destruct (mergeReplaced_identity h inc) as (E1 & _ & _ & E4). cbn [fst]. apply Hput; [done|]. split; simpl.
    + apply Forall_insert; [done|]. unfold at_home in *. by rewrite E1, E4.
    + apply (insert_in_order _ n h); [done| |done]. rewrite E4. rewrite Forall_forall in Hhomes.
      rewrite (Hhomes h) by (by eapply list_elem_of_lookup_2). by rewrite Hhome, Hi.
  - destruct ho; [done|]. cbn [fst]. apply Hput; [done|]. split; simpl.
    + rewrite splice_perm. by constructor.
    + by apply splice_in_order.
Qed.

Lemma merged_ordered pos turns f ho :
  turns_ok turns -> Forall (ordered pos) turns -> Forall (at_home pos) (fragment_items f) ->
  all_turns (ordered pos) (merged turns f ho).1.
Proof.
  intros Hok Hall Hf. unfold merged.
  assert (Hb : all_turns (ordered pos) (by_id turns)).
  { intros k t Hg. apply by_id_get in Hg as [Ht _]; [|apply Hok]. rewrite Forall_forall in Hall. auto. }
  assert (H1 : all_turns (ordered pos) (foldl (merge_turn ho) (by_id turns, false) (fragment_turns f)).1).
  { clear Hf. revert Hb. change (by_id turns) with (by_id turns, false).1 at 1. generalize (by_id turns, false).
    induction (fragment_turns f) as [|t l IH]; intros s Hs; [done|]. simpl. by apply IH, merge_turn_ordered. }
  assert (H2 : map_ok (foldl (merge_turn ho) (by_id turns, false) (fragment_turns f)).1) by by apply merge_turns_ok, by_id_ok, Hok.
  revert H1 H2. generalize (foldl (merge_turn ho) (by_id turns, false) (fragment_turns f)).
  induction Hf as [|i l Hi _ IH]; intros s H1 H2; [done|]. simpl.
  apply IH; [by apply merge_item_ordered|by apply merge_item_ok].
Qed.
