(* ===== verification/ThreadModel.v ===== *)
(** The thread model a client renders (appwire-client/typescript/model.ts), with the
    setters its folds use, the older-history frontier (olderFrontier.ts) and the fields
    a read sets (threadFields of transcriptItems.ts).

    The properties of ThreadModel are grouped by the frames that write them; payloads
    no modelled code looks into are JSON values. *)

From S2P Require Import Prelude JsString Json JsMap BootGeneration TranscriptItems TranscriptHistory TranscriptOverlay.

Local Open Scope string_scope.
Local Open Scope evener_scope.

(** ** Data *)

Inductive OlderFrontier := frontier_unknown | frontier_none | frontier_cursor (cursor : string).

Record ThreadStatus := mkStatus { status_type : string; status_activeFlags : option (list string) }.

Inductive CapabilitySource := from_read | from_statusFrame | from_none.

(** What thread/status/changed restamps. *)
Record StatusFields := mkStatusFields {
  st_status : ThreadStatus;
  st_activeTurnStartedAt : option string;
  st_failedToolCalls : option Z;
  st_askPending : bool;
  st_capabilities : json;
  st_capabilitySource : option CapabilitySource
}.

(** What thread/model/changed and its neighbours restamp. *)
Record ModelFields := mkModelFields {
  md_modelProvider : string;
  md_model : string;
  md_reasoningEffortLevels : list string;
  md_supportsReasoning : bool;
  md_reasoningEffort : option string;
  md_visionModel : string
}.

Record JobFields := mkJobFields {
  jb_delegates : option (list json_object);
  jb_jobsUpdatedAt : option Z;
  jb_jobsTreeRevision : option Z
}.

Record TaskAggregate := mkTasks {
  task_total : Z; task_done : Z; task_cancelled : option Z; task_remaining : option Z; task_current : option json }.

Record NoteFields := mkNoteFields {
  nt_name : string;
  nt_goal : option json;
  nt_humanNote : string;
  nt_agentNote : string;
  nt_sessionUrls : list json;
  nt_queue : option json;
  nt_tasks : option TaskAggregate
}.

Record SandboxEscalationRequested := mkEscalation {
  esc_threadId : string; esc_ref : string; escalationId : string; esc_rest : json_object }.

Record ModelRetryState := mkRetry {
  rt_attempt : Z; rt_maxAttempts : Z; rt_delayMs : Z; rt_errorClass : option string; rt_statusCode : option Z;
  rt_turnId : option string; rt_model : option string; rt_groupElapsedMs : Z; rt_attemptCap : Z; rt_receivedAt : Z }.

(** Facts only a read sets, kept where a read may leave them out. *)
Record KeptFacts := mkKeptFacts {
  fact_parentRef : option string;
  fact_instanceId : option string;
  fact_diagnostics : option json;
  fact_access : option json
}.

(** Facts only a read sets, all of them at once. *)
Record ReadFacts := mkReadFacts {
  fact_resumeRequired : bool;
  fact_resumeOnlyFoldable : bool;
  fact_artifactsDir : option string;
  fact_scratchDir : option string;
  fact_manager : bool;
  fact_pendingMutations : list json;
  fact_skills : list json;
  fact_turnSlots : option json;
  fact_contextUsed : Z;
  fact_contextWindow : Z;
  fact_contextPressure : json;
  fact_contextAssumed : bool;
  fact_usage : option json;
  fact_cost : option string;
  fact_workMillis : Z;
  fact_lastTurnEndedAt : option string;
  fact_cwd : string;
  fact_gitBranch : option string;
  fact_projectPath : option string;
  fact_createdAt : option string;
  fact_updatedAt : option string
}.

(** A thread as the client holds it; [th_turns] is its display, each turn with its entry
    in [displayTurnSources]. *)
Record ThreadModel := mkThread {
  th_ref : string;
  th_threadId : string;
  th_imageSessionId : option string;
  th_turns : list DisplayTurn;
  th_history : option HistoryState;
  th_overlay : option Overlay;
  th_runningTurnId : option string;
  th_activeTurnId : option string;
  th_olderCursor : option string;
  th_olderFrontier : option OlderFrontier;
  th_lastFrameAt : Z;
  th_modelRetry : option ModelRetryState;
  th_pendingEscalations : list SandboxEscalationRequested;
  th_status : StatusFields;
  th_model : ModelFields;
  th_jobs : JobFields;
  th_notes : NoteFields;
  th_kept : KeptFacts;
  th_facts : ReadFacts
}.

(** ** Setters *)

(** The transcript of a model: its display, history and overlay. *)
Definition set_transcript (turns : list DisplayTurn) (history : option HistoryState) (overlay : option Overlay)
    (m : ThreadModel) : ThreadModel :=
  mkThread (th_ref m) (th_threadId m) (th_imageSessionId m) turns history overlay (th_runningTurnId m)
    (th_activeTurnId m) (th_olderCursor m) (th_olderFrontier m) (th_lastFrameAt m) (th_modelRetry m)
    (th_pendingEscalations m) (th_status m) (th_model m) (th_jobs m) (th_notes m) (th_kept m) (th_facts m).

(** [{...model, history}]. *)
Definition set_history (history : HistoryState) (m : ThreadModel) : ThreadModel :=
  set_transcript (th_turns m) (Some history) (th_overlay m) m.

Definition set_turns (turns : list DisplayTurn) (m : ThreadModel) : ThreadModel :=
  set_transcript turns (th_history m) (th_overlay m) m.

(** [{...model, lastFrameAt: now}]. *)
Definition touch (now : Z) (m : ThreadModel) : ThreadModel :=
  mkThread (th_ref m) (th_threadId m) (th_imageSessionId m) (th_turns m) (th_history m) (th_overlay m)
    (th_runningTurnId m) (th_activeTurnId m) (th_olderCursor m) (th_olderFrontier m) now (th_modelRetry m)
    (th_pendingEscalations m) (th_status m) (th_model m) (th_jobs m) (th_notes m) (th_kept m) (th_facts m).

Definition set_frontier (cursor : option string) (frontier : option OlderFrontier) (m : ThreadModel) : ThreadModel :=
  mkThread (th_ref m) (th_threadId m) (th_imageSessionId m) (th_turns m) (th_history m) (th_overlay m)
    (th_runningTurnId m) (th_activeTurnId m) cursor frontier (th_lastFrameAt m) (th_modelRetry m)
    (th_pendingEscalations m) (th_status m) (th_model m) (th_jobs m) (th_notes m) (th_kept m) (th_facts m).

Definition set_running (runningTurnId : option string) (m : ThreadModel) : ThreadModel :=
  mkThread (th_ref m) (th_threadId m) (th_imageSessionId m) (th_turns m) (th_history m) (th_overlay m)
    runningTurnId (th_activeTurnId m) (th_olderCursor m) (th_olderFrontier m) (th_lastFrameAt m) (th_modelRetry m)
    (th_pendingEscalations m) (th_status m) (th_model m) (th_jobs m) (th_notes m) (th_kept m) (th_facts m).

Definition set_modelRetry (retry : option ModelRetryState) (m : ThreadModel) : ThreadModel :=
  mkThread (th_ref m) (th_threadId m) (th_imageSessionId m) (th_turns m) (th_history m) (th_overlay m)
    (th_runningTurnId m) (th_activeTurnId m) (th_olderCursor m) (th_olderFrontier m) (th_lastFrameAt m) retry
    (th_pendingEscalations m) (th_status m) (th_model m) (th_jobs m) (th_notes m) (th_kept m) (th_facts m).

Definition set_escalations (escalations : list SandboxEscalationRequested) (m : ThreadModel) : ThreadModel :=
  mkThread (th_ref m) (th_threadId m) (th_imageSessionId m) (th_turns m) (th_history m) (th_overlay m)
    (th_runningTurnId m) (th_activeTurnId m) (th_olderCursor m) (th_olderFrontier m) (th_lastFrameAt m) (th_modelRetry m)
    escalations (th_status m) (th_model m) (th_jobs m) (th_notes m) (th_kept m) (th_facts m).

(** The groups of scalars, all four at once. *)
Definition set_scalars (st : StatusFields) (md : ModelFields) (jb : JobFields) (nt : NoteFields) (m : ThreadModel) :
    ThreadModel :=
  mkThread (th_ref m) (th_threadId m) (th_imageSessionId m) (th_turns m) (th_history m) (th_overlay m)
    (th_runningTurnId m) (th_activeTurnId m) (th_olderCursor m) (th_olderFrontier m) (th_lastFrameAt m) (th_modelRetry m)
    (th_pendingEscalations m) st md jb nt (th_kept m) (th_facts m).

Definition set_status (st : StatusFields) (m : ThreadModel) := set_scalars st (th_model m) (th_jobs m) (th_notes m) m.
Definition set_model (md : ModelFields) (m : ThreadModel) := set_scalars (th_status m) md (th_jobs m) (th_notes m) m.
Definition set_jobs (jb : JobFields) (m : ThreadModel) := set_scalars (th_status m) (th_model m) jb (th_notes m) m.
Definition set_notes (nt : NoteFields) (m : ThreadModel) := set_scalars (th_status m) (th_model m) (th_jobs m) nt m.

(** ** The older frontier *)

Definition frontierFromCursor (olderCursor : option string) : OlderFrontier :=
  match olderCursor with Some c => frontier_cursor c | None => frontier_none end.

Definition olderFrontierOf (m : ThreadModel) : OlderFrontier := default frontier_unknown (th_olderFrontier m).

Definition olderHistoryExhausted (m : ThreadModel) : bool :=
  absent (th_olderCursor m) && match olderFrontierOf m with frontier_none => true | _ => false end.

Definition withOlderFrontier (m : ThreadModel) (cursor : option string) : ThreadModel :=
  set_frontier cursor (Some (frontierFromCursor cursor)) m.

Definition modelImageSessionRoute (m : ThreadModel) : option string :=
  imageSessionRouteForSession (default (th_threadId m) (th_imageSessionId m)).

(** ** A read's fields *)

Record EvenerDiagnostics := mkDiagnostics {
  diag_commands : option json; diag_plugins : option (list json_object); diag_delegates : option (list json_object);
  diag_skills : option (list json); diag_turnSlots : option json }.

(** The properties of Thread and EvenerThread that a read looks at. *)
Record EvenerThread := mkEvener {
  ev_parentRef : option string; ev_instanceId : option string; ev_resumeRequired : option bool;
  ev_resumeOnlyFoldable : option bool; ev_artifactsDir : option string; ev_scratchDir : option string;
  ev_reasoningEffort : option string; ev_visionModel : option string; ev_manager : option bool;
  ev_askPending : option bool; ev_pendingEscalations : option (list SandboxEscalationRequested);
  ev_activeTurnId : option string; ev_queue : json; ev_pendingMutations : option (list json);
  ev_tasks : option TaskAggregate; ev_diagnostics : option EvenerDiagnostics; ev_capabilities : json;
  ev_goal : option json; ev_humanNote : option string; ev_agentNote : option string;
  ev_sessionUrls : option (list json); ev_contextUsed : option Z; ev_contextWindow : option Z;
  ev_contextPressure : option json; ev_contextAssumed : option bool; ev_usage : option json;
  ev_cost : option string; ev_failedToolCalls : option Z; ev_access : option json; ev_workMillis : option Z;
  ev_activeTurnStartedAt : option Z; ev_lastTurnEndedAt : option Z;
  ev_reasoningEffortLevels : option (list string); ev_supportsReasoning : option bool
}.

Record Thread := mkWireThread {
  wt_id : string; wt_sessionId : string; wt_projectPath : option string; wt_modelProvider : string;
  wt_createdAt : Z; wt_updatedAt : Z; wt_status : ThreadStatus; wt_cwd : string; wt_gitBranch : option string;
  wt_name : option string; wt_turns : option (list Turn); wt_evener : EvenerThread }.

Record HistoryChanges := mkChanges { changes_turns : option (list Turn); changes_items : option (list ThreadItem) }.

Record ThreadReadResponse := mkResponse {
  resp_thread : Thread;
  resp_olderCursor : option string;
  resp_requestGeneration : option Z;
  resp_bootGeneration : option string;
  resp_epoch : option Z;
  resp_snapshot : option SnapshotIdentity;
  resp_overlay : option (list OverlayItem);
  resp_authoritative : bool;
  resp_changes : option HistoryChanges
}.

Definition resp_identity (r : ThreadReadResponse) : ReadIdentity :=
  readIdentity (resp_bootGeneration r) (resp_epoch r) (resp_snapshot r).

(** The running turn a read names: [{}] where it names none. *)
Definition runningTurn (thread : Thread) : option string := truthy_s (ev_activeTurnId (wt_evener thread)).

Definition activeTurnIdFromThread (thread : Thread) : option string :=
  match truthy_s (ev_activeTurnId (wt_evener thread)) with
  | Some id => Some id
  | None => (fun p => wturn_id p.2) <$> list_find (fun t => wturn_status t = "inProgress") (default [] (wt_turns thread))
  end.

Definition wireImageSessionId (thread : Thread) : string := or_s (js_trim (wt_sessionId thread)) (js_trim (wt_id thread)).

(** Every durable stable field of a delegate; the call-scoped one goes. *)
Definition cloneStableDelegate (d : json_object) : json_object := filter (fun kv => kv.1 <> "waitIgnoredReason") d.

(** The inventory a read keeps: the commands, and the plugins' names. *)
Definition read_diagnostics (d : EvenerDiagnostics) : json :=
  JObj ((match diag_commands d with Some c => [("commands", c)] | None => [] end) ++
        (match diag_plugins d with
         | Some ps => [("plugins", JArr ((fun p => JObj (match obj_get "name" p with Some n => [("name", n)] | None => [] end)) <$> ps))]
         | None => [] end))%list.

Definition read_facts (thread : Thread) : ReadFacts :=
  let e := wt_evener thread in
  {| fact_resumeRequired := default false (ev_resumeRequired e);
     fact_resumeOnlyFoldable := default false (ev_resumeOnlyFoldable e);
     fact_artifactsDir := truthy_s (ev_artifactsDir e);
     fact_scratchDir := truthy_s (ev_scratchDir e);
     fact_manager := default false (ev_manager e);
     fact_pendingMutations := default [] (ev_pendingMutations e);
     fact_skills := default [] (ev_diagnostics e ≫= diag_skills);
     fact_turnSlots := truthy_json (ev_diagnostics e ≫= diag_turnSlots);
     fact_contextUsed := default 0%Z (ev_contextUsed e);
     fact_contextWindow := default 0%Z (ev_contextWindow e);
     fact_contextPressure := default (JNum 0) (ev_contextPressure e);
     fact_contextAssumed := default false (ev_contextAssumed e);
     fact_usage := ev_usage e;
     fact_cost := ev_cost e;
     fact_workMillis := default 0%Z (ev_workMillis e);
     fact_lastTurnEndedAt := epochMsToISO (ev_lastTurnEndedAt e);
     fact_cwd := wt_cwd thread;
     fact_gitBranch := wt_gitBranch thread;
     fact_projectPath := wt_projectPath thread;
     fact_createdAt := epochSecondsToISO (Some (wt_createdAt thread));
     fact_updatedAt := epochSecondsToISO (Some (wt_updatedAt thread)) |}.

(** [threadFields]: every property a read sets but the transcript and the running turn. *)
Definition threadFields (resp : ThreadReadResponse) (ref : string) (now : Z) : ThreadModel :=
  let thread := resp_thread resp in
  let e := wt_evener thread in
  {| th_ref := ref;
     th_threadId := wt_id thread;
     th_imageSessionId := Some (wireImageSessionId thread);
     th_turns := [];
     th_history := None;
     th_overlay := None;
     th_runningTurnId := None;
     th_activeTurnId := activeTurnIdFromThread thread;
     th_olderCursor := resp_olderCursor resp;
     th_olderFrontier := None;
     th_lastFrameAt := now;
     th_modelRetry := None;
     th_pendingEscalations := default [] (ev_pendingEscalations e);
     th_status := mkStatusFields (wt_status thread) (epochMsToISO (ev_activeTurnStartedAt e)) (ev_failedToolCalls e)
                    (default false (ev_askPending e)) (ev_capabilities e) (Some from_read);
     th_model := mkModelFields (wt_modelProvider thread) (wt_modelProvider thread)
                   (default [] (ev_reasoningEffortLevels e)) (default false (ev_supportsReasoning e))
                   (ev_reasoningEffort e) (default "" (ev_visionModel e));
     th_jobs := mkJobFields (Some (cloneStableDelegate <$> default [] (ev_diagnostics e ≫= diag_delegates))) None None;
     th_notes := mkNoteFields (default "" (wt_name thread)) (ev_goal e) (default "" (ev_humanNote e))
                   (default "" (ev_agentNote e)) (default [] (ev_sessionUrls e)) (Some (ev_queue e)) (ev_tasks e);
     th_kept := mkKeptFacts (ev_parentRef e) (ev_instanceId e) (option_map read_diagnostics (ev_diagnostics e))
                  (ev_access e);
     th_facts := read_facts thread |}.

(** [{...base, ...fields}] for [fields] of a read: what the read leaves out is kept, and
    so is what a read never sets. The transcript is [base]'s. *)
Definition spread_fields (base fields : ThreadModel) : ThreadModel :=
  {| th_ref := th_ref fields;
     th_threadId := th_threadId fields;
     th_imageSessionId := th_imageSessionId fields;
     th_turns := th_turns base;
     th_history := th_history base;
     th_overlay := th_overlay base;
     th_runningTurnId := th_runningTurnId base;
     th_activeTurnId := th_activeTurnId fields;
     th_olderCursor := th_olderCursor fields;
     th_olderFrontier := th_olderFrontier base;
     th_lastFrameAt := th_lastFrameAt fields;
     th_modelRetry := th_modelRetry base;
     th_pendingEscalations := th_pendingEscalations fields;
     th_status := th_status fields;
     th_model := th_model fields;
     th_jobs := th_jobs fields;
     th_notes := th_notes fields;
     th_kept :=
       mkKeptFacts (fact_parentRef (th_kept fields) ?: fact_parentRef (th_kept base))
         (fact_instanceId (th_kept fields) ?: fact_instanceId (th_kept base))
         (fact_diagnostics (th_kept fields) ?: fact_diagnostics (th_kept base))
         (fact_access (th_kept fields) ?: fact_access (th_kept base));
     th_facts := th_facts fields |}.
