(* ===== verification/ThreadReads.v ===== *)
(** Reads and pages of a thread (appwire-client/typescript/transcriptHistory.ts): the
    display derived from history and overlay, latest-window reads, their failures,
    backfill pages, and the model built from one read. *)

From S2P Require Import Prelude JsString Json JsMap BootGeneration TranscriptItems TranscriptHistory TranscriptOverlay ThreadModel.

Local Open Scope string_scope.
Local Open Scope evener_scope.

(** [turns = mergeHistory(turns, fragment, heldOnly)]. *)
Definition merge_into (turns : list TurnModel) (fragment : HistoryFragment) (heldOnly : bool) : list TurnModel :=
  default turns (mergeHistory turns fragment heldOnly).

(** The overlay items of a response are new objects: none of them is an item shown before. *)
Definition new_objects {S : SameObject} : SameObject :=
  {| same_turn := same_turn; same_overlay := fun _ _ => false;
     same_turn_eq := same_turn_eq; same_overlay_eq := fun a b (e : false = true) => False_ind (a = b) (diff_false_true e) |}.

(** Sets a model's history and overlay, which first loses whatever history now covers,
    and derives its display. *)
Definition withDisplay `{SameObject} (m : ThreadModel) (history : HistoryState) (overlay : Overlay) : ThreadModel :=
  let shown := pruneCoveredOverlay (hist_turns history) overlay in
  set_transcript (displayTurns (hist_turns history) shown (th_turns m) (modelImageSessionRoute m) (th_runningTurnId m))
    (Some history) (Some shown) m.

Section reads.
Context `{S : SameObject}.

Definition issueLatestWindowRead (m : ThreadModel) : ThreadModel * Z :=
  let history := default EMPTY_HISTORY (th_history m) in
  let requestGeneration := (issuedGeneration history + 1)%Z in
  (set_history (with_issued requestGeneration history) m, requestGeneration).

Definition invalidateHistory (m : ThreadModel) : ThreadModel :=
  set_history (invalidated (default EMPTY_HISTORY (th_history m)) no_signal) m.

Definition fail_history (diagnostic : string) (h : HistoryState) : HistoryState :=
  mkHistory (hist_identity h) (appliedGeneration h) (issuedGeneration h) None None (pendingIncarnation h)
    (deferredPages h) (Some diagnostic) (hist_turns h).

Definition applyHistoryReadFailure (m : ThreadModel) (diagnostic : string) (requestGeneration : Z) : ThreadModel :=
  let held := default EMPTY_HISTORY (th_history m) in
  let superseded := (requestGeneration <? issuedGeneration held)%Z ||
    match invalidatedAtGeneration held with Some g => (requestGeneration <=? g)%Z | None => false end in
  if superseded then m else set_history (fail_history diagnostic held) m.

(** *** Pages *)

Definition mergeVersionedPage (m : ThreadModel) (held : HistoryState) (page : ThreadTurnsListResponse)
    (takeCursor : bool) : ThreadModel :=
  match pageDisposition held page with
  | page_discard => m
  | page_defer => set_history (with_deferred (deferredPages held ++ [page]) held) m
  | page_invalidate =>
      let history := invalidated held (identity_signal (page_identity page)) in
      let deferred := bool_decide (pendingIncarnation history = option_map snapshot_incarnation (page_snapshot page)) in
      set_history (if deferred then with_deferred (deferredPages history ++ [page]) history else history) m
  | page_merge =>
      let fresh := splitWireTurns (default [] (page_data page)) (modelImageSessionRoute m) in
      let range := if page_authoritative page then fragmentRange (fragment_items fresh) else None in
      let base := match range with
                  | Some (from, to) => dropItemsInRange (hist_turns held) from (Some to)
                  | None => hist_turns held
                  end in
      let next := if takeCursor then withOlderFrontier m (page_nextCursor page) else m in
      withDisplay next (with_turns (merge_into base fresh false) held) (default [] (th_overlay m))
  end.

(** The versioned arm of [mergeOlderItemPage]. *)
Definition mergeOlderItemPage (m : ThreadModel) (page : ThreadTurnsListResponse) : option ThreadModel :=
  match th_history m, page_snapshot page with
  | Some held, Some _ => Some (mergeVersionedPage m held page true)
  | _, _ => None
  end.

(** Pages deferred for the incarnation just read, in the order they came. *)
Definition apply_deferred (pages : list ThreadTurnsListResponse) (incarnation : option string) (m : ThreadModel) :
    ThreadModel :=
  foldl (fun next deferred =>
    if bool_decide (option_map snapshot_incarnation (page_snapshot deferred) = incarnation)
    then match th_history next with
         | Some h => mergeVersionedPage next h deferred false
         | None => next
         end
    else next) m pages.

(** *** Latest-window reads *)

(** Whether the held older pages keep their own cursor over a window's. *)
Definition keeps_frontier (m : ThreadModel) (turns : list TurnModel)
    (window : option (ThreadItemPosition * ThreadItemPosition)) : bool :=
  match earliestPosition turns with
  | None => false
  | Some oldest =>
      match window with
      | None => true
      | Some (from, _) => (comparePositions (Some oldest) (Some from) <? 0)%Z
      end && match olderFrontierOf m with frontier_unknown => false | _ => true end
  end.

(** The frontier after a read: the window's, or the one the model keeps. *)
Definition frontier_after (m : ThreadModel) (kept : bool) (cursor : option string) (frontier : OlderFrontier) :
    option string * OlderFrontier :=
  if kept then (th_olderCursor m, olderFrontierOf m) else (cursor, frontier).

Definition window_start (window : option (ThreadItemPosition * ThreadItemPosition)) : ThreadItemPosition :=
  match window with Some (from, _) => from | None => mkPosition 0 0 None end.

(** The turns after a merging read, and whether the held frontier stays. *)
Definition merge_window (m : ThreadModel) (held : HistoryState) (resp : ThreadReadResponse) (fresh : HistoryFragment)
    (route : option string) : list TurnModel * bool :=
  let window := fragmentRange (fragment_items fresh) in
  let base := if resp_authoritative resp then dropItemsInRange (hist_turns held) (window_start window) None
              else hist_turns held in
  let merged := merge_into base fresh false in
  (match resp_changes resp with
   | Some c => merge_into merged (wireFragment (changes_turns c) (changes_items c) route) true
   | None => merged
   end, keeps_frontier m base window).

Definition applyReadResponse (m : ThreadModel) (resp : ThreadReadResponse) (now : Z) (frontier : OlderFrontier) :
    ThreadModel :=
  let held := default EMPTY_HISTORY (th_history m) in
  let disposition := readDisposition held (resp_requestGeneration resp) (resp_identity resp) in
  if bool_decide (disposition = read_discard) then m
  else
    let fields := threadFields resp (th_ref m) now in
    let route := modelImageSessionRoute fields in
    let fresh := splitWireTurns (default [] (wt_turns (resp_thread resp))) route in
    let '(turns, kept) := if bool_decide (disposition = read_replace) then (merge_into [] fresh false, false)
                          else merge_window m held resp fresh route in
    let '(cursor, frontier') := frontier_after m kept (resp_olderCursor resp) frontier in
    let generation := default 0%Z (resp_requestGeneration resp) in
    let history := mkHistory (resp_identity resp) generation (Z.max (issuedGeneration held) generation) None None None
                     [] None turns in
    let base := set_frontier cursor (Some frontier') (set_running (runningTurn (resp_thread resp)) (spread_fields m fields)) in
    let next := withDisplay (H := new_objects) base history (overlayRecord (resp_overlay resp)) in
    apply_deferred (deferredPages held) (id_incarnation (hist_identity history)) next.

(** The versioned arm of [hydrateThread]: a whole model built from one read. *)
Definition hydrateThread (resp : ThreadReadResponse) (ref : string) (now : Z) (frontier : OlderFrontier) :
    option ThreadModel :=
  match resp_snapshot resp with
  | None => None
  | Some _ =>
      let fields := threadFields resp ref now in
      let fresh := splitWireTurns (default [] (wt_turns (resp_thread resp))) (modelImageSessionRoute fields) in
      let generation := default 0%Z (resp_requestGeneration resp) in
      let history := mkHistory (resp_identity resp) generation generation None None None [] None (merge_into [] fresh false) in
      Some (withDisplay (H := new_objects)
              (set_running (runningTurn (resp_thread resp)) (set_frontier (th_olderCursor fields) (Some frontier) fields))
              history (overlayRecord (resp_overlay resp)))
  end.

(** The first and last positions of a read's window. *)
Definition readWindowBounds (resp : ThreadReadResponse) : option ThreadItemPosition * option ThreadItemPosition :=
  let fresh := splitWireTurns (default [] (wt_turns (resp_thread resp)))
                 (imageSessionRouteForSession (wireImageSessionId (resp_thread resp))) in
  let range := fragmentRange (fragment_items fresh) in
  (fst <$> range, snd <$> range).

(** *** Reads hydrated elsewhere *)

(** The turns of a hydrated model as a fragment; an item without a turn joins the one
    that holds it. *)
Definition turnModelsToFragment (turns : list TurnModel) : HistoryFragment :=
  mkFragment (with_items [] <$> turns)
    (turns ≫= fun turn =>
      (fun item => if str_truthy (item_turnId item) then item
                   else with_turnId (turn_id turn) (spread_item (item_payload item) (item_text item) item))
      <$> turn_items turn).

Definition readModelDisposition (held : HistoryState) (freshHistory : option HistoryState) : ReadDisposition :=
  match freshHistory with
  | None => read_merge
  | Some f => identityDisposition held (hist_identity f)
  end.

(** [fresh]'s own identity, property by property, or the held one. *)
Definition identity_over (fresh : option ReadIdentity) (held : ReadIdentity) : ReadIdentity :=
  match fresh with
  | None => held
  | Some f => mkIdentity (id_boot f) (id_epoch f) (id_incarnation f ?: id_incarnation held) (id_length f)
  end.

Definition applyReadModel (m fresh : ThreadModel) (changes : option HistoryChanges) : ThreadModel :=
  let held := default EMPTY_HISTORY (th_history m) in
  let disposition := readModelDisposition held (th_history fresh) in
  if bool_decide (disposition = read_discard) then m
  else
    let fragment := turnModelsToFragment (match th_history fresh with Some f => hist_turns f | None => shown <$> th_turns fresh end) in
    let window := fragmentRange (fragment_items fragment) in
    let '(turns, kept) :=
      if bool_decide (disposition = read_replace) then (merge_into [] fragment false, false)
      else
        let merged := merge_into (hist_turns held) fragment false in
        (match changes with
         | Some c => merge_into merged (wireFragment (changes_turns c) (changes_items c) (modelImageSessionRoute fresh)) true
         | None => merged
         end, keeps_frontier m (hist_turns held) window) in
    let '(cursor, frontier) := frontier_after m kept (th_olderCursor fresh) (olderFrontierOf fresh) in
    let history := mkHistory (identity_over (hist_identity <$> th_history fresh) (hist_identity held))
                     (appliedGeneration held) (issuedGeneration held) None None None [] None turns in
    let base := set_frontier cursor (Some frontier) (set_running (truthy_s (th_runningTurnId fresh))
                  (set_modelRetry (th_modelRetry fresh ?: th_modelRetry m) (spread_fields m fresh))) in
    let next := withDisplay (H := new_objects) base history (default [] (th_overlay fresh)) in
    apply_deferred (deferredPages held) (id_incarnation (hist_identity history)) next.

(** *** Rows a reader holds *)

Definition mergeTranscriptReaderWindow (m : ThreadModel) (turns : list TurnModel) : ThreadModel :=
  match th_history m, turns with
  | None, _ | _, [] => m
  | Some h, _ =>
      let fragment := mkFragment (with_items [] <$> turns) (turns ≫= turn_items) in
      withDisplay m (with_turns (merge_into (hist_turns h) fragment false) h) (default [] (th_overlay m))
  end.

(** An item without its payload: identity, ordering and what coverage reads. *)
Definition item_body_dropped (i : ItemModel) : ItemModel :=
  let p := item_payload i in
  let steer {A} (x : option A) : option A := if item_type i =? "steering" then x else None in
  markItemIdentityOnly (markItemTextOmitted
    {| item_id := item_id i; item_turnId := item_turnId i; item_type := item_type i; item_text := "";
       item_pendingText := None; item_status := None; item_transcriptKey := item_transcriptKey i;
       item_position := item_position i; item_version := item_version i; item_roundId := item_roundId i;
       item_completedAtEntry := item_completedAtEntry i; item_overlayKey := None;
       item_payload := mkPayload None None None None None None None None None None (item_callId p) None
                         (steer (item_steeringKind p)) (steer (item_source p)) None;
       item_detail := mkDetail None None (item_transcriptEntryIndex (item_detail i)) None None None None;
       item_textPresence := None; item_identityOnly := false |}).

(** Drops the payloads an idle model holds; what is displayed loses the bare items. *)
Definition pruneBackgroundHistoryBodies (m : ThreadModel) : ThreadModel :=
  match th_history m with
  | None => m
  | Some h =>
      let turns := (fun t => with_items (item_body_dropped <$> turn_items t) t) <$> hist_turns h in
      let projected := withDisplay m (with_turns turns h) (default [] (th_overlay m)) in
      set_turns ((fun d => mkDisplay (with_items (filter (fun i => itemIsIdentityOnly i = false) (turn_items (shown d))) (shown d)) None)
                 <$> th_turns projected) projected
  end.
End reads.
