(* ===== verification/MergeTheorems.v ===== *)
(** What a merge of recorded history is: row by row the keyed merge, in reading order,
    and, for frames that each carry an item's whole form, independent of the order and
    the number of times they arrive. *)

From S2P Require Import Prelude JsString Json JsMap TranscriptItems TranscriptHistory TranscriptOverlay MergeFacts ThreadModel ThreadReads.

#[local] Arguments mergeReplacedItem : simpl never.
#[local] Arguments take_frame : simpl never.

(** ** A merge, item by item *)

Lemma merge_into_ok turns f ho : turns_ok turns -> turns_ok (merge_into turns f ho).
Proof.
  intros Ht. unfold merge_into, mergeHistory. destruct (merged turns f ho).2; simpl; [|done].
  by apply sorted_turns_get, merged_ok, Ht.
Qed.

Lemma merge_into_get turns f ho tid : turns_ok turns ->
  map_get tid (by_id (merge_into turns f ho)) = map_get tid (merged turns f ho).1.
Proof.
  intros Ht. unfold merge_into, mergeHistory. destruct (merged turns f ho).2 eqn:E; simpl.
  - apply sorted_turns_get, merged_ok, Ht.
  - by rewrite (merged_unchanged turns f ho E).
Qed.

Lemma merge_into_held turns f ho tid key : turns_ok turns -> tid <> "" ->
  held (merge_into turns f ho) tid key =
  foldl (take_frame ho) (held turns tid key) (filter (is_frame_of tid key) (fragment_items f)).
Proof.
  intros Ht Hne. unfold held, held_item. rewrite merge_into_get by done. unfold merged.
  assert (Hb : map_ok (by_id turns, false).1) by by apply by_id_ok, Ht.
  change (map_get tid ?m ≫= item_in key) with (held_item m tid key).
  rewrite merge_items_held by (by apply merge_turns_ok || done). by rewrite merge_turns_held.
Qed.

Lemma held_in turns tid key i : turns_ok turns ->
  held turns tid key = Some i <-> exists t, t ∈ turns /\ turn_id t = tid /\ i ∈ turn_items t /\ itemIdentity i = key.
Proof.
  intros [Hnd Hall]. unfold held, held_item. rewrite Forall_forall in Hall. split.
  - intros (t & Hg & Hi)%bind_Some. apply by_id_get in Hg as [Hin Eid]; [|done].
    apply item_in_Some in Hi as [Hi Ek]; [|by apply Hall]. by exists t.
  - intros (t & Hin & Eid & Hi & Ek). apply bind_Some. exists t. split; [by apply by_id_get|].
    apply item_in_Some; [by apply Hall|done].
Qed.

(** ** The keyed merge *)

(** One versioned frame, through the merge of a single keyed entry row. *)
Definition row_frame (h : option ItemModel) (incoming : ItemModel) : option ItemModel :=
  match item_version incoming with
  | Some v => Some (mergeTranscriptItemVersioned h (h ≫= item_version) incoming v)
  | None => h
  end.

Lemma row_frame_take h i : item_version i <> None -> row_frame h i = take_frame false h i.
Proof.
  unfold row_frame, take_frame, mergeTranscriptItemVersioned, identity_upgrade. intros Hv.
  destruct (item_version i) as [v|] eqn:E; [|done]. destruct h as [h|]; [|done]. simpl. by case_match.
Qed.

Lemma rows_take h l : Forall (fun i => item_version i <> None) l ->
  foldl row_frame h l = foldl (take_frame false) h l.
Proof. revert h. induction l as [|i l IH]; intros h Hl; [done|]. apply Forall_cons in Hl as [Hi Hl]. simpl. by rewrite row_frame_take, IH. Qed.

(** ** Whole forms *)

(** Frames of one item that each say everything, one form to a version. *)
Record whole (l : list ItemModel) : Prop := {
  whole_versioned : forall i, i ∈ l -> item_version i <> None;
  whole_text : forall i, i ∈ l -> itemTextPresence i = text_provided;
  whole_unique : forall i j, i ∈ l -> j ∈ l -> item_turnId i = item_turnId j -> itemIdentity i = itemIdentity j ->
    item_version i = item_version j -> i = j;
  whole_payload : forall i j, i ∈ l -> j ∈ l -> item_turnId i = item_turnId j -> itemIdentity i = itemIdentity j ->
    carries_over (item_payload i) (item_payload j) = false
}.

Lemma whole_subset l l' : whole l -> (forall i, i ∈ l' -> i ∈ l) -> whole l'.
Proof. intros [? ? ? ?] Hs. split; eauto. Qed.

(** ** The newest of what arrived *)

(** Versions in order, a missing one least. *)
Definition vle (a b : option Z) : Prop :=
  match a, b with None, _ => True | Some x, Some y => (x <= y)%Z | Some _, None => False end.

Lemma supersedes_vle h i : if supersedes h i then vle h i else vle i h.
Proof. destruct h, i; simpl; try done. destruct (Z.ltb_spec z z0); lia. Qed.

Lemma vle_trans a b c : vle a b -> vle b c -> vle a c.
Proof. destruct a, b, c; simpl; try done. lia. Qed.

Lemma vle_antisym a b : vle a b -> vle b a -> a = b.
Proof. destruct a, b; simpl; try done. intros. f_equal. lia. Qed.

Section newest.
Context {A : Type} (rank : A -> option Z) (take : option A -> A -> option A) (l : list A).
Context (take_first : forall x : A, x ∈ l -> take None x = Some x).
Context (take_newer : forall x y : A, x ∈ l -> y ∈ l -> take (Some x) y = Some (if supersedes (rank x) (rank y) then y else x)).
Context (rank_unique : forall x y : A, x ∈ l -> y ∈ l -> rank x = rank y -> x = y).

Definition is_newest (frames : list A) (r : A) : Prop := r ∈ frames /\ (forall x : A, x ∈ frames -> vle (rank x) (rank r)).

Lemma fold_newest h (frames : list A) : h ∈ l -> (forall x, x ∈ frames -> x ∈ l) ->
  exists r, foldl take (Some h) frames = Some r /\ is_newest (h :: frames) r.
Proof.
  revert h. induction frames as [|i frames IH]; intros h Hh Hfr.
  - exists h. split; [done|]. split; [by left|]. intros x [->|Hx]%elem_of_cons; [|by apply not_elem_of_nil in Hx].
    destruct (rank h); simpl; lia || done.
  - simpl. assert (Hi : i ∈ l) by (apply Hfr; by left). rewrite take_newer by done.
    set (b := if supersedes (rank h) (rank i) then i else h).
    destruct (IH b) as (r & Er & Hr & Hmax); [unfold b; by case_match|intros x Hx; apply Hfr; by right|].
    exists r. split; [done|]. pose proof (supersedes_vle (rank h) (rank i)) as Hle.
    assert (Hb : vle (rank b) (rank r)) by (apply Hmax; by left). split.
    + rewrite !elem_of_cons. apply elem_of_cons in Hr as [Hr|Hr]; [|by right; right].
      unfold b in Hr. destruct (supersedes (rank h) (rank i)); [right; by left|by left].
    + intros x. rewrite !elem_of_cons. intros [->|[->|Hx]]; [..|apply Hmax; by right];
        (eapply vle_trans; [|exact Hb]); unfold b; destruct (supersedes (rank h) (rank i)); try done;
        [destruct (rank h)|destruct (rank i)]; simpl; lia || done.
Qed.

Lemma newest_unique (frames frames' : list A) r r' :
  (forall x, x ∈ frames -> x ∈ l) -> (forall x, x ∈ frames <-> x ∈ frames') ->
  is_newest frames r -> is_newest frames' r' -> r = r'.
Proof.
  intros Hfr Heq [Hr Hmax] [Hr' Hmax']. apply rank_unique; [by apply Hfr|by apply Hfr, Heq|].
  apply vle_antisym; [by apply Hmax', Heq|by apply Hmax, Heq].
Qed.

(** The order and the repetitions of the frames do not matter. *)
Lemma fold_newest_perm h (frames frames' : list A) :
  (forall x, h = Some x -> x ∈ l) -> (forall x, x ∈ frames -> x ∈ l) -> (forall x, x ∈ frames <-> x ∈ frames') ->
  foldl take h frames = foldl take h frames'.
Proof.
  intros Hh Hfr Heq. assert (Hfr' : forall x, x ∈ frames' -> x ∈ l) by (intros x Hx; by apply Hfr, Heq).
  assert (Hgo : forall h0 fs fs', h0 ∈ l -> (forall x, x ∈ fs -> x ∈ l) -> (forall x, x ∈ fs' -> x ∈ l) ->
    forall h1, h1 ∈ l -> (forall x, x ∈ h0 :: fs <-> x ∈ h1 :: fs') -> foldl take (Some h0) fs = foldl take (Some h1) fs').
  { intros h0 fs fs' H0 H1 H2 h1 H3 H4. destruct (fold_newest h0 fs H0 H1) as (r & -> & Hr).
    destruct (fold_newest h1 fs' H3 H2) as (r' & -> & Hr'). f_equal.
    apply (newest_unique (h0 :: fs) (h1 :: fs')); try done. intros x [->|Hx]%elem_of_cons; auto. }
  destruct h as [h|]; [apply Hgo; auto; intros x; by rewrite !elem_of_cons, Heq|].
  destruct frames as [|a fs], frames' as [|b fs']; [done|..].
  - exfalso. apply (not_elem_of_nil b), Heq. by left.
  - exfalso. apply (not_elem_of_nil a), Heq. by left.
  - simpl. rewrite !take_first by (first [apply Hfr; by left|apply Hfr'; by left]).
    apply Hgo; [apply Hfr; by left|intros x Hx; apply Hfr; by right|intros x Hx; apply Hfr'; by right|apply Hfr'; by left|done].
Qed.

(** Frames that are not newer change nothing. *)
Lemma fold_stale h (frames : list A) :
  h ∈ l -> (forall x, x ∈ frames -> x ∈ l /\ vle (rank x) (rank h)) -> foldl take (Some h) frames = Some h.
Proof.
  intros Hh Hfr. destruct (fold_newest h frames Hh) as (r & -> & Hr); [intros x Hx; by apply Hfr|]. f_equal. symmetry.
  apply (newest_unique (h :: frames) (h :: frames)); try done; [intros x [->|Hx]%elem_of_cons; [done|by apply Hfr]|].
  split; [by left|]. intros x [->|Hx]%elem_of_cons; [destruct (rank h); simpl; lia || done|by apply Hfr].
Qed.
End newest.

(** Of two whole frames of an item the newer stands. *)
Lemma take_whole l h i : whole l -> h ∈ l -> i ∈ l -> item_turnId h = item_turnId i -> itemIdentity h = itemIdentity i ->
  take_frame false (Some h) i = Some (if supersedes (item_version h) (item_version i) then i else h).
Proof.
  intros Hw Hh Hi Et Ek. unfold take_frame.
  assert (Hup : identity_upgrade h i = false).
  { unfold identity_upgrade. case_bool_decide as E; [|done]. rewrite (whole_unique _ Hw h i) by done.
    simpl. by destruct (itemIsIdentityOnly i). }
  rewrite Hup. destruct (supersedes (item_version h) (item_version i)); simpl; [|done]. f_equal. unfold mergeReplacedItem.
  by rewrite (whole_payload _ Hw h i), (whole_text _ Hw i).
Qed.

Lemma fold_take_perm tid key l h (frames frames' : list ItemModel) :
  whole l -> (forall i, h = Some i -> i ∈ l /\ is_frame_of tid key i) ->
  (forall i, i ∈ frames -> i ∈ l /\ is_frame_of tid key i) -> (forall i, i ∈ frames <-> i ∈ frames') ->
  foldl (take_frame false) h frames = foldl (take_frame false) h frames'.
Proof.
  intros Hw Hh Hfr Heq. set (l' := filter (is_frame_of tid key) l).
  assert (Hl' : forall i, i ∈ l' <-> i ∈ l /\ is_frame_of tid key i) by (intros i; unfold l'; rewrite list_elem_of_filter; tauto).
  apply (fold_newest_perm item_version _ l'); try done.
  - intros i j [Hi [Ei Ki]]%Hl' [Hj [Ej Kj]]%Hl'. by apply (take_whole l); try congruence.
  - intros i j [Hi [Ei Ki]]%Hl' [Hj [Ej Kj]]%Hl' Ev. apply (whole_unique _ Hw); congruence.
  - intros i Hi. by apply Hl', Hh.
  - intros i Hi. by apply Hl', Hfr.
Qed.

(** ** Reading order *)

Lemma all_turns_by_id P turns : turns_ok turns -> (forall tid t, map_get tid (by_id turns) = Some t -> P t) -> Forall P turns.
Proof.
  intros [Hnd _] H. apply Forall_forall. intros t Ht. apply (H (turn_id t)). by apply by_id_get.
Qed.

Lemma merge_into_ordered pos turns f ho :
  turns_ok turns -> Forall (ordered pos) turns -> Forall (at_home pos) (fragment_items f) ->
  Forall (ordered pos) (merge_into turns f ho).
Proof.
  intros Hok Hall Hf. apply all_turns_by_id; [by apply merge_into_ok|]. intros tid t. rewrite merge_into_get by done.
  by apply (merged_ordered pos turns f ho Hok Hall Hf).
Qed.

(** Items of distinct places read off one way only. *)
Definition apart (pos : string -> option ThreadItemPosition) (keys : list string) : Prop :=
  forall k k', k ∈ keys -> k' ∈ keys -> comparePositions (pos k) (pos k') = 0%Z -> k = k'.

Lemma one_reading pos keys (items items' : list ItemModel) :
  apart pos keys -> (forall i, i ∈ items -> itemIdentity i ∈ keys) ->
  NoDup (itemIdentity <$> items) ->
  Forall (at_home pos) items -> in_order items -> in_order items' -> items ≡ₚ items' -> items = items'.
Proof.
  intros Hap Hk Hnd Hhome Hs Hs' Hp. apply (StronglySorted_unique_strong pos_le); try done.
  rewrite Forall_forall in Hhome. intros i j Hi Hj Hij Hji. rewrite <- Hp in Hj. unfold pos_le in *.
  rewrite (Hhome i), (Hhome j) in * by done.
  assert (Ek : itemIdentity i = itemIdentity j).
  { apply Hap; [by apply Hk..|]. rewrite comparePositions_opp in Hji. lia. }
  apply list_elem_of_lookup in Hi as [n Hn], Hj as [m Hm].
  assert (n = m) as ->; [|congruence]. eapply NoDup_lookup; [exact Hnd|..]; rewrite list_lookup_fmap.
  - by rewrite Hn.
  - rewrite Hm. simpl. by rewrite Ek.
Qed.

(** ** Turn scalars *)

#[local] Arguments take_scalars : simpl never.

(** What a fragment says of a turn: its scalars, and an opening for each of its items. *)
Definition turn_events (tid : string) (f : HistoryFragment) : list TurnModel :=
  (with_items [] <$> filter (fun t => turn_id t = tid) (fragment_turns f)) ++
  ((fun _ => opened_turn tid) <$> filter (fun i => item_turnId i = tid) (fragment_items f)).

(** Scalars without a version are those of a turn an item opened. *)
Definition plain_scalars (tid : string) (h : option TurnModel) : Prop :=
  forall t, h = Some t -> turn_version t = None -> t = opened_turn tid.

Definition versioned_turns (f : HistoryFragment) : Prop := Forall (fun t => turn_version t <> None) (fragment_turns f).

Lemma take_scalars_plain tid h t : plain_scalars tid h -> turn_version t <> None -> plain_scalars tid (take_scalars false h t).
Proof. unfold take_scalars, plain_scalars. intros Hh Ht u. destruct h as [v|]; [case_match|]; intros [= <-] ?; [done|by apply Hh|done]. Qed.

Lemma merge_turns_scalars tid l s : tid <> "" -> Forall (fun t => turn_version t <> None) l ->
  plain_scalars tid (held_scalars s.1 tid) ->
  held_scalars (foldl (merge_turn false) s l).1 tid =
    foldl (take_scalars false) (held_scalars s.1 tid) (with_items [] <$> filter (fun t => turn_id t = tid) l) /\
  plain_scalars tid (held_scalars (foldl (merge_turn false) s l).1 tid).
Proof.
  intros Hne Hl. revert s. induction Hl as [|t l Ht _ IH]; intros s Hp; [done|]. simpl. rewrite filter_cons.
  pose proof (merge_turn_scalars false s t tid) as E. destruct (decide (turn_id t = tid)) as [<-|Hn].
  - rewrite decide_True in E by done. destruct (IH (merge_turn false s t)) as [IH1 IH2].
    + rewrite E. by apply take_scalars_plain.
    + split; [|done]. rewrite IH1, E. done.
  - rewrite decide_False in E by (intros [? _]; done). destruct (IH (merge_turn false s t)) as [IH1 IH2]; [by rewrite E|].
    split; [|done]. by rewrite IH1, E.
Qed.

Lemma merge_items_scalars tid l s : tid <> "" -> map_ok s.1 -> plain_scalars tid (held_scalars s.1 tid) ->
  held_scalars (foldl (merge_item false) s l).1 tid =
    foldl (take_scalars false) (held_scalars s.1 tid) ((fun _ => opened_turn tid) <$> filter (fun i => item_turnId i = tid) l) /\
  plain_scalars tid (held_scalars (foldl (merge_item false) s l).1 tid).
Proof.
  intros Hne. revert s. induction l as [|i l IH]; intros s Hs Hp; [done|]. simpl. rewrite filter_cons.
  pose proof (merge_item_scalars false s i tid Hs) as E.
  assert (Hstep : held_scalars (merge_item false s i).1 tid =
    if decide (item_turnId i = tid) then take_scalars false (held_scalars s.1 tid) (opened_turn tid) else held_scalars s.1 tid).
  { rewrite E. destruct (decide (item_turnId i = tid)) as [<-|Hn].
    - destruct (held_scalars s.1 (item_turnId i)) as [t|] eqn:Eh.
      + rewrite decide_False by (intros (_ & _ & ?); done). unfold take_scalars. simpl.
        destruct (turn_version t) eqn:Ev; simpl; [done|]. f_equal. by apply Hp.
      + by rewrite decide_True.
    - by rewrite decide_False by (intros [? _]; done). }
  assert (Hp' : plain_scalars tid (held_scalars (merge_item false s i).1 tid)).
  { rewrite Hstep. case_decide; [|done]. unfold take_scalars, plain_scalars. intros t.
    destruct (held_scalars s.1 tid) as [u|] eqn:Eh; [destruct (supersedes _ _)|]; intros [= <-] ?; try done. by apply Hp. }
  destruct (IH (merge_item false s i)) as [IH1 IH2]; [by apply merge_item_ok|done|]. split; [|done].
  rewrite IH1, Hstep. by case_decide.
Qed.

Lemma merge_into_scalars turns f tid : turns_ok turns -> tid <> "" -> versioned_turns f ->
  plain_scalars tid (held_scalars (by_id turns) tid) ->
  held_scalars (by_id (merge_into turns f false)) tid = foldl (take_scalars false) (held_scalars (by_id turns) tid) (turn_events tid f) /\
  plain_scalars tid (held_scalars (by_id (merge_into turns f false)) tid).
Proof.
  intros Hok Hne Hf Hp. assert (E : held_scalars (by_id (merge_into turns f false)) tid = held_scalars (merged turns f false).1 tid).
  { unfold held_scalars. by rewrite merge_into_get. }
  rewrite E. unfold merged, turn_events. rewrite foldl_app.
  destruct (merge_turns_scalars tid (fragment_turns f) (by_id turns, false) Hne Hf Hp) as [E1 Hp1].
  destruct (merge_items_scalars tid (fragment_items f) (foldl (merge_turn false) (by_id turns, false) (fragment_turns f)) Hne) as [E2 Hp2].
  - by apply merge_turns_ok, by_id_ok, Hok.
  - done.
  - split; [|done]. by rewrite E2, E1.
Qed.

(** ** Runs of fragments *)

Definition merge_all (turns : list TurnModel) (fs : list HistoryFragment) : list TurnModel :=
  foldl (fun t f => merge_into t f false) turns fs.

Lemma merge_all_ok turns fs : turns_ok turns -> turns_ok (merge_all turns fs).
Proof. unfold merge_all. revert turns. induction fs as [|f fs IH]; intros turns Hok; [done|]. by apply IH, merge_into_ok. Qed.

Lemma merge_all_held turns fs tid key : turns_ok turns -> tid <> "" ->
  held (merge_all turns fs) tid key =
  foldl (take_frame false) (held turns tid key) (filter (is_frame_of tid key) (fs ≫= fragment_items)).
Proof.
  intros Hok Hne. unfold merge_all. revert turns Hok. induction fs as [|f fs IH]; intros turns Hok; [done|]. simpl.
  rewrite IH by by apply merge_into_ok. rewrite merge_into_held by done. by rewrite filter_app, foldl_app.
Qed.

Lemma merge_all_ordered pos turns fs :
  turns_ok turns -> Forall (ordered pos) turns -> Forall (at_home pos) (fs ≫= fragment_items) ->
  Forall (ordered pos) (merge_all turns fs).
Proof.
  unfold merge_all. revert turns. induction fs as [|f fs IH]; intros turns Hok Hall Hf; [done|]. simpl in *.
  apply Forall_app in Hf as [Hf Hfs]. apply IH; [by apply merge_into_ok|by apply merge_into_ordered|done].
Qed.

Lemma merge_all_scalars turns fs tid : turns_ok turns -> tid <> "" -> Forall versioned_turns fs ->
  plain_scalars tid (held_scalars (by_id turns) tid) ->
  held_scalars (by_id (merge_all turns fs)) tid =
    foldl (take_scalars false) (held_scalars (by_id turns) tid) (fs ≫= turn_events tid).
Proof.
  intros Hok Hne Hfs. unfold merge_all. revert turns Hok. induction Hfs as [|f fs Hf _ IH]; intros turns Hok Hp; [done|]. simpl.
  destruct (merge_into_scalars turns f tid Hok Hne Hf Hp) as [E Hp']. rewrite IH, E; [|by apply merge_into_ok|done].
  by rewrite foldl_app.
Qed.

(** Turn frames with one form to a version. *)
Definition whole_turns (l : list TurnModel) : Prop :=
  forall t u, t ∈ l -> u ∈ l -> turn_id t = turn_id u -> turn_version t = turn_version u -> with_items [] t = with_items [] u.

Lemma fold_scalars_perm tid l h (events events' : list TurnModel) :
  whole_turns l -> (forall t, h = Some t -> t ∈ l /\ turn_id t = tid /\ turn_items t = []) ->
  (forall t, t ∈ events -> t ∈ l /\ turn_id t = tid /\ turn_items t = []) -> (forall t, t ∈ events <-> t ∈ events') ->
  foldl (take_scalars false) h events = foldl (take_scalars false) h events'.
Proof.
  intros Hw Hh Hev Heq. set (l' := filter (fun t => turn_id t = tid /\ turn_items t = []) l).
  assert (Hl' : forall t, t ∈ l' <-> t ∈ l /\ turn_id t = tid /\ turn_items t = []) by (intros t; unfold l'; rewrite list_elem_of_filter; tauto).
  assert (Hbare : forall t, turn_items t = [] -> with_items [] t = t) by (intros [] E; simpl in *; by subst).
  apply (fold_newest_perm turn_version _ l').
  - intros t (_ & _ & E)%Hl'. unfold take_scalars. by rewrite Hbare.
  - intros t u (_ & _ & Et)%Hl' (_ & _ & Eu)%Hl'. unfold take_scalars. rewrite Hbare by done. by case_match.
  - intros t u (Ht & Eid & Et)%Hl' (Hu & Eid' & Eu)%Hl' Ev. rewrite <- (Hbare t Et), <- (Hbare u Eu). apply Hw; congruence.
  - intros t Ht. by apply Hl', Hh.
  - intros t Ht. by apply Hl', Hev.
  - done.
Qed.

(** ** Turns that hold the same *)

Lemma same_turns pos keys turns turns' :
  turns_ok turns -> turns_ok turns' -> Forall (ordered pos) turns -> Forall (ordered pos) turns' ->
  apart pos keys -> (forall i, i ∈ history_items turns -> itemIdentity i ∈ keys) ->
  (forall tid, tid <> "" -> held_scalars (by_id turns) tid = held_scalars (by_id turns') tid) ->
  (forall tid key, tid <> "" -> held turns tid key = held turns' tid key) ->
  forall tid t, map_get tid (by_id turns) = Some t -> map_get tid (by_id turns') = Some t.
Proof.
  intros Hok Hok' Ho Ho' Hap Hkeys Hsc Hit tid t Ht.
  pose proof (by_id_ok turns (proj2 Hok)) as Hm. pose proof (by_id_ok turns' (proj2 Hok')) as Hm'.
  destruct (map_ok_get _ _ _ Hm Ht) as [Eid (Hne & Hnd & _)]. rewrite Eid in Hne.
  specialize (Hsc tid Hne). unfold held_scalars in Hsc. rewrite Ht in Hsc. simpl in Hsc.
  destruct (map_get tid (by_id turns')) as [u|] eqn:Hu; [|done]. simpl in Hsc.
  destruct (map_ok_get _ _ _ Hm' Hu) as [Eid' (_ & Hnd' & _)].
  assert (Hin : forall key, item_in key t = item_in key u).
  { intros key. specialize (Hit tid key Hne). unfold held, held_item in Hit. by rewrite Ht, Hu in Hit. }
  assert (Ei : turn_items t = turn_items u).
  { apply by_id_get in Ht as [Ht _]; [|apply Hok]. apply by_id_get in Hu as [Hu _]; [|apply Hok'].
    rewrite Forall_forall in Ho, Ho'. destruct (Ho t Ht) as [Hh Hs], (Ho' u Hu) as [_ Hs'].
    apply (one_reading pos keys); try done.
    - intros i Hi. apply Hkeys. apply list_elem_of_bind. by exists t.
    - apply NoDup_Permutation; [by eapply NoDup_fmap_1|by eapply NoDup_fmap_1|]. intros i.
      pose proof (item_in_Some t (itemIdentity i) i Hnd) as H1. pose proof (item_in_Some u (itemIdentity i) i Hnd') as H2.
      rewrite Hin in H1. tauto. }
  assert (t = with_items (turn_items t) (with_items [] t)) as -> by by destruct t.
  assert (u = with_items (turn_items u) (with_items [] u)) as -> by by destruct u.
  f_equal. simpl. congruence.
Qed.

Lemma same_turns_perm turns turns' :
  turns_ok turns -> turns_ok turns' ->
  (forall tid t, map_get tid (by_id turns) = Some t <-> map_get tid (by_id turns') = Some t) -> turns ≡ₚ turns'.
Proof.
  intros [Hnd ?] [Hnd' ?] Hg. apply NoDup_Permutation; [by eapply NoDup_fmap_1|by eapply NoDup_fmap_1|]. intros t.
  specialize (Hg (turn_id t) t). rewrite !by_id_get in Hg by done. tauto.
Qed.

(** The frames of a thread tell one story: every frame says everything about its item,
    one form to a version, every item has its own place. *)
Record one_story (pos : string -> option ThreadItemPosition) (turns : list TurnModel) (fs : list HistoryFragment) : Prop := {
  story_items : whole (history_items turns ++ (fs ≫= fragment_items));
  story_turns : whole_turns (turns ++ (fs ≫= fragment_turns));
  story_versions : Forall versioned_turns fs;
  story_opened : forall t, t ∈ turns -> turn_version t = None -> with_items [] t = opened_turn (turn_id t);
  story_places : apart pos (itemIdentity <$> (history_items turns ++ (fs ≫= fragment_items)));
  story_home : Forall (at_home pos) (fs ≫= fragment_items);
  story_order : Forall (ordered pos) turns
}.

Lemma held_history turns tid key i : turns_ok turns -> held turns tid key = Some i ->
  i ∈ history_items turns /\ is_frame_of tid key i.
Proof.
  intros Hok (t & Ht & Eid & Hi & Ek)%held_in; [|done]. split; [apply list_elem_of_bind; by exists t|].
  split; [|done]. destruct Hok as [_ Hall]. rewrite Forall_forall in Hall. destruct (Hall t Ht) as (_ & _ & Hit).
  rewrite Forall_forall in Hit. rewrite <- Eid. by apply Hit.
Qed.

Lemma merge_all_items pos turns fs (Hs : one_story pos turns fs) i : turns_ok turns ->
  i ∈ history_items (merge_all turns fs) -> i ∈ history_items turns ++ (fs ≫= fragment_items).
Proof.
  intros Hok (t & Hi & Ht)%list_elem_of_bind.
  pose proof (merge_all_ok turns fs Hok) as Hok'. destruct (proj1 (Forall_forall _ _) (proj2 Hok') t Ht) as (Hne & _ & _).
  assert (Hheld : held (merge_all turns fs) (turn_id t) (itemIdentity i) = Some i) by (apply held_in; [done|]; by exists t).
  rewrite merge_all_held in Hheld by done. set (l := history_items turns ++ (fs ≫= fragment_items)) in *.
  set (tid := turn_id t) in *. set (key := itemIdentity i) in *.
  assert (Hfr : forall j, j ∈ filter (is_frame_of tid key) (fs ≫= fragment_items) -> j ∈ l /\ is_frame_of tid key j).
  { intros j [Hj Hin]%list_elem_of_filter. split; [unfold l; apply elem_of_app; by right|done]. }
  assert (Hh : forall j, held turns tid key = Some j -> j ∈ l /\ is_frame_of tid key j).
  { intros j Hj. apply held_history in Hj as [Hj Hf]; [|done]. split; [unfold l; apply elem_of_app; by left|done]. }
  pose proof (story_items _ _ _ Hs) as Hw. fold l in Hw. revert Hheld Hfr Hh.
  generalize (held turns tid key). intros h. generalize (filter (is_frame_of tid key) (fs ≫= fragment_items)). intros frames.
  revert h. induction frames as [|j frames IH]; intros h Hheld Hfr Hh; simpl in Hheld; [by apply Hh|].
  apply (IH _ Hheld); [intros k Hk; apply Hfr; by right|]. destruct (Hfr j) as [Hj [Et Ek]]; [by left|].
  intros k. destruct h as [h|]; [|unfold take_frame; by intros [= <-]].
  destruct (Hh h eq_refl) as [Hhl [Et' Ek']]. rewrite (take_whole l) by congruence. intros [= <-]. by case_match.
Qed.

(** The scalars of a turn converge with them. *)
Lemma scalars_converge pos turns fs fs' tid :
  turns_ok turns -> one_story pos turns fs -> one_story pos turns fs' -> (forall f, f ∈ fs <-> f ∈ fs') -> tid <> "" ->
  held_scalars (by_id (merge_all turns fs)) tid = held_scalars (by_id (merge_all turns fs')) tid.
Proof.
  intros Hok Hs Hs' Heq Hne.
  assert (Hold : forall t, held_scalars (by_id turns) tid = Some t -> exists u, u ∈ turns /\ turn_id u = tid /\ t = with_items [] u).
  { intros t. unfold held_scalars. intros (u & Hu & Et)%fmap_Some. apply by_id_get in Hu as [Hu Eid]; [|apply Hok]. by exists u. }
  assert (Hp : plain_scalars tid (held_scalars (by_id turns) tid)).
  { intros t Ht Hv. destruct (Hold t Ht) as (u & Hu & <- & ->). by apply (story_opened _ _ _ Hs). }
  rewrite !merge_all_scalars by (done || apply Hs || apply Hs').
  set (l := (with_items [] <$> (turns ++ (fs ≫= fragment_turns))) ++ [opened_turn tid]).
  assert (Hnone : forall t, t ∈ turns ++ (fs ≫= fragment_turns) -> turn_version t = None -> with_items [] t = opened_turn (turn_id t)).
  { intros t [Ht|Ht]%elem_of_app Hv; [by apply (story_opened _ _ _ Hs)|]. apply list_elem_of_bind in Ht as (f & Ht & Hf).
    pose proof (story_versions _ _ _ Hs) as Hvs. rewrite Forall_forall in Hvs. specialize (Hvs f Hf).
    unfold versioned_turns in Hvs. rewrite Forall_forall in Hvs. by destruct (Hvs t Ht). }
  apply (fold_scalars_perm tid l).
  - intros t u Ht Hu Eid Ev. unfold l in *. apply elem_of_app in Ht as [Ht|Ht], Hu as [Hu|Hu].
    + apply list_elem_of_fmap in Ht as (t' & -> & Ht), Hu as (u' & -> & Hu). exact (story_turns _ _ _ Hs t' u' Ht Hu Eid Ev).
    + apply list_elem_of_fmap in Ht as (t' & -> & Ht). apply list_elem_of_singleton in Hu as ->. simpl in *.
      change (with_items [] t' = opened_turn tid). rewrite <- Eid. by apply Hnone.
    + apply list_elem_of_fmap in Hu as (u' & -> & Hu). apply list_elem_of_singleton in Ht as ->. simpl in *.
      change (opened_turn tid = with_items [] u'). rewrite Eid. by rewrite Hnone.
    + apply list_elem_of_singleton in Ht as ->, Hu as ->. done.
  - intros t Ht. destruct (Hold t Ht) as (u & Hu & Eid & ->). split; [|done]. unfold l. apply elem_of_app. left.
    apply list_elem_of_fmap_2, elem_of_app. by left.
  - intros t (f & Ht & Hf)%list_elem_of_bind. unfold turn_events in Ht. apply elem_of_app in Ht as [Ht|Ht].
    + apply list_elem_of_fmap in Ht as (u & -> & [Eid Hu]%list_elem_of_filter). split; [|done]. unfold l. apply elem_of_app. left.
      apply list_elem_of_fmap_2, elem_of_app. right. apply list_elem_of_bind. by exists f.
    + apply list_elem_of_fmap in Ht as (i & -> & _). split; [|done]. unfold l. apply elem_of_app. right. by apply list_elem_of_singleton.
  - intros t. rewrite !list_elem_of_bind. setoid_rewrite Heq. done.
Qed.


(** Two updates of one message and one of a later one. *)
Module Story.
Definition first : ThreadItem := plain_item "item_1" "turn_1" "agentMessage" "He" (mkPosition 1 0 None) 1.
Definition again : ThreadItem := plain_item "item_1" "turn_1" "agentMessage" "Hello" (mkPosition 1 0 None) 3.
Definition later : ThreadItem := plain_item "item_2" "turn_1" "agentMessage" "Bye" (mkPosition 2 0 None) 2.
Definition f1 : HistoryFragment := wireFragment (Some [plain_turn "turn_1" "inProgress" [] 1]) (Some [first]) None.
Definition f2 : HistoryFragment := wireFragment None (Some [later]) None.
Definition f3 : HistoryFragment := wireFragment (Some [plain_turn "turn_1" "completed" [] 3]) (Some [again]) None.
Definition pos (key : string) : option ThreadItemPosition :=
  if String.eqb key "item_1" then Some (mkPosition 1 0 None) else if String.eqb key "item_2" then Some (mkPosition 2 0 None) else None.

Ltac cases H :=
  vm_compute in H; repeat (apply elem_of_cons in H as [H|H]; [|]); try (by apply not_elem_of_nil in H); try subst.

Lemma story : one_story pos [] [f1; f2; f3].
Proof.
  split.
  - split.
    + intros i Hi. cases Hi; by vm_compute.
    + intros i Hi. cases Hi; by vm_compute.
    + intros i j Hi Hj Et Ek Ev. cases Hi; cases Hj; by vm_compute in Et, Ek, Ev.
    + intros i j Hi Hj _ _. cases Hi; cases Hj; by vm_compute.
  - intros t u Ht Hu Eid Ev. cases Ht; cases Hu; by vm_compute in Eid, Ev.
  - repeat constructor; by vm_compute.
  - intros t Ht. by apply not_elem_of_nil in Ht.
  - intros k k' Hk Hk' E. cases Hk; cases Hk'; by vm_compute in E.
  - repeat constructor.
  - constructor.
Qed.
End Story.

(** The merge of recorded history is the keyed merge: what it leaves of an item is
    what folding that item's own frames, in order, into its single entry row leaves of
    it. Nothing else in the fragment bears on it. *)
Theorem merge_is_keyed turns f tid key :
  turns_ok turns -> tid <> ""%string -> Forall (fun i => item_version i <> None) (fragment_items f) ->
  held (merge_into turns f false) tid key =
  foldl row_frame (held turns tid key) (filter (is_frame_of tid key) (fragment_items f)).
Proof.
  intros Hok Hne Hv. rewrite merge_into_held, rows_take; [done| |done..].
  rewrite Forall_forall in Hv |- *. intros i [_ Hi]%list_elem_of_filter. by apply Hv.
Qed.

Lemma merge_is_keyed_witness :
  turns_ok (merge_into [] Story.f1 false) /\
  held (merge_into (merge_into [] Story.f1 false) Story.f3 false) "turn_1" "item_1" =
  foldl row_frame (held (merge_into [] Story.f1 false) "turn_1" "item_1") (fragment_items Story.f3).
Proof.
  assert (Hok : turns_ok (merge_into [] Story.f1 false)) by (apply merge_into_ok; split; [apply NoDup_nil_2|constructor]).
  split; [done|]. rewrite (merge_is_keyed _ Story.f3 "turn_1" "item_1" Hok); [by vm_compute|done|].
  repeat constructor. by vm_compute.
Defined.


(** The copy that carries a held field over does not re-apply the text mark: a command
    whose two entries both say nothing of its text ends up providing an empty one. *)
Definition command (version : Z) (output : option string) : ItemModel :=
  wireItemToModel (mkThreadItem "item_1" "commandExecution" (Some "turn_1") (Some "item_1") (Some (mkPosition 1 0 None)) None None
    None None None None None output None None None None None None None None None None None None None None (Some version) None None) None.

Lemma carried_field_drops_text_mark :
  itemTextPresence (command 1 (Some "ok")) = text_omitted /\ itemTextPresence (command 2 None) = text_omitted /\
  itemTextPresence (mergeReplacedItem (Some (command 1 (Some "ok"))) (command 2 None)) = text_provided /\
  item_text (mergeReplacedItem (Some (command 1 (Some "ok"))) (command 2 None)) = "".
Proof. by vm_compute. Qed.
