(* ===== verification/StableDelegate.v ===== *)
(** Stable delegates (appwire-client/typescript/stableDelegate.ts and the upsert of
    transcriptItems.ts): snapshots fenced by their revision, their latest activity an
    independent maximum.

    A delegate is a JSON object; its activity timestamps are RFC 3339 texts. *)

From S2P Require Import Prelude JsString Json BootGeneration TranscriptItems ThreadModel.

Local Open Scope string_scope.
Local Open Scope evener_scope.

(** ** Activity timestamps *)

(** [k] decimal digits at the head of a text, and the rest. *)
Fixpoint take_digits (k : nat) (s : string) (acc : Z) : option (Z * string) :=
  match k with
  | O => Some (acc, s)
  | S k' => match s with
            | String c s' => if is_digit c then take_digits k' s' (10 * acc + (Z.of_N (N_of_ascii c) - 48)) else None
            | EmptyString => None
            end
  end%Z.

Definition take_char (c : ascii) (s : string) : option string :=
  match s with String d s' => if Ascii.eqb c d then Some s' else None | EmptyString => None end.

(** The longest run of digits at the head of a text, and the rest. *)
Fixpoint digit_run (s : string) : string * string :=
  match s with
  | String c s' => if is_digit c then let '(a, b) := digit_run s' in (String c a, b) else ("", s)
  | EmptyString => ("", "")
  end.

Record instant_parts := mkParts {
  at_year : Z; at_month : Z; at_day : Z; at_hour : Z; at_minute : Z; at_second : Z;
  at_fraction : string; at_offset : option (Z * Z * Z) }.

(** [(?:\.(\d+))?]. *)
Definition take_fraction (s : string) : option (string * string) :=
  match take_char "." s with
  | None => Some ("", s)
  | Some s' => match digit_run s' with ("", _) => None | (digits, rest) => Some (digits, rest) end
  end.

(** [(Z|([+-])(\d{2}):(\d{2}))$]: [Some None] for Z, else sign, hours and minutes. *)
Definition take_offset (s : string) : option (option (Z * Z * Z)) :=
  match s with
  | "Z" => Some None
  | String c s' =>
      let sign := if Ascii.eqb c "-" then Some (-1)%Z else if Ascii.eqb c "+" then Some 1%Z else None in
      sg ← sign; '(h, s1) ← take_digits 2 s' 0; s2 ← take_char ":" s1; '(m, s3) ← take_digits 2 s2 0;
      if str_truthy s3 then None else Some (Some (sg, h, m))
  | EmptyString => None
  end.

(** [activityTimestamp.exec(value)]. *)
Definition activityTimestamp (value : string) : option instant_parts :=
  '(y, s) ← take_digits 4 value 0; s ← take_char "-" s; '(mo, s) ← take_digits 2 s 0; s ← take_char "-" s;
  '(d, s) ← take_digits 2 s 0; s ← take_char "T" s; '(h, s) ← take_digits 2 s 0; s ← take_char ":" s;
  '(mi, s) ← take_digits 2 s 0; s ← take_char ":" s; '(se, s) ← take_digits 2 s 0;
  '(fraction, s) ← take_fraction s; offset ← take_offset s;
  Some (mkParts y mo d h mi se fraction offset).

(** The day number of a civil date, days beyond the month rolling over. *)
Definition days_of_civil (y m d : Z) : Z :=
  (let y' := if m <=? 2 then y - 1 else y in
   let era := y' / 400 in
   let yoe := y' - era * 400 in
   let doy := (153 * (if m <=? 2 then m + 9 else m - 3) + 2) / 5 + d - 1 in
   era * 146097 + (yoe * 365 + yoe / 4 - yoe / 100 + doy) - 719468)%Z.

(** [Number((fraction ?? "").padEnd(9, "0").slice(0, 9))]. *)
Definition nanos_of (fraction : string) : Z := bigint_of (String.substring 0 9 (fraction ++ "000000000")).

(** [Date.UTC] reads a year below 100 as one of the twentieth century. *)
Definition utc_year (y : Z) : Z := if (y <? 100)%Z then (1900 + y)%Z else y.

Definition activityInstant (value : string) : option (Z * Z) :=
  p ← activityTimestamp value;
  let '(mkParts y mo d h mi se fraction offset) := p in
  if ((mo <? 1) || (12 <? mo) || (d <? 1) || (31 <? d))%Z then None
  else if ((23 <? h) || (59 <? mi) || (59 <? se))%Z then None
  else if match offset with Some (_, oh, om) => (23 <? oh) || (59 <? om) | None => false end%Z then None
  else
    let days := days_of_civil (utc_year y) mo d in
    if negb (bool_decide (civil_of_days days = (y, mo, d))) then None
    else
      let off := match offset with Some (sg, oh, om) => sg * (oh * 3600 + om * 60) | None => 0 end%Z in
      Some ((days * 86400 + h * 3600 + mi * 60 + se - off)%Z, nanos_of fraction).

Definition activityAfter (candidate current : option string) : bool :=
  match candidate with
  | None => false
  | Some a =>
      if blank a then false
      else match current with
           | None => true
           | Some b =>
               if blank b then true
               else match activityInstant a, activityInstant b with
                    | Some (s1, n1), Some (s2, n2) => if (s1 =? s2)%Z then (n2 <? n1)%Z else (s2 <? s1)%Z
                    | _, _ => false
                    end
           end
  end.

Example instants :
  activityInstant "2026-02-28T23:59:59.5+01:00" = Some (1772319599, 500000000)%Z /\
  activityInstant "2026-02-29T00:00:00Z" = None /\ activityInstant "2024-02-29T00:00:60Z" = None /\
  activityInstant "0099-01-01T00:00:00Z" = None /\ activityInstant "2026-02-28T23:59:59." = None.
Proof. vm_compute. done. Qed.

(** ** Joining two snapshots *)

Definition latestActivityAt (d : json_object) : option string := as_string (obj_get "latestActivityAt" d).
Definition projectionRevision (d : json_object) : Z := default 0%Z (as_number (obj_get "projectionRevision" d)).
Definition delegateId (d : json_object) : option string := as_string (obj_get "delegateId" d).

(** The winner's fields with the later activity of the two; [None] where the source
    returns the winner itself. *)
Definition joinDelegateState (incoming current : json_object) (incomingWins : bool) : option json_object :=
  let winner := if incomingWins then incoming else current in
  let other := if incomingWins then current else incoming in
  if activityAfter (latestActivityAt other) (latestActivityAt winner)
  then match latestActivityAt other with
       | Some a => if bool_decide (latestActivityAt winner = Some a) then None
                   else Some (obj_set "latestActivityAt" (JStr a) winner)
       | None => None
       end
  else None.

(** [mergeStableDelegate]; [None] where it returns [current] itself. *)
Definition mergeStableDelegate (current incoming : json_object) : option json_object :=
  let incomingWins := (projectionRevision current <? projectionRevision incoming)%Z in
  let joined := joinDelegateState incoming current incomingWins in
  if incomingWins then Some (cloneStableDelegate (default incoming joined)) else joined.

(** [None] where the source returns the list itself. *)
Definition upsertStableDelegate (delegates : list json_object) (incoming : json_object) : option (list json_object) :=
  match list_find (fun d => delegateId d = delegateId incoming) delegates with
  | None => Some (delegates ++ [cloneStableDelegate incoming])%list
  | Some (index, current) =>
      match mergeStableDelegate current incoming with
      | None => None
      | Some merged => Some (<[index := merged]> delegates)
      end
  end.
