(* ===== verification/WarningFold.v ===== *)
(** The fold of a warning notification into the one shape every warning row reads
    (appwire-client/typescript/warningFold.ts, warningText.ts), with the JSON text of a
    pruned frame for a warning that carries no message.

    A character is one code unit below 256, so no surrogate pair is ever cut. The
    ellipsis the pruning prints is a parameter. *)

From S2P Require Import Prelude JsString Json.
From stdpp Require Import pretty.

Local Open Scope string_scope.

Class Glyphs := { ellipsis : string }.

Definition RAW_WARNING_FRAME_MAX_CHARS : nat := 2000.
Definition RAW_WARNING_FRAME_MAX_ARRAY_ITEMS : nat := 50.
Definition RAW_WARNING_FRAME_MAX_OBJECT_KEYS : nat := 50.
Definition RAW_WARNING_FRAME_MAX_DEPTH : nat := 6.
Definition RAW_WARNING_FRAME_MAX_NODES : nat := 500.

(** [hasWarningText] of a string: it holds a character that is not white space. *)
Definition hasWarningText (s : string) : bool := negb (all_space s).

(** [s.slice(start)] and [s.slice(start, start + max)], in code units. *)
Definition slice_from (start : nat) (s : string) : string := String.substring start (String.length s - start) s.

Definition boundedPrefix (s : string) (maxCodePoints start : nat) : string :=
  if (String.length s - start <=? maxCodePoints)%nat then (if (start =? 0)%nat then s else slice_from start s)
  else String.substring 0 maxCodePoints (String.substring start (maxCodePoints * 2) s).

Definition boundedCodePoints (s : string) : string := boundedPrefix s RAW_WARNING_FRAME_MAX_CHARS 0.

(** [value.search(/\S/)] of a text that has content. *)
Fixpoint search_content (s : string) : nat :=
  match s with
  | EmptyString => 0
  | String c s' => if is_js_space c then S (search_content s') else 0
  end.

Definition boundedWarningText (value : option json) : option string :=
  match value with
  | Some (JStr s) =>
      if negb (hasWarningText s) then None
      else if (String.length s <=? RAW_WARNING_FRAME_MAX_CHARS)%nat then Some s
      else Some (boundedPrefix s RAW_WARNING_FRAME_MAX_CHARS (search_content s))
  | _ => None
  end.

(** ** The raw frame *)

Section raw_frame.
Context `{Glyphs}.

Definition bounded_string (s : string) : string :=
  let bounded := boundedPrefix s RAW_WARNING_FRAME_MAX_CHARS 0 in
  if String.eqb bounded s then s else bounded ++ ellipsis.

(** The first free name of [prefix…], [prefix…#2], [prefix…#3] and so on. *)
Fixpoint free_key (fuel collision : nat) (prefix : string) (pruned : json_object) (key : string) : string :=
  match fuel with
  | O => key
  | S fuel' => if obj_has key pruned
               then free_key fuel' (S collision) prefix pruned (prefix ++ ellipsis ++ "#" ++ pretty (N.of_nat collision))
               else key
  end.

(** [prunedForStringify], with the budget left. [fuel] bounds the nesting, which the
    source cuts off at its depth limit. *)
Fixpoint prunedForStringify (fuel : nat) (value : json) (depth budget : nat) : json * nat :=
  match budget with
  | O => (match value with JStr _ => JStr "" | _ => JStr ellipsis end, 0)%nat
  | S budget =>
      match value with
      | JStr s => (JStr (bounded_string s), budget)
      | JArr _ | JObj _ =>
          if (RAW_WARNING_FRAME_MAX_DEPTH <=? depth)%nat then (JStr ellipsis, budget)
          else match fuel with
               | O => (JStr ellipsis, budget)
               | S fuel' =>
                   match value with
                   | JArr items =>
                       let '(l, rest) := foldl (fun s item =>
                         let '(v, rest) := prunedForStringify fuel' item (S depth) s.2 in ((s.1 ++ [v])%list, rest))
                         ([], budget) (take RAW_WARNING_FRAME_MAX_ARRAY_ITEMS items) in
                       (JArr l, rest)
                   | JObj fields =>
                       let '(o, rest) := foldl (fun (s : json_object * nat) kv =>
                         if (s.2 =? 0)%nat then s
                         else
                           let prefix := boundedPrefix kv.1 RAW_WARNING_FRAME_MAX_CHARS 0 in
                           let key := if String.eqb prefix kv.1 then kv.1 else prefix ++ ellipsis in
                           let key := free_key (S (length s.1)) 2 prefix s.1 key in
                           let '(v, rest) := prunedForStringify fuel' kv.2 (S depth) s.2 in (obj_set key v s.1, rest))
                         ([], budget) (take RAW_WARNING_FRAME_MAX_OBJECT_KEYS fields) in
                       (JObj o, rest)
                   | _ => (value, budget)
                   end
               end
      | _ => (value, budget)
      end
  end.

(** [JSON.stringify]. *)
Definition hex_lower (n : N) : ascii := ascii_of_N (if (n <? 10)%N then 48 + n else 87 + n)%N.

Definition escape_char (c : ascii) : string :=
  let n := N_of_ascii c in
  if (n =? 34)%N then "\" ++ String c "" else if (n =? 92)%N then "\\"
  else if (n =? 8)%N then "\b" else if (n =? 9)%N then "\t" else if (n =? 10)%N then "\n"
  else if (n =? 12)%N then "\f" else if (n =? 13)%N then "\r"
  else if (n <? 32)%N then "\u00" ++ String (hex_lower (n / 16)) (String (hex_lower (n mod 16)) "")
  else String c "".

Definition quote : string := String (ascii_of_nat 34) "".
Definition json_string (s : string) : string :=
  quote ++ String.concat "" (escape_char <$> list_ascii_of_string s) ++ quote.

Fixpoint stringify (v : json) : string :=
  match v with
  | JNull => "null"
  | JBool b => if b then "true" else "false"
  | JNum n => pretty n
  | JStr s => json_string s
  | JArr l => "[" ++ String.concat "," (map stringify l) ++ "]"
  | JObj o => "{" ++ String.concat "," (map (fun kv => json_string kv.1 ++ ":" ++ stringify kv.2) o) ++ "}"
  end.

Definition rawWarningFrame (params : json_object) : string :=
  boundedCodePoints
    (stringify (prunedForStringify (S RAW_WARNING_FRAME_MAX_DEPTH) (JObj params) 0 RAW_WARNING_FRAME_MAX_NODES).1).

(** ** The fold *)

Record WarningFold := mkWarningFold {
  fold_text : string; fold_title : option string; fold_hint : option string; fold_source : option string;
  fold_code : option string }.

Definition warningMessage (params : json_object) : string :=
  match boundedWarningText (obj_get "message" params) with
  | Some m => m
  | None =>
      match boundedWarningText (obj_get "warning" params) with
      | Some w => w
      | None =>
          match obj_get "warning" params with
          | Some (JObj w) => default "" (boundedWarningText (obj_get "message" w))
          | _ => ""
          end
      end
  end.

Definition foldWarningParams (params : json_object) : WarningFold :=
  let text := warningMessage params in
  let field k := boundedWarningText (obj_get k params) in
  mkWarningFold
    (if str_truthy text then text
     else match field "title", field "hint" with
          | None, None => rawWarningFrame params
          | _, _ => ""
          end)
    (field "title") (field "hint") (field "source") (field "code").
End raw_frame.

(** ** Bounds *)

Lemma length_substring n m s : (String.length (String.substring n m s) <= m)%nat.
Proof.
  revert n m. induction s as [|c s IH]; intros [|n] [|m]; simpl; try lia.
  - specialize (IH 0%nat m). lia.
  - apply (IH n 0%nat).
  - apply (IH n (S m)).
Qed.

Lemma boundedPrefix_length s max start : (String.length (boundedPrefix s max start) <= max)%nat.
Proof.
  unfold boundedPrefix, slice_from. destruct (Nat.leb_spec (String.length s - start) max) as [Hle|].
  - destruct (Nat.eqb_spec start 0) as [->|]; [lia|]. pose proof (length_substring start (String.length s - start) s). lia.
  - apply length_substring.
Qed.

Lemma boundedWarningText_length v s :
  boundedWarningText v = Some s -> (String.length s <= RAW_WARNING_FRAME_MAX_CHARS)%nat.
Proof.
  unfold boundedWarningText. destruct v as [[| | |t| |]|]; try done. destruct (negb (hasWarningText t)); [done|].
  destruct (Nat.leb_spec (String.length t) RAW_WARNING_FRAME_MAX_CHARS); [by intros [= <-]|].
  intros [= <-]. apply boundedPrefix_length.
Qed.

(** The window kept of a text starts at its content, so it has content. *)
Lemma content_at t : hasWarningText t = true -> exists c, String.get (search_content t) t = Some c /\ is_js_space c = false.
Proof.
  unfold hasWarningText. induction t as [|c t IH]; [done|]. simpl. destruct (is_js_space c) eqn:E; simpl; [exact IH|]. eauto.
Qed.

Lemma all_space_get t n c : String.get n t = Some c -> all_space t = true -> is_js_space c = true.
Proof.
  revert n. induction t as [|d t IH]; intros [|n]; simpl; try done; intros Hg [? ?]%andb_prop; [naive_solver|eauto].
Qed.

Lemma get_substring t n m : (0 < m)%nat -> String.get 0 (String.substring n m t) = String.get n t.
Proof.
  revert n. induction t as [|c t IH]; intros [|n] Hm; destruct m as [|m]; simpl; try done; try lia. apply IH. lia.
Qed.

Lemma boundedWarningText_content v s : boundedWarningText v = Some s -> hasWarningText s = true.
Proof.
  unfold boundedWarningText. destruct v as [[| | |t| |]|]; try done.
  destruct (hasWarningText t) eqn:Ht; [|done]. simpl. destruct (Nat.leb_spec (String.length t) RAW_WARNING_FRAME_MAX_CHARS); [by intros [= <-]|].
  intros [= <-]. destruct (content_at t Ht) as (c & Hc & Hsp). unfold hasWarningText. apply negb_true_iff.
  destruct (all_space _) eqn:E; [|done]. exfalso.
  enough (String.get 0 (boundedPrefix t RAW_WARNING_FRAME_MAX_CHARS (search_content t)) = Some c) as Hg.
  { rewrite (all_space_get _ _ _ Hg E) in Hsp. done. }
  unfold boundedPrefix, slice_from. destruct (Nat.leb_spec (String.length t - search_content t) RAW_WARNING_FRAME_MAX_CHARS) as [Hle|Hgt].
  - destruct (Nat.eqb_spec (search_content t) 0) as [E0|]; [by rewrite E0 in Hc|].
    assert (search_content t < String.length t)%nat; [|rewrite get_substring; [done|lia]].
    clear -Hc. revert Hc. generalize (search_content t). induction t as [|d t IH]; intros [|n]; simpl; try done; [lia|].
    intros Hn%IH. lia.
  - rewrite !get_substring; [done|unfold RAW_WARNING_FRAME_MAX_CHARS in *; lia..].
Qed.
