(* ===== verification/Reducer.v ===== *)
(** The fold of live notifications into the thread model (appwire-client/typescript/
    reducer.ts). *)

From S2P Require Import Prelude JsString Json JsMap BootGeneration TranscriptItems TranscriptHistory TranscriptOverlay.
From S2P Require Import ThreadModel ThreadReads StableDelegate WarningFold.
From stdpp Require Import pretty.

Local Open Scope string_scope.
Local Open Scope evener_scope.

(** ** Notifications *)

Record HistoryUpdatedParams := mkHistoryUpdated {
  hu_boot : string; hu_epoch : Z; hu_snapshot : SnapshotIdentity;
  hu_turns : option (list Turn); hu_items : option (list ThreadItem) }.

Record ThreadStatusChangedParams := mkStatusChanged {
  sc_status : ThreadStatus; sc_activeTurnId : option string; sc_failedToolCalls : option Z;
  sc_askPending : option bool; sc_capabilities : option json }.

(** A notification's method with what its case reads of the params. *)
Inductive NotificationBody :=
  | HistoryUpdated (p : HistoryUpdatedParams)
  | ThreadResync (boot : option string) (epoch : option Z)
  | OverlayUpserted (item : OverlayItem)
  | OverlayDelta (key field delta : string)
  | OverlayReset (streamId : string)
  | OverlayEnd (roundId : string)
  | QueueChanged (queue : json)
  | ConversationProvenanceChanged
  | StatusChanged (p : ThreadStatusChangedParams)
  | ModelChanged (modelProvider model : string) (levels : option (list string)) (supportsReasoning : option bool)
  | ReasoningEffortChanged (effort : option string)
  | GoalUpdated (goal : option json)
  | NotesUpdated (humanNote agentNote : option string)
  | UrlsUpdated (urls : option (list json))
  | VisionModelChanged (visionModel : string)
  | TaskUpdated (total done : Z) (cancelled remaining : option Z) (current : option json)
  | NameChanged (name : string)
  | EscalationRequested (e : SandboxEscalationRequested)
  | EscalationResolved (id : string)
  | JobStarted
  | JobFinished
  | DelegateUpdated (delegate : json_object)
  | JobsTreeUpdated (revision : Z)
  | Warning (params : json_object)
  | ModelRetry (attempt maxAttempts delayMs : Z) (errorClass : option string) (statusCode : option Z)
      (turnId model : option string) (groupElapsedMs attemptCap : Z)
  | Unknown (method : string).

Record AnyNotification := mkNotification {
  n_ref : option string; n_threadId : option string; n_body : NotificationBody }.

Inductive NotificationRoutingKey := key_ref (ref : string) | key_threadId (threadId : string).

Definition notificationRoutingKey (n : AnyNotification) : option NotificationRoutingKey :=
  match n_ref n, n_threadId n with
  | Some r, _ => Some (key_ref r)
  | None, Some t => Some (key_threadId t)
  | None, None => None
  end.

Definition notificationTargetsThread (n : AnyNotification) (m : ThreadModel) : bool :=
  match notificationRoutingKey n with
  | None => false
  | Some (key_ref r) => r =? th_ref m
  | Some (key_threadId t) => t =? th_threadId m
  end.

(** ** History and overlay *)

Section reducer.
Context `{S : SameObject} `{G : Glyphs}.

Definition historyUpdated_signal (p : HistoryUpdatedParams) : HistorySignal :=
  mkSignal (Some (hu_boot p)) (Some (hu_epoch p)) (Some (snapshot_incarnation (hu_snapshot p))).

(** The model after it, and whether the recorded turns became another array. *)
Definition applyHistoryUpdated (m : ThreadModel) (p : HistoryUpdatedParams) (now : Z) : ThreadModel * bool :=
  let held := default EMPTY_HISTORY (th_history m) in
  let live := touch now m in
  match failed held with
  | Some _ => (live, false)
  | None =>
      match classifySignal held (historyUpdated_signal p) with
      | sig_invalidate => (set_history (invalidated held (historyUpdated_signal p)) live, absent (th_history m))
      | sig_ignore => (live, false)
      | sig_apply =>
          if negb (absent (invalidatedAtGeneration held)) then (live, false)
          else match mergeHistory (hist_turns held) (wireFragment (hu_turns p) (hu_items p) (modelImageSessionRoute m)) false with
               | None => (live, false)
               | Some turns => (withDisplay live (with_turns turns held) (default [] (th_overlay m)), true)
               end
      end
  end.

Definition applyResync (m : ThreadModel) (boot : option string) (epoch : option Z) (now : Z) : ThreadModel :=
  match th_history m with
  | None => m
  | Some held =>
      let live := touch now m in
      if absent (truthy_s boot) && absent epoch then live
      else
        let signal := mkSignal (truthy_s boot) epoch None in
        if bool_decide (classifySignal held signal = sig_invalidate) then set_history (invalidated held signal) live
        else live
  end.

Definition with_wire_text (text output : option string) (i : ThreadItem) : ThreadItem :=
  mkThreadItem (wire_id i) (wire_type i) (wire_turnId i) (wire_transcriptKey i) (wire_position i)
    (wire_transcriptEntryIndex i) text (wire_images i) (wire_toolName i) (wire_callId i) (wire_argumentsJson i)
    (wire_description i) output (wire_error i) (wire_outputImages i) (wire_status i) (wire_prevalOnly i)
    (wire_startedAt i) (wire_completedAt i) (wire_exitCode i) (wire_raw i) (wire_eventKind i) (wire_source i)
    (wire_steeringKind i) (wire_clientMutationId i) (wire_authorship i) (wire_actor i) (wire_version i)
    (wire_roundId i) (wire_completedAtEntry i).

(** The delta appended to the item's output or to its text. *)
Definition append_delta (field delta : string) (o : OverlayItem) : OverlayItem :=
  let i := ov_item o in
  mkOverlay (ov_key o) (ov_kind o) (ov_turnId o) (ov_roundId o) (ov_streamId o) (ov_callId o) (ov_historyKey o)
    (ov_anchor o)
    (if field =? "output" then with_wire_text (wire_text i) (Some (default "" (wire_output i) ++ delta)) i
     else with_wire_text (Some (default "" (wire_text i) ++ delta)) (wire_output i) i).

(** [displayTurnSources.get(turn)?.overlay.includes(held)]. *)
Definition shows (held : OverlayItem) (d : DisplayTurn) : bool :=
  match shown_source d with Some s => existsb (fun o => same_overlay o held) (source_overlay s) | None => false end.

(** Only the display turn showing the item is rebuilt; one no turn shows takes the full
    derivation. *)
Definition applyOverlayDelta (m : ThreadModel) (key field delta : string) (now : Z) : ThreadModel :=
  let live := touch now m in
  match th_overlay m ≫= map_get key, th_history m with
  | Some held, Some history =>
      if negb (historyIsLive (Some history)) then live
      else
        let next := append_delta field delta held in
        let overlay := map_put key next (default [] (th_overlay m)) in
        match list_find (fun d => shows held d = true) (th_turns m) with
        | Some (index, turn) =>
            match shown_source turn with
            | Some source =>
                let rebuilt := buildDisplayTurn (turn_id (shown turn))
                  (mkSource (source_recorded source)
                    ((fun o => if same_overlay o held then next else o) <$> source_overlay source))
                  (modelImageSessionRoute m) in
                set_transcript (<[index := rebuilt]> (th_turns m)) (Some history) (Some overlay) live
            | None => withDisplay live history overlay
            end
        | None => withDisplay live history overlay
        end
  | _, _ => live
  end.

(** [change] answers [None] where the source's change returns its argument itself. *)
Definition applyOverlayChange (m : ThreadModel) (now : Z) (change : Overlay -> option Overlay) : ThreadModel :=
  let live := touch now m in
  match th_history m with
  | Some history =>
      if historyIsLive (Some history)
      then match change (default [] (th_overlay m)) with
           | None => live
           | Some overlay => withDisplay live history overlay
           end
      else live
  | None => live
  end.

(** [filterOverlay], [None] where nothing is dropped. *)
Definition drop_overlay (drop : OverlayItem -> bool) (overlay : Overlay) : option Overlay :=
  let kept := filterOverlay overlay drop in
  if (length kept =? length overlay)%nat then None else Some kept.

Definition is_ended_round (roundId : string) (o : OverlayItem) : bool :=
  negb (ov_kind o =? "notice") && bool_decide (ov_roundId o = Some roundId).

(** Ends a round without dropping slots whose history has not arrived. *)
Definition applyOverlayEndForTranscriptHandoff (m : ThreadModel) (n : AnyNotification) (roundId : string) (now : Z) :
    ThreadModel :=
  if negb (notificationTargetsThread n m) then m
  else applyOverlayChange m now (fun overlay =>
    match drop_overlay (is_ended_round roundId) overlay with
    | None => None
    | Some remaining =>
        let ended := filterOverlay overlay (fun o => negb (is_ended_round roundId o)) in
        let held := match th_history m with Some h => hist_turns h | None => [] end in
        Some (foldl (fun r kv => map_put kv.1 kv.2 r) remaining (pruneCoveredOverlay held ended))
    end).

(** ** Scalars *)

Definition resolvePendingEscalationModel (m : ThreadModel) (id : string) : ThreadModel :=
  if existsb (fun e => escalationId e =? id) (th_pendingEscalations m)
  then set_escalations (filter (fun e => escalationId e <> id) (th_pendingEscalations m)) m
  else m.

Definition upsertPendingEscalation (escalations : list SandboxEscalationRequested) (incoming : SandboxEscalationRequested) :
    list SandboxEscalationRequested :=
  match list_find (fun e => escalationId e = escalationId incoming) escalations with
  | None => (escalations ++ [incoming])%list
  | Some (idx, _) => <[idx := incoming]> escalations
  end.

Definition THREAD_SCALAR_ONLY_METHODS : list string :=
  ["thread/queueChanged"; "thread/conversation-provenance/changed"; "thread/status/changed"; "thread/model/changed";
   "thread/reasoning-effort/changed"; "evener/goal/updated"; "evener/notes/updated"; "evener/urls/updated";
   "thread/vision-model/changed"; "evener/task/updated"; "evener/thread/name/changed";
   "evener/sandbox/escalation/requested"; "evener/sandbox/escalation/resolved"; "evener/job/started";
   "evener/job/finished"; "evener/delegate/updated"; "evener/jobs/treeUpdated"; "evener/thread/modelRetry"].

Definition notificationTouchesTranscript (method : string) : bool := negb (str_in method THREAD_SCALAR_ONLY_METHODS).

(** The wire name of a notification's method. *)
Definition method_name (b : NotificationBody) : string :=
  match b with
  | HistoryUpdated _ => "history/updated"
  | ThreadResync _ _ => "evener/thread/resync"
  | OverlayUpserted _ => "overlay/upserted"
  | OverlayDelta _ _ _ => "overlay/delta"
  | OverlayReset _ => "overlay/reset"
  | OverlayEnd _ => "overlay/end"
  | QueueChanged _ => "thread/queueChanged"
  | ConversationProvenanceChanged => "thread/conversation-provenance/changed"
  | StatusChanged _ => "thread/status/changed"
  | ModelChanged _ _ _ _ => "thread/model/changed"
  | ReasoningEffortChanged _ => "thread/reasoning-effort/changed"
  | GoalUpdated _ => "evener/goal/updated"
  | NotesUpdated _ _ => "evener/notes/updated"
  | UrlsUpdated _ => "evener/urls/updated"
  | VisionModelChanged _ => "thread/vision-model/changed"
  | TaskUpdated _ _ _ _ _ => "evener/task/updated"
  | NameChanged _ => "evener/thread/name/changed"
  | EscalationRequested _ => "evener/sandbox/escalation/requested"
  | EscalationResolved _ => "evener/sandbox/escalation/resolved"
  | JobStarted => "evener/job/started"
  | JobFinished => "evener/job/finished"
  | DelegateUpdated _ => "evener/delegate/updated"
  | JobsTreeUpdated _ => "evener/jobs/treeUpdated"
  | Warning _ => "warning"
  | ModelRetry _ _ _ _ _ _ _ _ _ => "evener/thread/modelRetry"
  | Unknown method => method
  end.

(** The running turn is the frame's, and none when it names none. *)
Definition applyStatusChanged (m : ThreadModel) (p : ThreadStatusChangedParams) : ThreadModel :=
  let st := th_status m in
  set_running (truthy_s (sc_activeTurnId p))
    (set_status
      (mkStatusFields (sc_status p)
        (if status_type (sc_status p) =? "active" then st_activeTurnStartedAt st else None)
        (sc_failedToolCalls p ?: st_failedToolCalls st) (default (st_askPending st) (sc_askPending p))
        (default (st_capabilities st) (sc_capabilities p))
        (match sc_capabilities p with Some _ => Some from_statusFrame | None => st_capabilitySource st end)) m).

Definition task_aggregate (total done : Z) (cancelled remaining : option Z) (current : option json) : TaskAggregate :=
  mkTasks total done cancelled
    (match remaining, cancelled with
     | Some r, _ => Some r
     | None, Some c => Some (Z.max 0 (total - done - c))
     | None, None => None
     end) (truthy_json current).

Definition with_name name n := mkNoteFields name (nt_goal n) (nt_humanNote n) (nt_agentNote n) (nt_sessionUrls n) (nt_queue n) (nt_tasks n).
Definition with_goal goal n := mkNoteFields (nt_name n) goal (nt_humanNote n) (nt_agentNote n) (nt_sessionUrls n) (nt_queue n) (nt_tasks n).
Definition with_texts human agent n := mkNoteFields (nt_name n) (nt_goal n) human agent (nt_sessionUrls n) (nt_queue n) (nt_tasks n).
Definition with_urls urls n := mkNoteFields (nt_name n) (nt_goal n) (nt_humanNote n) (nt_agentNote n) urls (nt_queue n) (nt_tasks n).
Definition with_queue queue n := mkNoteFields (nt_name n) (nt_goal n) (nt_humanNote n) (nt_agentNote n) (nt_sessionUrls n) queue (nt_tasks n).
Definition with_tasks tasks n := mkNoteFields (nt_name n) (nt_goal n) (nt_humanNote n) (nt_agentNote n) (nt_sessionUrls n) (nt_queue n) tasks.

(** ** Warnings *)

(** The item a warning becomes: its id counts the turn's warnings. *)
Definition warning_item (turnId : string) (t : TurnModel) (params : json_object) : ItemModel :=
  let folded := foldWarningParams params in
  let count := length (filter (fun i => item_type i = "warning") (turn_items t)) in
  let part k (v : option string) : json_object := match v with Some s => [(k, JStr s)] | None => [] end in
  {| item_id := "item_warning_live_" ++ turnId ++ "_" ++ pretty (N.of_nat count);
     item_turnId := turnId; item_type := "warning"; item_text := fold_text folded; item_pendingText := None;
     item_status := Some "completed"; item_transcriptKey := None; item_position := None; item_version := None;
     item_roundId := None; item_completedAtEntry := None; item_overlayKey := None;
     item_payload := mkPayload None None None None None None None None None None None None None None None;
     item_detail := mkDetail None None None None None None
       (Some (JObj (part "source" (fold_source folded) ++ part "title" (fold_title folded) ++
                    part "hint" (fold_hint folded) ++ part "code" (fold_code folded))%list));
     item_textPresence := None; item_identityOnly := false |}.

(** [mapTurn]: the new turn objects carry no display source. *)
Definition mapTurn (turns : list DisplayTurn) (turnId : string) (f : TurnModel -> TurnModel) : list DisplayTurn :=
  (fun d => if turn_id (shown d) =? turnId then mkDisplay (f (shown d)) None else d) <$> turns.

(** A model that went through a versioned read shows warnings as overlay notices. *)
Definition applyWarning (m : ThreadModel) (params : json_object) (now : Z) : ThreadModel :=
  match truthy_s (th_activeTurnId m) with
  | Some turnId =>
      if match th_history m with Some h => str_truthy (id_boot (hist_identity h)) | None => false end then touch now m
      else touch now (set_turns (mapTurn (th_turns m) turnId (fun t =>
             with_items (turn_items t ++ [warning_item turnId t params])%list t)) m)
  | None => touch now m
  end.

(** ** The fold *)

(** [applyNotificationToThread], and whether the recorded turns became another array. *)
Definition applyNotificationToThread (m : ThreadModel) (n : AnyNotification) (now : Z) : ThreadModel * bool :=
  if negb (notificationTargetsThread n m) then (m, false)
  else
    let nt := th_notes m in
    let md := th_model m in
    let jb := th_jobs m in
    match n_body n with
    | HistoryUpdated p => applyHistoryUpdated m p now
    | ThreadResync boot epoch => (applyResync m boot epoch now, false)
    | OverlayUpserted item => (applyOverlayChange m now (fun o => Some (map_put (ov_key item) item o)), false)
    | OverlayDelta key field delta => (applyOverlayDelta m key field delta now, false)
    | OverlayReset streamId =>
        (applyOverlayChange m now (drop_overlay (fun o => bool_decide (ov_streamId o = Some streamId))), false)
    | OverlayEnd roundId => (applyOverlayChange m now (drop_overlay (is_ended_round roundId)), false)
    | QueueChanged queue => (touch now (set_notes (with_queue (Some queue) nt) m), false)
    | ConversationProvenanceChanged => (touch now m, false)
    | StatusChanged p => (touch now (applyStatusChanged m p), false)
    | ModelChanged provider model levels supports =>
        (touch now (set_model (mkModelFields provider model (default [] levels) (default false supports)
           (md_reasoningEffort md) (md_visionModel md)) m), false)
    | ReasoningEffortChanged effort =>
        (touch now (set_model (mkModelFields (md_modelProvider md) (md_model md) (md_reasoningEffortLevels md)
           (md_supportsReasoning md) effort (md_visionModel md)) m), false)
    | GoalUpdated goal => (touch now (set_notes (with_goal goal nt) m), false)
    | NotesUpdated human agent => (touch now (set_notes (with_texts (default "" human) (default "" agent) nt) m), false)
    | UrlsUpdated urls => (touch now (set_notes (with_urls (default [] urls) nt) m), false)
    | VisionModelChanged visionModel =>
        (touch now (set_model (mkModelFields (md_modelProvider md) (md_model md) (md_reasoningEffortLevels md)
           (md_supportsReasoning md) (md_reasoningEffort md) visionModel) m), false)
    | TaskUpdated total done cancelled remaining current =>
        (touch now (set_notes (with_tasks (Some (task_aggregate total done cancelled remaining current)) nt) m), false)
    | NameChanged name => (touch now (set_notes (with_name name nt) m), false)
    | EscalationRequested e => (touch now (set_escalations (upsertPendingEscalation (th_pendingEscalations m) e) m), false)
    | EscalationResolved id => (touch now (resolvePendingEscalationModel m id), false)
    | JobStarted | JobFinished =>
        (touch now (set_jobs (mkJobFields (jb_delegates jb) (Some now) (jb_jobsTreeRevision jb)) m), false)
    | DelegateUpdated delegate =>
        let delegates := match upsertStableDelegate (default [] (jb_delegates jb)) delegate with
                         | Some l => Some l | None => jb_delegates jb end in
        (touch now (set_jobs (mkJobFields delegates (Some now) (jb_jobsTreeRevision jb)) m), false)
    | JobsTreeUpdated revision =>
        if match jb_jobsTreeRevision jb with Some r => (revision <=? r)%Z | None => false end then (m, false)
        else (set_jobs (mkJobFields (jb_delegates jb) (Some now) (Some revision)) m, false)
    | Warning params => (applyWarning m params now, false)
    | ModelRetry attempt maxAttempts delayMs errorClass statusCode turnId model groupElapsedMs attemptCap =>
        (set_modelRetry (Some (mkRetry attempt maxAttempts delayMs (truthy_s errorClass) (truthy_z statusCode)
           (truthy_s turnId) (truthy_s model) groupElapsedMs attemptCap now)) m, false)
    | Unknown _ => (m, false)
    end.

Definition MODEL_OUTPUT_ITEM_TYPES : list string := ["agentMessage"; "reasoning"; "commandExecution"].

(** A pending retry survives everything but the model's own output item landing. *)
Definition applyNotification (m : ThreadModel) (n : AnyNotification) (now : Z) : ThreadModel :=
  let '(next, turns_changed) := applyNotificationToThread m n now in
  if absent (th_modelRetry next) || negb (notificationTargetsThread n m) then next
  else
    let modelOutputCompleted :=
      turns_changed &&
      match n_body n with
      | HistoryUpdated p => existsb (fun i => str_in (wire_type i) MODEL_OUTPUT_ITEM_TYPES) (default [] (hu_items p))
      | _ => false
      end in
    if modelOutputCompleted then set_modelRetry None next else next.
End reducer.
