(* ===== verification/DisplayFacts.v ===== *)
(** Display turns against their reference: every recorded turn with the overlay items
    placed in it, then a placeholder for each other turn an overlay item names. *)

From S2P Require Import Prelude JsString Json JsMap TranscriptItems TranscriptHistory TranscriptOverlay MergeFacts ThreadModel ThreadReads Reducer.

Local Open Scope string_scope.

(** ** The reference *)

Section reference.
Context (recorded : list TurnModel) (overlay : Overlay) (route running : option string).

(** The overlay items a turn shows, in the overlay's order. *)
Definition items_for (id : string) : list OverlayItem :=
  filter (fun o => overlayTurnId o recorded running = id) overlay.*2.

Definition show (t : TurnModel) : DisplayTurn :=
  match items_for (turn_id t) with
  | [] => mkDisplay t None
  | items => buildDisplayTurn (turn_id t) (mkSource (Some t) items) route
  end.

(** The turns history does not hold yet, in the order the overlay first names them. *)
Definition placeholders : list string :=
  filter (fun id => id <> "" /\ id ∉ (turn_id <$> recorded)) (js_set ((fun o => overlayTurnId o recorded running) <$> overlay.*2)).

Definition reference : list DisplayTurn :=
  ((show <$> recorded) ++
  ((fun id => buildDisplayTurn id (mkSource None (items_for id)) route) <$> placeholders))%list.
End reference.

Lemma js_set_snoc {A} `{EqDecision A} (l : list A) x :
  js_set (l ++ [x])%list = if decide (x ∈ l) then js_set l else (js_set l ++ [x])%list.
Proof.
  induction l as [|y l IH]; [done|]. simpl. rewrite IH. destruct (decide (x = y)) as [->|Hne].
  - rewrite (decide_True (P := y ∈ y :: l)) by by left. case_decide; [done|].
    rewrite filter_app, filter_cons_False, filter_nil, app_nil_r by naive_solver. done.
  - destruct (decide (x ∈ l)) as [Hx|Hx].
    + rewrite decide_True by by right. done.
    + rewrite decide_False by (by rewrite not_elem_of_cons). rewrite filter_app, filter_cons_True, filter_nil by done. done.
Qed.

Lemma map_get_keys {A} k (m : js_map A) : map_get k m = None <-> k ∉ m.*1.
Proof.
  induction m as [|[k' v] m IH]; csimpl; [rewrite elem_of_nil; tauto|].
  rewrite not_elem_of_cons. destruct (String.eqb_spec k k'); naive_solver.
Qed.

Lemma map_put_keys {A} k v (m : js_map A) :
  (map_put k v m).*1 = match map_get k m with Some _ => m.*1 | None => (m.*1 ++ [k])%list end.
Proof.
  induction m as [|[k' v'] m IH]; [done|]. csimpl. destruct (String.eqb_spec k k') as [->|]; csimpl; [done|].
  rewrite IH. by destruct (map_get k m).
Qed.

(** The grouping is the filter, id by id, in the order of first appearance. *)
Lemma by_turn_spec recorded running (items : list OverlayItem) :
  let step m o := let id := overlayTurnId o recorded running in
    if String.eqb id "" then m else map_put id (default [] (map_get id m) ++ [o])%list m in
  let m := foldl step [] items in
  (forall id, id <> "" -> map_get id m =
    match filter (fun o => overlayTurnId o recorded running = id) items with [] => None | l => Some l end) /\
  m.*1 = filter (fun id => id <> "") (js_set ((fun o => overlayTurnId o recorded running) <$> items)).
Proof.
  cbv zeta. induction items as [|o items [IH1 IH2]] using rev_ind; [done|]. rewrite foldl_snoc.
  set (m := foldl _ [] items) in *. set (id := overlayTurnId o recorded running) in *. cbn [fst snd].
  rewrite fmap_app. csimpl. fold id. rewrite js_set_snoc. destruct (String.eqb_spec id "") as [E|Hne].
  - split.
    + intros k Hk. rewrite IH1 by done. rewrite filter_app, filter_cons_False, filter_nil, app_nil_r by (fold id; congruence). done.
    + rewrite IH2. case_decide; [done|]. rewrite filter_app, filter_cons_False, filter_nil, app_nil_r by (intros Hc; by apply Hc). done.
  - split.
    + intros k Hk. rewrite filter_app. destruct (decide (id = k)) as [<-|Hn].
      * rewrite map_get_put, filter_cons_True, filter_nil by done. rewrite IH1 by done.
        destruct (filter _ items); done.
      * rewrite map_get_put_ne, filter_cons_False, filter_nil, app_nil_r by done. by apply IH1.
    + rewrite map_put_keys. specialize (IH1 id Hne).
      destruct (decide (id ∈ (fun o => overlayTurnId o recorded running) <$> items)) as [Hin|Hnin].
      * destruct (map_get id m) eqn:E; [by rewrite IH2|]. exfalso. apply list_elem_of_fmap in Hin as (o' & Eo & Ho').
        destruct (filter (fun o => overlayTurnId o recorded running = id) items) eqn:Ef; [|done].
        apply (not_elem_of_nil o'). rewrite <- Ef. by apply list_elem_of_filter.
      * rewrite filter_app, filter_cons_True, filter_nil by done.
        destruct (map_get id m) eqn:E; [|by rewrite IH2]. exfalso. apply Hnin.
        assert (Hk : id ∈ m.*1). { destruct (decide (id ∈ m.*1)) as [|Hk]; [done|]. apply map_get_keys in Hk. congruence. }
        rewrite IH2 in Hk. apply list_elem_of_filter in Hk as [_ Hk]. apply (proj1 (elem_of_js_set _ _)). exact Hk.
Qed.

Lemma by_turn_get recorded overlay running id : id <> "" ->
  map_get id (by_turn recorded overlay running) =
  match items_for recorded overlay running id with [] => None | l => Some l end.
Proof. apply by_turn_spec. Qed.

Lemma by_turn_keys recorded overlay running :
  (by_turn recorded overlay running).*1 =
  filter (fun id => id <> "") (js_set ((fun o => overlayTurnId o recorded running) <$> overlay.*2)).
Proof. apply by_turn_spec. Qed.

Lemma filter_filter_and {A} (P Q : A -> Prop) `{!forall x, Decision (P x)} `{!forall x, Decision (Q x)}
    `{!forall x, Decision (Q x /\ P x)} (l : list A) : filter P (filter Q l) = filter (fun x => Q x /\ P x) l.
Proof.
  induction l as [|x l IH]; [done|]. rewrite !filter_cons. destruct (decide (Q x)), (decide (Q x /\ P x)); rewrite ?filter_cons, ?IH;
    try (destruct (decide (P x))); try done; tauto.
Qed.

(** ** Turns that are what their source builds *)

Definition built (route : option string) (d : DisplayTurn) : Prop :=
  forall s, shown_source d = Some s -> d = buildDisplayTurn (turn_id (shown d)) s route.

Lemma build_source id s route : shown_source (buildDisplayTurn id s route) = Some s.
Proof. done. Qed.

Lemma build_id id s route : (forall t, source_recorded s = Some t -> turn_id t = id) -> turn_id (shown (buildDisplayTurn id s route)) = id.
Proof. intros H. simpl. destruct (source_recorded s) eqn:E; simpl; [by apply H|done]. Qed.

Lemma sameOverlay_eq `{SameObject} l l' : sameOverlayItems l l' = true -> l = l'.
Proof.
  unfold sameOverlayItems. intros [Hl Hall]%andb_prop. apply Nat.eqb_eq in Hl.
  revert l' Hl Hall. induction l as [|x l IH]; intros [|y l'] Hl Hall; try done. simpl in *.
  apply andb_prop in Hall as [Hxy Hall]. f_equal; [by apply same_overlay_eq|]. apply IH; [lia|done].
Qed.

Lemma previous_in previous id d : previous_by_id previous id = Some d -> d ∈ previous /\ turn_id (shown d) = id.
Proof.
  unfold previous_by_id. intros Hl. apply last_Some in Hl as [l' E].
  assert (Hd : d ∈ filter (fun d => turn_id (shown d) = id) previous) by (rewrite E, elem_of_app; right; by apply list_elem_of_singleton).
  apply list_elem_of_filter in Hd. tauto.
Qed.

(** Reusing a turn whose inputs are the same objects changes nothing. *)
Lemma display_reuse `{SameObject} shown_by previous route id rec :
  Forall (built route) previous -> (forall t, rec = Some t -> turn_id t = id) ->
  display shown_by previous route id rec =
  match map_get id shown_by, rec with
  | None, Some t => mkDisplay t None
  | items, _ => buildDisplayTurn id (mkSource rec (default [] items)) route
  end.
Proof.
  intros Hp Hid. unfold display. set (items := map_get id shown_by). set (source := mkSource rec (default [] items)).
  assert (Hr : match previous_by_id previous id with
    | Some prior => match shown_source prior with
      | Some s => if same_recorded (source_recorded s) rec && sameOverlayItems (source_overlay s) (source_overlay source)
                  then prior else buildDisplayTurn id source route
      | None => buildDisplayTurn id source route end
    | None => buildDisplayTurn id source route end = buildDisplayTurn id source route).
  { destruct (previous_by_id previous id) as [prior|] eqn:E; [|done]. apply previous_in in E as [Hin Eid].
    destruct (shown_source prior) as [s|] eqn:Es; [|done]. destruct (_ && _) eqn:Eb; [|done].
    apply andb_prop in Eb as [Er Eo]. apply sameOverlay_eq in Eo.
    rewrite Forall_forall in Hp. rewrite (Hp prior Hin s Es), Eid. f_equal. unfold source in *. destruct s as [r o]. simpl in *.
    subst o. f_equal. unfold same_recorded in Er. destruct r, rec; try done. f_equal. by apply same_turn_eq. }
  destruct items, rec; try done; apply Hr.
Qed.

(** New overlay objects are never the ones a turn was built from. *)
Lemma display_new `{S : SameObject} shown_by previous route id rec :
  (forall l, map_get id shown_by = Some l -> l <> []) -> (rec = None -> map_get id shown_by <> None) ->
  display (H := new_objects) shown_by previous route id rec =
  match map_get id shown_by, rec with
  | None, Some t => mkDisplay t None
  | items, _ => buildDisplayTurn id (mkSource rec (default [] items)) route
  end.
Proof.
  intros Hne Hrec. unfold display. destruct (map_get id shown_by) as [l|] eqn:E; [|destruct rec; [done|by destruct Hrec]].
  specialize (Hne l eq_refl). destruct (previous_by_id previous id) as [prior|]; [|done].
  destruct (shown_source prior) as [s|]; [|done]. simpl.
  assert (sameOverlayItems (H := new_objects) (source_overlay s) l = false) as ->; [|by rewrite andb_false_r].
  unfold sameOverlayItems. destruct l as [|o l]; [done|]. destruct (source_overlay s); simpl; [done|by rewrite andb_false_r].
Qed.

(** ** The derivation is the reference *)

Definition named (recorded : list TurnModel) : Prop := Forall (fun t => turn_id t <> "") recorded.

Lemma displayTurns_by `{SameObject} recorded overlay previous route running :
  named recorded ->
  (forall id rec, id <> "" -> (forall t, rec = Some t -> turn_id t = id) ->
    (rec = None -> map_get id (by_turn recorded overlay running) <> None) ->
    display (by_turn recorded overlay running) previous route id rec =
    match map_get id (by_turn recorded overlay running), rec with
    | None, Some t => mkDisplay t None
    | items, _ => buildDisplayTurn id (mkSource rec (default [] items)) route
    end) ->
  displayTurns recorded overlay previous route running = reference recorded overlay route running.
Proof.
  intros Hn Hd. unfold displayTurns, reference. pose proof (by_turn_get recorded overlay running) as Hget.
  pose proof (by_turn_keys recorded overlay running) as Hks. set (m := by_turn recorded overlay running) in *.
  clearbody m.
  assert (Hshow : forall t, t ∈ recorded -> display m previous route (turn_id t) (Some t) = show recorded overlay route running t).
  { intros t Ht. unfold named in Hn. rewrite Forall_forall in Hn. specialize (Hn t Ht).
    rewrite Hd by (try done; by intros ? [= ->]). unfold show. rewrite Hget by done.
    by destruct (items_for recorded overlay running (turn_id t)). }
  assert (Hkeys : filter (fun id => id ∉ (turn_id <$> recorded)) m.*1 = placeholders recorded overlay running).
  { unfold placeholders. rewrite Hks. apply filter_filter_and. }
  assert (Hplace : forall id, id ∈ placeholders recorded overlay running ->
    display m previous route id None = buildDisplayTurn id (mkSource None (items_for recorded overlay running id)) route).
  { intros id Hid. assert (Hk : id ∈ m.*1) by (rewrite <- Hkeys in Hid; by apply list_elem_of_filter in Hid as [_ ?]).
    unfold placeholders in Hid. apply list_elem_of_filter in Hid as [[Hne _] _]. rewrite Hd; [|done..|].
    - rewrite Hget by done. by destruct (items_for recorded overlay running id).
    - intros _ Hg. by apply map_get_keys in Hg. }
  assert (E : (fun t => display m previous route (turn_id t) (Some t)) <$> recorded =
    show recorded overlay route running <$> recorded).
  { apply list_fmap_ext. intros i t Ht. apply Hshow. by eapply list_elem_of_lookup_2. }
  destruct m as [|kv m'].
  - assert (Hp : placeholders recorded overlay running = []) by (by rewrite <- Hkeys).
    rewrite Hp. simpl. rewrite app_nil_r. unfold plain_turns. apply list_fmap_ext. intros i t Ht.
    assert (Hin : t ∈ recorded) by by eapply list_elem_of_lookup_2. unfold show.
    assert (Ht0 : turn_id t <> "") by (unfold named in Hn; rewrite Forall_forall in Hn; auto).
    specialize (Hget (turn_id t) Ht0). simpl in Hget.
    by destruct (items_for recorded overlay running (turn_id t)).
  - rewrite Hkeys, E. f_equal. apply list_fmap_ext. intros i id Hi. apply Hplace. by eapply list_elem_of_lookup_2.
Qed.

Lemma displayTurns_reference `{SameObject} recorded overlay previous route running :
  named recorded -> Forall (built route) previous ->
  displayTurns recorded overlay previous route running = reference recorded overlay route running.
Proof. intros Hn Hp. apply displayTurns_by; [done|]. intros. by apply display_reuse. Qed.

Lemma displayTurns_new `{S : SameObject} recorded overlay previous route running :
  named recorded ->
  displayTurns (H := new_objects) recorded overlay previous route running = reference recorded overlay route running.
Proof.
  intros Hn. apply displayTurns_by; [done|]. intros id rec Hid _ Hrec. apply display_new; [|done].
  intros l Hl ->. rewrite by_turn_get in Hl by done. by destruct (items_for recorded overlay running id).
Qed.

(** ** What the reference shows *)

Lemma reference_built recorded overlay route running : Forall (built route) (reference recorded overlay route running).
Proof.
  unfold reference. apply Forall_app. split; apply Forall_fmap, Forall_forall; intros x _ s; simpl.
  - unfold show. destruct (items_for recorded overlay running (turn_id x)) as [|o l]; [done|]. by intros [= <-].
  - by intros [= <-].
Qed.

(** A turn shows exactly the items placed in it, and no two turns share an id. *)
Lemma reference_shows recorded overlay route running d s :
  d ∈ reference recorded overlay route running -> shown_source d = Some s ->
  source_overlay s = items_for recorded overlay running (turn_id (shown d)).
Proof.
  unfold reference. rewrite elem_of_app. intros [Hd|Hd] Hs; apply list_elem_of_fmap in Hd as (x & -> & _).
  - unfold show in *. destruct (items_for recorded overlay running (turn_id x)) as [|o l] eqn:E; [done|].
    rewrite build_source in Hs. simplify_eq. rewrite build_id by (simpl; by intros ? [= ->]). done.
  - rewrite build_source in Hs. simplify_eq. done.
Qed.

Lemma reference_ids recorded overlay route running : 
  (fun d => turn_id (shown d)) <$> reference recorded overlay route running =
  ((turn_id <$> recorded) ++ placeholders recorded overlay running)%list.
Proof.
  unfold reference. rewrite fmap_app, <- !list_fmap_compose. f_equal.
  - apply list_fmap_ext. intros i t _. simpl. unfold show.
    destruct (items_for recorded overlay running (turn_id t)); [done|]. by apply build_id; simpl; intros ? [= ->].
  - apply list_fmap_id.
Qed.

Lemma reference_ids_distinct recorded overlay route running : NoDup (turn_id <$> recorded) ->
  NoDup ((fun d => turn_id (shown d)) <$> reference recorded overlay route running).
Proof.
  intros Hnd. rewrite reference_ids. apply NoDup_app. split; [done|]. split.
  - intros id Hid [[_ Hn] _]%list_elem_of_filter. done.
  - apply NoDup_filter, NoDup_js_set.
Qed.

(** ** One overlay item replaced *)

(** Every entry sits under its item's own key, no key twice. *)
Definition keyed (overlay : Overlay) : Prop := map_wf overlay /\ Forall (fun kv => kv.1 = ov_key kv.2) overlay.

Lemma keyed_put overlay o : keyed overlay -> keyed (map_put (ov_key o) o overlay).
Proof.
  intros [Hwf Hk]. split; [by apply map_put_wf|]. rewrite Forall_forall in *. intros kv Hin.
  apply elem_of_map_put in Hin as [->|Hin]; [done|auto].
Qed.

Lemma keyed_filter overlay drop : keyed overlay -> keyed (filterOverlay overlay drop).
Proof.
  intros [Hwf Hk]. split; [by apply map_filter_wf|].
  rewrite Forall_forall in *. intros kv [_ Hin]%list_elem_of_filter. auto.
Qed.

Lemma keyed_get overlay key o : keyed overlay -> map_get key overlay = Some o -> ov_key o = key /\ o ∈ overlay.*2.
Proof.
  intros [_ Hk] Hg%elem_of_map_get. rewrite Forall_forall in Hk. split; [by rewrite (Hk _ Hg : key = ov_key o)|].
  apply list_elem_of_fmap. by exists (key, o).
Qed.

Lemma keyed_inj overlay o o' : keyed overlay -> o ∈ overlay.*2 -> o' ∈ overlay.*2 -> ov_key o = ov_key o' -> o = o'.
Proof.
  intros [Hwf Hk] H1 H2 E. rewrite Forall_forall in Hk.
  apply list_elem_of_fmap in H1 as ([k1 v1] & -> & H1). apply list_elem_of_fmap in H2 as ([k2 v2] & -> & H2).
  pose proof (Hk _ H1) as E1. pose proof (Hk _ H2) as E2. simpl in *. subst k1 k2.
  apply map_get_elem_of in H1; [|done]. apply map_get_elem_of in H2; [|done]. rewrite E in H1. congruence.
Qed.

Lemma fmap_same {A} (f : A -> A) (l : list A) : (forall x, x ∈ l -> f x = x) -> f <$> l = l.
Proof.
  intros Hf. rewrite <- (list_fmap_id l) at 2. apply list_fmap_ext. intros i x Hx. apply Hf. by eapply list_elem_of_lookup_2.
Qed.

(** Putting an item under a held key replaces it in its place. *)
Lemma map_put_values key next overlay held : keyed overlay -> map_get key overlay = Some held ->
  (map_put key next overlay).*2 = (fun o => if String.eqb (ov_key o) key then next else o) <$> overlay.*2.
Proof.
  intros [Hwf Hk]. induction overlay as [|[k o] overlay IH]; [done|].
  apply Forall_cons in Hk as [Ek Hk]. unfold map_wf in *. csimpl in *. apply NoDup_cons in Hwf as [Hn Hwf]. subst k.
  destruct (String.eqb_spec key (ov_key o)) as [->|Hne].
  - intros _. rewrite String.eqb_refl. csimpl. f_equal. symmetry. apply fmap_same. intros o' Ho'. destruct (String.eqb_spec (ov_key o') (ov_key o)) as [E|]; [|done].
    destruct Hn. rewrite <- E. apply list_elem_of_fmap in Ho' as ([k' v] & -> & Hin). rewrite Forall_forall in Hk.
    specialize (Hk _ Hin). simpl in *. subst k'. apply list_elem_of_fmap. by exists (ov_key v, v).
  - intros Hg. destruct (String.eqb_spec (ov_key o) key); [congruence|]. csimpl. f_equal. by apply IH.
Qed.

Definition rebuild (route : option string) (rep : OverlayItem -> OverlayItem) (d : DisplayTurn) : DisplayTurn :=
  match shown_source d with
  | Some s => buildDisplayTurn (turn_id (shown d)) (mkSource (source_recorded s) (rep <$> source_overlay s)) route
  | None => d
  end.

Section replaced.
Context (recorded : list TurnModel) (overlay overlay' : Overlay) (route running : option string).
Context (rep : OverlayItem -> OverlayItem).
Hypothesis Hrep : overlay'.*2 = rep <$> overlay.*2.
Hypothesis Hturn : forall o, o ∈ overlay.*2 -> overlayTurnId (rep o) recorded running = overlayTurnId o recorded running.

Lemma items_for_replaced id : items_for recorded overlay' running id = rep <$> items_for recorded overlay running id.
Proof.
  unfold items_for. rewrite Hrep. clear Hrep. revert Hturn. generalize overlay.*2 as l.
  induction l as [|o l IH]; intros Ht; [done|]. csimpl. rewrite !filter_cons, Ht by by left.
  assert (forall o', o' ∈ l -> overlayTurnId (rep o') recorded running = overlayTurnId o' recorded running)
    by (intros; apply Ht; by right).
  case_decide; csimpl; by rewrite IH.
Qed.

Lemma placeholders_replaced : placeholders recorded overlay' running = placeholders recorded overlay running.
Proof.
  unfold placeholders. rewrite Hrep, <- list_fmap_compose. f_equal. f_equal. apply list_fmap_ext. intros i o Ho.
  apply Hturn. by eapply list_elem_of_lookup_2.
Qed.

Lemma reference_replaced :
  reference recorded overlay' route running = rebuild route rep <$> reference recorded overlay route running.
Proof.
  unfold reference. rewrite fmap_app, <- !list_fmap_compose, placeholders_replaced. f_equal; apply list_fmap_ext; intros i x _; simpl.
  - unfold show. rewrite items_for_replaced. destruct (items_for recorded overlay running (turn_id x)) as [|o l]; [done|].
    simpl. unfold rebuild. rewrite build_source, build_id by (simpl; by intros ? [= ->]). done.
  - unfold rebuild. rewrite build_source, build_id by done. by rewrite items_for_replaced.
Qed.
End replaced.

(** Rebuilding the one turn that shows an item derives the whole display again. *)
Lemma delta_reference `{SameObject} recorded overlay route running key held next i d s :
  NoDup (turn_id <$> recorded) -> keyed overlay -> map_get key overlay = Some held ->
  overlayTurnId next recorded running = overlayTurnId held recorded running ->
  reference recorded overlay route running !! i = Some d -> shown_source d = Some s -> shows held d = true ->
  <[i := buildDisplayTurn (turn_id (shown d))
           (mkSource (source_recorded s) ((fun o => if same_overlay o held then next else o) <$> source_overlay s)) route]>
    (reference recorded overlay route running) = reference recorded (map_put key next overlay) route running.
Proof.
  intros Hnd Hk Hg Ht Hi Hs Hshow. destruct (keyed_get _ _ _ Hk Hg) as [Ekey Hheld].
  set (rep o := if String.eqb (ov_key o) key then next else o).
  assert (Hkey : forall o, o ∈ overlay.*2 -> ov_key o = key -> o = held).
  { intros o Ho E. apply (keyed_inj overlay); try done. by rewrite Ekey. }
  assert (Hin : forall id o, o ∈ items_for recorded overlay running id ->
    o ∈ overlay.*2 /\ overlayTurnId o recorded running = id).
  { intros id o [E Ho]%list_elem_of_filter. done. }
  unfold shows in Hshow. rewrite Hs in Hshow. apply existsb_exists in Hshow as (o & Ho%list_elem_of_In & Hsame).
  assert (o = held) as -> by by apply same_overlay_eq.
  pose proof (reference_shows recorded overlay route running d s (list_elem_of_lookup_2 _ _ _ Hi) Hs) as Hd.
  rewrite Hd in Ho. apply Hin in Ho as [_ Eid].
  assert (Hrest : forall d' s' j, reference recorded overlay route running !! j = Some d' -> j <> i ->
    shown_source d' = Some s' -> rep <$> source_overlay s' = source_overlay s').
  { intros d' s' j Hj Hne Hs'. rewrite (reference_shows _ _ _ _ _ _ (list_elem_of_lookup_2 _ _ _ Hj) Hs').
    apply fmap_same. intros o' [Ho' E]%Hin. unfold rep. destruct (String.eqb_spec (ov_key o') key) as [Ek|]; [|done].
    apply Hkey in Ek; [|done]. subst o'. destruct Hne.
    pose proof (reference_ids_distinct recorded overlay route running Hnd) as Hids.
    apply (NoDup_lookup _ _ _ (turn_id (shown d)) Hids); rewrite list_lookup_fmap; [rewrite Hj|rewrite Hi]; simpl; congruence. }
  rewrite (reference_replaced recorded overlay (map_put key next overlay) route running rep).
  - apply list_eq. intros j. rewrite list_lookup_fmap. destruct (decide (j = i)) as [->|Hne].
    + rewrite list_lookup_insert_eq by (by eapply lookup_lt_Some). rewrite Hi. simpl. unfold rebuild. rewrite Hs. do 3 f_equal.
      apply list_fmap_ext. intros n o' Ho'%list_elem_of_lookup_2. rewrite Hd in Ho'. apply Hin in Ho' as [Ho' _]. unfold rep.
      destruct (String.eqb_spec (ov_key o') key) as [Ek|Hn].
      * apply Hkey in Ek; [|done]. subst o'. by rewrite Hsame.
      * destruct (same_overlay o' held) eqn:E; [|done]. apply same_overlay_eq in E. congruence.
    + rewrite list_lookup_insert_ne by done. destruct (_ !! j) as [d'|] eqn:Hj; [|done]. simpl. f_equal. unfold rebuild.
      destruct (shown_source d') as [s'|] eqn:Hs'; [|done]. rewrite (Hrest d' s' j) by done. destruct s' as [r' o'].
      pose proof (reference_built recorded overlay route running) as Hb. rewrite Forall_forall in Hb.
      exact (Hb d' (list_elem_of_lookup_2 _ _ _ Hj) _ Hs').
  - by apply map_put_values with held.
  - intros o' Ho'. unfold rep. destruct (String.eqb_spec (ov_key o') key) as [Ek|]; [|done]. by rewrite (Hkey o').
Qed.
