(* ===== verification/ThreadReach.v ===== *)
(** What can happen to an open thread, as runs from the model hydrated by its first
    read, and what every run keeps. *)

From S2P Require Import Prelude JsString Json JsMap BootGeneration TranscriptItems TranscriptHistory TranscriptOverlay.
From S2P Require Import MergeFacts ThreadModel ThreadReads MergeTheorems WarningFold Reducer DisplayFacts.

Local Open Scope string_scope.

#[local] Arguments mergeHistory : simpl never.
#[local] Arguments displayTurns : simpl never.
#[local] Arguments splitWireTurns : simpl never.
#[local] Arguments wireFragment : simpl never.

(** ** Events *)

Inductive Event :=
  | Notify (n : AnyNotification) (now : Z)
  | EndHandoff (n : AnyNotification) (roundId : string) (now : Z)
  | Read (resp : ThreadReadResponse) (now : Z) (frontier : OlderFrontier)
  | ReadModel (fresh : ThreadModel) (changes : option HistoryChanges)
  | Page (page : ThreadTurnsListResponse)
  | IssueRead
  | ReadFailed (diagnostic : string) (requestGeneration : Z)
  | Invalidate
  | ReaderWindow (turns : list TurnModel).

Section runs.
Context `{G : Glyphs}.

(** Each event with the object identities of its moment. *)
Definition take (S : SameObject) (e : Event) (m : ThreadModel) : ThreadModel :=
  match e with
  | Notify n now => applyNotification m n now
  | EndHandoff n roundId now => applyOverlayEndForTranscriptHandoff m n roundId now
  | Read resp now frontier => applyReadResponse m resp now frontier
  | ReadModel fresh changes => applyReadModel m fresh changes
  | Page page => default m (mergeOlderItemPage m page)
  | IssueRead => (issueLatestWindowRead m).1
  | ReadFailed diagnostic requestGeneration => applyHistoryReadFailure m diagnostic requestGeneration
  | Invalidate => invalidateHistory m
  | ReaderWindow turns => mergeTranscriptReaderWindow m turns
  end.

(** A versioned hub names the generation and the snapshot of what it sends; the items of
    an overlay sit under their own keys. *)
Definition event_ok (e : Event) : Prop :=
  match e with
  | Read resp _ _ => id_boot (resp_identity resp) <> ""
  | ReadModel fresh _ =>
      keyed (default [] (th_overlay fresh)) /\
      match th_history fresh with Some f => id_boot (hist_identity f) <> "" | None => True end
  | Page page => page_snapshot page <> None
  | _ => True
  end.

(** Runs whose every event passes a guard. *)
Inductive run (guard : ThreadModel -> Event -> Prop) : ThreadModel -> list Event -> ThreadModel -> Prop :=
  | run_nil m : run guard m [] m
  | run_cons S e es m m' : event_ok e -> guard m e -> run guard (take S e m) es m' -> run guard m (e :: es) m'.

Definition anything : ThreadModel -> Event -> Prop := fun _ _ => True.

Definition steps : ThreadModel -> list Event -> ThreadModel -> Prop := run anything.

Lemma run_steps guard m es m' : run guard m es m' -> steps m es m'.
Proof. induction 1; [constructor|]. by econstructor. Qed.

Lemma run_invariant guard (P : ThreadModel -> Prop) m es m' :
  (forall S e m1, event_ok e -> guard m1 e -> P m1 -> P (take S e m1)) -> run guard m es m' -> P m -> P m'.
Proof. intros Hstep. induction 1; eauto. Qed.

Lemma run_then guard m es m1 es' m2 : run guard m es m1 -> run guard m1 es' m2 -> run guard m (es ++ es')%list m2.
Proof. induction 1; [done|]. intros. simpl. econstructor; eauto. Qed.

(** ** The invariant *)

Definition page_incarnation (p : ThreadTurnsListResponse) : option string := option_map snapshot_incarnation (page_snapshot p).

(** What is pending or deferred is of another incarnation than the one held. *)
Record history_ok (h : HistoryState) : Prop := {
  ok_turns : turns_ok (hist_turns h);
  ok_boot : id_boot (hist_identity h) <> "";
  ok_pending : forall i, pendingIncarnation h = Some i -> id_incarnation (hist_identity h) <> Some i;
  ok_deferred : forall p, p ∈ deferredPages h ->
    page_snapshot p <> None /\ page_incarnation p <> id_incarnation (hist_identity h) }.

Definition uncovered (turns : list TurnModel) (overlay : Overlay) : Prop :=
  Forall (fun o => covered turns o = false) overlay.*2.

Record thread_ok (m : ThreadModel) : Prop := {
  ok_history : exists h, th_history m = Some h /\ history_ok h;
  ok_overlay : exists o, th_overlay m = Some o /\ keyed o;
  ok_display : forall h o, th_history m = Some h -> th_overlay m = Some o ->
    uncovered (hist_turns h) o /\
    exists running, th_turns m = reference (hist_turns h) o (modelImageSessionRoute m) running }.

(** The part of a model the invariant reads. *)
Definition transcript (m : ThreadModel) :=
  (th_turns m, th_history m, th_overlay m, modelImageSessionRoute m).

Lemma thread_ok_transcript m m' : transcript m' = transcript m -> thread_ok m -> thread_ok m'.
Proof. intros [= E1 E2 E3 E4] [H1 H2 H3]. split; rewrite ?E2, ?E3, ?E1, ?E4; done. Qed.

(** A history with the same turns leaves the display alone. *)
Lemma thread_ok_history m h h' : thread_ok m -> th_history m = Some h -> history_ok h' -> hist_turns h' = hist_turns h ->
  thread_ok (set_history h' m).
Proof.
  intros [H1 H2 H3] Hh Hok Ht. split; [by exists h'|done|].
  intros h1 o [= <-] Ho. rewrite Ht. by apply H3.
Qed.

(** ** Deriving the display *)

Lemma turns_named turns : turns_ok turns -> named turns.
Proof. intros [_ H]. eapply Forall_impl; [exact H|]. by intros t [? _]. Qed.

Lemma prune_uncovered turns overlay : uncovered turns (pruneCoveredOverlay turns overlay).
Proof.
  unfold uncovered, pruneCoveredOverlay, filterOverlay. apply Forall_fmap, Forall_forall.
  by intros kv [Hc _]%list_elem_of_filter.
Qed.

Lemma prune_keyed turns overlay : keyed overlay -> keyed (pruneCoveredOverlay turns overlay).
Proof. apply keyed_filter. Qed.

(** What [withDisplay] gives, however its turns came to be equal to the reference. *)
Lemma derived_ok `{S : SameObject} m h overlay :
  history_ok h -> keyed overlay ->
  th_turns (withDisplay m h overlay) =
    reference (hist_turns h) (pruneCoveredOverlay (hist_turns h) overlay) (modelImageSessionRoute m) (th_runningTurnId m) ->
  thread_ok (withDisplay m h overlay).
Proof.
  intros Hh Hk E. split.
  - by exists h.
  - eexists. split; [done|]. by apply prune_keyed.
  - intros h1 o [= <-] [= <-]. split; [apply prune_uncovered|]. by exists (th_runningTurnId m).
Qed.

Lemma display_built m : thread_ok m -> Forall (built (modelImageSessionRoute m)) (th_turns m).
Proof.
  intros [(h & Hh & _) (o & Ho & _) H3]. destruct (H3 h o Hh Ho) as [_ [r ->]]. apply reference_built.
Qed.

Lemma withDisplay_reference `{S : SameObject} m h overlay :
  thread_ok m -> history_ok h ->
  th_turns (withDisplay m h overlay) =
    reference (hist_turns h) (pruneCoveredOverlay (hist_turns h) overlay) (modelImageSessionRoute m) (th_runningTurnId m).
Proof.
  intros Hm Hh. simpl. apply displayTurns_reference; [apply turns_named, Hh|by apply display_built].
Qed.

Lemma withDisplay_new `{S : SameObject} m h overlay :
  history_ok h ->
  th_turns (withDisplay (H := new_objects) m h overlay) =
    reference (hist_turns h) (pruneCoveredOverlay (hist_turns h) overlay) (modelImageSessionRoute m) (th_runningTurnId m).
Proof. intros Hh. simpl. apply displayTurns_new, turns_named, Hh. Qed.

Lemma withDisplay_ok `{S : SameObject} m h overlay :
  thread_ok m -> history_ok h -> keyed overlay -> thread_ok (withDisplay m h overlay).
Proof. intros Hm Hh Hk. apply derived_ok; [done..|]. by apply withDisplay_reference. Qed.

Lemma withDisplay_new_ok `{S : SameObject} m h overlay :
  history_ok h -> keyed overlay -> thread_ok (withDisplay (H := new_objects) m h overlay).
Proof. intros Hh Hk. apply derived_ok; [done..|]. by apply withDisplay_new. Qed.

(** ** History, step by step *)

Lemma with_turns_ok h turns : history_ok h -> turns_ok turns -> history_ok (with_turns turns h).
Proof. by intros [H1 H2 H3 H4] Ht; split. Qed.

Lemma invalidated_ok h signal : history_ok h -> history_ok (invalidated h signal).
Proof.
  intros [H1 H2 H3 H4]. split; [done..| |done]. intros i. simpl.
  destruct (negb (absent (signal_incarnation signal)) && _) eqn:E; [|apply H3].
  apply andb_prop in E as [_ E]. intros Hi Hc. rewrite Hi, Hc, bool_decide_eq_true_2 in E by done. done.
Qed.

Lemma with_deferred_ok h p : history_ok h -> page_snapshot p <> None ->
  page_incarnation p = pendingIncarnation h -> history_ok (with_deferred (deferredPages h ++ [p])%list h).
Proof.
  intros [H1 H2 H3 H4] Hp Hi. split; [done..|]. simpl. intros q [Hq|Hq%list_elem_of_singleton]%elem_of_app; [by apply H4|].
  subst q. split; [done|]. rewrite Hi. unfold page_incarnation in *. destruct (page_snapshot p); [|done]. simpl in *.
  symmetry in Hi. rewrite Hi. apply not_eq_sym. by apply H3.
Qed.

Lemma filter_full {A} (P : A -> Prop) `{!forall x, Decision (P x)} (l : list A) :
  length (filter P l) = length l -> filter P l = l.
Proof.
  induction l as [|x l IH]; [done|]. rewrite filter_cons. pose proof (length_filter P l).
  case_decide; csimpl; intros E; [|lia]. f_equal. apply IH. lia.
Qed.

Lemma turn_ok_sublist t items : turn_ok t -> items `sublist_of` turn_items t -> turn_ok (with_items items t).
Proof.
  intros (H1 & H2 & H3) Hs. split; [done|]. split.
  - eapply sublist_NoDup; [exact H2|]. by apply fmap_sublist.
  - rewrite Forall_forall in *. intros i Hi. apply H3. by eapply elem_of_sublist.
Qed.

Definition kept_items (from : ThreadItemPosition) (to : option ThreadItemPosition) (t : TurnModel) : list ItemModel :=
  filter (fun i => in_range from to (item_position i) = false) (turn_items t).

(** What a range leaves of a turn is the turn with the items outside the range. *)
Lemma elem_of_drop turns from to t' :
  t' ∈ dropItemsInRange turns from to <->
  exists t, t ∈ turns /\ t' = with_items (kept_items from to t) t /\ (kept_items from to t = [] -> turn_items t = []).
Proof.
  unfold dropItemsInRange. rewrite list_elem_of_omap. split; intros (t & Ht & H); exists t; (split; [done|]).
  - fold (kept_items from to t) in H. destruct (Nat.eqb_spec (length (kept_items from to t)) (length (turn_items t))) as [E|].
    + rewrite (filter_full _ _ E : kept_items from to t = turn_items t). injection H as <-. split; [by destruct t|done].
    + destruct (kept_items from to t) eqn:E; [done|]. injection H as <-. done.
  - destruct H as [-> Hne]. fold (kept_items from to t).
    destruct (Nat.eqb_spec (length (kept_items from to t)) (length (turn_items t))) as [E|Hn].
    + rewrite (filter_full _ _ E : kept_items from to t = turn_items t). by destruct t.
    + destruct (kept_items from to t) eqn:E; [|done]. rewrite Hne in Hn by done. done.
Qed.

Lemma drop_ids_sublist turns from to : (turn_id <$> dropItemsInRange turns from to) `sublist_of` (turn_id <$> turns).
Proof.
  unfold dropItemsInRange. induction turns as [|t turns IH]; [done|]. csimpl.
  destruct (_ =? _)%nat; csimpl; [by apply sublist_skip|].
  destruct (filter _ (turn_items t)); csimpl; [by apply sublist_cons|by apply sublist_skip].
Qed.

Lemma drop_turns_ok turns from to : turns_ok turns -> turns_ok (dropItemsInRange turns from to).
Proof.
  intros [Hnd Hall]. split; [eapply sublist_NoDup; [exact Hnd|apply drop_ids_sublist]|].
  rewrite Forall_forall in *. intros t' (t & Ht & -> & _)%elem_of_drop. apply turn_ok_sublist; [auto|apply sublist_filter].
Qed.

(** A range drops its items and no other. *)
Lemma drop_held turns from to tid key : turns_ok turns ->
  held (dropItemsInRange turns from to) tid key =
  match held turns tid key with
  | Some i => if in_range from to (item_position i) then None else Some i
  | None => None
  end.
Proof.
  intros Ht. pose proof (drop_turns_ok turns from to Ht) as Hd.
  assert (E : forall i, held (dropItemsInRange turns from to) tid key = Some i <->
    held turns tid key = Some i /\ in_range from to (item_position i) = false).
  { intros i. rewrite !held_in by done. split.
    - intros (t' & (t & Hin & -> & _)%elem_of_drop & Eid & [Hr Hi]%list_elem_of_filter & Ek). split; [by exists t|done].
    - intros [(t & Hin & Eid & Hi & Ek) Hr]. assert (Hk : i ∈ kept_items from to t) by by apply list_elem_of_filter.
      exists (with_items (kept_items from to t) t). repeat split; try done. apply elem_of_drop. exists t. repeat split; try done.
      intros Hn. rewrite Hn in Hk. by apply not_elem_of_nil in Hk. }
  apply option_eq. intros i. rewrite E. destruct (held turns tid key) as [j|]; [|split; [by intros [? _]|done]].
  destruct (in_range from to (item_position j)) eqn:Er; split; try done.
  - intros [[= ->] ?]. congruence.
  - by intros [[= ->] _].
  - by intros [= ->].
Qed.

(** ** Every event keeps it *)

Lemma overlay_keyed m : thread_ok m -> keyed (default [] (th_overlay m)).
Proof. by intros [_ (o & -> & Hk) _]. Qed.

Lemma history_of m h : thread_ok m -> th_history m = Some h -> history_ok h.
Proof. intros [(h' & E & Hok) _ _] Hh. by simplify_eq. Qed.

Lemma mergeVersionedPage_ok `{S : SameObject} m h page takeCursor :
  thread_ok m -> th_history m = Some h -> page_snapshot page <> None -> thread_ok (mergeVersionedPage m h page takeCursor).
Proof.
  intros Hm Hh Hp. pose proof (history_of m h Hm Hh) as Hok. unfold mergeVersionedPage.
  destruct (pageDisposition h page) eqn:Ed; [done| | |].
  - apply (thread_ok_history m h); try done. apply with_deferred_ok; [done..|]. unfold pageDisposition in Ed.
    destruct (failed h); [done|]. destruct (classifySignal h _); try done. destruct (invalidatedAtGeneration h); [|by case_match].
    case_bool_decide as E; [|done]. exact E.
  - pose proof (invalidated_ok h (identity_signal (page_identity page)) Hok) as Hi.
    destruct (bool_decide _) eqn:E; [|by apply (thread_ok_history m h)].
    apply bool_decide_eq_true in E. apply (thread_ok_history m h); [done..| |done]. by apply with_deferred_ok.
  - assert (Hb : forall range, turns_ok (match range with
      | Some (from, to) => dropItemsInRange (hist_turns h) from (Some to)
      | None => hist_turns h end)) by (intros [[from to]|]; [apply drop_turns_ok|]; apply Hok).
    apply withDisplay_ok.
    + apply (thread_ok_transcript m); [|done]. by destruct takeCursor.
    + by apply with_turns_ok, merge_into_ok.
    + by apply overlay_keyed.
Qed.

Lemma apply_deferred_ok `{S : SameObject} pages incarnation m :
  thread_ok m -> Forall (fun p => page_snapshot p <> None) pages -> thread_ok (apply_deferred pages incarnation m).
Proof.
  unfold apply_deferred. intros Hm Hp. revert m Hm. induction Hp as [|p pages Hp _ IH]; intros m Hm; [done|]. simpl.
  apply IH. case_bool_decide; [|done]. destruct (th_history m) as [h|] eqn:E; [|done]. by apply mergeVersionedPage_ok.
Qed.

Lemma deferred_snapshots h : history_ok h -> Forall (fun p => page_snapshot p <> None) (deferredPages h).
Proof. intros Hok. apply Forall_forall. intros p Hp. by apply Hok. Qed.

Lemma overlayRecord_keyed items : keyed (overlayRecord items).
Proof.
  unfold overlayRecord. assert (H : keyed []) by (split; [apply NoDup_nil_2|constructor]). revert H.
  generalize (@nil (string * OverlayItem)) as m. induction (default [] items) as [|o l IH]; intros m Hm; [done|]. simpl.
  by apply IH, keyed_put.
Qed.

(** A history just read: nothing pending, nothing deferred. *)
Lemma read_history_ok identity applied issued turns : id_boot identity <> "" -> turns_ok turns ->
  history_ok (mkHistory identity applied issued None None None [] None turns).
Proof. intros Hb Ht. split; try done. intros p Hp. by apply not_elem_of_nil in Hp. Qed.

Lemma turns_ok_nil : turns_ok [].
Proof. split; constructor. Qed.

Lemma merge_window_ok m h resp fresh route : turns_ok (hist_turns h) -> turns_ok (merge_window m h resp fresh route).1.
Proof.
  intros Hok. unfold merge_window. simpl. set (base := if resp_authoritative resp then _ else _).
  assert (Hb : turns_ok base) by (unfold base; destruct (resp_authoritative resp); [by apply drop_turns_ok|done]).
  destruct (resp_changes resp); simpl; repeat apply merge_into_ok; done.
Qed.

Lemma applyReadResponse_ok `{S : SameObject} m resp now frontier :
  id_boot (resp_identity resp) <> "" -> thread_ok m -> thread_ok (applyReadResponse m resp now frontier).
Proof.
  intros Hb Hm. destruct (ok_history m Hm) as (h & Hh & Hok). unfold applyReadResponse. rewrite Hh. simpl.
  destruct (readDisposition h _ _) eqn:Ed; [done|..]; rewrite (bool_decide_eq_false_2 (_ = read_discard)) by done.
  - rewrite bool_decide_eq_true_2 by done. apply apply_deferred_ok; [|by apply deferred_snapshots].
    apply withDisplay_new_ok; [|apply overlayRecord_keyed]. apply read_history_ok; [done|]. apply merge_into_ok, turns_ok_nil.
  - rewrite bool_decide_eq_false_2 by done.
    pose proof (merge_window_ok m h resp (splitWireTurns (default [] (wt_turns (resp_thread resp)))
      (modelImageSessionRoute (threadFields resp (th_ref m) now))) (modelImageSessionRoute (threadFields resp (th_ref m) now))
      (ok_turns h Hok)) as Ht.
    destruct (merge_window _ _ _ _ _) as [turns kept]. destruct (frontier_after _ _ _ _).
    apply apply_deferred_ok; [|by apply deferred_snapshots].
    apply withDisplay_new_ok; [|apply overlayRecord_keyed]. by apply read_history_ok.
Qed.

Lemma applyReadModel_ok `{S : SameObject} m fresh changes :
  event_ok (ReadModel fresh changes) -> thread_ok m -> thread_ok (applyReadModel m fresh changes).
Proof.
  intros [Hk Hb] Hm. destruct (ok_history m Hm) as (h & Hh & Hok). unfold applyReadModel. rewrite Hh. simpl.
  assert (Hid : id_boot (identity_over (hist_identity <$> th_history fresh) (hist_identity h)) <> "").
  { destruct (th_history fresh); [done|apply Hok]. }
  destruct (readModelDisposition h _) eqn:Ed; [done|..]; rewrite (bool_decide_eq_false_2 (_ = read_discard)) by done.
  - rewrite bool_decide_eq_true_2 by done. apply apply_deferred_ok; [|by apply deferred_snapshots].
    apply withDisplay_new_ok; [|done]. apply read_history_ok; [done|]. apply merge_into_ok, turns_ok_nil.
  - rewrite bool_decide_eq_false_2 by done. destruct (frontier_after _ _ _ _).
    apply apply_deferred_ok; [|by apply deferred_snapshots]. apply withDisplay_new_ok; [|done].
    apply read_history_ok; [done|]. destruct changes; repeat apply merge_into_ok; apply Hok.
Qed.

(** *** The overlay *)

Lemma append_delta_turn field delta o recorded running :
  overlayTurnId (append_delta field delta o) recorded running = overlayTurnId o recorded running.
Proof. unfold append_delta. by destruct (field =? "output"). Qed.

Lemma append_delta_covered field delta o turns : covered turns (append_delta field delta o) = covered turns o.
Proof. unfold append_delta. by destruct (field =? "output"). Qed.

Lemma uncovered_prune turns overlay : uncovered turns overlay -> pruneCoveredOverlay turns overlay = overlay.
Proof.
  unfold uncovered, pruneCoveredOverlay, filterOverlay. intros H. induction overlay as [|kv overlay IH]; [done|].
  csimpl in H. apply Forall_cons in H as [Hc H]. rewrite filter_cons_True by done. by rewrite IH.
Qed.

Lemma uncovered_put turns overlay key held next : keyed overlay -> map_get key overlay = Some held ->
  covered turns next = covered turns held -> uncovered turns overlay -> uncovered turns (map_put key next overlay).
Proof.
  unfold uncovered. intros Hk Hg Hc Hu. destruct (keyed_get _ _ _ Hk Hg) as [_ Hin].
  rewrite (map_put_values key next overlay held) by done. apply Forall_fmap. rewrite Forall_forall in *. intros o Ho. simpl.
  destruct (String.eqb (ov_key o) key); [|by apply Hu]. rewrite Hc. by apply Hu.
Qed.

Lemma applyOverlayDelta_ok `{S : SameObject} m key field delta now :
  thread_ok m -> thread_ok (applyOverlayDelta m key field delta now).
Proof.
  intros Hm. destruct (ok_history m Hm) as (h & Hh & Hok). destruct (ok_overlay m Hm) as (o & Ho & Hk).
  destruct (ok_display m Hm h o Hh Ho) as [Hu [running Ht]].
  assert (Hl : thread_ok (touch now m)) by by apply (thread_ok_transcript m).
  unfold applyOverlayDelta. rewrite Ho, Hh. simpl. destruct (map_get key o) as [held|] eqn:Hg; [|done].
  destruct (negb _); [done|]. set (next := append_delta field delta held).
  destruct (keyed_get _ _ _ Hk Hg) as [Ekey Hin].
  assert (Hk' : keyed (map_put key next o)) by (rewrite <- Ekey; by apply (keyed_put o next)).
  destruct (list_find _ (th_turns m)) as [[i d]|] eqn:Ef; [|by apply withDisplay_ok].
  destruct (shown_source d) as [s|] eqn:Es; [|by apply withDisplay_ok].
  apply list_find_Some in Ef as (Hi & Hsh & _). rewrite Ht in Hi.
  split; [by exists h|by eexists|]. intros h1 o1 [= <-] [= <-]. split.
  - apply (uncovered_put _ o key held); try done. apply append_delta_covered.
  - exists running. simpl. rewrite Ht. change (modelImageSessionRoute _) with (modelImageSessionRoute m).
    apply (delta_reference (hist_turns h) o (modelImageSessionRoute m) running key held); try done; [apply Hok|].
    apply append_delta_turn.
Qed.

Lemma applyOverlayChange_ok `{S : SameObject} m now change :
  (forall o o', keyed o -> change o = Some o' -> keyed o') -> thread_ok m -> thread_ok (applyOverlayChange m now change).
Proof.
  intros Hc Hm. destruct (ok_history m Hm) as (h & Hh & Hok). destruct (ok_overlay m Hm) as (o & Ho & Hk).
  assert (Hl : thread_ok (touch now m)) by by apply (thread_ok_transcript m).
  unfold applyOverlayChange. rewrite Hh, Ho. simpl. destruct (absent _); [|done].
  destruct (change o) as [o'|] eqn:E; [|done]. apply withDisplay_ok; eauto.
Qed.

Lemma drop_overlay_keyed drop o o' : keyed o -> drop_overlay drop o = Some o' -> keyed o'.
Proof. unfold drop_overlay. intros Hk. destruct (_ =? _)%nat; [done|]. intros [= <-]. by apply keyed_filter. Qed.

Lemma put_all_keyed o l : keyed o -> Forall (fun kv => kv.1 = ov_key kv.2) l ->
  keyed (foldl (fun r kv => map_put kv.1 kv.2 r) o l).
Proof.
  intros Ho Hl. revert o Ho. induction Hl as [|[k v] l E _ IH]; intros o Ho; [done|]. simpl in *. subst k.
  by apply IH, keyed_put.
Qed.

Lemma applyOverlayEnd_ok `{S : SameObject} m n roundId now :
  thread_ok m -> thread_ok (applyOverlayEndForTranscriptHandoff m n roundId now).
Proof.
  intros Hm. unfold applyOverlayEndForTranscriptHandoff. destruct (negb _); [done|].
  apply applyOverlayChange_ok; [|done]. intros o o' Hk. destruct (drop_overlay _ o) as [r|] eqn:E; [|done]. intros [= <-].
  apply put_all_keyed; [by eapply drop_overlay_keyed|]. by apply prune_keyed, keyed_filter.
Qed.

(** *** History *)

Lemma applyHistoryUpdated_ok `{S : SameObject} m p now : thread_ok m -> thread_ok (applyHistoryUpdated m p now).1.
Proof.
  intros Hm. destruct (ok_history m Hm) as (h & Hh & Hok).
  assert (Hl : thread_ok (touch now m)) by by apply (thread_ok_transcript m).
  unfold applyHistoryUpdated. rewrite Hh. simpl. destruct (failed h); [done|].
  destruct (classifySignal h _); [done| |].
  - destruct (negb _); [done|]. destruct (mergeHistory _ _ _) as [turns|] eqn:E; [|done]. simpl.
    apply withDisplay_ok; [done| |by apply overlay_keyed]. apply with_turns_ok; [done|].
    assert (turns = merge_into (hist_turns h) (wireFragment (hu_turns p) (hu_items p) (modelImageSessionRoute m)) false) as ->.
    { unfold merge_into. by rewrite E. }
    apply merge_into_ok, Hok.
  - by apply (thread_ok_history _ h); [|done|apply invalidated_ok|].
Qed.

Lemma applyResync_ok m boot epoch now : thread_ok m -> thread_ok (applyResync m boot epoch now).
Proof.
  intros Hm. destruct (ok_history m Hm) as (h & Hh & Hok).
  assert (Hl : thread_ok (touch now m)) by by apply (thread_ok_transcript m).
  unfold applyResync. rewrite Hh. destruct (_ && _); [done|]. destruct (bool_decide _); [|done].
  by apply (thread_ok_history _ h); [|done|apply invalidated_ok|].
Qed.

Lemma applyWarning_ok m params now : thread_ok m -> thread_ok (applyWarning m params now).
Proof.
  intros Hm. destruct (ok_history m Hm) as (h & Hh & Hok). unfold applyWarning. rewrite Hh.
  assert (str_truthy (id_boot (hist_identity h)) = true) as ->.
  { pose proof (ok_boot h Hok). by destruct (id_boot _). }
  destruct (truthy_s _); by apply (thread_ok_transcript m).
Qed.

(** *** All of them *)

Lemma escalation_transcript m id : transcript (resolvePendingEscalationModel m id) = transcript m.
Proof. unfold resolvePendingEscalationModel. by destruct (existsb _ _). Qed.

Lemma applyNotificationToThread_ok `{S : SameObject} m n now :
  thread_ok m -> thread_ok (applyNotificationToThread m n now).1.
Proof.
  intros Hm. unfold applyNotificationToThread. destruct (negb _); [done|].
  destruct (n_body n); simpl; try by apply (thread_ok_transcript m).
  - by apply applyHistoryUpdated_ok.
  - by apply applyResync_ok.
  - apply applyOverlayChange_ok; [|done]. intros o o' Hk [= <-]. by apply keyed_put.
  - by apply applyOverlayDelta_ok.
  - apply applyOverlayChange_ok; [|done]. intros o o' Hk. by apply drop_overlay_keyed.
  - apply applyOverlayChange_ok; [|done]. intros o o' Hk. by apply drop_overlay_keyed.
  - apply (thread_ok_transcript m); [|done]. apply (escalation_transcript m id).
  - destruct (match jb_jobsTreeRevision _ with Some _ => _ | None => _ end); by apply (thread_ok_transcript m).
  - by apply applyWarning_ok.
Qed.

(** Nothing but the retry separates the fold from its first half. *)
Lemma applyNotification_transcript `{S : SameObject} m n now :
  transcript (applyNotification m n now) = transcript (applyNotificationToThread m n now).1 /\
  th_runningTurnId (applyNotification m n now) = th_runningTurnId (applyNotificationToThread m n now).1.
Proof.
  unfold applyNotification. destruct (applyNotificationToThread m n now) as [next changed]. simpl.
  destruct (_ || _); [done|]. by destruct (changed && _).
Qed.

Lemma take_ok S e m : event_ok e -> thread_ok m -> thread_ok (take S e m).
Proof.
  intros He Hm. destruct (ok_history m Hm) as (h & Hh & Hok). destruct e; simpl in *.
  - apply (thread_ok_transcript _ _ (proj1 (applyNotification_transcript m n now))). by apply applyNotificationToThread_ok.
  - by apply applyOverlayEnd_ok.
  - by apply applyReadResponse_ok.
  - by apply applyReadModel_ok.
  - unfold mergeOlderItemPage. rewrite Hh. destruct (page_snapshot page) eqn:Ep; [|done]. simpl.
    apply mergeVersionedPage_ok; [done..|]. by rewrite Ep.
  - apply (thread_ok_history m h); rewrite ?Hh; try done. by destruct Hok.
  - unfold applyHistoryReadFailure. destruct (_ || _); [done|]. apply (thread_ok_history m h); rewrite ?Hh; try done.
    destruct Hok as [H1 H2 H3 H4]. by split.
  - apply (thread_ok_history m h); rewrite ?Hh; try done. by apply invalidated_ok.
  - unfold mergeTranscriptReaderWindow. rewrite Hh. destruct turns; [done|].
    apply withDisplay_ok; [done| |by apply overlay_keyed]. apply with_turns_ok, merge_into_ok; [done|apply Hok].
Qed.

Lemma hydrate_ok `{S : SameObject} resp ref now frontier m :
  id_boot (resp_identity resp) <> "" -> hydrateThread resp ref now frontier = Some m -> thread_ok m.
Proof.
  unfold hydrateThread. intros Hb. destruct (resp_snapshot resp); [|done]. intros [= <-].
  apply withDisplay_new_ok; [|apply overlayRecord_keyed]. apply read_history_ok; [done|]. apply merge_into_ok, turns_ok_nil.
Qed.

Lemma steps_ok m es m' : steps m es m' -> thread_ok m -> thread_ok m'.
Proof. apply run_invariant. intros S e m1 He _ Hm. by apply take_ok. Qed.

(** A thread opened by a versioned read and everything that happened to it since. *)
Definition opened (m0 : ThreadModel) : Prop := exists (S : SameObject) resp ref now frontier,
  id_boot (resp_identity resp) <> "" /\ hydrateThread resp ref now frontier = Some m0.

Lemma opening_ok m0 : opened m0 -> thread_ok m0.
Proof. intros (S & resp & ref & now & frontier & Hb & Hh). by eapply hydrate_ok. Qed.

Lemma reach_ok m0 es m : opened m0 -> steps m0 es m -> thread_ok m.
Proof. intros H0 Hs. eapply steps_ok; [done|]. by apply opening_ok. Qed.
End runs.

(** ** A sample thread *)

Module Sample.
#[global] Instance dots : Glyphs := {| ellipsis := "..." |}.

(** Objects that are never the same: every derivation builds anew. *)
Definition fresh_objects : SameObject :=
  {| same_turn := fun _ _ => false; same_overlay := fun _ _ => false;
     same_turn_eq := fun a b (e : false = true) => False_ind (a = b) (diff_false_true e);
     same_overlay_eq := fun a b (e : false = true) => False_ind (a = b) (diff_false_true e) |}.

Definition evener : EvenerThread :=
  mkEvener None None None None None None None None None None None (Some "turn_1") JNull None None None (JObj []) None None
    None None None None None None None None None None None None None None None.

Definition first_item : ThreadItem := plain_item "item_1" "turn_1" "userMessage" "Hi" (mkPosition 1 0 None) 1.
Definition answer : ThreadItem :=
  mkThreadItem "item_2" "agentMessage" (Some "turn_1") (Some "item_2") (Some (mkPosition 2 0 None)) None (Some "Hello")
    None None None None None None None None None None None None None None None None None None None None (Some 2%Z)
    (Some "r1") None.

Definition thread (turns : list Turn) : Thread :=
  mkWireThread "t1" "s1" None "model" 0 0 (mkStatus "active" None) "/" None None (Some turns) evener.

(** The round being streamed. *)
Definition stream : OverlayItem :=
  mkOverlay "stream:r1" "stream" (Some "turn_1") (Some "r1") (Some "s1") None None None
    (plain_item "live_1" "turn_1" "agentMessage" "He" (mkPosition 2 0 None) 1).

Definition response (generation epoch : Z) (turns : list Turn) (overlay : list OverlayItem) : ThreadReadResponse :=
  mkResponse (thread turns) None (Some generation) (Some "1") (Some epoch) (Some (mkSnapshot "a" 1)) (Some overlay) false None.

Definition first_read : ThreadReadResponse := response 0 1 [plain_turn "turn_1" "inProgress" [first_item] 1] [stream].

Definition hydrated : option ThreadModel := hydrateThread (S := fresh_objects) first_read "ref" 0 frontier_none.

Definition to_thread (body : NotificationBody) : AnyNotification := mkNotification (Some "ref") None body.

(** The streamed text grows, then its item is recorded. *)
Definition delta : Event := Notify (to_thread (OverlayDelta "stream:r1" "text" "llo")) 1.
Definition recorded : Event :=
  Notify (to_thread (HistoryUpdated (mkHistoryUpdated "1" 1 (mkSnapshot "a" 2) None (Some [answer])))) 2.

Definition m0 : ThreadModel := default (threadFields first_read "ref" 0) hydrated.

Lemma m0_opened : opened m0.
Proof. exists fresh_objects, first_read, "ref", 0%Z, frontier_none. by split; vm_compute. Qed.

(** The sample after a list of events. *)
Definition after (es : list Event) (m : ThreadModel) : ThreadModel := foldl (fun m e => take fresh_objects e m) m es.

Lemma after_run guard es m : Forall event_ok es -> (forall es1 e es2, es = (es1 ++ e :: es2)%list -> guard (after es1 m) e) ->
  run guard m es (after es m).
Proof.
  intros He. revert m. induction He as [|e es He _ IH]; intros m Hg; [constructor|]. unfold after. simpl.
  apply (run_cons _ fresh_objects); [done|by apply (Hg [] e es)|]. apply IH. intros es1 e' es2 ->. by apply (Hg (e :: es1) e' es2).
Qed.

Lemma after_steps es m : Forall event_ok es -> steps m es (after es m).
Proof. intros He. by apply after_run. Qed.
End Sample.
