(* ===== verification/ThreadTheorems.v ===== *)
(** What holds of an open thread however its frames, reads and pages arrive: its display
    is the derivation from what it holds, recorded items survive, superseded reads never
    land, and a fresh read brings a thread that lost its place back. *)

From S2P Require Import Prelude JsString Json JsMap BootGeneration TranscriptItems TranscriptHistory TranscriptOverlay.
From S2P Require Import MergeFacts ThreadModel ThreadReads MergeTheorems WarningFold Reducer DisplayFacts ThreadReach.

Local Open Scope string_scope.

#[local] Arguments mergeHistory : simpl never.
#[local] Arguments displayTurns : simpl never.
#[local] Arguments splitWireTurns : simpl never.
#[local] Arguments wireFragment : simpl never.
#[local] Arguments mergeReplacedItem : simpl never.
#[local] Arguments take_frame : simpl never.

(** ** The display *)

Lemma filter_iff_in {A} (P Q : A -> Prop) `{!forall x, Decision (P x)} `{!forall x, Decision (Q x)} (l : list A) :
  (forall x, x ∈ l -> P x <-> Q x) -> filter P l = filter Q l.
Proof.
  induction l as [|x l IH]; intros Hl; [done|]. rewrite !filter_cons, IH by (intros y Hy; apply Hl; by right).
  pose proof (Hl x ltac:(by left)). by destruct (decide (P x)), (decide (Q x)); try tauto.
Qed.

(** The turn an item names for itself, before the running turn is looked at. *)
Definition names_turn (o : OverlayItem) : Prop := or_s (default "" (ov_turnId o)) (default "" (wire_turnId (ov_item o))) <> "".

Lemma names_turn_running o recorded r r' : names_turn o -> overlayTurnId o recorded r = overlayTurnId o recorded r'.
Proof.
  unfold names_turn, overlayTurnId. intros Hn.
  set (f r := or_s (default "" (ov_turnId o)) (or_s (default "" (wire_turnId (ov_item o))) (default "" r))).
  assert (E : f r = f r') by (unfold f, or_s in *; destruct (str_truthy (default "" (ov_turnId o))); [done|];
    destruct (str_truthy (default "" (wire_turnId (ov_item o)))) eqn:E; [done|]; by destruct (default "" (wire_turnId (ov_item o)))).
  unfold f in E. by rewrite E.
Qed.

Lemma reference_running recorded overlay route r r' :
  Forall names_turn overlay.*2 -> reference recorded overlay route r = reference recorded overlay route r'.
Proof.
  intros Hn. assert (E : forall o, o ∈ overlay.*2 -> overlayTurnId o recorded r = overlayTurnId o recorded r').
  { intros o Ho. apply names_turn_running. rewrite Forall_forall in Hn. auto. }
  assert (Ei : forall id, items_for recorded overlay r id = items_for recorded overlay r' id).
  { intros id. unfold items_for. apply filter_iff_in. intros o Ho. by rewrite E. }
  assert (Ep : placeholders recorded overlay r = placeholders recorded overlay r').
  { unfold placeholders. f_equal. f_equal. apply list_fmap_ext. intros i o Ho. apply E. by eapply list_elem_of_lookup_2. }
  unfold reference. rewrite Ep. f_equal; apply list_fmap_ext; intros i x _.
  - unfold show. by rewrite Ei.
  - by rewrite Ei.
Qed.

(** *** What a display turn keeps of its recorded turn *)

(** What of an item nothing live changes. *)
Definition core (i : ItemModel) := (item_id i, item_type i, item_text i, item_transcriptKey i, item_position i, item_version i).

Lemma sublist_splice {A} n (x : A) l l0 : l0 `sublist_of` l -> l0 `sublist_of` splice n x l.
Proof.
  intros H. unfold splice. etransitivity; [exact H|]. rewrite <- (take_drop n l) at 1.
  apply sublist_app; [done|]. by apply sublist_cons.
Qed.

Lemma notices_sublist route notices items : items `sublist_of` foldl (place_notice route) items notices.
Proof.
  revert items. induction notices as [|o l IH]; intros items; [done|]. simpl. etransitivity; [|apply IH].
  by apply sublist_splice.
Qed.

Lemma buildDisplayTurn_core id t overlay route :
  (core <$> turn_items t) `sublist_of` (core <$> turn_items (shown (buildDisplayTurn id (mkSource (Some t) overlay) route))) /\
  with_items [] (shown (buildDisplayTurn id (mkSource (Some t) overlay) route)) = with_items [] t.
Proof.
  split; [|done]. simpl. rewrite fmap_app. apply sublist_inserts_r. rewrite <- list_fmap_compose.
  set (over := core ∘ _).
  assert (E : forall l : list ItemModel, over <$> l = core <$> l).
  { intros l. apply list_fmap_ext. intros n i _. unfold over, compose. destruct (laid_over _ i); [|done].
    destruct (absent _); [|done]. unfold layOverHistoryItem, copyItemTextPresence, setItemTextPresence. by repeat case_match. }
  rewrite E. apply fmap_sublist, notices_sublist.
Qed.

Lemma reference_recorded recorded overlay route running j t : recorded !! j = Some t ->
  exists d, reference recorded overlay route running !! j = Some d /\
    (core <$> turn_items t) `sublist_of` (core <$> turn_items (shown d)) /\ with_items [] (shown d) = with_items [] t.
Proof.
  intros Hj. exists (show recorded overlay route running t). split.
  - unfold reference. rewrite lookup_app_l by (rewrite length_fmap; by eapply lookup_lt_Some). by rewrite list_lookup_fmap, Hj.
  - unfold show. destruct (items_for _ _ _ _) as [|o l]; [done|]. by apply buildDisplayTurn_core.
Qed.

(** ** Recorded items survive *)

(** Every recorded item is still recorded, at no lower version. *)
Definition survives (turns turns' : list TurnModel) : Prop :=
  forall tid key i, held turns tid key = Some i ->
    exists i', held turns' tid key = Some i' /\ vle (item_version i) (item_version i').

#[export] Instance survives_preorder : PreOrder survives.
Proof.
  split.
  - intros turns tid key i Hi. exists i. split; [done|]. destruct (item_version i); simpl; [lia|done].
  - intros a b c H1 H2 tid key i Hi. destruct (H1 tid key i Hi) as (j & Hj & Hij). destruct (H2 tid key j Hj) as (k & Hk & Hjk).
    exists k. split; [done|]. by eapply vle_trans.
Qed.

Lemma take_frame_vle ho i inc : exists i', take_frame ho (Some i) inc = Some i' /\ vle (item_version i) (item_version i').
Proof.
  unfold take_frame. pose proof (supersedes_vle (item_version i) (item_version inc)) as Hv.
  destruct (supersedes _ _) eqn:E; simpl.
  - eexists. split; [done|]. by destruct (mergeReplaced_identity i inc) as (_ & _ & -> & _).
  - destruct (identity_upgrade i inc) eqn:Eu; simpl.
    + eexists. split; [done|]. destruct (mergeReplaced_identity i inc) as (_ & _ & -> & _).
      unfold identity_upgrade in Eu. apply andb_prop in Eu as [[Eu%bool_decide_eq_true _]%andb_prop _]. rewrite Eu.
      destruct (item_version inc); simpl; [lia|done].
    + exists i. split; [done|]. destruct (item_version i); simpl; [lia|done].
Qed.

Lemma merge_survives turns f ho : turns_ok turns -> survives turns (merge_into turns f ho).
Proof.
  intros Ht tid key i Hi. destruct (decide (tid = "")) as [->|Hne].
  { unfold held in Hi. by rewrite held_blank in Hi by by apply by_id_ok, Ht. }
  rewrite merge_into_held, Hi by done. generalize (filter (is_frame_of tid key) (fragment_items f)) as l. clear Hi.
  intros l. assert (Hv : vle (item_version i) (item_version i)) by (destruct (item_version i); simpl; [lia|done]).
  revert Hv. generalize i at 2 3 as j. induction l as [|inc l IH]; intros j Hv; [by exists j|]. simpl.
  destruct (take_frame_vle ho j inc) as (j' & -> & Hj). apply IH. by eapply vle_trans.
Qed.

(** The recorded turns of a model. *)
Definition recorded_turns (m : ThreadModel) : list TurnModel :=
  match th_history m with Some h => hist_turns h | None => [] end.

(** The events that may take recorded items away: a read that replaces what the thread
    holds, and a window or page that is authoritative for its range. *)
Definition takes_away (m : ThreadModel) (e : Event) : Prop :=
  let held := default EMPTY_HISTORY (th_history m) in
  match e with
  | Read resp _ _ =>
      readDisposition held (resp_requestGeneration resp) (resp_identity resp) = read_replace \/ resp_authoritative resp = true
  | ReadModel fresh _ => readModelDisposition held (th_history fresh) = read_replace
  | Page page => page_authoritative page = true
  | _ => False
  end.

Lemma mergeVersionedPage_survives `{S : SameObject} m h page takeCursor :
  thread_ok m -> th_history m = Some h -> page_authoritative page = false ->
  survives (recorded_turns m) (recorded_turns (mergeVersionedPage m h page takeCursor)).
Proof.
  intros Hm Hh Ha. unfold mergeVersionedPage, recorded_turns. rewrite Hh.
  destruct (pageDisposition h page); [by rewrite Hh|done|by destruct (bool_decide _)|]. rewrite Ha.
  apply (merge_survives (hist_turns h)). by apply (history_of m h).
Qed.

Lemma apply_deferred_none `{S : SameObject} pages incarnation m :
  Forall (fun p => page_incarnation p <> incarnation) pages -> apply_deferred pages incarnation m = m.
Proof.
  unfold apply_deferred. intros Hp. induction Hp as [|p pages Hp _ IH]; [done|]. simpl.
  by rewrite bool_decide_eq_false_2.
Qed.

Lemma merges_same_incarnation h generation identity :
  readDisposition h generation identity = read_merge \/ identityDisposition h identity = read_merge ->
  id_incarnation identity = id_incarnation (hist_identity h).
Proof.
  assert (Hi : identityDisposition h identity = read_merge -> id_incarnation identity = id_incarnation (hist_identity h)).
  { unfold identityDisposition. destruct (invalidatedAtGeneration h); [by case_bool_decide|].
    destruct (compareBootGeneration _ _); try done. destruct (_ <? _)%Z; [done|]. destruct (_ <? _)%Z; [done|]. simpl.
    by case_bool_decide. }
  intros [H|H]; [|by apply Hi]. unfold readDisposition in H. destruct (_ <? _)%Z; [done|]. destruct (match _ with Some _ => _ | None => _ end); [done|].
  by apply Hi.
Qed.

Lemma deferred_elsewhere h identity : history_ok h -> identity = id_incarnation (hist_identity h) ->
  Forall (fun p => page_incarnation p <> identity) (deferredPages h).
Proof. intros Hok ->. apply Forall_forall. intros p Hp. by apply Hok. Qed.

Lemma merge_window_survives m h resp fresh route : turns_ok (hist_turns h) -> resp_authoritative resp = false ->
  survives (hist_turns h) (merge_window m h resp fresh route).1.
Proof.
  intros Ht Ha. unfold merge_window. rewrite Ha. simpl. destruct (resp_changes resp); simpl; [|by apply merge_survives].
  etransitivity; apply merge_survives; [done|]. by apply merge_into_ok.
Qed.

Lemma applyReadResponse_survives `{S : SameObject} m resp now frontier :
  thread_ok m -> ~ takes_away m (Read resp now frontier) ->
  survives (recorded_turns m) (recorded_turns (applyReadResponse m resp now frontier)).
Proof.
  intros Hm Hk. destruct (ok_history m Hm) as (h & Hh & Hok). simpl in Hk. rewrite Hh in Hk. simpl in Hk.
  assert (Ha : resp_authoritative resp = false) by (destruct (resp_authoritative resp); tauto).
  unfold applyReadResponse. rewrite Hh. simpl. destruct (readDisposition h _ _) eqn:Ed; [done|tauto|].
  rewrite !bool_decide_eq_false_2 by done.
  pose proof (merge_window_survives m h resp (splitWireTurns (default [] (wt_turns (resp_thread resp)))
      (modelImageSessionRoute (threadFields resp (th_ref m) now))) (modelImageSessionRoute (threadFields resp (th_ref m) now))
      (ok_turns h Hok) Ha) as Ht.
  destruct (merge_window _ _ _ _ _) as [turns kept]. destruct (frontier_after _ _ _ _).
  rewrite apply_deferred_none.
  - unfold recorded_turns at 1. by rewrite Hh.
  - apply deferred_elsewhere; [done|]. exact (merges_same_incarnation h _ _ (or_introl Ed)).
Qed.

Lemma applyReadModel_survives `{S : SameObject} m fresh changes :
  thread_ok m -> ~ takes_away m (ReadModel fresh changes) ->
  survives (recorded_turns m) (recorded_turns (applyReadModel m fresh changes)).
Proof.
  intros Hm Hk. destruct (ok_history m Hm) as (h & Hh & Hok). simpl in Hk. rewrite Hh in Hk. simpl in Hk.
  unfold applyReadModel. rewrite Hh. simpl. destruct (readModelDisposition h _) eqn:Ed; [done|tauto|].
  rewrite !bool_decide_eq_false_2 by done. destruct (frontier_after _ _ _ _). rewrite apply_deferred_none.
  - unfold recorded_turns at 1. rewrite Hh. simpl. pose proof (ok_turns h Hok) as Ht.
    destruct changes; [|by apply merge_survives]. etransitivity; apply merge_survives; [done|]. by apply merge_into_ok.
  - apply deferred_elsewhere; [done|]. unfold readModelDisposition in Ed. simpl. destruct (th_history fresh) as [f|]; [|done]. simpl.
    pose proof (merges_same_incarnation h None (hist_identity f) (or_intror Ed)) as E. rewrite E. by destruct (id_incarnation (hist_identity h)).
Qed.

(** *** What a notification does to history *)

Inductive notified (h : HistoryState) : HistoryState -> Prop :=
  | notified_same : notified h h
  | notified_invalid signal : notified h (invalidated h signal)
  | notified_merge fragment : notified h (with_turns (merge_into (hist_turns h) fragment false) h).

Definition notifies (m m' : ThreadModel) : Prop :=
  forall h, th_history m = Some h -> exists h', th_history m' = Some h' /\ notified h h'.

Lemma notifies_same m m' : th_history m' = th_history m -> notifies m m'.
Proof. intros E h Hh. exists h. split; [congruence|constructor]. Qed.

Lemma notifies_set m h h' : th_history m = Some h -> notified h h' -> forall m', th_history m' = Some h' -> notifies m m'.
Proof. intros Hh Hn m' Hh' h1 Hh1. simplify_eq. by exists h'. Qed.

Lemma applyOverlayChange_notifies `{S : SameObject} m now change : notifies m (applyOverlayChange m now change).
Proof.
  unfold applyOverlayChange. destruct (th_history m) as [h|] eqn:Hh; [|by apply notifies_same].
  destruct (historyIsLive _); [|by apply notifies_same]. destruct (change _); [|by apply notifies_same].
  by apply (notifies_set m h h Hh (notified_same h)).
Qed.

Lemma applyNotification_notifies `{G : Glyphs} `{S : SameObject} m n now : notifies m (applyNotification m n now).
Proof.
  destruct (th_history m) as [h|] eqn:Hh; [|intros h Hh'; congruence].
  destruct (applyNotification_transcript m n now) as [E _]. injection E as _ Eh _ _.
  enough (notifies m (applyNotificationToThread m n now).1) as Hn.
  { intros h1 Hh1. destruct (Hn h1 Hh1) as (h' & Hh' & Hp). exists h'. split; [by rewrite Eh|done]. }
  clear Eh. unfold applyNotificationToThread. destruct (negb _); [by apply notifies_same|].
  destruct (n_body n); simpl; try (by apply notifies_same); try (by apply applyOverlayChange_notifies).
  - unfold applyHistoryUpdated. rewrite Hh. simpl. destruct (failed h); [by apply notifies_same|].
    destruct (classifySignal h _); [by apply notifies_same| |by eapply (notifies_set m h _ Hh); [apply notified_invalid|]].
    destruct (negb _); [by apply notifies_same|]. destruct (mergeHistory _ _ _) as [turns|] eqn:Em; [|by apply notifies_same].
    apply (notifies_set m h _ Hh (notified_merge h (wireFragment (hu_turns p) (hu_items p) (modelImageSessionRoute m)))).
    unfold merge_into. by rewrite Em.
  - unfold applyResync. rewrite Hh. destruct (_ && _); [by apply notifies_same|].
    destruct (bool_decide _); [|by apply notifies_same]. by eapply (notifies_set m h _ Hh); [apply notified_invalid|].
  - apply notifies_same. unfold applyOverlayDelta. rewrite Hh. destruct (th_overlay m ≫= _); [|done]. destruct (negb _); [done|].
    destruct (list_find _ _) as [[? d]|]; [|done]. by destruct (shown_source d).
  - apply notifies_same. unfold resolvePendingEscalationModel. by destruct (existsb _ _).
  - apply notifies_same. by destruct (match jb_jobsTreeRevision _ with Some _ => _ | None => _ end).
  - apply notifies_same. unfold applyWarning. destruct (truthy_s _); [|done].
    by destruct (match th_history m with Some _ => _ | None => _ end).
Qed.

Lemma notifies_survives m m' : thread_ok m -> notifies m m' -> survives (recorded_turns m) (recorded_turns m').
Proof.
  intros Hm Hn. destruct (ok_history m Hm) as (h & Hh & Hok). destruct (Hn h Hh) as (h' & Hh' & Hs).
  unfold recorded_turns. rewrite Hh, Hh'. destruct Hs; [done..|]. apply merge_survives, Hok.
Qed.

Lemma take_survives `{G : Glyphs} S e m : event_ok e -> thread_ok m -> ~ takes_away m e ->
  survives (recorded_turns m) (recorded_turns (take S e m)).
Proof.
  intros He Hm Hk. destruct (ok_history m Hm) as (h & Hh & Hok). destruct e; simpl in He |- *.
  - by apply notifies_survives, applyNotification_notifies.
  - unfold applyOverlayEndForTranscriptHandoff. destruct (negb _); [done|]. by apply notifies_survives, applyOverlayChange_notifies.
  - by apply applyReadResponse_survives.
  - by apply applyReadModel_survives.
  - unfold mergeOlderItemPage. rewrite Hh. destruct (page_snapshot page) eqn:Ep; [|done]. simpl.
    apply mergeVersionedPage_survives; [done..|]. simpl in Hk. by destruct (page_authoritative page).
  - unfold issueLatestWindowRead, recorded_turns. by rewrite Hh.
  - unfold applyHistoryReadFailure, recorded_turns. rewrite Hh. by destruct (_ || _); rewrite ?Hh.
  - unfold invalidateHistory, recorded_turns. by rewrite Hh.
  - unfold mergeTranscriptReaderWindow, recorded_turns. rewrite Hh. destruct turns; [by rewrite Hh|].
    simpl. apply merge_survives, Hok.
Qed.

(** ** Generations *)

(** The least generation whose response or failure still counts. *)
Definition floor (h : HistoryState) : Z :=
  Z.max (issuedGeneration h) (match invalidatedAtGeneration h with Some g => g + 1 | None => issuedGeneration h end).

Definition generations_ok (h : HistoryState) : Prop :=
  forall g, invalidatedAtGeneration h = Some g -> (g <= issuedGeneration h)%Z.

(** Generations only go up, and a thread that loses its place counts nothing issued so far. *)
Definition progress (h h' : HistoryState) : Prop :=
  generations_ok h -> generations_ok h' /\ (issuedGeneration h <= issuedGeneration h')%Z /\ (floor h <= floor h')%Z /\
    (historyIsLive (Some h) = true -> historyIsLive (Some h') = false -> (issuedGeneration h < floor h')%Z).

#[export] Instance progress_preorder : PreOrder progress.
Proof.
  split.
  - intros h Hok. repeat split; try done; try lia. congruence.
  - intros a b c H1 H2 Ha. destruct (H1 Ha) as (Hb & I1 & F1 & L1). destruct (H2 Hb) as (Hc & I2 & F2 & L2).
    split; [done|]. repeat split; try lia. intros La Lc. destruct (historyIsLive (Some b)) eqn:Lb; [specialize (L2 eq_refl Lc); lia|specialize (L1 La eq_refl); lia].
Qed.

Definition progresses (m m' : ThreadModel) : Prop :=
  forall h, th_history m = Some h -> exists h', th_history m' = Some h' /\ progress h h'.

#[export] Instance progresses_preorder : PreOrder progresses.
Proof.
  split.
  - intros m h Hh. by exists h.
  - intros a b c H1 H2 h Hh. destruct (H1 h Hh) as (h1 & Hh1 & P1). destruct (H2 h1 Hh1) as (h2 & Hh2 & P2).
    exists h2. split; [done|]. by transitivity h1.
Qed.

(** Any other change of a history leaves its generations. *)
Lemma progress_same h h' : issuedGeneration h' = issuedGeneration h -> invalidatedAtGeneration h' = invalidatedAtGeneration h ->
  progress h h'.
Proof.
  intros Ei Ev Hok. unfold generations_ok, floor, historyIsLive in *. rewrite Ei, Ev. repeat split; try done; try lia. congruence.
Qed.

Lemma progress_invalidated h signal : progress h (invalidated h signal).
Proof.
  intros Hok. unfold generations_ok, floor in *. simpl. repeat split; try lia; [by intros g [= <-]|].
  destruct (invalidatedAtGeneration h) as [g|]; [specialize (Hok g eq_refl)|]; lia.
Qed.

Lemma progress_issued h : progress h (with_issued (issuedGeneration h + 1) h).
Proof.
  intros Hok. unfold generations_ok, floor, historyIsLive in *. simpl. repeat split; try lia; [intros g Hg; specialize (Hok g Hg); lia|].
  destruct (invalidatedAtGeneration h) as [g|]; lia.
Qed.

(** A generation below the floor counts for nothing. *)
Lemma below_floor h generation identity : (default 0%Z generation < floor h)%Z -> readDisposition h generation identity = read_discard.
Proof.
  unfold floor, readDisposition. intros Hf. destruct (Z.ltb_spec (default 0%Z generation) (issuedGeneration h)); [done|].
  destruct (invalidatedAtGeneration h) as [g|]; [|lia]. by rewrite (proj2 (Z.leb_le _ _)) by lia.
Qed.

Lemma landed_above h generation identity : readDisposition h generation identity <> read_discard -> (floor h <= default 0%Z generation)%Z.
Proof. intros Hd. destruct (Z.lt_ge_cases (default 0%Z generation) (floor h)); [|done]. by rewrite below_floor in Hd. Qed.

Lemma progress_read h identity generation turns :
  (floor h <= generation)%Z ->
  progress h (mkHistory identity generation (Z.max (issuedGeneration h) generation) None None None [] None turns).
Proof. intros Hf Hok. unfold generations_ok, floor in *. simpl. repeat split; try done; lia. Qed.

Lemma progress_failed h diagnostic generation :
  (generation <= issuedGeneration h)%Z -> (floor h <= generation)%Z -> progress h (fail_history diagnostic h).
Proof. intros Hg Hf Hok. unfold generations_ok, floor in *. simpl. repeat split; try done; lia. Qed.

Lemma progresses_set m h h' : th_history m = Some h -> progress h h' -> progresses m (set_history h' m).
Proof. intros Hh Hp h1 Hh1. simplify_eq. by exists h'. Qed.

Lemma mergeVersionedPage_progresses `{S : SameObject} m h page takeCursor :
  th_history m = Some h -> progresses m (mergeVersionedPage m h page takeCursor).
Proof.
  intros Hh. unfold mergeVersionedPage. destruct (pageDisposition h page); [done| | |].
  - by apply (progresses_set m h), progress_same.
  - apply (progresses_set m h); [done|]. destruct (bool_decide _); [|by apply progress_invalidated].
    transitivity (invalidated h (identity_signal (page_identity page))); [apply progress_invalidated|by apply progress_same].
  - intros h1 Hh1. simplify_eq. eexists. split; [done|]. by apply progress_same.
Qed.

Lemma apply_deferred_progresses `{S : SameObject} pages incarnation m : progresses m (apply_deferred pages incarnation m).
Proof.
  unfold apply_deferred. revert m. induction pages as [|p pages IH]; intros m; [done|]. simpl.
  etransitivity; [|apply IH]. case_bool_decide; [|done]. destruct (th_history m) as [h|] eqn:E; [|done].
  by apply mergeVersionedPage_progresses.
Qed.

Lemma applyReadResponse_progresses `{S : SameObject} m resp now frontier : progresses m (applyReadResponse m resp now frontier).
Proof.
  destruct (th_history m) as [h|] eqn:Hh; [|intros h Hh'; congruence]. unfold applyReadResponse. rewrite Hh. simpl.
  destruct (bool_decide (readDisposition h _ _ = read_discard)) eqn:Ed; [done|]. apply bool_decide_eq_false in Ed.
  apply landed_above in Ed. destruct (if bool_decide _ then _ else _) as [turns kept]. destruct (frontier_after _ _ _ _).
  etransitivity; [|apply apply_deferred_progresses]. intros h1 Hh1. simplify_eq. eexists. split; [done|]. by apply progress_read.
Qed.

Lemma notifies_progresses m m' : notifies m m' -> progresses m m'.
Proof.
  intros Hn h Hh. destruct (Hn h Hh) as (h' & Hh' & Hs). exists h'. split; [done|].
  destruct Hs; [done|apply progress_invalidated|by apply progress_same].
Qed.

(** A run of the generation protocol: failures are of reads that were issued, and no
    model hydrated elsewhere is taken in. *)
Definition orderly (m : ThreadModel) (e : Event) : Prop :=
  match e with
  | ReadModel _ _ => False
  | ReadFailed _ g => forall h, th_history m = Some h -> (g <= issuedGeneration h)%Z
  | _ => True
  end.

Lemma take_progresses `{G : Glyphs} S e m : orderly m e -> th_history m <> None -> progresses m (take S e m).
Proof.
  intros Ho Hn. destruct (th_history m) as [h|] eqn:Hh; [clear Hn|done]. destruct e; simpl in Ho |- *.
  - apply notifies_progresses, applyNotification_notifies.
  - unfold applyOverlayEndForTranscriptHandoff. destruct (negb _); [done|]. apply notifies_progresses, applyOverlayChange_notifies.
  - apply applyReadResponse_progresses.
  - done.
  - unfold mergeOlderItemPage. rewrite Hh. destruct (page_snapshot page); [|done]. by apply mergeVersionedPage_progresses.
  - unfold issueLatestWindowRead. rewrite Hh. apply (progresses_set m h); [done|]. apply progress_issued.
  - unfold applyHistoryReadFailure. rewrite Hh. simpl. destruct (_ || _) eqn:E; [done|].
    apply (progresses_set m h); [done|]. apply orb_false_elim in E as [E1%Z.ltb_ge E2].
    specialize (Ho h Hh). apply (progress_failed _ _ requestGeneration); [done|]. unfold floor.
    destruct (invalidatedAtGeneration h); [apply Z.leb_gt in E2|]; lia.
  - unfold invalidateHistory. rewrite Hh. apply (progresses_set m h); [done|]. apply progress_invalidated.
  - unfold mergeTranscriptReaderWindow. rewrite Hh. destruct turns; [done|]. intros h1 Hh1. simplify_eq.
    eexists. split; [done|]. by apply progress_same.
Qed.

Lemma run_progresses `{G : Glyphs} m es m' : run orderly m es m' -> th_history m <> None -> progresses m m' /\ th_history m' <> None.
Proof.
  intros Hr Hn. refine (run_invariant _ (fun m' => progresses m m' /\ th_history m' <> None) _ _ _ _ Hr _); [|done].
  intros S e m1 _ Ho [Hp Hn1]. pose proof (take_progresses S e m1 Ho Hn1) as Ht. split; [by etransitivity|].
  destruct (th_history m1) as [h1|] eqn:E; [|done]. destruct (Ht h1 E) as (h2 & -> & _). done.
Qed.

Lemma superseded_floor h generation : (generation < floor h)%Z ->
  (generation <? issuedGeneration h)%Z || match invalidatedAtGeneration h with Some g => (generation <=? g)%Z | None => false end = true.
Proof.
  unfold floor. intros Hf. destruct (Z.ltb_spec generation (issuedGeneration h)); [done|]. simpl.
  destruct (invalidatedAtGeneration h); [|lia]. apply Z.leb_le. lia.
Qed.

(** *** Generations of any run *)

Definition model_generations_ok (m : ThreadModel) : Prop := forall h, th_history m = Some h -> generations_ok h.

Lemma progresses_generations m m' : progresses m m' -> th_history m <> None -> model_generations_ok m -> model_generations_ok m'.
Proof.
  intros Hp Hn Hg h' Hh'. destruct (th_history m) as [h|] eqn:Hh; [|done]. destruct (Hp h Hh) as (h1 & Hh1 & P). simplify_eq.
  by apply P, Hg.
Qed.

Lemma take_generations `{G : Glyphs} S e m : th_history m <> None -> model_generations_ok m -> model_generations_ok (take S e m).
Proof.
  intros Hn Hg. destruct (th_history m) as [h|] eqn:Hh; [clear Hn|done]. specialize (Hg h Hh) as Hok.
  assert (Hn : th_history m <> None) by by rewrite Hh.
  destruct e; try by (apply (progresses_generations m); [by apply take_progresses|..]).
  - simpl. unfold applyReadModel. rewrite Hh. simpl. destruct (bool_decide (_ = read_discard)); [done|].
    destruct (if bool_decide _ then _ else _) as [turns kept]. destruct (frontier_after _ _ _ _).
    eapply progresses_generations; [apply apply_deferred_progresses|done|]. by intros h1 [= <-] g.
  - simpl. unfold applyHistoryReadFailure. destruct (_ || _); [done|]. by intros h1 [= <-] g.
Qed.

Lemma reach_generations `{G : Glyphs} m0 es m : opened m0 -> steps m0 es m -> model_generations_ok m.
Proof.
  intros H0 Hs. pose proof (opening_ok m0 H0) as Hok0.
  enough (thread_ok m /\ model_generations_ok m) as [_ H] by exact H.
  refine (run_invariant _ (fun m => thread_ok m /\ model_generations_ok m) _ _ _ _ Hs _).
  - intros S e m1 He _ [Hm1 Hg1]. split; [by apply take_ok|]. apply take_generations; [|done].
    by destruct (ok_history m1 Hm1) as (h & -> & _).
  - split; [done|]. destruct H0 as (S & resp & ref & now & frontier & _ & Hh). unfold hydrateThread in Hh.
    destruct (resp_snapshot resp); [|done]. injection Hh as <-. by intros h [= <-] g.
Qed.

(** ** A read that replaces *)

(** Two models with the same transcript and the same facts of the read they come from. *)
Record same_read (m f : ThreadModel) : Prop := {
  same_turns_shown : th_turns m = th_turns f;
  same_history : (fun h => (hist_turns h, hist_identity h, historyIsLive (Some h), failed h)) <$> th_history m =
                 (fun h => (hist_turns h, hist_identity h, historyIsLive (Some h), failed h)) <$> th_history f;
  same_overlay_held : th_overlay m = th_overlay f;
  same_frontier : (th_olderCursor m, th_olderFrontier m) = (th_olderCursor f, th_olderFrontier f);
  same_running : (th_runningTurnId m, th_activeTurnId m) = (th_runningTurnId f, th_activeTurnId f);
  same_scalars : (th_status m, th_model m, th_jobs m, th_notes m, th_facts m, th_pendingEscalations m) =
                 (th_status f, th_model f, th_jobs f, th_notes f, th_facts f, th_pendingEscalations f) }.

(** The replacing arm: the model hydrated from the response, then the pages that waited
    for its incarnation. *)
Lemma replaces_as_hydrated `{S : SameObject} m h resp now frontier f :
  th_history m = Some h -> readDisposition h (resp_requestGeneration resp) (resp_identity resp) = read_replace ->
  hydrateThread resp (th_ref m) now frontier = Some f ->
  exists n, same_read n f /\ th_ref n = th_ref f /\
    applyReadResponse m resp now frontier = apply_deferred (deferredPages h) (id_incarnation (resp_identity resp)) n.
Proof.
  intros Hh Hd Hf. unfold hydrateThread in Hf. destruct (resp_snapshot resp) eqn:Es; [|done]. injection Hf as <-.
  unfold applyReadResponse. rewrite Hh. simpl. rewrite Hd.
  rewrite bool_decide_eq_false_2, bool_decide_eq_true_2 by done. eexists. split; [|split; [|reflexivity]]; [|done].
  split; try done. simpl.
  change (modelImageSessionRoute (set_frontier ?c ?f (set_running ?r (spread_fields m ?x)))) with (modelImageSessionRoute x).
  change (modelImageSessionRoute (set_running ?r (set_frontier ?c ?f ?x))) with (modelImageSessionRoute x).
  assert (Hok : named (merge_into [] (splitWireTurns (default [] (wt_turns (resp_thread resp)))
    (modelImageSessionRoute (threadFields resp (th_ref m) now))) false)) by apply turns_named, merge_into_ok, turns_ok_nil.
  by rewrite !displayTurns_new.
Qed.

Lemma none_deferred `{S : SameObject} pages i m : (forall p, p ∈ pages -> page_incarnation p <> i) ->
  apply_deferred pages i m = m.
Proof. intros Hp. by apply apply_deferred_none, Forall_forall. Qed.

(** What the response of a read is judged by. *)
Definition standing (h : HistoryState) :=
  (hist_identity h, issuedGeneration h, invalidatedAtGeneration h, awaited h).

(** An event that neither issues a read nor moves what the thread awaits. *)
Definition quiet `{G : Glyphs} (m : ThreadModel) (e : Event) : Prop :=
  forall S, standing <$> th_history (take S e m) = standing <$> th_history m.

Lemma quiet_run `{G : Glyphs} m es m' : run quiet m es m' -> standing <$> th_history m' = standing <$> th_history m.
Proof. intros Hr. refine (run_invariant _ (fun m' => _ = _) _ _ _ _ Hr _); [|done]. intros S e m1 _ Hq <-. apply Hq. Qed.

(** An invalidated thread takes any response of at least what it awaits to its newest read. *)
Lemma invalid_replaces h g identity k : invalidatedAtGeneration h = Some k -> (k < g)%Z -> (issuedGeneration h <= g)%Z ->
  classifySignal h (mkSignal (Some (id_boot identity)) (Some (id_epoch identity)) None) <> sig_ignore ->
  readDisposition h (Some g) identity = read_replace.
Proof.
  intros Hk Hg Hi Hc. unfold readDisposition, identityDisposition. simpl. rewrite Hk.
  rewrite (proj2 (Z.ltb_ge _ _)), (proj2 (Z.leb_gt _ _)) by lia. by rewrite bool_decide_eq_false_2.
Qed.

Lemma standing_classify h h' signal : standing h = standing h' -> classifySignal h signal = classifySignal h' signal.
Proof. intros [= E1 E2 E3 E4]. unfold classifySignal, awaits. by rewrite E1, E3, E4. Qed.

Section theorems.
Context `{G : Glyphs}.

(** C3: At every moment of an open thread its display is exactly what its history, its
    overlay and a running turn derive: every recorded turn with the overlay items placed
    in it and then the turns only the overlay names. Neither the display turns that are
    reused between derivations nor the one-turn rebuild of a streamed delta shows
    anything else, and nothing recorded history covers is in the overlay. Where every
    overlay item names its turn, the running turn is the model's. *)
Theorem display_is_derived m0 es m :
  opened m0 -> steps m0 es m ->
  exists h o, th_history m = Some h /\ th_overlay m = Some o /\
    Forall (fun item => covered (hist_turns h) item = false) o.*2 /\
    (exists running, th_turns m = reference (hist_turns h) o (modelImageSessionRoute m) running) /\
    (Forall names_turn o.*2 -> th_turns m = reference (hist_turns h) o (modelImageSessionRoute m) (th_runningTurnId m)).
Proof.
  intros H0 Hs. pose proof (reach_ok m0 es m H0 Hs) as Hm.
  destruct (ok_history m Hm) as (h & Hh & _). destruct (ok_overlay m Hm) as (o & Ho & _).
  destruct (ok_display m Hm h o Hh Ho) as [Hu [r Hr]]. exists h, o. do 4 (split; [by eauto|]).
  intros Hn. rewrite Hr. by apply reference_running.
Qed.

(** C36: The live overlay never hides a recorded item. At every moment the display's turns
    have distinct ids, begin with the recorded turns in their order with their own
    scalars, and each shows every one of its recorded items, in the recorded order, with
    its id, type, text, position and version. *)
Theorem display_shows_recorded m0 es m h :
  opened m0 -> steps m0 es m -> th_history m = Some h ->
  NoDup ((fun d => turn_id (shown d)) <$> th_turns m) /\
  forall j t, hist_turns h !! j = Some t ->
    exists d, th_turns m !! j = Some d /\ with_items [] (shown d) = with_items [] t /\
      (core <$> turn_items t) `sublist_of` (core <$> turn_items (shown d)).
Proof.
  intros H0 Hs Hh. pose proof (reach_ok m0 es m H0 Hs) as Hm. destruct (ok_overlay m Hm) as (o & Ho & _).
  destruct (ok_display m Hm h o Hh Ho) as [_ [r ->]]. split.
  - apply reference_ids_distinct. by apply (ok_turns h (history_of m h Hm Hh)).
  - intros j t Hj. destruct (reference_recorded (hist_turns h) o (modelImageSessionRoute m) r j t Hj) as (d & Hd & Hc & Ht). by exists d.
Qed.

(** C4: Whatever arrives for an open thread, in whatever order, every item recorded once
    stays recorded in its turn and its version never goes down, unless a read replaces
    what the thread holds or a window or page says it is authoritative for its range:
    frames of an older version, pages that overlap, repeated and reordered frames,
    deltas, warnings, invalidations and failed reads never take an item back. *)
Theorem recorded_items_survive m0 es m es' m' tid key i :
  opened m0 -> steps m0 es m -> run (fun m1 e => ~ takes_away m1 e) m es' m' ->
  held (recorded_turns m) tid key = Some i ->
  exists i', held (recorded_turns m') tid key = Some i' /\ vle (item_version i) (item_version i').
Proof.
  intros H0 Hs Hr. pose proof (reach_ok m0 es m H0 Hs) as Hm.
  enough (thread_ok m' /\ survives (recorded_turns m) (recorded_turns m')) as [_ H] by apply H.
  refine (run_invariant _ (fun m' => thread_ok m' /\ survives (recorded_turns m) (recorded_turns m')) _ _ _ _ Hr _); [|done].
  intros S e m1 He Hk [Hm1 Hs1]. split; [by apply take_ok|]. etransitivity; [exact Hs1|]. by apply take_survives.
Qed.

(** C6: A response or a failure of a read that was superseded never lands. Once another
    read of the thread was issued after it, or the thread was invalidated or lost its
    place after it, then, whatever else arrives and however late, its response and its
    failure leave the thread as it is, whatever the response says. *)
Theorem superseded_reads_never_land m0 es m m1 generation es1 m2 S e es2 m3 :
  opened m0 -> steps m0 es m ->
  issueLatestWindowRead m = (m1, generation) ->
  run orderly m1 es1 m2 ->
  event_ok e -> orderly m2 e ->
  e = IssueRead \/ e = Invalidate \/
    (historyIsLive (th_history m2) = true /\ historyIsLive (th_history (take S e m2)) = false) ->
  run orderly (take S e m2) es2 m3 ->
  (forall S' resp now frontier, resp_requestGeneration resp = Some generation ->
    applyReadResponse (S := S') m3 resp now frontier = m3) /\
  (forall diagnostic, applyHistoryReadFailure m3 diagnostic generation = m3).
Proof.
  intros H0 Hs Hi Hr1 He Ho Hsup Hr2. pose proof (reach_ok m0 es m H0 Hs) as Hm.
  assert (Hg0 : forall h, th_history m = Some h -> generations_ok h) by (by apply (reach_generations m0 es)).
  destruct (ok_history m Hm) as (h & Hh & _). unfold issueLatestWindowRead in Hi. rewrite Hh in Hi. simpl in Hi.
  injection Hi as <- <-. set (h1 := with_issued _ h) in *.
  assert (Hok1 : generations_ok h1) by (by apply progress_issued, Hg0).
  change (issuedGeneration h + 1)%Z with (issuedGeneration h1). clearbody h1.
  destruct (run_progresses _ _ _ Hr1 ltac:(done)) as [Hp1 Hn2]. destruct (Hp1 h1 eq_refl) as (h2 & Hh2 & P1).
  destruct (P1 Hok1) as (Hok2 & I1 & _ & _).
  pose proof (take_progresses S e m2 Ho Hn2) as Ht. destruct (Ht h2 Hh2) as (h2' & Hh2' & P2).
  destruct (P2 Hok2) as (Hok2' & I2 & _ & L2).
  assert (Hf : (issuedGeneration h1 < floor h2')%Z).
  { destruct Hsup as [->|[->|[La Lb]]].
    - simpl in Hh2'. rewrite Hh2 in Hh2'. injection Hh2' as <-. unfold floor. simpl. lia.
    - simpl in Hh2'. unfold invalidateHistory in Hh2'. rewrite Hh2 in Hh2'. injection Hh2' as <-. unfold floor. simpl. lia.
    - rewrite Hh2 in La. rewrite Hh2' in Lb. specialize (L2 La Lb). lia. }
  destruct (run_progresses _ _ _ Hr2 ltac:(congruence)) as [Hp3 _]. destruct (Hp3 h2' Hh2') as (h3 & Hh3 & P3).
  destruct (P3 Hok2') as (_ & _ & F3 & _).
  split; intros.
  - unfold applyReadResponse. rewrite Hh3. simpl. rewrite below_floor; [by rewrite bool_decide_eq_true_2|].
    rewrite H. simpl. lia.
  - unfold applyHistoryReadFailure. rewrite Hh3. simpl. rewrite (superseded_floor h3); [done|lia].
Qed.


End theorems.

(** *** A concrete thread *)

Section examples.
#[local] Existing Instance Sample.dots.

Definition texts (m : ThreadModel) : list (list (string * option string)) :=
  (fun d => (fun i => (item_text i, item_overlayKey i)) <$> turn_items (shown d)) <$> th_turns m.

(** A streamed item grows and then gives way to the recorded one. *)
Lemma sample_shows :
  texts Sample.m0 = [[("Hi", None); ("He", Some "stream:r1")]] /\
  texts (Sample.after [Sample.delta] Sample.m0) = [[("Hi", None); ("Hello", Some "stream:r1")]] /\
  texts (Sample.after [Sample.delta; Sample.recorded] Sample.m0) = [[("Hi", None); ("Hello", None)]].
Proof. by vm_compute. Qed.

Lemma display_is_derived_witness :
  let m := Sample.after [Sample.delta] Sample.m0 in
  exists h o, th_overlay m = Some o /\ length o = 1 /\
    th_turns m = reference (hist_turns h) o (modelImageSessionRoute m) (th_runningTurnId m) /\
    texts m = [[("Hi", None); ("Hello", Some "stream:r1")]].
Proof.
  destruct (display_is_derived Sample.m0 [Sample.delta] (Sample.after [Sample.delta] Sample.m0) Sample.m0_opened) as (h & o & Hh & Ho & _ & _ & Hd).
  - apply Sample.after_steps. by repeat constructor.
  - exists h, o. split; [exact Ho|]. vm_compute in Ho. injection Ho as <-. split; [done|]. split; [|by vm_compute].
    apply Hd. repeat constructor. by vm_compute.
Defined.

Lemma display_shows_recorded_witness :
  let m := Sample.after [Sample.delta] Sample.m0 in
  exists t d, th_turns m !! 0 = Some d /\ item_text <$> turn_items t = ["Hi"] /\
    (core <$> turn_items t) `sublist_of` (core <$> turn_items (shown d)) /\ item_text <$> turn_items (shown d) = ["Hi"; "Hello"].
Proof.
  set (m := Sample.after [Sample.delta] Sample.m0). destruct (th_history m) as [h|] eqn:Hh; [|by vm_compute in Hh].
  destruct (display_shows_recorded Sample.m0 [Sample.delta] m h Sample.m0_opened) as [_ Hs]; [|done|].
  - apply Sample.after_steps. by repeat constructor.
  - vm_compute in Hh. injection Hh as <-. destruct (Hs 0 _ eq_refl) as (d & Hd & _ & Hc). eexists _, d.
    split; [exact Hd|]. split; [|split; [exact Hc|]]; [by vm_compute|]. vm_compute in Hd. injection Hd as <-. by vm_compute.
Defined.

Lemma recorded_items_survive_witness :
  let m' := Sample.after [Sample.recorded; Invalidate] Sample.m0 in
  exists i', held (recorded_turns m') "turn_1" "item_1" = Some i' /\ vle (Some 1%Z) (item_version i').
Proof.
  set (m' := Sample.after [Sample.recorded; Invalidate] Sample.m0).
  destruct (held (recorded_turns Sample.m0) "turn_1" "item_1") as [i|] eqn:Hi; [|by vm_compute in Hi].
  assert (Hv : item_version i = Some 1%Z) by (vm_compute in Hi; by injection Hi as <-). rewrite <- Hv.
  apply (recorded_items_survive Sample.m0 [] Sample.m0 [Sample.recorded; Invalidate] m' "turn_1" "item_1" i Sample.m0_opened);
    [constructor| |done].
  apply Sample.after_run; [by repeat constructor|]. intros es1 e es2 E.
  destruct es1 as [|e1 [|e2 es1]]; simpl in E; [injection E as <- _; tauto|injection E as _ <- _; tauto|].
  injection E as _ _ E. by destruct es1.
Defined.

(** A read is issued, another after it; the first response comes last. *)
Lemma superseded_reads_never_land_witness :
  let m := Sample.after [IssueRead; IssueRead] Sample.m0 in
  let late := Sample.response 1 9 [] [] in
  applyReadResponse (S := Sample.fresh_objects) m late 3 frontier_none = m /\ applyHistoryReadFailure m "timeout" 1 = m.
Proof.
  destruct (superseded_reads_never_land Sample.m0 [] Sample.m0 (Sample.after [IssueRead] Sample.m0) 1 []
    (Sample.after [IssueRead] Sample.m0) Sample.fresh_objects IssueRead [] (Sample.after [IssueRead; IssueRead] Sample.m0)
    Sample.m0_opened) as [H1 H2]; [constructor|done|constructor|done|done|by left|constructor|].
  split; [by apply H1|apply H2].
Defined.


End examples.
