(* ===== verification/ReducerTheorems.v ===== *)
(** The smaller contracts of the fold: scalar notifications leave the transcript alone, a
    pending retry stays until the model's own output lands, delegate snapshots join to
    the newest state and the latest activity in any order, and a folded warning is
    bounded and visible. *)

From S2P Require Import Prelude JsString Json JsMap BootGeneration TranscriptItems TranscriptHistory TranscriptOverlay.
From S2P Require Import ThreadModel ThreadReads StableDelegate WarningFold Reducer ThreadReach.
From stdpp Require Import pretty.

Local Open Scope string_scope.

#[local] Arguments mergeHistory : simpl never.
#[local] Arguments displayTurns : simpl never.
#[local] Arguments wireFragment : simpl never.

(** ** Delegates *)

(** The instant of a snapshot's latest activity; none for a blank one. *)
Definition activity (d : json_object) : option (Z * Z) :=
  match latestActivityAt d with Some a => if blank a then None else activityInstant a | None => None end.

(** Its activity is blank or a timestamp of the wire's layout. *)
Definition timed (d : json_object) : Prop :=
  match latestActivityAt d with Some a => blank a = true \/ activityInstant a <> None | None => True end.

Definition activity_le (x y : option (Z * Z)) : Prop :=
  match x, y with
  | None, _ => True
  | Some _, None => False
  | Some (s1, n1), Some (s2, n2) => (s1 < s2)%Z \/ s1 = s2 /\ (n1 <= n2)%Z
  end.

#[export] Instance activity_le_preorder : PreOrder activity_le.
Proof.
  split; [intros [[s n]|]; simpl; [lia|done]|].
  intros [[s1 n1]|] [[s2 n2]|] [[s3 n3]|]; simpl; try done. lia.
Qed.

Lemma activityAfter_spec a b : timed a -> timed b ->
  if activityAfter (latestActivityAt a) (latestActivityAt b)
  then activity_le (activity b) (activity a) else activity_le (activity a) (activity b).
Proof.
  unfold timed, activity, activityAfter. intros Ha Hb.
  destruct (latestActivityAt a) as [x|]; [|done]. destruct (blank x) eqn:Ex; [done|].
  destruct (latestActivityAt b) as [y|]; [|done]. destruct (blank y) eqn:Ey; [done|].
  destruct Ha as [?|Ha]; [done|]. destruct Hb as [?|Hb]; [done|].
  destruct (activityInstant x) as [[s1 n1]|]; [|done]. destruct (activityInstant y) as [[s2 n2]|]; [|done].
  destruct (Z.eqb_spec s1 s2); [destruct (Z.ltb_spec n2 n1)|destruct (Z.ltb_spec s2 s1)]; simpl; lia.
Qed.

(** The held state after an incoming snapshot. *)
Definition merged_delegate (current incoming : json_object) : json_object := default current (mergeStableDelegate current incoming).

(** The fields of a snapshot that are its own. *)
Definition own_field (k : string) : Prop := k <> "latestActivityAt" /\ k <> "waitIgnoredReason".

Lemma clone_get k d : k <> "waitIgnoredReason" -> obj_get k (cloneStableDelegate d) = obj_get k d.
Proof.
  intros Hk. unfold cloneStableDelegate. induction d as [|[j v] d IH]; [done|]. rewrite filter_cons.
  destruct (decide _) as [|Hn]; simpl; [by rewrite IH|]. apply dec_stable in Hn. simpl in Hn. subst j.
  destruct (String.eqb_spec k "waitIgnoredReason"); [done|exact IH].
Qed.

(** One join: the snapshot of the higher revision, with the later activity of the two. *)
Lemma merged_delegate_spec current incoming : timed current -> timed incoming ->
  let winner := if (projectionRevision current <? projectionRevision incoming)%Z then incoming else current in
  let d := merged_delegate current incoming in
  (forall k, own_field k -> obj_get k d = obj_get k winner) /\
  timed d /\ activity_le (activity current) (activity d) /\ activity_le (activity incoming) (activity d) /\
  (activity d = activity current \/ activity d = activity incoming).
Proof.
  intros Hc Hi winner d. set (wins := (projectionRevision current <? projectionRevision incoming)%Z) in *.
  set (other := if wins then current else incoming).
  assert (Hw : timed winner /\ timed other) by (unfold winner, other; by destruct wins). destruct Hw as [Hw Ho].
  set (joined := default winner (joinDelegateState incoming current wins)).
  assert (Hj : (forall k, own_field k -> obj_get k joined = obj_get k winner) /\
    latestActivityAt joined = (if activityAfter (latestActivityAt other) (latestActivityAt winner) then latestActivityAt other else latestActivityAt winner)).
  { unfold joined, joinDelegateState. fold winner. fold other.
    destruct (activityAfter (latestActivityAt other) (latestActivityAt winner)) eqn:E; [|done].
    destruct (latestActivityAt other) as [a|]; [|done]. case_bool_decide as Ea; [done|]. simpl. split.
    - intros k [Hk _]. by apply obj_get_set_ne.
    - unfold latestActivityAt. by rewrite obj_get_set. }
  assert (Hd : (forall k, k <> "waitIgnoredReason" -> obj_get k d = obj_get k joined)).
  { intros k Hk. unfold d, merged_delegate, mergeStableDelegate, joined, winner. fold wins.
    destruct wins; simpl; [by apply clone_get|done]. }
  destruct Hj as [Hf Hl].
  assert (El : latestActivityAt d = if activityAfter (latestActivityAt other) (latestActivityAt winner) then latestActivityAt other else latestActivityAt winner).
  { rewrite <- Hl. unfold latestActivityAt. by rewrite Hd. }
  split; [intros k Hk; rewrite Hd by apply Hk; by apply Hf|].
  pose proof (activityAfter_spec other winner Ho Hw) as Hs.
  assert (H : timed d /\ activity_le (activity winner) (activity d) /\ activity_le (activity other) (activity d) /\
    (activity d = activity winner \/ activity d = activity other)).
  { assert (Ea : forall x, latestActivityAt d = latestActivityAt x -> (timed x -> timed d) /\ activity d = activity x)
      by (intros x E; unfold timed, activity; by rewrite E).
    destruct (activityAfter _ _); destruct (Ea _ El) as [Ht ->]; repeat split; auto; reflexivity. }
  unfold winner, other in H. destruct wins; tauto.
Qed.

(** A delegate's snapshots join the same way in whatever order they arrive: after any
    sequence of them the held state has the highest revision seen, every field of a
    snapshot of that revision, and the latest activity of all of them, which a lower
    revision may advance and a higher one never moves back. *)
Theorem delegate_snapshots_join first rest : Forall timed (first :: rest) ->
  let d := foldl merged_delegate first rest in
  (forall f, f ∈ first :: rest -> (projectionRevision f <= projectionRevision d)%Z) /\
  (exists w, w ∈ first :: rest /\ forall k, own_field k -> obj_get k d = obj_get k w) /\
  (forall f, f ∈ first :: rest -> activity_le (activity f) (activity d)) /\
  (exists f, f ∈ first :: rest /\ activity d = activity f).
Proof.
  intros [H1 Hr]%Forall_cons.
  enough (timed (foldl merged_delegate first rest) /\ let d := foldl merged_delegate first rest in _) as [_ H] by exact H.
  induction rest as [|f rest IH] using rev_ind; cbv zeta.
  { split; [done|]. repeat split; try (by intros f ->%list_elem_of_singleton); exists first; (split; [by left|done]). }
  apply Forall_app in Hr as [Hr [Hf _]%Forall_cons]. destruct (IH Hr) as (Ht & Hrev & (w & Hw & Hfields) & Hact & (a & Ha & Ea)).
  rewrite foldl_snoc. set (d := foldl merged_delegate first rest) in *.
  destruct (merged_delegate_spec d f Ht Hf) as (Hown & Ht' & Hle & Hle' & Hor).
  assert (Hin : forall x, x ∈ first :: rest ++ [f] <-> x ∈ first :: rest \/ x = f).
  { intros x. rewrite app_comm_cons, elem_of_app, list_elem_of_singleton. done. }
  assert (Hr' : projectionRevision (merged_delegate d f) =
    projectionRevision (if (projectionRevision d <? projectionRevision f)%Z then f else d)).
  { unfold projectionRevision at 1 4. by rewrite Hown by done. }
  split; [done|]. repeat split.
  - intros x [Hx| ->]%Hin; rewrite Hr'; [specialize (Hrev x Hx)|]; destruct (Z.ltb_spec (projectionRevision d) (projectionRevision f)); lia.
  - destruct (projectionRevision d <? projectionRevision f)%Z.
    + exists f. split; [apply Hin; by right|done].
    + exists w. split; [apply Hin; by left|]. intros k Hk. rewrite Hown by done. by apply Hfields.
  - intros x [Hx| ->]%Hin; [|done]. transitivity (activity d); [by apply Hact|done].
  - destruct Hor as [->| ->]; [|exists f; split; [apply Hin; by right|done]]. exists a. split; [apply Hin; by left|done].
Qed.

(** ** The fold *)

Section fold.
Context `{S : SameObject} `{G : Glyphs}.

(** A notification whose method [notificationTouchesTranscript] rules out leaves the
    transcript alone: the display, the recorded turns, their identity and generations, and
    the overlay are the ones held, so a caller that skips them misses nothing. *)
Theorem scalar_methods_leave_transcript m n now :
  notificationTouchesTranscript (method_name (n_body n)) = false ->
  transcript (applyNotification m n now) = transcript m.
Proof.
  intros Hn. destruct (applyNotification_transcript m n now) as [-> _]. unfold applyNotificationToThread.
  destruct (negb (notificationTargetsThread n m)); [done|].
  destruct (n_body n); try done; try (by vm_compute in Hn); simpl.
  - apply (escalation_transcript m id).
  - by destruct (match jb_jobsTreeRevision _ with Some _ => _ | None => _ end).
Qed.

(** What of a frame says that the model's own output landed. *)
Definition output_landed (m : ThreadModel) (n : AnyNotification) (now : Z) : Prop :=
  exists p, n_body n = HistoryUpdated p /\ (applyHistoryUpdated m p now).2 = true /\
    exists i, i ∈ default [] (hu_items p) /\ wire_type i ∈ MODEL_OUTPUT_ITEM_TYPES.

Definition is_retry (b : NotificationBody) : bool := match b with ModelRetry _ _ _ _ _ _ _ _ _ => true | _ => false end.

(** The first half of the fold only ever sets a retry. *)
Lemma retry_held m n now :
  th_modelRetry m <> None -> th_modelRetry (applyNotificationToThread m n now).1 <> None /\
  (is_retry (n_body n) = false -> th_modelRetry (applyNotificationToThread m n now).1 = th_modelRetry m).
Proof.
  intros Hm. assert (Hsame : forall m', th_modelRetry m' = th_modelRetry m ->
    th_modelRetry m' <> None /\ (is_retry (n_body n) = false -> th_modelRetry m' = th_modelRetry m)) by (by intros m' ->).
  unfold applyNotificationToThread. destruct (negb _); [by apply Hsame|].
  assert (Hc : forall change, th_modelRetry (applyOverlayChange m now change) = th_modelRetry m).
  { intros change. unfold applyOverlayChange. destruct (th_history m); [|done]. destruct (historyIsLive _); [|done]. by destruct (change _). }
  destruct (n_body n); try (by apply Hsame); try (apply Hsame; by apply Hc); try (by split); apply Hsame; simpl.
  - unfold applyHistoryUpdated. destruct (failed _); [done|]. destruct (classifySignal _ _); [done| |done].
    destruct (negb _); [done|]. by destruct (mergeHistory _ _ _).
  - unfold applyResync. destruct (th_history m); [|done]. destruct (_ && _); [done|]. by destruct (bool_decide _).
  - unfold applyOverlayDelta. destruct (th_overlay m ≫= _); [|done]. destruct (th_history m); [|done]. destruct (negb _); [done|].
    destruct (list_find _ _) as [[? d]|]; [|done]. by destruct (shown_source d).
  - unfold resolvePendingEscalationModel. by destruct (existsb _ _).
  - by destruct (match jb_jobsTreeRevision _ with Some _ => _ | None => _ end).
  - unfold applyWarning. destruct (truthy_s _); [|done]. by destruct (match th_history m with Some _ => _ | None => _ end).
Qed.

Lemma output_landed_spec m n now : notificationTargetsThread n m = true ->
  output_landed m n now <->
  (applyNotificationToThread m n now).2 &&
    match n_body n with
    | HistoryUpdated p => existsb (fun i => str_in (wire_type i) MODEL_OUTPUT_ITEM_TYPES) (default [] (hu_items p))
    | _ => false
    end = true.
Proof.
  intros Ht. unfold output_landed, applyNotificationToThread. rewrite Ht. simpl negb. cbv iota zeta. rewrite andb_true_iff. split.
  - intros (p & -> & Hc & i & Hi & Hty). split; [done|]. apply existsb_exists. exists i.
    split; [by apply list_elem_of_In|by apply (str_in_spec _ MODEL_OUTPUT_ITEM_TYPES)].
  - intros [Hc He]. destruct (n_body n) as [p| | | | | | | | | | | | | | | | | | | | | | | | |]; try done.
    exists p. split; [done|]. split; [done|]. apply existsb_exists in He as (i & Hi%list_elem_of_In & Hty). exists i. split; [done|].
    by apply (str_in_spec _ MODEL_OUTPUT_ITEM_TYPES).
Qed.

(** A pending retry notice stays until the model's own output lands. A notification
    clears it exactly when it is of this thread, is a history update that changed the
    recorded turns and carries a message, reasoning or command item; every other frame,
    deltas and statuses and warnings included, leaves it, and only a newer retry notice
    replaces it. *)
Theorem retry_is_sticky m n now :
  th_modelRetry m <> None ->
  (th_modelRetry (applyNotification m n now) = None <->
    notificationTargetsThread n m = true /\ output_landed m n now) /\
  (is_retry (n_body n) = false -> th_modelRetry (applyNotification m n now) <> None ->
    th_modelRetry (applyNotification m n now) = th_modelRetry m).
Proof.
  intros Hm. destruct (retry_held m n now Hm) as [Hn Hs]. unfold applyNotification.
  pose proof (output_landed_spec m n now) as Hl.
  destruct (applyNotificationToThread m n now) as [next changed]. simpl in *.
  assert (absent (th_modelRetry next) = false) as -> by (destruct (th_modelRetry next); done). simpl.
  destruct (notificationTargetsThread n m); simpl; [|split; [split; [done|by intros [? _]]|auto]].
  rewrite (Hl eq_refl). set (landed := match n_body n with HistoryUpdated p => _ | _ => _ end).
  destruct (changed && landed) eqn:E; [by split|]. split; [|auto]. split; [done|]. intros [_ Hx]. congruence.
Qed.
End fold.

(** ** Warnings *)

Lemma get_content s n c : String.get n s = Some c -> is_js_space c = false -> hasWarningText s = true.
Proof.
  unfold hasWarningText. intros Hg Hc. apply negb_true_iff. destruct (all_space s) eqn:E; [|done].
  rewrite (all_space_get _ _ _ Hg E) in Hc. done.
Qed.

Section warnings.
Context `{G : Glyphs}.

Lemma bounded_content v s : boundedWarningText v = Some s ->
  (String.length s <= RAW_WARNING_FRAME_MAX_CHARS)%nat /\ hasWarningText s = true.
Proof. intros E. split; [by eapply boundedWarningText_length|by eapply boundedWarningText_content]. Qed.

Lemma raw_frame_visible params :
  (String.length (rawWarningFrame params) <= RAW_WARNING_FRAME_MAX_CHARS)%nat /\ hasWarningText (rawWarningFrame params) = true.
Proof.
  split; [apply boundedPrefix_length|]. unfold rawWarningFrame, boundedCodePoints.
  assert (Ho : forall fuel fields budget, exists o rest, prunedForStringify (S fuel) (JObj fields) 0 (S budget) = (JObj o, rest)).
  { intros. simpl. destruct (foldl _ _ _) as [o rest]. eauto. }
  change RAW_WARNING_FRAME_MAX_NODES with (S 499).
  destruct (Ho RAW_WARNING_FRAME_MAX_DEPTH params 499%nat) as (o & rest & ->). cbn [fst stringify]. generalize (String.concat "," (map (fun kv => json_string kv.1 ++ ":" ++ stringify kv.2) o)).
  intros body. eapply (get_content _ 0 "{"); [|done]. unfold boundedPrefix.
  destruct (Nat.leb_spec (String.length ("{" ++ body ++ "}") - 0) RAW_WARNING_FRAME_MAX_CHARS); [done|].
  rewrite !get_substring; [done|unfold RAW_WARNING_FRAME_MAX_CHARS; lia..].
Qed.

Lemma warningMessage_visible params : warningMessage params = "" \/
  (String.length (warningMessage params) <= RAW_WARNING_FRAME_MAX_CHARS)%nat /\ hasWarningText (warningMessage params) = true.
Proof.
  unfold warningMessage. destruct (boundedWarningText (obj_get "message" params)) as [s|] eqn:E1; [right; by eapply bounded_content|].
  destruct (boundedWarningText (obj_get "warning" params)) as [s|] eqn:E2; [right; by eapply bounded_content|].
  destruct (obj_get "warning" params) as [[| | | | |w]|]; try by left.
  destruct (boundedWarningText (obj_get "message" w)) as [s|] eqn:E3; [right; by eapply bounded_content|by left].
Qed.

(** C38: However a warning frame is shaped, its fold is bounded and never invisible: each
    text it puts into the model has at most 2,000 characters, no optional part is blank,
    and the row has content to show, its text or else a title or a hint. *)
Theorem warning_fold_is_bounded_and_visible params :
  let w := foldWarningParams params in
  (String.length (fold_text w) <= RAW_WARNING_FRAME_MAX_CHARS)%nat /\
  (forall part s, part ∈ [fold_title w; fold_hint w; fold_source w; fold_code w] -> part = Some s ->
    (String.length s <= RAW_WARNING_FRAME_MAX_CHARS)%nat /\ hasWarningText s = true) /\
  (hasWarningText (fold_text w) = true \/ fold_title w <> None \/ fold_hint w <> None).
Proof.
  cbv zeta. unfold foldWarningParams. cbn [fold_text fold_title fold_hint fold_source fold_code].
  pose proof (raw_frame_visible params) as Hraw. split; [|split].
  - destruct (warningMessage_visible params) as [->|[Hl Hc]]; simpl.
    + destruct (boundedWarningText (obj_get "title" params)), (boundedWarningText (obj_get "hint" params)); simpl; try apply Hraw; unfold RAW_WARNING_FRAME_MAX_CHARS; lia.
    + destruct (str_truthy (warningMessage params)); [done|].
      destruct (boundedWarningText (obj_get "title" params)), (boundedWarningText (obj_get "hint" params)); simpl; try apply Hraw; unfold RAW_WARNING_FRAME_MAX_CHARS; lia.
  - intros part s Hp ->. repeat (apply elem_of_cons in Hp as [Hp|Hp]; [symmetry in Hp; by eapply bounded_content|]). by apply not_elem_of_nil in Hp.
  - destruct (warningMessage_visible params) as [->|[Hl Hc]]; simpl.
    + destruct (boundedWarningText (obj_get "title" params)); [right; by left|].
      destruct (boundedWarningText (obj_get "hint" params)); [by right; right|left; apply Hraw].
    + assert (str_truthy (warningMessage params) = true) as -> by (by destruct (warningMessage params)). by left.
Qed.

(** *** Names of a pruned frame *)

Lemma obj_has_elem k (o : json_object) : obj_has k o = true <-> k ∈ o.*1.
Proof.
  unfold obj_has. induction o as [|[j v] o IH]; csimpl; [split; [done|by intros ?%not_elem_of_nil]|].
  rewrite elem_of_cons. destruct (String.eqb_spec k j); naive_solver.
Qed.

Definition numbered (prefix : string) (collision : nat) : string := prefix ++ ellipsis ++ "#" ++ pretty (N.of_nat collision).

Lemma append_inj a b c : a ++ b = a ++ c -> b = c.
Proof. induction a; simpl; [done|]. intros [= H]. auto. Qed.

Lemma numbered_inj prefix i j : numbered prefix i = numbered prefix j -> i = j.
Proof. unfold numbered. intros H%append_inj%append_inj%append_inj%(inj pretty). lia. Qed.

Lemma free_key_taken fuel collision prefix pruned key :
  obj_has (free_key fuel collision prefix pruned key) pruned = true ->
  forall k, k ∈ key :: (numbered prefix <$> seq collision fuel) -> k ∈ pruned.*1.
Proof.
  revert collision key. induction fuel as [|fuel IH]; intros collision key; simpl.
  - intros Hh k ->%list_elem_of_singleton. by apply obj_has_elem.
  - destruct (obj_has key pruned) eqn:E; [|congruence]. intros Hh k [->|Hk]%elem_of_cons; [by apply obj_has_elem|].
    by apply (IH _ _ Hh).
Qed.

Lemma append_length a b : String.length (a ++ b) = (String.length a + String.length b)%nat.
Proof. induction a as [|c a IH]; simpl; [done|]. by rewrite IH. Qed.

Lemma numbered_length prefix i : (String.length prefix + String.length ellipsis < String.length (numbered prefix i))%nat.
Proof. unfold numbered. rewrite !append_length. simpl. lia. Qed.

(** The name a bounded key is stored under is one the frame does not hold yet: the fuel
    of the search is enough, and no field overwrites another. *)
Lemma free_key_free prefix pruned key :
  (String.length key <= String.length prefix + String.length ellipsis)%nat ->
  obj_has (free_key (S (length pruned)) 2 prefix pruned key) pruned = false.
Proof.
  intros Hlen. destruct (obj_has _ _) eqn:E; [|done]. pose proof (free_key_taken _ _ _ _ _ E) as Hin.
  assert (Hnd : NoDup (key :: (numbered prefix <$> seq 2 (S (length pruned))))).
  { constructor.
    - intros (i & -> & _)%list_elem_of_fmap. pose proof (numbered_length prefix i). lia.
    - assert (Inj (=) (=) (numbered prefix)) by (intros i j; apply numbered_inj).
      apply (NoDup_fmap_2 _), NoDup_seq. }
  pose proof (NoDup_submseteq _ _ Hnd Hin) as Hs%submseteq_length. csimpl in Hs.
  rewrite !length_fmap, length_seq in Hs. lia.
Qed.
End warnings.

(** ** Examples *)

Section examples.
#[local] Existing Instance Sample.dots.
#[local] Existing Instance Sample.fresh_objects.

Definition delegate (revision : Z) (at_ intent : string) : json_object :=
  [("delegateId", JStr "d1"); ("projectionRevision", JNum revision); ("latestActivityAt", JStr at_); ("latestIntent", JStr intent)].

Lemma delegate_snapshots_join_witness :
  let newer := delegate 2 "2026-01-01T00:00:05Z" "reading" in
  let older := delegate 1 "2026-01-01T00:00:09Z" "starting" in
  let d := foldl merged_delegate newer [older] in
  (projectionRevision newer <= projectionRevision d)%Z /\ activity_le (activity older) (activity d) /\
  obj_get "latestIntent" d = Some (JStr "reading") /\ latestActivityAt d = Some "2026-01-01T00:00:09Z".
Proof.
  intros newer older d. destruct (delegate_snapshots_join newer [older]) as (Hr & _ & Ha & _).
  - repeat (apply Forall_cons; split; [right; by vm_compute|]). constructor.
  - split; [apply Hr; by left|]. split; [apply Ha; by right; left|]. by vm_compute.
Defined.

Lemma scalar_methods_leave_transcript_witness :
  let n := Sample.to_thread (NameChanged "renamed") in
  nt_name (th_notes (applyNotification Sample.m0 n 5)) = "renamed" /\
  transcript (applyNotification Sample.m0 n 5) = transcript Sample.m0.
Proof. split; [by vm_compute|]. by apply scalar_methods_leave_transcript. Defined.

(** A retry is pending; a delta leaves it and the recorded answer clears it. *)
Lemma retry_is_sticky_witness :
  let m := applyNotification Sample.m0 (Sample.to_thread (ModelRetry 1 3 500 None None None None 0 10)) 1 in
  th_modelRetry (applyNotification m (Sample.to_thread (OverlayDelta "stream:r1" "text" "!")) 2) = th_modelRetry m /\
  th_modelRetry (applyNotification m
    (Sample.to_thread (HistoryUpdated (mkHistoryUpdated "1" 1 (mkSnapshot "a" 2) None (Some [Sample.answer])))) 2) = None.
Proof.
  intros m. assert (Hm : th_modelRetry m <> None) by (by vm_compute). split.
  - apply (retry_is_sticky m); [done|done|by vm_compute].
  - apply (retry_is_sticky m); [done|]. split; [by vm_compute|]. eexists. split; [reflexivity|]. split; [by vm_compute|].
    exists Sample.answer. split; [by left|by left].
Defined.
End examples.
