(* ===== verification/ThreadSubscription.v ===== *)
(** Shared thread subscriptions of one connection (appwire-client/typescript/
    threadSubscription.ts).

    A membership is an object that leases, requests and the table point at, so the
    memberships are a heap and everything else names one by its index. A request is a
    flight; the callbacks hung on its promise run one at a time, and what else runs
    between two of them is left open. A registry that retires and is made again keeps
    counting: the source's next registry starts from zero with an empty table and has
    nothing in flight. *)

From S2P Require Import Prelude JsString Json JsMap TranscriptItems ThreadModel.

Local Open Scope string_scope.

(** ** Data *)

Record ThreadSubscriptionMetadata := mkMetadata {
  meta_threadId : string; meta_sessionId : string; meta_status : ThreadStatus }.

Record Membership := mkMember {
  mb_ref : string;
  holders : nat;
  subscribed : bool;
  transition : option nat;
  transitionEpoch : nat;
  retiredEpoch : nat;
  outstandingAcquisitions : nat;
  orphanedSubscribe : bool;
  metadata : option ThreadSubscriptionMetadata;
  statusRevision : nat;
  statusThreadId : string
}.

(** What a request is for, with what its callbacks captured. *)
Inductive FlightKind := Acquisition (epoch statusRevision : nat) | Unsubscription.

(** Where a request's promise is: unanswered, answered with its first callback due, its
    transition settled with the acquisition's own callback due, the tracking callback
    due, nothing left. *)
Inductive Phase := OnWire | Landing (thread : Thread) | Settling | Tracking | Finished.

Record Flight := mkFlight {
  fl_member : nat; fl_ref : string; fl_generation : nat; fl_kind : FlightKind; fl_phase : Phase }.

Record Lease := mkLease { lease_member : nat; released : bool }.

(** A read of a held subscription, waiting for its response. *)
Record PlainRead := mkPlainRead { pr_lease : nat; pr_generation : nat; pr_statusRevision : nat }.

Record Registry := mkRegistry {
  connectionOwned : bool;
  ready : bool;
  retired : bool;
  generation : nat;
  table : js_map nat;
  members : list Membership;
  leases : list Lease;
  flights : list Flight;
  plainReads : list PlainRead
}.

(** ** Setters *)

Definition put_members (l : list Membership) (s : Registry) : Registry :=
  mkRegistry (connectionOwned s) (ready s) (retired s) (generation s) (table s) l (leases s) (flights s) (plainReads s).
Definition put_table (t : js_map nat) (s : Registry) : Registry :=
  mkRegistry (connectionOwned s) (ready s) (retired s) (generation s) t (members s) (leases s) (flights s) (plainReads s).
Definition put_flights (l : list Flight) (s : Registry) : Registry :=
  mkRegistry (connectionOwned s) (ready s) (retired s) (generation s) (table s) (members s) (leases s) l (plainReads s).
Definition put_leases (l : list Lease) (s : Registry) : Registry :=
  mkRegistry (connectionOwned s) (ready s) (retired s) (generation s) (table s) (members s) l (flights s) (plainReads s).
Definition put_reads (l : list PlainRead) (s : Registry) : Registry :=
  mkRegistry (connectionOwned s) (ready s) (retired s) (generation s) (table s) (members s) (leases s) (flights s) l.
Definition put_retired (b : bool) (s : Registry) : Registry :=
  mkRegistry (connectionOwned s) (ready s) b (generation s) (table s) (members s) (leases s) (flights s) (plainReads s).
Definition put_state (r : bool) (g : nat) (s : Registry) : Registry :=
  mkRegistry (connectionOwned s) r (retired s) g (table s) (members s) (leases s) (flights s) (plainReads s).

Definition on_member (i : nat) (f : Membership -> Membership) (s : Registry) : Registry :=
  put_members (alter f i (members s)) s.
Definition on_phase (f : nat) (p : Phase) (s : Registry) : Registry :=
  put_flights (alter (fun x => mkFlight (fl_member x) (fl_ref x) (fl_generation x) (fl_kind x) p) f (flights s)) s.

Definition with_holders (n : nat) (m : Membership) : Membership :=
  mkMember (mb_ref m) n (subscribed m) (transition m) (transitionEpoch m) (retiredEpoch m) (outstandingAcquisitions m)
    (orphanedSubscribe m) (metadata m) (statusRevision m) (statusThreadId m).
Definition with_subscribed (sub orphan : bool) (m : Membership) : Membership :=
  mkMember (mb_ref m) (holders m) sub (transition m) (transitionEpoch m) (retiredEpoch m) (outstandingAcquisitions m)
    orphan (metadata m) (statusRevision m) (statusThreadId m).
Definition with_transition (t : option nat) (m : Membership) : Membership :=
  mkMember (mb_ref m) (holders m) (subscribed m) t (transitionEpoch m) (retiredEpoch m) (outstandingAcquisitions m)
    (orphanedSubscribe m) (metadata m) (statusRevision m) (statusThreadId m).
Definition with_outstanding (n : nat) (m : Membership) : Membership :=
  mkMember (mb_ref m) (holders m) (subscribed m) (transition m) (transitionEpoch m) (retiredEpoch m) n
    (orphanedSubscribe m) (metadata m) (statusRevision m) (statusThreadId m).
Definition with_epochs (epoch retiredAt : nat) (m : Membership) : Membership :=
  mkMember (mb_ref m) (holders m) (subscribed m) (transition m) epoch retiredAt (outstandingAcquisitions m)
    (orphanedSubscribe m) (metadata m) (statusRevision m) (statusThreadId m).
Definition with_metadata (d : option ThreadSubscriptionMetadata) (m : Membership) : Membership :=
  mkMember (mb_ref m) (holders m) (subscribed m) (transition m) (transitionEpoch m) (retiredEpoch m) (outstandingAcquisitions m)
    (orphanedSubscribe m) d (statusRevision m) (statusThreadId m).
Definition with_revision (n : nat) (threadId : string) (m : Membership) : Membership :=
  mkMember (mb_ref m) (holders m) (subscribed m) (transition m) (transitionEpoch m) (retiredEpoch m) (outstandingAcquisitions m)
    (orphanedSubscribe m) (metadata m) n threadId.

(** ** Membership *)

Definition retire (s : Registry) : Registry := put_retired true (put_table [] s).

Definition track (i f : nat) (s : Registry) : Registry := on_member i (with_transition (Some f)) s.

(** Appends a request; the answer is its index. *)
Definition send (x : Flight) (s : Registry) : Registry * nat := (put_flights (flights s ++ [x])%list s, length (flights s)).

(** [member.holders > 0 || member.transition || member.outstandingAcquisitions > 0]. *)
Definition busy (m : Membership) : bool :=
  (0 <? holders m)%nat || negb (absent (transition m)) || (0 <? outstandingAcquisitions m)%nat.

Definition unsubscribe_wire (i : nat) (m : Membership) (s : Registry) : Registry :=
  let s := on_member i (with_subscribed false false) s in
  let '(s, f) := send (mkFlight i (mb_ref m) (generation s) Unsubscription OnWire) s in
  track i f s.

Definition forget (i : nat) (m : Membership) (s : Registry) : Registry :=
  let s := if bool_decide (map_get (mb_ref m) (table s) = Some i) then put_table (map_del (mb_ref m) (table s)) s else s in
  if negb (connectionOwned s) && (length (table s) =? 0)%nat then retire s else s.

Definition releaseEmpty (i : nat) (s : Registry) : Registry :=
  match members s !! i with
  | None => s
  | Some m =>
      if busy m then s
      else if (subscribed m || orphanedSubscribe m) && ready s then unsubscribe_wire i m s
      else forget i m s
  end.

Definition copyStatus (status : ThreadStatus) : ThreadStatus := status.

Definition admitMetadata (i : nat) (thread : Thread) (gen readStatusRevision : nat) (s : Registry) : Registry :=
  match members s !! i with
  | None => s
  | Some m =>
      if negb (gen =? generation s)%nat || negb (ready s) || (holders m =? 0)%nat then s
      else
        let newer := (readStatusRevision <? statusRevision m)%nat && (statusThreadId m =? wt_id thread) in
        let status := default (wt_status thread) (if newer then meta_status <$> metadata m else None) in
        on_member i (with_metadata (Some (mkMetadata (wt_id thread) (wt_sessionId thread) (copyStatus status)))) s
  end.

Definition acquireWire (i : nat) (s : Registry) : Registry * nat :=
  match members s !! i with
  | None => (s, length (flights s))
  | Some m =>
      let epoch := S (transitionEpoch m) in
      let s := on_member i (fun m => with_outstanding (S (outstandingAcquisitions m)) (with_epochs epoch (retiredEpoch m) m)) s in
      let '(s, f) := send (mkFlight i (mb_ref m) (generation s) (Acquisition epoch (statusRevision m)) OnWire) s in
      (track i f s, f)
  end.

(** ** Callbacks of a request *)

(** The request is answered; a rejection passes the first callback by. *)
Definition answer (f : nat) (result : option Thread) (s : Registry) : Registry :=
  match flights s !! f with
  | Some (mkFlight _ _ _ kind OnWire) =>
      match kind, result with
      | Acquisition _ _, Some thread => on_phase f (Landing thread) s
      | Acquisition _ _, None => on_phase f Settling s
      | Unsubscription, _ => on_phase f Tracking s
      end
  | _ => s
  end.

(** The first callback: only the current acquisition flips the membership; a superseded
    success is remembered. *)
Definition land (f : nat) (s : Registry) : Registry :=
  match flights s !! f with
  | Some (mkFlight i _ gen (Acquisition epoch revision) (Landing thread)) =>
      let s := on_phase f Settling s in
      match members s !! i with
      | None => s
      | Some m =>
          if (gen =? generation s)%nat && (epoch =? transitionEpoch m)%nat
          then admitMetadata i thread gen revision (on_member i (fun m => with_subscribed true (orphanedSubscribe m) m) s)
          else if negb (gen =? generation s)%nat || subscribed m then s
          else on_member i (fun m => with_subscribed (subscribed m) true m) s
      end
  | _ => s
  end.

(** The acquisition's own callback. *)
Definition settle (f : nat) (s : Registry) : Registry :=
  match flights s !! f with
  | Some (mkFlight i _ _ (Acquisition _ _) Settling) =>
      let s := on_member i (fun m => with_outstanding (pred (outstandingAcquisitions m)) m) (on_phase f Tracking s) in
      match members s !! i with
      | Some m => if bool_decide (transition m = Some f) then s else releaseEmpty i s
      | None => s
      end
  | _ => s
  end.

(** The tracking callback. *)
Definition tracked (f : nat) (s : Registry) : Registry :=
  match flights s !! f with
  | Some (mkFlight i _ gen _ Tracking) =>
      let s := on_phase f Finished s in
      match members s !! i with
      | Some m =>
          if negb (gen =? generation s)%nat || negb (bool_decide (transition m = Some f)) then s
          else releaseEmpty i (on_member i (with_transition None) s)
      | None => s
      end
  | _ => s
  end.

(** ** Leases *)

Definition new_member (ref : string) : Membership := mkMember ref 0 false None 0 0 0 false None 0 "".

(** A registry is made for the client, by its owner or by a bare acquisition. *)
Definition make_registry (owned : bool) (s : Registry) : Registry :=
  mkRegistry owned (ready s) false (generation s) [] (members s) (leases s) (flights s) (plainReads s).

(** A client with no registry. *)
Definition no_registry : Registry := mkRegistry false false true 0 [] [] [] [] [].

Definition wireThreadSubscriptions (s : Registry) : Registry := if retired s then make_registry true s else s.

Definition retireThreadSubscriptions (s : Registry) : Registry := if retired s then s else retire s.

(** The registry's part: the membership of a ref, made if there is none, and a lease of it. *)
Definition acquire (ref : string) (s : Registry) : Registry * nat :=
  let '(s, i) := match map_get ref (table s) with
                 | Some i => (s, i)
                 | None => (put_table (map_put ref (length (members s)) (table s))
                              (put_members (members s ++ [new_member ref])%list s), length (members s))
                 end in
  let s := on_member i (fun m => with_holders (S (holders m)) m) s in
  (put_leases (leases s ++ [mkLease i false])%list s, length (leases s)).

(** [None] is its TypeError. *)
Definition acquireThreadSubscription (ref : string) (s : Registry) : option (Registry * nat) :=
  if blank ref then None else Some (acquire ref (if retired s then make_registry false s else s)).

(** What a call of a lease comes to at once. *)
Inductive Outcome := Throws | Joins (f : nat) | Acquires (f : nat) | Reads (r : nat) | Resolves.

(** The transition a call joins: one whose last holder left is passed by. *)
Definition joined (m : Membership) : option nat :=
  match transition m with
  | Some f => if (transitionEpoch m =? retiredEpoch m)%nat then None else Some f
  | None => None
  end.

Definition active (l : Lease) (s : Registry) : bool := negb (released l) && ready s.

Definition read (l : nat) (s : Registry) : Registry * Outcome :=
  match leases s !! l with
  | None => (s, Throws)
  | Some lease =>
      if negb (active lease s) then (s, Throws)
      else
        match members s !! lease_member lease with
        | None => (s, Throws)
        | Some m =>
            match joined m with
            | Some f => (s, Joins f)
            | None =>
                if negb (subscribed m) then let '(s, f) := acquireWire (lease_member lease) s in (s, Acquires f)
                else (put_reads (plainReads s ++ [mkPlainRead l (generation s) (statusRevision m)])%list s,
                      Reads (length (plainReads s)))
            end
        end
  end.

(** The rest of a read that was not the subscribing one. *)
Definition read_answered (r : nat) (thread : Thread) (s : Registry) : Registry :=
  match plainReads s !! r with
  | None => s
  | Some p =>
      match leases s !! pr_lease p with
      | Some lease => if released lease then s else admitMetadata (lease_member lease) thread (pr_generation p) (pr_statusRevision p) s
      | None => s
      end
  end.

(** [ensure] of a membership, from its start. *)
Definition ensure_member (i : nat) (s : Registry) : Registry * Outcome :=
  match members s !! i with
  | None => (s, Resolves)
  | Some m =>
      match joined m with
      | Some f => (s, Joins f)
      | None =>
          if subscribed m || (holders m =? 0)%nat then (s, Resolves)
          else let '(s, f) := acquireWire i s in (s, Acquires f)
      end
  end.

(** After a joined transition settled. *)
Definition ensure_again (i : nat) (s : Registry) : Registry * Outcome :=
  match members s !! i with
  | Some m => if (0 <? holders m)%nat then ensure_member i s else (s, Resolves)
  | None => (s, Resolves)
  end.

Definition ensure (l : nat) (s : Registry) : Registry * Outcome :=
  match leases s !! l with
  | None => (s, Throws)
  | Some lease => if active lease s then ensure_member (lease_member lease) s else (s, Throws)
  end.

Definition lease_metadata (l : nat) (s : Registry) : option ThreadSubscriptionMetadata :=
  match leases s !! l with
  | Some lease => if active lease s then members s !! lease_member lease ≫= metadata else None
  | None => None
  end.

Definition depart (m : Membership) : Membership :=
  let m := with_holders (pred (holders m)) m in
  if (holders m =? 0)%nat
  then let m := with_metadata None m in
       match transition m with Some _ => with_epochs (transitionEpoch m) (transitionEpoch m) m | None => m end
  else m.

Definition release (l : nat) (s : Registry) : Registry :=
  match leases s !! l with
  | Some (mkLease i false) =>
      releaseEmpty i (on_member i depart (put_leases (<[l := mkLease i true]> (leases s)) s))
  | _ => s
  end.

(** ** The connection *)

Definition disconnected (m : Membership) : Membership :=
  with_revision 0 "" (with_metadata None (with_transition None (with_subscribed false false m))).

(** The client's state changed; a retired registry no longer listens. *)
Definition onStateChange (isReady : bool) (s : Registry) : Registry :=
  if isReady || retired s then put_state isReady (generation s) s
  else foldl (fun s kv => releaseEmpty kv.2 (on_member kv.2 disconnected s)) (put_state false (S (generation s)) s) (table s).

Definition admitMemberStatus (i : nat) (threadId : string) (status : ThreadStatus) (s : Registry) : Registry :=
  on_member i (fun m =>
    match metadata m with
    | None => m
    | Some d => with_metadata (Some (mkMetadata (meta_threadId d) (meta_sessionId d) (copyStatus status)))
                  (with_revision (S (statusRevision m)) threadId m)
    end) s.

(** thread/status/changed: the membership of its ref, and every other one of its thread. *)
Definition admitStatus (ref threadId : string) (status : ThreadStatus) (s : Registry) : Registry :=
  if retired s then s
  else
    let direct := map_get ref (table s) in
    let s := match direct with Some i => admitMemberStatus i threadId status s | None => s end in
    foldl (fun s kv =>
      if bool_decide (Some kv.2 = direct) then s
      else match members s !! kv.2 ≫= metadata with
           | Some d => if meta_threadId d =? threadId then admitMemberStatus kv.2 threadId status s else s
           | None => s
           end) s (table s).
