(* ===== verification/SubscriptionWorld.v ===== *)
(** The hub's side of thread subscriptions, and the invariant that ties what the hub
    serves to what the registry's memberships know.

    The hub takes the requests of a connection in the order they were sent and performs
    or refuses each; a closed connection ends every subscription. What the client hears
    may come in any order, late, or as a timeout. *)

From S2P Require Import Prelude JsString Json JsMap TranscriptItems ThreadModel ThreadSubscription.

Local Open Scope string_scope.

(** ** The world *)

(** The client's registry, the requests of this connection the hub has not taken yet,
    the refs it serves, the acquisitions it performed and has not been heard on, and the
    refs the client was misled about: a subscribe it gave up waiting for, or an
    unsubscribe that failed. *)
Record World := mkWorld {
  reg : Registry; queue : list nat; subs : gset string; performed : list nat; misled : gset string }.

Definition initial_world : World := mkWorld no_registry [] ∅ [] ∅.

(** A step of the client, whose new requests go out while the connection is ready. *)
Definition client (s : Registry) (w : World) : World :=
  mkWorld s
    (if ready (reg w) then (queue w ++ seq (length (flights (reg w))) (length (flights s) - length (flights (reg w))))%list else queue w)
    (subs w) (performed w) (misled w).

Definition is_acquisition (x : Flight) : bool := match fl_kind x with Acquisition _ _ => true | Unsubscription => false end.

(** The hub takes the next request. *)
Definition serve (ok : bool) (f : nat) (q : list nat) (x : Flight) (w : World) : World :=
  if is_acquisition x
  then if ok
       then mkWorld (reg w) q ({[fl_ref x]} ∪ subs w)
              (match fl_phase x with OnWire => (performed w ++ [f])%list | _ => performed w end) (misled w)
       else mkWorld (reg w) q (subs w) (performed w) (misled w)
  else if ok
       then mkWorld (reg w) q (subs w ∖ {[fl_ref x]}) (performed w) (misled w)
       else mkWorld (reg w) q (subs w) (performed w) ({[fl_ref x]} ∪ misled w).

(** The client gives up on an acquisition, or hears that it was refused. *)
Definition reject (f : nat) (x : Flight) (w : World) : World :=
  mkWorld (answer f None (reg w)) (queue w) (subs w) (performed w)
    (if bool_decide (f ∈ queue w \/ f ∈ performed w) then {[fl_ref x]} ∪ misled w else misled w).

Definition disconnect (w : World) : World := mkWorld (onStateChange false (reg w)) [] ∅ [] ∅.

(** Everything the client's code does between two answers. *)
Inductive client_step (s : Registry) : Registry -> Prop :=
  | do_wire : client_step s (wireThreadSubscriptions s)
  | do_acquire ref s' l : acquireThreadSubscription ref s = Some (s', l) -> client_step s s'
  | do_read l : client_step s (read l s).1
  | do_ensure l : client_step s (ensure l s).1
  | do_ensure_again i : client_step s (ensure_again i s).1
  | do_release l : client_step s (release l s)
  | do_land f : client_step s (land f s)
  | do_settle f : client_step s (settle f s)
  | do_tracked f : client_step s (tracked f s)
  | do_read_answered r thread : client_step s (read_answered r thread s)
  | do_status ref threadId status : client_step s (admitStatus ref threadId status s).

Inductive world_step (w : World) : World -> Prop :=
  | step_client s' : client_step (reg w) s' -> world_step w (client s' w)
  | step_serve ok f q x : queue w = f :: q -> flights (reg w) !! f = Some x -> world_step w (serve ok f q x w)
  | step_performed f thread : f ∈ performed w -> world_step w (client (answer f (Some thread) (reg w)) w)
  | step_unsubscribed f x : flights (reg w) !! f = Some x -> is_acquisition x = false ->
      world_step w (client (answer f None (reg w)) w)
  | step_reject f x : flights (reg w) !! f = Some x -> is_acquisition x = true -> fl_phase x = OnWire -> world_step w (reject f x w)
  | step_ready : world_step w (client (onStateChange true (reg w)) w)
  | step_drop : world_step w (disconnect w).

Inductive runs : World -> World -> Prop :=
  | runs_nil w : runs w w
  | runs_cons w w1 w2 : world_step w w1 -> runs w1 w2 -> runs w w2.

(** ** The invariant *)

(** An acquisition whose own callback has not run. *)
Definition counts (x : Flight) : bool :=
  is_acquisition x && match fl_phase x with OnWire | Landing _ | Settling => true | _ => false end.

(** The acquisitions a membership still has outstanding. *)
Definition count_of (i : nat) (l : list Flight) : nat := length (filter (fun x => fl_member x = i /\ counts x = true) l).

Definition clean (m : Membership) : Prop := subscribed m = false /\ orphanedSubscribe m = false.

(** The registry by itself. [late]: a membership [releaseEmpty] has not looked at yet. *)
Record Shape (late : option nat) (s : Registry) : Prop := {
  inv_flights : forall f x, flights s !! f = Some x ->
    (exists m, members s !! fl_member x = Some m /\ mb_ref m = fl_ref x) /\ (fl_generation x <= generation s)%nat;
  inv_count : forall i m, members s !! i = Some m -> outstandingAcquisitions m = count_of i (flights s);
  inv_keys : map_wf (table s);
  inv_table : forall k i, map_get k (table s) = Some i -> exists m, members s !! i = Some m /\ mb_ref m = k;
  inv_busy : forall i m, members s !! i = Some m -> busy m = true \/ late = Some i -> map_get (mb_ref m) (table s) = Some i;
  inv_idle : forall i m, members s !! i = Some m -> late <> Some i -> busy m = false ->
    clean m /\ map_get (mb_ref m) (table s) <> Some i;
  inv_clean : ready s = false -> forall i m, members s !! i = Some m -> clean m;
  inv_transition : forall i m f, members s !! i = Some m -> transition m = Some f ->
    exists x, flights s !! f = Some x /\ fl_member x = i /\ fl_generation x = generation s /\ fl_phase x <> Finished;
  inv_retired : retired s = true -> table s = []
}.

Definition holds_wire (s : Registry) (ref : string) : Prop :=
  exists i m, members s !! i = Some m /\ mb_ref m = ref /\ subscribed m || orphanedSubscribe m = true.

(** A success of this connection the membership has not been told. *)
Definition success_of (s : Registry) (answered : list nat) (ref : string) (f : nat) : Prop :=
  exists x, flights s !! f = Some x /\ is_acquisition x = true /\ fl_ref x = ref /\ fl_generation x = generation s /\
    ((fl_phase x = OnWire /\ f ∈ answered) \/ exists thread, fl_phase x = Landing thread).

Definition claim (w : World) (ref : string) : Prop := holds_wire (reg w) ref \/ exists f, success_of (reg w) (performed w) ref f.

Definition unsubscribing (s : Registry) (q : list nat) (ref : string) : Prop :=
  exists u x, u ∈ q /\ flights s !! u = Some x /\ is_acquisition x = false /\ fl_ref x = ref.

(** No acquisition still waited for stands in the queue before an unsubscribe of its ref. *)
Definition queue_ordered (s : Registry) (q : list nat) : Prop :=
  forall q1 f q2 x, q = (q1 ++ f :: q2)%list -> flights s !! f = Some x -> is_acquisition x = true ->
    fl_phase x = OnWire -> ~ unsubscribing s q2 (fl_ref x).

(** The registry and the hub. *)
Record Served (w : World) : Prop := {
  inv_down : ready (reg w) = false -> queue w = [] /\ performed w = [] /\ subs w = ∅;
  inv_queue : forall f, f ∈ queue w -> exists x, flights (reg w) !! f = Some x /\ fl_generation x = generation (reg w);
  inv_performed : forall f, f ∈ performed w -> (f < length (flights (reg w)))%nat;
  inv_order : queue_ordered (reg w) (queue w);
  inv_accounted : forall ref, ref ∈ subs w -> ref ∈ misled w \/ unsubscribing (reg w) (queue w) ref \/ claim w ref;
  inv_claim : forall ref, claim w ref -> ref ∈ subs w /\ ~ unsubscribing (reg w) (queue w) ref
}.

Definition Inv (late : option nat) (w : World) : Prop := Shape late (reg w) /\ Served w.

(** ** Lookups *)

Lemma on_member_lookup i f s j :
  members (on_member i f s) !! j = if decide (i = j) then f <$> members s !! j else members s !! j.
Proof.
  unfold on_member, put_members. simpl. destruct (decide (i = j)) as [->|]; [by rewrite list_lookup_alter_eq|by rewrite list_lookup_alter_ne].
Qed.

Lemma on_member_spec i f s j m' : members (on_member i f s) !! j = Some m' ->
  (i = j /\ exists m, members s !! i = Some m /\ m' = f m) \/ (i <> j /\ members s !! j = Some m').
Proof.
  rewrite on_member_lookup. destruct (decide (i = j)) as [->|]; [|by right]. intros (m & Hm & ->)%fmap_Some. left. eauto.
Qed.

Definition at_phase (p : Phase) (x : Flight) : Flight := mkFlight (fl_member x) (fl_ref x) (fl_generation x) (fl_kind x) p.

Lemma on_phase_spec f p s g x' : flights (on_phase f p s) !! g = Some x' ->
  (f = g /\ exists x, flights s !! f = Some x /\ x' = at_phase p x) \/ (f <> g /\ flights s !! g = Some x').
Proof.
  unfold on_phase, put_flights. simpl. destruct (decide (f = g)) as [->|].
  - rewrite list_lookup_alter_eq. intros (x & Hx & ->)%fmap_Some. left. eauto.
  - rewrite list_lookup_alter_ne by done. by right.
Qed.

Lemma on_phase_same f p s x : flights s !! f = Some x -> flights (on_phase f p s) !! f = Some (at_phase p x).
Proof. intros Hx. unfold on_phase, put_flights. simpl. by rewrite list_lookup_alter_eq, Hx. Qed.

Lemma on_phase_other f p s g x : flights s !! g = Some x -> f <> g -> flights (on_phase f p s) !! g = Some x.
Proof. intros Hx Hn. unfold on_phase, put_flights. simpl. by rewrite list_lookup_alter_ne. Qed.

Lemma length_on_phase f p s : length (flights (on_phase f p s)) = length (flights s).
Proof. unfold on_phase, put_flights. simpl. by rewrite length_alter. Qed.

Lemma count_phase f p s x i : flights s !! f = Some x ->
  (count_of i (flights (on_phase f p s)) + (if decide (fl_member x = i /\ counts x = true) then 1 else 0) =
   count_of i (flights s) + (if decide (fl_member x = i /\ counts (at_phase p x) = true) then 1 else 0))%nat.
Proof.
  unfold on_phase, put_flights, count_of. simpl. change (fun x => mkFlight _ _ _ _ p) with (at_phase p).
  generalize (flights s) as l. intros l. revert f. induction l as [|y l IH]; intros [|f] Hf; simpl in *; try done.
  - injection Hf as ->. rewrite !filter_cons. repeat case_decide; csimpl; try lia; simpl in *; tauto.
  - specialize (IH f Hf). rewrite !filter_cons. repeat case_decide; csimpl; try lia; simpl in *; tauto.
Qed.

Lemma count_send i x l : count_of i (l ++ [x])%list =
  (count_of i l + if decide (fl_member x = i /\ counts x = true) then 1 else 0)%nat.
Proof.
  unfold count_of. rewrite filter_app, filter_cons, filter_nil. rewrite length_app. by destruct (decide _).
Qed.

(** ** The registry, one membership at a time *)

(** Flights as before but for phases, and new ones of a membership. *)
Definition same_flight (x y : Flight) : Prop :=
  fl_member x = fl_member y /\ fl_ref x = fl_ref y /\ fl_generation x = fl_generation y /\ fl_kind x = fl_kind y.

Record flights_follow (i : nat) (m : Membership) (s s' : Registry) : Prop := {
  follow_old : forall f x', flights s' !! f = Some x' ->
    (exists x, flights s !! f = Some x /\ same_flight x' x) \/
    (fl_member x' = i /\ fl_ref x' = mb_ref m /\ fl_generation x' = generation s);
  follow_count : forall j, j <> i -> count_of j (flights s') = count_of j (flights s);
  follow_live : forall f x, flights s !! f = Some x -> fl_member x <> i -> fl_phase x <> Finished ->
    exists x', flights s' !! f = Some x' /\ fl_member x' = fl_member x /\ fl_generation x' = fl_generation x /\ fl_phase x' <> Finished }.

(** A step on one membership of the table. *)
Record member_step (i : nat) (m m' : Membership) (s s' : Registry) : Prop := {
  step_members : members s' = <[i := m']> (members s);
  step_table : table s' = table s;
  step_state : ready s' = ready s /\ generation s' = generation s /\ retired s' = retired s;
  step_flights : flights_follow i m s s';
  step_ref : mb_ref m' = mb_ref m;
  step_count : outstandingAcquisitions m' = count_of i (flights s');
  step_clean : ready s = false -> clean m';
  step_transition : forall f, transition m' = Some f ->
    exists x, flights s' !! f = Some x /\ fl_member x = i /\ fl_generation x = generation s /\ fl_phase x <> Finished }.

Lemma flights_follow_refl i m s s' : flights s' = flights s -> flights_follow i m s s'.
Proof.
  intros E. split; rewrite E; [|done|].
  - intros f x Hx. left. by exists x.
  - intros f x Hx _ Hp. by exists x.
Qed.

Lemma Shape_step late s s' i m m' :
  Shape late s -> late = None \/ late = Some i -> members s !! i = Some m -> map_get (mb_ref m) (table s) = Some i ->
  member_step i m m' s s' -> Shape (Some i) s'.
Proof.
  intros HS Hl Hm Ht [E1 E2 (E3 & E4 & E5) [F1 F2 F3] E6 E7 E8 E9].
  assert (Hlt : (i < length (members s))%nat) by by eapply lookup_lt_Some.
  assert (Hlook : forall j mj, members s' !! j = Some mj -> (j = i /\ mj = m') \/ (j <> i /\ members s !! j = Some mj)).
  { intros j mj. rewrite E1. destruct (decide (j = i)) as [->|]; [rewrite list_lookup_insert_eq by done; left; naive_solver|].
    rewrite list_lookup_insert_ne by done. by right. }
  assert (Hi : members s' !! i = Some m') by (rewrite E1; by rewrite list_lookup_insert_eq).
  assert (Hmem : forall j mj, members s !! j = Some mj -> exists mj', members s' !! j = Some mj' /\ mb_ref mj' = mb_ref mj).
  { intros j mj Hj. destruct (decide (j = i)) as [->|]; [exists m'; by simplify_eq|]. exists mj. by rewrite E1, list_lookup_insert_ne. }
  split.
  - intros f x' Hx'. rewrite E4. destruct (F1 f x' Hx') as [(x & Hx & Eq1 & Eq2 & Eq3 & _)|(Eq1 & Eq2 & Eq3)].
    + destruct (inv_flights late s HS f x Hx) as [(mj & Hmj & Er) Hg]. destruct (Hmem _ _ Hmj) as (mj' & Hmj' & Er').
      rewrite Eq1, Eq2, Eq3. split; [|done]. exists mj'. split; [done|congruence].
    + rewrite Eq1, Eq2, Eq3. split; [|lia]. by exists m'.
  - intros j mj [[-> ->]|[Hn Hj]]%Hlook; [done|]. rewrite F2 by done. by apply (inv_count late s HS).
  - rewrite E2. apply HS.
  - intros k j. rewrite E2. intros (mj & Hj & Er)%(inv_table late s HS). destruct (Hmem _ _ Hj) as (mj' & Hmj' & Er').
    exists mj'. split; [done|congruence].
  - intros j mj [[-> ->]|[Hn Hj]]%Hlook Hb; rewrite E2; [by rewrite E6|]. apply (inv_busy late s HS); [done|].
    destruct Hb as [Hb|Hb]; [by left|]. congruence.
  - intros j mj [[-> ->]|[Hn Hj]]%Hlook Hne Hb; [done|]. rewrite E2. apply (inv_idle late s HS); [done| |done].
    destruct Hl as [-> | ->]; congruence.
  - rewrite E3. intros Hd j mj [[-> ->]|[Hn Hj]]%Hlook; [by apply E8|]. by eapply (inv_clean late s HS).
  - intros j mj f [[-> ->]|[Hn Hj]]%Hlook Hf; rewrite E4; [by apply E9|].
    destruct (inv_transition late s HS j mj f Hj Hf) as (x & Hx & Ej & Eg & Hp).
    destruct (F3 f x Hx) as (x' & Hx' & Ej' & Eg' & Hp'); [congruence|done|]. exists x'. repeat split; congruence.
  - rewrite E2, E5. apply HS.
Qed.

(** A busy membership needs no release. *)
Lemma Shape_busy i s m : Shape (Some i) s -> members s !! i = Some m -> busy m = true -> Shape None s.
Proof.
  intros HS Hm Hb. split; try apply HS.
  - intros j mj Hj [Hbj|?]; [|done]. apply (inv_busy _ _ HS); [done|by left].
  - intros j mj Hj _ Hbj. apply (inv_idle _ _ HS); [done| |done]. intros [= ->]. congruence.
Qed.

Lemma Shape_late i s m : Shape None s -> members s !! i = Some m -> busy m = true -> Shape (Some i) s.
Proof.
  intros HS Hm Hb. split; try apply HS.
  - intros j mj Hj [Hbj|[= <-]]; [apply (inv_busy _ _ HS); [done|by left]|]. simplify_eq. apply (inv_busy _ _ HS); [done|by left].
  - intros j mj Hj _ Hbj. by apply (inv_idle _ _ HS).
Qed.

(** *** Forgetting a membership *)

Lemma Shape_forget i s m : Shape (Some i) s -> members s !! i = Some m -> busy m = false -> clean m -> Shape None (forget i m s).
Proof.
  intros HS Hm Hb Hc. unfold forget. rewrite (inv_busy _ _ HS i m Hm) by by right. rewrite bool_decide_eq_true_2 by done.
  assert (H1 : Shape None (put_table (map_del (mb_ref m) (table s)) s)).
  { split; try apply HS; simpl.
    - apply map_del_wf, HS.
    - intros k j Hk. destruct (decide (k = mb_ref m)) as [->|]; [by rewrite map_get_del in Hk|]. rewrite map_get_del_ne in Hk by done.
      by apply (inv_table _ _ HS).
    - intros j mj Hj [Hbj|?]; [|done]. pose proof (inv_busy _ _ HS j mj Hj (or_introl Hbj)) as Hg.
      destruct (decide (mb_ref mj = mb_ref m)) as [E|]; [|by rewrite map_get_del_ne].
      rewrite E, (inv_busy _ _ HS i m Hm) in Hg by by right. simplify_eq. congruence.
    - intros j mj Hj _ Hbj. destruct (decide (j = i)) as [->|Hn]; [simplify_eq; by rewrite map_get_del|].
      destruct (inv_idle _ _ HS j mj Hj) as [Hcj Hg]; [congruence|done|]. split; [done|].
      destruct (decide (mb_ref mj = mb_ref m)) as [->|]; [by rewrite map_get_del|by rewrite map_get_del_ne].
    - intros Hr. by rewrite (inv_retired _ _ HS Hr). }
  destruct (_ && _) eqn:E; [|done]. apply andb_prop in E as [_ E%Nat.eqb_eq]. simpl in E.
  destruct (map_del (mb_ref m) (table s)) as [|] eqn:Ed; [|done].
  destruct H1. by split.
Qed.

(** *** Sending a request *)

Lemma alter_insert {A} (f : A -> A) i (l : list A) x : l !! i = Some x -> alter f i l = <[i := f x]> l.
Proof.
  revert i. induction l as [|y l IH]; intros [|i]; simpl; try done; [by intros [= ->]|]. intros Hi. f_equal. by apply IH.
Qed.

Lemma on_member_insert i f s m : members s !! i = Some m -> members (on_member i f s) = <[i := f m]> (members s).
Proof. apply alter_insert. Qed.

Lemma send_follow i m s s' x : flights s' = (flights s ++ [x])%list ->
  fl_member x = i -> fl_ref x = mb_ref m -> fl_generation x = generation s -> flights_follow i m s s'.
Proof.
  intros E E1 E2 E3. split; rewrite E.
  - intros f x' [Hx|[Hf Hx]]%lookup_app_Some.
    + left. by exists x'.
    + apply list_lookup_singleton_Some in Hx as [_ <-]. by right.
  - intros j Hj. rewrite count_send, decide_False; [lia|]. intros [? _]. congruence.
  - intros f y Hy _ Hp. exists y. split; [|done]. by apply lookup_app_l_Some.
Qed.

Lemma lookup_sent s x : flights (put_flights (flights s ++ [x])%list s) !! length (flights s) = Some x.
Proof. simpl. by apply list_lookup_middle. Qed.

Lemma unsubscribe_wire_step i m s : Shape (Some i) s -> members s !! i = Some m -> busy m = false ->
  let s' := unsubscribe_wire i m s in
  flights s' = (flights s ++ [mkFlight i (mb_ref m) (generation s) Unsubscription OnWire])%list /\
  member_step i m (with_transition (Some (length (flights s))) (with_subscribed false false m)) s s'.
Proof.
  intros HS Hm Hb. unfold unsubscribe_wire. simpl. split; [done|].
  assert (Hmm : members (on_member i (with_subscribed false false) s) !! i = Some (with_subscribed false false m))
    by (by rewrite on_member_lookup, decide_True, Hm).
  assert (Ho : outstandingAcquisitions m = 0%nat).
  { unfold busy in Hb. apply orb_false_elim in Hb as [_ Hb%Nat.ltb_ge]. lia. }
  split; try done.
  - unfold track. rewrite (on_member_insert _ _ _ (with_subscribed false false m)) by exact Hmm. simpl.
    rewrite (alter_insert _ i (members s) m) by done. apply list_insert_insert_eq.
  - by eapply send_follow.
  - simpl. rewrite Ho, count_send, decide_False by (by intros [_ ?]). rewrite <- (inv_count _ _ HS i m Hm). lia.
  - intros f [= <-]. eexists. split; [apply (lookup_sent s)|done].
Qed.

(** ** The hub, request by request *)

(** The same requests, some of them further along. *)
Record rephased (s s' : Registry) : Prop := {
  re_length : length (flights s') = length (flights s);
  re_flights : forall g x', flights s' !! g = Some x' ->
    exists x, flights s !! g = Some x /\ same_flight x' x /\ (fl_phase x' = OnWire -> fl_phase x = OnWire);
  re_state : ready s' = ready s /\ generation s' = generation s }.

Lemma rephased_back s s' g x : rephased s s' -> flights s !! g = Some x ->
  exists x', flights s' !! g = Some x' /\ same_flight x' x.
Proof.
  intros [El Ef _] Hx. destruct (lookup_lt_is_Some_2 (flights s') g) as [x' Hx']; [rewrite El; by eapply lookup_lt_Some|].
  exists x'. split; [done|]. destruct (Ef g x' Hx') as (y & Hy & Hs & _). by simplify_eq.
Qed.

Lemma same_acquisition x y : same_flight x y -> is_acquisition x = is_acquisition y.
Proof. intros (_ & _ & _ & E). unfold is_acquisition. by rewrite E. Qed.

Lemma rephased_unsubscribing s s' q ref : rephased s s' -> unsubscribing s' q ref <-> unsubscribing s q ref.
Proof.
  intros Hr. split; intros (u & x & Hu & Hx & Ha & Eref); exists u.
  - destruct (re_flights _ _ Hr u x Hx) as (y & Hy & Hs & _). exists y. pose proof (same_acquisition _ _ Hs).
    destruct Hs as (_ & E & _). repeat split; try done; congruence.
  - destruct (rephased_back _ _ u x Hr Hx) as (y & Hy & Hs). exists y. pose proof (same_acquisition _ _ Hs).
    destruct Hs as (_ & E & _). repeat split; try done; congruence.
Qed.

(** The hub and its queue stand still while the client's callbacks run. *)
Lemma Served_rephased w s' lost : Served w -> rephased (reg w) s' ->
  let w' := mkWorld s' (queue w) (subs w) (performed w) lost in
  misled w ⊆ lost ->
  (forall ref, claim w' ref -> claim w ref) ->
  (forall ref, claim w ref -> claim w' ref \/ ref ∈ lost) -> Served w'.
Proof.
  intros HS Hr w' Hl Hc1 Hc2. pose proof (re_state _ _ Hr) as [E1 E2]. split; simpl.
  - rewrite E1. apply HS.
  - intros f Hf. destruct (inv_queue w HS f Hf) as (x & Hx & Eg). destruct (rephased_back _ _ f x Hr Hx) as (x' & Hx' & Hs).
    exists x'. split; [done|]. destruct Hs as (_ & _ & E & _). congruence.
  - intros f Hf. rewrite (re_length _ _ Hr). by apply HS.
  - intros q1 f q2 x' Eq Hx' Ha Hp Hu. destruct (re_flights _ _ Hr f x' Hx') as (x & Hx & Hs & Hon).
    rewrite (rephased_unsubscribing _ _ _ _ Hr) in Hu. pose proof (same_acquisition _ _ Hs). destruct Hs as (_ & E & _).
    rewrite E in Hu. apply (inv_order w HS q1 f q2 x); auto. congruence.
  - intros ref Href. rewrite (rephased_unsubscribing _ _ _ _ Hr). destruct (inv_accounted w HS ref Href) as [H|[H|H]].
    + left. by apply Hl.
    + by right; left.
    + destruct (Hc2 ref H); [by right; right|by left].
  - intros ref Hc. rewrite (rephased_unsubscribing _ _ _ _ Hr). by apply HS, Hc1.
Qed.

Lemma client_same s' w : length (flights s') = length (flights (reg w)) ->
  client s' w = mkWorld s' (queue w) (subs w) (performed w) (misled w).
Proof. intros E. unfold client. rewrite E, Nat.sub_diag. simpl. rewrite app_nil_r. by destruct (ready (reg w)). Qed.

Lemma Served_claims w s' : Served w -> rephased (reg w) s' ->
  (forall ref, claim (client s' w) ref <-> claim w ref) -> Served (client s' w).
Proof.
  intros HS Hr Hc. rewrite client_same in Hc |- * by apply Hr.
  apply Served_rephased; try done; intros ref; rewrite Hc; auto.
Qed.

(** A new request joins the end of the queue, if the connection is ready. *)
Lemma client_sent s' w x : flights s' = (flights (reg w) ++ [x])%list ->
  client s' w = mkWorld s' (if ready (reg w) then queue w ++ [length (flights (reg w))] else queue w)%list
    (subs w) (performed w) (misled w).
Proof.
  intros E. unfold client. rewrite E, length_app. simpl. by replace (_ + 1 - _)%nat with 1%nat by lia.
Qed.

Lemma sent_old s s' x f y : flights s' = (flights s ++ [x])%list -> flights s !! f = Some y -> flights s' !! f = Some y.
Proof. intros -> Hy. by apply lookup_app_l_Some. Qed.

Lemma sent_cases s s' x f y : flights s' = (flights s ++ [x])%list -> flights s' !! f = Some y ->
  flights s !! f = Some y \/ (f = length (flights s) /\ y = x).
Proof.
  intros ->. intros [?|[Hf Hy]]%lookup_app_Some; [by left|]. apply list_lookup_singleton_Some in Hy as [Hz <-]. right. split; [lia|done].
Qed.

Lemma sent_unsubscribing s s' x q ref : flights s' = (flights s ++ [x])%list ->
  (forall f, f ∈ q -> exists y, flights s !! f = Some y) -> unsubscribing s' q ref <-> unsubscribing s q ref.
Proof.
  intros E Hq. split; intros (u & y & Hu & Hy & Ha & Er); exists u, y; repeat split; try done.
  - destruct (Hq u Hu) as (z & Hz). pose proof (sent_old _ _ _ _ _ E Hz). congruence.
  - by eapply sent_old.
Qed.

(** The last request has nothing behind it; what it may stand behind decides. *)
Lemma Served_sent w s' x : Served w -> flights s' = (flights (reg w) ++ [x])%list ->
  ready s' = ready (reg w) -> generation s' = generation (reg w) -> fl_generation x = generation (reg w) -> fl_phase x = OnWire ->
  (forall ref, claim (client s' w) ref -> claim w ref) ->
  (forall ref, claim w ref -> claim (client s' w) ref \/
    ready (reg w) = true /\ is_acquisition x = false /\ fl_ref x = ref) ->
  (is_acquisition x = false -> ~ claim (client s' w) (fl_ref x) /\
    forall f y, flights (reg w) !! f = Some y -> is_acquisition y = true -> fl_ref y = fl_ref x -> fl_phase y <> OnWire) ->
  Served (client s' w).
Proof.
  intros HS E E1 E2 Eg Ep Hc1 Hc2 Hun. rewrite (client_sent s' w x E) in Hc1, Hc2, Hun |- *.
  set (n := length (flights (reg w))) in *. set (q' := if ready (reg w) then _ else _) in *.
  assert (Hn : flights s' !! n = Some x) by (rewrite E; by apply list_lookup_middle).
  assert (Hq : forall f, f ∈ queue w -> exists y, flights (reg w) !! f = Some y).
  { intros f Hf. destruct (inv_queue w HS f Hf) as (y & Hy & _). eauto. }
  assert (Hqn : forall f, f ∈ queue w -> f <> n) by (intros f Hf ->; destruct (Hq n Hf) as (y & Hy%lookup_lt_Some); unfold n in *; lia).
  assert (Hu : forall ref, unsubscribing s' q' ref <-> unsubscribing (reg w) (queue w) ref \/
    (ready (reg w) = true /\ is_acquisition x = false /\ fl_ref x = ref)).
  { intros ref. rewrite <- (sent_unsubscribing (reg w) s' x (queue w) ref E Hq). unfold q', unsubscribing. destruct (ready (reg w)); [|naive_solver].
    split; [intros (u & y & [Hu| ->%list_elem_of_singleton]%elem_of_app & Hy & Ha & Er)|intros [(u & y & Hu & Hr)|(_ & Ha & Er)]].
    - left. exists u, y. done.
    - right. simplify_eq. done.
    - exists u, y. split; [|done]. rewrite elem_of_app. by left.
    - exists n, x. rewrite elem_of_app, list_elem_of_singleton. auto. }
  split; simpl.
  - rewrite E1. intros Hd. destruct (inv_down w HS Hd) as (H1 & H2 & H3). unfold q'. by rewrite Hd.
  - intros f Hf. assert (f ∈ queue w \/ f = n) as [Hf'| ->].
    { unfold q' in Hf. destruct (ready (reg w)); [|by left]. rewrite elem_of_app, list_elem_of_singleton in Hf. done. }
    + destruct (inv_queue w HS f Hf') as (y & Hy & Ey). exists y. split; [by eapply sent_old|congruence].
    + exists x. split; [done|congruence].
  - intros f Hf. rewrite E, length_app. pose proof (inv_performed w HS f Hf). lia.
  - intros q1 f q2 y Eq Hy Ha Hpy Huq. unfold q' in Eq. destruct (ready (reg w)) eqn:Er.
    + destruct q2 as [|z q2 _] using rev_ind; [by destruct Huq as (u & ? & Hu0 & _); apply not_elem_of_nil in Hu0|].
      rewrite app_comm_cons, app_assoc in Eq. apply app_inj_tail in Eq as [Eq <-].
      assert (Hfq : f ∈ queue w) by (rewrite Eq, elem_of_app; right; by left).
      assert (Hy' : flights (reg w) !! f = Some y) by (destruct (sent_cases _ _ _ _ _ E Hy) as [?|[-> _]]; [done|by apply Hqn in Hfq]).
      destruct Huq as (u & z & [Hu0| ->%list_elem_of_singleton]%elem_of_app & Hz & Haz & Erz).
      * apply (inv_order w HS q1 f q2 y Eq Hy' Ha Hpy). exists u, z. repeat split; try done.
        destruct (sent_cases _ _ _ _ _ E Hz) as [?|[-> _]]; [done|]. exfalso. apply (Hqn n); [|done]. rewrite Eq, elem_of_app. right. by right.
      * simplify_eq. apply (proj2 (Hun Haz) f y); done.
    + assert (Hfq : f ∈ queue w) by (rewrite Eq, elem_of_app; right; by left).
      destruct (inv_down w HS Er) as (H1 & _). rewrite H1 in Hfq. by apply not_elem_of_nil in Hfq.
  - intros ref Href. rewrite Hu. destruct (inv_accounted w HS ref Href) as [H|[H|H]]; [by left|by right; left; left|].
    destruct (Hc2 ref H) as [?|?]; [by right; right|by right; left; right].
  - intros ref Hc. split; [by apply HS, Hc1|]. rewrite Hu. intros [Hu0|(_ & Ha & <-)].
    + apply (proj2 (inv_claim w HS ref (Hc1 ref Hc))). done.
    + by apply (proj1 (Hun Ha)).
Qed.

(** ** Releasing *)

Lemma counted_busy late s f y : Shape late s -> flights s !! f = Some y -> counts y = true ->
  exists m, members s !! fl_member y = Some m /\ mb_ref m = fl_ref y /\ busy m = true /\ (0 < outstandingAcquisitions m)%nat.
Proof.
  intros HS Hy Hc. destruct (inv_flights _ _ HS f y Hy) as [(m & Hm & Er) _]. exists m.
  assert (Ho : (0 < outstandingAcquisitions m)%nat).
  { rewrite (inv_count _ _ HS _ _ Hm). unfold count_of. apply (Nat.lt_le_trans _ 1); [lia|].
    assert (y ∈ filter (fun x => fl_member x = fl_member y /\ counts x = true) (flights s))
      by (apply list_elem_of_filter; split; [done|by eapply list_elem_of_lookup_2]).
    destruct (filter _ _); [by apply not_elem_of_nil in H|]. simpl. lia. }
  repeat split; try done. unfold busy. rewrite (proj2 (Nat.ltb_lt _ _) Ho). by rewrite orb_true_r.
Qed.

Lemma tabled_unique late s i m j mj : Shape late s -> members s !! i = Some m -> members s !! j = Some mj ->
  busy m = true \/ late = Some i -> busy mj = true \/ late = Some j -> mb_ref mj = mb_ref m -> j = i.
Proof.
  intros HS Hi Hj Hbi Hbj E. pose proof (inv_busy _ _ HS i m Hi Hbi). pose proof (inv_busy _ _ HS j mj Hj Hbj). congruence.
Qed.

(** A membership with nothing outstanding has no acquisition of its ref in flight. *)
Lemma idle_no_flight i s m f y : Shape (Some i) s -> members s !! i = Some m -> busy m = false ->
  flights s !! f = Some y -> counts y = true -> fl_ref y <> mb_ref m.
Proof.
  intros HS Hm Hb Hy Hc E. destruct (counted_busy _ _ f y HS Hy Hc) as (mj & Hj & Er & Hbj & Ho).
  assert (fl_member y = i) as Ei by (eapply (tabled_unique _ s i m); eauto; congruence). rewrite Ei in Hj. simplify_eq. congruence.
Qed.

Lemma success_counts s answered ref f : success_of s answered ref f ->
  exists x, flights s !! f = Some x /\ counts x = true /\ is_acquisition x = true /\ fl_ref x = ref.
Proof.
  intros (x & Hx & Ha & Er & _ & Hp). exists x. repeat split; try done. unfold counts. rewrite Ha. destruct Hp as [[-> _]|[t ->]]; done.
Qed.

Lemma releaseEmpty_unsubscribes i w m : Inv (Some i) w -> members (reg w) !! i = Some m -> busy m = false ->
  ready (reg w) = true -> Inv None (client (unsubscribe_wire i m (reg w)) w).
Proof.
  intros [HS HV] Hm Hb Hr. set (s := reg w) in *. destruct (unsubscribe_wire_step i m s HS Hm Hb) as [Ef Hstep].
  set (s' := unsubscribe_wire i m s) in *. set (m' := with_transition _ _) in Hstep.
  assert (Hm' : members s' !! i = Some m') by (rewrite (step_members _ _ _ _ _ Hstep); apply list_lookup_insert_eq; by eapply lookup_lt_Some).
  assert (HS' : Shape None s').
  { apply (Shape_busy i s' m'); [|done|unfold busy; simpl; by rewrite orb_true_r].
    eapply (Shape_step (Some i) s s' i m m'); eauto. apply (inv_busy _ _ HS); [done|by right]. }
  assert (Hother : forall j mj, members s' !! j = Some mj -> subscribed mj || orphanedSubscribe mj = true -> j <> i /\ members s !! j = Some mj).
  { intros j mj. rewrite (step_members _ _ _ _ _ Hstep). destruct (decide (j = i)) as [->|Hn].
    - rewrite list_lookup_insert_eq by (by eapply lookup_lt_Some). by intros [= <-].
    - rewrite list_lookup_insert_ne by done. done. }
  assert (Hsucc : forall ref f, success_of s' (performed w) ref f -> success_of s (performed w) ref f).
  { intros ref f (x & Hx & Ha & Hrest). exists x. split; [|done]. destruct (sent_cases _ _ _ _ _ Ef Hx) as [?|[_ ->]]; [done|by simpl in Ha]. }
  split; [exact HS'|]. change (reg (client s' w)) with s'.
  assert (Hone : forall j mj, members s !! j = Some mj -> j <> i -> subscribed mj || orphanedSubscribe mj = true -> mb_ref mj <> mb_ref m).
  { intros j mj Hj Hn Hf E. destruct (busy mj) eqn:Ebj.
    - apply Hn. eapply (tabled_unique _ s i m); eauto.
    - destruct (inv_idle _ _ HS j mj Hj) as [[C1 C2] _]; [congruence|done|]. by rewrite C1, C2 in Hf. }
  eapply (Served_sent w s'); [done|exact Ef|done|done|done|done| | |].
  - intros ref [(j & mj & Hj & Er & Hf)|[f Hf]].
    + destruct (Hother j mj Hj Hf) as [_ Hj']. left. by exists j, mj.
    + right. exists f. by apply Hsucc.
  - intros ref [(j & mj & Hj & Er & Hf)|[f (x & Hx & Hrest)]].
    + destruct (decide (j = i)) as [->|Hn].
      * right. change (members s !! i = Some mj) in Hj. assert (mj = m) as -> by congruence. split; [exact Hr|]. split; [done|exact Er].
      * left. left. exists j, mj. split; [|done]. change (members s' !! j = Some mj).
        rewrite (step_members _ _ _ _ _ Hstep). by rewrite list_lookup_insert_ne.
    + left. right. exists f, x. split; [|done]. by eapply sent_old.
  - intros _. simpl. split.
    + intros [(j & mj & Hj & Er & Hf)|[f Hf]].
      * destruct (Hother j mj Hj Hf) as [Hn Hj']. by apply (Hone j mj).
      * destruct (success_counts _ _ _ _ (Hsucc _ _ Hf)) as (x & Hx & Hc & _ & Er). by apply (idle_no_flight i s m f x).
    + intros f y Hy Ha Er Hp. apply (idle_no_flight i s m f y HS Hm Hb Hy); [|done]. unfold counts. by rewrite Ha, Hp.
Qed.

(** A registry with the same memberships' wires and requests. *)
Lemma Inv_wires w s' : Shape None s' -> Served w -> flights s' = flights (reg w) -> ready s' = ready (reg w) ->
  generation s' = generation (reg w) -> (forall ref, holds_wire s' ref <-> holds_wire (reg w) ref) -> Inv None (client s' w).
Proof.
  intros HS HV E1 E2 E3 Hw. split; [done|]. apply Served_claims; [done| |].
  - split; rewrite ?E1; [done| |done]. intros g x Hx. by exists x.
  - intros ref. unfold claim, success_of. simpl. rewrite E1, E3. by rewrite Hw.
Qed.

Lemma forget_same i m s : flights (forget i m s) = flights s /\ ready (forget i m s) = ready s /\ generation (forget i m s) = generation s /\
  members (forget i m s) = members s.
Proof. unfold forget. by destruct (bool_decide _); destruct (_ && _). Qed.

Lemma releaseEmpty_inv i w : Inv (Some i) w -> Inv None (client (releaseEmpty i (reg w)) w).
Proof.
  intros [HS HV]. assert (Hsame : forall s', Shape None s' -> s' = reg w -> Inv None (client s' w)).
  { intros s' Hs ->. by apply Inv_wires. }
  unfold releaseEmpty. destruct (members (reg w) !! i) as [m|] eqn:Hm.
  - destruct (busy m) eqn:Hb; [apply Hsame; [by apply (Shape_busy i _ m)|done]|].
    destruct (ready (reg w)) eqn:Hr.
    + rewrite andb_true_r. destruct (subscribed m || orphanedSubscribe m) eqn:Hf.
      * by apply releaseEmpty_unsubscribes.
      * apply orb_false_elim in Hf as [H1 H2]. destruct (forget_same i m (reg w)) as (E1 & E2 & E3 & E4).
        apply Inv_wires; try done. { by apply Shape_forget. } intros ref. unfold holds_wire. by rewrite E4.
    + rewrite andb_false_r. destruct (forget_same i m (reg w)) as (E1 & E2 & E3 & E4).
      apply Inv_wires; try done. { apply Shape_forget; try done. by eapply (inv_clean _ _ HS). }
      intros ref. unfold holds_wire. by rewrite E4.
  - apply Hsame; [|done]. split; try apply HS.
    + intros j mj Hj [Hbj|?]; [|done]. apply (inv_busy _ _ HS); [done|by left].
    + intros j mj Hj _ Hbj. apply (inv_idle _ _ HS); [done| |done]. intros [= ->]. congruence.
Qed.

(** ** Steps that move no wire *)

Definition same_core (m m' : Membership) : Prop :=
  mb_ref m' = mb_ref m /\ holders m' = holders m /\ subscribed m' = subscribed m /\ transition m' = transition m /\
  outstandingAcquisitions m' = outstandingAcquisitions m /\ orphanedSubscribe m' = orphanedSubscribe m.

(** Only metadata, revisions, reads and epochs differ. *)
Record quiet_step (s s' : Registry) : Prop := {
  quiet_rest : table s' = table s /\ flights s' = flights s /\ ready s' = ready s /\ retired s' = retired s /\
    generation s' = generation s /\ length (members s') = length (members s);
  quiet_members : forall i m', members s' !! i = Some m' -> exists m, members s !! i = Some m /\ same_core m m' }.

Lemma quiet_back s s' i m : quiet_step s s' -> members s !! i = Some m -> exists m', members s' !! i = Some m' /\ same_core m m'.
Proof.
  intros [(_ & _ & _ & _ & _ & El) Hm] Hi. destruct (lookup_lt_is_Some_2 (members s') i) as [m' Hm'];
    [rewrite El; by eapply lookup_lt_Some|].
  exists m'. split; [done|]. destruct (Hm i m' Hm') as (m1 & Hm1 & Hs). by simplify_eq.
Qed.

#[export] Instance quiet_preorder : PreOrder quiet_step.
Proof.
  split.
  - intros s. split; [done|]. intros i m Hi. by exists m.
  - intros a b c Hab Hbc. split.
    + destruct (quiet_rest _ _ Hab) as (?&?&?&?&?&?), (quiet_rest _ _ Hbc) as (?&?&?&?&?&?). repeat split; congruence.
    + intros i m Hi. destruct (quiet_members _ _ Hbc i m Hi) as (m1 & H1 & S1). destruct (quiet_members _ _ Hab i m1 H1) as (m2 & H2 & S2).
      exists m2. split; [done|]. unfold same_core in *. naive_solver congruence.
Qed.

Lemma on_member_quiet i f s : (forall m, same_core m (f m)) -> quiet_step s (on_member i f s).
Proof.
  intros Hf. split; [unfold on_member, put_members; simpl; by rewrite length_alter|].
  intros j m' [[-> (m & Hm & ->)]|[_ Hm]]%on_member_spec; [by exists m|]. by exists m'.
Qed.

Lemma same_core_busy m m' : same_core m m' -> busy m' = busy m.
Proof. intros (_ & E1 & _ & E2 & E3 & _). unfold busy. by rewrite E1, E2, E3. Qed.

Lemma Shape_quiet late s s' : Shape late s -> quiet_step s s' -> Shape late s'.
Proof.
  intros HS Hq. destruct (quiet_rest _ _ Hq) as (E1 & E2 & E3 & E4 & E5 & _). pose proof (quiet_members _ _ Hq) as Hm. split.
  - rewrite E2, E5. intros f x Hx. destruct (inv_flights _ _ HS f x Hx) as [(m & Hi & Er) Hg]. split; [|done].
    destruct (quiet_back _ _ _ _ Hq Hi) as (m' & Hi' & Er' & _). exists m'. split; [done|congruence].
  - rewrite E2. intros i m' (m & Hi & _ & _ & _ & _ & Eo & _)%Hm. rewrite Eo. by apply (inv_count _ _ HS).
  - rewrite E1. apply HS.
  - rewrite E1. intros k i (m & Hi & Er)%(inv_table _ _ HS). destruct (quiet_back _ _ _ _ Hq Hi) as (m' & Hi' & Er' & _).
    exists m'. split; [done|congruence].
  - rewrite E1. intros i m' (m & Hi & Hs)%Hm. rewrite (same_core_busy m m' Hs). destruct Hs as (-> & _). by apply (inv_busy _ _ HS).
  - rewrite E1. intros i m' (m & Hi & Hs)%Hm. rewrite (same_core_busy m m' Hs). unfold clean.
    destruct Hs as (-> & _ & -> & _ & _ & ->). by apply (inv_idle _ _ HS).
  - rewrite E3. intros Hd i m' (m & Hi & Hs)%Hm. unfold clean. destruct Hs as (_ & _ & -> & _ & _ & ->). by eapply (inv_clean _ _ HS).
  - rewrite E2, E5. intros i m' f (m & Hi & _ & _ & _ & -> & _)%Hm. by apply (inv_transition _ _ HS).
  - rewrite E1, E4. apply HS.
Qed.

Lemma quiet_wire s s' ref : quiet_step s s' -> holds_wire s' ref <-> holds_wire s ref.
Proof.
  intros Hq. split; intros (i & m & Hi & Er & Hf); exists i.
  - destruct (quiet_members _ _ Hq i m Hi) as (m1 & Hm1 & E1 & _ & E2 & _ & _ & E3). exists m1. by rewrite <- E1, <- E2, <- E3.
  - destruct (quiet_back _ _ i m Hq Hi) as (m1 & Hm1 & E1 & _ & E2 & _ & _ & E3). exists m1. by rewrite E1, E2, E3.
Qed.

Lemma Inv_quiet w s' : Inv None w -> quiet_step (reg w) s' -> Inv None (client s' w).
Proof.
  intros [HS HV] Hq. destruct (quiet_rest _ _ Hq) as (_ & E2 & E3 & _ & E5 & _).
  apply Inv_wires; try done; [by eapply Shape_quiet|]. intros ref. by apply quiet_wire.
Qed.

Lemma admitMetadata_quiet i thread gen revision s : quiet_step s (admitMetadata i thread gen revision s).
Proof.
  unfold admitMetadata. destruct (members s !! i); [|done]. destruct (_ || _); [done|]. by apply on_member_quiet.
Qed.

Lemma admitMemberStatus_quiet i threadId status s : quiet_step s (admitMemberStatus i threadId status s).
Proof. apply on_member_quiet. intros m. by destruct (metadata m). Qed.

Lemma foldl_quiet {A} (f : Registry -> A -> Registry) l s : (forall s a, quiet_step s (f s a)) -> quiet_step s (foldl f s l).
Proof. intros Hf. revert s. induction l as [|a l IH]; intros s; [done|]. simpl. etransitivity; [apply Hf|apply IH]. Qed.

Lemma admitStatus_quiet ref threadId status s : quiet_step s (admitStatus ref threadId status s).
Proof.
  unfold admitStatus. destruct (retired s); [done|].
  transitivity (match map_get ref (table s) with Some i => admitMemberStatus i threadId status s | None => s end).
  - destruct (map_get ref (table s)); [apply admitMemberStatus_quiet|done].
  - apply foldl_quiet. intros s1 kv. case_bool_decide; [done|]. destruct (members s1 !! kv.2 ≫= metadata); [|done].
    destruct (_ =? _); [apply admitMemberStatus_quiet|done].
Qed.

Lemma read_answered_quiet r thread s : quiet_step s (read_answered r thread s).
Proof.
  unfold read_answered. destruct (plainReads s !! r); [|done]. destruct (leases s !! _) as [l|]; [|done].
  destruct (released l); [done|apply admitMetadata_quiet].
Qed.

(** ** Callbacks *)

Lemma phase_rephased f p s x : flights s !! f = Some x -> p <> OnWire -> rephased s (on_phase f p s).
Proof.
  intros Hx Hp. split; [apply length_on_phase| |done]. intros g x' [[<- (y & Hy & ->)]|[_ Hg]]%on_phase_spec.
  - exists y. split; [done|]. split; [done|]. intros E. by destruct (Hp E).
  - exists x'. done.
Qed.

Lemma Shape_phase late f p s x : Shape late s -> flights s !! f = Some x -> counts (at_phase p x) = counts x ->
  (p = Finished -> forall i m, members s !! i = Some m -> transition m <> Some f) -> Shape late (on_phase f p s).
Proof.
  intros HS Hx Hc Hp. split; try apply HS; simpl.
  - intros g x' [[<- (y & Hy & ->)]|[_ Hg]]%on_phase_spec; [by apply (inv_flights _ _ HS f y)|by apply (inv_flights _ _ HS g x')].
  - intros i m Hi. rewrite (inv_count _ _ HS i m Hi). pose proof (count_phase f p s x i Hx) as Hcp. rewrite Hc in Hcp.
    change (count_of i (flights s) = count_of i (flights (on_phase f p s))). lia.
  - intros i m g Hi Hg. destruct (inv_transition _ _ HS i m g Hi Hg) as (y & Hy & E1 & E2 & E3).
    destruct (decide (g = f)) as [->|Hn].
    + assert (y = x) as -> by congruence. exists (at_phase p x). split; [by apply on_phase_same|].
      split; [done|]. split; [done|]. simpl. intros E. by apply (Hp E i m).
    + exists y. split; [by apply on_phase_other|done].
Qed.

Lemma phase_follow f p s x m : flights s !! f = Some x -> flights_follow (fl_member x) m s (on_phase f p s).
Proof.
  intros Hx. split.
  - intros g x' [[<- (y & Hy & ->)]|[_ Hg]]%on_phase_spec; left; [by exists y|by exists x'].
  - intros j Hj. pose proof (count_phase f p s x j Hx) as Hc. repeat case_decide; try lia; simpl in *; intuition congruence.
  - intros g y Hy Hn Hp. exists y. split; [|done]. apply on_phase_other; [done|]. intros ->. by simplify_eq.
Qed.

(** A flight of this phase that succeeded is one its membership has not been told of. *)
Definition untold (answered : list nat) (f : nat) (p : Phase) : Prop :=
  (p = OnWire /\ f ∈ answered) \/ exists thread, p = Landing thread.

Lemma phase_success f p s x answered ref g : flights s !! f = Some x ->
  is_acquisition x = false \/ (untold answered f p <-> untold answered f (fl_phase x)) ->
  success_of (on_phase f p s) answered ref g <-> success_of s answered ref g.
Proof.
  intros Hx Hp. destruct (decide (g = f)) as [->|Hn].
  - split; intros (y & Hy & Ha & Er & Eg & Hu).
    + rewrite (on_phase_same f p s x Hx) in Hy. injection Hy as <-. exists x. destruct Hp as [Hp|Hp].
      * change (is_acquisition x = true) in Ha. congruence.
      * repeat split; try done. by apply Hp.
    + assert (y = x) as -> by congruence. exists (at_phase p x). split; [by apply on_phase_same|]. destruct Hp as [Hp|Hp]; [congruence|].
      repeat split; try done. by apply Hp.
  - split; intros (y & Hy & Hrest); exists y; (split; [|exact Hrest]).
    + destruct (on_phase_spec _ _ _ _ _ Hy) as [[-> _]|[_ ?]]; done.
    + by apply on_phase_other.
Qed.

(** A request moved along without its outcome being forgotten or made up. *)
Lemma Inv_phase late w f p x : Inv late w -> flights (reg w) !! f = Some x -> p <> OnWire ->
  counts (at_phase p x) = counts x ->
  (p = Finished -> forall i m, members (reg w) !! i = Some m -> transition m <> Some f) ->
  is_acquisition x = false \/ (untold (performed w) f p <-> untold (performed w) f (fl_phase x)) ->
  Inv late (client (on_phase f p (reg w)) w).
Proof.
  intros [HS HV] Hx Hp Hc Hfin Hu. split; [by eapply Shape_phase|].
  apply Served_claims; [done|by eapply phase_rephased|]. intros ref. unfold claim. simpl.
  apply or_iff_compat_l. split; intros [g Hg]; exists g;
    by apply (phase_success f p (reg w) x (performed w) ref g Hx Hu).
Qed.

(** The client hears that a request was performed. *)
Lemma answer_performed w f thread : Inv None w -> f ∈ performed w -> Inv None (client (answer f (Some thread) (reg w)) w).
Proof.
  intros HI Hf. assert (Hsame : Inv None (client (reg w) w)) by (by apply Inv_quiet).
  unfold answer. destruct (flights (reg w) !! f) as [[i ref gen kind p]|] eqn:Hx; [|done]. destruct p; try done.
  destruct kind as [epoch rev|]; eapply Inv_phase; eauto; try done.
  right. unfold untold. simpl. split; [|eauto]. by left.
Qed.

Lemma answer_unsubscribed w f x : Inv None w -> flights (reg w) !! f = Some x -> is_acquisition x = false ->
  Inv None (client (answer f None (reg w)) w).
Proof.
  intros HI Hx Ha. assert (Hsame : Inv None (client (reg w) w)) by (by apply Inv_quiet).
  unfold answer. rewrite Hx. destruct x as [i ref gen [epoch rev|] p]; [done|]. destruct p; try done.
  by eapply Inv_phase; eauto.
Qed.
