(* ===== verification/SubscriptionSteps.v ===== *)
(** Every step of the client and of the hub keeps the invariant of SubscriptionWorld.

    Beside it stand two smaller invariants: a membership counts the leases that hold it,
    and an acquisition the hub has not taken is one the client waits for or was misled
    about. *)

From S2P Require Import Prelude JsString Json JsMap TranscriptItems ThreadModel ThreadSubscription SubscriptionWorld.

Local Open Scope string_scope.

(** ** Leases and waiting requests *)

(** The leases that hold a membership. *)
Definition held_by (i : nat) (l : list Lease) : nat := length (filter (fun x => lease_member x = i /\ released x = false) l).

Record Leased (s : Registry) : Prop := {
  inv_holders : forall i m, members s !! i = Some m -> holders m = held_by i (leases s);
  inv_leases : forall l x, leases s !! l = Some x -> is_Some (members s !! lease_member x) }.

Record Waiting (w : World) : Prop := {
  inv_once : NoDup (queue w ++ performed w);
  inv_waiting : forall f x, f ∈ queue w -> flights (reg w) !! f = Some x -> is_acquisition x = true ->
    fl_phase x = OnWire \/ fl_ref x ∈ misled w }.

Record Good (w : World) : Prop := { good_inv : Inv None w; good_leased : Leased (reg w); good_waiting : Waiting w }.

(** Requests in flight stay so, and new ones start in flight. *)
Record moves (s s' : Registry) : Prop := {
  moves_old : forall f x, flights s !! f = Some x ->
    exists x', flights s' !! f = Some x' /\ same_flight x' x /\ (fl_phase x = OnWire -> fl_phase x' = OnWire);
  moves_new : forall f x', flights s' !! f = Some x' -> (length (flights s) <= f)%nat -> fl_phase x' = OnWire }.

Lemma same_flight_trans x y z : same_flight x y -> same_flight y z -> same_flight x z.
Proof. unfold same_flight. intuition congruence. Qed.

#[export] Instance moves_preorder : PreOrder moves.
Proof.
  split.
  - intros s. split; [intros f x Hx; by exists x|]. intros f x Hx%lookup_lt_Some ?. lia.
  - intros a b c [O1 N1] [O2 N2]. split.
    + intros f x Hx. destruct (O1 f x Hx) as (y & Hy & S1 & P1). destruct (O2 f y Hy) as (z & Hz & S2 & P2).
      exists z. split; [done|]. split; [by eapply same_flight_trans|auto].
    + intros f z Hz Hf. destruct (flights b !! f) as [y|] eqn:Hy.
      * destruct (O2 f y Hy) as (z' & Hz' & _ & P). assert (z' = z) as -> by congruence. apply P. by eapply N1.
      * apply (N2 f z Hz). by apply lookup_ge_None.
Qed.

Lemma moves_same s s' : flights s' = flights s -> moves s s'.
Proof.
  intros E. split; rewrite E; [intros f x Hx; by exists x|]. intros f x Hx%lookup_lt_Some ?. lia.
Qed.

(** A step that leaves the leases and their memberships' holders alone. *)
Record calm (s s' : Registry) : Prop := {
  calm_leases : leases s' = leases s;
  calm_holders : forall i, holders <$> members s' !! i = holders <$> members s !! i;
  calm_moves : moves s s' }.

#[export] Instance calm_preorder : PreOrder calm.
Proof.
  split; [intros s; by split|]. intros a b c [L1 H1 M1] [L2 H2 M2]. split; [congruence| |by transitivity b].
  intros i. by rewrite H2.
Qed.

Lemma calm_rest s s' : leases s' = leases s -> members s' = members s -> flights s' = flights s -> calm s s'.
Proof. intros E1 E2 E3. split; [done|by rewrite E2|by apply moves_same]. Qed.

Lemma calm_member i f s : (forall m, holders (f m) = holders m) -> calm s (on_member i f s).
Proof.
  intros Hf. split; [done| |by apply moves_same].
  intros j. rewrite on_member_lookup. destruct (decide (i = j)); [|done]. destruct (members s !! j); simpl; [by rewrite Hf|done].
Qed.

Lemma calm_phase f p s x : flights s !! f = Some x -> fl_phase x <> OnWire -> calm s (on_phase f p s).
Proof.
  intros Hx Hp. split; [done|done|]. split.
  - intros g y Hy. destruct (decide (g = f)) as [->|Hn]; [|exists y; split; [by apply on_phase_other|done]].
    assert (y = x) as -> by congruence. exists (at_phase p x). split; [by apply on_phase_same|done].
  - intros g y Hy%lookup_lt_Some. rewrite length_on_phase in Hy. lia.
Qed.

Lemma calm_send x s : fl_phase x = OnWire -> calm s (put_flights (flights s ++ [x])%list s).
Proof.
  intros Hp. split; [done|done|]. split; cbn [flights put_flights].
  - intros f y Hy. exists y. split; [by apply lookup_app_l_Some|done].
  - intros f y [Hy%lookup_lt_Some|[_ Hy]]%lookup_app_Some Hf; [lia|]. by apply list_lookup_singleton_Some in Hy as [_ <-].
Qed.

(** A request sent for a membership, which follows it. *)
Lemma calm_request i g x s : (forall m, holders (g m) = holders m) -> fl_phase x = OnWire ->
  calm s (track i (length (flights s)) (put_flights (flights s ++ [x])%list (on_member i g s))).
Proof.
  intros Hg Hp. etransitivity; [by apply (calm_member i g)|].
  etransitivity; [by apply (calm_send x (on_member i g s))|]. by apply calm_member.
Qed.

Lemma foldl_calm {A} (f : Registry -> A -> Registry) l s : (forall s a, calm s (f s a)) -> calm s (foldl f s l).
Proof. intros Hf. revert s. induction l as [|a l IH]; intros s; [done|]. simpl. etransitivity; [apply Hf|apply IH]. Qed.

Create HintDb calm.
#[export] Hint Resolve calm_member calm_phase calm_send : calm.

Lemma releaseEmpty_calm i s : calm s (releaseEmpty i s).
Proof.
  unfold releaseEmpty. destruct (members s !! i) as [m|]; [|done]. destruct (busy m); [done|]. destruct (_ && _).
  - by apply (calm_request i (with_subscribed false false) (mkFlight i (mb_ref m) (generation s) Unsubscription OnWire)).
  - unfold forget. destruct (bool_decide _), (_ && _); by apply calm_rest.
Qed.

Lemma acquireWire_calm i s : calm s (acquireWire i s).1.
Proof.
  unfold acquireWire. destruct (members s !! i) as [m|]; [|done].
  by apply (calm_request i (fun m0 => with_outstanding (S (outstandingAcquisitions m0)) (with_epochs (S (transitionEpoch m)) (retiredEpoch m0) m0))
    (mkFlight i (mb_ref m) (generation s) (Acquisition (S (transitionEpoch m)) (statusRevision m)) OnWire)).
Qed.

Lemma ensure_member_calm i s : calm s (ensure_member i s).1.
Proof.
  unfold ensure_member. destruct (members s !! i) as [m|]; [|done]. destruct (joined m); [done|].
  destruct (_ || _); [done|]. pose proof (acquireWire_calm i s). by destruct (acquireWire i s).
Qed.

Lemma admitMetadata_calm i thread gen rev s : calm s (admitMetadata i thread gen rev s).
Proof. unfold admitMetadata. destruct (members s !! i) as [m|]; [|done]. destruct (_ || _); [done|by apply calm_member]. Qed.

Lemma admitMemberStatus_calm i threadId status s : calm s (admitMemberStatus i threadId status s).
Proof. apply calm_member. intros m. by destruct (metadata m). Qed.

Lemma admitStatus_calm ref threadId status s : calm s (admitStatus ref threadId status s).
Proof.
  unfold admitStatus. destruct (retired s); [done|].
  transitivity (match map_get ref (table s) with Some i => admitMemberStatus i threadId status s | None => s end).
  - destruct (map_get ref (table s)); [apply admitMemberStatus_calm|done].
  - apply foldl_calm. intros s1 kv. case_bool_decide; [done|]. destruct (members s1 !! kv.2 ≫= metadata); [|done].
    destruct (_ =? _); [apply admitMemberStatus_calm|done].
Qed.

Lemma read_answered_calm r thread s : calm s (read_answered r thread s).
Proof.
  unfold read_answered. destruct (plainReads s !! r); [|done]. destruct (leases s !! _) as [l|]; [|done].
  destruct (released l); [done|apply admitMetadata_calm].
Qed.

Lemma land_calm f s : calm s (land f s).
Proof.
  unfold land. destruct (flights s !! f) as [[i ref gen [epoch rev|] p]|] eqn:Hx; [|done|done]. destruct p as [|thread| | |]; try done.
  transitivity (on_phase f Settling s); [by eapply calm_phase|]. destruct (members (on_phase f Settling s) !! i); [|done].
  destruct (_ && _); [etransitivity; [|apply admitMetadata_calm]; by apply calm_member|].
  destruct (_ || _); [done|by apply calm_member].
Qed.

Lemma settle_calm f s : calm s (settle f s).
Proof.
  unfold settle. destruct (flights s !! f) as [[i ref gen [epoch rev|] p]|] eqn:Hx; [|done|done]. destruct p as [|thread| | |]; try done.
  transitivity (on_phase f Tracking s); [by eapply calm_phase|].
  transitivity (on_member i (fun m => with_outstanding (pred (outstandingAcquisitions m)) m) (on_phase f Tracking s)); [by apply calm_member|].
  destruct (members _ !! i); [|done]. destruct (bool_decide _); [done|apply releaseEmpty_calm].
Qed.

Lemma tracked_calm f s : calm s (tracked f s).
Proof.
  unfold tracked. destruct (flights s !! f) as [[i ref gen kind p]|] eqn:Hx; [|done]. destruct p as [|thread| | |]; try done.
  transitivity (on_phase f Finished s); [by eapply calm_phase|]. destruct (members _ !! i); [|done].
  destruct (_ || _); [done|]. etransitivity; [|apply releaseEmpty_calm]. by apply calm_member.
Qed.

Lemma onStateChange_calm b s : calm s (onStateChange b s).
Proof.
  unfold onStateChange. destruct (_ || _); [by apply calm_rest|]. transitivity (put_state false (S (generation s)) s); [by apply calm_rest|]. apply foldl_calm.
  intros s1 kv. etransitivity; [|apply releaseEmpty_calm]. by apply calm_member.
Qed.

Lemma read_calm l s : calm s (read l s).1.
Proof.
  unfold read. destruct (leases s !! l) as [lease|]; [|done]. destruct (negb _); [done|].
  destruct (members s !! _) as [m|]; [|done]. destruct (joined m); [done|]. destruct (negb _); [|by apply calm_rest].
  pose proof (acquireWire_calm (lease_member lease) s). by destruct (acquireWire _ s).
Qed.

(** ** What calm steps keep *)

Lemma Leased_calm s s' : Leased s -> calm s s' -> Leased s'.
Proof.
  intros HL Hc. pose proof (calm_holders _ _ Hc) as Hh. split; rewrite (calm_leases _ _ Hc).
  - intros i m Hi. specialize (Hh i). rewrite Hi in Hh. destruct (members s !! i) as [m0|] eqn:H0; [|done].
    injection Hh as ->. by apply HL.
  - intros l x Hl. destruct (inv_leases s HL l x Hl) as [m Hm]. specialize (Hh (lease_member x)). rewrite Hm in Hh.
    destruct (members s' !! lease_member x); [done|done].
Qed.

Lemma same_ref x y : same_flight x y -> fl_ref x = fl_ref y.
Proof. by intros (_ & E & _). Qed.

Lemma Waiting_moves w s' : Served w -> Waiting w -> moves (reg w) s' -> Waiting (client s' w).
Proof.
  intros HV HW Hm. set (n := length (flights (reg w))).
  assert (Hold : forall f, f ∈ (queue w ++ performed w)%list -> (f < n)%nat).
  { intros f [Hf|Hf]%elem_of_app; [|by apply HV]. destruct (inv_queue w HV f Hf) as (x & Hx%lookup_lt_Some & _). done. }
  split; simpl.
  - fold n. destruct (ready (reg w)); [|apply HW].
    rewrite <- app_assoc, (Permutation_app_comm (seq _ _)), app_assoc. apply NoDup_app. split; [apply HW|].
    split; [|apply NoDup_seq]. intros f Hf%Hold [? _]%elem_of_seq. lia.
  - intros f x' Hf Hx' Ha.
    assert ((f < n)%nat /\ f ∈ queue w \/ (n <= f)%nat) as [[Hlt Hq]|Hge].
    { fold n in Hf. destruct (ready (reg w)); [apply elem_of_app in Hf as [Hf|[? _]%elem_of_seq]; [|by right]|];
      (left; split; [apply Hold, elem_of_app; by left|done]). }
    + destruct (lookup_lt_is_Some_2 _ _ Hlt) as [x Hx]. destruct (moves_old _ _ Hm f x Hx) as (y & Hy & Hs & Hp).
      assert (y = x') as -> by congruence. pose proof (same_acquisition _ _ Hs). rewrite (same_ref _ _ Hs).
      destruct (inv_waiting w HW f x Hq Hx) as [?|?]; [congruence| |by right]. left. auto.
    + left. by eapply (moves_new _ _ Hm).
Qed.

(** An answer, which may end the wait for a request the hub has taken or the client was misled about. *)
Lemma Waiting_phase w f p lost : Waiting w -> misled w ⊆ lost ->
  (forall x, flights (reg w) !! f = Some x -> f ∈ queue w -> is_acquisition x = true -> fl_ref x ∈ lost) ->
  Waiting (mkWorld (on_phase f p (reg w)) (queue w) (subs w) (performed w) lost).
Proof.
  intros HW Hl Hf. split; [apply HW|]. simpl. intros g x' Hq [[<- (x & Hx & ->)]|[_ Hg]]%on_phase_spec Ha.
  - right. by apply (Hf x).
  - destruct (inv_waiting w HW g x' Hq Hg Ha) as [?|?]; [by left|right; by apply Hl].
Qed.

Lemma Good_client w s' : Good w -> Inv None (client s' w) -> calm (reg w) s' -> Good (client s' w).
Proof.
  intros [[HS HV] HL HW] HI Hc. split; [done|by eapply Leased_calm|]. apply Waiting_moves; [done|done|apply Hc].
Qed.

(** Two steps of the client are one when the first sends nothing. *)
Lemma client_client s1 s2 w : length (flights s1) = length (flights (reg w)) -> ready s1 = ready (reg w) ->
  client s2 (client s1 w) = client s2 w.
Proof. intros E1 E2. rewrite (client_same s1 w E1). unfold client. simpl. by rewrite E1, E2. Qed.

(** ** Rejections *)

Lemma reject_inv w f x : Inv None w -> flights (reg w) !! f = Some x -> is_acquisition x = true -> fl_phase x = OnWire ->
  Inv None (reject f x w).
Proof.
  intros [HS HV] Hx Ha Hp. unfold reject, answer. rewrite Hx. destruct x as [i ref gen [epoch rev|] p]; [|done]. simpl in Hp. subst p.
  set (x := mkFlight _ _ _ _ _) in *. split; [by eapply Shape_phase|]. apply Served_rephased; [done|by eapply phase_rephased| | |].
  - case_bool_decide; [|done]. apply union_subseteq_r.
  - intros r [Hw|[g (y & Hy & Hay & Er & Eg & Hu)]]; [by left|]. right. exists g, y. split; [|done].
    destruct (on_phase_spec _ _ _ _ _ Hy) as [[-> (z & Hz & ->)]|[_ ?]]; [|done]. by destruct Hu as [[? _]|[? ?]].
  - intros r [Hw|[g (y & Hy & Hay & Er & Eg & Hu)]]; [by left; left|]. destruct (decide (g = f)) as [->|Hn].
    + assert (y = x) as -> by congruence. right. destruct Hu as [[_ Hu]|[? ?]]; [|done].
      rewrite bool_decide_eq_true_2 by by right. rewrite elem_of_union, elem_of_singleton. by left.
    + left. right. exists g, y. split; [by apply on_phase_other|done].
Qed.

Lemma reject_good w f x : Good w -> flights (reg w) !! f = Some x -> is_acquisition x = true -> fl_phase x = OnWire ->
  Good (reject f x w).
Proof.
  intros [HI HL HW] Hx Ha Hp. split; [by apply reject_inv| |].
  - unfold reject, answer. simpl. rewrite Hx. destruct x as [i ref gen [epoch rev|] p]; [|done]. simpl in Hp. subst p.
    split; [apply HL|apply HL].
  - unfold reject, answer. rewrite Hx. destruct x as [i ref gen [epoch rev|] p]; [|done]. simpl in Hp. subst p.
    apply Waiting_phase; [done|case_bool_decide; [apply union_subseteq_r|done]|].
    intros y Hy Hq _. rewrite bool_decide_eq_true_2 by by left. rewrite Hx in Hy. injection Hy as <-.
    rewrite elem_of_union, elem_of_singleton. by left.
Qed.

(** ** Landing *)

Lemma wire_flags i sub orphan s ref m : members s !! i = Some m ->
  holds_wire (on_member i (with_subscribed sub orphan) s) ref <->
  (mb_ref m = ref /\ sub || orphan = true) \/ (exists j mj, j <> i /\ members s !! j = Some mj /\ mb_ref mj = ref /\ subscribed mj || orphanedSubscribe mj = true).
Proof.
  intros Hi. split.
  - intros (j & mj & Hj & Er & Hf). destruct (on_member_spec _ _ _ _ _ Hj) as [[<- (m0 & H0 & ->)]|[Hn H0]].
    + left. simplify_eq. done.
    + right. exists j, mj. done.
  - intros [[Er Hf]|(j & mj & Hn & Hj & Er & Hf)].
    + exists i, (with_subscribed sub orphan m). by rewrite on_member_lookup, decide_True, Hi.
    + exists j, mj. by rewrite on_member_lookup, decide_False.
Qed.

Lemma Shape_flags i sub orphan s m : Shape None s -> members s !! i = Some m -> busy m = true ->
  (ready s = false -> sub = false /\ orphan = false) -> Shape None (on_member i (with_subscribed sub orphan) s).
Proof.
  intros HS Hm Hb Hr. set (m' := with_subscribed sub orphan m).
  assert (Hi : members (on_member i (with_subscribed sub orphan) s) !! i = Some m') by (by rewrite on_member_lookup, decide_True, Hm).
  apply (Shape_busy i _ m'); [|done|done]. apply (Shape_step None s _ i m m'); auto; [apply (inv_busy _ _ HS); auto|].
  split; try done.
  - by apply on_member_insert.
  - by apply flights_follow_refl.
  - apply (inv_count _ _ HS i m Hm).
  - intros f Hf. by apply (inv_transition _ _ HS i m f).
Qed.

(** A success reaches its membership: the membership now holds the wire for it. *)
Lemma land_flags w f x thread i m sub orphan : Inv None w -> flights (reg w) !! f = Some x -> is_acquisition x = true ->
  fl_phase x = Landing thread -> fl_generation x = generation (reg w) -> fl_member x = i -> members (reg w) !! i = Some m ->
  sub || orphan = true -> Inv None (client (on_member i (with_subscribed sub orphan) (on_phase f Settling (reg w))) w).
Proof.
  intros [HS HV] Hx Ha Hp Hg Hi Hm Hf. set (s := reg w) in *.
  assert (Hc : counts x = true) by (unfold counts; by rewrite Ha, Hp).
  destruct (counted_busy _ _ f x HS Hx Hc) as (m0 & Hm0 & Er & Hb & _). rewrite Hi in Hm0. assert (m0 = m) as -> by congruence.
  assert (Hclaim : claim w (mb_ref m)). { right. exists f, x. repeat split; eauto. }
  assert (Hs1 : Shape None (on_phase f Settling s)). { apply (Shape_phase None f Settling s x HS Hx); [|done].
    rewrite Hc. change (is_acquisition x && true = true). by rewrite Ha. }
  split.
  - apply (Shape_flags i sub orphan _ m Hs1 Hm Hb). intros Hr. change (ready s = false) in Hr.
    destruct (inv_down w HV Hr) as (_ & _ & Hs). destruct (inv_claim w HV _ Hclaim) as [Hin _]. by rewrite Hs in Hin.
  - apply Served_claims; [done| |].
    { destruct (phase_rephased f Settling s x Hx) as [R1 R2 R3]; [done|]. by split. }
    intros ref. unfold claim. simpl. rewrite (wire_flags i sub orphan (on_phase f Settling s) ref m Hm). split.
    + intros [[[E _]|(j & mj & Hn & Hj & E & Hfj)]|[g (y & Hy & Hay & Ery & Eg & Hu)]].
      * by subst ref.
      * left. by exists j, mj.
      * right. exists g, y. split; [|done]. destruct (on_phase_spec _ _ _ _ _ Hy) as [[-> (z & Hz & ->)]|[_ ?]]; [|done].
        by destruct Hu as [[? _]|[? ?]].
    + intros [(j & mj & Hj & E & Hfj)|[g (y & Hy & Hay & Ery & Eg & Hu)]].
      * destruct (decide (j = i)) as [->|Hn]; left; [left|right; by exists j, mj]. change (members s !! i = Some mj) in Hj. split; congruence.
      * destruct (decide (g = f)) as [->|Hn].
        -- left. left. change (flights s !! f = Some y) in Hy. rewrite Hx in Hy. injection Hy as <-. split; [by rewrite Er|done].
        -- right. exists g, y. split; [by apply on_phase_other|done].
Qed.

(** A success nobody waits for, or one the membership already holds the wire by. *)
Lemma land_nothing w f x thread m : Inv None w -> flights (reg w) !! f = Some x -> is_acquisition x = true ->
  fl_phase x = Landing thread -> members (reg w) !! fl_member x = Some m ->
  fl_generation x <> generation (reg w) \/ subscribed m = true -> Inv None (client (on_phase f Settling (reg w)) w).
Proof.
  intros [HS HV] Hx Ha Hp Hm Hcase. pose proof (phase_rephased f Settling (reg w) x Hx ltac:(done)) as Hr. split.
  - apply (Shape_phase None f Settling _ x HS Hx); [|done]. unfold counts. rewrite Hp. done.
  - apply Served_claims; [done|done|]. intros ref. unfold claim. simpl. split.
    + intros [Hw|[g (y & Hy & Hay & Ery & Eg & Hu)]]; [by left|]. right. exists g, y. split; [|done].
      destruct (on_phase_spec _ _ _ _ _ Hy) as [[-> (z & Hz & ->)]|[_ ?]]; [|done]. by destruct Hu as [[? _]|[? ?]].
    + intros [Hw|[g (y & Hy & Hay & Ery & Eg & Hu)]]; [by left|]. destruct (decide (g = f)) as [->|Hn].
      * assert (y = x) as -> by congruence. left. destruct Hcase as [?|Hsub]; [done|]. exists (fl_member x), m.
        destruct (inv_flights _ _ HS f x Hx) as [(m0 & Hm0 & Er) _]. split; [done|]. split; [congruence|by rewrite Hsub].
      * right. exists g, y. split; [by apply on_phase_other|done].
Qed.

Lemma on_member_at i f g s m : members s !! i = Some m -> f m = g m -> on_member i f s = on_member i g s.
Proof. intros Hi E. unfold on_member. by rewrite (alter_insert f i _ m Hi), (alter_insert g i _ m Hi), E. Qed.

Lemma land_inv w f : Inv None w -> Inv None (client (land f (reg w)) w).
Proof.
  intros HI. assert (Hsame : Inv None (client (reg w) w)) by by apply Inv_quiet.
  unfold land. destruct (flights (reg w) !! f) as [[i ref gen [epoch rev|] p]|] eqn:Hx; [|done|done].
  destruct p as [|thread| | |]; try done. set (x := mkFlight _ _ _ _ _) in Hx.
  destruct (inv_flights _ _ (proj1 HI) f x Hx) as [(m & Hm & Er) _].
  assert (Hm1 : members (on_phase f Settling (reg w)) !! i = Some m) by exact Hm. rewrite Hm1.
  assert (Hflags : gen = generation (reg w) -> forall g sub orphan, g m = with_subscribed sub orphan m -> sub || orphan = true ->
    Inv None (client (on_member i g (on_phase f Settling (reg w))) w)).
  { intros Eg g sub orphan E Hf. rewrite (on_member_at i g (with_subscribed sub orphan) _ m Hm1 E).
    by apply (land_flags w f x thread i m). }
  change (generation (on_phase f Settling (reg w))) with (generation (reg w)).
  destruct (gen =? generation (reg w))%nat eqn:Eg; simpl.
  - apply Nat.eqb_eq in Eg. destruct (epoch =? transitionEpoch m)%nat.
    + set (s2 := on_member i _ _). rewrite <- (client_client s2 _ w); [|by rewrite <- (length_on_phase f Settling (reg w))|done].
      apply Inv_quiet; [|apply admitMetadata_quiet]. by apply (Hflags Eg _ true (orphanedSubscribe m)).
    + destruct (subscribed m) eqn:Esub; [by apply (land_nothing w f x thread m HI); auto|].
      apply (Hflags Eg _ (subscribed m) true); [done|by rewrite orb_true_r].
  - apply Nat.eqb_neq in Eg. by apply (land_nothing w f x thread m HI); auto.
Qed.

(** ** Settling and the tracking callback *)

Lemma holds_wire_member i f s ref : (forall m, mb_ref (f m) = mb_ref m /\ subscribed (f m) = subscribed m /\ orphanedSubscribe (f m) = orphanedSubscribe m) ->
  holds_wire (on_member i f s) ref <-> holds_wire s ref.
Proof.
  intros Hf. split; intros (j & m & Hj & Er & Hw).
  - destruct (on_member_spec _ _ _ _ _ Hj) as [[<- (m0 & H0 & ->)]|[_ H0]]; [|by exists j, m].
    destruct (Hf m0) as (E1 & E2 & E3). exists i, m0. by rewrite <- E1, <- E2, <- E3.
  - destruct (Hf m) as (E1 & E2 & E3). destruct (decide (i = j)) as [->|Hn].
    + exists j, (f m). by rewrite on_member_lookup, decide_True, Hj, E1, E2, E3.
    + exists j, m. by rewrite on_member_lookup, decide_False.
Qed.

Lemma settle_inv w f : Inv None w -> Inv None (client (settle f (reg w)) w).
Proof.
  intros HI. assert (Hsame : Inv None (client (reg w) w)) by by apply Inv_quiet. destruct HI as [HS HV].
  unfold settle. destruct (flights (reg w) !! f) as [[i ref gen [epoch rev|] p]|] eqn:Hx; [|done|done].
  destruct p as [|thread| | |]; try done. set (x := mkFlight _ _ _ _ _) in Hx. set (s := reg w) in *.
  destruct (counted_busy _ _ f x HS Hx) as (m & Hm & Er & Hb & Ho); [done|]. change (fl_member x) with i in Hm.
  set (dec := fun m0 => with_outstanding _ m0). set (s2 := on_member i dec (on_phase f Tracking s)).
  assert (Hm2 : members s2 !! i = Some (dec m)) by (unfold s2; rewrite on_member_lookup, decide_True by done; change (dec <$> members s !! i = Some (dec m)); by rewrite Hm).
  assert (HS2 : Shape (Some i) s2).
  { apply (Shape_step None s s2 i m (dec m) HS); [by left|done|by apply (inv_busy _ _ HS); auto|]. split; try done.
    - exact (on_member_insert i dec (on_phase f Tracking s) m Hm).
    - destruct (phase_follow f Tracking s x m Hx) as [F1 F2 F3]. by split.
    - change (outstandingAcquisitions (dec m)) with (pred (outstandingAcquisitions m)).
      pose proof (count_phase f Tracking s x i Hx) as Hcp. rewrite decide_True, decide_False in Hcp; [|by intros [_ ?]|done].
      change (flights s2) with (flights (on_phase f Tracking s)). rewrite (inv_count _ _ HS i m Hm) in Ho |- *. lia.
    - intros Hd. exact (inv_clean _ _ HS Hd i m Hm).
    - intros g Hg. destruct (inv_transition _ _ HS i m g Hm Hg) as (y & Hy & E1 & E2 & E3). destruct (decide (g = f)) as [->|Hn].
      + exists (at_phase Tracking x). split; [by apply (on_phase_same f Tracking s)|]. assert (y = x) as -> by congruence. done.
      + exists y. split; [by apply (on_phase_other f Tracking s)|done]. }
  assert (Hrest : rephased s s2).
  { destruct (phase_rephased f Tracking s x Hx) as [R1 R2 R3]; [done|]. by split. }
  assert (HI2 : Inv (Some i) (client s2 w)).
  { split; [done|]. apply Served_claims; [done|done|]. intros r. unfold claim. simpl. unfold s2 at 1.
    rewrite holds_wire_member by done. apply or_iff_compat_l. split; intros [g Hg]; exists g;
    (apply (phase_success f Tracking s x (performed w) r g Hx); [|done]); right; unfold untold; simpl; naive_solver. }
  rewrite Hm2. case_bool_decide as Et.
  - split; [|apply HI2]. apply (Shape_busy i _ (dec m)); [done|done|]. unfold busy. rewrite Et. simpl. by rewrite orb_true_r.
  - rewrite <- (client_client s2 _ w); [|apply Hrest|done].
    exact (releaseEmpty_inv i (client s2 w) HI2).
Qed.

Lemma tracked_inv w f : Inv None w -> Inv None (client (tracked f (reg w)) w).
Proof.
  intros HI. assert (Hsame : Inv None (client (reg w) w)) by by apply Inv_quiet.
  unfold tracked. destruct (flights (reg w) !! f) as [[i ref gen kind p]|] eqn:Hx; [|done].
  destruct p as [|thread| | |]; try done. set (x := mkFlight _ _ _ _ _) in Hx. set (s := reg w) in *. assert (HS : Shape None s) by apply HI.
  assert (Hc : counts (at_phase Finished x) = counts x) by (unfold counts; simpl; by rewrite !andb_false_r).
  assert (Hu : is_acquisition x = false \/ (untold (performed w) f Finished <-> untold (performed w) f Tracking))
    by (right; unfold untold; naive_solver).
  destruct (inv_flights _ _ HS f x Hx) as [(m & Hm & Er) _]. change (fl_member x) with i in Hm.
  assert (Hm1 : members (on_phase f Finished s) !! i = Some m) by exact Hm. rewrite Hm1.
  change (generation (on_phase f Finished s)) with (generation s).
  assert (Hothers : forall j mj, j <> i \/ gen <> generation s -> members s !! j = Some mj -> transition mj <> Some f).
  { intros j mj Hn Hj Hf. destruct (inv_transition _ _ HS j mj f Hj Hf) as (y & Hy & E1 & E2 & _).
    assert (y = x) as -> by congruence. simpl in *. destruct Hn; congruence. }
  destruct (negb (gen =? generation s)%nat || negb (bool_decide (transition m = Some f))) eqn:Hstale.
  - apply (Inv_phase None w f Finished x HI Hx); [done|done| |done]. intros _ j mj Hj. destruct (decide (j = i)) as [->|Hn]; [|by apply (Hothers j mj); auto].
    change (members s !! i = Some mj) in Hj. assert (mj = m) as -> by congruence.
    apply orb_prop in Hstale as [Hg%negb_true_iff%Nat.eqb_neq|Ht%negb_true_iff%bool_decide_eq_false]; [|done]. by apply (Hothers i m); auto.
  - apply orb_false_elim in Hstale as [_ Ht%negb_false_iff%bool_decide_eq_true].
    set (s1 := on_member i (with_transition None) s). set (s2 := on_member i _ _). change s2 with (on_phase f Finished s1).
    assert (Hb : busy m = true) by (unfold busy; rewrite Ht; simpl; by rewrite orb_true_r).
    assert (HI1 : Inv (Some i) (client s1 w)).
    { split.
      - apply (Shape_step None s s1 i m (with_transition None m) HS); [by left|done|by apply (inv_busy _ _ HS); auto|].
        split; try done; [by apply on_member_insert|by apply flights_follow_refl|apply (inv_count _ _ HS i m Hm)|].
        intros Hd. exact (inv_clean _ _ HS Hd i m Hm).
      - apply Served_claims; [apply HI|by split; [| |done]; [|intros g y Hy; by exists y]|]. intros r. unfold claim.
        change (reg (client s1 w)) with (on_member i (with_transition None) s). by rewrite holds_wire_member by done. }
    assert (HI2 : Inv (Some i) (client (on_phase f Finished s1) (client s1 w))).
    { apply (Inv_phase (Some i) (client s1 w) f Finished x HI1 Hx); [done|done| |done]. intros _ j mj Hj.
      destruct (on_member_spec _ _ _ _ _ Hj) as [[<- (m0 & H0 & ->)]|[Hn Hj']]; [done|by apply (Hothers j mj); auto]. }
    rewrite client_client in HI2 by done.
    rewrite <- (client_client (on_phase f Finished s1) _ w); [|exact (length_on_phase f Finished s1)|done].
    exact (releaseEmpty_inv i (client (on_phase f Finished s1) w) HI2).
Qed.

(** ** Sending an acquisition *)

Lemma acquireWire_inv w i m : Inv None w -> members (reg w) !! i = Some m -> (0 < holders m)%nat ->
  Inv None (client (acquireWire i (reg w)).1 w).
Proof.
  intros [HS HV] Hm Hh. unfold acquireWire. rewrite Hm. simpl. set (s := reg w) in *. set (n := length (flights s)).
  set (g := fun m0 => with_outstanding _ _).
  set (x := mkFlight i (mb_ref m) (generation s) _ OnWire). set (s' := track i n _).
  assert (Hb : busy m = true) by (unfold busy; by rewrite (proj2 (Nat.ltb_lt _ _) Hh)).
  assert (Ef : flights s' = (flights s ++ [x])%list) by done.
  assert (Em : members s' = <[i := with_transition (Some n) (g m)]> (members s)).
  { change (members s') with (alter (with_transition (Some n)) i (alter g i (members s))).
    rewrite (alter_insert g i _ m Hm), (alter_insert _ i _ (g m)); [apply list_insert_insert_eq|].
    apply list_lookup_insert_eq. by eapply lookup_lt_Some. }
  assert (Hn : flights s' !! n = Some x) by (rewrite Ef; by apply list_lookup_middle).
  assert (Hlook : forall j mj, members s' !! j = Some mj -> exists m0, members s !! j = Some m0 /\
    mb_ref mj = mb_ref m0 /\ subscribed mj = subscribed m0 /\ orphanedSubscribe mj = orphanedSubscribe m0).
  { intros j mj. rewrite Em. destruct (decide (j = i)) as [->|Hne].
    - rewrite list_lookup_insert_eq by (by eapply lookup_lt_Some). intros [= <-]. by exists m.
    - rewrite list_lookup_insert_ne by done. intros Hj. by exists mj. }
  assert (Hback : forall j m0, members s !! j = Some m0 -> exists mj, members s' !! j = Some mj /\
    mb_ref mj = mb_ref m0 /\ subscribed mj = subscribed m0 /\ orphanedSubscribe mj = orphanedSubscribe m0).
  { intros j m0 Hj. destruct (decide (j = i)) as [->|Hne].
    - exists (with_transition (Some n) (g m)). assert (m0 = m) as -> by congruence. split; [|done]. rewrite Em. apply list_lookup_insert_eq. by eapply lookup_lt_Some.
    - exists m0. by rewrite Em, list_lookup_insert_ne. }
  split.
  - apply (Shape_busy i s' (with_transition (Some n) (g m))); [|rewrite Em; apply list_lookup_insert_eq; by eapply lookup_lt_Some|].
    2: { unfold busy. simpl. by rewrite orb_true_r. }
    apply (Shape_step None s s' i m (with_transition (Some n) (g m)) HS); [by left|done|by apply (inv_busy _ _ HS); auto|]. split; try done.
    + by eapply send_follow.
    + rewrite Ef, count_send, decide_True by done. simpl. rewrite (inv_count _ _ HS i m Hm). lia.
    + intros Hd. exact (inv_clean _ _ HS Hd i m Hm).
    + intros f [= <-]. by exists x.
  - apply (Served_sent w s' x HV Ef); try done.
    + intros ref [(j & mj & Hj & Er & Hf)|[f (y & Hy & Ha & Er & Eg & Hu)]].
      * destruct (Hlook j mj Hj) as (m0 & Hm0 & E1 & E2 & E3). left. exists j, m0. by rewrite <- E1, <- E2, <- E3.
      * right. exists f, y. destruct (sent_cases s s' x f y Ef Hy) as [?|[-> ->]]; [done|]. exfalso.
        destruct Hu as [[_ Hp]|[? ?]]; [|done]. apply (inv_performed w HV) in Hp. unfold n, s in *. simpl in Hp. lia.
    + intros ref [(j & m0 & Hj & Er & Hf)|[f (y & Hy & Hrest)]]; left.
      * destruct (Hback j m0 Hj) as (mj & Hmj & E1 & E2 & E3). left. exists j, mj. by rewrite E1, E2, E3.
      * right. exists f, y. split; [|done]. by apply (sent_old s s' x f y Ef).
Qed.

Lemma ensure_member_inv w i : Inv None w -> Inv None (client (ensure_member i (reg w)).1 w).
Proof.
  intros HI. assert (Hsame : Inv None (client (reg w) w)) by by apply Inv_quiet.
  unfold ensure_member. destruct (members (reg w) !! i) as [m|] eqn:Hm; [|done]. destruct (joined m); [done|].
  destruct (subscribed m || (holders m =? 0)%nat) eqn:E; [done|]. apply orb_false_elim in E as [_ E%Nat.eqb_neq].
  pose proof (acquireWire_inv w i m HI Hm ltac:(lia)). by destruct (acquireWire i (reg w)).
Qed.

Lemma held_pos i l ls : ls !! l = Some (mkLease i false) -> (0 < held_by i ls)%nat.
Proof.
  intros Hl. unfold held_by. assert (H : mkLease i false ∈ filter (fun x => lease_member x = i /\ released x = false) ls)
    by (apply list_elem_of_filter; split; [done|by eapply list_elem_of_lookup_2]).
  destruct (filter _ ls); [by apply not_elem_of_nil in H|simpl; lia].
Qed.

Lemma read_inv w l : Good w -> Inv None (client (read l (reg w)).1 w).
Proof.
  intros [HI HL _]. assert (Hsame : Inv None (client (reg w) w)) by by apply Inv_quiet.
  unfold read. destruct (leases (reg w) !! l) as [[i rel]|] eqn:Hl; [|done].
  destruct (negb (active _ (reg w))) eqn:Ea; [done|]. apply negb_false_iff, andb_prop in Ea as [Er _]. simpl in Er.
  destruct rel; [done|]. simpl. destruct (members (reg w) !! i) as [m|] eqn:Hm; [|done]. destruct (joined m); [done|].
  destruct (negb (subscribed m)).
  - pose proof (acquireWire_inv w i m HI Hm) as H. rewrite (inv_holders _ HL i m Hm) in H. specialize (H (held_pos i l _ Hl)).
    by destruct (acquireWire i (reg w)).
  - apply Inv_quiet; [done|]. split; [done|]. intros j mj Hj. by exists mj.
Qed.

(** ** Leases *)

Lemma held_cons i x l : held_by i (x :: l) = ((if decide (lease_member x = i /\ released x = false) then 1 else 0) + held_by i l)%nat.
Proof. unfold held_by. rewrite filter_cons. by case_decide. Qed.

Lemma held_app i l1 l2 : held_by i (l1 ++ l2) = (held_by i l1 + held_by i l2)%nat.
Proof. unfold held_by. by rewrite filter_app, length_app. Qed.

Lemma held_release i j l ls : ls !! l = Some (mkLease i false) ->
  (held_by j (<[l := mkLease i true]> ls) + (if decide (i = j) then 1 else 0) = held_by j ls)%nat.
Proof.
  revert l. induction ls as [|x ls IH]; intros [|l] Hl; try done.
  - injection Hl as ->. change (held_by j (mkLease i true :: ls) + (if decide (i = j) then 1 else 0) = held_by j (mkLease i false :: ls))%nat.
    rewrite !held_cons. repeat case_decide; simpl in *; try lia; naive_solver.
  - change (held_by j (x :: <[l := mkLease i true]> ls) + (if decide (i = j) then 1 else 0) = held_by j (x :: ls))%nat.
    rewrite !held_cons. specialize (IH l Hl). lia.
Qed.

(** A membership's holders change, its wires and its requests do not. *)
Lemma Shape_holders i f s m : Shape None s -> members s !! i = Some m -> map_get (mb_ref m) (table s) = Some i ->
  (mb_ref (f m) = mb_ref m /\ transition (f m) = transition m /\ outstandingAcquisitions (f m) = outstandingAcquisitions m /\
   subscribed (f m) = subscribed m /\ orphanedSubscribe (f m) = orphanedSubscribe m) ->
  Shape (Some i) (on_member i f s).
Proof.
  intros HS Hm Ht (E1 & E2 & E3 & E4 & E5). apply (Shape_step None s _ i m (f m) HS); [by left|done|done|].
  split; try done.
  - by apply on_member_insert.
  - by apply flights_follow_refl.
  - rewrite E3. apply (inv_count _ _ HS i m Hm).
  - intros Hd. unfold clean. rewrite E4, E5. exact (inv_clean _ _ HS Hd i m Hm).
  - intros g. rewrite E2. apply (inv_transition _ _ HS i m g Hm).
Qed.

Lemma Shape_put_leases late ls s : Shape late s -> Shape late (put_leases ls s).
Proof. intros []. by split. Qed.

Lemma release_held w l i : Good w -> leases (reg w) !! l = Some (mkLease i false) ->
  exists m, members (reg w) !! i = Some m /\ (0 < holders m)%nat /\ map_get (mb_ref m) (table (reg w)) = Some i.
Proof.
  intros [[HS _] HL _] Hl. destruct (inv_leases _ HL l _ Hl) as [m Hm]. simpl in Hm. exists m. split; [done|].
  assert (Hp : (0 < holders m)%nat) by (rewrite (inv_holders _ HL i m Hm); by eapply held_pos).
  split; [done|]. apply (inv_busy _ _ HS i m Hm). left. unfold busy. by rewrite (proj2 (Nat.ltb_lt _ _) Hp).
Qed.

Lemma depart_keeps m : mb_ref (depart m) = mb_ref m /\ transition (depart m) = transition m /\
  outstandingAcquisitions (depart m) = outstandingAcquisitions m /\ subscribed (depart m) = subscribed m /\
  orphanedSubscribe (depart m) = orphanedSubscribe m.
Proof. unfold depart. destruct (_ =? 0)%nat; [|done]. by destruct m as [? ? ? [?|] ? ? ? ? ? ? ?]. Qed.

Lemma depart_holders m : holders (depart m) = pred (holders m).
Proof. unfold depart. destruct (_ =? 0)%nat; [|done]. by destruct m as [? ? ? [?|] ? ? ? ? ? ? ?]. Qed.

Lemma release_good w l : Good w -> Good (client (release l (reg w)) w).
Proof.
  intros HG. unfold release. destruct (leases (reg w) !! l) as [[i [|]]|] eqn:Hl;
    [by apply Good_client; [|apply Inv_quiet; [apply HG|]|]| |by apply Good_client; [|apply Inv_quiet; [apply HG|]|]].
  destruct (release_held w l i HG Hl) as (m & Hm & Hh & Ht). destruct HG as [[HS HV] HL HW].
  set (s1 := put_leases (<[l := mkLease i true]> (leases (reg w))) (reg w)). set (s2 := on_member i depart s1).
  assert (HI2 : Inv (Some i) (client s2 w)).
  { split.
    - apply (Shape_holders i depart s1 m); [by apply Shape_put_leases|done|done|apply depart_keeps].
    - apply Served_claims; [done|by split; [|intros g y Hy; by exists y|]|]. intros r. unfold claim.
      change (reg (client s2 w)) with (on_member i depart s1). rewrite holds_wire_member; [done|].
      intros m0. by destruct (depart_keeps m0) as (? & _ & _ & ? & ?). }
  assert (HL2 : Leased s2).
  { split; simpl.
    - intros j mj Hj. pose proof (held_release i j l (leases (reg w)) Hl) as Hr.
      destruct (on_member_spec i depart s1 j mj Hj) as [[<- (m0 & H0 & ->)]|[Hn H0]].
      + rewrite depart_holders, (inv_holders _ HL i m0 H0). rewrite decide_True in Hr by done. simpl. lia.
      + rewrite (inv_holders _ HL j mj H0). rewrite decide_False in Hr by done. simpl. lia.
    - intros k y Hk. change (is_Some (alter depart i (members (reg w)) !! lease_member y)). apply lookup_lt_is_Some.
      rewrite length_alter. apply lookup_lt_is_Some. destruct (decide (k = l)) as [->|Hn].
      + rewrite list_lookup_insert_eq in Hk by (by eapply lookup_lt_Some). injection Hk as <-. by exists m.
      + rewrite list_lookup_insert_ne in Hk by done. by apply (inv_leases _ HL k). }
  assert (HW2 : Waiting (client s2 w)) by (apply Waiting_moves; [done|done|by apply moves_same]).
  pose proof (releaseEmpty_inv i _ HI2) as HI3. pose proof (releaseEmpty_calm i s2) as Hc.
  change (reg (client s2 w)) with s2 in HI3. rewrite client_client in HI3 by done.
  split; [done|by eapply Leased_calm|]. apply Waiting_moves; [done|done|]. transitivity s2; [by apply moves_same|apply Hc].
Qed.

Lemma make_registry_good w owned : Good w -> retired (reg w) = true -> Good (client (make_registry owned (reg w)) w).
Proof.
  intros HG Hr. apply Good_client; [done| |by apply calm_rest]. destruct HG as [[HS HV] _ _].
  apply Inv_wires; try done. pose proof (inv_retired _ _ HS Hr) as Et. destruct HS. rewrite Et in *. by split.
Qed.

(** A new membership, held by its first lease. *)
Definition first_member (ref : string) : Membership := with_holders 1 (new_member ref).

Lemma no_flights_of i s : Shape None s -> (length (members s) <= i)%nat -> count_of i (flights s) = 0%nat.
Proof.
  intros HS Hi. unfold count_of. rewrite filter_none; [done|]. intros x [f Hf]%list_elem_of_lookup_1 [Ei _].
  destruct (inv_flights _ _ HS f x Hf) as [(m & Hm%lookup_lt_Some & _) _]. lia.
Qed.

Lemma Shape_new ref s : Shape None s -> retired s = false -> map_get ref (table s) = None ->
  Shape None (put_table (map_put ref (length (members s)) (table s)) (put_members (members s ++ [first_member ref])%list s)).
Proof.
  intros HS Hr Hn. set (n := length (members s)).
  assert (Hlook : forall j mj, (members s ++ [first_member ref])%list !! j = Some mj -> members s !! j = Some mj \/ (j = n /\ mj = first_member ref)).
  { intros j mj [?|[Hj H0]]%lookup_app_Some; [by left|]. apply list_lookup_singleton_Some in H0 as [Hz <-]. right. split; [unfold n; lia|done]. }
  assert (Hold : forall j mj, members s !! j = Some mj -> (members s ++ [first_member ref])%list !! j = Some mj /\ j <> n).
  { intros j mj Hj. split; [by apply lookup_app_l_Some|]. apply lookup_lt_Some in Hj. unfold n. lia. }
  assert (Hput : forall k, k <> ref -> map_get k (map_put ref n (table s)) = map_get k (table s)) by (intros k Hk; by apply map_get_put_ne).
  split; simpl.
  - intros f x Hx. destruct (inv_flights _ _ HS f x Hx) as [(m & Hm & Er) Hg]. split; [|done]. exists m. split; [by apply Hold|done].
  - intros j mj [Hj|[-> ->]]%Hlook; [by apply (inv_count _ _ HS)|]. simpl. by rewrite no_flights_of.
  - apply map_put_wf, HS.
  - intros k j Hk. destruct (decide (k = ref)) as [->|Hne].
    + rewrite map_get_put in Hk. injection Hk as <-. exists (first_member ref). split; [by apply list_lookup_middle|done].
    + rewrite Hput in Hk by done. destruct (inv_table _ _ HS k j Hk) as (m & Hm & Er). exists m. split; [by apply Hold|done].
  - intros j mj [Hj|[-> ->]]%Hlook Hb; [|by rewrite map_get_put]. destruct Hb as [Hb|?]; [|done].
    pose proof (inv_busy _ _ HS j mj Hj (or_introl Hb)) as Hg. rewrite Hput; [done|]. intros E. congruence.
  - intros j mj [Hj|[-> ->]]%Hlook Hne Hb; [|done]. destruct (inv_idle _ _ HS j mj Hj Hne Hb) as [Hc Hg]. split; [done|].
    destruct (decide (mb_ref mj = ref)) as [E|Hk]; [|by rewrite Hput]. rewrite E, map_get_put. intros [= ->]. by apply (Hold j mj).
  - intros Hd j mj [Hj|[-> ->]]%Hlook; [by eapply (inv_clean _ _ HS)|done].
  - intros j mj f [Hj|[-> ->]]%Hlook Hf; [by eapply (inv_transition _ _ HS)|done].
  - by rewrite Hr.
Qed.

Lemma no_leases_of i s : Leased s -> (length (members s) <= i)%nat -> held_by i (leases s) = 0%nat.
Proof.
  intros HL Hi. unfold held_by. rewrite filter_none; [done|]. intros x [k Hk]%list_elem_of_lookup_1 [Ei _].
  destruct (inv_leases _ HL k x Hk) as [m Hm%lookup_lt_Some]. lia.
Qed.

Lemma Leased_new s i f : Leased s -> (forall m, members s !! i = Some m -> holders (f m) = S (holders m)) -> is_Some (members s !! i) ->
  Leased (put_leases (leases s ++ [mkLease i false])%list (on_member i f s)).
Proof.
  intros HL Hf [m Hm]. split; simpl.
  - intros j mj Hj. rewrite held_app, held_cons. change (held_by j []) with 0%nat. simpl.
    destruct (on_member_spec i f s j mj Hj) as [[<- (m0 & H0 & ->)]|[Hn H0]].
    + rewrite (Hf m0 H0), (inv_holders _ HL i m0 H0), decide_True by done. lia.
    + rewrite (inv_holders _ HL j mj H0), decide_False by naive_solver. lia.
  - intros k y Hk. apply lookup_lt_is_Some. rewrite length_alter. apply lookup_lt_is_Some.
    apply lookup_app_Some in Hk as [Hk|[_ Hk]]; [by apply (inv_leases _ HL k)|].
    apply list_lookup_singleton_Some in Hk as [_ <-]. by exists m.
Qed.

Lemma acquire_wired w ref : Good w -> retired (reg w) = false -> Good (client (acquire ref (reg w)).1 w).
Proof.
  intros [[HS HV] HL HW] Hr. unfold acquire.
  set (inc := fun m => with_holders (S (holders m)) m).
  destruct (map_get ref (table (reg w))) as [i|] eqn:Hg; cbn [fst].
  - destruct (inv_table _ _ HS ref i Hg) as (m & Hm & Er). split.
    + apply Inv_wires; try done; [|intros r; by apply (holds_wire_member i inc)].
      apply Shape_put_leases. apply (Shape_busy i _ (inc m)); [|by rewrite on_member_lookup, decide_True, Hm|done].
      apply (Shape_holders i inc _ m); [done|done|congruence|done].
    + apply (Leased_new _ i inc HL); [done|by exists m].
    + apply Waiting_moves; [done|done|by apply moves_same].
  - set (n := length (members (reg w))).
    assert (E : alter inc n (members (reg w) ++ [new_member ref])%list = (members (reg w) ++ [first_member ref])%list).
    { rewrite (alter_insert inc n _ (new_member ref)) by (by apply list_lookup_middle). unfold n.
      rewrite insert_app_r_alt by done. by rewrite Nat.sub_diag. }
    split.
    + apply Inv_wires; try done.
      * apply Shape_put_leases. unfold on_member, put_members, put_table. simpl. fold n. rewrite E. by apply (Shape_new ref _ HS).
      * intros r. unfold holds_wire. simpl. fold n. rewrite E. split; intros (j & mj & Hj & Hrest).
        -- apply lookup_app_Some in Hj as [Hj|[_ Hj]]; [by exists j, mj|]. apply list_lookup_singleton_Some in Hj as [_ <-]. by destruct Hrest as [_ ?].
        -- exists j, mj. split; [by apply lookup_app_l_Some|done].
    + assert (HL1 : Leased (put_table (map_put ref n (table (reg w))) (put_members (members (reg w) ++ [new_member ref])%list (reg w)))).
      { split; simpl.
        - intros j mj [Hj|[Hge Hj]]%lookup_app_Some; [by apply HL|]. apply list_lookup_singleton_Some in Hj as [_ <-]. simpl.
          symmetry. by apply no_leases_of.
        - intros k y Hk. destruct (inv_leases _ HL k y Hk) as [my Hmy]. exists my. by apply lookup_app_l_Some. }
      apply (Leased_new _ n inc HL1); [done|]. exists (new_member ref). by apply list_lookup_middle.
    + apply Waiting_moves; [done|done|by apply moves_same].
Qed.

Lemma acquire_good w ref s' l : Good w -> acquireThreadSubscription ref (reg w) = Some (s', l) -> Good (client s' w).
Proof.
  intros HG. unfold acquireThreadSubscription. destruct (blank ref); [done|]. intros [= Hs].
  assert (Hone : forall w, Good w -> retired (reg w) = false -> acquire ref (reg w) = (s', l) -> Good (client s' w)).
  { intros v Hv Hrv E. pose proof (acquire_wired v ref Hv Hrv) as H. by rewrite E in H. }
  destruct (retired (reg w)) eqn:Hr; [|by apply Hone].
  rewrite <- (client_client (make_registry false (reg w)) s' w) by done.
  apply Hone; [by apply make_registry_good|done|done].
Qed.

(** ** The connection *)

Lemma ready_good w : Good w -> Good (client (onStateChange true (reg w)) w).
Proof.
  intros [[HS HV] HL HW]. rewrite client_same by done. split; [split| |].
  - destruct HS. by split.
  - destruct HV. by split.
  - destruct HL. by split.
  - destruct HW. by split.
Qed.

(** While the connection falls: [rest] are the memberships not seen to yet. *)
Record Falling (rest : list nat) (s : Registry) : Prop := {
  fall_flights : forall f x, flights s !! f = Some x ->
    (exists m, members s !! fl_member x = Some m /\ mb_ref m = fl_ref x) /\ (fl_generation x < generation s)%nat;
  fall_count : forall i m, members s !! i = Some m -> outstandingAcquisitions m = count_of i (flights s);
  fall_keys : map_wf (table s);
  fall_table : forall k i, map_get k (table s) = Some i -> exists m, members s !! i = Some m /\ mb_ref m = k;
  fall_busy : forall i m, members s !! i = Some m -> busy m = true \/ i ∈ rest -> map_get (mb_ref m) (table s) = Some i;
  fall_idle : forall i m, members s !! i = Some m -> i ∉ rest -> busy m = false -> map_get (mb_ref m) (table s) <> Some i;
  fall_clean : forall i m, members s !! i = Some m -> i ∉ rest -> clean m /\ transition m = None;
  fall_ready : ready s = false;
  fall_retired : retired s = true -> table s = [] }.

Lemma fall_done s : Falling [] s -> Shape None s.
Proof.
  intros [F1 F2 F3 F4 F5 F6 F7 F8 F9]. split; try done.
  - intros f x Hx. destruct (F1 f x Hx) as [? ?]. split; [done|lia].
  - intros i m Hi [Hb|?]; [|done]. apply F5; auto.
  - intros i m Hi _ Hb. split; [|apply F6; try done; apply not_elem_of_nil]. apply (F7 i m); [done|apply not_elem_of_nil].
  - intros _ i m Hi. apply (F7 i m); [done|apply not_elem_of_nil].
  - intros i m f Hi Hf. destruct (F7 i m Hi) as [_ E]; [apply not_elem_of_nil|congruence].
Qed.

Lemma fall_forget i m rest s : Falling (i :: rest) s -> i ∉ rest -> members s !! i = Some m -> busy m = false -> clean m -> transition m = None ->
  Falling rest (forget i m s).
Proof.
  intros [F1 F2 F3 F4 F5 F6 F7 F8 F9] Hni Hm Hb Hc Ht.
  assert (Hg : map_get (mb_ref m) (table s) = Some i) by (apply F5; [done|right; by left]).
  unfold forget. rewrite bool_decide_eq_true_2 by done.
  assert (Hone : forall j mj, members s !! j = Some mj -> j <> i -> map_get (mb_ref mj) (table s) = Some j ->
    map_get (mb_ref mj) (map_del (mb_ref m) (table s)) = Some j).
  { intros j mj Hj Hn Hk. destruct (decide (mb_ref mj = mb_ref m)) as [E|]; [congruence|]. by rewrite map_get_del_ne. }
  assert (H1 : Falling rest (put_table (map_del (mb_ref m) (table s)) s)).
  { split; simpl; try done.
    - by apply map_del_wf.
    - intros k j Hk. destruct (decide (k = mb_ref m)) as [->|]; [by rewrite map_get_del in Hk|]. rewrite map_get_del_ne in Hk by done. by apply F4.
    - intros j mj Hj Hbj. assert (j <> i) by (intros ->; destruct Hbj; [congruence|done]). apply Hone; [done|done|].
      apply F5; [done|]. destruct Hbj; [by left|right; by right].
    - intros j mj Hj Hnj Hbj. destruct (decide (j = i)) as [->|Hn]; [simplify_eq; by rewrite map_get_del|].
      destruct (decide (mb_ref mj = mb_ref m)) as [->|]; [by rewrite map_get_del|]. rewrite map_get_del_ne by done.
      apply F6; [done| |done]. rewrite elem_of_cons. by intros [?|?].
    - intros j mj Hj Hnj. destruct (decide (j = i)) as [->|Hn]; [by simplify_eq|]. apply (F7 j mj Hj). rewrite elem_of_cons. by intros [?|?].
    - intros Hr. by rewrite (F9 Hr). }
  destruct (_ && _) eqn:E; [|done]. apply andb_prop in E as [_ E%Nat.eqb_eq]. simpl in E.
  destruct (map_del (mb_ref m) (table s)) as [|] eqn:Ed; [|done]. destruct H1. by split.
Qed.

Lemma fall_member i m rest s : Falling (i :: rest) s -> i ∉ rest -> members s !! i = Some m ->
  let s1 := on_member i disconnected s in
  Falling (i :: rest) s1 /\ (busy (disconnected m) = true -> Falling rest s1).
Proof.
  intros HF Hni Hm s1. set (m1 := disconnected m).
  assert (Hm1 : members s1 !! i = Some m1) by (unfold s1; by rewrite on_member_lookup, decide_True, Hm).
  destruct HF as [F1 F2 F3 F4 F5 F6 F7 F8 F9].
  assert (Hs : forall j mj, members s1 !! j = Some mj -> (j = i /\ mj = m1) \/ (j <> i /\ members s !! j = Some mj)).
  { intros j mj Hj. destruct (on_member_spec _ _ _ _ _ Hj) as [[<- (m0 & H0 & ->)]|[? ?]]; [left; split; [done|unfold m1; congruence]|by right]. }
  assert (Hb : forall j mj, members s !! j = Some mj -> exists mj', members s1 !! j = Some mj' /\ mb_ref mj' = mb_ref mj).
  { intros j mj Hj. destruct (decide (j = i)) as [->|Hn]; [exists m1; simplify_eq; done|]. exists mj. unfold s1. by rewrite on_member_lookup, decide_False. }
  assert (Hfl : forall f x, flights s1 !! f = Some x -> (exists mx, members s1 !! fl_member x = Some mx /\ mb_ref mx = fl_ref x) /\ (fl_generation x < generation s1)%nat).
  { intros f x Hx. destruct (F1 f x Hx) as [(mx & Hx1 & Hx2) ?]. split; [|done]. destruct (Hb _ _ Hx1) as (my & ? & ?). exists my. split; [done|congruence]. }
  assert (Hta : forall k j, map_get k (table s1) = Some j -> exists mj, members s1 !! j = Some mj /\ mb_ref mj = k).
  { intros k j Hk. destruct (F4 k j Hk) as (mx & Hx1 & ?). destruct (Hb _ _ Hx1) as (my & ? & ?). exists my. split; [done|congruence]. }
  assert (Hco : forall j mj, members s1 !! j = Some mj -> outstandingAcquisitions mj = count_of j (flights s1)).
  { intros j mj [[-> ->]|[Hn Hj]]%Hs; [apply (F2 i m Hm)|by apply F2]. }
  assert (Hg : map_get (mb_ref m) (table s) = Some i) by (apply F5; [done|right; by left]).
  split; [|intros Hbm]; split; try done.
  - intros j mj [[-> ->]|[Hn Hj]]%Hs Hbj; [done|by apply F5].
  - intros j mj [[-> ->]|[Hn Hj]]%Hs Hnj; [by destruct Hnj; left|by apply F6].
  - intros j mj [[-> ->]|[Hn Hj]]%Hs Hnj; [done|by apply (F7 j)].
  - intros j mj [[-> ->]|[Hn Hj]]%Hs Hbj; [done|]. apply F5; [done|]. destruct Hbj; [by left|right; by right].
  - intros j mj [[-> ->]|[Hn Hj]]%Hs Hnj Hbj; [congruence|]. apply F6; [done|by rewrite elem_of_cons; intros [?|?]|done].
  - intros j mj [[-> ->]|[Hn Hj]]%Hs Hnj; [done|]. apply (F7 j mj Hj). rewrite elem_of_cons. by intros [?|?].
Qed.

Lemma alter_none {A} (f : A -> A) i (l : list A) : l !! i = None -> alter f i l = l.
Proof. revert i. induction l as [|x l IH]; intros [|i] Hi; simpl; try done. f_equal. by apply IH. Qed.

Lemma fall_absent i rest s : Falling (i :: rest) s -> members s !! i = None -> Falling rest s.
Proof.
  intros [F1 F2 F3 F4 F5 F6 F7 F8 F9] Hi.
  assert (Hn : forall j mj, members s !! j = Some mj -> j ∉ rest -> j ∉ i :: rest) by (intros j mj Hj ?; rewrite elem_of_cons; intros [->|?]; [congruence|done]).
  split; try done; intros j mj Hj.
  - intros [?|?]; apply F5; auto. right. by right.
  - intros ?. apply F6; [done|by eapply Hn].
  - intros ?. apply (F7 j mj Hj). by eapply Hn.
Qed.

Lemma fall_step i rest s : Falling (i :: rest) s -> i ∉ rest -> Falling rest (releaseEmpty i (on_member i disconnected s)).
Proof.
  intros HF Hni. unfold releaseEmpty. rewrite on_member_lookup, decide_True by done. destruct (members s !! i) as [m|] eqn:Hm; simpl.
  - destruct (fall_member i m rest s HF Hni Hm) as [HF1 Hbusy]. fold (disconnected m). destruct (busy (disconnected m)) eqn:Hb1; [by apply Hbusy|].
    apply (fall_forget i (disconnected m) rest _ HF1); try done. by rewrite on_member_lookup, decide_True, Hm.
  - unfold on_member. rewrite (alter_none _ i) by done. destruct s. by eapply fall_absent.
Qed.

Lemma fall_all (l : js_map nat) s : Falling (l.*2) s -> NoDup (l.*2) ->
  Falling [] (foldl (fun s kv => releaseEmpty kv.2 (on_member kv.2 disconnected s)) s l).
Proof.
  revert s. induction l as [|[k i] l IH]; intros s HF Hd; simpl; [done|]. apply NoDup_cons in Hd as [Hi Hd].
  apply IH; [|done]. by apply fall_step.
Qed.

(** The table names each membership once. *)
Lemma NoDup_table s : map_wf (table s) -> (forall k i, map_get k (table s) = Some i -> exists m, members s !! i = Some m /\ mb_ref m = k) ->
  NoDup ((table s).*2).
Proof.
  intros Hwf Ht. apply NoDup_fmap_2_strong; [|by apply NoDup_fmap_1 with fst].
  intros [k1 i1] [k2 i2] H1 H2 E. simpl in E. subst i2.
  destruct (Ht k1 i1) as (m1 & Hm1 & E1); [by apply map_get_elem_of|].
  destruct (Ht k2 i1) as (m2 & Hm2 & E2); [by apply map_get_elem_of|]. congruence.
Qed.

Lemma fall_start s : Shape None s -> Falling ((table s).*2) (put_state false (S (generation s)) s).
Proof.
  intros HS. assert (Hout : forall i m, members s !! i = Some m -> i ∉ (table s).*2 -> map_get (mb_ref m) (table s) <> Some i).
  { intros i m Hi Hn Hg. apply Hn, list_elem_of_fmap. exists (mb_ref m, i). split; [done|by apply elem_of_map_get]. }
  assert (Hidle : forall i m, members s !! i = Some m -> i ∉ (table s).*2 -> busy m = false).
  { intros i m Hi Hn. destruct (busy m) eqn:Hb; [|done]. destruct (Hout i m Hi Hn). apply (inv_busy _ _ HS); auto. }
  split; simpl; try done; try apply HS.
  - intros f x Hx. destruct (inv_flights _ _ HS f x Hx) as [? ?]. split; [done|lia].
  - intros i m Hi [Hb|[[k j] [-> Hk]]%list_elem_of_fmap]; [apply (inv_busy _ _ HS); auto|].
    apply map_get_elem_of in Hk; [|apply HS]. destruct (inv_table _ _ HS k j Hk) as (m0 & H0 & <-). simpl in *. congruence.
  - intros i m Hi Hn _. by apply Hout.
  - intros i m Hi Hn. pose proof (Hidle i m Hi Hn) as Hb. split; [by apply (inv_idle _ _ HS i m Hi)|].
    destruct (transition m) eqn:Et; [|done]. unfold busy in Hb. rewrite Et in Hb. simpl in Hb. by rewrite orb_true_r in Hb.
Qed.

(** With no registry nothing is busy. *)
Lemma retired_idle s i m : Shape None s -> retired s = true -> members s !! i = Some m -> busy m = false.
Proof.
  intros HS Hr Hi. destruct (busy m) eqn:Hb; [|done]. pose proof (inv_busy _ _ HS i m Hi (or_introl Hb)) as Hg.
  by rewrite (inv_retired _ _ HS Hr) in Hg.
Qed.

Lemma Shape_down s : Shape None s -> Shape None (onStateChange false s) /\
  (forall i m, members (onStateChange false s) !! i = Some m -> clean m) /\
  (forall f x, flights (onStateChange false s) !! f = Some x -> fl_generation x = generation (onStateChange false s) -> counts x = false).
Proof.
  intros HS. unfold onStateChange. simpl. destruct (retired s) eqn:Hr.
  - assert (Hidle : forall i m, members s !! i = Some m -> clean m).
    { intros i m Hi. by apply (inv_idle _ _ HS i m Hi); [|eapply retired_idle]. }
    split; [destruct HS; by split|]. split; [done|]. simpl. intros f x Hx _. destruct (counts x) eqn:Hc; [|done].
    destruct (counted_busy _ _ f x HS Hx Hc) as (m & Hm & _ & Hb & _). by rewrite (retired_idle s _ m HS Hr Hm) in Hb.
  - pose proof (fall_all (table s) _ (fall_start s HS) (NoDup_table s (inv_keys _ _ HS) (inv_table _ _ HS))) as HF.
    split; [by apply fall_done|]. split; [|intros f x Hx E; destruct (fall_flights _ _ HF f x Hx); lia].
    intros i m Hi. apply (fall_clean _ _ HF i m Hi). apply not_elem_of_nil.
Qed.

Lemma onStateChange_down s : ready (onStateChange false s) = false.
Proof.
  unfold onStateChange. simpl. destruct (retired s); [done|].
  assert (H : forall (l : js_map nat) s1, ready s1 = false -> ready (foldl (fun s kv => releaseEmpty kv.2 (on_member kv.2 disconnected s)) s1 l) = false).
  { induction l as [|kv l IH]; intros s1 H1; [done|]. simpl. apply IH. unfold releaseEmpty. destruct (members _ !! _); [|done].
    destruct (busy _); [done|]. change (ready (on_member kv.2 disconnected s1)) with (ready s1). rewrite H1, andb_false_r.
    unfold forget. by destruct (bool_decide _), (_ && _). }
  by apply H.
Qed.

Lemma disconnect_good w : Good w -> Good (disconnect w).
Proof.
  intros [[HS HV] HL HW]. destruct (Shape_down _ HS) as (HS' & Hclean & Hold).
  assert (Hno : forall ref, ~ claim (disconnect w) ref).
  { intros ref [(i & m & Hi & _ & Hf)|[f (x & Hx & Ha & _ & Eg & Hu)]].
    - destruct (Hclean i m Hi) as [E1 E2]. by rewrite E1, E2 in Hf.
    - specialize (Hold f x Hx Eg). unfold counts in Hold. rewrite Ha in Hold. destruct Hu as [[_ Hu]|[t E]]; [|by rewrite E in Hold].
      by apply not_elem_of_nil in Hu. }
  split; [split; [done|]| |].
  - split; simpl; try (intros f Hf; by apply not_elem_of_nil in Hf); try done.
    + intros q1 f q2 x E. by destruct q1.
    + intros ref Hc. by apply Hno in Hc.
  - apply (Leased_calm (reg w)); [done|apply onStateChange_calm].
  - split; simpl; [apply NoDup_nil_2|]. intros f x Hf. by apply not_elem_of_nil in Hf.
Qed.

(** ** The hub *)

Lemma queue_ordered_tail s f q : queue_ordered s (f :: q) -> queue_ordered s q.
Proof. intros Ho q1 g q2 x E. apply (Ho (f :: q1) g q2 x). by rewrite E. Qed.

Lemma unsubscribing_tail s f q x ref : flights s !! f = Some x ->
  unsubscribing s (f :: q) ref <-> (is_acquisition x = false /\ fl_ref x = ref) \/ unsubscribing s q ref.
Proof.
  intros Hx. split.
  - intros (u & y & [->|Hu]%elem_of_cons & Hy & Ha & Er); [left; by simplify_eq|]. right. by exists u, y.
  - intros [[Ha Er]|(u & y & Hu & Hrest)]; [exists f, x|exists u, y]; rewrite elem_of_cons; auto.
Qed.

Section serving.
Context (w : World) (f : nat) (q : list nat) (x : Flight).
Context (HG : Good w) (Hq : queue w = f :: q) (Hx : flights (reg w) !! f = Some x).

Local Lemma serving_up : ready (reg w) = true.
Proof. destruct (ready (reg w)) eqn:E; [done|]. destruct (inv_down w (proj2 (good_inv _ HG)) E) as [Hn _]. by rewrite Hn in Hq. Qed.

Local Lemma serving_tail g : g ∈ q -> g ∈ queue w.
Proof. rewrite Hq, elem_of_cons. by right. Qed.

Local Lemma serving_queue ref : unsubscribing (reg w) (queue w) ref <-> (is_acquisition x = false /\ fl_ref x = ref) \/ unsubscribing (reg w) q ref.
Proof. rewrite Hq. by apply unsubscribing_tail. Qed.

(** The request leaves the queue; what the hub serves and what the client was told of it stay to be shown. *)
Lemma serve_good s' answered lost :
  misled w ⊆ lost -> answered = performed w \/ (answered = performed w ++ [f])%list ->
  (forall ref, ref ∈ s' -> ref ∈ lost \/ unsubscribing (reg w) q ref \/ claim (mkWorld (reg w) q s' answered lost) ref) ->
  (forall ref, claim (mkWorld (reg w) q s' answered lost) ref -> ref ∈ s' /\ ~ unsubscribing (reg w) q ref) ->
  Good (mkWorld (reg w) q s' answered lost).
Proof.
  intros Hl Ha H1 H2. pose proof serving_up as Hup. pose proof serving_tail as Ht. destruct HG as [[HS HV] HL HW]. split; [split; [done|]|done|].
  - split; simpl; try done.
    + by rewrite Hup.
    + intros g Hg. by apply HV, Ht.
    + intros g Hg. assert (g ∈ performed w \/ g = f) as [?| ->]; [|by apply HV|by eapply lookup_lt_Some].
      destruct Ha as [->| ->]; [by left|]. by rewrite elem_of_app, list_elem_of_singleton in Hg.
    + apply (queue_ordered_tail _ f). rewrite <- Hq. apply HV.
  - split; simpl.
    + pose proof (inv_once w HW) as Hn. rewrite Hq in Hn. destruct Ha as [->| ->]; [by apply NoDup_cons in Hn as [_ ?]|].
      rewrite app_assoc, (Permutation_app_comm _ [f]). exact Hn.
    + intros g y Hg Hy Hay. destruct (inv_waiting w HW g y (Ht g Hg) Hy Hay) as [?|?]; [by left|right; by apply Hl].
Qed.

(** A success is recorded while the client waits; one it gave up on it was misled about. *)
Local Lemma serve_acquisition : is_acquisition x = true -> Good (serve true f q x w).
Proof.
  intros Ha. pose proof (proj2 (good_inv _ HG)) as HV. pose proof serving_queue as Hu. unfold serve. rewrite Ha.
  set (answered := match fl_phase x with OnWire => (performed w ++ [f])%list | _ => performed w end).
  destruct (inv_queue w HV f) as (x0 & Hx0 & Eg); [rewrite Hq; by left|]. assert (x0 = x) as -> by congruence.
  assert (Hgrow : forall g, g ∈ performed w -> g ∈ answered).
  { intros g Hg. unfold answered. destruct (fl_phase x); try done. rewrite elem_of_app. by left. }
  assert (Hclaim : forall ref, claim w ref -> claim (mkWorld (reg w) q ({[fl_ref x]} ∪ subs w) answered (misled w)) ref).
  { intros ref [Hw|[g (y & Hy & Hay & Er & Egy & Hun)]]; [by left|]. right. exists g, y. repeat split; try done.
    destruct Hun as [[Hp Hg]|?]; [left; split; [done|by apply Hgrow]|by right]. }
  assert (Hwait : fl_phase x = OnWire \/ fl_ref x ∈ misled w).
  { apply (inv_waiting w (good_waiting _ HG) f x); [rewrite Hq; by left|done|done]. }
  apply serve_good; [done|unfold answered; destruct (fl_phase x); auto| |].
  - intros ref [->%elem_of_singleton|Href]%elem_of_union.
    + destruct Hwait as [Hp|?]; [|by left]. right. right. right. exists f, x. repeat split; try done. left. split; [done|].
      simpl. unfold answered. rewrite Hp, elem_of_app. right. by left.
    + destruct (inv_accounted w HV ref Href) as [H|[H|H]]; [by left| |right; right; by apply Hclaim].
      apply Hu in H as [[? _]|?]; [congruence|by right; left].
  - intros ref Hc. assert (claim w ref \/ (fl_phase x = OnWire /\ ref = fl_ref x)) as [Hcw|[Hp ->]].
    { destruct Hc as [Hw|[g (y & Hy & Hay & Er & Egy & Hun)]]; [by left; left|]. destruct (decide (g = f)) as [->|Hn].
      - simpl in Hy. assert (y = x) as -> by congruence. destruct Hun as [[Hp _]|Hl]; [by right|]. left. right. exists f, x. repeat split; try done. by right.
      - left. right. exists g, y. repeat split; try done. destruct Hun as [[Hp Hg]|?]; [|by right]. left. split; [done|].
        simpl in Hg. unfold answered in Hg. destruct (fl_phase x); try done. rewrite elem_of_app, list_elem_of_singleton in Hg. naive_solver. }
    + destruct (inv_claim w HV ref Hcw) as [Hin Hnu]. rewrite Hu in Hnu. split; [rewrite elem_of_union; by right|naive_solver].
    + split; [rewrite elem_of_union, elem_of_singleton; by left|]. exact (inv_order w HV [] f q x Hq Hx Ha Hp).
Qed.

Lemma serve_step ok : Good (serve ok f q x w).
Proof.
  pose proof (proj2 (good_inv _ HG)) as HV. pose proof serving_queue as Hu. unfold serve.
  assert (Hpop : forall s' lost, misled w ⊆ lost -> (forall ref, ref ∈ s' -> ref ∈ subs w) ->
    (forall ref, ref ∈ s' -> ref ∈ lost \/ ~ (is_acquisition x = false /\ fl_ref x = ref)) ->
    (forall ref, claim w ref -> ref ∈ subs w -> ~ (is_acquisition x = false /\ fl_ref x = ref) -> ref ∈ s') ->
    Good (mkWorld (reg w) q s' (performed w) lost)).
  { intros s' lost Hl Hs Hun Hin. apply serve_good; [done|by left| |].
    - intros ref Href. destruct (Hun ref Href) as [?|Hne]; [by left|].
      destruct (inv_accounted w HV ref (Hs ref Href)) as [H|[H|H]]; [left; by apply Hl| |by right; right].
      apply Hu in H as [?|?]; [done|by right; left].
    - intros ref Hc. destruct (inv_claim w HV ref Hc) as [Hr Hnu]. rewrite Hu in Hnu. split; [|naive_solver]. apply Hin; [done|done|naive_solver]. }
  destruct (is_acquisition x) eqn:Ha, ok.
  - pose proof (serve_acquisition Ha) as H. unfold serve in H. by rewrite Ha in H.
  - apply Hpop; try done. intros ref _. right. by intros [? _].
  - apply Hpop; [done| | |]; [set_solver|set_solver|set_solver].
  - apply Hpop; [apply union_subseteq_r|done| |done]. intros ref Href. destruct (decide (fl_ref x = ref)) as [<-|]; [left; set_solver|right; naive_solver].
Qed.
End serving.
