(* ===== verification/SubscriptionTheorems.v ===== *)
(** What the shared subscriptions of a connection promise, over every run of the client
    and the hub from a connection with no registry. *)

From S2P Require Import Prelude JsString Json JsMap TranscriptItems ThreadModel ThreadReach ThreadSubscription SubscriptionWorld SubscriptionSteps.

Local Open Scope string_scope.

(** ** Runs keep the invariant *)

Lemma initial_good : Good initial_world.
Proof.
  split; [split|by split|].
  - split; simpl; done || apply NoDup_nil_2.
  - split; simpl; try done.
    + intros f Hf. by apply not_elem_of_nil in Hf.
    + intros f Hf. by apply not_elem_of_nil in Hf.
    + intros ref [(i & m & Hi & _)|[f (x & Hx & _)]]; done.
  - split; [apply NoDup_nil_2|done].
Qed.

Lemma wire_good w : Good w -> Good (client (wireThreadSubscriptions (reg w)) w).
Proof.
  intros HG. unfold wireThreadSubscriptions. destruct (retired (reg w)) eqn:Hr; [by apply make_registry_good|].
  apply Good_client; [done|apply Inv_quiet; [apply HG|done]|done].
Qed.

Lemma client_step_good w s' : Good w -> client_step (reg w) s' -> Good (client s' w).
Proof.
  intros HG Hs. pose proof (good_inv w HG) as HI. assert (Hsame : Inv None (client (reg w) w)) by by apply Inv_quiet.
  destruct Hs as [|ref s' l Ha|l|l|i|l|f|f|f|r thread|ref threadId status].
  - by apply wire_good.
  - by eapply acquire_good.
  - apply Good_client; [done|by apply read_inv|apply read_calm].
  - apply Good_client; [done| |]; unfold ensure; destruct (leases (reg w) !! l) as [lease|]; try done;
      (destruct (active lease (reg w)); [|done]); [by apply ensure_member_inv|apply ensure_member_calm].
  - apply Good_client; [done| |]; unfold ensure_again; destruct (members (reg w) !! i) as [m|]; try done;
      (destruct (0 <? holders m)%nat; [|done]); [by apply ensure_member_inv|apply ensure_member_calm].
  - by apply release_good.
  - apply Good_client; [done|by apply land_inv|apply land_calm].
  - apply Good_client; [done|by apply settle_inv|apply settle_calm].
  - apply Good_client; [done|by apply tracked_inv|apply tracked_calm].
  - apply Good_client; [done|apply Inv_quiet; [done|apply read_answered_quiet]|apply read_answered_calm].
  - apply Good_client; [done|apply Inv_quiet; [done|apply admitStatus_quiet]|apply admitStatus_calm].
Qed.

(** An answer to a request the hub has taken, or to an unsubscription. *)
Lemma answer_good w f result : Good w -> Inv None (client (answer f result (reg w)) w) ->
  (forall x, flights (reg w) !! f = Some x -> f ∈ queue w -> is_acquisition x = false) ->
  Good (client (answer f result (reg w)) w).
Proof.
  intros HG HI Hf. assert (answer f result (reg w) = reg w \/ exists p, answer f result (reg w) = on_phase f p (reg w)) as [E|[p E]].
  { unfold answer. destruct (flights (reg w) !! f) as [[i ref gen kind [| | | |]]|]; auto. destruct kind, result; eauto. }
  - rewrite E in HI |- *. by apply Good_client.
  - rewrite E in HI |- *. pose proof (length_on_phase f p (reg w)) as El. rewrite client_same in HI |- * by done.
    destruct HG as [_ HL HW]. split; [done|by destruct HL|]. apply Waiting_phase; [done|done|]. intros x Hx Hq Ha. by rewrite (Hf x Hx Hq) in Ha.
Qed.

Lemma performed_taken w f : Waiting w -> f ∈ performed w -> f ∉ queue w.
Proof. intros HW Hp Hq. pose proof (inv_once w HW) as Hn. apply NoDup_app in Hn as (_ & Hd & _). by apply (Hd f). Qed.

Lemma world_step_good w w' : Good w -> world_step w w' -> Good w'.
Proof.
  intros HG Hs. pose proof (good_inv w HG) as HI.
  destruct Hs as [s' Hs|ok f q x Hq Hx|f thread Hf|f x Hx Ha|f x Hx Ha Hp| |].
  - by apply client_step_good.
  - by apply serve_step.
  - apply answer_good; [done|by apply answer_performed|]. intros x _ Hq. by apply (performed_taken w f) in Hf; [|apply HG].
  - apply answer_good; [done|by eapply answer_unsubscribed|]. intros y Hy _. by simplify_eq.
  - by apply reject_good.
  - by apply ready_good.
  - by apply disconnect_good.
Qed.

Lemma world_runs_good w w' : Good w -> runs w w' -> Good w'.
Proof. intros HG Hr. induction Hr as [|w w1 w2 Hs _ IH]; [done|]. apply IH. by eapply world_step_good. Qed.

Lemma reached_good w : runs initial_world w -> Good w.
Proof. apply world_runs_good, initial_good. Qed.

(** ** Released subscriptions *)

Definition all_released (s : Registry) : Prop := forall l x, leases s !! l = Some x -> released x = true.
Definition all_finished (s : Registry) : Prop := forall f x, flights s !! f = Some x -> fl_phase x = Finished.

Lemma finished_idle w i m : Good w -> all_released (reg w) -> all_finished (reg w) -> members (reg w) !! i = Some m -> busy m = false.
Proof.
  intros [[HS _] HL _] Hr Hf Hm. unfold busy.
  assert (holders m = 0%nat) as ->.
  { rewrite (inv_holders _ HL i m Hm). unfold held_by. rewrite filter_none; [done|].
    intros x [k Hk]%list_elem_of_lookup_1 [_ Hn]. by rewrite (Hr k x Hk) in Hn. }
  assert (outstandingAcquisitions m = 0%nat) as ->.
  { rewrite (inv_count _ _ HS i m Hm). unfold count_of. rewrite filter_none; [done|].
    intros x [k Hk]%list_elem_of_lookup_1 [_ Hn]. unfold counts in Hn. by rewrite (Hf k x Hk), andb_false_r in Hn. }
  destruct (transition m) as [f|] eqn:Et; [|done].
  destruct (inv_transition _ _ HS i m f Hm Et) as (x & Hx & _ & _ & Hp). by destruct (Hp (Hf f x Hx)).
Qed.

(** C12: no wire subscription outlives its holders. In every run of a connection, once
    every lease is released and every request settled, the membership table is empty,
    and a thread the hub still serves is one whose unsubscribe is on its way, or one the
    client was misled about: a subscribe it gave up waiting for, an unsubscribe the hub
    refused. *)
Theorem released_subscriptions_end w : runs initial_world w -> all_released (reg w) -> all_finished (reg w) ->
  table (reg w) = [] /\ forall ref, ref ∈ subs w -> ref ∈ misled w \/ unsubscribing (reg w) (queue w) ref.
Proof.
  intros Hrun Hr Hf. pose proof (reached_good w Hrun) as HG. destruct (good_inv w HG) as [HS HV].
  assert (Hidle : forall i m, members (reg w) !! i = Some m -> clean m /\ map_get (mb_ref m) (table (reg w)) <> Some i).
  { intros i m Hm. apply (inv_idle _ _ HS i m Hm); [done|by eapply finished_idle]. }
  split.
  - destruct (table (reg w)) as [|[k i] t] eqn:Et; [done|].
    assert (Hg : map_get k (table (reg w)) = Some i) by (apply map_get_elem_of; [apply HS|rewrite Et; by left]).
    destruct (inv_table _ _ HS k i Hg) as (m & Hm & <-). destruct (Hidle i m Hm) as [_ Hn]. rewrite <- Et in Hn. done.
  - intros ref Href. destruct (inv_accounted w HV ref Href) as [?|[?|Hc]]; [by left|by right|]. exfalso.
    destruct Hc as [(i & m & Hm & _ & Hw)|[f (x & Hx & _ & _ & _ & Hu)]].
    + destruct (Hidle i m Hm) as [[E1 E2] _]. by rewrite E1, E2 in Hw.
    + rewrite (Hf f x Hx) in Hu. by destruct Hu as [[? _]|[? ?]].
Qed.

(** C13: a plain read finds its thread subscribed. In every run, a read that a lease sends
    without subscribing names a thread the hub serves on this connection, and nothing
    the client has sent unsubscribes it before the read. *)
Theorem plain_reads_are_served w l r lease m : runs initial_world w ->
  leases (reg w) !! l = Some lease -> members (reg w) !! lease_member lease = Some m ->
  (read l (reg w)).2 = Reads r -> mb_ref m ∈ subs w /\ ~ unsubscribing (reg w) (queue w) (mb_ref m).
Proof.
  intros Hrun Hl Hm Hread. destruct (good_inv w (reached_good w Hrun)) as [HS HV]. apply (inv_claim w HV). left.
  exists (lease_member lease), m. split; [done|]. split; [done|]. unfold read in Hread. rewrite Hl, Hm in Hread.
  destruct (negb (active _ _)); [done|]. destruct (joined m); [done|]. destruct (subscribed m); [done|].
  simpl in Hread. by destruct (acquireWire _ _).
Qed.

(** ** Shared acquisitions *)

(** No acquisition retires before it starts. *)
Definition epochs (s : Registry) : Prop := forall i m, members s !! i = Some m -> (retiredEpoch m <= transitionEpoch m)%nat.

Lemma epochs_rest s s' : members s' = members s -> epochs s -> epochs s'.
Proof. intros E H i m. rewrite E. apply H. Qed.

Lemma epochs_member i f s : (forall m, (retiredEpoch m <= transitionEpoch m)%nat -> (retiredEpoch (f m) <= transitionEpoch (f m))%nat) ->
  epochs s -> epochs (on_member i f s).
Proof. intros Hf H j m' [[-> (m & Hm & ->)]|[_ Hm]]%on_member_spec; [by eapply Hf, H|by eapply H]. Qed.

Lemma epochs_send x s : epochs s -> epochs (send x s).1.
Proof. by apply epochs_rest. Qed.

Lemma epochs_phase f p s : epochs s -> epochs (on_phase f p s).
Proof. by apply epochs_rest. Qed.

Create HintDb epochs.
#[export] Hint Resolve epochs_member epochs_send epochs_phase : epochs.

Lemma epochs_forget i m s : epochs s -> epochs (forget i m s).
Proof. apply epochs_rest. apply forget_same. Qed.

Lemma epochs_releaseEmpty i s : epochs s -> epochs (releaseEmpty i s).
Proof.
  intros H. unfold releaseEmpty. destruct (members s !! i) as [m|]; [|done]. destruct (busy m); [done|].
  destruct (_ && _); [|by apply epochs_forget].
  unfold unsubscribe_wire, track. simpl. apply epochs_member; [done|]. apply (epochs_rest (on_member i (with_subscribed false false) s)); [done|].
  by apply epochs_member.
Qed.

Lemma epochs_acquireWire i s : epochs s -> epochs (acquireWire i s).1.
Proof.
  intros H. unfold acquireWire. destruct (members s !! i) as [m|] eqn:Hm; [|done]. pose proof (H i m Hm) as Hr.
  set (g := fun m0 => with_outstanding _ _). simpl. unfold track. apply epochs_member; [done|]. apply (epochs_rest (on_member i g s)); [done|].
  intros j m' [[-> (m0 & Hm0 & ->)]|[_ Hj]]%on_member_spec; [|by eapply H]. assert (m0 = m) as -> by congruence. simpl. lia.
Qed.

Lemma epochs_admitMetadata i thread gen rev s : epochs s -> epochs (admitMetadata i thread gen rev s).
Proof. intros H. unfold admitMetadata. destruct (members s !! i); [|done]. destruct (_ || _); [done|by apply epochs_member]. Qed.

Lemma epochs_admitMemberStatus i threadId status s : epochs s -> epochs (admitMemberStatus i threadId status s).
Proof. apply epochs_member. intros m. by destruct (metadata m). Qed.

Lemma epochs_foldl {A} (f : Registry -> A -> Registry) l s : (forall s a, epochs s -> epochs (f s a)) -> epochs s -> epochs (foldl f s l).
Proof. intros Hf. revert s. induction l as [|a l IH]; intros s Hs; [done|]. simpl. by apply IH, Hf. Qed.

Lemma epochs_depart m : (retiredEpoch m <= transitionEpoch m)%nat -> (retiredEpoch (depart m) <= transitionEpoch (depart m))%nat.
Proof. unfold depart. destruct (_ =? 0)%nat; [|done]. by destruct m as [? ? ? [?|] ? ? ? ? ? ? ?]. Qed.

Lemma epochs_land f s : epochs s -> epochs (land f s).
Proof.
  intros H. unfold land. destruct (flights s !! f) as [[i ref gen [epoch rev|] [| | | |]]|]; try done.
  destruct (members _ !! i); [|done]. destruct (_ && _); [by apply epochs_admitMetadata, epochs_member|]. destruct (_ || _); [done|by apply epochs_member].
Qed.

Lemma epochs_settle f s : epochs s -> epochs (settle f s).
Proof.
  intros H. unfold settle. destruct (flights s !! f) as [[i ref gen [epoch rev|] [| | | |]]|]; try done.
  destruct (members _ !! i); [|by apply epochs_member]. case_bool_decide; [by apply epochs_member|by apply epochs_releaseEmpty, epochs_member].
Qed.

Lemma epochs_tracked f s : epochs s -> epochs (tracked f s).
Proof.
  intros H. unfold tracked. destruct (flights s !! f) as [[i ref gen kind [| | | |]]|]; try done.
  destruct (members _ !! i); [|done]. destruct (_ || _); [done|by apply epochs_releaseEmpty, epochs_member].
Qed.

Lemma epochs_ensure_member i s : epochs s -> epochs (ensure_member i s).1.
Proof.
  intros H. unfold ensure_member. destruct (members s !! i) as [m|]; [|done]. destruct (joined m); [done|]. destruct (_ || _); [done|].
  pose proof (epochs_acquireWire i s H). by destruct (acquireWire i s).
Qed.

Lemma epochs_acquire ref s s' l : epochs s -> acquireThreadSubscription ref s = Some (s', l) -> epochs s'.
Proof.
  intros H. unfold acquireThreadSubscription. destruct (blank ref); [done|]. set (s0 := if retired s then _ else _).
  assert (H0 : epochs s0) by (unfold s0; by destruct (retired s)). unfold acquire. destruct (map_get ref (table s0)) as [i|]; intros [= <- <-].
  - apply (epochs_rest (on_member i (fun m => with_holders (S (holders m)) m) s0)); [done|by apply epochs_member].
  - set (s1 := put_table _ _). apply (epochs_rest (on_member (length (members s0)) (fun m => with_holders (S (holders m)) m) s1)); [done|].
    apply epochs_member; [done|]. intros j m [Hj|[_ Hj]]%lookup_app_Some; [by eapply H0|]. by apply list_lookup_singleton_Some in Hj as [_ <-].
Qed.

Lemma epochs_client s s' : epochs s -> client_step s s' -> epochs s'.
Proof.
  intros H Hs. destruct Hs as [|ref s' l Ha|l|l|i|l|f|f|f|r thread|ref threadId status].
  - unfold wireThreadSubscriptions. by destruct (retired s).
  - by eapply epochs_acquire.
  - unfold read. destruct (leases s !! l) as [lease|]; [|done]. destruct (negb _); [done|]. destruct (members s !! _) as [m|]; [|done].
    destruct (joined m); [done|]. destruct (negb _); [|done]. pose proof (epochs_acquireWire (lease_member lease) s H). by destruct (acquireWire _ s).
  - unfold ensure. destruct (leases s !! l) as [lease|]; [|done]. destruct (active _ _); [by apply epochs_ensure_member|done].
  - unfold ensure_again. destruct (members s !! i); [|done]. destruct (_ <? _)%nat; [by apply epochs_ensure_member|done].
  - unfold release. destruct (leases s !! l) as [[i [|]]|]; try done. apply epochs_releaseEmpty, epochs_member; [apply epochs_depart|done].
  - by apply epochs_land.
  - by apply epochs_settle.
  - by apply epochs_tracked.
  - unfold read_answered. destruct (plainReads s !! r); [|done]. destruct (leases s !! _) as [x|]; [|done]. destruct (released x); [done|by apply epochs_admitMetadata].
  - unfold admitStatus. destruct (retired s); [done|]. apply epochs_foldl.
    + intros s1 kv H1. case_bool_decide; [done|]. destruct (members s1 !! kv.2 ≫= metadata); [|done]. destruct (_ =? _); [by apply epochs_admitMemberStatus|done].
    + destruct (map_get ref (table s)); [by apply epochs_admitMemberStatus|done].
Qed.

Lemma epochs_state b s : epochs s -> epochs (onStateChange b s).
Proof.
  intros H. unfold onStateChange. destruct (_ || _); [done|]. apply epochs_foldl; [|done]. intros s1 kv H1. by apply epochs_releaseEmpty, epochs_member.
Qed.

Lemma epochs_answer f result s : epochs s -> epochs (answer f result s).
Proof. intros H. unfold answer. destruct (flights s !! f) as [[i ref gen kind [| | | |]]|]; try done. by destruct kind, result. Qed.

Lemma epochs_world w w' : epochs (reg w) -> world_step w w' -> epochs (reg w').
Proof.
  intros H Hs. destruct Hs as [s' Hs|ok f q x Hq Hx|f thread Hf|f x Hx Ha|f x Hx Ha Hp| |]; simpl; auto using epochs_answer, epochs_state.
  - by eapply epochs_client.
  - unfold serve. by destruct (is_acquisition x), ok.
Qed.

Lemma reached_epochs w : runs initial_world w -> epochs (reg w).
Proof.
  assert (H : forall w1 w2, runs w1 w2 -> epochs (reg w1) -> epochs (reg w2)).
  { intros w1 w2 Hr. induction Hr as [|w1 w2 w3 Hs _ IH]; [done|]. intros H1. apply IH. by eapply epochs_world. }
  intros Hr. by apply (H _ _ Hr).
Qed.

Lemma joined_fresh m f : (retiredEpoch m < transitionEpoch m)%nat -> joined (with_transition (Some f) m) = Some f.
Proof. intros H. unfold joined. simpl. by rewrite (proj2 (Nat.eqb_neq _ _)) by lia. Qed.

(** The unreleased leases of one ref hold one membership. *)
Lemma one_membership w l1 l2 i1 i2 m1 m2 : Good w -> leases (reg w) !! l1 = Some (mkLease i1 false) -> leases (reg w) !! l2 = Some (mkLease i2 false) ->
  members (reg w) !! i1 = Some m1 -> members (reg w) !! i2 = Some m2 -> mb_ref m2 = mb_ref m1 -> i2 = i1.
Proof.
  intros HG H1 H2 Hm1 Hm2 E. destruct (release_held w l1 i1 HG H1) as (x1 & Hx1 & _ & G1), (release_held w l2 i2 HG H2) as (x2 & Hx2 & _ & G2).
  congruence.
Qed.

(** C14: concurrent first reads share one subscribe. In every run, when a read of a lease
    sends the subscribing request, a read through any other unreleased lease of the same
    ref sends nothing and joins that request. *)
Theorem concurrent_reads_join w l1 l2 i1 i2 m1 m2 f s' : runs initial_world w ->
  leases (reg w) !! l1 = Some (mkLease i1 false) -> leases (reg w) !! l2 = Some (mkLease i2 false) ->
  members (reg w) !! i1 = Some m1 -> members (reg w) !! i2 = Some m2 -> mb_ref m2 = mb_ref m1 ->
  read l1 (reg w) = (s', Acquires f) -> read l2 s' = (s', Joins f) /\ length (flights s') = S f.
Proof.
  intros Hrun H1 H2 Hm1 Hm2 E Hread. pose proof (one_membership w l1 l2 i1 i2 m1 m2 (reached_good w Hrun) H1 H2 Hm1 Hm2 E) as ->.
  pose proof (reached_epochs w Hrun i1 m1 Hm1) as He. unfold read in Hread. rewrite H1 in Hread. simpl in Hread.
  destruct (negb (active _ (reg w))) eqn:Ha; [done|]. rewrite Hm1 in Hread. destruct (joined m1); [done|]. destruct (subscribed m1); [done|].
  simpl in Hread. unfold acquireWire in Hread. rewrite Hm1 in Hread. simpl in Hread. injection Hread as <- <-.
  split; [|simpl; rewrite length_app; simpl; lia]. unfold read. simpl. rewrite H2. simpl.
  apply negb_false_iff in Ha. unfold active in Ha |- *. simpl in *. rewrite Ha. simpl.
  rewrite !list_lookup_alter_eq, Hm1. cbn [fmap option_fmap option_map]. rewrite joined_fresh; [done|simpl; lia].
Qed.

(** ** A run *)

Module SubscriptionSample.

Definition status : ThreadStatus := mkStatus "idle" None.

Definition next (s : Registry) (w : World) : World := client s w.
Definition acquired (w : World) : World := match acquireThreadSubscription "s1" (reg w) with Some (s, _) => client s w | None => w end.
Definition hub (ok : bool) (w : World) : World :=
  match queue w with
  | f :: q => match flights (reg w) !! f with Some x => serve ok f q x w | None => w end
  | [] => w
  end.
Definition refused (f : nat) (w : World) : World := match flights (reg w) !! f with Some x => reject f x w | None => w end.

(** Two leases on a ready connection. *)
Definition opened : World := Eval vm_compute in
  let w := next (onStateChange true (reg initial_world)) initial_world in
  let w := next (wireThreadSubscriptions (reg w)) w in
  acquired (acquired w).

(** The first lease's read is sent. *)
Definition reading : World := Eval vm_compute in next (read 0 (reg opened)).1 opened.

(** The hub performed it and its callbacks ran. *)
Definition subscribed_world : World := Eval vm_compute in
  let w := hub true reading in
  let w := next (answer 0 (Some (ThreadReach.Sample.thread [])) (reg w)) w in
  let w := next (land 0 (reg w)) w in
  let w := next (settle 0 (reg w)) w in
  next (tracked 0 (reg w)) w.

(** Both leases are released and the unsubscribe is performed. *)
Definition left_world : World := Eval vm_compute in
  let w := subscribed_world in
  let w := next (release 0 (reg w)) w in
  let w := next (release 1 (reg w)) w in
  let w := hub true w in
  let w := next (answer 1 None (reg w)) w in
  next (tracked 1 (reg w)) w.

(** The read times out before the hub takes it: both leases leave, and the hub serves it
    after. *)
Definition abandoned : World := Eval vm_compute in
  let w := refused 0 reading in
  let w := next (settle 0 (reg w)) w in
  let w := next (tracked 0 (reg w)) w in
  let w := next (release 0 (reg w)) w in
  let w := next (release 1 (reg w)) w in
  hub true w.

End SubscriptionSample.

Import SubscriptionSample.

(** One step, and the world it leads to. *)
Ltac world_advance tac := eapply runs_cons; [tac|match goal with |- runs ?w _ => let v := eval vm_compute in w in replace w with v by (vm_compute; reflexivity) end].

Lemma runs_trans w1 w2 w3 : runs w1 w2 -> runs w2 w3 -> runs w1 w3.
Proof. intros H1 H2. induction H1 as [|w w' w'' Hs _ IH]; [done|]. eapply runs_cons; [done|auto]. Qed.

Lemma runs_opened : runs initial_world opened.
Proof.
  world_advance ltac:(apply step_ready). world_advance ltac:(apply step_client, do_wire).
  world_advance ltac:(eapply step_client, (do_acquire _ "s1"); reflexivity).
  world_advance ltac:(eapply step_client, (do_acquire _ "s1"); reflexivity). apply runs_nil.
Qed.

Lemma runs_reading : runs initial_world reading.
Proof. eapply runs_trans; [apply runs_opened|]. unfold opened. world_advance ltac:(apply step_client, (do_read _ 0)). apply runs_nil. Qed.

Lemma runs_subscribed : runs initial_world subscribed_world.
Proof.
  eapply runs_trans; [apply runs_reading|]. unfold reading.
  world_advance ltac:(eapply (step_serve _ true 0); reflexivity).
  world_advance ltac:(apply (step_performed _ 0 (ThreadReach.Sample.thread [])); left).
  world_advance ltac:(apply step_client, (do_land _ 0)).
  world_advance ltac:(apply step_client, (do_settle _ 0)).
  world_advance ltac:(apply step_client, (do_tracked _ 0)).
  apply runs_nil.
Qed.

Lemma runs_left : runs initial_world left_world.
Proof.
  eapply runs_trans; [apply runs_subscribed|]. unfold subscribed_world.
  world_advance ltac:(apply step_client, (do_release _ 0)). world_advance ltac:(apply step_client, (do_release _ 1)).
  world_advance ltac:(eapply (step_serve _ true 1); reflexivity). world_advance ltac:(eapply (step_unsubscribed _ 1); reflexivity).
  world_advance ltac:(apply step_client, (do_tracked _ 1)).
  apply runs_nil.
Qed.

Lemma runs_abandoned : runs initial_world abandoned.
Proof.
  eapply runs_trans; [apply runs_reading|]. unfold reading.
  world_advance ltac:(eapply (step_reject _ 0); reflexivity).
  world_advance ltac:(apply step_client, (do_settle _ 0)). world_advance ltac:(apply step_client, (do_tracked _ 0)).
  world_advance ltac:(apply step_client, (do_release _ 0)). world_advance ltac:(apply step_client, (do_release _ 1)).
  world_advance ltac:(eapply (step_serve _ true 0); reflexivity).
  apply runs_nil.
Qed.

Lemma left_released : all_released (reg left_world).
Proof. intros [|[|l]] x [= <-]; reflexivity. Qed.

Lemma left_finished : all_finished (reg left_world).
Proof. intros [|[|f]] x [= <-]; reflexivity. Qed.

Lemma released_subscriptions_end_witness : table (reg left_world) = [] /\
  forall ref, ref ∈ subs left_world -> ref ∈ misled left_world \/ unsubscribing (reg left_world) (queue left_world) ref.
Proof. exact (released_subscriptions_end left_world runs_left left_released left_finished). Defined.

Lemma plain_reads_are_served_witness : (read 1 (reg subscribed_world)).2 = Reads 0 /\
  "s1" ∈ subs subscribed_world /\ ~ unsubscribing (reg subscribed_world) (queue subscribed_world) "s1".
Proof.
  split; [reflexivity|].
  exact (plain_reads_are_served subscribed_world 1 0 _ _ runs_subscribed eq_refl eq_refl eq_refl).
Defined.

Lemma concurrent_reads_join_witness : (read 0 (reg opened)).2 = Acquires 0 /\
  read 1 (read 0 (reg opened)).1 = ((read 0 (reg opened)).1, Joins 0).
Proof.
  split; [reflexivity|].
  exact (proj1 (concurrent_reads_join opened 0 1 0 0 _ _ 0 _ runs_opened eq_refl eq_refl eq_refl eq_refl eq_refl eq_refl)).
Defined.

(** A subscribe the client gave up on and the hub performed later stays on the wire: every
    lease is released, nothing is in flight or queued, the table is empty, and the hub
    still serves the thread. *)
Lemma abandoned_subscribe_stays : runs initial_world abandoned /\ all_released (reg abandoned) /\ all_finished (reg abandoned) /\
  queue abandoned = [] /\ table (reg abandoned) = [] /\ "s1" ∈ subs abandoned /\ ready (reg abandoned) = true.
Proof.
  split; [apply runs_abandoned|]. split; [intros [|[|l]] x [= <-]; reflexivity|]. split; [intros [|f] x [= <-]; reflexivity|].
  split; [reflexivity|]. split; [reflexivity|]. split; [|reflexivity]. apply (bool_decide_unpack _). vm_compute. exact I.
Qed.
