(* ===== verification/AppwireClient.v ===== *)
(** The connection to the hub (appwire-client/typescript/client.ts, class AppwireClient).

    An await splits a method: what it captured is a flow of the state, and its
    continuation an event of its own. Subscribers run inside the methods and may call
    the client back; what they call, whether a socket can be made or takes a frame, and
    the random number of a backoff are answers of the environment, numbered by how often
    it was asked. *)

From S2P Require Import Prelude JsString Json Wire.
From stdpp Require Import pretty.

Local Open Scope string_scope.

(** ** Data *)

Inductive ConnectionState := idle | connecting | ready | reconnecting | closed.

#[export] Instance ConnectionState_eq_dec : EqDecision ConnectionState.
Proof. solve_decision. Defined.

Inductive TerminalReason := protocol.

Definition DEFAULT_REQUEST_TIMEOUT_MS : Z := 30000.
Definition RESUME_REQUEST_TIMEOUT_MS : Z := 600000.
Definition HEARTBEAT_INTERVAL_MS : Z := 20000.
Definition HEARTBEAT_TIMEOUT_MS : Z := 10000.
Definition RECONNECT_BASE_MS : Z := 250.
Definition RECONNECT_MAX_MS : Z := 5000.
Definition APPWIRE_PROTOCOL_VERSION : string := "evener-appwire-v7".

Definition READY_EXEMPT_METHODS : list string := ["initialize"].
Definition COMPLETION_OWNED_METHODS : list string := ["thread/resume"].

(** Why a handshake failed: the three a retry cannot fix, and anything else. *)
Inductive HandshakeError :=
  | ProtocolVersionMismatchError (received : string)
  | InitializeValidationError (field : string)
  | HandshakeRejectedError (cause : rejection)
  | OtherError (e : rejection).

(** Who awaits a request's answer. *)
Inductive Awaiter := CallerAwaits | HandshakeAwaits (f : nat) | HeartbeatAwaits | ResumeAwaits.

(** A request on the wire, its timer armed; [sentOn] is the socket it captured. *)
Record PendingRequest := mkPending { method : string; awaiter : Awaiter; sentOn : nat; explicitTimeout : option Z }.

Inductive Outcome := Resolved (result : json) | Rejected (e : rejection).

Inductive Frame := RequestFrame (id : nat) (method : string) | InitializedFrame.

(** The handlers of a socket: those of [waitForOpen], by the handshake that waits, or
    those set once it opened. *)
Inductive SocketHandlers := Detached | WaitsForOpen (f : nat) | Attached.

Record Socket := mkSocket { onmessage : bool; handlers : SocketHandlers; closeCalled : bool }.

(** How far a [dialAndHandshake] and its caller came. *)
Inductive HandshakePhase := Opening | Opened | Initializing (id : nat) | Failed (e : HandshakeError) | Succeeded | Over.

(** [first]: dialled by [performHandshake], otherwise by [attemptReconnect]. *)
Record Handshake := mkHandshake { dialled : option nat; first : bool; phase : HandshakePhase }.

(** How far a [resumeThread] came. *)
Inductive ResumePhase :=
  | AwaitsConnection | Connected | ConnectionFailed (e : rejection) | Revalidating | AwaitsResume (id : nat).

(** What a caller or a subscriber may call. *)
Inductive Call :=
  | Connect | Close | RetryNow | Request (m : string) (timeoutMs : option Z) | Resume.

Record Client := mkClient {
  connectionState : ConnectionState;
  socket : option nat;
  sockets : list Socket;
  nextId : nat;
  pending : list (nat * PendingRequest);
  (** requests answered, in the order their promises settled *)
  settled : list (nat * Outcome);
  (** heartbeats whose rejection is due, by the socket they captured *)
  pingFailures : list nat;
  handshakes : list Handshake;
  handshakeReject : option nat;
  connectPromise : bool;
  latestInitialize : option json;
  heartbeatTimer : bool;
  reconnectTimer : option Z;
  reconnectAttempts : nat;
  reconnectInFlight : bool;
  terminalReason : option TerminalReason;
  resume : option ResumePhase;
  published : list ConnectionState;
  sent : list (nat * Frame);
  tick : nat
}.

(** ** Setters *)

Definition put_state (v : ConnectionState) (s : Client) : Client :=
  mkClient v (socket s) (sockets s) (nextId s) (pending s) (settled s) (pingFailures s) (handshakes s)
    (handshakeReject s) (connectPromise s) (latestInitialize s) (heartbeatTimer s) (reconnectTimer s) (reconnectAttempts s) (reconnectInFlight s) (terminalReason s) (resume s) (published s) (sent s) (tick s).
Definition put_socket (v : option nat) (s : Client) : Client :=
  mkClient (connectionState s) v (sockets s) (nextId s) (pending s) (settled s) (pingFailures s) (handshakes s)
    (handshakeReject s) (connectPromise s) (latestInitialize s) (heartbeatTimer s) (reconnectTimer s) (reconnectAttempts s) (reconnectInFlight s) (terminalReason s) (resume s) (published s) (sent s) (tick s).
Definition put_sockets (v : list Socket) (s : Client) : Client :=
  mkClient (connectionState s) (socket s) v (nextId s) (pending s) (settled s) (pingFailures s) (handshakes s)
    (handshakeReject s) (connectPromise s) (latestInitialize s) (heartbeatTimer s) (reconnectTimer s) (reconnectAttempts s) (reconnectInFlight s) (terminalReason s) (resume s) (published s) (sent s) (tick s).
Definition put_nextId (v : nat) (s : Client) : Client :=
  mkClient (connectionState s) (socket s) (sockets s) v (pending s) (settled s) (pingFailures s) (handshakes s)
    (handshakeReject s) (connectPromise s) (latestInitialize s) (heartbeatTimer s) (reconnectTimer s) (reconnectAttempts s) (reconnectInFlight s) (terminalReason s) (resume s) (published s) (sent s) (tick s).
Definition put_pending (v : list (nat * PendingRequest)) (s : Client) : Client :=
  mkClient (connectionState s) (socket s) (sockets s) (nextId s) v (settled s) (pingFailures s) (handshakes s)
    (handshakeReject s) (connectPromise s) (latestInitialize s) (heartbeatTimer s) (reconnectTimer s) (reconnectAttempts s) (reconnectInFlight s) (terminalReason s) (resume s) (published s) (sent s) (tick s).
Definition put_settled (v : list (nat * Outcome)) (s : Client) : Client :=
  mkClient (connectionState s) (socket s) (sockets s) (nextId s) (pending s) v (pingFailures s) (handshakes s)
    (handshakeReject s) (connectPromise s) (latestInitialize s) (heartbeatTimer s) (reconnectTimer s) (reconnectAttempts s) (reconnectInFlight s) (terminalReason s) (resume s) (published s) (sent s) (tick s).
Definition put_pingFailures (v : list nat) (s : Client) : Client :=
  mkClient (connectionState s) (socket s) (sockets s) (nextId s) (pending s) (settled s) v (handshakes s)
    (handshakeReject s) (connectPromise s) (latestInitialize s) (heartbeatTimer s) (reconnectTimer s) (reconnectAttempts s) (reconnectInFlight s) (terminalReason s) (resume s) (published s) (sent s) (tick s).
Definition put_handshakes (v : list Handshake) (s : Client) : Client :=
  mkClient (connectionState s) (socket s) (sockets s) (nextId s) (pending s) (settled s) (pingFailures s) v
    (handshakeReject s) (connectPromise s) (latestInitialize s) (heartbeatTimer s) (reconnectTimer s) (reconnectAttempts s) (reconnectInFlight s) (terminalReason s) (resume s) (published s) (sent s) (tick s).
Definition put_reject (v : option nat) (s : Client) : Client :=
  mkClient (connectionState s) (socket s) (sockets s) (nextId s) (pending s) (settled s) (pingFailures s)
    (handshakes s) v (connectPromise s) (latestInitialize s) (heartbeatTimer s) (reconnectTimer s) (reconnectAttempts s) (reconnectInFlight s) (terminalReason s) (resume s) (published s) (sent s) (tick s).
Definition put_promise (v : bool) (s : Client) : Client :=
  mkClient (connectionState s) (socket s) (sockets s) (nextId s) (pending s) (settled s) (pingFailures s)
    (handshakes s) (handshakeReject s) v (latestInitialize s) (heartbeatTimer s) (reconnectTimer s) (reconnectAttempts s) (reconnectInFlight s) (terminalReason s) (resume s) (published s) (sent s) (tick s).
Definition put_initialize (v : option json) (s : Client) : Client :=
  mkClient (connectionState s) (socket s) (sockets s) (nextId s) (pending s) (settled s) (pingFailures s)
    (handshakes s) (handshakeReject s) (connectPromise s) v (heartbeatTimer s) (reconnectTimer s) (reconnectAttempts s) (reconnectInFlight s) (terminalReason s) (resume s) (published s) (sent s) (tick s).
Definition put_heartbeat (v : bool) (s : Client) : Client :=
  mkClient (connectionState s) (socket s) (sockets s) (nextId s) (pending s) (settled s) (pingFailures s)
    (handshakes s) (handshakeReject s) (connectPromise s) (latestInitialize s) v (reconnectTimer s) (reconnectAttempts s) (reconnectInFlight s) (terminalReason s) (resume s) (published s) (sent s) (tick s).
Definition put_timer (v : option Z) (s : Client) : Client :=
  mkClient (connectionState s) (socket s) (sockets s) (nextId s) (pending s) (settled s) (pingFailures s)
    (handshakes s) (handshakeReject s) (connectPromise s) (latestInitialize s) (heartbeatTimer s) v (reconnectAttempts s) (reconnectInFlight s) (terminalReason s) (resume s) (published s) (sent s) (tick s).
Definition put_attempts (v : nat) (s : Client) : Client :=
  mkClient (connectionState s) (socket s) (sockets s) (nextId s) (pending s) (settled s) (pingFailures s)
    (handshakes s) (handshakeReject s) (connectPromise s) (latestInitialize s) (heartbeatTimer s) (reconnectTimer s) v (reconnectInFlight s) (terminalReason s) (resume s) (published s) (sent s) (tick s).
Definition put_inflight (v : bool) (s : Client) : Client :=
  mkClient (connectionState s) (socket s) (sockets s) (nextId s) (pending s) (settled s) (pingFailures s)
    (handshakes s) (handshakeReject s) (connectPromise s) (latestInitialize s) (heartbeatTimer s) (reconnectTimer s) (reconnectAttempts s) v (terminalReason s) (resume s) (published s) (sent s) (tick s).
Definition put_terminal (v : option TerminalReason) (s : Client) : Client :=
  mkClient (connectionState s) (socket s) (sockets s) (nextId s) (pending s) (settled s) (pingFailures s)
    (handshakes s) (handshakeReject s) (connectPromise s) (latestInitialize s) (heartbeatTimer s) (reconnectTimer s) (reconnectAttempts s) (reconnectInFlight s) v (resume s) (published s) (sent s) (tick s).
Definition put_resume (v : option ResumePhase) (s : Client) : Client :=
  mkClient (connectionState s) (socket s) (sockets s) (nextId s) (pending s) (settled s) (pingFailures s)
    (handshakes s) (handshakeReject s) (connectPromise s) (latestInitialize s) (heartbeatTimer s) (reconnectTimer s) (reconnectAttempts s) (reconnectInFlight s) (terminalReason s) v (published s) (sent s) (tick s).
Definition put_published (v : list ConnectionState) (s : Client) : Client :=
  mkClient (connectionState s) (socket s) (sockets s) (nextId s) (pending s) (settled s) (pingFailures s)
    (handshakes s) (handshakeReject s) (connectPromise s) (latestInitialize s) (heartbeatTimer s) (reconnectTimer s) (reconnectAttempts s) (reconnectInFlight s) (terminalReason s) (resume s) v (sent s) (tick s).
Definition put_sent (v : list (nat * Frame)) (s : Client) : Client :=
  mkClient (connectionState s) (socket s) (sockets s) (nextId s) (pending s) (settled s) (pingFailures s)
    (handshakes s) (handshakeReject s) (connectPromise s) (latestInitialize s) (heartbeatTimer s) (reconnectTimer s) (reconnectAttempts s) (reconnectInFlight s) (terminalReason s) (resume s) (published s) v (tick s).
Definition put_tick (v : nat) (s : Client) : Client :=
  mkClient (connectionState s) (socket s) (sockets s) (nextId s) (pending s) (settled s) (pingFailures s)
    (handshakes s) (handshakeReject s) (connectPromise s) (latestInitialize s) (heartbeatTimer s) (reconnectTimer s) (reconnectAttempts s) (reconnectInFlight s) (terminalReason s) (resume s) (published s) (sent s) v.

(** ** The initialize response *)

Definition INITIALIZE_RESPONSE_KEYS := ["serverInfo"; "protocolVersion"; "sourceId"; "features"].
Definition INITIALIZE_RESPONSE_OPTIONAL_KEYS := ["navigation"].
Definition FEATURE_KEYS :=
  ["threadList"; "threadTurnsList"; "turnStart"; "turnSteer"; "threadClear"; "threadShutdown"; "forkFromTurn"; "tasks";
   "transcriptList"; "modelList"; "directoryComplete"; "auth"].
Definition FEATURE_OPTIONAL_KEYS := ["transcriptDisplaySettings"; "keybindingsSettings"].

Definition hasExactKeys (value : json_object) (required optional : list string) : bool :=
  forallb (fun k => obj_has k value) required && forallb (fun k => str_in k (required ++ optional)%list) (obj_keys value).

(** [typeof v === "string" && v.trim() !== ""]. *)
Definition filled (v : option json) : bool := match v with Some (JStr s) => negb (blank s) | _ => false end.
Definition is_boolean (v : option json) : bool := match v with Some (JBool _) => true | _ => false end.

Definition MAX_SAFE_INTEGER : Z := 2 ^ 53 - 1.

(** [Number.isSafeInteger(v) && v >= least]. *)
Definition safe_from (least : Z) (v : option json) : bool :=
  match v with Some (JNum n) => (Z.abs n <=? MAX_SAFE_INTEGER)%Z && (least <=? n)%Z | _ => false end.

(** The field a navigation object is refused at. *)
Definition navigation_error (v : option json) : option string :=
  match v with
  | None => None
  | Some (JObj n) =>
      if obj_has "readVersions" n &&
         negb (match as_array (obj_get "readVersions" n) with
               | Some l => forallb (fun v => safe_from 1 (Some v)) l
               | None => false
               end) then Some "navigation.readVersions"
      else if safe_from 1 (obj_get "version" n) && filled (obj_get "generationId" n) && safe_from 0 (obj_get "sequence" n)
      then None else Some "navigation"
  | Some _ => Some "navigation"
  end.

(** The field the response is refused at, or its protocol version. *)
Definition decodeInitializeResponse (value : json) : string + string :=
  match value with
  | JObj o =>
      if negb (hasExactKeys o INITIALIZE_RESPONSE_KEYS INITIALIZE_RESPONSE_OPTIONAL_KEYS) then inl "response"
      else if negb (match obj_get "serverInfo" o with
                    | Some (JObj i) => filled (obj_get "name" i) && filled (obj_get "version" i)
                    | _ => false
                    end) then inl "serverInfo"
      else if negb (filled (obj_get "protocolVersion" o)) then inl "protocolVersion"
      else if negb (filled (obj_get "sourceId" o)) then inl "sourceId"
      else if negb (match obj_get "features" o with
                    | Some (JObj f) =>
                        forallb (fun k => is_boolean (obj_get k f)) FEATURE_KEYS &&
                        forallb (fun k => negb (obj_has k f) || is_boolean (obj_get k f)) FEATURE_OPTIONAL_KEYS
                    | _ => false
                    end) then inl "features"
      else match navigation_error (obj_get "navigation" o) with
           | Some field => inl field
           | None => inr (default "" (as_string (obj_get "protocolVersion" o)))
           end
  | _ => inl "response"
  end.

(** ** Requests *)

Definition isClosed (s : Client) : bool := bool_decide (connectionState s = closed).
Definition tock (s : Client) : Client := put_tick (S (tick s)) s.

Definition outcome (id : nat) (s : Client) : option Outcome :=
  (fun x => x.2.2) <$> list_find (fun x => x.1 = id) (settled s).

(** A request leaves [pending] with its promise settled; a rejected heartbeat has its
    handler run later. *)
Definition settle_request (id : nat) (p : PendingRequest) (o : Outcome) (s : Client) : Client :=
  let s := put_pending (filter (fun x => x.1 <> id) (pending s)) s in
  let s := put_settled (settled s ++ [(id, o)])%list s in
  match awaiter p, o with
  | HeartbeatAwaits, Rejected _ => put_pingFailures (pingFailures s ++ [sentOn p])%list s
  | _, _ => s
  end.

Definition failAllPending (e : rejection) (s : Client) : Client :=
  foldl (fun s x => settle_request x.1 x.2 (Rejected e) s) s (pending s).

Definition on_socket (k : nat) (f : Socket -> Socket) (s : Client) : Client := put_sockets (alter f k (sockets s)) s.
Definition on_handshake (f : nat) (p : HandshakePhase) (s : Client) : Client :=
  put_handshakes (alter (fun h => mkHandshake (dialled h) (first h) p) f (handshakes s)) s.

Definition detachSocketHandlers (k : nat) : Client -> Client := on_socket k (fun x => mkSocket false Detached (closeCalled x)).
Definition close_socket (k : nat) : Client -> Client := on_socket k (fun x => mkSocket (onmessage x) (handlers x) true).

Definition disarmHeartbeat : Client -> Client := put_heartbeat false.
Definition armHeartbeat : Client -> Client := put_heartbeat true.
Definition disarmReconnect : Client -> Client := put_timer None.

(** Detached, then closed as far as it can be. *)
Definition discard (held : option nat) (s : Client) : Client :=
  match held with Some k => close_socket k (detachSocketHandlers k s) | None => s end.

Definition teardownFailedSocket (s : Client) : Client := discard (socket s) (put_socket None s).

Definition closed_error := ConnectionClosedError "AppwireClient: closed".
Definition socket_closed (code : Z) := PlainError ("AppwireClient: socket closed (code " ++ pretty code ++ ")").

(** What [waitForOpen] hangs on the socket and on [handshakeReject]. *)
Definition settle_open (f : nat) (err : option rejection) (s : Client) : Client :=
  let s := put_reject None s in
  match handshakes s !! f with
  | Some (mkHandshake _ _ Opening) =>
      on_handshake f (match err with None => Opened | Some e => Failed (OtherError e) end) s
  | _ => s
  end.

(** [abortHandshake]: a handshake that waits for its socket is rejected. *)
Definition abortHandshake (s : Client) : Client :=
  match handshakeReject s with Some f => settle_open f (Some closed_error) s | None => s end.

(** [deterministic]. *)
Definition backoff (attempts : nat) : Z := Z.min (RECONNECT_BASE_MS * 2 ^ Z.of_nat attempts) RECONNECT_MAX_MS.

(** The delay in whole milliseconds, [random] in units of 2^-53. *)
Definition reconnect_delay (attempts : nat) (random : Z) : Z :=
  let half := (backoff attempts / 2)%Z in (half + random * half / 2 ^ 53)%Z.

Definition is_protocol_failure (e : HandshakeError) : bool := match e with OtherError _ => false | _ => true end.

Definition noteProtocolFailure (e : HandshakeError) (s : Client) : Client :=
  if is_protocol_failure e then put_terminal (Some protocol) s else s.

Definition error_of (e : HandshakeError) : rejection :=
  match e with
  | ProtocolVersionMismatchError received =>
      PlainError ("AppwireClient: expected protocol " ++ APPWIRE_PROTOCOL_VERSION ++ ", received " ++ received)
  | InitializeValidationError field => PlainError ("invalid initialize response at " ++ field)
  | HandshakeRejectedError cause => PlainError ("AppwireClient: the server rejected the handshake: " ++ errorText cause)
  | OtherError e => e
  end.

(** [WireError] of a frame's error member; its texts are texts. *)
Definition wire_error (e : json) : rejection :=
  match e with
  | JObj o => WireError (default "appwire error" (as_string (obj_get "message" o))) (default 0%Z (as_number (obj_get "code" o))) (obj_get "data" o)
  | _ => WireError "appwire error" 0 None
  end.

(** What a socket delivers. *)
Inductive FrameData := NotText | Unparseable | Parsed (v : json).

Definition state_text (c : ConnectionState) : string :=
  match c with idle => "idle" | connecting => "connecting" | ready => "ready" | reconnecting => "reconnecting" | closed => "closed" end.

(** A timer that runs out takes the default when the caller named none. *)
Definition request_timeout (p : PendingRequest) : Z :=
  default (if str_in (method p) COMPLETION_OWNED_METHODS then RESUME_REQUEST_TIMEOUT_MS else DEFAULT_REQUEST_TIMEOUT_MS) (explicitTimeout p).

(** The page, the sockets and Math.random, by how often they were asked. *)
Record Environment := mkEnvironment {
  socketFactory : nat -> bool; takes : nat -> bool; random : nat -> Z; subscribers : nat -> list Call }.

Definition quoted (s : string) : string := String "034"%char (s ++ String "034"%char EmptyString).

Section client.
Context (env : Environment).

(** [socket.send]: false when it throws. *)
Definition transmit (k : nat) (frame : Frame) (s : Client) : Client * bool :=
  if takes env (tick s) then (tock (put_sent (sent s ++ [(k, frame)])%list s), true) else (tock s, false).

(** The promise of [request]: rejected at once, or that of an id. *)
Definition request (m : string) (timeoutMs : option Z) (a : Awaiter) (s : Client) : Client * (rejection + nat) :=
  if negb (bool_decide (connectionState s = ready)) && negb (str_in m READY_EXEMPT_METHODS)
  then (s, inl (PlainError ("AppwireClient: cannot call " ++ quoted m ++ " while state is " ++ quoted (state_text (connectionState s)))))
  else
    match socket s with
    | None => (s, inl (PlainError ("AppwireClient: cannot call " ++ quoted m ++ "; not connected")))
    | Some k =>
        let id := nextId s in
        let p := mkPending m a k timeoutMs in
        let s := put_pending (pending s ++ [(id, p)])%list (put_nextId (S id) s) in
        let '(s, took) := transmit k (RequestFrame id m) s in
        (if took then s else settle_request id p (Rejected (PlainError "send failed")) s, inr id)
    end.

(** [dialAndHandshake] up to its first await. *)
Definition dial (isFirst : bool) (s : Client) : Client :=
  let f := length (handshakes s) in
  let begun (k : option nat) (p : HandshakePhase) (s : Client) := put_handshakes (handshakes s ++ [mkHandshake k isFirst p])%list s in
  if isClosed s then begun None (Failed (OtherError closed_error)) s
  else if socketFactory env (tick s) then
    let k := length (sockets s) in
    begun (Some k) Opening
      (put_reject (Some f) (put_socket (Some k) (put_sockets (sockets s ++ [mkSocket true (WaitsForOpen f) false])%list (tock s))))
  else begun None (Failed (OtherError (PlainError "socket factory"))) (tock s).

Definition attemptReconnect (s : Client) : Client :=
  if negb (bool_decide (connectionState s = reconnecting)) || reconnectInFlight s then s else dial false (put_inflight true s).

Definition retryNow (s : Client) : Client :=
  if negb (bool_decide (connectionState s = reconnecting)) || reconnectInFlight s then s else attemptReconnect (disarmReconnect s).

Definition sendHeartbeat (s : Client) : Client :=
  if negb (bool_decide (connectionState s = ready)) then s
  else match socket s with
       | None => s
       | Some _ => (request "ping" (Some HEARTBEAT_TIMEOUT_MS) HeartbeatAwaits s).1
       end.

(** *** Methods that publish a state *)

Section publishing.
Context (setState : ConnectionState -> Client -> Client).

Definition scheduleReconnect (s : Client) : Client :=
  if isClosed s then s
  else
    let delay := reconnect_delay (reconnectAttempts s) (random env (tick s)) in
    setState reconnecting (put_timer (Some delay) (put_attempts (S (reconnectAttempts s)) (tock s))).

Definition handleSocketLoss (k : nat) (code : Z) (s : Client) : Client :=
  if negb (bool_decide (socket s = Some k)) || isClosed s then s
  else
    let s := failAllPending (socket_closed code) (detachSocketHandlers k (put_socket None s)) in
    match connectionState s with
    | ready => scheduleReconnect (disarmHeartbeat s)
    | connecting => setState closed s
    | _ => s
    end.

Definition performHandshake (s : Client) : Client := dial true (setState connecting s).

(** A closed client's promise is rejected, a later one's is the first one's. *)
Definition connect (s : Client) : Client :=
  if isClosed s || connectPromise s then s else put_promise true (performHandshake s).

Definition close (s : Client) : Client :=
  if isClosed s then s
  else
    let s := discard (socket s) (abortHandshake (put_socket None s)) in
    setState closed (failAllPending closed_error (disarmReconnect (disarmHeartbeat s))).

(** [resumeThread] up to its first await. *)
Definition resumeThread (s : Client) : Client :=
  match resume s, connectionState s, socket s with
  | None, ready, Some k =>
      retryNow (close_socket k (handleSocketLoss k 1000 (put_resume (Some AwaitsConnection) s)))
  | _, _, _ => s
  end.

Definition call (c : Call) (s : Client) : Client :=
  match c with
  | Connect => connect s
  | Close => close s
  | RetryNow => retryNow s
  | Request m timeoutMs => (request m timeoutMs CallerAwaits s).1
  | Resume => resumeThread s
  end.

(** The subscribers of one publication, each a call. *)
Definition react (s : Client) : Client := foldl (fun s c => call c s) (tock s) (subscribers env (tick s)).

End publishing.

Definition enter (next : ConnectionState) (s : Client) : Client :=
  put_published (published s ++ [next])%list (put_state next s).

(** The listeners of a resume that awaits its connection. *)
Definition resume_hears (next : ConnectionState) (s : Client) : Client :=
  match resume s, next with
  | Some AwaitsConnection, ready => put_resume (Some Connected) s
  | Some AwaitsConnection, closed => put_resume (Some (ConnectionFailed closed_error)) s
  | _, _ => s
  end.

(** [fuel] bounds how deep subscribers nest. *)
Fixpoint setState (fuel : nat) (next : ConnectionState) (s : Client) : Client :=
  if bool_decide (connectionState s = next) then s
  else
    match fuel with
    | O => resume_hears next (enter next s)
    | S fuel =>
        let s := react (setState fuel) (enter next s) in
        resume_hears next (if bool_decide (next = ready) then react (setState fuel) s else s)
    end.

(** *** Continuations *)

Section continuing.
Context (publish : ConnectionState -> Client -> Client).

(** The catch clause of [performHandshake]. *)
Definition first_handshake_failed (e : HandshakeError) (s : Client) : Client :=
  publish closed (failAllPending (error_of e) (noteProtocolFailure e (teardownFailedSocket s))).

(** The catch and finally clauses of [attemptReconnect]. *)
Definition attempt_failed (e : HandshakeError) (s : Client) : Client :=
  put_inflight false
    (if isClosed s then s
     else
       let s := noteProtocolFailure e (teardownFailedSocket s) in
       if is_protocol_failure e then publish closed s else scheduleReconnect publish s).

Definition handshake_failed (isFirst : bool) (e : HandshakeError) (s : Client) : Client :=
  if isFirst then first_handshake_failed e s else attempt_failed e s.

Definition enterReady (v : json) (s : Client) : Client := publish ready (put_promise true (put_initialize (Some v) s)).

(** The response was decoded: the rest of [dialAndHandshake]. *)
Definition handshake_succeeded (f : nat) (k : nat) (v : json) (s : Client) : Client :=
  let '(s, took) := match socket s with Some j => transmit j InitializedFrame s | None => (s, true) end in
  if negb took then on_handshake f (Failed (OtherError (PlainError "send failed"))) s
  else
    let s := enterReady v (on_handshake f Succeeded s) in
    let s := if negb (isClosed s) && bool_decide (socket s = Some k) then react publish s else s in
    if isClosed s then s else armHeartbeat s.

(** What the initialize request came to. *)
Definition initialize_settled (f k : nat) (o : Outcome) (s : Client) : Client :=
  match o with
  | Rejected e =>
      on_handshake f (Failed (match e with
                              | WireError _ code _ => if (code =? CODE_INVALID_REQUEST)%Z then HandshakeRejectedError e else OtherError e
                              | _ => OtherError e
                              end)) s
  | Resolved v =>
      match decodeInitializeResponse v with
      | inl field => on_handshake f (Failed (InitializeValidationError field)) s
      | inr version =>
          if String.eqb version APPWIRE_PROTOCOL_VERSION then handshake_succeeded f k v s
          else on_handshake f (Failed (ProtocolVersionMismatchError version)) s
      end
  end.

(** A handshake whose await settled goes on to its next await. *)
Definition proceed (f : nat) (s : Client) : Client :=
  match handshakes s !! f with
  | Some (mkHandshake (Some k) _ Opened) =>
      let s := on_socket k (fun x => mkSocket (onmessage x) Attached (closeCalled x)) s in
      let '(s, r) := request "initialize" None (HandshakeAwaits f) s in
      on_handshake f (match r with inl e => Failed (OtherError e) | inr id => Initializing id end) s
  | Some (mkHandshake (Some k) _ (Initializing id)) =>
      match outcome id s with Some o => initialize_settled f k o s | None => s end
  | Some (mkHandshake _ isFirst (Failed e)) => handshake_failed isFirst e (on_handshake f Over s)
  | Some (mkHandshake _ isFirst Succeeded) =>
      let s := on_handshake f Over s in if isFirst then s else put_inflight false (put_attempts 0 s)
  | _ => s
  end.

(** The catch clause of the oldest rejected heartbeat. *)
Definition heartbeat_failed (s : Client) : Client :=
  match pingFailures s with
  | k :: rest =>
      let s := put_pingFailures rest s in
      if bool_decide (socket s = Some k) && bool_decide (connectionState s = ready)
      then close_socket k (handleSocketLoss publish k 1006 s)
      else s
  | [] => s
  end.

(** The rest of a resume; [hook] is whether [beforeRequest] lets it go on. *)
Definition resume_proceeds (hook : bool) (s : Client) : Client :=
  match resume s with
  | Some Connected => put_resume (if hook then Some Revalidating else None) s
  | Some Revalidating =>
      if hook
      then let '(s, r) := request "thread/resume" None ResumeAwaits s in
           put_resume (match r with inl _ => None | inr id => Some (AwaitsResume id) end) s
      else put_resume None s
  | Some (ConnectionFailed _) => put_resume None s
  | Some (AwaitsResume id) => match outcome id s with Some _ => put_resume None s | None => s end
  | _ => s
  end.

(** *** Sockets and timers *)

Definition socket_open (k : nat) (s : Client) : Client :=
  match sockets s !! k with Some (mkSocket _ (WaitsForOpen f) _) => settle_open f None s | _ => s end.

Definition socket_error (k : nat) (s : Client) : Client :=
  match sockets s !! k with
  | Some (mkSocket _ (WaitsForOpen f) _) => settle_open f (Some (PlainError "AppwireClient: socket error while connecting")) s
  | _ => s
  end.

Definition socket_close (k : nat) (code : Z) (s : Client) : Client :=
  match sockets s !! k with
  | Some (mkSocket _ (WaitsForOpen f) _) =>
      settle_open f (Some (PlainError ("AppwireClient: socket closed while connecting (code " ++ pretty code ++ ")"))) s
  | Some (mkSocket _ Attached _) => handleSocketLoss publish k code s
  | _ => s
  end.

Definition handleMessage (data : FrameData) (s : Client) : Client :=
  let s := if bool_decide (connectionState s = ready) then armHeartbeat s else s in
  match data with
  | Parsed (JObj msg) =>
      match obj_get "id" msg with
      | None | Some JNull => match truthy_json (obj_get "method" msg) with Some _ => react publish s | None => s end
      | Some (JNum n) =>
          match list_find (fun x => Z.of_nat x.1 = n) (pending s) with
          | Some (_, (id, p)) =>
              settle_request id p
                (match truthy_json (obj_get "error" msg) with
                 | Some e => Rejected (wire_error e)
                 | None => Resolved (match obj_get "result" msg with None | Some JNull => JObj [] | Some v => v end)
                 end) s
          | None => s
          end
      | Some _ => s
      end
  | _ => s
  end.

Definition socket_message (k : nat) (data : FrameData) (s : Client) : Client :=
  match sockets s !! k with Some (mkSocket true _ _) => handleMessage data s | _ => s end.

(** A request's timer runs out. *)
Definition request_expires (id : nat) (s : Client) : Client :=
  match list_find (fun x => x.1 = id) (pending s) with
  | Some (_, (_, p)) =>
      let s := put_pending (filter (fun x => x.1 <> id) (pending s)) s in
      let s := match explicitTimeout p with
               | None => if str_in (method p) COMPLETION_OWNED_METHODS then close_socket (sentOn p) (handleSocketLoss publish (sentOn p) 1000 s) else s
               | Some _ => s
               end in
      settle_request id p (Rejected (RequestTimeoutError ("AppwireClient: " ++ quoted (method p) ++ " timed out after " ++ pretty (request_timeout p) ++ "ms"))) s
  | None => s
  end.

Definition heartbeat_fires (s : Client) : Client :=
  if heartbeatTimer s then sendHeartbeat (put_heartbeat false s) else s.

Definition reconnect_fires (s : Client) : Client :=
  match reconnectTimer s with Some _ => attemptReconnect (put_timer None s) | None => s end.

Definition resume_expires (s : Client) : Client :=
  match resume s with
  | Some AwaitsConnection => put_resume (Some (ConnectionFailed (PlainError "Connection refresh timed out; try Resume again"))) s
  | _ => s
  end.

End continuing.

(** ** Events *)

Inductive Event :=
  | Called (c : Call)
  | HandshakeProceeds (f : nat) | HeartbeatFailed | ResumeProceeds (hook : bool)
  | SocketOpen (k : nat) | SocketError (k : nat) | SocketClose (k : nat) (code : Z) | SocketMessage (k : nat) (data : FrameData)
  | RequestExpires (id : nat) | HeartbeatFires | ReconnectFires | ResumeExpires.

Definition take (fuel : nat) (e : Event) (s : Client) : Client :=
  let publish := setState fuel in
  match e with
  | Called c => call publish c s
  | HandshakeProceeds f => proceed publish f s
  | HeartbeatFailed => heartbeat_failed publish s
  | ResumeProceeds hook => resume_proceeds hook s
  | SocketOpen k => socket_open k s
  | SocketError k => socket_error k s
  | SocketClose k code => socket_close publish k code s
  | SocketMessage k data => socket_message publish k data s
  | RequestExpires id => request_expires publish id s
  | HeartbeatFires => heartbeat_fires s
  | ReconnectFires => reconnect_fires s
  | ResumeExpires => resume_expires s
  end.

End client.

(** A handshake whose continuation is due. *)
Definition handshake_due (s : Client) (h : Handshake) : bool :=
  match phase h with
  | Opened | Failed _ | Succeeded => true
  | Initializing id => match outcome id s with Some _ => true | None => false end
  | _ => false
  end.

Definition resume_due (s : Client) : bool :=
  match resume s with
  | Some (Connected | ConnectionFailed _) => true
  | Some (AwaitsResume id) => match outcome id s with Some _ => true | None => false end
  | _ => false
  end.

(** No continuation is due: sockets and timers speak only then, while the page may call
    at any moment. *)
Definition quiet (s : Client) : bool :=
  forallb (fun h => negb (handshake_due s h)) (handshakes s) && match pingFailures s with [] => true | _ => false end && negb (resume_due s).

Definition is_task (e : Event) : bool :=
  match e with
  | Called _ | HandshakeProceeds _ | HeartbeatFailed | ResumeProceeds _ => false
  | _ => true
  end.

Definition can_happen (e : Event) (s : Client) : bool := negb (is_task e) || quiet s.

(** [new AppwireClient(opts)]. *)
Definition new_client : Client :=
  mkClient idle None [] 1 [] [] [] [] None false None false None 0 false None None [] [] 0.
