(* ===== verification/AppwireFacts.v ===== *)
(** The connection's methods by induction on the nesting of subscribers: four levels are
    enough, and every request ever sent is accounted for. *)

From S2P Require Import Prelude JsString Json Wire AppwireClient.

Local Open Scope string_scope.

#[global] Arguments settle_request : simpl never.
#[global] Arguments failAllPending : simpl never.

(** ** Projections *)

Lemma settle_request_pending id p o s : pending (settle_request id p o s) = filter (fun x => x.1 <> id) (pending s).
Proof. unfold settle_request. by destruct (awaiter p), o. Qed.

Lemma settle_request_settled id p o s : settled (settle_request id p o s) = (settled s ++ [(id, o)])%list.
Proof. unfold settle_request. by destruct (awaiter p), o. Qed.

(** What settling requests leaves alone. *)
Record requests_only (s s' : Client) : Prop := {
  ro_state : connectionState s' = connectionState s;
  ro_promise : connectPromise s' = connectPromise s;
  ro_socket : socket s' = socket s;
  ro_sockets : sockets s' = sockets s;
  ro_handshakes : handshakes s' = handshakes s;
  ro_reject : handshakeReject s' = handshakeReject s;
  ro_heartbeat : heartbeatTimer s' = heartbeatTimer s;
  ro_timer : reconnectTimer s' = reconnectTimer s;
  ro_inflight : reconnectInFlight s' = reconnectInFlight s;
  ro_next : nextId s' = nextId s;
  ro_resume : resume s' = resume s }.

#[export] Instance requests_only_preorder : PreOrder requests_only.
Proof. split; [by split|]. intros a b c [] []. split; congruence. Qed.

Lemma settle_request_only id p o s : requests_only s (settle_request id p o s).
Proof. unfold settle_request. by destruct (awaiter p), o. Qed.

Lemma failAllPending_only e s : requests_only s (failAllPending e s).
Proof.
  unfold failAllPending. generalize (pending s) as l. intros l. revert s. induction l as [|x l IH]; intros s; [done|].
  simpl. etransitivity; [apply settle_request_only|apply IH].
Qed.

(** ** Nesting *)

(** How deep a publication of this state can nest. *)
Definition rank (s : Client) : nat :=
  match connectionState s with
  | closed => 0
  | connecting => 1
  | reconnecting => if connectPromise s then 1 else 2
  | ready => if connectPromise s then 2 else 3
  | idle => 4
  end.

Lemma rank_same s s' : connectionState s' = connectionState s -> connectPromise s' = connectPromise s -> rank s' = rank s.
Proof. unfold rank. by intros -> ->. Qed.

Section nesting.
Context (env : Environment).
Implicit Types (p q : ConnectionState -> Client -> Client).

(** A publication that lands no higher than the state it enters. *)
Definition lands p : Prop := forall next s, next <> idle -> (rank (p next s) <= rank (enter next s))%nat.

(** Two publications agree on what ranks below [r], and on what is no news. *)
Definition agree (r : nat) p q : Prop :=
  forall next s, next <> idle -> connectionState s = next \/ (rank (enter next s) < r)%nat -> p next s = q next s.

Lemma rank_settle id x o s : rank (settle_request id x o s) = rank s.
Proof. destruct (settle_request_only id x o s). by apply rank_same. Qed.

Lemma rank_request m t a s : rank (request env m t a s).1 = rank s.
Proof.
  unfold request. destruct (_ && _); [done|]. destruct (socket s); [|done]. unfold transmit. destruct (takes env _); [done|].
  cbn [fst]. by rewrite rank_settle.
Qed.

Lemma rank_dial b s : rank (dial env b s) = rank s.
Proof. unfold dial. destruct (isClosed s); [done|]. by destruct (socketFactory env _). Qed.

Lemma rank_attempt s : rank (attemptReconnect env s) = rank s.
Proof. unfold attemptReconnect. destruct (_ || _); [done|]. by rewrite rank_dial. Qed.

Lemma rank_retry s : rank (retryNow env s) = rank s.
Proof. unfold retryNow. destruct (_ || _); [done|]. by rewrite rank_attempt. Qed.

Lemma failAll_state e s : connectionState (failAllPending e s) = connectionState s /\ connectPromise (failAllPending e s) = connectPromise s.
Proof. by destruct (failAllPending_only e s). Qed.

(** Losing a socket publishes something lower, or nothing. *)
Lemma loss_agrees p q k code s : agree (rank s) p q -> handleSocketLoss env p k code s = handleSocketLoss env q k code s.
Proof.
  intros Ha. unfold handleSocketLoss. destruct (_ || _) eqn:Eg; [done|]. set (s1 := failAllPending _ _).
  destruct (failAll_state (socket_closed code) (detachSocketHandlers k (put_socket None s))) as [E1 E2]. fold s1 in E1, E2. simpl in E1, E2.
  unfold rank in Ha. rewrite <- E1, <- E2 in Ha. destruct (connectionState s1) eqn:Es; try done.
  - apply Ha; [done|]. right. unfold rank. simpl. lia.
  - unfold scheduleReconnect. destruct (isClosed (disarmHeartbeat s1)); [done|]. apply Ha; [done|]. right. unfold rank. simpl. destruct (connectPromise s1); lia.
Qed.

Lemma rank_loss p k code s : lands p -> (rank (handleSocketLoss env p k code s) <= rank s)%nat.
Proof.
  intros Hl. unfold handleSocketLoss. destruct (_ || _) eqn:Eg; [done|]. set (s1 := failAllPending _ _).
  destruct (failAll_state (socket_closed code) (detachSocketHandlers k (put_socket None s))) as [E1 E2]. fold s1 in E1, E2. simpl in E1, E2.
  unfold rank at 2. rewrite <- E1, <- E2. destruct (connectionState s1) eqn:Es.
  - unfold rank. by rewrite Es.
  - etransitivity; [by apply Hl|]. unfold rank. simpl. lia.
  - unfold scheduleReconnect. unfold isClosed. simpl. rewrite Es. simpl. etransitivity; [by apply Hl|]. unfold rank. simpl. destruct (connectPromise s1); lia.
  - unfold rank. by rewrite Es.
  - unfold rank. by rewrite Es.
Qed.

Lemma rank_closed s : (rank s < 1)%nat -> isClosed s = true.
Proof. unfold rank, isClosed. destruct (connectionState s) eqn:E; destruct (connectPromise s); simpl; try lia; done. Qed.

Lemma resumable_rank s k : connectionState s = ready -> rank (put_resume k s) = rank s.
Proof. done. Qed.

Lemma call_agrees p q c s : agree (rank s) p q -> call env p c s = call env q c s.
Proof.
  intros Ha. destruct c as [| | |m t|]; cbn [call]; [| |reflexivity|reflexivity|].
  - unfold connect. destruct (isClosed s || connectPromise s) eqn:E; [done|]. apply orb_false_elim in E as [E1 E2].
    unfold isClosed in E1. apply bool_decide_eq_false in E1. unfold performHandshake. do 2 f_equal. apply Ha; [done|].
    destruct (decide (connectionState s = connecting)) as [|Hn]; [by left|right]. unfold rank. simpl. rewrite E2.
    destruct (connectionState s); try done; lia.
  - unfold close. destruct (isClosed s) eqn:E; [done|]. apply Ha; [done|]. right. unfold rank at 1. simpl.
    destruct (rank s) eqn:Er; [|lia]. rewrite rank_closed in E; [done|lia].
  - unfold resumeThread. destruct (resume s); [reflexivity|]. destruct (connectionState s); try reflexivity.
    destruct (socket s) as [k|]; [|reflexivity]. by rewrite (loss_agrees p q) by exact Ha.
Qed.

Lemma rank_call p c s : lands p -> (rank (call env p c s) <= rank s)%nat.
Proof.
  intros Hl. destruct c as [| | |m t|]; cbn [call].
  - unfold connect. destruct (isClosed s || connectPromise s) eqn:E; [done|]. apply orb_false_elim in E as [E1 E2].
    unfold isClosed in E1. apply bool_decide_eq_false in E1. unfold performHandshake.
    assert (Hp : (rank (dial env true (p connecting s)) <= 1)%nat) by (rewrite rank_dial; by apply Hl).
    assert (H1 : (1 <= rank s)%nat) by (unfold rank; rewrite E2; destruct (connectionState s); try done; lia).
    assert (H2 : forall s, (rank (put_promise true s) <= rank s)%nat).
    { intros s0. unfold rank. simpl. destruct (connectionState s0), (connectPromise s0); lia. }
    etransitivity; [apply H2|lia].
  - unfold close. destruct (isClosed s) eqn:E; [done|]. etransitivity; [by apply Hl|]. unfold rank at 1. simpl. lia.
  - by rewrite rank_retry.
  - by rewrite rank_request.
  - unfold resumeThread. destruct (resume s); [reflexivity|]. destruct (connectionState s); try reflexivity. destruct (socket s) as [k|]; [|reflexivity].
    rewrite rank_retry. exact (rank_loss p k 1000 (put_resume (Some AwaitsConnection) s) Hl).
Qed.

Lemma agree_le r r' p q : agree r p q -> (r' <= r)%nat -> agree r' p q.
Proof. intros Ha Hr next s Hn [E|Hlt]; apply Ha; auto. right. lia. Qed.

Lemma react_agrees p q s : agree (rank s) p q -> lands p -> react env p s = react env q s /\ (rank (react env p s) <= rank s)%nat.
Proof.
  intros Ha Hl. unfold react. generalize (subscribers env (tick s)) as l. change (rank s) with (rank (tock s)) in Ha |- *.
  generalize dependent (tock s). clear s. intros s Ha l. revert s Ha. induction l as [|c l IH]; intros s Ha; simpl; [done|].
  rewrite <- (call_agrees p q c s Ha). pose proof (rank_call p c s Hl) as Hr.
  destruct (IH (call env p c s)) as [IH1 IH2]; [by eapply agree_le|]. split; [done|lia].
Qed.

Lemma resume_hears_rank next s : rank (resume_hears next s) = rank s.
Proof. unfold resume_hears. by destruct (resume s) as [[]|], next. Qed.

Lemma setState_lands n : lands (setState env n).
Proof.
  induction n as [|n IH]; intros next s Hi; simpl; case_bool_decide as E.
  - unfold rank. simpl. rewrite E. destruct next; done.
  - by rewrite resume_hears_rank.
  - unfold rank. simpl. rewrite E. destruct next; done.
  - rewrite resume_hears_rank. assert (Hrefl : forall s, agree (rank s) (setState env n) (setState env n)) by done.
    destruct (react_agrees _ _ (enter next s) (Hrefl _) IH) as [_ H1]. case_bool_decide; [|done].
    destruct (react_agrees _ _ (react env (setState env n) (enter next s)) (Hrefl _) IH) as [_ H2]. lia.
Qed.

(** Enough fuel for the depth of a publication is as good as any more. *)
Lemma setState_deep n m next s : next <> idle -> (rank (enter next s) < n)%nat -> (rank (enter next s) < m)%nat ->
  setState env n next s = setState env m next s.
Proof.
  revert m next s. induction n as [|n IH]; intros [|m] next s Hi Hn Hm; try lia. simpl. case_bool_decide; [done|].
  assert (Ha : agree (rank (enter next s)) (setState env n) (setState env m)).
  { intros next' s' Hi' [E|Hlt]; [|apply IH; [done|lia|lia]].
    destruct n, m; simpl; by rewrite bool_decide_eq_true_2. }
  destruct (react_agrees _ _ (enter next s) Ha (setState_lands n)) as [<- H1]. case_bool_decide; [|done].
  destruct (react_agrees _ _ (react env (setState env n) (enter next s)) (agree_le _ _ _ _ Ha H1) (setState_lands n)) as [<- _]. done.
Qed.
End nesting.

(** ** Requests *)

(** The ids given out are those pending, those settled and [extra], each once. *)
Definition accounted (extra : list nat) (s : Client) : Prop :=
  (1 <= nextId s)%nat /\ (extra ++ (pending s).*1 ++ (settled s).*1)%list ≡ₚ seq 1 (pred (nextId s)).

(** A step that keeps the account. *)
Definition keeps (s s' : Client) : Prop := forall extra, accounted extra s -> accounted extra s'.

#[export] Instance keeps_preorder : PreOrder keeps.
Proof. split; [by intros s extra|]. intros a b c H1 H2 extra H. by apply H2, H1. Qed.

Lemma accounted_nodup extra s : accounted extra s -> NoDup (extra ++ (pending s).*1 ++ (settled s).*1)%list.
Proof. intros [_ H]. rewrite H. apply NoDup_seq. Qed.

Lemma keeps_rest s s' : pending s' = pending s -> settled s' = settled s -> nextId s' = nextId s -> keeps s s'.
Proof. intros E1 E2 E3 extra. unfold accounted. by rewrite E1, E2, E3. Qed.

Lemma drop_key {A} (l : list (nat * A)) id p : NoDup l.*1 -> (id, p) ∈ l -> l.*1 ≡ₚ id :: (filter (fun x => x.1 <> id) l).*1.
Proof.
  induction l as [|[k v] l IH]; [intros _ H; by apply not_elem_of_nil in H|]. simpl. intros [Hk Hn]%NoDup_cons Hin. rewrite filter_cons. simpl.
  apply elem_of_cons in Hin as [[= <- <-]|Hin].
  - rewrite decide_False by naive_solver. rewrite filter_all; [done|]. apply Forall_forall. intros x Hx <-. by apply Hk, list_elem_of_fmap_2.
  - assert (k <> id) by (intros ->; apply Hk; by apply (list_elem_of_fmap_2 fst) in Hin). rewrite decide_True by done. simpl.
    rewrite (IH Hn Hin). apply perm_swap.
Qed.

Lemma accounted_settle extra id p o s : accounted extra s -> (id, p) ∈ pending s -> accounted extra (settle_request id p o s).
Proof.
  intros Ha Hin. pose proof (accounted_nodup _ _ Ha) as Hn. destruct Ha as [H1 H2]. split; [by rewrite (ro_next _ _ (settle_request_only id p o s))|].
  rewrite settle_request_pending, settle_request_settled, (ro_next _ _ (settle_request_only id p o s)), <- H2, fmap_app. simpl.
  apply NoDup_app in Hn as (_ & _ & Hn). apply NoDup_app in Hn as (Hn & _ & _). rewrite (drop_key _ id p Hn Hin). solve_Permutation.
Qed.

(** A request taken off [pending] before its promise settles. *)
Lemma accounted_settle_extra extra id p o s : accounted (id :: extra) s -> accounted extra (settle_request id p o s).
Proof.
  intros Ha. pose proof (accounted_nodup _ _ Ha) as Hn. destruct Ha as [H1 H2]. split; [by rewrite (ro_next _ _ (settle_request_only id p o s))|].
  rewrite settle_request_pending, settle_request_settled, (ro_next _ _ (settle_request_only id p o s)), <- H2, fmap_app. simpl.
  rewrite filter_all; [solve_Permutation|]. apply Forall_forall. intros x Hx E. simpl in Hn. apply NoDup_cons in Hn as [Hn _]. apply Hn.
  rewrite !elem_of_app. right. left. rewrite <- E. by apply list_elem_of_fmap_2.
Qed.

Lemma accounted_take extra id p s : accounted extra s -> (id, p) ∈ pending s ->
  accounted (id :: extra) (put_pending (filter (fun x => x.1 <> id) (pending s)) s).
Proof.
  intros Ha Hin. pose proof (accounted_nodup _ _ Ha) as Hn. destruct Ha as [H1 H2]. split; [done|]. simpl. rewrite <- H2.
  apply NoDup_app in Hn as (_ & _ & Hn). apply NoDup_app in Hn as (Hn & _ & _). rewrite (drop_key _ id p Hn Hin). solve_Permutation.
Qed.

Lemma keeps_failAll e s : keeps s (failAllPending e s).
Proof.
  intros extra Ha. unfold failAllPending.
  assert (Hgen : forall l s, accounted extra s -> NoDup l.*1 -> (forall x, x ∈ l -> x ∈ pending s) ->
    accounted extra (foldl (fun s x => settle_request x.1 x.2 (Rejected e) s) s l)).
  { clear s Ha. induction l as [|[id p] l IH]; intros s Ha Hn Hl; simpl; [done|]. simpl in Hn. apply NoDup_cons in Hn as [Hid Hn].
    apply IH; [|done|].
    - apply accounted_settle; [done|]. apply Hl. by left.
    - intros x Hx. rewrite settle_request_pending. apply list_elem_of_filter. split; [|apply Hl; by right].
      intros E. apply Hid. rewrite <- E. by apply list_elem_of_fmap_2. }
  apply Hgen; [done| |done]. pose proof (accounted_nodup _ _ Ha) as Hn. apply NoDup_app in Hn as (_ & _ & Hn). by apply NoDup_app in Hn as (Hn & _ & _).
Qed.

Section accounts.
Context (env : Environment).

Lemma keeps_request m t a s : keeps s (request env m t a s).1.
Proof.
  unfold request. destruct (_ && _); [done|]. destruct (socket s) as [k|]; [|done]. set (id := nextId s). set (p := mkPending m a k t).
  set (s1 := put_pending _ _). assert (H1 : keeps s s1).
  { intros extra [H1 H2]. split; [simpl; lia|]. simpl. rewrite fmap_app. simpl. fold id in H1, H2 |- *.
    replace id with (S (pred id)) at 2 by lia. rewrite seq_S, <- H2. replace (1 + pred id)%nat with id by lia. solve_Permutation. }
  unfold transmit. destruct (takes env _); cbn [fst]; [etransitivity; [exact H1|by apply keeps_rest]|].
  intros extra Ha%H1. apply accounted_settle; [done|]. simpl. rewrite elem_of_app. right. by left.
Qed.

Lemma keeps_dial b s : keeps s (dial env b s).
Proof. unfold dial. destruct (isClosed s); [by apply keeps_rest|]. destruct (socketFactory env _); by apply keeps_rest. Qed.

Lemma keeps_attempt s : keeps s (attemptReconnect env s).
Proof. unfold attemptReconnect. destruct (_ || _); [done|]. etransitivity; [|apply keeps_dial]. by apply keeps_rest. Qed.

Lemma keeps_retry s : keeps s (retryNow env s).
Proof. unfold retryNow. destruct (_ || _); [done|]. etransitivity; [|apply keeps_attempt]. by apply keeps_rest. Qed.

Lemma keeps_settle_open f e s : keeps s (settle_open f e s).
Proof. unfold settle_open. simpl. destruct (handshakes s !! f) as [[d b []]|]; by apply keeps_rest. Qed.

Lemma keeps_discard held s : keeps s (discard held s).
Proof. unfold discard. destruct held; [by apply keeps_rest|done]. Qed.

Lemma keeps_abort s : keeps s (abortHandshake s).
Proof. unfold abortHandshake. destruct (handshakeReject s); [apply keeps_settle_open|done]. Qed.

Lemma keeps_teardown s : keeps s (teardownFailedSocket s).
Proof. unfold teardownFailedSocket. etransitivity; [|apply keeps_discard]. by apply keeps_rest. Qed.

Lemma keeps_note e s : keeps s (noteProtocolFailure e s).
Proof. unfold noteProtocolFailure. destruct (is_protocol_failure e); [by apply keeps_rest|done]. Qed.

Section publishing.
Context (p : ConnectionState -> Client -> Client) (Hp : forall next s, keeps s (p next s)).

Lemma keeps_schedule s : keeps s (scheduleReconnect env p s).
Proof. unfold scheduleReconnect. destruct (isClosed s); [done|]. etransitivity; [|apply Hp]. by apply keeps_rest. Qed.

Lemma keeps_loss k code s : keeps s (handleSocketLoss env p k code s).
Proof.
  unfold handleSocketLoss. destruct (_ || _); [done|]. set (s1 := failAllPending _ _).
  assert (H1 : keeps s s1) by (etransitivity; [|apply keeps_failAll]; by apply keeps_rest).
  etransitivity; [exact H1|]. destruct (connectionState s1); try done.
  etransitivity; [|apply keeps_schedule]. by apply keeps_rest.
Qed.

Lemma keeps_close s : keeps s (close p s).
Proof.
  unfold close. destruct (isClosed s); [done|]. etransitivity; [|apply Hp]. etransitivity; [|apply keeps_failAll].
  transitivity (put_socket None s); [by apply keeps_rest|]. etransitivity; [apply keeps_abort|].
  etransitivity; [apply (keeps_discard (socket s))|]. by apply keeps_rest.
Qed.

Lemma keeps_call c s : keeps s (call env p c s).
Proof.
  destruct c as [| | |m t|]; cbn [call].
  - unfold connect. destruct (_ || _); [done|]. etransitivity; [|by apply keeps_rest]. unfold performHandshake.
    etransitivity; [apply Hp|apply keeps_dial].
  - apply keeps_close.
  - apply keeps_retry.
  - apply keeps_request.
  - unfold resumeThread. destruct (resume s); [done|]. destruct (connectionState s); try done. destruct (socket s) as [k|]; [|done].
    etransitivity; [|apply keeps_retry]. etransitivity; [|by apply keeps_rest]. etransitivity; [|apply keeps_loss]. by apply keeps_rest.
Qed.

Lemma keeps_react s : keeps s (react env p s).
Proof.
  unfold react. transitivity (tock s); [by apply keeps_rest|]. generalize (tock s), (subscribers env (tick s)). clear s. intros s l.
  revert s. induction l as [|c l IH]; intros s; simpl; [done|]. etransitivity; [apply keeps_call|apply IH].
Qed.

End publishing.

Lemma keeps_setState n next s : keeps s (setState env n next s).
Proof.
  assert (Hh : forall s, keeps s (resume_hears next s)) by (intros s0; unfold resume_hears; destruct (resume s0) as [[]|], next; by apply keeps_rest).
  revert next s Hh. induction n as [|n IH]; intros next s Hh; simpl; (case_bool_decide; [done|]); (etransitivity; [|apply Hh]).
  - by apply keeps_rest.
  - assert (Hp : forall next s, keeps s (setState env n next s)).
    { intros next0 s0. apply IH. intros s1. unfold resume_hears. destruct (resume s1) as [[]|], next0; by apply keeps_rest. }
    transitivity (react env (setState env n) (enter next s)).
    { etransitivity; [|by apply keeps_react]. by apply keeps_rest. }
    case_bool_decide; [by apply keeps_react|done].
Qed.

Section continuing.
Context (p : ConnectionState -> Client -> Client) (Hp : forall next s, keeps s (p next s)).

Lemma keeps_failed b e s : keeps s (handshake_failed env p b e s).
Proof.
  assert (H1 : keeps s (noteProtocolFailure e (teardownFailedSocket s))) by (etransitivity; [apply keeps_teardown|apply keeps_note]).
  unfold handshake_failed, first_handshake_failed, attempt_failed. destruct b.
  - etransitivity; [exact H1|]. etransitivity; [apply keeps_failAll|apply Hp].
  - set (s1 := if isClosed s then s else _). transitivity s1; [|by apply keeps_rest]. unfold s1.
    destruct (isClosed s); [done|]. etransitivity; [exact H1|]. destruct (is_protocol_failure e); [apply Hp|by apply keeps_schedule].
Qed.

Lemma keeps_initialize f k o s : keeps s (initialize_settled env p f k o s).
Proof.
  unfold initialize_settled. destruct o as [v|e]; [|by apply keeps_rest]. destruct (decodeInitializeResponse v) as [field|version]; [by apply keeps_rest|].
  destruct (String.eqb _ _); [|by apply keeps_rest]. unfold handshake_succeeded.
  assert (Ht : forall s, keeps s (match socket s with Some j => transmit env j InitializedFrame s | None => (s, true) end).1).
  { intros s0. destruct (socket s0); [|done]. unfold transmit. destruct (takes env _); by apply keeps_rest. }
  specialize (Ht s). destruct (match socket s with Some j => _ | None => _ end) as [s1 took]. cbn [fst] in Ht.
  destruct took; simpl; [|etransitivity; [exact Ht|by apply keeps_rest]].
  set (s2 := enterReady p v (on_handshake f Succeeded s1)).
  assert (H2 : keeps s s2) by (etransitivity; [exact Ht|]; unfold s2, enterReady; etransitivity; [|apply Hp]; by apply keeps_rest).
  set (s3 := if _ && _ then react env p s2 else s2).
  assert (H3 : keeps s s3) by (etransitivity; [exact H2|]; unfold s3; destruct (_ && _); [by apply keeps_react|done]).
  destruct (isClosed s3); [done|]. etransitivity; [exact H3|by apply keeps_rest].
Qed.

Lemma keeps_proceed f s : keeps s (proceed env p f s).
Proof.
  unfold proceed. destruct (handshakes s !! f) as [[[k|] b ph]|]; [|destruct ph|done]; try done.
  - destruct ph as [| |id|e| |]; try done.
    + set (s1 := on_socket k _ s). pose proof (keeps_request "initialize" None (HandshakeAwaits f) s1) as Hr.
      destruct (request _ _ _ _ s1) as [s2 r]. cbn [fst] in Hr. transitivity s1; [by apply keeps_rest|].
      etransitivity; [exact Hr|by apply keeps_rest].
    + destruct (outcome id s); [apply keeps_initialize|done].
    + etransitivity; [|apply keeps_failed]. by apply keeps_rest.
    + destruct b; by apply keeps_rest.
  - etransitivity; [|apply keeps_failed]. by apply keeps_rest.
  - destruct b; by apply keeps_rest.
Qed.

Lemma keeps_message data s : keeps s (handleMessage env p data s).
Proof.
  unfold handleMessage. set (s1 := if bool_decide (connectionState s = ready) then armHeartbeat s else s). assert (H1 : keeps s s1) by (unfold s1; case_bool_decide; [by apply keeps_rest|done]).
  etransitivity; [exact H1|]. clearbody s1. destruct data as [| |[| | | | |msg]]; try done.
  destruct (obj_get "id" msg) as [[| |n| | |]|]; try done; try (destruct (truthy_json _); [by apply keeps_react|done]).
  destruct (list_find _ (pending s1)) as [[i [id q]]|] eqn:Ef; [|done]. apply list_find_Some in Ef as (Hi & _ & _).
  intros extra Ha. apply accounted_settle; [done|]. by eapply list_elem_of_lookup_2.
Qed.

Lemma keeps_expires id s : keeps s (request_expires env p id s).
Proof.
  unfold request_expires. destruct (list_find _ (pending s)) as [[i [id' q]]|] eqn:Ef; [|done].
  apply list_find_Some in Ef as (Hi & E & _). simpl in E. subst id'. intros extra Ha.
  assert (Hin : (id, q) ∈ pending s) by (by eapply list_elem_of_lookup_2). apply accounted_settle_extra.
  pose proof (accounted_take extra id q s Ha Hin) as H1. set (s1 := put_pending _ s) in *. destruct (explicitTimeout q); [done|].
  destruct (str_in _ _); [|done]. revert H1. generalize (id :: extra) as ex. intros ex H1.
  apply (keeps_rest (handleSocketLoss env p (sentOn q) 1000 s1)); try done. by apply keeps_loss.
Qed.

End continuing.

Lemma keeps_take n e s : keeps s (take env n e s).
Proof.
  pose proof (fun next s => keeps_setState n next s) as Hp.
  destruct e as [c|f| |hook|k|k|k code|k data|id| | |]; cbn [take].
  - by apply keeps_call.
  - by apply keeps_proceed.
  - unfold heartbeat_failed. destruct (pingFailures s) as [|k rest]; [done|]. destruct (_ && _); [|by apply keeps_rest].
    etransitivity; [|by apply keeps_rest]. etransitivity; [|by apply keeps_loss]. by apply keeps_rest.
  - unfold resume_proceeds. destruct (resume s) as [[]|]; try done; try by apply keeps_rest.
    + destruct hook; [|by apply keeps_rest]. pose proof (keeps_request "thread/resume" None ResumeAwaits s) as Hr.
      destruct (request _ _ _ _ s). etransitivity; [exact Hr|by apply keeps_rest].
    + destruct (outcome id s); [by apply keeps_rest|done].
  - unfold socket_open. destruct (sockets s !! k) as [[? [] ?]|]; try done. apply keeps_settle_open.
  - unfold socket_error. destruct (sockets s !! k) as [[? [] ?]|]; try done. apply keeps_settle_open.
  - unfold socket_close. destruct (sockets s !! k) as [[? [] ?]|]; try done; [apply keeps_settle_open|by apply keeps_loss].
  - unfold socket_message. destruct (sockets s !! k) as [[[] ? ?]|]; try done. by apply keeps_message.
  - by apply keeps_expires.
  - unfold heartbeat_fires. destruct (heartbeatTimer s); [|done]. unfold sendHeartbeat. destruct (negb _); [by apply keeps_rest|].
    destruct (socket _); [|by apply keeps_rest]. etransitivity; [|apply keeps_request]. by apply keeps_rest.
  - unfold reconnect_fires. destruct (reconnectTimer s); [|done]. etransitivity; [|apply keeps_attempt]. by apply keeps_rest.
  - unfold resume_expires. destruct (resume s) as [[]|]; try done. by apply keeps_rest.
Qed.

End accounts.
