(* ===== verification/AppwireInvariant.v ===== *)
(** What a connection keeps between its events: one socket listens, a handshake under way
    is the last one, and each state has what will wake it.

    A publication runs subscribers in the middle of a method; what the method still owes
    at that point is the parameter of the invariant. *)

From S2P Require Import Prelude JsString Json Wire AppwireClient AppwireFacts.

Local Open Scope string_scope.

(** ** The invariant *)

(** A handshake that has neither come through nor failed for good. *)
Definition active (h : Handshake) : bool := match phase h with Opening | Opened | Initializing _ | Failed _ => true | _ => false end.

(** What the running method will still do: dial, arm the heartbeat, clear
    [reconnectInFlight]. *)
Inductive Late := OnTime | Dialling | Arming | Finishing.

Definition resolved (id : nat) (s : Client) : Prop := exists v, outcome id s = Some (Resolved v).

(** No handshake's response waits for its continuation. *)
Definition unanswered (s : Client) : Prop :=
  forall f h id, handshakes s !! f = Some h -> phase h = Initializing id -> ~ resolved id s.

Definition none_active (s : Client) : Prop := forall f h, handshakes s !! f = Some h -> active h = false.
Definition some_active (s : Client) : Prop := exists f h, handshakes s !! f = Some h /\ active h = true.
Definition active_first (b : bool) (s : Client) : Prop := forall f h, handshakes s !! f = Some h -> active h = true -> first h = b.
Definition only_initialize (s : Client) : Prop := forall id p, (id, p) ∈ pending s -> method p = "initialize".

Definition attached (k : nat) (s : Client) : Prop := exists x, sockets s !! k = Some x /\ handlers x = Attached.

(** The socket's silence will be noticed. *)
Definition watched (k : nat) (s : Client) : Prop :=
  heartbeatTimer s = true \/ (exists id p, (id, p) ∈ pending s /\ awaiter p = HeartbeatAwaits /\ sentOn p = k) \/ k ∈ pingFailures s.

Record Base (s : Client) : Prop := {
  b_keys : NoDup (pending s).*1 /\ forall id, id ∈ (pending s).*1 \/ id ∈ (settled s).*1 -> (id < nextId s)%nat;
  b_fresh : forall id, id ∈ (pending s).*1 -> id ∉ (settled s).*1;
  b_socket : forall k, socket s = Some k -> exists x, sockets s !! k = Some x /\ onmessage x = true;
  b_message : forall k x, sockets s !! k = Some x -> onmessage x = true \/ (exists f, handlers x = WaitsForOpen f) -> socket s = Some k;
  b_waits : forall k x f, sockets s !! k = Some x -> handlers x = WaitsForOpen f -> S f = length (handshakes s);
  b_last : forall f h, handshakes s !! f = Some h -> active h = true -> S f = length (handshakes s);
  b_opening : forall f h, handshakes s !! f = Some h -> phase h = Opening ->
    handshakeReject s = Some f /\ exists k x, dialled h = Some k /\ socket s = Some k /\ sockets s !! k = Some x /\ handlers x = WaitsForOpen f;
  b_dialled : forall f h, handshakes s !! f = Some h -> phase h = Opened \/ (exists id, phase h = Initializing id) ->
    exists k, dialled h = Some k /\ (k < length (sockets s))%nat /\ (socket s = Some k \/ socket s = None);
  b_initializing : forall f h id, handshakes s !! f = Some h -> phase h = Initializing id ->
    (id ∈ (pending s).*1 \/ is_Some (outcome id s)) /\
    (id ∈ (pending s).*1 \/ resolved id s -> exists k, dialled h = Some k /\ socket s = Some k /\ attached k s)
}.

(** What wakes each state. *)
Definition Status (o : Late) (s : Client) : Prop :=
  match connectionState s with
  | idle => handshakes s = [] /\ socket s = None /\ connectPromise s = false /\ only_initialize s
  | connecting =>
      only_initialize s /\
      ((o = Dialling /\ handshakes s = [] /\ socket s = None /\ connectPromise s = false) \/
       (connectPromise s = true /\ some_active s /\ active_first true s))
  | ready => connectPromise s = true /\ none_active s /\ exists k, socket s = Some k /\ attached k s /\ (watched k s \/ o = Arming)
  | reconnecting =>
      only_initialize s /\ connectPromise s = true /\ active_first false s /\
      ((none_active s /\ socket s = None /\ is_Some (reconnectTimer s)) \/ some_active s)
  | closed => socket s = None /\ (connectPromise s = false -> handshakes s = [])
  end.

(** [reconnectInFlight] stands for one attempt that is not over. *)
Record Inflight (o : Late) (s : Client) : Prop := {
  i_off : reconnectInFlight s = false \/ o = Finishing -> forall f h, handshakes s !! f = Some h -> first h = false -> phase h = Over;
  i_on : reconnectInFlight s = true -> o <> Finishing -> exists f h, handshakes s !! f = Some h /\ first h = false /\ phase h <> Over;
  i_one : forall f g h h', handshakes s !! f = Some h -> handshakes s !! g = Some h' -> first h = false -> first h' = false ->
    phase h <> Over -> phase h' <> Over -> f = g;
  i_late : o = Finishing -> reconnectInFlight s = true
}.

Record Ok (o : Late) (s : Client) : Prop := { ok_base : Base s; ok_status : Status o s; ok_inflight : Inflight o s }.

Definition Settled (o : Late) (s : Client) : Prop := Ok o s /\ unanswered s.

(** *** Parts that a step leaves alone *)

(** The fields the invariant reads, but the state, the timers and the promise. *)
Record same_base (s s' : Client) : Prop := {
  sb_pending : pending s' = pending s; sb_settled : settled s' = settled s; sb_next : nextId s' = nextId s;
  sb_socket : socket s' = socket s; sb_sockets : sockets s' = sockets s; sb_handshakes : handshakes s' = handshakes s;
  sb_reject : handshakeReject s' = handshakeReject s }.

Lemma Base_same s s' : Base s -> same_base s s' -> Base s'.
Proof.
  intros [] [E1 E2 E3 E4 E5 E6 E7]. split; unfold attached, resolved, outcome in *; rewrite ?E1, ?E2, ?E3, ?E4, ?E5, ?E6, ?E7; done.
Qed.

Lemma unanswered_same s s' : unanswered s -> settled s' = settled s -> handshakes s' = handshakes s -> unanswered s'.
Proof. intros H E1 E2 f h id. unfold resolved, outcome. rewrite E1, E2. apply H. Qed.

Lemma Inflight_same o s s' : Inflight o s -> handshakes s' = handshakes s -> reconnectInFlight s' = reconnectInFlight s -> Inflight o s'.
Proof. intros [] E1 E2. split; rewrite ?E1, ?E2; done. Qed.

(** Fields besides those. *)
Record same_all (s s' : Client) : Prop := {
  sa_base : same_base s s'; sa_state : connectionState s' = connectionState s; sa_promise : connectPromise s' = connectPromise s;
  sa_heartbeat : heartbeatTimer s' = heartbeatTimer s; sa_timer : reconnectTimer s' = reconnectTimer s;
  sa_inflight : reconnectInFlight s' = reconnectInFlight s; sa_pings : pingFailures s' = pingFailures s }.

Lemma Status_same o s s' : Status o s -> same_all s s' -> Status o s'.
Proof.
  intros H [[E1 E2 E3 E4 E5 E6 E7] F1 F2 F3 F4 F5 F6]. unfold Status, only_initialize, none_active, some_active, active_first, attached, watched in *.
  rewrite E1, E4, E5, E6, F1, F2, F3, F4, F6. done.
Qed.

Lemma Settled_same o s s' : Settled o s -> same_all s s' -> Settled o s'.
Proof.
  intros [[HB HS HI] HU] Ha. pose proof (sa_base _ _ Ha) as Hb. split; [split|].
  - by eapply Base_same.
  - by eapply Status_same.
  - eapply Inflight_same; [done|apply Hb|apply Ha].
  - eapply unanswered_same; [done|apply Hb|apply Hb].
Qed.

Lemma Ok_same o s s' : Ok o s -> same_all s s' -> Ok o s'.
Proof.
  intros [HB HS HI] Ha. pose proof (sa_base _ _ Ha) as Hb. split; [by eapply Base_same|by eapply Status_same|].
  eapply Inflight_same; [done|apply Hb|apply Ha].
Qed.

(** ** Settling requests *)

Lemma outcome_settle i id p o s :
  outcome i (settle_request id p o s) = match outcome i s with Some r => Some r | None => if decide (i = id) then Some o else None end.
Proof.
  assert (H : forall m : option (nat * (nat * Outcome)), (fun x => x.2.2) <$> (prod_map S Datatypes.id <$> m) = (fun x => x.2.2) <$> m) by (by intros [[? []]|]).
  unfold outcome. rewrite settle_request_settled. generalize (settled s) as l. induction l as [|[j r] l IH]; simpl.
  - destruct (decide (id = i)), (decide (i = id)); simpl; congruence.
  - destruct (decide (j = i)); [done|]. by rewrite !H.
Qed.

Lemma settle_pending_spec i q id p o s : (i, q) ∈ pending (settle_request id p o s) <-> i <> id /\ (i, q) ∈ pending s.
Proof. rewrite settle_request_pending, list_elem_of_filter. done. Qed.

Lemma settle_pending_keys i id p o s : i ∈ (pending (settle_request id p o s)).*1 <-> i <> id /\ i ∈ (pending s).*1.
Proof.
  rewrite !list_elem_of_fmap. split.
  - intros ([j q] & -> & Hj). apply settle_pending_spec in Hj as [Hn Hj]. split; [done|]. by exists (j, q).
  - intros [Hn ([j q] & -> & Hj)]. exists (j, q). split; [done|]. by apply settle_pending_spec.
Qed.

Lemma settle_settled_keys i id p o s : i ∈ (settled (settle_request id p o s)).*1 <-> i ∈ (settled s).*1 \/ i = id.
Proof. rewrite settle_request_settled, fmap_app, elem_of_app. simpl. by rewrite list_elem_of_singleton. Qed.

Lemma resolved_settle i id p o s : resolved i (settle_request id p o s) -> resolved i s \/ (i = id /\ exists v, o = Resolved v).
Proof.
  intros [v Hv]. rewrite outcome_settle in Hv. destruct (outcome i s) as [r|] eqn:E; [left; exists v; congruence|].
  case_decide; [|done]. injection Hv as ->. right. eauto.
Qed.

Lemma resolved_settle_back i id p o s : resolved i s -> resolved i (settle_request id p o s).
Proof. intros [v Hv]. exists v. by rewrite outcome_settle, Hv. Qed.

Lemma outcome_settle_some i id p o s : is_Some (outcome i s) \/ i = id -> is_Some (outcome i (settle_request id p o s)).
Proof. rewrite outcome_settle. intros [[r ->]| ->]; [done|]. destruct (outcome id s); [done|]. by rewrite decide_True. Qed.

Lemma settle_base id p o s : Base s -> (id < nextId s)%nat -> (forall v, o = Resolved v -> id ∈ (pending s).*1) -> Base (settle_request id p o s).
Proof.
  intros HB Hid Ho. destruct (settle_request_only id p o s). split.
  - destruct (b_keys s HB) as [Hn Hlt]. split.
    + rewrite settle_request_pending. eapply sublist_NoDup; [exact Hn|apply fmap_sublist, sublist_filter].
    + intros i. rewrite settle_pending_keys, settle_settled_keys, ro_next. intros [[_ H]|[H| ->]]; [apply Hlt; auto..|done].
  - intros i. rewrite settle_pending_keys, settle_settled_keys. intros [Hn Hi] [Hs| ->]; [by apply (b_fresh s HB i)|done].
  - rewrite ro_socket, ro_sockets. apply HB.
  - rewrite ro_socket, ro_sockets. apply HB.
  - rewrite ro_handshakes, ro_sockets. apply HB.
  - rewrite ro_handshakes. apply HB.
  - rewrite ro_handshakes, ro_reject, ro_socket, ro_sockets. apply HB.
  - rewrite ro_handshakes, ro_socket, ro_sockets. apply HB.
  - rewrite ro_handshakes, ro_socket. intros f h i Hf Hp. destruct (b_initializing s HB f h i Hf Hp) as [H1 H2]. split.
    + destruct H1 as [H1|H1]; [|right; by apply outcome_settle_some; left]. destruct (decide (i = id)) as [->|Hn]; [right; by apply outcome_settle_some; right|].
      left. by apply settle_pending_keys.
    + unfold attached. rewrite ro_sockets. intros [Hi|Hi]; apply H2.
      * left. by apply settle_pending_keys in Hi as [_ ?].
      * apply resolved_settle in Hi as [?|[-> [v Hv]]]; [by right|left; by eapply Ho].
Qed.

Lemma settle_unanswered id p e s : unanswered s -> unanswered (settle_request id p (Rejected e) s).
Proof.
  intros HU f h i. destruct (settle_request_only id p (Rejected e) s). rewrite ro_handshakes. intros Hf Hp Hr.
  apply resolved_settle in Hr as [Hr|[_ [v Hv]]]; [by apply (HU f h i)|done].
Qed.

(** A heartbeat that is settled was answered, or its rejection is due. *)
Lemma watched_settle k id p o s : watched k s -> (forall q, (id, q) ∈ pending s -> q = p) -> (forall v, o = Resolved v -> heartbeatTimer s = true) ->
  watched k (settle_request id p o s).
Proof.
  intros Hw Hq Ho. destruct (settle_request_only id p o s). unfold watched. rewrite ro_heartbeat. destruct Hw as [H|[(i & q & Hi & Ha & Hk)|H]].
  - by left.
  - destruct (decide (i = id)) as [->|Hn].
    + rewrite (Hq q Hi) in Ha, Hk. destruct o as [v|e]; [left; by eapply Ho|]. right. right. unfold settle_request. rewrite Ha. simpl.
      rewrite elem_of_app, list_elem_of_singleton. by right.
    + right. left. exists i, q. split; [|done]. by apply settle_pending_spec.
  - right. right. unfold settle_request. destruct (awaiter p), o; simpl; rewrite ?elem_of_app; auto.
Qed.

Lemma settle_status lt id p o s : Status lt s -> (forall q, (id, q) ∈ pending s -> q = p) -> (forall v, o = Resolved v -> connectionState s = ready -> heartbeatTimer s = true) ->
  Status lt (settle_request id p o s).
Proof.
  intros HS Hq Ho. destruct (settle_request_only id p o s). unfold Status in *. rewrite ro_state.
  assert (Hi : only_initialize s -> only_initialize (settle_request id p o s)) by (intros H i q [_ Hiq]%settle_pending_spec; by eapply H).
  destruct (connectionState s) eqn:Es; unfold none_active, some_active, active_first, attached in *;
    rewrite ?ro_handshakes, ?ro_socket, ?ro_promise, ?ro_heartbeat, ?ro_timer, ?ro_sockets.
  - naive_solver.
  - naive_solver.
  - destruct HS as (H1 & H2 & k & Hk & Ha & Hw). split; [done|]. split; [done|]. exists k. split; [done|]. split; [done|].
    destruct Hw as [Hw|?]; [left|by right]. apply watched_settle; eauto.
  - naive_solver.
  - done.
Qed.

Lemma settle_inflight lt id p o s : Inflight lt s -> Inflight lt (settle_request id p o s).
Proof. intros H. destruct (settle_request_only id p o s). by eapply Inflight_same. Qed.

Lemma pending_one s id p q : Base s -> (id, p) ∈ pending s -> (id, q) ∈ pending s -> q = p.
Proof.
  intros HB Hp Hq. apply list_elem_of_lookup_1 in Hp as [i Hi], Hq as [j Hj]. destruct (b_keys s HB) as [Hn _].
  assert (i = j) as ->; [|by rewrite Hi in Hj; injection Hj].
  eapply (NoDup_lookup (pending s).*1); [done| |]; rewrite list_lookup_fmap, ?Hi, ?Hj; done.
Qed.

Lemma settle_ok lt id p e s : Ok lt s -> (id < nextId s)%nat -> (forall q, (id, q) ∈ pending s -> q = p) -> Ok lt (settle_request id p (Rejected e) s).
Proof. intros [HB HS HI] Hid Hq. split; [by apply settle_base|by apply settle_status|by apply settle_inflight]. Qed.

(** ** Losing the socket *)

Lemma failAll_pending e s : pending (failAllPending e s) = [].
Proof.
  unfold failAllPending. assert (H : forall l s, (forall x, x ∈ pending s -> x.1 ∈ l.*1) ->
    pending (foldl (fun s x => settle_request x.1 x.2 (Rejected e) s) s l) = []).
  { clear s. induction l as [|x l IH]; intros s Hs; simpl.
    - destruct (pending s) as [|y ys] eqn:E; [done|]. assert (Hy : y.1 ∈ ([] : list nat)) by (apply (Hs y); rewrite ?E; by left). by apply not_elem_of_nil in Hy.
    - apply IH. intros [i q] [Hn Hi]%settle_pending_spec. specialize (Hs _ Hi). simpl in Hs |- *. by apply elem_of_cons in Hs as [?|?]. }
  apply H. intros x Hx. by apply list_elem_of_fmap_2.
Qed.

Lemma failAll_base e s : Base s -> unanswered s -> Base (failAllPending e s) /\ unanswered (failAllPending e s).
Proof.
  unfold failAllPending. assert (H : forall l s, Base s -> unanswered s -> (forall x, x ∈ l -> (x.1 < nextId s)%nat) ->
    let s' := foldl (fun s x => settle_request x.1 x.2 (Rejected e) s) s l in Base s' /\ unanswered s').
  { clear s. induction l as [|x l IH]; intros s HB HU Hl; simpl; [done|]. assert (Hx : (x.1 < nextId s)%nat) by (apply Hl; by left).
    apply IH; [by apply settle_base|by apply settle_unanswered|].
    intros y Hy. rewrite (ro_next _ _ (settle_request_only x.1 x.2 (Rejected e) s)). apply Hl. by right. }
  intros HB HU. apply H; [done|done|]. intros x Hx. apply (b_keys s HB). left. by apply list_elem_of_fmap_2.
Qed.

Lemma settle_commutes id p o k g v s : settle_request id p o (on_socket k g (put_socket v s)) = on_socket k g (put_socket v (settle_request id p o s)).
Proof. unfold settle_request. by destruct (awaiter p), o. Qed.

Lemma failAll_commutes e k g v s : failAllPending e (on_socket k g (put_socket v s)) = on_socket k g (put_socket v (failAllPending e s)).
Proof.
  unfold failAllPending. change (pending (on_socket k g (put_socket v s))) with (pending s). generalize (pending s) as l. intros l. revert s.
  induction l as [|x l IH]; intros s; simpl; [done|]. by rewrite settle_commutes, IH.
Qed.

Definition none_opening (s : Client) : Prop := forall f h, handshakes s !! f = Some h -> phase h <> Opening.

Lemma on_socket_lookup k g s j x : sockets (on_socket k g s) !! j = Some x ->
  (j = k /\ exists y, sockets s !! k = Some y /\ x = g y) \/ (j <> k /\ sockets s !! j = Some x).
Proof.
  unfold on_socket, put_sockets. simpl. destruct (decide (k = j)) as [->|Hn].
  - rewrite list_lookup_alter_eq. intros (y & Hy & ->)%fmap_Some. left. eauto.
  - rewrite list_lookup_alter_ne by done. by right.
Qed.

Lemma on_socket_other k g s j x : sockets s !! j = Some x -> j <> k -> sockets (on_socket k g s) !! j = Some x.
Proof. intros Hx Hn. unfold on_socket, put_sockets. simpl. by rewrite list_lookup_alter_ne. Qed.

Lemma on_socket_same k g s x : sockets s !! k = Some x -> sockets (on_socket k g s) !! k = Some (g x).
Proof. intros Hx. unfold on_socket, put_sockets. simpl. by rewrite list_lookup_alter_eq, Hx. Qed.

(** The socket that owned the connection is detached; nothing waits for it any more. *)
Lemma lose_socket s k : Base s -> socket s = Some k -> none_opening s ->
  (forall f h id, handshakes s !! f = Some h -> phase h = Initializing id -> id ∉ (pending s).*1 /\ ~ resolved id s) ->
  Base (detachSocketHandlers k (put_socket None s)).
Proof.
  intros HB Hk Ho Hi. split; simpl; try apply HB; try done.
  - intros j x Hx Hm. destruct (on_socket_lookup _ _ (put_socket None s) j x Hx) as [[-> (y & Hy & ->)]|[Hn Hj]].
    + simpl in Hm. destruct Hm as [?|[f ?]]; done.
    + pose proof (b_message s HB j x Hj Hm). congruence.
  - intros j x f Hx Hm. destruct (on_socket_lookup _ _ (put_socket None s) j x Hx) as [[-> (y & Hy & ->)]|[Hn Hj]]; [done|].
    by apply (b_waits s HB j x f).
  - intros f h Hf E. by destruct (Ho f h Hf).
  - intros f h Hf E. destruct (b_dialled s HB f h Hf E) as (j & Hj & Hlt & _). exists j. rewrite length_alter. auto.
  - intros f h id Hf E. destruct (b_initializing s HB f h id Hf E) as [H1 _]. split; [done|]. by destruct (Hi f h id Hf E) as [? ?]; intros [?|?].
Qed.

Lemma closeCalled_base k s : Base s -> Base (close_socket k s).
Proof.
  intros HB. set (g := fun x => mkSocket (onmessage x) (handlers x) true).
  assert (Hback : forall j x, sockets s !! j = Some x -> exists y, sockets (on_socket k g s) !! j = Some y /\ onmessage y = onmessage x /\ handlers y = handlers x).
  { intros j x Hx. destruct (decide (j = k)) as [->|Hn]; [exists (g x); split; [by apply on_socket_same|done]|].
    exists x. split; [by apply on_socket_other|done]. }
  assert (Hfwd : forall j y, sockets (on_socket k g s) !! j = Some y -> exists x, sockets s !! j = Some x /\ onmessage y = onmessage x /\ handlers y = handlers x).
  { intros j y Hy. destruct (on_socket_lookup _ _ _ _ _ Hy) as [[-> (x & Hx & ->)]|[_ Hx]]; [by exists x|by exists y]. }
  unfold close_socket. fold g. split; try apply HB.
  - intros j Hj. destruct (b_socket s HB j Hj) as (x & Hx & Hm). destruct (Hback j x Hx) as (y & Hy & E & _). exists y. split; [done|congruence].
  - intros j y Hy. destruct (Hfwd j y Hy) as (x & Hx & -> & ->). by apply (b_message s HB j x).
  - intros j y f Hy. destruct (Hfwd j y Hy) as (x & Hx & _ & ->). by apply (b_waits s HB j x f).
  - intros f h Hf E. destruct (b_opening s HB f h Hf E) as (Hr & j & x & Hd & Hj & Hx & Hh). split; [done|].
    destruct (Hback j x Hx) as (y & Hy & _ & E2). exists j, y. repeat split; try done. congruence.
  - intros f h Hf E. destruct (b_dialled s HB f h Hf E) as (j & Hd & Hlt & Hs). exists j. unfold on_socket. simpl. by rewrite length_alter.
  - intros f h id Hf E. destruct (b_initializing s HB f h id Hf E) as [H1 H2]. split; [done|]. intros Hi.
    destruct (H2 Hi) as (j & Hd & Hs & (x & Hx & Hh)). exists j. split; [done|]. split; [done|].
    destruct (Hback j x Hx) as (y & Hy & _ & E2). exists y. split; [done|congruence].
Qed.

Lemma closeCalled_status o k s : Status o s -> Status o (close_socket k s).
Proof.
  intros HS. unfold Status in *. simpl. destruct (connectionState s) eqn:Es; try done. destruct HS as (H1 & H2 & j & Hj & (x & Hx & Hh) & Hw).
  split; [done|]. split; [done|]. exists j. split; [done|]. split; [|done]. destruct (decide (j = k)) as [->|Hn].
  - eexists. split; [by apply (on_socket_same k _ s x)|]. done.
  - exists x. split; [by apply on_socket_other|done].
Qed.

Lemma closeCalled_ok o k s : Ok o s -> Ok o (close_socket k s).
Proof. intros [HB HS HI]. split; [by apply closeCalled_base|by apply closeCalled_status|by eapply Inflight_same]. Qed.

Lemma closeCalled_settled o k s : Settled o s -> Settled o (close_socket k s).
Proof. intros [HS HU]. split; [by apply closeCalled_ok|by eapply unanswered_same]. Qed.

(** ** A handshake moves on *)

Definition at_phase (p : HandshakePhase) (h : Handshake) : Handshake := mkHandshake (dialled h) (first h) p.

Lemma on_handshake_lookup f p s g h' : handshakes (on_handshake f p s) !! g = Some h' ->
  (g = f /\ exists h, handshakes s !! f = Some h /\ h' = at_phase p h) \/ (g <> f /\ handshakes s !! g = Some h').
Proof.
  unfold on_handshake, put_handshakes. simpl. destruct (decide (f = g)) as [->|Hn].
  - rewrite list_lookup_alter_eq. intros (h & Hh & ->)%fmap_Some. left. eauto.
  - rewrite list_lookup_alter_ne by done. by right.
Qed.

Lemma on_handshake_same f p s h : handshakes s !! f = Some h -> handshakes (on_handshake f p s) !! f = Some (at_phase p h).
Proof. intros Hh. unfold on_handshake, put_handshakes. simpl. by rewrite list_lookup_alter_eq, Hh. Qed.

Lemma on_handshake_other f p s g h : handshakes s !! g = Some h -> g <> f -> handshakes (on_handshake f p s) !! g = Some h.
Proof. intros Hh Hn. unfold on_handshake, put_handshakes. simpl. by rewrite list_lookup_alter_ne. Qed.

Lemma length_on_handshake f p s : length (handshakes (on_handshake f p s)) = length (handshakes s).
Proof. unfold on_handshake, put_handshakes. simpl. by rewrite length_alter. Qed.

Lemma phase_base f p s h : Base s -> handshakes s !! f = Some h -> p <> Opening ->
  (active (at_phase p h) = true -> active h = true) ->
  (p = Opened \/ (exists id, p = Initializing id) -> exists k, dialled h = Some k /\ (k < length (sockets s))%nat /\ (socket s = Some k \/ socket s = None)) ->
  (forall id, p = Initializing id -> (id ∈ (pending s).*1 \/ is_Some (outcome id s)) /\
    (id ∈ (pending s).*1 \/ resolved id s -> exists k, dialled h = Some k /\ socket s = Some k /\ attached k s)) ->
  Base (on_handshake f p s).
Proof.
  intros HB Hf Hp Ha Hd Hi. split; try apply HB.
  - intros k x g Hx Hw. rewrite length_on_handshake. by apply (b_waits s HB k x).
  - intros g h' Hg Hac. rewrite length_on_handshake. destruct (on_handshake_lookup _ _ _ _ _ Hg) as [[-> (h0 & H0 & ->)]|[_ Hg']]; [|by apply (b_last s HB g h')].
    assert (h0 = h) as -> by congruence. by apply (b_last s HB f h); auto.
  - intros g h' Hg E. destruct (on_handshake_lookup _ _ _ _ _ Hg) as [[-> (h0 & H0 & ->)]|[_ Hg']]; [done|by apply (b_opening s HB g h')].
  - intros g h' Hg E. destruct (on_handshake_lookup _ _ _ _ _ Hg) as [[-> (h0 & H0 & ->)]|[_ Hg']]; [|by apply (b_dialled s HB g h')].
    assert (h0 = h) as -> by congruence. by apply Hd.
  - intros g h' id Hg E. destruct (on_handshake_lookup _ _ _ _ _ Hg) as [[-> (h0 & H0 & ->)]|[_ Hg']]; [|by apply (b_initializing s HB g h' id)].
    assert (h0 = h) as -> by congruence. by apply Hi.
Qed.

Lemma phase_inflight o f p s h : Inflight o s -> handshakes s !! f = Some h -> first h = true \/ (phase h <> Over /\ p <> Over) ->
  Inflight o (on_handshake f p s).
Proof.
  intros HI Hf Hc. split.
  - intros Ho g h' Hg Hn. destruct (on_handshake_lookup _ _ _ _ _ Hg) as [[-> (h0 & H0 & ->)]|[_ Hg']]; [|by apply (i_off o s HI Ho g h')].
    assert (h0 = h) as -> by congruence. simpl in Hn. destruct Hc as [?|[Hc _]]; [congruence|]. by destruct (Hc (i_off o s HI Ho f h Hf Hn)).
  - intros Hon Ho. destruct (i_on o s HI Hon Ho) as (g & h' & Hg & Hn & Hp). destruct (decide (g = f)) as [->|Hne].
    + assert (h' = h) as -> by congruence. exists f, (at_phase p h). split; [by apply on_handshake_same|]. split; [done|].
      destruct Hc as [?|[_ ?]]; [congruence|done].
    + exists g, h'. split; [by apply on_handshake_other|done].
  - intros g1 g2 h1 h2 H1 H2 N1 N2 P1 P2.
    assert (Hback : forall g h', handshakes (on_handshake f p s) !! g = Some h' -> first h' = false -> phase h' <> Over ->
      exists h0, handshakes s !! g = Some h0 /\ first h0 = false /\ phase h0 <> Over).
    { intros g h' Hg Hn Hne. destruct (on_handshake_lookup _ _ _ _ _ Hg) as [[-> (h0 & H0 & ->)]|[_ Hg']]; [|by exists h'].
      exists h0. split; [done|]. split; [done|]. assert (h0 = h) as -> by congruence. simpl in Hn. destruct Hc as [?|[? _]]; [congruence|done]. }
    destruct (Hback _ _ H1 N1 P1) as (x & ? & ? & ?), (Hback _ _ H2 N2 P2) as (y & ? & ? & ?). by eapply (i_one o s HI).
  - apply HI.
Qed.

Lemma phase_active f p s h : handshakes s !! f = Some h -> active (at_phase p h) = active h ->
  (some_active s -> some_active (on_handshake f p s)) /\ (none_active s -> none_active (on_handshake f p s)) /\
  (forall b, active_first b s -> active_first b (on_handshake f p s)).
Proof.
  intros Hf E. split; [|split].
  - intros (g & h' & Hg & Ha). destruct (decide (g = f)) as [->|Hn].
    + exists f, (at_phase p h). split; [by apply on_handshake_same|congruence].
    + exists g, h'. split; [by apply on_handshake_other|done].
  - intros Hn g h' Hg. destruct (on_handshake_lookup _ _ _ _ _ Hg) as [[-> (h0 & H0 & ->)]|[_ Hg']]; [|by eapply Hn].
    assert (h0 = h) as -> by congruence. rewrite E. by eapply Hn.
  - intros b Hb g h' Hg Ha. destruct (on_handshake_lookup _ _ _ _ _ Hg) as [[-> (h0 & H0 & ->)]|[_ Hg']]; [|by eapply Hb].
    assert (h0 = h) as -> by congruence. apply (Hb f h Hf). congruence.
Qed.

Lemma handshakes_nil f p s h : handshakes s !! f = Some h -> handshakes s = [] -> handshakes (on_handshake f p s) = [].
Proof. intros H E. by rewrite E in H. Qed.

Lemma phase_status o f p s h : Status o s -> handshakes s !! f = Some h -> active (at_phase p h) = active h -> Status o (on_handshake f p s).
Proof.
  intros HS Hf E. destruct (phase_active f p s h Hf E) as (H1 & H2 & H3). unfold Status in *.
  change (connectionState (on_handshake f p s)) with (connectionState s).
  pose proof (handshakes_nil f p s h Hf). destruct (connectionState s); simpl; naive_solver.
Qed.

Lemma phase_unanswered f p s : unanswered s -> (forall id, p = Initializing id -> ~ resolved id s) -> unanswered (on_handshake f p s).
Proof.
  intros HU Hp g h id Hg E. destruct (on_handshake_lookup _ _ _ _ _ Hg) as [[-> (h0 & H0 & ->)]|[_ Hg']]; [|by apply (HU g h)]. by apply Hp.
Qed.

(** ** A socket that opened, failed or was given up *)

Lemma settle_open_settled o f e s : Ok o s -> handshakeReject s = Some f \/ (exists k x, sockets s !! k = Some x /\ handlers x = WaitsForOpen f) ->
  Ok o (settle_open f e s) /\ (unanswered s -> unanswered (settle_open f e s)) /\ none_opening (settle_open f e s).
Proof.
  intros HOk Hf. pose proof (ok_base o s HOk) as HB.
  assert (Hone : forall g h, handshakes s !! g = Some h -> phase h = Opening -> g = f).
  { intros g h Hg E. destruct (b_opening s HB g h Hg E) as [Hr _]. destruct Hf as [Hf|(k & x & Hx & Hw)]; [congruence|].
    pose proof (b_waits s HB k x f Hx Hw). assert (S g = length (handshakes s)) by (apply (b_last s HB g h Hg); unfold active; by rewrite E). lia. }
  unfold settle_open. set (s1 := put_reject None s).
  assert (Hclear : (forall g h, handshakes s !! g = Some h -> phase h <> Opening) -> Ok o s1 /\ (unanswered s -> unanswered s1) /\ none_opening s1).
  { intros Hno. split; [|done]. split; [|by apply HOk|by eapply Inflight_same; [apply HOk| |]].
    split; try apply HB. intros g h Hg E. by destruct (Hno g h Hg). }
  change (handshakes s1) with (handshakes s). destruct (handshakes s !! f) as [h|] eqn:Hh.
  2: { apply Hclear. intros g h Hg E. rewrite (Hone g h Hg E) in Hg. congruence. }
  assert (phase h = Opening \/ phase h <> Opening) as [Ep|Hn] by (destruct (phase h); auto).
  2: { assert (Hc : Ok o s1 /\ (unanswered s -> unanswered s1) /\ none_opening s1).
       { apply Hclear. intros g h' Hg E. pose proof (Hone g h' Hg E). subst g. congruence. }
       by destruct h as [d b []]. }
  destruct (b_opening s HB f h Hh Ep) as (Hr & k & x & Hd & Hs & Hx & Hw).
  set (p := match e with Some r => Failed (OtherError r) | None => Opened end).
  assert (Hact : active (at_phase p h) = active h) by (unfold active; rewrite Ep; unfold p; by destruct e).
  assert (Hno : none_opening (on_handshake f p s1)).
  { intros g h' Hg E. destruct (on_handshake_lookup _ _ _ _ _ Hg) as [[-> (h0 & H0 & ->)]|[Hne Hg']]; [unfold p in E; by destruct e|].
    by apply Hne, (Hone g h'). }
  assert (Hres : Ok o (on_handshake f p s1) /\ (unanswered s -> unanswered (on_handshake f p s1)) /\ none_opening (on_handshake f p s1)).
  { split; [|split; [|done]].
    - split.
      + assert (HB1 : Base (on_handshake f p s)).
        { apply (phase_base f p s h HB Hh); [unfold p; by destruct e|by rewrite Hact| |].
          - intros _. exists k. split; [done|]. split; [by eapply lookup_lt_Some|by left].
          - intros id E. unfold p in E. by destruct e. }
        split; try apply HB1. intros g h' Hg E. by destruct (Hno g h' Hg).
      + apply (phase_status o f p s1 h); [apply HOk|done|done].
      + apply (phase_inflight o f p s1 h); [by eapply Inflight_same; [apply HOk| |]|done|]. right. split; [by rewrite Ep|unfold p; by destruct e].
    - intros HU. apply phase_unanswered; [done|]. intros id E. unfold p in E. by destruct e. }
  destruct h as [d b ph]. simpl in Ep. subst ph. unfold p in Hres. by destruct e.
Qed.

(** ** Requests and dials *)

Lemma outcome_known i s : is_Some (outcome i s) -> i ∈ (settled s).*1.
Proof.
  unfold outcome. destruct (list_find _ (settled s)) as [[j [i' r]]|] eqn:E; [|by intros [? ?]]. intros _.
  apply list_find_Some in E as (Hj & E & _). simpl in E. subst i'. change i with (i, r).1. apply list_elem_of_fmap_2. by eapply list_elem_of_lookup_2.
Qed.

Lemma exempt_initialize m : str_in m READY_EXEMPT_METHODS = true -> m = "initialize".
Proof. intros H%str_in_spec. by apply list_elem_of_singleton in H. Qed.

Lemma watched_mono k s s' : watched k s -> heartbeatTimer s' = heartbeatTimer s -> (forall x, x ∈ pending s -> x ∈ pending s') ->
  pingFailures s' = pingFailures s -> watched k s'.
Proof.
  unfold watched. intros Hw E1 E2 E3. rewrite E1, E3. destruct Hw as [?|[(id & p & Hi & Hr)|?]]; [by left| |by right; right].
  right. left. exists id, p. split; [by apply E2|done].
Qed.

(** A request joins the pending ones. *)
Lemma pend_ok o k p s : Ok o s -> socket s = Some k -> connectionState s = ready \/ method p = "initialize" ->
  Ok o (put_pending (pending s ++ [(nextId s, p)])%list (put_nextId (S (nextId s)) s)).
Proof.
  intros [HB HS HI] Hk Hm. set (s' := put_pending _ _).
  assert (Hnew : nextId s ∉ (pending s).*1 /\ nextId s ∉ (settled s).*1).
  { split; intros H; assert (nextId s < nextId s)%nat by (apply (b_keys s HB); auto); lia. }
  assert (Hkeys : (pending s').*1 = ((pending s).*1 ++ [nextId s])%list) by (unfold s'; simpl; by rewrite fmap_app).
  split.
  - split; try apply HB.
    + rewrite Hkeys. split.
      * apply NoDup_app. split; [apply HB|]. split; [|apply NoDup_singleton]. intros i Hi ->%list_elem_of_singleton. by apply (proj1 Hnew).
      * intros i Hi. simpl. rewrite elem_of_app, list_elem_of_singleton in Hi. destruct Hi as [[Hi| ->]|Hi]; [|lia|];
          (assert (i < nextId s)%nat by (apply (b_keys s HB); auto); lia).
    + rewrite Hkeys. intros i. rewrite elem_of_app, list_elem_of_singleton. intros [Hi| ->]; [by apply (b_fresh s HB)|exact (proj2 Hnew)].
    + intros f h id Hf E. rewrite Hkeys. destruct (b_initializing s HB f h id Hf E) as [H1 H2].
      split; [rewrite elem_of_app; naive_solver|]. rewrite elem_of_app, list_elem_of_singleton. intros [[Hi| ->]|Hi]; [by apply H2; left| |by apply H2; right].
      exfalso. destruct H1 as [H1|H1%outcome_known]; [by apply (proj1 Hnew)|by apply (proj2 Hnew)].
  - assert (Hi : connectionState s <> ready -> only_initialize s -> only_initialize s').
    { intros Hn H i q Hq. unfold s' in Hq. simpl in Hq. apply elem_of_app in Hq as [Hq|Hq]; [by eapply H|].
      apply list_elem_of_singleton in Hq. injection Hq as -> ->. by destruct Hm. }
    unfold Status in *. change (connectionState s') with (connectionState s).
    destruct (connectionState s) eqn:Es; simpl.
    + naive_solver.
    + naive_solver.
    + destruct HS as (H1 & H2 & j & Hj & Ha & Hw). split; [done|]. split; [done|]. exists j. split; [done|]. split; [done|].
      destruct Hw as [Hw|?]; [left|by right]. eapply watched_mono; [exact Hw|done| |done]. intros x Hx. unfold s'. simpl. rewrite elem_of_app. by left.
    + naive_solver.
    + destruct HS as (H1 & _). congruence.
  - by eapply Inflight_same.
Qed.

Section calls.
Context (env : Environment).

Lemma request_ok o m t a s : Ok o s -> Ok o (request env m t a s).1.
Proof.
  intros HS. unfold request. destruct (negb (bool_decide _) && _) eqn:Eg; [done|]. destruct (socket s) as [k|] eqn:Hk; [|done].
  set (p := mkPending m a k t). set (s1 := put_pending _ _).
  assert (Hm : connectionState s = ready \/ m = "initialize").
  { apply andb_false_iff in Eg as [Eg|Eg]; apply negb_false_iff in Eg; [left; by apply bool_decide_eq_true in Eg|right; by apply exempt_initialize]. }
  pose proof (pend_ok o k p s HS Hk Hm) as H1. change (Ok o s1) in H1.
  unfold transmit. destruct (takes env (tick s1)); cbn [fst]; [by eapply Ok_same|].
  apply settle_ok; [by eapply Ok_same|simpl; lia|]. intros q Hq.
  apply (pending_one s1 (nextId s) p q); [apply H1| |done]. unfold s1. simpl. rewrite elem_of_app. right. by left.
Qed.

Lemma request_unanswered m t a s : unanswered s -> unanswered (request env m t a s).1.
Proof.
  intros HU. unfold request. destruct (_ && _); [done|]. destruct (socket s) as [k|]; [|done].
  unfold transmit. destruct (takes env _); cbn [fst]; [by eapply unanswered_same|]. apply settle_unanswered. by eapply unanswered_same.
Qed.

Lemma request_settled o m t a s : Settled o s -> Settled o (request env m t a s).1.
Proof. intros [HS HU]. split; [by apply request_ok|by apply request_unanswered]. Qed.

(** What a request leaves alone. *)
Lemma request_keeps m t a s : let s' := (request env m t a s).1 in
  connectionState s' = connectionState s /\ socket s' = socket s /\ sockets s' = sockets s /\ handshakes s' = handshakes s.
Proof.
  unfold request. destruct (_ && _); [done|]. destruct (socket s) as [k|] eqn:Hk; [|done]. unfold transmit. destruct (takes env _); cbn [fst]; [done|].
  match goal with |- context [settle_request ?i ?p ?o ?x] => destruct (settle_request_only i p o x) as [-> _ -> -> ->] end. done.
Qed.

Lemma request_id m t a s s' id : request env m t a s = (s', inr id) ->
  exists k, socket s = Some k /\ (id ∈ (pending s').*1 \/ is_Some (outcome id s')) /\ (Base s -> ~ resolved id s').
Proof.
  unfold request. destruct (_ && _); [done|]. destruct (socket s) as [k|]; [|done].
  assert (Hold : Base s -> outcome (nextId s) s = None).
  { intros HB. destruct (outcome (nextId s) s) eqn:E; [|done]. assert (Hs : nextId s ∈ (settled s).*1) by (apply outcome_known; by rewrite E).
    assert (nextId s < nextId s)%nat by (apply (b_keys s HB); auto). lia. }
  set (s1 := put_pending _ _). assert (Hin : nextId s ∈ (pending s1).*1) by (unfold s1; simpl; rewrite fmap_app, elem_of_app; right; by left).
  unfold transmit. destruct (takes env _); intros [= <- <-]; exists k; (split; [done|]); split.
  - by left.
  - intros HB [v Hv]. specialize (Hold HB). unfold outcome in *. simpl in Hv. congruence.
  - right. apply outcome_settle_some. by right.
  - intros HB [v Hv]. rewrite outcome_settle in Hv. change (outcome (nextId s) (tock s1)) with (outcome (nextId s) s) in Hv. rewrite (Hold HB) in Hv.
    by rewrite decide_True in Hv.
Qed.

(** A handshake is dialled where none is under way and no socket is held. *)
Record dialled_from (b : bool) (s s' : Client) : Prop := {
  df_handshakes : exists h, handshakes s' = (handshakes s ++ [h])%list /\ first h = b /\ active h = true /\ (forall id, phase h <> Initializing id);
  df_state : connectionState s' = connectionState s; df_promise : connectPromise s' = connectPromise s;
  df_heartbeat : heartbeatTimer s' = heartbeatTimer s; df_timer : reconnectTimer s' = reconnectTimer s;
  df_inflight : reconnectInFlight s' = reconnectInFlight s; df_pending : pending s' = pending s; df_settled : settled s' = settled s;
  df_closed : connectionState s = closed -> socket s' = socket s }.

Lemma dial_from b s : dialled_from b s (dial env b s).
Proof.
  unfold dial. destruct (isClosed s) eqn:Ec; [split; try done; by eexists|].
  unfold isClosed in Ec. apply bool_decide_eq_false in Ec. destruct (socketFactory env (tick s)); split; try done; by eexists.
Qed.

Lemma lookup_snoc {A} (l : list A) x i y : (l ++ [x])%list !! i = Some y -> l !! i = Some y \/ (i = length l /\ y = x).
Proof. intros [?|[Hi Hy]]%lookup_app_Some; [by left|]. apply list_lookup_singleton_Some in Hy as [Hz <-]. right. split; [lia|done]. Qed.

Lemma dial_base b s : Base s -> none_active s -> socket s = None -> Base (dial env b s).
Proof.
  intros HB Hn Hs. unfold dial. set (f := length (handshakes s)).
  assert (Hold : forall g h, handshakes s !! g = Some h -> (exists p, (p = Opening \/ p = Opened \/ (exists id, p = Initializing id)) /\ phase h = p) -> False).
  { intros g h Hg (p & Hp & E). pose proof (Hn g h Hg) as Ha. unfold active in Ha. rewrite E in Ha. by destruct Hp as [->|[->|[id ->]]]. }
  assert (Hfail : forall e s1, same_base s s1 -> Base (put_handshakes (handshakes s1 ++ [mkHandshake None b (Failed e)])%list s1)).
  { intros e s1 Hsame. pose proof (Base_same s s1 HB Hsame) as HB1. destruct Hsame as [E1 E2 E3 E4 E5 E6 E7].
    split; try apply HB1; simpl; rewrite ?E6.
    - intros k x g Hx Hw. exfalso. pose proof (b_message s1 HB1 k x Hx (or_intror (ex_intro _ g Hw))). congruence.
    - intros g h [Hg|[-> _]]%lookup_snoc Ha; [|rewrite length_app; simpl; lia]. by rewrite (Hn g h Hg) in Ha.
    - intros g h [Hg|[-> ->]]%lookup_snoc E; [|done]. exfalso. eapply (Hold g h Hg). eauto.
    - intros g h [Hg|[-> ->]]%lookup_snoc E; [|by destruct E as [?|[? ?]]]. exfalso. destruct E as [E|[id E]]; eapply (Hold g h Hg); eauto 6.
    - intros g h id [Hg|[-> ->]]%lookup_snoc E; [|done]. exfalso. eapply (Hold g h Hg). eauto 6. }
  destruct (isClosed s); [by apply Hfail|]. destruct (socketFactory env (tick s)); [|by apply Hfail].
  set (k := length (sockets s)). set (x := mkSocket true (WaitsForOpen f) false).
  assert (Hmute : forall j y, sockets s !! j = Some y -> onmessage y = true \/ (exists g, handlers y = WaitsForOpen g) -> False).
  { intros j y Hy Hm. pose proof (b_message s HB j y Hy Hm). congruence. }
  assert (Hx : (sockets s ++ [x])%list !! k = Some x) by (by apply list_lookup_middle).
  split; simpl; try apply HB.
  - intros j [= <-]. by exists x.
  - intros j y [Hy|[-> ->]]%lookup_snoc Hm; [|done]. by destruct (Hmute j y Hy Hm).
  - intros j y g [Hy|[-> ->]]%lookup_snoc Hw; [by destruct (Hmute j y Hy); right; exists g|]. simpl in Hw. injection Hw as <-. rewrite length_app. simpl. unfold f. lia.
  - intros g h [Hg|[-> _]]%lookup_snoc Ha; [|rewrite length_app; simpl; lia]. by rewrite (Hn g h Hg) in Ha.
  - intros g h [Hg|[-> ->]]%lookup_snoc E; [exfalso; eapply (Hold g h Hg); eauto|]. split; [done|]. by exists k, x.
  - intros g h [Hg|[-> ->]]%lookup_snoc E; [|by destruct E as [?|[? ?]]]. exfalso. destruct E as [E|[id E]]; eapply (Hold g h Hg); eauto 6.
  - intros g h id [Hg|[-> ->]]%lookup_snoc E; [|done]. exfalso. eapply (Hold g h Hg). eauto 6.
Qed.

Lemma dial_unanswered b s : unanswered s -> unanswered (dial env b s).
Proof.
  intros HU f h id Hf E. destruct (dial_from b s) as [(h0 & E0 & _ & _ & Hni) _ _ _ _ _ _ E7 _]. unfold resolved, outcome. rewrite E7.
  rewrite E0 in Hf. apply lookup_snoc in Hf as [Hf|[_ ->]]; [by apply (HU f h)|by destruct (Hni id)].
Qed.

Lemma dial_inflight o s : Inflight o s -> reconnectInFlight s = false -> Inflight o (dial env false (put_inflight true s)).
Proof.
  intros HI Hoff. set (s1 := put_inflight true s). destruct (dial_from false s1) as [(h0 & E0 & Hfirst & Hact & _) _ _ _ _ E5 _ _ _].
  change (handshakes s1) with (handshakes s) in E0. change (reconnectInFlight s1) with true in E5.
  assert (Hover : forall g h, handshakes s !! g = Some h -> first h = false -> phase h = Over) by (apply (i_off o s HI); by left).
  assert (Hne : phase h0 <> Over) by (unfold active in Hact; destruct (phase h0); done).
  assert (Hlate : o <> Finishing) by (intros E; pose proof (i_late o s HI E); congruence).
  split; rewrite ?E0, ?E5; [by intros [?|?]| | |done].
  - intros _ _. exists (length (handshakes s)), h0. split; [by apply list_lookup_middle|done].
  - intros g1 g2 h1 h2 [H1|[-> ->]]%lookup_snoc [H2|[-> ->]]%lookup_snoc N1 N2 P1 P2; try done; exfalso; [by apply P1, (Hover g1)|by apply P1, (Hover g1)|by apply P2, (Hover g2)].
Qed.

(** An attempt begins where none is in flight. *)
Lemma attempt_settled o d s : Settled o s -> connectionState s = reconnecting -> reconnectInFlight s = false ->
  Settled o (dial env false (put_inflight true (put_timer d s))).
Proof.
  intros [[HB HS HI] HU] Es Hoff. unfold Status in HS. rewrite Es in HS. destruct HS as (Hi & Hpr & Hfirst & Hcase).
  assert (Hn : none_active s /\ socket s = None).
  { destruct Hcase as [(? & ? & _)|(f & h & Hf & Ha)]; [done|]. pose proof (i_off o s HI (or_introl Hoff) f h Hf (Hfirst f h Hf Ha)) as E.
    unfold active in Ha. by rewrite E in Ha. }
  destruct Hn as [Hn Hs]. set (s1 := put_inflight true (put_timer d s)).
  assert (HB1 : Base s1) by (by apply (Base_same s)).
  destruct (dial_from false s1) as [(h0 & E0 & Hf0 & Ha0 & _) E2 E3 E4 _ _ E7 _ _]. split; [split|].
  - by apply dial_base.
  - unfold Status. rewrite E2. change (connectionState s1) with (connectionState s). rewrite Es. split; [|split; [|split]].
    + unfold only_initialize. rewrite E7. exact Hi.
    + rewrite E3. exact Hpr.
    + intros g h. rewrite E0. intros [Hg|[_ ->]]%lookup_snoc Ha; [by apply (Hfirst g h)|done].
    + right. exists (length (handshakes s)), h0. rewrite E0. split; [by apply list_lookup_middle|done].
  - unfold s1. apply (dial_inflight o (put_timer d s)); [by eapply Inflight_same|done].
  - by apply dial_unanswered.
Qed.

Lemma retry_settled o s : Settled o s -> Settled o (retryNow env s).
Proof.
  intros HS. unfold retryNow, attemptReconnect. destruct (negb (bool_decide (connectionState s = reconnecting)) || reconnectInFlight s) eqn:E; [done|].
  change (connectionState (disarmReconnect s)) with (connectionState s). change (reconnectInFlight (disarmReconnect s)) with (reconnectInFlight s).
  rewrite E. apply orb_false_elim in E as [E1 E2]. apply negb_false_iff, bool_decide_eq_true in E1. by apply attempt_settled.
Qed.

(** *** Publishing *)

Definition publishes (p : ConnectionState -> Client -> Client) : Prop := forall o next s, next <> idle ->
  Base s -> unanswered s -> Inflight o s -> Status o (put_state next s) -> Settled o (p next s).

Section publishing.
Context (p : ConnectionState -> Client -> Client) (Hp : publishes p).

Lemma schedule_settled o s : Base s -> unanswered s -> Inflight o s -> connectionState s <> closed -> connectPromise s = true -> none_active s ->
  socket s = None -> only_initialize s -> Settled o (scheduleReconnect env p s).
Proof.
  intros HB HU HI Hc Hpr Hn Hs Hi. unfold scheduleReconnect, isClosed. rewrite bool_decide_eq_false_2 by done.
  apply Hp; [done|by eapply Base_same|done|by eapply Inflight_same|]. unfold Status. simpl. split; [done|]. split; [done|].
  split; [by intros f h Hf Ha; rewrite (Hn f h Hf) in Ha|]. left. done.
Qed.

(** What a lost socket leaves: nothing pending, no socket. *)
Lemma torn s k e : Base s -> unanswered s -> none_opening s -> socket s = Some k ->
  let s' := failAllPending e (detachSocketHandlers k (put_socket None s)) in
  Base s' /\ unanswered s' /\ pending s' = [] /\ socket s' = None /\ handshakes s' = handshakes s /\ connectionState s' = connectionState s /\
  connectPromise s' = connectPromise s /\ heartbeatTimer s' = heartbeatTimer s /\ reconnectTimer s' = reconnectTimer s /\
  reconnectInFlight s' = reconnectInFlight s /\ handshakeReject s' = handshakeReject s.
Proof.
  intros HB HU Hno Hk s'. unfold s', detachSocketHandlers. rewrite failAll_commutes. destruct (failAll_base e s HB HU) as [HB1 HU1].
  destruct (failAllPending_only e s). pose proof (failAll_pending e s) as Hp0. split; [|split].
  - apply lose_socket; [done|by rewrite ro_socket|intros f h; rewrite ro_handshakes; apply Hno|].
    intros f h id Hf E. rewrite Hp0. split; [by apply not_elem_of_nil|by apply (HU1 f h)].
  - by eapply unanswered_same.
  - repeat split; done.
Qed.

Lemma none_active_opening s : none_active s -> none_opening s.
Proof. intros Hn f h Hf E. pose proof (Hn f h Hf) as Ha. unfold active in Ha. by rewrite E in Ha. Qed.

Lemma none_pending s : pending s = [] -> only_initialize s.
Proof. intros E id q Hq. rewrite E in Hq. by apply not_elem_of_nil in Hq. Qed.

Lemma loss_ready o k code s : Base s -> unanswered s -> Inflight o s -> connectionState s = ready -> connectPromise s = true -> none_active s ->
  socket s = Some k -> Settled o (handleSocketLoss env p k code s).
Proof.
  intros HB HU HI Es Hpr Hn Hk. unfold handleSocketLoss, isClosed. rewrite bool_decide_eq_true_2 by done. rewrite bool_decide_eq_false_2 by congruence. simpl.
  destruct (torn s k (socket_closed code) HB HU (none_active_opening s Hn) Hk) as (HB1 & HU1 & H1 & H2 & H3 & H4 & H5 & _ & _ & H8 & _).
  set (s1 := failAllPending _ _) in *. rewrite H4, Es.
  apply schedule_settled; [by eapply Base_same|done|by eapply Inflight_same|simpl; congruence|simpl; congruence| |done|by apply none_pending].
  intros f h Hf. apply (Hn f h). simpl in Hf. congruence.
Qed.

Lemma loss_other o k code s : Settled o s -> connectionState s <> ready -> none_opening s -> Settled o (handleSocketLoss env p k code s).
Proof.
  intros [[HB HS HI] HU] Es Hno. unfold handleSocketLoss. destruct (negb (bool_decide (socket s = Some k)) || isClosed s) eqn:E; [done|].
  apply orb_false_elim in E as [Hk Hc]. apply negb_false_iff, bool_decide_eq_true in Hk. apply bool_decide_eq_false in Hc.
  destruct (torn s k (socket_closed code) HB HU Hno Hk) as (HB1 & HU1 & H1 & H2 & H3 & H4 & H5 & H6 & H7 & H8 & _).
  set (s1 := failAllPending _ _) in *. assert (HI1 : Inflight o s1) by (by eapply Inflight_same).
  unfold Status in HS. rewrite H4. destruct (connectionState s) eqn:Ecs; try done.
  - destruct HS as (_ & Hs & _). congruence.
  - destruct HS as (Hi & Hcase). apply Hp; [done|done|done|done|]. unfold Status. simpl. rewrite H2, H5, H3. split; [done|].
    intros Hf. destruct Hcase as [(_ & ? & _)|(? & _)]; [done|congruence].
  - destruct HS as (Hi & Hpr & Hf & Hcase). split; [split|]; try done. unfold Status. rewrite H4. split; [by apply none_pending|]. split; [congruence|].
    unfold active_first, some_active, none_active. rewrite H3. split; [done|]. right. destruct Hcase as [(_ & ? & _)|?]; [congruence|done].
Qed.

Lemma detach_none s : socket s = None -> discard (socket s) s = s.
Proof. by intros ->. Qed.

Lemma failAll_disarmed e k s : failAllPending e (disarmReconnect (disarmHeartbeat (close_socket k s))) = disarmReconnect (disarmHeartbeat (close_socket k (failAllPending e s))).
Proof.
  unfold failAllPending. change (pending (disarmReconnect _)) with (pending s). generalize (pending s) as l. intros l. revert s.
  induction l as [|x l IH]; intros s; simpl; [done|]. rewrite <- IH. f_equal. unfold settle_request. by destruct (awaiter x.2).
Qed.

Lemma close_settled o s : Settled o s -> Settled o (close p s).
Proof.
  intros HS. unfold close, isClosed. case_bool_decide as Hc; [done|].
  set (s0 := abortHandshake s).
  assert (H0 : Ok o s0 /\ unanswered s0 /\ none_opening s0).
  { unfold s0, abortHandshake. destruct HS as [HOk HU]. destruct (handshakeReject s) as [f|] eqn:Hr.
    - destruct (settle_open_settled o f (Some closed_error) s HOk) as (H1 & H2 & H3); [by left|]. auto.
    - split; [done|]. split; [done|]. intros f h Hf E. destruct (b_opening s (ok_base _ _ HOk) f h Hf E) as [Hr' _]. congruence. }
  assert (Ecomm : abortHandshake (put_socket None s) = put_socket None s0).
  { unfold s0, abortHandshake. change (handshakeReject (put_socket None s)) with (handshakeReject s). destruct (handshakeReject s) as [f|]; [|done].
    unfold settle_open. simpl. by destruct (handshakes s !! f) as [[d b []]|]. }
  rewrite Ecomm. assert (Esock : socket s0 = socket s /\ connectPromise s0 = connectPromise s /\ (handshakes s = [] -> handshakes s0 = [])).
  { unfold s0, abortHandshake, settle_open. destruct (handshakeReject s) as [f|]; [|done]. simpl.
    destruct (handshakes s !! f) as [[d b []]|] eqn:Eh; try done. split; [done|]. split; [done|]. intros E. by rewrite E in Eh. }
  destruct Esock as (Esock & Epr & Enil). rewrite <- Esock. destruct H0 as ([HB0 HS0 HI0] & HU0 & Hno0).
  assert (Hnil : connectPromise s = false -> handshakes s = []).
  { destruct HS as [[_ Hst _] _]. unfold Status in Hst. destruct (connectionState s); naive_solver congruence. }
  set (e := closed_error). destruct (socket s0) as [k|] eqn:Hk.
  - destruct (torn s0 k e HB0 HU0 Hno0 Hk) as (HB1 & HU1 & H1 & H2 & H3 & H4 & H5 & H6 & H7 & H8 & _).
    set (s1 := detachSocketHandlers k (put_socket None s0)) in *.
    set (fin := fun x => disarmReconnect (disarmHeartbeat (close_socket k x))).
    pose proof (failAll_disarmed e k s1) as Ef. change (failAllPending e (fin s1) = fin (failAllPending e s1)) in Ef.
    change (discard (Some k) (put_socket None s0)) with (close_socket k s1). change (disarmReconnect _) with (fin s1). rewrite Ef.
    apply Hp; [done| |done|by eapply Inflight_same; [exact HI0| |]|].
    + eapply Base_same; [by apply closeCalled_base|done].
    + unfold Status. simpl. rewrite H2, H5, H3, Epr. split; [done|]. intros Hf. auto.
  - set (s1 := put_socket None s0). change (discard None s1) with s1. set (s2 := disarmReconnect (disarmHeartbeat s1)).
    assert (HB2 : Base s2 /\ unanswered s2) by (split; [by eapply Base_same|done]). destruct HB2 as [HB2 HU2].
    destruct (failAll_base e s2 HB2 HU2) as [HB3 HU3]. destruct (failAllPending_only e s2).
    apply Hp; [done|done|done|by eapply Inflight_same|]. unfold Status. simpl. rewrite ro_socket, ro_promise, ro_handshakes.
    simpl. rewrite Epr. split; [done|]. intros Hf. auto.
Qed.

Lemma resume_settled o s : Settled o s -> Settled o (resumeThread env p s).
Proof.
  intros HS. unfold resumeThread. destruct (resume s); [done|]. destruct (connectionState s) eqn:Es; try done. destruct (socket s) as [k|] eqn:Hk; [|done].
  apply retry_settled, closeCalled_settled. destruct HS as [[HB Hst HI] HU]. unfold Status in Hst. rewrite Es in Hst. destruct Hst as (Hpr & Hn & _).
  apply loss_ready; try done; [by eapply Base_same|by eapply Inflight_same].
Qed.

Lemma call_settled o c s : c <> Connect -> Settled o s -> Settled o (call env p c s).
Proof.
  intros Hc HS. destruct c as [| | |m t|]; cbn [call]; [done|by apply close_settled|by apply retry_settled|by apply request_settled|by apply resume_settled].
Qed.

Lemma react_settled o s : (forall n, Connect ∉ subscribers env n) -> Settled o s -> Settled o (react env p s).
Proof.
  intros Hno HS. unfold react. specialize (Hno (tick s)). revert Hno. generalize (subscribers env (tick s)) as l.
  assert (H1 : Settled o (tock s)) by (by eapply Settled_same). revert H1. generalize (tock s). clear s HS. intros s HS l. revert s HS.
  induction l as [|c l IH]; intros s HS Hno; simpl; [done|]. apply not_elem_of_cons in Hno as [Hc Hno].
  apply IH; [|done]. by apply call_settled; [intros ->|].
Qed.

End publishing.

Lemma setState_publishes n : (forall n, Connect ∉ subscribers env n) -> publishes (setState env n).
Proof.
  intros Hno. assert (Hh : forall o next s, Settled o s -> Settled o (resume_hears next s)).
  { intros o next s HS. unfold resume_hears. destruct (resume s) as [[]|], next; try done; by eapply Settled_same. }
  induction n as [|n IH]; intros o next s Hi HB HU HI HS; simpl; case_bool_decide as E.
  - split; [split|]; try done. by eapply Status_same.
  - apply Hh. split; [split|]; [by eapply Base_same|by eapply Status_same|by eapply Inflight_same|done].
  - split; [split|]; try done. by eapply Status_same.
  - apply Hh. assert (H1 : Settled o (enter next s)) by (split; [split|]; [by eapply Base_same|by eapply Status_same|by eapply Inflight_same|done]).
    pose proof (react_settled _ IH o _ Hno H1) as H2. case_bool_decide; [by apply react_settled|done].
Qed.

End calls.
