(* ===== verification/AppwireSteps.v ===== *)
(** What each event leaves of the connection's invariant: an event that an orderly run
    takes ends with nothing owed. *)

From S2P Require Import Prelude JsString Json Wire AppwireClient AppwireFacts AppwireInvariant.

Local Open Scope string_scope.

(** ** What a publication does not touch *)

Section stable.
Context (env : Environment) (Hno : forall n, Connect ∉ subscribers env n) (St : ConnectionState -> Prop) (Hre : St reconnecting) (Hcl : St closed).

(** No call but [connect] leaves a set of states that has these two, or the promise. *)
Definition stable (s s' : Client) : Prop := (St (connectionState s) -> St (connectionState s')) /\ connectPromise s' = connectPromise s.

#[local] Instance stable_preorder : PreOrder stable.
Proof. split; [by split|]. intros a b c [H1 E1] [H2 E2]. split; [auto|congruence]. Qed.

Lemma stable_same s s' : connectionState s' = connectionState s -> connectPromise s' = connectPromise s -> stable s s'.
Proof. intros E1 E2. split; [by rewrite E1|done]. Qed.

Lemma stable_requests s s' : requests_only s s' -> stable s s'.
Proof. intros []. by apply stable_same. Qed.

Lemma stable_request m t a s : stable s (request env m t a s).1.
Proof.
  unfold request. destruct (_ && _); [done|]. destruct (socket s); [|done]. unfold transmit. destruct (takes env _); cbn [fst]; [done|].
  etransitivity; [|apply stable_requests, settle_request_only]. by apply stable_same.
Qed.

Lemma stable_dial b s : stable s (dial env b s).
Proof. destruct (dial_from env b s). by apply stable_same. Qed.

Lemma stable_retry s : stable s (retryNow env s).
Proof.
  unfold retryNow. destruct (_ || _); [done|]. transitivity (disarmReconnect s); [by apply stable_same|]. unfold attemptReconnect.
  destruct (_ || _); [done|]. etransitivity; [|apply stable_dial]. by apply stable_same.
Qed.

Section publishing.
Context (p : ConnectionState -> Client -> Client) (Hp : forall next s, St next -> stable (put_state next s) (p next s)).

Lemma stable_publish next s s' : St next -> connectPromise s' = connectPromise s -> stable s (p next s').
Proof. intros Hn E. destruct (Hp next s' Hn) as [H1 H2]. split; [intros _; by apply H1|]. rewrite H2. done. Qed.

Lemma stable_loss k code s : stable s (handleSocketLoss env p k code s).
Proof.
  unfold handleSocketLoss. destruct (_ || _); [done|]. set (s1 := failAllPending _ _).
  destruct (failAllPending_only (socket_closed code) (detachSocketHandlers k (put_socket None s))) as [E1 E2 _ _ _ _ _ _ _ _ _]. fold s1 in E1, E2. simpl in E1, E2.
  destruct (connectionState s1) eqn:Es; try (apply stable_same; congruence); [by apply stable_publish|].
  unfold scheduleReconnect. destruct (isClosed _); [apply stable_same; simpl; congruence|]. by apply stable_publish.
Qed.

Lemma abort_promise s : connectPromise (abortHandshake s) = connectPromise s.
Proof. unfold abortHandshake, settle_open. destruct (handshakeReject s) as [f|]; [|done]. simpl. by destruct (handshakes s !! f) as [[d b []]|]. Qed.

Lemma stable_call c s : c <> Connect -> stable s (call env p c s).
Proof.
  intros Hc. destruct c as [| | |m t|]; cbn [call]; [done| |apply stable_retry|apply stable_request|].
  - unfold close. destruct (isClosed s); [done|]. apply stable_publish; [done|]. destruct (failAllPending_only closed_error (disarmReconnect (disarmHeartbeat (discard (socket s) (abortHandshake (put_socket None s)))))).
    rewrite ro_promise. simpl. replace (connectPromise (discard _ _)) with (connectPromise (abortHandshake (put_socket None s))) by (unfold discard; by destruct (socket s)).
    by rewrite abort_promise.
  - unfold resumeThread. destruct (resume s); [done|]. destruct (connectionState s) eqn:Es; try done. destruct (socket s) as [k|]; [|done].
    etransitivity; [|apply stable_retry]. etransitivity; [|by apply stable_same]. etransitivity; [|apply stable_loss]. by apply stable_same.
Qed.

Lemma stable_react s : stable s (react env p s).
Proof.
  unfold react. transitivity (tock s); [by apply stable_same|]. specialize (Hno (tick s)). revert Hno. generalize (subscribers env (tick s)) as l, (tock s) as s1.
  induction l as [|c l IH]; intros s1 Hl; simpl; [done|]. apply not_elem_of_cons in Hl as [Hc Hl].
  etransitivity; [apply (stable_call c); by intros ->|by apply IH].
Qed.
End publishing.

Lemma stable_setState n next s : St next -> stable (put_state next s) (setState env n next s).
Proof.
  intros Hn. assert (Hh : forall s, stable s (resume_hears next s)) by (intros s0; unfold resume_hears; destruct (resume s0) as [[]|], next; by apply stable_same).
  revert next s Hn Hh. induction n as [|n IH]; intros next s Hn Hh; simpl; case_bool_decide as E; try (by apply stable_same).
  - etransitivity; [|apply Hh]. by apply stable_same.
  - etransitivity; [|apply Hh]. assert (Hp : forall next s, St next -> stable (put_state next s) (setState env n next s)).
    { intros next0 s0 H0. apply IH; [done|]. intros s1. unfold resume_hears. destruct (resume s1) as [[]|], next0; by apply stable_same. }
    transitivity (react env (setState env n) (enter next s)); [transitivity (enter next s); [by apply stable_same|by apply stable_react]|].
    case_bool_decide; [by apply stable_react|done].
Qed.
End stable.

(** ** Facts of every state *)

Lemma active_unique s f g h h' : Base s -> handshakes s !! f = Some h -> active h = true -> handshakes s !! g = Some h' -> active h' = true -> f = g.
Proof. intros HB Hf Ha Hg Ha'. pose proof (b_last s HB f h Hf Ha). pose proof (b_last s HB g h' Hg Ha'). lia. Qed.

Lemma none_active_unanswered s : none_active s -> unanswered s.
Proof. intros Hn f h id Hf E. pose proof (Hn f h Hf) as Ha. unfold active in Ha. by rewrite E in Ha. Qed.

Lemma ready_none o s : Status o s -> connectionState s = ready -> none_active s.
Proof. unfold Status. intros HS E. rewrite E in HS. apply HS. Qed.

(** The handshake that has gone furthest is not one that waits for an answer. *)
Lemma other_unanswered s f h : Base s -> handshakes s !! f = Some h -> active h = true -> (forall id, phase h = Initializing id -> ~ resolved id s) -> unanswered s.
Proof.
  intros HB Hf Ha Hp g h' id Hg E. assert (Ha' : active h' = true) by (unfold active; by rewrite E).
  assert (f = g) as <- by (by eapply active_unique). assert (h' = h) as -> by congruence. by apply Hp.
Qed.

Lemma over_none s f h p : Base s -> handshakes s !! f = Some h -> active h = true -> active (at_phase p h) = false -> none_active (on_handshake f p s).
Proof.
  intros HB Hf Ha Hp g h' Hg. destruct (on_handshake_lookup _ _ _ _ _ Hg) as [[-> (h0 & H0 & ->)]|[Hn Hg']]; [by assert (h0 = h) as -> by congruence|].
  destruct (active h') eqn:Ha'; [|done]. by destruct Hn, (active_unique s g f h' h).
Qed.

Lemma Status_late o o' s : Status o s -> (connectionState s = connecting -> o <> Dialling) -> (connectionState s = ready -> o <> Arming) -> Status o' s.
Proof.
  unfold Status. destruct (connectionState s); [done| | |done|done]; intros H H1 H2.
  - destruct H as (? & [(-> & _)|?]); [by destruct H1|auto].
  - destruct H as (? & ? & k & ? & ? & [?| ->]); [|by destruct H2]. split; [done|]. split; [done|]. exists k. auto.
Qed.

Lemma Inflight_late o o' s : Inflight o s -> o <> Finishing -> o' <> Finishing -> Inflight o' s.
Proof. intros [H1 H2 H3 H4] Hn Hn'. split; [|auto|done|done]. intros [?|?]; [by apply H1; left|done]. Qed.

Section steps.
Context (env : Environment) (Hno : forall n, Connect ∉ subscribers env n) (n : nat).

Let publish := setState env n.
Let Hp : publishes publish := setState_publishes env n Hno.

(** ** Calls *)

Lemma first_inflight o s : Inflight o s -> Inflight o (dial env true s).
Proof.
  intros HI. destruct (dial_from env true s) as [(h0 & E0 & Hf0 & _) _ _ _ _ E5 _ _ _].
  split; rewrite ?E0, ?E5.
  - intros Ho f h [Hf|[_ ->]]%lookup_snoc Hfst; [by apply (i_off o s HI Ho f h)|congruence].
  - intros Hon Ho. destruct (i_on o s HI Hon Ho) as (f & h & Hf & Hr). exists f, h. split; [by apply lookup_app_l_Some|done].
  - intros f g h h' [Hf|[_ ->]]%lookup_snoc [Hg|[_ ->]]%lookup_snoc N1 N2; try congruence. by apply (i_one o s HI).
  - apply HI.
Qed.

Lemma connect_ok s : Ok OnTime s -> Ok OnTime (connect env publish s).
Proof.
  intros [HB HS HI]. unfold connect, isClosed. case_bool_decide as Ec; [done|]. destruct (connectPromise s) eqn:Epr; [done|]. simpl.
  assert (Hidle : connectionState s = idle /\ handshakes s = [] /\ socket s = None /\ only_initialize s).
  { unfold Status in HS. destruct (connectionState s) eqn:Es; try done; naive_solver congruence. }
  destruct Hidle as (Es & Hnil & Hsock & Hi).
  assert (H1 : Settled Dialling (publish connecting s)).
  { apply Hp; [done|done| |by eapply Inflight_late|].
    - intros f h id Hf. by rewrite Hnil in Hf.
    - unfold Status. simpl. split; [done|]. left. done. }
  destruct (stable_setState env Hno (fun c => c <> idle) ltac:(done) ltac:(done) n connecting s ltac:(done)) as [Hst Hpr].
  specialize (Hst ltac:(done)). simpl in Hpr. fold publish in Hst, Hpr. rewrite Epr in Hpr. unfold performHandshake. set (s1 := publish connecting s) in *.
  destruct H1 as [[HB1 HS1 HI1] _]. destruct (dial_from env true s1) as [(h0 & E0 & Hf0 & Ha0 & _) E2 E3 E4 E5 E6 E7 E8 E9].
  assert (Hcase : socket s1 = None /\ handshakes s1 = [] /\ (connectionState s1 = connecting /\ only_initialize s1 \/ connectionState s1 = closed)).
  { unfold Status in HS1. destruct (connectionState s1); try done; naive_solver congruence. }
  destruct Hcase as (C1 & C2 & C5). split.
  - apply (Base_same (dial env true s1)); [|done]. apply dial_base; [done| |done]. intros f h Hf. by rewrite C2 in Hf.
  - rewrite C2 in E0. unfold Status. simpl. rewrite E2. destruct C5 as [[Ecs C5]|Ecs]; rewrite Ecs.
    + unfold only_initialize. simpl. rewrite E7. split; [done|]. right. split; [done|]. split.
      * exists 0%nat, h0. simpl. by rewrite E0.
      * intros [|f] h; simpl; rewrite E0; simpl; [by intros [= <-]|done].
    + by rewrite E9.
  - eapply Inflight_same; [apply first_inflight; by eapply Inflight_late|done|done].
Qed.

(** An attempt starts only where no handshake waits for an answer. *)
Lemma idle_attempt_unanswered o s : Ok o s -> connectionState s = reconnecting -> reconnectInFlight s = false -> unanswered s.
Proof.
  intros [HB HS HI] Es Hoff. unfold Status in HS. rewrite Es in HS. destruct HS as (_ & _ & Hf & _).
  intros f h id Hh E. assert (Ha : active h = true) by (unfold active; by rewrite E).
  pose proof (i_off o s HI (or_introl Hoff) f h Hh (Hf f h Hh Ha)). congruence.
Qed.

Lemma retry_ok s : Ok OnTime s -> Ok OnTime (retryNow env s).
Proof.
  intros HS. destruct (decide (connectionState s = reconnecting /\ reconnectInFlight s = false)) as [[Es Hoff]|Hn].
  - apply retry_settled. split; [done|]. by eapply idle_attempt_unanswered.
  - unfold retryNow. destruct (_ || _) eqn:E; [done|]. apply orb_false_elim in E as [E1 E2]. apply negb_false_iff, bool_decide_eq_true in E1. by destruct Hn.
Qed.

Lemma ready_settled o s : Ok o s -> connectionState s = ready -> Settled o s.
Proof. intros HS Es. split; [done|]. apply none_active_unanswered. by eapply ready_none; [apply HS|]. Qed.

Lemma call_ok c s : Ok OnTime s -> (c = Close -> unanswered s) -> Ok OnTime (call env publish c s).
Proof.
  intros HS Hc. destruct c as [| | |m t|]; cbn [call].
  - by apply connect_ok.
  - apply close_settled; [done|]. split; auto.
  - by apply retry_ok.
  - by apply request_ok.
  - destruct (decide (connectionState s = ready)) as [Es|Hn].
    + apply resume_settled; [done|]. by apply ready_settled.
    + unfold resumeThread. destruct (resume s); [done|]. by destruct (connectionState s).
Qed.

(** ** Handshakes *)

(** A phase that stays under way. *)
Lemma move_ok o f p s h : Ok o s -> handshakes s !! f = Some h -> active (at_phase p h) = active h -> phase h <> Over -> p <> Over -> p <> Opening ->
  p <> Opened -> (forall id, p <> Initializing id) -> Ok o (on_handshake f p s).
Proof.
  intros [HB HS HI] Hf Ha Hov Hp1 Hp2 Hp3 Hp4. split.
  - apply (phase_base f p s h HB Hf Hp2); [by rewrite Ha| |intros id E; by destruct (Hp4 id)]. intros [?|[id E]]; [done|by destruct (Hp4 id)].
  - by eapply phase_status.
  - eapply phase_inflight; [done|done|by right].
Qed.

Lemma over_finishing o s f h : Inflight o s -> handshakes s !! f = Some h -> first h = false -> phase h <> Over -> Inflight Finishing (on_handshake f Over s).
Proof.
  intros HI Hf Hfst Hov. assert (Hover : forall g h', handshakes (on_handshake f Over s) !! g = Some h' -> first h' = false -> phase h' = Over).
  { intros g h' Hg Hn. destruct (on_handshake_lookup _ _ _ _ _ Hg) as [[-> (h0 & H0 & ->)]|[Hne Hg']]; [done|].
    assert (Hd : phase h' = Over \/ phase h' <> Over) by (destruct (phase h'); auto). destruct Hd as [?|Hd]; [done|]. by destruct Hne, (i_one o s HI g f h' h). }
  split; [done|done| |].
  - intros g1 g2 h1 h2 H1 _ N1 _ P1. by destruct (P1 (Hover g1 h1 H1 N1)).
  - intros _. simpl. destruct (reconnectInFlight s) eqn:E; [done|]. by destruct (Hov (i_off o s HI (or_introl E) f h Hf Hfst)).
Qed.

Lemma finished s : Ok Finishing s -> Ok OnTime (put_inflight false s).
Proof.
  intros [HB HS HI]. split; [by eapply Base_same| |].
  - apply (Status_late Finishing OnTime); [|done|done]. by destruct (connectionState s) eqn:E; unfold Status in *; simpl; rewrite E in HS |- *.
  - split; [intros _; apply (i_off _ s HI); by right|done|apply (i_one _ s HI)|done].
Qed.

(** A torn socket: no handshake is under way any more. *)
Lemma teardown_base e s : Base s -> none_active s -> Base (noteProtocolFailure e (teardownFailedSocket s)) /\
  none_active (noteProtocolFailure e (teardownFailedSocket s)) /\ socket (noteProtocolFailure e (teardownFailedSocket s)) = None.
Proof.
  intros HB Hn. set (s1 := teardownFailedSocket s).
  assert (H1 : Base s1 /\ none_active s1 /\ socket s1 = None).
  { unfold s1, teardownFailedSocket, discard. destruct (socket s) as [k|] eqn:Hk.
    - split; [|done]. apply closeCalled_base, lose_socket; [done|done|by apply none_active_opening|].
      intros f h id Hf E. pose proof (Hn f h Hf) as Ha. unfold active in Ha. by rewrite E in Ha.
    - split; [|done]. by apply (Base_same s). }
  destruct H1 as (HB1 & Hn1 & Hs1). unfold noteProtocolFailure. destruct (is_protocol_failure e); [|done]. split; [|done]. by apply (Base_same s1).
Qed.

(** What it leaves alone. *)
Lemma teardown_rest e s : let s' := noteProtocolFailure e (teardownFailedSocket s) in
  connectionState s' = connectionState s /\ connectPromise s' = connectPromise s /\ heartbeatTimer s' = heartbeatTimer s /\ reconnectTimer s' = reconnectTimer s /\
  reconnectInFlight s' = reconnectInFlight s /\ handshakes s' = handshakes s /\ pending s' = pending s.
Proof. unfold noteProtocolFailure, teardownFailedSocket, discard. by destruct (is_protocol_failure e), (socket s). Qed.

Lemma failed_ok f h e s : Ok OnTime s -> handshakes s !! f = Some h -> phase h = Failed e -> Ok OnTime (handshake_failed env publish (first h) e (on_handshake f Over s)).
Proof.
  intros [HB HS HI] Hf Ep. assert (Ha : active h = true) by (unfold active; by rewrite Ep).
  set (s1 := on_handshake f Over s). assert (HB1 : Base s1).
  { apply (phase_base f Over s h); try done. by intros [?|[? ?]]. }
  assert (Hn1 : none_active s1) by (by eapply over_none).
  destruct (teardown_base e s1 HB1 Hn1) as (HB2 & Hn2 & Hs2). destruct (teardown_rest e s1) as (E1 & E2 & E3 & E4 & E5 & E6 & E7).
  unfold handshake_failed, first_handshake_failed, attempt_failed. set (s2 := noteProtocolFailure e (teardownFailedSocket s1)) in *.
  change (connectionState s1) with (connectionState s) in E1. change (connectPromise s1) with (connectPromise s) in E2.
  change (heartbeatTimer s1) with (heartbeatTimer s) in E3. change (reconnectTimer s1) with (reconnectTimer s) in E4. change (pending s1) with (pending s) in E7.
  assert (Hnil : handshakes s <> []) by (intros E; by rewrite E in Hf).
  destruct (first h) eqn:Hfst.
  - destruct (failAll_base (error_of e) s2 HB2 (none_active_unanswered _ Hn2)) as [HB3 HU3].
    pose proof (failAll_pending (error_of e) s2) as Hp3. destruct (failAllPending_only (error_of e) s2).
    apply Hp; [done|done|done| |].
    + apply (Inflight_same OnTime s1); [|congruence|congruence]. eapply phase_inflight; [done|done|by left].
    + unfold Status. simpl. rewrite ro_socket, ro_promise, E2, Hs2. split; [done|]. intros Hpr.
      unfold Status in HS. destruct (connectionState s); naive_solver congruence.
  - apply finished. assert (HI1 : Inflight Finishing s1) by (by eapply over_finishing; [| | |rewrite Ep]).
    unfold isClosed. change (connectionState s1) with (connectionState s). case_bool_decide as Ec.
    + split; [done| |done]. unfold Status in *. change (connectionState s1) with (connectionState s). rewrite Ec in HS |- *. simpl.
      split; [apply HS|]. naive_solver.
    + assert (HS1 : connectionState s = reconnecting /\ only_initialize s /\ connectPromise s = true).
      { unfold Status in HS. destruct (connectionState s) eqn:Es; try done.
        - naive_solver.
        - destruct HS as (_ & [(_ & ? & _)|(_ & _ & Hr)]); [done|]. specialize (Hr f h Hf Ha). congruence.
        - destruct HS as (_ & Hn & _). by rewrite (Hn f h Hf) in Ha.
        - naive_solver. }
      destruct HS1 as (Es & Hi & Hpr). assert (HI2 : Inflight Finishing s2) by (by eapply Inflight_same).
      assert (Hi2 : only_initialize s2) by (unfold only_initialize; by rewrite E7).
      destruct (is_protocol_failure e).
      * apply Hp; [done|done|by apply none_active_unanswered|done|]. unfold Status. simpl. split; [done|]. congruence.
      * apply schedule_settled; try done; [by apply none_active_unanswered|congruence|congruence].
Qed.

(** The handlers go on the socket of an opened handshake. *)
Lemma attach_ok f h k s : Ok OnTime s -> handshakes s !! f = Some h -> phase h = Opened -> dialled h = Some k ->
  let s1 := on_socket k (fun x => mkSocket (onmessage x) Attached (closeCalled x)) s in Settled OnTime s1 /\ attached k s1.
Proof.
  intros [HB HS HI] Hf Ep Hd s1. assert (Ha : active h = true) by (unfold active; by rewrite Ep).
  assert (Honly : forall g h' p, handshakes s !! g = Some h' -> phase h' = p -> p <> Opened -> active h' = true -> False).
  { intros g h' p Hg E Hne Ha'. assert (f = g) as <- by (by eapply active_unique). congruence. }
  destruct (b_dialled s HB f h Hf (or_introl Ep)) as (k' & Hd' & Hlt & _). assert (k' = k) as -> by congruence.
  apply lookup_lt_is_Some in Hlt as [x Hx]. assert (Hat : attached k s1) by (eexists; split; [by apply on_socket_same|done]).
  assert (HU : unanswered s1) by (intros g h' id Hg E; destruct (Honly g h' _ Hg E); [done|unfold active; by rewrite E]).
  split; [|done]. split; [split|done]; [| |by eapply Inflight_same].
  - split; try apply HB.
    + intros j Hj. destruct (b_socket s HB j Hj) as (y & Hy & Hm). destruct (decide (j = k)) as [->|Hn].
      * eexists. split; [by apply on_socket_same|done].
      * exists y. split; [by apply on_socket_other|done].
    + intros j y Hy Hm. destruct (on_socket_lookup _ _ _ _ _ Hy) as [[-> (z & Hz & ->)]|[_ Hy']]; [|by apply (b_message s HB j y)].
      apply (b_message s HB k z Hz). left. by destruct Hm as [?|[? ?]].
    + intros j y g Hy Hw. destruct (on_socket_lookup _ _ _ _ _ Hy) as [[-> (z & Hz & ->)]|[_ Hy']]; [done|by apply (b_waits s HB j y)].
    + intros g h' Hg E. destruct (Honly g h' _ Hg E); [done|unfold active; by rewrite E].
    + intros g h' Hg E. destruct (b_dialled s HB g h' Hg E) as (j & ? & ? & ?). exists j. unfold s1, on_socket. simpl. by rewrite length_alter.
    + intros g h' id Hg E. destruct (Honly g h' _ Hg E); [done|unfold active; by rewrite E].
  - unfold Status in *. change (connectionState s1) with (connectionState s). destruct (connectionState s); try done.
    destruct HS as (_ & Hn & _). by rewrite (Hn f h Hf) in Ha.
Qed.

Lemma handshake_opened_ok f h k s : Ok OnTime s -> handshakes s !! f = Some h -> phase h = Opened -> dialled h = Some k ->
  Ok OnTime (let s := on_socket k (fun x => mkSocket (onmessage x) Attached (closeCalled x)) s in
             let '(s, r) := request env "initialize" None (HandshakeAwaits f) s in
             on_handshake f (match r with inl e => Failed (OtherError e) | inr id => Initializing id end) s).
Proof.
  intros HOk Hf Ep Hd. destruct (attach_ok f h k s HOk Hf Ep Hd) as [H1 Hat]. set (s1 := on_socket k _ s) in *.
  pose proof (request_settled env OnTime "initialize" None (HandshakeAwaits f) s1 H1) as H2.
  pose proof (request_keeps env "initialize" None (HandshakeAwaits f) s1) as Hk. cbv zeta in Hk |- *.
  destruct (request env "initialize" None (HandshakeAwaits f) s1) as [s2 r] eqn:Er. cbn [fst] in H2, Hk. destruct Hk as (E1 & E2 & E3 & E4).
  assert (Hf2 : handshakes s2 !! f = Some h) by (by rewrite E4). destruct H2 as [[HB2 HS2 HI2] HU2].
  destruct r as [e|id]; [by eapply move_ok; [|done|unfold active; rewrite Ep|rewrite Ep|..]|].
  destruct (request_id env _ _ _ _ _ _ Er) as (k' & Hk' & Hin & Hnr).
  destruct (b_dialled s2 HB2 f h Hf2 (or_introl Ep)) as (k'' & Hd'' & Hlt & Hs). assert (k'' = k) as -> by congruence.
  rewrite E2 in Hs. assert (Hks : socket s2 = Some k) by (rewrite E2; by destruct Hs as [?|?]; congruence).
  assert (Hac : active (at_phase (Initializing id) h) = active h) by (unfold active; by rewrite Ep). split.
  - apply (phase_base f _ s2 h); [done|done|done|by rewrite Hac|intros _; exists k; auto|]. intros id' [= <-]. split; [done|].
    intros _. exists k. split; [done|]. split; [done|]. unfold attached. by rewrite E3.
  - by eapply phase_status.
  - eapply phase_inflight; [done|done|]. right. by rewrite Ep.
Qed.

(** The connection is ready: the heartbeat is the last thing armed. *)
Lemma armed s : Settled Arming s -> Ok OnTime (if isClosed s then s else armHeartbeat s).
Proof.
  intros [[HB HS HI] _]. assert (HI' : Inflight OnTime s) by (by eapply Inflight_late). unfold isClosed. case_bool_decide as Ec.
  - split; [done| |done]. apply (Status_late Arming); [done|congruence|congruence].
  - split; [by eapply Base_same| |by eapply Inflight_same]. unfold Status in *. simpl. destruct (connectionState s); try done.
    + destruct HS as (? & [(? & _)|?]); [done|]. split; [done|]. by right.
    + destruct HS as (H1 & H2 & k & Hk & Ha & _). split; [done|]. split; [done|]. exists k. split; [done|]. split; [done|]. left. by left.
Qed.

Lemma enters_ready f h k v s : Ok OnTime s -> handshakes s !! f = Some h -> active h = true -> phase h <> Over -> socket s = Some k -> attached k s ->
  Settled Arming (enterReady publish v (on_handshake f Succeeded s)).
Proof.
  intros [HB HS HI] Hf Ha Hov Hk Hat.
  assert (HB1 : Base (on_handshake f Succeeded s)) by (apply (phase_base f Succeeded s h); try done; by intros [?|[? ?]]).
  assert (Hn1 : none_active (on_handshake f Succeeded s)) by (by eapply over_none).
  unfold enterReady. apply Hp; [done|by eapply Base_same|by apply none_active_unanswered| |].
  - apply (Inflight_late OnTime); [|done|done]. eapply Inflight_same; [apply (phase_inflight OnTime f Succeeded s h HI Hf); by right|done|done].
  - unfold Status. simpl. split; [done|]. split; [done|]. exists k. auto.
Qed.

Lemma initialized_ok f h k id o s : Ok OnTime s -> handshakes s !! f = Some h -> phase h = Initializing id -> dialled h = Some k -> outcome id s = Some o ->
  Ok OnTime (initialize_settled env publish f k o s).
Proof.
  intros HOk Hf Ep Hd Ho. assert (Ha : active h = true) by (unfold active; by rewrite Ep). assert (Hov : phase h <> Over) by (by rewrite Ep).
  assert (Hfail : forall s1 e, Ok OnTime s1 -> handshakes s1 = handshakes s -> Ok OnTime (on_handshake f (Failed e) s1)).
  { intros s1 e H1 E. apply (move_ok OnTime f (Failed e) s1 h); try done. by rewrite E. }
  unfold initialize_settled. destruct o as [v|e]; [|by apply Hfail]. destruct (decodeInitializeResponse v) as [field|version]; [by apply Hfail|].
  destruct (String.eqb _ _); [|by apply Hfail]. unfold handshake_succeeded.
  destruct (b_initializing s (ok_base _ _ HOk) f h id Hf Ep) as [_ Hr]. destruct Hr as (k' & Hd' & Hk & Hat); [right; by exists v|].
  assert (k' = k) as -> by congruence. rewrite Hk. unfold transmit. destruct (takes env (tick s)); simpl; [|apply Hfail; [by eapply Ok_same|done]].
  set (s1 := tock _). assert (H1 : Ok OnTime s1) by (by eapply Ok_same).
  pose proof (enters_ready f h k v s1 H1 Hf Ha Hov Hk Hat) as H2. set (s2 := enterReady _ _ _) in *.
  apply armed. destruct (_ && _); [|done]. by apply react_settled.
Qed.

Lemma succeeded_ok f h s : Ok OnTime s -> handshakes s !! f = Some h -> phase h = Succeeded ->
  Ok OnTime (let s := on_handshake f Over s in if first h then s else put_inflight false (put_attempts 0 s)).
Proof.
  intros [HB HS HI] Hf Ep. cbv zeta. assert (Hac : active (at_phase Over h) = active h) by (unfold active; by rewrite Ep).
  assert (HB1 : Base (on_handshake f Over s)).
  { apply (phase_base f Over s h); try done. by intros [?|[? ?]]. }
  assert (HS1 : Status OnTime (on_handshake f Over s)) by (by eapply phase_status). destruct (first h) eqn:Hfst.
  - split; [done|done|]. eapply phase_inflight; [done|done|by left].
  - apply finished. split; [by eapply Base_same| |].
    + apply (Status_same Finishing (on_handshake f Over s)); [by apply (Status_late OnTime Finishing)|done].
    + eapply Inflight_same; [eapply over_finishing; [done|done|done|by rewrite Ep]|done|done].
Qed.

Lemma proceed_ok f s : Ok OnTime s -> Ok OnTime (proceed env publish f s).
Proof.
  intros HS. unfold proceed. destruct (handshakes s !! f) as [[d b ph]|] eqn:Hf; [|done]. set (h := mkHandshake d b ph) in *.
  assert (Hfail : forall e, ph = Failed e -> Ok OnTime (handshake_failed env publish b e (on_handshake f Over s))).
  { intros e E. apply (failed_ok f h e s); [done|done|exact E]. }
  assert (Hsucc : ph = Succeeded -> Ok OnTime (let s := on_handshake f Over s in if b then s else put_inflight false (put_attempts 0 s))).
  { intros E. apply (succeeded_ok f h s); [done|done|exact E]. }
  destruct d as [k|], ph as [| |id|e| |]; try done; try (by apply Hfail); try (by apply Hsucc).
  - by apply (handshake_opened_ok f h k s).
  - destruct (outcome id s) eqn:Eo; [|done]. by apply (initialized_ok f h k id).
Qed.

(** ** Heartbeats, sockets and timers *)

Lemma heartbeat_failed_ok s : Ok OnTime s -> Ok OnTime (heartbeat_failed env publish s).
Proof.
  intros HS. unfold heartbeat_failed. destruct (pingFailures s) as [|k rest] eqn:Ef; [done|].
  set (s1 := put_pingFailures rest s). destruct HS as [HB HSt HI].
  assert (HB1 : Base s1) by (by eapply Base_same). assert (HI1 : Inflight OnTime s1) by (by eapply Inflight_same).
  destruct (bool_decide (socket s1 = Some k) && bool_decide (connectionState s1 = ready)) eqn:E.
  - apply andb_prop in E as [Hk%bool_decide_eq_true Es%bool_decide_eq_true]. apply closeCalled_settled.
    unfold Status in HSt. change (connectionState s1) with (connectionState s) in Es. rewrite Es in HSt. destruct HSt as (Hpr & Hn & _).
    apply loss_ready; try done. by apply none_active_unanswered.
  - split; [done| |done]. apply andb_false_iff in E. unfold Status in *. change (connectionState s1) with (connectionState s) in *.
    destruct (connectionState s) eqn:Es; try done. destruct HSt as (H1 & H2 & j & Hj & Ha & Hw). split; [done|]. split; [done|].
    exists j. split; [done|]. split; [done|]. left. destruct Hw as [[Hw|[Hw|Hw]]|?]; [by left|by right; left| |done].
    right. right. rewrite Ef in Hw. apply elem_of_cons in Hw as [->|Hw]; [|done].
    destruct E as [E%bool_decide_eq_false|E%bool_decide_eq_false]; [|done]. by destruct E.
Qed.

Lemma waits_ok k x f e s : Ok OnTime s -> sockets s !! k = Some x -> handlers x = WaitsForOpen f -> Ok OnTime (settle_open f e s).
Proof. intros HS Hx Hw. apply settle_open_settled; [done|]. right. eauto. Qed.

Lemma loss_ok k code x s : Settled OnTime s -> sockets s !! k = Some x -> handlers x = Attached -> Settled OnTime (handleSocketLoss env publish k code s).
Proof.
  intros [HS HU] Hx Hat. destruct (decide (socket s = Some k)) as [Hk|Hk].
  - destruct (decide (connectionState s = ready)) as [Es|Es].
    + pose proof (ok_status _ _ HS) as HSt. unfold Status in HSt. rewrite Es in HSt. destruct HSt as (Hpr & Hn & _). by apply loss_ready; try apply HS.
    + apply loss_other; [done|done|done|]. intros f h Hf E. destruct (b_opening s (ok_base _ _ HS) f h Hf E) as (_ & k' & y & _ & Hk' & Hy & Hw). congruence.
  - unfold handleSocketLoss. by rewrite bool_decide_eq_false_2.
Qed.

Lemma socket_close_ok k code s : Settled OnTime s -> Ok OnTime (socket_close env publish k code s).
Proof.
  intros HS. unfold socket_close. destruct (sockets s !! k) as [[m [|f|] c]|] eqn:Hx; try apply HS.
  - by eapply waits_ok; [apply HS|done|].
  - by eapply loss_ok.
Qed.

Lemma message_ok k data s : Settled OnTime s -> Ok OnTime (socket_message env publish k data s).
Proof.
  intros HS. unfold socket_message. destruct (sockets s !! k) as [[[] hs c]|] eqn:Hx; try apply HS.
  unfold handleMessage. set (s1 := if bool_decide (connectionState s = ready) then armHeartbeat s else s).
  assert (H1 : Settled OnTime s1 /\ (connectionState s1 = ready -> heartbeatTimer s1 = true)).
  { unfold s1. case_bool_decide as Es; [|done]. split; [|done]. destruct HS as [[HB HSt HI] HU].
    split; [split; [by eapply Base_same| |by eapply Inflight_same]|done]. unfold Status in *. simpl. rewrite Es in HSt |- *.
    destruct HSt as (? & ? & j & ? & ? & _). split; [done|]. split; [done|]. exists j. split; [done|]. split; [done|]. left. by left. }
  clearbody s1. clear HS Hx s. destruct H1 as [HS Hh]. destruct data as [| |[| | | | |msg]]; try apply HS.
  assert (Hr : Ok OnTime (react env publish s1)) by (by apply react_settled).
  destruct (obj_get "id" msg) as [[| |m| | |]|]; try apply HS; try (destruct (truthy_json _); [done|apply HS]).
  destruct (list_find _ (pending s1)) as [[i [id p]]|] eqn:Ef; [|apply HS]. apply list_find_Some in Ef as (Hi & _ & _).
  apply list_elem_of_lookup_2 in Hi. destruct HS as [[HB HSt HI] _].
  assert (Hk : id ∈ (pending s1).*1) by (by apply (list_elem_of_fmap_2 fst) in Hi). assert (Hlt : (id < nextId s1)%nat) by (apply (b_keys s1 HB); auto).
  split; [by apply settle_base|apply settle_status; [done| |auto]|by apply settle_inflight]. intros q Hq. by eapply pending_one.
Qed.

Lemma heartbeat_fires_ok s : Ok OnTime s -> Ok OnTime (heartbeat_fires env s).
Proof.
  intros HS. unfold heartbeat_fires. destruct (heartbeatTimer s) eqn:Eh; [|done]. set (s1 := put_heartbeat false s). destruct HS as [HB HSt HI].
  assert (H1 : Ok Arming s1).
  { split; [by eapply Base_same| |by eapply Inflight_same; [eapply (Inflight_late OnTime Arming)|..]]. unfold Status in *. simpl. destruct (connectionState s); try done; [naive_solver|].
    destruct HSt as (? & ? & k & ? & ? & _). split; [done|]. split; [done|]. exists k. auto. }
  assert (Hother : connectionState s <> ready -> Ok OnTime s1).
  { intros Es. split; [apply H1| |apply (Inflight_late Arming); [apply H1|done..]]. by apply (Status_late Arming); [apply H1| |]. }
  unfold sendHeartbeat. change (connectionState s1) with (connectionState s). case_bool_decide as Es; simpl; [|by apply Hother].
  pose proof (ok_status _ _ H1) as HS1. unfold Status in HS1. change (connectionState s1) with (connectionState s) in HS1. rewrite Es in HS1.
  destruct HS1 as (Hpr & Hn & k & Hk & Ha & _). change (socket s1) with (socket s) in Hk. rewrite Hk.
  pose proof (request_ok env Arming "ping" (Some HEARTBEAT_TIMEOUT_MS) HeartbeatAwaits s1 H1) as [HB2 HS2 HI2].
  destruct (request_keeps env "ping" (Some HEARTBEAT_TIMEOUT_MS) HeartbeatAwaits s1) as (E1 & E2 & _).
  assert (Hw : watched k (request env "ping" (Some HEARTBEAT_TIMEOUT_MS) HeartbeatAwaits s1).1).
  { unfold request. change (connectionState s1) with (connectionState s). change (socket s1) with (socket s). rewrite Es, Hk. simpl. unfold transmit. destruct (takes env _); cbn [fst].
    - right. left. eexists (nextId s1), _. split; [simpl; apply elem_of_app; right; by left|done].
    - right. right. unfold settle_request. simpl. rewrite elem_of_app. right. by left. }
  set (s2 := (request _ _ _ _ s1).1) in *. split; [done| |by apply (Inflight_late Arming)].
  unfold Status in *. rewrite E1 in HS2 |- *. change (connectionState s1) with (connectionState s) in *. rewrite Es in *.
  destruct HS2 as (? & ? & k' & Hk' & ? & _). assert (k' = k) as -> by (rewrite E2 in Hk'; change (socket s1) with (socket s) in Hk'; congruence).
  split; [done|]. split; [done|]. exists k. auto.
Qed.

Lemma settle_taken id p o s : settle_request id p o (put_pending (filter (fun x => x.1 <> id) (pending s)) s) = settle_request id p o s.
Proof.
  assert (E : filter (fun x : nat * PendingRequest => x.1 <> id) (filter (fun x => x.1 <> id) (pending s)) = filter (fun x => x.1 <> id) (pending s)).
  { apply filter_all, Forall_forall. intros x Hx. by apply list_elem_of_filter in Hx as [? _]. }
  unfold settle_request. simpl. by rewrite E.
Qed.

Lemma settle_closed id p o k s : settle_request id p o (close_socket k s) = close_socket k (settle_request id p o s).
Proof. unfold settle_request. by destruct (awaiter p), o. Qed.

Lemma taken_base id s : Base s -> none_active s -> Base (put_pending (filter (fun x => x.1 <> id) (pending s)) s).
Proof.
  intros HB Hn. assert (Hsub : forall i, i ∈ (filter (fun x : nat * PendingRequest => x.1 <> id) (pending s)).*1 -> i ∈ (pending s).*1).
  { intros i ([j q] & -> & [_ Hq]%list_elem_of_filter)%list_elem_of_fmap. by apply (list_elem_of_fmap_2 fst) in Hq. }
  split; try apply HB.
  - destruct (b_keys s HB) as [Hnd Hlt]. split; [eapply sublist_NoDup; [exact Hnd|apply fmap_sublist, sublist_filter]|].
    intros i [Hi|Hi]; apply Hlt; [left; by apply Hsub|by right].
  - intros i Hi. apply (b_fresh s HB), Hsub, Hi.
  - intros f h i Hf E. pose proof (Hn f h Hf) as Ha. unfold active in Ha. by rewrite E in Ha.
Qed.

Lemma owned_not_initialize m : str_in m COMPLETION_OWNED_METHODS = true -> m <> "initialize".
Proof. by intros H ->. Qed.

(** An owned request whose answer never came takes its socket with it. *)
Lemma owned_expires_ok id p e s : Ok OnTime s -> accounted [] s -> (id, p) ∈ pending s -> str_in (method p) COMPLETION_OWNED_METHODS = true ->
  Ok OnTime (settle_request id p (Rejected e) (handleSocketLoss env publish (sentOn p) 1000 (put_pending (filter (fun x => x.1 <> id) (pending s)) s))).
Proof.
  intros HS Hac Hi Ho. destruct HS as [HB HSt HI]. set (s1 := put_pending _ s). set (k := sentOn p).
  assert (Hk : id ∈ (pending s).*1) by (by apply (list_elem_of_fmap_2 fst) in Hi).
  destruct (decide (connectionState s = ready /\ socket s = Some k)) as [[Es Hs]|Hn].
  - unfold Status in HSt. rewrite Es in HSt. destruct HSt as (Hpr & Hn & _).
    assert (H2 : Settled OnTime (handleSocketLoss env publish k 1000 s1)).
    { apply loss_ready; try done; [by apply taken_base|by apply none_active_unanswered|by eapply Inflight_same]. }
    assert (Ha : accounted [id] (handleSocketLoss env publish k 1000 s1)).
    { apply keeps_loss; [intros next s0; apply keeps_setState|]. by apply (accounted_take [] id p). }
    set (s2 := handleSocketLoss _ _ _ _ _) in *. apply settle_ok; [apply H2| |].
    + destruct Ha as [H1 Ha]. assert (Hin : id ∈ seq 1 (pred (nextId s2))) by (rewrite <- Ha; by left). apply elem_of_seq in Hin. lia.
    + intros q Hq. apply accounted_nodup in Ha. apply NoDup_cons in Ha as [Hnot _]. destruct Hnot. apply elem_of_app. left.
      by apply (list_elem_of_fmap_2 fst) in Hq.
  - replace (handleSocketLoss env publish k 1000 s1) with s1.
    + unfold s1. rewrite settle_taken. apply settle_ok; [done|by apply (b_keys s HB); left|]. intros q Hq. by eapply pending_one.
    + unfold handleSocketLoss, isClosed. change (socket s1) with (socket s). change (connectionState s1) with (connectionState s).
      case_bool_decide as Hs; [|done]. case_bool_decide as Ec; [done|]. simpl. exfalso.
      assert (Hoi : connectionState s <> ready -> only_initialize s) by (unfold Status in HSt; destruct (connectionState s); naive_solver).
      destruct (decide (connectionState s = ready)) as [?|Hne]; [by destruct Hn|]. by apply (owned_not_initialize _ Ho), (Hoi Hne id p).
Qed.

Lemma expires_ok id s : Ok OnTime s -> accounted [] s -> Ok OnTime (request_expires env publish id s).
Proof.
  intros HS Hac. unfold request_expires. destruct (list_find _ (pending s)) as [[i [id' p]]|] eqn:Ef; [|done].
  apply list_find_Some in Ef as (Hi & E & _). simpl in E. subst id'. apply list_elem_of_lookup_2 in Hi. pose proof (ok_base _ _ HS) as HB.
  assert (Hplain : forall e, Ok OnTime (settle_request id p (Rejected e) (put_pending (filter (fun x => x.1 <> id) (pending s)) s))).
  { intros e. rewrite settle_taken. apply settle_ok; [done| |intros q Hq; by eapply pending_one]. apply (b_keys s HB). left. by apply (list_elem_of_fmap_2 fst) in Hi. }
  destruct (explicitTimeout p); [done|]. destruct (str_in (method p) COMPLETION_OWNED_METHODS) eqn:Eo; [|done].
  rewrite settle_closed. apply closeCalled_ok. by apply owned_expires_ok.
Qed.

Lemma quiet_unanswered s : quiet s = true -> unanswered s.
Proof.
  unfold quiet. intros [[Hq _]%andb_prop _]%andb_prop f h id Hf E [v Hv]. rewrite forallb_forall in Hq.
  specialize (Hq h). rewrite <- list_elem_of_In in Hq. specialize (Hq (list_elem_of_lookup_2 _ _ _ Hf)). unfold handshake_due in Hq. by rewrite E, Hv in Hq.
Qed.

Lemma quiet_waiting s f h : quiet s = true -> handshakes s !! f = Some h -> phase h <> Over ->
  phase h = Opening \/ exists id, phase h = Initializing id /\ outcome id s = None.
Proof.
  unfold quiet. intros [[Hq _]%andb_prop _]%andb_prop Hf Ho. rewrite forallb_forall in Hq. specialize (Hq h). rewrite <- list_elem_of_In in Hq.
  specialize (Hq (list_elem_of_lookup_2 _ _ _ Hf)). unfold handshake_due in Hq. destruct (phase h) as [| |id|e| |]; try done; [by left|].
  right. exists id. split; [done|]. by destruct (outcome id s).
Qed.

Lemma reconnect_fires_ok s : Ok OnTime s -> quiet s = true -> Ok OnTime (reconnect_fires env s).
Proof.
  intros HS Hq. unfold reconnect_fires. destruct (reconnectTimer s) as [d|] eqn:Et; [|done]. unfold attemptReconnect.
  change (connectionState (put_timer None s)) with (connectionState s). change (reconnectInFlight (put_timer None s)) with (reconnectInFlight s).
  destruct (_ || _) eqn:E.
  - destruct HS as [HB HSt HI]. split; [by eapply Base_same| |by eapply Inflight_same]. unfold Status in *. simpl.
    destruct (connectionState s) eqn:Es; try done. simpl in E. destruct (i_on _ s HI E ltac:(done)) as (f & h & Hf & Hfst & Hov).
    destruct HSt as (? & ? & ? & _). split; [done|]. split; [done|]. split; [done|]. right. exists f, h. split; [done|].
    unfold active. destruct (quiet_waiting s f h Hq Hf Hov) as [-> |(id & -> & _)]; done.
  - apply orb_false_elim in E as [E1 E2]. apply negb_false_iff, bool_decide_eq_true in E1. apply attempt_settled; [|done|done].
    split; [done|by apply quiet_unanswered].
Qed.

Lemma resume_proceeds_ok hook s : Ok OnTime s -> Ok OnTime (resume_proceeds env hook s).
Proof.
  intros HS. assert (Hr : forall s r, Ok OnTime s -> Ok OnTime (put_resume r s)) by (intros s0 r H0; by eapply Ok_same).
  unfold resume_proceeds. destruct (resume s) as [[]|]; try done; try by apply Hr.
  - destruct hook; [|by apply Hr]. pose proof (request_ok env OnTime "thread/resume" None ResumeAwaits s HS) as H1.
    destruct (request _ _ _ _ s). by apply Hr.
  - destruct (outcome id s); [by apply Hr|done].
Qed.

(** ** Events *)

(** What an orderly page and its host do: a socket or a timer speaks once the
    continuations due have run, and nothing closes the client between a handshake's
    response and its continuation. *)
Definition answered (s : Client) : bool :=
  existsb (fun h => match phase h with Initializing id => match outcome id s with Some (Resolved _) => true | _ => false end | _ => false end) (handshakes s).

Definition orderly (e : Event) (s : Client) : bool := can_happen e s && match e with Called Close => negb (answered s) | _ => true end.

Lemma answered_spec s : answered s = false -> unanswered s.
Proof.
  intros Hn f h id Hf E [v Hv]. enough (answered s = true) by congruence. apply existsb_exists. exists h.
  split; [by eapply list_elem_of_In, list_elem_of_lookup_2|]. by rewrite E, Hv.
Qed.

Lemma event_keeps_ok e s : orderly e s = true -> accounted [] s -> Ok OnTime s -> Ok OnTime (take env n e s).
Proof.
  intros [Hcan Hclose]%andb_prop Hac HS. assert (Hq : is_task e = true -> quiet s = true) by (unfold can_happen in Hcan; by destruct (is_task e)).
  assert (Hs : is_task e = true -> Settled OnTime s) by (intros Ht; split; [done|by apply quiet_unanswered, Hq]).
  destruct e as [c|f| |hook|k|k|k code|k data|id| | |]; cbn [take].
  - apply call_ok; [done|]. intros ->. by apply answered_spec, negb_true_iff.
  - by apply proceed_ok.
  - by apply heartbeat_failed_ok.
  - by apply resume_proceeds_ok.
  - unfold socket_open. destruct (sockets s !! k) as [[m [|f|] c]|] eqn:Hx; try done. by eapply waits_ok.
  - unfold socket_error. destruct (sockets s !! k) as [[m [|f|] c]|] eqn:Hx; try done. by eapply waits_ok.
  - by apply socket_close_ok, Hs.
  - by apply message_ok, Hs.
  - by apply expires_ok.
  - by apply heartbeat_fires_ok.
  - by apply reconnect_fires_ok; [|apply Hq].
  - unfold resume_expires. destruct (resume s) as [[]|]; try done. by eapply Ok_same.
Qed.

End steps.

Lemma new_client_ok : Ok OnTime new_client /\ accounted [] new_client.
Proof.
  split; [split|].
  - split; simpl; try done. split; [constructor|]. intros id [Hi|Hi]; by apply not_elem_of_nil in Hi.
    intros id Hi. by apply not_elem_of_nil in Hi.
  - unfold Status. simpl. repeat split; try done. intros id p Hi. by apply not_elem_of_nil in Hi.
  - by split.
  - by split.
Qed.
