(* ===== verification/AppwireTheorems.v ===== *)
(** What the hub connection guarantees: it never falls silent, it closes for good, every
    request is answered once, and its subscribers and its backoff are bounded. *)

From S2P Require Import Prelude JsString Json Wire AppwireClient AppwireFacts AppwireInvariant AppwireSteps.

Local Open Scope string_scope.

(** ** Runs *)

Definition run (env : Environment) (fuel : nat) (es : list Event) (s : Client) : Client := foldl (fun s e => take env fuel e s) s es.

(** Each event of the run is orderly where it happens. *)
Fixpoint orderly_run (env : Environment) (fuel : nat) (es : list Event) (s : Client) : bool :=
  match es with [] => true | e :: es => orderly e s && orderly_run env fuel es (take env fuel e s) end.

(** Nobody calls [connect] from a subscriber. *)
Definition subscribers_wait (env : Environment) : Prop := forall n, Connect ∉ subscribers env n.

Lemma run_append env fuel es es' s : run env fuel (es ++ es')%list s = run env fuel es' (run env fuel es s).
Proof. apply foldl_app. Qed.

Lemma run_accounted env fuel es s : accounted [] s -> accounted [] (run env fuel es s).
Proof. revert s. induction es as [|e es IH]; intros s Ha; simpl; [done|]. by apply IH, keeps_take. Qed.

Lemma run_keeps_ok env fuel es s : subscribers_wait env -> orderly_run env fuel es s = true -> accounted [] s -> Ok OnTime s -> Ok OnTime (run env fuel es s).
Proof.
  intros Hw. revert s. induction es as [|e es IH]; intros s Ho Ha HS; simpl; [done|]. simpl in Ho. apply andb_prop in Ho as [He Ho].
  apply IH; [done|by apply keeps_take|]. by apply event_keeps_ok.
Qed.

Lemma run_from_new env fuel es : subscribers_wait env -> orderly_run env fuel es new_client = true -> Ok OnTime (run env fuel es new_client).
Proof. intros Hw Ho. destruct new_client_ok. by apply run_keeps_ok. Qed.

(** ** What wakes a connection *)

(** A handshake waits for its socket to open, or for the answer to a request whose timer
    is armed. *)
Definition handshake_waits (b : bool) (s : Client) : Prop :=
  exists f h k, handshakes s !! f = Some h /\ first h = b /\ dialled h = Some k /\ socket s = Some k /\
    ((phase h = Opening /\ exists x, sockets s !! k = Some x /\ handlers x = WaitsForOpen f) \/
     (exists id, phase h = Initializing id /\ id ∈ (pending s).*1 /\ attached k s)).

(** What will move the connection on, in each state. *)
Definition wakes (s : Client) : Prop :=
  match connectionState s with
  | idle | closed => socket s = None
  | connecting => handshake_waits true s
  | reconnecting => is_Some (reconnectTimer s) \/ handshake_waits false s
  | ready => exists k, socket s = Some k /\ attached k s /\
      (heartbeatTimer s = true \/ exists id p, (id, p) ∈ pending s /\ awaiter p = HeartbeatAwaits /\ sentOn p = k)
  end.

Lemma active_waits b s : Base s -> quiet s = true -> some_active s -> active_first b s -> handshake_waits b s.
Proof.
  intros HB Hq (f & h & Hf & Ha) Hb. assert (Hov : phase h <> Over) by (intros E; unfold active in Ha; by rewrite E in Ha).
  destruct (quiet_waiting s f h Hq Hf Hov) as [E|(id & E & Ho)].
  - destruct (b_opening s HB f h Hf E) as (_ & k & x & Hd & Hk & Hx & Hw). exists f, h, k. split; [done|]. split; [by apply (Hb f)|]. eauto 8.
  - destruct (b_initializing s HB f h id Hf E) as [Hi Hd]. assert (Hp : id ∈ (pending s).*1).
    { destruct Hi as [?|Hi]; [done|]. rewrite Ho in Hi. by destruct Hi. }
    destruct Hd as (k & Hd & Hk & Hat); [by left|]. exists f, h, k. split; [done|]. split; [by apply (Hb f)|]. eauto 8.
Qed.

(** C15: A connection never falls silent. In every orderly run, once the continuations due
    have run, a connecting or reconnecting client waits on a socket with its open, error
    and close handlers set, on an initialize request with its timer armed or on the
    backoff timer, and a ready client listens on its socket with the heartbeat timer or
    a ping's timeout armed; an idle or closed client holds no socket. *)
Theorem connection_is_watched env fuel es : subscribers_wait env -> orderly_run env fuel es new_client = true ->
  quiet (run env fuel es new_client) = true -> wakes (run env fuel es new_client).
Proof.
  intros Hw Ho Hq. pose proof (run_from_new env fuel es Hw Ho) as [HB HS _]. set (s := run env fuel es new_client) in *.
  unfold Status in HS. unfold wakes. destruct (connectionState s).
  - apply HS.
  - destruct HS as (_ & [(? & _)|(_ & Hs & Hf)]); [done|]. by apply active_waits.
  - destruct HS as (_ & _ & k & Hk & Ha & [[Hh|[Hp|Hf]]|?]); [..|done]; exists k; auto.
    unfold quiet in Hq. destruct (pingFailures s); [by apply not_elem_of_nil in Hf|]. by rewrite andb_false_r in Hq.
  - destruct HS as (_ & _ & Hf & [(_ & _ & Ht)|Hs]); [by left|right]. by apply active_waits.
  - apply HS.
Qed.

(** One connection at a time. In every orderly run only the client's own socket can
    deliver a message or is waited for to open, and at most one handshake is under way. *)
Theorem one_socket_listens env fuel es : subscribers_wait env -> orderly_run env fuel es new_client = true ->
  let s := run env fuel es new_client in
  (forall k x, sockets s !! k = Some x -> onmessage x = true \/ (exists f, handlers x = WaitsForOpen f) -> socket s = Some k) /\
  (forall f g h h', handshakes s !! f = Some h -> active h = true -> handshakes s !! g = Some h' -> active h' = true -> f = g).
Proof.
  intros Hw Ho s. pose proof (run_from_new env fuel es Hw Ho) as [HB _ _]. split; [apply (b_message _ HB)|].
  intros f g h h' Hf Ha Hg Ha'. by apply (active_unique s f g h h').
Qed.

(** ** Nesting *)

(** Publications that agree on everything the client publishes. *)
Definition same_publication (p q : ConnectionState -> Client -> Client) : Prop := forall next s, next <> idle -> p next s = q next s.

Section same.
Context (env : Environment) (p q : ConnectionState -> Client -> Client) (Hs : same_publication p q) (Hl : lands p).

Lemma same_agree s : agree (rank s) p q.
Proof. intros next s' Hn _. by apply Hs. Qed.

Lemma same_loss k code s : handleSocketLoss env p k code s = handleSocketLoss env q k code s.
Proof. apply loss_agrees, same_agree. Qed.

Lemma same_call c s : call env p c s = call env q c s.
Proof. apply call_agrees, same_agree. Qed.

Lemma same_react s : react env p s = react env q s.
Proof. by apply react_agrees; [apply same_agree|]. Qed.

Lemma same_failed b e s : handshake_failed env p b e s = handshake_failed env q b e s.
Proof.
  unfold handshake_failed, first_handshake_failed, attempt_failed. destruct b; [by apply Hs|]. destruct (isClosed s); [done|]. f_equal.
  destruct (is_protocol_failure e); [by apply Hs|]. unfold scheduleReconnect. destruct (isClosed _); [done|]. by apply Hs.
Qed.

Lemma same_initialize f k o s : initialize_settled env p f k o s = initialize_settled env q f k o s.
Proof.
  unfold initialize_settled. destruct o as [v|e]; [|done]. destruct (decodeInitializeResponse v); [done|]. destruct (String.eqb _ _); [|done].
  unfold handshake_succeeded, enterReady. destruct (match socket s with Some j => _ | None => _ end) as [s1 took]. destruct took; [|done]. simpl.
  rewrite (Hs ready) by done. set (s2 := q ready _). by rewrite same_react.
Qed.

Lemma same_proceed f s : proceed env p f s = proceed env q f s.
Proof.
  unfold proceed. destruct (handshakes s !! f) as [[[k|] b []]|]; try done; try apply same_failed.
  destruct (outcome id s); [apply same_initialize|done].
Qed.

Lemma same_message k data s : socket_message env p k data s = socket_message env q k data s.
Proof.
  unfold socket_message. destruct (sockets s !! k) as [[[] ? ?]|]; [|exact eq_refl..]. unfold handleMessage. cbv zeta.
  by rewrite same_react.
Qed.
End same.

(** C18: However subscribers nest their calls, a publication ends: a subscriber that
    publishes always publishes a state the client cannot come back from within the same
    publication, so four levels of nesting are all there are. *)
Theorem subscribers_terminate env e s n : (4 <= n)%nat -> take env n e s = take env 4 e s.
Proof.
  intros Hn. assert (Hs : same_publication (setState env n) (setState env 4)).
  { intros next s0 Hi. assert (rank (enter next s0) < 4)%nat by (unfold rank; destruct next; simpl; try done; destruct (connectPromise s0); lia).
    apply setState_deep; [done|lia|lia]. }
  pose proof (setState_lands env n) as Hl.
  destruct e as [c|f| |hook|k|k|k code|k data|id| | |]; cbn [take]; [..|exact eq_refl|exact eq_refl|exact eq_refl].
  - by apply same_call.
  - by apply same_proceed.
  - unfold heartbeat_failed. destruct (pingFailures s); [done|]. by rewrite (same_loss env _ _ Hs).
  - exact eq_refl.
  - exact eq_refl.
  - exact eq_refl.
  - unfold socket_close. by rewrite (same_loss env _ _ Hs).
  - by apply same_message.
  - unfold request_expires. destruct (list_find _ _) as [[? [? p]]|]; [|done]. by rewrite (same_loss env _ _ Hs).
Qed.

(** ** Requests *)

(** C17: Every request is answered exactly once. Whatever the page, the sockets, the timers
    and the subscribers do, the ids the client gave out are those pending and those whose
    promise settled, each once: no answer, timeout, lost socket, close or refused send
    settles a promise a second time or forgets one. *)
Theorem requests_settle_once env fuel es :
  let s := run env fuel es new_client in ((pending s).*1 ++ (settled s).*1)%list ≡ₚ seq 1 (pred (nextId s)).
Proof. intros s. destruct new_client_ok as [_ Ha]. by destruct (run_accounted env fuel es _ Ha). Qed.

(** ** Backoff *)

Lemma backoff_range n : (RECONNECT_BASE_MS <= backoff n <= RECONNECT_MAX_MS)%Z.
Proof.
  unfold backoff, RECONNECT_BASE_MS, RECONNECT_MAX_MS. assert (1 <= 2 ^ Z.of_nat n)%Z by (apply (Z.pow_le_mono_r 2 0); lia). lia.
Qed.

(** The backoff between attempts is bounded at both ends and never shrinks: half the
    deterministic delay at least, all of it at most, which doubles from 250ms to 5s. *)
Theorem backoff_bounded n r : (0 <= r < 2 ^ 53)%Z ->
  (RECONNECT_BASE_MS / 2 <= backoff n / 2 <= reconnect_delay n r)%Z /\ (reconnect_delay n r <= backoff n <= RECONNECT_MAX_MS)%Z /\
  (backoff n <= backoff (S n))%Z /\ backoff (S n) = Z.min (2 * backoff n) RECONNECT_MAX_MS.
Proof.
  intros Hr. pose proof (backoff_range n) as Hb. set (b := backoff n) in *.
  assert (Hm : backoff (S n) = Z.min (2 * b) RECONNECT_MAX_MS).
  { unfold b, backoff, RECONNECT_BASE_MS, RECONNECT_MAX_MS. rewrite Nat2Z.inj_succ, Z.pow_succ_r by lia. lia. }
  assert (Hh : (125 <= b / 2)%Z) by (apply Z.div_le_lower_bound; unfold RECONNECT_BASE_MS in *; lia).
  assert (H2 : (2 * (b / 2) <= b)%Z) by (apply Z.mul_div_le; lia). unfold reconnect_delay. fold b. rewrite Hm. clearbody b. clear Hm n.
  assert (Hpos : (0 < 2 ^ 53)%Z) by done. revert Hr Hpos. generalize (2 ^ 53)%Z as m. intros m Hr Hm. set (h := (b / 2)%Z) in *.
  assert (Hq : (0 <= r * h / m <= h)%Z).
  { split; [apply Z.div_pos; lia|]. apply Z.div_le_upper_bound; [done|]. apply Z.mul_le_mono_nonneg_r; lia. }
  clearbody h. change (RECONNECT_BASE_MS / 2)%Z with 125%Z. unfold RECONNECT_BASE_MS, RECONNECT_MAX_MS in *. repeat split; lia.
Qed.

(** ** Closing *)

(** A closed client and what is left of it: it is closed, it announced nothing more, sent
    nothing more and dialled nothing more. *)
Record over (s s' : Client) : Prop := {
  ov_state : connectionState s' = closed; ov_socket : socket s' = None; ov_published : published s' = published s;
  ov_sent : sent s' = sent s; ov_dialled : length (sockets s') = length (sockets s) }.

#[local] Instance over_transitive : Transitive over.
Proof. intros a b c [] []. split; congruence. Qed.

Section closing.
Context (env : Environment) (fuel : nat) (s : Client) (Hc : connectionState s = closed) (Hs : socket s = None).

Let publish := setState env fuel.

Lemma over_refl : over s s.
Proof. by split. Qed.

Lemma isClosed_closed : isClosed s = true.
Proof. by apply bool_decide_eq_true_2. Qed.

Lemma closed_request m t a : exists e, request env m t a s = (s, inl e).
Proof. unfold request. rewrite Hs. destruct (_ && _); by eexists. Qed.

Lemma closed_retry : retryNow env s = s.
Proof. unfold retryNow. by rewrite bool_decide_eq_false_2 by (by rewrite Hc). Qed.

Lemma closed_loss p k code : handleSocketLoss env p k code s = s.
Proof. unfold handleSocketLoss. by rewrite isClosed_closed, orb_true_r. Qed.

Lemma closed_call p c : call env p c s = s.
Proof.
  destruct c as [| | |m t|]; cbn [call].
  - unfold connect. by rewrite isClosed_closed.
  - unfold close. by rewrite isClosed_closed.
  - apply closed_retry.
  - by destruct (closed_request m t CallerAwaits) as [e ->].
  - unfold resumeThread. rewrite Hc. by destruct (resume s).
Qed.

Lemma closed_on_handshake f p : over s (on_handshake f p s).
Proof. by split. Qed.

Lemma closed_failed b e : over s (handshake_failed env publish b e s).
Proof.
  unfold handshake_failed, first_handshake_failed, attempt_failed. destruct b; [|by rewrite isClosed_closed].
  set (s1 := failAllPending (error_of e) (noteProtocolFailure e (teardownFailedSocket s))).
  assert (H1 : over s s1).
  { assert (Ht : teardownFailedSocket s = put_socket None s) by (unfold teardownFailedSocket; by rewrite Hs). unfold s1. rewrite Ht. assert (Hf : forall x s0, over s s0 -> over s (failAllPending x s0)).
    { clear. intros x s0. unfold failAllPending. generalize (pending s0) as l. intros l. revert s0. induction l as [|y l IH]; intros s0 H0; simpl; [done|].
      apply IH. unfold settle_request. destruct H0. by destruct (awaiter y.2). }
    apply Hf. unfold noteProtocolFailure. by destruct (is_protocol_failure e). }
  destruct H1 as [H1 H2 H3 H4 H5]. assert (E : publish closed s1 = s1) by (unfold publish; destruct fuel; simpl; by rewrite bool_decide_eq_true_2).
  rewrite E. by split.
Qed.

End closing.

Section closed.
Context (env : Environment) (fuel : nat) (s : Client) (Hc : connectionState s = closed) (HOk : Ok OnTime s).

Lemma closed_socket : socket s = None.
Proof. pose proof (ok_status _ _ HOk) as HS. unfold Status in HS. rewrite Hc in HS. apply HS. Qed.

Lemma closed_proceed f : over s (proceed env (setState env fuel) f s).
Proof.
  pose proof closed_socket as Hs. pose proof (over_refl s Hc Hs) as Hr. unfold proceed. destruct (handshakes s !! f) as [[d b ph]|] eqn:Hf; [|done].
  assert (Hfail : forall e, over s (handshake_failed env (setState env fuel) b e (on_handshake f Over s))).
  { intros e. transitivity (on_handshake f Over s); [by split|]. by apply closed_failed. }
  destruct d as [k|], ph as [| |id|e| |]; try done; try apply Hfail; try (by destruct b).
  - set (s1 := on_socket k _ s). destruct (closed_request env s1 Hs "initialize" None (HandshakeAwaits f)) as [e Er]. rewrite Er.
    split; try done. unfold s1, on_handshake, on_socket. simpl. by rewrite length_alter.
  - destruct (outcome id s) as [[v|e]|] eqn:Eo; [|by split|done]. exfalso.
    destruct (b_initializing s (ok_base _ _ HOk) f _ id Hf eq_refl) as [_ Hk]. destruct Hk as (j & _ & Hj & _); [right; by exists v|]. congruence.
Qed.

Lemma closed_take e : over s (take env fuel e s).
Proof.
  pose proof closed_socket as Hs. pose proof (over_refl s Hc Hs) as Hr. assert (Hlen : forall k g, length (alter g k (sockets s)) = length (sockets s)) by (intros; apply length_alter).
  destruct e as [c|f| |hook|k|k|k code|k data|id| | |]; cbn [take].
  - by rewrite closed_call.
  - apply closed_proceed.
  - unfold heartbeat_failed. destruct (pingFailures s); [done|]. rewrite bool_decide_eq_false_2 by (simpl; congruence). by split.
  - unfold resume_proceeds. destruct (resume s) as [[]|]; try done; [|by destruct (outcome id s)].
    destruct hook; [|by split]. by destruct (closed_request env s Hs "thread/resume" None ResumeAwaits) as [e ->].
  - unfold socket_open. destruct (sockets s !! k) as [[? [] ?]|]; try done. unfold settle_open. simpl. by destruct (handshakes s !! f) as [[? ? []]|].
  - unfold socket_error. destruct (sockets s !! k) as [[? [] ?]|]; try done. unfold settle_open. simpl. by destruct (handshakes s !! f) as [[? ? []]|].
  - unfold socket_close. destruct (sockets s !! k) as [[? [] ?]|]; try done; [|by rewrite closed_loss].
    unfold settle_open. simpl. by destruct (handshakes s !! f) as [[? ? []]|].
  - unfold socket_message. destruct (sockets s !! k) as [[[] ? ?]|] eqn:Hx; try done.
    pose proof (b_message s (ok_base _ _ HOk) k _ Hx (or_introl eq_refl)). congruence.
  - unfold request_expires. destruct (list_find _ (pending s)) as [[? [? p]]|]; [|done]. set (s1 := put_pending _ s).
    assert (H1 : forall err, over s (settle_request id p (Rejected err) s1)) by (intros err; unfold settle_request; by destruct (awaiter p)).
    destruct (explicitTimeout p); [done|]. destruct (str_in _ _); [|done]. rewrite (closed_loss env s1 Hc), settle_closed.
    match goal with |- over _ (close_socket _ (settle_request _ _ (Rejected ?err) _)) => destruct (H1 err) end.
    split; try done. simpl. by rewrite length_alter.
  - unfold heartbeat_fires. destruct (heartbeatTimer s); [|done]. unfold sendHeartbeat. simpl. by rewrite Hc.
  - unfold reconnect_fires. destruct (reconnectTimer s); [|done]. unfold attemptReconnect. simpl. by rewrite Hc.
  - unfold resume_expires. by destruct (resume s) as [[]|].
Qed.
End closed.

(** C16: Closing is final. In every orderly run a client that is closed stays closed: it
    announces no further state, sends no further frame, holds no socket and dials no
    other, whatever continuations, sockets, timers and calls come after. *)
Theorem closed_is_final env fuel es es' : subscribers_wait env -> orderly_run env fuel (es ++ es')%list new_client = true ->
  connectionState (run env fuel es new_client) = closed -> over (run env fuel es new_client) (run env fuel (es ++ es')%list new_client).
Proof.
  intros Hw Ho Hc. assert (Hsplit : forall l s, orderly_run env fuel (l ++ es')%list s = orderly_run env fuel l s && orderly_run env fuel es' (run env fuel l s)).
  { intros l. induction l as [|e l IH]; intros s; simpl; [done|]. by rewrite IH, andb_assoc. }
  rewrite Hsplit in Ho. apply andb_prop in Ho as [Ho Ho']. rewrite run_append. pose proof (run_from_new env fuel es Hw Ho) as HOk.
  assert (Ha : accounted [] (run env fuel es new_client)) by (apply run_accounted, new_client_ok).
  set (s := run env fuel es new_client) in *. clearbody s. clear Ho Hsplit. revert s Hc HOk Ha Ho'. induction es' as [|e l IH]; intros s Hc HOk Ha Ho; simpl.
  - apply over_refl; [done|]. by apply closed_socket.
  - simpl in Ho. apply andb_prop in Ho as [He Ho]. pose proof (closed_take env fuel s Hc HOk e) as H1. etransitivity; [exact H1|].
    apply IH; [apply H1|by apply event_keeps_ok|by apply keeps_take|done].
Qed.


(** ** Concrete runs *)

(** A host whose sockets open and take every frame; its subscribers call what they are
    asked to. *)
Definition healthy (subs : nat -> list Call) : Environment := mkEnvironment (fun _ => true) (fun _ => true) (fun _ => 0%Z) subs.

Definition greeting : json :=
  JObj [("serverInfo", JObj [("name", JStr "hub"); ("version", JStr "1")]); ("protocolVersion", JStr APPWIRE_PROTOCOL_VERSION); ("sourceId", JStr "s");
        ("features", JObj (map (fun k => (k, JBool true)) FEATURE_KEYS))].

Definition greets (k : nat) (id : Z) : Event := SocketMessage k (Parsed (JObj [("id", JNum id); ("result", greeting)])).

(** A handshake over socket [k] whose initialize request is [id]. *)
Definition comes_up (k f : nat) (id : Z) : list Event := [SocketOpen k; HandshakeProceeds f; greets k id; HandshakeProceeds f; HandshakeProceeds f].

(** A ping under way when the socket goes, an attempt, another socket. *)
Definition drop_and_return : list Event :=
  (Called Connect :: comes_up 0 0 1 ++ [HeartbeatFires; SocketClose 0 1006; HeartbeatFailed; ReconnectFires] ++ comes_up 1 1 3)%list.

Lemma healthy_waits : subscribers_wait (healthy (fun _ => [])).
Proof. intros n H. by apply not_elem_of_nil in H. Qed.

Lemma connection_is_watched_witness :
  let s := run (healthy (fun _ => [])) 4 drop_and_return new_client in
  published s = [connecting; ready; reconnecting; ready] /\ socket s = Some 1%nat /\ wakes s.
Proof.
  intros s. split; [vm_compute; reflexivity|]. split; [vm_compute; reflexivity|].
  apply (connection_is_watched (healthy (fun _ => [])) 4 drop_and_return healthy_waits); vm_compute; reflexivity.
Defined.

Lemma one_socket_listens_witness :
  let s := run (healthy (fun _ => [])) 4 drop_and_return new_client in
  length (sockets s) = 2%nat /\ forall k x, sockets s !! k = Some x -> onmessage x = true \/ (exists f, handlers x = WaitsForOpen f) -> socket s = Some k.
Proof.
  intros s. split; [vm_compute; reflexivity|].
  apply (one_socket_listens (healthy (fun _ => [])) 4 drop_and_return healthy_waits). vm_compute. reflexivity.
Defined.

Lemma closed_is_final_witness :
  let es' := [HeartbeatFailed; SocketMessage 1 NotText; ReconnectFires; Called Connect] in
  let s := run (healthy (fun _ => [])) 4 (drop_and_return ++ [Called Close])%list new_client in
  connectionState s = closed /\ over s (run (healthy (fun _ => [])) 4 ((drop_and_return ++ [Called Close]) ++ es')%list new_client).
Proof.
  intros es' s. split; [vm_compute; reflexivity|].
  apply (closed_is_final (healthy (fun _ => [])) 4 (drop_and_return ++ [Called Close])%list es' healthy_waits); vm_compute; reflexivity.
Defined.

(** A subscriber that answers [connecting] by closing, and the close by connecting. *)
Lemma subscribers_terminate_witness :
  let env := healthy (fun n => match n with 0%nat => [RetryNow; Close] | 1%nat => [Connect] | _ => [] end) in
  take env 9 (Called Connect) new_client = take env 4 (Called Connect) new_client /\
  published (take env 4 (Called Connect) new_client) = [connecting; closed].
Proof. intros env. split; [apply (subscribers_terminate env (Called Connect) new_client 9); lia|vm_compute; reflexivity]. Defined.

Lemma backoff_bounded_witness : (0 <= 2 ^ 52 < 2 ^ 53)%Z /\ backoff 3 = 2000%Z /\ (reconnect_delay 3 (2 ^ 52) <= backoff 3 <= RECONNECT_MAX_MS)%Z.
Proof. split; [lia|]. split; [vm_compute; reflexivity|]. apply (backoff_bounded 3 (2 ^ 52)). lia. Defined.

(** ** What the code does not rule out *)

(** [performHandshake] announces [connecting] before [connect] has a promise to hand out:
    a subscriber that calls [connect] then starts a second handshake, whose socket the
    first one's replaces without closing it. *)
Example connect_twice_dials_twice :
  let s := run (healthy (fun n => if (n =? 0)%nat then [Connect] else [])) 4 [Called Connect] new_client in
  length (sockets s) = 2%nat /\ socket s = Some 1%nat /\ (exists x, sockets s !! 0%nat = Some x /\ onmessage x = true /\ closeCalled x = false).
Proof. split; [vm_compute; reflexivity|]. split; [vm_compute; reflexivity|]. eexists. split; [vm_compute; reflexivity|]. by split. Qed.

(** A close between the initialize response and the continuation of its await is undone:
    the continuation publishes [ready] over a closed client without a socket. *)
Example close_is_undone :
  let s := run (healthy (fun _ => [])) 4 [Called Connect; SocketOpen 0; HandshakeProceeds 0; greets 0 1; Called Close; HandshakeProceeds 0] new_client in
  published s = [connecting; closed; ready] /\ socket s = None /\ connectionState s = ready.
Proof. vm_compute. done. Qed.
