(* ===== verification/NavigationKeys.v ===== *)
(** The keys of navigation resources (state/navigation/types.ts of appwire-client/
    typescript): the read a key stands for, the scope its entities are named in, and the
    identity it is stored under.

    A catalog's, section's or tier's name is a string, as on the wire; what the type of a
    key says of it is [typed]. *)

From stdpp Require Import pretty.
From S2P Require Import Prelude JsString.

Local Open Scope string_scope.
Local Open Scope Z_scope.

(** ** Keys *)

Inductive ResourceKey :=
  | Manifest
  | Section_ (section : string) (offset limit : Z)
  | PinCatalog (offset limit : Z)
  | PinSection (sectionId : string) (offset limit : Z)
  | Catalog (catalog : string) (offset limit : Z)
  | Project (projectKey : string) (catalog : option string)
  | ProjectPage (projectKey : string) (catalog : option string) (tier : string) (offset limit : Z)
  | Location (ref : string).

#[export] Instance ResourceKey_eq_dec : EqDecision ResourceKey.
Proof. solve_decision. Defined.

Definition is_location (k : ResourceKey) : bool := match k with Location _ => true | _ => false end.

Definition isProjectResource (k : ResourceKey) : bool := match k with Project _ _ | ProjectPage _ _ _ _ _ => true | _ => false end.

Record NavigationReadBase := mkBase { base_generation : string; base_revision : Z; base_etag : string }.

#[export] Instance NavigationReadBase_eq_dec : EqDecision NavigationReadBase.
Proof. solve_decision. Defined.

Definition NAVIGATION_SECTION_LIMIT : Z := 50.
Definition NAVIGATION_CATALOG_LIMIT : Z := 100.

Definition canonicalNavigationLimit (limit maximum : Z) : Z := if (limit =? 0) || (maximum <? limit) then maximum else limit.

Fixpoint has_colon (s : string) : bool :=
  match s with EmptyString => false | String c s => Ascii.eqb c ":" || has_colon s end.

Definition canonicalResourceKey (k : ResourceKey) : ResourceKey :=
  match k with Location r => if has_colon r then k else Location ("local:" ++ r) | _ => k end.

(** ** Reads *)

Record NavigationReadParams := mkParams {
  representationVersion : Z; resource : string; p_section : option string; p_sectionId : option string; p_catalog : option string;
  p_projectKey : option string; p_tier : option string; p_ref : option string; p_offset : option Z; p_limit : option Z; p_base : option NavigationReadBase }.

(** [...(catalog ? { catalog } : {})]. *)
Definition named_catalog (c : option string) : option string := match c with Some s => if str_truthy s then c else None | None => None end.

(** The read a store sends for a key (store.ts). *)
Definition paramsFor (k : ResourceKey) (base : option NavigationReadBase) : NavigationReadParams :=
  match k with
  | Manifest => mkParams 3 "manifest" None None None None None None None None base
  | Section_ s o l => mkParams 3 "section" (Some s) None None None None None (Some o) (Some l) base
  | PinCatalog o l => mkParams 3 "pin_catalog" None None None None None None (Some o) (Some l) base
  | PinSection i o l => mkParams 3 "pin_section" None (Some i) None None None None (Some o) (Some l) base
  | Catalog c o l => mkParams 3 "catalog" None None (Some c) None None None (Some o) (Some l) base
  | Project p c => mkParams 3 "project" None None (named_catalog c) (Some p) None None None None base
  | ProjectPage p c t o l => mkParams 3 "project_page" None None (named_catalog c) (Some p) (Some t) None (Some o) (Some l) base
  | Location r => mkParams 3 "location" None None None None None (Some r) None None base
  end.

(** A property read as a string: an absent one is [undefined] at run time, which no
    string is; [None] then. An unknown resource throws. *)
Definition navigationParamsToResourceKey (p : NavigationReadParams) : option ResourceKey :=
  let offset := default 0 (p_offset p) in
  let paged maximum := default maximum (p_limit p) in
  let r := resource p in
  if String.eqb r "manifest" then Some Manifest
  else if String.eqb r "section" then s ← p_section p; Some (Section_ s offset (paged NAVIGATION_SECTION_LIMIT))
  else if String.eqb r "pin_catalog" then Some (PinCatalog offset (paged NAVIGATION_CATALOG_LIMIT))
  else if String.eqb r "pin_section" then i ← p_sectionId p; Some (PinSection i offset (paged NAVIGATION_SECTION_LIMIT))
  else if String.eqb r "catalog" then c ← p_catalog p; Some (Catalog c offset (paged NAVIGATION_CATALOG_LIMIT))
  else if String.eqb r "project" then k ← p_projectKey p; Some (Project k (named_catalog (p_catalog p)))
  else if String.eqb r "project_page" then k ← p_projectKey p; t ← p_tier p; Some (ProjectPage k (named_catalog (p_catalog p)) t offset (paged NAVIGATION_SECTION_LIMIT))
  else if String.eqb r "location" then r ← p_ref p; Some (Location r)
  else None.

(** ** Scopes *)

(** The bytes of [TextEncoder] for a string of code units below 256. *)
Fixpoint utf8 (s : string) : list Z :=
  match s with
  | EmptyString => []
  | String c s =>
      let n := Z.of_nat (nat_of_ascii c) in
      (if n <? 128 then [n] else [192 + n / 64; 128 + n mod 64]) ++ utf8 s
  end.

Definition base64url : string := "ABCDEFGHIJKLMNOPQRSTUVWXYZabcdefghijklmnopqrstuvwxyz0123456789-_".

Definition digit64 (n : Z) : string := match String.get (Z.to_nat n) base64url with Some c => String c EmptyString | None => EmptyString end.

(** [btoa], its two characters renamed and its padding dropped. *)
Fixpoint btoa_url (l : list Z) : string :=
  match l with
  | [] => EmptyString
  | [a] => digit64 (a / 4) ++ digit64 (a mod 4 * 16)
  | [a; b] => digit64 (a / 4) ++ digit64 (a mod 4 * 16 + b / 16) ++ digit64 (b mod 16 * 4)
  | a :: b :: c :: l => digit64 (a / 4) ++ digit64 (a mod 4 * 16 + b / 16) ++ digit64 (b mod 16 * 4 + c / 64) ++ digit64 (c mod 64) ++ btoa_url l
  end.

Definition rawBase64URL (value : string) : string := btoa_url (utf8 value).

(** The names and numbers a scope is made of. *)
Record ScopeParts := mkScope {
  sc_kind : string; sc_id : string; sc_section : string; sc_project : string; sc_tier : string; sc_offset : Z; sc_limit : Z; sc_catalog : string }.

Definition scope_parts (k : ResourceKey) : ScopeParts :=
  match k with
  | Manifest => mkScope "manifest" "" "" "" "" 0 0 ""
  | Section_ s o l => mkScope s "" "" "" "" o (canonicalNavigationLimit l NAVIGATION_SECTION_LIMIT) ""
  | PinCatalog o l => mkScope "pin_catalog" "" "" "" "" o (canonicalNavigationLimit l NAVIGATION_CATALOG_LIMIT) ""
  | PinSection i o l => mkScope "pin_section" "" i "" "" o (canonicalNavigationLimit l NAVIGATION_SECTION_LIMIT) ""
  | Catalog c o l => mkScope c "" "" "" "" o (canonicalNavigationLimit l NAVIGATION_CATALOG_LIMIT) ""
  | Project p c => mkScope "project" "" "" p "" 0 0 (default "" c)
  | ProjectPage p c t o l => mkScope "project_page" "" "" p t o (canonicalNavigationLimit l NAVIGATION_SECTION_LIMIT) (default "" c)
  | Location r => mkScope "location" r "" "" "" 0 0 ""
  end.

Definition navigationViewScope (k : ResourceKey) : string :=
  let p := scope_parts k in
  let scope := "nav3/" ++ sc_kind p ++ "/" ++ rawBase64URL (sc_id p) ++ "/" ++ rawBase64URL (sc_section p) ++ "/" ++ rawBase64URL (sc_project p) ++ "/" ++
    rawBase64URL (sc_tier p) ++ "/" ++ pretty (sc_offset p) ++ "/" ++ pretty (sc_limit p) in
  if str_truthy (sc_catalog p) then scope ++ "/catalog/" ++ sc_catalog p else scope.

Definition navigationRootContainerKey (k : ResourceKey) (slot : string) : string := navigationViewScope k ++ "/root/" ++ slot.

Definition navigationOwnedContainerKey (entityKey slot : string) : string := entityKey ++ "/" ++ slot.

Definition nextNavigationOffset (offset returnedTopLevelRows : Z) : Z := offset + returnedTopLevelRows.

(** ** Identities *)

Definition hex_digit (n : nat) : string := match String.get n "0123456789abcdef" with Some c => String c EmptyString | None => EmptyString end.

Definition quote_mark : ascii := "034".
Definition backslash : ascii := "092".

(** [JSON.stringify] of one code unit of a string. *)
Definition escaped (c : ascii) : string :=
  let n := nat_of_ascii c in
  if Ascii.eqb c quote_mark || Ascii.eqb c backslash then String backslash (String c EmptyString)
  else if (n =? 8)%nat then String backslash "b"
  else if (n =? 9)%nat then String backslash "t"
  else if (n =? 10)%nat then String backslash "n"
  else if (n =? 12)%nat then String backslash "f"
  else if (n =? 13)%nat then String backslash "r"
  else if (n <? 32)%nat then String backslash ("u00" ++ hex_digit (n / 16) ++ hex_digit (n mod 16))
  else String c EmptyString.

Fixpoint escape (s : string) : string := match s with EmptyString => EmptyString | String c s => escaped c ++ escape s end.

Definition quote (s : string) : string := String quote_mark (escape s) ++ String quote_mark EmptyString.

Inductive FieldValue := FText (s : string) | FNumber (n : Z).

Definition stringify_field (f : string * FieldValue) : string := quote f.1 ++ ":" ++ match f.2 with FText s => quote s | FNumber n => pretty n end.

Fixpoint stringify_fields (l : list (string * FieldValue)) : string :=
  match l with
  | [] => EmptyString
  | [f] => stringify_field f
  | f :: l => stringify_field f ++ "," ++ stringify_fields l
  end.

Definition catalog_field (c : option string) : list (string * FieldValue) := match c with Some s => [("catalog", FText s)] | None => [] end.

(** The fields of a key, its kind first and the others in the order of their names. *)
Definition key_fields (k : ResourceKey) : list (string * FieldValue) :=
  match k with
  | Manifest => [("kind", FText "manifest")]
  | Section_ s o l => [("kind", FText "section"); ("limit", FNumber l); ("offset", FNumber o); ("section", FText s)]
  | PinCatalog o l => [("kind", FText "pin_catalog"); ("limit", FNumber l); ("offset", FNumber o)]
  | PinSection i o l => [("kind", FText "pin_section"); ("limit", FNumber l); ("offset", FNumber o); ("sectionId", FText i)]
  | Catalog c o l => [("kind", FText "catalog"); ("catalog", FText c); ("limit", FNumber l); ("offset", FNumber o)]
  | Project p c => ("kind", FText "project") :: catalog_field c ++ [("projectKey", FText p)]
  | ProjectPage p c t o l =>
      ("kind", FText "project_page") :: catalog_field c ++ [("limit", FNumber l); ("offset", FNumber o); ("projectKey", FText p); ("tier", FText t)]
  | Location r => [("kind", FText "location"); ("ref", FText r)]
  end.

Definition keyID (k : ResourceKey) : string := "{" ++ stringify_fields (key_fields k) ++ "}".

(** ** Reading a key back *)

Definition key_catalog (k : ResourceKey) : option string := match k with Project _ c | ProjectPage _ c _ _ _ => c | _ => None end.

Lemma named_catalog_id c : named_catalog c = c <-> c <> Some EmptyString.
Proof. destruct c as [[|a s]|]; simpl; [by split|done|done]. Qed.

Lemma named_catalog_twice c : named_catalog (named_catalog c) = named_catalog c.
Proof. by destruct c as [[|a s]|]. Qed.

(** C28: The read a key stands for identifies that key again, for every key that does not
    name an empty catalog. *)
Theorem params_roundtrip k base : navigationParamsToResourceKey (paramsFor k base) = Some k <-> key_catalog k <> Some EmptyString.
Proof.
  rewrite <- named_catalog_id. destruct k as [| | | | |p c|p c t o l|]; try done; unfold navigationParamsToResourceKey; simpl; rewrite named_catalog_twice; split;
    (by intros [= ?]) || (by intros ->).
Qed.

(** ** Strings that end where they should *)

Fixpoint free (c : ascii) (s : string) : bool := match s with EmptyString => true | String a s => negb (Ascii.eqb a c) && free c s end.

Lemma free_app c a b : free c (a ++ b) = free c a && free c b.
Proof. induction a as [|x a IH]; simpl; [done|]. by rewrite IH, andb_assoc. Qed.

Lemma app_cons c a b : String c a ++ b = String c (a ++ b).
Proof. done. Qed.

Lemma app_empty s : EmptyString ++ s = s.
Proof. done. Qed.

(** What comes before a mark and after it, where the mark does not occur before. *)
Lemma split_at c a b x y : free c a = true -> free c b = true -> a ++ String c x = b ++ String c y -> a = b /\ x = y.
Proof.
  revert b. induction a as [|u a IH]; intros [|v b] Ha Hb; simpl in *.
  - by intros [= ->].
  - intros [= -> _]. by rewrite Ascii.eqb_refl in Hb.
  - intros [= -> _]. by rewrite Ascii.eqb_refl in Ha.
  - intros [= -> H]. apply andb_prop in Ha as [_ Ha], Hb as [_ Hb]. by destruct (IH b Ha Hb H) as [-> ->].
Qed.

Lemma free_end c a b x : free c a = true -> a <> b ++ String c x.
Proof. intros Ha ->. rewrite free_app in Ha. apply andb_prop in Ha as [_ H]. simpl in H. by rewrite Ascii.eqb_refl in H. Qed.

Definition numeral (c : ascii) : bool := ((48 <=? nat_of_ascii c) && (nat_of_ascii c <=? 57))%nat || Ascii.eqb c "-".

Lemma free_numeral c n s : numeral c = false -> free c s = true -> free c (pretty_N_go n s) = true.
Proof.
  intros Hc. revert s. induction (N.lt_wf_0 n) as [n _ IH]; intros s Hs. destruct (decide (0 < n)%N) as [Hn|Hn].
  - rewrite pretty_N_go_step by done. apply IH; [by apply N.div_lt|]. simpl. rewrite Hs, andb_true_r. apply negb_true_iff.
    destruct (Ascii.eqb_spec (pretty_N_char (n mod 10)) c) as [<-|]; [|done]. exfalso. revert Hc. unfold pretty_N_char. by repeat case_match.
  - assert (n = 0)%N as -> by lia. by rewrite pretty_N_go_0.
Qed.

Lemma free_pretty c (n : Z) : numeral c = false -> free c (pretty n) = true.
Proof.
  intros Hc. assert (HN : forall m : N, free c (pretty m) = true).
  { intros m. unfold pretty, pretty_N. case_decide; [|by apply free_numeral]. change (negb (Ascii.eqb "0" c) && true = true). destruct (Ascii.eqb_spec "0" c) as [<-|]; [discriminate Hc|done]. }
  unfold pretty, pretty_Z. destruct n as [|p|p].
  - apply (HN 0%N).
  - apply (HN (Npos p)).
  - change (negb (Ascii.eqb "-" c) && free c (pretty (Npos p)) = true). rewrite (HN (Npos p)). destruct (Ascii.eqb_spec "-" c) as [<-|]; [discriminate Hc|done].
Qed.

(** ** Base64 *)

Definition is_byte (n : Z) : Prop := 0 <= n < 256.

Lemma below_64 (P : Z -> bool) : forallb (fun i => P (Z.of_nat i)) (seq 0 64) = true -> forall n, 0 <= n < 64 -> P n = true.
Proof.
  intros H n Hn. rewrite forallb_forall in H. specialize (H (Z.to_nat n)). rewrite Z2Nat.id in H by lia. apply H, in_seq. lia.
Qed.

Lemma digit64_range n : 0 <= n < 64 -> exists c, digit64 n = String c EmptyString /\ c <> "/"%char.
Proof.
  intros Hn. assert (H : (match digit64 n with String c EmptyString => negb (Ascii.eqb c "/") | _ => false end) = true).
  { revert n Hn. apply below_64. by vm_compute. }
  destruct (digit64 n) as [|c [|]]; try done. exists c. split; [done|]. by intros ->.
Qed.

Definition digit_value (s : string) : Z := match String.index 0 s base64url with Some n => Z.of_nat n | None => -1 end.

Lemma digit_value_digit64 n : 0 <= n < 64 -> digit_value (digit64 n) = n.
Proof. intros Hn. apply Z.eqb_eq. revert n Hn. apply (below_64 (fun n => digit_value (digit64 n) =? n)). by vm_compute. Qed.

Lemma digit64_inj m n x y : 0 <= m < 64 -> 0 <= n < 64 -> digit64 m ++ x = digit64 n ++ y -> m = n /\ x = y.
Proof.
  intros Hm Hn. pose proof (digit_value_digit64 m Hm) as Em. pose proof (digit_value_digit64 n Hn) as En.
  destruct (digit64_range m Hm) as (c & Ec & _), (digit64_range n Hn) as (d & Ed & _). rewrite Ec, Ed. intros E. injection E as E1 E2. simpl in E2. split; [congruence|done].
Qed.

Lemma digit64_free n s : 0 <= n < 64 -> free "/" (digit64 n ++ s) = free "/" s.
Proof. intros Hn. destruct (digit64_range n Hn) as (c & -> & Hc). simpl. by destruct (Ascii.eqb_spec c "/"). Qed.

(** The six-bit groups of a byte string. *)
Fixpoint sextets (l : list Z) : list Z :=
  match l with
  | [] => []
  | [a] => [a / 4; a mod 4 * 16]
  | [a; b] => [a / 4; a mod 4 * 16 + b / 16; b mod 16 * 4]
  | a :: b :: c :: l => a / 4 :: a mod 4 * 16 + b / 16 :: b mod 16 * 4 + c / 64 :: c mod 64 :: sextets l
  end.

Fixpoint digits (l : list Z) : string := match l with [] => EmptyString | n :: l => digit64 n ++ digits l end.

(** Three bytes at a time. *)
Lemma bytes_ind (P : list Z -> Prop) : P [] -> (forall a, P [a]) -> (forall a b, P [a; b]) -> (forall a b c l, P l -> P (a :: b :: c :: l)) -> forall l, P l.
Proof. intros H0 H1 H2 H3. fix IH 1. intros [|a [|b [|c l]]]; [exact H0|exact (H1 a)|exact (H2 a b)|exact (H3 a b c l (IH l))]. Qed.

Ltac div_lia := Z.to_euclidean_division_equations; lia.

Lemma string_app_nil s : s ++ EmptyString = s.
Proof. induction s as [|c s IH]; [done|by rewrite app_cons, IH]. Qed.

Lemma btoa_sextets l : btoa_url l = digits (sextets l).
Proof. induction l as [|a|a b|a b c l IH] using bytes_ind; simpl; rewrite ?string_app_nil; [done..|]. by rewrite IH. Qed.

Lemma sextets_range l : Forall is_byte l -> Forall (fun n => 0 <= n < 64) (sextets l).
Proof.
  induction l as [|a|a b|a b c l IH] using bytes_ind; rewrite ?Forall_cons; unfold is_byte; intros Hl; cbn [sextets]; repeat apply Forall_cons_2; try apply Forall_nil_2; try div_lia.
  apply IH. tauto.
Qed.

Lemma sextets_inj l l' : Forall is_byte l -> Forall is_byte l' -> sextets l = sextets l' -> l = l'.
Proof.
  revert l'. induction l as [|a|a b|a b c l IH] using bytes_ind; intros [|a' [|b' [|c' l']]]; rewrite ?Forall_cons; unfold is_byte; intros Hl Hl'; cbn [sextets]; intros E; try done.
  - injection E as E1 E2. f_equal. div_lia.
  - injection E as E1 E2 E3. f_equal; [div_lia|]. f_equal. div_lia.
  - injection E as E1 E2 E3 E4 E5. f_equal; [div_lia|]. f_equal; [div_lia|]. f_equal; [div_lia|]. apply IH; tauto.
Qed.

Lemma digits_inj l l' : Forall (fun n => 0 <= n < 64) l -> Forall (fun n => 0 <= n < 64) l' -> digits l = digits l' -> l = l'.
Proof.
  intros Hl. revert l'. induction Hl as [|n l Hn Hl IH]; intros [|n' l'] Hl'; simpl; [done|..].
  - intros E. apply Forall_cons in Hl' as [Hn' _]. by destruct (digit64_range n' Hn') as (c & Ec & _); rewrite Ec in E.
  - intros E. by destruct (digit64_range n Hn) as (c & Ec & _); rewrite Ec in E.
  - apply Forall_cons in Hl' as [Hn' Hl']. intros [-> E]%digit64_inj; [|done|done]. f_equal. by apply IH.
Qed.

Lemma digits_free l : Forall (fun n => 0 <= n < 64) l -> free "/" (digits l) = true.
Proof. induction 1 as [|n l Hn _ IH]; simpl; [done|]. by rewrite digit64_free. Qed.

Lemma utf8_bytes s : Forall is_byte (utf8 s).
Proof.
  induction s as [|c s IH]; simpl; [done|]. pose proof (nat_ascii_bounded c). apply Forall_app. split; [|done].
  destruct (Z.of_nat (nat_of_ascii c) <? 128) eqn:E; repeat apply Forall_cons_2; try apply Forall_nil_2; unfold is_byte; div_lia.
Qed.

Lemma utf8_inj s s' : utf8 s = utf8 s' -> s = s'.
Proof.
  assert (Hc : forall c c', Z.of_nat (nat_of_ascii c) = Z.of_nat (nat_of_ascii c') -> c = c').
  { intros c c' E. rewrite <- (ascii_nat_embedding c), <- (ascii_nat_embedding c'). f_equal. lia. }
  revert s'. induction s as [|c s IH]; intros [|c' s']; cbn [utf8]; [done|..].
  - by destruct (_ <? 128).
  - by destruct (_ <? 128).
  - pose proof (nat_ascii_bounded c) as B. pose proof (nat_ascii_bounded c') as B'.
    destruct (Z.of_nat (nat_of_ascii c) <? 128) eqn:E, (Z.of_nat (nat_of_ascii c') <? 128) eqn:E'; simpl; intros H.
    + injection H as H1 H2. f_equal; [by apply Hc|by apply IH].
    + exfalso. injection H as H1 _. div_lia.
    + exfalso. injection H as H1 _. div_lia.
    + injection H as H1 H2 H3. f_equal; [apply Hc; div_lia|by apply IH].
Qed.

Lemma base64_free s : free "/" (rawBase64URL s) = true.
Proof. unfold rawBase64URL. rewrite btoa_sextets. apply digits_free, sextets_range, utf8_bytes. Qed.

Lemma base64_inj s s' : rawBase64URL s = rawBase64URL s' -> s = s'.
Proof.
  unfold rawBase64URL. rewrite !btoa_sextets. intros E%digits_inj; [|apply sextets_range, utf8_bytes..]. apply sextets_inj in E; [|apply utf8_bytes..]. by apply utf8_inj.
Qed.

(** ** Scopes are named apart *)

Lemma string_app_assoc a b c : (a ++ b) ++ c = a ++ b ++ c.
Proof. induction a as [|x a IH]; [done|]. by rewrite !app_cons, IH. Qed.

Definition catalog_tail (c : string) : string := if str_truthy c then "/catalog/" ++ c else EmptyString.

Lemma scope_tail k : let p := scope_parts k in
  navigationViewScope k = "nav3/" ++ sc_kind p ++ "/" ++ rawBase64URL (sc_id p) ++ "/" ++ rawBase64URL (sc_section p) ++ "/" ++ rawBase64URL (sc_project p) ++ "/" ++
    rawBase64URL (sc_tier p) ++ "/" ++ pretty (sc_offset p) ++ "/" ++ pretty (sc_limit p) ++ catalog_tail (sc_catalog p).
Proof. unfold navigationViewScope, catalog_tail. destruct (str_truthy _); [by rewrite !string_app_assoc|by rewrite string_app_nil]. Qed.

Lemma tail_inj l l' c c' : free "/" l = true -> free "/" l' = true -> l ++ catalog_tail c = l' ++ catalog_tail c' -> l = l' /\ c = c'.
Proof.
  intros Hl Hl'. unfold catalog_tail, str_truthy. destruct (String.eqb_spec c EmptyString) as [->|Hc], (String.eqb_spec c' EmptyString) as [->|Hc']; simpl; rewrite ?string_app_nil.
  - done.
  - intros E. by apply free_end in E.
  - intros E. symmetry in E. by apply free_end in E.
  - intros [-> E]%split_at; [|done|done]. injection E as E. by simpl in E.
Qed.

Lemma scope_parts_inj k k' : free "/" (sc_kind (scope_parts k)) = true -> free "/" (sc_kind (scope_parts k')) = true -> navigationViewScope k = navigationViewScope k' -> scope_parts k = scope_parts k'.
Proof.
  rewrite !scope_tail. destruct (scope_parts k) as [a b c d e f g h], (scope_parts k') as [a' b' c' d' e' f' g' h']. simpl. intros Ha Ha' E. apply (inj (String.append "nav3/")) in E.
  apply split_at in E as [<- E]; [|done|done]. apply split_at in E as [Eb E]; [|apply base64_free..]. apply split_at in E as [Ec E]; [|apply base64_free..].
  apply split_at in E as [Ed E]; [|apply base64_free..]. apply split_at in E as [Ee E]; [|apply base64_free..]. apply split_at in E as [Ef E]; [|by apply free_pretty..].
  apply tail_inj in E as [Eg ->]; [|by apply free_pretty..]. apply base64_inj in Eb, Ec, Ed, Ee. apply (inj pretty) in Ef, Eg. by subst.
Qed.

(** What the type of a key says. *)
Definition catalogs : list string := ["projects"; "archived_projects"; "test_runs"].

Definition typed (k : ResourceKey) : Prop :=
  match k with
  | Section_ s _ _ => s ∈ ["live"; "needs_you"]
  | Catalog c _ _ => c ∈ catalogs
  | Project _ c => match c with Some c => c ∈ catalogs | None => True end
  | ProjectPage _ c t _ _ => match c with Some c => c ∈ catalogs | None => True end /\ t ∈ ["current"; "recent"; "archived"]
  | _ => True
  end.

(** A page under the limit the hub serves it with. *)
Definition canonical_page (k : ResourceKey) : ResourceKey :=
  match k with
  | Section_ s o l => Section_ s o (canonicalNavigationLimit l NAVIGATION_SECTION_LIMIT)
  | PinCatalog o l => PinCatalog o (canonicalNavigationLimit l NAVIGATION_CATALOG_LIMIT)
  | PinSection i o l => PinSection i o (canonicalNavigationLimit l NAVIGATION_SECTION_LIMIT)
  | Catalog c o l => Catalog c o (canonicalNavigationLimit l NAVIGATION_CATALOG_LIMIT)
  | ProjectPage p c t o l => ProjectPage p c t o (canonicalNavigationLimit l NAVIGATION_SECTION_LIMIT)
  | _ => k
  end.

Ltac names := rewrite ?elem_of_cons, ?elem_of_nil in *; repeat match goal with H : _ \/ _ |- _ => destruct H | H : _ /\ _ |- _ => destruct H end; subst; try done.

Lemma kind_free k : typed k -> free "/" (sc_kind (scope_parts k)) = true.
Proof. destruct k; simpl; unfold catalogs; intros H; try done; names. Qed.

Lemma parts_identify k k' : typed k -> typed k' -> scope_parts k = scope_parts k' -> canonical_page k = canonical_page k'.
Proof.
  unfold typed, catalogs. destruct k as [|s o l|o l|i o l|c o l|p [c|]|p [c|] t o l|r], k' as [|s' o' l'|o' l'|i' o' l'|c' o' l'|p' [c'|]|p' [c'|] t' o' l'|r'];
    simpl; intros H H' E; try done; injection E; intros; try done; try (by f_equal); names; by f_equal.
Qed.

(** The scope a resource's entities and containers are named in is its own: of keys
    with the names their type allows, two have one scope only when they are the same page
    under the limits the hub serves. *)
Theorem scopes_identify_pages k k' : typed k -> typed k' -> navigationViewScope k = navigationViewScope k' <-> canonical_page k = canonical_page k'.
Proof.
  intros Hk Hk'. split.
  - intros E%scope_parts_inj; [by apply parts_identify|by apply kind_free..].
  - assert (H : forall k, scope_parts (canonical_page k) = scope_parts k).
    { assert (Hc : forall l m, canonicalNavigationLimit (canonicalNavigationLimit l m) m = canonicalNavigationLimit l m).
      { intros l m. unfold canonicalNavigationLimit. destruct ((l =? 0) || (m <? l)) eqn:E; [by case_match|by rewrite E]. }
      intros [| | | | | | |]; simpl; by rewrite ?Hc. }
    intros E. unfold navigationViewScope. by rewrite <- (H k), <- (H k'), E.
Qed.

Lemma scopes_identify_pages_witness :
  typed (ProjectPage "p" (Some "projects") "recent" 0 0) /\ typed (ProjectPage "p" (Some "projects") "recent" 0 50) /\
  navigationViewScope (ProjectPage "p" (Some "projects") "recent" 0 0) = navigationViewScope (ProjectPage "p" (Some "projects") "recent" 0 50).
Proof.
  assert (H : forall l, typed (ProjectPage "p" (Some "projects") "recent" 0 l)) by (intros l; split; [apply list_elem_of_here|apply list_elem_of_further, list_elem_of_here]).
  split; [apply H|]. split; [apply H|]. apply (scopes_identify_pages _ _ (H 0) (H 50)). reflexivity.
Defined.

(** ** Identities tell keys apart *)

(** Reads one escaped code unit. *)
Definition unescaped (s : string) : option (ascii * string) :=
  match s with
  | String a s' =>
      if Ascii.eqb a backslash then
        match s' with
        | String b t =>
            if Ascii.eqb b "b" then Some ("008"%char, t) else if Ascii.eqb b "t" then Some ("009"%char, t) else if Ascii.eqb b "n" then Some ("010"%char, t)
            else if Ascii.eqb b "f" then Some ("012"%char, t) else if Ascii.eqb b "r" then Some ("013"%char, t)
            else if Ascii.eqb b "u" then
              match t with
              | String _ (String _ (String x (String y t))) =>
                  match String.index 0 (String x EmptyString) "0123456789abcdef", String.index 0 (String y EmptyString) "0123456789abcdef" with
                  | Some m, Some n => Some (ascii_of_nat (16 * m + n), t)
                  | _, _ => None
                  end
              | _ => None
              end
            else Some (b, t)
        | EmptyString => None
        end
      else Some (a, s')
  | EmptyString => None
  end.

Lemma unescaped_escaped c s : unescaped (escaped c ++ s) = Some (c, s).
Proof. destruct c as [[] [] [] [] [] [] [] []]; reflexivity. Qed.

Lemma escaped_head c s : escaped c ++ s <> EmptyString /\ forall t, escaped c ++ s <> String quote_mark t.
Proof. split; [|intros t]; destruct c as [[] [] [] [] [] [] [] []]; discriminate. Qed.

Lemma escape_inj s s' x y : escape s ++ String quote_mark x = escape s' ++ String quote_mark y -> s = s' /\ x = y.
Proof.
  revert s'. induction s as [|c s IH]; intros [|c' s']; cbn [escape]; rewrite ?string_app_assoc, ?app_empty.
  - by intros [= ->].
  - intros E. symmetry in E. by apply escaped_head in E.
  - intros E. by apply escaped_head in E.
  - intros E. apply (f_equal unescaped) in E. rewrite !unescaped_escaped in E. injection E as -> E. by destruct (IH s' E) as [-> ->].
Qed.

Lemma quote_inj s s' x y : quote s ++ x = quote s' ++ y -> s = s' /\ x = y.
Proof. unfold quote. rewrite !app_cons, !string_app_assoc. intros E. injection E as E. by apply escape_inj in E. Qed.

(** What may follow a value. *)
Definition ends (s : string) : Prop := match s with String c _ => c = ","%char \/ c = "}"%char | EmptyString => False end.

Lemma ends_not_numeral c : c = ","%char \/ c = "}"%char -> numeral c = false.
Proof. by intros [-> | ->]. Qed.

Lemma number_inj (m n : Z) x y : ends x -> ends y -> pretty m ++ x = pretty n ++ y -> m = n /\ x = y.
Proof.
  destruct x as [|c x], y as [|d y]; simpl; try done. intros Hc%ends_not_numeral Hd%ends_not_numeral E.
  assert (Hcd : forall a b, free c b = true -> free d a = true -> a ++ String c x = b ++ String d y -> c = d).
  { induction a as [|u a IH]; intros [|v b] Hb Ha; rewrite ?app_cons, ?app_empty; intros E'; injection E' as E1 E2; [done|..].
    - subst v. simpl in Hb. by rewrite Ascii.eqb_refl in Hb.
    - subst u. simpl in Ha. by rewrite Ascii.eqb_refl in Ha.
    - simpl in Ha, Hb. apply andb_prop in Ha as [_ Ha], Hb as [_ Hb]. by apply (IH b). }
  assert (c = d) as <- by (eapply Hcd; [by apply free_pretty|by apply free_pretty|exact E]).
  apply split_at in E as [E ->]; [|by apply free_pretty..]. by apply (inj pretty) in E.
Qed.

Lemma number_not_quote (n : Z) s x y : ends x -> pretty n ++ x <> quote s ++ y.
Proof.
  intros Hx. unfold quote. rewrite app_cons. pose proof (free_pretty quote_mark n eq_refl) as Hf. destruct (pretty n) as [|c t]; rewrite ?app_empty, ?app_cons.
  - destruct x as [|d x]; [done|]. intros [= -> _]. by destruct Hx.
  - intros [= -> _]. simpl in Hf. done.
Qed.

Lemma field_inj f f' x y : ends x -> ends y -> stringify_field f ++ x = stringify_field f' ++ y -> f = f' /\ x = y.
Proof.
  intros Hx Hy. destruct f as [n v], f' as [n' v']. unfold stringify_field. cbn [fst snd]. rewrite !string_app_assoc. intros [<- E]%quote_inj.
  rewrite !app_cons, !app_empty in E. injection E as E. destruct v as [s|m], v' as [s'|m'].
  - by apply quote_inj in E as [-> ->].
  - symmetry in E. by apply number_not_quote in E.
  - by apply number_not_quote in E.
  - by apply number_inj in E as [-> ->].
Qed.

Definition rest (l : list (string * FieldValue)) : string := match l with [] => "}" | _ => "," ++ stringify_fields l ++ "}" end.

Lemma rest_ends l : ends (rest l).
Proof. destruct l; simpl; auto. Qed.

Lemma stringify_rest f l : stringify_fields (f :: l) ++ "}" = stringify_field f ++ rest l.
Proof. destruct l as [|g l]; [done|]. cbn [stringify_fields rest]. by rewrite !string_app_assoc. Qed.

Lemma fields_inj l l' : l <> [] -> l' <> [] -> stringify_fields l ++ "}" = stringify_fields l' ++ "}" -> l = l'.
Proof.
  revert l'. induction l as [|f l IH]; intros [|f' l'] Hl Hl'; try done. rewrite !stringify_rest. intros [-> E]%field_inj; [|apply rest_ends..]. f_equal.
  destruct l as [|g l], l' as [|g' l']; cbn [rest] in E; [done|by rewrite !app_cons in E|by rewrite !app_cons in E|]. rewrite !app_cons, !app_empty in E. injection E as E. by apply IH.
Qed.

(** C27: Resources are stored apart: two keys have one [keyID] only when they are equal. *)
Theorem keyID_identifies k k' : keyID k = keyID k' <-> k = k'.
Proof.
  split; [|by intros ->]. intros E. unfold keyID in E. apply (inj (String.append "{")) in E. apply fields_inj in E; [|by destruct k|by destruct k'].
  destruct k as [|s o l|o l|i o l|c o l|p [c|]|p [c|] t o l|r], k' as [|s' o' l'|o' l'|i' o' l'|c' o' l'|p' [c'|]|p' [c'|] t' o' l'|r']; simpl in E; congruence.
Qed.
