(* ===== verification/NavigationCodec.v ===== *)
(** What a client accepts of a navigation response (state/navigation/codec.ts of
    appwire-client/typescript): the validators of its records, the checks a graph of
    entities and containers must pass, and decoding.

    A property's value is an [option json], [None] where it is absent. A check that throws
    returns what it threw. *)

From S2P Require Import Prelude JsString Json JsMap NavigationKeys.

Local Open Scope string_scope.
Local Open Scope Z_scope.

(** ** Thrown errors *)

(** A schema error, or the refusal of the base a delta was asked for. *)
Inductive Refusal := SchemaError (message : string) | BaseInvalid.

Inductive checked (A : Type) := Ok (a : A) | Throw (r : Refusal).
Arguments Ok {A} a.
Arguments Throw {A} r.

Definition bind {A B} (c : checked A) (f : A -> checked B) : checked B := match c with Ok a => f a | Throw r => Throw r end.

Notation "'let!' x ':=' c 'in' k" := (bind c (fun x => k)) (at level 200, x pattern, c at level 100, k at level 200).

(** [if (!b) throw …]. *)
Definition demand (b : bool) (r : Refusal) : checked unit := if b then Ok tt else Throw r.

Fixpoint each {A S} (f : S -> A -> checked S) (l : list A) (s : S) : checked S :=
  match l with [] => Ok s | x :: l => let! s' := f s x in each f l s' end.

Definition schemaError (category : string) : Refusal := SchemaError ("navigation protocol: invalid " ++ category).

(** ** Values *)

Definition isRecord (v : option json) : bool := match v with Some (JObj _) => true | _ => false end.

(** [v[k]] of a record. *)
Definition at_key (v : option json) (k : string) : option json := match v with Some (JObj o) => obj_get k o | _ => None end.

Definition hasOwn (v : option json) (k : string) : bool := match v with Some (JObj o) => obj_has k o | _ => false end.

Definition exactKeys (v : option json) (required optional : list string) : bool :=
  match v with
  | Some (JObj o) => forallb (fun k => obj_has k o) required && forallb (fun k => str_in k (required ++ optional)%list) (obj_keys o)
  | _ => false
  end.

Definition MAX_SAFE_INTEGER : Z := 2 ^ 53 - 1.

Definition isSafeInteger (n : Z) : bool := Z.abs n <=? MAX_SAFE_INTEGER.

Definition js_length (s : string) : Z := Z.of_nat (String.length s).

Definition safeString (v : option json) (max : Z) : bool := match v with Some (JStr s) => (0 <? js_length s) && (js_length s <=? max) | _ => false end.

Definition utf8Length (s : string) : Z := Z.of_nat (length (utf8 s)).

Definition identity (v : option json) (allowEmpty : bool) : bool :=
  match v with Some (JStr s) => (allowEmpty || (0 <? js_length s)) && (utf8Length s <=? 1024) | _ => false end.

Definition boundedString (max : Z) (v : option json) : bool := match v with Some (JStr s) => js_length s <=? max | _ => false end.

Definition count (v : option json) : bool := match v with Some (JNum n) => isSafeInteger n && (0 <=? n) | _ => false end.

Definition is_bool (v : option json) : bool := match v with Some (JBool _) => true | _ => false end.

Definition optional (v : option json) (check : option json -> bool) : bool := match v with None => true | Some _ => check v end.

Definition is_text (v : option json) (s : string) : bool := match v with Some (JStr t) => String.eqb t s | _ => false end.
Definition is_number (v : option json) (n : Z) : bool := match v with Some (JNum m) => m =? n | _ => false end.

Definition isArray (v : option json) : bool := match v with Some (JArr _) => true | _ => false end.
Definition items (v : option json) : list json := match v with Some (JArr l) => l | _ => [] end.

(** *** Value records *)

Inductive ValueRecordKeys := mkKeys (required known : list string) (nested : list (string * ValueRecordKeys)).

Definition required_keys (k : ValueRecordKeys) : list string := let 'mkKeys r _ _ := k in r.
Definition known_keys (k : ValueRecordKeys) : list string := let 'mkKeys _ n _ := k in n.

(** A table of keys, [true] where required. *)
Definition valueRecordKeys (table : list (string * bool)) (nested : list (string * ValueRecordKeys)) : ValueRecordKeys :=
  mkKeys (List.filter (fun e => e.2) table).*1 table.*1 nested.

Definition req (k : string) : string * bool := (k, true).
Definition opt (k : string) : string * bool := (k, false).

Definition knownKeys (v : option json) (k : ValueRecordKeys) : bool := isRecord v && forallb (hasOwn v) (required_keys k).

(** The known properties of a record, in the order of its table. *)
Fixpoint dropUnknownKeys (k : ValueRecordKeys) (v : json) {struct k} : json :=
  let 'mkKeys _ known nested := k in
  let nest := fix nest (l : list (string * ValueRecordKeys)) (key : string) (item : json) : json :=
    match l with
    | [] => item
    | (key', n) :: l => if String.eqb key key' then match item with JArr es => JArr (map (dropUnknownKeys n) es) | _ => dropUnknownKeys n item end else nest l key item
    end in
  JObj (omap (fun key => match at_key (Some v) key with Some item => Some (key, nest nested key item) | None => None end) known).

Definition TASKS_KEYS : ValueRecordKeys := valueRecordKeys [req "total"; req "done"; opt "cancelled"; opt "current_id"; opt "current"] [].
Definition SUBAGENT_TALLY_KEYS : ValueRecordKeys := valueRecordKeys [req "running"; req "failed"; req "done"] [].
Definition QUESTION_KEYS : ValueRecordKeys := valueRecordKeys [req "text"; req "count"; opt "options"] [].
Definition FAILURE_KEYS : ValueRecordKeys := valueRecordKeys [opt "title"; opt "cause_kind"; opt "provider"; opt "status"] [].
Definition SESSION_KEYS : ValueRecordKeys :=
  valueRecordKeys
    [req "ref"; req "host_id"; req "session_id"; req "title"; req "project"; req "state"; req "kind"; req "live"; req "children"; opt "branch"; opt "favorite"; opt "rename";
     opt "ask_pending"; opt "approval_pending"; opt "approval_tool"; opt "approval_target"; opt "question"; opt "failure"; opt "last_message"; opt "model_name"; opt "dormant";
     opt "offline"; opt "archived"; opt "updated_at"; opt "created_at"; opt "turn_ended_at"; opt "unseen"; opt "seen_through"; opt "more_subagents"; opt "subagents";
     opt "omitted_descendants"; opt "running_job_count"; opt "running_job_command"; opt "watch_count"; opt "armed_watch_count"; opt "tasks"]
    [("tasks", TASKS_KEYS); ("subagents", SUBAGENT_TALLY_KEYS); ("question", QUESTION_KEYS); ("failure", FAILURE_KEYS)].
Definition PROJECT_KEYS : ValueRecordKeys :=
  valueRecordKeys
    [req "key"; req "name"; req "session_count"; opt "working_dir"; opt "rollup_state"; opt "rollup_live"; opt "rollup_attn"; opt "default_expanded"; opt "more_current";
     opt "more_recent"; opt "more_archived"; opt "worktrees"; opt "is_archived"; opt "favorite"; opt "sources"] [].
Definition PROJECT_ANCHOR_KEYS : ValueRecordKeys := valueRecordKeys [req "key"] [].
Definition PIN_SECTION_KEYS : ValueRecordKeys := valueRecordKeys [req "id"; req "name"; req "count"] [].
Definition SOURCE_KEYS : ValueRecordKeys := valueRecordKeys [req "id"; req "label"; req "kind"; req "online"] [].
Definition COUNT_KEYS : ValueRecordKeys := valueRecordKeys [req "count"] [].
Definition ATTENTION_SUMMARY_KEYS : ValueRecordKeys := valueRecordKeys [req "needsYou"; req "error"; req "working"] [].
Definition SECTIONS_KEYS : ValueRecordKeys :=
  valueRecordKeys [req "live"; req "needs_you"; req "pin_sections"] [("live", COUNT_KEYS); ("needs_you", COUNT_KEYS); ("pin_sections", COUNT_KEYS)].
Definition CATALOGS_KEYS : ValueRecordKeys :=
  valueRecordKeys [req "projects"; req "archived_projects"; req "test_runs"] [("projects", COUNT_KEYS); ("archived_projects", COUNT_KEYS); ("test_runs", COUNT_KEYS)].
Definition MANIFEST_KEYS : ValueRecordKeys :=
  valueRecordKeys [req "generation_id"; req "revision"; req "sources"; req "attentionSummary"; req "sections"; req "catalogs"]
    [("sources", SOURCE_KEYS); ("attentionSummary", ATTENTION_SUMMARY_KEYS); ("sections", SECTIONS_KEYS); ("catalogs", CATALOGS_KEYS)].
Definition LOCATION_KEYS : ValueRecordKeys :=
  valueRecordKeys [req "generation_id"; req "revision"; req "ref"; req "top_level_ref"; req "top_level"; opt "catalog"; opt "project_key"; opt "tier"; opt "pin_section_id"] [].

(** ** Timestamps *)

Definition digit_at (s : string) (i : nat) : option Z :=
  match String.get i s with
  | Some c => let n := Z.of_nat (nat_of_ascii c) in if (48 <=? n) && (n <=? 57) then Some (n - 48) else None
  | None => None
  end.

(** [\d{n}] at an index, as a number. *)
Fixpoint number_at (n : nat) (s : string) (i : nat) (acc : Z) : option Z :=
  match n with O => Some acc | S n => match digit_at s i with Some d => number_at n s (S i) (10 * acc + d) | None => None end end.

Definition char_at (s : string) (i : nat) (c : ascii) : bool := match String.get i s with Some d => Ascii.eqb d c | None => false end.

(** How many digits follow, at most [n]. *)
Fixpoint digit_run (n : nat) (s : string) (i : nat) : nat :=
  match n with O => O | S n => match digit_at s i with Some _ => S (digit_run n s (S i)) | None => O end end.

(** [(?:Z|[+-](\d{2}):(\d{2}))$]. *)
Definition zone_at (s : string) (i : nat) : option (Z * Z) :=
  if char_at s i "Z" && (String.length s =? i + 1)%nat then Some (0, 0)
  else if (char_at s i "+" || char_at s i "-") && char_at s (i + 3) ":" && (String.length s =? i + 6)%nat then
    match number_at 2 s (i + 1) 0, number_at 2 s (i + 4) 0 with Some h, Some m => Some (h, m) | _, _ => None end
  else None.

(** [(?:\.\d{1,9})?]: where the zone begins. *)
Definition fraction_end (s : string) : nat :=
  if char_at s 19 "." then match digit_run 9 s 20 with O => 19%nat | n => (20 + n)%nat end else 19%nat.

Definition daysInMonth (year month : Z) : option Z :=
  let leap := (year mod 4 =? 0) && (negb (year mod 100 =? 0) || (year mod 400 =? 0)) in
  [31; if leap then 29 else 28; 31; 30; 31; 30; 31; 31; 30; 31; 30; 31] !! Z.to_nat (month - 1).

Definition rfc3339 (s : string) : bool :=
  match number_at 4 s 0 0, number_at 2 s 5 0, number_at 2 s 8 0, number_at 2 s 11 0, number_at 2 s 14 0, number_at 2 s 17 0, zone_at s (fraction_end s) with
  | Some year, Some month, Some day, Some hour, Some minute, Some second, Some (zoneHour, zoneMinute) =>
      char_at s 4 "-" && char_at s 7 "-" && char_at s 10 "T" && char_at s 13 ":" && char_at s 16 ":" &&
      negb ((month <? 1) || (12 <? month) || (23 <? hour) || (59 <? minute) || (59 <? second) || (23 <? zoneHour) || (59 <? zoneMinute)) &&
      match daysInMonth year month with Some d => (1 <=? day) && (day <=? d) | None => false end
  | _, _, _, _, _, _, _ => false
  end.

Definition rfc3339Timestamp (v : option json) : bool := match v with Some (JStr s) => rfc3339 s | _ => false end.

(** ** Records *)

Definition version (v : option json) : bool :=
  exactKeys v ["generationId"; "revision"; "etag"] [] && safeString (at_key v "generationId") 256 && count (at_key v "revision") && safeString (at_key v "etag") 1024.

(** [(v as number | undefined) ?? 0], of a value that is a count or absent. *)
Definition number_or_zero (v : option json) : Z := match v with Some (JNum n) => n | _ => 0 end.

Definition nonempty (v : option json) : bool := negb (is_text v EmptyString).

Definition tasksValue (v : option json) : bool :=
  knownKeys v TASKS_KEYS && count (at_key v "total") && count (at_key v "done") && optional (at_key v "cancelled") count && optional (at_key v "current_id") count &&
  optional (at_key v "current") (boundedString 512) &&
  (number_or_zero (at_key v "done") + number_or_zero (at_key v "cancelled") <=? number_or_zero (at_key v "total")).

Definition subagentTallyValue (v : option json) : bool :=
  knownKeys v SUBAGENT_TALLY_KEYS && count (at_key v "running") && count (at_key v "failed") && count (at_key v "done").

Definition questionValue (v : option json) : bool :=
  knownKeys v QUESTION_KEYS && boundedString 200 (at_key v "text") && nonempty (at_key v "text") && count (at_key v "count") && (1 <=? number_or_zero (at_key v "count")) &&
  optional (at_key v "options") (fun o => isArray o && (length (items o) <=? 5)%nat && forallb (fun l => boundedString 80 (Some l) && nonempty (Some l)) (items o)).

Definition is_defined (v : option json) : bool := match v with Some _ => true | None => false end.

Definition failureValue (v : option json) : bool :=
  knownKeys v FAILURE_KEYS && (is_defined (at_key v "title") || is_defined (at_key v "cause_kind")) &&
  optional (at_key v "title") (fun t => boundedString 80 t && nonempty t) && optional (at_key v "cause_kind") (fun i => identity i false) &&
  optional (at_key v "provider") (fun i => identity i false) && optional (at_key v "status") count.

Definition sessionFieldsValue (v : option json) : bool :=
  knownKeys v SESSION_KEYS && identity (at_key v "ref") false && identity (at_key v "host_id") false && identity (at_key v "session_id") false &&
  boundedString 200 (at_key v "title") && identity (at_key v "project") true && identity (at_key v "state") false && identity (at_key v "kind") false &&
  is_bool (at_key v "live") && isArray (at_key v "children") && optional (at_key v "branch") (boundedString 512) && optional (at_key v "favorite") is_bool &&
  optional (at_key v "rename") is_bool && optional (at_key v "ask_pending") is_bool && optional (at_key v "approval_pending") is_bool &&
  optional (at_key v "approval_tool") (fun i => identity i false) && optional (at_key v "approval_target") (boundedString 512) &&
  optional (at_key v "question") questionValue && optional (at_key v "failure") failureValue &&
  optional (at_key v "last_message") (fun t => boundedString 200 t && nonempty t) && optional (at_key v "model_name") (fun t => boundedString 512 t && nonempty t) &&
  optional (at_key v "dormant") is_bool && optional (at_key v "offline") is_bool && optional (at_key v "archived") is_bool &&
  optional (at_key v "updated_at") rfc3339Timestamp && optional (at_key v "created_at") rfc3339Timestamp && optional (at_key v "turn_ended_at") rfc3339Timestamp &&
  optional (at_key v "unseen") is_bool && optional (at_key v "seen_through") rfc3339Timestamp && optional (at_key v "more_subagents") count &&
  optional (at_key v "subagents") subagentTallyValue && optional (at_key v "omitted_descendants") count && optional (at_key v "running_job_count") count &&
  optional (at_key v "running_job_command") (boundedString 512) && optional (at_key v "watch_count") count && optional (at_key v "armed_watch_count") count &&
  (number_or_zero (at_key v "armed_watch_count") <=? number_or_zero (at_key v "watch_count")) && optional (at_key v "tasks") tasksValue.

Definition sessionValue (v : option json) : bool := sessionFieldsValue v && (length (items (at_key v "children")) =? 0)%nat.

Definition MAX_NAVIGATION_DEPTH : nat := 32.
Definition MAX_NAVIGATION_SESSION_ENTITIES : nat := 2000.
Definition MAX_NAVIGATION_GRAPH_ENTITIES : nat := MAX_NAVIGATION_SESSION_ENTITIES + 1.
Definition MAX_NAVIGATION_GRAPH_CONTAINERS : nat := MAX_NAVIGATION_SESSION_ENTITIES + 3.
Definition MAX_NAVIGATION_PROJECT_SOURCES : nat := 65.

(** [levels]: how many more levels [MAX_NAVIGATION_DEPTH] allows; [budget]: the rows left,
    counted across the whole list. *)
Fixpoint sessionTreeValue (levels : nat) (v : json) (budget : Z) : bool * Z :=
  match levels with
  | O => (false, budget)
  | S levels =>
      let budget := budget - 1 in
      if (0 <=? budget) && sessionFieldsValue (Some v)
      then (fix every (l : list json) (budget : Z) : bool * Z :=
              match l with
              | [] => (true, budget)
              | child :: l => let '(ok, budget) := sessionTreeValue levels child budget in if ok then every l budget else (false, budget)
              end) (items (at_key (Some v) "children")) budget
      else (false, budget)
  end.

Fixpoint every_tree (l : list json) (budget : Z) : bool :=
  match l with [] => true | row :: l => let '(ok, budget) := sessionTreeValue MAX_NAVIGATION_DEPTH row budget in ok && every_tree l budget end.

Definition decodeArchivedListSessions (v : option json) : checked (list json) :=
  if isArray v && (Z.of_nat (length (items v)) <=? NAVIGATION_SECTION_LIMIT) && every_tree (items v) (Z.of_nat MAX_NAVIGATION_SESSION_ENTITIES)
  then Ok (items v) else Throw (schemaError "archived list").

Definition projectValue (v : option json) : bool :=
  knownKeys v PROJECT_KEYS && identity (at_key v "key") false && boundedString 512 (at_key v "name") && count (at_key v "session_count") &&
  optional (at_key v "working_dir") (fun w => match w with Some (JStr s) => utf8Length s <=? 4096 | _ => false end) &&
  optional (at_key v "rollup_state") (boundedString 512) && optional (at_key v "rollup_live") count && optional (at_key v "rollup_attn") count &&
  optional (at_key v "default_expanded") is_bool && optional (at_key v "more_current") count && optional (at_key v "more_recent") count &&
  optional (at_key v "more_archived") count && optional (at_key v "worktrees") count && optional (at_key v "is_archived") is_bool && optional (at_key v "favorite") is_bool &&
  optional (at_key v "sources") (fun o => isArray o && (length (items o) <=? MAX_NAVIGATION_PROJECT_SOURCES)%nat && forallb (fun i => identity (Some i) false) (items o)).

Definition pinSectionValue (v : option json) : bool :=
  knownKeys v PIN_SECTION_KEYS && identity (at_key v "id") false && boundedString 512 (at_key v "name") && count (at_key v "count").

(** ** Entities and containers *)

Fixpoint drop_chars (n : nat) (s : string) : string := match n, s with O, _ => s | S n, String _ s => drop_chars n s | S _, EmptyString => EmptyString end.

Definition is_hex (c : ascii) : bool := let n := nat_of_ascii c in ((48 <=? n) && (n <=? 57))%nat || ((97 <=? n) && (n <=? 102))%nat.

Fixpoint all_of (p : ascii -> bool) (s : string) : bool := match s with EmptyString => true | String c s => p c && all_of p s end.

(** [/^[0-9a-f]{64}$/]. *)
Definition is_digest (s : string) : bool := (String.length s =? 64)%nat && all_of is_hex s.

Definition entity_key_valid (k : ResourceKey) (s : string) : bool :=
  let prefix := navigationViewScope k ++ "/entity/" in String.prefix prefix s && is_digest (drop_chars (String.length prefix) s).

Definition entityKeyValid (k : ResourceKey) (v : option json) : bool := match v with Some (JStr s) => entity_key_valid k s | _ => false end.

(** What an entity stands for, and whether it is the anchor of a project. *)
Definition logical_of (kind : string) (v : option json) (name : string) : string :=
  kind ++ String "000" (match at_key v name with Some (JStr s) => s | _ => EmptyString end).

Definition entityIdentityForResource (k : ResourceKey) (kind value : option json) : checked (string * bool) :=
  let session :=
    if is_text kind "session" && sessionValue value then Ok (logical_of "session" value "ref", false) else Throw (schemaError "entity schema") in
  match k with
  | Manifest => Throw (schemaError "entity schema")
  | PinCatalog _ _ =>
      if is_text kind "pin_section" && pinSectionValue value then Ok (logical_of "pin_section" value "id", false) else Throw (schemaError "entity schema")
  | Catalog _ _ _ =>
      if is_text kind "project" && projectValue value then Ok (logical_of "project" value "key", false) else Throw (schemaError "entity schema")
  | Project p _ =>
      if is_text kind "project" then
        if knownKeys value PROJECT_ANCHOR_KEYS && is_text (at_key value "key") p then Ok (logical_of "project" value "key", true) else Throw (schemaError "entity schema")
      else session
  | _ => session
  end.

Definition entity (v : json) (k : ResourceKey) : bool :=
  let v := Some v in
  exactKeys v ["key"; "kind"; "value"] [] && entityKeyValid k (at_key v "key") && safeString (at_key v "kind") 128 && isRecord (at_key v "value").

Definition validateEntity (v : json) (k : ResourceKey) : checked (string * bool) :=
  if entity v k then entityIdentityForResource k (at_key (Some v) "kind") (at_key (Some v) "value") else Throw (schemaError "entity schema").

Definition owner (v : option json) : bool :=
  (exactKeys v ["kind"; "slot"] [] && is_text (at_key v "kind") "resource_root" && safeString (at_key v "slot") 128) ||
  (exactKeys v ["kind"; "slot"; "entityKey"] [] && is_text (at_key v "kind") "entity" && safeString (at_key v "entityKey") 2048 && safeString (at_key v "slot") 128).

(** Where the last slash is: before it and after it. *)
Fixpoint last_slash (s : string) : option (string * string) :=
  match s with
  | EmptyString => None
  | String c s' =>
      match last_slash s' with
      | Some (a, b) => Some (String c a, b)
      | None => if Ascii.eqb c "/" then Some (EmptyString, s') else None
      end
  end.

Definition line_end (c : ascii) : bool := let n := nat_of_ascii c in (n =? 10)%nat || (n =? 13)%nat.

(** [/^(.*\/entity\/[0-9a-f]{64})\/([^/]+)$/]: its first group. *)
Definition owned_match (s : string) : option string :=
  match last_slash s with
  | Some (a, b) =>
      let n := (String.length a - 64)%nat in
      let mark := "/entity/" in
      let m := (n - String.length mark)%nat in
      if negb (String.eqb b EmptyString) && (String.length mark + 64 <=? String.length a)%nat && is_digest (drop_chars n a) &&
         String.prefix mark (drop_chars m a) && all_of (fun c => negb (line_end c)) (String.substring 0 m a)
      then Some a else None
  | None => None
  end.

Definition containerKeyValid (k : ResourceKey) (s : string) : bool :=
  let root := navigationViewScope k ++ "/root/" in
  if String.prefix root s then (String.length root <? String.length s)%nat
  else match owned_match s with Some e => entity_key_valid k e | None => false end.

Definition container (v : json) (k : ResourceKey) : bool :=
  let v := Some v in
  exactKeys v ["key"; "owner"; "children"] [] && safeString (at_key v "key") 2048 && match at_key v "key" with Some (JStr s) => containerKeyValid k s | _ => false end &&
  owner (at_key v "owner") && isArray (at_key v "children") && forallb (fun c => entityKeyValid k (Some c)) (items (at_key v "children")).

(** ** Metadata *)

Definition descriptor (v : option json) : bool := knownKeys v COUNT_KEYS && count (at_key v "count").

Definition manifestMetadata (v : option json) : bool :=
  let summary := at_key v "attentionSummary" in
  let sections := at_key v "sections" in
  let catalogs := at_key v "catalogs" in
  knownKeys v MANIFEST_KEYS && isArray (at_key v "sources") && (length (items (at_key v "sources")) <=? 64)%nat &&
  forallb (fun s => let s := Some s in
    knownKeys s SOURCE_KEYS && identity (at_key s "id") false && boundedString 512 (at_key s "label") && identity (at_key s "kind") false && is_bool (at_key s "online"))
    (items (at_key v "sources")) &&
  knownKeys summary ATTENTION_SUMMARY_KEYS && count (at_key summary "needsYou") && count (at_key summary "error") && count (at_key summary "working") &&
  knownKeys sections SECTIONS_KEYS && descriptor (at_key sections "live") && descriptor (at_key sections "needs_you") && descriptor (at_key sections "pin_sections") &&
  knownKeys catalogs CATALOGS_KEYS && descriptor (at_key catalogs "projects") && descriptor (at_key catalogs "archived_projects") && descriptor (at_key catalogs "test_runs").

Definition effectiveLimit (k : ResourceKey) : Z :=
  match k with
  | Section_ _ _ l | PinSection _ _ l | ProjectPage _ _ _ _ l => if (l =? 0) || (NAVIGATION_SECTION_LIMIT <? l) then NAVIGATION_SECTION_LIMIT else l
  | PinCatalog _ l | Catalog _ _ l => if (l =? 0) || (NAVIGATION_CATALOG_LIMIT <? l) then NAVIGATION_CATALOG_LIMIT else l
  | _ => 0
  end.

Definition selector (n : Z) : bool := isSafeInteger n && (0 <=? n) && (n <=? 4294967295).

Definition text (s : string) : option json := Some (JStr s).

Definition resourceKeyValid (k : ResourceKey) : bool :=
  match k with
  | Manifest => true
  | Section_ s o l => (String.eqb s "live" || String.eqb s "needs_you") && selector o && selector l
  | PinCatalog o l | Catalog _ o l => selector o && selector l
  | PinSection i o l => identity (text i) false && selector o && selector l
  | Project p _ => identity (text p) false
  | ProjectPage p _ t o l => identity (text p) false && str_in t ["current"; "recent"; "archived"] && selector o && selector l
  | Location r => identity (text r) false
  end.

Definition version_valid (b : NavigationReadBase) : bool := identity (text (base_generation b)) false && isSafeInteger (base_revision b) && (0 <? base_revision b).

Definition metadata_valid (m : option json) (k : ResourceKey) : bool :=
  match k with
  | Manifest => manifestMetadata m
  | Section_ _ o _ | PinSection _ o _ =>
      exactKeys m ["generation_id"; "revision"; "offset"; "limit"; "remaining"; "truncated"] [] && is_number (at_key m "offset") o &&
      is_number (at_key m "limit") (effectiveLimit k) && count (at_key m "remaining") && is_bool (at_key m "truncated")
  | PinCatalog o _ | Catalog _ o _ =>
      exactKeys m ["generation_id"; "revision"; "offset"; "limit"; "remaining"] [] && is_number (at_key m "offset") o &&
      is_number (at_key m "limit") (effectiveLimit k) && count (at_key m "remaining")
  | Project p _ =>
      exactKeys m ["generation_id"; "revision"; "key"; "current_remaining"; "recent_remaining"; "archived_remaining"; "truncated"] [] && is_text (at_key m "key") p &&
      count (at_key m "current_remaining") && count (at_key m "recent_remaining") && count (at_key m "archived_remaining") && is_bool (at_key m "truncated")
  | ProjectPage p _ t o _ =>
      exactKeys m ["generation_id"; "revision"; "key"; "tier"; "offset"; "limit"; "remaining"; "truncated"] [] && is_text (at_key m "key") p && is_text (at_key m "tier") t &&
      is_number (at_key m "offset") o && is_number (at_key m "limit") (effectiveLimit k) && count (at_key m "remaining") && is_bool (at_key m "truncated")
  | Location r =>
      knownKeys m LOCATION_KEYS && is_text (at_key m "ref") r && identity (at_key m "top_level_ref") false && is_bool (at_key m "top_level") &&
      optional (at_key m "catalog") (fun i => identity i false) && optional (at_key m "project_key") (fun i => identity i false) &&
      optional (at_key m "tier") (fun i => identity i false) && optional (at_key m "pin_section_id") (fun i => identity i false)
  end.

Definition validateResourceMetadata (m : option json) (k : ResourceKey) (b : NavigationReadBase) : checked unit :=
  let! _ := demand (resourceKeyValid k && version_valid b && isRecord m && is_text (at_key m "generation_id") (base_generation b) &&
                    is_number (at_key m "revision") (base_revision b)) (schemaError "resource metadata") in
  demand (metadata_valid m k) (schemaError "resource metadata").

(** ** Graphs *)

Record Graph := mkGraph { metadata : json; entities : js_map json; containers : js_map json }.

Definition expectedRootSlot (k : ResourceKey) : option string :=
  match k with
  | Manifest => Some "manifest"
  | Section_ _ _ _ | PinSection _ _ _ | ProjectPage _ _ _ _ _ => Some "sessions"
  | PinCatalog _ _ => Some "pin_sections"
  | Catalog _ _ _ => Some "projects"
  | Location _ => Some "session"
  | Project _ _ => None
  end.

(** Sets of strings, a list without repetition. *)
Definition set_add (s : string) (l : list string) : list string := if str_in s l then l else (l ++ [s])%list.

Definition exactSlots (actual expected : list string) : bool := (length actual =? length expected)%nat && forallb (fun s => str_in s actual) expected.

Definition tiers : list string := ["current"; "recent"; "archived"].

(** What the loop over entities gathers. *)
Record EntityScan := mkEntityScan { logical : list string; anchorKey : option string; sessionEntities : nat }.

Definition is_session (v : json) : bool := is_text (at_key (Some v) "kind") "session".

Definition graph_error : Refusal := schemaError "resource graph".

Definition scan_entity (k : ResourceKey) (s : EntityScan) (e : string * json) : checked EntityScan :=
  let '(mapKey, item) := e in
  let! _ := demand (is_text (at_key (Some item) "key") mapKey) (schemaError "entity schema") in
  let! decoded := validateEntity item k in
  let sessions := if is_session item then S (sessionEntities s) else sessionEntities s in
  let! _ := demand (negb (is_session item && (MAX_NAVIGATION_SESSION_ENTITIES <? sessions)%nat)) graph_error in
  let! _ := demand (negb (str_in decoded.1 (logical s))) (schemaError "logical identity") in
  let! _ := demand (negb (decoded.2 && match anchorKey s with Some _ => true | None => false end)) graph_error in
  Ok (mkEntityScan (logical s ++ [decoded.1])%list (if decoded.2 then Some mapKey else anchorKey s) sessions).

(** What the loop over containers gathers. *)
Record ContainerScan := mkContainerScan {
  roots : nat; rootChildren : list string; parents : js_map string; slots : js_map (list string); edges : js_map (list string) }.

Definition children_of (v : json) : list string := omap (fun c => match c with JStr s => Some s | _ => None end) (items (at_key (Some v) "children")).

Definition text_at (v : option json) (k : string) : string := match at_key v k with Some (JStr s) => s | _ => EmptyString end.

Definition scan_child (g : Graph) (containerKey : string) (ps : js_map string) (child : string) : checked (js_map string) :=
  let! _ := demand (map_has child (entities g) && negb (map_has child ps)) graph_error in Ok (map_put child containerKey ps).

Definition scan_root (k : ResourceKey) (item : json) (s : ContainerScan) : checked ContainerScan :=
  let children := children_of item in
  let ok :=
    match expectedRootSlot k with
    | Some slot => String.eqb (text_at (at_key (Some item) "owner") "slot") slot && String.eqb (text_at (Some item) "key") (navigationRootContainerKey k slot)
    | None => false
    end in
  let! _ := demand ok graph_error in
  let maximum := match k with Location _ => 1 | _ => effectiveLimit k end in
  let! _ := demand (if maximum =? 0 then (length children =? 0)%nat else Z.of_nat (length children) <=? maximum) graph_error in
  Ok (mkContainerScan (S (roots s)) (rootChildren s ++ children)%list (parents s) (slots s) (edges s)).

Definition scan_owned (k : ResourceKey) (g : Graph) (anchor : option string) (item : json) (s : ContainerScan) : checked ContainerScan :=
  let children := children_of item in
  let ownerEntityKey := text_at (at_key (Some item) "owner") "entityKey" in
  let ownerSlot := text_at (at_key (Some item) "owner") "slot" in
  let! _ := demand (str_truthy ownerEntityKey && str_truthy ownerSlot) graph_error in
  match map_get ownerEntityKey (entities g) with
  | None => Throw graph_error
  | Some ownerEntity =>
      let! _ := demand (String.eqb (text_at (Some item) "key") (navigationOwnedContainerKey ownerEntityKey ownerSlot)) graph_error in
      let allowed :=
        if is_session ownerEntity then String.eqb ownerSlot "children"
        else match k with Project _ _ => true | _ => false end && bool_decide (anchor = Some (text_at (Some ownerEntity) "key")) && str_in ownerSlot tiers in
      let! _ := demand allowed graph_error in
      let! _ := demand (negb (is_session ownerEntity && negb (length children =? 0)%nat)) graph_error in
      let! _ := demand (Z.of_nat (length children) <=? NAVIGATION_SECTION_LIMIT) graph_error in
      let entityKey := text_at (Some ownerEntity) "key" in
      Ok (mkContainerScan (roots s) (rootChildren s) (parents s) (map_put entityKey (set_add ownerSlot (default [] (map_get entityKey (slots s)))) (slots s))
            (map_put entityKey (default [] (map_get entityKey (edges s)) ++ children)%list (edges s)))
  end.

Definition is_root (item : json) : bool := is_text (at_key (at_key (Some item) "owner") "kind") "resource_root".

Definition scan_container (k : ResourceKey) (g : Graph) (anchor : option string) (s : ContainerScan) (c : string * json) : checked ContainerScan :=
  let '(mapKey, item) := c in
  let! _ := demand (is_text (at_key (Some item) "key") mapKey && container item k) (schemaError "container schema") in
  let! s := if is_root item then scan_root k item s else scan_owned k g anchor item s in
  let! ps := each (scan_child g mapKey) (children_of item) (parents s) in
  Ok (mkContainerScan (roots s) (rootChildren s) ps (slots s) (edges s)).

(** Every entity has its place and its slots. *)
Definition placed (anchor : option string) (s : ContainerScan) (e : string * json) : bool :=
  let key := text_at (Some e.2) "key" in
  let owned := default [] (map_get key (slots s)) in
  (if bool_decide (anchor = Some key) then negb (map_has key (parents s)) && exactSlots owned tiers else map_has key (parents s)) &&
  (negb (is_session e.2) || exactSlots owned ["children"]) &&
  (is_session e.2 || bool_decide (anchor = Some key) || (length owned =? 0)%nat).

(** A walk down the edges: [visiting] and [visited]. *)
Record Walk := mkWalk { visiting : list string; visited : list string }.

Fixpoint visit (levels : nat) (es : js_map (list string)) (w : Walk) (key : string) (depth : nat) : checked Walk :=
  match levels with
  | O => Throw graph_error
  | S levels =>
      if str_in key (visiting w) then Throw graph_error
      else if str_in key (visited w) then Ok w
      else if (MAX_NAVIGATION_DEPTH <? depth)%nat then Throw graph_error
      else
        let! w := each (fun w child => visit levels es w child (S depth)) (default [] (map_get key es)) (mkWalk (key :: visiting w) (visited w)) in
        Ok (mkWalk (filter (fun x => x <> key) (visiting w)) (visited w ++ [key])%list)
  end.

(** One level more than any walk goes. *)
Definition walk_levels : nat := MAX_NAVIGATION_DEPTH + 3.

Definition validateGraphForResource (k : ResourceKey) (b : NavigationReadBase) (g : Graph) : checked unit :=
  let! _ := validateResourceMetadata (Some (metadata g)) k b in
  let! _ := demand ((length (entities g) <=? MAX_NAVIGATION_GRAPH_ENTITIES)%nat && (length (containers g) <=? MAX_NAVIGATION_GRAPH_CONTAINERS)%nat) graph_error in
  let! es := each (scan_entity k) (entities g) (mkEntityScan [] None 0) in
  let anchor := anchorKey es in
  let! _ := demand (match k with Manifest => (length (entities g) =? 0)%nat | _ => true end) (schemaError "entity schema") in
  let! _ := demand (match k with Project _ _ => bool_decide (anchor <> None) | Location _ => (length (entities g) <=? 1)%nat | _ => true end) graph_error in
  let! cs := each (scan_container k g anchor) (containers g) (mkContainerScan 0 [] [] [] []) in
  let! _ := demand (match expectedRootSlot k with Some _ => (roots cs =? 1)%nat | None => (roots cs =? 0)%nat end) graph_error in
  let! _ := demand (forallb (placed anchor cs) (entities g)) graph_error in
  let! w := each (fun w key => visit walk_levels (edges cs) w key 1) (rootChildren cs) (mkWalk [] []) in
  let! w := match anchor with Some key => visit walk_levels (edges cs) w key 0 | None => Ok w end in
  let! _ := each (fun w e => visit walk_levels (edges cs) w e.1 1) (entities g) w in
  Ok tt.

(** ** Snapshots and deltas *)

Record NavigationSnapshot := mkSnapshot { snap_metadata : json; snap_entities : list json; snap_containers : list json }.

Record NavigationDelta := mkDelta {
  delta_metadata : option json; upsertedEntities : list json; removedEntityKeys : list string; upsertedContainers : list json; removedContainerKeys : list string }.

(** A list of records as a map, a repeated key refused. *)
Definition keyed (category : string) (m : js_map json) (item : json) : checked (js_map json) :=
  match at_key (Some item) "key" with
  | Some (JStr key) => if map_has key m then Throw (schemaError category) else Ok (map_put key item m)
  | _ => Throw (schemaError category)
  end.

Definition validateSnapshotForResource (k : ResourceKey) (b : NavigationReadBase) (v : option json) : checked unit :=
  let! _ := demand (resourceKeyValid k && exactKeys v ["metadata"; "entities"; "containers"] [] && isArray (at_key v "entities") && isArray (at_key v "containers"))
              (schemaError "snapshot") in
  let! es := each (keyed "entity schema") (items (at_key v "entities")) [] in
  let! cs := each (keyed "container schema") (items (at_key v "containers")) [] in
  validateGraphForResource k b (mkGraph (default JNull (at_key v "metadata")) es cs).

Definition strings (l : list json) : list string := omap (fun c => match c with JStr s => Some s | _ => None end) l.

Definition keys_of (l : list json) : list string := map (fun i => text_at (Some i) "key") l.

(** [new Set(l).size === l.length]. *)
Fixpoint distinct (l : list string) : bool := match l with [] => true | s :: l => negb (str_in s l) && distinct l end.

Definition validateDeltaForResource (k : ResourceKey) (b : NavigationReadBase) (v : option json) : checked bool :=
  let es := items (at_key v "upsertedEntities") in
  let removed := items (at_key v "removedEntityKeys") in
  let cs := items (at_key v "upsertedContainers") in
  let gone := items (at_key v "removedContainerKeys") in
  if negb (resourceKeyValid k && version_valid b &&
           exactKeys v ["upsertedEntities"; "removedEntityKeys"; "upsertedContainers"; "removedContainerKeys"] ["metadata"] &&
           isArray (at_key v "upsertedEntities") && isArray (at_key v "removedEntityKeys") && isArray (at_key v "upsertedContainers") && isArray (at_key v "removedContainerKeys"))
  then Ok false
  else
    let! _ := match at_key v "metadata" with Some m => validateResourceMetadata (Some m) k b | None => Ok tt end in
    if negb (forallb (fun i => entity i k) es && forallb (fun i => container i k) cs && forallb (fun i => entityKeyValid k (Some i)) removed &&
             forallb (fun i => match i with JStr s => containerKeyValid k s | _ => false end) gone)
    then Ok false
    else if negb (distinct (keys_of es ++ strings removed) && distinct (keys_of cs ++ strings gone)) then Ok false
    else
      let! names := each (fun l i => let! d := entityIdentityForResource k (at_key (Some i) "kind") (at_key (Some i) "value") in Ok (l ++ [d.1])%list) es [] in
      Ok (distinct names).

Definition RESPONSE_COMMON_KEYS : list string := ["status"; "generationId"; "revision"; "etag"].
Definition RESPONSE_SNAPSHOT_KEYS : list string := (RESPONSE_COMMON_KEYS ++ ["representation"; "data"])%list.
Definition RESPONSE_DELTA_KEYS : list string := (RESPONSE_COMMON_KEYS ++ ["representation"; "base"; "data"])%list.

Definition entityValueKeys (k : ResourceKey) (kind : option json) : ValueRecordKeys :=
  if is_text kind "session" then SESSION_KEYS
  else if is_text kind "pin_section" then PIN_SECTION_KEYS
  else match k with Project _ _ => PROJECT_ANCHOR_KEYS | _ => PROJECT_KEYS end.

Definition knownEntity (k : ResourceKey) (item : json) : json :=
  match item with
  | JObj o => JObj (obj_set "value" (dropUnknownKeys (entityValueKeys k (obj_get "kind" o)) (default JNull (obj_get "value" o))) o)
  | _ => item
  end.

Definition knownMetadata (k : ResourceKey) (m : json) : json :=
  match k with Manifest => dropUnknownKeys MANIFEST_KEYS m | Location _ => dropUnknownKeys LOCATION_KEYS m | _ => m end.

Definition knownSnapshot (k : ResourceKey) (v : option json) : NavigationSnapshot :=
  mkSnapshot (knownMetadata k (default JNull (at_key v "metadata"))) (map (knownEntity k) (items (at_key v "entities"))) (items (at_key v "containers")).

Definition knownDelta (k : ResourceKey) (v : option json) : NavigationDelta :=
  mkDelta (knownMetadata k <$> at_key v "metadata") (map (knownEntity k) (items (at_key v "upsertedEntities"))) (strings (items (at_key v "removedEntityKeys")))
    (items (at_key v "upsertedContainers")) (strings (items (at_key v "removedContainerKeys"))).

Inductive DecodedNavigationResponse :=
  | NotModified (version : NavigationReadBase)
  | Gone (version : NavigationReadBase)
  | Snapshot (version : NavigationReadBase) (snapshot : NavigationSnapshot)
  | Delta (version base : NavigationReadBase) (delta : NavigationDelta).

Definition refused (m : string) : Refusal := SchemaError ("navigation protocol: " ++ m).

Definition number_of (v : option json) : Z := number_or_zero v.

Definition base_of (v : option json) : NavigationReadBase := mkBase (text_at v "generationId") (number_of (at_key v "revision")) (text_at v "etag").

Definition decode_delta (k : ResourceKey) (sentBase : option NavigationReadBase) (current : NavigationReadBase) (wire : option json) : checked DecodedNavigationResponse :=
  let base := at_key wire "base" in
  if version base && bool_decide (sentBase = Some (base_of base)) then
    let! ok := validateDeltaForResource k current (at_key wire "data") in
    if (ok : bool) then Ok (Delta current (base_of base) (knownDelta k (at_key wire "data"))) else Throw (schemaError "delta")
  else Throw (schemaError "delta").

Definition decodeNavigationResponse (k : ResourceKey) (sentBase : option NavigationReadBase) (wire : option json) : checked DecodedNavigationResponse :=
  let! _ := demand (isRecord wire && safeString (at_key wire "generationId") 256 && count (at_key wire "revision") && safeString (at_key wire "etag") 1024 &&
                    match at_key wire "status" with Some (JStr _) => true | _ => false end) (refused "invalid response envelope") in
  let current := base_of wire in
  let status := at_key wire "status" in
  if is_text status "not_modified" then
    if exactKeys wire RESPONSE_COMMON_KEYS [] && bool_decide (sentBase = Some current) then Ok (NotModified current)
    else Throw (refused "invalid not_modified response")
  else if is_text status "gone" then
    if exactKeys wire RESPONSE_COMMON_KEYS [] then Ok (Gone current) else Throw (refused "invalid gone response")
  else
    let representation := at_key wire "representation" in
    let! _ := demand (is_text status "ok" && (is_text representation "snapshot" || is_text representation "delta") && hasOwn wire "data") (refused "invalid v3 response") in
    if is_text representation "snapshot" then
      let! _ := demand (exactKeys wire RESPONSE_SNAPSHOT_KEYS []) (refused "invalid snapshot") in
      let! _ := validateSnapshotForResource k current (at_key wire "data") in
      Ok (Snapshot current (knownSnapshot k (at_key wire "data")))
    else
      let! _ := demand (exactKeys wire RESPONSE_DELTA_KEYS []) (refused "invalid delta response") in
      match decode_delta k sentBase current wire with Ok d => Ok d | Throw _ => Throw BaseInvalid end.
