(* ===== verification/NavigationFacts.v ===== *)
(** Lemmas about the checks of NavigationCodec.v: what a check that passed established. *)

From S2P Require Import Prelude JsString Json JsMap NavigationKeys NavigationCodec.

Local Open Scope string_scope.

Lemma checked_bind {A B} (c : checked A) (f : A -> checked B) b : bind c f = Ok b <-> exists a, c = Ok a /\ f a = Ok b.
Proof. destruct c; simpl; naive_solver. Qed.

Lemma demand_ok b r u : demand b r = Ok u <-> b = true.
Proof. destruct u, b; simpl; naive_solver. Qed.

(** Take a hypothesis that checks passed apart. *)
Ltac checked_in H :=
  repeat match type of H with
    | bind _ _ = Ok _ => let a := fresh "a" in let Ha := fresh "Hok" in apply checked_bind in H as (a & Ha & H); checked_in Ha
    | demand _ _ = Ok _ => apply demand_ok in H
    end.

Lemma each_nil {A S} (f : S -> A -> checked S) s : each f [] s = Ok s.
Proof. done. Qed.

Lemma each_cons {A S} (f : S -> A -> checked S) x l s s' : each f (x :: l) s = Ok s' <-> exists t, f s x = Ok t /\ each f l t = Ok s'.
Proof. simpl. apply checked_bind. Qed.

Lemma each_in {A S} (f : S -> A -> checked S) l s t x : each f l s = Ok t -> x ∈ l -> exists u u', f u x = Ok u'.
Proof.
  revert s. induction l as [|y l IH]; intros s; [by intros _ ?%elem_of_nil|]. rewrite each_cons. intros (u & Hu & Hl) [->|Hx]%elem_of_cons; [by do 2 eexists|].
  by eapply IH.
Qed.

Lemma distinct_NoDup l : distinct l = true -> NoDup l.
Proof.
  induction l as [|s l IH]; simpl; [by constructor|]. intros [Hs Hl]%andb_prop. constructor; [|by apply IH].
  by apply str_in_false, negb_true_iff.
Qed.

Lemma str_eqb_text v s : is_text v s = true <-> v = Some (JStr s).
Proof. destruct v as [[]|]; simpl; rewrite ?String.eqb_eq; naive_solver. Qed.

Definition record_key (v : json) : string := text_at (Some v) "key".

Lemma known_record_key k v : record_key (knownEntity k v) = record_key v.
Proof. destruct v as [| | | | |o]; try done. unfold record_key, text_at. simpl. by rewrite obj_get_set_ne. Qed.

Lemma keys_of_known k l : keys_of (map (knownEntity k) l) = keys_of l.
Proof. unfold keys_of. rewrite map_map. apply map_ext. intros i. apply known_record_key. Qed.

(** What is decoded as a delta was validated as one. *)
Lemma decoded_delta k sent wire v b d : decodeNavigationResponse k sent wire = Ok (Delta v b d) ->
  validateDeltaForResource k v (at_key wire "data") = Ok true /\ d = knownDelta k (at_key wire "data").
Proof.
  intros Hd. unfold decodeNavigationResponse in Hd. checked_in Hd.
  destruct (is_text _ "not_modified"); [by destruct (exactKeys _ _ _ && _)|]. destruct (is_text _ "gone"); [by destruct (exactKeys _ _ _)|]. checked_in Hd.
  destruct (is_text _ "snapshot"); checked_in Hd; [done|]. destruct (decode_delta _ _ _ _) as [e|] eqn:He; [|done]. injection Hd as ->.
  unfold decode_delta in He. destruct (version _ && _); [|done]. checked_in He.
  match type of He with context [if ?ok then _ else _] => destruct ok end; [|done]. by injection He as <- <- <-.
Qed.

(** What is decoded as a snapshot was validated as one. *)
Lemma decoded_snapshot k sent wire v s : decodeNavigationResponse k sent wire = Ok (Snapshot v s) ->
  validateSnapshotForResource k v (at_key wire "data") = Ok tt /\ s = knownSnapshot k (at_key wire "data").
Proof.
  intros Hd. unfold decodeNavigationResponse in Hd. checked_in Hd.
  destruct (is_text _ "not_modified"); [by destruct (exactKeys _ _ _ && _)|]. destruct (is_text _ "gone"); [by destruct (exactKeys _ _ _)|]. checked_in Hd.
  destruct (is_text _ "snapshot"); checked_in Hd.
  - injection Hd as <- <-. rename select unit into u. destruct u. split; done.
  - unfold decode_delta in Hd. destruct (version _ && _); [|done]. by destruct (validateDeltaForResource _ _ _) as [[]|].
Qed.

(** A delta that decoding lets through names no entry twice. *)
Lemma decoded_delta_keys k sent wire v b d : decodeNavigationResponse k sent wire = Ok (Delta v b d) ->
  NoDup (keys_of (upsertedEntities d)) /\ NoDup (keys_of (upsertedContainers d)).
Proof.
  intros [Hv ->]%decoded_delta. unfold validateDeltaForResource in Hv. destruct (negb _); [done|]. checked_in Hv.
  destruct (negb _); [done|]. destruct (negb (_ && _)) eqn:Hdis; [done|].
  apply negb_false_iff, andb_prop in Hdis as [He Hc]. apply distinct_NoDup, NoDup_app in He as [He _]. apply distinct_NoDup, NoDup_app in Hc as [Hc _].
  simpl. by rewrite keys_of_known.
Qed.
