(* ===== verification/NavigationTyping.v ===== *)
(** What decoding keeps of a record still passes the checks the record passed
    (dropUnknownKeys and the validators of NavigationCodec.v). *)

From S2P Require Import Prelude JsString Json JsMap NavigationKeys NavigationCodec NavigationFacts.

Local Open Scope string_scope.
Local Open Scope Z_scope.

(** ** Dropping unknown keys *)

Lemma omap_same {A B} (f g : A -> option B) (l : list A) : (forall x, f x = g x) -> omap f l = omap g l.
Proof. intros H. apply list_omap_ext, Forall_Forall2_diag, Forall_forall. auto. Qed.

(** What is kept of a property that has a table of its own, an array's items each. *)
Definition nested_item (n : ValueRecordKeys) (item : json) : json := match item with JArr es => JArr (map (dropUnknownKeys n) es) | _ => dropUnknownKeys n item end.

Fixpoint nested_keys (l : list (string * ValueRecordKeys)) (key : string) : option ValueRecordKeys :=
  match l with [] => None | (key', n) :: l => if String.eqb key key' then Some n else nested_keys l key end.

Definition kept_item (k : ValueRecordKeys) (key : string) (item : json) : json :=
  let 'mkKeys _ _ nested := k in match nested_keys nested key with Some n => nested_item n item | None => item end.

Lemma dropUnknownKeys_eq k v : dropUnknownKeys k v =
  JObj (omap (fun key => match at_key (Some v) key with Some item => Some (key, kept_item k key item) | None => None end) (known_keys k)).
Proof.
  destruct k as [r kn ns]. simpl. f_equal. apply omap_same. intros key. destruct (match v with JObj _ => _ | _ => _ end) as [item|]; [|done]. do 2 f_equal.
  induction ns as [|[key' n] ns IH]; simpl; [done|]. destruct (String.eqb key key'); [done|apply IH].
Qed.

Lemma get_kept (f : string -> option json) l key : distinct l = true ->
  obj_get key (omap (fun key => match f key with Some item => Some (key, item) | None => None end) l) = if str_in key l then f key else None.
Proof.
  induction l as [|key' l IH]; intros Hd; [done|]. simpl in Hd. apply andb_prop in Hd as [Hn Hd]. specialize (IH Hd).
  assert (str_in key (key' :: l) = String.eqb key key' || str_in key l) as -> by done. cbn [omap list_omap].
  destruct (f key') as [item|] eqn:Hf; [cbn [obj_get]|]; destruct (String.eqb_spec key key') as [->|]; try done; rewrite IH.
  simpl. apply negb_true_iff in Hn. by rewrite Hn.
Qed.

Lemma at_dropped k v key : distinct (known_keys k) = true ->
  at_key (Some (dropUnknownKeys k v)) key = if str_in key (known_keys k) then kept_item k key <$> at_key (Some v) key else None.
Proof.
  intros Hd. rewrite dropUnknownKeys_eq. cbn [at_key]. rewrite <- (get_kept (fun key => kept_item k key <$> at_key (Some v) key)) by done.
  f_equal. apply omap_same. intros x. destruct v as [| | | | |o]; try done. simpl. by destruct (obj_get x o).
Qed.

(** A known property without a table of its own is kept as it is. *)
Lemma at_same k v key : distinct (known_keys k) && str_in key (known_keys k) && match nested_keys (let 'mkKeys _ _ n := k in n) key with None => true | _ => false end = true ->
  at_key (Some (dropUnknownKeys k v)) key = at_key (Some v) key.
Proof.
  intros [[Hd Hk]%andb_prop Hn]%andb_prop. rewrite at_dropped, Hk by done. destruct k as [r kn ns]. unfold kept_item. destruct (nested_keys ns key); [done|].
  by destruct (at_key (Some v) key).
Qed.

Lemma at_nested k v key n : distinct (known_keys k) && str_in key (known_keys k) = true -> nested_keys (let 'mkKeys _ _ n := k in n) key = Some n ->
  at_key (Some (dropUnknownKeys k v)) key = nested_item n <$> at_key (Some v) key.
Proof. intros [Hd Hk]%andb_prop Hn. rewrite at_dropped, Hk by done. destruct k as [r kn ns]. unfold kept_item. by rewrite Hn. Qed.

Lemma hasOwn_at v key : hasOwn v key = is_defined (at_key v key).
Proof. by destruct v as [[]|]. Qed.

(** Nothing but known properties is kept. *)
Lemma dropped_keys k v : exists o, dropUnknownKeys k v = JObj o /\ obj_keys o ⊆ known_keys k.
Proof.
  rewrite dropUnknownKeys_eq. eexists; split; [done|]. intros key Hk. apply list_elem_of_fmap in Hk as ([key' item] & -> & Hk).
  apply list_elem_of_omap in Hk as (x & Hx & Hk). by destruct (at_key (Some v) x); simplify_eq.
Qed.

Lemma knownKeys_dropped k v : distinct (known_keys k) && forallb (fun key => str_in key (known_keys k)) (required_keys k) = true ->
  knownKeys (Some v) k = true -> knownKeys (Some (dropUnknownKeys k v)) k = true.
Proof.
  intros [Hd Hr]%andb_prop [_ Hk]%andb_prop. unfold knownKeys. apply andb_true_intro. split; [by rewrite dropUnknownKeys_eq|].
  rewrite forallb_forall in *. intros key Hin. specialize (Hr key Hin). specialize (Hk key Hin).
  rewrite hasOwn_at in *. rewrite at_dropped, Hr by done. by destruct (at_key (Some v) key).
Qed.

(** A property of a dropped record, in terms of the record. *)
Ltac dropped :=
  repeat match goal with
    | |- context [at_key (Some (dropUnknownKeys ?k ?v)) ?key] =>
        first [rewrite (at_same k v key) by (vm_compute; reflexivity) | erewrite (at_nested k v key) by reflexivity]
    end.

Lemma optional_nested n (check : option json -> bool) o : (forall v, check (Some v) = true -> check (Some (dropUnknownKeys n v)) = true /\ isArray (Some v) = false) ->
  optional o check = true -> optional (nested_item n <$> o) check = true.
Proof.
  intros Hc. destruct o as [v|]; [|done]. simpl. intros Hv. destruct (Hc v Hv) as [Hd Ha]. by destruct v.
Qed.

(** ** Values *)

Lemma known_not_array v k : knownKeys (Some v) k = true -> isArray (Some v) = false.
Proof. by destruct v. Qed.

(** Take a conjunction of checks apart, and put one together. *)
Ltac checks_in H := repeat match type of H with _ && _ = true => let H' := fresh "Hc" in apply andb_prop in H as [H H'] end.
Ltac checks := repeat match goal with |- _ && _ = true => apply andb_true_intro; split end.

Lemma tasksValue_dropped v : tasksValue (Some v) = true -> tasksValue (Some (dropUnknownKeys TASKS_KEYS v)) = true /\ isArray (Some v) = false.
Proof. unfold tasksValue. intros H. dropped. checks_in H. split; [checks; try done; by apply knownKeys_dropped|by eapply known_not_array]. Qed.

Lemma subagentTallyValue_dropped v : subagentTallyValue (Some v) = true -> subagentTallyValue (Some (dropUnknownKeys SUBAGENT_TALLY_KEYS v)) = true /\ isArray (Some v) = false.
Proof. unfold subagentTallyValue. intros H. dropped. checks_in H. split; [checks; try done; by apply knownKeys_dropped|by eapply known_not_array]. Qed.

Lemma questionValue_dropped v : questionValue (Some v) = true -> questionValue (Some (dropUnknownKeys QUESTION_KEYS v)) = true /\ isArray (Some v) = false.
Proof. unfold questionValue. intros H. dropped. checks_in H. split; [checks; try done; by apply knownKeys_dropped|by eapply known_not_array]. Qed.

Lemma failureValue_dropped v : failureValue (Some v) = true -> failureValue (Some (dropUnknownKeys FAILURE_KEYS v)) = true /\ isArray (Some v) = false.
Proof. unfold failureValue. intros H. dropped. checks_in H. split; [checks; try done; by apply knownKeys_dropped|by eapply known_not_array]. Qed.

Lemma sessionFieldsValue_dropped v : sessionFieldsValue (Some v) = true -> sessionFieldsValue (Some (dropUnknownKeys SESSION_KEYS v)) = true.
Proof.
  unfold sessionFieldsValue. intros H. dropped; [|done..]. checks_in H. checks; try done; [by apply knownKeys_dropped|..].
  all: eapply optional_nested; [|done]. all: auto using tasksValue_dropped, subagentTallyValue_dropped, questionValue_dropped, failureValue_dropped.
Qed.

Lemma sessionValue_dropped v : sessionValue (Some v) = true -> sessionValue (Some (dropUnknownKeys SESSION_KEYS v)) = true.
Proof. unfold sessionValue. intros [Hf Hc]%andb_prop. rewrite sessionFieldsValue_dropped by done. by dropped. Qed.

Lemma projectValue_dropped v : projectValue (Some v) = true -> projectValue (Some (dropUnknownKeys PROJECT_KEYS v)) = true.
Proof. unfold projectValue. intros H. dropped. checks_in H. checks; try done. by apply knownKeys_dropped. Qed.

Lemma pinSectionValue_dropped v : pinSectionValue (Some v) = true -> pinSectionValue (Some (dropUnknownKeys PIN_SECTION_KEYS v)) = true.
Proof. unfold pinSectionValue. intros H. dropped. checks_in H. checks; try done. by apply knownKeys_dropped. Qed.

Lemma known_record o k n : knownKeys o k = true -> exists v, o = Some v /\ nested_item n v = dropUnknownKeys n v.
Proof. intros H. destruct o as [[]|]; try done. by eexists. Qed.

Lemma items_nested n o : isArray o = true -> items (nested_item n <$> o) = map (dropUnknownKeys n) (items o) /\ isArray (nested_item n <$> o) = true.
Proof. by destruct o as [[]|]. Qed.

Lemma descriptor_dropped o : descriptor o = true -> descriptor (nested_item COUNT_KEYS <$> o) = true.
Proof.
  unfold descriptor. intros [Hk Hc]%andb_prop. destruct (known_record o COUNT_KEYS COUNT_KEYS Hk) as (v & -> & Hn). cbn [fmap option_fmap option_map]. rewrite Hn. dropped. checks; [|done]. by apply knownKeys_dropped.
Qed.

Definition source_valid (s : json) : bool :=
  let s := Some s in knownKeys s SOURCE_KEYS && identity (at_key s "id") false && boundedString 512 (at_key s "label") && identity (at_key s "kind") false && is_bool (at_key s "online").

Lemma source_dropped s : source_valid s = true -> source_valid (dropUnknownKeys SOURCE_KEYS s) = true.
Proof. unfold source_valid. cbv zeta. intros H. dropped. checks_in H. checks; try done. by apply knownKeys_dropped. Qed.

Lemma forallb_map_of {A B} (f : A -> B) (p : B -> bool) (q : A -> bool) l : (forall x, q x = true -> p (f x) = true) -> forallb q l = true -> forallb p (map f l) = true.
Proof. intros H. rewrite !forallb_forall. intros Hq y (x & <- & Hx)%in_map_iff. auto. Qed.

Lemma manifestMetadata_dropped m : manifestMetadata (Some m) = true -> manifestMetadata (Some (dropUnknownKeys MANIFEST_KEYS m)) = true.
Proof.
  unfold manifestMetadata. cbv zeta. fold source_valid. intros H. checks_in H.
  repeat match goal with H : knownKeys (at_key (Some m) ?key) ?k = true |- _ =>
    let v := fresh "v" in let Hv := fresh "Hv" in let Hn := fresh "Hn" in destruct (known_record _ k k H) as (v & Hv & Hn); rewrite Hv in *
  end.
  dropped; [|done..]. rewrite ?Hv, ?Hv0, ?Hv1. cbn [fmap option_fmap option_map]. rewrite ?Hn, ?Hn0, ?Hn1. dropped; [|done..].
  destruct (items_nested SOURCE_KEYS (at_key (Some m) "sources")) as [-> ->]; [done|]. rewrite length_map.
  checks; try done; try (by apply knownKeys_dropped); try (by apply descriptor_dropped). by eapply forallb_map_of; [apply source_dropped|].
Qed.

(** ** Records of a graph *)

Lemma metadata_dropped m k b : validateResourceMetadata (Some m) k b = Ok tt -> validateResourceMetadata (Some (knownMetadata k m)) k b = Ok tt.
Proof.
  intros H. unfold validateResourceMetadata in *. checked_in H. destruct k; cbn [knownMetadata]; try (rewrite Hok; by apply demand_ok).
  all: rewrite checked_bind; exists tt; rewrite !demand_ok; dropped; checks_in Hok; cbn [metadata_valid] in *; split; [checks; try done; by rewrite dropUnknownKeys_eq|].
  - by apply manifestMetadata_dropped.
  - dropped. checks_in H. checks; try done. by apply knownKeys_dropped.
Qed.

Lemma at_known k v key : isRecord (Some v) = true ->
  at_key (Some (knownEntity k v)) key =
    if String.eqb key "value" then Some (dropUnknownKeys (entityValueKeys k (at_key (Some v) "kind")) (default JNull (at_key (Some v) "value"))) else at_key (Some v) key.
Proof.
  destruct v as [| | | | |o]; try done. intros _. unfold knownEntity. cbn [at_key]. destruct (String.eqb_spec key "value") as [->|]; [apply obj_get_set|by apply obj_get_set_ne].
Qed.

Lemma entity_record k v : entity v k = true -> isRecord (Some v) = true /\ isRecord (at_key (Some v) "value") = true.
Proof. unfold entity. cbv zeta. intros H. checks_in H. split; [by destruct v|done]. Qed.

Lemma entity_known k v : entity v k = true -> entity (knownEntity k v) k = true.
Proof.
  intros H. destruct (entity_record k v H) as [Hr Hv]. unfold entity in *. cbv zeta in *. rewrite !at_known by done. cbn [String.eqb Ascii.eqb Bool.eqb] in *.
  checks_in H. checks; try done; [|by rewrite dropUnknownKeys_eq]. destruct v as [| | | | |o]; try done. unfold knownEntity, exactKeys in *.
  assert (obj_has "value" o = true) as Hhas. { simpl in Hv. unfold obj_has. by destruct (obj_get "value" o). }
  rewrite obj_keys_set_has by done. apply andb_prop in H as [Hq Ho]. apply andb_true_intro. split; [|done].
  rewrite forallb_forall in *. intros key Hin. specialize (Hq key Hin). unfold obj_has in *.
  destruct (decide (key = "value")) as [->|]; [by rewrite obj_get_set|by rewrite obj_get_set_ne].
Qed.

Lemma identity_dropped k kind v r : entityIdentityForResource k kind (Some v) = Ok r ->
  entityIdentityForResource k kind (Some (dropUnknownKeys (entityValueKeys k kind) v)) = Ok r.
Proof.
  unfold entityIdentityForResource, entityValueKeys, logical_of.
  assert (Hs : (if is_text kind "session" && sessionValue (Some v) then Ok (("session" ++ String "000" (match at_key (Some v) "ref" with Some (JStr s) => s | _ => EmptyString end)), false) else Throw (schemaError "entity schema")) = Ok r ->
    is_text kind "session" = true /\ sessionValue (Some v) = true /\
    r = (("session" ++ String "000" (match at_key (Some v) "ref" with Some (JStr s) => s | _ => EmptyString end)), false)).
  { destruct (is_text kind "session"), (sessionValue (Some v)); simpl; intros; by simplify_eq. }
  destruct k; try done; intros H.
  all: try (destruct (Hs H) as (Hk & Hv & ->); rewrite Hk, (sessionValue_dropped v) by done; by dropped).
  - destruct (is_text kind "pin_section") eqn:Hk; [|done]. apply str_eqb_text in Hk as ->. cbn [is_text String.eqb Ascii.eqb Bool.eqb andb] in *.
    destruct (pinSectionValue (Some v)) eqn:Hv; [|done]. rewrite pinSectionValue_dropped by done. by dropped.
  - destruct (is_text kind "project") eqn:Hk; [|done]. apply str_eqb_text in Hk as ->. cbn [is_text String.eqb Ascii.eqb Bool.eqb andb] in *.
    destruct (projectValue (Some v)) eqn:Hv; [|done]. rewrite projectValue_dropped by done. by dropped.
  - destruct (is_text kind "project") eqn:Hk.
    + apply str_eqb_text in Hk as ->. cbn [is_text String.eqb Ascii.eqb Bool.eqb andb] in *. dropped. destruct (knownKeys (Some v) _) eqn:Hv; [|done]. by rewrite knownKeys_dropped.
    + destruct (Hs H) as (Hk' & Hv & ->). rewrite Hk', (sessionValue_dropped v) by done. by dropped.
Qed.

Lemma validateEntity_known k v r : validateEntity v k = Ok r -> validateEntity (knownEntity k v) k = Ok r.
Proof.
  unfold validateEntity. destruct (entity v k) eqn:He; [|done]. destruct (entity_record k v He) as [Hr Hv]. rewrite entity_known, !at_known by done.
  cbn [String.eqb Ascii.eqb Bool.eqb]. destruct (at_key (Some v) "value"); [|done]. apply identity_dropped.
Qed.

(** ** Graphs *)

Definition known_graph (k : ResourceKey) (g : Graph) : Graph :=
  mkGraph (knownMetadata k (metadata g)) (map (fun e => (e.1, knownEntity k e.2)) (entities g)) (containers g).

Lemma each_map {A B S} (f : S -> B -> checked S) (h : A -> B) l s : each f (map h l) s = each (fun s x => f s (h x)) l s.
Proof. revert s. induction l as [|x l IH]; intros s; simpl; [done|]. destruct (f s (h x)); [apply IH|done]. Qed.

Lemma each_imp {A S} (f f' : S -> A -> checked S) l s t : (forall s x t, f s x = Ok t -> f' s x = Ok t) -> each f l s = Ok t -> each f' l s = Ok t.
Proof.
  intros Hf. revert s. induction l as [|x l IH]; intros s; [done|]. rewrite !each_cons. intros (u & Hu & Hl). exists u. auto.
Qed.

Lemma at_known_other k v key : key <> "value" -> at_key (Some (knownEntity k v)) key = at_key (Some v) key.
Proof. destruct v as [| | | | |o]; try done. intros Hne. unfold knownEntity. cbn [at_key]. by apply obj_get_set_ne. Qed.

Lemma is_session_known k v : is_session (knownEntity k v) = is_session v.
Proof. unfold is_session. by rewrite at_known_other. Qed.

Lemma scan_entity_known k s e t : scan_entity k s e = Ok t -> scan_entity k s (e.1, knownEntity k e.2) = Ok t.
Proof.
  destruct e as [key v]. unfold scan_entity. cbn [fst snd]. rewrite is_session_known, at_known_other by done. intros H. checked_in H.
  rewrite Hok, (validateEntity_known _ _ _ Hok0). cbn [demand bind]. by rewrite Hok1, Hok2, Hok3.
Qed.

Lemma map_get_known k l key : map_get key (map (fun e : string * json => (e.1, knownEntity k e.2)) l) = knownEntity k <$> map_get key l.
Proof. induction l as [|[key' v] l IH]; simpl; [done|]. by destruct (String.eqb key key'). Qed.

Lemma map_has_known k l key : map_has key (map (fun e : string * json => (e.1, knownEntity k e.2)) l) = map_has key l.
Proof. unfold map_has. rewrite map_get_known. by destruct (map_get key l). Qed.

Lemma scan_child_known k g c ps child : scan_child (known_graph k g) c ps child = scan_child g c ps child.
Proof. unfold scan_child, known_graph. simpl. by rewrite map_has_known. Qed.

Lemma text_at_known k v : text_at (Some (knownEntity k v)) "key" = text_at (Some v) "key".
Proof. apply known_record_key. Qed.

Lemma scan_owned_known k g anchor item s : scan_owned k (known_graph k g) anchor item s = scan_owned k g anchor item s.
Proof.
  unfold scan_owned. f_equal. unfold known_graph. cbn [entities]. rewrite map_get_known.
  destruct (map_get _ (entities g)) as [v|]; [|done]. cbn [fmap option_fmap option_map]. by rewrite !text_at_known, is_session_known.
Qed.

Lemma scan_container_known k g anchor s c : scan_container k (known_graph k g) anchor s c = scan_container k g anchor s c.
Proof.
  destruct c as [key item]. unfold scan_container. rewrite scan_owned_known. f_equal.
  assert (He : forall l ps, each (scan_child (known_graph k g) key) l ps = each (scan_child g key) l ps).
  { induction l as [|child l IH]; intros ps; simpl; [done|]. rewrite scan_child_known. destruct (scan_child g key ps child); [apply IH|done]. }
  destruct (if is_root item then _ else _) as [s'|]; cbn [bind]; [by rewrite He|done].
Qed.

Lemma placed_known anchor s k e : placed anchor s (e.1, knownEntity k e.2) = placed anchor s e.
Proof. unfold placed. cbn [fst snd]. by rewrite text_at_known, is_session_known. Qed.

(** What a graph that passed validation has passed. *)
Record Validated (k : ResourceKey) (b : NavigationReadBase) (g : Graph) (es : EntityScan) (cs : ContainerScan) : Prop := mkValidated {
  ok_metadata : validateResourceMetadata (Some (metadata g)) k b = Ok tt;
  ok_size : (length (entities g) <=? MAX_NAVIGATION_GRAPH_ENTITIES)%nat && (length (containers g) <=? MAX_NAVIGATION_GRAPH_CONTAINERS)%nat = true;
  ok_entities : each (scan_entity k) (entities g) (mkEntityScan [] None 0) = Ok es;
  ok_manifest : match k with Manifest => (length (entities g) =? 0)%nat | _ => true end = true;
  ok_anchor : match k with Project _ _ => bool_decide (anchorKey es <> None) | Location _ => (length (entities g) <=? 1)%nat | _ => true end = true;
  ok_containers : each (scan_container k g (anchorKey es)) (containers g) (mkContainerScan 0 [] [] [] []) = Ok cs;
  ok_roots : match expectedRootSlot k with Some _ => (roots cs =? 1)%nat | None => (roots cs =? 0)%nat end = true;
  ok_placed : forallb (placed (anchorKey es) cs) (entities g) = true;
  ok_walk : exists w w' w'', each (fun w key => visit walk_levels (edges cs) w key 1) (rootChildren cs) (mkWalk [] []) = Ok w /\
    match anchorKey es with Some key => visit walk_levels (edges cs) w key 0 | None => Ok w end = Ok w' /\
    each (fun w (e : string * json) => visit walk_levels (edges cs) w e.1 1) (entities g) w' = Ok w'' }.

Lemma validateGraph_ok k b g : validateGraphForResource k b g = Ok tt <-> exists es cs, Validated k b g es cs.
Proof.
  unfold validateGraphForResource. split.
  - intros H. checked_in H. repeat match goal with u : unit |- _ => destruct u end. do 2 eexists. split; [done..|]. by do 3 eexists.
  - intros (es & cs & [Hm Hs He Hma Ha Hc Hr Hp (w & w' & w'' & Hw & Hw' & Hw'')]). rewrite Hm. cbn [bind]. rewrite Hs. cbn [bind demand].
    rewrite He. cbn [bind]. rewrite Hma. cbn [bind demand]. rewrite Ha. cbn [bind demand]. rewrite Hc. cbn [bind]. rewrite Hr. cbn [bind demand].
    rewrite Hp. cbn [bind demand]. rewrite Hw. cbn [bind]. rewrite Hw'. cbn [bind]. by rewrite Hw''.
Qed.

(** Dropping unknown properties keeps a graph valid. *)
Lemma validateGraph_known k b g : validateGraphForResource k b g = Ok tt -> validateGraphForResource k b (known_graph k g) = Ok tt.
Proof.
  rewrite !validateGraph_ok. intros (es & cs & [Hm Hs He Hma Ha Hc Hr Hp (w & w' & w'' & Hw & Hw' & Hw'')]). exists es, cs. split.
  - by apply metadata_dropped.
  - unfold known_graph. cbn [entities containers]. by rewrite length_map.
  - unfold known_graph. cbn [entities]. rewrite each_map. eapply each_imp; [|exact He]. intros s x t. apply scan_entity_known.
  - unfold known_graph. cbn [entities containers]. by rewrite length_map.
  - unfold known_graph. cbn [entities containers]. by rewrite length_map.
  - eapply each_imp; [|exact Hc]. intros s x t. by rewrite scan_container_known.
  - done.
  - unfold known_graph. cbn [entities]. rewrite forallb_forall in *. intros x (e & <- & Hin)%in_map_iff. rewrite placed_known. by apply Hp.
  - exists w, w', w''. split_and!; [done..|]. unfold known_graph. cbn [entities]. by rewrite each_map.
Qed.
