(* ===== verification/NavigationGraph.v ===== *)
(** The graph a client keeps of a navigation resource: a delta applied or a snapshot
    reconciled onto it (state/navigation/merge.ts of appwire-client/typescript), and the
    rows it is shown as (materializeNavigationResource of codec.ts).

    What is held is an object with an identity, so that what the sources keep for the sake
    of rendering is visible: an object is [===] another when their identities are equal.
    The caches of materialized rows, keyed by identity, change no value and are left out. *)

From S2P Require Import Prelude JsString Json JsMap NavigationKeys NavigationCodec.

Local Open Scope string_scope.
Local Open Scope Z_scope.

(** ** Objects *)

Record Held := mkHeld { ident : nat; it : json }.

Definition equalJSON (left right : json) : bool := sameJsonValue left right.

(** [cloneAndDeepFreezeJSON]: a new object of the same value. *)
Definition cloneAndDeepFreezeJSON (v : json) (next : nat) : Held * nat := (mkHeld next v, S next).

Record NavigationGraph := mkNavigationGraph { g_metadata : Held; g_entities : js_map Held; g_containers : js_map Held }.

Record NormalizedResource := mkResource { r_key : ResourceKey; r_graph : NavigationGraph; r_version : NavigationReadBase; r_presence : string }.

Definition contents (m : js_map Held) : js_map json := (fun e => (e.1, it e.2)) <$> m.

Definition plain (g : NavigationGraph) : Graph := mkGraph (it (g_metadata g)) (contents (g_entities g)) (contents (g_containers g)).

(** Held objects from fresh values. *)
Fixpoint hold (l : list json) (next : nat) : list Held * nat :=
  match l with [] => ([], next) | v :: l => let '(h, next) := cloneAndDeepFreezeJSON v next in let '(hs, next) := hold l next in (h :: hs, next) end.

Definition key_of (h : Held) : string := text_at (Some (it h)) "key".

Definition map_of (l : list Held) : js_map Held := foldl (fun m h => map_put (key_of h) h m) [] l.

Definition normalizedGraphFromSnapshot (s : NavigationSnapshot) (next : nat) : NavigationGraph * nat :=
  let '(m, next) := cloneAndDeepFreezeJSON (match snap_metadata s with JObj o => JObj o | _ => JObj [] end) next in
  let '(es, next) := hold (snap_entities s) next in
  let '(cs, next) := hold (snap_containers s) next in
  (mkNavigationGraph m (map_of es) (map_of cs), next).

Definition snapshotResource (k : ResourceKey) (b : NavigationReadBase) (s : NavigationSnapshot) (next : nat) : NormalizedResource * nat :=
  let '(g, next) := normalizedGraphFromSnapshot s next in (mkResource k g b "present", next).

(** ** Reconciling keyed maps *)

Section reconcile.
Context (equal : json -> json -> bool) (prepare : Held -> nat -> Held * nat).

(** [staged]: the copy of [previous] once one was needed. *)
Record Staging := mkStaging { staged : option (js_map Held); next_ident : nat }.

Definition current (previous : js_map Held) (s : Staging) : js_map Held := default previous (staged s).

Definition take_incoming (previous : js_map Held) (s : Staging) (incoming : Held) : Staging :=
  let key := key_of incoming in
  let '(chosen, next) :=
    match map_get key previous with
    | Some existing => if equal (it existing) (it incoming) then (existing, next_ident s) else prepare incoming (next_ident s)
    | None => prepare incoming (next_ident s)
    end in
  let same := match map_get key (current previous s) with Some held => (ident held =? ident chosen)%nat | None => false end in
  mkStaging (if same then staged s else Some (map_put key chosen (current previous s))) next.

Definition stage_delete (previous : js_map Held) (s : Staging) (key : string) : Staging :=
  mkStaging (Some (map_del key (current previous s))) (next_ident s).

Definition reconcileKeyedMap (previous : js_map Held) (incoming : list Held) (removed : list string) (complete : bool) (next : nat) : Staging :=
  let s := foldl (take_incoming previous) (mkStaging None next) incoming in
  if complete then
    foldl (fun s key => if str_in key (map key_of incoming) then s else stage_delete previous s key) s previous.*1
  else foldl (fun s key => if map_has key (current previous s) then stage_delete previous s key else s) s removed.
End reconcile.

(** [===] of two properties that are strings. *)
Definition same_text (a b : option json) : bool :=
  match a, b with Some (JStr s), Some (JStr t) => String.eqb s t | None, None => true | _, _ => false end.

Definition equal_at (key : string) (a b : json) : bool :=
  match at_key (Some a) key, at_key (Some b) key with Some x, Some y => equalJSON x y | None, None => true | _, _ => false end.

Definition sameEntity (existing incoming : json) : bool := same_text (at_key (Some existing) "kind") (at_key (Some incoming) "kind") && equal_at "value" existing incoming.

Definition sameContainer (existing incoming : json) : bool := equal_at "owner" existing incoming && equal_at "children" existing incoming.

Record GraphUpdate := mkUpdate {
  u_metadata : option Held; u_entities : list Held; u_removedEntityKeys : list string; u_containers : list Held; u_removedContainerKeys : list string;
  u_complete : bool; u_prepared : bool }.

Definition freeze (prepared : bool) (h : Held) (next : nat) : Held * nat := if prepared then (h, next) else cloneAndDeepFreezeJSON (it h) next.

Definition reconcile_metadata (previous : option NavigationGraph) (u : GraphUpdate) (next : nat) : Held * nat :=
  match previous with
  | Some p =>
      match u_metadata u with
      | None => (g_metadata p, next)
      | Some m => if equalJSON (it (g_metadata p)) (it m) then (g_metadata p, next) else freeze (u_prepared u) m next
      end
  | None => match u_metadata u with Some m => freeze (u_prepared u) m next | None => (mkHeld next (JObj []), S next) end
  end.

(** [None] in the second place: the previous graph itself. *)
Definition reconcileGraph (previous : option NavigationGraph) (u : GraphUpdate) (next : nat) : NavigationGraph * bool * nat :=
  let pe := match previous with Some p => g_entities p | None => [] end in
  let pc := match previous with Some p => g_containers p | None => [] end in
  let es := reconcileKeyedMap sameEntity (freeze (u_prepared u)) pe (u_entities u) (u_removedEntityKeys u) (u_complete u) next in
  let cs := reconcileKeyedMap sameContainer (freeze (u_prepared u)) pc (u_containers u) (u_removedContainerKeys u) (u_complete u) (next_ident es) in
  let '(m, next) := reconcile_metadata previous u (next_ident cs) in
  let same :=
    match previous, staged es, staged cs with
    | Some p, None, None => (ident m =? ident (g_metadata p))%nat
    | _, _, _ => false
    end in
  (mkNavigationGraph m (current pe es) (current pc cs), same, next).

Definition reconcileSnapshot (previous : option NormalizedResource) (incoming : NormalizedResource) (next : nat) : checked (NormalizedResource * nat) :=
  let '(g, _, next) := reconcileGraph (r_graph <$> previous)
    (mkUpdate (Some (g_metadata (r_graph incoming))) (g_entities (r_graph incoming)).*2 [] (g_containers (r_graph incoming)).*2 [] true true) next in
  let! _ := validateGraphForResource (r_key incoming) (r_version incoming) (plain g) in
  Ok (mkResource (r_key incoming) g (r_version incoming) (r_presence incoming), next).

(** The delta's records become objects when they are kept. *)
Definition applyDelta (previous : NormalizedResource) (delta : NavigationDelta) (b : NavigationReadBase) (next : nat) : checked (NormalizedResource * nat) :=
  let '(es, next) := hold (upsertedEntities delta) next in
  let '(cs, next) := hold (upsertedContainers delta) next in
  let '(m, next) := match delta_metadata delta with Some m => let '(h, next) := cloneAndDeepFreezeJSON m next in (Some h, next) | None => (None, next) end in
  let '(g, _, next) := reconcileGraph (Some (r_graph previous)) (mkUpdate m es (removedEntityKeys delta) cs (removedContainerKeys delta) false false) next in
  match validateGraphForResource (r_key previous) b (plain g) with
  | Ok _ => Ok (mkResource (r_key previous) g b (r_presence previous), next)
  | Throw _ => Throw BaseInvalid
  end.

(** ** Rows *)

Section rows.
Context (g : Graph).

(** [levels]: how deep rows nest; a valid graph's do not nest at all. *)
Fixpoint entityValue (levels : nat) (entityKey : string) : option json :=
  match levels with
  | O => None
  | S levels =>
      match map_get entityKey (entities g) with
      | None => None
      | Some e =>
          let own := match at_key (Some e) "value" with Some (JObj o) => o | _ => [] end in
          Some (JObj (match map_get (navigationOwnedContainerKey entityKey "children") (containers g) with
                      | Some c => obj_set "children" (JArr (omap (entityValue levels) (children_of c))) own
                      | None => own
                      end))
      end
  end.

Definition materializeContainer (levels : nat) (containerKey : string) : list json :=
  match map_get containerKey (containers g) with Some c => omap (entityValue levels) (children_of c) | None => [] end.

End rows.

(** A slot nests at most as deep as validation walks. *)
Definition row_levels : nat := MAX_NAVIGATION_DEPTH + 3.

Definition metadata_fields (g : Graph) : json_object := match metadata g with JObj o => o | _ => [] end.

(** The entity of a project resource's own project. *)
Definition project_entity (g : Graph) (p : string) : option string :=
  (fun e => text_at (Some e.2) "key") <$> find (fun e : string * json => is_text (at_key (Some e.2) "kind") "project" && isRecord (at_key (Some e.2) "value") &&
    is_text (at_key (at_key (Some e.2) "value") "key") p) (entities g).

Definition owned_rows (g : Graph) (entityKey : option string) (slot : string) : list json :=
  match entityKey with Some e => if str_truthy e then materializeContainer g row_levels (navigationOwnedContainerKey e slot) else [] | None => [] end.

Definition root_rows (g : Graph) (k : ResourceKey) (slot : string) : list json := materializeContainer g row_levels (navigationRootContainerKey k slot).

Definition tier_of (g : Graph) (e : option string) (slot : string) : json :=
  let remaining := match obj_get (slot ++ "_remaining") (metadata_fields g) with Some (JNum n) => if isSafeInteger n && (0 <=? n) then n else 0 | _ => 0 end in
  JObj [("sessions", JArr (owned_rows g e slot)); ("remaining", JNum remaining)].

(** A property set to [undefined] is absent. *)
Definition materializeNavigationResource (k : ResourceKey) (g : Graph) : json_object :=
  let m := metadata_fields g in
  match k with
  | Manifest => m
  | Section_ _ _ _ | PinSection _ _ _ | ProjectPage _ _ _ _ _ => obj_set "sessions" (JArr (root_rows g k "sessions")) m
  | PinCatalog _ _ => obj_set "pin_sections" (JArr (root_rows g k "pin_sections")) m
  | Catalog _ _ _ => obj_set "projects" (JArr (root_rows g k "projects")) m
  | Project p _ =>
      let e := project_entity g p in
      obj_set "archived" (tier_of g e "archived") (obj_set "recent" (tier_of g e "recent") (obj_set "current" (tier_of g e "current") (obj_set "key" (JStr p) m)))
  | Location _ => match head (root_rows g k "session") with Some s => obj_set "session" s m | None => filter (fun f => f.1 <> "session") m end
  end.

Definition materializeSnapshot (k : ResourceKey) (s : NavigationSnapshot) : json_object :=
  materializeNavigationResource k (plain (normalizedGraphFromSnapshot s 0).1).
