(* ===== verification/NavigationMerge.v ===== *)
(** What a client's graph holds after a delta or a snapshot was merged into it
    (NavigationGraph.v): every entry is the one its rule gives, and what did not change
    is still the object it was. *)

From S2P Require Import Prelude JsString Json JsMap NavigationKeys NavigationCodec NavigationFacts NavigationGraph.

Local Open Scope string_scope.

(** ** Keyed maps *)

(** The record of a list that has a key. *)
Definition with_key {A} (name : A -> string) (key : string) (l : list A) : option A := find (fun v => String.eqb (name v) key) l.

Lemma with_key_none {A} (name : A -> string) key l : key ∉ map name l -> with_key name key l = None.
Proof.
  unfold with_key. intros Hk.
  induction l as [|v l IH]; simpl in *; [done|]. rewrite elem_of_cons in Hk.
  destruct (String.eqb_spec (name v) key) as [<-|]; [naive_solver|apply IH; naive_solver].
Qed.

Section keyed.
Context (equal : json -> json -> bool) (prepare : Held -> nat -> Held * nat) (previous : js_map Held) (first : nat).

(** What [prepare] makes of an object, [first] being the least identity it may use. *)
Context (made : Held -> Held -> Prop).
Hypothesis prepare_made : forall h n, (first <= n)%nat -> made h (prepare h n).1 /\ (first <= (prepare h n).2)%nat.

Implicit Types (h e c : Held) (s : Staging) (key : string).

(** No object made is taken for one that was held. *)
Definition told_apart (l : list Held) : Prop :=
  forall h c e key, h ∈ l -> made h c -> map_get key previous = Some e -> ident e = ident c -> e = c.

(** The object kept for an incoming one. *)
Definition kept (before : option Held) h c : Prop :=
  match before with Some e => if equal (it e) (it h) then c = e else made h c | None => made h c end.

Lemma take_incoming_get s h :
  (first <= next_ident s)%nat -> told_apart [h] -> map_get (key_of h) (current previous s) = map_get (key_of h) previous ->
  let s' := take_incoming equal prepare previous s h in
  (exists c, map_get (key_of h) (current previous s') = Some c /\ kept (map_get (key_of h) previous) h c) /\
  (forall key, key <> key_of h -> map_get key (current previous s') = map_get key (current previous s)) /\ (first <= next_ident s')%nat.
Proof using prepare_made.
  intros Hn Hd Hcur. unfold take_incoming. destruct (prepare_made h _ Hn) as [Hm Hle].
  set (chosen := match map_get (key_of h) previous with Some e => if equal (it e) (it h) then (e, next_ident s) else prepare h (next_ident s) | None => prepare h (next_ident s) end).
  assert (kept (map_get (key_of h) previous) h chosen.1 /\ (first <= chosen.2)%nat) as [Hk Hle'].
  { subst chosen. unfold kept. destruct (map_get (key_of h) previous) as [e|]; [destruct (equal _ _)|]; auto. }
  assert (Hsame : forall e, map_get (key_of h) previous = Some e -> ident e = ident chosen.1 -> e = chosen.1).
  { subst chosen. intros e He. rewrite He. destruct (equal _ _); [done|]. intros Hi. eapply Hd; eauto. by left. }
  destruct chosen as [c next]. simpl in *. rewrite Hcur.
  destruct (map_get (key_of h) previous) as [e|] eqn:He; [destruct (Nat.eqb_spec (ident e) (ident c)) as [Hi|]|]; simpl.
  1: split_and!; [exists e; split; [exact Hcur|by rewrite <- (Hsame e eq_refl Hi) in Hk]|done|done].
  all: split_and!; [exists c; split; [apply map_get_put|done]|intros key Hne; by apply map_get_put_ne|done].
Qed.

Lemma take_incomings_get l s :
  (first <= next_ident s)%nat -> NoDup (map key_of l) -> told_apart l ->
  (forall key, key ∈ map key_of l -> map_get key (current previous s) = map_get key previous) ->
  let s' := foldl (take_incoming equal prepare previous) s l in
  (first <= next_ident s')%nat /\
  forall key, match with_key key_of key l with
              | Some h => exists c, map_get key (current previous s') = Some c /\ kept (map_get key previous) h c
              | None => map_get key (current previous s') = map_get key (current previous s)
              end.
Proof using prepare_made.
  revert s. induction l as [|h l IH]; intros s Hn Hnd Hd Hcur; simpl; [done|].
  simpl in Hnd. apply NoDup_cons in Hnd as [Hh Hnd].
  destruct (take_incoming_get s h) as ((c & Hc & Hk) & Hother & Hn').
  { done. } { intros h' ? ? ? ->%list_elem_of_singleton. apply Hd. by left. } { apply Hcur. by left. }
  destruct (IH (take_incoming equal prepare previous s h) Hn' Hnd) as [Hn'' Hl].
  { intros h' ? ? ? ?. apply Hd. by right. }
  { intros key Hkey. rewrite Hother; [apply Hcur; by right|]. intros ->. by apply Hh. }
  split; [done|]. intros key. specialize (Hl key). unfold with_key in *. simpl.
  destruct (String.eqb_spec (key_of h) key) as [<-|Hne].
  - assert (Hnone := with_key_none key_of (key_of h) l Hh). unfold with_key in Hnone. rewrite Hnone in Hl. exists c. by rewrite Hl.
  - destruct (find _ l); [done|]. rewrite Hl. by apply Hother.
Qed.

Lemma stage_delete_get s key key' :
  map_get key (current previous (stage_delete previous s key')) = if String.eqb key key' then None else map_get key (current previous s).
Proof.
  unfold stage_delete. simpl. destruct (String.eqb_spec key key') as [->|]; [apply map_get_del|by apply map_get_del_ne].
Qed.

Lemma removed_get l s key :
  let s' := foldl (fun s key => if map_has key (current previous s) then stage_delete previous s key else s) s l in
  next_ident s' = next_ident s /\ map_get key (current previous s') = if str_in key l then None else map_get key (current previous s).
Proof.
  revert s. induction l as [|key' l IH]; intros s; simpl; [done|].
  destruct (IH (if map_has key' (current previous s) then stage_delete previous s key' else s)) as [-> ->]. split; [by destruct (map_has _ _)|].
  destruct (String.eqb_spec key key') as [->|Hne]; simpl.
  - unfold map_has. destruct (map_get key' (current previous s)) eqn:Hg; [rewrite stage_delete_get, String.eqb_refl|rewrite Hg]; by destruct (str_in _ _).
  - destruct (str_in key l); [done|]. destruct (map_has _ _); [|done]. rewrite stage_delete_get. by destruct (String.eqb_spec key key').
Qed.

Lemma dropped_get (gone : string -> bool) l s key :
  let s' := foldl (fun s key => if gone key then s else stage_delete previous s key) s l in
  next_ident s' = next_ident s /\ map_get key (current previous s') = if str_in key l && negb (gone key) then None else map_get key (current previous s).
Proof.
  revert s. induction l as [|key' l IH]; intros s; simpl; [done|].
  destruct (IH (if gone key' then s else stage_delete previous s key')) as [-> ->]. split; [by destruct (gone key')|].
  destruct (String.eqb_spec key key') as [->|Hne]; simpl.
  - destruct (gone key') eqn:Hg; simpl; [by rewrite andb_false_r|]. rewrite andb_true_r, stage_delete_get, String.eqb_refl. by destruct (str_in _ _).
  - destruct (str_in key l && _); [done|]. destruct (gone key'); [done|]. rewrite stage_delete_get. by destruct (String.eqb_spec key key').
Qed.

Lemma kept_keys l : NoDup (map key_of l) -> told_apart l -> let s := foldl (take_incoming equal prepare previous) (mkStaging None first) l in
  (first <= next_ident s)%nat /\
  forall key, match with_key key_of key l with
              | Some h => exists c, map_get key (current previous s) = Some c /\ kept (map_get key previous) h c
              | None => map_get key (current previous s) = map_get key previous
              end.
Proof using prepare_made. intros Hnd Hd. by apply take_incomings_get. Qed.

(** A partial update: what is removed is gone, what came is kept, the rest is as it was. *)
Lemma reconcile_partial l removed : NoDup (map key_of l) -> told_apart l ->
  let s := reconcileKeyedMap equal prepare previous l removed false first in
  (first <= next_ident s)%nat /\
  forall key,
    if str_in key removed then map_get key (current previous s) = None
    else match with_key key_of key l with
         | Some h => exists c, map_get key (current previous s) = Some c /\ kept (map_get key previous) h c
         | None => map_get key (current previous s) = map_get key previous
         end.
Proof using prepare_made.
  intros Hnd Hd. destruct (kept_keys l Hnd Hd) as [Hn Hk]. unfold reconcileKeyedMap. simpl. split.
  - by destruct (removed_get removed (foldl (take_incoming equal prepare previous) (mkStaging None first) l) EmptyString) as [-> _].
  - intros key. destruct (removed_get removed (foldl (take_incoming equal prepare previous) (mkStaging None first) l) key) as [_ ->].
    specialize (Hk key). by destruct (str_in key removed).
Qed.

(** A complete update: exactly what came is kept. *)
Lemma reconcile_complete l removed : NoDup (map key_of l) -> told_apart l ->
  let s := reconcileKeyedMap equal prepare previous l removed true first in
  (first <= next_ident s)%nat /\
  forall key,
    match with_key key_of key l with
    | Some h => exists c, map_get key (current previous s) = Some c /\ kept (map_get key previous) h c
    | None => map_get key (current previous s) = None
    end.
Proof using prepare_made.
  intros Hnd Hd. destruct (kept_keys l Hnd Hd) as [Hn Hk]. unfold reconcileKeyedMap. simpl.
  set (s := foldl (take_incoming equal prepare previous) _ l) in *.
  assert (Hs := dropped_get (fun key => str_in key (map key_of l)) previous.*1 s). split; [by destruct (Hs EmptyString) as [-> _]|].
  intros key. specialize (Hk key). destruct (Hs key) as [_ ->]. destruct (with_key key_of key l) as [h|] eqn:Hw.
  - assert (str_in key (map key_of l) = true) as ->; [|by rewrite andb_false_r]. apply str_in_spec.
    destruct (decide (key ∈ map key_of l)) as [|Hne]; [done|]. by rewrite with_key_none in Hw.
  - rewrite Hk. destruct (map_get key previous) as [e|] eqn:He; [|by destruct (_ && _)].
    assert (str_in key previous.*1 = true) as ->.
    { apply str_in_spec, list_elem_of_fmap. exists (key, e). split; [done|]. by apply elem_of_map_get. }
    assert (str_in key (map key_of l) = false) as ->; [|done]. apply str_in_false. intros Hin.
    apply list_elem_of_fmap in Hin as (h & -> & Hin). unfold with_key in Hw. eapply find_none in Hw; [|by apply list_elem_of_In]. by rewrite String.eqb_refl in Hw.
Qed.
End keyed.

(** ** Objects made *)

Lemma hold_spec l next : let '(hs, next') := hold l next in map it hs = l /\ (next <= next')%nat.
Proof.
  revert next. induction l as [|v l IH]; intros next; simpl; [done|]. specialize (IH (S next)).
  destruct (hold l (S next)) as [hs next']. destruct IH as [<- ?]. split; [done|lia].
Qed.

(** The map of a list's distinct records. *)
Lemma map_of_get l key m : NoDup (map key_of l) -> map_get key (foldl (fun m h => map_put (key_of h) h m) m l) = match with_key key_of key l with Some h => Some h | None => map_get key m end.
Proof.
  revert m. induction l as [|h l IH]; intros m; simpl; [done|]. intros [Hh Hnd]%NoDup_cons. rewrite IH by done. unfold with_key in *. simpl.
  destruct (String.eqb_spec (key_of h) key) as [<-|Hne].
  - assert (Hnone := with_key_none key_of (key_of h) l Hh). unfold with_key in Hnone. by rewrite Hnone, map_get_put.
  - destruct (find _ l); [done|]. by rewrite map_get_put_ne.
Qed.

Lemma with_key_held key hs : with_key record_key key (map it hs) = it <$> with_key key_of key hs.
Proof. unfold with_key. induction hs as [|h hs IH]; simpl; [done|]. change (record_key (it h)) with (key_of h). by destruct (String.eqb _ _). Qed.

Lemma keys_of_held hs : map key_of hs = keys_of (map it hs).
Proof. unfold keys_of. by rewrite map_map. Qed.

(** ** A graph's objects *)

(** Every object of a map was made before [next]. *)
Definition held_before (next : nat) (m : js_map Held) : Prop := map_wf m /\ forall key e, map_get key m = Some e -> (ident e < next)%nat.

Definition graph_before (next : nat) (g : NavigationGraph) : Prop :=
  (ident (g_metadata g) < next)%nat /\ held_before next (g_entities g) /\ held_before next (g_containers g).

Lemma held_before_le n n' m : (n <= n')%nat -> held_before n m -> held_before n' m.
Proof. intros Hn [Hw Hb]. split; [done|]. intros key e He. specialize (Hb _ _ He). lia. Qed.

Lemma held_put n m key e : held_before n m -> (ident e < n)%nat -> held_before n (map_put key e m).
Proof.
  intros [Hw Hb] He. split; [by apply map_put_wf|]. intros key' e'. destruct (decide (key' = key)) as [->|Hne].
  - rewrite map_get_put. by intros [= <-].
  - rewrite map_get_put_ne by done. apply Hb.
Qed.

Lemma held_del n m key : held_before n m -> held_before n (map_del key m).
Proof.
  intros [Hw Hb]. split; [by apply map_del_wf|]. intros key' e'. destruct (decide (key' = key)) as [->|Hne].
  - by rewrite map_get_del.
  - rewrite map_get_del_ne by done. apply Hb.
Qed.

Lemma foldl_invariant {A S} (P : S -> Prop) (f : S -> A -> S) l s : (forall s x, x ∈ l -> P s -> P (f s x)) -> P s -> P (foldl f s l).
Proof.
  revert s. induction l as [|x l IH]; intros s Hf Hs; simpl; [done|]. apply IH; [|apply Hf; [by left|done]].
  intros s' y Hy. apply Hf. by right.
Qed.

Lemma reconcile_held equal prepare previous l removed complete next :
  (forall h n, h ∈ l -> (n <= (prepare h n).2 /\ (next <= n -> ident (prepare h n).1 < (prepare h n).2))%nat) -> held_before next previous ->
  let s := reconcileKeyedMap equal prepare previous l removed complete next in (next <= next_ident s)%nat /\ held_before (next_ident s) (current previous s).
Proof.
  intros Hp Hb. set (P := fun s => (next <= next_ident s)%nat /\ held_before (next_ident s) (current previous s)).
  assert (P (foldl (take_incoming equal prepare previous) (mkStaging None next) l)) as Hs.
  { apply foldl_invariant; [|by split]. intros s h Hh [Hn Hs]. destruct (Hp h (next_ident s) Hh) as [Hle Hlt]. specialize (Hlt Hn).
    unfold take_incoming, P.
    set (chosen := match map_get (key_of h) previous with Some e => if equal (it e) (it h) then (e, next_ident s) else prepare h (next_ident s) | None => prepare h (next_ident s) end).
    assert ((next_ident s <= chosen.2)%nat /\ (ident chosen.1 < chosen.2)%nat) as [Hle' Hlt'].
    { subst chosen. destruct Hb as [_ Hb]. destruct (map_get (key_of h) previous) as [e|] eqn:He; [destruct (equal _ _)|]; simpl; [|lia..].
      specialize (Hb _ _ He). lia. }
    destruct chosen as [c n]. simpl in *. destruct (match map_get (key_of h) (current previous s) with Some held => (ident held =? ident c)%nat | None => false end); simpl.
    all: split; [lia|]. 2: apply held_put; [|done]. all: exact (held_before_le _ _ _ Hle' Hs). }
  unfold reconcileKeyedMap. destruct complete; apply (foldl_invariant P); try done; intros s key _ [Hn Hs'].
  - destruct (str_in _ _); [done|]. split; [done|]. by apply held_del.
  - destruct (map_has _ _); [|done]. split; [done|]. by apply held_del.
Qed.

Lemma freeze_made p h n : it (freeze p h n).1 = it h /\ (n <= (freeze p h n).2)%nat.
Proof. destruct p; simpl; split; (done || lia). Qed.

(** ** Deltas *)

(** What a partial update leaves of an entry: [before] and [after] it. *)
Definition patched (equal : json -> json -> bool) (next : nat) (upserted : list json) (removed : list string) (key : string) (before after : option Held) : Prop :=
  if str_in key removed then after = None
  else match with_key record_key key upserted with
       | None => after = before
       | Some v => exists c, after = Some c /\ kept equal (fun h c => it c = it h /\ (next <= ident c)%nat) before (mkHeld 0 v) c
       end.

Definition patched_metadata (next : nat) (supplied : option json) (before after : Held) : Prop :=
  match supplied with
  | None => after = before
  | Some v => if equalJSON (it before) v then after = before else it after = v /\ (next <= ident after)%nat
  end.

(** The graph a delta makes of another. *)
Record patched_graph (next : nat) (d : NavigationDelta) (g g' : NavigationGraph) : Prop := mkPatched {
  patched_entities : forall key, patched sameEntity next (upsertedEntities d) (removedEntityKeys d) key (map_get key (g_entities g)) (map_get key (g_entities g'));
  patched_containers : forall key, patched sameContainer next (upsertedContainers d) (removedContainerKeys d) key (map_get key (g_containers g)) (map_get key (g_containers g'));
  patched_to : patched_metadata next (delta_metadata d) (g_metadata g) (g_metadata g') }.

Lemma kept_le equal n n' before h h' c : (n <= n')%nat -> it h = it h' ->
  kept equal (fun h c => it c = it h /\ (n' <= ident c)%nat) before h c -> kept equal (fun h c => it c = it h /\ (n <= ident c)%nat) before h' c.
Proof. intros Hn Hh. unfold kept. rewrite Hh. destruct before as [e|]; [destruct (equal _ _); [done|]|]; intros [Hc ?]; (split; [done|lia]). Qed.

Lemma reconcile_patched equal previous l hs removed first next : held_before next previous -> (first <= next)%nat -> map it hs = l -> NoDup (keys_of l) ->
  let s := reconcileKeyedMap equal (freeze false) previous hs removed false next in
  (next <= next_ident s)%nat /\ held_before (next_ident s) (current previous s) /\
  forall key, patched equal first l removed key (map_get key previous) (map_get key (current previous s)).
Proof.
  intros Hb Hf <- Hnd. assert (Hmade : forall h n, (next <= n)%nat -> (it (freeze false h n).1 = it h /\ (next <= ident (freeze false h n).1)%nat) /\ (next <= (freeze false h n).2)%nat).
  { intros h n Hn. simpl. split; [done|lia]. }
  destruct (reconcile_partial equal (freeze false) previous next (fun h c => it c = it h /\ (next <= ident c)%nat) Hmade hs removed) as [Hn Hk].
  { by rewrite keys_of_held. } { intros h c e key _ [_ Hc] He Hi. destruct Hb as [_ Hb]. specialize (Hb _ _ He). lia. }
  split_and!; [done| |].
  - apply (reconcile_held equal (freeze false)); [|done]. intros h n _. simpl. lia.
  - intros key. specialize (Hk key). unfold patched. rewrite with_key_held. destruct (str_in key removed); [done|].
    destruct (with_key key_of key hs) as [h|]; simpl; [|done]. destruct Hk as (c & Hc & Hk). exists c. split; [done|]. by eapply kept_le.
Qed.

Lemma reconcile_metadata_made previous supplied u first next : (ident (g_metadata previous) < next)%nat -> (first <= next)%nat -> it <$> u_metadata u = supplied -> u_prepared u = false ->
  let '(m, n) := reconcile_metadata (Some previous) u next in (next <= n)%nat /\ (ident m < n)%nat /\ patched_metadata first supplied (g_metadata previous) m.
Proof.
  intros Hm Hf <- Hu. unfold reconcile_metadata, patched_metadata. rewrite Hu. destruct (u_metadata u) as [m|]; simpl; [|by repeat split].
  destruct (equalJSON _ _); simpl; repeat split; lia.
Qed.

Lemma reconcileGraph_parts previous u next m n :
  let pe := match previous with Some p => g_entities p | None => [] end in
  let pc := match previous with Some p => g_containers p | None => [] end in
  let es := reconcileKeyedMap sameEntity (freeze (u_prepared u)) pe (u_entities u) (u_removedEntityKeys u) (u_complete u) next in
  let cs := reconcileKeyedMap sameContainer (freeze (u_prepared u)) pc (u_containers u) (u_removedContainerKeys u) (u_complete u) (next_ident es) in
  reconcile_metadata previous u (next_ident cs) = (m, n) -> exists same, reconcileGraph previous u next = (mkNavigationGraph m (current pe es) (current pc cs), same, n).
Proof. intros pe pc es cs Hm. unfold reconcileGraph. fold pe pc es cs. rewrite Hm. by eexists. Qed.

Lemma reconcileGraph_patched g d u next first :
  graph_before first g -> (first <= next)%nat -> NoDup (keys_of (upsertedEntities d)) -> NoDup (keys_of (upsertedContainers d)) ->
  map it (u_entities u) = upsertedEntities d -> map it (u_containers u) = upsertedContainers d -> it <$> u_metadata u = delta_metadata d ->
  u_removedEntityKeys u = removedEntityKeys d -> u_removedContainerKeys u = removedContainerKeys d -> u_prepared u = false -> u_complete u = false ->
  exists g' same next', reconcileGraph (Some g) u next = (g', same, next') /\ (next <= next')%nat /\ graph_before next' g' /\ patched_graph first d g g'.
Proof.
  intros (Hgm & Hge & Hgc) Hf Hne Hnc Hes Hcs Hm Hre Hrc Hp Hc.
  destruct (reconcile_metadata (Some g) u (next_ident (reconcileKeyedMap sameContainer (freeze (u_prepared u)) (g_containers g) (u_containers u) (u_removedContainerKeys u) (u_complete u)
    (next_ident (reconcileKeyedMap sameEntity (freeze (u_prepared u)) (g_entities g) (u_entities u) (u_removedEntityKeys u) (u_complete u) next))))) as [m n] eqn:Hmn.
  destruct (reconcileGraph_parts (Some g) u next m n Hmn) as [same Hsame]. exists (mkNavigationGraph m
    (current (g_entities g) (reconcileKeyedMap sameEntity (freeze (u_prepared u)) (g_entities g) (u_entities u) (u_removedEntityKeys u) (u_complete u) next))
    (current (g_containers g) (reconcileKeyedMap sameContainer (freeze (u_prepared u)) (g_containers g) (u_containers u) (u_removedContainerKeys u) (u_complete u)
      (next_ident (reconcileKeyedMap sameEntity (freeze (u_prepared u)) (g_entities g) (u_entities u) (u_removedEntityKeys u) (u_complete u) next))))), same, n.
  split; [exact Hsame|]. clear Hsame same. rewrite Hp, Hc, Hre, Hrc in *.
  destruct (reconcile_patched sameEntity (g_entities g) (upsertedEntities d) (u_entities u) (removedEntityKeys d) first next) as (Hn1 & Hbe & Hpe); [by apply (held_before_le first)|done..|].
  set (se := reconcileKeyedMap sameEntity _ _ _ _ _ next) in *.
  destruct (reconcile_patched sameContainer (g_containers g) (upsertedContainers d) (u_containers u) (removedContainerKeys d) first (next_ident se)) as (Hn2 & Hbc & Hpc);
    [by apply (held_before_le first); [lia|]|lia|done..|].
  set (sc := reconcileKeyedMap sameContainer _ _ _ _ _ (next_ident se)) in *.
  pose proof (reconcile_metadata_made g (delta_metadata d) u first (next_ident sc)) as Hmeta. rewrite Hmn in Hmeta. destruct Hmeta as (Hn3 & Him & Hpm); [lia|lia|done|done|].
  split_and!; [lia| |by split].
  split_and!; [done|by apply (held_before_le (next_ident se)); [lia|]|by apply (held_before_le (next_ident sc)); [lia|]].
Qed.

(** The graph an applied delta was validated on. *)
Lemma applyDelta_graph previous d b next : graph_before next (r_graph previous) -> NoDup (keys_of (upsertedEntities d)) -> NoDup (keys_of (upsertedContainers d)) ->
  exists g next', (next <= next')%nat /\ graph_before next' g /\ patched_graph next d (r_graph previous) g /\
    applyDelta previous d b next =
      match validateGraphForResource (r_key previous) b (plain g) with
      | Ok _ => Ok (mkResource (r_key previous) g b (r_presence previous), next')
      | Throw _ => Throw BaseInvalid
      end.
Proof.
  intros Hg Hne Hnc. unfold applyDelta.
  pose proof (hold_spec (upsertedEntities d) next) as Hes. destruct (hold _ next) as [es n1]. destruct Hes as [Hes Hn1].
  pose proof (hold_spec (upsertedContainers d) n1) as Hcs. destruct (hold _ n1) as [cs n2]. destruct Hcs as [Hcs Hn2].
  set (mn := match delta_metadata d with Some m => let '(h, next) := cloneAndDeepFreezeJSON m n2 in (Some h, next) | None => (None, n2) end).
  assert (it <$> mn.1 = delta_metadata d /\ (n2 <= mn.2)%nat) as [Hm Hn3]. { subst mn. destruct (delta_metadata d); simpl; split; (done || lia). }
  destruct mn as [m n3]. cbn [fst snd] in Hm, Hn3.
  destruct (reconcileGraph_patched (r_graph previous) d (mkUpdate m es (removedEntityKeys d) cs (removedContainerKeys d) false false) n3 next)
    as (g & same & next' & -> & Hn & Hb & Hp); try done; [lia|]. exists g, next'. split_and!; (done || lia).
Qed.

(** ** Snapshots *)

(** The object kept of an incoming one. *)
Definition adopted (equal : json -> json -> bool) (before incoming : option Held) : option Held :=
  match before, incoming with Some e, Some h => if equal (it e) (it h) then Some e else Some h | _, _ => incoming end.

(** Two graphs share an object or none of its identity. *)
Definition share (m m' : js_map Held) : Prop := forall key key' e h, map_get key m = Some e -> map_get key' m' = Some h -> ident e = ident h -> e = h.

(** Every object of a map is under its own key. *)
Definition filed (m : js_map Held) : Prop := map_wf m /\ forall key e, (key, e) ∈ m -> key_of e = key.

Lemma filed_keys m : filed m -> map key_of m.*2 = m.*1.
Proof.
  intros [_ Hk]. induction m as [|[key e] m IH]; simpl; [done|]. rewrite (Hk key e) by left. f_equal. apply IH. intros. apply Hk. by right.
Qed.

Lemma filed_with_key m key : filed m -> with_key key_of key m.*2 = map_get key m.
Proof.
  intros [_ Hk]. unfold with_key. induction m as [|[key' e] m IH]; simpl; [done|]. rewrite (Hk key' e) by left.
  rewrite (String.eqb_sym key' key). destruct (String.eqb key key'); [done|]. apply IH. intros. apply Hk. by right.
Qed.

Lemma reconcile_adopted equal previous incoming next : filed incoming -> share previous incoming -> forall key,
  map_get key (current previous (reconcileKeyedMap equal (freeze true) previous incoming.*2 [] true next)) = adopted equal (map_get key previous) (map_get key incoming).
Proof.
  intros Hf Hs key. assert (Hmade : forall h n, (next <= n)%nat -> (freeze true h n).1 = h /\ (next <= (freeze true h n).2)%nat) by (intros; simpl; split; (done || lia)).
  destruct (reconcile_complete equal (freeze true) previous next (fun h c => c = h) Hmade incoming.*2 []) as [_ Hk].
  { rewrite filed_keys by done. apply Hf. }
  { intros h c e key' Hh -> He Hi. apply list_elem_of_fmap in Hh as ([key'' h'] & -> & Hh). eapply Hs; [done| |done]. apply map_get_elem_of; [apply Hf|done]. }
  specialize (Hk key). rewrite filed_with_key in Hk by done. destruct (map_get key incoming) as [h|].
  - destruct Hk as (c & -> & Hk). unfold kept, adopted in *. destruct (map_get key previous) as [e|]; [destruct (equal _ _)|]; by subst.
  - rewrite Hk. by destruct (map_get key previous).
Qed.

Lemma reconcile_adopted_held equal previous incoming next : held_before next previous -> held_before next incoming ->
  let s := reconcileKeyedMap equal (freeze true) previous incoming.*2 [] true next in (next <= next_ident s)%nat /\ held_before (next_ident s) (current previous s).
Proof.
  intros Hp [Hw Hi]. apply reconcile_held; [|done]. intros h n ([key h'] & -> & Hin)%list_elem_of_fmap. simpl. split; [done|]. intros Hn.
  specialize (Hi key h' (map_get_elem_of _ _ _ Hw Hin)). lia.
Qed.

(** *** The graph of a snapshot *)

Lemma hold_between l next : let '(hs, next') := hold l next in Forall (fun h => (next <= ident h < next')%nat) hs.
Proof.
  revert next. induction l as [|v l IH]; intros next; simpl; [done|]. specialize (IH (S next)). pose proof (hold_spec l (S next)) as Hh.
  destruct (hold l (S next)) as [hs next']. destruct Hh as [_ Hn]. constructor; [simpl; lia|]. eapply Forall_impl; [exact IH|]. simpl. lia.
Qed.

(** Objects under their own keys, made between two points. *)
Definition made_between (n n' : nat) (m : js_map Held) : Prop := filed m /\ forall key e, (key, e) ∈ m -> (n <= ident e < n')%nat.

Lemma put_between n n' m h : made_between n n' m -> (n <= ident h < n')%nat -> made_between n n' (map_put (key_of h) h m).
Proof.
  intros [[Hw Hk] Hm] Hh. assert (Hput : forall key e, (key, e) ∈ map_put (key_of h) h m -> key = key_of h /\ e = h \/ (key, e) ∈ m).
  { intros key e He. assert (map_wf (map_put (key_of h) h m)) as Hw' by by apply map_put_wf. apply map_get_elem_of in He; [|done].
    destruct (decide (key = key_of h)) as [->|Hne]; [rewrite map_get_put in He; injection He as <-; by left|].
    rewrite map_get_put_ne in He by done. right. by apply elem_of_map_get. }
  split; [split; [by apply map_put_wf|]|]; intros key e [[-> ->]|He]%Hput; [done|by apply Hk|done|by eapply Hm].
Qed.

Lemma map_of_between n n' hs : Forall (fun h => (n <= ident h < n')%nat) hs -> made_between n n' (map_of hs).
Proof.
  unfold map_of. intros Hs. apply (foldl_invariant (made_between n n')).
  - intros m h Hh Hm. apply put_between; [done|]. rewrite Forall_forall in Hs. by apply Hs.
  - split; [split; [constructor|]|]; by intros ? ? ?%elem_of_nil.
Qed.

Lemma between_before n n' n'' m : made_between n n' m -> (n' <= n'')%nat -> held_before n'' m.
Proof. intros [[Hw _] Hm] Hn. split; [done|]. intros key e He%elem_of_map_get%Hm. lia. Qed.

Lemma snapshot_between s next : let '(g, next') := normalizedGraphFromSnapshot s next in
  (next <= ident (g_metadata g))%nat /\ graph_before next' g /\ made_between next next' (g_entities g) /\ made_between next next' (g_containers g).
Proof.
  unfold normalizedGraphFromSnapshot. cbn [cloneAndDeepFreezeJSON].
  pose proof (hold_between (snap_entities s) (S next)) as He. pose proof (hold_spec (snap_entities s) (S next)) as Hne. destruct (hold (snap_entities s) (S next)) as [es n1].
  pose proof (hold_between (snap_containers s) n1) as Hc. pose proof (hold_spec (snap_containers s) n1) as Hnc. destruct (hold (snap_containers s) n1) as [cs n2].
  destruct Hne as [_ Hne], Hnc as [_ Hnc]. cbn [g_metadata g_entities g_containers ident].
  assert (made_between next n2 (map_of es)) as Hme. { apply map_of_between. eapply Forall_impl; [exact He|]. simpl. lia. }
  assert (made_between next n2 (map_of cs)) as Hmc. { apply map_of_between. eapply Forall_impl; [exact Hc|]. simpl. lia. }
  split_and!; [done| |done|done]. split_and!; [simpl; lia|by eapply between_before|by eapply between_before].
Qed.

Lemma between_share n n' m m' : held_before n m -> made_between n n' m' -> share m m'.
Proof. intros [_ Hm] [_ Hm'] key key' e h He%Hm Hh%elem_of_map_get%Hm' Hi. lia. Qed.
