(* ===== verification/NavigationRows.v ===== *)
(** What the containers of a valid graph are (validateGraphForResource of
    NavigationCodec.v): every entity but a project's anchor has its one place. *)

From S2P Require Import Prelude JsString Json JsMap NavigationKeys NavigationCodec NavigationFacts NavigationTyping.

Local Open Scope string_scope.

(** ** Names *)

Lemma prefix_drop p s : String.prefix p s = true -> s = p ++ drop_chars (String.length p) s.
Proof.
  revert s. induction p as [|c p IH]; intros s; [by rewrite app_empty|]. destruct s as [|d s]; [done|]. simpl.
  destruct (ascii_dec c d) as [->|]; [|done]. intros H. rewrite app_cons. by rewrite <- IH.
Qed.

Lemma hex_free s : all_of is_hex s = true -> free "/" s = true.
Proof.
  induction s as [|c s IH]; [done|]. simpl. intros [Hc Hs]%andb_prop. rewrite IH by done. rewrite andb_true_r. by destruct (Ascii.eqb_spec c "/") as [->|].
Qed.

Lemma entity_key_form k s : entity_key_valid k s = true -> exists h, s = navigationViewScope k ++ "/entity/" ++ h /\ free "/" h = true.
Proof.
  unfold entity_key_valid. cbv zeta. intros [Hp Hd]%andb_prop. apply prefix_drop in Hp. unfold is_digest in Hd. apply andb_prop in Hd as [_ Hd%hex_free].
  eexists; split; [|exact Hd]. by rewrite string_app_assoc in Hp.
Qed.

Lemma app_inj a x y : a ++ x = a ++ y -> x = y.
Proof. induction a as [|c a IH]; [done|]. rewrite !app_cons. intros [= H]. auto. Qed.

Lemma owned_key_inj k e e' s s' : entity_key_valid k e = true -> entity_key_valid k e' = true ->
  navigationOwnedContainerKey e s = navigationOwnedContainerKey e' s' -> e = e' /\ s = s'.
Proof.
  intros (h & -> & Hh)%entity_key_form (h' & -> & Hh')%entity_key_form. unfold navigationOwnedContainerKey. rewrite !string_app_assoc. intros H%app_inj%app_inj.
  apply split_at in H as [-> ->]; done.
Qed.

Lemma owned_not_root k e s s' : entity_key_valid k e = true -> navigationOwnedContainerKey e s <> navigationRootContainerKey k s'.
Proof.
  intros (h & -> & _)%entity_key_form. unfold navigationOwnedContainerKey, navigationRootContainerKey. rewrite !string_app_assoc. intros H%app_inj. by inversion H.
Qed.

Lemma scope_starts k : exists x, navigationViewScope k = String "n" x.
Proof. unfold navigationViewScope. cbv zeta. destruct (str_truthy (sc_catalog (scope_parts k))); by eexists. Qed.

(** ** Entities *)

Lemma each_prefix {A S} (I : list A -> S -> Prop) (f : S -> A -> checked S) l s t :
  I [] s -> (forall pre x s s', I pre s -> f s x = Ok s' -> I (pre ++ [x])%list s') -> each f l s = Ok t -> I l t.
Proof.
  intros Hi Hf. enough (forall pre s, I pre s -> each f l s = Ok t -> I (pre ++ l)%list t) as H by (intros; by apply (H [] s)). clear Hi s.
  induction l as [|x l IH]; intros pre s Hp; [intros [= <-]; by rewrite app_nil_r|]. rewrite each_cons. intros (u & Hu & Hl).
  specialize (IH (pre ++ [x])%list u). rewrite <- app_assoc in IH. by apply IH; [eapply Hf|].
Qed.

(** An entity of a valid graph is under its own key, and its key is one of the resource's. *)
Lemma valid_entity k b g es cs key e : Validated k b g es cs -> (key, e) ∈ entities g ->
  text_at (Some e) "key" = key /\ entity_key_valid k key = true /\ entity e k = true /\ exists r, validateEntity e k = Ok r.
Proof.
  intros [_ _ He _ _ _ _ _ _] Hin. destruct (each_in _ _ _ _ _ He Hin) as (s & t & Hs). unfold scan_entity in Hs. checked_in Hs.
  apply str_eqb_text in Hok. unfold text_at. rewrite Hok. pose proof Hok0 as Hr. unfold validateEntity in Hok0. destruct (entity e k) eqn:Hek; [|done].
  split_and!; [done| |done|by eexists]. unfold entity in Hek. cbv zeta in Hek. rewrite Hok in Hek. checks_in Hek. done.
Qed.

(** ** Containers *)

Definition owner_entity (c : json) : string := text_at (at_key (Some c) "owner") "entityKey".
Definition owner_slot (c : json) : string := text_at (at_key (Some c) "owner") "slot".

(** Where a container is, and what it may hold. *)
Definition container_placed (k : ResourceKey) (g : Graph) (anchor : option string) (key : string) (c : json) : Prop :=
  if is_root c then exists slot, expectedRootSlot k = Some slot /\ key = navigationRootContainerKey k slot
  else exists e, map_get (owner_entity c) (entities g) = Some e /\ key = navigationOwnedContainerKey (owner_entity c) (owner_slot c) /\
    if is_session e then owner_slot c = "children" /\ children_of c = []
    else (exists p q, k = Project p q) /\ anchor = Some (text_at (Some e) "key") /\ owner_slot c ∈ tiers.

Lemma scan_children_ok g ck l ps ps' : each (scan_child g ck) l ps = Ok ps' ->
  NoDup l /\ (forall child, child ∈ l -> map_get child ps = None /\ map_has child (entities g) = true) /\
  forall child c, map_get child ps' = Some c <-> map_get child ps = Some c \/ (c = ck /\ child ∈ l).
Proof.
  revert ps. induction l as [|x l IH]; intros ps.
  - intros [= ->]. split_and!; [constructor|by intros ? ?%elem_of_nil|]. intros child c. rewrite elem_of_nil. naive_solver.
  - rewrite each_cons. intros (u & Hu & (Hnd & Hl & Hg)%IH). unfold scan_child in Hu. checked_in Hu. injection Hu as <-.
    apply andb_prop in Hok as [Hx Hn]. apply negb_true_iff in Hn. assert (map_get x ps = None) as Hpx. { unfold map_has in Hn. by destruct (map_get x ps). }
    assert (x ∉ l) as Hxl. { intros Hin. destruct (Hl x Hin) as [Hne _]. by rewrite map_get_put in Hne. }
    split_and!; [by constructor| |].
    + intros child [->|Hin]%elem_of_cons; [done|]. destruct (Hl child Hin) as [Hne Hh]. split; [|done]. rewrite map_get_put_ne in Hne; [done|]. by intros ->.
    + intros child c. rewrite Hg, elem_of_cons. destruct (decide (child = x)) as [->|Hne].
      * rewrite map_get_put, Hpx. naive_solver.
      * rewrite map_get_put_ne by done. naive_solver.
Qed.

(** What the loop over containers knows of the ones it has been through. *)
Record Scanned (k : ResourceKey) (g : Graph) (anchor : option string) (pre : list (string * json)) (s : ContainerScan) : Prop := mkScanned {
  sc_parents : forall child ck, map_get child (parents s) = Some ck <-> exists c, (ck, c) ∈ pre /\ child ∈ children_of c;
  sc_children : forall ck c, (ck, c) ∈ pre -> NoDup (children_of c) /\ forall child, child ∈ children_of c -> map_has child (entities g) = true;
  sc_placed : forall ck c, (ck, c) ∈ pre -> container_placed k g anchor ck c;
  sc_roots : (roots s = 0)%nat -> forall ck c, (ck, c) ∈ pre -> is_root c = false;
  sc_root : (roots s <> 0)%nat -> exists ck c, (ck, c) ∈ pre /\ is_root c = true;
  sc_slots : forall e slot, slot ∈ default [] (map_get e (slots s)) <-> exists ck c, (ck, c) ∈ pre /\ is_root c = false /\ owner_entity c = e /\ owner_slot c = slot }.

Lemma elem_of_set_add x s l : x ∈ set_add s l <-> x = s \/ x ∈ l.
Proof.
  unfold set_add. destruct (str_in s l) eqn:Hs; [apply str_in_spec in Hs|]; rewrite ?elem_of_app, ?list_elem_of_singleton; naive_solver.
Qed.

Lemma scan_root_ok k c s t : scan_root k c s = Ok t -> (exists slot, expectedRootSlot k = Some slot /\ text_at (Some c) "key" = navigationRootContainerKey k slot) /\
  roots t = S (roots s) /\ parents t = parents s /\ slots t = slots s.
Proof.
  unfold scan_root. intros H. checked_in H. injection H as <-. simpl. split; [|done]. destruct (expectedRootSlot k) as [slot|]; [|done].
  apply andb_prop in Hok as [_ Hk%String.eqb_eq]. by exists slot.
Qed.

Lemma scan_owned_ok k g anchor c s t : scan_owned k g anchor c s = Ok t ->
  exists e, map_get (owner_entity c) (entities g) = Some e /\ text_at (Some c) "key" = navigationOwnedContainerKey (owner_entity c) (owner_slot c) /\
    (if is_session e then owner_slot c = "children" /\ children_of c = []
     else (exists p q, k = Project p q) /\ anchor = Some (text_at (Some e) "key") /\ owner_slot c ∈ tiers) /\
    roots t = roots s /\ parents t = parents s /\
    slots t = map_put (text_at (Some e) "key") (set_add (owner_slot c) (default [] (map_get (text_at (Some e) "key") (slots s)))) (slots s).
Proof.
  unfold scan_owned. fold (owner_entity c) (owner_slot c). intros H. checked_in H. destruct (map_get (owner_entity c) (entities g)) as [e|]; [|done].
  checked_in H. injection H as <-. exists e. split_and!; try done; [by apply String.eqb_eq|].
  destruct (is_session e).
  - split; [by apply String.eqb_eq|]. simpl in Hok2. apply negb_true_iff, negb_false_iff in Hok2. apply Nat.eqb_eq in Hok2. by destruct (children_of c).
  - apply andb_prop in Hok1 as [[Hp Ha%bool_decide_eq_true]%andb_prop Ht%str_in_spec]. split_and!; [|done|done]. destruct k; try done. by do 2 eexists.
Qed.

Lemma scan_container_ok k g anchor s ck c t : scan_container k g anchor s (ck, c) = Ok t ->
  (forall key e, map_get key (entities g) = Some e -> text_at (Some e) "key" = key) ->
  container_placed k g anchor ck c /\ each (scan_child g ck) (children_of c) (parents s) = Ok (parents t) /\
  roots t = (if is_root c then S (roots s) else roots s) /\
  forall e slot, slot ∈ default [] (map_get e (slots t)) <-> slot ∈ default [] (map_get e (slots s)) \/ is_root c = false /\ owner_entity c = e /\ owner_slot c = slot.
Proof.
  intros H Hkeys. unfold scan_container in H. checked_in H. injection H as <-. apply andb_prop in Hok as [Hk _]. apply str_eqb_text in Hk.
  assert (text_at (Some c) "key" = ck) as Hck by (unfold text_at; by rewrite Hk). cbn [parents roots slots]. unfold container_placed.
  destruct (is_root c).
  - destruct (scan_root_ok _ _ _ _ Hok0) as (Hs & Hr & Hp & Hsl). rewrite Hr, Hsl, <- Hp. split_and!; [by rewrite Hck in Hs|done|done|]. naive_solver.
  - destruct (scan_owned_ok _ _ _ _ _ _ Hok0) as (e & He & Hkey & Hal & Hr & Hp & Hsl). rewrite Hr, Hsl, <- Hp, (Hkeys _ _ He). split_and!.
    + exists e. rewrite <- Hck. rewrite (Hkeys _ _ He) in Hal. split_and!; try done. by rewrite (Hkeys _ _ He).
    + done.
    + done.
    + intros key slot. destruct (decide (key = owner_entity c)) as [->|Hne].
      * rewrite map_get_put. simpl. rewrite elem_of_set_add. naive_solver.
      * rewrite map_get_put_ne by done. naive_solver.
Qed.

Lemma placed_snoc (P : string -> json -> Prop) pre ck c :
  (exists ck' c', (ck', c') ∈ (pre ++ [(ck, c)])%list /\ P ck' c') <-> (exists ck' c', (ck', c') ∈ pre /\ P ck' c') \/ P ck c.
Proof.
  split.
  - intros (ck' & c' & [Hin|[= -> ->]%list_elem_of_singleton]%elem_of_app & HP); [left; by exists ck', c'|by right].
  - intros [(ck' & c' & Hin & HP)|HP]; [exists ck', c'|exists ck, c]; (split; [apply elem_of_app|done]); [by left|right; by apply list_elem_of_singleton].
Qed.

Lemma scanned_step k g anchor pre s ck c t : (forall key e, map_get key (entities g) = Some e -> text_at (Some e) "key" = key) ->
  Scanned k g anchor pre s -> scan_container k g anchor s (ck, c) = Ok t -> Scanned k g anchor (pre ++ [(ck, c)])%list t.
Proof.
  intros Hkeys [Hp Hc Hpl Hr0 Hr Hs] Ht. destruct (scan_container_ok _ _ _ _ _ _ _ Ht Hkeys) as (Hplace & Hch & Hroots & Hslots).
  destruct (scan_children_ok _ _ _ _ _ Hch) as (Hnd & Hin & Hget). split.
  - intros child ck'. rewrite Hget, Hp. split.
    + intros [(c' & Hin' & Hch')|[-> Hch']]; [exists c'|exists c]; (split; [apply elem_of_app|done]); [by left|right; by apply list_elem_of_singleton].
    + intros (c' & [Hin'|[= -> ->]%list_elem_of_singleton]%elem_of_app & Hch'); [left; by exists c'|by right].
  - intros ck' c' [Hin'|[= -> ->]%list_elem_of_singleton]%elem_of_app; [by eapply Hc|]. split; [done|]. intros child. apply Hin.
  - intros ck' c' [Hin'|[= -> ->]%list_elem_of_singleton]%elem_of_app; [by apply Hpl|done].
  - rewrite Hroots. destruct (is_root c) eqn:Hrc; [lia|]. intros H0 ck' c' [Hin'|[= -> ->]%list_elem_of_singleton]%elem_of_app; [by eapply Hr0|done].
  - rewrite Hroots. intros H0. rewrite (placed_snoc (fun _ c => is_root c = true)). destruct (is_root c); [by right|left; auto].
  - intros e slot. by rewrite Hslots, Hs, (placed_snoc (fun _ c => is_root c = false /\ owner_entity c = e /\ owner_slot c = slot)).
Qed.

(** A valid graph's containers, all gone through. *)
Lemma valid_scanned k b g es cs : map_wf (entities g) -> Validated k b g es cs -> Scanned k g (anchorKey es) (containers g) cs.
Proof.
  intros Hw Hv. pose proof (ok_containers _ _ _ _ _ Hv) as Hc. revert Hc. apply each_prefix.
  - split; simpl; try done; try (by intros ? ? ?%elem_of_nil); try (by intros _ ? ? ?%elem_of_nil).
    + intros child ck. split; [done|]. intros (c & Hin%elem_of_nil & _). done.
    + intros e slot. rewrite elem_of_nil. split; [done|]. intros (ck & c & Hin%elem_of_nil & _). done.
  - intros pre [ck c] s t Hs Ht. eapply scanned_step; [|done|done]. intros key e He%elem_of_map_get. by apply (valid_entity _ _ _ _ _ _ _ Hv He).
Qed.

(** ** Anchors *)

Lemma placed_snoc_key (P : json -> Prop) (pre : js_map json) ck c key :
  (exists e, (key, e) ∈ (pre ++ [(ck, c)])%list /\ P e) <-> (exists e, (key, e) ∈ pre /\ P e) \/ (key = ck /\ P c).
Proof.
  split.
  - intros (e & [Hin|[= -> ->]%list_elem_of_singleton]%elem_of_app & HP); [left; by exists e|by right].
  - intros [(e & Hin & HP)|[-> HP]]; [exists e|exists c]; (split; [apply elem_of_app|done]); [by left|right; by apply list_elem_of_singleton].
Qed.

(** The anchor of a project resource is its entity of that kind. *)
Definition is_anchor (k : ResourceKey) (e : json) : bool := match k with Project _ _ => is_text (at_key (Some e) "kind") "project" | _ => false end.

Lemma validateEntity_anchor k e r : validateEntity e k = Ok r -> r.2 = is_anchor k e.
Proof.
  unfold validateEntity. destruct (entity e k); [|done]. unfold entityIdentityForResource, is_anchor. intros H.
  destruct k; repeat case_match; by simplify_eq.
Qed.

Lemma valid_anchor k b g es cs key : Validated k b g es cs -> anchorKey es = Some key <-> exists e, (key, e) ∈ entities g /\ is_anchor k e = true.
Proof.
  intros Hv. pose proof (ok_entities _ _ _ _ _ Hv) as He. revert key. revert He.
  apply (each_prefix (fun pre s => forall key, anchorKey s = Some key <-> exists e, (key, e) ∈ pre /\ is_anchor k e = true)).
  - intros key. split; [done|]. intros (e & Hin%elem_of_nil & _). done.
  - intros pre [mk e] s t Hpre Ht key. unfold scan_entity in Ht. checked_in Ht. injection Ht as <-. cbn [anchorKey].
    rewrite (placed_snoc_key (fun e => is_anchor k e = true)). rewrite <- Hpre. rewrite (validateEntity_anchor _ _ _ Hok0) in *.
    destruct (is_anchor k e); simpl in *; [|naive_solver]. destruct (anchorKey s); [done|]. naive_solver.
Qed.

Lemma anchor_not_session k e : is_anchor k e = true -> is_session e = false.
Proof. unfold is_anchor, is_session. destruct k; try done. by intros ->%str_eqb_text. Qed.

(** ** Places *)

Section places.
Context (k : ResourceKey) (b : NavigationReadBase) (g : Graph) (es : EntityScan) (cs : ContainerScan).
Hypothesis valid : Validated k b g es cs.
Hypothesis wf_entities : map_wf (entities g).
Hypothesis wf_containers : map_wf (containers g).

Let scanned : Scanned k g (anchorKey es) (containers g) cs := valid_scanned k b g es cs wf_entities valid.

Lemma entity_placed key e : (key, e) ∈ entities g ->
  let owned := default [] (map_get key (slots cs)) in
  (if is_anchor k e then map_get key (parents cs) = None /\ forall slot, slot ∈ tiers -> slot ∈ owned else exists ck, map_get key (parents cs) = Some ck) /\
  (is_session e = true -> "children" ∈ owned) /\ (is_session e = false -> is_anchor k e = false -> owned = []).
Proof using valid wf_entities.
  intros Hin. pose proof (ok_placed _ _ _ _ _ valid) as Hp. rewrite forallb_forall in Hp. specialize (Hp (key, e)). rewrite <- list_elem_of_In in Hp. specialize (Hp Hin).
  destruct (valid_entity _ _ _ _ _ _ _ valid Hin) as (Hkey & _). unfold placed in Hp. cbn [fst snd] in Hp. rewrite Hkey in Hp.
  set (owned := default [] (map_get key (slots cs))) in *. cbv zeta.
  assert (bool_decide (anchorKey es = Some key) = is_anchor k e) as Ha.
  { apply eq_true_iff_eq. rewrite bool_decide_eq_true, (valid_anchor _ _ _ _ _ _ valid). split; [|intros; by exists e].
    intros (e' & Hin' & Ha). apply map_get_elem_of in Hin, Hin'; try done. by simplify_eq. }
  rewrite Ha in Hp. apply andb_prop in Hp as [[H1 H2]%andb_prop H3]. assert (Hslots : forall l, exactSlots owned l = true -> forall slot, slot ∈ l -> slot ∈ owned).
  { unfold exactSlots. intros l [_ Hl]%andb_prop slot Hs. rewrite forallb_forall in Hl. apply str_in_spec, Hl. by apply list_elem_of_In. }
  split_and!.
  - destruct (is_anchor k e).
    + apply andb_prop in H1 as [H1 Ht]. split; [|by apply Hslots]. unfold map_has in H1. by destruct (map_get key (parents cs)).
    + unfold map_has in H1. destruct (map_get key (parents cs)) as [ck|]; [by exists ck|done].
  - intros Hs. rewrite Hs in H2. apply (Hslots _ H2). by left.
  - intros Hs Hn. rewrite Hs, Hn in H3. simpl in H3. by destruct owned.
Qed.

Lemma owner_valid c e : map_get (owner_entity c) (entities g) = Some e -> entity_key_valid k (owner_entity c) = true.
Proof using valid. intros He%elem_of_map_get. by apply (valid_entity _ _ _ _ _ _ _ valid He). Qed.

(** A container an entity owns is filed under the key the entity and slot make. *)
Lemma owned_container key e slot : (key, e) ∈ entities g -> slot ∈ default [] (map_get key (slots cs)) ->
  exists c, map_get (navigationOwnedContainerKey key slot) (containers g) = Some c /\ is_root c = false /\ owner_entity c = key /\ owner_slot c = slot.
Proof using wf_containers scanned.
  intros Hin (ck & c & Hc & Hr & <- & <-)%(sc_slots _ _ _ _ _ scanned). exists c. split_and!; try done.
  pose proof (sc_placed _ _ _ _ _ scanned _ _ Hc) as Hp. unfold container_placed in Hp. rewrite Hr in Hp. destruct Hp as (e' & _ & <- & _). by apply map_get_elem_of.
Qed.

Lemma children_container key e : (key, e) ∈ entities g -> is_anchor k e = false ->
  match map_get (navigationOwnedContainerKey key "children") (containers g) with
  | Some c => is_session e = true /\ children_of c = []
  | None => is_session e = false
  end.
Proof using valid wf_entities wf_containers scanned.
  intros Hin Ha. destruct (entity_placed key e Hin) as (_ & Hs & Hn). pose proof Hin as He. apply map_get_elem_of in He; [|done].
  destruct (is_session e) eqn:Hse.
  - destruct (owned_container key e "children" Hin (Hs eq_refl)) as (c & Hc & Hr & Ho & _). rewrite Hc. split; [done|].
    pose proof (sc_placed _ _ _ _ _ scanned _ _ (elem_of_map_get _ _ _ Hc)) as Hp. unfold container_placed in Hp. rewrite Hr, Ho, He in Hp.
    destruct Hp as (e' & [= <-] & _ & Hp). rewrite Hse in Hp. by apply Hp.
  - destruct (map_get _ (containers g)) as [c|] eqn:Hc; [|done]. exfalso. apply elem_of_map_get in Hc. pose proof (sc_placed _ _ _ _ _ scanned _ _ Hc) as Hp.
    destruct (valid_entity _ _ _ _ _ _ _ valid Hin) as (_ & Hkv & _). unfold container_placed in Hp. destruct (is_root c) eqn:Hr.
    + destruct Hp as (slot & _ & Hp). by eapply owned_not_root.
    + destruct Hp as (e' & He' & Hp & _). apply (owned_key_inj k) in Hp as [Ho Hsl]; [|done|by eapply owner_valid].
      assert ("children" ∈ default [] (map_get key (slots cs))) as Hch by (apply (sc_slots _ _ _ _ _ scanned); by exists (navigationOwnedContainerKey key "children"), c).
      rewrite Hn in Hch by done. by apply elem_of_nil in Hch.
Qed.
End places.

Section shown.
Context (k : ResourceKey) (b : NavigationReadBase) (g : Graph) (es : EntityScan) (cs : ContainerScan).
Hypothesis valid : Validated k b g es cs.
Hypothesis wf_entities : map_wf (entities g).
Hypothesis wf_containers : map_wf (containers g).

Let scanned : Scanned k g (anchorKey es) (containers g) cs := valid_scanned k b g es cs wf_entities valid.

(** The keys of the entities that have a place. *)
Definition placed_keys : list string := (filter (fun e => is_anchor k e.2 = false) (entities g)).*1.

Lemma placed_keys_NoDup : NoDup placed_keys.
Proof using wf_entities. eapply sublist_NoDup; [exact wf_entities|]. apply fmap_sublist, sublist_filter. Qed.

Lemma elem_of_placed_keys key : key ∈ placed_keys <-> exists e, (key, e) ∈ entities g /\ is_anchor k e = false.
Proof.
  unfold placed_keys. rewrite list_elem_of_fmap. split.
  - intros ([key' e] & -> & [Ha Hin]%list_elem_of_filter). by exists e.
  - intros (e & Hin & Ha). exists (key, e). split; [done|]. by apply list_elem_of_filter.
Qed.

(** Who is in a container has a place, and who has a place is in a container. *)
Lemma child_placed ck c child : (ck, c) ∈ containers g -> child ∈ children_of c -> child ∈ placed_keys.
Proof using valid wf_entities scanned.
  intros Hc Hch. destruct (sc_children _ _ _ _ _ scanned _ _ Hc) as [_ Hin]. specialize (Hin _ Hch). unfold map_has in Hin.
  destruct (map_get child (entities g)) as [e|] eqn:He; [|done]. apply elem_of_map_get in He. apply elem_of_placed_keys. exists e. split; [done|].
  destruct (entity_placed k b g es cs valid wf_entities child e He) as (Hpl & _).
  destruct (is_anchor k e); [|done]. destruct Hpl as [Hpl _]. assert (map_get child (parents cs) = Some ck) as Hp by (apply (sc_parents _ _ _ _ _ scanned); by exists c). congruence.
Qed.

Lemma placed_child key : key ∈ placed_keys -> exists ck c, (ck, c) ∈ containers g /\ key ∈ children_of c /\ container_placed k g (anchorKey es) ck c.
Proof using valid wf_entities scanned.
  intros (e & Hin & Ha)%elem_of_placed_keys. destruct (entity_placed k b g es cs valid wf_entities key e Hin) as (Hpl & _). rewrite Ha in Hpl.
  destruct Hpl as [ck (c & Hc & Hch)%(sc_parents _ _ _ _ _ scanned)]. exists ck, c. split_and!; [done..|]. by apply (sc_placed _ _ _ _ _ scanned).
Qed.

Lemma one_place child ck c ck' c' : (ck, c) ∈ containers g -> (ck', c') ∈ containers g -> child ∈ children_of c -> child ∈ children_of c' -> ck = ck'.
Proof using scanned.
  intros Hc Hc' Hch Hch'. assert (map_get child (parents cs) = Some ck) as H1 by (apply (sc_parents _ _ _ _ _ scanned); by exists c).
  assert (map_get child (parents cs) = Some ck') as H2 by (apply (sc_parents _ _ _ _ _ scanned); by exists c'). congruence.
Qed.

Lemma same_container ck c c' : (ck, c) ∈ containers g -> (ck, c') ∈ containers g -> c = c'.
Proof using wf_containers. intros Hc Hc'. apply map_get_elem_of in Hc, Hc'; try done. congruence. Qed.

(** A resource with a root shows in it every entity, once. *)
Lemma root_children slot : expectedRootSlot k = Some slot -> exists c, map_get (navigationRootContainerKey k slot) (containers g) = Some c /\ children_of c ≡ₚ placed_keys.
Proof using valid wf_entities wf_containers scanned.
  intros Hslot. pose proof (ok_roots _ _ _ _ _ valid) as Hr. rewrite Hslot in Hr. apply Nat.eqb_eq in Hr.
  destruct (sc_root _ _ _ _ _ scanned) as (ck & c & Hc & Hrc); [lia|]. pose proof (sc_placed _ _ _ _ _ scanned _ _ Hc) as Hp. unfold container_placed in Hp. rewrite Hrc in Hp.
  destruct Hp as (slot' & Hs & ->). rewrite Hslot in Hs. injection Hs as <-. exists c. split; [by apply map_get_elem_of|].
  apply NoDup_Permutation; [by apply (sc_children _ _ _ _ _ scanned _ _ Hc)|apply placed_keys_NoDup|]. intros key. split; [by apply (child_placed _ _ _ Hc)|].
  intros (ck' & c' & Hc' & Hch & Hp)%placed_child. unfold container_placed in Hp. destruct (is_root c').
  - destruct Hp as (slot' & Hs & ->). rewrite Hslot in Hs. injection Hs as <-. by rewrite (same_container _ _ _ Hc Hc').
  - destruct Hp as (e & _ & _ & Hp). destruct (is_session e); [destruct Hp as [_ Hn]; rewrite Hn in Hch; by apply elem_of_nil in Hch|].
    destruct Hp as ((p & q & ->) & _). done.
Qed.

(** A project shows in its tiers every entity but its anchor, once. *)
Lemma tier_children anchor e : expectedRootSlot k = None -> (anchor, e) ∈ entities g -> is_anchor k e = true ->
  exists c1 c2 c3, map_get (navigationOwnedContainerKey anchor "current") (containers g) = Some c1 /\ map_get (navigationOwnedContainerKey anchor "recent") (containers g) = Some c2 /\
    map_get (navigationOwnedContainerKey anchor "archived") (containers g) = Some c3 /\ (children_of c1 ++ children_of c2 ++ children_of c3)%list ≡ₚ placed_keys.
Proof using valid wf_entities wf_containers scanned.
  intros Hslot Hin Ha. destruct (entity_placed k b g es cs valid wf_entities anchor e Hin) as (Hpl & _). rewrite Ha in Hpl. destruct Hpl as [_ Htiers].
  assert (Hget : forall slot, slot ∈ tiers -> exists c, map_get (navigationOwnedContainerKey anchor slot) (containers g) = Some c).
  { intros slot Hs. destruct (owned_container k b g es cs valid wf_entities wf_containers anchor e slot Hin (Htiers _ Hs)) as (c & Hc & _). by exists c. }
  destruct (Hget "current") as [c1 H1]; [by apply str_in_spec|]. destruct (Hget "recent") as [c2 H2]; [by apply str_in_spec|]. destruct (Hget "archived") as [c3 H3]; [by apply str_in_spec|].
  exists c1, c2, c3. split_and!; [done..|]. destruct (valid_entity _ _ _ _ _ _ _ valid Hin) as (_ & Hkv & _).
  pose proof (elem_of_map_get _ _ _ H1) as Hc1. pose proof (elem_of_map_get _ _ _ H2) as Hc2. pose proof (elem_of_map_get _ _ _ H3) as Hc3.
  apply NoDup_Permutation; [|apply placed_keys_NoDup|].
  - assert (Hapart : forall s s' c c' x, s <> s' -> (navigationOwnedContainerKey anchor s, c) ∈ containers g -> (navigationOwnedContainerKey anchor s', c') ∈ containers g ->
      x ∈ children_of c -> x ∈ children_of c' -> False).
    { intros s s' c c' x Hne Hc Hc' Hx Hx'. pose proof (one_place _ _ _ _ _ Hc Hc' Hx Hx') as E. by apply (owned_key_inj k) in E as [_ E]. }
    repeat (apply NoDup_app; split_and!); try (by eapply (sc_children _ _ _ _ _ scanned)).
    + intros x Hx1 [Hx|Hx]%elem_of_app; [by eapply (Hapart "current" "recent")|by eapply (Hapart "current" "archived")].
    + intros x Hx2 Hx3. by eapply (Hapart "recent" "archived").
  - intros key. rewrite !elem_of_app. split.
    { intros [H|[H|H]]; [by apply (child_placed _ _ _ Hc1)|by apply (child_placed _ _ _ Hc2)|by apply (child_placed _ _ _ Hc3)]. }
    intros (ck & c & Hc & Hch & Hp)%placed_child. unfold container_placed in Hp. destruct (is_root c).
    { destruct Hp as (slot & Hs & _). congruence. }
    destruct Hp as (e' & He' & -> & Hp). destruct (is_session e') eqn:Hse; [destruct Hp as [_ Hn]; rewrite Hn in Hch; by apply elem_of_nil in Hch|].
    destruct Hp as (_ & Hanchor & Ht). assert (owner_entity c = anchor) as Ho.
    { assert (anchorKey es = Some anchor) as Hk by (apply (valid_anchor _ _ _ _ _ _ valid); by exists e). rewrite Hk in Hanchor. injection Hanchor as ->.
      symmetry. by apply (valid_entity _ _ _ _ _ _ _ valid (elem_of_map_get _ _ _ He')). }
    rewrite Ho in Hc. unfold tiers in Ht. rewrite !elem_of_cons in Ht. destruct Ht as [Ht|[Ht|[Ht|Ht]]]; [| | |by apply elem_of_nil in Ht]; rewrite Ht in Hc.
    + left. by rewrite (same_container _ _ _ Hc1 Hc).
    + right; left. by rewrite (same_container _ _ _ Hc2 Hc).
    + right; right. by rewrite (same_container _ _ _ Hc3 Hc).
Qed.
End shown.
