(* ===== verification/NavigationGraphTheorems.v ===== *)
(** What a client makes of navigation snapshots and deltas: what it decodes is still valid
    and typed, a delta or a snapshot changes exactly what it says, and a valid graph is
    shown row by row. *)

From S2P Require Import Prelude JsString Json JsMap NavigationKeys NavigationCodec NavigationFacts NavigationTyping NavigationGraph NavigationMerge NavigationRows.

Local Open Scope string_scope.

(** ** Snapshots, decoded and kept *)

Definition by_key (l : list json) : js_map json := map (fun v => (record_key v, v)) l.

Lemma by_key_keys l : (by_key l).*1 = keys_of l.
Proof. unfold by_key, keys_of. induction l; simpl; f_equal; auto. Qed.

Lemma keyed_ok c l m m' : each (keyed c) l m = Ok m' -> map_wf m -> m' = (m ++ by_key l)%list /\ map_wf m'.
Proof.
  revert m. induction l as [|v l IH]; intros m; [intros [= ->]; by rewrite app_nil_r|]. rewrite each_cons. intros (m1 & Hk & Hl) Hm.
  unfold keyed in Hk. destruct (at_key (Some v) "key") as [[| | |key| |]|] eqn:Hkey; try done. destruct (map_has key m) eqn:Hh; [done|].
  injection Hk as <-. assert (map_get key m = None) as Hn. { unfold map_has in Hh. by destruct (map_get key m). }
  destruct (IH _ Hl) as [-> Hw]; [by apply map_put_wf|]. rewrite map_put_new in * by done. split; [|done].
  rewrite <- app_assoc. simpl. unfold record_key, text_at. by rewrite Hkey.
Qed.

Lemma map_of_new l m : map_wf (m ++ map (fun h => (key_of h, h)) l)%list -> foldl (fun m h => map_put (key_of h) h m) m l = (m ++ map (fun h => (key_of h, h)) l)%list.
Proof.
  revert m. induction l as [|h l IH]; intros m Hw; simpl; [by rewrite app_nil_r|].
  assert (map_get (key_of h) m = None) as Hn.
  { destruct (map_get (key_of h) m) as [x|] eqn:Hx; [|done]. apply elem_of_map_get in Hx. unfold map_wf in Hw. rewrite fmap_app in Hw. apply NoDup_app in Hw as (_ & Hd & _).
    destruct (Hd (key_of h)); [apply list_elem_of_fmap; by exists (key_of h, x)|simpl; by left]. }
  rewrite map_put_new by done. simpl in Hw. assert (((m ++ [(key_of h, h)]) ++ map (fun h => (key_of h, h)) l)%list = (m ++ (key_of h, h) :: map (fun h => (key_of h, h)) l)%list) as Ha by by rewrite <- app_assoc.
  rewrite IH; rewrite Ha; done.
Qed.

Lemma key_of_keys hs : (map (fun h => (key_of h, h)) hs).*1 = map key_of hs.
Proof. induction hs; simpl; f_equal; auto. Qed.

Lemma held_contents l next : NoDup (keys_of l) -> contents (map_of (hold l next).1) = by_key l.
Proof.
  intros Hnd. pose proof (hold_spec l next) as Hh. destruct (hold l next) as [hs n]. destruct Hh as [<- _]. cbn [fst]. unfold map_of. rewrite map_of_new.
  - unfold contents, by_key. simpl. clear. induction hs; simpl; f_equal; auto.
  - unfold map_wf. simpl. rewrite key_of_keys. by rewrite <- keys_of_held in Hnd.
Qed.

Lemma snapshot_graph s next : (exists o, snap_metadata s = JObj o) -> NoDup (keys_of (snap_entities s)) -> NoDup (keys_of (snap_containers s)) ->
  plain (normalizedGraphFromSnapshot s next).1 = mkGraph (snap_metadata s) (by_key (snap_entities s)) (by_key (snap_containers s)).
Proof.
  intros [o Ho] Hes Hcs. unfold normalizedGraphFromSnapshot. rewrite Ho. cbn [cloneAndDeepFreezeJSON].
  pose proof (held_contents (snap_entities s) (S next) Hes) as He. destruct (hold (snap_entities s) (S next)) as [es n].
  pose proof (held_contents (snap_containers s) n Hcs) as Hc. destruct (hold (snap_containers s) n) as [cs n']. unfold plain. cbn [fst g_metadata g_entities g_containers it] in *. by rewrite He, Hc.
Qed.

Lemma validated_metadata k b g : validateGraphForResource k b g = Ok tt -> exists o, metadata g = JObj o.
Proof.
  intros (es & cs & [Hm _ _ _ _ _ _ _ _])%validateGraph_ok. unfold validateResourceMetadata in Hm. checked_in Hm. checks_in Hok.
  destruct (metadata g); try done. by eexists.
Qed.

Lemma validated_entity k b g key e : validateGraphForResource k b g = Ok tt -> (key, e) ∈ entities g -> exists r, validateEntity e k = Ok r.
Proof.
  intros (es & cs & [_ _ He _ _ _ _ _ _])%validateGraph_ok Hin. destruct (each_in _ _ _ _ _ He Hin) as (s & t & Hs). unfold scan_entity in Hs. checked_in Hs. by eexists.
Qed.

Lemma known_metadata_record k o : exists o', knownMetadata k (JObj o) = JObj o'.
Proof. destruct k; cbn [knownMetadata]; rewrite ?dropUnknownKeys_eq; by eexists. Qed.

(** The value a record of a graph has, exactly of the keys its kind knows. *)
Definition typed_value (k : ResourceKey) (e : json) : Prop :=
  exists o, at_key (Some e) "value" = Some (JObj o) /\ obj_keys o ⊆ known_keys (entityValueKeys k (at_key (Some e) "kind")).

(** C23: what a client decodes of a snapshot passes, once the properties it does not know
    were dropped, every check again as the graph it keeps of it; its entities hold nothing
    but the properties of their kind's table, and each passes the validator of its kind. *)
Theorem decoded_snapshot_is_typed k sent wire v s next :
  decodeNavigationResponse k sent wire = Ok (Snapshot v s) ->
  let g := plain (normalizedGraphFromSnapshot s next).1 in
  validateGraphForResource k v g = Ok tt /\
  entities g = by_key (snap_entities s) /\
  Forall (fun e => typed_value k e /\ exists r, validateEntity e k = Ok r) (snap_entities s).
Proof.
  intros [Hv ->]%decoded_snapshot. unfold validateSnapshotForResource in Hv. checked_in Hv.
  apply keyed_ok in Hok0 as [Hes Hwe]; [|by constructor]. apply keyed_ok in Hok1 as [Hcs Hwc]; [|by constructor]. simpl in Hes, Hcs. subst.
  unfold map_wf in Hwe, Hwc. rewrite by_key_keys in Hwe, Hwc.
  set (data := at_key wire "data") in *. set (es := items (at_key data "entities")) in *. set (cs := items (at_key data "containers")) in *.
  assert (Hg : plain (normalizedGraphFromSnapshot (knownSnapshot k data) next).1 = known_graph k (mkGraph (default JNull (at_key data "metadata")) (by_key es) (by_key cs))).
  { destruct (validated_metadata _ _ _ Hv) as [o Ho]. cbn [metadata] in Ho. rewrite snapshot_graph.
    - unfold known_graph, knownSnapshot. cbn [snap_metadata snap_entities snap_containers metadata entities containers]. f_equal. fold es.
      unfold by_key. rewrite !map_map. apply map_ext. intros e. by rewrite known_record_key.
    - cbn [knownSnapshot snap_metadata]. rewrite Ho. apply known_metadata_record.
    - cbn [knownSnapshot snap_entities]. fold es. by rewrite keys_of_known.
    - done. }
  cbv zeta. rewrite Hg. split_and!.
  - by apply validateGraph_known.
  - unfold known_graph, knownSnapshot. cbn [entities snap_entities]. fold es. unfold by_key. rewrite !map_map. apply map_ext. intros e. by rewrite known_record_key.
  - cbn [knownSnapshot snap_entities]. fold es. apply Forall_forall. intros e' (e & -> & Hin)%list_elem_of_fmap.
    assert (exists r, validateEntity e k = Ok r) as [r Hr].
    { apply (validated_entity k v _ (record_key e) e Hv). cbn [entities]. apply list_elem_of_fmap. by exists e. }
    split; [|exists r; by apply validateEntity_known]. unfold validateEntity in Hr. destruct (entity e k) eqn:He; [|done]. destruct (entity_record _ _ He) as [Hrec _].
    destruct (dropped_keys (entityValueKeys k (at_key (Some e) "kind")) (default JNull (at_key (Some e) "value"))) as (o & Ho & Hkeys).
    exists o. rewrite !at_known by done. simpl (String.eqb _ _). cbv iota. by rewrite Ho.
Qed.

(** ** Deltas and snapshots on a held graph *)

(** C25: a decoded delta, applied to a graph, makes each entity and container of it what the
    delta says and no other: gone when it is removed, the object that was there when nothing
    changed in it, a new object of the delta's record when something did, and untouched when
    the delta does not name it; its metadata likewise. The result is kept exactly when it is
    valid, at the delta's version, and refused as a base otherwise. *)
Theorem delta_changes_what_it_names k sent wire v b d previous next :
  decodeNavigationResponse k sent wire = Ok (Delta v b d) -> graph_before next (r_graph previous) ->
  exists g next', (next <= next')%nat /\ graph_before next' g /\ patched_graph next d (r_graph previous) g /\
    applyDelta previous d v next =
      match validateGraphForResource (r_key previous) v (plain g) with
      | Ok _ => Ok (mkResource (r_key previous) g v (r_presence previous), next')
      | Throw _ => Throw BaseInvalid
      end.
Proof. intros [He Hc]%decoded_delta_keys Hg. by apply applyDelta_graph. Qed.

(** C26: a snapshot reconciled onto a held graph leaves exactly the entities and containers
    of the snapshot, each the object that was held when nothing changed in it and the
    snapshot's own otherwise, and likewise its metadata; it is kept, at the snapshot's
    version, when the result is valid. *)
Theorem snapshot_keeps_unchanged_objects k v s previous n :
  graph_before n (r_graph previous) ->
  let '(incoming, next) := snapshotResource k v s n in
  let old := r_graph previous in
  let new := r_graph incoming in
  exists g next', (next <= next')%nat /\ graph_before next' g /\
    (forall key, map_get key (g_entities g) = adopted sameEntity (map_get key (g_entities old)) (map_get key (g_entities new))) /\
    (forall key, map_get key (g_containers g) = adopted sameContainer (map_get key (g_containers old)) (map_get key (g_containers new))) /\
    g_metadata g = (if equalJSON (it (g_metadata old)) (it (g_metadata new)) then g_metadata old else g_metadata new) /\
    reconcileSnapshot (Some previous) incoming next =
      (let! _ := validateGraphForResource k v (plain g) in Ok (mkResource k g v "present", next')).
Proof.
  intros (Hgm & Hge & Hgc). unfold snapshotResource. pose proof (snapshot_between s n) as Hs. destruct (normalizedGraphFromSnapshot s n) as [new next].
  destruct Hs as (Hnm & (Hnm' & Hne & Hnc) & Hme & Hmc). cbv zeta. cbn [r_graph]. unfold reconcileSnapshot. cbn [r_graph r_key r_version r_presence].
  set (u := mkUpdate _ _ _ _ _ _ _). cbn [fmap option_fmap option_map]. assert (n <= next)%nat as Hn by lia.
  set (se := reconcileKeyedMap sameEntity (freeze true) (g_entities (r_graph previous)) (g_entities new).*2 [] true next).
  set (sc := reconcileKeyedMap sameContainer (freeze true) (g_containers (r_graph previous)) (g_containers new).*2 [] true (next_ident se)).
  destruct (reconcile_metadata (Some (r_graph previous)) u (next_ident sc)) as [m n'] eqn:Hm.
  destruct (reconcileGraph_parts (Some (r_graph previous)) u next m n' Hm) as [same Hu]. rewrite Hu.
  destruct (reconcile_adopted_held sameEntity (g_entities (r_graph previous)) (g_entities new) next) as [Hle Hbe]; [by apply (held_before_le n)|done|]. fold se in Hle, Hbe.
  destruct (reconcile_adopted_held sameContainer (g_containers (r_graph previous)) (g_containers new) (next_ident se)) as [Hlc Hbc].
  { by apply (held_before_le n); [lia|]. } { by apply (held_before_le next). } fold sc in Hlc, Hbc.
  assert (m = (if equalJSON (it (g_metadata (r_graph previous))) (it (g_metadata new)) then g_metadata (r_graph previous) else g_metadata new) /\ n' = next_ident sc) as [-> ->].
  { unfold reconcile_metadata in Hm. cbn [u_metadata u u_prepared freeze] in Hm. by destruct (equalJSON _ _); simplify_eq. }
  exists (mkNavigationGraph (if equalJSON (it (g_metadata (r_graph previous))) (it (g_metadata new)) then g_metadata (r_graph previous) else g_metadata new)
    (current (g_entities (r_graph previous)) se) (current (g_containers (r_graph previous)) sc)), (next_ident sc). split_and!; [lia| | | |done|done]; cbn [g_entities g_containers g_metadata].
  - split_and!; cbn [g_entities g_containers g_metadata]; [destruct (equalJSON _ _); lia|by apply (held_before_le (next_ident se))|done].
  - apply reconcile_adopted; [apply Hme|by eapply between_share].
  - apply reconcile_adopted; [apply Hmc|by eapply between_share].
Qed.

(** ** Rows *)

(** The row of an entity that has a place. *)
Definition row (e : json) : json :=
  let own := match at_key (Some e) "value" with Some (JObj o) => o | _ => [] end in JObj (if is_session e then obj_set "children" (JArr []) own else own).

Lemma obj_get_unset k (o : json_object) : obj_get k (filter (fun f => f.1 <> k) o) = None.
Proof.
  induction o as [|[k' v] o IH]; [done|]. rewrite filter_cons. case_decide as Hk; simpl in *; [|done]. by destruct (String.eqb_spec k k') as [->|].
Qed.

Definition sessions_of (v : option json) : list json := items (at_key v "sessions").

(** The rows a materialized resource shows. *)
Definition shown_rows (k : ResourceKey) (o : json_object) : list json :=
  match k with
  | Manifest => []
  | Section_ _ _ _ | PinSection _ _ _ | ProjectPage _ _ _ _ _ => items (obj_get "sessions" o)
  | PinCatalog _ _ => items (obj_get "pin_sections" o)
  | Catalog _ _ _ => items (obj_get "projects" o)
  | Location _ => match obj_get "session" o with Some s => [s] | None => [] end
  | Project _ _ => (sessions_of (obj_get "current" o) ++ sessions_of (obj_get "recent" o) ++ sessions_of (obj_get "archived" o))%list
  end.

Definition listed (g : Graph) (containerKey : string) : list string := match map_get containerKey (containers g) with Some c => children_of c | None => [] end.

(** The keys of the rows, in the order of the containers. *)
Definition shown_keys (k : ResourceKey) (g : Graph) : list string :=
  match k, expectedRootSlot k with
  | Manifest, _ => []
  | _, Some slot => listed g (navigationRootContainerKey k slot)
  | Project p _, _ => match project_entity g p with Some e => tiers ≫= fun slot => listed g (navigationOwnedContainerKey e slot) | None => [] end
  | _, _ => []
  end.

Section rows.
Context (k : ResourceKey) (b : NavigationReadBase) (g : Graph) (es : EntityScan) (cs : ContainerScan).
Hypothesis valid : Validated k b g es cs.
Hypothesis wf_entities : map_wf (entities g).
Hypothesis wf_containers : map_wf (containers g).

Definition row_at (key : string) : option json := row <$> map_get key (entities g).

Lemma entityValue_row levels key e : (key, e) ∈ entities g -> is_anchor k e = false -> entityValue g (S levels) key = row_at key.
Proof using valid wf_entities wf_containers.
  intros Hin Ha. pose proof (children_container k b g es cs valid wf_entities wf_containers key e Hin Ha) as Hc.
  unfold row_at. cbn [entityValue]. rewrite (map_get_elem_of _ _ _ wf_entities Hin). cbn [fmap option_fmap option_map]. unfold row.
  destruct (map_get (navigationOwnedContainerKey key "children") (containers g)) as [c|]; [destruct Hc as [-> ->]|by rewrite Hc]. done.
Qed.

Lemma rows_at levels (l : list string) : (forall key, key ∈ l -> key ∈ placed_keys k g) -> omap (entityValue g (S levels)) l = omap row_at l.
Proof using valid wf_entities wf_containers.
  intros Hl. apply list_omap_ext, Forall_Forall2_diag, Forall_forall. intros key (e & Hin & Ha)%Hl%elem_of_placed_keys. by apply (entityValue_row levels key e).
Qed.

Lemma placed_rows : omap row_at (placed_keys k g) = map row (filter (fun e => is_anchor k e.2 = false) (entities g)).*2.
Proof using wf_entities.
  assert (H : forall l : js_map json, l ⊆ entities g -> omap row_at l.*1 = map row l.*2).
  { induction l as [|[key e] l IH]; intros Hl; [done|]. change (match row_at key with Some r => r :: omap row_at l.*1 | None => omap row_at l.*1 end = row e :: map row l.*2).
    unfold row_at at 1. rewrite (map_get_elem_of key e) by (done || (apply Hl; by left)). cbn [fmap option_fmap option_map]. f_equal. apply IH. intros x Hx. apply Hl. by right. }
  apply H. intros x [_ Hx]%list_elem_of_filter. done.
Qed.

Lemma shown_all levels (l : list string) : l ≡ₚ placed_keys k g ->
  omap (entityValue g (S levels)) l = omap row_at l /\ omap row_at l ≡ₚ map row (filter (fun e => is_anchor k e.2 = false) (entities g)).*2.
Proof using valid wf_entities wf_containers.
  intros Hp. split; [apply rows_at; intros key Hin; by rewrite <- Hp|]. rewrite <- placed_rows. by rewrite Hp.
Qed.

Lemma root_shown levels slot : expectedRootSlot k = Some slot ->
  materializeContainer g (S levels) (navigationRootContainerKey k slot) = omap row_at (listed g (navigationRootContainerKey k slot)) /\
  omap row_at (listed g (navigationRootContainerKey k slot)) ≡ₚ map row (filter (fun e => is_anchor k e.2 = false) (entities g)).*2.
Proof using valid wf_entities wf_containers.
  intros Hs. destruct (root_children k b g es cs valid wf_entities wf_containers slot Hs) as (c & Hc & Hp).
  unfold materializeContainer, listed. rewrite Hc. by apply shown_all.
Qed.

(** The entity a project's tiers are shown from is its anchor. *)
Lemma project_anchor p c : k = Project p c -> exists e, project_entity g p = Some e /\ exists v, (e, v) ∈ entities g /\ is_anchor k v = true.
Proof using valid.
  intros Hk. pose proof (ok_anchor _ _ _ _ _ valid) as Ha. rewrite Hk in Ha. apply bool_decide_eq_true in Ha. destruct (anchorKey es) as [a|] eqn:Hak; [|done].
  apply (valid_anchor _ _ _ _ _ _ valid) in Hak as (v & Hin & Han). unfold project_entity.
  set (q := fun e : string * json => is_text (at_key (Some e.2) "kind") "project" && isRecord (at_key (Some e.2) "value") && is_text (at_key (at_key (Some e.2) "value") "key") p).
  assert (q (a, v) = true) as Hq.
  { destruct (valid_entity _ _ _ _ _ _ _ valid Hin) as (_ & _ & _ & r & Hr). unfold q. cbn [snd]. unfold is_anchor in Han. rewrite Hk in Han, Hr. rewrite Han. unfold validateEntity, entityIdentityForResource in Hr.
    rewrite Han in Hr. destruct (entity v _); [|done]. destruct (knownKeys _ _ && _) eqn:Hkk; [|done]. apply andb_prop in Hkk as [[Hrec _]%andb_prop Hkey]. by rewrite Hrec, Hkey. }
  destruct (find q (entities g)) as [[a' v']|] eqn:Hf; [|by eapply find_none in Hf; [|by apply list_elem_of_In in Hin]; rewrite Hq in Hf].
  apply find_some in Hf as [Hin'%list_elem_of_In Hq']. exists a'. cbn [fmap option_fmap option_map snd]. destruct (valid_entity _ _ _ _ _ _ _ valid Hin') as (-> & _). split; [done|].
  exists v'. split; [done|]. unfold is_anchor. rewrite Hk. unfold q in Hq'. by apply andb_prop in Hq' as [[? _]%andb_prop _].
Qed.

Lemma tiers_shown levels p c : k = Project p c -> exists e, project_entity g p = Some e /\ str_truthy e = true /\
  let l slot := listed g (navigationOwnedContainerKey e slot) in
  (forall slot, slot ∈ tiers -> materializeContainer g (S levels) (navigationOwnedContainerKey e slot) = omap row_at (l slot)) /\
  omap row_at (l "current" ++ l "recent" ++ l "archived")%list ≡ₚ map row (filter (fun e => is_anchor k e.2 = false) (entities g)).*2.
Proof using valid wf_entities wf_containers.
  intros Hk. destruct (project_anchor p c Hk) as (e & He & v & Hin & Ha). exists e. split; [done|].
  destruct (tier_children k b g es cs valid wf_entities wf_containers e v) as (c1 & c2 & c3 & H1 & H2 & H3 & Hp); [by rewrite Hk|done..|].
  split. { destruct (valid_entity _ _ _ _ _ _ _ valid Hin) as (_ & (h & -> & _)%entity_key_form & _). destruct (scope_starts k) as [x ->]. done. }
  cbv zeta. unfold listed, materializeContainer. split; [|rewrite H1, H2, H3; by apply shown_all].
  intros slot Hs. unfold tiers in Hs. rewrite !elem_of_cons in Hs.
  assert (Hin' : forall key, key ∈ (children_of c1 ++ children_of c2 ++ children_of c3)%list -> key ∈ placed_keys k g) by (intros key; by rewrite Hp).
  destruct Hs as [->|[->|[->|Hs]]]; [rewrite H1|rewrite H2|rewrite H3|by apply elem_of_nil in Hs]; apply rows_at; intros key Hkey; apply Hin'; rewrite !elem_of_app; auto.
Qed.
End rows.

(** C24: a valid graph is shown row by row: what its resource materializes as has, in the
    order of the graph's containers, the row of every entity that has a place (every one but
    a project's own anchor) exactly once. *)
Theorem valid_graph_shows_each_once k b g :
  map_wf (entities g) -> map_wf (containers g) -> validateGraphForResource k b g = Ok tt ->
  let shown := shown_rows k (materializeNavigationResource k g) in
  shown = omap (fun key => row <$> map_get key (entities g)) (shown_keys k g) /\
  shown ≡ₚ map row (filter (fun e => is_anchor k e.2 = false) (entities g)).*2.
Proof.
  intros Hwe Hwc (es & cs & Hv)%validateGraph_ok. cbv zeta. change (fun key => row <$> map_get key (entities g)) with (row_at g).
  pose proof (fun slot => root_shown k b g es cs Hv Hwe Hwc (MAX_NAVIGATION_DEPTH + 2) slot) as Hroot.
  unfold materializeNavigationResource, shown_rows, shown_keys, root_rows in *.
  destruct k; try (rewrite obj_get_set; cbn [items expectedRootSlot] in *; destruct (Hroot _ eq_refl) as [Hr Hp]; change (S (MAX_NAVIGATION_DEPTH + 2)) with row_levels in Hr; rewrite Hr; done).
  - pose proof (ok_manifest _ _ _ _ _ Hv) as Hm. cbv beta iota in Hm. by destruct (entities g).
  - destruct (tiers_shown _ b g es cs Hv Hwe Hwc (MAX_NAVIGATION_DEPTH + 2) projectKey catalog eq_refl) as (e & He & Ht & Hr & Hp).
    change (S (MAX_NAVIGATION_DEPTH + 2)) with row_levels in Hr. rewrite He. cbn [expectedRootSlot]. unfold tier_of, owned_rows. rewrite Ht.
    rewrite !obj_get_set_ne by done. rewrite !obj_get_set. rewrite ?obj_get_set_ne by done. rewrite ?obj_get_set. rewrite ?obj_get_set_ne by done. rewrite ?obj_get_set.
    unfold sessions_of. cbn [at_key obj_get String.eqb Ascii.eqb Bool.eqb items].
    rewrite !Hr by (by apply str_in_spec). rewrite <- !omap_app. unfold tiers. cbn [mbind list_bind]. rewrite app_nil_r. by split.
  - cbn [expectedRootSlot] in *. destruct (Hroot _ eq_refl) as [Hr Hp]. change (S (MAX_NAVIGATION_DEPTH + 2)) with row_levels in Hr. rewrite Hr.
    pose proof (ok_anchor _ _ _ _ _ Hv) as Hl. cbv beta iota in Hl. apply Nat.leb_le in Hl.
    assert (length (omap (row_at g) (listed g (navigationRootContainerKey (Location ref) "session"))) <= 1)%nat as Hlen.
    { rewrite Hp, length_map, length_fmap. pose proof (length_filter (fun e => is_anchor (Location ref) e.2 = false) (entities g)). lia. }
    destruct (omap (row_at g) _) as [|r [|]]; cbn [head]; [by rewrite obj_get_unset|by rewrite obj_get_set|simpl in Hlen; lia].
Qed.

(** ** A live section of two sessions *)

Module Sample.

Definition key : ResourceKey := Section_ "live" 0 10.
Definition at_revision (n : Z) : NavigationReadBase := mkBase "g" n "e".

Definition entity_key (c : ascii) : string := navigationViewScope key ++ "/entity/" ++ string_of_list_ascii (repeat c 64).
Definition root_key : string := navigationRootContainerKey key "sessions".

(** A session, with a property of a later version. *)
Definition session (ref title : string) : json :=
  JObj [("ref", JStr ref); ("host_id", JStr "h"); ("session_id", JStr ref); ("title", JStr title); ("project", JStr EmptyString); ("state", JStr "idle"); ("kind", JStr "chat");
        ("live", JBool true); ("children", JArr []); ("later", JNum 1)].

Definition record (c : ascii) (title : string) : json :=
  JObj [("key", JStr (entity_key c)); ("kind", JStr "session"); ("value", session (String c EmptyString) title)].

Definition no_children (c : ascii) : json :=
  JObj [("key", JStr (navigationOwnedContainerKey (entity_key c) "children"));
        ("owner", JObj [("kind", JStr "entity"); ("entityKey", JStr (entity_key c)); ("slot", JStr "children")]); ("children", JArr [])].

Definition listing (cs : list ascii) : json :=
  JObj [("key", JStr root_key); ("owner", JObj [("kind", JStr "resource_root"); ("slot", JStr "sessions")]); ("children", JArr (map (fun c => JStr (entity_key c)) cs))].

Definition page_metadata (n : Z) : json :=
  JObj [("generation_id", JStr "g"); ("revision", JNum n); ("offset", JNum 0); ("limit", JNum 10); ("remaining", JNum 0); ("truncated", JBool false)].

Definition snapshot_data : json :=
  JObj [("metadata", page_metadata 1); ("entities", JArr [record "a" "one"; record "b" "two"]); ("containers", JArr [listing ["b"; "a"]%char; no_children "a"; no_children "b"])].

Definition response (n : Z) (representation : list (string * json)) : json :=
  JObj ([("status", JStr "ok"); ("generationId", JStr "g"); ("revision", JNum n); ("etag", JStr "e")] ++ representation)%list.

Definition snapshot_wire : json := response 1 [("representation", JStr "snapshot"); ("data", snapshot_data)].

Definition snapshot : NavigationSnapshot := knownSnapshot key (Some snapshot_data).

Definition shown_snapshot : NormalizedResource * nat := snapshotResource key (at_revision 1) snapshot 0.

(** The second session is renamed, the first one gone. *)
Definition delta_data : json :=
  JObj [("metadata", page_metadata 2); ("upsertedEntities", JArr [record "b" "renamed"]); ("removedEntityKeys", JArr [JStr (entity_key "a")]);
        ("upsertedContainers", JArr [listing ["b"]%char]); ("removedContainerKeys", JArr [JStr (navigationOwnedContainerKey (entity_key "a") "children")])].

Definition base_wire : json := JObj [("generationId", JStr "g"); ("revision", JNum 1); ("etag", JStr "e")].

Definition delta_wire : json := response 2 [("representation", JStr "delta"); ("base", base_wire); ("data", delta_data)].

Definition delta : NavigationDelta := knownDelta key (Some delta_data).

End Sample.

Lemma decoded_snapshot_is_typed_witness :
  decodeNavigationResponse Sample.key None (Some Sample.snapshot_wire) = Ok (Snapshot (Sample.at_revision 1) Sample.snapshot) /\
  validateGraphForResource Sample.key (Sample.at_revision 1) (plain (normalizedGraphFromSnapshot Sample.snapshot 0).1) = Ok tt.
Proof.
  assert (decodeNavigationResponse Sample.key None (Some Sample.snapshot_wire) = Ok (Snapshot (Sample.at_revision 1) Sample.snapshot)) as Hd by (vm_compute; reflexivity).
  split; [exact Hd|]. exact (proj1 (decoded_snapshot_is_typed Sample.key None (Some Sample.snapshot_wire) (Sample.at_revision 1) Sample.snapshot 0 Hd)).
Defined.

Lemma example_held : graph_before Sample.shown_snapshot.2 (r_graph Sample.shown_snapshot.1).
Proof.
  unfold Sample.shown_snapshot, snapshotResource. pose proof (snapshot_between Sample.snapshot 0) as H.
  destruct (normalizedGraphFromSnapshot Sample.snapshot 0). by destruct H as (_ & H & _).
Qed.

Lemma delta_changes_what_it_names_witness :
  decodeNavigationResponse Sample.key (Some (Sample.at_revision 1)) (Some Sample.delta_wire) = Ok (Delta (Sample.at_revision 2) (Sample.at_revision 1) Sample.delta) /\
  exists g next', graph_before next' g /\ patched_graph Sample.shown_snapshot.2 Sample.delta (r_graph Sample.shown_snapshot.1) g /\
    applyDelta Sample.shown_snapshot.1 Sample.delta (Sample.at_revision 2) Sample.shown_snapshot.2 = Ok (mkResource Sample.key g (Sample.at_revision 2) "present", next').
Proof.
  assert (decodeNavigationResponse Sample.key (Some (Sample.at_revision 1)) (Some Sample.delta_wire) = Ok (Delta (Sample.at_revision 2) (Sample.at_revision 1) Sample.delta)) as Hd
    by (vm_compute; reflexivity).
  split; [exact Hd|].
  destruct (delta_changes_what_it_names Sample.key (Some (Sample.at_revision 1)) (Some Sample.delta_wire) (Sample.at_revision 2) (Sample.at_revision 1) Sample.delta
    Sample.shown_snapshot.1 Sample.shown_snapshot.2 Hd example_held) as (g & next' & _ & Hb & Hp & Ha).
  assert (exists r, applyDelta Sample.shown_snapshot.1 Sample.delta (Sample.at_revision 2) Sample.shown_snapshot.2 = Ok r) as [r Hr] by (eexists; vm_compute; reflexivity).
  exists g, next'. split; [exact Hb|]. split; [exact Hp|]. rewrite Hr in Ha. destruct (validateGraphForResource _ _ (plain g)); [rewrite Hr; exact Ha|discriminate Ha].
Defined.

Lemma snapshot_keeps_unchanged_objects_witness :
  let '(incoming, next) := snapshotResource Sample.key (Sample.at_revision 2) (knownSnapshot Sample.key (Some Sample.snapshot_data)) Sample.shown_snapshot.2 in
  exists g, forall key, map_get key (g_entities g) = adopted sameEntity (map_get key (g_entities (r_graph Sample.shown_snapshot.1))) (map_get key (g_entities (r_graph incoming))).
Proof.
  pose proof (snapshot_keeps_unchanged_objects Sample.key (Sample.at_revision 2) (knownSnapshot Sample.key (Some Sample.snapshot_data)) Sample.shown_snapshot.1 Sample.shown_snapshot.2 example_held) as H.
  destruct (snapshotResource _ _ _ _) as [incoming next]. destruct H as (g & next' & _ & _ & He & _). exists g. exact He.
Defined.

Lemma valid_graph_shows_each_once_witness :
  let g := plain (r_graph Sample.shown_snapshot.1) in
  length (shown_rows Sample.key (materializeNavigationResource Sample.key g)) = 2%nat /\
  shown_rows Sample.key (materializeNavigationResource Sample.key g) ≡ₚ map row (filter (fun e => is_anchor Sample.key e.2 = false) (entities g)).*2.
Proof.
  split; [vm_compute; reflexivity|].
  refine (proj2 (valid_graph_shows_each_once Sample.key (Sample.at_revision 1) (plain (r_graph Sample.shown_snapshot.1)) _ _ _)); [apply (bool_decide_unpack _); vm_compute; exact I..|vm_compute; reflexivity].
Defined.
