(* ===== verification/NavigationRevalidator.v ===== *)
(** Which resources an invalidation names (state/navigation/invalidation.ts), and the
    coordinator that re-reads them (state/navigation/revalidator.ts, class
    NavigationRevalidator, both of appwire-client/typescript).

    Entries and runs are objects of a heap; an await splits a run into the request, its
    answer, the continuation that lands it and the one that finishes it. Listeners run
    inside an emit and may call back: what they call at each emit is the environment's. *)

From S2P Require Import Prelude JsString Json NavigationKeys.

Local Open Scope string_scope.
Local Open Scope Z_scope.

(** ** Targets *)

Record NavigationInvalidationTarget := mkTarget {
  target_kind : string; target_section : option string; target_sectionId : option string; target_catalog : option string;
  target_projectKey : option string; revision : option Z }.

Record NavigationInvalidatedPayload := mkPayload { generationId : string; sequence : Z; payload_targets : list NavigationInvalidationTarget }.

Definition is_text (v : option string) (s : string) : bool := bool_decide (v = Some s).

(** [!!v && s === v]. *)
Definition is_named (v : option string) (s : string) : bool := match v with Some t => str_truthy t && String.eqb s t | None => false end.

Definition matchesTarget (k : ResourceKey) (t : NavigationInvalidationTarget) : bool :=
  if String.eqb (target_kind t) "all_loaded_projects" then isProjectResource k
  else if String.eqb (target_kind t) "manifest" then match k with Manifest => true | _ => false end
  else if String.eqb (target_kind t) "pin_catalog" then match k with PinCatalog _ _ => true | _ => false end
  else if String.eqb (target_kind t) "section" then match k with Section_ s _ _ => is_text (target_section t) s | _ => false end
  else if String.eqb (target_kind t) "catalog" then match k with Catalog c _ _ => is_text (target_catalog t) c | _ => false end
  else if String.eqb (target_kind t) "pin_section" then match k with PinSection s _ _ => is_named (target_sectionId t) s | _ => false end
  else if String.eqb (target_kind t) "project"
       then match k with Project p _ | ProjectPage p _ _ _ _ => is_named (target_projectKey t) p | _ => false end
  else false.

Definition matchingTargets (k : ResourceKey) (ts : list NavigationInvalidationTarget) : list NavigationInvalidationTarget :=
  List.filter (matchesTarget k) ts.

Definition requiredRevision (k : ResourceKey) (ts : list NavigationInvalidationTarget) : Z :=
  foldr (fun t n => Z.max n (default 0 (revision t))) 0 (matchingTargets k ts).

Definition isSequenceGap (lastSequence sequence : Z) : bool := lastSequence + 1 <? sequence.

Definition matchesConvergenceTarget (k : ResourceKey) (t : NavigationInvalidationTarget) : bool := is_location k || matchesTarget k t.

(** ** Resources *)

(** What the coordinator reads of a normalized resource. *)
Record NormalizedResource := mkNormalized { normalized_version : NavigationReadBase; presence : string; graph : json }.

(** Why a read failed: the coordinator's own refusals, a base the hub forgot, anything
    else a request throws. *)
Inductive Cause := ProtocolError (message : string) | NavigationBaseInvalid | RequestError (e : json).

(** [data]: null before the first read. *)
Record ResourceState := mkState {
  key : ResourceKey; data : json; loadedRevision : option Z; targetRevision : option Z; forceToken : nat; etag : option string;
  loading : bool; stale : bool; error : option Cause; generationID : string; version : option NavigationReadBase;
  normalized : option NormalizedResource }.

Record NavigationResponse := mkResponse {
  status : Z; response_generation : string; response_revision : Z; response_etag : string; response_data : option json;
  response_normalized : option NormalizedResource }.

Definition usableNavigationBase (x : ResourceState) : option NavigationReadBase :=
  match version x, normalized x with
  | Some b, Some n => if bool_decide (normalized_version n = b) then Some b else None
  | _, _ => None
  end.

Definition MAX_SAFE_INTEGER : Z := 2 ^ 53 - 1.

(** The protocol error a response is refused with. *)
Definition validate (r : NavigationResponse) (generation : string) (cachedETag : option string) : option string :=
  if negb (status r =? 200) && negb (status r =? 304) then Some "status must be exact 200 or 304"
  else if negb (String.eqb (response_generation r) generation) then Some "generation mismatch"
  else if negb (Z.abs (response_revision r) <=? MAX_SAFE_INTEGER) || (response_revision r <? 0) then Some "revision mismatch"
  else if negb (str_truthy (response_etag r)) then Some "ETag mismatch"
  else if (status r =? 200) && bool_decide (response_data r = None) then Some "200 requires body"
  else if (status r =? 304) && (negb (bool_decide (response_data r = None)) || negb (bool_decide (cachedETag = Some (response_etag r))))
       then Some "304 cache/body contradiction"
  else None.

(** *** The states a resource goes through *)

Definition unread (k : ResourceKey) (generation : string) : ResourceState :=
  mkState k JNull None None 0 None false true None generation None None.

Definition raised (next : option Z) (token : nat) (x : ResourceState) : ResourceState :=
  mkState (key x) (data x) (loadedRevision x) next token (etag x) (loading x) true None (generationID x) (version x) (normalized x).

Definition started (x : ResourceState) : ResourceState :=
  mkState (key x) (data x) (loadedRevision x) (targetRevision x) (forceToken x) (etag x) true (stale x) None (generationID x) (version x) (normalized x).

Definition failed (c : Cause) (x : ResourceState) : ResourceState :=
  mkState (key x) (data x) (loadedRevision x) (targetRevision x) (forceToken x) (etag x) false true (Some c) (generationID x) (version x) (normalized x).

Definition rebased (token : nat) (x : ResourceState) : ResourceState :=
  mkState (key x) (data x) (loadedRevision x) (targetRevision x) token None false true None (generationID x) None (normalized x).

Definition regenerated (generation : string) (x : ResourceState) : ResourceState :=
  mkState (key x) (data x) None None (forceToken x) None false true None generation None (normalized x).

Definition read (r : NavigationResponse) (x : ResourceState) : ResourceState :=
  let cached := status r =? 304 in
  mkState (key x) (if cached then data x else default JNull (response_data r)) (Some (response_revision r)) (Some (response_revision r)) (forceToken x)
    (Some (response_etag r)) false false None (generationID x) (Some (mkBase (response_generation r) (response_revision r) (response_etag r)))
    (if cached then normalized x else response_normalized r).

(** ** The coordinator *)

Record Entry := mkEntry {
  state : ResourceState; request : bool; controller : option nat; promise : option nat; rerun : bool; recoveringBase : bool; entryEpoch : nat }.

(** How a request came out, and how far its run came. *)
Inductive Answer := Responded (r : NavigationResponse) | Threw (c : Cause).

Inductive RunPhase := Preparing | Requested (base : option NavigationReadBase) | Answered (a : Answer) | Landed | Finished.

(** [object]: the entry it reads for; the rest is what [start] captured. *)
Record Run := mkRun { object : nat; runEpoch : nat; generation : string; requestedForce : nat; aborted : bool; phase : RunPhase }.

Record TargetWaiter := mkWaiter { targets : list NavigationInvalidationTarget; waiter_generation : string; keys : option (list ResourceKey) }.

Inductive WaitResult := Converged | Notified (p : NavigationInvalidatedPayload) | Refused (message : string).

Record Revalidator := mkRevalidator {
  generationIDValue : string; epoch : nat; forceSequence : nat; lastSequence : Z; disposed : bool;
  (** the map of live entries, in insertion order *)
  entries : list (ResourceKey * nat);
  heap : list Entry;
  runs : list Run;
  targetWaiters : list (nat * TargetWaiter);
  invalidationWaiters : list (nat * (NavigationInvalidatedPayload -> bool));
  (** waits whose promise settled *)
  waits : list (nat * WaitResult);
  nextWait : nat;
  tick : nat
}.

Definition put_generation (v : string) (s : Revalidator) : Revalidator :=
  mkRevalidator v (epoch s) (forceSequence s) (lastSequence s) (disposed s) (entries s) (heap s) (runs s) (targetWaiters s) (invalidationWaiters s) (waits s) (nextWait s) (tick s).
Definition put_epoch (v : nat) (s : Revalidator) : Revalidator :=
  mkRevalidator (generationIDValue s) v (forceSequence s) (lastSequence s) (disposed s) (entries s) (heap s) (runs s) (targetWaiters s) (invalidationWaiters s) (waits s) (nextWait s) (tick s).
Definition put_forceSequence (v : nat) (s : Revalidator) : Revalidator :=
  mkRevalidator (generationIDValue s) (epoch s) v (lastSequence s) (disposed s) (entries s) (heap s) (runs s) (targetWaiters s) (invalidationWaiters s) (waits s) (nextWait s) (tick s).
Definition put_lastSequence (v : Z) (s : Revalidator) : Revalidator :=
  mkRevalidator (generationIDValue s) (epoch s) (forceSequence s) v (disposed s) (entries s) (heap s) (runs s) (targetWaiters s) (invalidationWaiters s) (waits s) (nextWait s) (tick s).
Definition put_disposed (v : bool) (s : Revalidator) : Revalidator :=
  mkRevalidator (generationIDValue s) (epoch s) (forceSequence s) (lastSequence s) v (entries s) (heap s) (runs s) (targetWaiters s) (invalidationWaiters s) (waits s) (nextWait s) (tick s).
Definition put_entries (v : list (ResourceKey * nat)) (s : Revalidator) : Revalidator :=
  mkRevalidator (generationIDValue s) (epoch s) (forceSequence s) (lastSequence s) (disposed s) v (heap s) (runs s) (targetWaiters s) (invalidationWaiters s) (waits s) (nextWait s) (tick s).
Definition put_heap (v : list Entry) (s : Revalidator) : Revalidator :=
  mkRevalidator (generationIDValue s) (epoch s) (forceSequence s) (lastSequence s) (disposed s) (entries s) v (runs s) (targetWaiters s) (invalidationWaiters s) (waits s) (nextWait s) (tick s).
Definition put_runs (v : list Run) (s : Revalidator) : Revalidator :=
  mkRevalidator (generationIDValue s) (epoch s) (forceSequence s) (lastSequence s) (disposed s) (entries s) (heap s) v (targetWaiters s) (invalidationWaiters s) (waits s) (nextWait s) (tick s).
Definition put_targetWaiters (v : list (nat * TargetWaiter)) (s : Revalidator) : Revalidator :=
  mkRevalidator (generationIDValue s) (epoch s) (forceSequence s) (lastSequence s) (disposed s) (entries s) (heap s) (runs s) v (invalidationWaiters s) (waits s) (nextWait s) (tick s).
Definition put_invalidationWaiters (v : list (nat * (NavigationInvalidatedPayload -> bool))) (s : Revalidator) : Revalidator :=
  mkRevalidator (generationIDValue s) (epoch s) (forceSequence s) (lastSequence s) (disposed s) (entries s) (heap s) (runs s) (targetWaiters s) v (waits s) (nextWait s) (tick s).
Definition put_waits (v : list (nat * WaitResult)) (s : Revalidator) : Revalidator :=
  mkRevalidator (generationIDValue s) (epoch s) (forceSequence s) (lastSequence s) (disposed s) (entries s) (heap s) (runs s) (targetWaiters s) (invalidationWaiters s) v (nextWait s) (tick s).
Definition put_nextWait (v : nat) (s : Revalidator) : Revalidator :=
  mkRevalidator (generationIDValue s) (epoch s) (forceSequence s) (lastSequence s) (disposed s) (entries s) (heap s) (runs s) (targetWaiters s) (invalidationWaiters s) (waits s) v (tick s).
Definition tock (s : Revalidator) : Revalidator :=
  mkRevalidator (generationIDValue s) (epoch s) (forceSequence s) (lastSequence s) (disposed s) (entries s) (heap s) (runs s) (targetWaiters s) (invalidationWaiters s) (waits s) (nextWait s) (S (tick s)).

Definition new_revalidator (generation : string) : Revalidator := mkRevalidator generation 0 0 0 false [] [] [] [] [] [] 0 0.

(** ** Entries *)

Definition entry_of (k : ResourceKey) (s : Revalidator) : option nat := snd <$> (snd <$> list_find (fun x => x.1 = k) (entries s)).

(** The object is the one the map holds under its key. *)
Definition is_live (i : nat) (s : Revalidator) : bool :=
  match heap s !! i with Some e => bool_decide (entry_of (key (state e)) s = Some i) | None => false end.

Definition on_entry (i : nat) (f : Entry -> Entry) (s : Revalidator) : Revalidator := put_heap (alter f i (heap s)) s.
Definition on_run (r : nat) (f : Run -> Run) (s : Revalidator) : Revalidator := put_runs (alter f r (runs s)) s.

Definition with_state (f : ResourceState -> ResourceState) (e : Entry) : Entry :=
  mkEntry (f (state e)) (request e) (controller e) (promise e) (rerun e) (recoveringBase e) (entryEpoch e).
Definition with_request (e : Entry) : Entry := mkEntry (state e) true (controller e) (promise e) (rerun e) (recoveringBase e) (entryEpoch e).
Definition with_controller (c : option nat) (e : Entry) : Entry := mkEntry (state e) (request e) c (promise e) (rerun e) (recoveringBase e) (entryEpoch e).
Definition with_promise (p : option nat) (e : Entry) : Entry := mkEntry (state e) (request e) (controller e) p (rerun e) (recoveringBase e) (entryEpoch e).
Definition with_rerun (b : bool) (e : Entry) : Entry := mkEntry (state e) (request e) (controller e) (promise e) b (recoveringBase e) (entryEpoch e).
Definition with_recovering (b : bool) (e : Entry) : Entry := mkEntry (state e) (request e) (controller e) (promise e) (rerun e) b (entryEpoch e).
Definition with_epoch (n : nat) (e : Entry) : Entry := mkEntry (state e) (request e) (controller e) (promise e) (rerun e) (recoveringBase e) n.

Definition at_phase (p : RunPhase) (r : Run) : Run := mkRun (object r) (runEpoch r) (generation r) (requestedForce r) (aborted r) p.
Definition abort_run (r : Run) : Run := mkRun (object r) (runEpoch r) (generation r) (requestedForce r) true (phase r).

(** [controller?.abort()]. *)
Definition abort (e : Entry) (s : Revalidator) : Revalidator := match controller e with Some r => on_run r abort_run s | None => s end.

(** [entry]: the live entry of a key, made on first use. *)
Definition entry (k : ResourceKey) (s : Revalidator) : nat * Revalidator :=
  match entry_of k s with
  | Some i => (i, s)
  | None =>
      let i := length (heap s) in
      (i, put_entries (entries s ++ [(k, i)])%list (put_heap (heap s ++ [mkEntry (unread k (generationIDValue s)) false None None false false (epoch s)])%list s))
  end.

Definition loadedKeys (s : Revalidator) : list ResourceKey := (entries s).*1.

(** ** Waiters *)

Definition in_keys (keys : option (list ResourceKey)) (k : ResourceKey) : bool := match keys with None => true | Some l => bool_decide (k ∈ l) end.

(** What a target obliges a live entry to have reached. *)
Definition has_reached (t : NavigationInvalidationTarget) (x : ResourceState) : bool :=
  let r := if is_location (key x) then None else revision t in
  negb (loading x) && negb (stale x) && bool_decide (error x = None) &&
  match loadedRevision x with Some l => match r with Some r => r <=? l | None => true end | None => false end.

Definition concerned (keys : option (list ResourceKey)) (t : NavigationInvalidationTarget) (x : ResourceState) : bool :=
  in_keys keys (key x) && matchesConvergenceTarget (key x) t.

Definition live_entries (s : Revalidator) : list Entry := omap (fun x => heap s !! x.2) (entries s).

Definition targetsSatisfied (w : TargetWaiter) (s : Revalidator) : bool :=
  String.eqb (waiter_generation w) (generationIDValue s) &&
  forallb (fun t => forallb (fun e => negb (concerned (keys w) t (state e)) || has_reached t (state e)) (live_entries s)) (targets w).

Definition is_error (x : ResourceState) : bool := match error x with Some _ => true | None => false end.

Definition targetFailed (w : TargetWaiter) (s : Revalidator) : bool :=
  existsb (fun t => existsb (fun e => concerned (keys w) t (state e) && is_error (state e) && negb (rerun e)) (live_entries s)) (targets w).

(** How a waiter settles now, if it does. *)
Definition verdict (s : Revalidator) (w : TargetWaiter) : option WaitResult :=
  if negb (String.eqb (waiter_generation w) (generationIDValue s)) then Some (Refused "generation mismatch")
  else if targetFailed w s then Some (Refused "target convergence failed")
  else if targetsSatisfied w s then Some Converged
  else None.

Definition resolveTargetWaiters (s : Revalidator) : Revalidator :=
  put_targetWaiters (filter (fun x => verdict s x.2 = None) (targetWaiters s))
    (put_waits (waits s ++ omap (fun x => (fun r => (x.1, r)) <$> verdict s x.2) (targetWaiters s))%list s).

(** Every waiter rejected, of both kinds. *)
Definition reject_all (m : string) (s : Revalidator) : Revalidator :=
  put_invalidationWaiters [] (put_targetWaiters []
    (put_waits (waits s ++ ((fun x => (x.1, Refused m)) <$> targetWaiters s) ++ ((fun x => (x.1, Refused m)) <$> invalidationWaiters s))%list s)).

(** A wait that is over as soon as it begins. *)
Definition settle_wait (r : WaitResult) (s : Revalidator) : Revalidator := put_nextWait (S (nextWait s)) (put_waits (waits s ++ [(nextWait s, r)])%list s).

Definition waitForTargets (ts : list NavigationInvalidationTarget) (generationID : option string) (ks : option (list ResourceKey)) (s : Revalidator) : Revalidator :=
  let g := default (generationIDValue s) generationID in
  let w := mkWaiter ts g ks in
  if negb (String.eqb g (generationIDValue s)) then settle_wait (Refused "generation mismatch") s
  else if targetsSatisfied w s then settle_wait Converged s
  else resolveTargetWaiters (put_nextWait (S (nextWait s)) (put_targetWaiters (targetWaiters s ++ [(nextWait s, w)])%list s)).

Definition waitForInvalidation (predicate : NavigationInvalidatedPayload -> bool) (s : Revalidator) : Revalidator :=
  if disposed s then settle_wait (Refused "revalidator disposed") s
  else put_nextWait (S (nextWait s)) (put_invalidationWaiters (invalidationWaiters s ++ [(nextWait s, predicate)])%list s).

(** The [cancel] of a wait: settled already, its rejection is no news. *)
Definition cancel (id : nat) (s : Revalidator) : Revalidator :=
  if bool_decide (id ∈ (invalidationWaiters s).*1)
  then put_invalidationWaiters (filter (fun x => x.1 <> id) (invalidationWaiters s)) (put_waits (waits s ++ [(id, Refused "invalidation waiter cancelled")])%list s)
  else s.

Definition notifyInvalidation (p : NavigationInvalidatedPayload) (s : Revalidator) : Revalidator :=
  put_invalidationWaiters (filter (fun x => x.2 p = false) (invalidationWaiters s))
    (put_waits (waits s ++ ((fun x => (x.1, Notified p)) <$> filter (fun x => x.2 p = true) (invalidationWaiters s)))%list s).

Definition acceptSequence (n : Z) (s : Revalidator) : Revalidator * bool :=
  (put_lastSequence (Z.max (lastSequence s) n) s, isSequenceGap (lastSequence s) n).

(** ** Methods that emit *)

Inductive Call :=
  | Load (k : ResourceKey) | Track (k : ResourceKey) | Release (k : ResourceKey)
  | Force (ks : list ResourceKey) | ForceLocations | Invalidate (t : NavigationInvalidationTarget)
  | ResetGeneration (g : string) | Dispose
  | WaitForTargets (ts : list NavigationInvalidationTarget) (g : option string) (ks : option (list ResourceKey))
  | WaitForInvalidation (predicate : NavigationInvalidatedPayload -> bool) | Cancel (id : nat)
  | NotifyInvalidation (p : NavigationInvalidatedPayload) | ApplyInvalidation (p : NavigationInvalidatedPayload).

(** What the listeners call, by how often the coordinator emitted and the state they are
    shown. *)
Definition Environment := nat -> ResourceState -> list Call.

Section emitting.
(** [emit i]: the state of entry [i] is shown. *)
Context (emit : nat -> Revalidator -> Revalidator) (rounds : nat).

(** A method goes through the map's entries while its listeners may change it: those there
    from the start that are still live, then [rounds] of those added meanwhile. *)
Definition visit (body : nat -> Revalidator -> Revalidator) (i : nat) (s : Revalidator) : Revalidator := if is_live i s then body i s else s.

Fixpoint added (n from : nat) (body : nat -> Revalidator -> Revalidator) (s : Revalidator) : Revalidator :=
  match n with
  | O => s
  | S n =>
      match list_find (fun x => (from <= x.2)%nat) (entries s) with
      | Some (_, (_, i)) => added n (S i) body (visit body i s)
      | None => s
      end
  end.

Definition each_entry (body : nat -> Revalidator -> Revalidator) (s : Revalidator) : Revalidator :=
  added rounds (length (heap s)) body (foldl (fun s i => visit body i s) s (entries s).*2).

(** [start], up to its first await. *)
Definition start (i : nat) (s : Revalidator) : Revalidator :=
  match heap s !! i with
  | None => s
  | Some e =>
      if negb (request e) || disposed s || negb (is_live i s) then s
      else
        let r := length (runs s) in
        let s := put_runs (runs s ++ [mkRun i (epoch s) (generationIDValue s) (forceToken (state e)) false Preparing])%list s in
        let s := emit i (on_entry i (fun e => with_state started (with_controller (Some r) (with_epoch (epoch s) e))) s) in
        if disposed s || negb (is_live i s) then on_run r (fun x => at_phase Finished (abort_run x)) s
        else
          let base := match heap s !! i with Some e => usableNavigationBase (state e) | None => None end in
          on_entry i (with_promise (Some r)) (on_run r (at_phase (Requested base)) s)
  end.

Definition fail (i : nat) (c : Cause) (s : Revalidator) : Revalidator := emit i (on_entry i (with_state (failed c)) s).

Definition recoverInvalidBase (i : nat) (s : Revalidator) : Revalidator :=
  match heap s !! i with
  | None => s
  | Some e =>
      if recoveringBase e then fail i NavigationBaseInvalid s
      else
        let token := S (forceSequence s) in
        emit i (on_entry i (fun e => with_state (rebased token) (with_rerun true (with_recovering true e))) (put_forceSequence token s))
  end.

(** [Math.max(a ?? -1, b ?? -1)]. *)
Definition later (a b : option Z) : Z := Z.max (default (-1) a) (default (-1) b).

Definition raise (i : nat) (rev : option Z) (forced : bool) (s : Revalidator) : Revalidator :=
  match heap s !! i with
  | None => s
  | Some e =>
      let next := if forced then targetRevision (state e) else Some (later (targetRevision (state e)) rev) in
      if negb forced && bool_decide (next = targetRevision (state e)) && stale (state e) then s
      else
        let token := if forced then S (forceSequence s) else forceToken (state e) in
        let s := if forced then put_forceSequence token s else s in
        let s := emit i (on_entry i (with_state (raised next token)) s) in
        match heap s !! i with
        | None => s
        | Some e =>
            if bool_decide (promise e = None)
            then if request e && is_live i s then start i s else s
            else on_entry i (with_rerun true) s
        end
  end.

Definition invalidate (t : NavigationInvalidationTarget) (s : Revalidator) : Revalidator :=
  if disposed s then s
  else each_entry (fun i s => match heap s !! i with
                              | Some e => if matchesTarget (key (state e)) t then raise i (revision t) false s else s
                              | None => s
                              end) s.

Definition force (ks : list ResourceKey) (s : Revalidator) : Revalidator :=
  if disposed s then s
  else foldl (fun s k => match entry_of k s with Some i => raise i None true s | None => s end) s ks.

Definition forceLocations (s : Revalidator) : Revalidator := force (List.filter is_location (loadedKeys s)) s.

Definition reset_entry (g : string) (i : nat) (s : Revalidator) : Revalidator :=
  match heap s !! i with
  | None => s
  | Some e =>
      let s := emit i (on_entry i (fun e => with_state (regenerated g)
                 (mkEntry (state e) (request e) None None false false (epoch s))) (abort e s)) in
      match heap s !! i with Some e => if request e then start i s else s | None => s end
  end.

Definition resetGeneration (g : string) (s : Revalidator) : Revalidator :=
  if disposed s || String.eqb g (generationIDValue s) then s
  else each_entry (reset_entry g) (put_lastSequence 0 (put_epoch (S (epoch s)) (put_generation g (reject_all "generation mismatch" s)))).

Definition is_null (v : json) : bool := match v with JNull => true | _ => false end.

Definition load (k : ResourceKey) (s : Revalidator) : Revalidator :=
  if disposed s then s
  else
    let '(i, s) := entry k s in
    let s := on_entry i with_request s in
    match heap s !! i with
    | None => s
    | Some e =>
        if negb (bool_decide (promise e = None)) then s
        else if negb (stale (state e)) &&
                (negb (is_null (data (state e))) || match normalized (state e) with Some n => String.eqb (presence n) "gone" | None => false end)
             then s
        else start i s
    end.

Definition track (k : ResourceKey) (s : Revalidator) : Revalidator :=
  if disposed s then s else let '(i, s) := entry k s in on_entry i with_request s.

Definition release (k : ResourceKey) (s : Revalidator) : Revalidator :=
  if disposed s then s
  else match entry_of k s with
       | None => s
       | Some i =>
           let s := on_entry i (with_epoch (S (epoch s))) s in
           let s := match heap s !! i with Some e => abort e s | None => s end in
           resolveTargetWaiters (put_entries (filter (fun x => x.1 <> k) (entries s)) s)
       end.

Definition dispose (s : Revalidator) : Revalidator :=
  if disposed s then s
  else reject_all "revalidator disposed" (put_entries [] (foldl (fun s e => abort e s) (put_disposed true s) (live_entries s))).

Definition applyNavigationInvalidation (p : NavigationInvalidatedPayload) (s : Revalidator) : Revalidator :=
  let s := if String.eqb (generationId p) (generationIDValue s) then s else resetGeneration (generationId p) s in
  let '(s, gap) := acceptSequence (sequence p) s in
  let s := if gap then force (loadedKeys s) s else s in
  let s := foldl (fun s t => invalidate t s) s (payload_targets p) in
  if gap then s else forceLocations s.

Definition call (c : Call) (s : Revalidator) : Revalidator :=
  match c with
  | Load k => load k s
  | Track k => track k s
  | Release k => release k s
  | Force ks => force ks s
  | ForceLocations => forceLocations s
  | Invalidate t => invalidate t s
  | ResetGeneration g => resetGeneration g s
  | Dispose => dispose s
  | WaitForTargets ts g ks => waitForTargets ts g ks s
  | WaitForInvalidation p => waitForInvalidation p s
  | Cancel id => cancel id s
  | NotifyInvalidation p => notifyInvalidation p s
  | ApplyInvalidation p => applyNavigationInvalidation p s
  end.

(** *** The continuations of a run *)

(** [.then]: the response lands, or is refused. *)
Definition responded (x : Run) (resp : NavigationResponse) (s : Revalidator) : Revalidator :=
  let i := object x in
  match heap s !! i with
  | None => s
  | Some e =>
      if disposed s || negb (runEpoch x =? epoch s)%nat || negb (String.eqb (generation x) (generationIDValue s)) || negb (entryEpoch e =? runEpoch x)%nat then s
      else match validate resp (generation x) (etag (state e)) with
           | Some m => fail i (ProtocolError m) s
           | None =>
               if (response_revision resp <? default (-1) (loadedRevision (state e))) || (response_revision resp <? default (-1) (targetRevision (state e))) ||
                  negb (requestedForce x =? forceToken (state e))%nat
               then fail i (ProtocolError "late, below-target, or superseded response") (on_entry i (with_rerun true) s)
               else emit i (on_entry i (fun e => with_state (read resp) (with_rerun false (with_recovering false e))) s)
           end
  end.

(** [.catch]. *)
Definition threw (x : Run) (c : Cause) (s : Revalidator) : Revalidator :=
  if aborted x then s
  else match c with NavigationBaseInvalid => recoverInvalidBase (object x) s | _ => fail (object x) c s end.

Definition land (r : nat) (s : Revalidator) : Revalidator :=
  match runs s !! r with
  | Some x =>
      match phase x with
      | Answered a =>
          let s := on_run r (at_phase Landed) s in
          match a with Responded resp => responded x resp s | Threw c => threw x c s end
      | _ => s
      end
  | None => s
  end.

(** The last [.then]: the promise of the entry is given up, and a trailing run begins. *)
Definition finish (r : nat) (s : Revalidator) : Revalidator :=
  match runs s !! r with
  | Some x =>
      match phase x with
      | Landed =>
          let i := object x in
          let s := on_run r (at_phase Finished) s in
          match heap s !! i with
          | None => s
          | Some e =>
              if bool_decide (promise e = Some r) && (entryEpoch e =? runEpoch x)%nat
              then
                let s := on_entry i (fun e => with_promise None (with_controller None e)) s in
                if rerun e then start i (on_entry i (with_rerun false) s) else s
              else s
          end
      | _ => s
      end
  | None => s
  end.

End emitting.

(** ** Events *)

Section environment.
Context (env : Environment) (rounds : nat).

(** [fuel] bounds how deep listeners nest. *)
Fixpoint emit (fuel : nat) (i : nat) (s : Revalidator) : Revalidator :=
  resolveTargetWaiters
    (match fuel with
     | O => s
     | S fuel =>
         if disposed s then s
         else foldl (fun s c => call (emit fuel) rounds c s) (tock s) (match heap s !! i with Some e => env (tick s) (state e) | None => [] end)
     end).

Inductive Event := Called (c : Call) | Answers (r : nat) (a : Answer) | Lands (r : nat) | Finishes (r : nat).

(** The request of a run settles. *)
Definition answers (r : nat) (a : Answer) (s : Revalidator) : Revalidator :=
  match runs s !! r with
  | Some x => match phase x with Requested _ => on_run r (at_phase (Answered a)) s | _ => s end
  | None => s
  end.

Definition take (fuel : nat) (e : Event) (s : Revalidator) : Revalidator :=
  match e with
  | Called c => call (emit fuel) rounds c s
  | Answers r a => answers r a s
  | Lands r => land (emit fuel) r s
  | Finishes r => finish (emit fuel) r s
  end.

Definition run (fuel : nat) (es : list Event) (s : Revalidator) : Revalidator := foldl (fun s e => take fuel e s) s es.

End environment.
