(* ===== verification/NavigationSteps.v ===== *)
(** The coordinator's methods as sequences of atomic steps, and what every sequence keeps.

    A method runs its listeners in its middle; between two of its own steps anything a
    listener may call happens. So each method is shown to be a sequence of atomic steps,
    and invariants are proved of a step. *)

From S2P Require Import Prelude JsString Json NavigationKeys NavigationRevalidator.

Local Open Scope string_scope.
Local Open Scope Z_scope.

(** ** Steps *)

(** The parts the steps are about. *)
Record same_core (s s' : Revalidator) : Prop := {
  sc_generation : generationIDValue s' = generationIDValue s; sc_epoch : epoch s' = epoch s; sc_force : forceSequence s' = forceSequence s;
  sc_disposed : disposed s' = disposed s; sc_entries : entries s' = entries s; sc_heap : heap s' = heap s; sc_runs : runs s' = runs s }.

(** What a run captured does not change. *)
Definition same_capture (x y : Run) : Prop :=
  object y = object x /\ runEpoch y = runEpoch x /\ generation y = generation x /\ requestedForce y = requestedForce x.

(** What the methods write of an entry beside its state and epoch. *)
Definition marks (e e' : Entry) : Prop := state e' = state e /\ entryEpoch e' = entryEpoch e /\ (request e = true -> request e' = true) /\ (controller e' = controller e \/ controller e' = None).

Ltac marked := intros ?; split; [done|]; split; [done|]; split; [done|]; first [by left|by right].

(** [resets], [reads]: whether entries are taken into a new generation, and whether
    responses land. *)
Inductive step (resets reads : bool) (s : Revalidator) : Revalidator -> Prop :=
  | st_other s' : same_core s s' -> step resets reads s s'
  | st_create k : disposed s = false -> entry_of k s = None ->
      step resets reads s (put_entries (entries s ++ [(k, length (heap s))])%list (put_heap (heap s ++ [mkEntry (unread k (generationIDValue s)) true None None false false (epoch s)])%list s))
  | st_mark i f : (forall e, marks e (f e)) -> step resets reads s (on_entry i f s)
  | st_run r f : (forall x, same_capture x (f x)) -> step resets reads s (on_run r f s)
  | st_begin i e : heap s !! i = Some e -> request e = true -> disposed s = false -> is_live i s = true ->
      step resets reads s (on_entry i (fun e => with_state started (with_controller (Some (length (runs s))) (with_epoch (epoch s) e)))
        (put_runs (runs s ++ [mkRun i (epoch s) (generationIDValue s) (forceToken (state e)) false Preparing])%list s))
  | st_invalidate i e rev : heap s !! i = Some e ->
      step resets reads s (on_entry i (with_state (raised (Some (later (targetRevision (state e)) rev)) (forceToken (state e)))) s)
  | st_force i e : heap s !! i = Some e ->
      step resets reads s (on_entry i (with_state (raised (targetRevision (state e)) (S (forceSequence s)))) (put_forceSequence (S (forceSequence s)) s))
  | st_fail i c : step resets reads s (on_entry i (with_state (failed c)) s)
  | st_rebase i : step resets reads s (on_entry i (with_state (rebased (S (forceSequence s)))) (put_forceSequence (S (forceSequence s)) s))
  | st_generation g : step resets reads s (put_epoch (S (epoch s)) (put_generation g s))
  | st_release k i : entry_of k s = Some i ->
      step resets reads s (put_entries (filter (fun x => x.1 <> k) (entries s)) (on_entry i (with_epoch (S (epoch s))) s))
  | st_dispose : step resets reads s (put_entries [] (put_disposed true s))
  | st_regenerate i g : resets = true -> is_live i s = true -> step resets reads s (on_entry i (fun e => with_state (regenerated g) (with_epoch (epoch s) e)) s)
  | st_read x resp e : reads = true -> heap s !! object x = Some e -> disposed s = false -> runEpoch x = epoch s -> entryEpoch e = runEpoch x ->
      requestedForce x = forceToken (state e) -> default (-1) (targetRevision (state e)) <= response_revision resp ->
      step resets reads s (on_entry (object x) (with_state (read resp)) s).

Definition steps resets reads : Revalidator -> Revalidator -> Prop := rtc (step resets reads).

Lemma step_allow resets reads s s' : step false false s s' -> step resets reads s s'.
Proof.
  destruct 1; [by eapply st_other|by eapply st_create|by eapply st_mark|by eapply st_run|by eapply st_begin|by eapply st_invalidate|by eapply st_force
    |by eapply st_fail|by eapply st_rebase|by eapply st_generation|by eapply st_release|by eapply st_dispose|done|done].
Qed.

Lemma steps_allow resets reads s s' : steps false false s s' -> steps resets reads s s'.
Proof. intros H. induction H as [|s s1 s' H _ IH]; [done|]. eapply rtc_l; [by apply step_allow|done]. Qed.

Lemma step_reads resets s s' reads : step resets false s s' -> step resets reads s s'.
Proof.
  destruct 1; [by eapply st_other|by eapply st_create|by eapply st_mark|by eapply st_run|by eapply st_begin|by eapply st_invalidate|by eapply st_force
    |by eapply st_fail|by eapply st_rebase|by eapply st_generation|by eapply st_release|by eapply st_dispose|by eapply st_regenerate|done].
Qed.

Lemma step_epoch resets reads s s' : step resets reads s s' -> (epoch s <= epoch s')%nat.
Proof. destruct 1 as [s' []| | | | | | | | | | | | |]; simpl; lia. Qed.

Lemma steps_epoch resets reads s s' : steps resets reads s s' -> (epoch s <= epoch s')%nat.
Proof. induction 1 as [|s s1 s' H _ IH]; [done|]. apply step_epoch in H. lia. Qed.

(** A method's steps; where no generation began, none of them reset an entry. *)
Record reach (reads : bool) (s s' : Revalidator) : Prop := {
  re_steps : steps true reads s s'; re_same : epoch s' = epoch s -> steps false reads s s' }.

#[export] Instance reach_preorder reads : PreOrder (reach reads).
Proof.
  split; [by split|]. intros a b c [H1 E1] [H2 E2]. pose proof (steps_epoch _ _ _ _ H1). pose proof (steps_epoch _ _ _ _ H2).
  split; [by etransitivity|]. intros E. transitivity b; [apply E1; lia|apply E2; lia].
Qed.

Lemma reach_step reads s s' : step false reads s s' -> reach reads s s'.
Proof.
  intros H. split; [|intros _; by apply rtc_once]. apply rtc_once. destruct reads.
  - destruct H; [by eapply st_other|by eapply st_create|by eapply st_mark|by eapply st_run|by eapply st_begin|by eapply st_invalidate|by eapply st_force
      |by eapply st_fail|by eapply st_rebase|by eapply st_generation|by eapply st_release|by eapply st_dispose|done|by eapply st_read].
  - by apply step_allow.
Qed.

Lemma reach_reads s s' : reach false s s' -> reach true s s'.
Proof.
  intros [H1 H2]. assert (Hs : forall b, steps b false s s' -> steps b true s s').
  { clear H1 H2. intros b H. induction H as [|x y z H _ IH]; [done|]. eapply rtc_l; [eapply step_reads; exact H|exact IH]. }
  split; [by apply Hs|intros E; by apply Hs, H2].
Qed.

Lemma same_core_reach reads s s' : same_core s s' -> reach reads s s'.
Proof. intros H. by apply reach_step, st_other. Qed.

Lemma mark_reach reads i f s : (forall e, marks e (f e)) -> reach reads s (on_entry i f s).
Proof. intros H. by apply reach_step, st_mark. Qed.

Lemma run_reach reads r f s : (forall x, same_capture x (f x)) -> reach reads s (on_run r f s).
Proof. intros H. by apply reach_step, st_run. Qed.

(** ** Methods as steps *)

Lemma alter_twice {A} (f g : A -> A) i (l : list A) : alter (fun x => f (g x)) i l = alter f i (alter g i l).
Proof. revert i. induction l as [|x l IH]; intros [|i]; simpl; try done. f_equal. apply IH. Qed.

Lemma resolve_core s : same_core s (resolveTargetWaiters s).
Proof. by split. Qed.

Lemma reject_core m s : same_core s (reject_all m s).
Proof. by split. Qed.

Lemma abort_reach reads e s : reach reads s (abort e s).
Proof. unfold abort. destruct (controller e); [by apply run_reach|done]. Qed.

Section methods.
Context (emit : nat -> Revalidator -> Revalidator) (rounds : nat) (Hemit : forall i s, reach false s (emit i s)).

Lemma start_reach i s : reach false s (start emit i s).
Proof.
  unfold start. destruct (heap s !! i) as [e|] eqn:Hi; [|done]. destruct (negb (request e) || disposed s || negb (is_live i s)) eqn:Eg; [done|].
  apply orb_false_elim in Eg as [[Hq%negb_false_iff Hd]%orb_false_elim Hl%negb_false_iff].
  etransitivity; [by apply reach_step, (st_begin _ _ s i e)|]. set (s1 := on_entry i _ (put_runs _ s)).
  etransitivity; [apply Hemit|]. destruct (_ || _).
  - by apply run_reach.
  - match goal with |- reach _ _ (on_entry _ _ ?x) => transitivity x end; [by apply run_reach|apply mark_reach; marked].
Qed.

Lemma fail_reach i c s : reach false s (fail emit i c s).
Proof. unfold fail. etransitivity; [|apply Hemit]. apply reach_step, st_fail. Qed.

Lemma recover_reach i s : reach false s (recoverInvalidBase emit i s).
Proof.
  unfold recoverInvalidBase. destruct (heap s !! i) as [e|] eqn:Hi; [|done]. destruct (recoveringBase e); [apply fail_reach|].
  etransitivity; [|apply Hemit]. etransitivity; [apply (mark_reach _ i (fun e => with_rerun true (with_recovering true e))); marked|].
  match goal with |- reach _ ?a ?b => enough (b = on_entry i (with_state (rebased (S (forceSequence a)))) (put_forceSequence (S (forceSequence a)) a)) as -> end.
  { apply reach_step, st_rebase. }
  unfold on_entry, put_heap, put_forceSequence. simpl. f_equal. apply alter_twice.
Qed.

Lemma raise_reach i rev forced s : reach false s (raise emit i rev forced s).
Proof.
  unfold raise. destruct (heap s !! i) as [e|] eqn:Hi; [|done]. destruct (_ && _); [done|].
  assert (Hrest : forall s, reach false s (match heap s !! i with None => s | Some e => if bool_decide (promise e = None) then if request e && is_live i s then start emit i s else s
    else on_entry i (with_rerun true) s end)).
  { intros s1. destruct (heap s1 !! i) as [e1|]; [|done]. case_bool_decide; [|apply mark_reach; marked]. destruct (_ && _); [apply start_reach|done]. }
  etransitivity; [|apply Hrest]. etransitivity; [|apply Hemit]. apply reach_step.
  destruct forced; [by apply st_force|by eapply st_invalidate].
Qed.

Lemma fold_reach {A} (f : Revalidator -> A -> Revalidator) l s : (forall s x, reach false s (f s x)) -> reach false s (foldl f s l).
Proof. intros Hf. revert s. induction l as [|x l IH]; intros s; simpl; [done|]. etransitivity; [apply Hf|apply IH]. Qed.

Lemma visit_reach body i s : (forall s, reach false s (body i s)) -> reach false s (visit body i s).
Proof. intros Hb. unfold visit. by destruct (is_live i s). Qed.

Lemma added_reach n from body s : (forall i s, reach false s (body i s)) -> reach false s (added n from body s).
Proof.
  intros Hb. revert from s. induction n as [|n IH]; intros from s; simpl; [done|]. destruct (list_find _ (entries s)) as [[? [? i]]|]; [|done].
  etransitivity; [apply visit_reach, Hb|apply IH].
Qed.

Lemma each_reach body s : (forall i s, reach false s (body i s)) -> reach false s (each_entry rounds body s).
Proof. intros Hb. unfold each_entry. etransitivity; [|by apply added_reach]. apply fold_reach. intros s1 i. by apply visit_reach. Qed.

Lemma invalidate_reach t s : reach false s (invalidate emit rounds t s).
Proof.
  unfold invalidate. destruct (disposed s); [done|]. apply each_reach. intros i s1. destruct (heap s1 !! i); [|done].
  destruct (matchesTarget _ t); [apply raise_reach|done].
Qed.

Lemma force_reach ks s : reach false s (force emit ks s).
Proof. unfold force. destruct (disposed s); [done|]. apply fold_reach. intros s1 k. destruct (entry_of k s1); [apply raise_reach|done]. Qed.

Lemma tracked_reach k s : disposed s = false -> reach false s (on_entry (entry k s).1 with_request (entry k s).2).
Proof.
  intros Hd. unfold entry. destruct (entry_of k s) eqn:E; [apply mark_reach; marked|].
  match goal with |- reach _ _ ?b => replace b with (put_entries (entries s ++ [(k, length (heap s))])%list (put_heap (heap s ++ [mkEntry (unread k (generationIDValue s)) true None None false false (epoch s)])%list s)) end.
  { by apply reach_step, st_create. }
  unfold on_entry, put_heap, put_entries. simpl. f_equal. induction (heap s) as [|e l IH]; simpl; [done|by f_equal].
Qed.

Lemma load_reach k s : reach false s (load emit k s).
Proof.
  unfold load. destruct (disposed s) eqn:Hd; [done|]. pose proof (tracked_reach k s Hd) as H1. destruct (entry k s) as [i s1]. simpl in H1.
  destruct (heap (on_entry i with_request s1) !! i); [|done]. destruct (negb _); [done|]. destruct (_ && _); [done|]. etransitivity; [exact H1|apply start_reach].
Qed.

Lemma track_reach k s : reach false s (track k s).
Proof. unfold track. destruct (disposed s) eqn:Hd; [done|]. pose proof (tracked_reach k s Hd) as H1. by destruct (entry k s). Qed.

Lemma release_reach k s : reach false s (release k s).
Proof.
  unfold release. destruct (disposed s); [done|]. destruct (entry_of k s) as [i|] eqn:Hk; [|done]. set (s1 := on_entry i _ s).
  etransitivity; [|apply same_core_reach, resolve_core].
  etransitivity; [by apply reach_step, (st_release _ _ s k i)|]. fold s1. change (entries s) with (entries s1).
  destruct (heap s1 !! i) as [e|]; [|done]. unfold abort. destruct (controller e) as [r|]; [|done]. by apply (run_reach _ r abort_run (put_entries _ s1)).
Qed.

Lemma dispose_reach s : reach false s (dispose s).
Proof.
  unfold dispose. destruct (disposed s); [done|]. etransitivity; [|apply same_core_reach, reject_core].
  etransitivity; [apply reach_step, st_dispose|]. set (s1 := put_disposed true s).
  clearbody s1. generalize (live_entries s) as l. intros l. revert s1. induction l as [|e l IH]; intros s2; simpl; [done|].
  etransitivity; [|apply IH]. unfold abort. destruct (controller e) as [r|]; [|done]. by apply (run_reach _ r abort_run (put_entries [] s2)).
Qed.

Lemma reset_before g i e s : is_live i s = true -> heap s !! i = Some e ->
  steps true false s (on_entry i (fun e => with_state (regenerated g) (mkEntry (state e) (request e) None None false false (epoch s))) (abort e s)).
Proof.
  intros Hl Hi. set (mark := fun e => mkEntry (state e) (request e) None None false false (entryEpoch e)).
  set (s1 := on_entry i (fun e => with_state (regenerated g) (with_epoch (epoch s) e)) s).
  eapply rtc_l; [by apply (st_regenerate _ _ s i g)|]. eapply rtc_l; [apply (st_mark _ _ s1 i mark); marked|].
  match goal with |- rtc _ ?a ?b => assert (E : b = abort e a) end.
  { unfold s1, mark, abort, on_entry, put_heap. destruct (controller e); simpl; by rewrite <- alter_twice. }
  rewrite E. apply abort_reach.
Qed.

Lemma reset_entry_steps g i s : is_live i s = true -> steps true false s (reset_entry emit g i s).
Proof.
  intros Hl. unfold reset_entry. destruct (heap s !! i) as [e|] eqn:Hi; [|done]. etransitivity; [exact (reset_before g i e s Hl Hi)|].
  set (s2 := on_entry i _ (abort e s)). etransitivity; [apply Hemit|].
  destruct (heap (emit i s2) !! i) as [e2|]; [|done]. destruct (request e2); [apply start_reach|done].
Qed.

Lemma reset_each_steps g s : steps true false s (each_entry rounds (reset_entry emit g) s).
Proof.
  unfold each_entry. assert (Hv : forall i s, steps true false s (visit (reset_entry emit g) i s)).
  { intros i s2. unfold visit. destruct (is_live i s2) eqn:El; [by apply reset_entry_steps|done]. }
  transitivity (foldl (fun s i => visit (reset_entry emit g) i s) s (entries s).*2).
  - generalize (entries s).*2 as l. intros l. revert s. induction l as [|i l IH]; intros s2; simpl; [done|]. etransitivity; [apply Hv|apply IH].
  - generalize (foldl (fun s i => visit (reset_entry emit g) i s) s (entries s).*2) as s2, (length (heap s)) as from. intros s2 from. revert s2 from.
    induction rounds as [|m IH]; intros s2 from; simpl; [done|]. destruct (list_find _ (entries s2)) as [[? [? i]]|]; [|done]. etransitivity; [apply Hv|apply IH].
Qed.

Lemma reset_epoch g s : disposed s = false -> g <> generationIDValue s -> (epoch s < epoch (resetGeneration emit rounds g s))%nat.
Proof.
  intros Hd Hg. unfold resetGeneration. rewrite Hd, (proj2 (String.eqb_neq g _) Hg). cbn [orb].
  match goal with |- context [each_entry rounds _ ?x] => pose proof (steps_epoch _ _ _ _ (reset_each_steps g x)) as H; change (epoch x) with (S (epoch s)) in H end. lia.
Qed.

(** A reset moves the epoch, so what it does to entries counts for no other. *)
Lemma reset_reach g s : reach false s (resetGeneration emit rounds g s).
Proof.
  destruct (disposed s || String.eqb g (generationIDValue s)) eqn:Eg; [unfold resetGeneration; by rewrite Eg|].
  pose proof Eg as [Hd Hg%String.eqb_neq]%orb_false_elim. pose proof (reset_epoch g s Hd Hg) as He. unfold resetGeneration in He |- *. rewrite Eg in He |- *.
  set (s0 := reject_all "generation mismatch" s) in *. set (s1 := put_lastSequence 0 (put_epoch (S (epoch s0)) (put_generation g s0))) in *.
  assert (H1 : steps false false s s1).
  { eapply rtc_l; [apply st_other, reject_core|]. eapply rtc_l; [apply (st_generation _ _ s0 g)|]. apply rtc_once. by apply st_other. }
  split; [etransitivity; [by apply steps_allow|apply reset_each_steps]|]. lia.
Qed.

Lemma apply_reach p s : reach false s (applyNavigationInvalidation emit rounds p s).
Proof.
  unfold applyNavigationInvalidation. set (s1 := if String.eqb _ _ then s else _).
  assert (H1 : reach false s s1) by (unfold s1; destruct (String.eqb _ _); [done|apply reset_reach]).
  cbn [acceptSequence]. unfold acceptSequence. set (s2 := put_lastSequence _ s1). etransitivity; [exact H1|]. transitivity s2; [by apply same_core_reach|].
  set (gap := isSequenceGap _ _). set (s3 := if gap then _ else s2). transitivity s3; [unfold s3; destruct gap; [apply force_reach|done]|].
  set (s4 := foldl _ s3 _). transitivity s4; [apply fold_reach; intros; apply invalidate_reach|]. destruct gap; [done|]. apply force_reach.
Qed.

Lemma call_reach c s : reach false s (call emit rounds c s).
Proof.
  destruct c as [k|k|k|ks| |t|g| |ts g ks|p|id|p|p]; cbn [call].
  - apply load_reach.
  - apply track_reach.
  - apply release_reach.
  - apply force_reach.
  - apply force_reach.
  - apply invalidate_reach.
  - apply reset_reach.
  - apply dispose_reach.
  - apply same_core_reach. unfold waitForTargets. destruct (negb _); [by split|]. by destruct (targetsSatisfied _ s).
  - apply same_core_reach. unfold waitForInvalidation. by destruct (disposed s).
  - apply same_core_reach. unfold cancel. by case_bool_decide.
  - by apply same_core_reach.
  - apply apply_reach.
Qed.
End methods.

Lemma emit_reach env rounds fuel i s : reach false s (emit env rounds fuel i s).
Proof.
  revert i s. induction fuel as [|fuel IH]; intros i s; simpl; (etransitivity; [|apply same_core_reach, resolve_core]); [done|].
  destruct (disposed s); [done|]. transitivity (tock s); [by apply same_core_reach|]. apply fold_reach. intros s1 c. by apply call_reach.
Qed.

Section events.
Context (env : Environment) (rounds fuel : nat).

Let emit := emit env rounds fuel.
Let Hemit : forall i s, reach false s (emit i s) := emit_reach env rounds fuel.

Lemma validate_generation resp g t : validate resp g t = None -> response_generation resp = g.
Proof.
  unfold validate. destruct (_ && _); [done|]. destruct (String.eqb (response_generation resp) g) eqn:E; simpl; [|done]. intros _. by apply String.eqb_eq.
Qed.

Lemma responded_reach x resp s : reach true s (responded emit x resp s).
Proof.
  unfold responded. destruct (heap s !! object x) as [e|] eqn:Hi; [|done]. destruct (_ || _) eqn:Eg; [done|].
  apply orb_false_elim in Eg as [[[Hd Hep%negb_false_iff]%orb_false_elim _]%orb_false_elim Hee%negb_false_iff]. apply Nat.eqb_eq in Hep, Hee.
  destruct (validate resp (generation x) (etag (state e))); [apply reach_reads, fail_reach, Hemit|].
  destruct (_ || _) eqn:Ec.
  - etransitivity; [|apply reach_reads, fail_reach, Hemit]. apply mark_reach; marked.
  - apply orb_false_elim in Ec as [[_ Ht]%orb_false_elim Hf%negb_false_iff]. apply Nat.eqb_eq in Hf. apply Z.ltb_ge in Ht.
    etransitivity; [|apply reach_reads, Hemit].
    transitivity (on_entry (object x) (fun e => with_rerun false (with_recovering false e)) s); [apply mark_reach; marked|].
    set (s1 := on_entry _ _ s). match goal with |- reach _ _ ?b => assert (E : b = on_entry (object x) (with_state (read resp)) s1) end.
    { unfold s1, on_entry, put_heap. simpl. f_equal. apply alter_twice. }
    rewrite E. apply reach_step. apply (st_read _ _ s1 x resp (with_rerun false (with_recovering false e))); try done.
    unfold s1, on_entry. simpl. by rewrite list_lookup_alter_eq, Hi.
Qed.

Lemma threw_reach x c s : reach true s (threw emit x c s).
Proof. unfold threw. destruct (aborted x); [done|]. apply reach_reads. destruct c; first [apply fail_reach, Hemit|apply recover_reach, Hemit]. Qed.

Lemma land_reach r s : reach true s (land emit r s).
Proof.
  unfold land. destruct (runs s !! r) as [x|]; [|done]. destruct (phase x) as [| |a| |]; try done.
  transitivity (on_run r (at_phase Landed) s); [by apply run_reach|]. destruct a; [apply responded_reach|apply threw_reach].
Qed.

Lemma finish_reach r s : reach true s (finish emit r s).
Proof.
  unfold finish. destruct (runs s !! r) as [x|]; [|done]. destruct (phase x) as [| |a| |]; try done.
  set (s1 := on_run r (at_phase Finished) s). assert (H1 : reach true s s1) by (by apply run_reach).
  destruct (heap s1 !! object x) as [e|]; [|done]. destruct (_ && _); [|done]. etransitivity; [exact H1|].
  set (s2 := on_entry (object x) _ s1). transitivity s2; [apply mark_reach; marked|]. destruct (rerun e); [|done].
  etransitivity; [|apply reach_reads, start_reach, Hemit]. apply mark_reach; marked.
Qed.

Lemma take_reach e s : reach true s (take env rounds fuel e s).
Proof.
  destruct e as [c|r a|r|r]; cbn [take].
  - by apply reach_reads, call_reach.
  - unfold answers. destruct (runs s !! r) as [x|]; [|done]. destruct (phase x); try done. by apply run_reach.
  - apply land_reach.
  - apply finish_reach.
Qed.

Lemma run_take_reach es s : reach true s (run env rounds fuel es s).
Proof. revert s. induction es as [|e es IH]; intros s; simpl; [done|]. etransitivity; [apply take_reach|apply IH]. Qed.
End events.

(** ** The invariant of every step *)

Definition live (i : nat) (s : Revalidator) : Prop := i ∈ (entries s).*2.

Definition fresh_is_current (x : ResourceState) : Prop := stale x = false -> exists l, loadedRevision x = Some l /\ targetRevision x = Some l.

Record Inv (s : Revalidator) : Prop := {
  in_entries : forall k i, (k, i) ∈ entries s -> exists e, heap s !! i = Some e /\ key (state e) = k;
  in_distinct : NoDup (entries s).*1;
  in_disposed : disposed s = true -> entries s = [];
  in_force : forall i e, heap s !! i = Some e -> (forceToken (state e) <= forceSequence s)%nat;
  in_runs : forall r x, runs s !! r = Some x -> (runEpoch x <= epoch s)%nat /\ (object x < length (heap s))%nat /\ (requestedForce x <= forceSequence s)%nat;
  in_retired : disposed s = false -> forall r x e, runs s !! r = Some x -> heap s !! object x = Some e -> ~ live (object x) s -> (runEpoch x < entryEpoch e)%nat;
  in_fresh : forall i e, heap s !! i = Some e -> fresh_is_current (state e);
  in_request : forall i e, heap s !! i = Some e -> request e = true;
  in_controller : forall i e r, heap s !! i = Some e -> controller e = Some r -> exists x, runs s !! r = Some x /\ object x = i;
  in_generation : forall r x, runs s !! r = Some x -> runEpoch x = epoch s -> generation x = generationIDValue s }.

Lemma entry_of_spec s k i : Inv s -> entry_of k s = Some i <-> (k, i) ∈ entries s.
Proof.
  intros HI. unfold entry_of. split.
  - destruct (list_find _ (entries s)) as [[j [k' i']]|] eqn:E; [|done]. intros [= <-]. apply list_find_Some in E as (Hj & E & _). simpl in E. subst k'.
    by eapply list_elem_of_lookup_2.
  - intros Hin. destruct (list_find (fun x => x.1 = k) (entries s)) as [[j [k' i']]|] eqn:E.
    + apply list_find_Some in E as (Hj & E & _). simpl in E. subst k'. simpl. f_equal.
      apply list_elem_of_lookup_1 in Hin as [j' Hj']. pose proof (in_distinct s HI) as Hn.
      assert (j = j') as <- by (eapply (NoDup_lookup (entries s).*1); [done| |]; by rewrite list_lookup_fmap, ?Hj, ?Hj'). congruence.
    + apply list_find_None in E. rewrite Forall_forall in E. by destruct (E (k, i) Hin).
Qed.

Lemma live_entry s i : Inv s -> live i s -> exists e, heap s !! i = Some e /\ (key (state e), i) ∈ entries s.
Proof.
  intros HI ([k j] & -> & Hin)%list_elem_of_fmap. simpl. destruct (in_entries s HI k j Hin) as (e & He & <-). eauto.
Qed.

Lemma is_live_spec s i : Inv s -> is_live i s = true <-> live i s.
Proof.
  intros HI. unfold is_live. split.
  - destruct (heap s !! i) as [e|]; [|done]. intros Hl%bool_decide_eq_true. apply (entry_of_spec s _ _ HI) in Hl. by apply (list_elem_of_fmap_2 snd) in Hl.
  - intros Hl. destruct (live_entry s i HI Hl) as (e & -> & Hin). apply bool_decide_eq_true. by apply entry_of_spec.
Qed.

Lemma on_entry_lookup i f s j e' : heap (on_entry i f s) !! j = Some e' ->
  (j = i /\ exists e, heap s !! i = Some e /\ e' = f e) \/ (j <> i /\ heap s !! j = Some e').
Proof.
  unfold on_entry, put_heap. simpl. destruct (decide (i = j)) as [->|Hn].
  - rewrite list_lookup_alter_eq. intros (e & He & ->)%fmap_Some. left. eauto.
  - rewrite list_lookup_alter_ne by done. by right.
Qed.

Lemma on_entry_same i f s e : heap s !! i = Some e -> heap (on_entry i f s) !! i = Some (f e).
Proof. intros He. unfold on_entry. simpl. by rewrite list_lookup_alter_eq, He. Qed.

Lemma on_entry_other i f s j e : heap s !! j = Some e -> j <> i -> heap (on_entry i f s) !! j = Some e.
Proof. intros He Hn. unfold on_entry. simpl. by rewrite list_lookup_alter_ne. Qed.

(** An entry rewritten in place. *)
Lemma on_entry_inv i f n s : Inv s -> (forceSequence s <= n)%nat ->
  (forall e, heap s !! i = Some e -> key (state (f e)) = key (state e) /\ (forceToken (state (f e)) <= n)%nat /\ (live i s \/ entryEpoch (f e) = entryEpoch e) /\
    fresh_is_current (state (f e)) /\ (request e = true -> request (f e) = true) /\ (forall r, controller (f e) = Some r -> exists x, runs s !! r = Some x /\ object x = i)) ->
  Inv (on_entry i f (put_forceSequence n s)).
Proof.
  intros HI Hn Hf. split.
  - intros k j Hin. destruct (in_entries s HI k j Hin) as (e & He & Hk). destruct (decide (j = i)) as [->|Hne].
    + exists (f e). split; [by apply on_entry_same|]. destruct (Hf e He) as [-> _]. done.
    + exists e. split; [by apply on_entry_other|done].
  - apply HI.
  - apply HI.
  - intros j e' He'. destruct (on_entry_lookup i f (put_forceSequence n s) j e' He') as [[-> (e & He & ->)]|[_ He]].
    + by destruct (Hf e He) as (_ & ? & _).
    + pose proof (in_force s HI j e' He). simpl. lia.
  - intros r x Hr. unfold on_entry. simpl. rewrite length_alter. destruct (in_runs s HI r x Hr) as (? & ? & ?). split; [done|]. split; [done|lia].
  - intros Hd r x e' Hr He' Hl. destruct (on_entry_lookup i f (put_forceSequence n s) _ e' He') as [[E (e & He & ->)]|[_ He]].
    + destruct (Hf e He) as (_ & _ & [Hli|Hee] & _); [by rewrite <- E in Hli|]. rewrite Hee. rewrite <- E in He. by apply (in_retired s HI Hd r x e).
    + by apply (in_retired s HI Hd r x e').
  - intros j e' He'. destruct (on_entry_lookup i f (put_forceSequence n s) j e' He') as [[-> (e & He & ->)]|[_ He]].
    + by destruct (Hf e He) as (_ & _ & _ & ? & _).
    + by apply (in_fresh s HI j).
  - intros j e' He'. destruct (on_entry_lookup i f (put_forceSequence n s) j e' He') as [[-> (e & He & ->)]|[_ He]].
    + destruct (Hf e He) as (_ & _ & _ & _ & Hq & _). by apply Hq, (in_request s HI i).
    + by apply (in_request s HI j).
  - intros j e' r He' Hr. destruct (on_entry_lookup i f (put_forceSequence n s) j e' He') as [[-> (e & He & ->)]|[_ He]].
    + destruct (Hf e He) as (_ & _ & _ & _ & _ & Hq). by apply Hq.
    + by apply (in_controller s HI j e').
  - apply (in_generation s HI).
Qed.

(** The same without a new token. *)
Lemma on_entry_keeps_inv i f s : Inv s ->
  (forall e, heap s !! i = Some e -> key (state (f e)) = key (state e) /\ (forceToken (state (f e)) <= forceSequence s)%nat /\ (live i s \/ entryEpoch (f e) = entryEpoch e) /\
    fresh_is_current (state (f e)) /\ (request e = true -> request (f e) = true) /\ (forall r, controller (f e) = Some r -> exists x, runs s !! r = Some x /\ object x = i)) -> Inv (on_entry i f s).
Proof.
  intros HI Hf. enough (H : Inv (on_entry i f (put_forceSequence (forceSequence s) s))) by (by destruct s). by apply on_entry_inv.
Qed.

Lemma live_filter i k s : i ∈ (filter (fun x => x.1 <> k) (entries s)).*2 -> live i s.
Proof. intros ([k' j] & -> & [_ Hin]%list_elem_of_filter)%list_elem_of_fmap. by apply (list_elem_of_fmap_2 snd) in Hin. Qed.

Lemma step_inv resets reads s s' : step resets reads s s' -> Inv s -> Inv s'.
Proof.
  intros Hstep HI. destruct Hstep as [s' Hc|k Hd Hk|i f Hf|r f Hf|i e Hi Hq Hd Hl|i e rev Hi|i e Hi|i c|i|g|k i Hk| |i g _ Hl|x resp e _ Hi Hd Hep Hee Hfo Ht].
  - destruct Hc as [E1 E2 E3 E4 E5 E6 E7]. destruct HI. split; unfold live in *; rewrite ?E1, ?E2, ?E3, ?E4, ?E5, ?E6, ?E7; done.
  - assert (Hlen : forall j e, heap s !! j = Some e -> (j < length (heap s))%nat) by (intros j e He; by eapply lookup_lt_Some).
    assert (Hnew : forall j e, (heap s ++ [mkEntry (unread k (generationIDValue s)) true None None false false (epoch s)])%list !! j = Some e ->
      heap s !! j = Some e \/ (j = length (heap s) /\ e = mkEntry (unread k (generationIDValue s)) true None None false false (epoch s))).
    { intros j e [He|[Hj He]]%lookup_app_Some; [by left|right]. apply list_lookup_singleton_Some in He as [? <-]. split; [lia|done]. }
    split; simpl.
    + intros k' j [Hin|Hin]%elem_of_app.
      * destruct (in_entries s HI k' j Hin) as (e & He & Hke). exists e. split; [by apply lookup_app_l_Some|done].
      * apply list_elem_of_singleton in Hin as [= -> ->]. eexists. split; [by apply list_lookup_middle|done].
    + rewrite fmap_app. apply NoDup_app. split; [apply HI|]. split; [|apply NoDup_singleton]. intros k' Hin Hk'%list_elem_of_singleton. simpl in Hk'. subst k'.
      apply list_elem_of_fmap in Hin as ([k1 j] & E & Hin). simpl in E. subst k1. apply (entry_of_spec s k j HI) in Hin. congruence.
    + intros Hd'. congruence.
    + intros j e [He|[_ ->]]%Hnew; [by apply (in_force s HI j)|simpl; lia].
    + intros r x Hr. rewrite length_app. destruct (in_runs s HI r x Hr) as (? & ? & ?). split; [done|]. split; [simpl; lia|done].
    + intros _ r x e Hr He Hl. destruct (in_runs s HI r x Hr) as (_ & Ho & _). apply Hnew in He as [He|[Hj _]]; [|lia].
      apply (in_retired s HI Hd r x e); [done|done|]. intros Hl'. apply Hl. unfold live. simpl. rewrite fmap_app. apply elem_of_app. by left.
    + intros j e [He|[_ ->]]%Hnew; [by apply (in_fresh s HI j)|done].
    + intros j e [He|[_ ->]]%Hnew; [by apply (in_request s HI j)|done].
    + intros j e r [He|[_ ->]]%Hnew; [by apply (in_controller s HI j)|done].
    + apply (in_generation s HI).
  - apply on_entry_keeps_inv; [done|]. intros e He. destruct (Hf e) as (-> & -> & ? & Hc). split; [done|]. split; [by apply (in_force s HI i)|]. split; [by right|]. split; [by apply (in_fresh s HI i)|]. split; [done|].
    intros r Hr. apply (in_controller s HI i e); [done|]. destruct Hc; congruence.
  - assert (Hback : forall j y, runs (on_run r f s) !! j = Some y -> exists x, runs s !! j = Some x /\ same_capture x y).
    { intros j y. unfold on_run, put_runs. simpl. destruct (decide (r = j)) as [->|Hn].
      - rewrite list_lookup_alter_eq. intros (x & Hx & ->)%fmap_Some. eauto.
      - rewrite list_lookup_alter_ne by done. intros Hy. by exists y. }
    split; try apply HI.
    + intros j y (x & Hx & E1 & E2 & _ & E4)%Hback. rewrite E1, E2, E4. by apply (in_runs s HI j).
    + intros Hd j y e (x & Hx & E1 & E2 & _ & _)%Hback. rewrite E1, E2. by apply (in_retired s HI Hd j x e).
    + intros j e y He Hc. destruct (in_controller s HI j e y He Hc) as (x & Hx & <-). unfold on_run. simpl. destruct (decide (r = y)) as [->|Hn].
      * exists (f x). split; [by rewrite list_lookup_alter_eq, Hx|apply Hf].
      * exists x. by rewrite list_lookup_alter_ne.
    + intros j y (x & Hx & _ & E2 & E3 & _)%Hback. rewrite E2, E3. by apply (in_generation s HI j x).
  - assert (Hl' : live i s) by (by apply is_live_spec). set (x := mkRun i _ _ _ _ _).
    assert (H1 : Inv (put_runs (runs s ++ [x])%list s)).
    { assert (Hnew : forall r y, (runs s ++ [x])%list !! r = Some y -> runs s !! r = Some y \/ y = x).
      { intros r y [Hy|[_ Hy]]%lookup_app_Some; [by left|right]. by apply list_lookup_singleton_Some in Hy as [_ <-]. }
      split; try apply HI; simpl.
      - intros r y [Hy| ->]%Hnew; [by apply (in_runs s HI r)|]. split; [done|]. split; [by eapply lookup_lt_Some|by apply (in_force s HI i)].
      - intros _ r y e' [Hy| ->]%Hnew; [by apply (in_retired s HI Hd r y e')|]. intros _ Hn. by destruct Hn.
      - intros j e' r He' Hr. destruct (in_controller s HI j e' r He' Hr) as (y & Hy & ?). exists y. split; [by apply lookup_app_l_Some|done].
      - intros r y [Hy| ->]%Hnew; [by apply (in_generation s HI r)|done]. }
    apply on_entry_keeps_inv; [done|]. intros e' He'. split; [done|]. split; [apply (in_force s HI i e' He')|]. split; [by left|]. split; [apply (in_fresh s HI i e' He')|]. split; [done|].
    intros r [= <-]. exists x. split; [|done]. by apply list_lookup_middle.
  - apply on_entry_keeps_inv; [done|]. intros e' He'. assert (e' = e) as -> by congruence. split; [done|]. split; [apply (in_force s HI i e Hi)|]. split; [by right|]. split; [done|]. split; [done|intros ? Hctl; exact (in_controller s HI _ _ _ He' Hctl)].
  - apply on_entry_inv; [done|lia|]. intros e' He'. split; [done|]. split; [simpl; lia|]. split; [by right|]. split; [done|]. split; [done|intros ? Hctl; exact (in_controller s HI _ _ _ He' Hctl)].
  - apply on_entry_keeps_inv; [done|]. intros e' He'. split; [done|]. split; [apply (in_force s HI i e' He')|]. split; [by right|]. split; [done|]. split; [done|intros ? Hctl; exact (in_controller s HI _ _ _ He' Hctl)].
  - apply on_entry_inv; [done|lia|]. intros e' He'. split; [done|]. split; [simpl; lia|]. split; [by right|]. split; [done|]. split; [done|intros ? Hctl; exact (in_controller s HI _ _ _ He' Hctl)].
  - split; simpl; try apply HI; intros r x Hr; destruct (in_runs s HI r x Hr) as (? & ? & ?); [split; [lia|done]|lia].
  - assert (Hin : (k, i) ∈ entries s) by (by apply entry_of_spec). assert (Hl : live i s) by (by apply (list_elem_of_fmap_2 snd) in Hin).
    assert (H1 : Inv (on_entry i (with_epoch (S (epoch s))) s)).
    { apply on_entry_keeps_inv; [done|]. intros e' He'. split; [done|]. split; [apply (in_force s HI i e' He')|]. split; [by left|]. split; [apply (in_fresh s HI i e' He')|]. split; [done|intros ? Hctl; exact (in_controller s HI _ _ _ He' Hctl)]. }
    split; simpl; try apply H1.
    + intros k' j [_ Hj]%list_elem_of_filter. by apply H1.
    + eapply sublist_NoDup; [apply (in_distinct s HI)|apply fmap_sublist, sublist_filter].
    + intros Hd. by rewrite (in_disposed s HI Hd).
    + intros Hd r x e Hr He Hnl. destruct (on_entry_lookup i _ s _ e He) as [[E (e0 & He0 & ->)]|[Hne He']].
      * simpl. destruct (in_runs s HI r x Hr) as (? & _). lia.
      * apply (in_retired s HI Hd r x e Hr He'). intros ([k' j] & E & Hj)%list_elem_of_fmap. simpl in E. subst j. apply Hnl. unfold live. simpl.
        apply (list_elem_of_fmap_2 snd (filter _ _) (k', object x)), list_elem_of_filter. split; [|done]. simpl. intros ->.
        apply (entry_of_spec s k _ HI) in Hj. congruence.
  - split; simpl; try apply HI; try done.
    + intros k i Hin. by apply not_elem_of_nil in Hin.
    + constructor.
  - apply on_entry_keeps_inv; [done|]. intros e' He'. split; [done|]. split; [apply (in_force s HI i e' He')|]. split; [left; by apply is_live_spec|]. split; [done|]. split; [done|intros ? Hctl; exact (in_controller s HI _ _ _ He' Hctl)].
  - apply on_entry_keeps_inv; [done|]. intros e' He'. split; [done|]. split; [apply (in_force s HI (object x) e' He')|]. split; [by right|]. split; [intros _; by eexists|]. split; [done|intros ? Hctl; exact (in_controller s HI _ _ _ He' Hctl)].
Qed.

Lemma steps_inv resets reads s s' : steps resets reads s s' -> Inv s -> Inv s'.
Proof. induction 1 as [|a b c H _ IH]; [done|]. intros HI. by eapply IH, step_inv. Qed.

Lemma reach_inv reads s s' : reach reads s s' -> Inv s -> Inv s'.
Proof. intros [H _]. by apply (steps_inv true reads). Qed.

Lemma new_inv g : Inv (new_revalidator g).
Proof. split; simpl; try done; [intros k i H; by apply not_elem_of_nil in H|constructor]. Qed.

(** ** What only grows *)

(** [resets]: an entry's target may start over; [reads]: its data may change. *)
Record grows (resets reads : bool) (s s' : Revalidator) : Prop := {
  gr_epoch : (epoch s <= epoch s')%nat; gr_force : (forceSequence s <= forceSequence s')%nat; gr_disposed : disposed s = true -> disposed s' = true;
  gr_live : forall i, (i < length (heap s))%nat -> live i s' -> live i s;
  gr_heap : forall i e, heap s !! i = Some e -> exists e', heap s' !! i = Some e' /\ key (state e') = key (state e) /\
    (forceToken (state e) <= forceToken (state e'))%nat /\ (~ live i s -> entryEpoch e' = entryEpoch e) /\
    (resets = false -> default (-1) (targetRevision (state e)) <= default (-1) (targetRevision (state e'))) /\
    (reads = false -> data (state e') = data (state e) /\ normalized (state e') = normalized (state e));
  gr_runs : forall r x, runs s !! r = Some x -> exists x', runs s' !! r = Some x' /\ same_capture x x' }.

Lemma same_capture_trans x y z : same_capture x y -> same_capture y z -> same_capture x z.
Proof. intros (? & ? & ? & ?) (? & ? & ? & ?). repeat split; congruence. Qed.

#[export] Instance grows_preorder resets reads : PreOrder (grows resets reads).
Proof.
  split.
  - intros s. split; try done; [intros i e He|intros r x Hx]; eexists; split; done.
  - intros a b c [A1 A2 A3 A4 A5 A6] [B1 B2 B3 B4 B5 B6]. split; [lia|lia|auto| | |].
    + intros i Hi Hl. apply A4; [done|]. apply B4; [|done]. apply lookup_lt_is_Some in Hi as [e He]. destruct (A5 i e He) as (e' & He' & _). by eapply lookup_lt_Some.
    + intros i e He. destruct (A5 i e He) as (e1 & He1 & K1 & F1 & N1 & T1 & D1), (B5 i e1 He1) as (e2 & He2 & K2 & F2 & N2 & T2 & D2).
      exists e2. split; [done|]. split; [congruence|]. split; [lia|]. split; [|split].
      * intros Hn. rewrite N2; [by apply N1|]. intros Hl. by apply Hn, (A4 i); [eapply lookup_lt_Some|].
      * intros Hr. specialize (T1 Hr). specialize (T2 Hr). lia.
      * intros Hr. destruct (D1 Hr), (D2 Hr). split; congruence.
    + intros r x Hr. destruct (A6 r x Hr) as (y & Hy & H1), (B6 r y Hy) as (z & Hz & H2). exists z. split; [done|]. by eapply same_capture_trans.
Qed.

Lemma grows_heap resets reads i f n s : (forceSequence s <= n)%nat ->
  (forall e, heap s !! i = Some e -> key (state (f e)) = key (state e) /\ (forceToken (state e) <= forceToken (state (f e)))%nat /\ (live i s \/ entryEpoch (f e) = entryEpoch e) /\
    (resets = false -> default (-1) (targetRevision (state e)) <= default (-1) (targetRevision (state (f e)))) /\
    (reads = false -> data (state (f e)) = data (state e) /\ normalized (state (f e)) = normalized (state e))) ->
  grows resets reads s (on_entry i f (put_forceSequence n s)).
Proof.
  intros Hn Hf. split; try done; [|intros r x Hr; by exists x]. intros j e He. destruct (decide (j = i)) as [->|Hne].
  - exists (f e). split; [by apply on_entry_same|]. destruct (Hf e He) as (? & ? & Hl & ? & ?). split; [done|]. split; [done|]. split; [|done].
    intros Hnl. by destruct Hl.
  - exists e. split; [by apply on_entry_other|]. done.
Qed.

Lemma grows_entry resets reads i f s :
  (forall e, heap s !! i = Some e -> key (state (f e)) = key (state e) /\ (forceToken (state e) <= forceToken (state (f e)))%nat /\ (live i s \/ entryEpoch (f e) = entryEpoch e) /\
    (resets = false -> default (-1) (targetRevision (state e)) <= default (-1) (targetRevision (state (f e)))) /\
    (reads = false -> data (state (f e)) = data (state e) /\ normalized (state (f e)) = normalized (state e))) ->
  grows resets reads s (on_entry i f s).
Proof. intros Hf. enough (H : grows resets reads s (on_entry i f (put_forceSequence (forceSequence s) s))) by (by destruct s). by apply grows_heap. Qed.

Lemma step_grows resets reads s s' : Inv s -> step resets reads s s' -> grows resets reads s s'.
Proof.
  intros HI Hstep. destruct Hstep as [s' Hc|k Hd Hk|i f Hf|r f Hf|i e Hi Hq Hd Hl|i e rev Hi|i e Hi|i c|i|g|k i Hk| |i g Hr Hl|x resp e Hr Hi Hd Hep Hee Hfo Ht].
  - destruct Hc as [E1 E2 E3 E4 E5 E6 E7]. unfold live. split; rewrite ?E2, ?E3, ?E4, ?E5, ?E6, ?E7; try done.
    + intros i. unfold live. by rewrite E5.
    + intros i e He. by exists e.
    + intros r x Hr. by exists x.
  - split; simpl; try done.
    + intros i Hi ([k' j] & E & [Hin|Hin]%elem_of_app)%list_elem_of_fmap; simpl in E; subst j; [by apply (list_elem_of_fmap_2 snd) in Hin|].
      apply list_elem_of_singleton in Hin as [= _ ->]. lia.
    + intros i e He. exists e. split; [by apply lookup_app_l_Some|done].
    + intros r x Hr. by exists x.
  - apply grows_entry. intros e He. destruct (Hf e) as (-> & -> & _). split; [done|]. split; [done|]. split; [by right|done].
  - split; try done; [intros i e He; by exists e|]. intros j x Hx. unfold on_run. simpl. destruct (decide (r = j)) as [->|Hn].
    + exists (f x). split; [by rewrite list_lookup_alter_eq, Hx|apply Hf].
    + exists x. split; [by rewrite list_lookup_alter_ne|done].
  - set (x := mkRun i _ _ _ _ _). transitivity (put_runs (runs s ++ [x])%list s).
    { split; try done; [intros j e' He'; by exists e'|]. intros r y Hy. exists y. split; [by apply lookup_app_l_Some|done]. }
    apply grows_entry. intros e' He'. split; [done|]. split; [done|]. split; [left; by apply (is_live_spec s)|]. done.
  - apply grows_entry. intros e' He'. assert (e' = e) as -> by congruence. split; [done|]. split; [done|]. split; [by right|]. split; [|done].
    intros _. simpl. unfold later. lia.
  - apply grows_heap; [lia|]. intros e' He'. assert (e' = e) as -> by congruence. split; [done|]. split; [simpl; pose proof (in_force s HI i e Hi); lia|]. split; [by right|]. done.
  - apply grows_entry. intros e' He'. split; [done|]. split; [done|]. split; [by right|]. done.
  - apply grows_heap; [lia|]. intros e' He'. split; [done|]. split; [simpl; pose proof (in_force s HI i e' He'); lia|]. split; [by right|]. done.
  - split; simpl; try done; [lia|intros i e He; by exists e|intros r x Hx; by exists x].
  - assert (Hl : live i s) by (apply (entry_of_spec s k i HI) in Hk; by apply (list_elem_of_fmap_2 snd) in Hk).
    transitivity (on_entry i (with_epoch (S (epoch s))) s); [apply grows_entry; intros e' He'; split; [done|]; split; [done|]; split; [by left|done]|].
    split; try done; [|intros j e He; by exists e|intros r x Hx; by exists x]. intros j _ Hj. by eapply (live_filter j k s).
  - split; simpl; try done; [|intros j e He; by exists e|intros r x Hx; by exists x]. intros j _ Hj. by apply not_elem_of_nil in Hj.
  - apply grows_entry. intros e' He'. split; [done|]. split; [done|]. split; [left; by apply is_live_spec|]. split; [by rewrite Hr|done].
  - apply grows_entry. intros e' He'. assert (e' = e) as -> by congruence. split; [done|]. split; [done|]. split; [by right|]. split; [done|by rewrite Hr].
Qed.

Lemma reach_grows reads s s' : reach reads s s' -> Inv s -> grows true reads s s' /\ (epoch s' = epoch s -> grows false reads s s').
Proof.
  assert (Hs : forall resets a b, steps resets reads a b -> Inv a -> grows resets reads a b).
  { intros resets a b H. induction H as [|a b c H _ IH]; [done|]. intros HI. etransitivity; [by apply step_grows|]. by eapply IH, step_inv. }
  intros [H1 H2] HI. split; [by apply Hs|]. intros E. by apply Hs; [apply H2|].
Qed.
