(* ===== verification/NavigationWaiters.v ===== *)
(** Waiters of the navigation coordinator: after every event, one still pending is one
    with nothing to settle it. *)

From S2P Require Import Prelude JsString Json NavigationKeys NavigationRevalidator NavigationSteps.

Local Open Scope string_scope.
Local Open Scope Z_scope.

(** ** What a verdict depends on *)

Definition settled (s : Revalidator) : Prop := Forall (fun x => verdict s x.2 = None) (targetWaiters s).

Lemma live_entries_spec s e : e ∈ live_entries s <-> exists i, live i s /\ heap s !! i = Some e.
Proof.
  unfold live_entries, live. rewrite list_elem_of_omap. split.
  - intros ([k i] & Hin & He). exists i. split; [by apply (list_elem_of_fmap_2 snd) in Hin|done].
  - intros (i & ([k j] & -> & Hin)%list_elem_of_fmap & He). by exists (k, j).
Qed.

Lemma forallb_false {A} (f : A -> bool) l : forallb f l = false <-> exists x, In x l /\ f x = false.
Proof.
  induction l as [|x l IH]; simpl; [split; [done|by intros (? & [] & _)]|]. rewrite andb_false_iff, IH. split.
  - intros [H|(y & Hy & H)]; eauto.
  - intros (y & [->|Hy] & H); eauto.
Qed.

(** A waiter is left when its generation stands, nothing it waits for failed, and
    something it waits for is behind. *)
Lemma verdict_none s w : verdict s w = None <->
  waiter_generation w = generationIDValue s /\
  (forall t e, t ∈ targets w -> e ∈ live_entries s -> concerned (keys w) t (state e) = true -> error (state e) <> None -> rerun e = true) /\
  (exists t e, t ∈ targets w /\ e ∈ live_entries s /\ concerned (keys w) t (state e) = true /\ has_reached t (state e) = false).
Proof.
  unfold verdict. destruct (String.eqb_spec (waiter_generation w) (generationIDValue s)) as [Eg|Eg]; simpl; [|split; [done|by intros [? _]]].
  destruct (targetFailed w s) eqn:Ef.
  - split; [done|]. intros (_ & Hf & _). exfalso. unfold targetFailed in Ef. apply existsb_exists in Ef as (t & Ht & (e & He & Hc)%existsb_exists).
    apply andb_prop in Hc as [[Hc Her]%andb_prop Hr%negb_true_iff]. rewrite (Hf t e) in Hr; [done|by apply list_elem_of_In|by apply list_elem_of_In|done|].
    unfold is_error in Her. by destruct (error (state e)).
  - assert (Hf : forall t e, t ∈ targets w -> e ∈ live_entries s -> concerned (keys w) t (state e) = true -> error (state e) <> None -> rerun e = true).
    { intros t e Ht He Hc Her. destruct (rerun e) eqn:Hr; [done|]. enough (targetFailed w s = true) by congruence. unfold targetFailed.
      apply existsb_exists. exists t. split; [by apply list_elem_of_In|]. apply existsb_exists. exists e. split; [by apply list_elem_of_In|].
      unfold is_error. rewrite Hc, Hr. by destruct (error (state e)). }
    destruct (targetsSatisfied w s) eqn:Es; unfold targetsSatisfied in Es; rewrite Eg, String.eqb_refl in Es; simpl in Es.
    + split; [done|]. intros (_ & _ & t & e & Ht & He & Hc & Hn). rewrite forallb_forall in Es. apply list_elem_of_In in Ht, He. specialize (Es t Ht).
      rewrite forallb_forall in Es. specialize (Es e He). by rewrite Hc, Hn in Es.
    + split; [|done]. intros _. split; [done|]. split; [done|]. apply forallb_false in Es as (t & Ht & (e & He & H)%forallb_false).
      apply orb_false_elim in H as [Hc%negb_false_iff Hr]. exists t, e. rewrite !list_elem_of_In. done.
Qed.

(** A change no verdict of a pending waiter can turn on: it adds entries without an error
    and marks others, for a re-run at most. *)
Record calm (s s' : Revalidator) : Prop := {
  ca_waiters : targetWaiters s' = targetWaiters s; ca_generation : generationIDValue s' = generationIDValue s;
  ca_old : forall e', e' ∈ live_entries s' -> error (state e') = None \/ exists e, e ∈ live_entries s /\ state e' = state e /\ (rerun e = true -> rerun e' = true);
  ca_new : forall e, e ∈ live_entries s -> exists e', e' ∈ live_entries s' /\ state e' = state e }.

Lemma calm_settled s s' : calm s s' -> settled s -> settled s'.
Proof.
  intros [Hw Hg Ho Hn]. unfold settled. rewrite Hw. intros HF. eapply Forall_impl; [exact HF|]. intros [id w] Hv. apply verdict_none in Hv as (Eg & Hf & t & e & Ht & He & Hc & Hr).
  apply verdict_none. split; [by rewrite Hg|]. split.
  - intros t' e' Ht' He' Hc' Her. destruct (Ho e' He') as [?|(e0 & He0 & Hst & Hrr)]; [done|]. rewrite Hst in Hc', Her. by apply Hrr, (Hf t' e0).
  - destruct (Hn e He) as (e' & He' & Hst). exists t, e'. by rewrite Hst.
Qed.

Lemma calm_same s s' : targetWaiters s' = targetWaiters s -> generationIDValue s' = generationIDValue s -> entries s' = entries s -> heap s' = heap s -> calm s s'.
Proof.
  intros Hw Hg He Hh. assert (E : live_entries s' = live_entries s) by (unfold live_entries; by rewrite He, Hh).
  split; [done|done| |]; rewrite E; intros e Hin; [right|]; by exists e.
Qed.

Lemma calm_entry i f s : (forall e, state (f e) = state e /\ (rerun e = true -> rerun (f e) = true)) \/ ~ live i s -> calm s (on_entry i f s).
Proof.
  intros Hf. split; [done|done| |].
  - intros e' (j & Hj & He')%live_entries_spec. right. destruct (on_entry_lookup i f s j e' He') as [[-> (e & He & ->)]|[_ He]].
    + destruct Hf as [Hf|Hf]; [|by destruct Hf]. exists e. split; [apply live_entries_spec; by exists i|apply Hf].
    + exists e'. split; [apply live_entries_spec; by exists j|done].
  - intros e (j & Hj & He)%live_entries_spec. destruct (decide (j = i)) as [->|Hne].
    + destruct Hf as [Hf|Hf]; [|by destruct Hf]. exists (f e). split; [|apply Hf]. apply live_entries_spec. exists i. split; [done|by apply on_entry_same].
    + exists e. split; [|done]. apply live_entries_spec. exists j. split; [done|by apply on_entry_other].
Qed.

Lemma resolve_settles s : settled (resolveTargetWaiters s).
Proof. unfold settled. simpl. apply Forall_forall. intros [id w] Hin. by apply list_elem_of_filter in Hin as [Hv _]. Qed.

Lemma no_waiters_settled s : targetWaiters s = [] -> settled s.
Proof. intros H. unfold settled. rewrite H. constructor. Qed.

Lemma emit_settles env rounds fuel i s : settled (emit env rounds fuel i s).
Proof. destruct fuel; apply resolve_settles. Qed.

(** ** Methods *)

Lemma fold_keeps {A} (P : Revalidator -> Prop) (f : Revalidator -> A -> Revalidator) l s : (forall s x, P s -> P (f s x)) -> P s -> P (foldl f s l).
Proof. intros Hf. revert s. induction l as [|x l IH]; intros s Hs; [done|]. by apply IH, Hf. Qed.

Lemma each_keeps (P : Revalidator -> Prop) rounds body s : (forall i s, P s -> P (body i s)) -> P s -> P (each_entry rounds body s).
Proof.
  intros Hb Hs. assert (Hv : forall i s, P s -> P (visit body i s)) by (intros i s1 ?; unfold visit; destruct (is_live i s1); auto).
  unfold each_entry. assert (H1 : P (foldl (fun s i => visit body i s) s (entries s).*2)) by (apply fold_keeps; auto).
  revert H1. generalize (foldl (fun s i => visit body i s) s (entries s).*2) as s1, (length (heap s)) as from. clear s Hs. intros s1 from. revert s1 from.
  induction rounds as [|n IH]; intros s1 from H1; simpl; [done|]. destruct (list_find _ _) as [[? [? i]]|]; [|done]. by apply IH, Hv.
Qed.

Section methods.
Context (emit : nat -> Revalidator -> Revalidator) (rounds : nat) (Hemit : forall i s, settled (emit i s)).

Lemma start_tail i r s : settled s -> settled (if disposed s || negb (is_live i s) then on_run r (fun x => at_phase Finished (abort_run x)) s
  else on_entry i (with_promise (Some r)) (on_run r (at_phase (Requested (match heap s !! i with Some e => usableNavigationBase (state e) | None => None end))) s)).
Proof.
  intros Hs. destruct (_ || _); [eapply calm_settled; [by apply calm_same|done]|].
  eapply calm_settled; [by apply calm_entry; left|]. eapply calm_settled; [by apply calm_same|done].
Qed.

(** A start that goes through settles every waiter it can. *)
Lemma start_settles i s e : heap s !! i = Some e -> request e = true -> disposed s = false -> is_live i s = true -> settled (start emit i s).
Proof. intros He Hq Hd Hl. unfold start. rewrite He, Hq, Hd, Hl. apply start_tail, Hemit. Qed.

Lemma start_settled i s : settled s -> settled (start emit i s).
Proof. intros Hs. unfold start. destruct (heap s !! i) as [e|]; [|done]. destruct (_ || _); [done|]. apply start_tail, Hemit. Qed.

Lemma raise_settled i rev forced s : settled s -> settled (raise emit i rev forced s).
Proof.
  intros Hs. unfold raise. destruct (heap s !! i) as [e|]; [|done]. destruct (_ && _); [done|]. set (s1 := emit _ _). assert (H1 : settled s1) by apply Hemit.
  clearbody s1. destruct (heap s1 !! i) as [e1|]; [|done]. case_bool_decide; [destruct (_ && _); [by apply start_settled|done]|].
  eapply calm_settled; [by apply calm_entry; left|done].
Qed.

Lemma invalidate_settled t s : settled s -> settled (invalidate emit rounds t s).
Proof.
  intros Hs. unfold invalidate. destruct (disposed s); [done|]. apply (each_keeps settled); [|done]. intros i s1 H1. destruct (heap s1 !! i); [|done].
  destruct (matchesTarget _ t); [by apply raise_settled|done].
Qed.

Lemma force_settled ks s : settled s -> settled (force emit ks s).
Proof.
  intros Hs. unfold force. destruct (disposed s); [done|]. apply (fold_keeps settled); [|done]. intros s1 k H1. destruct (entry_of k s1); [by apply raise_settled|done].
Qed.

Lemma reset_settled g s : settled s -> settled (resetGeneration emit rounds g s).
Proof.
  intros Hs. unfold resetGeneration. destruct (_ || _); [done|]. apply (each_keeps settled); [|by apply no_waiters_settled].
  intros i s1 H1. unfold reset_entry. destruct (heap s1 !! i) as [e|]; [|done]. set (s2 := emit _ _). assert (H2 : settled s2) by apply Hemit. clearbody s2.
  destruct (heap s2 !! i) as [e2|]; [|done]. destruct (request e2); [by apply start_settled|done].
Qed.

Lemma create_calm k s : Inv s -> calm s (entry k s).2.
Proof.
  intros HI. unfold entry. destruct (entry_of k s); [by apply calm_same|]. simpl. set (e0 := mkEntry _ _ _ _ _ _ _).
  split; [done|done| |].
  - intros e' (j & Hj & He')%live_entries_spec. simpl in He'. apply lookup_app_Some in He' as [He'|[_ He']].
    + right. exists e'. split; [|done]. apply live_entries_spec. exists j. split; [|done]. unfold live in Hj. simpl in Hj. rewrite fmap_app in Hj.
      apply elem_of_app in Hj as [?|Hj%list_elem_of_singleton]; [done|]. subst j. apply lookup_lt_Some in He'. simpl in He'. lia.
    + left. apply list_lookup_singleton_Some in He' as [_ <-]. done.
  - intros e (j & Hj & He)%live_entries_spec. exists e. split; [|done]. apply live_entries_spec. exists j. split.
    + unfold live. simpl. rewrite fmap_app. apply elem_of_app. by left.
    + simpl. by apply lookup_app_l_Some.
Qed.

Lemma tracked_settled k s : Inv s -> settled s -> settled (on_entry (entry k s).1 with_request (entry k s).2).
Proof. intros HI Hs. eapply calm_settled; [by apply calm_entry; left|]. eapply calm_settled; [by apply create_calm|done]. Qed.

Lemma load_settled k s : Inv s -> settled s -> settled (load emit k s).
Proof.
  intros HI Hs. unfold load. destruct (disposed s); [done|]. pose proof (tracked_settled k s HI Hs) as H1. destruct (entry k s) as [i s1]. simpl in H1.
  destruct (heap _ !! i) as [e|]; [|done]. destruct (negb _); [done|]. destruct (_ && _); [done|]. by apply start_settled.
Qed.

Lemma release_settled k s : settled s -> settled (release k s).
Proof. intros Hs. unfold release. destruct (disposed s); [done|]. destruct (entry_of k s); [apply resolve_settles|done]. Qed.

Lemma wait_settled ts g ks s : settled s -> settled (waitForTargets ts g ks s).
Proof.
  intros Hs. unfold waitForTargets. destruct (negb _); [by eapply calm_settled; [apply calm_same|]|].
  destruct (targetsSatisfied _ s); [by eapply calm_settled; [apply calm_same|]|apply resolve_settles].
Qed.

Lemma apply_settled p s : settled s -> settled (applyNavigationInvalidation emit rounds p s).
Proof.
  intros Hs. unfold applyNavigationInvalidation. set (s1 := if String.eqb _ _ then s else _).
  assert (H1 : settled s1) by (unfold s1; destruct (String.eqb _ _); [done|by apply reset_settled]). clearbody s1.
  unfold acceptSequence. set (s2 := put_lastSequence _ s1). assert (H2 : settled s2) by (eapply calm_settled; [by apply calm_same|done]).
  set (gap := isSequenceGap _ _). clearbody gap s2. set (s3 := if gap then _ else s2). assert (H3 : settled s3) by (unfold s3; destruct gap; [by apply force_settled|done]).
  clearbody s3. set (s4 := foldl _ s3 _). assert (H4 : settled s4) by (apply (fold_keeps settled); [intros; by apply invalidate_settled|done]).
  destruct gap; [done|by apply force_settled].
Qed.

Lemma call_settles c s : Inv s -> settled s -> settled (call emit rounds c s).
Proof.
  intros HI Hs. destruct c as [k|k|k|ks| |t|g| |ts g ks|p|id|p|p]; cbn [call].
  - by apply load_settled.
  - unfold track. destruct (disposed s); [done|]. pose proof (tracked_settled k s HI Hs) as H1. by destruct (entry k s).
  - by apply release_settled.
  - by apply force_settled.
  - by apply force_settled.
  - by apply invalidate_settled.
  - by apply reset_settled.
  - unfold dispose. destruct (disposed s); [done|by apply no_waiters_settled].
  - by apply wait_settled.
  - unfold waitForInvalidation. destruct (disposed s); by eapply calm_settled; [apply calm_same|].
  - unfold cancel. case_bool_decide; [by eapply calm_settled; [apply calm_same|]|done].
  - by eapply calm_settled; [apply calm_same|].
  - by apply apply_settled.
Qed.

(** *** Continuations *)

Lemma land_settled r s : settled s -> settled (land emit r s).
Proof.
  intros Hs. unfold land. destruct (runs s !! r) as [x|]; [|done]. destruct (phase x) as [| |a| |]; try done.
  set (s1 := on_run r _ s). assert (H1 : settled s1) by (eapply calm_settled; [by apply calm_same|done]). clearbody s1. destruct a as [resp|c].
  - unfold responded. destruct (heap s1 !! object x) as [e|]; [|done]. destruct (_ || _); [done|]. destruct (validate _ _ _); [apply Hemit|].
    destruct (_ || _); apply Hemit.
  - unfold threw. destruct (aborted x); [done|]. destruct c; try apply Hemit. unfold recoverInvalidBase. destruct (heap s1 !! object x) as [e|]; [|done].
    destruct (recoveringBase e); apply Hemit.
Qed.

Lemma finish_settled r s : Inv s -> settled s -> settled (finish emit r s).
Proof.
  intros HI Hs. unfold finish. destruct (runs s !! r) as [x|] eqn:Hr; [|done]. destruct (phase x) as [| |a| |]; try done.
  set (s1 := on_run r (at_phase Finished) s). assert (H1 : settled s1) by (eapply calm_settled; [by apply calm_same|done]).
  destruct (heap s1 !! object x) as [e|] eqn:He; [|done]. destruct (_ && _); [|done]. set (s2 := on_entry (object x) _ s1).
  assert (H2 : settled s2) by (eapply calm_settled; [by apply calm_entry; left|done]). destruct (rerun e); [|done].
  destruct (decide (object x ∈ (entries s).*2)) as [Hl|Hl].
  - assert (He2 : heap (on_entry (object x) (with_rerun false) s2) !! object x = Some (with_rerun false (with_promise None (with_controller None e)))).
    { apply (on_entry_same _ (with_rerun false) s2 (with_promise None (with_controller None e))). by apply (on_entry_same _ (fun e => with_promise None (with_controller None e))). }
    apply (start_settles _ _ (with_rerun false (with_promise None (with_controller None e)))).
    + exact He2.
    + by apply (in_request s HI (object x) e).
    + destruct (disposed s) eqn:Hd; [|exact Hd]. rewrite (in_disposed s HI Hd) in Hl. by apply not_elem_of_nil in Hl.
    + unfold is_live. rewrite He2. apply bool_decide_eq_true.
      destruct (live_entry s _ HI Hl) as (e' & He' & Hin). assert (e' = e) as -> by (change (heap s !! object x = Some e) in He; congruence). by apply (entry_of_spec s _ _ HI).
  - apply start_settled. eapply calm_settled; [by apply calm_entry; right|done].
Qed.
End methods.

Lemma take_settled env rounds fuel ev s : Inv s -> settled s -> settled (take env rounds fuel ev s).
Proof.
  intros HI Hs. destruct ev as [c|r a|r|r]; cbn [take].
  - apply call_settles; [intros; apply emit_settles|done|done].
  - unfold answers. destruct (runs s !! r) as [x|]; [|done]. destruct (phase x); done.
  - apply land_settled; [intros; apply emit_settles|done].
  - apply finish_settled; [intros; apply emit_settles|done|done].
Qed.

Lemma play_settled env rounds fuel es s : Inv s -> settled s -> settled (run env rounds fuel es s).
Proof.
  revert s. induction es as [|e es IH]; intros s HI Hs; [done|]. simpl. apply IH; [|by apply take_settled].
  eapply (reach_inv true); [apply take_reach|done].
Qed.
