(* ===== verification/NavigationPursuit.v ===== *)
(** What is stale is pursued, where listeners begin reads only on news of an answer: a
    live resource that is behind has a request under way, has shown its error, or was never
    asked for.

    What a method does to one entry leaves the others alone, and so do its listeners but
    for what they release; what is known of an entry is carried over both. *)

From S2P Require Import Prelude JsString Json NavigationKeys NavigationRevalidator NavigationSteps NavigationWaiters.

Local Open Scope string_scope.
Local Open Scope Z_scope.

(** ** Leaving entries alone *)

Record view (i : nat) (s s' : Revalidator) : Prop := {
  vi_entry : heap s' !! i = heap s !! i; vi_runs : forall r x, object x = i -> runs s !! r = Some x <-> runs s' !! r = Some x }.

(** An entry as it is made, with no run. *)
Definition brand_new (i : nat) (s : Revalidator) : Prop :=
  exists e k g, heap s !! i = Some e /\ state e = unread k g /\ promise e = None /\ rerun e = false /\ (entryEpoch e <= epoch s)%nat /\
    forall r x, runs s !! r = Some x -> object x <> i.

(** [spares j]: every live entry but [j] is as it was, or new. *)
Record spares (j : option nat) (s s' : Revalidator) : Prop := {
  sp_epoch : epoch s' = epoch s; sp_generation : generationIDValue s' = generationIDValue s; sp_heap : (length (heap s) <= length (heap s'))%nat;
  sp_view : forall i, live i s' -> (live i s /\ (j <> Some i -> view i s s')) \/ ((length (heap s) <= i)%nat /\ (j <> Some i -> brand_new i s')) }.

#[export] Instance view_preorder i : PreOrder (view i).
Proof. split; [by split|]. intros a b c [E1 R1] [E2 R2]. split; [congruence|]. intros r x Ho. rewrite (R1 r x Ho). by apply R2. Qed.

Lemma view_new i s s' : view i s s' -> epoch s' = epoch s -> brand_new i s -> brand_new i s'.
Proof.
  intros [E R] Ee (e & k & g & He & Hs & Hp & Hr & Hee & Hx). exists e, k, g. rewrite E, Ee. split; [done|]. do 4 (split; [done|]).
  intros r x Hrx Ho. apply (R r x Ho) in Hrx. by apply (Hx r x).
Qed.

#[export] Instance spares_preorder j : PreOrder (spares j).
Proof.
  split; [intros s; split; try done; intros i Hi; by left|]. intros a b c [A1 A2 A3 A4] [B1 B2 B3 B4]. split; [congruence|congruence|lia|].
  intros i Hi. destruct (B4 i Hi) as [[Hl Hv]|[Hn Hb]]; [|right; split; [lia|done]]. destruct (A4 i Hl) as [[Hl0 Hv0]|[Hn Hb]].
  - left. split; [done|]. intros Hj. etransitivity; [by apply Hv0|by apply Hv].
  - right. split; [done|]. intros Hj. by apply (view_new i b c); [apply Hv| |apply Hb].
Qed.

Lemma spares_weaken j s s' : spares None s s' -> spares j s s'.
Proof. intros [A1 A2 A3 A4]. split; [done|done|done|]. intros i Hi. destruct (A4 i Hi) as [[Hl Hv]|[Hn Hb]]; [left|right]; (split; [done|]); intros _; [by apply Hv|by apply Hb]. Qed.

(** The parts a waiter's step leaves. *)
Lemma spares_core j s s' : epoch s' = epoch s -> generationIDValue s' = generationIDValue s -> entries s' = entries s -> heap s' = heap s -> runs s' = runs s -> spares j s s'.
Proof.
  intros E1 E2 E3 E4 E5. split; [done|done|by rewrite E4|]. intros i Hi. left. split; [unfold live in *; by rewrite <- E3|]. intros _. split; [by rewrite E4|by rewrite E5].
Qed.

Lemma spares_entry i f s : spares (Some i) s (on_entry i f s).
Proof.
  split; [done|done|unfold on_entry; simpl; by rewrite length_alter|]. intros i' Hi'. left. split; [done|]. intros Hne. split; [|done].
  unfold on_entry. simpl. apply list_lookup_alter_ne. congruence.
Qed.

Lemma view_run i r f s : (forall x, object (f x) = object x) -> (forall x, runs s !! r = Some x -> object x <> i) -> view i s (on_run r f s).
Proof.
  intros Hf Hr. split; [done|]. intros r' x Ho. unfold on_run. simpl. destruct (decide (r = r')) as [->|Hne].
  - rewrite list_lookup_alter_eq. destruct (runs s !! r') as [y|] eqn:Hy; [|done]. simpl. specialize (Hr y eq_refl). split; [intros [= ->]; by destruct Hr|].
    intros [= <-]. by rewrite Hf in Ho.
  - by rewrite list_lookup_alter_ne.
Qed.

Lemma spares_run i r f s : (forall x, object (f x) = object x) -> (forall x, runs s !! r = Some x -> object x = i) -> spares (Some i) s (on_run r f s).
Proof.
  intros Hf Hr. split; [done|done|done|]. intros i' Hi'. left. split; [done|]. intros Hne. apply view_run; [done|]. intros x Hx. rewrite (Hr x Hx). congruence.
Qed.

Lemma spares_push i x s : object x = i -> spares (Some i) s (put_runs (runs s ++ [x])%list s).
Proof.
  intros Hx. split; [done|done|done|]. intros i' Hi'. left. split; [done|]. intros Hne. split; [done|]. intros r y Ho. simpl. split.
  - intros Hy. by apply lookup_app_l_Some.
  - intros [Hy|[_ Hy]]%lookup_app_Some; [done|]. apply list_lookup_singleton_Some in Hy as [_ <-]. congruence.
Qed.

(** ** Listeners that begin reads only on news *)

(** News of an answer: the resource read, or why it could not be. *)
Definition announces (x : ResourceState) : bool := negb (loading x) && (is_error x || negb (stale x)).

Definition mild (c : Call) : Prop :=
  match c with Load _ | Force _ | ForceLocations | Invalidate _ | ResetGeneration _ | ApplyInvalidation _ => False | _ => True end.

Lemma with_request_same s i e : Inv s -> heap s !! i = Some e -> with_request e = e.
Proof. intros HI He. pose proof (in_request s HI i e He) as Hq. destruct e. simpl in Hq. by subst. Qed.

Lemma on_entry_id i f s e : heap s !! i = Some e -> f e = e -> on_entry i f s = s.
Proof.
  intros He Hf. unfold on_entry. enough (alter f i (heap s) = heap s) as -> by (by destruct s). apply list_eq. intros j. destruct (decide (i = j)) as [->|Hne].
  - by rewrite list_lookup_alter_eq, He; simpl; rewrite Hf.
  - by rewrite list_lookup_alter_ne.
Qed.

Lemma tracked_spares k s : Inv s -> spares None s (on_entry (entry k s).1 with_request (entry k s).2).
Proof.
  intros HI. unfold entry. destruct (entry_of k s) as [i|] eqn:Hk; simpl.
  - enough (on_entry i with_request s = s) as -> by done. apply (entry_of_spec s k i HI) in Hk. destruct (in_entries s HI k i Hk) as (e & He & _).
    apply (on_entry_id i _ s e He). by eapply with_request_same.
  - set (e0 := mkEntry _ _ _ _ _ _ _). split; [done|done|unfold on_entry; simpl; rewrite length_alter, length_app; lia|].
    intros i Hi. unfold live in Hi. simpl in Hi. rewrite fmap_app in Hi. apply elem_of_app in Hi as [Hi|Hi%list_elem_of_singleton].
    + left. split; [done|]. intros _. assert (Hlt : (i < length (heap s))%nat).
      { destruct (live_entry s i HI Hi) as (e & He & _). by eapply lookup_lt_Some. }
      split; [|done]. unfold on_entry. simpl. rewrite list_lookup_alter_ne by lia. by apply lookup_app_l.
    + simpl in Hi. subst i. right. split; [done|]. intros _. exists (with_request e0), k, (generationIDValue s). split.
      { unfold on_entry. simpl. rewrite list_lookup_alter_eq, list_lookup_middle by done. done. }
      do 3 (split; [done|]). split; [done|]. intros r x Hr Ho. destruct (in_runs s HI r x Hr) as (_ & ? & _). lia.
Qed.

Lemma abort_view i j e s : Inv s -> heap s !! j = Some e -> i <> j -> view i s (abort e s).
Proof.
  intros HI He Hne. unfold abort. destruct (controller e) as [r|] eqn:Hc; [|done]. apply view_run; [done|].
  intros x Hx. destruct (in_controller s HI j e r He Hc) as (y & Hy & <-). congruence.
Qed.

Lemma abort_core e s : epoch (abort e s) = epoch s /\ generationIDValue (abort e s) = generationIDValue s /\ disposed (abort e s) = disposed s /\ entries (abort e s) = entries s /\ heap (abort e s) = heap s.
Proof. unfold abort. by destruct (controller e). Qed.

Lemma release_spares k s : Inv s -> spares None s (release k s).
Proof.
  intros HI. assert (HI' : Inv (release k s)) by (by apply (reach_inv false s); [apply release_reach|]). revert HI'.
  unfold release. destruct (disposed s); [done|]. destruct (entry_of k s) as [j|] eqn:Hk; [|done]. apply (entry_of_spec s k j HI) in Hk.
  destruct (in_entries s HI k j Hk) as (e & He & Hke). set (s1 := on_entry j (with_epoch (S (epoch s))) s).
  assert (He1 : heap s1 !! j = Some (with_epoch (S (epoch s)) e)) by (by apply on_entry_same). rewrite He1. set (s2 := abort _ s1). intros HI'.
  destruct (abort_core (with_epoch (S (epoch s)) e) s1) as (E1 & E2 & _ & E3 & E4). fold s2 in E1, E2, E3, E4.
  split; [exact E1|exact E2|simpl; rewrite E4; unfold s1, on_entry; simpl; by rewrite length_alter|]. intros i Hi. left.
  assert (Hl : live i s).
  { unfold live in Hi. simpl in Hi. rewrite E3 in Hi. exact (live_filter i k s Hi). }
  split; [done|]. intros _. assert (Hne : i <> j).
  { intros ->. destruct (live_entry _ j HI' Hi) as (e' & He' & Hin). simpl in He'. rewrite E4, He1 in He'. injection He' as <-. simpl in Hin.
    apply list_elem_of_filter in Hin as [Hin _]. by destruct Hin. }
  pose proof Hl as Hl0. transitivity s1; [apply (sp_view _ _ _ (spares_entry j (with_epoch (S (epoch s))) s)) in Hl as [[_ Hv]|[Hn _]]|].
  - apply Hv. congruence.
  - apply lookup_lt_Some in He. destruct (live_entry s i HI Hl0) as (e' & He' & _). apply lookup_lt_Some in He'. lia.
  - transitivity s2; [|by split]. unfold s2, abort. destruct (controller _) as [r|] eqn:Hc; [|done]. apply view_run; [done|].
    intros x Hx. destruct (in_controller s HI j e r He Hc) as (y & Hy & <-). change (runs s !! r = Some x) in Hx. congruence.
Qed.

Lemma mild_spares emit rounds c s : Inv s -> mild c -> spares None s (call emit rounds c s).
Proof.
  intros HI Hc. destruct c as [k|k|k|ks| |t|g| |ts g ks|p|id|p|p]; cbn [mild] in Hc; try done; cbn [call].
  - unfold track. destruct (disposed s); [done|]. pose proof (tracked_spares k s HI) as H. by destruct (entry k s).
  - by apply release_spares.
  - unfold dispose. destruct (disposed s); [done|]. set (s1 := foldl _ _ _).
    assert (H1 : epoch s1 = epoch s /\ generationIDValue s1 = generationIDValue s /\ heap s1 = heap s).
    { unfold s1. change (epoch s) with (epoch (put_disposed true s)). change (generationIDValue s) with (generationIDValue (put_disposed true s)). change (heap s) with (heap (put_disposed true s)).
      generalize (put_disposed true s) as s2, (live_entries s) as l. clear s1. intros s2 l. revert s2. induction l as [|e l IH]; intros s2; [done|]. simpl.
      destruct (abort_core e s2) as (E1 & E2 & _ & _ & E3). rewrite <- E1, <- E2, <- E3. apply IH. }
    destruct H1 as (E1 & E2 & E3). split; [exact E1|exact E2|simpl; by rewrite E3|]. intros i Hi. by apply not_elem_of_nil in Hi.
  - unfold waitForTargets. destruct (negb _); [by apply spares_core|]. destruct (targetsSatisfied _ s); by apply spares_core.
  - unfold waitForInvalidation. destruct (disposed s); by apply spares_core.
  - unfold cancel. case_bool_decide; [by apply spares_core|done].
  - by apply spares_core.
Qed.

(** On other states a listener may follow, release, wait or dispose, not begin a read. *)
Definition discreet (env : Environment) : Prop := forall n x, announces x = false -> Forall mild (env n x).

Lemma emit_spares env rounds fuel i s e : discreet env -> Inv s -> heap s !! i = Some e -> announces (state e) = false -> spares None s (emit env rounds fuel i s).
Proof.
  intros Henv HI He Hn. destruct fuel as [|fuel]; simpl; [by apply spares_core|].
  match goal with |- spares _ _ (resolveTargetWaiters ?x) => transitivity x; [|by apply spares_core] end.
  destruct (disposed s); [done|]. transitivity (tock s); [by apply spares_core|]. rewrite He. specialize (Henv (tick s) _ Hn).
  assert (HI1 : Inv (tock s)) by (by apply (reach_inv false s); [apply same_core_reach|]). revert HI1.
  generalize (tock s) as s1. intros s1. clear HI. revert s1. induction Henv as [|c l Hc _ IH]; intros s1 HI1; [done|]. simpl.
  etransitivity; [by apply mild_spares|]. apply IH. eapply (reach_inv false); [apply call_reach; intros; apply emit_reach|done].
Qed.

(** ** Entries that are pursued *)

Definition untouched (x : ResourceState) : Prop := exists k g, x = unread k g.

(** What an entry with no run shows. *)
Definition at_rest (x : ResourceState) : Prop := loading x = false /\ (stale x = false \/ error x <> None \/ untouched x).

Definition underway (p : RunPhase) (e : Entry) : Prop :=
  match p with
  | Requested _ | Answered _ => True
  | Landed => loading (state e) = false /\ (rerun e = true \/ stale (state e) = false \/ error (state e) <> None)
  | _ => False
  end.

(** An entry's promise is a run that can still land; without one it is at rest; no other
    run can touch it. *)
Record pursued (i : nat) (s : Revalidator) : Prop := {
  pu_promise : forall e r, heap s !! i = Some e -> promise e = Some r -> controller e = Some r /\ entryEpoch e = epoch s /\
    exists x, runs s !! r = Some x /\ object x = i /\ runEpoch x = epoch s /\ aborted x = false /\ underway (phase x) e;
  pu_rest : forall e, heap s !! i = Some e -> promise e = None -> at_rest (state e) /\ rerun e = false;
  pu_others : forall e r x, heap s !! i = Some e -> runs s !! r = Some x -> object x = i ->
    phase x = Finished \/ (aborted x = true /\ (runEpoch x < entryEpoch e)%nat) \/ promise e = Some r;
  pu_epoch : forall e, heap s !! i = Some e -> (entryEpoch e <= epoch s)%nat }.

Definition Pursued (s : Revalidator) : Prop := forall i, live i s -> pursued i s.

Lemma view_pursued i s s' : view i s s' -> epoch s' = epoch s -> pursued i s -> pursued i s'.
Proof.
  intros [E R] Ee [P1 P2 P3 P4]. split; rewrite E, ?Ee.
  - intros e r He Hp. destruct (P1 e r He Hp) as (? & ? & x & Hx & Ho & ?). split; [done|]. split; [done|]. exists x. split; [by apply (R r x Ho)|done].
  - done.
  - intros e r x He Hr Ho. apply (P3 e r x He); [by apply (R r x Ho)|done].
  - done.
Qed.

Lemma new_pursued i s : brand_new i s -> pursued i s.
Proof.
  intros (e & k & g & He & Hs & Hp & Hr & Hee & Hx). split; intros e'; rewrite He.
  - intros r [= <-]. by rewrite Hp.
  - intros [= <-] _. split; [|done]. rewrite Hs. split; [done|]. right. right. by exists k, g.
  - intros r x [= <-] Hrx Ho. by destruct (Hx r x Hrx).
  - by intros [= <-].
Qed.

Lemma spares_pursued j s s' : spares j s s' -> (forall i, j = Some i -> live i s' -> pursued i s') -> Pursued s -> Pursued s'.
Proof.
  intros [E1 E2 E3 Hv] Hj HP i Hi. destruct (decide (j = Some i)) as [Hji|Hji]; [by apply Hj|]. destruct (Hv i Hi) as [[Hl Hw]|[_ Hn]].
  - apply (view_pursued i s s'); [by apply Hw|done|by apply HP].
  - by apply new_pursued, Hn.
Qed.

(** Every run of the entry is over, or aborted and of an older epoch. *)
Definition ready (i : nat) (s : Revalidator) : Prop :=
  forall r x, runs s !! r = Some x -> object x = i -> phase x = Finished \/ (aborted x = true /\ (runEpoch x < epoch s)%nat).

Lemma pursued_ready i s e : heap s !! i = Some e -> promise e = None -> pursued i s -> ready i s.
Proof.
  intros He Hp HP r x Hr Ho. pose proof (pu_epoch _ _ HP e He). destruct (pu_others _ _ HP e r x He Hr Ho) as [?|[[? ?]|?]]; [by left|right; split; [done|lia]|congruence].
Qed.

Lemma view_ready i s s' : view i s s' -> epoch s' = epoch s -> ready i s -> ready i s'.
Proof. intros [E R] Ee HR r x Hr Ho. rewrite Ee. apply (HR r x); [by apply (R r x Ho)|done]. Qed.

Lemma live_not_disposed i s : Inv s -> live i s -> disposed s = false.
Proof. intros HI Hl. destruct (disposed s) eqn:Hd; [|done]. unfold live in Hl. rewrite (in_disposed s HI Hd) in Hl. by apply not_elem_of_nil in Hl. Qed.

Lemma spares_live j s s' i : spares j s s' -> (i < length (heap s))%nat -> live i s' -> live i s /\ (j <> Some i -> view i s s').
Proof. intros HS Hlt Hl. destruct (sp_view _ _ _ HS i Hl) as [?|[? _]]; [done|lia]. Qed.

Section methods.
Context (emit : nat -> Revalidator -> Revalidator) (rounds : nat).
Context (Hreach : forall i s, reach false s (emit i s)).
Context (Hspares : forall i s e, Inv s -> heap s !! i = Some e -> announces (state e) = false -> spares None s (emit i s)).
Context (Hnews : forall i s, Inv s -> Pursued s -> Pursued (emit i s)).

(** What a method of one entry does: others are spared, and the entry is pursued. *)
Definition pursues (i : nat) (s s' : Revalidator) : Prop := spares (Some i) s s' /\ (live i s' -> pursued i s').

Lemma pursues_all i s s' : pursues i s s' -> Pursued s -> Pursued s'.
Proof. intros [H1 H2]. apply (spares_pursued (Some i)); [done|]. by intros ? [= <-]. Qed.

Lemma start_pursues i s e : Inv s -> heap s !! i = Some e -> (live i s -> rerun e = false /\ ready i s) -> pursues i s (start emit i s).
Proof.
  intros HI He Hready. unfold start. rewrite He. destruct (negb (request e) || disposed s || negb (is_live i s)) eqn:Eg.
  - split; [done|]. intros Hl. exfalso. rewrite (in_request s HI i e He), (live_not_disposed i s HI Hl), (proj2 (is_live_spec s i HI) Hl) in Eg. done.
  - apply orb_false_elim in Eg as [[Hq%negb_false_iff Hd]%orb_false_elim Hl%negb_false_iff]. set (r := length (runs s)).
    set (x := mkRun i (epoch s) (generationIDValue s) (forceToken (state e)) false Preparing). set (s0 := put_runs (runs s ++ [x])%list s).
    set (f := fun e => with_state started (with_controller (Some r) (with_epoch (epoch s) e))). set (s1 := on_entry i f s0).
    change (emit i (on_entry i (fun e => with_state started (with_controller (Some r) (with_epoch (epoch s0) e))) s0)) with (emit i s1).
    assert (Hst : step false false s s1) by (by apply (st_begin _ _ s i e)). assert (HI1 : Inv s1) by (by eapply step_inv).
    assert (S1 : spares (Some i) s s1) by (transitivity s0; [by apply spares_push|apply spares_entry]).
    assert (He1 : heap s1 !! i = Some (f e)) by (by apply on_entry_same).
    pose proof (Hspares i s1 (f e) HI1 He1 eq_refl) as S2. set (s2 := emit i s1) in *. assert (HI2 : Inv s2) by (apply (reach_inv false s1); [apply Hreach|done]).
    assert (Hr1 : forall y, runs s2 !! r = Some y -> object y = i).
    { destruct (reach_grows _ _ _ (Hreach i s1) HI1) as [Hg _]. destruct (gr_runs _ _ _ _ Hg r x) as (y & Hy & Ho & _); [by apply list_lookup_middle|].
      intros z Hz. change (emit i s1) with s2 in Hy. by assert (z = y) as -> by congruence. }
    assert (S12 : spares (Some i) s s2) by (etransitivity; [exact S1|by apply spares_weaken]).
    destruct (disposed s2 || negb (is_live i s2)) eqn:Eg.
    + split; [etransitivity; [exact S12|by apply spares_run]|]. intros Hl2. exfalso. change (live i s2) in Hl2.
      by rewrite (live_not_disposed i s2 HI2 Hl2), (proj2 (is_live_spec s2 i HI2) Hl2) in Eg.
    + apply orb_false_elim in Eg as [_ Hl2%negb_false_iff]. apply (is_live_spec s2 i HI2) in Hl2. destruct Hready as [Hrr HR]; [by apply is_live_spec|].
      set (s3 := on_run r _ s2). split; [etransitivity; [exact S12|]; transitivity s3; [by apply spares_run|apply spares_entry]|]. intros _.
      destruct (spares_live _ _ _ i S2) as [_ Hv]; [by eapply lookup_lt_Some|done|]. destruct (Hv ltac:(done)) as [Ev Rv].
      assert (He3 : heap (on_entry i (with_promise (Some r)) s3) !! i = Some (with_promise (Some r) (f e))) by (apply on_entry_same; change (heap s3) with (heap s2); by rewrite Ev).
      assert (Hx2 : runs s2 !! r = Some x) by (apply Rv; [done|by apply list_lookup_middle]).
      assert (Ee : epoch s2 = epoch s) by (by rewrite (sp_epoch _ _ _ S12)).
      split; intros e'; rewrite He3.
      * intros r' [= <-] [= <-]. split; [done|]. split; [simpl; congruence|]. eexists. split; [unfold s3, on_run; simpl; by rewrite list_lookup_alter_eq, Hx2|].
        simpl. change (epoch s3) with (epoch s2). by rewrite Ee.
      * intros [= <-]. done.
      * intros r' y [= <-] Hy Ho. destruct (decide (r = r')) as [<-|Hne]; [by right; right|]. unfold s3, on_run in Hy. simpl in Hy. rewrite list_lookup_alter_ne in Hy by done.
        apply Rv in Hy; [|done]. simpl in Hy. apply lookup_app_Some in Hy as [Hy|[Hge Hy]].
        -- destruct (HR r' y Hy Ho) as [?|[? ?]]; [by left|right; left]. done.
        -- apply list_lookup_singleton_Some in Hy as [Hz _]. unfold r in Hne. lia.
      * intros [= <-]. simpl. change (epoch s3) with (epoch s2). lia.
Qed.

Lemma pursued_start i s e : Inv s -> heap s !! i = Some e -> promise e = None -> (live i s -> pursued i s) -> pursues i s (start emit i s).
Proof.
  intros HI He Hp HP. apply (start_pursues i s e HI He). intros Hl. split; [by apply (pu_rest _ _ (HP Hl) e)|by apply (pursued_ready i s e); [| |apply HP]].
Qed.

(** *** Entries rewritten in place *)

Lemma view_entry i f s s' : view i s s' -> view i (on_entry i f s) (on_entry i f s').
Proof. intros [E R]. split; [|done]. unfold on_entry. simpl. by rewrite !list_lookup_alter_eq, E. Qed.

Definition keeps_promise (e e' : Entry) : Prop := promise e' = promise e /\ controller e' = controller e /\ entryEpoch e' = entryEpoch e.

Lemma entry_pursued i f s : pursued i s ->
  (forall e, heap s !! i = Some e -> keeps_promise e (f e) /\ (forall p, promise e <> None -> underway p e -> underway p (f e)) /\
    (promise e = None -> at_rest (state e) -> rerun e = false -> at_rest (state (f e)) /\ rerun (f e) = false)) ->
  pursued i (on_entry i f s).
Proof.
  intros [P1 P2 P3 P4] Hf. assert (Hb : forall e', heap (on_entry i f s) !! i = Some e' -> exists e, heap s !! i = Some e /\ e' = f e).
  { intros e' He'. by destruct (on_entry_lookup i f s i e' He') as [[_ ?]|[? _]]. }
  split.
  - intros e' r (e & He & ->)%Hb Hp. destruct (Hf e He) as ((E1 & E2 & E3) & Hu & _). rewrite E1 in Hp. rewrite E2, E3.
    destruct (P1 e r He Hp) as (? & ? & x & ? & ? & ? & ? & ?). split; [done|]. split; [done|]. exists x. do 4 (split; [done|]). apply Hu; [congruence|done].
  - intros e' (e & He & ->)%Hb Hp. destruct (Hf e He) as ((E1 & _) & _ & Hr). rewrite E1 in Hp. destruct (P2 e He Hp). by apply Hr.
  - intros e' r x (e & He & ->)%Hb Hx Ho. destruct (Hf e He) as ((E1 & _ & E3) & _). rewrite E1, E3. by apply (P3 e).
  - intros e' (e & He & ->)%Hb. destruct (Hf e He) as ((_ & _ & E3) & _). rewrite E3. by apply P4.
Qed.

(** A run moves on. *)
Lemma run_pursued i r f s : pursued i s -> (forall x, same_capture x (f x) /\ aborted (f x) = aborted x /\ (phase x = Finished -> phase (f x) = Finished)) ->
  (forall e x, heap s !! i = Some e -> promise e = Some r -> runs s !! r = Some x -> underway (phase x) e -> underway (phase (f x)) e) -> pursued i (on_run r f s).
Proof.
  intros [P1 P2 P3 P4] Hf Hu. split; [| |intros e r' x He Hx Ho|done].
  - intros e r' He Hp. destruct (P1 e r' He Hp) as (? & ? & x & Hx & Ho & Ee & Ha & Hux). split; [done|]. split; [done|]. unfold on_run. simpl. destruct (decide (r = r')) as [->|Hne].
    + exists (f x). destruct (Hf x) as ((E1 & E2 & _) & E5 & _). rewrite list_lookup_alter_eq, Hx, E1, E2, E5. do 4 (split; [done|]). by apply (Hu e x).
    + exists x. by rewrite list_lookup_alter_ne.
  - done.
  - unfold on_run in Hx. simpl in Hx. destruct (decide (r = r')) as [->|Hne]; [|rewrite list_lookup_alter_ne in Hx by done; by apply (P3 e r' x)].
    rewrite list_lookup_alter_eq in Hx. apply fmap_Some in Hx as (y & Hy & ->). destruct (Hf y) as ((E1 & E2 & _) & E5 & E6). rewrite E1 in Ho. rewrite E2, E5.
    destruct (P3 e r' y He Hy Ho) as [?|[?|?]]; [left; by apply E6|by right; left|by right; right].
Qed.

(** A live entry is as it was shown. *)
Lemma emit_view i s e : Inv s -> heap s !! i = Some e -> announces (state e) = false -> live i (emit i s) -> live i s /\ view i s (emit i s) /\ epoch (emit i s) = epoch s.
Proof.
  intros HI He Hn Hl. pose proof (Hspares i s e HI He Hn) as HS. destruct (spares_live _ _ _ i HS) as [Hls Hv]; [by eapply lookup_lt_Some|done|].
  split; [done|]. split; [by apply Hv|apply HS].
Qed.

(** *** Methods *)

Lemma raise_pursued i rev forced s : Inv s -> Pursued s -> Pursued (raise emit i rev forced s).
Proof.
  intros HI HP. unfold raise. destruct (heap s !! i) as [e|] eqn:He; [|done]. destruct (_ && _); [done|].
  set (next := if forced then _ else _). set (token := if forced then S (forceSequence s) else _). set (s0 := if forced then _ else s). set (s1 := on_entry i _ s0).
  assert (Hst : step false false s s1) by (unfold s1, s0, next, token; destruct forced; [by apply (st_force _ _ s i e)|by eapply st_invalidate]).
  assert (HI1 : Inv s1) by (by eapply step_inv). assert (S01 : spares (Some i) s s1).
  { transitivity s0; [unfold s0; destruct forced; [by apply spares_core|done]|apply spares_entry]. }
  assert (Hi0 : heap s0 !! i = Some e) by (unfold s0; by destruct forced). set (e1 := with_state (raised next token) e).
  assert (He1 : heap s1 !! i = Some e1) by (by apply (on_entry_same i _ s0)).
  assert (HI2 : Inv (emit i s1)) by (apply (reach_inv false s1); [apply Hreach|done]).
  assert (S2 : spares (Some i) s (emit i s1)) by (etransitivity; [exact S01|apply spares_weaken, (Hspares i s1 e1 HI1 He1 (andb_false_r _))]).
  assert (Hview : live i (emit i s1) -> live i s /\ view i s1 (emit i s1) /\ epoch (emit i s1) = epoch s).
  { intros Hl. destruct (emit_view i s1 e1 HI1 He1 (andb_false_r _) Hl) as (_ & Hv & Ee). split; [|split; [done|by rewrite (sp_epoch _ _ _ S2)]].
    by apply (spares_live (Some i) s (emit i s1)); [done|by eapply lookup_lt_Some|]. }
  destruct (heap (emit i s1) !! i) as [e2|] eqn:He2; [|apply (spares_pursued (Some i) s); [done| |done]; intros ? [= <-] Hl; destruct (live_entry _ i HI2 Hl) as (? & ? & _); congruence].
  assert (Hsame : live i (emit i s1) -> e2 = e1) by (intros Hl; destruct (Hview Hl) as (_ & [Ev _] & _); congruence).
  assert (Hruns : runs s1 = runs s) by (unfold s1, s0; by destruct forced). assert (Hep : epoch s1 = epoch s) by (unfold s1, s0; by destruct forced). case_bool_decide as Hp.
  - destruct (request e2 && is_live i (emit i s1)) eqn:Eg.
    + apply (pursues_all i s); [|done]. apply andb_prop in Eg as [_ Hl%(is_live_spec _ i HI2)]. destruct (Hview Hl) as (Hls & Hv & Ee).
      destruct (start_pursues i (emit i s1) e2 HI2 He2) as [S3 H3]; [|split; [by etransitivity|done]].
      intros _. rewrite (Hsame Hl) in Hp |- *. pose proof (HP i Hls) as HPi. split; [by apply (pu_rest _ _ HPi e)|].
      apply (view_ready i s1); [done|by rewrite Ee|]. intros r x. rewrite Hruns, Hep. by apply (pursued_ready i s e).
    + apply (spares_pursued (Some i) s); [done| |done]. intros ? [= <-] Hl. exfalso. by rewrite (in_request _ HI2 i e2 He2), (proj2 (is_live_spec _ i HI2) Hl) in Eg.
  - apply (spares_pursued (Some i) s); [etransitivity; [exact S2|apply spares_entry]| |done]. intros ? [= <-] Hl. change (live i (emit i s1)) in Hl.
    destruct (Hview Hl) as (Hls & Hv & Ee). apply (view_pursued i (on_entry i (with_rerun true) s1)); [by apply view_entry|by rewrite <- Hep in Ee|].
    assert (HP0 : pursued i s0) by (unfold s0; destruct forced; [|by apply HP]; apply (view_pursued i s); [done|done|by apply HP]).
    assert (E : on_entry i (with_rerun true) s1 = on_entry i (fun e => with_rerun true (with_state (raised next token) e)) s0).
    { unfold s1, on_entry, put_heap. simpl. f_equal. by rewrite <- alter_twice. }
    rewrite E. apply entry_pursued; [done|]. intros e' He'. assert (e' = e) as -> by congruence. split; [done|]. rewrite (Hsame Hl) in Hp. split.
    + intros p _. destruct p as [| | | |]; simpl; try done. intros [? _]. split; [done|by left].
    + by intros ?%Hp.
Qed.

Lemma pursued_invalidate t s : Inv s -> Pursued s -> Pursued (invalidate emit rounds t s).
Proof.
  intros HI HP. unfold invalidate. destruct (disposed s); [done|]. apply (each_keeps (fun s => Inv s /\ Pursued s)); [|done]. intros i s1 [HI1 HP1].
  destruct (heap s1 !! i); [|done]. destruct (matchesTarget _ t); [|done]. split; [|by apply raise_pursued]. apply (reach_inv false s1); [by apply raise_reach|done].
Qed.

Lemma pursued_force ks s : Inv s -> Pursued s -> Pursued (force emit ks s).
Proof.
  intros HI HP. unfold force. destruct (disposed s); [done|]. apply (fold_keeps (fun s => Inv s /\ Pursued s)); [|done]. intros s1 k [HI1 HP1].
  destruct (entry_of k s1) as [i|]; [|done]. split; [|by apply raise_pursued]. apply (reach_inv false s1); [by apply raise_reach|done].
Qed.

Lemma pursued_load k s : Inv s -> Pursued s -> Pursued (load emit k s).
Proof.
  intros HI HP. unfold load. destruct (disposed s) eqn:Hd; [done|]. pose proof (tracked_spares k s HI) as S1. pose proof (tracked_reach k s Hd) as R1.
  destruct (entry k s) as [i s0]. simpl in S1, R1. set (s1 := on_entry i with_request s0) in *. assert (HI1 : Inv s1) by (by apply (reach_inv false s)).
  assert (HP1 : Pursued s1) by (by apply (spares_pursued None s)). destruct (heap s1 !! i) as [e|] eqn:He; [|done].
  destruct (negb _) eqn:Ep; [done|]. apply negb_false_iff, bool_decide_eq_true in Ep. destruct (_ && _); [done|].
  apply (pursues_all i s1); [|done]. apply (pursued_start i s1 e); [done|done|done|]. apply HP1.
Qed.

(** *** Answers *)

(** The current run landed. *)
Lemma landed_pursued i r f s x e : pursued i s -> runs s !! r = Some x -> object x = i -> heap s !! i = Some e -> promise e = Some r ->
  keeps_promise e (f e) -> underway Landed (f e) -> pursued i (on_entry i f (on_run r (at_phase Landed) s)).
Proof.
  intros [P1 P2 P3 P4] Hx Ho He Hp (E1 & E2 & E3) Hu. set (s1 := on_run r (at_phase Landed) s).
  assert (He1 : heap (on_entry i f s1) !! i = Some (f e)) by (by apply on_entry_same). split; intros e'; rewrite He1.
  - intros r' [= <-] Hp'. assert (r' = r) as -> by congruence. rewrite E2, E3. destruct (P1 e r He Hp) as (? & ? & y & Hy & Hyo & Hye & Hya & _).
    split; [done|]. split; [done|]. assert (y = x) as -> by congruence. exists (at_phase Landed x). split; [|done]. unfold s1, on_run. simpl. by rewrite list_lookup_alter_eq, Hx.
  - intros [= <-] Hp'. congruence.
  - intros r' y [= <-] Hy Hyo. rewrite E1, E3. unfold s1, on_run in Hy. simpl in Hy. destruct (decide (r = r')) as [->|Hne]; [by right; right|].
    rewrite list_lookup_alter_ne in Hy by done. by apply (P3 e r' y).
  - intros [= <-]. rewrite E3. by apply P4.
Qed.

(** An answer, landed and shown. *)
Lemma show_landed i r f s x e : Inv (on_entry i f (on_run r (at_phase Landed) s)) -> Pursued s -> runs s !! r = Some x -> object x = i -> heap s !! i = Some e ->
  (live i s -> promise e = Some r /\ keeps_promise e (f e) /\ underway Landed (f e)) -> Pursued (emit i (on_entry i f (on_run r (at_phase Landed) s))).
Proof.
  intros HI1 HP Hx Ho He Hf. set (s1 := on_run r (at_phase Landed) s) in *. apply Hnews; [done|]. apply (spares_pursued (Some i) s); [|intros ? [= <-] Hl|done].
  - transitivity s1; [apply spares_run; [done|intros y Hy; congruence]|apply spares_entry].
  - change (live i s) in Hl. destruct (Hf Hl) as (? & ? & ?). by apply (landed_pursued i r f s x e); [apply HP| | | | | |].
Qed.

Lemma moved_on i r p s x : Pursued s -> runs s !! r = Some x -> object x = i -> phase x <> Finished ->
  (forall e, heap s !! i = Some e -> live i s -> promise e = Some r -> underway p e) -> Pursued (on_run r (at_phase p) s).
Proof.
  intros HP Hx Ho Hph Hu. apply (spares_pursued (Some i) s); [apply spares_run; [done|intros y Hy; congruence]| |done]. intros ? [= <-] Hl. change (live i s) in Hl.
  split; [| | |apply (HP i Hl)].
  - intros e r' He Hp. destruct (pu_promise _ _ (HP i Hl) e r' He Hp) as (? & ? & y & Hy & Hyo & Hye & Hya & Huy). split; [done|]. split; [done|].
    unfold on_run. simpl. destruct (decide (r = r')) as [->|Hne]; [|exists y; by rewrite list_lookup_alter_ne].
    exists (at_phase p y). rewrite list_lookup_alter_eq, Hy. do 4 (split; [done|]). by apply Hu.
  - apply (HP i Hl).
  - intros e r' y He Hy Hyo. unfold on_run in Hy. simpl in Hy. destruct (decide (r = r')) as [->|Hne]; [|rewrite list_lookup_alter_ne in Hy by done; by apply (pu_others _ _ (HP i Hl) e r' y)].
    rewrite list_lookup_alter_eq, Hx in Hy. injection Hy as <-. simpl in Hyo |- *. destruct (pu_others _ _ (HP i Hl) e r' x He Hx Hyo) as [?|[?|?]]; [done|by right; left|by right; right].
Qed.

(** A run still waiting for its turn is its entry's, or was left behind. *)
Lemma whose_run i r s x e : Pursued s -> live i s -> runs s !! r = Some x -> object x = i -> heap s !! i = Some e -> phase x <> Finished ->
  (aborted x = true /\ (runEpoch x < entryEpoch e)%nat /\ promise e <> Some r) \/
  (promise e = Some r /\ aborted x = false /\ runEpoch x = epoch s /\ entryEpoch e = epoch s /\ underway (phase x) e).
Proof.
  intros HP Hl Hx Ho He Hph. destruct (decide (promise e = Some r)) as [Hp|Hp].
  - right. destruct (pu_promise _ _ (HP i Hl) e r He Hp) as (_ & ? & y & Hy & _ & ? & ? & ?). by assert (y = x) as -> by congruence.
  - left. by destruct (pu_others _ _ (HP i Hl) e r x He Hx Ho) as [?|[[? ?]|?]].
Qed.

Lemma pursued_land r s : Inv s -> Pursued s -> Pursued (land emit r s).
Proof.
  intros HI HP. unfold land. destruct (runs s !! r) as [x|] eqn:Hx; [|done]. destruct (phase x) as [| |a| |] eqn:Hph; try done.
  set (i := object x). set (s1 := on_run r (at_phase Landed) s). assert (HI1 : Inv s1) by (apply (reach_inv false s); [by apply run_reach|done]).
  destruct (in_runs s HI r x Hx) as (_ & [e He]%lookup_lt_is_Some & _). fold i in He. assert (He1 : heap s1 !! i = Some e) by done.
  assert (Hph' : phase x <> Finished) by congruence. assert (Hwhose : live i s -> _) by (intros Hl; exact (whose_run i r s x e HP Hl Hx eq_refl He Hph')).
  assert (Hstay : (live i s -> promise e <> Some r) -> Pursued s1) by (intros Hn; apply (moved_on i r Landed s x); [done|done|done|done|]; intros e' He' Hl Hp; exfalso; apply Hn; congruence).
  assert (Hshow : forall f, Inv (on_entry i f s1) -> keeps_promise e (f e) -> underway Landed (f e) -> (live i s -> promise e = Some r) -> Pursued (emit i (on_entry i f s1))).
  { intros f HIf Hk Hu Hp. apply (show_landed i r f s x e); [done|done|done|done|done|]. auto. }
  assert (Hfail : forall c, Inv (on_entry i (with_state (failed c)) s1)) by (intros c; eapply step_inv; [apply (st_fail false false)|done]).
  destruct a as [resp|c].
  - unfold responded. fold i. rewrite He1. destruct (_ || _) eqn:Eg.
    + apply Hstay. intros Hl Hp. destruct (Hwhose Hl) as [(_ & _ & ?)|(_ & _ & E1 & E2 & _)]; [done|]. change (disposed s1) with (disposed s) in Eg.
      change (epoch s1) with (epoch s) in Eg. change (generationIDValue s1) with (generationIDValue s) in Eg.
      by rewrite (live_not_disposed i s HI Hl), (in_generation s HI r x Hx E1), E1, E2, Nat.eqb_refl, String.eqb_refl in Eg.
    + assert (Hp : live i s -> promise e = Some r).
      { intros Hl. destruct (Hwhose Hl) as [(_ & ? & _)|(? & _)]; [|done]. apply orb_false_elim in Eg as [_ E%negb_false_iff]. apply Nat.eqb_eq in E. lia. }
      destruct (validate _ _ _); [apply Hshow; [apply Hfail|done| |done]; split; [done|by right; right]|]. lazymatch goal with |- Pursued (if ?b then _ else _) => destruct b end.
      * unfold fail. assert (E : on_entry i (with_state (failed (ProtocolError "late, below-target, or superseded response"))) (on_entry i (with_rerun true) s1) =
          on_entry i (fun e => with_state (failed (ProtocolError "late, below-target, or superseded response")) (with_rerun true e)) s1) by (unfold on_entry, put_heap; simpl; f_equal; by rewrite <- alter_twice).
        rewrite E. apply Hshow; [|done| |done]; [|split; [done|by left]]. rewrite <- E. eapply step_inv; [apply (st_fail false false)|].
        apply (reach_inv false s1); [apply mark_reach; marked|done].
      * apply Hshow; [|done| |done]; [|split; [done|by right; left]]. pose proof (Hfail NavigationBaseInvalid) as HI2.
        apply on_entry_keeps_inv; [done|]. intros e' He'. split; [done|]. split; [apply (in_force s1 HI1 i e' He')|]. split; [by right|]. split; [intros _; by eexists|].
        split; [done|intros ? Hctl; exact (in_controller s1 HI1 _ _ _ He' Hctl)].
  - unfold threw. fold i. destruct (aborted x) eqn:Ha.
    + apply Hstay. intros Hl Hp. by destruct (Hwhose Hl) as [(_ & _ & ?)|(_ & ? & _)].
    + assert (Hp : live i s -> promise e = Some r) by (intros Hl; by destruct (Hwhose Hl) as [(? & _)|(? & _)]).
      assert (Hf : forall c, Pursued (fail emit i c s1)) by (intros c'; apply Hshow; [apply Hfail|done| |done]; split; [done|by right; right]).
      destruct c; try apply Hf. unfold recoverInvalidBase. rewrite He1. destruct (recoveringBase e); [apply Hf|]. set (token := S (forceSequence s1)).
      set (f := fun e => with_state (rebased token) (with_rerun true (with_recovering true e))). set (sf := put_forceSequence token s).
      change (Pursued (emit i (on_entry i f (on_run r (at_phase Landed) sf)))).
      apply (show_landed i r f sf x e); [|by apply (spares_pursued None s); [apply spares_core| |]|done|done|done|intros Hl; split; [by apply Hp|]; split; [done|split; [done|by left]]].
      change (Inv (on_entry i f (put_forceSequence token s1))). apply on_entry_inv; [done|unfold token; lia|]. intros e' He'. split; [done|]. split; [done|]. split; [by right|]. split; [done|].
      split; [done|intros ? Hctl; exact (in_controller s1 HI1 _ _ _ He' Hctl)].
Qed.

Lemma pursued_answers r a s : Pursued s -> Pursued (answers r a s).
Proof.
  intros HP. unfold answers. destruct (runs s !! r) as [x|] eqn:Hx; [|done]. destruct (phase x) eqn:Hph; try done. apply (moved_on (object x) r (Answered a) s x); congruence || done.
Qed.

Lemma pursued_finish r s : Inv s -> Pursued s -> Pursued (finish emit r s).
Proof.
  intros HI HP. unfold finish. destruct (runs s !! r) as [x|] eqn:Hx; [|done]. destruct (phase x) as [| |a| |] eqn:Hph; try done.
  set (i := object x). set (s1 := on_run r (at_phase Finished) s). assert (HI1 : Inv s1) by (apply (reach_inv false s); [by apply run_reach|done]).
  destruct (in_runs s HI r x Hx) as (_ & [e He]%lookup_lt_is_Some & _). fold i in He. assert (He1 : heap s1 !! i = Some e) by done. rewrite He1.
  assert (S1 : spares (Some i) s s1) by (apply spares_run; [done|intros y Hy; unfold i; congruence]).
  assert (Hph' : phase x <> Finished) by congruence. assert (Hwhose : live i s -> _) by (intros Hl; exact (whose_run i r s x e HP Hl Hx eq_refl He Hph')).
  destruct (_ && _) eqn:Eg.
  - apply andb_prop in Eg as [Hp%bool_decide_eq_true Eee%Nat.eqb_eq]. set (f := fun e => with_promise None (with_controller None e)). set (s2 := on_entry i f s1).
    assert (HI2 : Inv s2) by (apply (reach_inv false s1); [apply mark_reach; marked|done]). assert (He2 : heap s2 !! i = Some (f e)) by (by apply (on_entry_same i f s1)).
    assert (S2 : spares (Some i) s s2) by (etransitivity; [exact S1|apply spares_entry]).
    assert (HR : live i s -> ready i s2 /\ underway Landed e).
    { intros Hl. destruct (Hwhose Hl) as [(_ & _ & ?)|(_ & _ & E1 & E2 & Hu)]; [done|]. rewrite Hph in Hu. split; [|done]. intros r' y Hy Hyo. unfold s2, s1, on_run in Hy. simpl in Hy.
      destruct (decide (r = r')) as [<-|Hne]; [rewrite list_lookup_alter_eq, Hx in Hy; injection Hy as <-; by left|]. rewrite list_lookup_alter_ne in Hy by done.
      destruct (pu_others _ _ (HP i Hl) e r' y He Hy Hyo) as [?|[[? ?]|?]]; [by left|right; split; [done|]|congruence]. change (epoch s2) with (epoch s). lia. }
    destruct (rerun e) eqn:Hrr.
    + set (s3 := on_entry i (with_rerun false) s2). assert (HI3 : Inv s3) by (apply (reach_inv false s2); [apply mark_reach; marked|done]).
      assert (He3 : heap s3 !! i = Some (with_rerun false (f e))) by (by apply (on_entry_same i _ s2)).
      apply (pursues_all i s); [|done]. destruct (start_pursues i s3 _ HI3 He3) as [S3 H3]; [intros Hl; split; [done|by apply HR]|].
      split; [|done]. etransitivity; [exact S2|]. etransitivity; [|exact S3]. apply spares_entry.
    + apply (spares_pursued (Some i) s); [done| |done]. intros ? [= <-] Hl. change (live i s) in Hl. destruct (HR Hl) as [HR1 (Hld & Hu)]. split; intros e'; rewrite He2.
      * by intros r' [= <-].
      * intros [= <-] _. split; [|done]. split; [done|]. destruct Hu as [?|[?|?]]; [congruence|by left|by right; left].
      * intros r' y [= <-] Hy Hyo. destruct (HR1 r' y Hy Hyo) as [?|[? ?]]; [by left|right; left]. split; [done|]. simpl. destruct (Hwhose Hl) as [(_ & _ & ?)|(_ & _ & _ & E2 & _)]; [done|]. rewrite E2. done.
      * intros [= <-]. apply (pu_epoch _ _ (HP i Hl) e He).
  - apply (moved_on i r Finished s x); [done|done|done|done|]. intros e' He' Hl Hp. assert (e' = e) as -> by congruence. exfalso.
    destruct (Hwhose Hl) as [(_ & _ & ?)|(_ & _ & E1 & E2 & _)]; [done|]. by rewrite bool_decide_eq_true_2, E1, E2, Nat.eqb_refl in Eg.
Qed.

(** *** A new generation *)

(** The runs a reset is to leave behind: of an older epoch, over, aborted or its entry's. *)
Definition leftover (i : nat) (s : Revalidator) : Prop :=
  forall e r x, heap s !! i = Some e -> runs s !! r = Some x -> object x = i -> phase x = Finished \/ ((runEpoch x < epoch s)%nat /\ (aborted x = true \/ controller e = Some r)).

Lemma view_leftover i s s' : view i s s' -> epoch s' = epoch s -> leftover i s -> leftover i s'.
Proof. intros [E R] Ee HL e r x He Hr Ho. rewrite E in He. rewrite Ee. apply (HL e r x He); [by apply (R r x Ho)|done]. Qed.

Lemma new_leftover i s : brand_new i s -> leftover i s.
Proof. intros (e & k & g & _ & _ & _ & _ & _ & Hx) e' r x _ Hr Ho. by destruct (Hx r x Hr). Qed.

Lemma abort_ready i e s : heap s !! i = Some e -> leftover i s -> ready i (abort e s).
Proof.
  intros He HL r x Hx Ho. destruct (abort_core e s) as (Ee & _). rewrite Ee. unfold abort in Hx. destruct (controller e) as [c|] eqn:Hc.
  - unfold on_run in Hx. simpl in Hx. destruct (decide (c = r)) as [->|Hne].
    + rewrite list_lookup_alter_eq in Hx. apply fmap_Some in Hx as (y & Hy & ->). destruct (HL e r y He Hy Ho) as [?|[? _]]; [by left|by right].
    + rewrite list_lookup_alter_ne in Hx by done. destruct (HL e r x He Hx Ho) as [?|[? [?|?]]]; [by left|by right|congruence].
  - destruct (HL e r x He Hx Ho) as [?|[? [?|?]]]; [by left|by right|congruence].
Qed.

Lemma abort_spares i e s : Inv s -> heap s !! i = Some e -> spares (Some i) s (abort e s).
Proof.
  intros HI He. unfold abort. destruct (controller e) as [r|] eqn:Hc; [|done]. apply spares_run; [done|]. intros x Hx.
  destruct (in_controller s HI i e r He Hc) as (y & Hy & ?). congruence.
Qed.

Lemma reset_entry_pursues g i s : Inv s -> is_live i s = true -> leftover i s -> pursues i s (reset_entry emit g i s).
Proof.
  intros HI Hl HL. unfold reset_entry. destruct (heap s !! i) as [e|] eqn:He; [|split; [done|]; intros Hl'; destruct (live_entry s i HI Hl') as (? & ? & _); congruence].
  destruct (abort_core e s) as (Ea & _ & _ & _ & Eh). set (f := fun e0 => with_state (regenerated g) (mkEntry (state e0) (request e0) None None false false (epoch s))).
  set (s1 := on_entry i f (abort e s)). change (on_entry i _ (abort e s)) with s1.
  assert (HI1 : Inv s1) by (eapply (steps_inv true false); [by apply reset_before|done]).
  assert (He1 : heap s1 !! i = Some (f e)) by (apply on_entry_same; by rewrite Eh).
  assert (S1 : spares (Some i) s s1) by (etransitivity; [by apply (abort_spares i e)|apply spares_entry]).
  assert (S2 : spares (Some i) s (emit i s1)) by (etransitivity; [exact S1|apply spares_weaken, (Hspares i s1 _ HI1 He1 eq_refl)]).
  assert (HI2 : Inv (emit i s1)) by (apply (reach_inv false s1); [apply Hreach|done]).
  destruct (heap (emit i s1) !! i) as [e2|] eqn:He2; [|split; [done|]; intros Hl'; destruct (live_entry _ i HI2 Hl') as (? & ? & _); congruence].
  rewrite (in_request _ HI2 i e2 He2). destruct (start_pursues i (emit i s1) e2 HI2 He2) as [S3 H3]; [|split; [by etransitivity|done]].
  intros Hl2. destruct (emit_view i s1 _ HI1 He1 eq_refl Hl2) as (_ & Hv & Ee). pose proof (vi_entry _ _ _ Hv) as Ev. assert (e2 = f e) as -> by congruence. split; [done|].
  apply (view_ready i s1); [done|done|]. by apply (abort_ready i e s).
Qed.

Lemma entries_distinct s : Inv s -> NoDup (entries s).*2.
Proof.
  intros HI. pose proof (in_distinct s HI) as Hn. assert (He : forall k i, (k, i) ∈ entries s -> exists e, heap s !! i = Some e /\ key (state e) = k) by apply HI.
  revert Hn He. generalize (entries s) as l. induction l as [|[k i] l IH]; intros Hn He; [constructor|]. apply NoDup_cons in Hn as [Hk Hn]. simpl. apply NoDup_cons. split.
  - intros ([k' j] & E & Hin)%list_elem_of_fmap. simpl in E. subst j. apply Hk. destruct (He k i) as (e & He1 & <-); [by left|].
    destruct (He k' i) as (e' & He2 & <-); [by right|]. assert (e' = e) as -> by congruence. by apply (list_elem_of_fmap_2 fst) in Hin.
  - apply IH; [done|]. intros k' i' Hin. apply He. by right.
Qed.

(** While the entries of a generation are gone through: those done are pursued, those to
    do have leftover runs, and what was added is new. *)
Record midway (todo : list nat) (from : nat) (s : Revalidator) : Prop := {
  mi_inv : Inv s; mi_nodup : NoDup todo; mi_todo : forall i, i ∈ todo -> (i < from)%nat; mi_from : (from <= length (heap s))%nat;
  mi_left : forall i, live i s -> i ∈ todo -> leftover i s; mi_done : forall i, live i s -> i ∉ todo -> pursued i s;
  mi_new : forall i, live i s -> (from <= i)%nat -> brand_new i s }.

Lemma pursues_midway i todo from s s' : midway (i :: todo) from s -> Inv s' -> pursues i s s' -> midway todo from s'.
Proof.
  intros [HI Hn Ht Hf Hle Hd Hw] HI' [HS HP]. apply NoDup_cons in Hn as [Hi Hn].
  pose proof (sp_epoch _ _ _ HS) as Ee. assert (Hcase : forall j, live j s' -> j <> i -> (live j s /\ view j s s') \/ ((length (heap s) <= j)%nat /\ brand_new j s')).
  { intros j Hj Hne. destruct (sp_view _ _ _ HS j Hj) as [[? Hv]|[? Hb]]; [left|right]; (split; [done|]); [apply Hv|apply Hb]; congruence. }
  split; [done|done|intros j Hj; apply Ht; by right|pose proof (sp_heap _ _ _ HS); lia| | |].
  - intros j Hj Hin. destruct (Hcase j Hj) as [[Hl Hv]|[Hge _]]; [by intros ->|apply (view_leftover j s s'); [done|done|apply Hle; [done|by right]]|].
    pose proof (Ht j (list_elem_of_further j i todo Hin)). lia.
  - intros j Hj Hin. destruct (decide (j = i)) as [->|Hne]; [by apply HP|]. destruct (Hcase j Hj Hne) as [[Hl Hv]|[_ Hb]]; [|by apply new_pursued].
    apply (view_pursued j s s'); [done|done|]. apply Hd; [done|]. by intros [?|?]%elem_of_cons.
  - intros j Hj Hge. assert (Hne : j <> i) by (intros ->; pose proof (Ht i (list_elem_of_here i todo)); lia).
    destruct (Hcase j Hj Hne) as [[Hl Hv]|[_ Hb]]; [|done]. apply (view_new j s s'); [done|done|by apply Hw].
Qed.

Lemma visit_midway g i todo from s : midway (i :: todo) from s -> midway todo from (visit (reset_entry emit g) i s).
Proof.
  intros HM. pose proof HM as [HI Hn Ht Hf Hle Hd Hw]. unfold visit. destruct (is_live i s) eqn:Hl.
  - apply (pursues_midway i todo from s); [done| |apply reset_entry_pursues; [done|done|]].
    + eapply (steps_inv true false); [by apply reset_entry_steps|done].
    + apply Hle; [by apply is_live_spec|by left].
  - apply NoDup_cons in Hn as [Hi Hn]. split; [done|done|intros j Hj; apply Ht; by right|done| | |done].
    + intros j Hj Hin. apply Hle; [done|by right].
    + intros j Hj Hin. apply Hd; [done|]. intros [->|?]%elem_of_cons; [|done]. by rewrite (proj2 (is_live_spec s i HI) Hj) in Hl.
Qed.

Lemma added_pursued g n from s : midway [] from s -> Pursued (added n from (reset_entry emit g) s).
Proof.
  revert from s. induction n as [|n IH]; intros from s HM; pose proof HM as [HI _ _ Hf _ Hd Hw]; [intros i Hi; by apply Hd; [|apply not_elem_of_nil]|]. simpl.
  destruct (list_find _ (entries s)) as [[j [k i]]|] eqn:Hfind; [|intros i Hi; by apply Hd; [|apply not_elem_of_nil]].
  apply list_find_Some in Hfind as (Hj & Hge & _). simpl in Hge. apply list_elem_of_lookup_2, (list_elem_of_fmap_2 snd) in Hj. simpl in Hj. change (live i s) in Hj.
  assert (Hlt : (S i <= length (heap s))%nat) by (destruct (live_entry s i HI Hj) as (e & He & _); by eapply lookup_lt_Some).
  apply IH. apply visit_midway. split; [done|apply NoDup_singleton|intros j' ->%list_elem_of_singleton; lia|done| | |].
  - intros j' Hj' ->%list_elem_of_singleton. by apply new_leftover, Hw.
  - intros j' Hj' _. apply Hd; [done|apply not_elem_of_nil].
  - intros j' Hj' Hge'. apply Hw; [done|lia].
Qed.

Lemma pursued_reset g s : Inv s -> Pursued s -> Pursued (resetGeneration emit rounds g s).
Proof.
  intros HI HP. unfold resetGeneration. destruct (disposed s || _); [done|]. set (s0 := reject_all "generation mismatch" s).
  set (s1 := put_lastSequence 0 (put_epoch (S (epoch s0)) (put_generation g s0))).
  assert (HI1 : Inv s1).
  { assert (HI0 : Inv s0) by (eapply (step_inv false false); [apply st_other, reject_core|done]).
    assert (HI1 : Inv (put_epoch (S (epoch s0)) (put_generation g s0))) by (eapply (step_inv false false); [apply (st_generation _ _ s0 g)|done]).
    eapply (step_inv false false); [by apply (st_other _ _ (put_epoch (S (epoch s0)) (put_generation g s0)))|done]. }
  unfold each_entry. apply added_pursued. assert (HM : midway (entries s1).*2 (length (heap s1)) s1).
  { split; [done|by apply entries_distinct| |done| | |].
    - intros i Hi. destruct (live_entry s1 i HI1 Hi) as (e & He & _). by eapply lookup_lt_Some.
    - intros i Hi _ e r x He Hx Ho. change (live i s) in Hi. pose proof (HP i Hi) as [P1 P2 P3 P4]. change (epoch s1) with (S (epoch s)).
      destruct (P3 e r x He Hx Ho) as [?|[[? ?]|Hp]]; [by left| |]; right.
      + pose proof (P4 e He). split; [lia|by left].
      + destruct (P1 e r He Hp) as (? & _ & y & Hy & _ & ? & _). assert (y = x) as -> by (change (runs s !! r = Some x) in Hx; congruence). split; [lia|by right].
    - intros i Hi Hn. by destruct Hn.
    - intros i Hi Hge. destruct (live_entry s1 i HI1 Hi) as (e & He & _). apply lookup_lt_Some in He. lia. }
  change (midway [] (length (heap s1)) (foldl (fun s i => visit (reset_entry emit g) i s) s1 (entries s1).*2)). revert HM. generalize (length (heap s1)) as from, (entries s1).*2 as l. intros from l. generalize s1. clear -Hreach Hspares. intros s1. revert s1. induction l as [|i l IH]; intros s1 HM; [done|]. simpl. by apply IH, visit_midway.
Qed.

Lemma pursued_apply p s : Inv s -> Pursued s -> Pursued (applyNavigationInvalidation emit rounds p s).
Proof.
  intros HI HP. unfold applyNavigationInvalidation. set (s1 := if String.eqb _ _ then s else _).
  assert (H1 : Inv s1 /\ Pursued s1).
  { unfold s1. destruct (String.eqb _ _); [done|]. split; [|by apply pursued_reset]. apply (reach_inv false s); [by apply reset_reach|done]. }
  clearbody s1. unfold acceptSequence. set (s2 := put_lastSequence _ s1).
  assert (H2 : Inv s2 /\ Pursued s2).
  { destruct H1 as [HI1 HP1]. split; [by eapply (step_inv false false); [apply (st_other _ _ s1)|]|by apply (spares_pursued None s1); [apply spares_core| |]]. }
  set (gap := isSequenceGap _ _). clearbody gap s2. assert (Hforce : forall ks s, Inv s /\ Pursued s -> Inv (force emit ks s) /\ Pursued (force emit ks s)).
  { intros ks s3 [? ?]. split; [|by apply pursued_force]. apply (reach_inv false s3); [by apply force_reach|done]. }
  set (s3 := if gap then _ else s2). assert (H3 : Inv s3 /\ Pursued s3) by (unfold s3; destruct gap; [by apply Hforce|done]). clearbody s3.
  set (s4 := foldl _ s3 _). assert (H4 : Inv s4 /\ Pursued s4).
  { apply (fold_keeps (fun s => Inv s /\ Pursued s)); [|done]. intros s5 t [? ?]. split; [|by apply pursued_invalidate]. apply (reach_inv false s5); [by apply invalidate_reach|done]. }
  destruct gap; [apply H4|by apply Hforce].
Qed.

Lemma pursued_call c s : Inv s -> Pursued s -> Pursued (call emit rounds c s).
Proof.
  intros HI HP. destruct c as [k|k|k|ks| |t|g| |ts g ks|p|id|p|p]; try (by apply (spares_pursued None s); [apply mild_spares| |]); cbn [call].
  - by apply pursued_load.
  - by apply pursued_force.
  - by apply pursued_force.
  - by apply pursued_invalidate.
  - by apply pursued_reset.
  - by apply pursued_apply.
Qed.
End methods.

Lemma emit_pursued env rounds fuel i s : discreet env -> Inv s -> Pursued s -> Pursued (emit env rounds fuel i s).
Proof.
  intros Henv. assert (Hres : forall s, Pursued s -> Pursued (resolveTargetWaiters s)) by (intros s0 HP0; by apply (spares_pursued None s0); [apply spares_core| |]).
  intros HI HP. destruct fuel as [|fuel]; simpl; apply Hres; [done|]. destruct (disposed s); [done|].
  generalize (match heap s !! i with Some e => env (tick s) (state e) | None => [] end). intros l.
  apply (fold_keeps (fun s => Inv s /\ Pursued s)).
  - intros s1 c [HI1 HP1]. split; [apply (reach_inv false s1); [apply call_reach; intros; apply emit_reach|done]|].
    apply pursued_call; [intros; apply emit_reach|intros; by eapply emit_spares|done|done].
  - split; [by apply (reach_inv false s); [apply same_core_reach|]|by apply (spares_pursued None s); [apply spares_core| |]].
Qed.

Lemma pursued_take env rounds fuel ev s : discreet env -> Inv s -> Pursued s -> Pursued (take env rounds fuel ev s).
Proof.
  intros Henv HI HP. assert (Hr : forall i s, reach false s (emit env rounds fuel i s)) by (intros; apply emit_reach).
  assert (Hs : forall i s e, Inv s -> heap s !! i = Some e -> announces (state e) = false -> spares None s (emit env rounds fuel i s)) by (intros; by eapply emit_spares).
  assert (Hn : forall i s, Inv s -> Pursued s -> Pursued (emit env rounds fuel i s)) by (intros; by apply emit_pursued).
  destruct ev as [c|r a|r|r]; cbn [take].
  - by apply pursued_call.
  - by apply pursued_answers.
  - by apply pursued_land.
  - by apply pursued_finish.
Qed.

Lemma pursued_run env rounds fuel es s : discreet env -> Inv s -> Pursued s -> Pursued (run env rounds fuel es s).
Proof.
  intros Henv. revert s. induction es as [|e es IH]; intros s HI HP; [done|]. simpl. apply IH; [|by apply pursued_take]. apply (reach_inv true s); [apply take_reach|done].
Qed.
