(* ===== verification/NavigationTheorems.v ===== *)
(** What the navigation coordinator guarantees: nothing fresh is behind an invalidation,
    nothing superseded lands, and no waiter is left behind. *)

From S2P Require Import Prelude JsString Json NavigationKeys NavigationRevalidator NavigationSteps NavigationWaiters NavigationPursuit.

Local Open Scope string_scope.
Local Open Scope Z_scope.

Section runs.
Context (env : Environment) (rounds fuel : nat).
Implicit Types (s : Revalidator) (es : list Event).

Let play es s := run env rounds fuel es s.

Lemma play_inv es s : Inv s -> Inv (play es s).
Proof. apply (reach_inv true), run_take_reach. Qed.

Lemma take_inv e s : Inv s -> Inv (take env rounds fuel e s).
Proof. apply (reach_inv true), take_reach. Qed.

Lemma call_inv c s : Inv s -> Inv (call (emit env rounds fuel) rounds c s).
Proof. apply (reach_inv false), call_reach. intros; apply emit_reach. Qed.

(** ** Invalidations *)

Lemma raise_target i rev s e : heap s !! i = Some e -> let s' := raise (emit env rounds fuel) i rev false s in
  Inv s -> epoch s' = epoch s -> exists e', heap s' !! i = Some e' /\ default (-1) rev <= default (-1) (targetRevision (state e')).
Proof.
  intros Hi s' HI. unfold s', raise. rewrite Hi. cbn [negb andb]. set (next := later (targetRevision (state e)) rev).
  destruct (bool_decide (Some next = targetRevision (state e)) && stale (state e)) eqn:Eg.
  - intros _. exists e. split; [done|]. apply andb_prop in Eg as [<-%bool_decide_eq_true _]. simpl. unfold next, later. lia.
  - set (s1 := on_entry i (with_state (raised (Some next) (forceToken (state e)))) s).
    assert (H1 : reach false s s1) by (apply reach_step; by apply st_invalidate).
    match goal with |- epoch ?x = _ -> _ => assert (H2 : reach false s1 x) end.
    { etransitivity; [apply emit_reach|]. destruct (heap (emit env rounds fuel _ s1) !! i) as [e1|]; [|done].
      destruct (bool_decide (promise e1 = None)); [|apply mark_reach; marked]. destruct (request e1 && is_live i _); [apply start_reach; intros; apply emit_reach|done]. }
    intros E. assert (E1 : epoch s1 = epoch s) by done. rewrite <- E1 in E.
    destruct (reach_grows _ _ _ H2 (reach_inv _ _ _ H1 HI)) as [_ Hg]. specialize (Hg E).
    destruct (gr_heap _ _ _ _ Hg i (with_state (raised (Some next) (forceToken (state e))) e)) as (e' & He' & _ & _ & _ & Ht & _); [by apply on_entry_same|].
    exists e'. split; [done|]. specialize (Ht eq_refl). simpl in Ht. unfold next, later in Ht. lia.
Qed.

Lemma heap_forward reads s s' i e : reach reads s s' -> Inv s -> heap s !! i = Some e -> exists e', heap s' !! i = Some e' /\ key (state e') = key (state e).
Proof. intros Hr HI He. destruct (reach_grows _ _ _ Hr HI) as [Hg _]. destruct (gr_heap _ _ _ _ Hg i e He) as (e' & ? & ? & _). eauto. Qed.

(** An invalidation reaches each entry it names that stays live. *)
Lemma invalidate_target t s i e : Inv s -> heap s !! i = Some e -> matchesTarget (key (state e)) t = true -> let s' := invalidate (emit env rounds fuel) rounds t s in
  live i s' -> epoch s' = epoch s -> exists e', heap s' !! i = Some e' /\ default (-1) (revision t) <= default (-1) (targetRevision (state e')).
Proof.
  intros HI Hi Hm s' Hl. assert (Hi0 : (i < length (heap s))%nat) by (by eapply lookup_lt_Some).
  assert (Hgs : grows true false s s') by (apply reach_grows; [apply invalidate_reach; intros; apply emit_reach|done]).
  assert (Hl0 : live i s) by (by apply (gr_live _ _ _ _ Hgs)). assert (Hd : disposed s = false).
  { destruct (disposed s) eqn:E; [|done]. unfold live in Hl0. rewrite (in_disposed s HI E) in Hl0. by apply not_elem_of_nil in Hl0. }
  revert Hl. unfold s', invalidate. rewrite Hd. unfold each_entry.
  set (body := fun i s => match heap s !! i with Some e => if matchesTarget (key (state e)) t then raise (emit env rounds fuel) i (revision t) false s else s | None => s end).
  assert (Hb : forall j s, reach false s (body j s)).
  { intros j s1. unfold body. destruct (heap s1 !! j) as [e0|]; [|done]. destruct (matchesTarget (key (state e0)) t); [apply raise_reach; intros; apply emit_reach|done]. }
  assert (Hv : forall j s, reach false s (visit body j s)) by (intros; by apply visit_reach).
  assert (Hall : forall l n from s, reach false s (added n from body (foldl (fun s j => visit body j s) s l))).
  { intros l n from s1. transitivity (foldl (fun s j => visit body j s) s1 l); [apply fold_reach; intros; apply Hv|by apply added_reach]. }
  assert (Htail : forall l n from s1, Inv s1 -> (exists e', heap s1 !! i = Some e' /\ default (-1) (revision t) <= default (-1) (targetRevision (state e'))) ->
    let s2 := added n from body (foldl (fun s j => visit body j s) s1 l) in epoch s2 = epoch s1 ->
    exists e', heap s2 !! i = Some e' /\ default (-1) (revision t) <= default (-1) (targetRevision (state e'))).
  { intros l n from s1 HI1 (e1 & He1 & Hle) s2 E. assert (Hr : reach false s1 s2) by apply Hall.
    destruct (reach_grows _ _ _ Hr HI1) as [_ Hg]. specialize (Hg E). destruct (gr_heap _ _ _ _ Hg i e1 He1) as (e2 & He2 & _ & _ & _ & Ht & _).
    exists e2. split; [done|]. specialize (Ht eq_refl). lia. }
  generalize (length (heap s)) as from. unfold live in Hl0. revert Hl0. generalize (entries s).*2 as l. intros l Hl0 from. clear Hgs. revert s e HI Hi Hm Hi0 Hd s' Htail.
  induction l as [|j l IH]; intros s e HI Hi Hm Hi0 Hd s' Htail; [by apply not_elem_of_nil in Hl0|]. simpl. intros Hl E.
  set (s1 := visit body j s) in *. assert (Hr1 : reach false s s1) by apply Hv. assert (HI1 : Inv s1) by (by eapply reach_inv).
  assert (Hr2 : reach false s1 (added rounds from body (foldl (fun s j => visit body j s) s1 l))) by apply Hall.
  pose proof (gr_epoch _ _ _ _ (proj1 (reach_grows _ _ _ Hr1 HI))) as Ea. pose proof (gr_epoch _ _ _ _ (proj1 (reach_grows _ _ _ Hr2 HI1))) as Eb.
  assert (E1 : epoch s1 = epoch s) by lia. destruct (decide (j = i)) as [->|Hne].
  - apply Htail; [done| |lia]. unfold s1, visit in E1 |- *. assert (Hlive : live i s).
    { apply (gr_live _ _ _ _ (proj1 (reach_grows _ _ _ Hr1 HI))); [done|]. apply (gr_live _ _ _ _ (proj1 (reach_grows _ _ _ Hr2 HI1))); [|done].
      destruct (heap_forward _ _ _ _ _ Hr1 HI Hi) as (e1 & He1 & _). by eapply lookup_lt_Some. }
    apply (is_live_spec s i HI) in Hlive. rewrite Hlive in E1 |- *. unfold body in E1 |- *. rewrite Hi, Hm in E1 |- *. by apply (raise_target i (revision t) s e).
  - destruct (heap_forward _ _ _ _ _ Hr1 HI Hi) as (e1 & He1 & Hk1). apply elem_of_cons in Hl0 as [->|Hl0]; [done|].
    apply (IH Hl0 s1 e1 HI1 He1); [by rewrite Hk1|by eapply lookup_lt_Some| |done|done|by rewrite E1].
    destruct (disposed s1) eqn:E2; [|done]. pose proof (gr_disposed _ _ _ _ (proj1 (reach_grows _ _ _ Hr2 HI1)) E2) as E3.
    unfold live in Hl. rewrite (in_disposed _ (reach_inv _ _ _ Hr2 HI1) E3) in Hl. by apply not_elem_of_nil in Hl.
Qed.

(** C20: A resource that shows itself fresh has caught up with every invalidation that named
    it: whatever listeners do, whatever answers come and in whatever order, until the
    generation changes or the resource is released, an entry an invalidation named is
    fresh only with a revision at least the one announced. *)
Theorem fresh_covers_invalidations g es es' t i e e' :
  let s := play es (new_revalidator g) in
  let s' := play es' (take env rounds fuel (Called (Invalidate t)) s) in
  heap s !! i = Some e -> matchesTarget (key (state e)) t = true -> live i s' -> epoch s' = epoch s ->
  heap s' !! i = Some e' -> stale (state e') = false -> exists l, loadedRevision (state e') = Some l /\ default (-1) (revision t) <= l.
Proof.
  intros s s' Hi Hm Hl E He' Hst. assert (HI : Inv s) by apply play_inv, new_inv. set (s1 := take env rounds fuel (Called (Invalidate t)) s) in *.
  assert (HI1 : Inv s1) by (by apply take_inv). assert (Hr2 : reach true s1 s') by apply run_take_reach.
  assert (Hr1 : reach true s s1) by apply take_reach. pose proof (gr_epoch _ _ _ _ (proj1 (reach_grows _ _ _ Hr1 HI))) as Ea.
  pose proof (gr_epoch _ _ _ _ (proj1 (reach_grows _ _ _ Hr2 HI1))) as Eb.
  destruct (heap_forward _ _ _ _ _ Hr1 HI Hi) as (e1 & He1 & _). assert (Hl1 : live i s1).
  { apply (gr_live _ _ _ _ (proj1 (reach_grows _ _ _ Hr2 HI1))); [by eapply lookup_lt_Some|done]. }
  assert (E1 : epoch s1 = epoch s) by lia. destruct (invalidate_target t s i e HI Hi Hm Hl1 E1) as (e2 & He2 & Ht).
  change (heap s1 !! i = Some e2) in He2. assert (e2 = e1) as -> by congruence.
  destruct (reach_grows _ _ _ Hr2 HI1) as [_ Hg]. assert (E2 : epoch s' = epoch s1) by lia. specialize (Hg E2).
  destruct (gr_heap _ _ _ _ Hg i e1 He1) as (e3 & He3 & _ & _ & _ & Ht3 & _). change (heap s' !! i = Some e3) in He3. assert (e3 = e') as -> by congruence.
  destruct (in_fresh s' (reach_inv _ _ _ Hr2 HI1) i e' He' Hst) as (l & Hl' & Htl). exists l. split; [done|]. specialize (Ht3 eq_refl). rewrite Htl in Ht3. simpl in Ht3. lia.
Qed.

(** ** Superseded runs *)

(** A run whose answer no longer counts. *)
Definition retired (x : Run) (s : Revalidator) : Prop :=
  disposed s = true \/ (runEpoch x < epoch s)%nat \/
  exists e, heap s !! object x = Some e /\ ((~ live (object x) s /\ (runEpoch x < entryEpoch e)%nat) \/ (requestedForce x < forceToken (state e))%nat).

Lemma retired_grows reads x s s' : grows true reads s s' -> retired x s -> retired x s'.
Proof.
  intros Hg [H|[H|(e & He & H)]]; [left; by apply Hg|right; left; pose proof (gr_epoch _ _ _ _ Hg); lia|].
  destruct (gr_heap _ _ _ _ Hg _ e He) as (e' & He' & _ & Hf & Hl & _). right. right. exists e'. split; [done|].
  destruct H as [[Hn H]|H]; [left|right; lia]. rewrite Hl by done. split; [|done]. intros Hl'. by apply Hn, (gr_live _ _ _ _ Hg); [eapply lookup_lt_Some|].
Qed.

Lemma not_live_retired r x s : Inv s -> runs s !! r = Some x -> ~ live (object x) s -> retired x s.
Proof.
  intros HI Hr Hl. destruct (disposed s) eqn:Hd; [by left|]. right. right. destruct (in_runs s HI r x Hr) as (_ & Ho & _).
  apply lookup_lt_is_Some in Ho as [e He]. exists e. split; [done|]. left. split; [done|]. by apply (in_retired s HI Hd r x e).
Qed.

(** A retired run lands nothing. *)
Lemma retired_lands r x s : runs s !! r = Some x -> retired x s -> reach false s (land (emit env rounds fuel) r s).
Proof.
  intros Hr Hret. unfold land. rewrite Hr. destruct (phase x) as [| |a| |]; try done.
  set (s1 := on_run r (at_phase Landed) s). assert (H1 : reach false s s1) by (by apply run_reach). etransitivity; [exact H1|].
  assert (Hemit : forall i s, reach false s (emit env rounds fuel i s)) by (intros; apply emit_reach).
  destruct a as [resp|c].
  - assert (Hret1 : retired x s1) by exact Hret. unfold responded. destruct (heap s1 !! object x) as [e|] eqn:Hi; [|done].
    destruct (disposed s1) eqn:Hd; [done|]. destruct (runEpoch x =? epoch s1)%nat eqn:Ee; [|done]. destruct (String.eqb (generation x) (generationIDValue s1)); [|done].
    destruct (entryEpoch e =? runEpoch x)%nat eqn:Een; [|done]. simpl. apply Nat.eqb_eq in Ee, Een.
    destruct (validate resp (generation x) (etag (state e))); [by apply fail_reach|].
    destruct (requestedForce x =? forceToken (state e))%nat eqn:Ef.
    + exfalso. apply Nat.eqb_eq in Ef. destruct Hret1 as [?|[?|(e' & He' & [[_ ?]|?])]]; [congruence|lia| |]; assert (e' = e) as -> by congruence; lia.
    + rewrite orb_true_r. etransitivity; [|by apply fail_reach]. apply mark_reach; marked.
  - unfold threw. destruct (aborted x); [done|]. destruct c; first [by apply fail_reach|by apply recover_reach].
Qed.

(** What supersedes the runs of a live key. *)
Definition supersedes (c : Call) (k : ResourceKey) (s : Revalidator) : Prop :=
  match c with
  | Force ks => k ∈ ks
  | Release k' => k' = k
  | ResetGeneration g => g <> generationIDValue s
  | Dispose => True
  | _ => False
  end.

Lemma force_retires ks s r x e : Inv s -> disposed s = false -> runs s !! r = Some x -> heap s !! object x = Some e -> key (state e) ∈ ks ->
  retired x (force (emit env rounds fuel) ks s).
Proof.
  intros HI Hd Hr He Hk. unfold force. rewrite Hd. clear Hd.
  set (f := fun s k => match entry_of k s with Some i => raise (emit env rounds fuel) i None true s | None => s end).
  assert (Hemit : forall i s, reach false s (emit env rounds fuel i s)) by (intros; apply emit_reach).
  assert (Hf : forall s k, reach false s (f s k)) by (intros s1 k; unfold f; destruct (entry_of k s1); [by apply raise_reach|done]).
  assert (Hkeep : forall x l s, Inv s -> retired x s -> retired x (foldl f s l)).
  { intros x0 l s1 HI1 H1. eapply retired_grows; [|exact H1]. apply (reach_grows false); [by apply fold_reach|done]. }
  revert x s e HI Hr He Hk. induction ks as [|k ks IH]; intros x s e HI Hr He Hk; [by apply not_elem_of_nil in Hk|]. simpl.
  assert (HI1 : Inv (f s k)) by (apply (reach_inv false s); [apply Hf|done]). destruct (decide (object x ∈ (entries s).*2)) as [Hl|Hl].
  2: { apply Hkeep; [done|]. eapply retired_grows; [by apply (reach_grows false); [apply Hf|]|]. by eapply not_live_retired. }
  apply elem_of_cons in Hk as [Hk|Hk].
  - apply Hkeep; [done|]. destruct (live_entry s _ HI Hl) as (e' & He' & Hin). assert (e' = e) as -> by congruence. rewrite Hk in Hin.
    unfold f. rewrite (proj2 (entry_of_spec s k (object x) HI) Hin). unfold raise. rewrite He. cbn [negb andb].
    set (s1 := on_entry (object x) (with_state (raised (targetRevision (state e)) (S (forceSequence s)))) (put_forceSequence (S (forceSequence s)) s)).
    assert (H1 : retired x s1).
    { right. right. eexists. split; [by apply on_entry_same|]. right. simpl. pose proof (in_runs s HI r x Hr) as (_ & _ & ?). lia. }
    assert (Hs1 : Inv s1) by (eapply (reach_inv false); [by apply reach_step, (st_force _ _ s (object x) e)|done]).
    match goal with |- retired _ ?b => assert (H2 : reach false s1 b) end.
    { etransitivity; [apply Hemit|]. destruct (heap (emit env rounds fuel (object x) s1) !! object x) as [e1|]; [|done].
      destruct (bool_decide (promise e1 = None)); [|apply mark_reach; marked]. destruct (request e1 && is_live _ _); [by apply start_reach|done]. }
    eapply retired_grows; [by apply (reach_grows false)|done].
  - destruct (reach_grows _ _ _ (Hf s k) HI) as [Hg _]. destruct (gr_heap _ _ _ _ Hg _ e He) as (e1 & He1 & Hk1 & _).
    destruct (gr_runs _ _ _ _ Hg r x Hr) as (y & Hy & E1 & E2 & E3 & E4).
    assert (Hret : retired y (foldl f (f s k) ks) -> retired x (foldl f (f s k) ks)) by (unfold retired; by rewrite E1, E2, E4).
    apply Hret, (IH y (f s k) e1); [done|done|by rewrite E1|by rewrite Hk1].
Qed.

Lemma release_retires k s r x e : Inv s -> disposed s = false -> runs s !! r = Some x -> heap s !! object x = Some e -> key (state e) = k -> retired x (release k s).
Proof.
  intros HI Hd Hr He Hk. assert (Hreach : reach false s (release k s)) by (apply release_reach).
  destruct (reach_grows _ _ _ Hreach HI) as [Hg _]. destruct (decide (object x ∈ (entries s).*2)) as [Hl|Hl].
  2: { eapply retired_grows; [exact Hg|]. by eapply not_live_retired. }
  destruct (gr_runs _ _ _ _ Hg r x Hr) as (y & Hy & E1 & E2 & E3 & E4). assert (HI' : Inv (release k s)) by (by eapply reach_inv).
  enough (Hret : retired y (release k s)) by (revert Hret; unfold retired; by rewrite E1, E2, E4).
  apply (not_live_retired r); [done|done|]. rewrite E1. intros Hl'.
  destruct (live_entry s _ HI Hl) as (e' & He' & Hin). assert (e' = e) as -> by congruence. rewrite Hk in Hin.
  destruct (live_entry _ _ HI' Hl') as (e2 & He2 & Hin'). destruct (gr_heap _ _ _ _ Hg _ e He) as (e3 & He3 & Hk3 & _).
  assert (e3 = e2) as -> by congruence. rewrite Hk3, Hk in Hin'. unfold release in Hin'. rewrite Hd, (proj2 (entry_of_spec s k _ HI) Hin) in Hin'.
  cbn [entries resolveTargetWaiters put_targetWaiters put_waits put_entries] in Hin'. by apply list_elem_of_filter in Hin' as [Hne _].
Qed.

Lemma dispose_disposes s : disposed (dispose s) = true.
Proof.
  unfold dispose. destruct (disposed s) eqn:Hd; [done|]. cbn [reject_all disposed put_invalidationWaiters put_targetWaiters put_waits put_entries].
  assert (H : disposed (put_disposed true s) = true) by done. revert H. generalize (put_disposed true s) as s1, (live_entries s) as l.
  intros s1 l. revert s1. induction l as [|e l IH]; intros s1 H; [done|]. simpl. apply IH. unfold abort. by destruct (controller e).
Qed.

Lemma superseded_retired c s r x e : Inv s -> runs s !! r = Some x -> heap s !! object x = Some e -> supersedes c (key (state e)) s ->
  retired x (take env rounds fuel (Called c) s).
Proof.
  intros HI Hr He Hc. assert (Hg : grows true true s (take env rounds fuel (Called c) s)) by (apply reach_grows; [apply take_reach|done]).
  destruct (disposed s) eqn:Hd; [left; by apply Hg|]. destruct c as [k|k|k|ks| |t|g| |ts g ks|p|id|p|p]; cbn [supersedes] in Hc; try done; cbn [take call].
  - by apply (release_retires k s r x e).
  - by apply (force_retires ks s r x e).
  - right. left. destruct (in_runs s HI r x Hr) as (? & _). pose proof (reset_epoch (emit env rounds fuel) rounds (emit_reach env rounds fuel) g s Hd Hc). lia.
  - left. apply dispose_disposes.
Qed.


(** ** Waiters *)

(** C22: No wait for targets outlives its answer: after every event, whatever listeners do,
    one that is still pending is of the current generation, has seen no failure that is
    not being retried, and names a live resource that has not reached it. *)
Theorem waits_settle_at_once g es id w : let s := play es (new_revalidator g) in
  (id, w) ∈ targetWaiters s ->
  waiter_generation w = generationIDValue s /\
  (forall t e, t ∈ targets w -> e ∈ live_entries s -> concerned (keys w) t (state e) = true -> error (state e) <> None -> rerun e = true) /\
  (exists t e, t ∈ targets w /\ e ∈ live_entries s /\ concerned (keys w) t (state e) = true /\ has_reached t (state e) = false).
Proof.
  intros s Hin. assert (Hs : settled s) by (apply play_settled; [apply new_inv|constructor]). unfold settled in Hs. rewrite Forall_forall in Hs.
  by apply verdict_none, (Hs (id, w)).
Qed.

(** What a pending wait can still be waiting for. *)
Definition in_sight (t : NavigationInvalidationTarget) (i : nat) (e : Entry) (s : Revalidator) : Prop :=
  (exists r x, promise e = Some r /\ runs s !! r = Some x /\ object x = i /\ aborted x = false /\ underway (phase x) e) \/
  untouched (state e) \/
  (stale (state e) = false /\ exists l n, loadedRevision (state e) = Some l /\ revision t = Some n /\ l < n).

(** C19: A pending wait has something to wait for: where listeners begin reads only on news
    of an answer, a resource it waits for has a request under way that can still land, was
    tracked and never asked for, or is fresh at a revision below the one waited for, of
    which no invalidation has told. *)
Theorem pending_waits_are_pursued g es id w : discreet env -> let s := play es (new_revalidator g) in
  (id, w) ∈ targetWaiters s ->
  exists t i e, t ∈ targets w /\ live i s /\ heap s !! i = Some e /\ concerned (keys w) t (state e) = true /\ has_reached t (state e) = false /\ in_sight t i e s.
Proof.
  intros Henv s Hin. assert (Hs : settled s) by (apply play_settled; [apply new_inv|constructor]). unfold settled in Hs. rewrite Forall_forall in Hs.
  destruct (proj1 (verdict_none _ _) (Hs (id, w) Hin)) as (_ & Hf & t & e & Ht & Hle & Hc & Hn). simpl in Ht, Hc. pose proof Hle as (i & Hl & He)%live_entries_spec.
  assert (HI : Inv s) by apply play_inv, new_inv. exists t, i, e. do 5 (split; [done|]).
  assert (HP : Pursued s) by (apply pursued_run; [done|apply new_inv|]; intros j Hj; by apply not_elem_of_nil in Hj). destruct (HP i Hl) as [P1 P2 _ _].
  destruct (promise e) as [r|] eqn:Hp; [left; destruct (P1 e r He Hp) as (_ & _ & x & ? & ? & ? & ? & ?); by exists r, x|right].
  destruct (P2 e He Hp) as [[Hld Hrest] Hrr]. assert (Herr : error (state e) = None).
  { destruct (error (state e)) eqn:E; [|done]. rewrite (Hf t e) in Hrr; [done|done|done|done|congruence]. }
  destruct Hrest as [Hst|[?|?]]; [right|done|by left]. split; [done|]. destruct (in_fresh s HI i e He Hst) as (l & Hlr & _).
  unfold has_reached in Hn. rewrite Hld, Hst, Herr, Hlr in Hn. rewrite bool_decide_eq_true_2 in Hn by done. simpl in Hn.
  destruct (is_location (key (state e))); [done|]. destruct (revision t) as [n|]; [|done]. exists l, n. do 2 (split; [done|]). lia.
Qed.
End runs.

(** ** Examples *)

Definition quiet : Environment := fun _ _ => [].

Definition version_at (n : Z) : NavigationResponse := mkResponse 200 "g" n "e" (Some (JStr "x")) None.

Definition manifest_at (n : Z) : NavigationInvalidationTarget := mkTarget "manifest" None None None None (Some n).

(** A read of run [r] answered in full. *)
Definition served (r : nat) (n : Z) : list Event := [Answers r (Responded (version_at n)); Lands r; Finishes r].

Definition the_entry (s : Revalidator) : option Entry := heap s !! 0%nat.

(** Fresh at 4, named at 7, read again: fresh at 7. *)
Lemma fresh_covers_invalidations_witness :
  let s := run quiet 1 1 (Called (Load Manifest) :: served 0 4) (new_revalidator "g") in
  let s' := run quiet 1 1 (served 1 7) (take quiet 1 1 (Called (Invalidate (manifest_at 7))) s) in
  exists e', heap s' !! 0%nat = Some e' /\ stale (state e') = false /\ exists l, loadedRevision (state e') = Some l /\ 7 <= l.
Proof.
  intros s s'. assert (He : exists e, heap s !! 0%nat = Some e /\ matchesTarget (key (state e)) (manifest_at 7) = true) by (vm_compute; eexists; done).
  assert (He' : exists e', heap s' !! 0%nat = Some e' /\ stale (state e') = false) by (vm_compute; eexists; done). destruct He as (e & He & Hm), He' as (e' & He' & Hst).
  exists e'. split; [exact He'|]. split; [exact Hst|].
  apply (fresh_covers_invalidations quiet 1 1 "g" (Called (Load Manifest) :: served 0 4) (served 1 7) (manifest_at 7) 0%nat e e'); [exact He|exact Hm| |vm_compute; reflexivity|exact He'|exact Hst].
  change (0%nat ∈ (entries s').*2). replace ((entries s').*2) with [0%nat] by (vm_compute; reflexivity). apply list_elem_of_here.
Defined.


(** A wait for revision 7 of a resource whose read is out. *)
Lemma waits_settle_at_once_witness :
  let s := run quiet 1 1 [Called (Load Manifest); Called (WaitForTargets [manifest_at 7] None None)] (new_revalidator "g") in
  exists w, (0%nat, w) ∈ targetWaiters s /\ waiter_generation w = generationIDValue s.
Proof.
  intros s. exists (mkWaiter [manifest_at 7] "g" None). assert (Hin : (0%nat, mkWaiter [manifest_at 7] "g" None) ∈ targetWaiters s) by (vm_compute; apply list_elem_of_here).
  split; [exact Hin|]. exact (proj1 (waits_settle_at_once quiet 1 1 "g" [Called (Load Manifest); Called (WaitForTargets [manifest_at 7] None None)] 0%nat _ Hin)).
Defined.

Lemma pending_waits_are_pursued_witness :
  let s := run quiet 1 1 [Called (Load Manifest); Called (WaitForTargets [manifest_at 7] None None)] (new_revalidator "g") in
  exists t i e, live i s /\ heap s !! i = Some e /\ has_reached t (state e) = false /\ in_sight t i e s.
Proof.
  intros s. assert (Hin : (0%nat, mkWaiter [manifest_at 7] "g" None) ∈ targetWaiters s) by (vm_compute; apply list_elem_of_here).
  assert (Hq : discreet quiet) by (intros n x _; constructor).
  destruct (pending_waits_are_pursued quiet 1 1 "g" [Called (Load Manifest); Called (WaitForTargets [manifest_at 7] None None)] 0%nat _ Hq Hin) as (t & i & e & _ & Hl & He & _ & Hr & Hs).
  exists t, i, e. split; [exact Hl|]. split; [exact He|]. split; [exact Hr|exact Hs].
Defined.

(** A listener that loads a resource as its first read is announced begins a second read of
    it: the entry's promise is set after the listeners ran. *)
Definition eager : Environment := fun n x => if (n =? 0)%nat then [Load (key x)] else [].

(** The second read's answer, late after a forced read refreshed the resource, marks it
    failed and to be re-read, with no run to do so: a wait for it stays pending and
    nothing is under way. *)
Example second_read_strands_resource :
  let s := run eager 2 2 (Called (Load Manifest) :: served 0 4 ++ Called (Force [Manifest]) :: served 2 5 ++ served 1 4 ++ [Called (WaitForTargets [manifest_at 5] None None)])%list
    (new_revalidator "g") in
  (targetWaiters s).*1 = [0%nat] /\ (phase <$> runs s) = [Finished; Finished; Finished] /\
  (fun e => (stale (state e), is_error (state e), rerun e, promise e)) <$> the_entry s = Some (true, true, true, None).
Proof. vm_compute. done. Qed.
